(* ===== verification/_CoqProject ===== *)
-Q . S2P
Prelude.v
JsLib.v
DecimalMath.v
FeeEngine.v
BondAmount.v
StateTransition.v
Horizon.v
Lease.v
Multisig.v
SlashingVotes.v
Disputes.v
Transaction.v
Wallets.v
Members.v
KeyManager.v
Kek.v
CircuitBreaker.v
AuditChain.v
PolicyEngine.v
PolicyStore.v
WorkerLease.v
Ssrf.v
Idempotency.v
Pagination.v
Settlements.v
ApiKeys.v
RateLimit.v
Webhooks.v
Imports.v
FeatureFlags.v
Currency.v
Redaction.v
Withdrawals.v
BondStream.v
Payouts.v
DeadLetters.v
WebhookDlq.v
Notifications.v
Recovery.v
Cache.v
Outbox.v
OutboxAtomic.v
Soroban.v
Backfill.v
Evidence.v
Retention.v
Analytics.v
Impersonation.v
AuthGuard.v
BackgroundJobs.v
JobWorkers.v
