(* ===== verification/Prelude.v ===== *)
(** * Credence backend: a verification development

    Credence-Backend is a TypeScript server for an on-chain trust protocol:
    identities post bonds, a Horizon listener ingests what happens to them on
    the Stellar chain, governance decides slashings and disputes, wallets and
    fees move money, and members administer organisations. This library models
    the parts of it that carry that logic and proves what they promise. Paths
    below are relative to the repository's [src/].

    ** How the parts fit together

    - Money. [lib/decimalMath.ts] computes on decimal strings; the fee engine
      ([services/billing]), the bond amounts ([lib/bondAmountMath.ts],
      [listeners/horizonWithdrawalEvents.ts]) and the wallets
      ([db/repositories/walletsRepository.ts]) call it. Wallets run inside
      [TransactionManager.withTransaction] ([db/transaction.ts]).
    - Lifecycles. [lib/stateTransition.ts] is a generic transition matrix;
      settlements, signing keys, KEKs, disputes, the outbox and Horizon
      ingestion are instances of it, and the services ask it before they
      change a status.
    - Ingestion. The withdrawal and bond listeners follow the operations of
      Horizon with a stored cursor; what they cannot use goes to the dead
      letters. [HorizonListener] applies chain events to a node repository
      as the ingestion matrix allows; [LeasedHorizonListener] does so only
      while its [LeaseManager] holds the stream's lease.
    - Governance. Multisig proposals, slashing votes and disputes are separate
      in-memory services with their own statuses and guards.
    - Access. The member service keeps organisations manageable; the key
      manager signs tokens and guards the key encryption keys; the circuit
      breaker protects the Soroban RPC client; the audit log links its rows by
      hashes, which a scheduled verifier checks in batches. The RBAC engine and
      the organisation policies decide who may act; API keys authenticate
      machine callers, whose requests the rate limiter counts per tenant and
      per key; the SSRF checks decide which hosts the server may call. Feature
      flags and the currency whitelist are settings that administrators change
      under audit.
    - Settlements. The payment orchestrator and the settlement service write
      settlements as the settlement matrix allows; the history route pages
      through them with the cursors of [lib/pagination.ts].
    - Delivery. Requests and messages are deduplicated by idempotency keys; a
      mutation and its outbox events are written in one transaction; the
      outbox workers elect a leader through an advisory lock. Incoming webhooks
      are admitted once; outgoing ones are signed, chunked, checked against the
      SSRF rules and sent once per event.
    - Imports. A CSV file is previewed, validated in a dry run under a column
      mapping, and committed row by row with a checkpoint to resume from.

    ** Files

    - [Prelude]: results of throwing code and their monad, the automation
      ([breflect], [invert_result], [case_test] and the hint databases),
      ordered JS maps, lists of integers.
    - [JsLib]: the functions of JavaScript's [String] and [BigInt] in use.
    - [DecimalMath]: [lib/decimalMath.ts].
    - [FeeEngine]: [services/billing/feeEngine.ts] and [types.ts].
    - [BondAmount]: [lib/bondAmountMath.ts], the computations of
      [listeners/horizonWithdrawalEvents.ts], [services/bond/*.ts].
    - [StateTransition]: [lib/stateTransition.ts] and, as modules, the tables
      of [services/settlementTransitions.ts], [services/keyManager/
      keyTransitions.ts], [services/governance/disputeStateMachine.ts] and
      [db/outbox/transitions.ts].
    - [Horizon]: [listeners/horizonTransitions.ts], [HorizonListener] of
      [listeners/horizon.listeners.ts] against the class [NodeRepo] (its
      repository interface) with the laws [NodeRepoLaws], and the default
      repository of [db/repository.ts] as module [InMemoryDb].
    - [Lease]: [LeaseManager] and [LeasedHorizonListener] of the same file.
    - [Multisig], [SlashingVotes], [Disputes]: the files of the same name in
      [services/governance/].
    - [Transaction]: [db/transaction.ts].
    - [Wallets]: [db/repositories/walletsRepository.ts],
      [walletTransactionsRepository.ts] and their tables in [db/schema.ts].
    - [Members]: [services/members/service.ts] on
      [repositories/member.repository.ts].
    - [KeyManager], [Kek]: the two classes of [services/keyManager/index.ts].
    - [CircuitBreaker]: [clients/circuitBreaker.ts].
    - [AuditChain]: the in-memory repository of
      [db/repositories/auditLogsRepository.ts] (appending and purging),
      [jobs/auditChainVerifier.ts] and [services/audit/chainStatus.ts].
    - [PolicyEngine]: [types/rbac.ts] and [services/rbac/policyEngine.ts].
    - [PolicyStore]: [store.ts], [evaluator.ts] and [service.ts] of
      [services/policy/].
    - [WorkerLease]: [jobs/workerLeaseManager.ts].
    - [Ssrf]: [lib/ssrfProtection.ts].
    - [Idempotency]: as modules, [Repository]
      ([db/repositories/idempotencyRepository.ts]), [Middleware] and [InFlight]
      ([middleware/idempotency.ts]; [Replay] has its theorem), [Consumer]
      ([services/idempotentConsumer.ts]) and [Guard]
      ([lib/idempotencyGuard.ts]).
    - [Pagination]: [lib/pagination.ts].
    - [Settlements]: [db/repositories/settlementsRepository.ts],
      [services/settlementService.ts], [services/shadowWrite.ts],
      [services/payment/orchestrator.ts] and the history handler of
      [routes/transactions.ts].
    - [ApiKeys]: [services/apiKeys.ts] on its in-memory store; as modules,
      [SingleFlight] ([lib/singleflight.ts]) and [Database] (the validation
      against [db/repositories/apiKeysRepository.ts]); [middleware/apiKey.ts]
      and [services/apiKeyRotationService.ts].
    - [RateLimit]: [middleware/rateLimit.ts], [middleware/authRateLimit.ts]
      and, as module [Overrides], [services/rateLimitOverride/service.ts] on
      [db/repositories/tenantRateLimitOverridesRepository.ts].
    - [Webhooks]: [services/webhooks/admission.ts] (module [Admission]),
      [delivery.ts] on [memoryStore.ts] (module [Delivery]).
    - [Imports]: [services/importPreviewService.ts],
      [services/imports/mapping.ts] (presets as module [Presets]) and
      [services/imports/commit.ts] (its lock as module [ImportLock]).
    - [FeatureFlags]: [services/featureFlags/index.ts] on its tables.
    - [Currency]: [services/currency/whitelist.ts].
    - [WebhookDlq]: [services/webhooks/service.ts] and
      [jobs/webhookDlqProcessor.ts] against the class [DlqStore] with the laws
      [DlqStoreLaws], which the queues of [services/webhooks/dlq.ts] and
      [services/webhooks/postgresDlqStore.ts] meet.
    - [Notifications]: [jobs/notificationIdempotency.ts] (module [Jobs]),
      [services/notifications/health.ts] (module [Health]),
      [services/notifications/delivery.ts] and
      [services/notifications/repository.ts].
    - [Recovery]: [clients/httpErrors.ts] and [utils/retryClassifier.ts] (module
      [Errors]), [lib/retryPolicy.ts] (module [Policy]), the retry executor
      (module [Retry]), and [lib/timeouts.ts], [lib/timeoutExecutor.ts],
      [utils/timeoutContext.ts] and [middleware/timeoutBudget.ts] (module
      [Timeouts]).
    - [Cache]: [cache/redis.ts], [cache/invalidation.ts] and
      [clients/sorobanStateCache.ts] (module [StateCache]).
    - [Outbox]: [db/outbox/repository.ts], [emitter.ts] (module [Emitter]),
      the validation of [atomic.ts] (module [Atomic]), [publisher.ts],
      [webhookPublisher.ts] and [types.ts] (module [Types]).
    - [OutboxAtomic]: the coordinator of [db/outbox/atomic.ts] and the batches of
      [emitter.ts], in the transactions of [Transaction].
    - [Soroban]: [clients/soroban.ts] (modules [Base64url], [Utf8] and [Json]
      for the platform, [Events] and [Replies]).
    - [Impersonation]: [services/impersonation/index.ts] on
      [repositories/impersonationTokenRepository.ts].
    - [AuthGuard]: [auth/concurrency.ts], over [ApiKeys.SingleFlight].
    - [Analytics]: [services/analytics/refreshStrategy.ts],
      [cacheGeneration.ts] and [service.ts], [jobs/analyticsRefreshWorker.ts]
      and [jobs/analyticsRefreshScheduler.ts].
    - [BackgroundJobs]: [jobs/scheduler.ts] and [jobs/lockedWorkers.ts] (module
      [Scheduler]), [jobs/keyRotationScheduler.ts] (module [RotationTimers]),
      [jobs/ringBuffer.ts] (module [Ring]) and three sweepers of [jobs/] (module
      [Sweepers]).
    - [JobWorkers]: [jobs/invoiceDueDate.ts] with its worker (module
      [Invoices]), [jobs/scoreSnapshot.ts] (module [Snapshots]) and
      [jobs/exportWorker.ts] (module [Exports]), over the loop of [Batches].
    - [Evidence]: [services/evidence/storage.ts], [erasureProof.ts] and
      [jobs/keyRotationWorker.ts] (against the class [EvidenceStore]), over
      [Kek], [KeyManager] and the class [AesGcm].
    - [Retention]: [jobs/dataRetentionJob.ts] on
      [repositories/retentionRepository.ts] and [Evidence].
    - [Backfill]: [db/repositories/backfillProgressRepository.ts] and
      [jobs/backfill/runner.ts], in a monad with exceptions and crashes.
    - [DeadLetters]: [db/repositories/failedInboundEventsRepository.ts],
      [services/replayService.ts] and [jobs/failedInboundEventsSweeper.ts].
    - [Withdrawals]: [listeners/horizonWithdrawalEvents.ts], the validation of
      [listeners/messageValidator.ts] and [schemas/queue.ts], and, as module
      [Cursors], [db/repositories/cursorRepository.ts].
    - [BondStream]: [listeners/horizonBondEvents.ts],
      [db/repositories/horizonEventRepository.ts],
      [services/horizonParity.ts] and, as module [Backoff],
      [utils/backoff.ts].
    - [Payouts]: [jobs/batchPayoutProcessor.ts] against the class [PayoutStore]
      with the laws [PayoutStoreLaws], which the settlements repository
      ([repositories/batchPayout.repository.ts]) meets; as module
      [Reconciler], [jobs/settlementReconciler.ts].
    - [Redaction]: [observability/redaction.ts], [observability/logSchemas.ts]
      and the correlation ids of [utils/logger.ts].

    ** How code became definitions

    Definitions keep the names of the source. A function that throws returns a
    [result]; a method that changes its object or a store takes the state and
    returns the new one, also on its error paths, since several of them write
    before they throw. Numbers are integers of type [Z]: the sources modelled
    here use [BigInt], or [number] for times, counts and indices far below
    2^53. Strings are sequences of code units below 256. A [Map] is a [gmap]
    where order does not matter and an association list where it does. A SQL
    statement is one atomic function on its tables, with the constraints of
    the schema as the SQLSTATE it fails with. Where a method awaits, either it
    is cut there into steps of a relation ([Lease], [KeyManager],
    [CircuitBreaker], [WorkerLease], [RateLimit], [ApiKeys.Database],
    [Idempotency.InFlight], [Idempotency.Consumer], [Imports.ImportLock],
    [Evidence], [Settlements], [Impersonation], [Cache], [AuthGuard] and
    [BackgroundJobs]) or what
    other sessions do at the await is a parameter
    ([Transaction], [Members], [Lease.process]).

    Parameters stand for what is outside the repository: the clock, generated
    ids, failures of the database, [localeCompare] (class [LocaleOrder]), how
    PostgreSQL reads a numeric literal (class [NumericInput]), the [jose]
    library (class [Jose]), AES-256-GCM (class [AesGcm]), SHA-256, HMAC, the JSON text of a cursor or payload,
    the answers of a webhook's receiver, Horizon (classes [Horizon] and
    [StreamServer]), the integer test and issues of zod, the rows of the CSV parser, the email
    test of zod, and the parsing of dates, numbers and URLs. Each class states
    documented behaviour only, and an instance shows that it can be met; of
    SHA-256 it is assumed that the digest is hexadecimal and that the texts at
    hand do not collide, never that it is injective.

    Recursion is structural, with five exceptions. Printing a [BigInt] uses fuel
    [log2 n + 1], which covers the digits of [n] ([bigint_toString_spec]). The
    retry loop of [withTransaction] uses fuel [maxRetries + 1], the number of
    attempts it can make; [withTransaction_ends] proves that it is enough.
    The batches of the chain verifier use fuel [length table + 2], since every
    full batch moves past a row ([verify_loop_scan]); the purge loop has the
    source's own bound on its rounds ([purge_loop_exact]). A client that follows
    cursors or page links is a walk with fuel; the theorems show that one more
    than the number of rows (or the number of pages) is enough.

    ** What the theorems show

    - Decimals ([DecimalMath]): sums, differences, products and comparisons are
      exact rationals; division and rounding give the rounded exact value in
      every mode; rounding is idempotent on strings; the bounds check decides
      exactly what a NUMERIC column can hold.
    - Fees and bonds: a fee is the exact percentage rounded once and the total
      adds up; a withdrawal leaves [max(0, current - withdrawn)]; the snapshot
      threshold is exact.
    - Transactions and wallets: a transaction commits exactly one successful
      run of its callback or nothing, with the right hooks, retries and delays
      (but for the hooks after a lost acknowledgement of a COMMIT);
      crediting and debiting are exact on every branch; in every reachable
      state every balance is in range and is the replay of its ledger from the
      opening balance, whatever failed or was retried on the way.
    - State machines: a matrix is exactly the list it was built from.
    - Ingestion: events follow the matrix, redelivery is a no-op, withdrawn is
      final; at most one instance of a stream passes the fencing guard, an
      evicted one is fenced off, takeover keeps the cursor, and an event is
      acknowledged only when its cursor is stored.
    - Governance: an approved or executed proposal has its quorum of authorized
      signers and only moves forward; the slashing tally and its early
      decisions are right; disputes follow their state machine, filing checks
      everything it should, and the pages of the listing tile it.
    - Access: calls that do not overlap keep an owner in every organisation,
      keep memberships unique and never touch another organisation; a token
      verifies for the whole grace window through any interleaving of
      rotations; key encryption keys are activated under dual control only.
    - The circuit breaker trips at its threshold, holds for its whole window
      and admits one probe per half-open period.
    - Audit log: verification in batches is one pass over the table, accepts
      exactly the chains that are linked, gap free and rightly hashed, and is
      tamper evident; appended logs verify unless an entry has a request id;
      the purge deletes exactly what expired, and the verifier notices it.
    - Authorization: [wildcardMatch] is glob matching; [check] allows exactly
      when a matching rule grants the caller and logs every decision; a cached
      policy decision is on the current rules of the organisation.
    - Outbound requests: the two SSRF checks block exactly the listed ranges.
    - Leadership: at most one worker leads through a live session, the lock
      never leaks into the pool, and no running worker is ever stuck.
    - Idempotency: a stored success is replayed, as it reads back, to the same
      caller and body and to nobody else; the in-process lock and the consumer never overlap two
      executions of a key, within the stated limits.
    - Settlements: however calls overlap, a settlement that is settled while no
      call for it is past its check stays so; the pages of the history
      end and show every settlement once; a payment is settled exactly when it
      passes ingestion, validation and the risk threshold.
    - API keys and rate limits: in the database a key validates only with an active
      row of its hash, and once it is revoked and no lookup is half done, no later
      call is told that it is valid; the in-memory store of the tests validates
      exactly the active keys; a bucket admits exactly its limit in a
      window, however requests interleave.
    - Webhooks: an incoming event is accepted once and only if signed and
      fresh, while its record is kept; the chunks of a payload cover it; an event delivered completely is
      not sent again and one that failed can be.
    - Imports: the dry run reports the first errors of a reference validation
      and accepts exactly the valid files; an import repeated under its key
      writes every row once.
    - Feature flags: an evaluation uses what the tables held within the lifetime
      of the cache, and the current rows where no other instance writes; the
      listing agrees with it, and raising a percentage takes nothing away.
    - Redaction: what is logged does not depend on the values under sensitive
      names, and keeps to the fields its schema lists, errors apart, on any object
      graph.
    - Withdrawals: nothing up to the checkpoint is skipped, whatever fails.
    - Bond creation: while one stream is open at a time and the ledger has at
      most 1000 events, it stays in parity with the identities; the verifier
      decides exactly that; delays of the backoff are bounded.
    - Payouts: a transaction hash is executed at most once over any batches; a
      reconciliation run records exactly the disagreements with the chain.
    - Webhook events: none that is accepted is lost to a subscriber, but for a
      reservation left behind by a failed statement; what a run
      over the dead letters does; both queues refine one specification.
    - Notifications: a mail is accepted once; claims of jobs exclude each other;
      a delivery always ends.
    - Errors, retries and timeouts: the classifiers of errors agree, within the
      stated limits; retries, their delays and the time of a request are bounded,
      the latter by the header of the request as well.
    - Cache: the first level is coherent with Redis under any overlap of the
      operations of a process, but for patterns with special characters; a tenant is cleared exactly.
    - Outbox: as the publisher is written an event is published at most once
      under any interleaving and crash of the consumers (a failed publication is
      not retried); every statement follows the lifecycle and loses
      no event; a mutation and its events are committed together or not at all.
    - Soroban client: an event cursor survives its round trip through JSON,
      UTF-8 and base64url.
    - Impersonation: tokens are bounded in time, accounted for and end with
      their revocation. A burst of lookups of an API key gets one verdict, and a
      change of its scopes is noticed.
    - Analytics: a refresh is all or none for the readers, whatever fails.
    - Jobs: the ring buffer refines a bounded queue; due invoices are triggered
      once; sweeps end and delete what has expired; a scheduled job runs in one
      place at a time; exports are closed or aborted.
    - Evidence: what is stored is read back until it is shredded, legal holds
      hold, every erasure is proved; a rotation of keys ends and keeps the
      texts. Retention removes exactly what has expired from the four tables that
      lose rows.
    - Backfills without an initial cursor, of fewer keys than the cap of batches:
      progress markers never run ahead of the work, whatever fails
      or crashes, and a run without faults completes.
    - Dead letters: an event is replayed successfully at most once; what a sweep
      deletes, and that it ends.
    - Currency whitelist: the audit log replays to the current set.
    - Pagination: cursors round trip and cannot be forged; accepted parameters
      are in range.
    - Defects, as theorems: [default_repository_rejects],
      [resolve_overwrites_terminal], [last_owner_race],
      [failed_rotation_wedges], [zeroized_version_activates],
      [unreadable_timestamp_deleted], [shifted_columns_collide],
      [bond_reactivates], [shadow_always_mismatches], [status_check_race],
      [coalesced_after_revocation], [signing_material_ambiguous],
      [oversized_item_unmarked], [rotation_drops_previous],
      [preset_version_collision], [late_store_outlives_update],
      [sharp_s_accepted], [any_logged_as_circular], [shared_logged_once],
      [legacy_circular_overflows], [event_applied_at_every_poll],
      [other_operations_stall], [now_never_advances], [large_ids_rejected],
      [overlapping_messages_break_parity], [lost_acknowledgements_break_parity],
      [long_ledger_reported], [failed_event_passed],
      [failed_payout_not_retried], [resubmission_unsettles],
      [retryable_items_unusable], [replayed_twice_after_error],
      [swept_event_replayed_again], [list_by_type_fails],
      [failing_entry_starves], [emit_error_loses_failures],
      [reservations_collide], [unrecorded_success_resent],
      [ambiguous_delivery_resent], [simultaneous_attempts_resent],
      [reconciled_mail_resent], [wrapped_403_retried],
      [aborted_403_disagrees], [nan_override_unclamped], [own_budget_throws],
      [cyclic_cause_overflows], [promoted_entry_outlives_ttl],
      [string_changes_type], [pattern_not_cleared], [failed_clear_reported],
      [invalidated_state_returns], [failed_publish_lost],
      [crash_before_publish_lost], [stop_publishes_twice],
      [negative_hash_never_claimed], [published_row_quarantined],
      [next_attempt_kept], [silent_mutation_refused], [batch_written_in_part],
      [quarantine_total_lost], [known_event_quarantined],
      [transition_tables_disagree], [second_page_refused],
      [null_token_type_error], [initial_cursor_lost], [cap_reports_completed],
      [hold_during_shred_lost], [envelope_not_rotated],
      [rotation_loses_evidence], [environment_key_shadowed],
      [org_run_shreds_others], [wrong_row_deleted], [shredded_not_counted],
      [second_revocation_logged], [unaudited_token_valid],
      [comma_scopes_collide], [success_not_recorded], [failed_status_sticks],
      [cooldown_only_once], [threshold_one_never_cools],
      [every_second_tick], [restart_overlaps], [zero_batch_spins],
      [due_worker_spins], [load_failure_stops], [compensated_though_committed],
      [traced_emission_fails], [settled_reset_without_status],
      [text_answer_not_replayed], [reservation_left_behind],
      [missing_row_refreshed], [timeout_leaks], [pattern_strays],
      [normalized_not_retried], [error_message_logged], and
      the second halves of [inflight_mutex] and [ssrf_ipv6_exact].

    ** What is not modelled

    HTTP routes, schemas and SDKs (glue around the services); logging, metrics,
    tracing and cache invalidation (no effect on the modelled state);
    migrations; everything computed with floating-point numbers (reputation
    scores, weighted votes). The outbox repository does not parse as it stands:
    its statements are modelled. *)

From stdpp Require Import base option list strings gmap.
From Stdlib Require Import ZArith Lia.

Declare Scope credence_scope.
Delimit Scope credence_scope with cred.
Open Scope Z_scope.

(** ** Results: a value, or the error the source throws *)

Inductive result (E A : Type) : Type :=
| Ok (a : A)
| Err (e : E).
Arguments Ok {E A} a.
Arguments Err {E A} e.

#[export] Instance result_ret {E} : MRet (result E) := λ A, @Ok E A.
#[export] Instance result_bind {E} : MBind (result E) := λ A B f m,
  match m with Ok a => f a | Err e => Err e end.
#[export] Instance result_fmap {E} : FMap (result E) := λ A B f m,
  match m with Ok a => Ok (f a) | Err e => Err e end.

#[export] Instance result_eq_dec `{EqDecision E, EqDecision A} : EqDecision (result E A).
Proof. solve_decision. Defined.

(** [if (cond) throw err]. *)
Definition throw_if {E} (cond : bool) (err : E) : result E () :=
  if cond then Err err else Ok ().

(** A caught exception: [try { m } catch { h }]. *)
Definition try_catch {E F A} (m : result E A) (h : E → result F A) : result F A :=
  match m with Ok a => Ok a | Err e => h e end.

Definition isOk {E A} (m : result E A) : bool :=
  match m with Ok _ => true | Err _ => false end.

Definition isSome {A} (o : option A) : bool :=
  match o with Some _ => true | None => false end.

(** [!s] on an optional string: missing or empty. *)
Definition falsy (s : option string) : bool :=
  match s with None => true | Some t => String.eqb t EmptyString end.

Lemma bind_Ok_inv {E A B} (m : result E A) (f : A → result E B) b :
  m ≫= f = Ok b ↔ ∃ a, m = Ok a ∧ f a = Ok b.
Proof. destruct m; naive_solver. Qed.

Lemma bind_Err_inv {E A B} (m : result E A) (f : A → result E B) e :
  m ≫= f = Err e ↔ m = Err e ∨ ∃ a, m = Ok a ∧ f a = Err e.
Proof. destruct m; naive_solver. Qed.

Lemma throw_if_Ok {E} (c : bool) (e : E) u : throw_if c e = Ok u ↔ c = false.
Proof. destruct c, u; naive_solver. Qed.

Lemma throw_if_Err {E} (c : bool) (e e' : E) :
  throw_if c e = Err e' ↔ c = true ∧ e = e'.
Proof. destruct c; naive_solver. Qed.

Lemma isOk_true {E A} (m : result E A) : isOk m = true ↔ ∃ a, m = Ok a.
Proof. destruct m; naive_solver. Qed.

(** ** Automation *)

Create HintDb credence.

(** Reflect the boolean tests of the code into propositions, in the context
    and in the goal. *)
Create Rewrite HintDb credence_bool.
#[export] Hint Rewrite Bool.andb_true_iff Bool.andb_false_iff Bool.orb_true_iff
  Bool.orb_false_iff Bool.negb_true_iff Bool.negb_false_iff
  Z.ltb_lt Z.ltb_ge Z.leb_le Z.leb_gt Z.gtb_lt Z.geb_le Z.eqb_eq Z.eqb_neq
  String.eqb_eq String.eqb_neq
  bool_decide_eq_true bool_decide_eq_false : credence_bool.

Ltac breflect := autorewrite with credence_bool in *.

(** Turn a successful or failed monadic computation in the context into the
    facts about its parts. *)
Ltac invert_result :=
  repeat match goal with
  | H : _ ≫= _ = Ok _ |- _ => apply bind_Ok_inv in H as (? & ? & H)
  | H : throw_if _ _ = Ok _ |- _ => apply throw_if_Ok in H
  | H : throw_if _ _ = Err _ |- _ => apply throw_if_Err in H as [H ?]
  | H : Ok _ = Ok _ |- _ => injection H as H; try subst
  | H : Err _ = Err _ |- _ => injection H as H; try subst
  | H : Ok _ = Err _ |- _ => discriminate H
  | H : Err _ = Ok _ |- _ => discriminate H
  | H : mret _ = Ok _ |- _ => injection H as H; try subst
  end.

(** Case analysis on the innermost test of an [if] or [match] in the goal. *)
Ltac case_test :=
  match goal with
  | |- context [ if ?c then _ else _ ] =>
      lazymatch c with
      | context [ if _ then _ else _ ] => fail
      | context [ match _ with _ => _ end ] => fail
      | _ => let E := fresh "Htest" in destruct c eqn:E
      end
  end.

(** The same on the tests of a hypothesis. *)
Ltac case_test_in H :=
  match type of H with
  | context [ if ?c then _ else _ ] =>
      lazymatch c with
      | context [ if _ then _ else _ ] => fail
      | context [ match _ with _ => _ end ] => fail
      | _ => let E := fresh "Htest" in destruct c eqn:E
      end
  end.

(** ** Generic lemmas *)

Lemma forallb_app_iff {A} (p : A → bool) l1 l2 :
  forallb p (l1 ++ l2) = forallb p l1 && forallb p l2.
Proof. apply forallb_app. Qed.

(** The sum of a list of integers, [reduce((s, x) => s + f(x), 0)]. *)
Definition sumZ {A} (f : A → Z) (l : list A) : Z :=
  foldr (λ x acc, f x + acc) 0 l.

Lemma sumZ_app {A} (f : A → Z) l1 l2 : sumZ f (l1 ++ l2) = sumZ f l1 + sumZ f l2.
Proof. induction l1; simpl; lia. Qed.

Lemma sumZ_nonneg {A} (f : A → Z) l :
  (∀ x, x ∈ l → 0 ≤ f x) → 0 ≤ sumZ f l.
Proof.
  induction l as [|x l IH]; intros H; simpl; [lia|].
  assert (0 ≤ f x) by (apply H; left).
  assert (0 ≤ sumZ f l) by (apply IH; intros; apply H; by right). lia.
Qed.

Lemma list_filter_id {A} (P : A → Prop) `{∀ x, Decision (P x)} (l : list A) :
  (∀ x, x ∈ l → P x) → filter P l = l.
Proof.
  induction l as [|a l IH]; intros Hall; [done|]. rewrite filter_cons_True by (apply Hall; left).
  f_equal. apply IH. intros. apply Hall. by right.
Qed.

Lemma list_filter_none {A} (P : A → Prop) `{∀ x, Decision (P x)} (l : list A) :
  (∀ x, x ∈ l → ¬ P x) → filter P l = [].
Proof.
  induction l as [|a l IH]; intros Hall; [done|]. rewrite filter_cons_False by (apply Hall; left).
  apply IH. intros. apply Hall. by right.
Qed.

Lemma list_filter_ext {A} (P Q : A → Prop) `{∀ x, Decision (P x), ∀ x, Decision (Q x)} (l : list A) :
  (∀ x, x ∈ l → P x ↔ Q x) → filter P l = filter Q l.
Proof.
  induction l as [|x l IH]; intros H1; [done|]. rewrite !filter_cons, IH by (intros; apply H1; by right).
  destruct (decide (P x)) as [Hp|Hp], (decide (Q x)) as [Hq|Hq]; try done; exfalso; apply H1 in Hp || apply Hp, H1; (done || left).
Qed.

Lemma elem_of_list_delete {A} (x : A) (i : nat) (l : list A) : x ∈ delete i l → x ∈ l.
Proof.
  revert i. induction l as [|y l IH]; intros [|i]; simpl; [done..| |].
  - intros. by right.
  - intros [ ->|H]%elem_of_cons; [left|right; eauto].
Qed.

(** ** Ordered maps

    A JS [Map] iterates in insertion order; [set] on a key it has keeps the
    place of that key. *)

Abbreviation jsmap K V := (list (K * V)).

Section JsMap.
Context {K V : Type} `{EqDecision K}.

Fixpoint jm_get (k : K) (m : jsmap K V) : option V :=
  match m with
  | [] => None
  | (k', v) :: m' => if decide (k' = k) then Some v else jm_get k m'
  end.

Fixpoint jm_set (k : K) (v : V) (m : jsmap K V) : jsmap K V :=
  match m with
  | [] => [(k, v)]
  | (k', v') :: m' => if decide (k' = k) then (k, v) :: m' else (k', v') :: jm_set k v m'
  end.

Definition jm_delete (k : K) (m : jsmap K V) : jsmap K V := filter (λ e, e.1 ≠ k) m.

Definition jm_keys (m : jsmap K V) : list K := m.*1.
Definition jm_values (m : jsmap K V) : list V := m.*2.

Lemma jm_get_set k k' v m :
  jm_get k' (jm_set k v m) = if decide (k = k') then Some v else jm_get k' m.
Proof.
  induction m as [|[k0 v0] m IH]; simpl; [by repeat case_decide|].
  destruct (decide (k0 = k)) as [->|]; simpl; [by repeat case_decide|].
  rewrite IH. by repeat case_decide; subst.
Qed.

Lemma jm_keys_set k v m :
  jm_keys (jm_set k v m) = if decide (k ∈ jm_keys m) then jm_keys m else jm_keys m ++ [k].
Proof.
  unfold jm_keys. induction m as [|[k0 v0] m IH]; [done|]. cbn [jm_set].
  destruct (decide (k0 = k)) as [->|Hne]; cbn [fmap list_fmap fst].
  - rewrite decide_True by left. done.
  - rewrite IH. repeat case_decide; set_solver.
Qed.

Lemma jm_NoDup_set k v m : NoDup (jm_keys m) → NoDup (jm_keys (jm_set k v m)).
Proof.
  intros H. rewrite jm_keys_set. case_decide; [done|]. apply NoDup_app.
  split_and!; [done|set_solver|apply NoDup_singleton].
Qed.

Lemma jm_get_filter (P : K * V → Prop) `{∀ x, Decision (P x)} k m : NoDup (jm_keys m) →
  jm_get k (filter P m) =
    v ← jm_get k m; if decide (P (k, v)) then Some v else None.
Proof.
  unfold jm_keys. induction m as [|[k0 v0] m IH]; [done|].
  intros [Hni Hnd]%NoDup_cons. specialize (IH Hnd). rewrite filter_cons. cbn [jm_get].
  destruct (decide (P (k0, v0))) as [Hp|Hp]; simpl; destruct (decide (k0 = k)) as [->|]; simpl;
    try done.
  - by rewrite decide_True.
  - rewrite decide_False by done. rewrite IH.
    assert (jm_get k m = None) as ->; [|done]. clear -Hni.
    induction m as [|[k1 v1] m IH]; simpl in *; [done|].
    rewrite decide_False by set_solver. apply IH. set_solver.
Qed.

Lemma jm_NoDup_filter (P : K * V → Prop) `{∀ x, Decision (P x)} m :
  NoDup (jm_keys m) → NoDup (jm_keys (filter P m)).
Proof.
  unfold jm_keys. induction m as [|[k0 v0] m IH]; [done|]. intros [Hn Hl]%NoDup_cons.
  rewrite filter_cons. case_decide; [|auto]. apply NoDup_cons. split; [|auto].
  intros (e & ? & [_ He]%list_elem_of_filter)%list_elem_of_fmap. apply Hn, list_elem_of_fmap. eauto.
Qed.

Lemma jm_get_elem k v m : NoDup (jm_keys m) → jm_get k m = Some v ↔ (k, v) ∈ m.
Proof.
  unfold jm_keys. induction m as [|[k0 v0] m IH]; simpl; [set_solver|].
  intros [Hni Hnd]%NoDup_cons. rewrite elem_of_cons, <- IH by done.
  case_decide as E; [subst|naive_solver].
  assert (jm_get k m ≠ Some v).
  { intros H%IH; [|done]. apply Hni. apply list_elem_of_fmap. by exists (k, v). }
  naive_solver.
Qed.

Lemma jm_length_set k v m :
  length (jm_set k v m) = match jm_get k m with Some _ => length m | None => S (length m) end.
Proof.
  induction m as [|[k0 v0] m IH]; simpl; [done|]. case_decide; simpl; [done|].
  rewrite IH. by destruct (jm_get k m).
Qed.

Lemma jm_get_map (f : V → V) k m :
  jm_get k ((λ e, (e.1, f e.2)) <$> m) = f <$> jm_get k m.
Proof. induction m as [|[k0 v0] m IH]; simpl; [done|]. by case_decide. Qed.

Lemma jm_keys_map (f : V → V) m : jm_keys ((λ e, (e.1, f e.2)) <$> m) = jm_keys m.
Proof. unfold jm_keys. rewrite <- list_fmap_compose. by apply list_fmap_ext. Qed.
End JsMap.
