(* ===== verification/JsLib.v ===== *)
(** * The JavaScript library functions the sources call

    Strings are [string]: each character is one code unit below 256; the
    functions of [String.prototype] used by the sources ([trim], [slice],
    [indexOf], [padStart], [startsWith]) and the [BigInt] conversions of digit
    strings are written out here, with the lemmas the components share. *)

From stdpp Require Import base option list strings.
From Stdlib Require Import ZArith Lia Ascii String.
From S2P Require Import Prelude.

Open Scope Z_scope.

#[global] Arguments String.append !_ _ : simpl nomatch.

(** ** Characters *)

Definition code (c : ascii) : Z := Z.of_N (N_of_ascii c).

Definition is_digit (c : ascii) : bool := (48 <=? code c) && (code c <=? 57).

(** The white space and line terminators [trim] removes, below 256. *)
Definition is_space (c : ascii) : bool :=
  ((9 <=? code c) && (code c <=? 13)) || (code c =? 32) || (code c =? 160).

Definition digit_val (c : ascii) : Z := code c - 48.
Definition digit_char (d : Z) : ascii := ascii_of_N (Z.to_N (48 + d)).

(** ** Strings *)

Definition slen (s : string) : Z := Z.of_nat (String.length s).

Fixpoint str_forallb (p : ascii → bool) (s : string) : bool :=
  match s with
  | EmptyString => true
  | String c s' => p c && str_forallb p s'
  end.

Fixpoint trimStart (s : string) : string :=
  match s with
  | EmptyString => EmptyString
  | String c s' => if is_space c then trimStart s' else s
  end.

Fixpoint trimEnd (s : string) : string :=
  match s with
  | EmptyString => EmptyString
  | String c s' =>
      match trimEnd s' with
      | EmptyString => if is_space c then EmptyString else String c EmptyString
      | t => String c t
      end
  end.

Definition trim (s : string) : string := trimEnd (trimStart s).

Definition startsWith (s : string) (c : ascii) : bool :=
  match s with
  | EmptyString => false
  | String c' _ => Ascii.eqb c' c
  end.

(** [s.indexOf(c)], [-1] when absent. *)
Fixpoint indexOf (s : string) (c : ascii) : Z :=
  match s with
  | EmptyString => -1
  | String c' s' =>
      if Ascii.eqb c' c then 0
      else let i := indexOf s' c in if i =? -1 then -1 else i + 1
  end.

(** [s.slice(i)] and [s.slice(0, j)] at non-negative indices. *)
Fixpoint str_drop (n : nat) (s : string) : string :=
  match n, s with
  | O, _ => s
  | S _, EmptyString => EmptyString
  | S n', String _ s' => str_drop n' s'
  end.

Fixpoint str_take (n : nat) (s : string) : string :=
  match n, s with
  | O, _ => EmptyString
  | S _, EmptyString => EmptyString
  | S n', String c s' => String c (str_take n' s')
  end.

Definition sliceFrom (s : string) (i : Z) : string := str_drop (Z.to_nat i) s.
Definition sliceTo (s : string) (j : Z) : string := str_take (Z.to_nat j) s.

Fixpoint str_repeat (c : ascii) (n : nat) : string :=
  match n with
  | O => EmptyString
  | S n' => String c (str_repeat c n')
  end.

Definition padStart (s : string) (w : Z) (c : ascii) : string :=
  str_repeat c (Z.to_nat (w - slen s)) +:+ s.

(** [s.replace(/^0+/, '')] *)
Fixpoint strip_leading (c : ascii) (s : string) : string :=
  match s with
  | EmptyString => EmptyString
  | String c' s' => if Ascii.eqb c' c then strip_leading c s' else s
  end.

(** Longest prefix of digits and the rest: what [\d+] or [\d*] consumes when
    what follows it in the pattern is not a digit. *)
Fixpoint span_digits (s : string) : string * string :=
  match s with
  | EmptyString => (EmptyString, EmptyString)
  | String c s' =>
      if is_digit c then let '(d, r) := span_digits s' in (String c d, r)
      else (EmptyString, s)
  end.

(** [l.slice(s, e)] on an array, negative indices counting from the end. *)
Definition js_index (n k : Z) : Z := if k <? 0 then Z.max 0 (n + k) else Z.min k n.

Definition js_slice {A} (l : list A) (s e : Z) : list A :=
  let n := Z.of_nat (List.length l) in
  take (Z.to_nat (js_index n e - js_index n s)) (drop (Z.to_nat (js_index n s)) l).

(** ** BigInt and decimal digits *)

(** [BigInt(s)] on a string of digits; [BigInt('')] is [0n]. *)
Fixpoint BigInt_acc (acc : Z) (s : string) : Z :=
  match s with
  | EmptyString => acc
  | String c s' => BigInt_acc (10 * acc + digit_val c) s'
  end.

Definition BigInt (s : string) : Z := BigInt_acc 0 s.

(** [n.toString()] for a non-negative [n]; the fuel [log2 n + 1] is at least
    the number of decimal digits of [n]. *)
Fixpoint toString_fuel (fuel : nat) (n : Z) (acc : string) : string :=
  match fuel with
  | O => acc
  | S fuel' =>
      let acc' := String (digit_char (n mod 10)) acc in
      if n / 10 =? 0 then acc' else toString_fuel fuel' (n / 10) acc'
  end.

Definition bigint_toString (n : Z) : string :=
  toString_fuel (S (Z.to_nat (Z.log2 n))) n EmptyString.

(** The digit values of [BigInt]'s radix literals. *)
Definition hex_val (c : ascii) : option Z :=
  let n := code c in
  if (48 <=? n) && (n <=? 57) then Some (n - 48)
  else if (65 <=? n) && (n <=? 70) then Some (n - 55)
  else if (97 <=? n) && (n <=? 102) then Some (n - 87)
  else None.

Fixpoint radix_acc (r acc : Z) (s : string) : option Z :=
  match s with
  | EmptyString => Some acc
  | String c s' =>
      match hex_val c with
      | Some d => if d <? r then radix_acc r (r * acc + d) s' else None
      | None => None
      end
  end.

Definition radix_digits (r : Z) (s : string) : option Z :=
  match s with EmptyString => None | _ => radix_acc r 0 s end.

(** [BigInt(s)] on any string: white space is trimmed, the empty string is
    zero, a sign is allowed before decimal digits only, and [0x], [0o], [0b]
    give the radix; [None] is the [SyntaxError]. *)
Definition BigInt_of_string (s : string) : option Z :=
  match trim s with
  | EmptyString => Some 0
  | String c rest as t =>
      if Ascii.eqb c "-" then Z.opp <$> radix_digits 10 rest
      else if Ascii.eqb c "+" then radix_digits 10 rest
      else match t with
      | String "0" (String "x" r) | String "0" (String "X" r) => radix_digits 16 r
      | String "0" (String "o" r) | String "0" (String "O" r) => radix_digits 8 r
      | String "0" (String "b" r) | String "0" (String "B" r) => radix_digits 2 r
      | _ => radix_digits 10 t
      end
  end.

(** [s.toLowerCase()], below 128. *)
Definition lower_char (c : ascii) : ascii :=
  if (65 <=? code c) && (code c <=? 90) then ascii_of_N (Z.to_N (code c + 32)) else c.

Fixpoint toLowerCase (s : string) : string :=
  match s with
  | EmptyString => EmptyString
  | String c s' => String (lower_char c) (toLowerCase s')
  end.

(** [s.toUpperCase()], below 128. *)
Definition upper_char (c : ascii) : ascii :=
  if (97 <=? code c) && (code c <=? 122) then ascii_of_N (Z.to_N (code c - 32)) else c.

Fixpoint toUpperCase (s : string) : string :=
  match s with
  | EmptyString => EmptyString
  | String c s' => String (upper_char c) (toUpperCase s')
  end.

(** ** Lemmas *)

Lemma lower_char_idem c : lower_char (lower_char c) = lower_char c.
Proof.
  unfold lower_char at 2 3. case_test; [|unfold lower_char; by rewrite Htest].
  breflect. unfold lower_char.
  assert (code (ascii_of_N (Z.to_N (code c + 32))) = code c + 32) as ->.
  { unfold code at 1. rewrite N_ascii_embedding; lia. }
  destruct (Z.leb_spec (code c + 32) 90); [lia|]. by rewrite andb_false_r.
Qed.

Lemma toLowerCase_idem s : toLowerCase (toLowerCase s) = toLowerCase s.
Proof. induction s; simpl; [done|]. by rewrite lower_char_idem, IHs. Qed.

(** [s.startsWith(p)] and [s.endsWith(t)] for strings. *)
Fixpoint startsWithStr (s p : string) : bool :=
  match p, s with
  | EmptyString, _ => true
  | String c p', String d s' => Ascii.eqb c d && startsWithStr s' p'
  | String _ _, EmptyString => false
  end.

(** [s.includes(t)]. *)
Fixpoint includes (s t : string) : bool :=
  startsWithStr s t || match s with EmptyString => false | String _ s' => includes s' t end.

Fixpoint endsWith (s t : string) : bool :=
  String.eqb s t || match s with EmptyString => false | String _ s' => endsWith s' t end.

Lemma startsWithStr_spec s p : startsWithStr s p = true ↔ ∃ u, s = p +:+ u.
Proof.
  revert s. induction p as [|c p IH]; intros s.
  - destruct s; split; simpl; eauto.
  - destruct s as [|d s]; simpl; [split; [done|by intros [u ?]]|].
    rewrite andb_true_iff, Ascii.eqb_eq, IH. split.
    + intros [-> [u ->]]. by exists u.
    + intros [u E]. injection E as -> ->. eauto.
Qed.

Lemma endsWith_spec s t : endsWith s t = true ↔ ∃ u, s = u +:+ t.
Proof.
  induction s as [|c s IH]; cbn [endsWith]; rewrite orb_true_iff, String.eqb_eq.
  - split; [intros [->|?]; [by exists EmptyString|done]|].
    intros [[|] E]; simpl in E; [by left|done].
  - rewrite IH. split.
    + intros [<-|[u ->]]; [by exists EmptyString|by exists (String c u)].
    + intros [[|d u] E]; simpl in E; [by left|right]. injection E as -> ->. eauto.
Qed.

Definition all_digits (s : string) : Prop := str_forallb is_digit s = true.

Lemma slen_app s t : slen (s +:+ t) = slen s + slen t.
Proof.
  unfold slen. rewrite <- Nat2Z.inj_add. f_equal.
  induction s as [|c s IH]; simpl; [done|]. by rewrite IH.
Qed.

Lemma slen_nonneg s : 0 ≤ slen s.
Proof. unfold slen; lia. Qed.

Lemma slen_zero s : slen s = 0 → s = EmptyString.
Proof. by destruct s. Qed.

Lemma slen_cons c s : slen (String c s) = 1 + slen s.
Proof. unfold slen; simpl; lia. Qed.

Lemma str_app_nil_r s : s +:+ EmptyString = s.
Proof. induction s; simpl; congruence. Qed.

Lemma str_app_assoc (s t u : string) : (s +:+ t) +:+ u = s +:+ (t +:+ u).
Proof. induction s; simpl; congruence. Qed.

Lemma str_forallb_app p s t :
  str_forallb p (s +:+ t) = str_forallb p s && str_forallb p t.
Proof. induction s; simpl; [done|]. rewrite IHs. by rewrite andb_assoc. Qed.

Lemma all_digits_app s t : all_digits (s +:+ t) ↔ all_digits s ∧ all_digits t.
Proof. unfold all_digits. rewrite str_forallb_app. apply andb_true_iff. Qed.

Lemma all_digits_repeat n : all_digits (str_repeat "0" n).
Proof. induction n; [done|]. unfold all_digits in *; simpl. by rewrite IHn. Qed.

Lemma slen_repeat c n : slen (str_repeat c n) = Z.of_nat n.
Proof. induction n; [done|]. simpl. rewrite slen_cons. lia. Qed.

Lemma str_repeat_snoc c n :
  str_repeat c n +:+ String c EmptyString = String c (str_repeat c n).
Proof. induction n as [|n IH]; simpl; [done|]. by rewrite IH. Qed.

Lemma is_digit_spec c : is_digit c = true ↔ 0 ≤ digit_val c ≤ 9.
Proof. unfold is_digit, digit_val. breflect. lia. Qed.

Lemma code_digit_char d : 0 ≤ d ≤ 9 → code (digit_char d) = 48 + d.
Proof.
  intros H. unfold code, digit_char. rewrite N_ascii_embedding; lia.
Qed.

Lemma digit_val_char d : 0 ≤ d ≤ 9 → digit_val (digit_char d) = d.
Proof. intros H. unfold digit_val. rewrite code_digit_char; lia. Qed.

Lemma is_digit_char d : 0 ≤ d ≤ 9 → is_digit (digit_char d) = true.
Proof. intros H. apply is_digit_spec. by rewrite digit_val_char. Qed.

Lemma digit_not_space c : is_digit c = true → is_space c = false.
Proof. unfold is_digit, is_space. breflect. lia. Qed.

Lemma js_slice_nonneg {A} (l : list A) s e : 0 ≤ s → 0 ≤ e →
  js_slice l s e = take (Z.to_nat (e - s)) (drop (Z.to_nat s) l).
Proof.
  intros Hs He. unfold js_slice, js_index.
  destruct (Z.ltb_spec s 0), (Z.ltb_spec e 0); try lia.
  destruct (Z.le_gt_cases s (Z.of_nat (List.length l))).
  - rewrite (Z.min_l s) by done. destruct (Z.le_gt_cases e (Z.of_nat (List.length l))).
    + by rewrite Z.min_l.
    + rewrite !take_ge; [done|rewrite length_drop; lia..].
  - rewrite !drop_ge by lia. by rewrite !take_nil.
Qed.

(** *** The order [a < b] of strings: by code units *)

Lemma str_compare_lt_trans a b c :
  String.compare a b = Lt → String.compare b c = Lt → String.compare a c = Lt.
Proof.
  assert (∀ x y, Ascii.compare x y = N.compare (N_of_ascii x) (N_of_ascii y)) as HA by done.
  revert b c. induction a as [|x a IH]; intros [|y b] [|z c]; simpl; try done.
  rewrite !HA.
  destruct (N.compare_spec (N_of_ascii x) (N_of_ascii y)) as [Exy|Hxy|Hxy];
    destruct (N.compare_spec (N_of_ascii y) (N_of_ascii z)) as [Eyz|Hyz|Hyz]; try done;
    destruct (N.compare_spec (N_of_ascii x) (N_of_ascii z)); try done; try lia.
  apply IH.
Qed.

Lemma str_ltb_trans a b c : String.ltb a b = true → String.ltb b c = true → String.ltb a c = true.
Proof.
  unfold String.ltb. destruct (String.compare a b) eqn:E1, (String.compare b c) eqn:E2; try done.
  by rewrite (str_compare_lt_trans _ _ _ E1 E2).
Qed.

Lemma str_ltb_irrefl a : String.ltb a a = false.
Proof.
  unfold String.ltb. pose proof (String.compare_antisym a a) as H.
  by destruct (String.compare a a).
Qed.

Lemma str_leb_ltb a b : String.leb a b = true → a ≠ b → String.ltb a b = true.
Proof.
  unfold String.leb, String.ltb. intros H Hne.
  destruct (String.compare a b) eqn:E; [|done..]. by apply String.compare_eq_iff in E.
Qed.

Lemma str_leb_not_ltb a b : String.leb a b = true → String.ltb b a = false.
Proof.
  unfold String.leb, String.ltb. rewrite (String.compare_antisym b a).
  by destruct (String.compare a b).
Qed.

Lemma str_leb_trans a b c : String.leb a b = true → String.leb b c = true → String.leb a c = true.
Proof.
  intros H1 H2. destruct (decide (a = b)) as [->|Hab]; [done|].
  destruct (decide (b = c)) as [->|Hbc]; [done|].
  pose proof (str_ltb_trans _ _ _ (str_leb_ltb _ _ H1 Hab) (str_leb_ltb _ _ H2 Hbc)) as H.
  unfold String.ltb, String.leb in *. by destruct (String.compare a c).
Qed.

(** *** Trimming *)

Lemma trimEnd_id s c : is_space c = false →
  trimEnd (s +:+ String c EmptyString) = s +:+ String c EmptyString.
Proof.
  intros Hc. induction s as [|d s IH]; simpl; [by rewrite Hc|].
  rewrite IH. by destruct s.
Qed.

Lemma trimEnd_digits s : all_digits s → trimEnd s = s.
Proof.
  unfold all_digits. induction s as [|c s IH]; simpl; [done|].
  intros [Hc Hs]%andb_true_iff. rewrite (IH Hs).
  destruct s; [|done]. by rewrite digit_not_space.
Qed.

Lemma trimEnd_app s t : trimEnd t = t → t ≠ EmptyString → trimEnd (s +:+ t) = s +:+ t.
Proof.
  intros Ht Hne. induction s as [|c s IH]; simpl; [done|].
  rewrite IH. destruct (s +:+ t) eqn:E; [|done]. by destruct s, t.
Qed.

(** *** Digit strings *)

Lemma span_digits_app s t : all_digits s →
  span_digits (s +:+ t) = (s +:+ (span_digits t).1, (span_digits t).2).
Proof.
  unfold all_digits. induction s as [|c s IH]; simpl; intros H.
  - by destruct (span_digits t).
  - apply andb_true_iff in H as [Hc Hs]. by rewrite Hc, IH.
Qed.

Lemma span_digits_spec s d r : span_digits s = (d, r) →
  s = d +:+ r ∧ all_digits d.
Proof.
  revert d r. induction s as [|c s IH]; simpl; intros d r H.
  - by simplify_eq.
  - destruct (is_digit c) eqn:Hc; [|by simplify_eq].
    destruct (span_digits s) as [d' r'] eqn:E. simplify_eq.
    destruct (IH d' r eq_refl) as [-> Hd]. split; [done|].
    unfold all_digits in *. simpl. by rewrite Hc.
Qed.

Lemma BigInt_acc_spec acc s : BigInt_acc acc s = acc * 10 ^ slen s + BigInt s.
Proof.
  unfold BigInt. revert acc. induction s as [|c s IH]; intros acc.
  - simpl. unfold slen; simpl. lia.
  - cbn [BigInt_acc]. rewrite slen_cons, (IH (10 * acc + _)), (IH (10 * 0 + _)).
    rewrite Z.pow_add_r by (pose proof (slen_nonneg s); lia). ring.
Qed.

Lemma BigInt_app s t : BigInt (s +:+ t) = BigInt s * 10 ^ slen t + BigInt t.
Proof.
  assert (∀ a, BigInt_acc a (s +:+ t) = BigInt_acc (BigInt_acc a s) t) as H.
  { induction s as [|c s IH]; intros a; simpl; [done|]. by rewrite IH. }
  unfold BigInt at 1 2. by rewrite H, BigInt_acc_spec.
Qed.

Lemma BigInt_bounds s : all_digits s → 0 ≤ BigInt s < 10 ^ slen s.
Proof.
  unfold all_digits. induction s as [|c s IH]; simpl; intros H.
  - unfold BigInt, slen; simpl. lia.
  - apply andb_true_iff in H as [Hc%is_digit_spec Hs]. specialize (IH Hs).
    unfold BigInt. cbn [BigInt_acc]. rewrite BigInt_acc_spec, slen_cons.
    rewrite Z.pow_add_r by (pose proof (slen_nonneg s); lia).
    pose proof (slen_nonneg s). nia.
Qed.

Lemma BigInt_repeat0 n s : BigInt (str_repeat "0" n +:+ s) = BigInt s.
Proof. induction n; [done|]. exact IHn. Qed.

Lemma BigInt_strip0 s : BigInt (strip_leading "0" s) = BigInt s.
Proof.
  induction s as [|c s IH]; simpl; [done|].
  destruct (Ascii.eqb_spec c "0") as [->|]; [|done]. by rewrite IH.
Qed.

Lemma toString_fuel_acc f n acc :
  toString_fuel f n acc = toString_fuel f n EmptyString +:+ acc.
Proof.
  revert n acc. induction f as [|f IH]; intros n acc; simpl; [done|].
  case_test; [done|]. rewrite IH, (IH _ (String _ EmptyString)), str_app_assoc.
  done.
Qed.

Lemma toString_fuel_spec f n : 0 ≤ n < 2 ^ Z.of_nat f →
  (f ≠ 0%nat) →
  let s := toString_fuel f n EmptyString in
  all_digits s ∧ BigInt s = n ∧ s ≠ EmptyString.
Proof.
  revert n. induction f as [|f IH]; intros n Hn Hf; [done|]. simpl.
  assert (0 ≤ n mod 10 ≤ 9) as Hm by (pose proof (Z.mod_pos_bound n 10); lia).
  assert (Hd : all_digits (String (digit_char (n mod 10)) EmptyString)).
  { unfold all_digits; simpl. by rewrite is_digit_char. }
  case_test.
  - breflect. repeat split; [done| |done]. unfold BigInt; simpl.
    rewrite digit_val_char by done.
    pose proof (Z.div_mod n 10). lia.
  - breflect. rewrite toString_fuel_acc.
    assert (n / 10 < 2 ^ Z.of_nat f).
    { rewrite Nat2Z.inj_succ, Z.pow_succ_r in Hn by lia.
      apply Z.div_lt_upper_bound; lia. }
    assert (0 ≤ n / 10) by (apply Z.div_pos; lia).
    destruct f as [|f]; [simpl in *; lia|].
    destruct (IH (n / 10)) as (Ha & Hb & Hc); [lia|done|].
    repeat split.
    + apply all_digits_app. split; [done|]. done.
    + rewrite BigInt_app, Hb. unfold BigInt, slen; cbn [BigInt_acc String.length].
      rewrite digit_val_char by done. pose proof (Z.div_mod n 10). lia.
    + intros E. destruct (toString_fuel (S f) (n / 10) EmptyString); done.
Qed.

Lemma bigint_toString_spec n : 0 ≤ n →
  all_digits (bigint_toString n) ∧ BigInt (bigint_toString n) = n ∧
  bigint_toString n ≠ EmptyString.
Proof.
  intros Hn. apply toString_fuel_spec; [|done].
  destruct (decide (n = 0)) as [->|]; [simpl; lia|].
  pose proof (Z.log2_spec n). pose proof (Z.log2_nonneg n).
  rewrite Nat2Z.inj_succ, Z2Nat.id by lia. lia.
Qed.

(** No superfluous leading zero: a [k]-digit bound on the number bounds the
    printed length. *)
Lemma toString_fuel_len f n k : 0 ≤ n < 10 ^ k → 1 ≤ k →
  slen (toString_fuel f n EmptyString) ≤ k.
Proof.
  revert n k. induction f as [|f IH]; intros n k Hn Hk; simpl;
    [unfold slen; simpl; lia|].
  case_test; [unfold slen; simpl; lia|]. breflect.
  rewrite toString_fuel_acc, slen_app.
  assert (0 ≤ n / 10) by (apply Z.div_pos; lia).
  assert (2 ≤ k).
  { destruct (decide (k = 1)) as [->|]; [|lia].
    rewrite Z.div_small in Htest by lia. done. }
  assert (n / 10 < 10 ^ (k - 1)).
  { apply Z.div_lt_upper_bound; [lia|].
    replace k with (1 + (k - 1)) in Hn by lia.
    rewrite Z.pow_add_r in Hn by lia. lia. }
  specialize (IH (n / 10) (k - 1)). unfold slen at 2; simpl. lia.
Qed.

Lemma bigint_toString_len n k : 0 ≤ n < 10 ^ k → 1 ≤ k →
  slen (bigint_toString n) ≤ k.
Proof. apply toString_fuel_len. Qed.

Lemma padStart_spec s w : slen s ≤ w → all_digits s →
  let p := padStart s w "0" in
  slen p = w ∧ all_digits p ∧ BigInt p = BigInt s.
Proof.
  intros Hw Hs p. subst p. unfold padStart. repeat split.
  - rewrite slen_app, slen_repeat. pose proof (slen_nonneg s). lia.
  - apply all_digits_app. split; [apply all_digits_repeat|done].
  - apply BigInt_repeat0.
Qed.

(** *** Cutting at a separator *)

Lemma indexOf_app s c t :
  str_forallb (λ d, negb (Ascii.eqb d c)) s = true →
  indexOf (s +:+ String c t) c = slen s.
Proof.
  induction s as [|d s IH]; simpl; intros H.
  - by rewrite Ascii.eqb_refl.
  - apply andb_true_iff in H as [Hd Hs]. apply negb_true_iff in Hd.
    rewrite Hd, IH by done. rewrite slen_cons. pose proof (slen_nonneg s).
    destruct (Z.eqb_spec (slen s) (-1)); lia.
Qed.

Lemma indexOf_none s c :
  str_forallb (λ d, negb (Ascii.eqb d c)) s = true → indexOf s c = -1.
Proof.
  induction s as [|d s IH]; simpl; intros H; [done|].
  apply andb_true_iff in H as [Hd Hs]. apply negb_true_iff in Hd.
  by rewrite Hd, IH.
Qed.

Lemma sliceTo_app s t : sliceTo (s +:+ t) (slen s) = s.
Proof.
  unfold sliceTo, slen. rewrite Nat2Z.id. induction s; simpl; [by destruct t|].
  by rewrite IHs.
Qed.

Lemma sliceFrom_app_cons s c t : sliceFrom (s +:+ String c t) (slen s + 1) = t.
Proof.
  unfold sliceFrom, slen. rewrite Z2Nat.inj_add, Nat2Z.id by lia.
  rewrite Nat.add_comm. induction s; simpl; [done|]. exact IHs.
Qed.

Lemma digits_no_char c s : is_digit c = false → all_digits s →
  str_forallb (λ d, negb (Ascii.eqb d c)) s = true.
Proof.
  intros Hc. unfold all_digits. induction s as [|d s IH]; simpl; [done|].
  intros [Hd Hs]%andb_true_iff. rewrite (IH Hs), andb_true_r.
  apply negb_true_iff, Ascii.eqb_neq. intros ->. congruence.
Qed.

#[export] Hint Resolve slen_nonneg all_digits_repeat : credence.

(** ** Splitting, joining and [parseInt] *)

(** [s.split(c)] for a separator of one character. *)
Fixpoint split_on (c : ascii) (s : string) : list string :=
  match s with
  | EmptyString => [EmptyString]
  | String d s' =>
      if Ascii.eqb d c then EmptyString :: split_on c s'
      else match split_on c s' with
           | p :: ps => String d p :: ps
           | [] => [String d EmptyString]
           end
  end.

(** [parts.join(c)]. *)
Fixpoint join_on (c : ascii) (parts : list string) : string :=
  match parts with
  | [] => EmptyString
  | [p] => p
  | p :: ps => p +:+ String c (join_on c ps)
  end.

(** The longest prefix of digits of radix [r]; [None] when there is none. *)
Fixpoint parse_digits (r : Z) (acc : option Z) (s : string) : option Z :=
  match s with
  | EmptyString => acc
  | String c s' =>
      match hex_val c with
      | Some d => if d <? r then parse_digits r (Some (r * default 0 acc + d)) s' else acc
      | None => acc
      end
  end.

(** [parseInt(s, r)] for a radix up to 16; [None] is [NaN]. *)
Definition parseInt (s : string) (r : Z) : option Z :=
  let t := trimStart s in
  let neg := startsWith t "-" in
  let t := if neg || startsWith t "+" then sliceFrom t 1 else t in
  let t := if (r =? 16) && (startsWithStr t "0x" || startsWithStr t "0X") then sliceFrom t 2 else t in
  (λ n, if neg then - n else n) <$> parse_digits r None t.

Definition no_char (c : ascii) (s : string) : Prop := str_forallb (λ d, negb (Ascii.eqb d c)) s = true.

(** Texts up to the first colon. *)
Lemma colon_split a b s t : no_char ":" a → no_char ":" b → a +:+ String ":" s = b +:+ String ":" t → a = b ∧ s = t.
Proof.
  unfold no_char. revert b. induction a as [|c a IH]; intros [|d b] Ha Hb E; simpl in *.
  - by injection E.
  - injection E as <- _. done.
  - injection E as -> _. done.
  - apply andb_true_iff in Ha as [_ Ha]. apply andb_true_iff in Hb as [_ Hb].
    injection E as -> E. by destruct (IH b Ha Hb E) as [-> ->].
Qed.

Lemma split_on_cons c s : ∃ p ps, split_on c s = p :: ps.
Proof. induction s as [|d s (p & ps & IH)]; simpl; [eauto|]. rewrite IH. destruct (Ascii.eqb d c); eauto. Qed.

(** Splitting gives parts without the separator, and joining them gives the
    string back. *)
Lemma split_on_join c s : join_on c (split_on c s) = s ∧ Forall (no_char c) (split_on c s).
Proof.
  induction s as [|d s [IH IHF]]; simpl; [by split; [|repeat constructor]|].
  destruct (split_on_cons c s) as (p & ps & E). rewrite E in *. destruct (Ascii.eqb_spec d c) as [->|Hd].
  - split; [|by constructor]. change (String c (join_on c (p :: ps)) = String c s). by rewrite IH.
  - apply Forall_cons in IHF as [Hp Hps]. split.
    + rewrite <- IH. by destruct ps.
    + constructor; [|done]. unfold no_char. simpl. destruct (Ascii.eqb_spec d c); [done|exact Hp].
Qed.

Lemma split_on_app c s t : no_char c s → split_on c (s +:+ String c t) = s :: split_on c t.
Proof.
  unfold no_char. induction s as [|d s IH]; simpl; [by rewrite Ascii.eqb_refl|].
  intros [Hd Hs]%andb_true_iff. destruct (Ascii.eqb d c); [done|]. by rewrite (IH Hs).
Qed.

Lemma split_on_id c s : no_char c s → split_on c s = [s].
Proof.
  unfold no_char. induction s as [|d s IH]; simpl; [done|].
  intros [Hd Hs]%andb_true_iff. destruct (Ascii.eqb d c); [done|]. by rewrite (IH Hs).
Qed.

Lemma join_on_split c ps : ps ≠ [] → Forall (no_char c) ps → split_on c (join_on c ps) = ps.
Proof.
  intros Hne Hf. induction Hf as [|p ps Hp Hps IH]; [done|]. destruct ps as [|q ps]; [by apply split_on_id|].
  change (split_on c (p +:+ String c (join_on c (q :: ps))) = p :: q :: ps).
  rewrite split_on_app by done. by rewrite IH.
Qed.

(** A string of digits of the radix is read to its end. *)
Lemma parse_digits_radix r s acc n : radix_acc r acc s = Some n → s ≠ EmptyString →
  ∀ a, default 0 a = acc → parse_digits r a s = Some n.
Proof.
  revert acc. induction s as [|c s IH]; intros acc; [done|]. simpl. intros H _ a <-.
  destruct (hex_val c) as [d|]; [|done]. destruct (d <? r); [|done].
  destruct s as [|c' s]; [by injection H as <-|]. by apply (IH (r * default 0 a + d)).
Qed.

Lemma radix_acc_digits s acc : str_forallb is_digit s = true → radix_acc 10 acc s = Some (BigInt_acc acc s).
Proof.
  revert acc. induction s as [|c s IH]; intros acc; simpl; [done|]. rewrite andb_true_iff. intros [Hc Hs].
  assert (hex_val c = Some (digit_val c)) as ->.
  { unfold hex_val, digit_val, is_digit in *. by rewrite Hc. }
  apply is_digit_spec in Hc. destruct (Z.ltb_spec (digit_val c) 10); [|lia]. by apply IH.
Qed.

Lemma parseInt_digits s : all_digits s → s ≠ EmptyString → parseInt s 10 = Some (BigInt s).
Proof.
  intros Hs Hne. destruct s as [|c s]; [done|]. pose proof Hs as Hc. unfold all_digits in Hc. simpl in Hc.
  apply andb_true_iff in Hc as [Hc _].
  assert (is_space c = false ∧ Ascii.eqb c "-" = false ∧ Ascii.eqb c "+" = false) as (Hsp & Hm & Hp).
  { unfold is_digit, is_space in *. split_and!; [breflect; lia| |]; apply Ascii.eqb_neq; intros ->; by vm_compute in Hc. }
  unfold parseInt. cbn [trimStart]. rewrite Hsp. cbn [startsWith]. rewrite Hm, Hp. cbn [orb Z.eqb andb].
  rewrite (parse_digits_radix 10 (String c s) 0 (BigInt (String c s))); [done|by apply radix_acc_digits|done..].
Qed.

(** ** [Math.ceil] of a quotient *)

Definition ceil_div (a b : Z) : Z := - ((- a) / b).

Lemma ceil_div_spec a b : 1 ≤ b → 0 ≤ a → 0 ≤ ceil_div a b ∧ ∀ p, p < ceil_div a b ↔ p * b < a.
Proof.
  intros Hb Ha. unfold ceil_div. pose proof (Z.div_mod (- a) b). pose proof (Z.mod_pos_bound (- a) b).
  split; [nia|]. intros p. split; intros; nia.
Qed.

Lemma ceil_div_covers a b : 1 ≤ b → 0 ≤ a → a ≤ ceil_div a b * b.
Proof.
  intros Hb Ha. destruct (ceil_div_spec a b Hb Ha) as [_ H]. specialize (H (ceil_div a b)). lia.
Qed.
