(* ===== verification/DecimalMath.v ===== *)
(** * Decimal-safe arithmetic: [lib/decimalMath.ts]

    Decimal strings are parsed into sign, integer digits and fraction digits,
    computed on as scaled BigInts and printed again. The specification gives a
    decimal string its rational value [Q]; the theorems say that addition,
    subtraction, multiplication and comparison are exact on it, that division
    and rounding return the value the rounding mode prescribes, and which
    inputs make each function throw. *)

From stdpp Require Import base option list strings.
From Stdlib Require Import ZArith Lia Ascii String QArith Qabs Qfield Lqa Morphisms.
From S2P Require Import Prelude JsLib.

Open Scope Z_scope.

(** ** Data *)

Inductive RoundingMode := HALF_UP | HALF_DOWN | HALF_EVEN | DOWN | UP.

Definition DEFAULT_ROUNDING_MODE : RoundingMode := HALF_UP.

(** What the functions throw; the constructors carry the arguments of the
    source's error constructors or message templates. *)
Inductive decimal_error :=
| InvalidDecimalString (value : string)
| InvalidScale (scale : Z)
| InvalidPrecision (precision : Z)
| DivisionByZeroError (dividend divisor : string)
| DecimalScaleError (value : string) (maxScale actualScale : Z)
| DecimalOverflowError (value : string) (precision scale : Z).

Record ParsedDecimal := {
  negative : bool;
  intStr : string;
  fracStr : string
}.

(** ** Internal helpers *)

(** The pattern of the source: one or more digits, then optionally a point and
    any number of digits, and nothing else. *)
Definition decimal_re (s : string) : bool :=
  let '(int, rest) := span_digits s in
  negb (String.eqb int EmptyString) &&
  match rest with
  | EmptyString => true
  | String c frac => Ascii.eqb c "." && str_forallb is_digit frac
  end.

Definition parseDecimalString (value : string) : result decimal_error ParsedDecimal :=
  let trimmed := trim value in
  let neg := startsWith trimmed "-" in
  let abs := if neg then sliceFrom trimmed 1 else trimmed in
  _ ← throw_if (negb (decimal_re abs)) (InvalidDecimalString value);
  let dot := indexOf abs "." in
  Ok {| negative := neg;
        intStr := if dot =? -1 then abs else sliceTo abs dot;
        fracStr := if dot =? -1 then EmptyString else sliceFrom abs (dot + 1) |}.

Definition formatScaledInt (value scale : Z) : string :=
  if scale =? 0 then bigint_toString value
  else
    let sf := 10 ^ scale in
    let intPart := Z.quot value sf in
    let fracPart := Z.rem value sf in
    bigint_toString intPart +:+ "." +:+ padStart (bigint_toString fracPart) scale "0".

Definition toScaledMagnitude (p : ParsedDecimal) (scale : Z) : Z :=
  let pad := scale - slen (fracStr p) in
  let int := BigInt (intStr p) in
  let frac := if 0 <? slen (fracStr p) then BigInt (fracStr p) else 0 in
  int * 10 ^ scale + frac * 10 ^ pad.

Definition applyDivisionRounding (truncated remainder divisor : Z) (mode : RoundingMode) : Z :=
  let twice := remainder * 2 in
  match mode with
  | DOWN => truncated
  | UP => if remainder >? 0 then truncated + 1 else truncated
  | HALF_UP => if twice >=? divisor then truncated + 1 else truncated
  | HALF_DOWN => if twice >? divisor then truncated + 1 else truncated
  | HALF_EVEN =>
      if twice >? divisor then truncated + 1
      else if twice <? divisor then truncated
      else if Z.rem truncated 2 =? 0 then truncated else truncated + 1
  end.

(** [cond ? `-${formatted}` : formatted] *)
Definition with_sign (cond : bool) (formatted : string) : string :=
  if cond then String "-" formatted else formatted.

Definition signed (p : ParsedDecimal) (magnitude : Z) : Z :=
  (if negative p then -1 else 1) * magnitude.

(** ** Public API *)

(** [roundToScale] on a string argument. *)
Definition roundToScale (value : string) (scale : Z) (mode : RoundingMode)
  : result decimal_error string :=
  _ ← throw_if (scale <? 0) (InvalidScale scale);
  p ← parseDecimalString value;
  if slen (fracStr p) <=? scale then
    let pad := scale - slen (fracStr p) in
    let int := BigInt (intStr p) in
    let frac := if 0 <? slen (fracStr p) then BigInt (fracStr p) else 0 in
    let scaled := int * 10 ^ scale + frac * 10 ^ pad in
    let formatted := formatScaledInt scaled scale in
    Ok (with_sign (negative p && negb (scaled =? 0)) formatted)
  else
    let inputScale := slen (fracStr p) in
    let intValue := BigInt (intStr p) * 10 ^ inputScale + BigInt (fracStr p) in
    let shift := inputScale - scale in
    let shiftFactor := 10 ^ shift in
    let truncated := Z.quot intValue shiftFactor in
    let remainder := Z.rem intValue shiftFactor in
    let rounded := applyDivisionRounding truncated remainder shiftFactor mode in
    let formatted := formatScaledInt rounded scale in
    Ok (with_sign (negative p && negb (rounded =? 0)) formatted).

Definition isValidPositiveDecimal (value : string) : bool :=
  match parseDecimalString value with
  | Ok p => if negative p then false
            else BigInt (intStr p +:+ fracStr p) >? 0
  | Err _ => false
  end.

Definition multiplyDecimals (a b : string) : result decimal_error string :=
  pa ← parseDecimalString a;
  pb ← parseDecimalString b;
  let aInt := BigInt (intStr pa +:+ fracStr pa) in
  let bInt := BigInt (intStr pb +:+ fracStr pb) in
  let product := aInt * bInt in
  let scale := slen (fracStr pa) + slen (fracStr pb) in
  let neg := negb (Bool.eqb (negative pa) (negative pb)) in
  let absProduct := if product <? 0 then - product else product in
  let formatted := formatScaledInt absProduct scale in
  Ok (with_sign (neg && negb (product =? 0)) formatted).

Definition addDecimals (a b : string) : result decimal_error string :=
  pa ← parseDecimalString a;
  pb ← parseDecimalString b;
  let scale := Z.max (slen (fracStr pa)) (slen (fracStr pb)) in
  let aSigned := signed pa (toScaledMagnitude pa scale) in
  let bSigned := signed pb (toScaledMagnitude pb scale) in
  let sum := aSigned + bSigned in
  let formatted := formatScaledInt (if sum <? 0 then - sum else sum) scale in
  Ok (with_sign (sum <? 0) formatted).

Definition subtractDecimals (a b : string) : result decimal_error string :=
  pa ← parseDecimalString a;
  pb ← parseDecimalString b;
  let scale := Z.max (slen (fracStr pa)) (slen (fracStr pb)) in
  let aSigned := signed pa (toScaledMagnitude pa scale) in
  let bSigned := signed pb (toScaledMagnitude pb scale) in
  let diff := aSigned - bSigned in
  let formatted := formatScaledInt (if diff <? 0 then - diff else diff) scale in
  Ok (with_sign (diff <? 0) formatted).

Definition divideDecimals (a b : string) (scale : Z) (mode : RoundingMode)
  : result decimal_error string :=
  _ ← throw_if (scale <? 0) (InvalidScale scale);
  pa ← parseDecimalString a;
  pb ← parseDecimalString b;
  let numerator := BigInt (intStr pa +:+ fracStr pa) in
  let denominator := BigInt (intStr pb +:+ fracStr pb) in
  _ ← throw_if (denominator =? 0) (DivisionByZeroError a b);
  let shift := scale + slen (fracStr pb) - slen (fracStr pa) in
  let scaledNumerator := if shift >=? 0 then numerator * 10 ^ shift else numerator in
  let divisor := if shift >=? 0 then denominator else denominator * 10 ^ (- shift) in
  let truncated := Z.quot scaledNumerator divisor in
  let remainder := Z.rem scaledNumerator divisor in
  let rounded := applyDivisionRounding truncated remainder divisor mode in
  let neg := negb (Bool.eqb (negative pa) (negative pb)) in
  let formatted := formatScaledInt rounded scale in
  Ok (with_sign (neg && negb (rounded =? 0)) formatted).

Definition assertWithinNumericBounds (value : string) (precision scale : Z)
  : result decimal_error () :=
  _ ← throw_if (precision <=? 0) (InvalidPrecision precision);
  _ ← throw_if ((scale <? 0) || (scale >? precision)) (InvalidScale scale);
  p ← parseDecimalString value;
  _ ← throw_if (slen (fracStr p) >? scale)
        (DecimalScaleError value scale (slen (fracStr p)));
  let strippedIntStr := strip_leading "0" (intStr p) in
  let significantIntDigits := slen strippedIntStr in
  let maxIntDigits := precision - scale in
  throw_if (significantIntDigits >? maxIntDigits)
    (DecimalOverflowError value precision scale).

Definition compareDecimals (a b : string) : result decimal_error Z :=
  pa ← parseDecimalString a;
  pb ← parseDecimalString b;
  let scale := Z.max (slen (fracStr pa)) (slen (fracStr pb)) in
  let aSigned := signed pa (toScaledMagnitude pa scale) in
  let bSigned := signed pb (toScaledMagnitude pb scale) in
  Ok (if aSigned <? bSigned then -1 else if aSigned >? bSigned then 1 else 0).

Example round_ex1 : roundToScale "10.555" 2 HALF_UP = Ok "10.56".
Proof. vm_compute. reflexivity. Qed.
Example round_ex2 : roundToScale "10.545" 2 HALF_EVEN = Ok "10.54".
Proof. vm_compute. reflexivity. Qed.
Example mul_ex : multiplyDecimals "10.55" "2.5" = Ok "26.375".
Proof. vm_compute. reflexivity. Qed.
Example add_ex : addDecimals "-3" "3" = Ok "0".
Proof. vm_compute. reflexivity. Qed.
Example div_ex : divideDecimals "1" "3" 6 HALF_UP = Ok "0.333333".
Proof. vm_compute. reflexivity. Qed.

(** ** Specification: the value of a decimal string *)

(** All digits of a parsed decimal as one integer, with its sign. *)
Definition pd_num (p : ParsedDecimal) : Z := signed p (BigInt (intStr p +:+ fracStr p)).
Definition pd_scale (p : ParsedDecimal) : Z := slen (fracStr p).

Definition pd_value (p : ParsedDecimal) : Q :=
  (inject_Z (pd_num p) / inject_Z (10 ^ pd_scale p))%Q.

(** The string is a decimal of value [q] with [s] fraction digits. *)
Definition is_decimal (str : string) (q : Q) (s : Z) : Prop :=
  ∃ p, parseDecimalString str = Ok p ∧ (pd_value p == q)%Q ∧ pd_scale p = s.

(** The integer a rounding mode prescribes for a non-negative rational. *)
Definition rounds_to (mode : RoundingMode) (q : Q) (r : Z) : Prop :=
  let half := (1 # 2)%Q in
  let x := inject_Z r in
  match mode with
  | DOWN => (x <= q)%Q ∧ (q < x + 1)%Q
  | UP => (x - 1 < q)%Q ∧ (q <= x)%Q
  | HALF_UP => (x - half <= q)%Q ∧ (q < x + half)%Q
  | HALF_DOWN => (x - half < q)%Q ∧ (q <= x + half)%Q
  | HALF_EVEN => (x - half <= q)%Q ∧ (q <= x + half)%Q ∧
      ((q == x - half)%Q ∨ (q == x + half)%Q → Z.Even r)
  end.

#[export] Instance rounds_to_proper mode : Proper (Qeq ==> eq ==> iff) (rounds_to mode).
Proof. intros q q' Hq r r' <-. destruct mode; simpl; by rewrite Hq. Qed.

#[export] Instance is_decimal_proper str : Proper (Qeq ==> eq ==> iff) (is_decimal str).
Proof.
  intros q q' Hq s s' <-. unfold is_decimal.
  split; intros (p & ? & ? & ?); exists p; [rewrite <- Hq|rewrite Hq]; done.
Qed.

(** ** Parsing and printing *)

(** What a successful parse returns: a non-empty string of digits, and digits
    after the point. *)
Definition pd_wf (p : ParsedDecimal) : Prop :=
  all_digits (intStr p) ∧ intStr p ≠ EmptyString ∧ all_digits (fracStr p).

Lemma decimal_re_inv s : decimal_re s = true →
  ∃ i, all_digits i ∧ i ≠ EmptyString ∧
    (s = i ∨ ∃ f, all_digits f ∧ s = i +:+ String "." f).
Proof.
  unfold decimal_re. destruct (span_digits s) as [i r] eqn:E.
  apply span_digits_spec in E as [-> Hi]. intros [Hne Hr]%andb_true_iff.
  exists i. split_and!; [done| |].
  { intros ->. done. }
  destruct r as [|c f]; [left; apply str_app_nil_r|right].
  apply andb_true_iff in Hr as [Hc Hf]. apply Ascii.eqb_eq in Hc as ->. eauto.
Qed.

Lemma decimal_re_int i : all_digits i → i ≠ EmptyString → decimal_re i = true.
Proof.
  intros Hi Hne. unfold decimal_re. rewrite <- (str_app_nil_r i) at 1.
  rewrite span_digits_app by done. simpl. rewrite str_app_nil_r.
  by destruct i.
Qed.

Lemma decimal_re_frac i f : all_digits i → i ≠ EmptyString → all_digits f →
  decimal_re (i +:+ String "." f) = true.
Proof.
  intros Hi Hne Hf. unfold decimal_re. rewrite span_digits_app by done. simpl.
  rewrite str_app_nil_r. by destruct i.
Qed.

Lemma no_dot s : all_digits s → str_forallb (λ d, negb (Ascii.eqb d ".")) s = true.
Proof. by apply digits_no_char. Qed.

Lemma cut_int i : all_digits i → indexOf i "." = -1.
Proof. intros H. by apply indexOf_none, no_dot. Qed.

Lemma cut_frac i f : all_digits i →
  indexOf (i +:+ String "." f) "." = slen i.
Proof. intros H. by apply indexOf_app, no_dot. Qed.

Lemma parse_wf v p : parseDecimalString v = Ok p → pd_wf p.
Proof.
  unfold parseDecimalString. intros H. invert_result. breflect.
  match goal with Hr : decimal_re ?a = true |- _ =>
    destruct (decimal_re_inv _ Hr) as (i & Hi & Hne & [->|(f & Hf & ->)]) end;
  unfold pd_wf; simpl.
  - by rewrite cut_int.
  - rewrite cut_frac by done. pose proof (slen_nonneg i).
    destruct (Z.eqb_spec (slen i) (-1)); [lia|].
    by rewrite sliceTo_app, sliceFrom_app_cons.
Qed.

Lemma trim_keep c s : is_space c = false → trimEnd (String c s) = String c s →
  trim (String c s) = String c s.
Proof. intros Hc Ht. unfold trim. simpl trimStart. by rewrite Hc. Qed.

Lemma trimEnd_dot i f : all_digits f →
  trimEnd (i +:+ String "." f) = i +:+ String "." f.
Proof.
  intros Hf. apply trimEnd_app; [|done]. simpl. rewrite trimEnd_digits by done.
  by destruct f.
Qed.

(** Printing a sign, digits and possibly a point and digits, then parsing. *)
Lemma parse_render (neg dot : bool) i f :
  all_digits i → i ≠ EmptyString → all_digits f → (dot = false → f = EmptyString) →
  parseDecimalString (with_sign neg (if dot then i +:+ String "." f else i)) =
    Ok {| negative := neg; intStr := i; fracStr := f |}.
Proof.
  intros Hi Hne Hf Hdot. destruct i as [|c i]; [done|].
  assert (is_digit c = true) as Hc by (by apply andb_true_iff in Hi as [? _]).
  set (body := if dot then String c i +:+ String "." f else String c i).
  assert (∃ t, body = String c t) as [t Ht] by (subst body; destruct dot; simpl; eauto).
  assert (trimEnd body = body) as Hte.
  { subst body. destruct dot; [by apply trimEnd_dot|by apply trimEnd_digits]. }
  assert (decimal_re body = true) as Hre.
  { subst body. destruct dot; [by apply decimal_re_frac|by apply decimal_re_int]. }
  assert (trim (with_sign neg body) = with_sign neg body) as Htr.
  { rewrite Ht in *. destruct neg; simpl with_sign; apply trim_keep; auto.
    - change (String "-" (String c t)) with ("-" +:+ String c t).
      by apply trimEnd_app.
    - by apply digit_not_space. }
  unfold parseDecimalString. rewrite Htr.
  replace (startsWith (with_sign neg body) "-") with neg.
  2: { rewrite Ht. destruct neg; simpl; [done|].
       symmetry. apply Ascii.eqb_neq. intros ->. done. }
  replace (if neg then sliceFrom (with_sign neg body) 1 else with_sign neg body)
    with body by (by destruct neg).
  rewrite Hre. simpl. subst body. destruct dot.
  - rewrite cut_frac by done. pose proof (slen_nonneg (String c i)).
    destruct (Z.eqb_spec (slen (String c i)) (-1)); [lia|].
    by rewrite sliceTo_app, sliceFrom_app_cons.
  - rewrite cut_int by done. by rewrite Hdot.
Qed.

Lemma quot_rem_pos v d : 0 ≤ v → 0 < d →
  Z.quot v d = v / d ∧ Z.rem v d = v mod d ∧ 0 ≤ v / d ∧ 0 ≤ v mod d < d ∧
  v = d * (v / d) + v mod d.
Proof.
  intros Hv Hd. rewrite Z.quot_div_nonneg, Z.rem_mod_nonneg by lia.
  pose proof (Z.div_pos v d). pose proof (Z.mod_pos_bound v d).
  pose proof (Z.div_mod v d). lia.
Qed.

Lemma pow10_pos s : 0 ≤ s → 0 < 10 ^ s.
Proof. intros. apply Z.pow_pos_nonneg; lia. Qed.

(** Printing a scaled integer and parsing it back gives the same integer at
    the same scale. *)
Lemma format_parse neg v s : 0 ≤ v → 0 ≤ s →
  ∃ p, parseDecimalString (with_sign neg (formatScaledInt v s)) = Ok p ∧
    negative p = neg ∧ BigInt (intStr p +:+ fracStr p) = v ∧ slen (fracStr p) = s.
Proof.
  intros Hv Hs. unfold formatScaledInt. destruct (Z.eqb_spec s 0) as [->|Hs0].
  - destruct (bigint_toString_spec v Hv) as (Hd & Hb & Hne).
    rewrite (parse_render neg false _ EmptyString) by done.
    eexists. split; [reflexivity|]. cbn [intStr fracStr negative].
    split_and!; [done| |done]. by rewrite str_app_nil_r.
  - pose proof (pow10_pos s Hs) as Hp.
    destruct (quot_rem_pos v (10 ^ s)) as (-> & -> & Hq & Hr & Hdm); [lia..|].
    destruct (bigint_toString_spec _ Hq) as (Hd & Hb & Hne).
    destruct (bigint_toString_spec (v mod 10 ^ s)) as (Hd' & Hb' & _); [lia|].
    destruct (padStart_spec (bigint_toString (v mod 10 ^ s)) s)
      as (Hl & Hpd & Hpb); [apply bigint_toString_len; lia|done|].
    change ("." +:+ ?x) with (String "." x).
    rewrite (parse_render neg true) by done.
    eexists. split; [reflexivity|]. cbn [intStr fracStr negative].
    split_and!; [done| |done].
    rewrite BigInt_app, Hl, Hpb, Hb, Hb'. lia.
Qed.

Lemma pd_num_abs p : pd_wf p → Z.abs (pd_num p) = BigInt (intStr p +:+ fracStr p).
Proof.
  intros (Hi & _ & Hf).
  pose proof (BigInt_bounds _ (proj2 (all_digits_app _ _) (conj Hi Hf))). unfold pd_num, signed. destruct (negative p); lia.
Qed.

Lemma format_decimal (neg : bool) v s : 0 ≤ v → 0 ≤ s →
  is_decimal (with_sign neg (formatScaledInt v s))
    (inject_Z ((if neg then -1 else 1) * v) / inject_Z (10 ^ s)) s.
Proof.
  intros Hv Hs. destruct (format_parse neg v s Hv Hs) as (p & Hp & Hn & Hb & Hl).
  exists p. split_and!; [done| |done].
  unfold pd_value, pd_num, pd_scale, signed. by rewrite Hn, Hb, Hl.
Qed.

Lemma format_decimal_pos v s : 0 ≤ v → 0 ≤ s →
  is_decimal (formatScaledInt v s) (inject_Z v / inject_Z (10 ^ s)) s.
Proof.
  intros Hv Hs. pose proof (format_decimal false v s Hv Hs) as H.
  change ((if false then -1 else 1) * v) with (1 * v) in H.
  rewrite Z.mul_1_l in H. exact H.
Qed.

(** The sign is dropped exactly when the printed number is zero. *)
Lemma format_decimal_nz (neg : bool) v s : 0 ≤ v → 0 ≤ s →
  is_decimal (with_sign (neg && negb (v =? 0)) (formatScaledInt v s))
    (inject_Z ((if neg then -1 else 1) * v) / inject_Z (10 ^ s)) s.
Proof.
  intros Hv Hs. pose proof (format_decimal (neg && negb (v =? 0)) v s Hv Hs) as H.
  destruct (Z.eqb_spec v 0) as [->|]; destruct neg; exact H.
Qed.

Lemma format_decimal_Z x s : 0 ≤ s →
  is_decimal (with_sign (x <? 0) (formatScaledInt (if x <? 0 then - x else x) s))
    (inject_Z x / inject_Z (10 ^ s)) s.
Proof.
  intros Hs. destruct (Z.ltb_spec x 0).
  - pose proof (format_decimal true (- x) s ltac:(lia) Hs) as H'.
    simpl in H'. by replace (-1 * - x) with x in H' by lia.
  - pose proof (format_decimal false x s ltac:(lia) Hs) as H'. simpl in H'.
    by replace (1 * x) with x in H' by lia.
Qed.

(** ** Exactness of addition, subtraction, multiplication and comparison *)

Lemma inject_pow10_nz s : 0 ≤ s → ~ (inject_Z (10 ^ s) == 0)%Q.
Proof.
  intros Hs. pose proof (pow10_pos s Hs). unfold Qeq; simpl. lia.
Qed.
Lemma inject_pow10_nonneg s : 0 ≤ s → (0 <= inject_Z (10 ^ s))%Q.
Proof.
  intros Hs. change 0%Q with (inject_Z 0). rewrite <- Zle_Qle.
  by apply Z.lt_le_incl, pow10_pos.
Qed.
#[export] Hint Resolve inject_pow10_nz inject_pow10_nonneg pow10_pos : credence.

Lemma pd_scale_nonneg p : 0 ≤ pd_scale p.
Proof. apply slen_nonneg. Qed.
#[export] Hint Resolve pd_scale_nonneg : credence.

Lemma scaled_magnitude_spec p scale : pd_scale p ≤ scale →
  toScaledMagnitude p scale =
    BigInt (intStr p +:+ fracStr p) * 10 ^ (scale - pd_scale p).
Proof.
  unfold pd_scale, toScaledMagnitude. intros Hs.
  pose proof (slen_nonneg (fracStr p)).
  replace (10 ^ scale) with (10 ^ slen (fracStr p) * 10 ^ (scale - slen (fracStr p)))
    by (rewrite <- Z.pow_add_r by lia; f_equal; lia).
  rewrite BigInt_app. destruct (Z.ltb_spec 0 (slen (fracStr p))); [ring|].
  rewrite (slen_zero (fracStr p)) by lia. change (BigInt EmptyString) with 0. ring.
Qed.

Lemma signed_magnitude_spec p scale : pd_scale p ≤ scale →
  signed p (toScaledMagnitude p scale) = pd_num p * 10 ^ (scale - pd_scale p).
Proof.
  intros. rewrite scaled_magnitude_spec by done. unfold pd_num, signed. ring.
Qed.

(** A value does not depend on the scale it is written at. *)
Lemma pd_value_rescale p scale : pd_scale p ≤ scale →
  (pd_value p == inject_Z (pd_num p * 10 ^ (scale - pd_scale p)) / inject_Z (10 ^ scale))%Q.
Proof.
  intros Hs. pose proof (pd_scale_nonneg p). unfold pd_value.
  replace (10 ^ scale) with (10 ^ (scale - pd_scale p) * 10 ^ pd_scale p)
    by (rewrite <- Z.pow_add_r by lia; f_equal; lia).
  rewrite !inject_Z_mult. field. split; apply inject_pow10_nz; lia.
Qed.

Lemma Qdiv_pow10_plus x y s : 0 ≤ s →
  (inject_Z x / inject_Z (10 ^ s) + inject_Z y / inject_Z (10 ^ s) ==
   inject_Z (x + y) / inject_Z (10 ^ s))%Q.
Proof. intros. rewrite inject_Z_plus. field. auto with credence. Qed.

Lemma Qdiv_pow10_minus x y s : 0 ≤ s →
  (inject_Z x / inject_Z (10 ^ s) - inject_Z y / inject_Z (10 ^ s) ==
   inject_Z (x - y) / inject_Z (10 ^ s))%Q.
Proof.
  intros. unfold Z.sub. rewrite inject_Z_plus, inject_Z_opp. field. auto with credence.
Qed.

Lemma pd_value_mult pa pb :
  (pd_value pa * pd_value pb ==
   inject_Z ((if negb (Bool.eqb (negative pa) (negative pb)) then -1 else 1) *
     (BigInt (intStr pa +:+ fracStr pa) * BigInt (intStr pb +:+ fracStr pb)))
   / inject_Z (10 ^ (pd_scale pa + pd_scale pb)))%Q.
Proof.
  unfold pd_value, pd_num, signed.
  rewrite Z.pow_add_r, !inject_Z_mult by auto with credence.
  destruct (negative pa), (negative pb); simpl; field; auto with credence.
Qed.

(** A binary operation on decimal strings is exact: on two decimals it returns
    a decimal of value [op x y] at the scale [sc] of the scales, and on an
    ill-formed argument it throws the parse error of the first such argument. *)
Definition exact_binary (f : string → string → result decimal_error string)
    (op : Q → Q → Q) (sc : Z → Z → Z) : Prop := ∀ a b,
  match parseDecimalString a, parseDecimalString b with
  | Ok pa, Ok pb => ∃ r, f a b = Ok r ∧
      is_decimal r (op (pd_value pa) (pd_value pb)) (sc (pd_scale pa) (pd_scale pb))
  | Err e, _ => f a b = Err e
  | Ok _, Err e => f a b = Err e
  end.

Ltac exact_cases a b f :=
  let pa := fresh "pa" in let pb := fresh "pb" in
  let Ha := fresh "Ha" in let Hb := fresh "Hb" in
  destruct (parseDecimalString a) as [pa|] eqn:Ha, (parseDecimalString b) as [pb|] eqn:Hb;
  unfold f; rewrite Ha; simpl; try rewrite Hb; simpl; try done.

Lemma add_exact : exact_binary addDecimals Qplus Z.max.
Proof.
  intros a b. exact_cases a b addDecimals. eexists; split; [done|].
  change (slen (fracStr ?p)) with (pd_scale p).
  set (s := Z.max (pd_scale pa) (pd_scale pb)).
  rewrite !signed_magnitude_spec by lia.
  rewrite (pd_value_rescale pa s), (pd_value_rescale pb s) by lia.
  assert (0 ≤ s) by (pose proof (pd_scale_nonneg pa); lia).
  rewrite Qdiv_pow10_plus by done.
  by apply format_decimal_Z.
Qed.

Lemma subtract_exact : exact_binary subtractDecimals Qminus Z.max.
Proof.
  intros a b. exact_cases a b subtractDecimals. eexists; split; [done|].
  change (slen (fracStr ?p)) with (pd_scale p).
  set (s := Z.max (pd_scale pa) (pd_scale pb)).
  rewrite !signed_magnitude_spec by lia.
  rewrite (pd_value_rescale pa s), (pd_value_rescale pb s) by lia.
  assert (0 ≤ s) by (pose proof (pd_scale_nonneg pa); lia).
  rewrite Qdiv_pow10_minus by done.
  by apply format_decimal_Z.
Qed.

Lemma parsed_magnitude_nonneg v p : parseDecimalString v = Ok p →
  0 ≤ BigInt (intStr p +:+ fracStr p).
Proof. intros H%parse_wf. rewrite <- pd_num_abs by done. lia. Qed.

Lemma multiply_exact : exact_binary multiplyDecimals Qmult Z.add.
Proof.
  intros a b. exact_cases a b multiplyDecimals. eexists; split; [done|].
  change (slen (fracStr ?p)) with (pd_scale p).
  apply parsed_magnitude_nonneg in Ha, Hb.
  set (x := BigInt (intStr pa +:+ fracStr pa)) in *.
  set (y := BigInt (intStr pb +:+ fracStr pb)) in *.
  destruct (Z.ltb_spec (x * y) 0); [nia|].
  pose proof (pd_scale_nonneg pa). pose proof (pd_scale_nonneg pb).
  rewrite pd_value_mult. fold x y. apply format_decimal_nz; lia.
Qed.

Lemma Qdiv_pow10_compare x y s : 0 ≤ s →
  (inject_Z x / inject_Z (10 ^ s) ?= inject_Z y / inject_Z (10 ^ s))%Q = (x ?= y).
Proof.
  intros Hs. pose proof (pow10_pos s Hs) as Hp.
  destruct (10 ^ s) as [|p|p]; [lia| |lia].
  unfold Qdiv, Qmult, Qinv, inject_Z, Qcompare; simpl.
  rewrite !Z.mul_1_r. symmetry. apply Zmult_compare_compat_r; lia.
Qed.

(** A comparison decides the order of the values of its arguments. *)
Definition compares_exactly (cmp : string → string → result decimal_error Z) : Prop := ∀ a b,
  match parseDecimalString a, parseDecimalString b with
  | Ok pa, Ok pb => cmp a b =
      Ok match (pd_value pa ?= pd_value pb)%Q with Lt => -1 | Eq => 0 | Gt => 1 end
  | Err e, _ => cmp a b = Err e
  | Ok _, Err e => cmp a b = Err e
  end.

Lemma compare_correct : compares_exactly compareDecimals.
Proof.
  intros a b. exact_cases a b compareDecimals. f_equal.
  change (slen (fracStr ?p)) with (pd_scale p).
  set (s := Z.max (pd_scale pa) (pd_scale pb)).
  rewrite !signed_magnitude_spec by lia.
  rewrite (pd_value_rescale pa s), (pd_value_rescale pb s) by lia.
  rewrite Qdiv_pow10_compare by (pose proof (pd_scale_nonneg pa); lia).
  unfold Z.ltb. rewrite Z.gtb_ltb. unfold Z.ltb.
  rewrite (Z.compare_antisym (pd_num pa * _)).
  by destruct (_ ?= _).
Qed.

(** C16. Decimal arithmetic is exact: [addDecimals], [subtractDecimals] and
    [multiplyDecimals] of two decimal strings return a decimal string whose
    rational value is the sum, difference or product of the values, with no
    rounding, at the larger scale (for a product, the sum of the scales);
    [compareDecimals] returns -1, 0 or 1 exactly as the values compare,
    whatever the scales (["1.50"] equals ["1.5"]); and on an argument that is
    not a decimal string they throw its parse error. *)
Theorem decimal_arithmetic_exact :
  exact_binary addDecimals Qplus Z.max ∧
  exact_binary subtractDecimals Qminus Z.max ∧
  exact_binary multiplyDecimals Qmult Z.add ∧
  compares_exactly compareDecimals.
Proof. split_and!; [exact add_exact|exact subtract_exact|exact multiply_exact|exact compare_correct]. Qed.

(** ** Rounding and division *)

Lemma applyDivisionRounding_spec mode n d : 0 ≤ n → 0 < d →
  rounds_to mode (inject_Z n / inject_Z d)
    (applyDivisionRounding (Z.quot n d) (Z.rem n d) d mode).
Proof.
  intros Hn Hd. destruct (quot_rem_pos n d Hn Hd) as (-> & -> & Ht & Hr & Hdm).
  destruct d as [|p|p]; [lia| |lia].
  set (t := n / Z.pos p) in *. set (r := n mod Z.pos p) in *.
  unfold applyDivisionRounding, rounds_to.
  destruct mode; repeat case_test; breflect;
    unfold Qle, Qlt, Qeq, Qdiv, Qmult, Qinv, Qplus, Qminus, Qopp, inject_Z; simpl;
    rewrite ?Z.rem_mod_nonneg in * by lia;
    split_and?; try nia.
  all: intros [?|?]; try nia.
  all: first [ exists (t / 2); pose proof (Z.div_mod t 2); lia
             | exists (t / 2 + 1); pose proof (Z.div_mod t 2);
               pose proof (Z.mod_pos_bound t 2); lia ].
Qed.

Lemma Qlt_Z (x y : Z) : (inject_Z x < inject_Z y)%Q ↔ x < y.
Proof. by rewrite <- Zlt_Qlt. Qed.

Lemma rounds_le mode q r r' : rounds_to mode q r → rounds_to mode q r' → r ≤ r'.
Proof.
  intros H H'. destruct mode; simpl in *; destruct_and?.
  1,2,4,5: cut (r < r' + 1); [lia|]; apply Qlt_Z; rewrite inject_Z_plus;
    change (inject_Z 1) with 1%Q; lra.
  assert (r < r' + 2).
  { apply Qlt_Z. rewrite inject_Z_plus. change (inject_Z 2) with 2%Q. lra. }
  destruct (decide (r = r' + 1)) as [->|]; [exfalso|lia].
  rewrite inject_Z_plus in *. change (inject_Z 1) with 1%Q in *.
  assert (Z.Even (r' + 1)) as [a Ha] by (match goal with Hi : _ → Z.Even (r' + 1) |- _ => apply Hi end; left; lra).
  assert (Z.Even r') as [b Hb] by (match goal with Hi : _ → Z.Even r' |- _ => apply Hi end; right; lra).
  lia.
Qed.

(** A rounding mode prescribes at most one integer. *)
Lemma rounds_to_unique mode q r r' : rounds_to mode q r → rounds_to mode q r' → r = r'.
Proof. intros H H'. apply Z.le_antisymm; eauto using rounds_le. Qed.

(** Rounding of a signed value: the magnitude is rounded, the sign kept. *)
Definition rounds_signed (mode : RoundingMode) (q : Q) (r : Z) : Prop :=
  rounds_to mode (Qabs q) (Z.abs r) ∧ (0 <= inject_Z r * q)%Q.

Lemma rounds_to_Z mode r : rounds_to mode (inject_Z r) r.
Proof.
  destruct mode; simpl; split_and?; lra.
Qed.

Lemma pd_value_abs p : pd_wf p →
  (Qabs (pd_value p) ==
   inject_Z (BigInt (intStr p +:+ fracStr p)) / inject_Z (10 ^ pd_scale p))%Q.
Proof.
  intros Hwf. unfold pd_value, Qdiv. rewrite Qabs_Qmult, Qabs_Qinv.
  rewrite <- pd_num_abs by done. simpl.
  rewrite (Z.abs_eq (10 ^ _)) by (apply Z.lt_le_incl; auto with credence). done.
Qed.

(** The sign bit of a parsed decimal agrees with the sign of its value. *)
Lemma pd_value_sign v p : parseDecimalString v = Ok p →
  if negative p then (pd_value p <= 0)%Q else (0 <= pd_value p)%Q.
Proof.
  intros Hp. pose proof (parsed_magnitude_nonneg _ _ Hp).
  unfold pd_value, pd_num, signed, Qdiv.
  assert (0 <= / inject_Z (10 ^ pd_scale p))%Q.
  { apply Qinv_le_0_compat. auto with credence. }
  destruct (negative p).
  - assert (inject_Z (-1 * BigInt (intStr p +:+ fracStr p)) <= 0)%Q
      by (change 0%Q with (inject_Z 0); rewrite <- Zle_Qle; lia). nra.
  - assert (0 <= inject_Z (1 * BigInt (intStr p +:+ fracStr p)))%Q
      by (change 0%Q with (inject_Z 0); rewrite <- Zle_Qle; lia). nra.
Qed.

Lemma applyDivisionRounding_nonneg mode t r d : 0 ≤ t →
  0 ≤ applyDivisionRounding t r d mode.
Proof. intros. unfold applyDivisionRounding. destruct mode; repeat case_test; lia. Qed.

Lemma rounds_signed_intro mode q n d (neg : bool) : 0 ≤ n → 0 < d →
  (Qabs q == inject_Z n / inject_Z d)%Q →
  (if neg then (q <= 0)%Q else (0 <= q)%Q) →
  rounds_signed mode q ((if neg then -1 else 1) *
    applyDivisionRounding (Z.quot n d) (Z.rem n d) d mode).
Proof.
  intros Hn Hd Hq Hneg.
  pose proof (applyDivisionRounding_spec mode n d Hn Hd) as Hr.
  destruct (quot_rem_pos n d Hn Hd) as (Et & _ & Ht & _).
  rewrite <- Et in Ht.
  pose proof (applyDivisionRounding_nonneg mode _ (Z.rem n d) d Ht) as Hnn.
  set (R := applyDivisionRounding _ _ _ _) in *.
  assert (0 <= inject_Z R)%Q by (change 0%Q with (inject_Z 0); by rewrite <- Zle_Qle).
  split.
  - rewrite Hq. replace (Z.abs _) with R by (destruct neg; lia). done.
  - rewrite inject_Z_mult. destruct neg; simpl.
    + change (inject_Z (-1)) with (-1)%Q. nra.
    + change (inject_Z 1) with 1%Q. nra.
Qed.

Section Division.
Context (pa pb : ParsedDecimal) (Hwa : pd_wf pa) (Hwb : pd_wf pb).
Context (scale : Z) (Hs : 0 ≤ scale) (Hnz : pd_num pb ≠ 0).

Let numerator := BigInt (intStr pa +:+ fracStr pa).
Let denominator := BigInt (intStr pb +:+ fracStr pb).
Let shift := scale + pd_scale pb - pd_scale pa.

Lemma denominator_pos : 0 < denominator.
Proof. subst denominator. pose proof (pd_num_abs pb Hwb). lia. Qed.

(** The two BigInt operands of the division represent the quotient of the
    magnitudes, scaled to the requested number of digits. *)
Lemma scaled_quotient :
  (Qabs (pd_value pa / pd_value pb * inject_Z (10 ^ scale)) ==
   inject_Z (if shift >=? 0 then numerator * 10 ^ shift else numerator) /
   inject_Z (if shift >=? 0 then denominator else denominator * 10 ^ (- shift)))%Q.
Proof.
  pose proof denominator_pos as Hd.
  assert (~ inject_Z denominator == 0)%Q by (unfold Qeq; simpl; lia).
  unfold Qdiv. rewrite !Qabs_Qmult, Qabs_Qinv, !pd_value_abs by done.
  fold numerator denominator. rewrite (Qabs_pos (inject_Z (10 ^ scale))) by auto with credence.
  pose proof (pd_scale_nonneg pa). pose proof (pd_scale_nonneg pb).
  rewrite Z.geb_leb. destruct (Z.leb_spec 0 shift).
  - assert (10 ^ scale * 10 ^ pd_scale pb = 10 ^ shift * 10 ^ pd_scale pa) as E.
    { rewrite <- !Z.pow_add_r by lia. f_equal. subst shift. lia. }
    apply (f_equal inject_Z) in E. rewrite !inject_Z_mult in E.
    rewrite inject_Z_mult.
    transitivity (inject_Z numerator * (inject_Z (10 ^ scale) * inject_Z (10 ^ pd_scale pb))
      / (inject_Z (10 ^ pd_scale pa) * inject_Z denominator))%Q.
    { field. auto with credence. }
    rewrite E. field. auto with credence.
  - assert (10 ^ pd_scale pa = 10 ^ scale * 10 ^ pd_scale pb * 10 ^ (- shift)) as E.
    { rewrite <- !Z.pow_add_r by lia. f_equal. subst shift. lia. }
    rewrite E, !inject_Z_mult. field.
    split_and!; auto with credence. apply inject_pow10_nz. lia.
Qed.
End Division.

Lemma quotient_sign x y (sa sb : bool) :
  (if sa then (x <= 0)%Q else (0 <= x)%Q) → (if sb then (y <= 0)%Q else (0 <= y)%Q) →
  ∀ z, (0 <= z)%Q →
  if negb (Bool.eqb sa sb) then (x / y * z <= 0)%Q else (0 <= x / y * z)%Q.
Proof.
  intros Hx Hy z Hz.
  assert (if sb then (/ y <= 0)%Q else (0 <= / y)%Q) as Hiy.
  { destruct sb; [|by apply Qinv_le_0_compat].
    assert (/ y == - / - y)%Q as -> by (destruct y as [[] ?]; reflexivity).
    assert (0 <= / - y)%Q by (apply Qinv_le_0_compat; lra). lra. }
  assert (if negb (Bool.eqb sa sb) then (x / y <= 0)%Q else (0 <= x / y)%Q)
    by (unfold Qdiv; destruct sa, sb; simpl; nra).
  destruct (negb _); nra.
Qed.

(** A division rounds the exact quotient, and throws where it has none. *)
Definition divides_rounding
    (div : string → string → Z → RoundingMode → result decimal_error string) : Prop :=
  ∀ a b scale mode,
  if scale <? 0 then div a b scale mode = Err (InvalidScale scale)
  else match parseDecimalString a, parseDecimalString b with
  | Ok pa, Ok pb =>
      if pd_num pb =? 0
      then div a b scale mode = Err (DivisionByZeroError a b)
      else ∃ r R, div a b scale mode = Ok r ∧
        rounds_signed mode (pd_value pa / pd_value pb * inject_Z (10 ^ scale)) R ∧
        is_decimal r (inject_Z R / inject_Z (10 ^ scale)) scale
  | Err e, _ => div a b scale mode = Err e
  | Ok _, Err e => div a b scale mode = Err e
  end.

Lemma divide_correct : divides_rounding divideDecimals.
Proof.
  intros a b scale mode. unfold divideDecimals. destruct (Z.ltb_spec scale 0) as [|Hs]; [done|]. simpl.
  destruct (parseDecimalString a) as [pa|] eqn:Ha; simpl; [|done].
  destruct (parseDecimalString b) as [pb|] eqn:Hb; simpl; [|done].
  pose proof (parse_wf _ _ Ha) as Hwa. pose proof (parse_wf _ _ Hb) as Hwb.
  pose proof (pd_num_abs pb Hwb) as Hab.
  destruct (Z.eqb_spec (pd_num pb) 0) as [E|Hnz].
  { rewrite <- Hab, E. done. }
  destruct (Z.eqb_spec (BigInt (intStr pb +:+ fracStr pb)) 0) as [|_]; [lia|]. simpl.
  change (slen (fracStr ?p)) with (pd_scale p).
  pose proof (scaled_quotient pa pb Hwa Hwb scale Hs Hnz) as Hq.
  pose proof (parsed_magnitude_nonneg _ _ Ha) as Hna.
  assert (0 < BigInt (intStr pb +:+ fracStr pb)) as Hdb by lia.
  set (shift := scale + pd_scale pb - pd_scale pa) in *.
  set (n := if shift >=? 0 then _ else _) in *.
  set (d := if shift >=? 0 then BigInt (intStr pb +:+ fracStr pb) else _) in *.
  assert (0 ≤ n) as Hn.
  { subst n. case_test; [|done]. breflect. pose proof (pow10_pos shift). nia. }
  assert (0 < d) as Hd.
  { subst d. case_test; [done|]. breflect. pose proof (pow10_pos (- shift)).
    rewrite Z.geb_leb, Z.leb_gt in Htest. nia. }
  do 2 eexists. split; [done|]. split.
  - apply (rounds_signed_intro mode _ n d (negb (Bool.eqb (negative pa) (negative pb))));
      [done..|].
    apply quotient_sign; [by apply pd_value_sign with a|by apply pd_value_sign with b|].
    auto with credence.
  - apply format_decimal_nz; [|done]. apply applyDivisionRounding_nonneg.
    by apply Z.quot_pos.
Qed.

(** Division: for a scale that is not negative, two decimal strings and a
    non-zero divisor, [divideDecimals] returns a decimal string with exactly
    [scale] fraction digits whose value is the exact quotient rounded as the
    mode prescribes (the magnitude rounded, the sign kept), computed without
    any approximation. Otherwise it throws: on a negative scale, on the first
    ill-formed argument, or [DivisionByZeroError] when the divisor is zero. *)
Theorem divideDecimals_rounds : divides_rounding divideDecimals.
Proof. exact divide_correct. Qed.

(** The two branches of [roundToScale]: padding when the input has no more
    fraction digits than asked, rounding otherwise. *)
Lemma roundToScale_value v p scale mode : 0 ≤ scale →
  parseDecimalString v = Ok p →
  ∃ R, 0 ≤ R ∧
    roundToScale v scale mode =
      Ok (with_sign (negative p && negb (R =? 0)) (formatScaledInt R scale)) ∧
    rounds_signed mode (pd_value p * inject_Z (10 ^ scale))
      ((if negative p then -1 else 1) * R) ∧
    (pd_scale p ≤ scale → R = BigInt (intStr p +:+ fracStr p) * 10 ^ (scale - pd_scale p)).
Proof.
  intros Hs Hp. unfold roundToScale. destruct (Z.ltb_spec scale 0); [lia|].
  rewrite Hp. simpl. pose proof (parse_wf _ _ Hp) as Hwf.
  pose proof (parsed_magnitude_nonneg _ _ Hp) as Hm.
  pose proof (pd_scale_nonneg p) as Hk.
  assert (if negative p then (pd_value p * inject_Z (10 ^ scale) <= 0)%Q
          else (0 <= pd_value p * inject_Z (10 ^ scale))%Q) as Hsg.
  { pose proof (pd_value_sign _ _ Hp). pose proof (inject_pow10_nonneg scale Hs).
    destruct (negative p); nra. }
  destruct (Z.leb_spec (slen (fracStr p)) scale) as [Hle|Hlt].
  - fold (toScaledMagnitude p scale). rewrite scaled_magnitude_spec by done.
    set (R := _ * 10 ^ _).
    assert (0 ≤ R) by (pose proof (pow10_pos (scale - pd_scale p));
      unfold pd_scale in *; subst R; nia).
    exists R. split_and!; [done|done| |done].
    replace R with (applyDivisionRounding (Z.quot R 1) (Z.rem R 1) 1 mode).
    2:{ rewrite Z.quot_1_r, Z.rem_1_r. unfold applyDivisionRounding. by destruct mode. }
    apply rounds_signed_intro; [done|lia| |done].
    rewrite Qabs_Qmult, pd_value_abs by done.
    rewrite (Qabs_pos (inject_Z _)) by auto with credence.
    replace (10 ^ scale) with (10 ^ (scale - pd_scale p) * 10 ^ pd_scale p)
      by (rewrite <- Z.pow_add_r by (unfold pd_scale in *; lia); f_equal; lia).
    subst R. rewrite !inject_Z_mult. change (inject_Z 1) with 1%Q.
    field. auto with credence.
  - rewrite <- BigInt_app. change (slen (fracStr p)) with (pd_scale p) in *.
    pose proof (pow10_pos (pd_scale p - scale) ltac:(lia)) as Hf.
    eexists. split_and!; [|done| |lia].
    { apply applyDivisionRounding_nonneg, Z.quot_pos; lia. }
    apply rounds_signed_intro; [done|done| |done].
    rewrite Qabs_Qmult, pd_value_abs by done.
    rewrite (Qabs_pos (inject_Z _)) by auto with credence.
    replace (10 ^ pd_scale p) with (10 ^ (pd_scale p - scale) * 10 ^ scale)
      by (rewrite <- Z.pow_add_r by lia; f_equal; lia).
    rewrite inject_Z_mult. field.
    split; auto with credence. apply inject_pow10_nz. lia.
Qed.

(** Rounding a result again at the same scale, in any mode, returns the
    identical string. *)
Lemma roundToScale_idempotent v scale mode mode' r :
  roundToScale v scale mode = Ok r → roundToScale r scale mode' = Ok r.
Proof.
  intros H. assert (0 ≤ scale ∧ ∃ p, parseDecimalString v = Ok p) as (Hs & p & Hp).
  { unfold roundToScale in H. invert_result. breflect. eauto. }
  destruct (roundToScale_value v p scale mode Hs Hp) as (R & HR & Hr & _ & _).
  rewrite Hr in H. injection H as <-.
  set (neg := negative p && negb (R =? 0)).
  destruct (format_parse neg R scale HR Hs) as (p' & Hp' & Hn & Hb & Hl).
  destruct (roundToScale_value _ p' scale mode' Hs Hp') as (R' & _ & -> & _ & HR').
  unfold pd_scale in HR'. rewrite HR', Hb, Hn, Hl by lia.
  rewrite Z.sub_diag, Z.mul_1_r. f_equal. f_equal.
  subst neg. destruct (negative p), (R =? 0); done.
Qed.

(** Rounding: at a scale that is not negative, [roundToScale] of a decimal
    string returns a decimal string with exactly that many fraction digits
    whose value is the input rounded as the mode prescribes, and rounding the
    result again at that scale, in any mode, returns the identical string; it
    throws on a negative scale and on an ill-formed string. *)
Theorem roundToScale_rounds v scale mode :
  if scale <? 0 then roundToScale v scale mode = Err (InvalidScale scale)
  else match parseDecimalString v with
  | Ok p => ∃ r R, roundToScale v scale mode = Ok r ∧
      rounds_signed mode (pd_value p * inject_Z (10 ^ scale)) R ∧
      is_decimal r (inject_Z R / inject_Z (10 ^ scale)) scale ∧
      ∀ mode', roundToScale r scale mode' = Ok r
  | Err e => roundToScale v scale mode = Err e
  end.
Proof.
  destruct (Z.ltb_spec scale 0) as [|Hs].
  { unfold roundToScale. destruct (Z.ltb_spec scale 0); [done|lia]. }
  destruct (parseDecimalString v) as [p|e] eqn:Hp.
  - destruct (roundToScale_value v p scale mode Hs Hp) as (R & HR & Hr & Hspec & _).
    do 2 eexists. split; [exact Hr|]. split; [exact Hspec|].
    split; [by apply format_decimal_nz|]. intros mode'. by eapply roundToScale_idempotent.
  - unfold roundToScale. destruct (Z.ltb_spec scale 0); [lia|]. by rewrite Hp.
Qed.

(** ** Column bounds and positivity *)

Lemma strip_leading_digits s : all_digits s → all_digits (strip_leading "0" s).
Proof.
  unfold all_digits. induction s as [|c s IH]; simpl; [done|].
  intros H. destruct (Ascii.eqb c "0"); [|done].
  apply andb_true_iff in H as [_ ?]. auto.
Qed.

(** Without leading zeros, the number of digits is the magnitude. *)
Lemma stripped_len_lt s k : all_digits s → 0 ≤ k →
  slen (strip_leading "0" s) ≤ k ↔ BigInt s < 10 ^ k.
Proof.
  intros Hs Hk. rewrite <- (BigInt_strip0 s).
  pose proof (strip_leading_digits s Hs) as Hd.
  assert (∀ c, is_digit c = true → c ≠ "0"%char → 1 ≤ digit_val c) as Hnz.
  { intros c Hc Hne. apply is_digit_spec in Hc.
    destruct (decide (digit_val c = 0)) as [E|]; [|lia]. destruct Hne.
    unfold digit_val, code in E.
    rewrite <- (ascii_N_embedding c). replace (N_of_ascii c) with 48%N by lia. done. }
  assert (strip_leading "0" s = EmptyString ∨
    10 ^ (slen (strip_leading "0" s) - 1) ≤ BigInt (strip_leading "0" s)) as Hlow.
  { clear Hk Hd. unfold all_digits in Hs. induction s as [|c s IH]; simpl; [by left|].
    simpl in Hs. apply andb_true_iff in Hs as [Hc Hs].
    destruct (Ascii.eqb_spec c "0"); [auto|right].
    specialize (Hnz c Hc n). pose proof (BigInt_bounds s Hs). pose proof (slen_nonneg s).
    unfold BigInt. cbn [BigInt_acc]. rewrite BigInt_acc_spec, slen_cons.
    replace (1 + slen s - 1) with (slen s) by lia. nia. }
  pose proof (BigInt_bounds _ Hd) as Hb. split.
  - intros Hle. pose proof (Z.pow_le_mono_r 10 (slen (strip_leading "0" s)) k). lia.
  - intros Hlt. destruct Hlow as [->|Hlow]; [unfold slen; simpl; lia|].
    apply Z.le_ngt. intros Hgt.
    pose proof (Z.pow_le_mono_r 10 k (slen (strip_leading "0" s) - 1)). lia.
Qed.

Lemma bounds_correct value precision scale p :
  0 < precision → 0 ≤ scale ≤ precision → parseDecimalString value = Ok p →
  assertWithinNumericBounds value precision scale =
    (if pd_scale p >? scale then Err (DecimalScaleError value scale (pd_scale p))
     else if Qle_bool (inject_Z (10 ^ (precision - scale))) (Qabs (pd_value p))
     then Err (DecimalOverflowError value precision scale)
     else Ok ()).
Proof.
  intros Hp Hs Hv.
  destruct (parse_wf _ _ Hv) as (Hi & Hne & Hf).
  pose proof (stripped_len_lt (intStr p) (precision - scale) Hi ltac:(lia)) as Hlen.
  pose proof (BigInt_bounds _ Hf) as Hfb. pose proof (BigInt_bounds _ Hi) as Hib.
  assert (Qle_bool (inject_Z (10 ^ (precision - scale))) (Qabs (pd_value p)) =
    (10 ^ (precision - scale) <=? BigInt (intStr p))) as ->.
  { apply eq_true_iff_eq. rewrite Qle_bool_iff, Z.leb_le, pd_value_abs by done.
    rewrite BigInt_app. change (slen (fracStr p)) with (pd_scale p) in *.
    pose proof (pow10_pos (pd_scale p) (pd_scale_nonneg p)) as Hpos.
    set (S := 10 ^ pd_scale p) in *. set (P := 10 ^ (precision - scale)) in *.
    destruct S as [|q|q] eqn:E; [lia| |lia].
    unfold Qle, Qdiv, Qmult, Qinv, inject_Z; simpl. split; intros; nia. }
  unfold assertWithinNumericBounds.
  destruct (Z.leb_spec precision 0); [lia|].
  destruct (Z.ltb_spec scale 0); [lia|].
  rewrite Z.gtb_ltb. destruct (Z.ltb_spec precision scale); [lia|]. simpl.
  rewrite Hv. simpl. change (slen (fracStr p)) with (pd_scale p).
  destruct (pd_scale p >? scale); [done|]. simpl.
  unfold throw_if. rewrite Z.gtb_ltb.
  destruct (Z.ltb_spec (precision - scale) (slen (strip_leading "0" (intStr p)))),
    (Z.leb_spec (10 ^ (precision - scale)) (BigInt (intStr p))); lia || done.
Qed.

(** [assertWithinNumericBounds] accepts exactly the decimal strings that a
    column [NUMERIC(precision, scale)] stores without change: for a valid
    precision and scale it succeeds if and only if the string has at most
    [scale] fraction digits and its magnitude is below [10^(precision-scale)];
    too many fraction digits give [DecimalScaleError], too large a magnitude
    [DecimalOverflowError]. *)
Theorem numeric_bounds_exact value precision scale p :
  0 < precision → 0 ≤ scale ≤ precision → parseDecimalString value = Ok p →
  assertWithinNumericBounds value precision scale =
    (if pd_scale p >? scale then Err (DecimalScaleError value scale (pd_scale p))
     else if Qle_bool (inject_Z (10 ^ (precision - scale))) (Qabs (pd_value p))
     then Err (DecimalOverflowError value precision scale)
     else Ok ()).
Proof. apply bounds_correct. Qed.

Lemma numeric_bounds_exact_witness :
  assertWithinNumericBounds "12.5" 3 1 = Ok () ∧
  assertWithinNumericBounds "123.5" 3 1 = Err (DecimalOverflowError "123.5" 3 1).
Proof.
  split.
  - rewrite (numeric_bounds_exact "12.5" 3 1
      {| negative := false; intStr := "12"; fracStr := "5" |});
      [vm_compute; reflexivity|lia|lia|vm_compute; reflexivity].
  - rewrite (numeric_bounds_exact "123.5" 3 1
      {| negative := false; intStr := "123"; fracStr := "5" |});
      [vm_compute; reflexivity|lia|lia|vm_compute; reflexivity].
Defined.

(** [isValidPositiveDecimal] decides that the string is a decimal without a
    minus sign whose value is positive. *)
Lemma isValidPositiveDecimal_spec v :
  isValidPositiveDecimal v = true ↔
  ∃ p, parseDecimalString v = Ok p ∧ (0 < pd_value p)%Q.
Proof.
  unfold isValidPositiveDecimal.
  destruct (parseDecimalString v) as [p|e] eqn:Hp; [|naive_solver].
  pose proof (parsed_magnitude_nonneg _ _ Hp).
  pose proof (pow10_pos (pd_scale p) (pd_scale_nonneg p)) as Hpos.
  assert ((0 < pd_value p)%Q ↔ 0 < pd_num p) as Hiff.
  { unfold pd_value. destruct (10 ^ pd_scale p) as [|q|q]; [lia| |lia].
    unfold Qlt, Qdiv, Qmult, Qinv, inject_Z; simpl. lia. }
  transitivity (0 < pd_num p); [|naive_solver].
  unfold pd_num, signed. destruct (negative p); [|breflect]; lia || (split; [done|lia]).
Qed.
