(* ===== verification/FeeEngine.v ===== *)
(** * Fee calculation: [services/billing/feeEngine.ts], [services/billing/types.ts]

    Fees are percentages of a base amount, computed on BigInts and rounded once
    to the minor unit of the currency. The theorems give the exact value of the
    fee and of the total, for one rate and for a list of rates. *)

From stdpp Require Import base option list strings.
From Stdlib Require Import ZArith Lia Ascii String QArith Qabs Lqa.
From S2P Require Import Prelude JsLib DecimalMath.

Open Scope Z_scope.

(** ** Data *)

Record Money := { amount : string; currency : string }.
Record FeeInput := { base : Money; ratePercent : string }.
Record FeeResult := { baseAmount : Money; feeAmount : Money; totalAmount : Money }.

Inductive fee_error :=
| NotNonNegativeDecimal (label value : string)
| ExceedsCurrencyScale (amount : string) (digits scale : Z) (currency : string)
| NegativeRate (rate : string)
| FeeDecimal (e : decimal_error).

(** The own keys of the table. *)
Definition CURRENCY_SCALES : list (string * Z) :=
  [("JPY", 0); ("KRW", 0);
   ("USD", 2); ("EUR", 2); ("GBP", 2); ("CAD", 2); ("AUD", 2); ("CHF", 2);
   ("MXN", 2); ("BRL", 2); ("SGD", 2); ("HKD", 2); ("SEK", 2); ("NOK", 2);
   ("DKK", 2); ("ZAR", 2); ("INR", 2);
   ("KWD", 3); ("BHD", 3); ("OMR", 3); ("JOD", 3)].

Definition DEFAULT_CURRENCY_SCALE : Z := 2.

(** [getCurrencyScale] of a currency code; the names the table inherits from
    [Object.prototype], such as [toString], are no codes and are left out. *)
Definition getCurrencyScale (c : string) : Z :=
  match find (λ kv, String.eqb kv.1 c) CURRENCY_SCALES with
  | Some kv => kv.2
  | None => DEFAULT_CURRENCY_SCALE
  end.

(** ** Internal helpers *)

(** An error of [decimalMath] passing through. *)
Definition lift_decimal {A} (m : result decimal_error A) : result fee_error A :=
  match m with Ok a => Ok a | Err e => Err (FeeDecimal e) end.

Definition parseNonNegativeDecimal (value label : string)
  : result fee_error (string * string) :=
  let trimmed := trim value in
  _ ← throw_if (negb (decimal_re trimmed)) (NotNonNegativeDecimal label value);
  let dot := indexOf trimmed "." in
  Ok (if dot =? -1 then trimmed else sliceTo trimmed dot,
      if dot =? -1 then EmptyString else sliceFrom trimmed (dot + 1)).

Definition normaliseAndValidateBaseAmount (amt cur : string) (scale : Z)
  : result fee_error string :=
  '(_, fracDigits) ← parseNonNegativeDecimal amt "base.amount";
  _ ← throw_if (slen fracDigits >? scale)
        (ExceedsCurrencyScale amt (slen fracDigits) scale cur);
  lift_decimal (roundToScale amt scale DOWN).

(** The formatting at the end is the body of [formatScaledInt], repeated in the
    source. *)
Definition computeRawFee (amountStr rateStr : string) (targetScale : Z) (mode : RoundingMode)
  : result fee_error string :=
  '(aInt, aFrac) ← parseNonNegativeDecimal amountStr "amount";
  '(rInt, rFrac) ← parseNonNegativeDecimal rateStr "ratePercent";
  let amountBig := BigInt (aInt +:+ aFrac) in
  let rateBig := BigInt (rInt +:+ rFrac) in
  let amountScale := slen aFrac in
  let rateScale := slen rFrac in
  let denominator := 10 ^ (amountScale + rateScale) * 100 in
  let numerator := amountBig * rateBig * 10 ^ targetScale in
  let truncated := Z.quot numerator denominator in
  let remainder := Z.rem numerator denominator in
  let rounded := applyDivisionRounding truncated remainder denominator mode in
  Ok (formatScaledInt rounded targetScale).

(** [s.padEnd(scale, '0').slice(0, scale)] *)
Definition fit_frac (s : string) (scale : Z) : string :=
  sliceTo (s +:+ str_repeat "0" (Z.to_nat (scale - slen s))) scale.

Definition addMoneyStrings (a b : string) (scale : Z) : result fee_error string :=
  '(aI, aF) ← parseNonNegativeDecimal a "a";
  '(bI, bF) ← parseNonNegativeDecimal b "b";
  let aInt := BigInt (aI +:+ fit_frac aF scale) in
  let bInt := BigInt (bI +:+ fit_frac bF scale) in
  let sum := aInt + bInt in
  lift_decimal (roundToScale (formatScaledInt sum scale) scale DOWN).

(** [parseFloat(s) < 0]: after white space, a minus sign and then [Infinity] or
    a mantissa, with or without a point, that has a non-zero digit. (An
    exponent changes the answer only where the magnitude underflows to zero.) *)
Definition has_nonzero (s : string) : bool :=
  negb (str_forallb (λ c, Ascii.eqb c "0") s).

Definition parseFloat_negative (s : string) : bool :=
  match trimStart s with
  | String c rest =>
      Ascii.eqb c "-" &&
      (String.prefix "Infinity" rest ||
       let '(int, rest') := span_digits rest in
       has_nonzero int ||
       match rest' with
       | String d rest'' => Ascii.eqb d "." && has_nonzero (span_digits rest'').1
       | EmptyString => false
       end)
  | EmptyString => false
  end.

(** ** Public API *)

Definition calculateFee (input : FeeInput) (mode : RoundingMode) : result fee_error FeeResult :=
  let cur := currency (base input) in
  _ ← throw_if (parseFloat_negative (ratePercent input)) (NegativeRate (ratePercent input));
  let scale := getCurrencyScale cur in
  normalisedBase ← normaliseAndValidateBaseAmount (amount (base input)) cur scale;
  feeAmountStr ← computeRawFee normalisedBase (ratePercent input) scale mode;
  totalAmountStr ← addMoneyStrings normalisedBase feeAmountStr scale;
  let toMoney a := {| amount := a; currency := cur |} in
  Ok {| baseAmount := toMoney normalisedBase;
        feeAmount := toMoney feeAmountStr;
        totalAmount := toMoney totalAmountStr |}.

(** The loop over the rates, accumulating [totalFeeBig]. *)
Fixpoint sumFees (normBase : string) (rates : list string) (scale : Z)
    (mode : RoundingMode) (totalFeeBig : Z) : result fee_error Z :=
  match rates with
  | [] => Ok totalFeeBig
  | rate :: rest =>
      feeStr ← computeRawFee normBase rate scale mode;
      '(feeI, feeF) ← parseNonNegativeDecimal feeStr "fee";
      sumFees normBase rest scale mode
        (totalFeeBig + BigInt (feeI +:+ fit_frac feeF scale))
  end.

Definition applyFees (bas : Money) (rates : list string) (mode : RoundingMode)
  : result fee_error FeeResult :=
  let scale := getCurrencyScale (currency bas) in
  normBase ← normaliseAndValidateBaseAmount (amount bas) (currency bas) scale;
  let toMoney a := {| amount := a; currency := currency bas |} in
  match rates with
  | [] =>
      let zero := padStart (bigint_toString 0) 1 "0" in
      let zeroStr := if scale =? 0 then zero
                     else zero +:+ "." +:+ str_repeat "0" (Z.to_nat scale) in
      Ok {| baseAmount := toMoney normBase;
            feeAmount := toMoney zeroStr;
            totalAmount := toMoney normBase |}
  | _ =>
      totalFeeBig ← sumFees normBase rates scale mode 0;
      let feeAmountStr := formatScaledInt totalFeeBig scale in
      totalAmountStr ← addMoneyStrings normBase feeAmountStr scale;
      Ok {| baseAmount := toMoney normBase;
            feeAmount := toMoney feeAmountStr;
            totalAmount := toMoney totalAmountStr |}
  end.

Example fee_ex :
  calculateFee {| base := {| amount := "100.00"; currency := "USD" |}; ratePercent := "2.5" |} HALF_UP
  = Ok {| baseAmount := {| amount := "100.00"; currency := "USD" |};
          feeAmount := {| amount := "2.50"; currency := "USD" |};
          totalAmount := {| amount := "102.50"; currency := "USD" |} |}.
Proof. vm_compute. reflexivity. Qed.

(** ** Lemmas on the helpers *)

(** The engine's own parser accepts the decimals of [decimalMath] that carry no
    minus sign, and returns the same digits. *)
Lemma parseNonNegative_spec v l :
  parseNonNegativeDecimal v l =
  match parseDecimalString v with
  | Ok p => if negative p then Err (NotNonNegativeDecimal l v)
            else Ok (intStr p, fracStr p)
  | Err _ => Err (NotNonNegativeDecimal l v)
  end.
Proof.
  unfold parseNonNegativeDecimal, parseDecimalString.
  destruct (startsWith (trim v) "-") eqn:Hneg.
  - assert (decimal_re (trim v) = false) as ->.
    { destruct (trim v) as [|c s]; [done|]. simpl in Hneg.
      apply Ascii.eqb_eq in Hneg as ->. done. }
    by destruct (decimal_re (sliceFrom (trim v) 1)).
  - by destruct (decimal_re (trim v)).
Qed.

Lemma currency_scale_nonneg c : 0 ≤ getCurrencyScale c.
Proof.
  unfold getCurrencyScale.
  destruct (find _ CURRENCY_SCALES) as [[k z]|] eqn:E; [|done].
  apply find_some in E as [Hin _]. simpl in *.
  repeat destruct Hin as [Hin|Hin]; simplify_eq; lia || done.
Qed.
#[export] Hint Resolve currency_scale_nonneg : credence.

(** Amounts at the currency scale: printing, reading and rounding them again. *)
Lemma parse_formatted v s l : 0 ≤ v → 0 ≤ s →
  ∃ i f, parseNonNegativeDecimal (formatScaledInt v s) l = Ok (i, f) ∧
    BigInt (i +:+ f) = v ∧ slen f = s.
Proof.
  intros Hv Hs. destruct (format_parse false v s Hv Hs) as (p & Hp & Hn & Hb & Hl).
  simpl in Hp. rewrite parseNonNegative_spec, Hp, Hn. eauto.
Qed.

Lemma round_formatted v s mode : 0 ≤ v → 0 ≤ s →
  roundToScale (formatScaledInt v s) s mode = Ok (formatScaledInt v s).
Proof.
  intros Hv Hs. destruct (format_parse false v s Hv Hs) as (p & Hp & Hn & Hb & Hl).
  simpl in Hp.
  destruct (roundToScale_value _ p s mode Hs Hp) as (R & _ & -> & _ & HR).
  unfold pd_scale in HR. rewrite HR, Hb, Hn, Hl by lia.
  by rewrite Z.sub_diag, Z.mul_1_r.
Qed.

Lemma fit_frac_id f s : slen f = s → fit_frac f s = f.
Proof.
  intros <-. unfold fit_frac. rewrite Z.sub_diag. simpl. apply sliceTo_app.
Qed.

Lemma addMoneyStrings_formatted a b s : 0 ≤ a → 0 ≤ b → 0 ≤ s →
  addMoneyStrings (formatScaledInt a s) (formatScaledInt b s) s =
    Ok (formatScaledInt (a + b) s).
Proof.
  intros Ha Hb Hs. unfold addMoneyStrings.
  destruct (parse_formatted a s "a" Ha Hs) as (i & f & -> & Hif & Hl).
  destruct (parse_formatted b s "b" Hb Hs) as (i' & f' & -> & Hif' & Hl'). simpl.
  rewrite !fit_frac_id, Hif, Hif' by done.
  by rewrite round_formatted by lia.
Qed.

(** The base amount in minor units. *)
Definition minor_units (p : ParsedDecimal) (scale : Z) : Z :=
  BigInt (intStr p +:+ fracStr p) * 10 ^ (scale - pd_scale p).

Lemma normalise_ok amt cur scale p : 0 ≤ scale →
  parseDecimalString amt = Ok p → negative p = false → pd_scale p ≤ scale →
  normaliseAndValidateBaseAmount amt cur scale = Ok (formatScaledInt (minor_units p scale) scale)
  ∧ 0 ≤ minor_units p scale.
Proof.
  intros Hs Hp Hn Hk. unfold normaliseAndValidateBaseAmount.
  rewrite parseNonNegative_spec, Hp, Hn. simpl. rewrite Z.gtb_ltb.
  change (slen (fracStr p)) with (pd_scale p).
  destruct (Z.ltb_spec scale (pd_scale p)); [lia|]. simpl.
  destruct (roundToScale_value amt p scale DOWN Hs Hp) as (R & HR & -> & _ & E).
  rewrite Hn, E in * by done. done.
Qed.

Lemma normalise_err amt cur scale :
  match parseDecimalString amt with
  | Ok p => negative p = true ∨ scale < pd_scale p
  | Err _ => True
  end → isOk (normaliseAndValidateBaseAmount amt cur scale) = false.
Proof.
  unfold normaliseAndValidateBaseAmount. rewrite parseNonNegative_spec.
  destruct (parseDecimalString amt) as [p|]; [|done].
  intros H. destruct (negative p); [done|]. simpl.
  destruct H; [done|]. rewrite Z.gtb_ltb. change (slen (fracStr p)) with (pd_scale p).
  by destruct (Z.ltb_spec scale (pd_scale p)); [|lia].
Qed.

(** One fee in minor units: the exact percentage of the base, rounded. *)
Lemma computeRawFee_ok n rate pr scale mode : 0 ≤ n → 0 ≤ scale →
  parseDecimalString rate = Ok pr → negative pr = false →
  ∃ F, 0 ≤ F ∧
    computeRawFee (formatScaledInt n scale) rate scale mode = Ok (formatScaledInt F scale) ∧
    rounds_to mode (inject_Z n * (pd_value pr / 100)) F.
Proof.
  intros Hn Hs Hp Hneg. unfold computeRawFee.
  destruct (parse_formatted n scale "amount" Hn Hs) as (i & f & -> & Hif & Hl). simpl.
  rewrite parseNonNegative_spec, Hp, Hneg. simpl.
  rewrite Hif, Hl. change (slen (fracStr pr)) with (pd_scale pr).
  pose proof (pd_scale_nonneg pr). pose proof (parsed_magnitude_nonneg _ _ Hp) as Hm.
  pose proof (pow10_pos scale Hs).
  pose proof (pow10_pos (scale + pd_scale pr) ltac:(lia)) as Hp'.
  eexists. split_and!; [|done|].
  - apply applyDivisionRounding_nonneg, Z.quot_pos; nia.
  - eapply rounds_to_proper; [|done|apply applyDivisionRounding_spec; nia].
    unfold pd_value, pd_num, signed. rewrite Hneg.
    rewrite Z.pow_add_r, !inject_Z_mult by lia.
    change (inject_Z 100) with 100%Q. change (inject_Z 1) with 1%Q.
    field. auto with credence.
Qed.

Lemma computeRawFee_bad_rate n rate scale mode : 0 ≤ n → 0 ≤ scale →
  match parseDecimalString rate with Ok p => negative p = true | Err _ => True end →
  isOk (computeRawFee (formatScaledInt n scale) rate scale mode) = false.
Proof.
  intros Hn Hs H. unfold computeRawFee.
  destruct (parse_formatted n scale "amount" Hn Hs) as (i & f & -> & _ & _). simpl.
  rewrite parseNonNegative_spec. destruct (parseDecimalString rate); [|done].
  by rewrite H.
Qed.

(** A rate that parses without a sign is not negative for [parseFloat]. *)
Lemma trimEnd_head s c t : trimEnd s = String c t → ∃ t', s = String c t'.
Proof.
  destruct s as [|d s]; simpl; [done|].
  destruct (trimEnd s); [destruct (is_space d)|]; intros; simplify_eq; eauto.
Qed.

Lemma parseFloat_nonneg rate p :
  parseDecimalString rate = Ok p → negative p = false → parseFloat_negative rate = false.
Proof.
  unfold parseDecimalString. intros H Hn. invert_result. simpl in Hn.
  unfold trim in *. rewrite Hn in *. breflect.
  destruct (trimEnd (trimStart rate)) as [|c t] eqn:E; [done|].
  apply trimEnd_head in E as [t' Et]. unfold parseFloat_negative. rewrite Et.
  simpl in Hn. by rewrite Hn.
Qed.

(** ** Correctness *)

(** The inputs for which a fee is defined. *)
Definition valid_base (m : Money) : bool :=
  match parseDecimalString (amount m) with
  | Ok p => negb (negative p) && (pd_scale p <=? getCurrencyScale (currency m))
  | Err _ => false
  end.

Definition valid_rate (rate : string) : bool :=
  match parseDecimalString rate with Ok p => negb (negative p) | Err _ => false end.

(** The value of a decimal string, zero where it is not one. *)
Definition value_of (s : string) : Q :=
  match parseDecimalString s with Ok p => pd_value p | Err _ => 0%Q end.

(** A fee of [F] minor units charged on [m], as the result reports it. *)
Definition reports_fee (m : Money) (F : Z) (res : FeeResult) : Prop :=
  let s := getCurrencyScale (currency m) in
  let fee := (inject_Z F / inject_Z (10 ^ s))%Q in
  is_decimal (amount (baseAmount res)) (value_of (amount m)) s ∧
  is_decimal (amount (feeAmount res)) fee s ∧
  is_decimal (amount (totalAmount res)) (value_of (amount m) + fee) s ∧
  currency (baseAmount res) = currency m ∧
  currency (feeAmount res) = currency m ∧
  currency (totalAmount res) = currency m.

(** The base in minor units as a rational. *)
Definition base_units (m : Money) : Q :=
  (value_of (amount m) * inject_Z (10 ^ getCurrencyScale (currency m)))%Q.

Lemma valid_base_normalised m : valid_base m = true →
  let s := getCurrencyScale (currency m) in
  ∃ n, 0 ≤ n ∧
    normaliseAndValidateBaseAmount (amount m) (currency m) s = Ok (formatScaledInt n s) ∧
    (inject_Z n == base_units m)%Q.
Proof.
  unfold valid_base, base_units, value_of. set (s := getCurrencyScale (currency m)).
  destruct (parseDecimalString (amount m)) as [p|] eqn:Hp; [|done]. intros H. breflect.
  destruct H as [Hn Hk]. assert (0 ≤ s) as Hs by (subst s; auto with credence).
  destruct (normalise_ok _ (currency m) s p Hs Hp Hn Hk) as [-> Hnn].
  eexists. split_and!; [done|done|].
  rewrite (pd_value_rescale p s Hk). unfold minor_units, pd_num, signed. rewrite Hn.
  rewrite Z.mul_1_l. field. auto with credence.
Qed.

Lemma invalid_base_err m : valid_base m = false →
  isOk (normaliseAndValidateBaseAmount (amount m) (currency m)
    (getCurrencyScale (currency m))) = false.
Proof.
  intros H. apply normalise_err. unfold valid_base in H.
  destruct (parseDecimalString (amount m)) as [p|]; [|done]. breflect. lia || naive_solver lia.
Qed.

Lemma reports_fee_intro m n F : 0 ≤ n → 0 ≤ F → (inject_Z n == base_units m)%Q →
  let s := getCurrencyScale (currency m) in
  reports_fee m F {|
    baseAmount := {| amount := formatScaledInt n s; currency := currency m |};
    feeAmount := {| amount := formatScaledInt F s; currency := currency m |};
    totalAmount := {| amount := formatScaledInt (n + F) s; currency := currency m |} |}.
Proof.
  intros Hn HF Hb s. assert (0 ≤ s) as Hs by (subst s; auto with credence).
  unfold base_units in Hb. fold s in Hb.
  assert (value_of (amount m) == inject_Z n / inject_Z (10 ^ s))%Q as Hv.
  { rewrite Hb. field. auto with credence. }
  unfold reports_fee; simpl. fold s. split_and!; [..|done|done|done].
  - rewrite Hv. by apply format_decimal_pos.
  - by apply format_decimal_pos.
  - rewrite Hv, Qdiv_pow10_plus by done. apply format_decimal_pos; lia.
Qed.

(** C17. A fee is exact: [calculateFee] succeeds exactly when the base amount is
    a decimal without a sign that fits the currency's minor unit and the rate
    is a decimal without a sign; the fee is then the exact percentage
    [base * rate / 100], rounded once in minor units as the mode prescribes,
    and the total is exactly base plus fee, all at the currency's scale. *)
Theorem calculateFee_exact input mode :
  if valid_base (base input) && valid_rate (ratePercent input)
  then ∃ res F, calculateFee input mode = Ok res ∧
    rounds_to mode (base_units (base input) * (value_of (ratePercent input) / 100)) F ∧
    reports_fee (base input) F res
  else isOk (calculateFee input mode) = false.
Proof.
  unfold calculateFee. set (m := base input).
  set (s := getCurrencyScale (currency m)).
  assert (0 ≤ s) as Hs by (subst s; auto with credence).
  destruct (valid_base m) eqn:Hb; simpl.
  2:{ destruct (parseFloat_negative (ratePercent input)); [done|]. simpl.
      pose proof (invalid_base_err m Hb). fold s in H. by destruct (normaliseAndValidateBaseAmount _ _ s). }
  destruct (valid_base_normalised m Hb) as (n & Hn & Hnorm & Hnb). fold s in Hnorm.
  unfold valid_rate. unfold value_of at 1.
  destruct (parseDecimalString (ratePercent input)) as [pr|] eqn:Hr.
  - destruct (negative pr) eqn:Hneg; simpl.
    + destruct (parseFloat_negative _); [done|]. rewrite Hnorm. simpl.
      pose proof (computeRawFee_bad_rate n (ratePercent input) s mode Hn Hs) as H.
      rewrite Hr in H. specialize (H Hneg). by destruct (computeRawFee _ _ _ _).
    + rewrite (parseFloat_nonneg _ pr) by done. simpl. rewrite Hnorm. simpl.
      destruct (computeRawFee_ok n _ pr s mode Hn Hs Hr Hneg) as (F & HF & -> & HR). simpl.
      rewrite addMoneyStrings_formatted by done. simpl.
      do 2 eexists. split; [done|]. split; [|by apply reports_fee_intro].
      rewrite <- Hnb. exact HR.
  - destruct (parseFloat_negative _); [done|]. rewrite Hnorm. simpl.
    pose proof (computeRawFee_bad_rate n (ratePercent input) s mode Hn Hs) as H.
    rewrite Hr in H. specialize (H I). by destruct (computeRawFee _ _ _ _).
Qed.

(** The loop adds up the fees of the rates, each rounded on its own. *)
Lemma sumFees_ok n rates scale mode acc : 0 ≤ n → 0 ≤ scale →
  forallb valid_rate rates = true →
  ∃ Fs, sumFees (formatScaledInt n scale) rates scale mode acc = Ok (acc + sumZ id Fs) ∧
    Forall (λ F, 0 ≤ F) Fs ∧
    Forall2 (λ rate F, rounds_to mode (inject_Z n * (value_of rate / 100)) F) rates Fs.
Proof.
  intros Hn Hs. revert acc. induction rates as [|rate rates IH]; simpl; intros acc Hv.
  - exists []. simpl. rewrite Z.add_0_r. auto.
  - apply andb_true_iff in Hv as [Hr Hv]. unfold valid_rate in Hr.
    destruct (parseDecimalString rate) as [pr|] eqn:Hp; [|done]. breflect.
    destruct (computeRawFee_ok n rate pr scale mode Hn Hs Hp Hr) as (F & HF & -> & HR). simpl.
    destruct (parse_formatted F scale "fee" HF Hs) as (i & f & -> & Hif & Hl). simpl.
    rewrite fit_frac_id, Hif by done.
    destruct (IH (acc + F) Hv) as (Fs & -> & Hnn & HFs).
    exists (F :: Fs). split_and!; [simpl; unfold id; f_equal; lia|by constructor|].
    constructor; [|done]. unfold value_of. by rewrite Hp.
Qed.

Lemma sumFees_bad_rate n rates scale mode acc : 0 ≤ n → 0 ≤ scale →
  forallb valid_rate rates = false →
  isOk (sumFees (formatScaledInt n scale) rates scale mode acc) = false.
Proof.
  intros Hn Hs. revert acc. induction rates as [|rate rates IH]; simpl; intros acc Hv; [done|].
  destruct (valid_rate rate) eqn:Hr; unfold valid_rate in Hr.
  - destruct (parseDecimalString rate) as [pr|] eqn:Hp; [|done]. breflect.
    destruct (computeRawFee_ok n rate pr scale mode Hn Hs Hp Hr) as (F & HF & -> & _). simpl.
    destruct (parse_formatted F scale "fee" HF Hs) as (i & f & -> & _ & _). simpl.
    apply IH. destruct Hv as [?|?]; done.
  - pose proof (computeRawFee_bad_rate n rate scale mode Hn Hs) as H.
    destruct (computeRawFee _ _ _ _); [|done]. exfalso.
    destruct (parseDecimalString rate); [breflect|]; by discriminate H.
Qed.

(** Several fees: [applyFees] succeeds exactly when the base amount and all
    rates are valid; the fee it reports is the sum, over the rates, of the
    exact percentage of the base (not compounded) rounded on its own, and the
    total is exactly base plus that sum. *)
Theorem applyFees_exact m rates mode :
  if valid_base m && forallb valid_rate rates
  then ∃ res Fs, applyFees m rates mode = Ok res ∧
    Forall2 (λ rate F, rounds_to mode (base_units m * (value_of rate / 100)) F) rates Fs ∧
    reports_fee m (sumZ id Fs) res
  else isOk (applyFees m rates mode) = false.
Proof.
  unfold applyFees. set (s := getCurrencyScale (currency m)).
  assert (0 ≤ s) as Hs by (subst s; auto with credence).
  destruct (valid_base m) eqn:Hb; simpl.
  2:{ pose proof (invalid_base_err m Hb). fold s in H.
      by destruct (normaliseAndValidateBaseAmount _ _ s). }
  destruct (valid_base_normalised m Hb) as (n & Hn & Hnorm & Hnb). fold s in Hnorm.
  rewrite Hnorm. simpl.
  destruct (forallb valid_rate rates) eqn:Hr.
  - destruct (sumFees_ok n rates s mode 0 Hn Hs Hr) as (Fs & Hsum & Hnn & HFs).
    assert (0 ≤ sumZ id Fs) by (apply sumZ_nonneg; by apply Forall_forall).
    pose proof (reports_fee_intro m n (sumZ id Fs) Hn ltac:(done) Hnb) as Hrep.
    fold s in Hrep.
    assert (Forall2 (λ rate F, rounds_to mode (base_units m * (value_of rate / 100)) F) rates Fs).
    { eapply Forall2_impl; [exact HFs|]. intros rate F HR. by rewrite <- Hnb. }
    destruct rates as [|rate rates].
    + inversion HFs; subst. simpl in Hrep. rewrite Z.add_0_r in Hrep.
      do 2 eexists. split; [done|]. split; [done|].
      replace (if s =? 0 then _ else _) with (formatScaledInt 0 s); [done|].
      unfold formatScaledInt. destruct (Z.eqb_spec s 0); [done|].
      rewrite Z.quot_0_l, Z.rem_0_l by (pose proof (pow10_pos s Hs); lia).
      change (bigint_toString 0) with "0". unfold padStart.
      replace (Z.to_nat (s - slen "0")) with (Z.to_nat (s - 1)) by (unfold slen; simpl; lia).
      replace (Z.to_nat s) with (S (Z.to_nat (s - 1))) by lia.
      by rewrite (str_repeat_snoc "0").
    + rewrite Hsum. simpl. rewrite addMoneyStrings_formatted by done. simpl. eauto.
  - destruct rates as [|rate rates]; [done|].
    pose proof (sumFees_bad_rate n _ s mode 0 Hn Hs Hr) as H.
    by destruct (sumFees _ _ _ _ _).
Qed.

(** One rate, two entry points: [applyFees] on a single rate returns the
    same result as [calculateFee] on it, for every rate that is not negative
    as a float and whatever the base, failures included. *)
Lemma applyFees_single input mode :
  parseFloat_negative (ratePercent input) = false →
  applyFees (base input) [ratePercent input] mode = calculateFee input mode.
Proof.
  intros Hneg. unfold applyFees, calculateFee. rewrite Hneg. cbn [throw_if].
  set (m := base input). set (s := getCurrencyScale (currency m)).
  assert (0 ≤ s) as Hs by (subst s; auto with credence).
  destruct (valid_base m) eqn:Hb.
  2:{ pose proof (invalid_base_err m Hb). fold s in H. simpl.
      by destruct (normaliseAndValidateBaseAmount _ _ s). }
  destruct (valid_base_normalised m Hb) as (n & Hn & Hnorm & _). fold s in Hnorm.
  rewrite Hnorm. simpl.
  destruct (valid_rate (ratePercent input)) eqn:Hr; unfold valid_rate in Hr.
  - destruct (parseDecimalString (ratePercent input)) as [pr|] eqn:Hp; [|done]. breflect.
    destruct (computeRawFee_ok n _ pr s mode Hn Hs Hp Hr) as (F & HF & -> & _). simpl.
    destruct (parse_formatted F s "fee" HF Hs) as (i & f & -> & Hif & Hl). simpl.
    rewrite fit_frac_id, Hif by done. reflexivity.
  - pose proof (computeRawFee_bad_rate n (ratePercent input) s mode Hn Hs) as H.
    destruct (computeRawFee _ _ _ _); [|done]. exfalso.
    destruct (parseDecimalString (ratePercent input)); [breflect|]; by discriminate H.
Qed.
