(* ===== verification/BondAmount.v ===== *)
(** * Bonds: amounts, status and the bond store

    [lib/bondAmountMath.ts], the state update of
    [listeners/horizonWithdrawalEvents.ts], [services/bond/paymentStatus.ts],
    [services/bond/bondStore.ts] and [services/bond/bondService.ts]. *)

From stdpp Require Import base option list strings gmap.
From Stdlib Require Import ZArith Lia Ascii String QArith Qabs Qminmax Lqa.
From S2P Require Import Prelude JsLib DecimalMath.

Open Scope Z_scope.

(** ** Amount arithmetic of a withdrawal *)

Inductive amount_error :=
| InvalidAmount (label value : string)
| AmountDecimal (e : decimal_error).

Definition lift_amount {A} (m : result decimal_error A) : result amount_error A :=
  match m with Ok a => Ok a | Err e => Err (AmountDecimal e) end.

(** One or more digits, then optionally a point and one or more digits. *)
Definition NON_NEGATIVE_DECIMAL_RE (s : string) : bool :=
  let '(int, rest) := span_digits s in
  negb (String.eqb int EmptyString) &&
  match rest with
  | EmptyString => true
  | String c frac =>
      Ascii.eqb c "." && negb (String.eqb frac EmptyString) && str_forallb is_digit frac
  end.

Definition assertValidAmount (value label : string) : result amount_error () :=
  throw_if (negb (NON_NEGATIVE_DECIMAL_RE value)) (InvalidAmount label value).

Definition computeNewBondAmount (currentAmount withdrawalAmount : string)
  : result amount_error string :=
  _ ← assertValidAmount currentAmount "currentAmount";
  _ ← assertValidAmount withdrawalAmount "withdrawalAmount";
  c ← lift_amount (compareDecimals withdrawalAmount currentAmount);
  if c >=? 0 then Ok "0"
  else lift_amount (subtractDecimals currentAmount withdrawalAmount).

Definition shouldTakeSnapshot (previousAmount newAmount : string) (isActive : bool)
  : result amount_error bool :=
  if negb isActive then Ok true
  else if negb (NON_NEGATIVE_DECIMAL_RE previousAmount) then Ok false
  else if negb (NON_NEGATIVE_DECIMAL_RE newAmount) then Ok false
  else
    z ← lift_amount (compareDecimals previousAmount "0");
    if z =? 0 then Ok false
    else
      withdrawn ← lift_amount (subtractDecimals previousAmount newAmount);
      ratio ← lift_amount (divideDecimals withdrawn previousAmount 4 DOWN);
      c ← lift_amount (compareDecimals ratio "0.5");
      Ok (c >=? 0).

(** ** The bond update of a withdrawal event *)

Record BondStateUpdate := {
  previousAmount : string;
  newAmount : string;
  isActive : bool
}.

(** The amounts of [calculateBondUpdate]; identifiers, the transaction hash and
    the time are copied from the event. *)
Definition calculateBondUpdate (bondAmount eventAmount : string)
  : result amount_error BondStateUpdate :=
  new ← computeNewBondAmount bondAmount eventAmount;
  Ok {| previousAmount := bondAmount; newAmount := new; isActive := negb (String.eqb new "0") |}.

Definition shouldCreateScoreSnapshot (u : BondStateUpdate) : result amount_error bool :=
  shouldTakeSnapshot (previousAmount u) (newAmount u) (isActive u).

(** ** Payment status *)

Inductive PaymentStatus := active | slashed | inactive | unbonded.

#[export] Instance PaymentStatus_eq_dec : EqDecision PaymentStatus.
Proof. solve_decision. Defined.

Definition status_string (s : PaymentStatus) : string :=
  match s with
  | active => "active" | slashed => "slashed" | inactive => "inactive" | unbonded => "unbonded"
  end.

Definition PAYMENT_STATUS_ALIASES : list (string * PaymentStatus) :=
  [("bonded", active); ("active_slashed", slashed); ("withdrawn", inactive)].

Definition isPaymentStatus (s : string) : option PaymentStatus :=
  if String.eqb s "active" then Some active
  else if String.eqb s "slashed" then Some slashed
  else if String.eqb s "inactive" then Some inactive
  else if String.eqb s "unbonded" then Some unbonded
  else None.

Definition resolvePaymentStatus (status : string) : option PaymentStatus :=
  match isPaymentStatus status with
  | Some s => Some s
  | None => snd <$> find (λ kv, String.eqb kv.1 status) PAYMENT_STATUS_ALIASES
  end.

Record BondRecord := {
  address : string;
  bondedAmount : string;
  bondStart : option string;
  bondDuration : option Z;
  bond_active : bool;
  slashedAmount : string
}.

Definition deriveBondPaymentStatus (bond : BondRecord) : PaymentStatus :=
  if negb (bond_active bond) && falsy (bondStart bond) &&
     String.eqb (bondedAmount bond) "0" then unbonded
  else if negb (bond_active bond) then inactive
  else match BigInt_of_string (slashedAmount bond) with
       | Some n => if n >? 0 then slashed else active
       | None => active
       end.

(** ** The bond store *)

Abbreviation BondStore := (gmap string BondRecord).

Definition store_get (st : BondStore) (addr : string) : option BondRecord :=
  st !! toLowerCase addr.

Definition with_address (r : BondRecord) (a : string) : BondRecord :=
  {| address := a; bondedAmount := bondedAmount r; bondStart := bondStart r;
     bondDuration := bondDuration r; bond_active := bond_active r;
     slashedAmount := slashedAmount r |}.

Definition store_set (st : BondStore) (r : BondRecord) : BondStore :=
  <[toLowerCase (address r) := with_address r (toLowerCase (address r))]> st.

Definition store_delete (st : BondStore) (addr : string) : BondStore * bool :=
  (delete (toLowerCase addr) st, isSome (st !! toLowerCase addr)).

Definition is_hex (c : ascii) : bool := isSome (hex_val c).

(** [0x] and exactly 40 hexadecimal digits. *)
Definition isValidAddress (a : string) : bool :=
  match a with
  | String "0" (String "x" rest) =>
      (slen rest =? 40) && str_forallb is_hex rest
  | _ => false
  end.

Definition getBondStatus (st : BondStore) (addr : string) : option BondRecord :=
  store_get st addr.

(** ** Correctness of the amounts *)

(** The amounts the listener accepts are decimals without a sign. *)
Lemma amount_re_parse s : NON_NEGATIVE_DECIMAL_RE s = true →
  ∃ p, parseDecimalString s = Ok p ∧ negative p = false ∧ (0 <= pd_value p)%Q.
Proof.
  unfold NON_NEGATIVE_DECIMAL_RE. destruct (span_digits s) as [i r] eqn:E.
  apply span_digits_spec in E as [-> Hi]. intros [Hne Hr]%andb_true_iff.
  assert (i ≠ EmptyString) as Hi0 by (intros ->; done).
  assert (∃ p, parseDecimalString (i +:+ r) = Ok p ∧ negative p = false) as (p & Hp & Hn).
  { destruct r as [|c f].
    - rewrite str_app_nil_r.
      pose proof (parse_render false false i EmptyString Hi Hi0 eq_refl (λ _, eq_refl)) as H.
      simpl in H. eauto.
    - breflect. destruct Hr as [[Hc Hf] Hd]. apply Ascii.eqb_eq in Hc as ->.
      pose proof (parse_render false true i f Hi Hi0 Hd ltac:(done)) as H.
      simpl in H. eauto. }
  exists p. split_and!; [done..|]. pose proof (pd_value_sign _ _ Hp) as H. by rewrite Hn in H.
Qed.

(** The value of an amount string. *)
Definition amount_value (s : string) : Q :=
  match parseDecimalString s with Ok p => pd_value p | Err _ => 0%Q end.

Lemma is_decimal_value s q k : is_decimal s q k → (amount_value s == q)%Q.
Proof. intros (p & Hp & Hq & _). unfold amount_value. by rewrite Hp. Qed.

Lemma amount_value_zero : (amount_value "0" == 0)%Q.
Proof. vm_compute. reflexivity. Qed.

Lemma pd_value_zero s p : parseDecimalString s = Ok p → (amount_value s == 0)%Q →
  (pd_value p == 0)%Q.
Proof. unfold amount_value. by intros ->. Qed.

Lemma compare_values a b pa pb :
  parseDecimalString a = Ok pa → parseDecimalString b = Ok pb →
  ∃ c, compareDecimals a b = Ok c ∧
    (c >= 0 ↔ (pd_value pb <= pd_value pa)%Q) ∧ (c = 0 ↔ (pd_value pa == pd_value pb)%Q).
Proof.
  intros Ha Hb. pose proof (compare_correct a b) as H. rewrite Ha, Hb in H.
  eexists. split; [exact H|].
  destruct (Qcompare_spec (pd_value pa) (pd_value pb)); split; split; intros; lra || lia.
Qed.

(** What the new amount is: the exact difference, clamped at zero. *)
Lemma new_amount_spec cur w : NON_NEGATIVE_DECIMAL_RE cur = true →
  NON_NEGATIVE_DECIMAL_RE w = true →
  ∃ r, computeNewBondAmount cur w = Ok r ∧
    if Qle_bool (amount_value cur) (amount_value w) then r = "0"
    else (amount_value r == amount_value cur - amount_value w)%Q ∧ r ≠ "0".
Proof.
  intros Hc Hw. destruct (amount_re_parse cur Hc) as (pc & Hpc & _ & Hvc).
  destruct (amount_re_parse w Hw) as (pw & Hpw & _ & Hvw).
  unfold computeNewBondAmount, assertValidAmount. rewrite Hc, Hw. simpl.
  destruct (compare_values w cur pw pc Hpw Hpc) as (c & -> & Hge & _). simpl.
  unfold amount_value at 1 2. rewrite Hpc, Hpw.
  destruct (Qle_bool (pd_value pc) (pd_value pw)) eqn:E.
  - apply Qle_bool_iff in E. apply Hge in E. exists "0".
    rewrite Z.geb_leb. destruct (Z.leb_spec 0 c); [done|lia].
  - assert (~ (pd_value pc <= pd_value pw)%Q) as Hn by (rewrite <- Qle_bool_iff; congruence).
    rewrite Z.geb_leb. destruct (Z.leb_spec 0 c); [exfalso; apply Hn, Hge; lia|].
    pose proof (subtract_exact cur w) as H'. rewrite Hpc, Hpw in H'.
    destruct H' as (r & -> & Hd). exists r. split; [done|].
    pose proof (is_decimal_value _ _ _ Hd) as Hv. unfold amount_value at 2 3.
    rewrite Hpc, Hpw. split; [done|]. intros ->. rewrite amount_value_zero in Hv.
    apply Hn. lra.
Qed.

(** A withdrawal never overdraws a bond: for two amounts the listener
    accepts, the update's new amount is exactly [max(0, current - withdrawn)]
    with no rounding, the bond stays active exactly when something is left,
    and an amount that is not a plain non-negative decimal is rejected before
    anything is computed. *)
Theorem calculateBondUpdate_exact cur w :
  match NON_NEGATIVE_DECIMAL_RE cur, NON_NEGATIVE_DECIMAL_RE w with
  | true, true => ∃ u, calculateBondUpdate cur w = Ok u ∧ previousAmount u = cur ∧
      (amount_value (newAmount u) == Qmax 0 (amount_value cur - amount_value w))%Q ∧
      (isActive u = true ↔ (amount_value w < amount_value cur)%Q)
  | false, _ => calculateBondUpdate cur w = Err (InvalidAmount "currentAmount" cur)
  | true, false => calculateBondUpdate cur w = Err (InvalidAmount "withdrawalAmount" w)
  end.
Proof.
  destruct (NON_NEGATIVE_DECIMAL_RE cur) eqn:Hc.
  2:{ unfold calculateBondUpdate, computeNewBondAmount, assertValidAmount. by rewrite Hc. }
  destruct (NON_NEGATIVE_DECIMAL_RE w) eqn:Hw.
  2:{ unfold calculateBondUpdate, computeNewBondAmount, assertValidAmount. by rewrite Hc, Hw. }
  destruct (new_amount_spec cur w Hc Hw) as (r & Hr & Hspec).
  unfold calculateBondUpdate. rewrite Hr. simpl. eexists. split; [done|]. simpl.
  split; [done|]. destruct (Qle_bool (amount_value cur) (amount_value w)) eqn:E.
  - apply Qle_bool_iff in E. subst r. rewrite amount_value_zero. split; [|split; [done|lra]].
    rewrite Q.max_l by lra. done.
  - assert (~ (amount_value cur <= amount_value w)%Q) by (rewrite <- Qle_bool_iff; congruence).
    destruct Hspec as [Hv Hne]. rewrite Hv, Q.max_r by lra. split; [done|].
    apply String.eqb_neq in Hne. rewrite Hne. simpl. split; [intros; lra|done].
Qed.

(** The truncated ratio reaches one half exactly when the ratio does. *)
Lemma ratio_threshold q R : rounds_signed DOWN (q * inject_Z (10 ^ 4)) R →
  ((1 # 2) <= inject_Z R / inject_Z (10 ^ 4) ↔ (1 # 2) <= q)%Q.
Proof.
  change (inject_Z (10 ^ 4)) with 10000%Q. intros [[Hlo Hhi] Hsg].
  assert ((1 # 2) <= inject_Z R / 10000 ↔ 5000 <= inject_Z R)%Q as ->.
  { split; intros.
    - assert (inject_Z R == inject_Z R / 10000 * 10000)%Q as -> by field. lra.
    - apply Qle_shift_div_l; [done|]. lra. }
  change 5000%Q with (inject_Z 5000). rewrite <- Zle_Qle. split.
  - intros HR. rewrite Z.abs_eq in Hlo by lia.
    assert (5000 <= inject_Z R)%Q by (change 5000%Q with (inject_Z 5000); by rewrite <- Zle_Qle).
    assert (0 <= q * 10000)%Q by nra. rewrite Qabs_pos in Hlo by done. lra.
  - intros Hq. rewrite Qabs_pos in * by lra.
    assert (5000 < Z.abs R + 1).
    { apply Qlt_Z. rewrite inject_Z_plus. change (inject_Z 1) with 1%Q.
      change (inject_Z 5000) with 5000%Q. lra. }
    assert (0 ≤ R); [|lia]. apply Z.nlt_ge. intros Hneg.
    assert (inject_Z R < 0)%Q by (change 0%Q with (inject_Z 0); by rewrite <- Zlt_Qlt).
    nra.
Qed.

(** The snapshot decision is exact and total: [shouldTakeSnapshot] never
    throws; it says yes for an inactive bond, no when an amount is not a plain
    decimal or the previous balance is zero, and otherwise yes exactly when
    the withdrawn part is at least half of the previous balance, with no
    rounding effect at the threshold. *)
Theorem shouldTakeSnapshot_exact prev new act : ∃ b,
  shouldTakeSnapshot prev new act = Ok b ∧
  (b = true ↔ act = false ∨
    (NON_NEGATIVE_DECIMAL_RE prev = true ∧ NON_NEGATIVE_DECIMAL_RE new = true ∧
     (0 < amount_value prev)%Q ∧
     (amount_value prev <= 2 * (amount_value prev - amount_value new))%Q)).
Proof.
  unfold shouldTakeSnapshot. destruct act; simpl; [|exists true; split; [done|naive_solver]].
  destruct (NON_NEGATIVE_DECIMAL_RE prev) eqn:Hp; simpl; [|exists false; split; [done|naive_solver]].
  destruct (NON_NEGATIVE_DECIMAL_RE new) eqn:Hn; simpl; [|exists false; split; [done|naive_solver]].
  destruct (amount_re_parse prev Hp) as (pp & Hpp & _ & Hvp).
  destruct (amount_re_parse new Hn) as (pn & Hpn & _ & _).
  unfold amount_value. rewrite Hpp, Hpn.
  destruct (compare_values prev "0" pp _ Hpp eq_refl) as (z & -> & _ & Hz). simpl.
  rewrite (pd_value_zero "0" _ eq_refl amount_value_zero) in Hz.
  destruct (Z.eqb_spec z 0) as [E|Hne].
  { exists false. split; [done|]. apply Hz in E. split; [done|].
    intros [?|(_ & _ & ? & _)]; [done|]. lra. }
  assert (~ pd_value pp == 0)%Q as Hnz by (rewrite <- Hz; done).
  pose proof (subtract_exact prev new) as Hs. rewrite Hpp, Hpn in Hs.
  destruct Hs as (wd & -> & pw & Hpw & Hvw & _).
  pose proof (divide_correct wd prev 4 DOWN) as Hd. rewrite Hpw, Hpp in Hd.
  destruct (Z.eqb_spec (pd_num pp) 0) as [E|_].
  { destruct Hnz. unfold pd_value. rewrite E. apply Qmult_0_l. }
  destruct Hd as (ratio & R & Hdiv & HR & pr & Hpr & Hvr & _).
  cbn [lift_amount mbind result_bind]. rewrite Hdiv. cbn [lift_amount mbind result_bind].
  destruct (compare_values ratio "0.5" pr _ Hpr eq_refl) as (c & -> & Hc & _).
  simpl. eexists. split; [done|]. apply ratio_threshold in HR. rewrite <- Hvr in HR.
  rewrite Z.geb_leb, Z.leb_le. rewrite Z.ge_le_iff in Hc. rewrite Hc.
  change (pd_value _) with (5 # 10)%Q at 1.
  transitivity ((1 # 2) <= pd_value pr)%Q; [by split; intros; lra|]. rewrite HR.
  assert (0 < pd_value pp)%Q as Hpos.
  { apply Qle_lt_or_eq in Hvp as [?|E]; [done|]. by rewrite <- E in Hnz. }
  rewrite Hvw. split.
  - intros H. right. split_and!; [done..|].
    assert (pd_value pp - pd_value pn == (pd_value pp - pd_value pn) / pd_value pp * pd_value pp)%Q
      as E by (field; done). rewrite E. nra.
  - intros [?|(_ & _ & _ & H)]; [done|]. apply Qle_shift_div_l; [done|]. lra.
Qed.

(** ** Status and store *)

(** The derived payment status says what it claims: [slashed] only for an
    active bond with a positive slashed amount, [unbonded] only for a bond
    that is not active, never started and has amount ["0"], and every derived
    status is resolved to itself when it is sent back as a string. *)
Lemma deriveBondPaymentStatus_sound bond :
  (deriveBondPaymentStatus bond = slashed ↔ bond_active bond = true ∧
     ∃ n, BigInt_of_string (slashedAmount bond) = Some n ∧ 0 < n) ∧
  (deriveBondPaymentStatus bond = unbonded ↔ bond_active bond = false ∧
     falsy (bondStart bond) = true ∧ bondedAmount bond = "0") ∧
  (deriveBondPaymentStatus bond = inactive ∨ deriveBondPaymentStatus bond = unbonded
     ↔ bond_active bond = false) ∧
  resolvePaymentStatus (status_string (deriveBondPaymentStatus bond)) =
    Some (deriveBondPaymentStatus bond).
Proof.
  assert (∀ s, resolvePaymentStatus (status_string s) = Some s) as Hres by by intros [].
  split_and!; [..|apply Hres]; unfold deriveBondPaymentStatus;
    destruct (bond_active bond), (falsy (bondStart bond)), (String.eqb_spec (bondedAmount bond) "0");
    destruct (BigInt_of_string (slashedAmount bond)) as [k|]; simpl;
    try (destruct (Z.gtb_spec k 0)); naive_solver lia.
Qed.

(** The bond store is keyed case-insensitively: after storing a record,
    every spelling of its address finds it (with its address in lower case),
    every other address finds what it found before, and deleting by any
    spelling removes it and reports that it was there. *)
Lemma bond_store_laws st r a :
  (toLowerCase a = toLowerCase (address r) →
     getBondStatus (store_set st r) a = Some (with_address r (toLowerCase (address r))) ∧
     store_delete (store_set st r) a = (delete (toLowerCase a) st, true)) ∧
  (toLowerCase a ≠ toLowerCase (address r) →
     getBondStatus (store_set st r) a = getBondStatus st a) ∧
  (toLowerCase (address r) = address r → store_get (store_set st r) (address r) = Some r).
Proof.
  unfold getBondStatus, store_get, store_set, store_delete. split_and!.
  - intros E. rewrite E, lookup_insert_eq. split; [done|].
    by rewrite delete_insert_eq.
  - intros Hne. by rewrite lookup_insert_ne.
  - intros E. rewrite lookup_insert_eq, E. by destruct r.
Qed.
