(* ===== verification/StateTransition.v ===== *)
(** * State machines: [lib/stateTransition.ts] and the lifecycles built on it

    [TransitionMatrix] is modelled as the source builds it: an ordered map from
    each source state to the ordered set of its targets, filled by the
    constructor, which refuses a repeated transition. The theorems relate the
    matrix to the list it was built from. The lifecycles of settlements, signing
    keys, KEKs, disputes, Horizon ingestion and the outbox are instances. *)

From stdpp Require Import base option list strings sets.
From S2P Require Import Prelude.

(** ** The matrix *)

Record Transition (S : Type) := mkT { from : S; to : S; action : string }.
Arguments mkT {S}. Arguments from {S}. Arguments to {S}. Arguments action {S}.

Record TransitionResult (S : Type) := {
  success : bool;
  r_from : S;
  r_to : S;
  error : option (S * S)   (** the two states of the message *)
}.
Arguments success {S}. Arguments r_from {S}. Arguments r_to {S}. Arguments error {S}.

(** A JS [Map] and [Set] keep insertion order: association lists and lists
    without repetition. [edgeKeys] holds the pairs the composite keys stand
    for. *)
Record TransitionMatrix (S : Type) := {
  edges : list (S * list S);
  edgeKeys : list (S * S);
  allStates : list S;
  transitions : list (Transition S)
}.
Arguments edges {S}. Arguments edgeKeys {S}. Arguments allStates {S}. Arguments transitions {S}.

Section Matrix.
Context {S : Type} `{EqDecision S}.

Definition set_add (x : S) (l : list S) : list S :=
  if bool_decide (x ∈ l) then l else l ++ [x].

Fixpoint map_get (k : S) (m : list (S * list S)) : option (list S) :=
  match m with
  | [] => None
  | (k', v) :: m' => if bool_decide (k = k') then Some v else map_get k m'
  end.

(** [targets.add(to)] on the set stored at [k], created at the end of the map
    when it is missing. *)
Fixpoint map_add_target (k t : S) (m : list (S * list S)) : list (S * list S) :=
  match m with
  | [] => [(k, [t])]
  | (k', v) :: m' =>
      if bool_decide (k = k') then (k', set_add t v) :: m'
      else (k', v) :: map_add_target k t m'
  end.

(** One iteration of the constructor's loop; the error is the duplicate. *)
Definition add_transition (m : TransitionMatrix S) (t : Transition S)
  : result (S * S) (TransitionMatrix S) :=
  let states := set_add (to t) (set_add (from t) (allStates m)) in
  if bool_decide ((from t, to t) ∈ edgeKeys m) then Err (from t, to t)
  else Ok {| edges := map_add_target (from t) (to t) (edges m);
             edgeKeys := edgeKeys m ++ [(from t, to t)];
             allStates := states;
             transitions := transitions m |}.

Fixpoint add_transitions (m : TransitionMatrix S) (ts : list (Transition S))
  : result (S * S) (TransitionMatrix S) :=
  match ts with
  | [] => Ok m
  | t :: ts' => m' ← add_transition m t; add_transitions m' ts'
  end.

Definition new_TransitionMatrix (ts : list (Transition S))
  : result (S * S) (TransitionMatrix S) :=
  add_transitions {| edges := []; edgeKeys := []; allStates := []; transitions := ts |} ts.

Definition isValid (m : TransitionMatrix S) (f t : S) : bool :=
  match map_get f (edges m) with
  | Some targets => bool_decide (t ∈ targets)
  | None => false
  end.

Definition tryTransition (m : TransitionMatrix S) (f t : S) : TransitionResult S :=
  if isValid m f t
  then {| success := true; r_from := f; r_to := t; error := None |}
  else {| success := false; r_from := f; r_to := t; error := Some (f, t) |}.

Definition getAllowedTargets (m : TransitionMatrix S) (f : S) : list S :=
  match map_get f (edges m) with Some targets => targets | None => [] end.

Definition no_targets (m : TransitionMatrix S) (s : S) : bool :=
  match map_get s (edges m) with None => true | Some ts => (length ts =? 0)%nat end.

Definition getTerminalStates (m : TransitionMatrix S) : list S :=
  filter (λ s, no_targets m s = true) (allStates m).

Definition getAllStates (m : TransitionMatrix S) : list S := allStates m.
Definition matrix_size (m : TransitionMatrix S) : nat := length (transitions m).

(** ** The matrix represents the list it was built from *)

Definition pairs (ts : list (Transition S)) : list (S * S) :=
  (λ t, (from t, to t)) <$> ts.

(** The targets of [f] among the pairs, in order. *)
Definition targets_of (f : S) (ps : list (S * S)) : list S :=
  snd <$> filter (λ p, p.1 = f) ps.

(** The state of the constructor after the pairs [ps]. *)
Definition represents (m : TransitionMatrix S) (ps : list (S * S)) : Prop :=
  edgeKeys m = ps ∧ NoDup ps ∧
  (∀ f, match map_get f (edges m) with
        | Some ts => ts = targets_of f ps ∧ ts ≠ []
        | None => targets_of f ps = [] end) ∧
  NoDup (allStates m) ∧
  (∀ s, s ∈ allStates m ↔ ∃ p, p ∈ ps ∧ (s = p.1 ∨ s = p.2)).

Lemma elem_of_set_add x y l : y ∈ set_add x l ↔ y = x ∨ y ∈ l.
Proof. unfold set_add. case_bool_decide; set_solver. Qed.

Lemma NoDup_set_add x l : NoDup l → NoDup (set_add x l).
Proof.
  unfold set_add. case_bool_decide; [done|]. intros. apply NoDup_app.
  split_and!; [done|set_solver|by apply NoDup_singleton].
Qed.

Lemma map_get_add f k t m :
  map_get f (map_add_target k t m) =
    if bool_decide (f = k) then Some (set_add t (default [] (map_get k m)))
    else map_get f m.
Proof.
  induction m as [|[k' v] m IH]; simpl.
  - repeat case_bool_decide; done.
  - repeat (case_bool_decide; simplify_eq; simpl); try done.
    all: rewrite ?IH; repeat case_bool_decide; simplify_eq; done.
Qed.

Lemma targets_of_snoc f ps a b :
  targets_of f (ps ++ [(a, b)]) =
    if bool_decide (f = a) then targets_of f ps ++ [b] else targets_of f ps.
Proof.
  unfold targets_of. rewrite filter_app, fmap_app.
  case_bool_decide as E; simplify_eq.
  - rewrite filter_cons_True by done. done.
  - rewrite filter_cons_False by (simpl; congruence). by rewrite filter_nil, app_nil_r.
Qed.

Lemma elem_of_targets f t ps : t ∈ targets_of f ps ↔ (f, t) ∈ ps.
Proof.
  unfold targets_of. rewrite list_elem_of_fmap. split.
  - intros ([a b] & -> & [? ?]%list_elem_of_filter). simpl in *. by subst.
  - intros H. exists (f, t). rewrite list_elem_of_filter. done.
Qed.

Lemma represents_step m ps t m' : represents m ps → add_transition m t = Ok m' →
  represents m' (ps ++ [(from t, to t)]) ∧ transitions m' = transitions m.
Proof.
  intros (Hk & Hnd & Hm & Hs & Hall) H. unfold add_transition in H.
  case_bool_decide as Hin; [done|]. injection H as <-. split; [|done].
  rewrite Hk in *. unfold represents; simpl. split_and!.
  - done.
  - apply NoDup_app. split_and!; [done|set_solver|by apply NoDup_singleton].
  - intros f. rewrite map_get_add, targets_of_snoc.
    case_bool_decide as E; [subst f|by apply Hm].
    specialize (Hm (from t)).
    assert (to t ∉ targets_of (from t) ps) by (by rewrite elem_of_targets).
    destruct (map_get (from t) (edges m)) as [ts|]; simpl.
    + destruct Hm as [-> _]. unfold set_add. rewrite bool_decide_false by done.
      split; [done|]. by destruct (targets_of (from t) ps).
    + rewrite Hm. unfold set_add. rewrite bool_decide_false by set_solver. done.
  - by repeat apply NoDup_set_add.
  - intros s. rewrite !elem_of_set_add, Hall. set_solver.
Qed.

Lemma add_transition_Err m ps t e : represents m ps → add_transition m t = Err e →
  (from t, to t) ∈ ps.
Proof.
  intros (Hk & _) H. unfold add_transition in H.
  case_bool_decide as Hin; [|done]. by rewrite Hk in Hin.
Qed.

Lemma add_transitions_spec m ps ts : represents m ps →
  if bool_decide (NoDup (ps ++ pairs ts))
  then ∃ m', add_transitions m ts = Ok m' ∧ represents m' (ps ++ pairs ts) ∧
         transitions m' = transitions m
  else ∃ e, add_transitions m ts = Err e.
Proof.
  revert m ps. induction ts as [|t ts IH]; intros m ps Hr; simpl.
  - unfold pairs; simpl. rewrite app_nil_r. rewrite bool_decide_true by apply Hr. eauto.
  - destruct (add_transition m t) as [m'|e] eqn:E; simpl.
    + destruct (represents_step _ _ _ _ Hr E) as [Hr' Ht].
      specialize (IH m' _ Hr'). unfold pairs in *. rewrite <- app_assoc in IH. simpl in *.
      by rewrite Ht in IH.
    + apply (add_transition_Err _ _ _ _ Hr) in E.
      rewrite bool_decide_false; [eauto|]. unfold pairs; simpl.
      rewrite NoDup_app. intros (_ & H & _). apply (H _ E). left.
Qed.

Lemma new_matrix_spec ts :
  if bool_decide (NoDup (pairs ts))
  then ∃ m, new_TransitionMatrix ts = Ok m ∧ represents m (pairs ts) ∧ transitions m = ts
  else ∃ e, new_TransitionMatrix ts = Err e.
Proof.
  apply (add_transitions_spec {| edges := []; edgeKeys := []; allStates := [];
    transitions := ts |} []).
  unfold represents; simpl. split_and!; [done|constructor|done|constructor|set_solver].
Qed.

Lemma represents_valid m ps f t : represents m ps → isValid m f t = true ↔ (f, t) ∈ ps.
Proof.
  intros (_ & _ & Hm & _). specialize (Hm f). unfold isValid.
  rewrite <- elem_of_targets. destruct (map_get f (edges m)) as [ts|].
  - destruct Hm as [-> _]. apply bool_decide_eq_true.
  - rewrite Hm. split; [done|]. by intros ?%elem_of_nil.
Qed.

Lemma represents_terminal m ps s : represents m ps →
  s ∈ getTerminalStates m ↔
    (∃ p, p ∈ ps ∧ (s = p.1 ∨ s = p.2)) ∧ ∀ t, (s, t) ∉ ps.
Proof.
  intros (_ & _ & Hm & _ & Hall). unfold getTerminalStates.
  rewrite list_elem_of_filter, Hall. specialize (Hm s).
  assert (no_targets m s = true ↔ targets_of s ps = []) as ->.
  { unfold no_targets. destruct (map_get s (edges m)) as [ts|]; [|tauto].
    destruct Hm as [-> _]. rewrite Nat.eqb_eq. apply length_zero_iff_nil. }
  assert (targets_of s ps = [] ↔ ∀ t, (s, t) ∉ ps) as ->; [|tauto].
  setoid_rewrite <- elem_of_targets. split; [intros ->; set_solver|].
  destruct (targets_of s ps) as [|s0 l]; [done|]. intros H. destruct (H s0). left.
Qed.

(** A transition matrix is exactly the list it is built from: the
    constructor throws if and only if a transition is repeated; otherwise
    [isValid] accepts exactly the listed pairs, [tryTransition] agrees with
    it, [getAllowedTargets] returns the listed targets in order, and the
    terminal states are the mentioned states with no listed transition. *)
Theorem transition_matrix_correct ts :
  if bool_decide (NoDup (pairs ts))
  then ∃ m, new_TransitionMatrix ts = Ok m ∧ matrix_size m = length ts ∧
    (∀ f t, isValid m f t = true ↔ (f, t) ∈ pairs ts) ∧
    (∀ f t, success (tryTransition m f t) = isValid m f t ∧
            (error (tryTransition m f t) = None ↔ isValid m f t = true)) ∧
    (∀ f, getAllowedTargets m f = targets_of f (pairs ts)) ∧
    (∀ s, s ∈ getTerminalStates m ↔ s ∈ getAllStates m ∧ ∀ t, isValid m s t = false)
  else ∃ e, new_TransitionMatrix ts = Err e.
Proof.
  pose proof (new_matrix_spec ts) as H. case_bool_decide as Hnd; [|done].
  destruct H as (m & Hm & Hr & Ht). exists m.
  assert (∀ f t, isValid m f t = true ↔ (f, t) ∈ pairs ts) as Hv
    by (intros; by apply represents_valid). split_and!; [done|by unfold matrix_size; rewrite Ht|..].
  - exact Hv.
  - intros f t. unfold tryTransition. by destruct (isValid m f t).
  - intros f. destruct Hr as (_ & _ & Hg & _). specialize (Hg f).
    unfold getAllowedTargets. destruct (map_get f (edges m)); naive_solver.
  - intros s. rewrite (represents_terminal m _ s Hr). unfold getAllStates.
    destruct Hr as (? & ? & ? & ? & Hall). rewrite Hall.
    assert (∀ t, isValid m s t = false ↔ (s, t) ∉ pairs ts) as Hf
      by (intros t; by rewrite <- Hv, not_true_iff_false).
    by setoid_rewrite Hf.
Qed.
End Matrix.

(** The matrix of a list without repetition, for the constants of the source. *)
Definition matrix_of {S} `{EqDecision S} (ts : list (Transition S)) : TransitionMatrix S :=
  match new_TransitionMatrix ts with
  | Ok m => m
  | Err _ => {| edges := []; edgeKeys := []; allStates := []; transitions := [] |}
  end.

(** ** The lifecycles *)

Module Settlement.
Inductive SettlementLifecycleStatus := pending | settled | failed.
#[export] Instance eq_dec : EqDecision SettlementLifecycleStatus.
Proof. solve_decision. Defined.

Definition SETTLEMENT_LIST : list (Transition SettlementLifecycleStatus) :=
  [mkT pending settled "settle"; mkT pending failed "fail"; mkT failed pending "retry"].
Definition SETTLEMENT_TRANSITIONS : TransitionMatrix SettlementLifecycleStatus :=
  matrix_of SETTLEMENT_LIST.

Definition validateSettlementTransition (f t : SettlementLifecycleStatus)
  : TransitionResult SettlementLifecycleStatus :=
  tryTransition SETTLEMENT_TRANSITIONS f t.

Definition getAllowedSettlementTargets (c : SettlementLifecycleStatus)
  : list SettlementLifecycleStatus := getAllowedTargets SETTLEMENT_TRANSITIONS c.
End Settlement.

Module Keys.
Inductive KeyState := active | retired.
#[export] Instance eq_dec : EqDecision KeyState.
Proof. solve_decision. Defined.

Definition SIGNING_KEY_TRANSITIONS : TransitionMatrix KeyState :=
  matrix_of [mkT active retired "rotate"].
Definition isValidSigningKeyTransition (f t : KeyState) : bool :=
  isValid SIGNING_KEY_TRANSITIONS f t.
Definition trySigningKeyTransition (f t : KeyState) : TransitionResult KeyState :=
  tryTransition SIGNING_KEY_TRANSITIONS f t.

Definition KEK_TRANSITIONS : TransitionMatrix KeyState :=
  matrix_of [mkT retired active "activate"; mkT active retired "supersede"].
Definition isValidKekTransition (f t : KeyState) : bool := isValid KEK_TRANSITIONS f t.
Definition tryKekTransition (f t : KeyState) : TransitionResult KeyState :=
  tryTransition KEK_TRANSITIONS f t.
End Keys.

Module Dispute.
Inductive DisputeStatus := pending | under_review | resolved | dismissed | expired.
#[export] Instance eq_dec : EqDecision DisputeStatus.
Proof. solve_decision. Defined.

Definition VALID_TRANSITIONS : list (Transition DisputeStatus) :=
  [mkT pending under_review "mark_under_review"; mkT pending resolved "resolve";
   mkT pending dismissed "dismiss"; mkT pending expired "expire";
   mkT under_review resolved "resolve"; mkT under_review dismissed "dismiss";
   mkT under_review expired "expire"].
Definition DISPUTE_MATRIX : TransitionMatrix DisputeStatus := matrix_of VALID_TRANSITIONS.
Definition isValidTransition (f t : DisputeStatus) : bool := isValid DISPUTE_MATRIX f t.
Definition tryDisputeTransition (f t : DisputeStatus) : TransitionResult DisputeStatus :=
  tryTransition DISPUTE_MATRIX f t.

Definition terminal (s : DisputeStatus) : bool :=
  match s with resolved | dismissed | expired => true | _ => false end.

Lemma terminal_no_exit f t : terminal f = true → isValidTransition f t = false.
Proof. by destruct f, t. Qed.
End Dispute.

Module Outbox.
Inductive OutboxLifecycleStatus := pending | processing | published | failed | dead_letter.
#[export] Instance eq_dec : EqDecision OutboxLifecycleStatus.
Proof. solve_decision. Defined.

Definition OUTBOX_LIFECYCLE_TRANSITIONS : TransitionMatrix OutboxLifecycleStatus :=
  matrix_of [mkT pending processing "claim"; mkT processing published "mark_published";
             mkT processing pending "retry"; mkT processing dead_letter "dead_letter"].
Definition OUTBOX_TERMINAL_STATUSES : list OutboxLifecycleStatus :=
  [published; failed; dead_letter].
Definition isTerminalOutboxStatus (s : OutboxLifecycleStatus) : bool :=
  bool_decide (s ∈ OUTBOX_TERMINAL_STATUSES).
Definition isTerminalOutboxStatus' (s : OutboxLifecycleStatus) : bool :=
  (length (getAllowedTargets OUTBOX_LIFECYCLE_TRANSITIONS s) =? 0)%nat.
Definition isValidOutboxTransition (f t : OutboxLifecycleStatus) : bool :=
  isValid OUTBOX_LIFECYCLE_TRANSITIONS f t.
Definition tryOutboxTransition (f t : OutboxLifecycleStatus)
  : TransitionResult OutboxLifecycleStatus := tryTransition OUTBOX_LIFECYCLE_TRANSITIONS f t.
Definition getAllowedOutboxTargets (c : OutboxLifecycleStatus) : list OutboxLifecycleStatus :=
  getAllowedTargets OUTBOX_LIFECYCLE_TRANSITIONS c.
Definition isSelfOutboxTransition (f t : OutboxLifecycleStatus) : bool := bool_decide (f = t).
Definition canRecoverOutboxTransition (f t : OutboxLifecycleStatus) : bool :=
  isValid OUTBOX_LIFECYCLE_TRANSITIONS f t.

(** The two definitions the source gives for a terminal status agree, and a
    self transition is never legal. *)
Lemma outbox_terminal_agree s : isTerminalOutboxStatus s = isTerminalOutboxStatus' s.
Proof. by destruct s. Qed.
Lemma outbox_no_self f t : isSelfOutboxTransition f t = true → isValidOutboxTransition f t = false.
Proof. by destruct f, t. Qed.
End Outbox.
