(* ===== verification/Horizon.v ===== *)
(** * Horizon ingestion: lifecycle, listener and lease

    [listeners/horizonTransitions.ts], [listeners/horizon.listeners.ts] and the
    default node repository [db/repository.ts]. The listener is verified
    against the contract its repository documents (the class [NodeRepoLaws]);
    the lease manager is a step relation over the [listener_leases] row shared
    by several instances. *)

From stdpp Require Import base option list strings gmap sets relations.
From Stdlib Require Import ZArith Lia.
From S2P Require Import Prelude JsLib StateTransition.

Open Scope Z_scope.

(** ** Lifecycle decisions *)

(** States are the strings the repository returns. *)
Definition isHorizonIngestionState (s : option string) : bool :=
  match s with
  | Some t => String.eqb t "active" || String.eqb t "slashed" || String.eqb t "withdrawn"
  | None => false
  end.

Definition HORIZON_INGESTION_TRANSITIONS : TransitionMatrix string :=
  matrix_of [mkT "active" "slashed" "slash"; mkT "active" "withdrawn" "withdraw";
             mkT "slashed" "withdrawn" "withdraw"].

Inductive RejectCode := INVALID_STATE_TRANSITION | NODE_NOT_INGESTED.

Inductive IngestionTransitionDecision :=
| applied
| noop (current : string)
| rejected (code : RejectCode) (current : option string) (requested : string).

Definition resolveIngestionTransition (current : option string) (requested : string)
  : IngestionTransitionDecision :=
  match current with
  | None => rejected NODE_NOT_INGESTED None requested
  | Some cur =>
      if String.eqb cur requested then noop cur
      else if isValid HORIZON_INGESTION_TRANSITIONS cur requested then applied
      else rejected INVALID_STATE_TRANSITION (Some cur) requested
  end.

Definition validateIngestionTransition (f t : string) : TransitionResult string :=
  tryTransition HORIZON_INGESTION_TRANSITIONS f t.
Definition getAllowedIngestionTargets (c : string) : list string :=
  getAllowedTargets HORIZON_INGESTION_TRANSITIONS c.
Definition getTerminalIngestionStates : list string :=
  getTerminalStates HORIZON_INGESTION_TRANSITIONS.

(** ** The repository contract *)

Inductive horizon_error :=
| MalformedEvent
| HorizonIngestionTransitionError (code : RejectCode) (nodeId eventType : string)
    (current : option string) (requested : string)
| RepositoryError (msg : string).

(** [HorizonIngestionRepository]: a repository of nodes with state [R]. *)
Class NodeRepo (R : Type) := {
  upsertNode : string → string → R → result horizon_error (bool * R);
  updateNodeStatus : string → string → option string → R → result horizon_error (bool * R);
  getNodeStatus : string → R → result horizon_error (option string)
}.

(** What the listener relies on, as its comments state it: a [bond] upsert
    creates or refreshes a node into [active], a status update of a known node
    stores the status, both leave other nodes alone, and a read returns what
    was stored, [null] for a node never ingested. *)
Class NodeRepoLaws (R : Type) `{NodeRepo R} := {
  node_status : R → string → option string;
  get_status n r : n ≠ EmptyString → getNodeStatus n r = Ok (node_status r n);
  upsert_active n a r : n ≠ EmptyString → a ≠ EmptyString →
    ∃ b r', upsertNode n a r = Ok (b, r') ∧ node_status r' n = Some "active" ∧
      ∀ m, m ≠ n → node_status r' m = node_status r m;
  update_stores n s a r : n ≠ EmptyString → isHorizonIngestionState (Some s) = true →
    is_Some (node_status r n) →
    ∃ b r', updateNodeStatus n s a r = Ok (b, r') ∧ node_status r' n = Some s ∧
      ∀ m, m ≠ n → node_status r' m = node_status r m
}.

(** ** The listener *)

Record HorizonEvent := {
  ev_type : string;
  ev_nodeId : option string;
  ev_amount : option string;
  ev_penalty : option string;
  ev_pagingToken : option string
}.

Section Listener.
Context {R : Type} `{NodeRepo R}.

Definition isAppliedTransition (nodeId requested eventType : string) (r : R)
  : result horizon_error bool :=
  current ← getNodeStatus nodeId r;
  match resolveIngestionTransition current requested with
  | rejected code cur req =>
      Err (HorizonIngestionTransitionError code nodeId eventType cur req)
  | applied => Ok true
  | noop _ => Ok false
  end.

Definition handleEvent (event : HorizonEvent) (r : R) : result horizon_error R :=
  if falsy (ev_nodeId event) || String.eqb (ev_type event) EmptyString
  then Err MalformedEvent
  else
    let nodeId := default EmptyString (ev_nodeId event) in
    if String.eqb (ev_type event) "bond" then
      if falsy (ev_amount event) then Err MalformedEvent
      else
        '(_, r') ← upsertNode nodeId (default EmptyString (ev_amount event)) r;
        Ok r'
    else if String.eqb (ev_type event) "slash" then
      if falsy (ev_penalty event) then Err MalformedEvent
      else
        b ← isAppliedTransition nodeId "slashed" (ev_type event) r;
        if b : bool then
          '(_, r') ← updateNodeStatus nodeId "slashed" (ev_penalty event) r;
          Ok r'
        else Ok r
    else if String.eqb (ev_type event) "withdrawal" then
      b ← isAppliedTransition nodeId "withdrawn" (ev_type event) r;
      if b : bool then
        '(_, r') ← updateNodeStatus nodeId "withdrawn" None r;
        Ok r'
      else Ok r
    else Ok r.
End Listener.

(** ** The default repository: [InMemoryDbRepository] *)

Module InMemoryDb.
Inductive NodeStatus := pending | confirmed | completed | failed.
#[export] Instance eq_dec : EqDecision NodeStatus.
Proof. solve_decision. Defined.

Definition status_name (s : NodeStatus) : string :=
  match s with
  | pending => "pending" | confirmed => "confirmed"
  | completed => "completed" | failed => "failed"
  end.

Record node := { n_amount : string; n_status : NodeStatus }.
Abbreviation nodes := (gmap string node).

Definition ALLOWED (s : NodeStatus) : list NodeStatus :=
  match s with
  | pending => [confirmed; failed]
  | confirmed => [completed; failed]
  | completed => []
  | failed => [pending]
  end.

(** [isValidStatus], with the status it establishes. *)
Definition isValidStatus (s : string) : option NodeStatus :=
  if String.eqb s "pending" then Some pending
  else if String.eqb s "confirmed" then Some confirmed
  else if String.eqb s "completed" then Some completed
  else if String.eqb s "failed" then Some failed
  else None.

Definition upsertNode (nodeId amount : string) (st : nodes)
  : result horizon_error (bool * nodes) :=
  _ ← throw_if (String.eqb nodeId EmptyString) (RepositoryError "nodeId");
  _ ← throw_if (slen (trim amount) =? 0) (RepositoryError "amount");
  match st !! nodeId with
  | Some existing =>
      if String.eqb (n_amount existing) amount then Ok (false, st)
      else Ok (true, <[nodeId := {| n_amount := amount; n_status := n_status existing |}]> st)
  | None => Ok (true, <[nodeId := {| n_amount := amount; n_status := pending |}]> st)
  end.

Definition updateNodeStatus (nodeId status : string) (amount : option string) (st : nodes)
  : result horizon_error (bool * nodes) :=
  _ ← throw_if (String.eqb nodeId EmptyString) (RepositoryError "nodeId");
  match isValidStatus status with
  | None => Err (RepositoryError "unknown status")
  | Some next =>
      match st !! nodeId with
      | None => Ok (false, st)
      | Some existing =>
          if bool_decide (n_status existing = next) then Ok (false, st)
          else if bool_decide (next ∈ ALLOWED (n_status existing)) then
            Ok (true, <[nodeId := {| n_amount := default (n_amount existing) amount;
                                     n_status := next |}]> st)
          else Err (RepositoryError "illegal transition")
      end
  end.

Definition getNodeStatus (nodeId : string) (st : nodes)
  : result horizon_error (option string) :=
  _ ← throw_if (String.eqb nodeId EmptyString) (RepositoryError "nodeId");
  Ok (status_name ∘ n_status <$> st !! nodeId).

#[global] Instance repo : NodeRepo nodes := {
  upsertNode := upsertNode;
  updateNodeStatus := updateNodeStatus;
  getNodeStatus := getNodeStatus
}.
End InMemoryDb.

(** ** Correctness of the listener *)

(** A well-formed lifecycle event for node [n] that requests state [req]. *)
Definition lifecycle_event (e : HorizonEvent) (n req : string) : Prop :=
  ev_nodeId e = Some n ∧ n ≠ EmptyString ∧
  ((ev_type e = "slash" ∧ falsy (ev_penalty e) = false ∧ req = "slashed") ∨
   (ev_type e = "withdrawal" ∧ req = "withdrawn")).

(** Ingesting a sequence of events; a rejected event leaves the store as it is. *)
Definition ingest {R} `{NodeRepo R} (r : R) (e : HorizonEvent) : R :=
  match handleEvent e r with Ok r' => r' | Err _ => r end.

Lemma resolve_cases cur req : req = "slashed" ∨ req = "withdrawn" →
  match resolveIngestionTransition cur req with
  | applied => ∃ s, cur = Some s ∧
      (s = "active" ∨ (s = "slashed" ∧ req = "withdrawn"))
  | noop c => cur = Some req ∧ c = req
  | rejected code c q => c = cur ∧ q = req ∧
      (code = NODE_NOT_INGESTED ↔ cur = None)
  end.
Proof.
  intros Hreq. unfold resolveIngestionTransition. destruct cur as [s|]; [|done].
  destruct (String.eqb_spec s req) as [->|Hne]; [done|].
  assert (isValid HORIZON_INGESTION_TRANSITIONS s req =
    (String.eqb s "active" || (String.eqb s "slashed" && String.eqb req "withdrawn"))) as ->.
  { unfold isValid. simpl.
    destruct (String.eqb_spec s "active") as [->|H1]; [by destruct Hreq as [-> | ->]|].
    rewrite (bool_decide_false (s = "active")) by done.
    destruct (String.eqb_spec s "slashed") as [->|H2]; simpl.
    - by destruct Hreq as [-> | ->].
    - by rewrite bool_decide_false. }
  destruct (String.eqb_spec s "active"); simpl; [eauto|].
  destruct (String.eqb_spec s "slashed"), (String.eqb_spec req "withdrawn"); simpl;
    naive_solver.
Qed.

Section ListenerLaws.
Context {R : Type} `{NodeRepoLaws R}.

Lemma handle_lifecycle e n req (r : R) : lifecycle_event e n req →
  match resolveIngestionTransition (node_status r n) req with
  | applied => ∃ r', handleEvent e r = Ok r' ∧ node_status r' n = Some req ∧
      ∀ m, m ≠ n → node_status r' m = node_status r m
  | noop _ => handleEvent e r = Ok r
  | rejected code cur q =>
      handleEvent e r = Err (HorizonIngestionTransitionError code n (ev_type e) cur q)
  end.
Proof.
  intros (Hn & Hne & Ht). pose proof Hne as Hne'. apply String.eqb_neq in Hne'.
  assert (req = "slashed" ∨ req = "withdrawn") as Hreq by naive_solver.
  pose proof (resolve_cases (node_status r n) req Hreq) as Hres.
  unfold handleEvent, isAppliedTransition. rewrite Hn. simpl. rewrite Hne'. simpl.
  rewrite (get_status n r Hne).
  destruct Ht as [(-> & -> & ->)|(-> & ->)]; simpl;
    (destruct (resolveIngestionTransition (node_status r n) _); simpl; [|done..]);
    destruct Hres as (s & Hs & _);
    edestruct (update_stores n) as (b & r' & -> & Hr');
      [done|reflexivity|by rewrite Hs|by exists r'| done|reflexivity|by rewrite Hs|by exists r'].
Qed.

(** Ingestion is decided by the lifecycle matrix: a well-formed slash or
    withdrawal on a node whose state is [active] (or, for a withdrawal,
    [slashed]) stores the requested state and touches no other node; on a
    node already in the requested state it changes nothing; on a node never
    ingested, or in any other state, it is rejected with the typed error and
    nothing is written. *)
Theorem ingestion_follows_matrix e n req (r : R) : lifecycle_event e n req →
  match node_status r n with
  | None => handleEvent e r =
      Err (HorizonIngestionTransitionError NODE_NOT_INGESTED n (ev_type e) None req)
  | Some s =>
      if bool_decide (s = req) then handleEvent e r = Ok r
      else if bool_decide (s = "active" ∨ (s = "slashed" ∧ req = "withdrawn")) then
        ∃ r', handleEvent e r = Ok r' ∧ node_status r' n = Some req ∧
          ∀ m, m ≠ n → node_status r' m = node_status r m
      else handleEvent e r =
        Err (HorizonIngestionTransitionError INVALID_STATE_TRANSITION n (ev_type e) (Some s) req)
  end.
Proof.
  intros He. pose proof (handle_lifecycle e n req r He) as Hh.
  assert (req = "slashed" ∨ req = "withdrawn") as Hreq by (unfold lifecycle_event in He; naive_solver).
  pose proof (resolve_cases (node_status r n) req Hreq) as Hres.
  destruct (node_status r n) as [s|] eqn:Es; [|done].
  case_bool_decide as E1; [subst s|].
  { unfold resolveIngestionTransition in Hh. by rewrite String.eqb_refl in Hh. }
  destruct (resolveIngestionTransition (Some s) req) as [|c|code cur q] eqn:Er.
  - destruct Hres as (s' & [= <-] & Hs'). by rewrite bool_decide_true.
  - naive_solver.
  - unfold resolveIngestionTransition in Er. apply String.eqb_neq in E1 as E1'.
    rewrite E1' in Er. case_bool_decide as E2.
    + exfalso. revert Er. clear -E2 Hreq E1.
      destruct E2 as [->|[-> ->]]; [|done]. by destruct Hreq as [-> | ->].
    + destruct (isValid _ s req); [done|]. by injection Er as <- <- <-.
Qed.

Lemma lifecycle_replay e n req (r r' : R) : lifecycle_event e n req →
  handleEvent e r = Ok r' → node_status r' n = Some req ∧ handleEvent e r' = Ok r'.
Proof.
  intros He Hr. pose proof (handle_lifecycle e n req r He) as Hh.
  assert (node_status r' n = Some req) as Hs.
  { assert (req = "slashed" ∨ req = "withdrawn") as Hreq by (unfold lifecycle_event in He; naive_solver).
    pose proof (resolve_cases (node_status r n) req Hreq) as Hres.
    destruct (resolveIngestionTransition (node_status r n) req).
    - destruct Hh as (r'' & Hr'' & Hs & _). congruence.
    - destruct Hres. congruence.
    - congruence. }
  split; [done|]. pose proof (handle_lifecycle e n req r' He) as Hh'.
  rewrite Hs in Hh'. unfold resolveIngestionTransition in Hh'.
  by rewrite String.eqb_refl in Hh'.
Qed.

(** Redelivery is harmless: a slash or withdrawal that was accepted
    leaves the node in the requested state, and delivering the same event
    again succeeds and changes nothing, any number of times. *)
Theorem redelivery_is_noop e n req (r r' : R) k : lifecycle_event e n req →
  handleEvent e r = Ok r' →
  node_status r' n = Some req ∧ foldl ingest r' (replicate k e) = r'.
Proof.
  intros He Hr. destruct (lifecycle_replay e n req r r' He Hr) as [Hs Hrep].
  split; [done|]. induction k as [|k IH]; simpl; [done|].
  unfold ingest at 2. by rewrite Hrep.
Qed.

Lemma withdrawn_stays e n req m (r : R) : lifecycle_event e n req →
  node_status r m = Some "withdrawn" → node_status (ingest r e) m = Some "withdrawn".
Proof.
  intros He Hm. pose proof (handle_lifecycle e n req r He) as Hh.
  assert (req = "slashed" ∨ req = "withdrawn") as Hreq by (unfold lifecycle_event in He; naive_solver).
  pose proof (resolve_cases (node_status r n) req Hreq) as Hres.
  unfold ingest. destruct (resolveIngestionTransition (node_status r n) req).
  - destruct Hh as (r' & -> & Hs & Ho). destruct (decide (m = n)) as [->|]; [|by rewrite Ho].
    rewrite Hm in Hres. naive_solver.
  - by rewrite Hh.
  - by rewrite Hh.
Qed.

(** Withdrawal is final: once a node is withdrawn, no sequence of slash
    and withdrawal events, for it or for other nodes, accepted or rejected,
    changes its state. *)
Theorem withdrawn_is_final es m (r : R) :
  Forall (λ e, ∃ n req, lifecycle_event e n req) es →
  node_status r m = Some "withdrawn" →
  node_status (foldl ingest r es) m = Some "withdrawn".
Proof.
  intros Hes. revert r. induction Hes as [|e es (n & req & He) _ IH]; intros r Hm; simpl; [done|].
  apply IH. by apply (withdrawn_stays e n req).
Qed.

(** Only a [bond] event, which the matrix does not guard, leaves [withdrawn]. *)
Lemma bond_reactivates e n a (r : R) :
  ev_nodeId e = Some n → n ≠ EmptyString → ev_type e = "bond" →
  ev_amount e = Some a → a ≠ EmptyString →
  node_status r n = Some "withdrawn" →
  node_status (ingest r e) n = Some "active".
Proof.
  intros Hn Hne Ht Ha Hae _. unfold ingest, handleEvent. rewrite Hn, Ht, Ha. simpl.
  apply String.eqb_neq in Hne as Hne', Hae as Hae'. rewrite Hne', Hae'. simpl.
  destruct (upsert_active n a r Hne Hae) as (b & r' & -> & Hs & _). done.
Qed.
End ListenerLaws.

(** The contract can be met: statuses in a map, [active] on upsert. *)
Module MapRepo.
#[global] Instance repo : NodeRepo (gmap string string) := {
  upsertNode n a r := Ok (true, <[n := "active"]> r);
  updateNodeStatus n s a r := Ok (true, <[n := s]> r);
  getNodeStatus n r := Ok (r !! n)
}.
#[global, refine] Instance laws : NodeRepoLaws (gmap string string) := {
  node_status r n := r !! n
}.
Proof.
  - done.
  - intros n a r _ _. do 2 eexists. split; [done|].
    rewrite lookup_insert_eq. split; [done|]. intros m Hm. by rewrite lookup_insert_ne.
  - intros n s a r _ _ _. do 2 eexists. split; [done|].
    rewrite lookup_insert_eq. split; [done|]. intros m Hm. by rewrite lookup_insert_ne.
Defined.
End MapRepo.

Definition slash_ev (n : string) : HorizonEvent :=
  {| ev_type := "slash"; ev_nodeId := Some n; ev_amount := None;
     ev_penalty := Some "5"; ev_pagingToken := None |}.

Lemma slash_ev_lifecycle n : n ≠ EmptyString → lifecycle_event (slash_ev n) n "slashed".
Proof. intros. split_and!; [done..|]. by left. Qed.

Lemma ingestion_follows_matrix_witness :
  ∃ r', handleEvent (R:=gmap string string) (slash_ev "n1") {["n1" := "active"]} = Ok r' ∧
    node_status r' "n1" = Some "slashed" ∧
    ∀ m, m ≠ "n1" → node_status r' m = node_status (R:=gmap string string) {["n1" := "active"]} m.
Proof.
  exact (ingestion_follows_matrix (R:=gmap string string) (slash_ev "n1") "n1" "slashed"
    {["n1" := "active"]} (slash_ev_lifecycle "n1" ltac:(done))).
Defined.

Lemma redelivery_is_noop_witness :
  node_status (R:=gmap string string) {["n1" := "slashed"]} "n1" = Some "slashed" ∧
  foldl (ingest (R:=gmap string string)) {["n1" := "slashed"]} (replicate 3 (slash_ev "n1")) =
    {["n1" := "slashed"]}.
Proof.
  apply (redelivery_is_noop (R:=gmap string string) (slash_ev "n1") "n1" "slashed"
    {["n1" := "slashed"]}); [by apply slash_ev_lifecycle|reflexivity].
Defined.

Lemma withdrawn_is_final_witness :
  node_status (foldl (ingest (R:=gmap string string)) {["n1" := "withdrawn"]}
    [slash_ev "n1"; slash_ev "n2"]) "n1" = Some "withdrawn".
Proof.
  apply (withdrawn_is_final (R:=gmap string string)); [|reflexivity].
  repeat constructor; do 2 eexists; by apply slash_ev_lifecycle.
Defined.

(** The default repository does not meet the contract: with
    [InMemoryDbRepository], whose vocabulary is pending, confirmed, completed
    and failed, every well-formed slash and every withdrawal is rejected in
    every state of the store, so the listener built with its default argument
    can never record a slash or a withdrawal. *)
Lemma default_repository_rejects e n req (st : gmap string InMemoryDb.node) :
  lifecycle_event e n req →
  ∃ code cur, handleEvent e st =
    Err (HorizonIngestionTransitionError code n (ev_type e) cur req).
Proof.
  intros (Hn & Hne & Ht). apply String.eqb_neq in Hne as Hne'.
  assert (getNodeStatus n st = Ok (InMemoryDb.status_name ∘ InMemoryDb.n_status <$> st !! n)) as Hget.
  { simpl. unfold InMemoryDb.getNodeStatus. by rewrite Hne'. }
  assert (∃ code cur, ∀ ty, isAppliedTransition n req ty st =
    Err (HorizonIngestionTransitionError code n ty cur req)) as (code & cur & Happ).
  { unfold isAppliedTransition. rewrite Hget. simpl.
    destruct (st !! n) as [[a s]|]; simpl; [|by do 2 eexists].
    destruct Ht as [(_ & _ & ->)|(_ & ->)]; destruct s; by do 2 eexists. }
  exists code, cur. unfold handleEvent. rewrite Hn. simpl. rewrite Hne'. simpl.
  by destruct Ht as [(-> & -> & ->)|(-> & ->)]; simpl; rewrite Happ.
Qed.

Lemma default_repository_rejects_witness :
  ∃ code cur, handleEvent (slash_ev "n1")
      (<["n1" := {| InMemoryDb.n_amount := "10"; InMemoryDb.n_status := InMemoryDb.pending |}]> ∅) =
    Err (HorizonIngestionTransitionError code "n1" "slash" cur "slashed").
Proof.
  apply (default_repository_rejects (slash_ev "n1") "n1" "slashed").
  by apply slash_ev_lifecycle.
Defined.
