(* ===== verification/Lease.v ===== *)
(** * Listener leases: [LeaseManager] and [LeasedHorizonListener]

    The lease part of [listeners/horizon.listeners.ts]. The [listener_leases]
    table is a map from stream names to rows; each SQL statement of the manager
    is one atomic function on it. Several instances, possibly with the same
    owner id, interleave their statements arbitrarily ([step]); the theorems
    are about every reachable state. *)

From stdpp Require Import base option list strings gmap sets relations.
From Stdlib Require Import ZArith Lia.
From S2P Require Import Prelude JsLib StateTransition Horizon.

Open Scope Z_scope.

(** ** Data *)

Record LeaseRow := {
  ownerId : string;
  pagingToken : string;
  leaseExpiresAt : Z;
  heartbeatAt : Z;
  fencingToken : Z
}.

Abbreviation leases := (gmap string LeaseRow).

Record LeaseManager := {
  streamName : string;
  mgr_ownerId : string;
  ttlMs : Z;
  heartbeatMs : Z;
  currentFencingToken : Z
}.

Inductive AcquireResult :=
| Acquired (lease : LeaseRow)
| HeldByOther (lease : option LeaseRow)
| DbError.

(** The constructor, with its defaults and its check of the two periods. *)
Definition new_LeaseManager (stream owner : string) (ttl hb : option Z)
  : result (Z * Z) LeaseManager :=
  let t := default 15000 ttl in
  let h := default 5000 hb in
  _ ← throw_if (h * 2 >? t) (h, t);
  Ok {| streamName := stream; mgr_ownerId := owner; ttlMs := t; heartbeatMs := h;
        currentFencingToken := 0 |}.

(** ** Operations *)

(** The UPSERT of [acquire]: the new table and the row it returns, if any. *)
Definition acquire_upsert (stream owner : string) (expires now : Z) (tbl : leases)
  : leases * option LeaseRow :=
  match tbl !! stream with
  | None =>
      let row := {| ownerId := owner; pagingToken := "0"; leaseExpiresAt := expires;
                    heartbeatAt := now; fencingToken := 1 |} in
      (<[stream := row]> tbl, Some row)
  | Some old =>
      if String.eqb (ownerId old) owner || (leaseExpiresAt old <=? now) then
        let row := {| ownerId := owner; pagingToken := pagingToken old;
                      leaseExpiresAt := expires; heartbeatAt := now;
                      fencingToken := fencingToken old + 1 |} in
        (<[stream := row]> tbl, Some row)
      else (tbl, None)
  end.

Definition peek (m : LeaseManager) (tbl : leases) : option LeaseRow := tbl !! streamName m.

Definition with_token (m : LeaseManager) (t : Z) : LeaseManager :=
  {| streamName := streamName m; mgr_ownerId := mgr_ownerId m; ttlMs := ttlMs m;
     heartbeatMs := heartbeatMs m; currentFencingToken := t |}.

(** [acquire]; [db_ok] says whether the database answers. *)
Definition acquire (m : LeaseManager) (now : Z) (db_ok : bool) (tbl : leases)
  : leases * LeaseManager * AcquireResult :=
  let expires := now + ttlMs m in
  if negb db_ok then (tbl, m, DbError)
  else match acquire_upsert (streamName m) (mgr_ownerId m) expires now tbl with
  | (tbl', Some row) =>
      if String.eqb (ownerId row) (mgr_ownerId m)
      then (tbl', with_token m (fencingToken row), Acquired row)
      else (tbl', m, HeldByOther (peek m tbl'))
  | (tbl', None) => (tbl', m, HeldByOther (peek m tbl'))
  end.

(** The guard of [heartbeat] and [updateCursor]: same owner, same token. *)
Definition owns (m : LeaseManager) (row : LeaseRow) : bool :=
  String.eqb (ownerId row) (mgr_ownerId m) && (fencingToken row =? currentFencingToken m).

Definition heartbeat (m : LeaseManager) (now : Z) (tbl : leases) : leases * bool :=
  let expires := now + ttlMs m in
  match tbl !! streamName m with
  | Some row =>
      if owns m row then
        (<[streamName m := {| ownerId := ownerId row; pagingToken := pagingToken row;
            leaseExpiresAt := expires; heartbeatAt := now;
            fencingToken := fencingToken row |}]> tbl, true)
      else (tbl, false)
  | None => (tbl, false)
  end.

Definition release (m : LeaseManager) (tbl : leases) : leases :=
  match tbl !! streamName m with
  | Some row =>
      if String.eqb (ownerId row) (mgr_ownerId m) then
        <[streamName m := {| ownerId := ownerId row; pagingToken := pagingToken row;
            leaseExpiresAt := heartbeatAt row; heartbeatAt := heartbeatAt row;
            fencingToken := fencingToken row |}]> tbl
      else tbl
  | None => tbl
  end.

(** Digits only, and at least one; or the word [now]. *)
Definition valid_paging_token (t : string) : bool :=
  (negb (String.eqb t EmptyString) && str_forallb is_digit t) || String.eqb t "now".

Definition updateCursor (m : LeaseManager) (token : string) (tbl : leases)
  : result string (leases * bool) :=
  _ ← throw_if (negb (valid_paging_token token)) token;
  Ok match tbl !! streamName m with
     | Some row =>
         if owns m row then
           (<[streamName m := {| ownerId := ownerId row; pagingToken := token;
               leaseExpiresAt := leaseExpiresAt row; heartbeatAt := heartbeatAt row;
               fencingToken := fencingToken row |}]> tbl, true)
         else (tbl, false)
     | None => (tbl, false)
     end.

Definition getLagSeconds (m : LeaseManager) (now : Z) (tbl : leases) : option Z :=
  lease ← peek m tbl;
  Some (Z.max 0 ((now - heartbeatAt lease) / 1000)).

(** [LeasedHorizonListener.process]. [interfere] is what other instances do to
    the lease table while the event is being applied. *)
Inductive ProcessResult := processed | skipped.
Inductive process_error :=
| EventError (e : horizon_error)
| InvalidPagingToken (t : string).

Definition process {R} `{NodeRepo R} (m : LeaseManager) (event : HorizonEvent) (now : Z)
    (interfere : leases → leases) (tbl : leases) (r : R)
  : result process_error (leases * R * ProcessResult) :=
  let '(tbl1, ok) := heartbeat m now tbl in
  if negb ok then Ok (tbl1, r, skipped)
  else
    match handleEvent event r with
    | Err e => Err (EventError e)
    | Ok r' =>
        let tbl2 := interfere tbl1 in
        match ev_pagingToken event with
        | None => Ok (tbl2, r', processed)
        | Some token =>
            if String.eqb token EmptyString then Ok (tbl2, r', processed)
            else match updateCursor m token tbl2 with
            | Err t => Err (InvalidPagingToken t)
            | Ok (tbl3, advanced) =>
                Ok (tbl3, r', if advanced : bool then processed else skipped)
            end
        end
    end.

(** ** The system of instances *)

Inductive op :=
| OpAcquire (now : Z) (db_ok : bool)
| OpHeartbeat (now : Z)
| OpRelease
| OpUpdateCursor (token : string).

Record system := { table : leases; managers : gmap nat LeaseManager }.

Definition exec (i : nat) (m : LeaseManager) (o : op) (s : system) : system :=
  match o with
  | OpAcquire now ok =>
      let '(tbl, m', _) := acquire m now ok (table s) in
      {| table := tbl; managers := <[i := m']> (managers s) |}
  | OpHeartbeat now => {| table := (heartbeat m now (table s)).1; managers := managers s |}
  | OpRelease => {| table := release m (table s); managers := managers s |}
  | OpUpdateCursor t =>
      match updateCursor m t (table s) with
      | Ok (tbl, _) => {| table := tbl; managers := managers s |}
      | Err _ => s
      end
  end.

Inductive step : nat → op → system → system → Prop :=
| step_op i m o s : managers s !! i = Some m → step i o s (exec i m o s).

Definition any_step (s s' : system) : Prop := ∃ i o, step i o s s'.

(** Instances start without a token; rows that exist already have one. *)
Definition initial (s : system) : Prop :=
  (∀ i m, managers s !! i = Some m → currentFencingToken m = 0) ∧
  (∀ k row, table s !! k = Some row → 1 ≤ fencingToken row).

Definition reachable (s : system) : Prop := ∃ s0, initial s0 ∧ rtc any_step s0 s.

(** Instance [i] holds the lease: its heartbeat and its cursor writes succeed. *)
Definition holds (s : system) (i : nat) (m : LeaseManager) : Prop :=
  managers s !! i = Some m ∧
  ∃ row, table s !! streamName m = Some row ∧ owns m row = true.

(** ** Invariant *)

Definition lease_inv (s : system) : Prop :=
  (∀ k row, table s !! k = Some row → 1 ≤ fencingToken row) ∧
  (∀ i m, managers s !! i = Some m → currentFencingToken m = 0 ∨
     ∃ row, table s !! streamName m = Some row ∧
       1 ≤ currentFencingToken m ≤ fencingToken row) ∧
  (∀ i j m m', managers s !! i = Some m → managers s !! j = Some m' → i ≠ j →
     streamName m = streamName m' → currentFencingToken m = currentFencingToken m' →
     currentFencingToken m = 0).

(** An operation that touches only rows' data, not tokens. *)
Definition same_tokens (t t' : leases) : Prop :=
  ∀ k, fencingToken <$> t !! k = fencingToken <$> t' !! k.

Lemma same_tokens_insert t k row row' :
  t !! k = Some row → fencingToken row' = fencingToken row → same_tokens t (<[k := row']> t).
Proof.
  intros Hk Ht j. rewrite lookup_insert. case_decide as E; [subst j|done].
  rewrite Hk. simpl. by rewrite Ht.
Qed.

Lemma heartbeat_tokens m now t : same_tokens t (heartbeat m now t).1.
Proof.
  unfold heartbeat. destruct (t !! streamName m) eqn:E; [|done].
  case_test; [|done]. by eapply same_tokens_insert.
Qed.

Lemma release_tokens m t : same_tokens t (release m t).
Proof.
  unfold release. destruct (t !! streamName m) eqn:E; [|done].
  case_test; [|done]. by eapply same_tokens_insert.
Qed.

Lemma updateCursor_tokens m tok t t' b :
  updateCursor m tok t = Ok (t', b) → same_tokens t t'.
Proof.
  unfold updateCursor. intros H. invert_result.
  destruct (t !! streamName m) eqn:E; [|by injection H as <- _].
  destruct (owns m l); injection H as <- _; [|done]. by eapply same_tokens_insert.
Qed.

Lemma same_tokens_row t t' k row' : same_tokens t t' → t' !! k = Some row' →
  ∃ row, t !! k = Some row ∧ fencingToken row' = fencingToken row.
Proof.
  intros H Hk. specialize (H k). rewrite Hk in H. simpl in H.
  destruct (t !! k) as [row|] eqn:E; simplify_eq/=. eauto.
Qed.

Lemma same_tokens_row' t t' k row : same_tokens t t' → t !! k = Some row →
  ∃ row', t' !! k = Some row' ∧ fencingToken row' = fencingToken row.
Proof.
  intros H Hk. specialize (H k). rewrite Hk in H. simpl in H.
  destruct (t' !! k) as [row'|] eqn:E; simplify_eq/=. eauto.
Qed.

Lemma lease_inv_same_tokens t t' ms : same_tokens t t' →
  lease_inv {| table := t; managers := ms |} → lease_inv {| table := t'; managers := ms |}.
Proof.
  intros Ht (H1 & H2 & H3). simpl in *. split_and!; simpl; [..|done].
  - intros k row' Hk. destruct (same_tokens_row _ _ _ _ Ht Hk) as (row & Hr & ->). eauto.
  - intros i m Hm. destruct (H2 i m Hm) as [?|(row & Hr & Hb)]; [by left|right].
    destruct (same_tokens_row' _ _ _ _ Ht Hr) as (row' & ? & E). exists row'. by rewrite E.
Qed.

(** A successful acquisition installs a token above all earlier ones. *)
Lemma acquire_spec m now ok t t' m' res : acquire m now ok t = (t', m', res) →
  match res with
  | Acquired row => t' = <[streamName m := row]> t ∧ m' = with_token m (fencingToken row) ∧
      ownerId row = mgr_ownerId m ∧
      match t !! streamName m with
      | None => fencingToken row = 1 ∧ pagingToken row = "0"
      | Some old => fencingToken row = fencingToken old + 1 ∧
          pagingToken row = pagingToken old ∧
          (ownerId old = mgr_ownerId m ∨ leaseExpiresAt old ≤ now)
      end ∧ leaseExpiresAt row = now + ttlMs m
  | HeldByOther l => t' = t ∧ m' = m ∧ ok = true ∧ l = t !! streamName m ∧
      ∃ old, t !! streamName m = Some old ∧ ownerId old ≠ mgr_ownerId m ∧
        now < leaseExpiresAt old
  | DbError => t' = t ∧ m' = m ∧ ok = false
  end.
Proof.
  unfold acquire, acquire_upsert. destruct ok; simpl; [|by intros [= <- <- <-]].
  destruct (t !! streamName m) as [old|] eqn:E; simpl.
  - destruct (String.eqb_spec (ownerId old) (mgr_ownerId m)) as [Eo|Eo]; simpl.
    + rewrite String.eqb_refl. intros [= <- <- <-]. simpl. naive_solver.
    + destruct (Z.leb_spec (leaseExpiresAt old) now); simpl.
      * rewrite String.eqb_refl. intros [= <- <- <-]. simpl. naive_solver.
      * intros [= <- <- <-]. unfold peek. rewrite E. naive_solver.
  - rewrite String.eqb_refl. intros [= <- <- <-]. simpl. done.
Qed.

Lemma lease_inv_acquire i m now ok s : lease_inv s → managers s !! i = Some m →
  lease_inv (exec i m (OpAcquire now ok) s).
Proof.
  intros Hinv Hm. simpl. destruct (acquire m now ok (table s)) as [[t' m'] res] eqn:E.
  apply acquire_spec in E. destruct res as [row|l|].
  2,3: destruct E as (-> & -> & _); rewrite insert_id by done; by destruct s.
  destruct E as (-> & -> & Ho & Htok & _). destruct Hinv as (H1 & H2 & H3).
  assert (1 ≤ fencingToken row ∧
    ∀ old, table s !! streamName m = Some old → fencingToken old < fencingToken row) as [Hpos Hgt].
  { destruct (table s !! streamName m) as [old|] eqn:Eo.
    - specialize (H1 _ _ Eo). split; [lia|]. intros ? [= <-]. lia.
    - split; [lia|done]. }
  assert (∀ j mj, managers s !! j = Some mj → streamName mj = streamName m →
    currentFencingToken mj < fencingToken row) as Hlt.
  { intros j mj Hj Hst. destruct (H2 j mj Hj) as [->|(old & Hold & Hb)]; [lia|].
    rewrite Hst in Hold. specialize (Hgt old Hold). lia. }
  split_and!; simpl.
  - intros k r. rewrite lookup_insert. case_decide; [by intros [= <-]|apply H1].
  - intros j mj. rewrite lookup_insert. case_decide as Ej.
    + intros [= <-]. right. simpl. rewrite lookup_insert_eq. eexists; split; [done|]. simpl. lia.
    + intros Hj. destruct (decide (streamName mj = streamName m)) as [Es|Es].
      * rewrite Es, lookup_insert_eq. specialize (Hlt j mj Hj Es).
        destruct (H2 j mj Hj) as [?|(? & ? & ?)]; [by left|right]. eexists; split; [done|]. lia.
      * rewrite lookup_insert_ne by done. by apply H2 in Hj.
  - intros j k mj mk. rewrite !lookup_insert.
    case_decide as Ej; case_decide as Ek; [congruence|..].
    + intros [= <-] Hk _ Hst Htok'. simpl in *. specialize (Hlt k mk Hk (eq_sym Hst)). lia.
    + intros Hj [= <-] _ Hst Htok'. simpl in *. specialize (Hlt j mj Hj Hst). lia.
    + apply H3.
Qed.

Lemma lease_inv_step s s' : any_step s s' → lease_inv s → lease_inv s'.
Proof.
  intros (i & o & Hs) Hinv. destruct Hs as [i m o s Hm].
  destruct o as [now ok|now| |tok].
  - by apply lease_inv_acquire.
  - destruct s. simpl. eapply lease_inv_same_tokens; [apply heartbeat_tokens|done].
  - destruct s. simpl. eapply lease_inv_same_tokens; [apply release_tokens|done].
  - simpl. destruct (updateCursor m tok (table s)) as [[t b]|] eqn:E; [|done].
    destruct s. simpl in *. eapply lease_inv_same_tokens; [by eapply updateCursor_tokens|done].
Qed.

Lemma lease_inv_rtc s s' : rtc any_step s s' → lease_inv s → lease_inv s'.
Proof. induction 1; eauto using lease_inv_step. Qed.

Lemma lease_inv_initial s : initial s → lease_inv s.
Proof.
  intros [Hm Ht]. split_and!; [done| |].
  - intros i m Hi. left. eauto.
  - intros i j m m' Hi _ _ _ _. eauto.
Qed.

Lemma lease_inv_reachable s : reachable s → lease_inv s.
Proof. intros (s0 & Hi & Hs). eauto using lease_inv_rtc, lease_inv_initial. Qed.

(** ** Correctness *)

Lemma owns_true m row : owns m row = true ↔
  ownerId row = mgr_ownerId m ∧ fencingToken row = currentFencingToken m.
Proof. unfold owns. rewrite andb_true_iff, String.eqb_eq, Z.eqb_eq. done. Qed.

(** C5. No split brain: in every reachable state, however the instances
    interleave their statements and whatever their clocks say, at most one
    instance of a stream holds the lease, that is, passes the owner and
    fencing-token guard of [heartbeat] and [updateCursor]; this holds also for
    instances that share an owner id. *)
Theorem lease_mutual_exclusion s i j m m' :
  reachable s → holds s i m → holds s j m' → streamName m = streamName m' → i = j.
Proof.
  intros (H1 & _ & H3)%lease_inv_reachable [Hi (row & Hr & [_ Ho]%owns_true)]
    [Hj (row' & Hr' & [_ Ho']%owns_true)] Hst.
  rewrite <- Hst in Hr'. simplify_eq. destruct (decide (i = j)) as [|Hne]; [done|].
  specialize (H3 i j m m' Hi Hj Hne Hst ltac:(lia)). specialize (H1 _ _ Hr). lia.
Qed.

(** A step other than an acquisition by instance [i]. *)
Definition step_not_acquire (i : nat) (s s' : system) : Prop :=
  ∃ k o, step k o s s' ∧ (k = i → ∀ now ok, o ≠ OpAcquire now ok).

(** Instance [i] has a token older than the row's. *)
Definition stale (s : system) (i : nat) (m : LeaseManager) : Prop :=
  managers s !! i = Some m ∧
  ∃ row, table s !! streamName m = Some row ∧ currentFencingToken m < fencingToken row.

Lemma stale_same_tokens t t' ms i m : same_tokens t t' →
  stale {| table := t; managers := ms |} i m → stale {| table := t'; managers := ms |} i m.
Proof.
  intros Ht [Hm (row & Hr & Hlt)]. split; [done|]. simpl in *.
  destruct (same_tokens_row' _ _ _ _ Ht Hr) as (row' & ? & E). exists row'. by rewrite E.
Qed.

Lemma stale_step i m s s' : step_not_acquire i s s' → stale s i m → stale s' i m.
Proof.
  intros (k & o & Hs & Hk) Hst. destruct Hs as [k mk o s Hmk].
  destruct o as [now ok|now| |tok].
  - destruct (decide (k = i)) as [->|Hne]; [by destruct (Hk eq_refl now ok)|].
    simpl. destruct (acquire mk now ok (table s)) as [[t' mk'] res] eqn:E.
    apply acquire_spec in E. destruct Hst as [Hm (row & Hr & Hlt)].
    split; simpl; [by rewrite lookup_insert_ne|].
    destruct res as [row'|l|]; [|destruct E as (-> & _); eauto..].
    destruct E as (-> & _ & _ & Htok & _). rewrite lookup_insert.
    case_decide as Es; [|eauto]. rewrite Es, Hr in Htok. eexists; split; [done|]. lia.
  - destruct s. simpl. eapply stale_same_tokens; [apply heartbeat_tokens|done].
  - destruct s. simpl. eapply stale_same_tokens; [apply release_tokens|done].
  - simpl. destruct (updateCursor mk tok (table s)) as [[t b]|] eqn:E; [|done].
    destruct s. simpl in *. eapply stale_same_tokens; [by eapply updateCursor_tokens|done].
Qed.

Lemma stale_rejected s i m now tok : stale s i m →
  heartbeat m now (table s) = (table s, false) ∧
  (valid_paging_token tok = true → updateCursor m tok (table s) = Ok (table s, false)).
Proof.
  intros [_ (row & Hr & Hlt)].
  assert (owns m row = false) as Ho.
  { apply not_true_iff_false. rewrite owns_true. lia. }
  unfold heartbeat, updateCursor. rewrite Hr, Ho. split; [done|]. by intros ->.
Qed.

(** An evicted instance is fenced: once another instance of the stream has
    acquired the lease, no heartbeat and no cursor write of the evicted one
    takes effect, after any further steps of any instances, until it acquires
    the lease again itself. *)
Theorem evicted_instance_fenced s i j mi mj now row t' mj' s2 now' tok :
  reachable s → managers s !! i = Some mi → managers s !! j = Some mj → i ≠ j →
  streamName mi = streamName mj →
  acquire mj now true (table s) = (t', mj', Acquired row) →
  rtc (step_not_acquire i) (exec j mj (OpAcquire now true) s) s2 →
  heartbeat mi now' (table s2) = (table s2, false) ∧
  (valid_paging_token tok = true → updateCursor mi tok (table s2) = Ok (table s2, false)).
Proof.
  intros (H1 & H2 & H3)%lease_inv_reachable Hi Hj Hne Hst Hacq Hrtc.
  apply (stale_rejected s2 i mi).
  assert (stale (exec j mj (OpAcquire now true) s) i mi) as Hst1.
  { simpl. rewrite Hacq. apply acquire_spec in Hacq as (-> & _ & _ & Htok & _).
    split; simpl; [by rewrite lookup_insert_ne|].
    rewrite Hst, lookup_insert_eq. eexists; split; [done|].
    destruct (H2 i mi Hi) as [E|(old & Hold & Hb)].
    - rewrite E. destruct (table s !! streamName mj) eqn:Eo; [|lia].
      specialize (H1 _ _ Eo). lia.
    - rewrite Hst in Hold. rewrite Hold in Htok. lia. }
  clear -Hrtc Hst1. induction Hrtc; eauto using stale_step.
Qed.

(** Takeover is exact and loses nothing: with the database answering,
    [acquire] succeeds if and only if the stream has no row, the row belongs to
    the same owner, or the lease has expired; it then raises the fencing token
    by one, keeps the stored cursor (a new stream starts at ["0"]) and extends
    the lease by the TTL. Otherwise, and when the database fails, the table and
    the instance are unchanged. *)
Theorem acquire_takeover m now t :
  match acquire m now true t with
  | (t', m', Acquired row) =>
      t' = <[streamName m := row]> t ∧ m' = with_token m (fencingToken row) ∧
      ownerId row = mgr_ownerId m ∧ leaseExpiresAt row = now + ttlMs m ∧
      match t !! streamName m with
      | None => fencingToken row = 1 ∧ pagingToken row = "0"
      | Some old => fencingToken row = fencingToken old + 1 ∧
          pagingToken row = pagingToken old ∧
          (ownerId old = mgr_ownerId m ∨ leaseExpiresAt old ≤ now)
      end
  | (t', m', HeldByOther l) => t' = t ∧ m' = m ∧ l = t !! streamName m ∧
      ∃ old, t !! streamName m = Some old ∧ ownerId old ≠ mgr_ownerId m ∧
        now < leaseExpiresAt old
  | (_, _, DbError) => False
  end ∧ acquire m now false t = (t, m, DbError).
Proof.
  split; [|done]. destruct (acquire m now true t) as [[t' m'] res] eqn:E.
  apply acquire_spec in E. destruct res; naive_solver.
Qed.

Lemma heartbeat_false m now t t' : heartbeat m now t = (t', false) → t' = t.
Proof.
  unfold heartbeat. destruct (t !! streamName m); [case_test|]; naive_solver.
Qed.

(** Processing acknowledges only what it checkpointed: if the lease was
    already lost, [process] skips the event and changes neither the nodes nor
    the leases; if it reports [processed] for an event with a paging token, the
    stored cursor is that token and the instance still holds the lease; if it
    skips after applying the event, the lease table is as the other instances
    left it, so the new owner replays from the old cursor. *)
Theorem process_checkpoints {R} `{NodeRepo R} m event now interfere tbl (r : R) t' r' res :
  process m event now interfere tbl r = Ok (t', r', res) →
  let '(tbl1, ok) := heartbeat m now tbl in
  if ok then
    handleEvent event r = Ok r' ∧
    match res with
    | processed => ∀ tok, ev_pagingToken event = Some tok → tok ≠ EmptyString →
        ∃ row, t' !! streamName m = Some row ∧ pagingToken row = tok ∧ owns m row = true
    | skipped => t' = interfere tbl1
    end
  else t' = tbl ∧ r' = r ∧ res = skipped.
Proof.
  unfold process. destruct (heartbeat m now tbl) as [tbl1 []] eqn:Hh; simpl.
  2:{ apply heartbeat_false in Hh as ->. by intros [= -> -> ->]. }
  destruct (handleEvent event r) as [r1|]; [|done].
  destruct (ev_pagingToken event) as [tok|]; [|by intros [= <- -> <-]].
  destruct (String.eqb_spec tok EmptyString) as [->|Hne]; [by intros [= <- -> <-]; naive_solver|].
  destruct (updateCursor m tok (interfere tbl1)) as [[tbl3 adv]|] eqn:Hu; [|done].
  intros [= <- -> <-]. split; [done|].
  unfold updateCursor in Hu. invert_result.
  destruct (interfere tbl1 !! streamName m) as [row|] eqn:Er; [|by simplify_eq].
  destruct (owns m row) eqn:Ho; simplify_eq; [|done].
  intros tok' [= <-] _. rewrite lookup_insert_eq. eauto.
Qed.

(** *** Witnesses: a primary and a standby of one stream *)

Module LeaseExample.
Definition mgr (owner : string) : LeaseManager :=
  {| streamName := "bond"; mgr_ownerId := owner; ttlMs := 15000; heartbeatMs := 5000;
     currentFencingToken := 0 |}.
Definition s0 : system :=
  {| table := ∅; managers := <[0%nat := mgr "a"]> (<[1%nat := mgr "b"]> ∅) |}.
(** The primary acquires at time 0. *)
Definition s1 : system := exec 0 (mgr "a") (OpAcquire 0 true) s0.
Definition primary : LeaseManager := with_token (mgr "a") 1.

Lemma s1_reachable : reachable s1.
Proof.
  exists s0. split.
  - split; [|set_solver]. intros i m. simpl. rewrite !lookup_insert, lookup_empty.
    repeat case_decide; naive_solver.
  - apply rtc_once. exists 0%nat, (OpAcquire 0 true). by constructor.
Qed.

Lemma s1_holds : holds s1 0 primary.
Proof. split; [reflexivity|]. eexists. split; reflexivity. Qed.
End LeaseExample.

Lemma lease_mutual_exclusion_witness :
  (0 = 0)%nat ∧ ¬ holds LeaseExample.s1 1 (LeaseExample.mgr "b").
Proof.
  split.
  - exact (lease_mutual_exclusion LeaseExample.s1 0 0 _ _ LeaseExample.s1_reachable
      LeaseExample.s1_holds LeaseExample.s1_holds eq_refl).
  - intros H. discriminate (lease_mutual_exclusion LeaseExample.s1 0 1 _ _
      LeaseExample.s1_reachable LeaseExample.s1_holds H eq_refl).
Defined.

(** The standby takes over at time 20000; the primary's next heartbeat fails. *)
Lemma evicted_instance_fenced_witness :
  let s2 := exec 1 (LeaseExample.mgr "b") (OpAcquire 20000 true) LeaseExample.s1 in
  heartbeat LeaseExample.primary 20001 (table s2) = (table s2, false) ∧
  (valid_paging_token "7" = true →
   updateCursor LeaseExample.primary "7" (table s2) = Ok (table s2, false)).
Proof.
  intros s2. eapply (evicted_instance_fenced LeaseExample.s1 0 1 _ (LeaseExample.mgr "b") 20000);
    [exact LeaseExample.s1_reachable|reflexivity|reflexivity|done|reflexivity|reflexivity|].
  apply rtc_refl.
Defined.

Lemma process_checkpoints_witness :
  let ev := {| ev_type := "bond"; ev_nodeId := Some "n"; ev_amount := Some "1";
               ev_penalty := None; ev_pagingToken := Some "7" |} in
  ∃ t' r', process (R:=gmap string string) LeaseExample.primary ev 1 id
    (table LeaseExample.s1) ∅ = Ok (t', r', processed) ∧
  ∃ row, t' !! "bond" = Some row ∧ pagingToken row = "7" ∧
    owns LeaseExample.primary row = true.
Proof.
  intros ev. do 2 eexists. split; [reflexivity|].
  eapply (process_checkpoints (R:=gmap string string) LeaseExample.primary ev 1 id
    (table LeaseExample.s1) ∅ _ _ processed); [reflexivity|reflexivity|done].
Defined.
