(* ===== verification/Multisig.v ===== *)
(** * Multi-signature proposals

    [services/governance/multisig.ts] over the storage of
    [services/governance/inMemoryStorage.ts]. Each method is one function from
    the store to the store and an outcome: a method that throws may already
    have changed the store, and the model keeps those changes. The invariants
    are proved for every sequence of calls. *)

From stdpp Require Import base option list strings gmap sets relations.
From Stdlib Require Import ZArith Lia.
From S2P Require Import Prelude.

Open Scope Z_scope.

(** ** Multi-signature proposals *)

Inductive MultisigStatus := pending | approved | rejected | executed | cancelled | expired.
#[export] Instance MultisigStatus_eq_dec : EqDecision MultisigStatus.
Proof. solve_decision. Defined.

Record MultisigProposal := {
  id : string;
  signers : list string;
  requiredSignatures : Z;
  action : string;
  signatures : gmap string string;
  slashingVotes : gset string;
  payload : string;
  status : MultisigStatus;
  createdAt : Z;
  expiresAt : Z
}.

Record MultisigInput := {
  in_signers : list string;
  in_requiredSignatures : Z;
  in_action : string;
  in_payload : string;
  in_ttlMs : Z
}.

Inductive multisig_error :=
| TooFewSigners
| BadRequiredSignatures
| ProposalNotFound (id : string)
| CannotSign (s : MultisigStatus)
| NotAuthorized (signer : string)
| AlreadySigned (signer : string)
| AlreadyVoted (voter : string)
| CannotExecute (s : MultisigStatus)
| CannotReject (s : MultisigStatus).

(** [InMemoryProposalStorage]: proposals by id; save and update both set. *)
Abbreviation proposals := (gmap string MultisigProposal).

Definition saveProposal (p : MultisigProposal) (st : proposals) : proposals := <[id p := p]> st.
Definition getProposal_raw (i : string) (st : proposals) : option MultisigProposal := st !! i.
Definition updateProposal (p : MultisigProposal) (st : proposals) : proposals := <[id p := p]> st.

Definition set_status (p : MultisigProposal) (s : MultisigStatus) : MultisigProposal :=
  {| id := id p; signers := signers p; requiredSignatures := requiredSignatures p;
     action := action p; signatures := signatures p; slashingVotes := slashingVotes p;
     payload := payload p; status := s; createdAt := createdAt p; expiresAt := expiresAt p |}.

Definition add_signature (p : MultisigProposal) (k v : string) : MultisigProposal :=
  {| id := id p; signers := signers p; requiredSignatures := requiredSignatures p;
     action := action p; signatures := <[k := v]> (signatures p);
     slashingVotes := slashingVotes p; payload := payload p; status := status p;
     createdAt := createdAt p; expiresAt := expiresAt p |}.

Definition add_vote (p : MultisigProposal) (v : string) : MultisigProposal :=
  {| id := id p; signers := signers p; requiredSignatures := requiredSignatures p;
     action := action p; signatures := signatures p;
     slashingVotes := {[v]} ∪ slashingVotes p; payload := payload p; status := status p;
     createdAt := createdAt p; expiresAt := expiresAt p |}.

(** Every method: the store after the call, and what it returned or threw. *)
Abbreviation outcome A := (proposals * result multisig_error A)%type.

(** [uuid] is the value of [randomUUID()], [now] the time of [new Date()]. *)
Definition createProposal (uuid : string) (now : Z) (input : MultisigInput) (st : proposals)
  : outcome MultisigProposal :=
  if Z.of_nat (length (in_signers input)) <? 2 then (st, Err TooFewSigners)
  else if (in_requiredSignatures input <? 1) ||
          (in_requiredSignatures input >? Z.of_nat (length (in_signers input)))
  then (st, Err BadRequiredSignatures)
  else
    let p := {| id := uuid; signers := in_signers input;
                requiredSignatures := in_requiredSignatures input;
                action := in_action input; signatures := ∅; slashingVotes := ∅;
                payload := in_payload input; status := pending;
                createdAt := now; expiresAt := now + in_ttlMs input |} in
    (saveProposal p st, Ok p).

Definition checkExpiration (now : Z) (p : MultisigProposal) (st : proposals)
  : proposals * MultisigProposal :=
  if bool_decide (status p = pending) && (now >? expiresAt p) then
    let p' := set_status p expired in (updateProposal p' st, p')
  else (st, p).

Definition getProposal (i : string) (now : Z) (st : proposals)
  : proposals * option MultisigProposal :=
  match getProposal_raw i st with
  | Some p => let '(st', p') := checkExpiration now p st in (st', Some p')
  | None => (st, None)
  end.

Definition submitSignature (i signer signature : string) (now : Z) (st : proposals)
  : outcome MultisigProposal :=
  match getProposal_raw i st with
  | None => (st, Err (ProposalNotFound i))
  | Some p0 =>
      let '(st1, p) := checkExpiration now p0 st in
      if negb (bool_decide (status p = pending)) then (st1, Err (CannotSign (status p)))
      else if negb (bool_decide (signer ∈ signers p)) then (st1, Err (NotAuthorized signer))
      else if isSome (signatures p !! signer) then (st1, Err (AlreadySigned signer))
      else
        let p1 := add_signature p signer signature in
        let p2 := if Z.of_nat (size (signatures p1)) >=? requiredSignatures p1
                  then set_status p1 approved else p1 in
        (updateProposal p2 st1, Ok p2)
  end.

Definition rejectProposal (i : string) (st : proposals) : outcome () :=
  match getProposal_raw i st with
  | None => (st, Err (ProposalNotFound i))
  | Some p =>
      if negb (bool_decide (status p = pending)) && negb (bool_decide (status p = approved))
      then (st, Err (CannotReject (status p)))
      else (updateProposal (set_status p rejected) st, Ok ())
  end.

(** [Math.ceil(n / 2)] *)
Definition ceil_half (n : nat) : Z := (Z.of_nat n + 1) / 2.

Definition addSlashingVote (i voter : string) (now : Z) (st : proposals) : outcome () :=
  match getProposal_raw i st with
  | None => (st, Err (ProposalNotFound i))
  | Some p0 =>
      let '(st1, p) := checkExpiration now p0 st in
      if bool_decide (voter ∈ slashingVotes p) then (st1, Err (AlreadyVoted voter))
      else
        let p1 := add_vote p voter in
        let st2 := updateProposal p1 st1 in
        if Z.of_nat (size (slashingVotes p1)) >=? ceil_half (length (signers p1))
        then rejectProposal i st2
        else (st2, Ok ())
  end.

Definition executeProposal (i : string) (st : proposals) : outcome string :=
  match getProposal_raw i st with
  | None => (st, Err (ProposalNotFound i))
  | Some p =>
      if negb (bool_decide (status p = approved)) then (st, Err (CannotExecute (status p)))
      else (updateProposal (set_status p executed) st, Ok (payload p))
  end.

(** The calls of the service, as steps of the store. *)
Inductive mstep (st : proposals) : proposals → Prop :=
| step_create uuid now input : st !! uuid = None →
    mstep st (createProposal uuid now input st).1
| step_get i now : mstep st (getProposal i now st).1
| step_sign i k v now : mstep st (submitSignature i k v now st).1
| step_vote i v now : mstep st (addSlashingVote i v now st).1
| step_execute i : mstep st (executeProposal i st).1
| step_reject i : mstep st (rejectProposal i st).1.

(** ** Invariant of a proposal *)

Record proposal_ok (p : MultisigProposal) : Prop := {
  ok_required : 1 ≤ requiredSignatures p ≤ Z.of_nat (length (signers p));
  ok_signers : ∀ k, k ∈ dom (signatures p) → k ∈ signers p;
  (** a pending proposal is short of signatures *)
  ok_pending : status p = pending → Z.of_nat (size (signatures p)) < requiredSignatures p;
  (** an approved or executed one has them all *)
  ok_approved : status p = approved ∨ status p = executed →
    requiredSignatures p ≤ Z.of_nat (size (signatures p))
}.

Definition store_ok (st : proposals) : Prop :=
  ∀ i p, st !! i = Some p → id p = i ∧ proposal_ok p.

Definition is_final (s : MultisigStatus) : bool :=
  match s with pending | approved => false | _ => true end.

(** The order of the statuses: anything after [pending], execution or rejection
    after [approved], nothing after a final status. *)
Definition forward (s s' : MultisigStatus) : Prop :=
  match s with
  | pending => True
  | approved => s' = approved ∨ s' = executed ∨ s' = rejected
  | _ => s' = s
  end.

Lemma forward_trans a b c : forward a b → forward b c → forward a c.
Proof. destruct a, b, c; simpl; naive_solver. Qed.

(** How a stored proposal may change: the fixed fields stay, the signatures
    only grow, and only while it is pending, and the status moves forward. *)
Definition advances (p p' : MultisigProposal) : Prop :=
  signers p' = signers p ∧ requiredSignatures p' = requiredSignatures p ∧
  payload p' = payload p ∧ expiresAt p' = expiresAt p ∧
  signatures p ⊆ signatures p' ∧ forward (status p) (status p') ∧
  (status p ≠ pending → signatures p' = signatures p).

Lemma advances_refl p : advances p p.
Proof. unfold advances. split_and!; try done. destruct (status p); simpl; auto. Qed.

Lemma advances_trans p q r : advances p q → advances q r → advances p r.
Proof.
  intros (A1 & A2 & A3 & A4 & A5 & A6 & A7) (B1 & B2 & B3 & B4 & B5 & B6 & B7).
  unfold advances. rewrite B1, B2, B3, B4. split_and!; [done..| | |].
  - by etrans.
  - by eapply forward_trans.
  - intros Hp. rewrite B7, A7; [done..|]. intros Hq. rewrite Hq in A6.
    destruct (status p); simpl in A6; naive_solver.
Qed.

(** A store [st'] follows [st]: every proposal is still there and has advanced. *)
Definition follows (st st' : proposals) : Prop :=
  ∀ i p, st !! i = Some p → ∃ p', st' !! i = Some p' ∧ advances p p'.

Lemma follows_refl st : follows st st.
Proof. intros i p Hi. exists p. split; [done|apply advances_refl]. Qed.

Lemma follows_trans s1 s2 s3 : follows s1 s2 → follows s2 s3 → follows s1 s3.
Proof.
  intros H H' i p Hi. destruct (H i p Hi) as (q & Hq & Hpq).
  destruct (H' i q Hq) as (r & Hr & Hqr). eauto using advances_trans.
Qed.

Lemma follows_update st p p' : st !! id p = Some p → id p' = id p → advances p p' →
  follows st (updateProposal p' st).
Proof.
  intros Hp Hid Ha i q Hq. unfold updateProposal. rewrite Hid, lookup_insert.
  case_decide as E; [subst i; simplify_eq; eauto|exists q; split; [done|apply advances_refl]].
Qed.

Lemma store_ok_update st p : store_ok st → proposal_ok p → store_ok (updateProposal p st).
Proof.
  intros Hst Hp i q. unfold updateProposal. rewrite lookup_insert.
  case_decide as E; [intros [= <-]; done|apply Hst].
Qed.

(** ** The calls preserve the invariant and advance the proposals *)

(** What a call preserves. *)
Definition good (st st' : proposals) : Prop := store_ok st' ∧ follows st st'.

Lemma good_refl st : store_ok st → good st st.
Proof. split; [done|apply follows_refl]. Qed.

Lemma good_trans s1 s2 s3 : good s1 s2 → (store_ok s2 → good s2 s3) → good s1 s3.
Proof. intros [H1 H2] H. destruct (H H1) as [H3 H4]. split; eauto using follows_trans. Qed.

Lemma good_update st p p' : store_ok st → st !! id p = Some p → id p' = id p →
  proposal_ok p' → advances p p' → good st (updateProposal p' st).
Proof. split; [by apply store_ok_update|by eapply follows_update]. Qed.

Lemma set_status_ok p s : proposal_ok p → s ≠ pending → s ≠ approved →
  (s = executed → status p = approved) → proposal_ok (set_status p s).
Proof.
  intros [H1 H2 H3 H4] Hp Ha Hx. split; simpl; try done.
  intros [->|Hs]; [done|]. auto.
Qed.

Lemma set_status_advances p s : forward (status p) s → advances p (set_status p s).
Proof. unfold advances. intros. by split_and!. Qed.

Lemma checkExpiration_good now p st st' p' : store_ok st → st !! id p = Some p →
  checkExpiration now p st = (st', p') →
  good st st' ∧ st' !! id p' = Some p' ∧ id p' = id p ∧
  (status p' = pending → p' = p ∧ now ≤ expiresAt p).
Proof.
  intros Hst Hp. unfold checkExpiration.
  destruct (bool_decide (status p = pending)) eqn:E1; simpl.
  - apply bool_decide_eq_true in E1. rewrite Z.gtb_ltb.
    destruct (Z.ltb_spec (expiresAt p) now); intros [= <- <-].
    + destruct (Hst _ _ Hp) as [_ Hok]. split_and!; [|by apply lookup_insert_eq|done|done].
      apply (good_update st p); try done.
      * by apply set_status_ok.
      * apply set_status_advances. by rewrite E1.
    + split_and!; [by apply good_refl|done|done|]. auto.
  - apply bool_decide_eq_false in E1. intros [= <- <-].
    split_and!; [by apply good_refl|done|done|]. done.
Qed.

Lemma store_lookup_id st i p : store_ok st → st !! i = Some p → st !! id p = Some p ∧ id p = i.
Proof. intros Hst Hi. destruct (Hst i p Hi) as [<- _]. done. Qed.

Lemma add_signature_ok p k v : proposal_ok p → status p = pending → k ∈ signers p →
  signatures p !! k = None →
  let p1 := add_signature p k v in
  let p2 := if Z.of_nat (size (signatures p1)) >=? requiredSignatures p1
            then set_status p1 approved else p1 in
  proposal_ok p2 ∧ advances p p2.
Proof.
  intros [H1 H2 H3 H4] Hs Hk Hnone p1 p2.
  assert (signatures p ⊆ <[k := v]> (signatures p)) by by apply insert_subseteq.
  assert (∀ j, j ∈ dom (<[k := v]> (signatures p)) → j ∈ signers p).
  { intros j. rewrite dom_insert_L. set_solver. }
  subst p2. rewrite Z.geb_leb. destruct (Z.leb_spec (requiredSignatures p1)
    (Z.of_nat (size (signatures p1)))); (split; [split|]); simpl in *; try done.
  - unfold advances. simpl. rewrite Hs. by split_and!.
  - rewrite Hs. naive_solver.
  - unfold advances. simpl. rewrite Hs. by split_and!.
Qed.

Lemma submitSignature_good i k v now st : store_ok st →
  good st (submitSignature i k v now st).1.
Proof.
  intros Hst. unfold submitSignature, getProposal_raw.
  destruct (st !! i) as [p0|] eqn:Hi; [|by apply good_refl].
  destruct (store_lookup_id st i p0 Hst Hi) as [Hp0 _].
  destruct (checkExpiration now p0 st) as [st1 p] eqn:Hc.
  destruct (checkExpiration_good _ _ _ _ _ Hst Hp0 Hc) as (Hg & Hp & _ & Hpend).
  repeat (case_test; simpl; [exact Hg|]).
  breflect. eapply good_trans; [exact Hg|]. intros Hst1.
  destruct (Hst1 _ _ Hp) as [_ Hok].
  assert (signatures p !! k = None) by (by destruct (signatures p !! k)).
  destruct (add_signature_ok p k v Hok) as [Hok' Hadv]; [done..|].
  apply (good_update st1 p); try done. by case_test.
Qed.

Lemma rejectProposal_good i st : store_ok st → good st (rejectProposal i st).1.
Proof.
  intros Hst. unfold rejectProposal, getProposal_raw.
  destruct (st !! i) as [p|] eqn:Hi; [|by apply good_refl].
  destruct (store_lookup_id st i p Hst Hi) as [Hp _]. destruct (Hst _ _ Hp) as [_ Hok].
  case_test; simpl; [by apply good_refl|]. apply (good_update st p); try done.
  - by apply set_status_ok.
  - apply set_status_advances. apply andb_false_iff in Htest. breflect.
    destruct Htest as [-> | ->]; simpl; auto.
Qed.

Lemma add_vote_ok p v : proposal_ok p → proposal_ok (add_vote p v) ∧ advances p (add_vote p v).
Proof. intros [H1 H2 H3 H4]. split; [by split|]. exact (advances_refl p). Qed.

Lemma addSlashingVote_good i v now st : store_ok st → good st (addSlashingVote i v now st).1.
Proof.
  intros Hst. unfold addSlashingVote, getProposal_raw.
  destruct (st !! i) as [p0|] eqn:Hi; [|by apply good_refl].
  destruct (store_lookup_id st i p0 Hst Hi) as [Hp0 _].
  destruct (checkExpiration now p0 st) as [st1 p] eqn:Hc.
  destruct (checkExpiration_good _ _ _ _ _ Hst Hp0 Hc) as (Hg & Hp & _ & _).
  case_test; [exact Hg|]. eapply good_trans; [exact Hg|]. intros Hst1.
  destruct (Hst1 _ _ Hp) as [_ Hok]. destruct (add_vote_ok p v Hok) as [Hok' Hadv].
  assert (good st1 (updateProposal (add_vote p v) st1)) as Hu by by apply (good_update st1 p).
  case_test; [|exact Hu]. eapply good_trans; [exact Hu|]. apply rejectProposal_good.
Qed.

Lemma executeProposal_good i st : store_ok st → good st (executeProposal i st).1.
Proof.
  intros Hst. unfold executeProposal, getProposal_raw.
  destruct (st !! i) as [p|] eqn:Hi; [|by apply good_refl].
  destruct (store_lookup_id st i p Hst Hi) as [Hp _]. destruct (Hst _ _ Hp) as [_ Hok].
  case_test; simpl; [by apply good_refl|]. breflect. apply (good_update st p); try done.
  - by apply set_status_ok.
  - apply set_status_advances. rewrite Htest. simpl. auto.
Qed.

Lemma createProposal_good uuid now input st : store_ok st → st !! uuid = None →
  good st (createProposal uuid now input st).1.
Proof.
  intros Hst Hfresh. unfold createProposal.
  case_test; [by apply good_refl|]. case_test; [by apply good_refl|]. breflect.
  simpl. split.
  - intros i q. unfold saveProposal. simpl. rewrite lookup_insert. case_decide as E; [|apply Hst].
    intros [= <-]. split; [done|]. split; simpl; [lia|set_solver|rewrite map_size_empty; lia|].
    naive_solver.
  - intros i q Hq. exists q. split; [|apply advances_refl].
    unfold saveProposal. simpl. rewrite lookup_insert_ne; [done|]. congruence.
Qed.

Lemma mstep_good st st' : mstep st st' → store_ok st → good st st'.
Proof.
  intros [] Hst.
  - by apply createProposal_good.
  - unfold getProposal, getProposal_raw. destruct (st !! i) as [p|] eqn:Hi; [|by apply good_refl].
    destruct (store_lookup_id st i p Hst Hi) as [Hp _].
    destruct (checkExpiration now p st) as [st1 p1] eqn:Hc.
    by destruct (checkExpiration_good _ _ _ _ _ Hst Hp Hc).
  - by apply submitSignature_good.
  - by apply addSlashingVote_good.
  - by apply executeProposal_good.
  - by apply rejectProposal_good.
Qed.

Lemma msteps_good st st' : rtc mstep st st' → store_ok st → good st st'.
Proof.
  induction 1 as [st|s1 s2 s3 H _ IH]; intros Hst; [by apply good_refl|].
  eapply good_trans; [by apply mstep_good|done].
Qed.

(** ** Correctness of the service *)

(** Every store the service can reach from an empty one. *)
Definition mreachable (st : proposals) : Prop := rtc mstep ∅ st.

Lemma empty_ok : store_ok ∅.
Proof. intros i p. by rewrite lookup_empty. Qed.

Lemma mreachable_ok st : mreachable st → store_ok st.
Proof. intros H. by apply (msteps_good _ _ H), empty_ok. Qed.

(** C8. Nothing is executed without its signatures: in every state the service
    can reach, whatever calls were made in whatever order, an approved or
    executed proposal carries signatures of at least [requiredSignatures]
    different signers, all of them in its list of authorized signers, and the
    threshold is between 1 and the number of signers; and [executeProposal]
    returns a payload only for a proposal that was approved. *)
Theorem executed_has_quorum st i p :
  mreachable st → st !! i = Some p →
  (status p = approved ∨ status p = executed →
     requiredSignatures p ≤ Z.of_nat (size (dom (signatures p))) ∧
     (∀ k, k ∈ dom (signatures p) → k ∈ signers p)) ∧
  1 ≤ requiredSignatures p ≤ Z.of_nat (length (signers p)) ∧
  (∀ pl, (executeProposal i st).2 = Ok pl → status p = approved ∧ pl = payload p).
Proof.
  intros Hr Hi. destruct (mreachable_ok st Hr i p Hi) as [_ [H1 H2 H3 H4]].
  split_and!; [|lia|lia|].
  - intros Hs. rewrite size_dom. auto.
  - intros pl. unfold executeProposal, getProposal_raw. rewrite Hi.
    case_test; simpl; [done|]. breflect. intros [= <-]. done.
Qed.

(** A proposal only moves forward: over any sequence of calls it is never
    lost, its signers, threshold, payload and expiry never change, signatures
    are never removed and are added only while it is pending, and a rejected,
    expired, cancelled or executed proposal keeps its status for ever. *)
Theorem proposals_move_forward st st' i p :
  mreachable st → rtc mstep st st' → st !! i = Some p →
  ∃ p', st' !! i = Some p' ∧ advances p p' ∧
    (is_final (status p) = true → status p' = status p ∧ signatures p' = signatures p).
Proof.
  intros Hr Hs Hi. destruct (msteps_good _ _ Hs (mreachable_ok st Hr)) as [_ Hf].
  destruct (Hf i p Hi) as (p' & Hp' & Ha). exists p'. split_and!; [done..|].
  destruct Ha as (_ & _ & _ & _ & _ & Hfw & Hsig). intros Hfin.
  destruct (status p) eqn:E; try done; (split; [exact Hfw|by apply Hsig]).
Qed.

(** Signing, on every branch: [submitSignature] on a stored proposal first
    expires it if it is pending past its deadline; it then refuses a proposal
    that is not pending, a signer that is not listed, and a second signature of
    the same signer, and otherwise adds exactly that signature, approving the
    proposal if and only if the number of signatures reaches the threshold. *)
Theorem submitSignature_spec st i k v now p :
  mreachable st → st !! i = Some p →
  if bool_decide (status p = pending) && (now >? expiresAt p) then
    submitSignature i k v now st =
      (<[i := set_status p expired]> st, Err (CannotSign expired))
  else if negb (bool_decide (status p = pending)) then
    submitSignature i k v now st = (st, Err (CannotSign (status p)))
  else if negb (bool_decide (k ∈ signers p)) then
    submitSignature i k v now st = (st, Err (NotAuthorized k))
  else if isSome (signatures p !! k) then
    submitSignature i k v now st = (st, Err (AlreadySigned k))
  else ∃ p', submitSignature i k v now st = (<[i := p']> st, Ok p') ∧
    signatures p' = <[k := v]> (signatures p) ∧
    status p' = (if Z.of_nat (size (signatures p)) + 1 >=? requiredSignatures p
                 then approved else pending).
Proof.
  intros Hr Hi. destruct (mreachable_ok st Hr i p Hi) as [Hid _].
  unfold submitSignature, getProposal_raw, checkExpiration. rewrite Hi.
  destruct (bool_decide (status p = pending)) eqn:E1; simpl.
  - destruct (now >? expiresAt p); simpl; [unfold updateProposal; simpl; by rewrite Hid|].
    rewrite E1. simpl. repeat (case_test; simpl; [done|]). breflect.
    eexists. split; [|split].
    + unfold updateProposal. rewrite <- Hid at 1. f_equal. f_equal. by case_test.
    + by case_test.
    + destruct (signatures p !! k) eqn:Ek; [done|].
      rewrite map_size_insert_None by done.
      replace (Z.of_nat (S (size (signatures p)))) with (Z.of_nat (size (signatures p)) + 1) by lia.
      by case_test.
  - by rewrite E1.
Qed.

(** *** Witnesses: two of three signers approve a proposal that is then executed *)

Module MultisigExample.
Definition input : MultisigInput :=
  {| in_signers := ["a"; "b"; "c"]; in_requiredSignatures := 2; in_action := "slash";
     in_payload := "pay"; in_ttlMs := 1000 |}.
Definition st1 : proposals := (createProposal "u" 0 input ∅).1.
Definition st2 : proposals := (submitSignature "u" "a" "sa" 1 st1).1.
Definition st3 : proposals := (submitSignature "u" "c" "sc" 2 st2).1.
Definition st4 : proposals := (executeProposal "u" st3).1.

Lemma st1_reachable : mreachable st1.
Proof. eapply rtc_l; [by apply (step_create _ "u" 0 input)|]. apply rtc_refl. Qed.
Lemma st4_from_st1 : rtc mstep st1 st4.
Proof.
  eapply rtc_l; [apply (step_sign st1 "u" "a" "sa" 1)|].
  eapply rtc_l; [apply (step_sign _ "u" "c" "sc" 2)|].
  eapply rtc_l; [apply (step_execute _ "u")|]. apply rtc_refl.
Qed.
Lemma st4_reachable : mreachable st4.
Proof.
  unfold mreachable. eapply rtc_l; [by apply (step_create _ "u" 0 input)|].
  exact st4_from_st1.
Qed.

Definition prop4 : MultisigProposal :=
  default {| id := ""; signers := []; requiredSignatures := 0; action := "";
             signatures := ∅; slashingVotes := ∅; payload := ""; status := pending;
             createdAt := 0; expiresAt := 0 |} (st4 !! "u").
Definition prop1 : MultisigProposal :=
  default prop4 (st1 !! "u").
End MultisigExample.

Lemma executed_has_quorum_witness :
  status MultisigExample.prop4 = executed ∧
  2 ≤ Z.of_nat (size (dom (signatures MultisigExample.prop4))).
Proof.
  split; [vm_compute; reflexivity|].
  apply (executed_has_quorum MultisigExample.st4 "u" MultisigExample.prop4
    MultisigExample.st4_reachable); [vm_compute; reflexivity|].
  right. vm_compute. reflexivity.
Defined.

Lemma proposals_move_forward_witness :
  ∃ p', MultisigExample.st4 !! "u" = Some p' ∧ advances MultisigExample.prop1 p'.
Proof.
  destruct (proposals_move_forward MultisigExample.st1 MultisigExample.st4 "u"
    MultisigExample.prop1 MultisigExample.st1_reachable MultisigExample.st4_from_st1)
    as (p' & Hp' & Ha & _); [vm_compute; reflexivity|]. by exists p'.
Defined.

Lemma submitSignature_spec_witness :
  submitSignature "u" "z" "sz" 1 MultisigExample.st1 =
    (MultisigExample.st1, Err (NotAuthorized "z")).
Proof.
  exact (submitSignature_spec MultisigExample.st1 "u" "z" "sz" 1 MultisigExample.prop1
    MultisigExample.st1_reachable ltac:(vm_compute; reflexivity)).
Defined.
