(* ===== verification/SlashingVotes.v ===== *)
(** * Slashing requests and their votes: [services/governance/slashingVotes.ts]

    The store is a JS [Map], kept in insertion order because
    [listSlashRequests] lists it in that order; a vote mutates the stored
    request in place. *)

From stdpp Require Import base option list strings sets relations.
From Stdlib Require Import ZArith Lia.
From S2P Require Import Prelude JsLib.

Open Scope Z_scope.

Inductive VoteChoice := approve | reject.
#[export] Instance VoteChoice_eq_dec : EqDecision VoteChoice.
Proof. solve_decision. Defined.

Inductive SlashRequestStatus := pending | approved | rejected.
#[export] Instance SlashRequestStatus_eq_dec : EqDecision SlashRequestStatus.
Proof. solve_decision. Defined.

Record Vote := { voterId : string; choice : VoteChoice; timestamp : Z }.

Record SlashRequest := {
  id : string;
  targetAddress : string;
  reason : string;
  requestedBy : string;
  createdAt : Z;
  votes : list Vote;
  status : SlashRequestStatus;
  threshold : Z;
  totalSigners : Z
}.

Record CreateSlashRequestInput := {
  in_targetAddress : string;
  in_reason : string;
  in_requestedBy : string;
  in_threshold : option Z;
  in_totalSigners : option Z
}.

Record VoteResult := {
  slashRequestId : string;
  vr_voterId : string;
  vr_choice : VoteChoice;
  approveCount : Z;
  rejectCount : Z;
  vr_status : SlashRequestStatus
}.

Inductive slash_error :=
| ThresholdTooSmall
| TotalBelowThreshold
| AlreadyResolved (s : SlashRequestStatus)
| AlreadyVoted (voter : string).

Definition DEFAULT_THRESHOLD : Z := 3.
Definition DEFAULT_TOTAL_SIGNERS : Z := 5.

(** The module-level [Map]. *)
Abbreviation store := (jsmap string SlashRequest).

Definition count (c : VoteChoice) (vs : list Vote) : Z :=
  Z.of_nat (length (filter (λ v, choice v = c) vs)).

Definition computeStatus (req : SlashRequest) : SlashRequestStatus :=
  let approves := count approve (votes req) in
  let rejects := count reject (votes req) in
  if approves >=? threshold req then approved
  else
    let remainingVoters := totalSigners req - Z.of_nat (length (votes req)) in
    if approves + remainingVoters <? threshold req then rejected
    else if rejects >? totalSigners req - threshold req then rejected
    else pending.

(** [newId] is the value of [randomBytes(8).toString('hex')]. *)
Definition createSlashRequest (newId : string) (now : Z) (input : CreateSlashRequestInput)
    (st : store) : store * result slash_error SlashRequest :=
  let resolvedThreshold := default DEFAULT_THRESHOLD (in_threshold input) in
  let resolvedTotal := default DEFAULT_TOTAL_SIGNERS (in_totalSigners input) in
  if resolvedThreshold <? 1 then (st, Err ThresholdTooSmall)
  else if resolvedTotal <? resolvedThreshold then (st, Err TotalBelowThreshold)
  else
    let req := {| id := newId; targetAddress := in_targetAddress input;
                  reason := in_reason input; requestedBy := in_requestedBy input;
                  createdAt := now; votes := []; status := pending;
                  threshold := resolvedThreshold; totalSigners := resolvedTotal |} in
    (jm_set newId req st, Ok req).

Definition push_vote (req : SlashRequest) (v : Vote) : SlashRequest :=
  {| id := id req; targetAddress := targetAddress req; reason := reason req;
     requestedBy := requestedBy req; createdAt := createdAt req;
     votes := votes req ++ [v]; status := status req;
     threshold := threshold req; totalSigners := totalSigners req |}.

Definition with_status (req : SlashRequest) (s : SlashRequestStatus) : SlashRequest :=
  {| id := id req; targetAddress := targetAddress req; reason := reason req;
     requestedBy := requestedBy req; createdAt := createdAt req;
     votes := votes req; status := s;
     threshold := threshold req; totalSigners := totalSigners req |}.

(** [None] is the [null] returned for an unknown request. *)
Definition submitVote (slashRequestId voter : string) (c : VoteChoice) (now : Z) (st : store)
  : store * result slash_error (option VoteResult) :=
  match jm_get slashRequestId st with
  | None => (st, Ok None)
  | Some req =>
      if negb (bool_decide (status req = pending)) then (st, Err (AlreadyResolved (status req)))
      else if existsb (λ v, String.eqb (voterId v) voter) (votes req)
      then (st, Err (AlreadyVoted voter))
      else
        let req1 := push_vote req {| voterId := voter; choice := c; timestamp := now |} in
        let req2 := with_status req1 (computeStatus req1) in
        (jm_set slashRequestId req2 st,
         Ok (Some {| slashRequestId := id req2; vr_voterId := voter; vr_choice := c;
                     approveCount := count approve (votes req2);
                     rejectCount := count reject (votes req2);
                     vr_status := status req2 |}))
  end.

Definition getSlashRequest (i : string) (st : store) : option SlashRequest := jm_get i st.

Definition listSlashRequests (s : option SlashRequestStatus) (limit offset : Z) (st : store)
  : list SlashRequest * Z :=
  let all := snd <$> st in
  let filtered := match s with
                  | Some s' => filter (λ r, status r = s') all
                  | None => all
                  end in
  (js_slice filtered offset (offset + limit), Z.of_nat (length filtered)).

(** ** Invariant *)

(** What every stored request satisfies. *)
Record request_ok (r : SlashRequest) : Prop := {
  ok_threshold : 1 ≤ threshold r ≤ totalSigners r;
  ok_voters : NoDup (voterId <$> votes r);
  ok_votes : Z.of_nat (length (votes r)) ≤ totalSigners r;
  ok_status : status r = computeStatus r
}.

Definition store_ok (st : store) : Prop := ∀ i r, jm_get i st = Some r → request_ok r.

Inductive sstep (st : store) : store → Prop :=
| step_create i now input : jm_get i st = None → sstep st (createSlashRequest i now input st).1
| step_vote i v c now : sstep st (submitVote i v c now st).1.

Definition sreachable (st : store) : Prop := rtc sstep [] st.

Lemma count_split vs : count approve vs + count reject vs = Z.of_nat (length vs).
Proof.
  unfold count. induction vs as [|v vs IH]; [done|]. rewrite !filter_cons.
  destruct (choice v); repeat case_decide; simpl; done || lia.
Qed.

Lemma count_nonneg c vs : 0 ≤ count c vs.
Proof. unfold count. lia. Qed.

Lemma count_app c vs ws : count c (vs ++ ws) = count c vs + count c ws.
Proof. unfold count. rewrite filter_app, length_app. lia. Qed.

(** The status in terms of the two counts: the third test of [computeStatus]
    never decides. *)
Lemma computeStatus_spec r : computeStatus r =
  if count approve (votes r) >=? threshold r then approved
  else if count reject (votes r) >? totalSigners r - threshold r then rejected
  else pending.
Proof.
  unfold computeStatus. pose proof (count_split (votes r)).
  rewrite !Z.gtb_ltb. destruct (count approve (votes r) >=? threshold r); [done|].
  destruct (Z.ltb_spec (count approve (votes r) +
    (totalSigners r - Z.of_nat (length (votes r)))) (threshold r)),
    (Z.ltb_spec (totalSigners r - threshold r) (count reject (votes r))); done || lia.
Qed.

Lemma pending_votes_left r : request_ok r → status r = pending →
  Z.of_nat (length (votes r)) < totalSigners r.
Proof.
  intros [H1 _ H3 H4] Hs. rewrite Hs, computeStatus_spec in H4. rewrite Z.geb_leb, Z.gtb_ltb in H4.
  pose proof (count_split (votes r)).
  destruct (Z.leb_spec (threshold r) (count approve (votes r))); [done|].
  destruct (Z.ltb_spec (totalSigners r - threshold r) (count reject (votes r))); [done|]. lia.
Qed.

Lemma existsb_voter v vs :
  existsb (λ w, String.eqb (voterId w) v) vs = false → v ∉ voterId <$> vs.
Proof.
  intros H Hin. apply list_elem_of_fmap in Hin as (w & -> & Hw).
  assert (existsb (λ w', String.eqb (voterId w') (voterId w)) vs = true); [|congruence].
  apply existsb_exists. exists w. split; [by apply list_elem_of_In|apply String.eqb_refl].
Qed.

Lemma vote_ok r v : request_ok r → status r = pending →
  existsb (λ w, String.eqb (voterId w) (voterId v)) (votes r) = false →
  request_ok (with_status (push_vote r v) (computeStatus (push_vote r v))).
Proof.
  intros Hok Hs Hv. pose proof (pending_votes_left r Hok Hs). destruct Hok as [H1 H2 H3 H4].
  split; simpl; [done| | |done].
  - rewrite fmap_app. simpl. apply NoDup_app. split_and!; [done| |apply NoDup_singleton].
    apply existsb_voter in Hv. set_solver.
  - rewrite length_app. simpl. lia.
Qed.

Lemma sstep_ok st st' : sstep st st' → store_ok st → store_ok st'.
Proof.
  intros [i now input Hfresh|i v c now] Hst j r; unfold createSlashRequest, submitVote.
  - do 2 (case_test; simpl; [apply Hst|]). breflect. rewrite jm_get_set.
    destruct (decide (i = j)); [|apply Hst]. intros [= <-].
    split; simpl; [lia|constructor|lia|]. rewrite computeStatus_spec. simpl.
    unfold count. rewrite Z.geb_leb, Z.gtb_ltb. simpl. change (Z.of_nat 0) with 0.
    destruct (Z.leb_spec (default DEFAULT_THRESHOLD (in_threshold input)) 0); [lia|].
    destruct (Z.ltb_spec (default DEFAULT_TOTAL_SIGNERS (in_totalSigners input) -
      default DEFAULT_THRESHOLD (in_threshold input)) 0); [lia|done].
  - destruct (jm_get i st) as [req|] eqn:Hi; [|apply Hst].
    do 2 (case_test; simpl; [apply Hst|]). breflect. rewrite jm_get_set.
    destruct (decide (i = j)); [|apply Hst]. intros [= <-]. apply vote_ok; eauto.
Qed.

Lemma sreachable_ok st : sreachable st → store_ok st.
Proof.
  unfold sreachable. intros H. assert (store_ok []) as H0 by done. revert H0.
  induction H; eauto using sstep_ok.
Qed.

(** ** Correctness *)

(** The tally is sound: in every state reachable by creating requests and
    casting votes, no voter is counted twice, there are never more votes than
    signers, and a request is approved exactly when the approvals reach its
    threshold, rejected exactly when the rejections exclude that, and pending
    otherwise, in which case some signer has not voted yet (so full turnout
    always decides). *)
Theorem slash_tally_sound st i r :
  sreachable st → getSlashRequest i st = Some r →
  NoDup (voterId <$> votes r) ∧ Z.of_nat (length (votes r)) ≤ totalSigners r ∧
  (status r = approved ↔ threshold r ≤ count approve (votes r)) ∧
  (status r = rejected ↔ totalSigners r - threshold r < count reject (votes r)) ∧
  (status r = pending → Z.of_nat (length (votes r)) < totalSigners r).
Proof.
  intros Hr Hi. pose proof (sreachable_ok st Hr i r Hi) as Hok.
  pose proof (pending_votes_left r Hok) as Hp. destruct Hok as [H1 H2 H3 H4].
  pose proof (count_split (votes r)) as Hc.
  split_and!; [done..| | |done]; rewrite H4, computeStatus_spec, Z.geb_leb, Z.gtb_ltb;
    destruct (Z.leb_spec (threshold r) (count approve (votes r))),
      (Z.ltb_spec (totalSigners r - threshold r) (count reject (votes r))); naive_solver lia.
Qed.

(** Early decisions are right: whatever votes the remaining signers might
    cast, a request rejected early could not have reached its threshold, and a
    resolved request accepts no further vote and does not change. *)
Theorem early_decision_final st i r more v c now :
  sreachable st → getSlashRequest i st = Some r → status r ≠ pending →
  Z.of_nat (length (votes r ++ more)) ≤ totalSigners r →
  (status r = rejected → count approve (votes r ++ more) < threshold r) ∧
  (status r = approved → threshold r ≤ count approve (votes r ++ more)) ∧
  submitVote i v c now st = (st, Err (AlreadyResolved (status r))).
Proof.
  intros Hr Hi Hs Hlen. destruct (sreachable_ok st Hr i r Hi) as [H1 H2 H3 H4].
  pose proof (count_split (votes r ++ more)) as Hc. rewrite !count_app in *.
  pose proof (count_nonneg reject more). pose proof (count_nonneg approve more).
  rewrite computeStatus_spec, Z.geb_leb, Z.gtb_ltb in H4.
  split_and!.
  - intros E. rewrite E in H4.
    destruct (Z.leb_spec (threshold r) (count approve (votes r))); [done|].
    destruct (Z.ltb_spec (totalSigners r - threshold r) (count reject (votes r))); [lia|done].
  - intros E. rewrite E in H4.
    destruct (Z.leb_spec (threshold r) (count approve (votes r))); [lia|].
    by destruct (Z.ltb_spec (totalSigners r - threshold r) (count reject (votes r))).
  - unfold submitVote. unfold getSlashRequest in Hi. rewrite Hi.
    by rewrite bool_decide_false.
Qed.

(** *** Witnesses: two rejections exclude a threshold of 2 among 3 signers *)

Module SlashExample.
Definition input : CreateSlashRequestInput :=
  {| in_targetAddress := "t"; in_reason := "r"; in_requestedBy := "q";
     in_threshold := Some 2; in_totalSigners := Some 3 |}.
Definition st : store :=
  (submitVote "u" "b" reject 2 (submitVote "u" "a" reject 1
    (createSlashRequest "u" 0 input []).1).1).1.
Definition req : SlashRequest :=
  default {| id := ""; targetAddress := ""; reason := ""; requestedBy := ""; createdAt := 0;
             votes := []; status := pending; threshold := 0; totalSigners := 0 |}
    (getSlashRequest "u" st).
Lemma st_reachable : sreachable st.
Proof.
  eapply rtc_l; [by apply (step_create _ "u" 0 input)|].
  eapply rtc_l; [apply (step_vote _ "u" "a" reject 1)|].
  eapply rtc_l; [apply (step_vote _ "u" "b" reject 2)|]. apply rtc_refl.
Qed.
End SlashExample.

Lemma slash_tally_sound_witness :
  NoDup (voterId <$> votes SlashExample.req) ∧ status SlashExample.req = rejected.
Proof.
  split.
  - apply (slash_tally_sound SlashExample.st "u" SlashExample.req SlashExample.st_reachable).
    reflexivity.
  - reflexivity.
Defined.

Lemma early_decision_final_witness :
  count approve (votes SlashExample.req ++ [{| voterId := "c"; choice := approve; timestamp := 3 |}]) < 2.
Proof.
  apply (early_decision_final SlashExample.st "u" SlashExample.req
    [{| voterId := "c"; choice := approve; timestamp := 3 |}] "c" approve 3
    SlashExample.st_reachable); [reflexivity|done|simpl; lia|reflexivity].
Defined.
