(* ===== verification/Disputes.v ===== *)
(** * Disputes: [services/governance/disputes.ts]

    The in-memory dispute store, its lifecycle operations on top of the dispute
    state machine, and the cursor pagination of [listDisputes]. An operation
    that throws may have changed the store before ([resolveDispute] marks an
    expired dispute and then throws); the model keeps the change. *)

From stdpp Require Import base option list strings gmap sets relations sorting.
From Stdlib Require Import ZArith Lia Ascii.
From S2P Require Import Prelude JsLib StateTransition.
Import StateTransition.Dispute.

Open Scope Z_scope.

Record Dispute := {
  id : string;
  tenantId : string;
  filedBy : string;
  respondent : string;
  reason : string;
  evidence : list string;
  status : DisputeStatus;
  createdAt : Z;
  deadline : Z;
  resolution : option string
}.

Record DisputeInput := {
  in_filedBy : string;
  in_respondent : string;
  in_reason : string;
  in_evidence : list string;
  in_deadlineMs : Z
}.

Inductive dispute_error :=
| InvalidDispute (errors : list string)
| DisputeNotFound (id : string)
| CannotResolveExpired
| ResolutionRequired
| DismissReasonRequired
| InvalidTransition (f t : DisputeStatus).

Abbreviation disputes := (gmap string Dispute).

Definition MIN_DEADLINE_MS : Z := 60 * 60 * 1000.
Definition MAX_DEADLINE_MS : Z := 30 * 24 * 60 * 60 * 1000.

(** [G], then exactly 55 characters from A to Z or 2 to 7. *)
Definition base32 (c : ascii) : bool :=
  ((65 <=? code c) && (code c <=? 90)) || ((50 <=? code c) && (code c <=? 55)).

Definition STELLAR_ADDRESS_RE (s : string) : bool :=
  match s with
  | String c rest => Ascii.eqb c "G"%char && (slen rest =? 55) && str_forallb base32 rest
  | EmptyString => false
  end.

Definition check_address (value field : string) : list string :=
  if String.eqb value EmptyString then [field +:+ " is required"]
  else if negb (STELLAR_ADDRESS_RE value) then [field +:+ " must be a valid Stellar address"]
  else [].

Definition validateDisputeInput (input : DisputeInput) : list string :=
  check_address (in_filedBy input) "filedBy" ++
  check_address (in_respondent input) "respondent" ++
  (if negb (String.eqb (in_filedBy input) EmptyString) &&
      negb (String.eqb (in_respondent input) EmptyString) &&
      String.eqb (in_filedBy input) (in_respondent input)
   then ["filedBy and respondent must differ"] else []) ++
  (if String.eqb (in_reason input) EmptyString then ["reason is required"]
   else if slen (trim (in_reason input)) <? 10 then ["reason must be at least 10 characters"]
   else []) ++
  (if (length (in_evidence input) =? 0)%nat
   then ["at least one piece of evidence is required"] else []) ++
  (if in_deadlineMs input <? MIN_DEADLINE_MS then ["deadline must be at least 3600000ms from now"]
   else if in_deadlineMs input >? MAX_DEADLINE_MS then ["deadline must be at most 2592000000ms from now"]
   else []).

(** [uuid] is the value of [randomUUID()], [now] the time of [new Date()]. *)
Definition submitDispute (uuid : string) (now : Z) (input : DisputeInput) (tenant : string)
    (st : disputes) : disputes * result dispute_error Dispute :=
  let errors := validateDisputeInput input in
  if (0 <? length errors)%nat then (st, Err (InvalidDispute errors))
  else
    let d := {| id := uuid; tenantId := tenant; filedBy := in_filedBy input;
                respondent := in_respondent input; reason := in_reason input;
                evidence := in_evidence input; status := pending; createdAt := now;
                deadline := now + in_deadlineMs input; resolution := None |} in
    (<[uuid := d]> st, Ok d).

Definition getDispute (i : string) (st : disputes) : option Dispute := st !! i.

Definition isExpired (now : Z) (d : Dispute) : bool := now >? deadline d.

Definition set_status (d : Dispute) (s : DisputeStatus) : Dispute :=
  {| id := id d; tenantId := tenantId d; filedBy := filedBy d; respondent := respondent d;
     reason := reason d; evidence := evidence d; status := s; createdAt := createdAt d;
     deadline := deadline d; resolution := resolution d |}.

Definition close (d : Dispute) (s : DisputeStatus) (r : string) : Dispute :=
  {| id := id d; tenantId := tenantId d; filedBy := filedBy d; respondent := respondent d;
     reason := reason d; evidence := evidence d; status := s; createdAt := createdAt d;
     deadline := deadline d; resolution := Some r |}.

(** [!text || text.trim().length === 0] *)
Definition blank (text : string) : bool :=
  String.eqb text EmptyString || (slen (trim text) =? 0).

Definition resolveDispute (i text : string) (now : Z) (st : disputes)
  : disputes * result dispute_error Dispute :=
  match st !! i with
  | None => (st, Err (DisputeNotFound i))
  | Some d =>
      if isExpired now d then (<[i := set_status d expired]> st, Err CannotResolveExpired)
      else if blank text then (st, Err ResolutionRequired)
      else if negb (success (tryDisputeTransition (status d) resolved))
      then (st, Err (InvalidTransition (status d) resolved))
      else let d' := close d resolved text in (<[i := d']> st, Ok d')
  end.

Definition dismissDispute (i text : string) (st : disputes)
  : disputes * result dispute_error Dispute :=
  match st !! i with
  | None => (st, Err (DisputeNotFound i))
  | Some d =>
      if blank text then (st, Err DismissReasonRequired)
      else if negb (success (tryDisputeTransition (status d) dismissed))
      then (st, Err (InvalidTransition (status d) dismissed))
      else let d' := close d dismissed text in (<[i := d']> st, Ok d')
  end.

Definition markUnderReview (i : string) (st : disputes)
  : disputes * result dispute_error Dispute :=
  match st !! i with
  | None => (st, Err (DisputeNotFound i))
  | Some d =>
      if negb (success (tryDisputeTransition (status d) under_review))
      then (st, Err (InvalidTransition (status d) under_review))
      else let d' := set_status d under_review in (<[i := d']> st, Ok d')
  end.

(** ** Listing *)

Record ListDisputesFilter := { f_tenantId : string; f_status : option DisputeStatus }.
(** The cursor's time is the millisecond value of its ISO string. *)
Record ListDisputesPagination := { limit : Z; cursor : option (Z * string) }.
Record ListDisputesResult := { data : list Dispute; hasMore : bool }.

Section List.
(** [String.prototype.localeCompare] of the host's locale. *)
Context (localeCompare : string → string → Z).

Definition compare_disputes (a b : Dispute) : Z :=
  let timeDiff := createdAt b - createdAt a in
  if negb (timeDiff =? 0) then timeDiff else localeCompare (id b) (id a).

Definition sorts_before (a b : Dispute) : Prop := compare_disputes a b ≤ 0.
#[export] Instance sorts_before_dec : RelDecision sorts_before.
Proof. unfold sorts_before. solve_decision. Defined.

Definition matches (f : ListDisputesFilter) (d : Dispute) : bool :=
  String.eqb (tenantId d) (f_tenantId f) &&
  match f_status f with Some s => bool_decide (status d = s) | None => true end.

Definition after_cursor (c : option (Z * string)) (d : Dispute) : bool :=
  match c with
  | None => true
  | Some (t, i) =>
      if createdAt d <? t then true
      else (createdAt d =? t) && String.ltb (id d) i
  end.

Definition sorted_disputes (f : ListDisputesFilter) (st : disputes) : list Dispute :=
  merge_sort sorts_before (filter (λ d, matches f d = true) (snd <$> map_to_list st)).

Definition listDisputes (f : ListDisputesFilter) (p : ListDisputesPagination) (st : disputes)
  : ListDisputesResult :=
  let results := sorted_disputes f st in
  let results := filter (λ d, after_cursor (cursor p) d = true) results in
  let limited := js_slice results 0 (limit p + 1) in
  let more := Z.of_nat (length limited) >? limit p in
  {| data := if more then take (length limited - 1) limited else limited;
     hasMore := more |}.
End List.

(** ** Correctness of the lifecycle *)

Definition valid_input (input : DisputeInput) : Prop :=
  STELLAR_ADDRESS_RE (in_filedBy input) = true ∧
  STELLAR_ADDRESS_RE (in_respondent input) = true ∧
  in_filedBy input ≠ in_respondent input ∧
  10 ≤ slen (trim (in_reason input)) ∧ in_evidence input ≠ [] ∧
  MIN_DEADLINE_MS ≤ in_deadlineMs input ≤ MAX_DEADLINE_MS.

Lemma check_address_nil v f : check_address v f = [] ↔ STELLAR_ADDRESS_RE v = true.
Proof.
  unfold check_address. destruct (String.eqb_spec v EmptyString) as [->|]; [done|].
  by destruct (STELLAR_ADDRESS_RE v).
Qed.

Lemma validate_nil input : validateDisputeInput input = [] ↔ valid_input input.
Proof.
  unfold validateDisputeInput, valid_input. rewrite !app_nil, !check_address_nil.
  assert (∀ v, STELLAR_ADDRESS_RE v = true → String.eqb v EmptyString = false) as Hne.
  { by intros []. }
  split.
  - intros (H1 & H2 & H3 & H4 & H5 & H6). rewrite !Hne in H3 by done. simpl in H3.
    destruct (String.eqb_spec (in_filedBy input) (in_respondent input)); [done|].
    destruct (String.eqb (in_reason input) EmptyString); [done|].
    destruct (Z.ltb_spec (slen (trim (in_reason input))) 10); [done|].
    destruct (in_evidence input); [done|].
    rewrite Z.gtb_ltb in H6. destruct (Z.ltb_spec (in_deadlineMs input) MIN_DEADLINE_MS); [done|].
    destruct (Z.ltb_spec MAX_DEADLINE_MS (in_deadlineMs input)); done.
  - intros (H1 & H2 & H3 & H4 & H5 & H6). rewrite !Hne by done. simpl.
    apply String.eqb_neq in H3. rewrite H3.
    destruct (String.eqb_spec (in_reason input) EmptyString) as [E|_].
    { rewrite E in H4. done. }
    destruct (Z.ltb_spec (slen (trim (in_reason input))) 10); [lia|].
    destruct (in_evidence input); [done|]. rewrite Z.gtb_ltb.
    destruct (Z.ltb_spec (in_deadlineMs input) MIN_DEADLINE_MS); [lia|].
    destruct (Z.ltb_spec MAX_DEADLINE_MS (in_deadlineMs input)); [lia|done].
Qed.

(** Filing: [submitDispute] accepts exactly the inputs with two different
    valid Stellar addresses, a reason of at least ten characters, some
    evidence and a deadline between one hour and thirty days; it then stores a
    pending dispute of that tenant whose deadline lies in that range after now
    and touches no other dispute; any other input is refused, with at least
    one message, and stores nothing. *)
Theorem submitDispute_spec uuid now input tenant st :
  (valid_input input → ∃ d, submitDispute uuid now input tenant st = (<[uuid := d]> st, Ok d) ∧
     id d = uuid ∧ tenantId d = tenant ∧ status d = pending ∧ filedBy d ≠ respondent d ∧
     now + MIN_DEADLINE_MS ≤ deadline d ≤ now + MAX_DEADLINE_MS ∧ isExpired now d = false) ∧
  (¬ valid_input input → ∃ m ms, submitDispute uuid now input tenant st =
     (st, Err (InvalidDispute (m :: ms)))).
Proof.
  unfold submitDispute. split.
  - intros Hv. pose proof Hv as Hn. apply validate_nil in Hn. rewrite Hn. simpl.
    destruct Hv as (? & ? & ? & ? & ? & ?). eexists. split; [done|]. simpl.
    split_and!; try done; try lia. unfold isExpired. simpl.
    unfold MIN_DEADLINE_MS in *. rewrite Z.gtb_ltb. apply Z.ltb_ge. lia.
  - intros Hv. destruct (validateDisputeInput input) as [|m ms] eqn:E; [|by eauto].
    by apply validate_nil in E.
Qed.

(** The operations that change a stored dispute. *)
Inductive dop :=
| OpResolve (i text : string) (now : Z)
| OpDismiss (i text : string)
| OpReview (i : string).

Definition run_op (o : dop) (st : disputes) : disputes * result dispute_error Dispute :=
  match o with
  | OpResolve i text now => resolveDispute i text now st
  | OpDismiss i text => dismissDispute i text st
  | OpReview i => markUnderReview i st
  end.

(** The branch of [resolveDispute] that does not consult the state machine. *)
Definition expires (o : dop) (d : Dispute) : Prop :=
  ∃ text now, o = OpResolve (id d) text now ∧ isExpired now d = true.

Lemma try_success f t : success (tryDisputeTransition f t) = isValidTransition f t.
Proof. unfold tryDisputeTransition, tryTransition, isValidTransition. by destruct (isValid _ f t). Qed.

Lemma op_effect o st j d : (∀ i d, st !! i = Some d → id d = i) → st !! j = Some d →
  ∃ d', (run_op o st).1 !! j = Some d' ∧
    (d' = d ∨ isValidTransition (status d) (status d') = true ∨
     (expires o d ∧ d' = set_status d expired)).
Proof.
  intros Hids Hj.
  assert (∀ i d0 d1, st !! i = Some d0 → (d1 = d0 ∨ isValidTransition (status d0) (status d1) = true ∨
      (expires o d0 ∧ d1 = set_status d0 expired)) →
    ∃ d', (<[i := d1]> st) !! j = Some d' ∧ (d' = d ∨ isValidTransition (status d) (status d') = true ∨
      (expires o d ∧ d' = set_status d expired))) as Hins.
  { intros i d0 d1 Hi Hd. rewrite lookup_insert. case_decide as E; [subst i|eauto].
    simplify_eq. eauto. }
  destruct o as [i text now|i text|i]; simpl;
    unfold resolveDispute, dismissDispute, markUnderReview;
    (destruct (st !! i) as [d0|] eqn:Hi; [|by eauto]).
  - destruct (isExpired now d0) eqn:Hx; simpl.
    { apply (Hins i d0); [done|]. right; right. split; [|done].
      exists text, now. by rewrite (Hids i d0 Hi). }
    case_test; [by eauto|]. case_test; [by eauto|]. simpl. breflect.
    apply (Hins i d0); [done|]. right; left. simpl. by rewrite <- try_success.
  - case_test; [by eauto|]. case_test; [by eauto|]. simpl. breflect.
    apply (Hins i d0); [done|]. right; left. simpl. by rewrite <- try_success.
  - case_test; [by eauto|]. simpl. breflect.
    apply (Hins i d0); [done|]. right; left. simpl. by rewrite <- try_success.
Qed.

(** Disputes follow their state machine: each lifecycle operation leaves
    every stored dispute unchanged or moves its status along a legal
    transition, apart from one case, a resolution attempted after the
    deadline, which marks the dispute expired whatever its status was; in
    particular a terminal dispute changes in no other way. *)
Theorem dispute_transitions_legal o st j d :
  (∀ i d, st !! i = Some d → id d = i) → st !! j = Some d →
  ∃ d', (run_op o st).1 !! j = Some d' ∧
    (d' = d ∨ isValidTransition (status d) (status d') = true ∨
     (expires o d ∧ d' = set_status d expired)) ∧
    (terminal (status d) = true → ¬ expires o d → d' = d).
Proof.
  intros Hids Hj. destruct (op_effect o st j d Hids Hj) as (d' & Hd' & Hc).
  exists d'. split_and!; [done..|]. intros Ht Hx.
  destruct Hc as [?|[Hv|[? _]]]; [done| |done].
  by rewrite terminal_no_exit in Hv.
Qed.

(** A closed dispute is reopened as expired: after a dispute was resolved
    or dismissed, a resolution attempted past its deadline fails, but
    overwrites its terminal status with [expired], against the state machine,
    in which a terminal status has no outgoing transition. *)
Theorem resolve_overwrites_terminal st i text now d :
  st !! i = Some d → terminal (status d) = true → status d ≠ expired → deadline d < now →
  ∃ st', resolveDispute i text now st = (st', Err CannotResolveExpired) ∧
    st' !! i = Some (set_status d expired) ∧
    isValidTransition (status d) expired = false.
Proof.
  intros Hi Ht Hne Hd. unfold resolveDispute. rewrite Hi.
  assert (isExpired now d = true) as -> by (unfold isExpired; rewrite Z.gtb_ltb; by apply Z.ltb_lt).
  eexists. split; [done|]. rewrite lookup_insert_eq. split; [done|]. by apply terminal_no_exit.
Qed.

Definition dispute_ex (s : DisputeStatus) : Dispute :=
  {| id := "d"; tenantId := "t"; filedBy := "a"; respondent := "b"; reason := "r";
     evidence := ["e"]; status := s; createdAt := 0; deadline := 100; resolution := None |}.

Lemma submitDispute_spec_witness :
  let a := "G" +:+ str_repeat "A" 55 in
  let b := "G" +:+ str_repeat "B" 55 in
  let input := {| in_filedBy := a; in_respondent := b; in_reason := "non payment";
                  in_evidence := ["e"]; in_deadlineMs := MIN_DEADLINE_MS |} in
  ∃ d, submitDispute "u" 0 input "t" ∅ = (<["u" := d]> ∅, Ok d) ∧ id d = "u" ∧
    tenantId d = "t" ∧ status d = pending ∧ filedBy d ≠ respondent d ∧
    0 + MIN_DEADLINE_MS ≤ deadline d ≤ 0 + MAX_DEADLINE_MS ∧ isExpired 0 d = false.
Proof.
  intros a b input. apply (proj1 (submitDispute_spec "u" 0 input "t" ∅)).
  unfold valid_input. split_and!; vm_compute; done || discriminate.
Defined.

Lemma dispute_transitions_legal_witness :
  ∃ d', (run_op (OpReview "d") {["d" := dispute_ex resolved]}).1 !! "d" = Some d' ∧
    (d' = dispute_ex resolved ∨ isValidTransition resolved (status d') = true ∨
     (expires (OpReview "d") (dispute_ex resolved) ∧ d' = set_status (dispute_ex resolved) expired)) ∧
    (terminal resolved = true → ¬ expires (OpReview "d") (dispute_ex resolved) →
       d' = dispute_ex resolved).
Proof.
  apply (dispute_transitions_legal (OpReview "d") {["d" := dispute_ex resolved]} "d"
    (dispute_ex resolved)); [|reflexivity].
  intros i d. rewrite lookup_singleton_Some. by intros [<- <-].
Defined.

Lemma resolve_overwrites_terminal_witness :
  ∃ st', resolveDispute "d" "ok" 200 {["d" := dispute_ex resolved]} = (st', Err CannotResolveExpired) ∧
    st' !! "d" = Some (set_status (dispute_ex resolved) expired) ∧
    isValidTransition resolved expired = false.
Proof.
  apply (resolve_overwrites_terminal {["d" := dispute_ex resolved]} "d" "ok" 200
    (dispute_ex resolved)); [reflexivity|reflexivity|done|simpl; lia].
Defined.

(** ** Correctness of the pagination *)

(** What the listing relies on: [localeCompare] is a total preorder, and on the
    ids of the store (UUIDs, all lower-case and of one shape) it is the order
    of the code units that the cursor test uses. *)
Class LocaleOrder (lc : string → string → Z) (ids : gset string) : Prop := {
  lc_total a b : lc a b ≤ 0 ∨ lc b a ≤ 0;
  lc_trans a b c : lc a b ≤ 0 → lc b c ≤ 0 → lc a c ≤ 0;
  lc_ids a b : a ∈ ids → b ∈ ids → lc a b ≤ 0 ↔ String.leb a b = true
}.

Section Pagination.
Context (lc : string → string → Z) (st : disputes).
Context `{!LocaleOrder lc (dom st)} (Hids : ∀ i d, st !! i = Some d → id d = i).

#[local] Instance sorts_total : Total (sorts_before lc).
Proof.
  intros a b. unfold sorts_before, compare_disputes.
  destruct (Z.eqb_spec (createdAt b - createdAt a) 0),
    (Z.eqb_spec (createdAt a - createdAt b) 0); simpl; try lia.
  apply lc_total.
Qed.

#[local] Instance sorts_trans : Transitive (sorts_before lc).
Proof.
  intros a b c. unfold sorts_before, compare_disputes.
  destruct (Z.eqb_spec (createdAt b - createdAt a) 0),
    (Z.eqb_spec (createdAt c - createdAt b) 0),
    (Z.eqb_spec (createdAt c - createdAt a) 0); simpl; try lia.
  intros ? ?. by eapply lc_trans.
Qed.

Lemma sorted_perm f :
  sorted_disputes lc f st ≡ₚ filter (λ d, matches f d = true) (snd <$> map_to_list st).
Proof. apply merge_sort_Permutation. Qed.

Lemma in_store f d : d ∈ sorted_disputes lc f st → st !! id d = Some d.
Proof.
  rewrite sorted_perm, list_elem_of_filter, list_elem_of_fmap.
  intros (_ & [i d'] & -> & Hin%elem_of_map_to_list). simpl. by rewrite (Hids i d' Hin).
Qed.

Lemma sorted_NoDup f : NoDup (sorted_disputes lc f st).
Proof.
  rewrite sorted_perm. apply NoDup_filter.
  apply (NoDup_fmap_1 id). rewrite <- list_fmap_compose.
  replace ((id ∘ snd) <$> map_to_list st) with (fst <$> map_to_list st).
  { apply NoDup_fst_map_to_list. }
  apply list_fmap_ext. intros k [i d] Hk. simpl.
  apply list_elem_of_lookup_2, elem_of_map_to_list in Hk. symmetry. by apply Hids.
Qed.

Lemma sorted_strongly f : StronglySorted (sorts_before lc) (sorted_disputes lc f st).
Proof. apply Sorted_StronglySorted; [apply _|]. apply Sorted_merge_sort, _. Qed.

Lemma id_inj f a b : a ∈ sorted_disputes lc f st → b ∈ sorted_disputes lc f st →
  id a = id b → a = b.
Proof. intros Ha%in_store Hb%in_store E. rewrite E in Ha. congruence. Qed.

(** The cursor at [x] keeps exactly what sorts after [x]. *)
Lemma cursor_keeps_after f x d : x ∈ sorted_disputes lc f st → d ∈ sorted_disputes lc f st →
  x ≠ d → sorts_before lc x d → after_cursor (Some (createdAt x, id x)) d = true.
Proof.
  intros Hx Hd Hne. unfold sorts_before, compare_disputes, after_cursor.
  destruct (Z.eqb_spec (createdAt d - createdAt x) 0); simpl; intros H.
  - destruct (Z.ltb_spec (createdAt d) (createdAt x)); [done|].
    destruct (Z.eqb_spec (createdAt d) (createdAt x)); [|lia]. simpl.
    apply in_store in Hx as Hx', Hd as Hd'.
    apply lc_ids in H; [|by eapply elem_of_dom_2..].
    apply str_leb_ltb; [done|]. intros E. destruct Hne. symmetry. by eapply id_inj.
  - destruct (Z.ltb_spec (createdAt d) (createdAt x)); [done|lia].
Qed.

Lemma cursor_drops_before f x d : x ∈ sorted_disputes lc f st → d ∈ sorted_disputes lc f st →
  sorts_before lc d x → after_cursor (Some (createdAt x, id x)) d = false.
Proof.
  intros Hx Hd. unfold sorts_before, compare_disputes, after_cursor.
  destruct (Z.eqb_spec (createdAt x - createdAt d) 0); simpl; intros H.
  - destruct (Z.ltb_spec (createdAt d) (createdAt x)); [lia|].
    destruct (Z.eqb_spec (createdAt d) (createdAt x)); [|done]. simpl.
    apply in_store in Hx as Hx', Hd as Hd'.
    apply lc_ids in H; [|by eapply elem_of_dom_2..]. by apply str_leb_not_ltb.
  - destruct (Z.ltb_spec (createdAt d) (createdAt x)); [lia|].
    destruct (Z.eqb_spec (createdAt d) (createdAt x)); [lia|done].
Qed.

Lemma filter_cursor f pre x post : sorted_disputes lc f st = pre ++ x :: post →
  filter (λ d, after_cursor (Some (createdAt x, id x)) d = true) (sorted_disputes lc f st) = post.
Proof.
  intros E. pose proof (sorted_strongly f) as Hs. pose proof (sorted_NoDup f) as Hnd.
  assert (∀ d, d ∈ pre ++ x :: post → d ∈ sorted_disputes lc f st) as Hin by by rewrite E.
  rewrite E in Hs, Hnd |- *. apply StronglySorted_app in Hs as (Hpre & _ & Hs).
  apply StronglySorted_cons in Hs as [Hpost _]. rewrite Forall_forall in Hpost.
  apply NoDup_app in Hnd as (_ & _ & [Hx _]%NoDup_cons).
  rewrite filter_app, list_filter_none, filter_cons_False, list_filter_id; [done|..].
  - intros d Hd. apply (cursor_keeps_after f); try set_solver.
  - rewrite (cursor_drops_before f x x); [done|set_solver..|].
    unfold sorts_before, compare_disputes. rewrite Z.sub_diag. simpl.
    by destruct (lc_total (id x) (id x)).
  - intros d Hd. rewrite (cursor_drops_before f); [done|set_solver..].
Qed.

(** One page of a list: its first [n] items, and whether there are more. *)
Definition page (n : Z) (l : list Dispute) : ListDisputesResult :=
  {| data := take (Z.to_nat n) l; hasMore := n <? Z.of_nat (length l) |}.

Lemma page_of_slice n (l : list Dispute) : 0 ≤ n →
  let limited := js_slice l 0 (n + 1) in
  {| data := if Z.of_nat (length limited) >? n
             then take (length limited - 1) limited else limited;
     hasMore := Z.of_nat (length limited) >? n |} = page n l.
Proof.
  intros Hn limited. subst limited. rewrite js_slice_nonneg by lia.
  rewrite drop_0. unfold page. rewrite Z.gtb_ltb, length_take.
  replace (Z.to_nat (n + 1 - 0)) with (S (Z.to_nat n)) by lia.
  destruct (Z.ltb_spec n (Z.of_nat (length l))).
  - destruct (Z.ltb_spec n (Z.of_nat (S (Z.to_nat n) `min` length l))); [|lia].
    rewrite take_take. do 2 f_equal. lia.
  - destruct (Z.ltb_spec n (Z.of_nat (S (Z.to_nat n) `min` length l))); [lia|].
    by rewrite !take_ge by lia.
Qed.

Lemma listDisputes_page f n : 0 ≤ n →
  listDisputes lc f {| limit := n; cursor := None |} st = page n (sorted_disputes lc f st) ∧
  (∀ pre x post, sorted_disputes lc f st = pre ++ x :: post →
    listDisputes lc f {| limit := n; cursor := Some (createdAt x, id x) |} st = page n post).
Proof.
  intros Hn. unfold listDisputes; cbn [cursor limit]. split.
  - rewrite list_filter_id by done. by apply page_of_slice.
  - intros pre x post E. rewrite (filter_cursor f pre x post E). by apply page_of_slice.
Qed.
End Pagination.

(** Pages tile the list: the disputes of a tenant (with a status, if asked)
    are listed newest first, each exactly once; the first page is the first
    [limit] of them, the page after a dispute [x] of that list continues
    exactly behind [x], and [hasMore] says whether anything follows the page.
    So walking from cursor to cursor visits every matching dispute once, and
    none of another tenant. *)
Theorem dispute_pages_tile lc st f n :
  LocaleOrder lc (dom st) → (∀ i d, st !! i = Some d → id d = i) → 0 ≤ n →
  let full := sorted_disputes lc f st in
  NoDup full ∧ StronglySorted (sorts_before lc) full ∧
  (∀ d, d ∈ full ↔ st !! id d = Some d ∧ matches f d = true) ∧
  listDisputes lc f {| limit := n; cursor := None |} st = page n full ∧
  (∀ pre x post, full = pre ++ x :: post →
    listDisputes lc f {| limit := n; cursor := Some (createdAt x, id x) |} st = page n post).
Proof.
  intros Hlc Hids Hn full. destruct (listDisputes_page lc st Hids f n Hn) as [H1 H2].
  split_and!; [by apply sorted_NoDup|by apply sorted_strongly| |exact H1|exact H2].
  intros d. subst full. rewrite sorted_perm, list_elem_of_filter, list_elem_of_fmap.
  split.
  - intros (Hm & [i d'] & -> & Hin%elem_of_map_to_list). simpl in *.
    by rewrite (Hids i d' Hin).
  - intros [Hd Hm]. split; [done|]. exists (id d, d). by rewrite elem_of_map_to_list.
Qed.

Definition code_unit_compare (a b : string) : Z :=
  if String.leb a b then (if String.leb b a then 0 else -1) else 1.

Lemma code_unit_locale ids : LocaleOrder code_unit_compare ids.
Proof.
  assert (∀ a b, code_unit_compare a b ≤ 0 ↔ String.leb a b = true) as Hiff.
  { intros a b. unfold code_unit_compare. repeat case_test; split; done || lia. }
  split.
  - intros a b. rewrite !Hiff. apply String.leb_total.
  - intros a b c. rewrite !Hiff. apply str_leb_trans.
  - intros a b _ _. apply Hiff.
Qed.

Lemma dispute_pages_tile_witness :
  let f := {| f_tenantId := "t"; f_status := None |} in
  listDisputes code_unit_compare f {| limit := 2; cursor := None |} {["d" := dispute_ex pending]} =
    page 2 (sorted_disputes code_unit_compare f {["d" := dispute_ex pending]}).
Proof.
  intros f. apply (dispute_pages_tile code_unit_compare {["d" := dispute_ex pending]}
    f 2 (code_unit_locale _)); [|lia].
  intros i d. rewrite lookup_singleton_Some. by intros [<- <-].
Defined.
