(* ===== verification/Transaction.v ===== *)
(** * Database transactions: [TransactionManager]

    [db/transaction.ts]. A callback runs against the database of type [D]
    through a budgeted client; [withTransaction] opens a transaction, commits
    or rolls back, runs the hooks of the attempt and retries on a lock timeout
    with exponential backoff. What the database server and the clock decide is
    a parameter of the run: the SQLSTATE with which a statement fails, the time
    already spent at each query, the writes of other sessions between two
    attempts. Statements are the functions the components give. *)

From stdpp Require Import base option list strings.
From Stdlib Require Import ZArith Lia.
From S2P Require Import Prelude JsLib.

Open Scope Z_scope.

(** ** Errors and options *)

Definition PG_LOCK_TIMEOUT_CODE : string := "55P03".

Inductive LockTimeoutPolicy := READONLY | DEFAULT | CRITICAL.

Record LockTimeoutConfig := { readonly : Z; default_ms : Z; critical : Z }.

Definition FALLBACK_TIMEOUTS : LockTimeoutConfig :=
  {| readonly := 2000; default_ms := 5000; critical := 10000 |}.

Definition timeout_of (c : LockTimeoutConfig) (p : LockTimeoutPolicy) : Z :=
  match p with READONLY => readonly c | DEFAULT => default_ms c | CRITICAL => critical c end.

(** [TransactionBudgetError]: the reason with the limit and the actual value. *)
Inductive TransactionBudgetError :=
| duration_exceeded (maxDurationMs actualDurationMs : Z)
| savepoints_exceeded (maxSavepoints actualSavepoints : Z).

(** What can be thrown inside a transaction: an error of the callback, an error
    of the driver with its SQLSTATE, or the budget check. *)
Inductive db_error (X : Type) :=
| App (x : X)
| Pg (code : string)
| Budget (e : TransactionBudgetError).
Arguments App {X} x.
Arguments Pg {X} code.
Arguments Budget {X} e.

(** [(err as { code?: string }).code], for the codes that matter here. *)
Definition pgCode {X} (e : db_error X) : option string :=
  match e with Pg c => Some c | _ => None end.

Definition is_lock_timeout {X} (e : db_error X) : bool :=
  bool_decide (pgCode e = Some PG_LOCK_TIMEOUT_CODE).

(** What [withTransaction] throws. *)
Inductive tx_error (X : Type) :=
| Thrown (e : db_error X)
| LockTimeoutError (policy : option LockTimeoutPolicy) (timeoutMs : Z).
Arguments Thrown {X} e.
Arguments LockTimeoutError {X} policy timeoutMs.

Record TransactionOptions := {
  policy : option LockTimeoutPolicy;
  timeoutMs : option Z;
  retryOnLockTimeout : bool;
  maxRetries : Z;
  retryDelayMs : Z;
  maxDurationMs : Z;
  maxSavepoints : Z
}.

Definition DEFAULT_MAX_DURATION_MS : Z := 2000.
Definition DEFAULT_MAX_SAVEPOINTS : Z := 8.

(** [options = {}]. *)
Definition default_options : TransactionOptions :=
  {| policy := None; timeoutMs := None; retryOnLockTimeout := false; maxRetries := 3;
     retryDelayMs := 100; maxDurationMs := DEFAULT_MAX_DURATION_MS;
     maxSavepoints := DEFAULT_MAX_SAVEPOINTS |}.

Definition effectiveTimeoutMs (timeouts : LockTimeoutConfig) (o : TransactionOptions) : Z :=
  match timeoutMs o with
  | Some t => t
  | None => match policy o with Some p => timeout_of timeouts p | None => default_ms timeouts end
  end.

(** ** The callback: statements through the budgeted client *)

(** What the environment decides during one attempt: the time spent when the
    n-th query starts, and the SQLSTATE it fails with, if any. *)
Record query_env := { elapsed : nat → Z; fault : nat → option string }.

(** A callback in progress: queries so far, savepoints so far, the database as
    the transaction sees it, the hooks registered. *)
Record tx_state (D : Type) := {
  queries : nat;
  savepointCount : Z;
  data : D;
  postCommitHooks : list string;
  rollbackHooks : list string
}.
Arguments queries {D}. Arguments savepointCount {D}. Arguments data {D}.
Arguments postCommitHooks {D}. Arguments rollbackHooks {D}.

Definition txm (D X A : Type) : Type :=
  TransactionOptions → query_env → tx_state D → result (db_error X) A * tx_state D.

#[export] Instance txm_ret D X : MRet (txm D X) := λ A a o env s, (Ok a, s).
#[export] Instance txm_bind D X : MBind (txm D X) := λ A B f m o env s,
  match m o env s with
  | (Ok a, s') => f a o env s'
  | (Err e, s') => (Err e, s')
  end.

Definition tx_throw {D X A} (x : X) : txm D X A := λ o env s, (Err (App x), s).

(** [sql.trim().toUpperCase().startsWith('SAVEPOINT')]; only the letters of
    ASCII matter for the prefix. *)
Definition is_savepoint (sql : string) : bool :=
  String.prefix "SAVEPOINT" (toUpperCase (trim sql)).

(** The wrapped [query]: the duration check, the savepoint count and its check,
    then the statement, which may fail. *)
Definition wrappedQuery {D X A} (sql : string) (stmt : D → result string (A * D)) : txm D X A :=
  λ o env s,
  let t := elapsed env (queries s) in
  if t >? maxDurationMs o then (Err (Budget (duration_exceeded (maxDurationMs o) t)), s) else
  let count := if is_savepoint sql then savepointCount s + 1 else savepointCount s in
  let s1 := {| queries := S (queries s); savepointCount := count; data := data s;
               postCommitHooks := postCommitHooks s; rollbackHooks := rollbackHooks s |} in
  if is_savepoint sql && (count >? maxSavepoints o)
  then (Err (Budget (savepoints_exceeded (maxSavepoints o) count)), s1) else
  match fault env (queries s) with
  | Some c => (Err (Pg c), s1)
  | None =>
      match stmt (data s) with
      | Err c => (Err (Pg c), s1)
      | Ok (a, d) => (Ok a, {| queries := S (queries s); savepointCount := count; data := d;
          postCommitHooks := postCommitHooks s; rollbackHooks := rollbackHooks s |})
      end
  end.

(** [runPostCommit] and [runRollback] inside a transaction: register a hook. *)
Definition runPostCommit {D X} (hook : string) : txm D X () := λ o env s,
  (Ok (), {| queries := queries s; savepointCount := savepointCount s; data := data s;
     postCommitHooks := postCommitHooks s ++ [hook]; rollbackHooks := rollbackHooks s |}).
Definition runRollback {D X} (hook : string) : txm D X () := λ o env s,
  (Ok (), {| queries := queries s; savepointCount := savepointCount s; data := data s;
     postCommitHooks := postCommitHooks s; rollbackHooks := rollbackHooks s ++ [hook] |}).

(** ** [withTransaction] *)

(** A call inside a transaction: the callback runs on the active client, within
    the budget and the context of the outer one; its own options are not read. *)
Definition joinTransaction {D X A} (fn : txm D X A) (inner : TransactionOptions) : txm D X A := fn.

(** How a [COMMIT] went: acknowledged; refused by the server, with a SQLSTATE and
    nothing committed; or carried out while the connection broke before the
    acknowledgement arrived, which the driver reports as an error. *)
Inductive commit_outcome := Acknowledged | Refused (code : string) | AnswerLost.

(** The [code] of the error of a broken connection. *)
Definition CONNECTION_LOST : string := "ECONNRESET".

(** Per attempt: whether connecting or [BEGIN] (with the settings after it)
    fails, how [COMMIT] goes, the environment of the callback, and what other
    sessions committed before the attempt took its snapshot. *)
Record tx_env (D : Type) := {
  connect_err : nat → option string;
  begin_err : nat → option string;
  commit_outcome_of : nat → commit_outcome;
  during : nat → query_env;
  others : nat → D → D
}.
Arguments connect_err {D}. Arguments begin_err {D}. Arguments commit_outcome_of {D}.
Arguments during {D}. Arguments others {D}.

(** The outcome: the value or error, the committed database, the hooks run in
    order, the delays slept. *)
Record tx_run (D X A : Type) := {
  out : result (tx_error X) A;
  committed : D;
  hooks_run : list string;
  delays : list Z
}.
Arguments out {D X A}. Arguments committed {D X A}. Arguments hooks_run {D X A}.
Arguments delays {D X A}.

Section WithTransaction.
Context {D X A : Type}.
Variable timeouts : LockTimeoutConfig.
Variable fn : txm D X A.
Variable o : TransactionOptions.
Variable env : tx_env D.

Definition fresh (d : D) : tx_state D :=
  {| queries := 0; savepointCount := 0; data := d; postCommitHooks := []; rollbackHooks := [] |}.

(** [BEGIN], the callback and [COMMIT] of attempt [n] on the database [d]: what
    the [try] block gives or throws, the callback's state, and the database after
    the [ROLLBACK] that follows an error, which undoes nothing once [COMMIT] was
    carried out. *)
Definition attempt (n : nat) (d : D) : result (db_error X) A * tx_state D * D :=
  match begin_err env n with
  | Some c => (Err (Pg c), fresh d, d)
  | None =>
      match fn o (during env n) (fresh d) with
      | (Ok a, s) => match commit_outcome_of env n with
                     | Acknowledged => (Ok a, s, data s)
                     | Refused c => (Err (Pg c), s, d)
                     | AnswerLost => (Err (Pg CONNECTION_LOST), s, data s)
                     end
      | (Err e, s) => (Err e, s, d)
      end
  end.

(** The [while (true)] loop. Hook failures are swallowed, so every hook of the
    list runs. [None] is running out of fuel. *)
Fixpoint tx_loop (fuel attempts : nat) (d : D) (log : list string) (slept : list Z)
  : option (tx_run D X A) :=
  match fuel with
  | O => None
  | S fuel' =>
      let d0 := others env attempts d in
      match connect_err env attempts with
      | Some c => Some {| out := Err (Thrown (Pg c)); committed := d0; hooks_run := log;
                          delays := slept |}
      | None =>
          match attempt attempts d0 with
          | (Ok a, s, d1) => Some {| out := Ok a; committed := d1;
                                     hooks_run := log ++ postCommitHooks s; delays := slept |}
          | (Err e, s, d1) =>
              let log' := log ++ rollbackHooks s in
              if is_lock_timeout e then
                if retryOnLockTimeout o && (Z.of_nat attempts <? maxRetries o)
                then tx_loop fuel' (S attempts) d1 log'
                       (slept ++ [retryDelayMs o * 2 ^ Z.of_nat attempts])
                else Some {| out := Err (LockTimeoutError (policy o) (effectiveTimeoutMs timeouts o));
                             committed := d1; hooks_run := log'; delays := slept |}
              else Some {| out := Err (Thrown e); committed := d1; hooks_run := log';
                           delays := slept |}
          end
      end
  end.

(** Called outside a transaction. (Inside one, the callback runs on the active
    client as a part of the outer callback.) *)
Definition withTransaction (d : D) : option (tx_run D X A) :=
  tx_loop (S (Z.to_nat (maxRetries o))) 0 d [] [].

(** ** Atomicity *)

(** The database attempt [n] starts from, with no write of this transaction. *)
Fixpoint world (d : D) (n : nat) : D :=
  others env n (match n with O => d | S m => world d m end).

Definition try_at (d : D) (n : nat) : result (db_error X) A * tx_state D :=
  (attempt n (world d n)).1.

(** The [COMMIT] of attempt [n] was carried out and its acknowledgement lost. *)
Definition answer_lost (d : D) (n : nat) : Prop :=
  connect_err env n = None ∧ begin_err env n = None ∧ commit_outcome_of env n = AnswerLost ∧
  ∃ a s, fn o (during env n) (fresh (world d n)) = (Ok a, s).

(** Attempt [n] connected and failed with the lock timeout. *)
Definition timed_out (d : D) (n : nat) : Prop :=
  connect_err env n = None ∧ ∃ e s, try_at d n = (Err e, s) ∧ is_lock_timeout e = true.

(** The rollback hooks of the attempts before [n], and the delays after them. *)
Definition rolled_back (d : D) (n : nat) : list string :=
  mjoin ((λ i, rollbackHooks (try_at d i).2) <$> seq 0 n).
Definition backoff (n : nat) : list Z :=
  (λ i, retryDelayMs o * 2 ^ Z.of_nat i) <$> seq 0 n.

(** The run ended in attempt [k] with [r]. *)
Definition ends_at (d : D) (k : nat) (r : tx_run D X A) : Prop :=
  Z.of_nat k ≤ Z.max 0 (maxRetries o) ∧
  (∀ i, (i < k)%nat → timed_out d i) ∧ delays r = backoff k ∧
  match out r with
  | Ok a => connect_err env k = None ∧ ∃ s, try_at d k = (Ok a, s) ∧
      committed r = data s ∧ hooks_run r = rolled_back d k ++ postCommitHooks s
  | Err (Thrown e) =>
      (committed r = world d k ∧ ∃ c, connect_err env k = Some c ∧ e = Pg c ∧ hooks_run r = rolled_back d k) ∨
      (connect_err env k = None ∧ (try_at d k).1 = Err e ∧ is_lock_timeout e = false ∧
       hooks_run r = rolled_back d (S k) ∧
       (committed r = world d k ∧ ¬ answer_lost d k ∨
        committed r = data (try_at d k).2 ∧ answer_lost d k ∧ e = Pg CONNECTION_LOST))
  | Err (LockTimeoutError p t) => committed r = world d k ∧
      p = policy o ∧ t = effectiveTimeoutMs timeouts o ∧ timed_out d k ∧
      (retryOnLockTimeout o = true → maxRetries o ≤ Z.of_nat k) ∧
      hooks_run r = rolled_back d (S k)
  end.

Lemma rolled_back_S d n : rolled_back d (S n) = rolled_back d n ++ rollbackHooks (try_at d n).2.
Proof.
  unfold rolled_back. rewrite seq_S, fmap_app. simpl.
  induction ((λ i, rollbackHooks (try_at d i).2) <$> seq 0 n) as [|x l IH]; simpl.
  - by rewrite app_nil_r.
  - by rewrite IH, app_assoc.
Qed.

Lemma backoff_S n : backoff (S n) = backoff n ++ [retryDelayMs o * 2 ^ Z.of_nat n].
Proof. unfold backoff. by rewrite seq_S, fmap_app. Qed.

Lemma attempt_value n x a s d1 : attempt n x = (Ok a, s, d1) → d1 = data s.
Proof. unfold attempt. repeat case_match; intros; by simplify_eq. Qed.

(** Nothing of an attempt that fails is kept, unless its [COMMIT] was carried out. *)
Lemma attempt_undone n x e s d1 : attempt n x = (Err e, s, d1) → e ≠ Pg CONNECTION_LOST → d1 = x.
Proof. unfold attempt. repeat case_match; intros; by simplify_eq. Qed.

Lemma attempt_thrown n d e s d1 : connect_err env n = None → attempt n (world d n) = (Err e, s, d1) →
  d1 = world d n ∧ ¬ answer_lost d n ∨ d1 = data s ∧ answer_lost d n ∧ e = Pg CONNECTION_LOST.
Proof.
  intros Hc. unfold attempt, answer_lost. destruct (begin_err env n) eqn:Eb; [intros; simplify_eq; left; naive_solver|].
  destruct (fn _ _ _) as [[a|x] y] eqn:Ef; [|intros; simplify_eq; left; naive_solver].
  destruct (commit_outcome_of env n) eqn:Eo; intros; simplify_eq; [left; naive_solver|right; naive_solver].
Qed.

Lemma tx_loop_ends fuel n d d' :
  maxRetries o < Z.of_nat (n + fuel) → (0 < fuel)%nat →
  Z.of_nat n ≤ Z.max 0 (maxRetries o) →
  others env n d' = world d n → (∀ i, (i < n)%nat → timed_out d i) →
  ∃ k r, tx_loop fuel n d' (rolled_back d n) (backoff n) = Some r ∧ ends_at d k r.
Proof.
  revert n d'. induction fuel as [|fuel IH]; intros n d' Hf Hpos Hn Hd Hto; [lia|].
  simpl. rewrite Hd.
  destruct (connect_err env n) as [c|] eqn:Ec.
  { exists n. eexists. split; [done|]. unfold ends_at; simpl. split_and!; [done..|]. left. eauto. }
  destruct (attempt n (world d n)) as [[[a|e] s] d1] eqn:Ea.
  { exists n. eexists. split; [done|]. unfold ends_at, try_at; simpl. rewrite Ea. split_and!; [done..|].
    exists s. split_and!; [done| |done]. by eapply attempt_value. }
  destruct (is_lock_timeout e) eqn:El.
  - assert (timed_out d n) as Hn' by (split; [done|]; exists e, s; unfold try_at; by rewrite Ea).
    assert (d1 = world d n) as -> by (eapply attempt_undone; [exact Ea|]; intros ->; done).
    destruct (retryOnLockTimeout o) eqn:Er, (Z.ltb_spec (Z.of_nat n) (maxRetries o)); simpl.
    1: { destruct (IH (S n) (world d n)) as (k & r & Hr & Hk); try lia; [done|..].
         - intros i Hi. destruct (decide (i = n)) as [->|]; [done|]. apply Hto. lia.
         - exists k, r. split; [|exact Hk]. rewrite <- Hr, backoff_S, rolled_back_S.
           unfold try_at. by rewrite Ea. }
    all: exists n; eexists; split; [done|]; unfold ends_at; simpl; split_and!; try done; try lia;
      try (intros; congruence);
      rewrite rolled_back_S; unfold try_at; by rewrite Ea.
  - exists n. eexists. split; [done|]. unfold ends_at; simpl. split_and!; try done. right.
    rewrite rolled_back_S. unfold try_at. rewrite Ea. split_and!; try done. by eapply attempt_thrown.
Qed.

Lemma withTransaction_ends d : ∃ k r, withTransaction d = Some r ∧ ends_at d k r.
Proof.
  unfold withTransaction. destruct (tx_loop_ends (S (Z.to_nat (maxRetries o))) 0 d d)
    as (k & r & Hr & Hk); [lia|lia|lia|done|intros; lia|]. by exists k, r.
Qed.

(** C3. A transaction is all or nothing, whatever fails: [withTransaction]
    always ends; if it returns a value, then the database is exactly what one
    successful run of the callback wrote, and the post-commit hooks of that run
    were run once, after the rollback hooks of the failed attempts; if it
    throws, no post-commit hook ran and no write of any attempt survives, with
    one exception: when the server carried out the [COMMIT] and the connection
    broke before its acknowledgement, then exactly the writes of that one run
    survive, while its rollback hooks ran and the error of the connection is
    thrown. It makes at most [maxRetries] retries, only after lock timeouts, with
    the delays doubled each time, and throws [LockTimeoutError] only when the
    attempts are used up. *)
Theorem transaction_atomic d : ∃ k r, withTransaction d = Some r ∧ ends_at d k r.
Proof. apply withTransaction_ends. Qed.

(** ** Consequences for the callers *)

(** An invariant that the other sessions respect and that a callback which
    returns re-establishes holds after the transaction, whatever fails. *)
Lemma tx_preserves (P : D → Prop) d r :
  P d → (∀ n x, P x → P (others env n x)) →
  (∀ q x a s, P x → fn o q (fresh x) = (Ok a, s) → P (data s)) →
  withTransaction d = Some r → P (committed r).
Proof.
  intros Hd Hrely Hfn Hr. destruct (withTransaction_ends d) as (k & r' & Hr' & _ & _ & _ & Hk).
  rewrite Hr in Hr'. injection Hr' as <-.
  assert (∀ n, P (world d n)) as Hw by (intros n; induction n; simpl; auto).
  destruct (out r) as [a|[e|p t]].
  - destruct Hk as (_ & s & Hs & -> & _). unfold try_at, attempt in Hs.
    destruct (begin_err env k); [by simplify_eq|].
    destruct (fn o (during env k) (fresh (world d k))) as [[a'|e] s'] eqn:Hf; [|by simplify_eq].
    destruct (commit_outcome_of env k); simplify_eq/=; eauto.
  - destruct Hk as [[-> _]|(_ & _ & _ & _ & [[-> _]|[-> [(_ & Hb & Hc & a & s & Hf) _]]])]; [apply Hw..|].
    unfold try_at, attempt. rewrite Hb, Hf, Hc. simpl. eauto.
  - destruct Hk as [-> _]. apply Hw.
Qed.

(** Nothing fails, nobody interferes and time stays within the budget. *)
Record quiet : Prop := {
  quiet_connect n : connect_err env n = None;
  quiet_begin n : begin_err env n = None;
  quiet_commit n : commit_outcome_of env n = Acknowledged;
  quiet_fault n k : fault (during env n) k = None;
  quiet_elapsed n k : elapsed (during env n) k ≤ maxDurationMs o;
  quiet_others n d : others env n d = d
}.

Lemma quiet_returns d a s : quiet →
  fn o (during env 0%nat) (fresh d) = (Ok a, s) →
  ∃ r, withTransaction d = Some r ∧ out r = Ok a ∧ committed r = data s.
Proof.
  intros Hq Hf. eexists. unfold withTransaction; simpl. unfold attempt.
  rewrite !(quiet_others Hq), (quiet_connect Hq), (quiet_begin Hq), Hf, (quiet_commit Hq). done.
Qed.

Lemma quiet_throws d x s : quiet →
  fn o (during env 0%nat) (fresh d) = (Err (App x), s) →
  ∃ r, withTransaction d = Some r ∧ out r = Err (Thrown (App x)) ∧ committed r = d.
Proof.
  intros Hq Hf. eexists. unfold withTransaction; simpl. unfold attempt.
  rewrite !(quiet_others Hq), (quiet_connect Hq), (quiet_begin Hq), Hf. done.
Qed.
End WithTransaction.

(** A statement that succeeds runs, in a quiet environment. *)
Lemma wrappedQuery_quiet {D X A} sql (stmt : D → result string (A * D)) o env s a d :
  is_savepoint sql = false → (∀ k, fault env k = None) → (∀ k, elapsed env k ≤ maxDurationMs o) →
  stmt (data s) = Ok (a, d) →
  ∃ s', wrappedQuery (X:=X) sql stmt o env s = (Ok a, s') ∧ data s' = d.
Proof.
  intros Hs Hf He Hd. unfold wrappedQuery. rewrite Hs, Hf, Hd, Z.gtb_ltb. simpl.
  destruct (Z.ltb_spec (maxDurationMs o) (elapsed env (queries s))) as [Hlt|_].
  { specialize (He (queries s)). lia. }
  by eexists.
Qed.

(** ** A lost acknowledgement *)

Module TransactionExample.
(** A callback that writes 1 over 0 and registers a hook of each kind. *)
Definition writes_one : txm Z string () :=
  runPostCommit "publish" ≫= λ _, runRollback "compensate" ≫= λ _,
  wrappedQuery "UPDATE t SET x = 1" (λ _, Ok ((), 1)).

Definition env_with (o : commit_outcome) : tx_env Z :=
  {| connect_err := λ _, None; begin_err := λ _, None; commit_outcome_of := λ _, o;
     during := λ _, {| elapsed := λ _, 0; fault := λ _, None |}; others := λ _ d, d |}.

(** The rollback hooks of a transaction that is committed are run. *)
Example compensated_though_committed :
  withTransaction FALLBACK_TIMEOUTS writes_one default_options (env_with AnswerLost) 0 =
    Some {| out := Err (Thrown (Pg CONNECTION_LOST)); committed := 1; hooks_run := ["compensate"]; delays := [] |} ∧
  withTransaction FALLBACK_TIMEOUTS writes_one default_options (env_with Acknowledged) 0 =
    Some {| out := Ok (); committed := 1; hooks_run := ["publish"]; delays := [] |}.
Proof. vm_compute. done. Qed.
End TransactionExample.
