(* ===== verification/Wallets.v ===== *)
(** * Wallets: [WalletsRepository] and its ledger

    [db/repositories/walletsRepository.ts] and [walletTransactionsRepository.ts]
    on the tables of [db/schema.ts]. A balance is a [NUMERIC(36, 18)] column:
    an integer number of units of 10^-18, read back as a string with eighteen
    fraction digits. Each SQL statement is a function on the two tables;
    [credit] and [debit] run theirs through [withTransaction] of Transaction.v
    and check amounts with the decimal functions of DecimalMath.v. How the
    server reads a numeric literal is the parameter [numeric_in]. *)

From stdpp Require Import base option list strings gmap relations.
From Stdlib Require Import ZArith QArith Lia.
From S2P Require Import Prelude JsLib DecimalMath Transaction.

Open Scope Z_scope.

(** ** Data *)

Definition BALANCE_PRECISION : Z := 36.
Definition BALANCE_SCALE : Z := 18.

(** A row of [wallets]; [row_balance] counts units of 10^-18. *)
Record WalletRow := {
  row_address : string;
  row_balance : Z;
  row_currency : string;
  row_created_at : Z;
  row_updated_at : Z
}.

Record Wallet := {
  id : string;
  address : string;
  balance : string;
  currency : string;
  createdAt : Z;
  updatedAt : Z
}.

Inductive movement := credit_tx | debit_tx.

#[export] Instance movement_eq_dec : EqDecision movement.
Proof. solve_decision. Defined.

Record WalletTransaction := {
  tx_id : string;
  walletId : string;
  type : movement;
  amount : string;
  previousBalance : string;
  newBalance : string;
  tx_createdAt : Z
}.

(** The two tables; the ledger in the order of its inserts. *)
Record wallet_db := { wallets : gmap string WalletRow; ledger : list WalletTransaction }.

Record CreateWalletInput := {
  in_address : string;
  initialBalance : option string;
  in_currency : option string
}.

Record DebitResult := {
  wallet : Wallet;
  res_previousBalance : string;
  res_newBalance : string;
  debitedAmount : string
}.

Inductive wallet_error :=
| InvalidCreditAmount (amount : string)
| InvalidDebitAmount (amount : string)
| AmountScaleError (amount : string) (maxScale : Z)
| AmountOverflowError (amount : string) (precision scale : Z)
| InsufficientBalanceError (walletId available requested : string)
| WalletAlreadyExistsError (address : string)
| WalletNotFound (walletId : string)
| RequiresPool
| NoRowReturned
| DecimalError (e : decimal_error).

(** ** The column *)

(** How the server prints a balance. *)
Definition numeric_out (b : Z) : string := formatScaledInt b BALANCE_SCALE.

(** Assigning [n * 10^-s] to the column: rounded to its scale, half away from
    zero; [22003] out of range, [23514] when the CHECK fails. *)
Definition numeric_store (n s : Z) : result string Z :=
  let r := if s <=? BALANCE_SCALE then n * 10 ^ (BALANCE_SCALE - s)
           else let d := 10 ^ (s - BALANCE_SCALE) in
                Z.sgn n * applyDivisionRounding (Z.quot (Z.abs n) d) (Z.rem (Z.abs n) d) d HALF_UP in
  if 10 ^ BALANCE_PRECISION <=? Z.abs r then Err "22003"
  else if r <? 0 then Err "23514" else Ok r.

(** [balance + sign * n * 10^-s], assigned to the column. *)
Definition numeric_add (b sign n s : Z) : result string Z :=
  let s' := Z.max BALANCE_SCALE s in
  numeric_store (b * 10 ^ (s' - BALANCE_SCALE) + sign * n * 10 ^ (s' - s)) s'.

(** How the server reads a numeric literal: digits and scale. *)
Class NumericInput (numeric_in : string → option (Z * Z)) : Prop := {
  (** it never reads a plain decimal as another number, *)
  numeric_in_sound v p n s : parseDecimalString v = Ok p → numeric_in v = Some (n, s) →
    n = pd_num p ∧ s = pd_scale p;
  (** and it reads every plain decimal in ASCII. *)
  numeric_in_ascii v p : parseDecimalString v = Ok p →
    str_forallb (λ c, code c <? 128) v = true → is_Some (numeric_in v)
}.

Definition mapWallet (i : string) (row : WalletRow) : Wallet :=
  {| id := i; address := row_address row; balance := numeric_out (row_balance row);
     currency := row_currency row; createdAt := row_created_at row;
     updatedAt := row_updated_at row |}.

(** [assertValidWalletAmount]: the bounds check with its errors translated. *)
Definition assertValidWalletAmount (amt : string) : result wallet_error () :=
  try_catch (assertWithinNumericBounds amt BALANCE_PRECISION BALANCE_SCALE) (λ e,
    match e with
    | DecimalScaleError _ _ _ => Err (AmountScaleError amt BALANCE_SCALE)
    | DecimalOverflowError _ _ _ =>
        Err (AmountOverflowError amt BALANCE_PRECISION BALANCE_SCALE)
    | _ => Err (DecimalError e)
    end).

Definition lift_app {D A} (m : result wallet_error A) : txm D wallet_error A :=
  match m with Ok a => mret a | Err e => tx_throw e end.
Definition lift_decimal {D A} (m : result decimal_error A) : txm D wallet_error A :=
  match m with Ok a => mret a | Err e => tx_throw (DecimalError e) end.

Section Repository.
Variable numeric_in : string → option (Z * Z).

(** ** Statements *)

(** [SELECT ... WHERE id = $1 FOR UPDATE]. *)
Definition select_for_update (i : string) (d : wallet_db)
  : result string (option WalletRow * wallet_db) := Ok (wallets d !! i, d).

(** [UPDATE wallets SET balance = balance +/- $2::NUMERIC, updated_at = NOW()]. *)
Definition update_balance (sign : Z) (i amt : string) (now : Z) (d : wallet_db)
  : result string (option WalletRow * wallet_db) :=
  match wallets d !! i with
  | None => Ok (None, d)
  | Some row =>
      match numeric_in amt with
      | None => Err "22P02"
      | Some (n, s) =>
          b ← numeric_add (row_balance row) sign n s;
          let row' := {| row_address := row_address row; row_balance := b;
                         row_currency := row_currency row;
                         row_created_at := row_created_at row; row_updated_at := now |} in
          Ok (Some row', {| wallets := <[i := row']> (wallets d); ledger := ledger d |})
      end
  end.

(** [INSERT INTO wallet_transactions]; [23503] without the wallet. *)
Definition insert_transaction (t : WalletTransaction) (d : wallet_db)
  : result string (WalletTransaction * wallet_db) :=
  match wallets d !! walletId t with
  | None => Err "23503"
  | Some _ => Ok (t, {| wallets := wallets d; ledger := ledger d ++ [t] |})
  end.

(** [WalletTransactionsRepository.record]; the id and time are the server's. *)
Definition record (uuid : string) (now : Z) (i : string) (ty : movement)
    (amt prev new : string) : txm wallet_db wallet_error WalletTransaction :=
  wrappedQuery "INSERT INTO wallet_transactions"
    (insert_transaction {| tx_id := uuid; walletId := i; type := ty; amount := amt;
       previousBalance := prev; newBalance := new; tx_createdAt := now |}).

(** ** Operations *)

(** [INSERT INTO wallets], with [23505] turned into the typed error. *)
Definition create (uuid : string) (now : Z) (input : CreateWalletInput) (d : wallet_db)
  : wallet_db * result (db_error wallet_error) Wallet :=
  match numeric_in (default "0" (initialBalance input)) with
  | None => (d, Err (Pg "22P02"))
  | Some (n, s) =>
      match numeric_store n s with
      | Err c => (d, Err (Pg c))
      | Ok b =>
          if isSome (wallets d !! uuid) ||
             existsb (λ e, String.eqb (row_address e.2) (in_address input)) (map_to_list (wallets d))
          then (d, Err (App (WalletAlreadyExistsError (in_address input))))
          else let row := {| row_address := in_address input; row_balance := b;
                             row_currency := default "USD" (in_currency input);
                             row_created_at := now; row_updated_at := now |} in
               ({| wallets := <[uuid := row]> (wallets d); ledger := ledger d |},
                Ok (mapWallet uuid row))
      end
  end.

Definition findById (i : string) (d : wallet_db) : option Wallet :=
  mapWallet i <$> wallets d !! i.

(** The address is unique. *)
Definition findByAddress (a : string) (d : wallet_db) : option Wallet :=
  (λ e, mapWallet e.1 e.2) <$>
    head (filter (λ e, row_address e.2 = a) (map_to_list (wallets d))).

Definition getCountByWalletId (i : string) (d : wallet_db) : Z :=
  Z.of_nat (length (filter (λ t, walletId t = i) (ledger d))).

(** [DELETE], cascading to the ledger. *)
Definition delete_wallet (i : string) (d : wallet_db) : wallet_db * bool :=
  ({| wallets := delete i (wallets d);
      ledger := filter (λ t, walletId t ≠ i) (ledger d) |},
   isSome (wallets d !! i)).

(** The callback of [credit]. *)
Definition credit_body (uuid : string) (now : Z) (i amt : string)
  : txm wallet_db wallet_error Wallet :=
  lock ← wrappedQuery "SELECT" (select_for_update i);
  match lock with
  | None => tx_throw (WalletNotFound i)
  | Some row =>
      let prev := numeric_out (row_balance row) in
      projected ← lift_decimal (addDecimals prev amt);
      _ ← lift_app (assertValidWalletAmount projected);
      upd ← wrappedQuery "UPDATE wallets" (update_balance 1 i amt now);
      match upd with
      | None => tx_throw NoRowReturned
      | Some row' =>
          let w := mapWallet i row' in
          _ ← record uuid now i credit_tx amt prev (balance w);
          mret w
      end
  end.

(** The callback of [debit]. *)
Definition debit_body (uuid : string) (now : Z) (i amt : string)
  : txm wallet_db wallet_error DebitResult :=
  lock ← wrappedQuery "SELECT" (select_for_update i);
  match lock with
  | None => tx_throw (WalletNotFound i)
  | Some row =>
      let current := mapWallet i row in
      c ← lift_decimal (compareDecimals amt (balance current));
      if (c : Z) >? 0 then tx_throw (InsufficientBalanceError i (balance current) amt) else
      upd ← wrappedQuery "UPDATE wallets" (update_balance (-1) i amt now);
      match upd with
      | None => tx_throw NoRowReturned
      | Some row' =>
          let w := mapWallet i row' in
          _ ← record uuid now i debit_tx amt (balance current) (balance w);
          mret {| wallet := w; res_previousBalance := balance current;
                  res_newBalance := balance w; debitedAmount := amt |}
      end
  end.

(** The options both pass to [withTransaction]. *)
Definition wallet_options : TransactionOptions :=
  {| policy := Some DEFAULT; timeoutMs := None; retryOnLockTimeout := true; maxRetries := 2;
     retryDelayMs := 100; maxDurationMs := DEFAULT_MAX_DURATION_MS;
     maxSavepoints := DEFAULT_MAX_SAVEPOINTS |}.

(** An operation that throws before it opens a transaction. *)
Definition refused {A} (e : wallet_error) (d : wallet_db) : tx_run wallet_db wallet_error A :=
  {| out := Err (Thrown (App e)); committed := d; hooks_run := []; delays := [] |}.

Definition guarded {A} (invalid : wallet_error) (amt : string)
    (body : txm wallet_db wallet_error A) (timeouts : LockTimeoutConfig)
    (env : tx_env wallet_db) (d : wallet_db) : option (tx_run wallet_db wallet_error A) :=
  if negb (isValidPositiveDecimal amt) then Some (refused invalid d) else
  match assertValidWalletAmount amt with
  | Err e => Some (refused e d)
  | Ok _ => withTransaction timeouts body wallet_options env d
  end.

(** [pool]: the repository was built with a pool, so it has a transaction
    manager. *)
Definition credit (pool : bool) (uuid : string) (now : Z) (i amt : string)
    (timeouts : LockTimeoutConfig) (env : tx_env wallet_db) (d : wallet_db)
  : option (tx_run wallet_db wallet_error Wallet) :=
  if negb pool then Some (refused RequiresPool d) else
  guarded (InvalidCreditAmount amt) amt (credit_body uuid now i amt) timeouts env d.

Definition debit (pool : bool) (uuid : string) (now : Z) (i amt : string)
    (timeouts : LockTimeoutConfig) (env : tx_env wallet_db) (d : wallet_db)
  : option (tx_run wallet_db wallet_error DebitResult) :=
  if negb pool then Some (refused RequiresPool d) else
  guarded (InvalidDebitAmount amt) amt (debit_body uuid now i amt) timeouts env d.
End Repository.

(** ** Amounts as integers *)

(** The units a decimal string denotes, when it fits the column's scale. *)
Definition units (v : string) : option Z :=
  match parseDecimalString v with
  | Ok p => if pd_scale p <=? BALANCE_SCALE
            then Some (pd_num p * 10 ^ (BALANCE_SCALE - pd_scale p)) else None
  | Err _ => None
  end.

Definition MAX_UNITS : Z := 10 ^ 36.

Lemma units_inv v u : units v = Some u → ∃ p, parseDecimalString v = Ok p ∧
  pd_scale p ≤ 18 ∧ u = pd_num p * 10 ^ (18 - pd_scale p) ∧
  (pd_value p == inject_Z u / inject_Z (10 ^ 18))%Q.
Proof.
  unfold units, BALANCE_SCALE. intros H.
  destruct (parseDecimalString v) as [p|] eqn:Hp; [|done].
  destruct (Z.leb_spec (pd_scale p) 18); [|done]. injection H as <-.
  exists p. split_and!; try done. by apply pd_value_rescale.
Qed.

Lemma Q_units_inj x y :
  (inject_Z x / inject_Z (10 ^ 18) == inject_Z y / inject_Z (10 ^ 18))%Q → x = y.
Proof.
  intros H. apply Qeq_alt in H. rewrite Qdiv_pow10_compare in H by lia.
  by apply Z.compare_eq.
Qed.

(** A decimal whose value is [u] units denotes [u]. *)
Lemma units_of_decimal v u s : s ≤ 18 →
  is_decimal v (inject_Z u / inject_Z (10 ^ 18)) s → units v = Some u.
Proof.
  intros Hs (p & Hp & Hv & Hsc). unfold units, BALANCE_SCALE. rewrite Hp, Hsc.
  destruct (Z.leb_spec s 18); [|lia]. f_equal. rewrite <- Hsc. apply Q_units_inj.
  rewrite <- Hv. symmetry. apply pd_value_rescale. lia.
Qed.

Lemma units_out b : 0 ≤ b → units (numeric_out b) = Some b.
Proof.
  intros. apply units_of_decimal with (s := 18); [lia|]. by apply format_decimal_pos.
Qed.

Lemma compare_units a b x y : units a = Some x → units b = Some y →
  ∃ c, compareDecimals a b = Ok c ∧ (c >? 0) = (y <? x).
Proof.
  intros (pa & Ha & _ & _ & Va)%units_inv (pb & Hb & _ & _ & Vb)%units_inv.
  pose proof (compare_correct a b) as H. rewrite Ha, Hb in H. eexists. split; [exact H|].
  rewrite Va, Vb, Qdiv_pow10_compare by lia.
  destruct (Z.compare_spec x y), (Z.ltb_spec y x); try lia; done.
Qed.

Lemma add_units a b x y : units a = Some x → units b = Some y →
  ∃ r, addDecimals a b = Ok r ∧ units r = Some (x + y).
Proof.
  intros (pa & Ha & Sa & _ & Va)%units_inv (pb & Hb & Sb & _ & Vb)%units_inv.
  pose proof (add_exact a b) as H. rewrite Ha, Hb in H. destruct H as (r & Hr & p & Hp & Hv & Hs).
  exists r. split; [done|]. apply units_of_decimal with (s := Z.max (pd_scale pa) (pd_scale pb)); [lia|].
  exists p. split_and!; [done| |done]. rewrite Hv, Va, Vb. apply Qdiv_pow10_plus. lia.
Qed.

Lemma positive_units v u : units v = Some u → isValidPositiveDecimal v = true ↔ 0 < u.
Proof.
  intros (p & Hp & _ & _ & Hv)%units_inv. rewrite isValidPositiveDecimal_spec.
  assert ((∃ p, parseDecimalString v = Ok p ∧ (0 < pd_value p)%Q) ↔ (0 < pd_value p)%Q) as ->.
  { rewrite Hp. split; [|by exists p]. intros (q & [= <-] & Hq). done. }
  rewrite Hv.
  unfold Qlt, Qdiv, Qmult, Qinv, inject_Z; simpl. lia.
Qed.

(** The amount check accepts exactly the amounts the column can hold. *)
Lemma valid_amount_units v :
  assertValidWalletAmount v = Ok () ↔ ∃ u, units v = Some u ∧ Z.abs u < MAX_UNITS.
Proof.
  unfold assertValidWalletAmount. destruct (parseDecimalString v) as [p|e] eqn:Hp.
  - unfold BALANCE_PRECISION, BALANCE_SCALE.
    rewrite (bounds_correct v 36 18 p) by (done || lia).
    rewrite Z.gtb_ltb. unfold units, BALANCE_SCALE. rewrite Hp.
    destruct (Z.ltb_spec 18 (pd_scale p)), (Z.leb_spec (pd_scale p) 18); try lia.
    + simpl. naive_solver.
    + assert (Qle_bool (inject_Z (10 ^ (36 - 18))) (Qabs.Qabs (pd_value p)) =
        (MAX_UNITS <=? Z.abs (pd_num p * 10 ^ (18 - pd_scale p)))) as ->.
      { apply eq_true_iff_eq. rewrite Qle_bool_iff, Z.leb_le, (pd_value_rescale p 18) by done.
        generalize (pd_num p * 10 ^ (18 - pd_scale p)). intros u. unfold MAX_UNITS.
        unfold Qle, Qdiv, Qmult, Qinv, inject_Z, Qabs.Qabs; simpl. lia. }
      destruct (Z.leb_spec MAX_UNITS (Z.abs (pd_num p * 10 ^ (18 - pd_scale p)))); simpl.
      * split; [done|]. intros (u & [= <-] & Hu). lia.
      * split; [|done]. intros _. eexists. split; [done|lia].
  - assert (assertWithinNumericBounds v BALANCE_PRECISION BALANCE_SCALE = Err e) as ->.
    { unfold assertWithinNumericBounds. simpl. by rewrite Hp. }
    unfold units. rewrite Hp. split; [|naive_solver]. by destruct e.
Qed.

(** Storing [u] more or less units is exact, up to the range and the CHECK. *)
Lemma numeric_add_units b sign v p u : parseDecimalString v = Ok p → units v = Some u →
  numeric_add b sign (pd_num p) (pd_scale p) =
    if MAX_UNITS <=? Z.abs (b + sign * u) then Err "22003"
    else if b + sign * u <? 0 then Err "23514" else Ok (b + sign * u).
Proof.
  intros Hp (p' & Hp' & Hs & -> & _)%units_inv. rewrite Hp in Hp'. injection Hp' as <-.
  unfold numeric_add, numeric_store, BALANCE_SCALE, BALANCE_PRECISION.
  replace (Z.max 18 (pd_scale p)) with 18 by lia. simpl (18 <=? 18). cbv iota.
  rewrite Z.sub_diag, !Z.mul_1_r. fold MAX_UNITS.
  by replace (b + sign * pd_num p * 10 ^ (18 - pd_scale p)) with
    (b + sign * (pd_num p * 10 ^ (18 - pd_scale p))) by ring.
Qed.

(** ** The ledger *)

Definition move (ty : movement) (b u : Z) : Z :=
  match ty with credit_tx => b + u | debit_tx => b - u end.

(** What the abstract account does: one movement posted on a wallet. *)
Definition posted (ty : movement) (uuid : string) (now : Z) (i amt : string)
    (row : WalletRow) (u : Z) (d : wallet_db) : wallet_db :=
  let b' := move ty (row_balance row) u in
  {| wallets := <[i := {| row_address := row_address row; row_balance := b';
       row_currency := row_currency row; row_created_at := row_created_at row;
       row_updated_at := now |}]> (wallets d);
     ledger := ledger d ++ [{| tx_id := uuid; walletId := i; type := ty; amount := amt;
       previousBalance := numeric_out (row_balance row); newBalance := numeric_out b';
       tx_createdAt := now |}] |}.

(** Replay a wallet's entries from an opening balance: every entry must start
    from the current balance and record the balance it leads to. *)
Fixpoint replay (b : Z) (ts : list WalletTransaction) : option Z :=
  match ts with
  | [] => Some b
  | t :: ts' =>
      match units (amount t) with
      | None => None
      | Some u =>
          let b' := move (type t) b u in
          if (0 <? u) && (0 <=? b') && String.eqb (previousBalance t) (numeric_out b)
             && String.eqb (newBalance t) (numeric_out b')
          then replay b' ts' else None
      end
  end.

Definition entries (i : string) (d : wallet_db) : list WalletTransaction :=
  filter (λ t, walletId t = i) (ledger d).

(** The books, given the opening balance of every wallet id. *)
Record ledger_ok (opening : string → Z) (d : wallet_db) : Prop := {
  balance_range i row : wallets d !! i = Some row → 0 ≤ row_balance row < MAX_UNITS;
  balance_replays i row : wallets d !! i = Some row →
    replay (opening i) (entries i d) = Some (row_balance row);
  ledger_fk t : t ∈ ledger d → is_Some (wallets d !! walletId t)
}.

Lemma replay_app b ts ts' : replay b (ts ++ ts') = replay b ts ≫= λ b', replay b' ts'.
Proof.
  revert b. induction ts as [|t ts IH]; intros b; simpl; [done|].
  destruct (units (amount t)); [|done]. case_test; [apply IH|done].
Qed.

(** The units a posted entry moves, with its sign. *)
Definition signed_units (t : WalletTransaction) : Z :=
  move (type t) 0 (default 0 (units (amount t))).

Lemma replay_sum b ts b' : replay b ts = Some b' → b' = b + sumZ signed_units ts.
Proof.
  revert b. induction ts as [|t ts IH]; intros b; simpl; [intros [= <-]; lia|].
  unfold signed_units at 1. destruct (units (amount t)) as [u|]; [|done].
  case_test; [|done]. intros ->%IH. unfold move; destruct (type t); simpl; lia.
Qed.

Lemma entries_posted ty uuid now i amt row u d j :
  entries j (posted ty uuid now i amt row u d) =
    entries j d ++ (if decide (i = j) then [{| tx_id := uuid; walletId := i; type := ty;
       amount := amt; previousBalance := numeric_out (row_balance row);
       newBalance := numeric_out (move ty (row_balance row) u); tx_createdAt := now |}] else []).
Proof.
  unfold entries, posted; simpl. rewrite filter_app. f_equal.
Qed.

(** Posting keeps the books. *)
Lemma posted_ok opening ty uuid now i amt row u d :
  ledger_ok opening d → wallets d !! i = Some row → units amt = Some u → 0 < u →
  0 ≤ move ty (row_balance row) u < MAX_UNITS →
  ledger_ok opening (posted ty uuid now i amt row u d).
Proof.
  intros Hd Hi Hu Hpos Hr. constructor.
  - intros j r. unfold posted; simpl. intros [[<- <-]|[Hne Hj]]%lookup_insert_Some; [done|].
    by apply (balance_range opening d Hd j).
  - intros j r Hj. rewrite entries_posted. unfold posted in Hj; simpl in Hj.
    apply lookup_insert_Some in Hj as [[<- <-]|[Hne Hj]].
    + pose proof (balance_replays opening d Hd i row Hi) as Hrep.
      rewrite replay_app, Hrep, decide_True by done. simpl. rewrite Hu, !String.eqb_refl.
      destruct (Z.ltb_spec 0 u); [|lia].
      destruct (Z.leb_spec 0 (move ty (row_balance row) u)); [done|lia].
    + rewrite decide_False by done. rewrite app_nil_r. by apply (balance_replays opening d Hd).
  - intros t. unfold posted; simpl. rewrite elem_of_app, list_elem_of_singleton.
    intros [Ht| ->]; simpl.
    + apply (ledger_fk opening d Hd) in Ht. destruct (decide (walletId t = i)) as [->|].
      * by rewrite lookup_insert_eq.
      * by rewrite lookup_insert_ne.
    + by rewrite lookup_insert_eq.
Qed.

(** ** What a callback does when it returns *)

Lemma txm_bind_Ok {D X A B} (m : txm D X A) (f : A → txm D X B) o env s b s' :
  (m ≫= f) o env s = (Ok b, s') → ∃ a s1, m o env s = (Ok a, s1) ∧ f a o env s1 = (Ok b, s').
Proof. unfold mbind, txm_bind. destruct (m o env s) as [[a|e] s1]; intros; simplify_eq; eauto. Qed.

Lemma wrappedQuery_Ok {D X A} sql (stmt : D → result string (A * D)) o env s a s' :
  wrappedQuery (X:=X) sql stmt o env s = (Ok a, s') → stmt (data s) = Ok (a, data s').
Proof.
  unfold wrappedQuery. intros H. repeat case_match; by simplify_eq/=.
Qed.

Lemma lift_app_Ok {D A} (m : result wallet_error A) o env (s : tx_state D) a s' :
  lift_app m o env s = (Ok a, s') → m = Ok a ∧ s' = s.
Proof. destruct m; cbv [lift_app lift_decimal mret txm_ret tx_throw]; intros; by simplify_eq. Qed.

Lemma lift_decimal_Ok {D A} (m : result decimal_error A) o env (s : tx_state D) a s' :
  lift_decimal m o env s = (Ok a, s') → m = Ok a ∧ s' = s.
Proof. destruct m; cbv [lift_app lift_decimal mret txm_ret tx_throw]; intros; by simplify_eq. Qed.

Ltac invert_tx :=
  repeat match goal with
  | H : mbind _ _ _ _ _ = (Ok _, _) |- _ => apply txm_bind_Ok in H as (? & ? & ? & H)
  | H : wrappedQuery _ _ _ _ _ = (Ok _, _) |- _ => apply wrappedQuery_Ok in H
  | H : lift_app _ _ _ _ = (Ok _, _) |- _ => apply lift_app_Ok in H as [? ->]
  | H : lift_decimal _ _ _ _ = (Ok _, _) |- _ => apply lift_decimal_Ok in H as [? ->]
  | H : select_for_update _ _ = Ok _ |- _ => injection H as ? H
  | H : record _ _ _ _ _ _ _ _ _ _ = (Ok _, _) |- _ => unfold record in H
  | H : tx_throw _ _ _ _ = _ |- _ => discriminate H
  | H : mret _ _ _ _ = (Ok _, _) |- _ => injection H as ? ?; subst
  | H : data _ = data _ |- _ => rewrite <- H in *; clear H
  | H : match ?y with Some _ => _ | None => _ end _ _ _ = (Ok _, _) |- _ => destruct y eqn:?
  | H : (if ?c then _ else _) _ _ _ = (Ok _, _) |- _ => destruct c eqn:?
  end.

Section Callbacks.
Context (numeric_in : string → option (Z * Z)) `{!NumericInput numeric_in}.

Lemma update_balance_Ok ty i amt now d row u a d' :
  wallets d !! i = Some row → units amt = Some u →
  update_balance numeric_in (match ty with credit_tx => 1 | debit_tx => -1 end) i amt now d
    = Ok (a, d') →
  0 ≤ move ty (row_balance row) u < MAX_UNITS ∧ a = wallets d' !! i ∧
  d' = {| wallets := <[i := {| row_address := row_address row;
     row_balance := move ty (row_balance row) u; row_currency := row_currency row;
     row_created_at := row_created_at row; row_updated_at := now |}]> (wallets d);
     ledger := ledger d |}.
Proof.
  intros Hi Hu H. destruct (units_inv _ _ Hu) as (p & Hp & _).
  unfold update_balance in H. rewrite Hi in H.
  destruct (numeric_in amt) as [[n s]|] eqn:Hin; [|done].
  destruct (numeric_in_sound amt p n s Hp Hin) as [-> ->].
  rewrite (numeric_add_units _ _ amt p u Hp Hu) in H.
  assert (row_balance row + match ty with credit_tx => 1 | debit_tx => -1 end * u =
    move ty (row_balance row) u) as E by (destruct ty; simpl; lia). rewrite E in H.
  destruct (Z.leb_spec MAX_UNITS (Z.abs (move ty (row_balance row) u))); [done|].
  destruct (Z.ltb_spec (move ty (row_balance row) u) 0); [done|].
  simpl in H. injection H as <- <-. simpl. rewrite lookup_insert_eq. split_and!; [lia..|done|done].
Qed.

(** A callback that returns has posted exactly its movement. *)
Lemma post_step ty uuid now i amt row u (d1 d2 d3 : wallet_db) t w :
  wallets d1 !! i = Some row → units amt = Some u →
  update_balance numeric_in (match ty with credit_tx => 1 | debit_tx => -1 end) i amt now d1
    = Ok (Some w, d2) →
  insert_transaction {| tx_id := uuid; walletId := i; type := ty; amount := amt;
     previousBalance := numeric_out (row_balance row);
     newBalance := numeric_out (row_balance w); tx_createdAt := now |} d2 = Ok (t, d3) →
  0 ≤ move ty (row_balance row) u < MAX_UNITS ∧ d3 = posted ty uuid now i amt row u d1.
Proof.
  intros Hi Hu Hup Hins.
  destruct (update_balance_Ok _ _ _ _ _ _ _ _ _ Hi Hu Hup) as (Hr & Hw & ->). split; [done|].
  simpl in Hw. rewrite lookup_insert_eq in Hw. injection Hw as ->.
  unfold insert_transaction in Hins; simpl in Hins. rewrite lookup_insert_eq in Hins.
  by injection Hins as <- <-.
Qed.

Lemma credit_body_Ok uuid now i amt u o env s w s' : units amt = Some u →
  credit_body numeric_in uuid now i amt o env s = (Ok w, s') →
  ∃ row, wallets (data s) !! i = Some row ∧
    0 ≤ move credit_tx (row_balance row) u < MAX_UNITS ∧
    data s' = posted credit_tx uuid now i amt row u (data s).
Proof.
  intros Hu H. unfold credit_body in H. invert_tx. eexists. split; [eassumption|].
  eapply (post_step credit_tx); eauto.
Qed.

Lemma debit_body_Ok uuid now i amt u o env s w s' : units amt = Some u →
  debit_body numeric_in uuid now i amt o env s = (Ok w, s') →
  ∃ row, wallets (data s) !! i = Some row ∧
    0 ≤ move debit_tx (row_balance row) u < MAX_UNITS ∧
    data s' = posted debit_tx uuid now i amt row u (data s).
Proof.
  intros Hu H. unfold debit_body in H. invert_tx. eexists. split; [eassumption|].
  eapply (post_step debit_tx); eauto.
Qed.
End Callbacks.

(** ** Every reachable state *)

Section Books.
Context (numeric_in : string → option (Z * Z)) `{!NumericInput numeric_in}.
(** The balance each wallet id is created with; ids are never reused. *)
Variable opening : string → Z.

(** One call. The sessions that run between two attempts of a retried
    transaction may do whatever keeps the books. *)
Inductive wstep (d : wallet_db) : wallet_db → Prop :=
| w_create uuid now input :
    (∀ w, (create numeric_in uuid now input d).2 = Ok w → units (balance w) = Some (opening uuid)) →
    wstep d (create numeric_in uuid now input d).1
| w_delete i : wstep d (delete_wallet i d).1
| w_credit pool uuid now i amt timeouts env r :
    (∀ n x, ledger_ok opening x → ledger_ok opening (others env n x)) →
    credit numeric_in pool uuid now i amt timeouts env d = Some r → wstep d (committed r)
| w_debit pool uuid now i amt timeouts env r :
    (∀ n x, ledger_ok opening x → ledger_ok opening (others env n x)) →
    debit numeric_in pool uuid now i amt timeouts env d = Some r → wstep d (committed r).

Definition empty_db : wallet_db := {| wallets := ∅; ledger := [] |}.

Definition wreachable (d : wallet_db) : Prop := rtc wstep empty_db d.

Lemma numeric_store_range n s b : numeric_store n s = Ok b → 0 ≤ b < MAX_UNITS.
Proof.
  unfold numeric_store. set (r := if s <=? BALANCE_SCALE then _ else _).
  destruct (Z.leb_spec (10 ^ BALANCE_PRECISION) (Z.abs r)) as [|Hlt]; [done|].
  destruct (Z.ltb_spec r 0); [done|]. intros [= <-].
  change (10 ^ BALANCE_PRECISION) with MAX_UNITS in Hlt. lia.
Qed.

Lemma create_ok uuid now input d :
  (∀ w, (create numeric_in uuid now input d).2 = Ok w → units (balance w) = Some (opening uuid)) →
  ledger_ok opening d → ledger_ok opening (create numeric_in uuid now input d).1.
Proof.
  unfold create. intros Hop Hd. destruct (numeric_in _) as [[n s]|]; [|done].
  destruct (numeric_store n s) as [b|c] eqn:Hs; [|done].
  destruct (wallets d !! uuid) eqn:Hu; simpl in *; [done|]. case_test; [done|]. simpl in *.
  pose proof (numeric_store_range _ _ _ Hs) as Hrange.
  assert (opening uuid = b) as Hb.
  { specialize (Hop _ eq_refl). simpl in Hop. rewrite units_out in Hop by lia. congruence. }
  assert (entries uuid d = []) as Hnone.
  { unfold entries. destruct (filter _ _) as [|t l] eqn:E; [done|].
    assert (t ∈ filter (λ t, walletId t = uuid) (ledger d)) as Ht by (rewrite E; left).
    apply list_elem_of_filter in Ht as [<- Ht]. apply (ledger_fk opening d Hd) in Ht as [? Ht].
    congruence. }
  constructor; simpl.
  - intros j r [[<- <-]|[_ Hj]]%lookup_insert_Some; [by eapply numeric_store_range|].
    by apply (balance_range opening d Hd j).
  - intros j r [[<- <-]|[Hne Hj]]%lookup_insert_Some.
    + change (replay (opening uuid) (entries uuid d) = Some b). by rewrite Hnone, Hb.
    + by apply (balance_replays opening d Hd j).
  - intros t [row Ht]%(ledger_fk opening d Hd). rewrite lookup_insert_ne by congruence. by exists row.
Qed.

Lemma delete_ok i d : ledger_ok opening d → ledger_ok opening (delete_wallet i d).1.
Proof.
  intros Hd. unfold delete_wallet. constructor; simpl.
  - intros j r [_ Hj]%lookup_delete_Some. by apply (balance_range opening d Hd j).
  - intros j r [Hne Hj]%lookup_delete_Some.
    rewrite <- (balance_replays opening d Hd j r Hj). f_equal. unfold entries; simpl. rewrite list_filter_filter.
    apply list_filter_iff. naive_solver.
  - intros t [Hne [row Ht]%(ledger_fk opening d Hd)]%list_elem_of_filter.
    rewrite lookup_delete_ne by done. by exists row.
Qed.

(** An operation that gets past its guards has a positive amount in units. *)
Lemma guarded_preserves {A} (invalid : wallet_error) amt (body : txm wallet_db wallet_error A)
    timeouts env d r :
  ledger_ok opening d → (∀ n x, ledger_ok opening x → ledger_ok opening (others env n x)) →
  (∀ u q x a s, units amt = Some u → 0 < u → ledger_ok opening x →
     body wallet_options q (fresh x) = (Ok a, s) → ledger_ok opening (data s)) →
  guarded invalid amt body timeouts env d = Some r → ledger_ok opening (committed r).
Proof.
  intros Hd Hrely Hb. unfold guarded. destruct (isValidPositiveDecimal amt) eqn:Hpos; simpl;
    [|by intros [= <-]].
  destruct (assertValidWalletAmount amt) as [[]|e] eqn:Hv; [|by intros [= <-]].
  apply valid_amount_units in Hv as (u & Hu & _). apply (positive_units _ _ Hu) in Hpos.
  apply tx_preserves; eauto.
Qed.

Lemma wstep_ok d d' : wstep d d' → ledger_ok opening d → ledger_ok opening d'.
Proof.
  intros [uuid now input Hop|i|pool uuid now i amt ts env r He Hr|pool uuid now i amt ts env r He Hr] Hd.
  - by apply create_ok.
  - by apply delete_ok.
  - destruct pool; [|by injection Hr as <-]. revert Hr. apply guarded_preserves; [done..|].
    intros u q x a s Hu Hpos Hx Hb.
    destruct (credit_body_Ok _ _ _ _ _ _ _ _ _ _ _ Hu Hb) as (row & Hrow & Hrg & ->).
    by apply posted_ok.
  - destruct pool; [|by injection Hr as <-]. revert Hr. apply guarded_preserves; [done..|].
    intros u q x a s Hu Hpos Hx Hb.
    destruct (debit_body_Ok _ _ _ _ _ _ _ _ _ _ _ Hu Hb) as (row & Hrow & Hrg & ->).
    by apply posted_ok.
Qed.

Lemma wreachable_ok d : wreachable d → ledger_ok opening d.
Proof.
  intros Hr. assert (ledger_ok opening empty_db) as H0.
  { constructor; simpl; intros *; rewrite ?lookup_empty, ?elem_of_nil; done. }
  revert H0. induction Hr as [|x y z Hxy _ IH]; [done|]. intros Hx. apply IH. by eapply wstep_ok.
Qed.

(** C1. The books balance, always: in every state reachable by creating,
    crediting, debiting and deleting wallets, whatever statements fail, time
    out or are retried, every balance is within [0, 10^18), and the ledger of
    the wallet explains it exactly: replayed from the balance the wallet was
    created with, each entry starts from the balance before it, moves a positive
    amount, never below zero, and records the balance after it; the last one
    is the stored balance, which is the opening balance plus all credits minus
    all debits. *)
Theorem wallet_books_balance d i row :
  wreachable d → wallets d !! i = Some row →
  0 ≤ row_balance row < MAX_UNITS ∧
  replay (opening i) (entries i d) = Some (row_balance row) ∧
  row_balance row = opening i + sumZ signed_units (entries i d).
Proof.
  intros Hd%wreachable_ok Hi. split; [by eapply balance_range|].
  pose proof (balance_replays opening d Hd i row Hi). split; [done|]. by apply replay_sum.
Qed.
End Books.

(** ** What a call does when nothing fails *)

(** The units of an amount the guards let through. *)
Definition accepted (amt : string) : option Z :=
  u ← units amt; if (0 <? u) && (u <? MAX_UNITS) then Some u else None.

Definition ascii_only (v : string) : bool := str_forallb (λ c, code c <? 128) v.

Section Exact.
Context (numeric_in : string → option (Z * Z)) `{!NumericInput numeric_in}.
Variable opening : string → Z.

Lemma guarded_accepted {A} (invalid : wallet_error) amt u (body : txm wallet_db wallet_error A)
    timeouts env d : accepted amt = Some u →
  units amt = Some u ∧ 0 < u < MAX_UNITS ∧
  guarded invalid amt body timeouts env d = withTransaction timeouts body wallet_options env d.
Proof.
  unfold accepted. destruct (units amt) as [u'|] eqn:Hu; simpl; [|done].
  destruct (Z.ltb_spec 0 u'), (Z.ltb_spec u' MAX_UNITS); simpl; try done. intros [= <-].
  split_and!; [done|lia|lia|]. unfold guarded. rewrite (proj2 (positive_units _ _ Hu)) by lia.
  assert (assertValidWalletAmount amt = Ok ()) as ->; [|done].
  apply valid_amount_units. exists u'. split; [done|lia].
Qed.

Lemma guarded_refused {A} (invalid : wallet_error) amt (body : txm wallet_db wallet_error A)
    timeouts env d : accepted amt = None →
  ∃ r e, guarded invalid amt body timeouts env d = Some r ∧
    out r = Err (Thrown (App e)) ∧ committed r = d.
Proof.
  unfold accepted, guarded. intros H. destruct (isValidPositiveDecimal amt) eqn:Hp; simpl;
    [|by do 2 eexists].
  destruct (assertValidWalletAmount amt) as [[]|e] eqn:Hv; [exfalso|by do 2 eexists].
  apply valid_amount_units in Hv as (u & Hu & Hlt). rewrite Hu in H. simpl in H.
  apply (positive_units _ _ Hu) in Hp.
  destruct (Z.ltb_spec 0 u), (Z.ltb_spec u MAX_UNITS); simpl in H; lia || done.
Qed.

Lemma update_balance_exact ty i amt now d row u : ascii_only amt = true →
  wallets d !! i = Some row → units amt = Some u →
  0 ≤ move ty (row_balance row) u < MAX_UNITS →
  ∃ d', update_balance numeric_in (match ty with credit_tx => 1 | debit_tx => -1 end) i amt now d
    = Ok (wallets d' !! i, d') ∧ ledger d' = ledger d ∧
    wallets d' = wallets (posted ty EmptyString now i amt row u d).
Proof.
  intros Ha Hi Hu Hr. destruct (units_inv _ _ Hu) as (p & Hp & _).
  destruct (numeric_in_ascii amt p Hp Ha) as [[n s] Hin].
  destruct (numeric_in_sound amt p n s Hp Hin) as [-> ->].
  eexists {| wallets := _; ledger := ledger d |}. unfold update_balance. rewrite Hi, Hin.
  rewrite (numeric_add_units _ _ amt p u Hp Hu).
  assert (row_balance row + match ty with credit_tx => 1 | debit_tx => -1 end * u =
    move ty (row_balance row) u) as -> by (destruct ty; simpl; lia).
  destruct (Z.leb_spec MAX_UNITS (Z.abs (move ty (row_balance row) u))); [lia|].
  destruct (Z.ltb_spec (move ty (row_balance row) u) 0); [lia|]. simpl.
  split_and!; [|done|done]. by rewrite lookup_insert_eq.
Qed.

(** The two writes of a callback, in a quiet environment. *)
Lemma post_quiet {A} ty uuid now i amt d row u (k : WalletRow → txm wallet_db wallet_error A)
    o env s :
  (∀ n, fault env n = None) → (∀ n, elapsed env n ≤ maxDurationMs o) → data s = d →
  ascii_only amt = true → wallets d !! i = Some row → units amt = Some u →
  0 ≤ move ty (row_balance row) u < MAX_UNITS →
  ∃ row' s', wallets (posted ty uuid now i amt row u d) !! i = Some row' ∧
    data s' = posted ty uuid now i amt row u d ∧
    (upd ← wrappedQuery "UPDATE wallets" (update_balance numeric_in
        (match ty with credit_tx => 1 | debit_tx => -1 end) i amt now);
     match upd with
     | None => tx_throw NoRowReturned
     | Some row' => _ ← record uuid now i ty amt (numeric_out (row_balance row))
                      (balance (mapWallet i row')); k row'
     end) o env s = k row' o env s'.
Proof.
  intros Hf He Hs Ha Hi Hu Hr. subst d.
  destruct (update_balance_exact ty i amt now (data s) row u Ha Hi Hu Hr) as (d' & Hup & Hl & Hw).
  destruct (wrappedQuery_quiet (X:=wallet_error) "UPDATE wallets" _ o env s _ _ eq_refl Hf He Hup)
    as (s1 & Hq1 & Hs1).
  unfold posted at 1 in Hw; simpl in Hw. rewrite Hw, lookup_insert_eq in Hq1.
  set (row' := {| row_address := row_address row |}) in *.
  set (t := {| tx_id := uuid; walletId := i; type := ty; amount := amt;
     previousBalance := numeric_out (row_balance row);
     newBalance := numeric_out (row_balance row'); tx_createdAt := now |}).
  assert (insert_transaction t (data s1) = Ok (t, posted ty uuid now i amt row u (data s))) as Hins.
  { unfold insert_transaction. rewrite Hs1, Hw, Hl. simpl. by rewrite lookup_insert_eq. }
  destruct (wrappedQuery_quiet (X:=wallet_error) "INSERT INTO wallet_transactions" _ o env s1 _ _
    eq_refl Hf He Hins) as (s2 & Hq2 & Hs2).
  exists row', s2. split_and!; [simpl; by rewrite lookup_insert_eq|done|].
  unfold mbind, txm_bind. rewrite Hq1. unfold record, balance, mapWallet. fold t. by rewrite Hq2.
Qed.

Lemma credit_body_quiet uuid now i amt u o env d : ledger_ok opening d →
  (∀ n, fault env n = None) → (∀ n, elapsed env n ≤ maxDurationMs o) →
  ascii_only amt = true → units amt = Some u → 0 < u →
  match wallets d !! i with
  | None => ∃ s, credit_body numeric_in uuid now i amt o env (fresh d) =
      (Err (App (WalletNotFound i)), s)
  | Some row =>
      if row_balance row + u <? MAX_UNITS then
        ∃ row' s, wallets (posted credit_tx uuid now i amt row u d) !! i = Some row' ∧
          data s = posted credit_tx uuid now i amt row u d ∧
          credit_body numeric_in uuid now i amt o env (fresh d) = (Ok (mapWallet i row'), s)
      else ∃ v s, credit_body numeric_in uuid now i amt o env (fresh d) =
        (Err (App (AmountOverflowError v 36 18)), s)
  end.
Proof.
  intros Hd Hf He Ha Hu Hpos.
  destruct (wrappedQuery_quiet (X:=wallet_error) "SELECT" (select_for_update i) o env (fresh d)
    _ _ eq_refl Hf He eq_refl) as (s1 & Hq1 & Hs1). simpl in Hq1, Hs1.
  unfold credit_body. destruct (wallets d !! i) as [row|] eqn:Hi.
  - pose proof (balance_range opening d Hd i row Hi) as Hb.
    destruct (add_units _ _ _ _ (units_out (row_balance row) ltac:(lia)) Hu) as (pr & Hadd & Hpr).
    destruct (Z.ltb_spec (row_balance row + u) MAX_UNITS).
    + destruct (post_quiet credit_tx uuid now i amt d row u (λ row', mret (mapWallet i row'))
        o env s1 Hf He Hs1 Ha Hi Hu) as (row' & s' & Hrow' & Hs' & Heq); [simpl; lia|].
      exists row', s'. split_and!; [done|done|].
      unfold mbind at 1, txm_bind at 1. rewrite Hq1, Hadd.
      unfold mbind at 1, txm_bind at 1. simpl (lift_decimal _).
      assert (assertValidWalletAmount pr = Ok ()) as Hv
        by (apply valid_amount_units; exists (row_balance row + u); split; [done|lia]).
      unfold mret at 1, txm_ret at 1. unfold mbind at 1, txm_bind at 1. rewrite Hv.
      exact Heq.
    + assert (assertValidWalletAmount pr = Err (AmountOverflowError pr 36 18)) as Hv.
      { destruct (units_inv _ _ Hpr) as (p & Hp & Hsc & Hn & Hval).
        destruct (assertValidWalletAmount pr) as [[]|e] eqn:E.
        - apply valid_amount_units in E as (u' & Hu' & ?). rewrite Hpr in Hu'. simplify_eq. lia.
        - revert E. unfold assertValidWalletAmount, BALANCE_PRECISION, BALANCE_SCALE.
          rewrite (bounds_correct pr 36 18 p) by (done || lia). rewrite Z.gtb_ltb.
          destruct (Z.ltb_spec 18 (pd_scale p)); [lia|]. destruct (Qle_bool _ _); simpl; congruence. }
      exists pr. eexists. unfold mbind at 1, txm_bind at 1. rewrite Hq1, Hadd.
      unfold mbind at 1, txm_bind at 1. simpl (lift_decimal _).
      unfold mret at 1, txm_ret at 1. unfold mbind at 1, txm_bind at 1. rewrite Hv. done.
  - eexists. unfold mbind at 1, txm_bind at 1. by rewrite Hq1.
Qed.

Lemma debit_body_quiet uuid now i amt u o env d : ledger_ok opening d →
  (∀ n, fault env n = None) → (∀ n, elapsed env n ≤ maxDurationMs o) →
  ascii_only amt = true → units amt = Some u → 0 < u →
  match wallets d !! i with
  | None => ∃ s, debit_body numeric_in uuid now i amt o env (fresh d) =
      (Err (App (WalletNotFound i)), s)
  | Some row =>
      if u <=? row_balance row then
        ∃ res s, data s = posted debit_tx uuid now i amt row u d ∧
          units (res_newBalance res) = Some (row_balance row - u) ∧ debitedAmount res = amt ∧
          debit_body numeric_in uuid now i amt o env (fresh d) = (Ok res, s)
      else ∃ s, debit_body numeric_in uuid now i amt o env (fresh d) =
        (Err (App (InsufficientBalanceError i (numeric_out (row_balance row)) amt)), s)
  end.
Proof.
  intros Hd Hf He Ha Hu Hpos.
  destruct (wrappedQuery_quiet (X:=wallet_error) "SELECT" (select_for_update i) o env (fresh d)
    _ _ eq_refl Hf He eq_refl) as (s1 & Hq1 & Hs1). simpl in Hq1, Hs1.
  unfold debit_body. destruct (wallets d !! i) as [row|] eqn:Hi.
  - pose proof (balance_range opening d Hd i row Hi) as Hb.
    destruct (compare_units _ _ _ _ Hu (units_out (row_balance row) ltac:(lia))) as (c & Hc & Hgt).
    destruct (Z.leb_spec u (row_balance row)).
    + set (k := λ row', mret {| wallet := mapWallet i row';
         res_previousBalance := numeric_out (row_balance row);
         res_newBalance := numeric_out (row_balance row'); debitedAmount := amt |}
         : txm wallet_db wallet_error DebitResult).
      destruct (post_quiet debit_tx uuid now i amt d row u k
        o env s1 Hf He Hs1 Ha Hi Hu) as (row' & s' & Hrow' & Hs' & Heq); [simpl; lia|].
      simpl in Hrow'. rewrite lookup_insert_eq in Hrow'. injection Hrow' as <-.
      eexists; exists s'. split_and!; [done| | |].
      3: { unfold mbind at 1, txm_bind at 1. rewrite Hq1. simpl (balance _). rewrite Hc.
           unfold mbind at 1, txm_bind at 1. simpl (lift_decimal _).
           unfold mret at 1, txm_ret at 1. rewrite Hgt.
           destruct (Z.ltb_spec (row_balance row) u); [lia|]. exact Heq. }
      * simpl. apply units_out. lia.
      * done.
    + eexists. unfold mbind at 1, txm_bind at 1. rewrite Hq1. simpl (balance _). rewrite Hc.
      unfold mbind at 1, txm_bind at 1. simpl (lift_decimal _).
      unfold mret at 1, txm_ret at 1. rewrite Hgt.
      destruct (Z.ltb_spec (row_balance row) u); [done|lia].
  - eexists. unfold mbind at 1, txm_bind at 1. by rewrite Hq1.
Qed.

(** A call that changed nothing and threw an error [e] with [P e]. *)
Definition rejects {A} (P : wallet_error → Prop) (d : wallet_db)
    (run : option (tx_run wallet_db wallet_error A)) : Prop :=
  ∃ r e, run = Some r ∧ out r = Err (Thrown (App e)) ∧ P e ∧ committed r = d.

Lemma quiet_rejects {A} (body : txm wallet_db wallet_error A) timeouts env d e s
    (P : wallet_error → Prop) : quiet wallet_options env → P e →
  body wallet_options (during env 0%nat) (fresh d) = (Err (App e), s) →
  rejects P d (withTransaction timeouts body wallet_options env d).
Proof.
  intros Hq He Hb. destruct (quiet_throws timeouts body wallet_options env d e s Hq Hb)
    as (r & ? & ? & ?). by exists r, e.
Qed.

(** C2. Crediting and debiting are exact on every branch: when no statement
    fails, an amount that is not a positive decimal within [NUMERIC(36,18)] is
    refused; on a missing wallet both throw; otherwise [credit] posts exactly
    the amount unless the new balance would leave the column's range, and
    [debit] posts exactly the amount if and only if the balance covers it, to
    the last digit, reporting the new balance; a refused or failed call leaves
    both tables as they were. *)
Theorem wallet_movements_exact uuid now i amt timeouts env d :
  wreachable numeric_in opening d → quiet wallet_options env → ascii_only amt = true →
  let c := credit numeric_in true uuid now i amt timeouts env d in
  let b := debit numeric_in true uuid now i amt timeouts env d in
  match accepted amt, wallets d !! i with
  | None, _ => rejects (λ _, True) d c ∧ rejects (λ _, True) d b
  | Some u, None =>
      rejects (λ e, e = WalletNotFound i) d c ∧ rejects (λ e, e = WalletNotFound i) d b
  | Some u, Some row =>
      (if row_balance row + u <? MAX_UNITS
       then ∃ r w, c = Some r ∧ out r = Ok w ∧ units (balance w) = Some (row_balance row + u) ∧
         committed r = posted credit_tx uuid now i amt row u d
       else rejects (λ e, ∃ v, e = AmountOverflowError v 36 18) d c) ∧
      (if u <=? row_balance row
       then ∃ r res, b = Some r ∧ out r = Ok res ∧
         units (res_newBalance res) = Some (row_balance row - u) ∧ debitedAmount res = amt ∧
         committed r = posted debit_tx uuid now i amt row u d
       else rejects (λ e, e = InsufficientBalanceError i (numeric_out (row_balance row)) amt) d b)
  end.
Proof.
  intros Hd Hq Ha c b. subst c b. apply wreachable_ok in Hd; [|done].
  destruct (accepted amt) as [u|] eqn:Hacc.
  2: { destruct (guarded_refused (InvalidCreditAmount amt) amt (credit_body numeric_in uuid now i amt)
         timeouts env d Hacc) as (r & e & ? & ? & ?).
       destruct (guarded_refused (InvalidDebitAmount amt) amt (debit_body numeric_in uuid now i amt)
         timeouts env d Hacc) as (r' & e' & ? & ? & ?).
       split; [by exists r, e|by exists r', e']. }
  destruct (guarded_accepted (InvalidCreditAmount amt) amt u (credit_body numeric_in uuid now i amt)
    timeouts env d Hacc) as (Hu & Hpos & Hc).
  destruct (guarded_accepted (InvalidDebitAmount amt) amt u (debit_body numeric_in uuid now i amt)
    timeouts env d Hacc) as (_ & _ & Hb).
  unfold credit, debit; simpl. rewrite Hc, Hb.
  pose proof (credit_body_quiet uuid now i amt u wallet_options (during env 0%nat) d Hd
    (quiet_fault _ _ Hq 0%nat) (quiet_elapsed _ _ Hq 0%nat) Ha Hu ltac:(lia)) as Kc.
  pose proof (debit_body_quiet uuid now i amt u wallet_options (during env 0%nat) d Hd
    (quiet_fault _ _ Hq 0%nat) (quiet_elapsed _ _ Hq 0%nat) Ha Hu ltac:(lia)) as Kb.
  destruct (wallets d !! i) as [row|] eqn:Hi.
  2: { destruct Kc as [s Kc], Kb as [s' Kb]. split; by eapply quiet_rejects. }
  pose proof (balance_range opening d Hd i row Hi). split.
  - case_test.
    + destruct Kc as (row' & s & Hrow' & Hs & Kc).
      destruct (quiet_returns timeouts _ _ _ _ _ _ Hq Kc) as (r & Hr & Ho & Hco).
      exists r, (mapWallet i row'). split_and!; [done|done| |congruence].
      simpl in Hrow'. rewrite lookup_insert_eq in Hrow'. injection Hrow' as <-.
      simpl. apply units_out. lia.
    + destruct Kc as (v & s & Kc). eapply quiet_rejects; [done| |exact Kc]. by exists v.
  - case_test.
    + destruct Kb as (res & s & Hs & Hn & Hda & Kb).
      destruct (quiet_returns timeouts _ _ _ _ _ _ Hq Kb) as (r & Hr & Ho & Hco).
      exists r, res. split_and!; try done. congruence.
    + destruct Kb as (s & Kb). by eapply quiet_rejects.
Qed.
End Exact.

(** ** A concrete account *)

Module WalletExample.
Definition read (v : string) : option (Z * Z) :=
  match parseDecimalString v with Ok p => Some (pd_num p, pd_scale p) | Err _ => None end.
#[global] Instance read_numeric : NumericInput read.
Proof.
  split.
  - intros v p n s Hp. unfold read. rewrite Hp. by intros [= <- <-].
  - intros v p Hp _. unfold read. rewrite Hp. by eexists.
Qed.
Definition env : tx_env wallet_db :=
  {| connect_err _ := None; begin_err _ := None; commit_outcome_of _ := Acknowledged;
     during _ := {| elapsed _ := 0; fault _ := None |}; others _ d := d |}.
Lemma env_quiet : quiet wallet_options env.
Proof. by constructor. Qed.
Definition d1 : wallet_db :=
  (create read "w" 0 {| in_address := "a"; initialBalance := Some "10.5"; in_currency := None |}
    empty_db).1.
Definition d2 : wallet_db :=
  match debit read true "t" 1 "w" "0.25" FALLBACK_TIMEOUTS env d1 with
  | Some r => committed r | None => d1 end.
Definition opening (_ : string) : Z := 10500000000000000000.
Lemma d1_reachable : wreachable read opening d1.
Proof. apply rtc_once, w_create. intros w Hw. vm_compute in Hw. injection Hw as <-. vm_compute. reflexivity. Qed.
Lemma d2_reachable : wreachable read opening d2.
Proof.
  eapply rtc_r; [exact d1_reachable|]. unfold d2.
  destruct (debit read true "t" 1 "w" "0.25" FALLBACK_TIMEOUTS env d1) as [r|] eqn:E.
  - exact (w_debit read opening d1 true "t" 1 "w" "0.25" FALLBACK_TIMEOUTS env r (λ _ _ H, H) E).
  - exfalso. vm_compute in E. discriminate E.
Qed.
End WalletExample.

Lemma wallet_books_balance_witness :
  ∃ row, wallets WalletExample.d2 !! "w" = Some row ∧ 0 ≤ row_balance row < MAX_UNITS ∧
  replay (WalletExample.opening "w") (entries "w" WalletExample.d2) = Some (row_balance row) ∧
  row_balance row = WalletExample.opening "w" + sumZ signed_units (entries "w" WalletExample.d2).
Proof.
  destruct (wallets WalletExample.d2 !! "w") as [row|] eqn:E.
  - exists row. split; [reflexivity|].
    exact (wallet_books_balance WalletExample.read WalletExample.opening WalletExample.d2 "w" row
      WalletExample.d2_reachable E).
  - exfalso. vm_compute in E. discriminate E.
Defined.

Lemma wallet_movements_exact_witness :
  rejects (λ e, e = WalletNotFound "x") WalletExample.d1
    (debit WalletExample.read true "t" 1 "x" "0.25" FALLBACK_TIMEOUTS WalletExample.env WalletExample.d1).
Proof.
  pose proof (wallet_movements_exact WalletExample.read WalletExample.opening "t" 1 "x" "0.25" FALLBACK_TIMEOUTS
    WalletExample.env WalletExample.d1 WalletExample.d1_reachable WalletExample.env_quiet eq_refl) as H.
  assert (accepted "0.25" = Some 250000000000000000) as E1 by (vm_compute; reflexivity).
  assert (wallets WalletExample.d1 !! "x" = None) as E2 by (vm_compute; reflexivity).
  cbv zeta in H. rewrite E1, E2 in H. exact (proj2 H).
Defined.
