(* ===== verification/Members.v ===== *)
(** * Organisation members: [MemberService] on [MemberRepository]

    [services/members/service.ts] and [repositories/member.repository.ts]. The
    [org_members] table is a map from ids to rows with its partial unique index
    on the active rows of an (organisation, user) pair; each SQL statement is
    one function on it. A service method is a sequence of statements: between
    two of them other sessions may run, which is the parameter [others] of
    every method. The audit trail is part of the state; the detail objects of
    its entries and the cache invalidation after a mutation are left out. *)

From stdpp Require Import base option list strings gmap relations.
From Stdlib Require Import ZArith Lia.
From S2P Require Import Prelude.

Open Scope Z_scope.

(** ** Data *)

Inductive MemberRole := owner | admin | member.

#[export] Instance MemberRole_eq_dec : EqDecision MemberRole.
Proof. solve_decision. Defined.

Record Member := {
  orgId : string;
  userId : string;
  email : string;
  role : MemberRole;
  createdAt : Z;
  updatedAt : Z;
  deletedAt : option Z;
  deletedBy : option string
}.

Abbreviation table := (gmap string Member).

Inductive member_error :=
| MemberAlreadyActiveError
| MemberNotFoundError
| MemberAlreadyDeletedError
| LastOwnerError
| ActiveMembershipExistsError
| PgError (code : string).

Inductive AuditAction := INVITE_MEMBER | LIST_MEMBERS | UPDATE_MEMBER_ROLE | DELETE_MEMBER
  | RESTORE_MEMBER.

(** An audit entry: the actor, the action, its target, and the reason of a
    failure ([None] for a success). *)
Record AuditEntry := {
  tenantId : string;
  adminId : string;
  action : AuditAction;
  targetUserId : string;
  failure : option string
}.

Record state := { rows : table; audit : list AuditEntry }.

(** ** Statements of [MemberRepository] *)

Definition is_active (m : Member) : bool := bool_decide (deletedAt m = None).

Definition is_active_owner (o : string) (m : Member) : bool :=
  String.eqb (orgId m) o && bool_decide (role m = owner) && is_active m.

Definition findActiveById (i : string) (t : table) : option Member :=
  m ← t !! i; if is_active m then Some m else None.

Definition findById (i : string) (t : table) : option Member := t !! i.

Definition same_slot (o u : string) (m : Member) : bool :=
  String.eqb (orgId m) o && String.eqb (userId m) u && is_active m.

Definition findActiveByOrgAndUser (o u : string) (t : table) : option (string * Member) :=
  head (map_to_list (filter (λ e, same_slot o u e.2 = true) t)).

Definition countActiveOwners (o : string) (t : table) : Z :=
  Z.of_nat (size (filter (λ e, is_active_owner o e.2 = true) t)).

(** [INSERT]: [23505] when the primary key or the partial unique index is hit. *)
Definition insert_member (newId : string) (now : Z) (o u mail : string) (r : MemberRole) (t : table)
  : result string (Member * table) :=
  if isSome (t !! newId) || isSome (findActiveByOrgAndUser o u t) then Err "23505"
  else let m := {| orgId := o; userId := u; email := mail; role := r; createdAt := now;
                   updatedAt := now; deletedAt := None; deletedBy := None |} in
       Ok (m, <[newId := m]> t).

Definition set_role (m : Member) (r : MemberRole) : Member :=
  {| orgId := orgId m; userId := userId m; email := email m; role := r;
     createdAt := createdAt m; updatedAt := updatedAt m;
     deletedAt := deletedAt m; deletedBy := deletedBy m |}.

Definition set_deleted (m : Member) (at_ : option Z) (by_ : option string) : Member :=
  {| orgId := orgId m; userId := userId m; email := email m; role := role m;
     createdAt := createdAt m; updatedAt := updatedAt m; deletedAt := at_; deletedBy := by_ |}.

Definition updateRole (i : string) (r : MemberRole) (t : table)
  : result string (option Member * table) :=
  match findActiveById i t with
  | None => Ok (None, t)
  | Some m => Ok (Some (set_role m r), <[i := set_role m r]> t)
  end.

Definition softDelete (i by_ : string) (now : Z) (t : table)
  : result string (option Member * table) :=
  match findActiveById i t with
  | None => Ok (None, t)
  | Some m => let m' := set_deleted m (Some now) (Some by_) in Ok (Some m', <[i := m']> t)
  end.

(** [UPDATE ... WHERE deleted_at IS NOT NULL]; the unique index may refuse it. *)
Definition restore (i : string) (t : table) : result string (option Member * table) :=
  match t !! i with
  | None => Ok (None, t)
  | Some m =>
      if is_active m then Ok (None, t)
      else if isSome (findActiveByOrgAndUser (orgId m) (userId m) t) then Err "23505"
      else let m' := set_deleted m None None in Ok (Some m', <[i := m']> t)
  end.

(** ** The service *)

(** What other sessions do to the table before the n-th statement of a call. *)
Abbreviation sessions := (nat → table → table).

Definition svc (A : Type) : Type := sessions → state → result member_error A * state.

#[export] Instance svc_ret : MRet svc := λ A a others s, (Ok a, s).
#[export] Instance svc_bind : MBind svc := λ A B f m others s,
  match m others s with
  | (Ok a, s') => f a others s'
  | (Err e, s') => (Err e, s')
  end.

Definition throw {A} (e : member_error) : svc A := λ others s, (Err e, s).

(** The n-th statement of a call. *)
Definition query {A} (n : nat) (stmt : table → result string (A * table)) : svc A := λ others s,
  let t := others n (rows s) in
  match stmt t with
  | Ok (a, t') => (Ok a, {| rows := t'; audit := audit s |})
  | Err c => (Err (PgError c), {| rows := t; audit := audit s |})
  end.

Definition select {A} (n : nat) (f : table → A) : svc A := query n (λ t, Ok (f t, t)).

Definition logAction (tenant admin_ : string) (act : AuditAction) (target : string)
    (fail_ : option string) : svc () := λ others s,
  (Ok (), {| rows := rows s; audit := audit s ++ [{| tenantId := tenant; adminId := admin_;
     action := act; targetUserId := target; failure := fail_ |}] |}).

(** A page of members and the total the server counted. *)
Record ListMembersResponse := {
  members : list (string * Member);
  total : Z;
  page : Z;
  limit : Z;
  hasNext : bool;
  offset : Z
}.

Section Service.
Variables tenant admin_ : string.

Definition inviteMember (newId : string) (now : Z) (o u mail : string) (r : option MemberRole)
  : svc Member :=
  existing ← select 0 (findActiveByOrgAndUser o u);
  match existing with
  | Some _ =>
      _ ← logAction tenant admin_ INVITE_MEMBER u
            (Some "Member already active in this organisation");
      throw MemberAlreadyActiveError
  | None =>
      m ← query 1 (insert_member newId now o u mail (default member r));
      _ ← logAction tenant admin_ INVITE_MEMBER u None;
      mret m
  end.

(** After a statement that matched no row: a concurrent deletion, reported as
    [LastOwnerError] when no active owner is left. *)
Definition reclassify (n : nat) (act : AuditAction) (o u : string) {A} : svc A :=
  ownerCount ← select n (countActiveOwners o);
  if ownerCount <=? 0 then
    _ ← logAction tenant admin_ act u
          (Some "Concurrent soft-delete left the organisation with no active owners");
    throw LastOwnerError
  else
    _ ← logAction tenant admin_ act u (Some "Member was concurrently soft-deleted");
    throw MemberAlreadyDeletedError.

Definition updateMemberRole (o i : string) (r : MemberRole) : svc Member :=
  found ← select 0 (findActiveById i);
  match found with
  | None => throw MemberNotFoundError
  | Some existing =>
      if negb (String.eqb (orgId existing) o) then
        _ ← logAction tenant admin_ UPDATE_MEMBER_ROLE (userId existing)
              (Some "Cross-organisation member operation denied");
        throw MemberNotFoundError
      else
      last ← (if bool_decide (role existing = owner) && bool_decide (r ≠ owner)
              then ownerCount ← select 1 (countActiveOwners o); mret (ownerCount <=? 1)
              else mret false);
      if last : bool then
        _ ← logAction tenant admin_ UPDATE_MEMBER_ROLE (userId existing)
              (Some "Cannot demote the last active owner");
        throw LastOwnerError
      else
      updated ← query 2 (updateRole i r);
      match updated with
      | None => reclassify 3 UPDATE_MEMBER_ROLE o (userId existing)
      | Some m =>
          _ ← logAction tenant admin_ UPDATE_MEMBER_ROLE (userId existing) None;
          mret m
      end
  end.

Definition deleteMember (o i : string) (now : Z) : svc () :=
  found ← select 0 (findActiveById i);
  match found with
  | None =>
      _ ← logAction tenant admin_ DELETE_MEMBER i (Some "Member not found or already deleted");
      throw MemberAlreadyDeletedError
  | Some existing =>
      if negb (String.eqb (orgId existing) o) then
        _ ← logAction tenant admin_ DELETE_MEMBER (userId existing)
              (Some "Cross-organisation member operation denied");
        throw MemberNotFoundError
      else
      last ← (if bool_decide (role existing = owner)
              then ownerCount ← select 1 (countActiveOwners o); mret (ownerCount <=? 1)
              else mret false);
      if last : bool then
        _ ← logAction tenant admin_ DELETE_MEMBER (userId existing)
              (Some "Cannot remove the last active owner");
        throw LastOwnerError
      else
      deleted ← query 2 (softDelete i admin_ now);
      match deleted with
      | None => reclassify 3 DELETE_MEMBER o (userId existing)
      | Some _ => logAction tenant admin_ DELETE_MEMBER (userId existing) None
      end
  end.

Definition restoreMember (o i : string) : svc Member :=
  found ← select 0 (findById i);
  match found with
  | None =>
      _ ← logAction tenant admin_ RESTORE_MEMBER i (Some "Member not found");
      throw MemberNotFoundError
  | Some existing =>
      if is_active existing then throw MemberAlreadyDeletedError else
      if negb (String.eqb (orgId existing) o) then
        _ ← logAction tenant admin_ RESTORE_MEMBER (userId existing)
              (Some "Cross-organisation member operation denied");
        throw MemberNotFoundError
      else
      conflict ← select 1 (findActiveByOrgAndUser (orgId existing) (userId existing));
      match conflict with
      | Some _ =>
          _ ← logAction tenant admin_ RESTORE_MEMBER (userId existing)
                (Some "An active membership already exists for this user in this organisation");
          throw ActiveMembershipExistsError
      | None =>
          restored ← query 2 (restore i);
          match restored with
          | None => throw MemberAlreadyDeletedError
          | Some m =>
              _ ← logAction tenant admin_ RESTORE_MEMBER (userId existing) None;
              mret m
          end
      end
  end.

(** [ORDER BY created_at ASC] leaves the order of equal times to the server. *)
Variable order_by_created_at : list (string * Member) → list (string * Member).

(** [COUNT( * ) OVER()] is read off the first row of the page. *)
Definition listByOrg (o : string) (includeDeleted : bool) (lim off : Z) (t : table)
  : result string ((list (string * Member) * Z) * table) :=
  if lim <? 0 then Err "2201W" else if off <? 0 then Err "2201X" else
  let all := order_by_created_at (map_to_list
    (filter (λ e, String.eqb (orgId e.2) o && (includeDeleted || is_active e.2) = true) t)) in
  let rows := take (Z.to_nat lim) (drop (Z.to_nat off) all) in
  Ok ((rows, match rows with [] => 0 | _ => Z.of_nat (length all) end), t).

Definition listMembers (o : string) (pg lim off : option Z) (includeDeleted : bool)
  : svc ListMembersResponse :=
  let lim := default 50 lim in
  let off := default 0 off in
  _ ← logAction tenant admin_ LIST_MEMBERS admin_ None;
  res ← query 0 (listByOrg o includeDeleted lim off);
  let '(ms, tot) := res in
  mret {| members := ms; total := tot; page := default 1 pg; limit := lim;
          hasNext := off + Z.of_nat (length ms) <? tot; offset := off |}.
End Service.

(** ** Specification *)

Inductive call :=
| Invite (newId : string) (now : Z) (o u mail : string) (r : option MemberRole)
| UpdateRole (o i : string) (r : MemberRole)
| Delete (o i : string) (now : Z)
| Restore (o i : string).

Definition call_org (c : call) : string :=
  match c with
  | Invite _ _ o _ _ _ | UpdateRole o _ _ | Delete o _ _ | Restore o _ => o
  end.

(** A call that no other session interleaves with. *)
Definition alone : sessions := λ _ t, t.

Definition run_call (tenant admin_ : string) (s : state) (c : call) : state :=
  match c with
  | Invite n now o u mail r => (inviteMember tenant admin_ n now o u mail r alone s).2
  | UpdateRole o i r => (updateMemberRole tenant admin_ o i r alone s).2
  | Delete o i now => (deleteMember tenant admin_ o i now alone s).2
  | Restore o i => (restoreMember tenant admin_ o i alone s).2
  end.

(** The partial unique index. *)
Definition unique_active (t : table) : Prop := ∀ i j m m',
  t !! i = Some m → t !! j = Some m' → is_active m = true → is_active m' = true →
  orgId m = orgId m' → userId m = userId m' → i = j.

Definition has_owner (o : string) (t : table) : Prop :=
  ∃ i m, t !! i = Some m ∧ is_active_owner o m = true.

Definition slot_free (o u : string) (t : table) : Prop := ∀ i m,
  t !! i = Some m → same_slot o u m = false.

(** What a single call may do to the table: nothing, or write one row of its
    own organisation, new in a free slot, or an existing one, which becomes
    active only in a free slot and gives up ownership only if another active
    owner is left. *)
Inductive effect (o : string) (t : table) : table → Prop :=
| no_change : effect o t t
| write_row i m' :
    orgId m' = o →
    match t !! i with
    | None => slot_free o (userId m') t
    | Some m => orgId m = o ∧ userId m = userId m' ∧
        (is_active m' = true → is_active m = true ∨ slot_free o (userId m') t) ∧
        (is_active_owner o m = true → is_active_owner o m' = false → 1 < countActiveOwners o t)
    end →
    effect o t (<[i := m']> t).

Lemma find_slot_None o u t : findActiveByOrgAndUser o u t = None ↔ slot_free o u t.
Proof.
  unfold findActiveByOrgAndUser, slot_free. rewrite head_None. split.
  - intros H%map_to_list_empty_iff i m Hi. destruct (same_slot o u m) eqn:E; [|done].
    assert (filter (λ e, same_slot o u e.2 = true) t !! i = Some m) as Hf
      by by apply map_lookup_filter_Some.
    rewrite H in Hf. done.
  - intros H. apply map_to_list_empty_iff, map_empty_filter_2. intros i m Hi Hs.
    simpl in Hs. rewrite (H i m Hi) in Hs. done.
Qed.

Lemma countActiveOwners_pos o t : 0 < countActiveOwners o t ↔ has_owner o t.
Proof.
  unfold countActiveOwners, has_owner. split.
  - intros H. destruct (map_choose (filter (λ e, is_active_owner o e.2 = true) t)) as (i & m & Hi).
    { intros E. rewrite E in H. by rewrite map_size_empty in H. }
    apply map_lookup_filter_Some in Hi. by exists i, m.
  - intros (i & m & Hi & Ho).
    assert (filter (λ e, is_active_owner o e.2 = true) t !! i = Some m) as Hf
      by by apply map_lookup_filter_Some.
    destruct (size _) eqn:E; [|lia]. apply map_size_empty_inv in E. rewrite E in Hf. done.
Qed.

(** Another active owner is left when one of several is rewritten. *)
Lemma other_owner o t i : 1 < countActiveOwners o t →
  ∃ j m, j ≠ i ∧ t !! j = Some m ∧ is_active_owner o m = true.
Proof.
  unfold countActiveOwners. set (f := filter _ t). intros H.
  assert (delete i f ≠ ∅) as Hne.
  { intros E. assert (size (delete i f) = 0%nat) as E' by by rewrite E, map_size_empty.
    rewrite map_size_delete in E'. destruct (f !! i); simpl in E'; lia. }
  apply map_choose in Hne as (j & m & [Hji Hj]%lookup_delete_Some).
  apply map_lookup_filter_Some in Hj as [Hj Ho]. by exists j, m.
Qed.

Ltac run_svc :=
  repeat progress (unfold mbind, svc_bind, mret, svc_ret, throw, select, query, logAction,
    reclassify, alone; simpl).

Section Effects.
Variables tenant admin_ : string.

Lemma invite_effect n now o u mail r s :
  effect o (rows s) (rows (inviteMember tenant admin_ n now o u mail r alone s).2).
Proof.
  unfold inviteMember. run_svc.
  destruct (findActiveByOrgAndUser o u (rows s)) eqn:Hf; [constructor|].
  unfold insert_member; simpl. rewrite Hf. run_svc.
  destruct (rows s !! n) as [m0|] eqn:Hn; run_svc; [constructor|].
  apply write_row; [done|]. simpl. rewrite Hn. by apply find_slot_None.
Qed.

Lemma find_active_inv i t m : findActiveById i t = Some m → t !! i = Some m ∧ is_active m = true.
Proof.
  unfold findActiveById. destruct (t !! i) as [m'|]; simpl; [|done].
  destruct (is_active m') eqn:E; [|done]. by intros [= <-].
Qed.

Lemma update_effect o i r s :
  effect o (rows s) (rows (updateMemberRole tenant admin_ o i r alone s).2).
Proof.
  unfold updateMemberRole. run_svc.
  destruct (findActiveById i (rows s)) as [m|] eqn:Hm; run_svc; [|constructor].
  pose proof (find_active_inv _ _ _ Hm) as [Hi Ha].
  destruct (String.eqb_spec (orgId m) o) as [Ho|]; run_svc; [|constructor].
  assert ((is_active_owner o m = true → is_active_owner o (set_role m r) = false →
      1 < countActiveOwners o (rows s)) →
    effect o (rows s) (<[i := set_role m r]> (rows s))) as Hw.
  { intros H. apply write_row; [done|]. rewrite Hi. split_and!; [done|done|by left|done]. }
  destruct (bool_decide (role m = owner) && bool_decide (r ≠ owner)) eqn:Hg; run_svc.
  - destruct (Z.leb_spec (countActiveOwners o (rows s)) 1); run_svc; [constructor|].
    unfold updateRole. rewrite Hm. by apply Hw.
  - unfold updateRole. rewrite Hm. apply Hw.
    unfold is_active_owner, set_role, is_active; simpl. intros H1 H2.
    breflect. naive_solver.
Qed.

Lemma delete_effect o i now s :
  effect o (rows s) (rows (deleteMember tenant admin_ o i now alone s).2).
Proof.
  unfold deleteMember. run_svc.
  destruct (findActiveById i (rows s)) as [m|] eqn:Hm; run_svc; [|constructor].
  pose proof (find_active_inv _ _ _ Hm) as [Hi Ha].
  destruct (String.eqb_spec (orgId m) o) as [Ho|]; run_svc; [|constructor].
  assert ((is_active_owner o m = true → 1 < countActiveOwners o (rows s)) →
    effect o (rows s) (<[i := set_deleted m (Some now) (Some admin_)]> (rows s))) as Hw.
  { intros H. apply write_row; [done|]. rewrite Hi. split_and!; [done|done|by left|auto]. }
  destruct (bool_decide (role m = owner)) eqn:Hg; run_svc.
  - destruct (Z.leb_spec (countActiveOwners o (rows s)) 1); run_svc; [constructor|].
    unfold softDelete. rewrite Hm. by apply Hw.
  - unfold softDelete. rewrite Hm. apply Hw. unfold is_active_owner. rewrite Hg, andb_false_r. done.
Qed.

Lemma restore_effect o i s :
  effect o (rows s) (rows (restoreMember tenant admin_ o i alone s).2).
Proof.
  unfold restoreMember, findById. run_svc.
  destruct (rows s !! i) as [m|] eqn:Hi; run_svc; [|constructor].
  destruct (is_active m) eqn:Ha; run_svc; [constructor|].
  destruct (String.eqb_spec (orgId m) o) as [Ho|]; run_svc; [|constructor].
  destruct (findActiveByOrgAndUser (orgId m) (userId m) (rows s)) eqn:Hf; run_svc; [constructor|].
  unfold restore. rewrite Hi, Ha, Hf. run_svc. apply write_row; [done|]. rewrite Hi.
  apply find_slot_None in Hf. rewrite Ho in Hf.
  split_and!; [done|done|by right|]. unfold is_active_owner. rewrite Ha, andb_false_r. done.
Qed.

Lemma call_effect s c : effect (call_org c) (rows s) (rows (run_call tenant admin_ s c)).
Proof.
  destruct c; simpl; [apply invite_effect|apply update_effect|apply delete_effect|apply restore_effect].
Qed.
End Effects.

(** ** Sequences of calls *)

Lemma active_owner_org o m : is_active_owner o m = true → orgId m = o.
Proof. unfold is_active_owner. intros H. breflect. naive_solver. Qed.

Lemma effect_keeps_owner o p t t' : effect o t t' → has_owner p t → has_owner p t'.
Proof.
  intros [|i m' Ho H]; [done|]. intros (j & mj & Hj & Hown).
  destruct (decide (j = i)) as [->|Hne].
  2: { exists j, mj. by rewrite lookup_insert_ne. }
  rewrite Hj in H. destruct H as (Hmo & _ & _ & Hg).
  destruct (is_active_owner p m') eqn:E; [by exists i, m'; rewrite lookup_insert_eq|].
  pose proof (active_owner_org _ _ Hown). subst p. rewrite Hmo in *. specialize (Hg Hown E).
  destruct (other_owner _ _ i Hg) as (k & mk & Hk & Hkt & Hko).
  exists k, mk. by rewrite lookup_insert_ne.
Qed.

Lemma slot_free_conflict o u t i m : slot_free o u t → t !! i = Some m →
  is_active m = true → orgId m = o → userId m = u → False.
Proof.
  intros Hf Hi Ha <- <-. specialize (Hf i m Hi). unfold same_slot in Hf.
  by rewrite !String.eqb_refl, Ha in Hf.
Qed.

Lemma effect_unique o t t' : effect o t t' → unique_active t → unique_active t'.
Proof.
  intros [|i m' Ho H] Hu; [done|].
  (* the written row has no active rival *)
  assert (∀ j m, j ≠ i → t !! j = Some m → is_active m = true → is_active m' = true →
    orgId m = orgId m' → userId m = userId m' → False) as Hkey.
  { intros j m Hne Hj Ham Ham' Hoo Huu. destruct (t !! i) as [m0|] eqn:Hi.
    - destruct H as (Ho0 & Hu0 & Hact & _). destruct (Hact Ham') as [Ha0|Hf].
      + apply Hne, (Hu j i m m0); [done|done|done|done|congruence|congruence].
      + by apply (slot_free_conflict o (userId m') t j m Hf); [done|done|congruence|].
    - by apply (slot_free_conflict o (userId m') t j m H); [done|done|congruence|]. }
  intros j k mj mk Hj Hk. destruct (decide (j = i)) as [->|Hji], (decide (k = i)) as [->|Hki]; [done| | |].
  - rewrite lookup_insert_eq in Hj. rewrite lookup_insert_ne in Hk by done. injection Hj as <-.
    intros. exfalso. by apply (Hkey k mk).
  - rewrite lookup_insert_eq in Hk. rewrite lookup_insert_ne in Hj by done. injection Hk as <-.
    intros. exfalso. by apply (Hkey j mj).
  - rewrite lookup_insert_ne in Hj, Hk by done. by apply Hu.
Qed.

Lemma effect_isolated o p t t' i m : effect o t t' → o ≠ p → orgId m = p →
  t !! i = Some m ↔ t' !! i = Some m.
Proof.
  intros [|j m' Ho H] Hop Hm; [done|]. destruct (decide (j = i)) as [->|].
  - rewrite lookup_insert_eq. split.
    + intros Hi. rewrite Hi in H. destruct H as [? _]. congruence.
    + intros [= ->]. congruence.
  - by rewrite lookup_insert_ne.
Qed.

Lemma effect_keeps_rows o t t' i : effect o t t' → is_Some (t !! i) → is_Some (t' !! i).
Proof.
  intros [|j m' Ho H] Hi; [done|]. destruct (decide (j = i)) as [->|].
  - by rewrite lookup_insert_eq.
  - by rewrite lookup_insert_ne.
Qed.

(** Calls that do not overlap keep an organisation manageable and apart
    from the others: over any sequence of invitations, role changes, deletions
    and restorations by any administrators, an organisation that has an active
    owner keeps one, no user gets two active memberships in an organisation,
    the rows of an organisation that no call names are untouched, whatever ids
    the calls name, and no row is ever removed. *)
Theorem member_calls_safe (cs : list (string * string * call)) (s : state) :
  let s' := foldl (λ s c, run_call c.1.1 c.1.2 s c.2) s cs in
  (∀ o, has_owner o (rows s) → has_owner o (rows s')) ∧
  (unique_active (rows s) → unique_active (rows s')) ∧
  (∀ p, Forall (λ c, call_org c.2 ≠ p) cs → ∀ i m, orgId m = p →
     rows s !! i = Some m ↔ rows s' !! i = Some m) ∧
  (∀ i, is_Some (rows s !! i) → is_Some (rows s' !! i)).
Proof.
  revert s. induction cs as [|[[tn ad] c] cs IH]; intros s s'.
  { split_and!; naive_solver. }
  pose proof (call_effect tn ad s c) as He. subst s'; simpl.
  destruct (IH (run_call tn ad s c)) as (IH1 & IH2 & IH3 & IH4). split_and!.
  - intros o Ho. apply IH1. by eapply effect_keeps_owner.
  - intros Hu. apply IH2. by eapply effect_unique.
  - intros p Hp i m Hm. apply Forall_cons in Hp as [Hc Hp]. rewrite <- IH3 by done.
    by eapply effect_isolated.
  - intros i Hi. apply IH4. by eapply effect_keeps_rows.
Qed.

(** ** Overlapping calls *)

Lemma count_without o t i m m' : t !! i = Some m → is_active_owner o m = true →
  is_active_owner o m' = false →
  countActiveOwners o (<[i := m']> t) = countActiveOwners o t - 1.
Proof.
  intros Hi Ho Hn. unfold countActiveOwners.
  rewrite map_filter_insert_False by (simpl; by rewrite Hn).
  rewrite map_filter_delete, map_size_delete.
  assert (filter (λ e, is_active_owner o e.2 = true) t !! i = Some m) as Hf
    by by apply map_lookup_filter_Some. rewrite Hf.
  assert (size (filter (λ e, is_active_owner o e.2 = true) t) ≠ 0%nat).
  { intros E%map_size_empty_inv. by rewrite E in Hf. }
  lia.
Qed.

(** Demoting one of several owners, when nobody else interferes. *)
Lemma demote_owner tenant admin_ o i m s others :
  rows s !! i = Some m → is_active_owner o m = true → 1 < countActiveOwners o (rows s) →
  others 0%nat (rows s) = rows s → others 1%nat (rows s) = rows s →
  others 2%nat (rows s) !! i = Some m →
  ∃ s', updateMemberRole tenant admin_ o i member others s = (Ok (set_role m member), s') ∧
    rows s' = <[i := set_role m member]> (others 2%nat (rows s)).
Proof.
  intros Hi Ho Hc H0 H1 H2. pose proof (active_owner_org _ _ Ho) as Horg.
  assert (role m = owner ∧ is_active m = true) as [Hr Ha].
  { unfold is_active_owner in Ho. breflect. naive_solver. }
  eexists. unfold updateMemberRole. run_svc. rewrite H0. unfold findActiveById at 1.
  rewrite Hi. simpl. rewrite Ha. run_svc. rewrite Horg, String.eqb_refl. run_svc.
  rewrite (bool_decide_true (role m = owner)) by done. run_svc.
  rewrite ?H0, ?H1. destruct (Z.leb_spec (countActiveOwners o (rows s)) 1); [lia|]. run_svc.
  rewrite ?H0, ?H1. unfold updateRole, findActiveById. rewrite H2. simpl. rewrite Ha. done.
Qed.

(** The last-owner guard does not survive concurrency: when an
    organisation has exactly two active owners and two calls demote them, the
    second one running between the owner count and the update of the first,
    both calls succeed and the organisation has no active owner left. *)
Theorem last_owner_race tenant a b o i j mi mj t log :
  i ≠ j → t !! i = Some mi → t !! j = Some mj →
  is_active_owner o mi = true → is_active_owner o mj = true → countActiveOwners o t = 2 →
  let second x := updateMemberRole tenant b o j member alone {| rows := x; audit := [] |} in
  let others n x := if (n =? 2)%nat then rows (second x).2 else x in
  ∃ s', isOk (second t).1 = true ∧
    updateMemberRole tenant a o i member others {| rows := t; audit := log |} =
      (Ok (set_role mi member), s') ∧
    countActiveOwners o (rows s') = 0.
Proof.
  intros Hne Hi Hj Hoi Hoj Hc second others.
  assert (∀ m, is_active_owner o (set_role m member) = false) as Hno.
  { intros m. unfold is_active_owner. simpl. by rewrite andb_false_r. }
  destruct (demote_owner tenant b o j mj {| rows := t; audit := [] |} alone) as (s2 & E2 & Hs2);
    [done|done|simpl; lia|done|done|done|].
  assert (second t = (Ok (set_role mj member), s2)) as E2' by exact E2.
  assert (others 2%nat t = <[j := set_role mj member]> t) as H2.
  { unfold others. simpl. rewrite E2'. exact Hs2. }
  destruct (demote_owner tenant a o i mi {| rows := t; audit := log |} others) as (s' & E & Hs');
    [done|done|simpl; lia|done|done|simpl; by rewrite H2, lookup_insert_ne|].
  exists s'. split_and!; [by rewrite E2'|done|]. rewrite Hs'. simpl. rewrite H2.
  rewrite (count_without o _ i mi) by (rewrite ?lookup_insert_ne by done; done || apply Hno).
  rewrite (count_without o t j mj) by (done || apply Hno). lia.
Qed.

Definition owner_row (u : string) : Member :=
  {| orgId := "acme"; userId := u; email := u; role := owner; createdAt := 0; updatedAt := 0;
     deletedAt := None; deletedBy := None |}.

Lemma last_owner_race_witness :
  let t := {["m1" := owner_row "u1"; "m2" := owner_row "u2"]} : table in
  let second x := updateMemberRole "t" "m2" "acme" "m2" member alone {| rows := x; audit := [] |} in
  let others n x := if (n =? 2)%nat then rows (second x).2 else x in
  ∃ s', isOk (second t).1 = true ∧
    updateMemberRole "t" "m1" "acme" "m1" member others {| rows := t; audit := [] |} =
      (Ok (set_role (owner_row "u1") member), s') ∧
    countActiveOwners "acme" (rows s') = 0.
Proof.
  intros t. apply (last_owner_race "t" "m1" "m2" "acme" "m1" "m2" (owner_row "u1") (owner_row "u2"));
    vm_compute; congruence.
Defined.
