(* ===== verification/KeyManager.v ===== *)
(** * Key management: [KeyManager] and [KekManager]

    [services/keyManager/index.ts] and [types.ts]. The signing keys and the key
    encryption keys live in ordered maps; an object that the source mutates in
    place is the entry of the map under its own identifier. Times are
    milliseconds. The functions of [jose] and [crypto] are parameters: key
    generation and import, [SignJWT], [decodeProtectedHeader], [jwtVerify]. A
    method that awaits is cut at the await where other calls can run. *)

From stdpp Require Import base option list strings relations.
From Stdlib Require Import ZArith Lia.
From S2P Require Import Prelude StateTransition.
Import Keys.

Open Scope Z_scope.

(** ** Signing keys *)

Record ManagedKey := {
  kid : string;
  state : KeyState;
  privateKey : string;
  publicKey : string;
  createdAt : Z;
  retiredAt : option Z
}.

Record KeyManagerConfig := {
  gracePeriodSeconds : Z;
  clockSkewSeconds : Z;
  privateKeyPem : option string;
  initialKid : option string
}.

Inductive key_event := KEY_CREATED | KEY_ROTATED | KEY_RETIRED | KEY_PRUNED.

Record KeyAuditEvent := {
  timestamp : Z;
  event : key_event;
  ev_kid : string;
  previousActiveKid : option string
}.

Inductive key_error :=
| NotInitialized
| RotationRejected (from to : KeyState)
| UndecodableHeader
| MissingKid
| UnknownKey (kid : string)
| VerificationFailed
| CurrentKeyMissing.

(** A [KeyManager]: its keys by [kid], the active one, the audit log, and the
    cached JWK set (the [kid] and public key of each entry). *)
Record manager := {
  keys : jsmap string ManagedKey;
  activeKid : option string;
  auditLog : list KeyAuditEvent;
  jwksCache : option (list (string * string));
  jwksCacheExpiresAt : Z
}.

Definition JWKS_CACHE_TTL_MS : Z := 10 * 60 * 1000.

Definition new_KeyManager : manager :=
  {| keys := []; activeKid := None; auditLog := []; jwksCache := None; jwksCacheExpiresAt := 0 |}.

Definition windowMs (cfg : KeyManagerConfig) : Z :=
  (gracePeriodSeconds cfg + clockSkewSeconds cfg) * 1000.

Definition emitAudit (e : KeyAuditEvent) (m : manager) : manager :=
  {| keys := keys m; activeKid := activeKid m; auditLog := auditLog m ++ [e];
     jwksCache := jwksCache m; jwksCacheExpiresAt := jwksCacheExpiresAt m |}.

Definition invalidateJwksCache (m : manager) : manager :=
  {| keys := keys m; activeKid := activeKid m; auditLog := auditLog m;
     jwksCache := None; jwksCacheExpiresAt := 0 |}.

Definition set_keys (ks : jsmap string ManagedKey) (m : manager) : manager :=
  {| keys := ks; activeKid := activeKid m; auditLog := auditLog m;
     jwksCache := jwksCache m; jwksCacheExpiresAt := jwksCacheExpiresAt m |}.

(** The end of [_generateKey] and of [_importKey]: store the key, activate it. *)
Definition install (i : string) (kp : string * string) (now : Z) (m : manager) : manager :=
  {| keys := jm_set i {| kid := i; state := active; privateKey := kp.1; publicKey := kp.2;
                         createdAt := now; retiredAt := None |} (keys m);
     activeKid := Some i; auditLog := auditLog m;
     jwksCache := jwksCache m; jwksCacheExpiresAt := jwksCacheExpiresAt m |}.

(** [initialize], with the result of generating a key pair and of importing a
    PEM; [None] is an exception, after which nothing has changed. *)
Definition initialize (cfg : KeyManagerConfig) (uuid : string) (now : Z)
    (generated : option (string * string)) (imported : string → option (string * string))
    (m : manager) : manager :=
  match activeKid m with
  | Some _ => m
  | None =>
      let '(i, kp) :=
        if falsy (privateKeyPem cfg) then (uuid, generated)
        else (default uuid (initialKid cfg), imported (default EmptyString (privateKeyPem cfg))) in
      match kp with
      | None => m
      | Some kp => invalidateJwksCache (emitAudit {| timestamp := now; event := KEY_CREATED;
          ev_kid := i; previousActiveKid := None |} (install i kp now m))
      end
  end.

(** [getCurrentKey]; the map may have lost the key, which the source ignores
    ([!]) and which then fails at the first use. *)
Definition getCurrentKey (m : manager) : result key_error ManagedKey :=
  match activeKid m with
  | None => Err NotInitialized
  | Some i => match jm_get i (keys m) with Some k => Ok k | None => Err CurrentKeyMissing end
  end.

Definition isInitialized (m : manager) : bool := isSome (activeKid m).

Definition verifies (cfg : KeyManagerConfig) (now : Z) (k : ManagedKey) : bool :=
  bool_decide (state k = active) ||
  match retiredAt k with Some r => now - r <? windowMs cfg | None => false end.

Definition getAllVerificationKeys (cfg : KeyManagerConfig) (now : Z) (m : manager)
  : list ManagedKey := filter (λ k, verifies cfg now k = true) (jm_values (keys m)).

(** [rotate] up to the await: retire the current key. *)
Definition rotate_begin (now : Z) (m : manager) : manager * result key_error string :=
  match getCurrentKey m with
  | Err e => (m, Err e)
  | Ok previous =>
      if negb (success (trySigningKeyTransition (state previous) retired))
      then (m, Err (RotationRejected (state previous) retired))
      else
        let k := {| kid := kid previous; state := retired; privateKey := privateKey previous;
                    publicKey := publicKey previous; createdAt := createdAt previous;
                    retiredAt := Some now |} in
        (emitAudit {| timestamp := now; event := KEY_RETIRED; ev_kid := kid previous;
                      previousActiveKid := None |} (set_keys (jm_set (kid previous) k (keys m)) m),
         Ok (kid previous))
  end.

Definition expired (cfg : KeyManagerConfig) (now : Z) (k : ManagedKey) : bool :=
  bool_decide (state k = retired) &&
  match retiredAt k with Some r => windowMs cfg <=? now - r | None => false end.

Definition pruneExpiredKeys (cfg : KeyManagerConfig) (now : Z) (m : manager)
  : manager * list string :=
  let pruned := jm_keys (filter (λ e, expired cfg now e.2 = true) (keys m)) in
  let m1 := {| keys := filter (λ e, expired cfg now e.2 = false) (keys m);
               activeKid := activeKid m;
               auditLog := auditLog m ++ ((λ i, {| timestamp := now; event := KEY_PRUNED;
                 ev_kid := i; previousActiveKid := None |}) <$> pruned);
               jwksCache := jwksCache m; jwksCacheExpiresAt := jwksCacheExpiresAt m |} in
  (match pruned with [] => m1 | _ => invalidateJwksCache m1 end, pruned).

(** [rotate] after the key pair has been generated. *)
Definition rotate_finish (cfg : KeyManagerConfig) (uuid : string) (kp : string * string)
    (now : Z) (retiredKid : string) (m : manager) : manager :=
  let m1 := emitAudit {| timestamp := now; event := KEY_ROTATED; ev_kid := uuid;
                         previousActiveKid := Some retiredKid |} (install uuid kp now m) in
  invalidateJwksCache (pruneExpiredKeys cfg now m1).1.

(** [rotate] as a whole, when nothing runs during the generation; [None] is the
    exception of the generator. *)
Definition rotate (cfg : KeyManagerConfig) (uuid : string) (generated : option (string * string))
    (now now' : Z) (m : manager) : manager * result key_error (option (string * string)) :=
  match rotate_begin now m with
  | (m1, Err e) => (m1, Err e)
  | (m1, Ok old) =>
      match generated with
      | None => (m1, Ok None)
      | Some kp => (rotate_finish cfg uuid kp now' old m1, Ok (Some (uuid, old)))
      end
  end.

(** The JWK set holds the public keys only. *)
Definition getPublicJwks (cfg : KeyManagerConfig) (now : Z) (m : manager)
  : manager * list (string * string) :=
  let fresh := (λ k, (kid k, publicKey k)) <$> getAllVerificationKeys cfg now m in
  let refill := ({| keys := keys m; activeKid := activeKid m; auditLog := auditLog m;
                    jwksCache := Some fresh; jwksCacheExpiresAt := now + JWKS_CACHE_TTL_MS |},
                 fresh) in
  match jwksCache m with
  | Some c => if now <? jwksCacheExpiresAt m then (m, c) else refill
  | None => refill
  end.

(** ** Tokens *)

(** What [jose] provides, with the facts the code relies on. *)
Class Jose (payload : Type) := {
  sign : payload → string → string → string → Z → string;   (* kid, key, expiresIn, iat *)
  decodeProtectedHeader : string → option (option string);
  jwtVerify : string → string → Z → Z → option payload;      (* token, key, tolerance, now *)
  expiresAt : string → Z;
  key_pair : string → string → Prop;
  header_of_signed p i k x iat : decodeProtectedHeader (sign p i k x iat) = Some (Some i);
  verify_signed p i priv pub x iat tolerance now : key_pair priv pub →
    now < expiresAt (sign p i priv x iat) + tolerance * 1000 →
    jwtVerify (sign p i priv x iat) pub tolerance now = Some p
}.

Section Tokens.
Context {payload : Type} `{!Jose payload}.

Definition signToken (p : payload) (expiresIn : string) (now : Z) (m : manager)
  : result key_error string :=
  k ← getCurrentKey m; Ok (sign p (kid k) (privateKey k) expiresIn now).

Definition verifyToken (cfg : KeyManagerConfig) (token : string) (now : Z) (m : manager)
  : result key_error payload :=
  match decodeProtectedHeader token with
  | None => Err UndecodableHeader
  | Some i =>
      if falsy i then Err MissingKid else
      let i := default EmptyString i in
      match list_find (λ k, kid k = i) (getAllVerificationKeys cfg now m) with
      | None => Err (UnknownKey i)
      | Some (_, k) =>
          match jwtVerify token (publicKey k) (clockSkewSeconds cfg) now with
          | None => Err VerificationFailed
          | Some p => Ok p
          end
      end
  end.
End Tokens.

(** ** The manager over time *)

Section Rotation.
Context {payload : Type} `{!Jose payload}.
Variable cfg : KeyManagerConfig.

(** A manager with the rotations waiting for their key pair, at a time. *)
Record system := { mgr : manager; inflight : list string; clock : Z }.

(** Calls interleave at their awaits; time does not run backwards; a generated
    identifier is new and a generated pair is a pair. *)
Inductive kstep (s : system) : system → Prop :=
| k_begin now m old : clock s ≤ now → rotate_begin now (mgr s) = (m, Ok old) →
    kstep s {| mgr := m; inflight := old :: inflight s; clock := now |}
| k_finish uuid priv pub now old rest : clock s ≤ now → inflight s ≡ₚ old :: rest →
    uuid ∉ jm_keys (keys (mgr s)) → uuid ≠ EmptyString → key_pair priv pub →
    kstep s {| mgr := rotate_finish cfg uuid (priv, pub) now old (mgr s); inflight := rest;
               clock := now |}
| k_fail old rest now : clock s ≤ now → inflight s ≡ₚ old :: rest →
    kstep s {| mgr := mgr s; inflight := rest; clock := now |}
| k_prune now : clock s ≤ now →
    kstep s {| mgr := (pruneExpiredKeys cfg now (mgr s)).1; inflight := inflight s; clock := now |}
| k_jwks now : clock s ≤ now →
    kstep s {| mgr := (getPublicJwks cfg now (mgr s)).1; inflight := inflight s; clock := now |}.

(** Every stored key is under its own identifier, is a pair, and is retired at
    a time in the past unless it is the active one. *)
Record key_ok (m : manager) (now : Z) (i : string) (k : ManagedKey) : Prop := {
  key_kid : kid k = i;
  key_named : i ≠ EmptyString;
  key_paired : key_pair (privateKey k) (publicKey k);
  key_state : match state k with
              | active => retiredAt k = None ∧ activeKid m = Some i
              | retired => ∃ r, retiredAt k = Some r ∧ r ≤ now
              end
}.

Record keys_ok (s : system) : Prop := {
  keys_NoDup : NoDup (jm_keys (keys (mgr s)));
  keys_each i k : jm_get i (keys (mgr s)) = Some k → key_ok (mgr s) (clock s) i k;
  (** at most one rotation waits, and only while the current key is retired *)
  keys_one : (length (inflight s) ≤ 1)%nat;
  keys_inflight : inflight s ≠ [] → ∃ i, activeKid (mgr s) = Some i ∧
    ∀ k, jm_get i (keys (mgr s)) = Some k → state k = retired
}.

Lemma rotate_begin_Ok now m m' old : rotate_begin now m = (m', Ok old) →
  ∃ i k, activeKid m = Some i ∧ jm_get i (keys m) = Some k ∧ state k = active ∧ old = kid k ∧
    activeKid m' = Some i ∧
    keys m' = jm_set (kid k) {| kid := kid k; state := retired; privateKey := privateKey k;
      publicKey := publicKey k; createdAt := createdAt k; retiredAt := Some now |} (keys m).
Proof.
  unfold rotate_begin, getCurrentKey. destruct (activeKid m) as [i|] eqn:Ha; [|intros; simplify_eq].
  destruct (jm_get i (keys m)) as [k|] eqn:Hk; [|intros; simplify_eq].
  destruct (state k) eqn:Hs; simpl; intros [= <- <-]. exists i, k. split_and!; done.
Qed.

Lemma prune_keys now m :
  keys (pruneExpiredKeys cfg now m).1 = filter (λ e, expired cfg now e.2 = false) (keys m) ∧
  activeKid (pruneExpiredKeys cfg now m).1 = activeKid m.
Proof. unfold pruneExpiredKeys. simpl. by destruct (jm_keys _). Qed.

Lemma prune_get now m i : NoDup (jm_keys (keys m)) →
  jm_get i (keys (pruneExpiredKeys cfg now m).1) =
    k ← jm_get i (keys m); if expired cfg now k then None else Some k.
Proof.
  intros Hnd. rewrite (proj1 (prune_keys now m)).
  rewrite (jm_get_filter (λ e, expired cfg now e.2 = false)) by done.
  destruct (jm_get i (keys m)) as [k|]; simpl; [|done]. destruct (expired cfg now k); done.
Qed.

Lemma prune_NoDup now m : NoDup (jm_keys (keys m)) →
  NoDup (jm_keys (keys (pruneExpiredKeys cfg now m).1)).
Proof.
  intros Hnd. rewrite (proj1 (prune_keys now m)). by apply jm_NoDup_filter.
Qed.

Lemma jwks_same now m : keys (getPublicJwks cfg now m).1 = keys m ∧
  activeKid (getPublicJwks cfg now m).1 = activeKid m.
Proof. unfold getPublicJwks. destruct (jwksCache m); [destruct (now <? jwksCacheExpiresAt m)|]; done. Qed.

Lemma finish_keys uuid kp now old m :
  keys (rotate_finish cfg uuid kp now old m) =
    keys (pruneExpiredKeys cfg now (install uuid kp now m)).1 ∧
  activeKid (rotate_finish cfg uuid kp now old m) = Some uuid.
Proof.
  unfold rotate_finish. set (m1 := emitAudit _ _).
  destruct (prune_keys now m1) as [E1 E2], (prune_keys now (install uuid kp now m)) as [E3 _].
  unfold invalidateJwksCache; cbn [keys activeKid]. rewrite E1, E2, E3. done.
Qed.

(** The key is unchanged apart from its retirement. *)
Lemma key_ok_mono m m' now now' i k : key_ok m now i k → now ≤ now' →
  activeKid m' = activeKid m ∨ state k = retired → key_ok m' now' i k.
Proof.
  intros [H1 H2 H3 H4] Hle Ha. constructor; try done. destruct (state k).
  - destruct Ha as [->|]; [done|done].
  - destruct H4 as (r & ? & ?). exists r. split; [done|lia].
Qed.

Lemma keys_ok_step s s' : kstep s s' → keys_ok s → keys_ok s'.
Proof.
  intros Hst [Hnd Hk Hone Hin]. destruct Hst as
    [now m old Hle Hb|uuid priv pub now old rest Hle Hp Hu Hne Hpair|old rest now Hle Hp|now Hle|now Hle].
  - apply rotate_begin_Ok in Hb as (i & k & Ha & Hi & Hs & -> & Ha' & Hks).
    destruct (Hk i k Hi) as [<- Hne Hpr Hst]. constructor; cbn [mgr inflight clock].
    + rewrite Hks. by apply jm_NoDup_set.
    + intros j kj. rewrite Hks, jm_get_set. case_decide as E.
      * subst j. intros [= <-]. constructor; simpl; try done. exists now. split; [done|lia].
      * intros Hj. apply (key_ok_mono (mgr s) _ (clock s)); [by apply Hk|done|left; congruence].
    + destruct (inflight s) as [|x l]; simpl; [lia|]. destruct (Hin ltac:(done)) as (a & Ha2 & Har).
      rewrite Ha in Ha2. injection Ha2 as <-. by rewrite (Har k Hi) in Hs.
    + intros _. exists (kid k). split; [done|]. intros k'. rewrite Hks, jm_get_set, decide_True by done.
      by intros [= <-].
  - destruct (finish_keys uuid (priv, pub) now old (mgr s)) as [Hfk Hfa].
    assert (inflight s ≠ []) as Hne' by (intros E; rewrite E in Hp; by apply Permutation_nil_cons in Hp).
    destruct (Hin Hne') as (a & Ha & Har).
    assert (NoDup (jm_keys (keys (install uuid (priv, pub) now (mgr s))))) as Hnd'
      by by apply jm_NoDup_set.
    constructor; cbn [mgr inflight clock].
    + rewrite Hfk. by apply prune_NoDup.
    + intros j kj. rewrite Hfk, prune_get by done. simpl. rewrite jm_get_set. case_decide as E.
      * subst j. simpl. intros [= <-]. constructor; simpl; done.
      * destruct (jm_get j (keys (mgr s))) as [k0|] eqn:Hj; simpl; [|done].
        case_test; [done|]. intros [= <-]. apply (key_ok_mono (mgr s) _ (clock s)); [by apply Hk|done|].
        right. destruct (state k0) eqn:Hs0; [|done]. destruct (Hk j k0 Hj) as [_ _ _ Hst].
        rewrite Hs0 in Hst. destruct Hst as [_ Haj]. rewrite Ha in Haj. injection Haj as <-.
        by rewrite (Har k0 Hj) in Hs0.
    + apply Permutation_length in Hp. simpl in Hp. lia.
    + apply Permutation_length in Hp. intros Hrest. destruct rest; [done|simpl in Hp; lia].
  - constructor; cbn [mgr inflight clock]; try done.
    + intros i k Hi. apply (key_ok_mono (mgr s) _ (clock s)); auto.
    + apply Permutation_length in Hp. simpl in Hp. lia.
    + apply Permutation_length in Hp. intros Hrest. destruct rest; [done|simpl in Hp; lia].
  - constructor; cbn [mgr inflight clock]; try done.
    + by apply prune_NoDup.
    + intros i k. rewrite prune_get by done. destruct (jm_get i (keys (mgr s))) as [k0|] eqn:Hi;
        simpl; [|done]. case_test; [done|]. intros [= <-].
      apply (key_ok_mono (mgr s) _ (clock s)); [by apply Hk|done|left; apply prune_keys].
    + intros (a & Ha & Har)%Hin. exists a. rewrite (proj2 (prune_keys _ _)). split; [done|].
      intros k. rewrite prune_get by done. destruct (jm_get a (keys (mgr s))) as [k0|] eqn:Hi;
        simpl; [|done]. case_test; [done|]. intros [= <-]. by apply Har.
  - destruct (jwks_same now (mgr s)) as [E1 E2]. constructor; cbn [mgr inflight clock]; rewrite ?E1, ?E2; try done.
    intros i k Hi. apply (key_ok_mono (mgr s) _ (clock s)); auto.
Qed.

Lemma clock_mono s s' : rtc kstep s s' → clock s ≤ clock s'.
Proof. induction 1 as [|x y z Hxy _ IH]; [lia|]. destruct Hxy; simpl in *; lia. Qed.

Lemma keys_ok_rtc s s' : rtc kstep s s' → keys_ok s → keys_ok s'.
Proof. induction 1; eauto using keys_ok_step. Qed.

(** The key [a] is stored, with this pair, and was not retired before [t]. *)
Definition live (t : Z) (a priv pub : string) (m : manager) : Prop :=
  ∃ k, jm_get a (keys m) = Some k ∧ privateKey k = priv ∧ publicKey k = pub ∧
    (state k = active ∨ ∃ r, retiredAt k = Some r ∧ t ≤ r).

Lemma live_prune t a priv pub now m : NoDup (jm_keys (keys m)) → now < t + windowMs cfg →
  live t a priv pub m → live t a priv pub (pruneExpiredKeys cfg now m).1.
Proof.
  intros Hnd Hlt (k & Hk & Hpr & Hpu & Hs). exists k. split_and!; try done.
  rewrite prune_get, Hk by done. simpl. unfold expired.
  destruct Hs as [->|(r & -> & Hr)]; [done|].
  destruct (Z.leb_spec (windowMs cfg) (now - r)); [lia|]. by rewrite andb_false_r.
Qed.

Lemma live_step t a priv pub s s' : keys_ok s → kstep s s' → t ≤ clock s →
  clock s' < t + windowMs cfg → live t a priv pub (mgr s) → live t a priv pub (mgr s').
Proof.
  intros Hok Hst Ht Hlt Hl. pose proof (keys_NoDup _ Hok) as Hnd. destruct Hst as
    [now m old Hle Hb|uuid pr pu now old rest Hle Hp Hu Hne Hpair|old rest now Hle Hp|now Hle|now Hle];
    cbn [mgr clock] in *.
  - destruct Hl as (k & Hk & Hpr & Hpu & Hs).
    apply rotate_begin_Ok in Hb as (i & k0 & Ha & Hi & Hs0 & -> & Ha' & Hks).
    destruct (keys_each _ Hok i k0 Hi) as [<- _ _ _]. unfold live. rewrite Hks, jm_get_set.
    case_decide as E; [|by exists k]. rewrite E, Hk in Hi. injection Hi as <-.
    eexists. split_and!; [done..|]. right. exists now. simpl. split; [done|lia].
  - assert (live t a priv pub (install uuid (pr, pu) now (mgr s))) as Hl'.
    { destruct Hl as (k & Hk & Hrest). exists k. split; [|done]. simpl. rewrite jm_get_set.
      rewrite decide_False; [done|]. intros ->. apply Hu. unfold jm_keys.
      apply (jm_get_elem a k) in Hk; [|done]. apply list_elem_of_fmap. by exists (a, k). }
    assert (live t a priv pub (pruneExpiredKeys cfg now (install uuid (pr, pu) now (mgr s))).1) as Hl2.
    { apply live_prune; [by apply jm_NoDup_set|lia|done]. }
    unfold live in *. by rewrite (proj1 (finish_keys _ _ _ _ _)).
  - done.
  - by apply live_prune.
  - unfold live in *. by rewrite (proj1 (jwks_same _ _)).
Qed.

Lemma live_rtc t a priv pub s s' : rtc kstep s s' → keys_ok s → t ≤ clock s →
  clock s' < t + windowMs cfg → live t a priv pub (mgr s) → live t a priv pub (mgr s').
Proof.
  induction 1 as [|x y z Hxy Hyz IH]; [done|]. intros Hok Ht Hlt Hl.
  pose proof (clock_mono _ _ Hyz). pose proof (clock_mono x y (rtc_once _ _ Hxy)).
  apply IH; [by eapply keys_ok_step|lia|done|]. eapply live_step; eauto. lia.
Qed.

(** The lookup of [verifyToken] finds the stored key, if it verifies. *)
Lemma find_verification_key s now a :
  keys_ok s →
  snd <$> list_find (λ k, kid k = a) (getAllVerificationKeys cfg now (mgr s)) =
    k ← jm_get a (keys (mgr s)); if verifies cfg now k then Some k else None.
Proof.
  intros [Hnd Hk _ _]. unfold getAllVerificationKeys, jm_values.
  assert (∀ k, k ∈ (keys (mgr s)).*2 ∧ kid k = a ↔ jm_get a (keys (mgr s)) = Some k) as Hval.
  { intros k. split.
    - intros [([i k'] & -> & Hin)%list_elem_of_fmap Hka]. apply jm_get_elem in Hin; [|done].
      destruct (Hk _ _ Hin) as [Hki _ _ _]. simpl in *. congruence.
    - intros Hg. split; [|by destruct (Hk _ _ Hg)].
      apply jm_get_elem in Hg; [|done]. apply list_elem_of_fmap. by exists (a, k). }
  destruct (list_find _ _) as [[n k]|] eqn:Hf; simpl.
  - apply list_find_Some in Hf as (Hl & Hka & _). apply list_elem_of_lookup_2 in Hl.
    apply list_elem_of_filter in Hl as [Hv Hin].
    rewrite (proj1 (Hval k) (conj Hin Hka)). simpl. by rewrite Hv.
  - apply list_find_None in Hf. destruct (jm_get a (keys (mgr s))) as [k|] eqn:Hg; simpl; [|done].
    destruct (verifies cfg now k) eqn:Hv; [|done]. exfalso.
    destruct (proj2 (Hval k) eq_refl) as [Hin Hka].
    rewrite Forall_forall in Hf. apply (Hf k); [|done]. by apply list_elem_of_filter.
Qed.

(** C18. A token outlives rotations: a token signed while the signing key was
    active verifies, and gives its payload back, throughout the grace period
    plus the clock skew after it was signed (and its own expiry with that
    tolerance), however many rotations, prunings and key-set requests ran in
    between and interleaved. *)
Theorem signed_token_verifies s s' p x tok k :
  keys_ok s → getCurrentKey (mgr s) = Ok k → state k = active →
  signToken p x (clock s) (mgr s) = Ok tok → rtc kstep s s' →
  clock s' < clock s + windowMs cfg → clock s' < expiresAt tok + clockSkewSeconds cfg * 1000 →
  verifyToken cfg tok (clock s') (mgr s') = Ok p.
Proof.
  intros Hok Hcur Hact Hsign Hst Hwin Hexp. unfold signToken in Hsign. rewrite Hcur in Hsign.
  simpl in Hsign. injection Hsign as <-.
  unfold getCurrentKey in Hcur. destruct (activeKid (mgr s)) as [a|]; [|done].
  destruct (jm_get a (keys (mgr s))) as [k'|] eqn:Hg; [|done]. injection Hcur as ->.
  destruct (keys_each _ Hok a k Hg) as [Hka Hne Hpair _].
  destruct (live_rtc (clock s) a (privateKey k) (publicKey k) s s' Hst Hok) as (k2 & Hg2 & Hpr & Hpu & Hs2);
    [lia|done|by exists k; eauto|].
  unfold verifyToken. rewrite header_of_signed, Hka. simpl.
  apply String.eqb_neq in Hne as ->.
  pose proof (find_verification_key s' (clock s') a (keys_ok_rtc _ _ Hst Hok)) as Hf.
  rewrite Hg2 in Hf. simpl in Hf.
  assert (verifies cfg (clock s') k2 = true) as Hv.
  { unfold verifies. destruct Hs2 as [->|(r & -> & Hr)]; [done|].
    destruct (Z.ltb_spec (clock s' - r) (windowMs cfg)); [|lia]. by rewrite orb_true_r. }
  rewrite Hv in Hf. destruct (list_find _ _) as [[n k3]|]; [|done]. simpl in Hf. injection Hf as ->.
  rewrite Hka in Hexp. rewrite Hpu, verify_signed by (done || lia). done.
Qed.

(** After a rotation whose key generation failed: the active key is retired (or
    already pruned), and no rotation waits. *)
Definition wedged (r : Z) (a : string) (s : system) : Prop :=
  inflight s = [] ∧ activeKid (mgr s) = Some a ∧ r ≤ clock s ∧
  ∀ k, jm_get a (keys (mgr s)) = Some k → state k = retired ∧ retiredAt k = Some r.

Lemma wedged_begin r a s now : wedged r a s → ∃ e, rotate_begin now (mgr s) = (mgr s, Err e).
Proof.
  intros (_ & Ha & _ & Hk). unfold rotate_begin, getCurrentKey. rewrite Ha.
  destruct (jm_get a (keys (mgr s))) as [k|] eqn:Hg; [|by eexists].
  destruct (Hk k eq_refl) as [-> _]. by eexists.
Qed.

Lemma wedged_step r a s s' : keys_ok s → kstep s s' → wedged r a s → wedged r a s'.
Proof.
  intros Hok Hst Hw. pose proof Hw as (Hin & Ha & Hr & Hk).
  pose proof (keys_NoDup _ Hok) as Hnd. destruct Hst as
    [now m old Hle Hb|uuid pr pu now old rest Hle Hp _ _ _|old rest now Hle Hp|now Hle|now Hle].
  - destruct (wedged_begin r a s now Hw) as [e He]. rewrite He in Hb. by simplify_eq.
  - rewrite Hin in Hp. by apply Permutation_nil_cons in Hp.
  - rewrite Hin in Hp. by apply Permutation_nil_cons in Hp.
  - unfold wedged; cbn [mgr inflight clock]. rewrite (proj2 (prune_keys _ _)).
    split_and!; [done|done|lia|]. intros k. rewrite prune_get by done.
    destruct (jm_get a (keys (mgr s))) as [k0|] eqn:Hg; simpl; [|done]. case_test; [done|].
    intros [= <-]. by apply Hk.
  - unfold wedged; cbn [mgr inflight clock]. destruct (jwks_same now (mgr s)) as [-> ->].
    split_and!; [done|done|lia|done].
Qed.

Lemma wedged_rtc r a s s' : rtc kstep s s' → keys_ok s → wedged r a s → wedged r a s'.
Proof. induction 1; eauto using keys_ok_step, wedged_step. Qed.

(** A failed key generation wedges the manager: [rotate] retires the
    current key before it generates the next one, so when the generation
    throws, every later rotation is rejected, whatever else is called; the
    manager goes on signing with the retired key, and once the grace period is
    over no token it signs verifies any more. *)
Theorem failed_rotation_wedges s s' m old now now2 now3 (p : payload) x :
  keys_ok s → clock s ≤ now → inflight s = [] → rotate_begin now (mgr s) = (m, Ok old) →
  rtc kstep {| mgr := m; inflight := []; clock := now |} s' →
  (∃ e, rotate_begin now2 (mgr s') = (mgr s', Err e)) ∧
  (∀ tok, signToken p x now2 (mgr s') = Ok tok → now + windowMs cfg ≤ now3 →
     verifyToken (payload:=payload) cfg tok now3 (mgr s') = Err (UnknownKey old)).
Proof.
  intros Hok Hle Hin Hb Hst.
  assert (keys_ok {| mgr := m; inflight := []; clock := now |}) as Hok1.
  { apply (keys_ok_step {| mgr := m; inflight := [old]; clock := now |}).
    - by apply (k_fail {| mgr := m; inflight := [old]; clock := now |} old [] now).
    - rewrite <- Hin. eapply keys_ok_step; [by eapply k_begin|done]. }
  apply rotate_begin_Ok in Hb as (a & k & Ha & Hg & Hs & -> & Ha' & Hks).
  destruct (keys_each _ Hok a k Hg) as [Hka Hne _ _].
  assert (wedged now a {| mgr := m; inflight := []; clock := now |}) as Hw1.
  { split_and!; [done|done|simpl; lia|]. cbn [mgr]. intros k'.
    rewrite Hks, jm_get_set, decide_True by done. by intros [= <-]. }
  pose proof (wedged_rtc _ _ _ _ Hst Hok1 Hw1) as Hw. pose proof (keys_ok_rtc _ _ Hst Hok1) as Hok2.
  split; [by apply (wedged_begin now a)|]. intros tok Hsign Hlate.
  destruct Hw as (_ & Haw & _ & Hkw). unfold signToken, getCurrentKey in Hsign. rewrite Haw in Hsign.
  destruct (jm_get a (keys (mgr s'))) as [k2|] eqn:Hg2; [|done]. simpl in Hsign. injection Hsign as <-.
  destruct (keys_each _ Hok2 a k2 Hg2) as [Hka2 _ _ _]. destruct (Hkw k2 eq_refl) as [Hs2 Hr2].
  unfold verifyToken. rewrite header_of_signed, Hka2. simpl. apply String.eqb_neq in Hne as ->.
  pose proof (find_verification_key s' now3 a Hok2) as Hf. rewrite Hg2 in Hf. simpl in Hf.
  assert (verifies cfg now3 k2 = false) as Hv.
  { unfold verifies. rewrite Hs2, Hr2. simpl. destruct (Z.ltb_spec (now3 - now) (windowMs cfg)); [lia|done]. }
  rewrite Hv in Hf. destruct (list_find _ _) as [[]|]; [done|]. by rewrite Hka.
Qed.
End Rotation.

(** A concrete [jose]: a token is the key identifier it names. *)
Module KeyExample.
#[global, refine] Instance toy : Jose () := {
  sign _ i _ _ _ := i;
  decodeProtectedHeader t := Some (Some t);
  jwtVerify _ _ _ _ := Some ();
  expiresAt _ := 10000000;
  key_pair _ _ := True
}.
Proof. all: by intros; try destruct p. Defined.
Definition cfg : KeyManagerConfig :=
  {| gracePeriodSeconds := 3600; clockSkewSeconds := 300; privateKeyPem := None; initialKid := None |}.
Definition m0 : manager :=
  initialize cfg "k0" 0 (Some ("priv0", "pub0")) (λ _, None) new_KeyManager.
Definition s0 : system := {| mgr := m0; inflight := []; clock := 0 |}.
Definition k0 : ManagedKey := {| kid := "k0"; state := active; privateKey := "priv0";
  publicKey := "pub0"; createdAt := 0; retiredAt := None |}.
Lemma s0_ok : keys_ok s0.
Proof.
  constructor; simpl; [by apply NoDup_singleton| |lia|done].
  intros i k. case_decide; [|done]. intros [= <-]. subst i. by constructor.
Qed.
Definition s1 : system :=
  {| mgr := (rotate_begin 1000 m0).1; inflight := ["k0"]; clock := 1000 |}.
Definition s2 : system :=
  {| mgr := rotate_finish cfg "k1" ("priv1", "pub1") 2000 "k0" (mgr s1); inflight := [];
     clock := 2000 |}.
Lemma s2_steps : rtc (kstep cfg) s0 s2.
Proof.
  eapply rtc_l; [|eapply rtc_once].
  - apply (k_begin cfg s0 1000 (rotate_begin 1000 m0).1 "k0"); [done|reflexivity].
  - apply (k_finish cfg s1 "k1" "priv1" "pub1" 2000 "k0" []); try done.
    vm_compute. intros H. inversion H as [|? ? ? H']. inversion H'.
Qed.
End KeyExample.

Lemma signed_token_verifies_witness :
  verifyToken (payload:=()) KeyExample.cfg "k0" 2000 (mgr KeyExample.s2) = Ok ().
Proof.
  apply (signed_token_verifies KeyExample.cfg KeyExample.s0 KeyExample.s2 () "1h" "k0" KeyExample.k0);
    [exact KeyExample.s0_ok|reflexivity|reflexivity|reflexivity|exact KeyExample.s2_steps
    |vm_compute; reflexivity|vm_compute; reflexivity].
Defined.

Lemma failed_rotation_wedges_witness :
  let m := (rotate_begin 1000 KeyExample.m0).1 in
  (∃ e, rotate_begin 5000 m = (m, Err e)) ∧
  (∀ tok, signToken () "1h" 5000 m = Ok tok → 3901000 ≤ 3901000 →
     verifyToken (payload:=()) KeyExample.cfg tok 3901000 m = Err (UnknownKey "k0")).
Proof.
  exact (failed_rotation_wedges KeyExample.cfg KeyExample.s0
    {| mgr := (rotate_begin 1000 KeyExample.m0).1; inflight := []; clock := 1000 |}
    (rotate_begin 1000 KeyExample.m0).1 "k0" 1000 5000 3901000 () "1h"
    KeyExample.s0_ok ltac:(by vm_compute) eq_refl eq_refl (rtc_refl _ _)).
Defined.
