(* ===== verification/Kek.v ===== *)
(** * Key encryption keys: [KekManager]

    The second class of [services/keyManager/index.ts]: versioned 32-byte keys,
    activated under dual control. The version objects and the approval lists
    are shared between the maps and the methods in the source; here they are
    the entries of the maps. *)

From stdpp Require Import base option list strings relations.
From Stdlib Require Import ZArith Lia.
From S2P Require Import Prelude StateTransition.
Import Keys.

Open Scope Z_scope.

(** ** Data *)

Record KekVersion := {
  version : Z;
  keyMaterial : list Z;
  state : KeyState;
  createdAt : Z;
  retiredAt : option Z
}.

Record KekApproval := { ap_version : Z; approvedBy : string; approvedAt : Z }.

Inductive kek_event := KEK_REGISTERED | KEK_ACTIVATED | KEK_RETIRED | KEK_ZEROIZED.

Record KekAuditEvent := {
  timestamp : Z;
  event : kek_event;
  ev_version : Z;
  previousVersion : option Z
}.

Record KekRegistrationResult := { reg_version : Z; autoActivated : bool }.

Inductive kek_error :=
| BadLength (length : Z)
| VersionNotFound (version : Z)
| AlreadyActive (version : Z)
| AlreadyApproved (approver : string) (version : Z)
| NotEnoughApprovals (version required got : Z)
| ActivationRejected (from to : KeyState)
| SupersedeRejected (from to : KeyState)
| NoActiveKek.

Record kek_manager := {
  versions : jsmap Z KekVersion;
  currentVersion : option Z;
  pendingApprovals : jsmap Z (list KekApproval);
  auditLog : list KekAuditEvent
}.

Definition REQUIRED_APPROVALS : Z := 2.

Definition new_KekManager : kek_manager :=
  {| versions := []; currentVersion := None; pendingApprovals := []; auditLog := [] |}.

(** ** Operations *)

Definition emitAudit (now : Z) (e : kek_event) (v : Z) (prev : option Z) (m : kek_manager)
  : kek_manager :=
  {| versions := versions m; currentVersion := currentVersion m;
     pendingApprovals := pendingApprovals m;
     auditLog := auditLog m ++ [{| timestamp := now; event := e; ev_version := v;
                                   previousVersion := prev |}] |}.

Definition with_state (k : KekVersion) (s : KeyState) (r : option Z) : KekVersion :=
  {| version := version k; keyMaterial := keyMaterial k; state := s; createdAt := createdAt k;
     retiredAt := r |}.

Definition put (k : KekVersion) (m : kek_manager) : kek_manager :=
  {| versions := jm_set (version k) k (versions m); currentVersion := currentVersion m;
     pendingApprovals := pendingApprovals m; auditLog := auditLog m |}.

Definition set_current (v : Z) (m : kek_manager) : kek_manager :=
  {| versions := versions m; currentVersion := Some v;
     pendingApprovals := pendingApprovals m; auditLog := auditLog m |}.

Definition set_approvals (v : Z) (l : list KekApproval) (m : kek_manager) : kek_manager :=
  {| versions := versions m; currentVersion := currentVersion m;
     pendingApprovals := jm_set v l (pendingApprovals m); auditLog := auditLog m |}.

Definition registerVersion (now : Z) (material : list Z) (m : kek_manager)
  : kek_manager * result kek_error KekRegistrationResult :=
  if negb (Z.of_nat (length material) =? 32)
  then (m, Err (BadLength (Z.of_nat (length material)))) else
  let v := Z.of_nat (length (versions m)) + 1 in
  let kek := {| version := v; keyMaterial := material; state := retired; createdAt := now;
                retiredAt := None |} in
  let m1 := emitAudit now KEK_REGISTERED v None (set_approvals v [] (put kek m)) in
  match currentVersion m with
  | None => (emitAudit now KEK_ACTIVATED v None (set_current v (put (with_state kek active None) m1)),
             Ok {| reg_version := v; autoActivated := true |})
  | Some _ => (m1, Ok {| reg_version := v; autoActivated := false |})
  end.

Definition approvals_of (v : Z) (m : kek_manager) : list KekApproval :=
  default [] (jm_get v (pendingApprovals m)).

Definition approveActivation (v : Z) (by_ : string) (now : Z) (m : kek_manager)
  : kek_manager * result kek_error () :=
  match jm_get v (versions m) with
  | None => (m, Err (VersionNotFound v))
  | Some kek =>
      if bool_decide (state kek = active) then (m, Err (AlreadyActive v)) else
      let approvals := approvals_of v m in
      if existsb (λ a, String.eqb (approvedBy a) by_) approvals
      then (m, Err (AlreadyApproved by_ v)) else
      (set_approvals v (approvals ++ [{| ap_version := v; approvedBy := by_; approvedAt := now |}]) m,
       Ok ())
  end.

Definition activateVersion (v : Z) (now : Z) (m : kek_manager)
  : kek_manager * result kek_error () :=
  match jm_get v (versions m) with
  | None => (m, Err (VersionNotFound v))
  | Some kek =>
      if bool_decide (state kek = active) then (m, Err (AlreadyActive v)) else
      let got := Z.of_nat (length (approvals_of v m)) in
      if got <? REQUIRED_APPROVALS then (m, Err (NotEnoughApprovals v REQUIRED_APPROVALS got)) else
      if negb (success (tryKekTransition (state kek) active))
      then (m, Err (ActivationRejected (state kek) active)) else
      let retire_previous : result kek_error kek_manager :=
        match currentVersion m with
        | None => Ok m
        | Some pv =>
            match jm_get pv (versions m) with
            | None => Err (VersionNotFound pv)
            | Some prev =>
                if negb (success (tryKekTransition (state prev) retired))
                then Err (SupersedeRejected (state prev) retired)
                else Ok (emitAudit now KEK_RETIRED pv None (put (with_state prev retired (Some now)) m))
            end
        end in
      match retire_previous with
      | Err e => (m, Err e)
      | Ok m1 => (emitAudit now KEK_ACTIVATED v (currentVersion m)
                    (set_current v (put (with_state kek active (retiredAt kek)) m1)), Ok ())
      end
  end.

Definition getCurrentKek (m : kek_manager) : result kek_error KekVersion :=
  match currentVersion m with
  | None => Err NoActiveKek
  | Some v => match jm_get v (versions m) with Some k => Ok k | None => Err (VersionNotFound v) end
  end.

Definition getVersion (v : Z) (m : kek_manager) : result kek_error KekVersion :=
  match jm_get v (versions m) with Some k => Ok k | None => Err (VersionNotFound v) end.

(** [kek.keyMaterial.fill(0)]. *)
Definition zeroize (k : KekVersion) : KekVersion :=
  {| version := version k; keyMaterial := (λ _, 0) <$> keyMaterial k; state := state k;
     createdAt := createdAt k; retiredAt := retiredAt k |}.

Definition zeroizable (k : KekVersion) : bool :=
  bool_decide (state k = retired) && (0 <? Z.of_nat (length (keyMaterial k))).

Definition zeroizeRetired (now : Z) (m : kek_manager) : kek_manager * list Z :=
  let zeroized := version <$> filter (λ k, zeroizable k = true) (jm_values (versions m)) in
  ({| versions := (λ e, (e.1, if zeroizable e.2 then zeroize e.2 else e.2)) <$> versions m;
      currentVersion := currentVersion m; pendingApprovals := pendingApprovals m;
      auditLog := auditLog m ++ ((λ v, {| timestamp := now; event := KEK_ZEROIZED; ev_version := v;
                                          previousVersion := None |}) <$> zeroized) |},
   zeroized).

Definition getPendingApprovals (v : Z) (m : kek_manager) : list KekApproval := approvals_of v m.

(** ** Dual control *)

Inductive kek_step (m : kek_manager) : kek_manager → Prop :=
| step_register now material : kek_step m (registerVersion now material m).1
| step_approve v by_ now : kek_step m (approveActivation v by_ now m).1
| step_activate v now : kek_step m (activateVersion v now m).1
| step_zeroize now : kek_step m (zeroizeRetired now m).1.

Definition kek_reachable (m : kek_manager) : Prop := rtc kek_step new_KekManager m.

(** At least two different people approved the version. *)
Definition dually_approved (v : Z) (m : kek_manager) : Prop :=
  NoDup (approvedBy <$> approvals_of v m) ∧ (2 ≤ length (approvals_of v m))%nat.

Record kek_ok (m : kek_manager) : Prop := {
  kek_numbered v : is_Some (jm_get v (versions m)) ↔ 1 ≤ v ≤ Z.of_nat (length (versions m));
  kek_keyed v k : jm_get v (versions m) = Some k → version k = v ∧ length (keyMaterial k) = 32%nat;
  kek_active v k : jm_get v (versions m) = Some k →
    state k = active ↔ currentVersion m = Some v;
  kek_current : match currentVersion m with
                | None => length (versions m) = 0%nat
                | Some v => is_Some (jm_get v (versions m))
                end;
  kek_approved v : approvals_of v m ≠ [] → is_Some (jm_get v (versions m));
  kek_approvers v : NoDup (approvedBy <$> approvals_of v m);
  kek_audit e : e ∈ auditLog m → event e = KEK_ACTIVATED →
    (ev_version e = 1 ∧ previousVersion e = None) ∨ dually_approved (ev_version e) m
}.

(** Approvals are never withdrawn. *)
Lemma dually_approved_mono v m m' :
  (∀ w, NoDup (approvedBy <$> approvals_of w m')) →
  (length (approvals_of v m) ≤ length (approvals_of v m'))%nat →
  dually_approved v m → dually_approved v m'.
Proof. intros Hnd Hle [_ H]. split; [done|lia]. Qed.

Lemma approvals_set v l m w :
  approvals_of w (set_approvals v l m) = if decide (v = w) then l else approvals_of w m.
Proof. unfold approvals_of; simpl. rewrite jm_get_set. by case_decide. Qed.

(** The parts of the invariant that the version table alone decides. *)
Record table_ok (m : kek_manager) : Prop := {
  t_numbered v : is_Some (jm_get v (versions m)) ↔ 1 ≤ v ≤ Z.of_nat (length (versions m));
  t_keyed v k : jm_get v (versions m) = Some k → version k = v ∧ length (keyMaterial k) = 32%nat;
  t_active v k : jm_get v (versions m) = Some k → state k = active ↔ currentVersion m = Some v;
  t_current : match currentVersion m with
              | None => length (versions m) = 0%nat
              | Some v => is_Some (jm_get v (versions m))
              end
}.

Lemma kek_ok_intro m m' : kek_ok m → table_ok m' →
  (∀ v, is_Some (jm_get v (versions m)) → is_Some (jm_get v (versions m'))) →
  (∀ v, approvals_of v m' = approvals_of v m) →
  (∀ e, e ∈ auditLog m' → event e = KEK_ACTIVATED → e ∈ auditLog m ∨
     (ev_version e = 1 ∧ previousVersion e = None) ∨ dually_approved (ev_version e) m) →
  kek_ok m'.
Proof.
  intros [_ _ _ _ Hex Hap Hau] [T1 T2 T3 T4] Hsub Heq Haud.
  constructor; try done.
  - intros v. rewrite Heq. intros ?%Hex. auto.
  - intros v. rewrite Heq. apply Hap.
  - intros e He Hev. unfold dually_approved. rewrite Heq.
    destruct (Haud e He Hev) as [He'|[?|?]]; [by apply Hau|by left|by right].
Qed.

Lemma register_ok now material m : kek_ok m → kek_ok (registerVersion now material m).1.
Proof.
  intros Hok. pose proof Hok as [Hnum Hkey Hact Hcur Hex _ _]. unfold registerVersion.
  destruct (Z.eqb_spec (Z.of_nat (length material)) 32) as [Hlen|]; [|done]. cbn [negb].
  set (v := Z.of_nat (length (versions m)) + 1).
  assert (jm_get v (versions m) = None) as Hfresh.
  { destruct (jm_get v (versions m)) eqn:E; [|done].
    assert (1 ≤ v ≤ Z.of_nat (length (versions m))) by (apply Hnum; by rewrite E). lia. }
  assert (approvals_of v m = []) as Hnone.
  { destruct (approvals_of v m) eqn:E; [done|]. destruct (Hex v) as [? ?]; congruence. }
  assert (∀ w, approvals_of w (set_approvals v [] m) = approvals_of w m) as Hap.
  { intros w. rewrite approvals_set. case_decide; congruence. }
  destruct (currentVersion m) as [c|] eqn:Hc; apply (kek_ok_intro m); try done.
  - constructor; simpl; rewrite ?Hc.
    + intros w. rewrite jm_get_set, jm_length_set, Hfresh. case_decide as E.
      * subst w. split; [lia|by eexists].
      * rewrite Hnum. lia.
    + intros w k. rewrite jm_get_set. case_decide as E; [|apply Hkey].
      intros [= <-]. simpl. split; [done|lia].
    + intros w k. rewrite jm_get_set. case_decide as E; [|apply Hact].
      intros [= <-]. simpl. split; [done|]. intros [= ->]. subst w.
      destruct Hcur as [? ?]. congruence.
    + rewrite jm_get_set. case_decide; [by eexists|done].
  - intros w. simpl. rewrite jm_get_set. case_decide; [by eexists|done].
  - simpl. intros e. rewrite elem_of_app, list_elem_of_singleton. intros [?| ->]; [by left|done].
  - assert (∀ w, jm_get w (versions m) = None) as Hnil.
    { intros w. apply nil_length_inv in Hcur. by rewrite Hcur. }
    constructor; simpl.
    + intros w. rewrite !jm_length_set, Hfresh, Hcur, !jm_get_set, (decide_True_pi eq_refl), Hnil.
      unfold v. rewrite Hcur. simpl. case_decide as E.
      * subst w. split; [lia|by eexists].
      * split; [by intros [? ?]|lia].
    + intros w k. rewrite !jm_get_set, Hnil. case_decide; [|done].
      intros [= <-]. simpl. split; [done|lia].
    + intros w k. rewrite !jm_get_set, Hnil. case_decide; [|done]. intros [= <-]. simpl. naive_solver.
    + rewrite jm_get_set, decide_True by done. by eexists.
  - intros w. simpl. rewrite !jm_get_set. case_decide; [by eexists|done].
  - simpl. intros e. rewrite !elem_of_app, !list_elem_of_singleton. intros [[?| ->]| ->]; [by left|done|].
    intros _. right. left. simpl. split; [|done]. unfold v. rewrite Hcur. done.
Qed.

Lemma approve_ok v by_ now m : kek_ok m → kek_ok (approveActivation v by_ now m).1.
Proof.
  intros Hok. pose proof Hok as [Hnum Hkey Hact Hcur Hex Hap Hau]. unfold approveActivation.
  destruct (jm_get v (versions m)) as [k|] eqn:Hk; [|done]. case_test; [done|].
  case_test; [done|]. simpl.
  assert (∀ w, NoDup (approvedBy <$> approvals_of w (set_approvals v
    (approvals_of v m ++ [{| ap_version := v; approvedBy := by_; approvedAt := now |}]) m))) as Hnd.
  { intros w. rewrite approvals_set. destruct (decide (v = w)) as [<-|]; [|apply Hap]. rewrite fmap_app. apply NoDup_app.
    split_and!; [apply Hap| |apply NoDup_singleton].
    intros x (a & Hx & Ha)%list_elem_of_fmap Hx'%list_elem_of_singleton. simpl in Hx'.
    rewrite <- not_true_iff_false, existsb_exists in Htest0. apply Htest0. exists a.
    split; [by apply list_elem_of_In|]. apply String.eqb_eq. congruence. }
  constructor; simpl; try done.
  - intros w. rewrite approvals_set. destruct (decide (v = w)) as [<-|]; [by rewrite Hk|apply Hex].
  - intros e He Hev. destruct (Hau e He Hev) as [?|Hd]; [by left|right].
    eapply dually_approved_mono; [done| |exact Hd]. rewrite approvals_set.
    destruct (decide (v = ev_version e)) as [E|]; [|done]. rewrite length_app, E. lia.
Qed.

(** Re-inserting a version that is there does not change which are there. *)
Lemma put_length k m : is_Some (jm_get (version k) (versions m)) →
  length (versions (put k m)) = length (versions m).
Proof. intros [? E]. simpl. by rewrite jm_length_set, E. Qed.

Lemma activate_ok v now m : kek_ok m → kek_ok (activateVersion v now m).1.
Proof.
  intros Hok. pose proof Hok as [Hnum Hkey Hact Hcur Hex Hap Hau]. unfold activateVersion.
  destruct (jm_get v (versions m)) as [k|] eqn:Hk; [|done].
  destruct (state k) eqn:Hs; [done|]. simpl.
  destruct (Z.ltb_spec (Z.of_nat (length (approvals_of v m))) REQUIRED_APPROVALS) as [|Hreq]; [done|].
  unfold REQUIRED_APPROVALS in Hreq.
  destruct (currentVersion m) as [pv|] eqn:Hc.
  2: { exfalso. apply nil_length_inv in Hcur. by rewrite Hcur in Hk. }
  destruct Hcur as [prev Hpv]. rewrite Hpv. pose proof (proj2 (Hact pv prev Hpv) eq_refl) as Hsp.
  rewrite Hsp. destruct (Hkey v k Hk) as [Hvk Hlk], (Hkey pv prev Hpv) as [Hvp Hlp].
  assert (pv ≠ v) as Hne by congruence.
  apply (kek_ok_intro m); try done; simpl; rewrite ?Hvk, ?Hvp.
  - constructor; simpl; rewrite ?Hvk, ?Hvp.
    + intros w. rewrite !jm_length_set, !jm_get_set, Hpv.
      rewrite (decide_False (P:=pv = v)) by done. rewrite Hk, <- Hnum.
      destruct (decide (v = w)) as [<-|]; [rewrite Hk; split; intros _; by eexists|].
      destruct (decide (pv = w)) as [<-|]; [rewrite Hpv; split; intros _; by eexists|done].
    + intros w kw. rewrite !jm_get_set.
      destruct (decide (v = w)) as [<-|]; [intros [= <-]; done|].
      destruct (decide (pv = w)) as [<-|]; [intros [= <-]; done|apply Hkey].
    + intros w kw. rewrite !jm_get_set.
      destruct (decide (v = w)) as [<-|]; [intros [= <-]; done|].
      destruct (decide (pv = w)) as [<-|]; [intros [= <-]; simpl; split; congruence|].
      intros Hw. rewrite (Hact w kw Hw). split; congruence.
    + rewrite jm_get_set, decide_True by done. by eexists.
  - intros w Hw. rewrite !jm_get_set.
    destruct (decide (v = w)); [by eexists|]. destruct (decide (pv = w)); [by eexists|done].
  - intros e. rewrite !elem_of_app, !list_elem_of_singleton. intros [[?| ->]| ->]; [by left|done|].
    intros _. right. right. split; [apply Hap|simpl; lia].
Qed.

Lemma zeroize_ok now m : kek_ok m → kek_ok (zeroizeRetired now m).1.
Proof.
  intros Hok. pose proof Hok as [Hnum Hkey Hact Hcur Hex Hap Hau].
  assert (∀ w, jm_get w (versions (zeroizeRetired now m).1) =
    (λ k, if zeroizable k then zeroize k else k) <$> jm_get w (versions m)) as Hg
    by (intros w; apply (jm_get_map (λ k, if zeroizable k then zeroize k else k))).
  assert (length (versions (zeroizeRetired now m).1) = length (versions m)) as Hl
    by apply length_fmap.
  apply (kek_ok_intro m); try done.
  - constructor; rewrite ?Hl; try setoid_rewrite Hg.
    + intros w. by rewrite fmap_is_Some.
    + intros w kw (k0 & Hk0 & ->)%fmap_Some. destruct (Hkey w k0 Hk0).
      case_test; [|done]. simpl. by rewrite length_fmap.
    + intros w kw (k0 & Hk0 & ->)%fmap_Some. rewrite <- (Hact w k0 Hk0). by case_test.
    + change (currentVersion (zeroizeRetired now m).1) with (currentVersion m).
      destruct (currentVersion m); [|done]. by rewrite Hg, fmap_is_Some.
  - intros w. rewrite Hg. by rewrite fmap_is_Some.
  - simpl. intros e. rewrite elem_of_app. intros [?|(x & -> & _)%list_elem_of_fmap]; [by left|done].
Qed.

Lemma kek_reachable_ok m : kek_reachable m → kek_ok m.
Proof.
  assert (kek_ok new_KekManager) as H0.
  { constructor; simpl; try done.
    - intros v. split; [by intros [? ?]|lia].
    - intros v. constructor.
    - intros e []%elem_of_nil. }
  intros Hr. revert H0. induction Hr as [|x y z Hxy _ IH]; [done|]. intros Hx. apply IH.
  destruct Hxy; auto using register_ok, approve_ok, activate_ok, zeroize_ok.
Qed.

(** C22. Dual control over key encryption keys: in every reachable state the
    versions are numbered from 1 without gaps and hold 32 bytes each; exactly
    the current version is active and it is the one [getCurrentKek] returns; no
    approver is counted twice for a version; and apart from the first version,
    activated automatically, every activation ever recorded is of a version
    that at least two different approvers approved. *)
Theorem kek_dual_control m :
  kek_reachable m →
  (∀ v, is_Some (jm_get v (versions m)) ↔ 1 ≤ v ≤ Z.of_nat (length (versions m))) ∧
  (∀ v k, jm_get v (versions m) = Some k → length (keyMaterial k) = 32%nat ∧
     (state k = active ↔ currentVersion m = Some v)) ∧
  (∀ v, currentVersion m = Some v →
     ∃ k, getCurrentKek m = Ok k ∧ version k = v ∧ state k = active) ∧
  (∀ e, e ∈ auditLog m → event e = KEK_ACTIVATED →
     (ev_version e = 1 ∧ previousVersion e = None) ∨ dually_approved (ev_version e) m).
Proof.
  intros [Hnum Hkey Hact Hcur Hex Hap Hau]%kek_reachable_ok. split_and!; [done| | |done].
  - intros v k Hk. destruct (Hkey v k Hk). split; [done|]. by apply Hact.
  - intros v Hv. unfold getCurrentKek. rewrite Hv in *. destruct Hcur as [k Hk]. rewrite Hk.
    exists k. split_and!; [done|by apply Hkey|]. by apply (Hact v k Hk).
Qed.

(** A wiped key can become the current one: a version registered but not
    yet activated counts as retired, so [zeroizeRetired], meant for superseded
    versions, wipes it too; once it has its approvals, [activateVersion]
    succeeds all the same, and the current key is then 32 zero bytes. *)
Theorem zeroized_version_activates m v k now now' :
  kek_reachable m → jm_get v (versions m) = Some k → state k = retired →
  dually_approved v m →
  ∃ m' k', activateVersion v now' (zeroizeRetired now m).1 = (m', Ok ()) ∧
    getCurrentKek m' = Ok k' ∧ version k' = v ∧ keyMaterial k' = replicate 32 0.
Proof.
  intros Hok%kek_reachable_ok Hk Hs [_ Hap]. destruct (kek_keyed m Hok v k Hk) as [Hv Hlen].
  set (m1 := (zeroizeRetired now m).1). pose proof (zeroize_ok now m Hok) as Hok1. fold m1 in Hok1.
  assert (jm_get v (versions m1) = Some (zeroize k)) as Hk1.
  { unfold m1, zeroizeRetired; simpl. rewrite (jm_get_map (λ k, if zeroizable k then zeroize k else k)).
    rewrite Hk. simpl. unfold zeroizable. rewrite Hs, Hlen. done. }
  assert (approvals_of v m1 = approvals_of v m) as Hap1 by done. clearbody m1.
  unfold activateVersion. rewrite Hk1. simpl. rewrite Hs, Hap1. simpl.
  destruct (Z.ltb_spec (Z.of_nat (length (approvals_of v m))) REQUIRED_APPROVALS) as [Hlt|_].
  { unfold REQUIRED_APPROVALS in Hlt. lia. }
  pose proof (kek_current m1 Hok1) as Hcur. destruct (currentVersion m1) as [pv|] eqn:Hc.
  2: { apply nil_length_inv in Hcur. by rewrite Hcur in Hk1. }
  destruct Hcur as [prev Hpv]. rewrite Hpv, (proj2 (kek_active m1 Hok1 pv prev Hpv) Hc). simpl.
  do 2 eexists. split_and!; [done| | |]; [unfold getCurrentKek; simpl| |].
  - rewrite Hv, jm_get_set, decide_True by done. done.
  - done.
  - symmetry. change (replicate 32 0 = (λ _, 0) <$> keyMaterial k).
    apply replicate_as_elem_of. rewrite length_fmap. split; [done|].
    intros x (y & -> & _)%list_elem_of_fmap. done.
Qed.

(** ** A concrete history *)

Module KekExample.
Definition material : list Z := replicate 32 7.
Definition m2 : kek_manager := (registerVersion 1 material (registerVersion 0 material new_KekManager).1).1.
Definition m4 : kek_manager := (approveActivation 2 "bob" 3 (approveActivation 2 "alice" 2 m2).1).1.
Lemma m4_reachable : kek_reachable m4.
Proof.
  eapply rtc_r; [|apply step_approve]. eapply rtc_r; [|apply step_approve].
  eapply rtc_r; [|apply step_register]. apply rtc_once, step_register.
Qed.
End KekExample.

Lemma kek_dual_control_witness :
  ∃ k, getCurrentKek (activateVersion 2 4 KekExample.m4).1 = Ok k ∧ version k = 2 ∧ state k = active.
Proof.
  apply (kek_dual_control (activateVersion 2 4 KekExample.m4).1); [|vm_compute; reflexivity].
  eapply rtc_r; [exact KekExample.m4_reachable|apply step_activate].
Defined.

Lemma zeroized_version_activates_witness :
  ∃ m' k', activateVersion 2 5 (zeroizeRetired 4 KekExample.m4).1 = (m', Ok ()) ∧
    getCurrentKek m' = Ok k' ∧ version k' = 2 ∧ keyMaterial k' = replicate 32 0.
Proof.
  eapply (zeroized_version_activates KekExample.m4 2);
    [exact KekExample.m4_reachable|vm_compute; reflexivity|reflexivity|].
  split; [|vm_compute; lia]. apply (bool_decide_unpack _). vm_compute. exact I.
Defined.
