(* ===== verification/CircuitBreaker.v ===== *)
(** * The Soroban circuit breaker

    [clients/circuitBreaker.ts]. [execute] is cut at its await: [execute_start]
    decides whether the operation is called, [execute_end] records its outcome,
    and any number of calls overlap. The Prometheus gauge is left out. *)

From stdpp Require Import base option list strings relations.
From Stdlib Require Import ZArith Lia.
From S2P Require Import Prelude.

Open Scope Z_scope.

(** ** Data *)

Inductive BreakerState := CLOSED | OPEN | HALF_OPEN.

#[export] Instance BreakerState_eq_dec : EqDecision BreakerState.
Proof. solve_decision. Defined.

Record CircuitBreakerConfig := {
  cfg_failureThreshold : Z;
  cfg_openWindowMs : option Z;
  cfg_halfOpenAfterMs : option Z;
  cfg_cooldownPeriodMs : option Z
}.

Definition CIRCUIT_BREAKER_OPEN_WINDOW_MS : Z := 10000.
Definition CIRCUIT_BREAKER_HALF_OPEN_AFTER_MS : Z := 30000.

Record CircuitBreaker := {
  state : BreakerState;
  failureCount : Z;
  openedAt : Z;
  activeProbes : Z;
  failureThreshold : Z;
  openWindowMs : Z;
  halfOpenAfterMs : Z
}.

Inductive breaker_error := CircuitOpen | ProbeInProgress.

(** ** Operations *)

Definition new_CircuitBreaker (config : CircuitBreakerConfig) : CircuitBreaker :=
  let resolvedHalfOpen :=
    match cfg_halfOpenAfterMs config with
    | Some t => t
    | None => default CIRCUIT_BREAKER_HALF_OPEN_AFTER_MS (cfg_cooldownPeriodMs config)
    end in
  let w := default CIRCUIT_BREAKER_OPEN_WINDOW_MS (cfg_openWindowMs config) in
  {| state := CLOSED; failureCount := 0; openedAt := 0; activeProbes := 0;
     failureThreshold := cfg_failureThreshold config; openWindowMs := w;
     halfOpenAfterMs := Z.max resolvedHalfOpen w |}.

Definition transitionTo (s : BreakerState) (now : Z) (b : CircuitBreaker) : CircuitBreaker :=
  {| state := s;
     failureCount := match s with CLOSED => 0 | _ => failureCount b end;
     openedAt := match s with OPEN => now | _ => openedAt b end;
     activeProbes := 0;
     failureThreshold := failureThreshold b; openWindowMs := openWindowMs b;
     halfOpenAfterMs := halfOpenAfterMs b |}.

Definition set_failures (n : Z) (b : CircuitBreaker) : CircuitBreaker :=
  {| state := state b; failureCount := n; openedAt := openedAt b; activeProbes := activeProbes b;
     failureThreshold := failureThreshold b; openWindowMs := openWindowMs b;
     halfOpenAfterMs := halfOpenAfterMs b |}.

Definition add_probe (b : CircuitBreaker) : CircuitBreaker :=
  {| state := state b; failureCount := failureCount b; openedAt := openedAt b;
     activeProbes := activeProbes b + 1;
     failureThreshold := failureThreshold b; openWindowMs := openWindowMs b;
     halfOpenAfterMs := halfOpenAfterMs b |}.

Definition checkTimers (now : Z) (b : CircuitBreaker) : CircuitBreaker :=
  match state b with
  | OPEN => if halfOpenAfterMs b <=? now - openedAt b then transitionTo HALF_OPEN now b else b
  | _ => b
  end.

Definition getState (now : Z) (b : CircuitBreaker) : CircuitBreaker * BreakerState :=
  (checkTimers now b, state (checkTimers now b)).

Definition isOpenWindowExpired (now : Z) (b : CircuitBreaker) : bool :=
  match state b with OPEN => openWindowMs b <=? now - openedAt b | _ => false end.

(** [execute] up to the call of the operation. *)
Definition execute_start (now : Z) (b : CircuitBreaker)
  : CircuitBreaker * result breaker_error () :=
  let b := checkTimers now b in
  match state b with
  | OPEN => (b, Err CircuitOpen)
  | HALF_OPEN =>
      if 1 <=? activeProbes b then (b, Err ProbeInProgress) else (add_probe b, Ok ())
  | CLOSED => (b, Ok ())
  end.

Definition recordFailure (now : Z) (b : CircuitBreaker) : CircuitBreaker :=
  match state b with
  | CLOSED =>
      let b1 := set_failures (failureCount b + 1) b in
      if failureThreshold b <=? failureCount b1 then transitionTo OPEN now b1 else b1
  | HALF_OPEN => transitionTo OPEN now b
  | OPEN => b
  end.

(** [execute] after the operation has succeeded or failed. *)
Definition execute_end (ok : bool) (now : Z) (b : CircuitBreaker) : CircuitBreaker :=
  if ok then
    match state b with
    | HALF_OPEN => transitionTo CLOSED now b
    | CLOSED => set_failures 0 b
    | OPEN => b
    end
  else recordFailure now b.

(** [getCircuitBreaker]: one breaker per host. *)
Definition getCircuitBreaker (host : string) (config : CircuitBreakerConfig)
    (breakers : jsmap string CircuitBreaker) : jsmap string CircuitBreaker * CircuitBreaker :=
  match jm_get host breakers with
  | Some b => (breakers, b)
  | None => let b := new_CircuitBreaker config in (jm_set host b breakers, b)
  end.

(** ** Overlapping calls *)

(** A breaker in use: the calls admitted and not finished, the calls admitted
    since the breaker last became half open, and the time. *)
Record usage := { brk : CircuitBreaker; running : nat; probed : nat; clock : Z }.

(** Half-open periods are delimited by the changes of state. *)
Definition probes_after (b b' : CircuitBreaker) (n : nat) : nat :=
  if bool_decide (state b' = HALF_OPEN ∧ state b = HALF_OPEN) then n else 0.

Inductive bstep (u : usage) : usage → Prop :=
| b_start now b : clock u ≤ now → execute_start now (brk u) = (b, Ok ()) →
    bstep u {| brk := b; running := S (running u);
               probed := if bool_decide (state b = HALF_OPEN)
                         then S (probes_after (brk u) b (probed u)) else 0;
               clock := now |}
| b_reject now b e : clock u ≤ now → execute_start now (brk u) = (b, Err e) →
    bstep u {| brk := b; running := running u; probed := probes_after (brk u) b (probed u);
               clock := now |}
| b_end ok now n : clock u ≤ now → running u = S n →
    bstep u {| brk := execute_end ok now (brk u); running := n;
               probed := probes_after (brk u) (execute_end ok now (brk u)) (probed u);
               clock := now |}
| b_observe now : clock u ≤ now →
    bstep u {| brk := (getState now (brk u)).1; running := running u;
               probed := probes_after (brk u) (getState now (brk u)).1 (probed u); clock := now |}.

Definition fresh_usage (config : CircuitBreakerConfig) (t : Z) : usage :=
  {| brk := new_CircuitBreaker config; running := 0; probed := 0; clock := t |}.

(** ** Failing fast *)

Definition fail_at (b : CircuitBreaker) (t : Z) : CircuitBreaker := execute_end false t b.

Lemma failures_below b ts : state b = CLOSED → failureCount b = 0 →
  Z.of_nat (length ts) < failureThreshold b →
  foldl fail_at b ts = set_failures (Z.of_nat (length ts)) b.
Proof.
  intros Hs Hf. induction ts as [|t ts IH] using rev_ind; intros Hlt.
  - destruct b; simpl in *. by subst.
  - rewrite length_app in *. simpl in *. rewrite foldl_app, IH by lia. simpl.
    unfold fail_at, execute_end, recordFailure. simpl. rewrite Hs. simpl.
    destruct (Z.leb_spec (failureThreshold b) (Z.of_nat (length ts) + 1)); [lia|].
    unfold set_failures; simpl. f_equal. lia.
Qed.

(** While the breaker is open and its time has not come, every step leaves it
    as it is and no call is admitted. *)
Lemma open_step u u' : bstep u u' → state (brk u) = OPEN →
  clock u' < openedAt (brk u) + halfOpenAfterMs (brk u) → brk u' = brk u.
Proof.
  intros Hst Ho Hlt.
  assert (∀ now, now < openedAt (brk u) + halfOpenAfterMs (brk u) → checkTimers now (brk u) = brk u) as Hc.
  { intros now Hn. unfold checkTimers. rewrite Ho.
    destruct (Z.leb_spec (halfOpenAfterMs (brk u)) (now - openedAt (brk u))); [lia|done]. }
  destruct Hst as [now b Hle Hb|now b e Hle Hb|ok now n Hle Hr|now Hle]; simpl in *.
  - unfold execute_start in Hb. rewrite Hc, Ho in Hb by done. by simplify_eq.
  - unfold execute_start in Hb. rewrite Hc, Ho in Hb by done. by simplify_eq.
  - unfold execute_end, recordFailure. rewrite Ho. by destruct ok.
  - by apply Hc.
Qed.

Lemma usage_clock u u' : rtc bstep u u' → clock u ≤ clock u'.
Proof. induction 1 as [|x y z Hxy _ IH]; [lia|]. destruct Hxy; simpl in *; lia. Qed.

Lemma open_rtc u u' : rtc bstep u u' → state (brk u) = OPEN →
  clock u' < openedAt (brk u) + halfOpenAfterMs (brk u) → brk u' = brk u.
Proof.
  induction 1 as [|x y z Hxy Hyz IH]; [done|]. intros Ho Hlt. pose proof (usage_clock _ _ Hyz).
  assert (brk y = brk x) as E by (apply open_step; [done|done|lia]).
  rewrite <- E in *. by apply IH.
Qed.

Lemma open_rejects now b : state b = OPEN → now < openedAt b + halfOpenAfterMs b →
  execute_start now b = (b, Err CircuitOpen).
Proof.
  intros Ho Hlt. unfold execute_start, checkTimers. rewrite Ho.
  destruct (Z.leb_spec (halfOpenAfterMs b) (now - openedAt b)); [lia|]. by rewrite Ho.
Qed.

(** The breaker trips and holds: from a closed breaker without failures,
    fewer consecutive failures than the threshold leave it closed; the
    threshold-th opens it at that moment; and from then on, until
    [halfOpenAfterMs] have passed, every call is rejected without being
    started, and nothing that happens, late completions of earlier calls
    included, closes it, half-opens it or moves its deadline. *)
Theorem breaker_trips_and_holds b ts t :
  state b = CLOSED → failureCount b = 0 →
  Z.of_nat (length ts) + 1 = failureThreshold b →
  (∀ k, (k ≤ length ts)%nat → state (foldl fail_at b (take k ts)) = CLOSED) ∧
  let b' := foldl fail_at b (ts ++ [t]) in
  state b' = OPEN ∧ openedAt b' = t ∧
  ∀ u u' now, brk u = b' → rtc bstep u u' →
    clock u' < t + halfOpenAfterMs b → now < t + halfOpenAfterMs b →
    execute_start now (brk u') = (brk u', Err CircuitOpen).
Proof.
  intros Hs Hf Hthr. split.
  { intros k Hk. rewrite failures_below; [done|done|done|]. rewrite length_take. lia. }
  cbv zeta. rewrite foldl_app, (failures_below b ts) by (done || lia). simpl.
  set (b' := fail_at _ t).
  assert (b' = transitionTo OPEN t (set_failures (failureThreshold b) b)) as ->.
  { unfold b', fail_at, execute_end, recordFailure. simpl. rewrite Hs. simpl.
    destruct (Z.leb_spec (failureThreshold b) (Z.of_nat (length ts) + 1)); [|lia].
    unfold transitionTo, set_failures; simpl. f_equal. lia. }
  split_and!; [done|done|]. intros u u' now Hu Hst Hcl Hnow.
  assert (brk u' = brk u) as E by (apply open_rtc; [done|by rewrite Hu|by rewrite Hu]).
  rewrite E, Hu. by apply open_rejects.
Qed.

(** ** One probe at a time *)

(** In every state reached by overlapping calls, the probe counter is the
    number of calls admitted in this half-open period. *)
Record usage_ok (u : usage) : Prop := {
  probe_count : state (brk u) = HALF_OPEN → activeProbes (brk u) = Z.of_nat (probed u);
  probe_limit : (probed u ≤ 1)%nat;
  probe_window : openWindowMs (brk u) ≤ halfOpenAfterMs (brk u)
}.

Lemma transition_windows s now b : openWindowMs (transitionTo s now b) = openWindowMs b ∧
  halfOpenAfterMs (transitionTo s now b) = halfOpenAfterMs b.
Proof. done. Qed.

Lemma checkTimers_cases now b :
  checkTimers now b = b ∨ (state b = OPEN ∧ checkTimers now b = transitionTo HALF_OPEN now b).
Proof. unfold checkTimers. destruct (state b); auto. case_test; auto. Qed.

Lemma usage_ok_step u u' : bstep u u' → usage_ok u → usage_ok u'.
Proof.
  intros Hst [Hc Hl Hw].
  assert (∀ b', (b' = brk u ∨ (state (brk u) ≠ HALF_OPEN ∧ activeProbes b' = 0) ∨ state b' ≠ HALF_OPEN) →
    (state b' = HALF_OPEN → activeProbes b' = Z.of_nat (probes_after (brk u) b' (probed u))) ∧
    (probes_after (brk u) b' (probed u) ≤ 1)%nat) as Hkey.
  { intros b' Hb'. unfold probes_after. case_bool_decide as E; split; try lia.
    - destruct Hb' as [->|[[]|]]; naive_solver.
    - intros Hh. destruct Hb' as [->|[[_ ->]|]]; naive_solver. }
  destruct Hst as [now b Hle Hb|now b e Hle Hb|ok now n Hle Hr|now Hle].
  - unfold execute_start in Hb. destruct (checkTimers_cases now (brk u)) as [E|[Ho E]]; rewrite E in Hb.
    + destruct (state (brk u)) eqn:Hs; [|by simplify_eq|].
      * simplify_eq. constructor; simpl; rewrite ?Hs; simpl; [done|lia|done].
      * destruct (Z.leb_spec 1 (activeProbes (brk u))); [by simplify_eq|]. simplify_eq.
        specialize (Hc eq_refl). unfold probes_after. constructor; simpl; rewrite ?Hs; simpl; [|lia|done].
        intros _. lia.
    + simpl in Hb. simplify_eq. unfold probes_after. constructor; simpl; rewrite ?Ho; simpl; [done|lia|done].
  - assert (b = checkTimers now (brk u)) as ->.
    { unfold execute_start in Hb. destruct (state (checkTimers now (brk u))); [by simplify_eq|by simplify_eq|].
      case_test_in Hb; by simplify_eq. }
    destruct (checkTimers_cases now (brk u)) as [->|[Ho ->]];
      (edestruct Hkey as [H1 H2]; [|constructor; [exact H1|exact H2|done]]); [by left|right; left].
    rewrite Ho. done.
  - destruct (Hkey (execute_end ok now (brk u))) as [H1 H2].
    { unfold execute_end, recordFailure.
      destruct ok, (state (brk u)) eqn:Hs; simpl; rewrite ?Hs; auto.
      case_test; simpl; rewrite ?Hs; auto. }
    constructor; [exact H1|exact H2|]. simpl. unfold execute_end, recordFailure.
    destruct ok, (state (brk u)); simpl; try done. by case_test.
  - destruct (checkTimers_cases now (brk u)) as [E|[Ho E]]; unfold getState; simpl; rewrite E;
      (edestruct Hkey as [H1 H2]; [|constructor; [exact H1|exact H2|done]]); [by left|right; left].
    rewrite Ho. done.
Qed.

(** One probe per half-open period: however calls overlap, at most one
    call is admitted between the moment the breaker becomes half open and its
    next change of state, a second one being rejected while the first is
    running; and the half-open delay is never shorter than the open window,
    whatever the configuration says. *)
Theorem breaker_single_probe config t u now :
  rtc bstep (fresh_usage config t) u →
  (probed u ≤ 1)%nat ∧ openWindowMs (brk u) ≤ halfOpenAfterMs (brk u) ∧
  (state (brk u) = HALF_OPEN → probed u = 1%nat →
     execute_start now (brk u) = (brk u, Err ProbeInProgress)).
Proof.
  intros Hst. assert (usage_ok (fresh_usage config t)) as H0.
  { constructor; simpl; [done|lia|lia]. }
  assert (usage_ok u) as [Hc Hl Hw].
  { induction Hst; eauto using usage_ok_step. }
  split_and!; [done|done|]. intros Hs Hp. specialize (Hc Hs). rewrite Hp in Hc.
  unfold execute_start, checkTimers. rewrite Hs, Hs, Hc. done.
Qed.

(** ** A concrete run *)

Module BreakerExample.
Definition config : CircuitBreakerConfig :=
  {| cfg_failureThreshold := 2; cfg_openWindowMs := None; cfg_halfOpenAfterMs := None;
     cfg_cooldownPeriodMs := None |}.
Definition b0 : CircuitBreaker := new_CircuitBreaker config.
End BreakerExample.

Lemma breaker_trips_and_holds_witness :
  state (foldl fail_at BreakerExample.b0 [5; 8]) = OPEN ∧
  openedAt (foldl fail_at BreakerExample.b0 [5; 8]) = 8.
Proof.
  destruct (breaker_trips_and_holds BreakerExample.b0 [5] 8 eq_refl eq_refl eq_refl)
    as [_ (H1 & H2 & _)]. split; [exact H1|exact H2].
Defined.

Lemma breaker_single_probe_witness :
  openWindowMs (brk (fresh_usage BreakerExample.config 0)) ≤
    halfOpenAfterMs (brk (fresh_usage BreakerExample.config 0)).
Proof.
  exact (proj1 (proj2 (breaker_single_probe BreakerExample.config 0 _ 0 (rtc_refl _ _)))).
Defined.
