(* ===== verification/AuditChain.v ===== *)
(** * The audit log and its hash chain

    The in-memory repository of [db/repositories/auditLogsRepository.ts] and the
    verifier of [jobs/auditChainVerifier.ts], with [services/audit/chainStatus.ts].
    SHA-256 is the parameter [sha256]. A JSON object is represented by its
    [JSON.stringify] text, which the copies made by the source keep. [getTime]
    reads a timestamp string, [None] standing for NaN. *)

From stdpp Require Import base option list sets strings sorting.
From Stdlib Require Import ZArith Lia Ascii.
From S2P Require Import Prelude JsLib.

Open Scope Z_scope.

(** ** Data *)

Record AuditLogInput := {
  in_actorId : option string;
  in_actor_id : option string;
  in_adminId : option string;
  in_actorEmail : option string;
  in_actor_email : option string;
  in_adminEmail : option string;
  in_action : string;
  in_resourceType : string;
  in_resourceId : string;
  in_details : option string;
  (** [details.targetUserEmail] when it is a string *)
  in_targetUserEmail : option string;
  in_ipAddress : option string;
  in_errorMessage : option string;
  in_status : option string;
  in_tenantId : string;
  in_requestId : option string;
  in_occurredAt : option string
}.

Record AuditLogEntry := {
  id : string;
  timestamp : string;
  actorId : string;
  actorEmail : string;
  adminId : option string;
  adminEmail : option string;
  action : string;
  resourceType : string;
  resourceId : string;
  targetUserId : option string;
  targetUserEmail : option string;
  details : string;
  ipAddress : option string;
  status : string;
  errorMessage : option string;
  tenantId : string;
  requestId : option string;
  seq : Z;
  prevHash : option string;
  rowHash : option string
}.

(** The columns the verifier reads. *)
Record AuditChainRow := {
  row_id : string;
  row_seq : Z;
  occurred_at : string;
  actor_id : string;
  row_action : string;
  resource_type : string;
  resource_id : string;
  details_json : option string;
  row_status : string;
  tenant_id : string;
  prev_hash : option string;
  row_hash : option string
}.

Inductive violation_type := prev_hash_mismatch | row_hash_mismatch | missing_row | deleted_row.

Record ChainViolation := {
  v_seq : Z;
  v_id : string;
  expectedPrevHash : option string;
  actualPrevHash : option string;
  expectedRowHash : string;
  actualRowHash : option string;
  v_type : violation_type
}.

Record ChainVerificationResult := {
  valid : bool;
  rowsChecked : Z;
  lastCheckedSeq : Z;
  firstViolationSeq : option Z;
  firstViolationId : option string;
  violationCount : Z;
  violations : list ChainViolation
}.

(** ** Hashing *)

(** [parts.join('|')]. *)
Fixpoint join_bar (parts : list string) : string :=
  match parts with
  | [] => EmptyString
  | [p] => p
  | p :: ps => p +:+ String "|" (join_bar ps)
  end.

Definition hash_input (prev : option string) (i at_ actor act rtype rid det stat tenant req : string)
  : string :=
  join_bar [default "GENESIS" prev; i; at_; actor; act; rtype; rid; det; stat; tenant; req].

Section Hashing.
Variable sha256 : string → string.

Definition computeRowHash (prev : option string)
    (i at_ actor act rtype rid det stat tenant req : string) : string :=
  sha256 (hash_input prev i at_ actor act rtype rid det stat tenant req).

(** ** The in-memory repository *)

Record repository := { logs : list AuditLogEntry; seqCounter : Z }.

Definition resolveActorId (input : AuditLogInput) : string :=
  match in_actorId input with
  | Some a => a
  | None => match in_actor_id input with
            | Some a => a
            | None => default "unknown" (in_adminId input)
            end
  end.

Definition resolveActorEmail (input : AuditLogInput) : string :=
  match in_actorEmail input with
  | Some a => a
  | None => match in_actor_email input with
            | Some a => a
            | None => default "unknown@unknown" (in_adminEmail input)
            end
  end.

Definition append (uuid now : string) (input : AuditLogInput) (r : repository)
  : repository * result string AuditLogEntry :=
  if String.eqb (in_tenantId input) EmptyString
  then (r, Err "AuditLogRepository.append requires tenantId for tenant isolation") else
  let actor := resolveActorId input in
  let s := seqCounter r + 1 in
  let occurredAt := default now (in_occurredAt input) in
  let detailsStr := default "{}" (in_details input) in
  let statusVal := default "success" (in_status input) in
  let prev := match last (logs r) with Some e => rowHash e | None => None end in
  let email := resolveActorEmail input in
  let entry := {| id := uuid; timestamp := occurredAt; actorId := actor; actorEmail := email;
     adminId := Some actor; adminEmail := Some email; action := in_action input;
     resourceType := in_resourceType input; resourceId := in_resourceId input;
     targetUserId := Some (in_resourceId input); targetUserEmail := in_targetUserEmail input;
     details := detailsStr; ipAddress := in_ipAddress input; status := statusVal;
     errorMessage := in_errorMessage input; tenantId := in_tenantId input;
     requestId := in_requestId input; seq := s; prevHash := prev;
     rowHash := Some (computeRowHash prev uuid occurredAt actor (in_action input)
       (in_resourceType input) (in_resourceId input) detailsStr statusVal (in_tenantId input)
       (default EmptyString (in_requestId input))) |} in
  ({| logs := logs r ++ [entry]; seqCounter := s |}, Ok entry).

(** [appendBatch]: one after the other, stopping at the first exception; the
    entries before it stay. *)
Fixpoint appendBatch (inputs : list (string * string * AuditLogInput)) (r : repository)
  : repository * result string (list AuditLogEntry) :=
  match inputs with
  | [] => (r, Ok [])
  | (uuid, now, input) :: rest =>
      match append uuid now input r with
      | (r1, Err e) => (r1, Err e)
      | (r1, Ok entry) =>
          match appendBatch rest r1 with
          | (r2, Ok entries) => (r2, Ok (entry :: entries))
          | (r2, Err e) => (r2, Err e)
          end
      end
  end.

Definition getAll (r : repository) : list AuditLogEntry := logs r.

Definition clear : repository := {| logs := []; seqCounter := 0 |}.

(** ** The verifier *)

Record vstate := {
  found : list ChainViolation;
  checked : Z;
  prevRowHash : option string;
  prevSeq : option Z;
  lastSeq : Z
}.

Definition vstart : vstate :=
  {| found := []; checked := 0; prevRowHash := None; prevSeq := None; lastSeq := 0 |}.

(** The hash the verifier expects: [computeRowHash] with the request id left at
    its default. *)
Definition expected_hash (row : AuditChainRow) : string :=
  computeRowHash (prev_hash row) (row_id row) (occurred_at row) (actor_id row) (row_action row)
    (resource_type row) (resource_id row) (default "{}" (details_json row)) (row_status row)
    (tenant_id row) EmptyString.

Definition violation (st : vstate) (row : AuditChainRow) (expected : string) (ty : violation_type)
  : ChainViolation :=
  {| v_seq := row_seq row; v_id := row_id row; expectedPrevHash := prevRowHash st;
     actualPrevHash := prev_hash row; expectedRowHash := expected;
     actualRowHash := row_hash row; v_type := ty |}.

Definition push (st : vstate) (v : ChainViolation) : vstate :=
  {| found := found st ++ [v]; checked := checked st; prevRowHash := prevRowHash st;
     prevSeq := prevSeq st; lastSeq := lastSeq st |}.

Definition advance (st : vstate) (row : AuditChainRow) : vstate :=
  {| found := found st; checked := checked st; prevRowHash := row_hash row;
     prevSeq := Some (row_seq row); lastSeq := row_seq row |}.

Definition full (maxViolations : Z) (st : vstate) : bool :=
  maxViolations <=? Z.of_nat (length (found st)).

(** A check that may push a violation; [Err] is the [break]. *)
Definition check (maxViolations : Z) (fails : bool) (v : ChainViolation) (st : vstate)
  : result vstate vstate :=
  if fails then let st' := push st v in if full maxViolations st' then Err st' else Ok st'
  else Ok st.

(** The body of the loop over the rows of a batch. [seq] is the number that
    [AuditChainRow] declares; the driver reads the BIGINT column as a text unless
    a type parser is set, and then [prevSeq + 1] is never the next number. *)
Definition check_row (maxViolations : Z) (st : vstate) (row : AuditChainRow) : result vstate vstate :=
  let st0 := {| found := found st; checked := checked st + 1; prevRowHash := prevRowHash st;
                prevSeq := prevSeq st; lastSeq := lastSeq st |} in
  let gap := match prevSeq st with Some p => negb (row_seq row =? p + 1) | None => false end in
  st1 ← check maxViolations gap (violation st row EmptyString deleted_row) st0;
  st2 ← check maxViolations (bool_decide (prev_hash row ≠ prevRowHash st))
          (violation st row EmptyString prev_hash_mismatch) st1;
  st3 ← check maxViolations (bool_decide (row_hash row ≠ Some (expected_hash row)))
          (violation st row (expected_hash row) row_hash_mismatch) st2;
  Ok (advance st3 row).

Fixpoint check_rows (maxViolations : Z) (st : vstate) (rows : list AuditChainRow)
  : result vstate vstate :=
  match rows with
  | [] => Ok st
  | row :: rest => st' ← check_row maxViolations st row; check_rows maxViolations st' rest
  end.

(** The table, in the order of [seq]; [LIMIT] of a batch. *)
Definition fetchBatch (batchSize : Z) (table : list AuditChainRow) (afterSeq : Z)
  : list AuditChainRow :=
  take (Z.to_nat batchSize) (filter (λ row, afterSeq < row_seq row) table).

(** The [while] loop; [None] is running out of fuel. *)
Fixpoint verify_loop (fuel : nat) (batchSize maxViolations : Z) (table : list AuditChainRow)
    (st : vstate) : option vstate :=
  match fuel with
  | O => None
  | S fuel' =>
      if full maxViolations st then Some st else
      match fetchBatch batchSize table (lastSeq st) with
      | [] => Some st
      | rows =>
          match check_rows maxViolations st rows with
          | Err st' => if Z.of_nat (length rows) <? batchSize then Some st'
                       else verify_loop fuel' batchSize maxViolations table st'
          | Ok st' => if Z.of_nat (length rows) <? batchSize then Some st'
                      else verify_loop fuel' batchSize maxViolations table st'
          end
      end
  end.

Definition result_of (st : vstate) : ChainVerificationResult :=
  {| valid := match found st with [] => true | _ => false end;
     rowsChecked := checked st; lastCheckedSeq := lastSeq st;
     firstViolationSeq := v_seq <$> head (found st);
     firstViolationId := v_id <$> head (found st);
     violationCount := Z.of_nat (length (found st)); violations := found st |}.

Definition verify (batchSize maxViolations : Z) (table : list AuditChainRow)
  : option ChainVerificationResult :=
  result_of <$> verify_loop (length table + 2) batchSize maxViolations table vstart.

(** The row under which an entry is stored. *)
Definition to_row (e : AuditLogEntry) : AuditChainRow :=
  {| row_id := id e; row_seq := seq e; occurred_at := timestamp e; actor_id := actorId e;
     row_action := action e; resource_type := resourceType e; resource_id := resourceId e;
     details_json := Some (details e); row_status := status e; tenant_id := tenantId e;
     prev_hash := prevHash e; row_hash := rowHash e |}.
End Hashing.

(** [computeLastVerifiedHeight]. *)
Definition computeLastVerifiedHeight (r : ChainVerificationResult) : Z :=
  if valid r then lastCheckedSeq r
  else match firstViolationSeq r with Some s => Z.max 0 (s - 1) | None => 0 end.

(** ** Verification in batches is one pass over the table *)

Definition unwrap {A} (m : result A A) : A := match m with Ok a => a | Err a => a end.

Section Verifier.
Variable sha256 : string → string.
Abbreviation rows_from := (check_rows sha256).

Lemma check_rows_app mx st l1 l2 :
  rows_from mx st (l1 ++ l2) = st' ← rows_from mx st l1; rows_from mx st' l2.
Proof.
  revert st. induction l1 as [|r l1 IH]; intros st; simpl; [done|].
  destruct (check_row sha256 mx st r); simpl; [apply IH|done].
Qed.

(** The [break] is taken exactly when the list of violations is full. *)
Lemma check_full mx b v st : full mx st = false →
  match check mx b v st with Ok st' => full mx st' = false | Err st' => full mx st' = true end.
Proof. intros H. unfold check. destruct b; [|done]. by destruct (full mx (push st v)) eqn:E. Qed.

Lemma check_row_full mx st row : full mx st = false →
  match check_row sha256 mx st row with
  | Ok st' => full mx st' = false ∧ lastSeq st' = row_seq row
  | Err st' => full mx st' = true
  end.
Proof.
  intros H. unfold check_row. set (st0 := {| found := found st |}).
  assert (full mx st0 = false) as H0 by done. generalize dependent st0. intros st0 H0.
  match goal with |- context [check mx ?b ?v st0] => pose proof (check_full mx b v st0 H0) as H1 end.
  destruct (check mx _ _ st0) as [st1|st1]; [|done]. simpl.
  match goal with |- context [check mx ?b ?v st1] => pose proof (check_full mx b v st1 H1) as H2 end.
  destruct (check mx _ _ st1) as [st2|st2]; [|done]. simpl.
  match goal with |- context [check mx ?b ?v st2] => pose proof (check_full mx b v st2 H2) as H3 end.
  destruct (check mx _ _ st2) as [st3|st3]; [|done]. simpl. done.
Qed.

Lemma check_rows_full mx st rows : full mx st = false →
  match rows_from mx st rows with
  | Ok st' => full mx st' = false ∧ lastSeq st' = default (lastSeq st) (row_seq <$> last rows)
  | Err st' => full mx st' = true
  end.
Proof.
  revert st. induction rows as [|r rows IH]; intros st H; [done|]. cbn [check_rows].
  pose proof (check_row_full mx st r H) as Hr.
  destruct (check_row sha256 mx st r) as [st1|st1]; cbn [mbind result_bind]; [|done].
  destruct Hr as [Hf Hl].
  specialize (IH st1 Hf). destruct (rows_from mx st1 rows); [|done].
  destruct IH as [? ->]. split; [done|].
  rewrite last_cons.
  by destruct (last rows).
Qed.

Definition ordered (table : list AuditChainRow) : Prop :=
  StronglySorted (λ a b, row_seq a < row_seq b) table ∧ Forall (λ r, 0 < row_seq r) table.

Lemma filter_rest (done_ rest : list AuditChainRow) s :
  Forall (λ r, row_seq r ≤ s) done_ → Forall (λ r, s < row_seq r) rest →
  filter (λ row, s < row_seq row) (done_ ++ rest) = rest.
Proof.
  intros H1 H2. rewrite filter_app.
  assert (filter (λ row, s < row_seq row) done_ = []) as ->.
  { clear H2. induction H1 as [|x l Hx _ IH]; [done|]. rewrite filter_cons, decide_False by lia. done. }
  simpl. induction H2 as [|x l Hx _ IH]; [done|]. rewrite filter_cons, decide_True by lia. by rewrite IH.
Qed.

Lemma verify_loop_scan mx batch done_ rest st fuel :
  1 ≤ batch → full mx st = false → StronglySorted (λ a b, row_seq a < row_seq b) rest →
  Forall (λ r, row_seq r ≤ lastSeq st) done_ → Forall (λ r, lastSeq st < row_seq r) rest →
  (length rest + 1 < fuel)%nat →
  verify_loop sha256 fuel batch mx (done_ ++ rest) st = Some (unwrap (rows_from mx st rest)).
Proof.
  intros Hb. revert done_ rest st. induction fuel as [|fuel IH]; intros done_ rest st Hf Hs Hd Hr Hfu; [lia|].
  cbn [verify_loop]. rewrite Hf. unfold fetchBatch. rewrite filter_rest by done.
  destruct rest as [|r0 rest0] eqn:Erest; [by rewrite take_nil|]. rewrite <- Erest in *.
  destruct (take (Z.to_nat batch) rest) as [|x l] eqn:Et.
  { subst rest. destruct (Z.to_nat batch) eqn:E; [lia|done]. }
  rewrite <- Et. clear x l Et.
  pose proof (check_rows_app mx st (take (Z.to_nat batch) rest) (drop (Z.to_nat batch) rest)) as Happ.
  rewrite take_drop in Happ.
  pose proof (check_rows_full mx st (take (Z.to_nat batch) rest) Hf) as Hfull.
  destruct (rows_from mx st (take (Z.to_nat batch) rest)) as [st'|st'] eqn:Ec; simpl in Happ.
  - destruct Hfull as [Hf' Hl']. rewrite Happ.
    destruct (Z.ltb_spec (Z.of_nat (length (take (Z.to_nat batch) rest))) batch) as [Hlt|Hge].
    { rewrite length_take in Hlt. by rewrite drop_ge by lia. }
    assert (∃ pre y, take (Z.to_nat batch) rest = pre ++ [y]) as (pre & y & Ey).
    { destruct (take (Z.to_nat batch) rest) as [|z zs] using rev_ind; [simpl in *; lia|eauto]. }
    rewrite Ey, last_snoc in Hl'. simpl in Hl'.
    rewrite <- (take_drop (Z.to_nat batch) rest) in Hs, Hr. rewrite Ey in Hs, Hr.
    rewrite <- (take_drop (Z.to_nat batch) rest) at 1. rewrite app_assoc.
    rewrite length_take in Hge.
    apply StronglySorted_app in Hs as (Hlt & Hsp & Hsd).
    apply StronglySorted_app in Hsp as (Hpre & _ & _).
    apply IH; [done|done| | |rewrite length_drop; subst rest; simpl in *; lia].
    + rewrite Ey, app_assoc. apply Forall_app. apply Forall_app in Hr as [Hr _].
      apply Forall_app in Hr as [_ Hy]. rewrite Forall_singleton in Hy. split.
      * apply Forall_app. split.
        -- eapply Forall_impl; [exact Hd|]. intros z; simpl; lia.
        -- apply Forall_forall. intros z Hz. assert (row_seq z < row_seq y) by (apply Hpre; [done|by left]). lia.
      * apply Forall_singleton. lia.
    + apply Forall_forall. intros z Hz. rewrite Hl'. apply Hlt; [|done]. apply elem_of_app. right. by left.
  - rewrite Happ. simpl. case_test; [done|]. destruct fuel as [|fuel]; [subst rest; simpl in *; lia|].
    cbn [verify_loop]. by rewrite Hfull.
Qed.

Lemma verify_scan batch mx table :
  1 ≤ batch → 1 ≤ mx → ordered table →
  verify sha256 batch mx table = Some (result_of (unwrap (rows_from mx vstart table))).
Proof.
  intros Hb Hm [Hs Hp]. unfold verify.
  assert (full mx vstart = false) as Hf.
  { unfold full; simpl. apply Z.leb_gt. lia. }
  pose proof (verify_loop_scan mx batch [] table vstart (length table + 2)) as H. simpl in H.
  rewrite H; try done. lia.
Qed.

(** ** What an accepted chain is *)

(** Each row links to the one before it, follows it without a gap and carries
    the hash of its content. *)
Fixpoint chain_ok (ph : option string) (ps : option Z) (rows : list AuditChainRow) : Prop :=
  match rows with
  | [] => True
  | r :: rest =>
      match ps with Some p => row_seq r = p + 1 | None => True end ∧
      prev_hash r = ph ∧ row_hash r = Some (expected_hash sha256 r) ∧
      chain_ok (row_hash r) (Some (row_seq r)) rest
  end.

Lemma check_found mx b v st : found st ≠ [] ∨ b = true → found (unwrap (check mx b v st)) ≠ [].
Proof.
  unfold check. intros H. destruct b; [|by destruct H].
  assert (found (push st v) ≠ []) by (simpl; by destruct (found st)).
  by destruct (full mx (push st v)).
Qed.

Lemma check_then_found mx b v st (k : vstate → result vstate vstate) :
  (∀ st', found st' ≠ [] → found (unwrap (k st')) ≠ []) →
  found st ≠ [] ∨ b = true → found (unwrap (check mx b v st ≫= k)) ≠ [].
Proof.
  intros Hk H. pose proof (check_found mx b v st H). destruct (check mx b v st); simpl; auto.
Qed.

Lemma check_row_found mx st row : found st ≠ [] → found (unwrap (check_row sha256 mx st row)) ≠ [].
Proof.
  intros H. unfold check_row. apply check_then_found; [|by left]. intros st1 H1.
  apply check_then_found; [|by left]. intros st2 H2. apply check_then_found; [|by left]. by intros.
Qed.

Lemma check_rows_found mx st rows : found st ≠ [] → found (unwrap (rows_from mx st rows)) ≠ [].
Proof.
  revert st. induction rows as [|r rows IH]; intros st H; simpl; [done|].
  pose proof (check_row_found mx st r H). destruct (check_row sha256 mx st r); simpl; auto.
Qed.

(** A row either passes all three checks or leaves a violation. *)
Lemma check_row_clean mx st r :
  let ok := match prevSeq st with Some p => row_seq r = p + 1 | None => True end ∧
    prev_hash r = prevRowHash st ∧ row_hash r = Some (expected_hash sha256 r) in
  (ok ∧ check_row sha256 mx st r = Ok (advance {| found := found st; checked := checked st + 1;
     prevRowHash := prevRowHash st; prevSeq := prevSeq st; lastSeq := lastSeq st |} r)) ∨
  (¬ ok ∧ found (unwrap (check_row sha256 mx st r)) ≠ []).
Proof.
  intros ok. unfold check_row. set (st0 := {| found := found st |}).
  set (gap := match prevSeq st with Some p => negb (row_seq r =? p + 1) | None => false end).
  assert (match prevSeq st with Some p => row_seq r = p + 1 | None => True end ↔ gap = false) as Hgap.
  { unfold gap. destruct (prevSeq st); [|done]. breflect. done. }
  subst ok. rewrite Hgap. clear Hgap. generalize dependent gap. intros gap.
  destruct gap.
  { right. split; [by intros [? _]|]. apply check_then_found; [|by right].
    intros st1 H1. apply check_then_found; [|by left]. intros st2 H2.
    apply check_then_found; [|by left]. by intros. }
  cbn [check mbind result_bind].
  destruct (decide (prev_hash r = prevRowHash st)) as [E1|E1].
  2:{ right. split; [by intros (_ & ? & _)|]. apply check_then_found; [|right; by apply bool_decide_eq_true_2].
      intros st2 H2. apply check_then_found; [|by left]. by intros. }
  rewrite (bool_decide_eq_false_2 (prev_hash r ≠ prevRowHash st)) by (intros H; exact (H E1)).
  cbn [check mbind result_bind].
  destruct (decide (row_hash r = Some (expected_hash sha256 r))) as [E2|E2].
  2:{ right. split; [by intros (_ & _ & ?)|].
      apply check_then_found; [by intros|right; by apply bool_decide_eq_true_2]. }
  rewrite (bool_decide_eq_false_2 (row_hash r ≠ Some _)) by (intros H; exact (H E2)).
  by left.
Qed.

Lemma scan_valid mx st rows : found st = [] →
  found (unwrap (rows_from mx st rows)) = [] ↔ chain_ok (prevRowHash st) (prevSeq st) rows.
Proof.
  revert st. induction rows as [|r rows IH]; intros st Hf; cbn [check_rows chain_ok]; [done|].
  destruct (check_row_clean mx st r) as [[Hok ->]|[Hno Hfound]]; cbn [mbind result_bind].
  - rewrite IH by done. simpl. naive_solver.
  - split; [|naive_solver]. intros H. exfalso. revert H.
    destruct (check_row sha256 mx st r) as [st'|st']; simpl in *; [|done].
    by apply check_rows_found.
Qed.

(** ** The break that is reported *)

Lemma check_new mx b v st s : v_seq v = s →
  ∃ vs, found (unwrap (check mx b v st)) = found st ++ vs ∧ Forall (λ v, v_seq v = s) vs.
Proof.
  intros Hv. unfold check. destruct b; [|exists []; by rewrite app_nil_r].
  exists [v]. by destruct (full mx (push st v)); rewrite Forall_singleton.
Qed.

Lemma check_then_new mx b v st s (k : vstate → result vstate vstate) : v_seq v = s →
  (∀ st', ∃ vs, found (unwrap (k st')) = found st' ++ vs ∧ Forall (λ v, v_seq v = s) vs) →
  ∃ vs, found (unwrap (check mx b v st ≫= k)) = found st ++ vs ∧ Forall (λ v, v_seq v = s) vs.
Proof.
  intros Hv Hk. destruct (check_new mx b v st s Hv) as (vs & Hvs & Hs).
  destruct (check mx b v st) as [st'|st']; simpl in *; [|by exists vs].
  destruct (Hk st') as (ws & -> & Hws). exists (vs ++ ws).
  rewrite Hvs, Forall_app, app_assoc. done.
Qed.

Lemma check_row_new mx st r :
  ∃ vs, found (unwrap (check_row sha256 mx st r)) = found st ++ vs ∧
        Forall (λ v, v_seq v = row_seq r) vs.
Proof.
  unfold check_row. eapply (check_then_new _ _ _ {| found := found st |}); [done|].
  intros st1. apply check_then_new; [done|]. intros st2. apply check_then_new; [done|].
  intros st3. exists []. by rewrite app_nil_r.
Qed.

Lemma check_rows_head mx st rows v :
  head (found st) = Some v → head (found (unwrap (rows_from mx st rows))) = Some v.
Proof.
  revert st. induction rows as [|r rows IH]; intros st H; simpl; [done|].
  destruct (check_row_new mx st r) as (vs & Hvs & _).
  assert (head (found (unwrap (check_row sha256 mx st r))) = Some v) as Hh.
  { rewrite Hvs. by destruct (found st). }
  destruct (check_row sha256 mx st r); simpl in *; auto.
Qed.

Lemma scan_break mx st rows : found st = [] → found (unwrap (rows_from mx st rows)) ≠ [] →
  ∃ pre r post, rows = pre ++ r :: post ∧ chain_ok (prevRowHash st) (prevSeq st) pre ∧
    ¬ chain_ok (prevRowHash st) (prevSeq st) (pre ++ [r]) ∧
    v_seq <$> head (found (unwrap (rows_from mx st rows))) = Some (row_seq r).
Proof.
  revert st. induction rows as [|r rows IH]; intros st Hf Hne; [done|].
  cbn [check_rows] in *.
  destruct (check_row_clean mx st r) as [[(H1 & H2 & H3) E]|[Hno Hfound]].
  - rewrite E in *. cbn [mbind result_bind] in *.
    match type of Hne with found (unwrap (check_rows _ _ ?st' _)) ≠ [] => specialize (IH st' Hf Hne) end.
    destruct IH as (pre & x & post & -> & Hpre & Hx & Hs).
    exists (r :: pre), x, post. split; [done|]. split; [by repeat split|]. split; [|done].
    simpl. intros (_ & _ & _ & H). by apply Hx.
  - exists [], r, rows. split; [done|]. split; [done|]. split; [simpl; naive_solver|].
    destruct (check_row_new mx st r) as (vs & Hvs & Hs). rewrite Hf in Hvs. simpl in Hvs.
    destruct vs as [|v vs]; [done|]. apply Forall_cons in Hs as [Hv _].
    assert (head (found (unwrap (check_row sha256 mx st r))) = Some v) as Hh by by rewrite Hvs.
    enough (head (found (unwrap (check_row sha256 mx st r ≫= λ st', rows_from mx st' rows)))
            = Some v) as -> by (simpl; by rewrite Hv).
    destruct (check_row sha256 mx st r); simpl in *; [by apply check_rows_head|done].
Qed.

Lemma scan_last mx table : 1 ≤ mx → found (unwrap (rows_from mx vstart table)) = [] →
  lastSeq (unwrap (rows_from mx vstart table)) = default 0 (row_seq <$> last table).
Proof.
  intros Hm Hf. assert (full mx vstart = false) as H0.
  { unfold full; simpl. apply Z.leb_gt. lia. }
  pose proof (check_rows_full mx vstart table H0) as H.
  destruct (rows_from mx vstart table) as [st|st]; simpl in *; [by destruct H|].
  unfold full in H. rewrite Hf in H. apply Z.leb_le in H. simpl in H. lia.
Qed.

(** Verification does not depend on the batches: for any batch size, over
    a table in the order of its sequence numbers, [verify] ends and returns
    exactly what one pass over all rows finds, so no row at a batch boundary is
    skipped or checked against the wrong predecessor. It reports the chain as
    valid if and only if every row links to the row before it, follows it
    without a gap, and carries the hash of its content; the recorded height is
    then the last sequence number, and otherwise one less than that of the
    first row at which the chain breaks. *)
Theorem verify_checks_every_row batch mx table :
  1 ≤ batch → 1 ≤ mx → ordered table →
  let res := result_of (unwrap (rows_from mx vstart table)) in
  verify sha256 batch mx table = Some res ∧
  (valid res = true ↔ chain_ok None None table) ∧
  (valid res = true → computeLastVerifiedHeight res = default 0 (row_seq <$> last table)) ∧
  (valid res = false → ∃ pre r post, table = pre ++ r :: post ∧ chain_ok None None pre ∧
     ¬ chain_ok None None (pre ++ [r]) ∧ firstViolationSeq res = Some (row_seq r) ∧
     computeLastVerifiedHeight res = row_seq r - 1).
Proof.
  intros Hb Hm Ho res. split; [by apply verify_scan|]. split.
  { simpl. rewrite <- (scan_valid mx vstart table eq_refl). by destruct (found _). }
  split; intros Hv; unfold computeLastVerifiedHeight; rewrite Hv.
  - apply scan_last; [done|]. subst res. simpl in Hv. by destruct (found _).
  - destruct (scan_break mx vstart table eq_refl) as (pre & r & post & -> & Hpre & Hr & Hs).
    { intros E. subst res. simpl in Hv. by rewrite E in Hv. }
    exists pre, r, post. do 3 (split; [done|]). split; [exact Hs|].
    replace (firstViolationSeq res) with (Some (row_seq r)) by (symmetry; exact Hs).
    destruct Ho as [_ Hp]. rewrite Forall_app, Forall_cons in Hp. lia.
Qed.

End Verifier.

(** ** Tamper evidence *)

Definition no_bar (s : string) : Prop := str_forallb (λ c, negb (Ascii.eqb c "|")) s = true.

Lemma bar_split a b s t : no_bar a → no_bar b →
  a +:+ String "|" s = b +:+ String "|" t → a = b ∧ s = t.
Proof.
  unfold no_bar. revert b. induction a as [|c a IH]; intros [|d b] Ha Hb E; simpl in *.
  - by injection E.
  - injection E as <- _. done.
  - injection E as -> _. done.
  - injection E as <- E. apply andb_true_iff in Ha as [_ Ha]. apply andb_true_iff in Hb as [_ Hb].
    destruct (IH b Ha Hb E) as [-> ->]. done.
Qed.

Section Tamper.
Variable sha256 : string → string.

(** The text whose digest the verifier expects as the hash of a row. *)
Definition row_input (r : AuditChainRow) : string :=
  hash_input (prev_hash r) (row_id r) (occurred_at r) (actor_id r) (row_action r)
    (resource_type r) (resource_id r) (default "{}" (details_json r)) (row_status r)
    (tenant_id r) EmptyString.

(** A digest is written in hexadecimal, so it holds no bar, and it is not the
    word that stands for the missing predecessor; no two of the texts hashed
    in the two tables have the same digest. *)
Definition hex_digest : Prop := ∀ x, no_bar (sha256 x) ∧ sha256 x ≠ "GENESIS".

Definition collision_free (texts : list string) : Prop :=
  ∀ x y, x ∈ texts → y ∈ texts → sha256 x = sha256 y → x = y.

Lemma chain_ok_snoc ph ps l r : chain_ok sha256 ph ps (l ++ [r]) ↔
  chain_ok sha256 ph ps l ∧
  match (match last l with Some x => Some (row_seq x) | None => ps end) with
  | Some p => row_seq r = p + 1 | None => True end ∧
  prev_hash r = match last l with Some x => row_hash x | None => ph end ∧
  row_hash r = Some (expected_hash sha256 r).
Proof.
  revert ph ps. induction l as [|x l IH]; intros ph ps; cbn [chain_ok app].
  { simpl. naive_solver. }
  rewrite IH, last_cons. destruct (last l); naive_solver.
Qed.

Lemma chain_ok_last ph ps l x : chain_ok sha256 ph ps l → last l = Some x →
  row_hash x = Some (expected_hash sha256 x).
Proof.
  intros H Hl. apply last_Some in Hl as [l' ->]. apply chain_ok_snoc in H. naive_solver.
Qed.

Lemma chain_prev_hash ph ps l x : chain_ok sha256 ph ps l → last l = Some x →
  ∃ y, row_hash x = Some (sha256 y).
Proof. intros H Hl. eexists. by apply (chain_ok_last _ _ _ _ H Hl). Qed.

(** Two texts with different predecessors differ. *)
Lemma row_input_prev r1 r2 h1 h2 : hex_digest →
  prev_hash r1 = h1 → prev_hash r2 = h2 →
  (h1 = None ∨ ∃ y, h1 = Some (sha256 y)) → (h2 = None ∨ ∃ y, h2 = Some (sha256 y)) →
  row_input r1 = row_input r2 → h1 = h2.
Proof.
  intros Hd <- <- H1 H2 E. unfold row_input, hash_input in E. cbn [join_bar] in E.
  assert (∀ h, (h = None ∨ ∃ y, h = Some (sha256 y)) → no_bar (default "GENESIS" h)) as Hn.
  { intros h [->|[y ->]]; [done|]. apply Hd. }
  apply bar_split in E as [E _]; [|by apply Hn..].
  destruct H1 as [H1|[y1 H1]], H2 as [H2|[y2 H2]]; rewrite H1, H2 in *; simpl in E; try done.
  - destruct (proj2 (Hd y2)). symmetry. exact E.
  - destruct (proj2 (Hd y1)). exact E.
  - by rewrite E.
Qed.

Lemma tamper_evident_inputs t1 t2 : hex_digest →
  collision_free ((row_input <$> t1) ++ (row_input <$> t2)) →
  chain_ok sha256 None None t1 → chain_ok sha256 None None t2 →
  row_hash <$> last t1 = row_hash <$> last t2 →
  row_input <$> t1 = row_input <$> t2.
Proof.
  intros Hd. revert t2. induction t1 as [|r1 t1 IH] using rev_ind; intros t2 Hc H1 H2 Hl.
  { destruct t2 as [|r2 t2 _] using rev_ind; [done|]. by rewrite last_snoc in Hl. }
  destruct t2 as [|r2 t2 _] using rev_ind; [by rewrite last_snoc in Hl|].
  rewrite !last_snoc in Hl. injection Hl as Hl.
  apply chain_ok_snoc in H1 as (H1 & _ & Hp1 & Hr1).
  apply chain_ok_snoc in H2 as (H2 & _ & Hp2 & Hr2).
  rewrite Hr1, Hr2 in Hl. injection Hl as Hl.
  assert (row_input r1 = row_input r2) as E.
  { apply Hc; [set_solver..|exact Hl]. }
  assert (row_hash <$> last t1 = row_hash <$> last t2) as Hlast.
  { apply (row_input_prev r1 r2 _ _ Hd Hp1 Hp2) in E.
    - destruct (last t1) as [x1|] eqn:L1, (last t2) as [x2|] eqn:L2; simpl in *; [by rewrite E|..|done].
      + destruct (chain_prev_hash _ _ _ _ H1 L1) as [y Hy]. congruence.
      + destruct (chain_prev_hash _ _ _ _ H2 L2) as [y Hy]. congruence.
    - destruct (last t1) eqn:L; [right; exact (chain_prev_hash _ _ _ _ H1 L)|by left].
    - destruct (last t2) eqn:L; [right; exact (chain_prev_hash _ _ _ _ H2 L)|by left]. }
  rewrite !fmap_app. simpl. rewrite E. f_equal. apply IH; [|done..].
  intros x y Hx Hy. apply Hc; set_solver.
Qed.

Lemma bar_assoc a b c : a +:+ String "|" (b +:+ c) = (a +:+ String "|" b) +:+ c.
Proof. by rewrite str_app_assoc. Qed.

Lemma bar_split_r a b s t : no_bar s → no_bar t →
  a +:+ String "|" s = b +:+ String "|" t → a = b ∧ s = t.
Proof.
  assert (∀ x y, no_bar (x +:+ String "|" y) → False) as Hno.
  { unfold no_bar. intros x y. rewrite str_forallb_app. simpl. by rewrite andb_false_r. }
  intros Hs Ht. revert b. induction a as [|c a IH]; intros [|d b] E; simpl in *.
  - by injection E.
  - injection E as <- ->. by apply Hno in Hs.
  - injection E as -> <-. by apply Hno in Ht.
  - injection E as <- E. destruct (IH b E) as [-> ->]. done.
Qed.

(** The columns that are hashed, the missing details read as [{}]. *)
Definition content (r : AuditChainRow) : list string :=
  [row_id r; occurred_at r; actor_id r; row_action r; resource_type r; resource_id r;
   default "{}" (details_json r); row_status r; tenant_id r].

(** No column other than the details, and not the link, holds the separator. *)
Definition separable (r : AuditChainRow) : Prop :=
  no_bar (default "GENESIS" (prev_hash r)) ∧ no_bar (row_id r) ∧ no_bar (occurred_at r) ∧
  no_bar (actor_id r) ∧ no_bar (row_action r) ∧ no_bar (resource_type r) ∧
  no_bar (resource_id r) ∧ no_bar (row_status r) ∧ no_bar (tenant_id r).

Lemma row_input_content r1 r2 : separable r1 → separable r2 →
  row_input r1 = row_input r2 → content r1 = content r2.
Proof.
  intros (? & ? & ? & ? & ? & ? & ? & ? & ?) (? & ? & ? & ? & ? & ? & ? & ? & ?) E.
  unfold row_input, hash_input in E. cbn [join_bar] in E. unfold content.
  do 7 (apply bar_split in E as [? E]; [|done..]). rewrite !bar_assoc in E.
  apply bar_split_r in E as [E _]; [|done..]. apply bar_split_r in E as [E ?]; [|done..].
  apply bar_split_r in E as [E ?]; [|done..]. congruence.
Qed.

Lemma inputs_content t1 t2 : Forall separable t1 → Forall separable t2 →
  row_input <$> t1 = row_input <$> t2 → content <$> t1 = content <$> t2.
Proof.
  intros H1. revert t2. induction H1 as [|r1 t1 Hr1 _ IH]; intros t2 H2 E; destruct H2 as [|r2 t2 Hr2 H2]; try done.
  injection E as E1 E2. rewrite !fmap_cons. f_equal; [by apply row_input_content|by apply IH].
Qed.

Lemma verified_chain batch mx t res : 1 ≤ batch → 1 ≤ mx → ordered t →
  verify sha256 batch mx t = Some res → valid res = true → chain_ok sha256 None None t.
Proof.
  intros Hb Hm Ho. rewrite verify_scan by done. intros [= <-] Hv.
  apply (scan_valid sha256 mx vstart t eq_refl). simpl in Hv. by destruct (found _).
Qed.

(** C25. The chain is tamper evident: when the verifier accepts two tables
    that end in the same row hash, they hold the same sequence of hashed
    texts, so no row before the last was altered, inserted, removed or
    reordered without changing the last hash; and when no column but the
    details holds the separator, every hashed column of every row is the
    same. *)
Theorem audit_chain_tamper_evident batch1 batch2 mx1 mx2 t1 t2 res1 res2 :
  hex_digest → collision_free ((row_input <$> t1) ++ (row_input <$> t2)) →
  1 ≤ batch1 → 1 ≤ mx1 → ordered t1 → 1 ≤ batch2 → 1 ≤ mx2 → ordered t2 →
  verify sha256 batch1 mx1 t1 = Some res1 → valid res1 = true →
  verify sha256 batch2 mx2 t2 = Some res2 → valid res2 = true →
  row_hash <$> last t1 = row_hash <$> last t2 →
  row_input <$> t1 = row_input <$> t2 ∧
  (Forall separable t1 → Forall separable t2 → content <$> t1 = content <$> t2).
Proof.
  intros Hd Hc Hb1 Hm1 Ho1 Hb2 Hm2 Ho2 V1 W1 V2 W2 Hl.
  assert (row_input <$> t1 = row_input <$> t2) as E.
  { apply tamper_evident_inputs; [done|done| | |done].
    - exact (verified_chain _ _ _ _ Hb1 Hm1 Ho1 V1 W1).
    - exact (verified_chain _ _ _ _ Hb2 Hm2 Ho2 V2 W2). }
  split; [done|]. intros S1 S2. by apply inputs_content.
Qed.
End Tamper.

(** ** What the repository writes *)

Section Append.
Variable sha256 : string → string.

(** The text hashed when an entry is appended, with its request id. *)
Definition entry_input (e : AuditLogEntry) : string :=
  hash_input (prevHash e) (id e) (timestamp e) (actorId e) (action e) (resourceType e)
    (resourceId e) (details e) (status e) (tenantId e) (default EmptyString (requestId e)).

(** Numbered from one without a gap, linked, each with the hash of its text. *)
Inductive log_ok : list AuditLogEntry → Prop :=
| log_nil : log_ok []
| log_snoc l e : log_ok l → seq e = Z.of_nat (length l) + 1 →
    prevHash e = (last l ≫= rowHash) → rowHash e = Some (sha256 (entry_input e)) →
    tenantId e ≠ EmptyString → log_ok (l ++ [e]).

Definition repo_ok (r : repository) : Prop :=
  log_ok (logs r) ∧ seqCounter r = Z.of_nat (length (logs r)).

Lemma append_ok uuid now input r : repo_ok r → repo_ok (append sha256 uuid now input r).1.
Proof.
  intros [Hl Hs]. unfold append.
  destruct (String.eqb_spec (in_tenantId input) EmptyString) as [|Ht]; [done|]. split; simpl.
  - constructor; [done|simpl; lia| |done|]; simpl.
    + by destruct (last (logs r)).
    + exact Ht.
  - rewrite length_app, Hs. simpl. lia.
Qed.

(** The inputs of a batch that are written: those before the first without a
    tenant. *)
Fixpoint accepted (inputs : list (string * string * AuditLogInput)) : list (string * string * AuditLogInput) :=
  match inputs with
  | [] => []
  | x :: rest => if String.eqb (in_tenantId x.2) EmptyString then [] else x :: accepted rest
  end.

Lemma appendBatch_ok inputs r r' out : repo_ok r → appendBatch sha256 inputs r = (r', out) →
  repo_ok r' ∧ ∃ new, logs r' = logs r ++ new ∧
    id <$> new = (λ x, x.1.1) <$> accepted inputs ∧
    requestId <$> new = (λ x, in_requestId x.2) <$> accepted inputs ∧
    out = if forallb (λ x, negb (String.eqb (in_tenantId x.2) EmptyString)) inputs then Ok new
          else Err "AuditLogRepository.append requires tenantId for tenant isolation".
Proof.
  revert r r' out. induction inputs as [|[[uuid now] input] rest IH]; intros r r' out Hr E.
  { injection E as <- <-. split; [done|]. exists []. by rewrite app_nil_r. }
  cbn [appendBatch accepted] in *. pose proof (append_ok uuid now input r Hr) as Ha.
  simpl. unfold append in E, Ha. case_test.
  { injection E as <- <-. split; [done|]. exists []. by rewrite app_nil_r. }
  match type of Ha with repo_ok (_, Ok ?en).1 => set (entry := en) in * end. simpl in Ha.
  match type of Ha with repo_ok ?x => set (r1 := x) in * end.
  destruct (appendBatch sha256 rest r1) as [r2 out2] eqn:Eb.
  destruct (IH r1 r2 out2 Ha Eb) as [Hr2 (new & Hnew & Hid & Hreq & Hout)].
  assert (r' = r2) as -> by (destruct out2; by injection E).
  split; [done|]. exists (entry :: new). rewrite Hnew, !fmap_cons, Hid, Hreq. simpl.
  rewrite <- app_assoc. do 3 (split; [done|]).
  rewrite Hout in E. destruct (forallb _ rest); by injection E.
Qed.

(** ** The verifier on what was written *)

Lemma log_seq l e : log_ok l → e ∈ l → 1 ≤ seq e ≤ Z.of_nat (length l).
Proof.
  induction 1 as [|l x Hl IH Hs]; [by intros ?%elem_of_nil|].
  rewrite elem_of_app, list_elem_of_singleton, length_app. simpl. intros [?| ->]; [|lia].
  assert (1 ≤ seq e ≤ Z.of_nat (length l)) by auto. lia.
Qed.

Lemma log_ordered l : log_ok l → ordered (to_row <$> l).
Proof.
  intros H. split.
  - induction H as [|l e Hl IH Hs]; [constructor|]. rewrite fmap_app.
    apply StronglySorted_app. split; [|split; [done|repeat constructor]].
    intros x y Hx ->%list_elem_of_singleton. apply list_elem_of_fmap in Hx as (z & -> & Hz).
    pose proof (log_seq l z Hl Hz). simpl. lia.
  - apply Forall_fmap, Forall_forall. intros e He. pose proof (log_seq l e H He). simpl. lia.
Qed.

Lemma hash_input_req p i a ac act rt ri d s t q1 q2 :
  hash_input p i a ac act rt ri d s t q1 = hash_input p i a ac act rt ri d s t q2 → q1 = q2.
Proof.
  unfold hash_input. cbn [join_bar]. intros E.
  repeat (apply (inj (String.append _)) in E; injection E as E). done.
Qed.

Definition no_request (e : AuditLogEntry) : Prop := default EmptyString (requestId e) = EmptyString.

Lemma entry_row_hash e : collision_free sha256 [entry_input e; row_input (to_row e)] →
  rowHash e = Some (sha256 (entry_input e)) →
  row_hash (to_row e) = Some (expected_hash sha256 (to_row e)) ↔ no_request e.
Proof.
  intros Hc He. simpl. rewrite He. split.
  - intros [= E]. apply Hc in E; [|set_solver..]. by apply hash_input_req in E.
  - intros Hn. unfold entry_input. by rewrite Hn.
Qed.

Lemma log_chain l : log_ok l →
  Forall (λ e, collision_free sha256 [entry_input e; row_input (to_row e)]) l →
  chain_ok sha256 None None (to_row <$> l) ↔ Forall no_request l.
Proof.
  induction 1 as [|l e Hl IH Hs Hp Hh Ht]; intros Hc; [by split; constructor|].
  apply Forall_app in Hc as [Hc Hce]. rewrite Forall_singleton in Hce.
  rewrite fmap_app. simpl. rewrite chain_ok_snoc, IH, Forall_app, Forall_singleton by done.
  rewrite (entry_row_hash e Hce Hh), fmap_last.
  assert (match (match to_row <$> last l with Some x => Some (row_seq x) | None => None end) with
    | Some p => row_seq (to_row e) = p + 1 | None => True end) as Hseq.
  { destruct Hl as [|l x Hl Hx]; [done|]. rewrite last_snoc. simpl. rewrite Hs, Hx, length_app. simpl. lia. }
  assert (prev_hash (to_row e) = match to_row <$> last l with Some x => row_hash x | None => None end) as Hprev.
  { simpl. rewrite Hp. by destruct (last l). }
  naive_solver.
Qed.

(** Appending a batch to an empty log writes the inputs before the first
    one without a tenant, in order, and reports the exception if there is one;
    what it writes is numbered from one without gaps and linked; and the
    verifier accepts it if and only if no written entry carries a request id,
    because the request id is part of the hash that is stored and not of the
    hash that is expected. *)
Theorem appended_log_verifies batch mx inputs r out :
  1 ≤ batch → 1 ≤ mx → appendBatch sha256 inputs clear = (r, out) →
  Forall (λ e, collision_free sha256 [entry_input e; row_input (to_row e)]) (logs r) →
  id <$> logs r = (λ x, x.1.1) <$> accepted inputs ∧
  out = (if forallb (λ x, negb (String.eqb (in_tenantId x.2) EmptyString)) inputs
         then Ok (logs r)
         else Err "AuditLogRepository.append requires tenantId for tenant isolation") ∧
  log_ok (logs r) ∧
  ∃ res, verify sha256 batch mx (to_row <$> getAll r) = Some res ∧
    (valid res = true ↔ Forall (λ x, default EmptyString (in_requestId x.2) = EmptyString) (accepted inputs)).
Proof.
  intros Hb Hm E Hc. destruct (appendBatch_ok inputs clear r out) as [[Hl _] (new & Hnew & Hid & Hreq & Hout)];
    [split; [constructor|done]|done|]. simpl in Hnew. subst new.
  do 3 (split; [done|]). eexists. split; [apply verify_scan; [done..|by apply log_ordered]|].
  assert (Forall no_request (logs r) ↔
    Forall (λ x, default EmptyString (in_requestId x.2) = EmptyString) (accepted inputs)) as <-.
  { unfold no_request. rewrite <- (Forall_fmap requestId (λ q, default EmptyString q = EmptyString)).
    rewrite Hreq. by rewrite Forall_fmap. }
  rewrite <- log_chain, <- (scan_valid sha256 mx vstart _ eq_refl) by done. simpl. by destruct (found _).
Qed.
End Append.

(** ** Retention *)

Record AuditLogPurgeResult := {
  expiredCount : Z;
  deletedCount : Z;
  p_dryRun : bool;
  ttlDays : Z;
  p_tenantId : option string
}.

Section Purge.
Variable getTime : string → option Z.

(** [new Date(ms)]: out of range is an invalid date. *)
Definition date_of (ms : Z) : option Z := if Z.abs ms <=? 8640000000000000 then Some ms else None.

(** Comparing with an invalid date is false both ways. *)
Definition date_lt (a b : option Z) : bool :=
  match a, b with Some x, Some y => x <? y | _, _ => false end.
Definition date_ge (a b : option Z) : bool :=
  match a, b with Some x, Some y => y <=? x | _, _ => false end.

Definition of_tenant (tenant : option string) (e : AuditLogEntry) : bool :=
  falsy tenant || bool_decide (tenant = Some (tenantId e)).

Definition entryExpired (cutoff : option Z) (tenant : option string) (e : AuditLogEntry) : bool :=
  date_lt (getTime (timestamp e)) cutoff && of_tenant tenant e.

(** The filter of the deletion loop. *)
Definition deletable (cutoff : option Z) (tenant : option string) (e : AuditLogEntry) : bool :=
  negb (date_ge (getTime (timestamp e)) cutoff) && of_tenant tenant e.

(** Removing, by identity, the first [n] entries the filter selects. *)
Fixpoint remove_first (n : nat) (p : AuditLogEntry → bool) (l : list AuditLogEntry)
  : list AuditLogEntry :=
  match n, l with
  | O, _ => l
  | _, [] => []
  | S n', e :: rest => if p e then remove_first n' p rest else e :: remove_first n p rest
  end.

Fixpoint purge_loop (iterations : nat) (batchSize : Z) (p : AuditLogEntry → bool)
    (l : list AuditLogEntry) (totalDeleted : Z) : list AuditLogEntry * Z :=
  match iterations with
  | O => (l, totalDeleted)
  | S k =>
      match List.filter p l with
      | [] => (l, totalDeleted)
      | _ =>
          let l' := remove_first (Z.to_nat batchSize) p l in
          let deleted := Z.of_nat (length l) - Z.of_nat (length l') in
          if deleted <? batchSize then (l', totalDeleted + deleted)
          else purge_loop k batchSize p l' (totalDeleted + deleted)
      end
  end.

Definition purgeExpired (now olderThanDays : Z) (batchOpt : option Z) (tenant : option string)
    (dryOpt : option bool) (r : repository) : repository * result string AuditLogPurgeResult :=
  if olderThanDays =? 0
  then (r, Ok {| expiredCount := 0; deletedCount := 0; p_dryRun := default false dryOpt;
                 ttlDays := 0; p_tenantId := tenant |}) else
  if olderThanDays <? 0
  then (r, Err "AuditLogRepository.purgeExpired requires olderThanDays >= 0") else
  let batchSize := default 5000 batchOpt in
  let dryRun := default false dryOpt in
  if batchSize <? 1
  then (r, Err "AuditLogRepository.purgeExpired requires batchSize >= 1") else
  let cutoff := date_of (now - olderThanDays * 24 * 60 * 60 * 1000) in
  let count := Z.of_nat (length (List.filter (entryExpired cutoff tenant) (logs r))) in
  if dryRun || (count =? 0)
  then (r, Ok {| expiredCount := count; deletedCount := 0; p_dryRun := dryRun;
                 ttlDays := olderThanDays; p_tenantId := tenant |}) else
  let maxIterations := ceil_div count batchSize + 1 in
  let '(l', total) := purge_loop (Z.to_nat maxIterations) batchSize (deletable cutoff tenant) (logs r) 0 in
  ({| logs := l'; seqCounter := seqCounter r |},
   Ok {| expiredCount := count; deletedCount := total; p_dryRun := false;
         ttlDays := olderThanDays; p_tenantId := tenant |}).

Lemma remove_first_filter n p l :
  List.filter p (remove_first n p l) = drop n (List.filter p l) ∧
  List.filter (λ e, negb (p e)) (remove_first n p l) = List.filter (λ e, negb (p e)) l.
Proof.
  revert n. induction l as [|e l IH]; intros [|n]; simpl; try done.
  destruct (p e) eqn:Ep; simpl; [apply IH|]. rewrite Ep. simpl.
  destruct (IH (S n)) as [-> ->]. done.
Qed.

Lemma filter_split_length {A} (p : A → bool) l :
  length l = (length (List.filter p l) + length (List.filter (λ e, negb (p e)) l))%nat.
Proof. induction l as [|x l IH]; [done|]. simpl. destruct (p x); simpl; lia. Qed.

Lemma filter_complement {A} (p : A → bool) l : List.filter p l = [] → List.filter (λ e, negb (p e)) l = l.
Proof.
  induction l as [|x l IH]; [done|]. simpl. destruct (p x) eqn:E; [done|]. simpl.
  intros H. by rewrite IH.
Qed.

(** Enough rounds delete exactly the selected entries. *)
Lemma purge_loop_exact k batch p l total : 1 ≤ batch →
  Z.of_nat (length (List.filter p l)) < Z.of_nat k * batch →
  purge_loop k batch p l total =
  (List.filter (λ e, negb (p e)) l, total + Z.of_nat (length (List.filter p l))).
Proof.
  intros Hb. revert l total. induction k as [|k IH]; intros l total Hk; [lia|].
  cbn [purge_loop]. destruct (remove_first_filter (Z.to_nat batch) p l) as [Hp Hn].
  assert (Z.of_nat (length l) - Z.of_nat (length (remove_first (Z.to_nat batch) p l)) =
          Z.min batch (Z.of_nat (length (List.filter p l)))) as Hd.
  { rewrite (filter_split_length p l), (filter_split_length p (remove_first _ p l)), Hp, Hn, length_drop. lia. }
  rewrite Hd. destruct (List.filter p l) as [|x xs] eqn:Ef.
  { rewrite filter_complement by done. simpl. by rewrite Z.add_0_r. }
  rewrite <- Ef in *. clear x xs Ef. case_test.
  - f_equal; [|lia]. rewrite <- Hn. symmetry. apply filter_complement. rewrite Hp. apply drop_ge. lia.
  - rewrite IH by (rewrite Hp, length_drop; lia). rewrite Hn, Hp, length_drop. f_equal. lia.
Qed.

(** With readable timestamps the loop deletes what was counted. *)
Lemma deletable_expired cutoff tenant e : isSome (getTime (timestamp e)) = true → isSome cutoff = true →
  deletable cutoff tenant e = entryExpired cutoff tenant e.
Proof.
  unfold deletable, entryExpired. destruct (getTime (timestamp e)), cutoff; try done. intros _ _. simpl.
  f_equal. by rewrite Z.ltb_antisym.
Qed.

Lemma filter_ext_Forall {A} (p q : A → bool) l : Forall (λ e, p e = q e) l →
  List.filter p l = List.filter q l.
Proof. induction 1 as [|x l Hx _ IH]; [done|]. simpl. by rewrite Hx, IH. Qed.

Lemma entryExpired_cutoff tenant e cutoff : entryExpired cutoff tenant e = true → isSome cutoff = true.
Proof. unfold entryExpired, date_lt. by destruct (getTime _), cutoff. Qed.

Definition cutoff_of (now days : Z) : option Z := date_of (now - days * 24 * 60 * 60 * 1000).

Lemma purgeExpired_exact now days batch tenant r :
  0 < days → 1 ≤ batch →
  Forall (λ e, isSome (getTime (timestamp e)) = true) (logs r) →
  let gone := entryExpired (cutoff_of now days) tenant in
  let n := Z.of_nat (length (List.filter gone (logs r))) in
  purgeExpired now days (Some batch) tenant (Some false) r =
    ({| logs := List.filter (λ e, negb (gone e)) (logs r); seqCounter := seqCounter r |},
     Ok {| expiredCount := n; deletedCount := n; p_dryRun := false; ttlDays := days; p_tenantId := tenant |}).
Proof.
  intros Hd Hb Ht gone n. unfold purgeExpired. fold (cutoff_of now days). fold gone. fold n.
  rewrite (proj2 (Z.eqb_neq days 0)), (proj2 (Z.ltb_ge days 0)) by lia. simpl.
  rewrite (proj2 (Z.ltb_ge batch 1)) by lia. destruct (Z.eqb_spec n 0) as [E|E].
  { rewrite E, filter_complement; [by destruct r|]. apply length_zero_iff_nil. subst n. lia. }
  assert (isSome (cutoff_of now days) = true) as Hc.
  { subst n. destruct (List.filter gone (logs r)) as [|x xs] eqn:Ef; [simpl in E; lia|].
    assert (In x (List.filter gone (logs r))) as Hx by (rewrite Ef; by left).
    apply filter_In in Hx as [_ Hx]. by eapply entryExpired_cutoff. }
  assert (Forall (λ e, deletable (cutoff_of now days) tenant e = gone e) (logs r)) as Hg.
  { eapply Forall_impl; [exact Ht|]. intros e He. by apply deletable_expired. }
  destruct (ceil_div_spec n batch) as [H2 _]; [lia|lia|].
  pose proof (ceil_div_covers n batch ltac:(lia) ltac:(lia)) as H1.
  rewrite purge_loop_exact; [|done|]; rewrite (filter_ext_Forall _ gone _ Hg).
  - f_equal. rewrite (filter_ext_Forall _ (λ e, negb (gone e))); [done|].
    eapply Forall_impl; [exact Hg|]. by intros e ->.
  - fold n. rewrite Z2Nat.id by lia. nia.
Qed.

(** ** Deleting from the chain *)

Lemma chain_ok_prefix sha256 ph ps a b : chain_ok sha256 ph ps (a ++ b) → chain_ok sha256 ph ps a.
Proof. revert ph ps. induction a as [|x a IH]; intros ph ps; [done|]. simpl. naive_solver. Qed.

Lemma log_prev sha256 l x : log_ok sha256 l → x ∈ l → prevHash x = None → seq x = 1.
Proof.
  induction 1 as [|l e Hl IH Hs Hp]; [by intros ?%elem_of_nil|].
  rewrite elem_of_app, list_elem_of_singleton. intros [?| ->]; [auto|]. rewrite Hp. intros Hn.
  destruct Hl as [|l y Hl Hy Hpy Hr]; [done|]. rewrite last_snoc in Hn. simpl in Hn. by rewrite Hr in Hn.
Qed.

Lemma ordered_filter (p : AuditLogEntry → bool) l :
  ordered (to_row <$> l) → ordered (to_row <$> List.filter p l).
Proof.
  intros [Hs Hp]. split.
  - clear Hp. induction l as [|e l IH]; [constructor|]. rewrite fmap_cons in Hs.
    apply StronglySorted_inv in Hs as [Hs He]. simpl. destruct (p e); [|by apply IH].
    rewrite fmap_cons. constructor; [by apply IH|]. rewrite Forall_fmap, Forall_forall in *.
    intros x Hx. apply He. apply list_elem_of_In in Hx. apply filter_In in Hx as [Hx _].
    by apply list_elem_of_In.
  - rewrite Forall_fmap, Forall_forall in *. intros x Hx. apply Hp.
    apply list_elem_of_In in Hx. apply filter_In in Hx as [Hx _]. by apply list_elem_of_In.
Qed.

Lemma hole_breaks_chain sha256 (p : AuditLogEntry → bool) l1 e l2 :
  log_ok sha256 (l1 ++ e :: l2) → p e = false → List.filter p l2 ≠ [] →
  ¬ chain_ok sha256 None None (to_row <$> List.filter p (l1 ++ e :: l2)).
Proof.
  intros Hl He H2 Hc. rewrite List.filter_app in Hc. simpl in Hc. rewrite He in Hc.
  destruct (List.filter p l2) as [|s rest] eqn:E2; [done|].
  assert (s ∈ l2) as Hs.
  { apply list_elem_of_In. assert (In s (List.filter p l2)) as H by (rewrite E2; by left).
    by apply filter_In in H as [? _]. }
  destruct (log_ordered sha256 _ Hl) as [Hsort _]. rewrite fmap_app, fmap_cons in Hsort.
  apply StronglySorted_app in Hsort as (Hlt & _ & Hsort). apply StronglySorted_inv in Hsort as [_ Hes].
  rewrite Forall_fmap, Forall_forall in Hes. specialize (Hes s Hs). simpl in Hes.
  rewrite fmap_app, fmap_cons, cons_middle, app_assoc in Hc.
  apply chain_ok_prefix, chain_ok_snoc in Hc as (_ & Hseq & Hprev & _).
  rewrite fmap_last in Hseq, Hprev. destruct (last (List.filter p l1)) as [x|] eqn:Ex; simpl in *.
  - assert (x ∈ l1) as Hx.
    { apply last_Some in Ex as [l' Ex]. apply list_elem_of_In.
      assert (In x (List.filter p l1)) as H by (rewrite Ex; apply in_or_app; right; by left).
      by apply filter_In in H as [? _]. }
    assert (seq x < seq e); [|lia].
    apply (Hlt (to_row x) (to_row e)); [by apply list_elem_of_fmap_2|by left].
  - assert (seq s = 1) by (apply (log_prev sha256 _ s Hl); [set_solver|done]).
    assert (1 ≤ seq e) by (apply (log_seq sha256 _ e Hl); set_solver). lia.
Qed.

(** With readable timestamps, the retention purge deletes exactly the
    entries of the tenant that are older than the limit, in however many
    batches, keeps the others in their order, and counts what it deletes; and
    when an entry it deletes stood before one it keeps, the verifier reports
    the remaining log as broken. *)
Theorem purge_exact_and_detected sha256 now days batch tenant r vbatch mx :
  0 < days → 1 ≤ batch → 1 ≤ vbatch → 1 ≤ mx →
  Forall (λ e, isSome (getTime (timestamp e)) = true) (logs r) → log_ok sha256 (logs r) →
  let gone := entryExpired (cutoff_of now days) tenant in
  let n := Z.of_nat (length (List.filter gone (logs r))) in
  ∃ r', purgeExpired now days (Some batch) tenant (Some false) r =
      (r', Ok {| expiredCount := n; deletedCount := n; p_dryRun := false; ttlDays := days; p_tenantId := tenant |}) ∧
    logs r' = List.filter (λ e, negb (gone e)) (logs r) ∧ seqCounter r' = seqCounter r ∧
    ∀ l1 e l2, logs r = l1 ++ e :: l2 → gone e = true →
      List.filter (λ x, negb (gone x)) l2 ≠ [] →
      ∃ res, verify sha256 vbatch mx (to_row <$> logs r') = Some res ∧ valid res = false.
Proof.
  intros Hd Hb Hv Hm Ht Hl gone n. eexists. split; [by apply purgeExpired_exact|].
  split; [done|]. split; [done|]. simpl. fold gone. intros l1 e l2 El He H2.
  eexists. split; [apply verify_scan; [done..|]; by eapply ordered_filter, log_ordered|].
  rewrite El in *. pose proof (hole_breaks_chain sha256 (λ x, negb (gone x)) l1 e l2 Hl) as Hbad.
  simpl in Hbad. rewrite He in Hbad. specialize (Hbad eq_refl H2).
  rewrite <- (scan_valid sha256 mx vstart _ eq_refl) in Hbad. simpl. by destruct (found _).
Qed.
End Purge.

(** ** A concrete digest and log *)

Definition bit (b : bool) : ascii := if b then "1"%char else "0"%char.

(** The bits of the text: a digest function with no collision at all. *)
Fixpoint bits (s : string) : string :=
  match s with
  | EmptyString => EmptyString
  | String (Ascii b0 b1 b2 b3 b4 b5 b6 b7) t =>
      String (bit b0) (String (bit b1) (String (bit b2) (String (bit b3)
        (String (bit b4) (String (bit b5) (String (bit b6) (String (bit b7) (bits t))))))))
  end.

Lemma bit_inj a b : bit a = bit b → a = b.
Proof. by destruct a, b. Qed.

Lemma bits_inj x y : bits x = bits y → x = y.
Proof.
  revert y. induction x as [|[] x IH]; intros [|[] y] E; cbn [bits] in E; try done.
  injection E. intros E8 E7 E6 E5 E4 E3 E2 E1 E0. apply IH in E8 as ->.
  by rewrite (bit_inj _ _ E7), (bit_inj _ _ E6), (bit_inj _ _ E5), (bit_inj _ _ E4),
    (bit_inj _ _ E3), (bit_inj _ _ E2), (bit_inj _ _ E1), (bit_inj _ _ E0).
Qed.

Lemma bits_hex : hex_digest bits.
Proof.
  intros x. split; [|by destruct x as [|[[] ? ? ? ? ? ? ?] ?]].
  unfold no_bar. induction x as [|[b0 b1 b2 b3 b4 b5 b6 b7] x IH]; [done|]. cbn [bits str_forallb].
  rewrite IH. by destruct b0, b1, b2, b3, b4, b5, b6, b7.
Qed.

Lemma bits_free l : collision_free bits l.
Proof. intros x y _ _. apply bits_inj. Qed.

Definition ex_input (act tenant : string) (req : option string) : AuditLogInput :=
  {| in_actorId := None; in_actor_id := Some "u"; in_adminId := None; in_actorEmail := None;
     in_actor_email := None; in_adminEmail := None; in_action := act;
     in_resourceType := "bond"; in_resourceId := "b1"; in_details := None;
     in_targetUserEmail := None; in_ipAddress := None; in_errorMessage := None; in_status := None;
     in_tenantId := tenant; in_requestId := req; in_occurredAt := Some act |}.

Definition ex_batch (req : option string) : list (string * string * AuditLogInput) :=
  [("i1", "now", ex_input "1" "t" None); ("i2", "now", ex_input "9" "t" req);
   ("i3", "now", ex_input "5" "s" None); ("i4", "now", ex_input "5" EmptyString None)].

Definition ex_repo (sha : string → string) (req : option string) : repository :=
  (appendBatch sha (ex_batch req) clear).1.

Lemma ex_log_ok sha req : log_ok sha (logs (ex_repo sha req)).
Proof.
  unfold ex_repo. destruct (appendBatch sha (ex_batch req) clear) as [r out] eqn:E.
  assert (repo_ok sha clear) as H0 by (split; [constructor|done]).
  by destruct (appendBatch_ok sha _ _ _ _ H0 E) as [[? _] _].
Qed.

(** The rows numbered 1 and 3: row 2 is gone, and the recorded height is 2. *)
Lemma verify_checks_every_row_witness :
  let t := to_row <$> List.filter (λ e, negb (seq e =? 2)) (logs (ex_repo bits None)) in
  ∃ res, verify bits 1 100 t = Some res ∧ valid res = false ∧ computeLastVerifiedHeight res = 2.
Proof.
  intros t. destruct (verify_checks_every_row bits 1 100 t ltac:(lia) ltac:(lia)) as (Hv & _).
  { apply ordered_filter, (log_ordered bits), ex_log_ok. }
  eexists. split; [exact Hv|]. split; vm_compute; reflexivity.
Defined.

Lemma audit_chain_tamper_evident_witness :
  let t := to_row <$> logs (ex_repo bits None) in
  (∃ res, verify bits 2 100 t = Some res ∧ valid res = true) ∧ content <$> t = content <$> t.
Proof.
  intros t. assert (ordered t) as Ho by (apply (log_ordered bits), ex_log_ok).
  destruct (verify bits 2 100 t) as [res|] eqn:E; [|vm_compute in E; discriminate E].
  assert (valid res = true) as Hv by (vm_compute in E; injection E as <-; reflexivity).
  split; [exists res; exact (conj eq_refl Hv)|].
  assert (Forall separable t) as Hs by (repeat constructor).
  exact (proj2 (audit_chain_tamper_evident bits 2 2 100 100 t t res res bits_hex (bits_free _)
    ltac:(lia) ltac:(lia) Ho ltac:(lia) ltac:(lia) Ho E Hv E Hv eq_refl) Hs Hs).
Defined.

Lemma appended_log_verifies_witness :
  ∃ res, verify bits 2 100 (to_row <$> getAll (ex_repo bits (Some "q"))) = Some res ∧ valid res = false ∧
    firstViolationSeq res = Some 2.
Proof.
  destruct (appended_log_verifies bits 2 100 (ex_batch (Some "q")) (ex_repo bits (Some "q"))
    (appendBatch bits (ex_batch (Some "q")) clear).2) as (_ & _ & _ & res & Hv & _); [lia|lia| | |].
  - apply surjective_pairing.
  - apply Forall_forall. intros e _. apply bits_free.
  - exists res. split; [exact Hv|]. vm_compute in Hv. injection Hv as <-. split; reflexivity.
Defined.

Definition plain (x : string) : string := "h".

Definition ex_getTime (s : string) : option Z := if String.eqb s EmptyString then None else Some (BigInt s).

Lemma purge_exact_and_detected_witness :
  ∃ r', purgeExpired ex_getTime (86400000 + 6) 1 (Some 1) None (Some false) (ex_repo plain None) =
     (r', Ok {| expiredCount := 2; deletedCount := 2; p_dryRun := false; ttlDays := 1; p_tenantId := None |}) ∧
   ∃ res, verify plain 2 100 (to_row <$> logs r') = Some res ∧ valid res = false.
Proof.
  destruct (purge_exact_and_detected ex_getTime plain (86400000 + 6) 1 1 None (ex_repo plain None) 2 100)
    as (r' & Hp & Hl & _ & Hbad); [lia..| |apply ex_log_ok|].
  - apply Forall_forall. intros e He. vm_compute in He.
    repeat (apply elem_of_cons in He as [->|He]; [reflexivity|]). by apply elem_of_nil in He.
  - exists r'. split; [exact Hp|].
    refine (Hbad [] _ _ _ _ _); [vm_compute; reflexivity|reflexivity|vm_compute; discriminate].
Defined.

(** An entry whose timestamp is not a date is not counted as expired and is
    deleted with those that are. *)
Lemma unreadable_timestamp_deleted :
  let old := ex_input "1" "t" None in
  let bad := {| in_actorId := None; in_actor_id := None; in_adminId := None; in_actorEmail := None;
     in_actor_email := None; in_adminEmail := None; in_action := "a";
     in_resourceType := "bond"; in_resourceId := "b1"; in_details := None;
     in_targetUserEmail := None; in_ipAddress := None; in_errorMessage := None; in_status := None;
     in_tenantId := "t"; in_requestId := None; in_occurredAt := Some EmptyString |} in
  let r := (appendBatch plain [("i1", "now", old); ("i2", "now", bad)] clear).1 in
  purgeExpired ex_getTime (86400000 + 6) 1 None None None r =
  ({| logs := []; seqCounter := 2 |},
   Ok {| expiredCount := 1; deletedCount := 2; p_dryRun := false; ttlDays := 1; p_tenantId := None |}).
Proof. vm_compute. reflexivity. Qed.

(** The separator is not escaped: moving it between two columns leaves the
    hashed text as it was. *)
Lemma shifted_columns_collide i at_ rt ri d s t q p :
  hash_input p i at_ "a|b" "c" rt ri d s t q = hash_input p i at_ "a" "b|c" rt ri d s t q.
Proof. reflexivity. Qed.
