(* ===== verification/PolicyEngine.v ===== *)
(** * Roles and the RBAC policy engine

    [types/rbac.ts] and [services/rbac/policyEngine.ts]: rules with wildcard
    patterns, the role hierarchy, custom conditions and the audit trail. The
    clock, the generated ids and the registered callback are parameters. *)

From stdpp Require Import base option list sets strings.
From Stdlib Require Import ZArith Lia Ascii.
From S2P Require Import Prelude JsLib.

Open Scope Z_scope.

(** ** Roles *)

Inductive Role := admin | verifier | user | public.

#[export] Instance Role_eq_dec : EqDecision Role.
Proof. solve_decision. Defined.

Definition ROLE_HIERARCHY (r : Role) : Z :=
  match r with public => 0 | user => 1 | verifier => 2 | admin => 3 end.

Definition ALL_ROLES : list Role := [admin; verifier; user; public].

Definition role_name (r : Role) : string :=
  match r with admin => "admin" | verifier => "verifier" | user => "user" | public => "public" end.

(** [Object.entries(ROLE_HIERARCHY)] in the order of the literal. *)
Definition hierarchy_entries : list Role := [public; user; verifier; admin].

Record AuthenticatedUser := { u_id : string; u_address : string; u_role : Role }.

(** ** Data *)

Inductive PolicyDecision := ALLOW | DENY.

#[export] Instance PolicyDecision_eq_dec : EqDecision PolicyDecision.
Proof. solve_decision. Defined.

Inductive PolicyReasonCode :=
| ROLE_MATCH | ROLE_HIERARCHY_CODE | PUBLIC_RESOURCE | CUSTOM_CONDITION
| UNAUTHENTICATED | INSUFFICIENT_ROLE | NO_MATCHING_RULE | CUSTOM_CONDITION_FAILED | EXPLICIT_DENY.

Record PolicyReason := {
  message : string;
  code : PolicyReasonCode;
  context : list (string * string)
}.

Record PolicyRule := {
  rule_id : string;
  description : string;
  actions : list string;
  resources : list string;
  allowedRoles : list Role;
  condition : option (option AuthenticatedUser → string → bool)
}.

Record PolicyAuditLog := {
  log_id : string;
  timestamp : Z;
  log_user : option AuthenticatedUser;
  log_action : string;
  log_resource : string;
  decision : PolicyDecision;
  reason : PolicyReason;
  metadata : option string
}.

(** The engine; the callback is given the log and may throw. *)
Record PolicyEngine := {
  rules : list PolicyRule;
  auditLogs : list PolicyAuditLog;
  auditCallback : option (PolicyAuditLog → result string ())
}.

(** ** Wildcards *)

(** The regular expression built from a pattern: every character is escaped
    into itself, except that a star becomes [.*]. *)
Inductive atom := Lit (c : ascii) | AnyStar.

Fixpoint regexPattern (pattern : string) : list atom :=
  match pattern with
  | EmptyString => []
  | String c p => (if Ascii.eqb c "*" then AnyStar else Lit c) :: regexPattern p
  end.

(** What a dot does not match. *)
Definition line_terminator (c : ascii) : bool := (JsLib.code c =? 10) || (JsLib.code c =? 13).

(** [^...$] on the whole text, by backtracking. *)
Fixpoint regex_test (re : list atom) (s : string) : bool :=
  match re with
  | [] => match s with EmptyString => true | _ => false end
  | Lit c :: re' => match s with
                    | String d s' => Ascii.eqb c d && regex_test re' s'
                    | EmptyString => false
                    end
  | AnyStar :: re' =>
      (fix star (s : string) : bool :=
         regex_test re' s ||
         match s with
         | String d s' => negb (line_terminator d) && star s'
         | EmptyString => false
         end) s
  end.

Definition wildcardMatch (pattern value : string) : bool :=
  String.eqb pattern "*" || regex_test (regexPattern pattern) value.

Definition ruleMatches (rule : PolicyRule) (action resource : string) : bool :=
  existsb (λ p, wildcardMatch p action) (actions rule) &&
  existsb (λ p, wildcardMatch p resource) (resources rule).

(** ** Decisions *)

(** [reduce] over a non-empty list, from its first element. *)
Definition getMinRole (roles : list Role) : option Role :=
  match roles with
  | [] => None
  | r :: rest => Some (foldl (λ min role, if ROLE_HIERARCHY role <? ROLE_HIERARCHY min then role else min) r rest)
  end.

(** Between double quotes. *)
Definition quoted (s : string) : string :=
  String (ascii_of_nat 34) (s +:+ String (ascii_of_nat 34) EmptyString).

Definition condition_fails (rule : PolicyRule) (u : option AuthenticatedUser) (resource : string) : bool :=
  match condition rule with Some c => negb (c u resource) | None => false end.

(** The loop over the matching rules for an authenticated user. *)
Fixpoint evaluate_user (rs : list PolicyRule) (u : AuthenticatedUser) (resource : string)
  : PolicyDecision * PolicyReason :=
  match rs with
  | [] =>
      (DENY, {| message := "Role " +:+ quoted (role_name (u_role u)) +:+
                  " does not satisfy any matching policy rule";
                code := INSUFFICIENT_ROLE; context := [("role", role_name (u_role u))] |})
  | rule :: rest =>
      if bool_decide (u_role u ∈ allowedRoles rule) then
        if condition_fails rule (Some u) resource then evaluate_user rest u resource
        else (ALLOW, {| message := "Role " +:+ quoted (role_name (u_role u)) +:+
                          " allowed by rule " +:+ quoted (rule_id rule);
                        code := ROLE_MATCH;
                        context := [("ruleId", rule_id rule); ("role", role_name (u_role u))] |})
      else
      match getMinRole (allowedRoles rule) with
      | Some m =>
          if ROLE_HIERARCHY m <=? ROLE_HIERARCHY (u_role u) then
            if condition_fails rule (Some u) resource then evaluate_user rest u resource
            else (ALLOW, {| message := "Role " +:+ quoted (role_name (u_role u)) +:+
                              " satisfies minimum role " +:+ quoted (role_name m) +:+ " by hierarchy";
                            code := ROLE_HIERARCHY_CODE;
                            context := [("ruleId", rule_id rule); ("userRole", role_name (u_role u));
                                        ("minRequiredRole", role_name m)] |})
          else evaluate_user rest u resource
      | None => evaluate_user rest u resource
      end
  end.

Definition evaluateRules (rs : list PolicyRule) (u : option AuthenticatedUser) (resource : string)
  : PolicyDecision * PolicyReason :=
  match u with
  | None =>
      match List.find (λ rule, bool_decide (public ∈ allowedRoles rule)) rs with
      | Some publicRule =>
          (ALLOW, {| message := "Public access allowed by rule " +:+ quoted (rule_id publicRule);
                     code := PUBLIC_RESOURCE; context := [("ruleId", rule_id publicRule)] |})
      | None => (DENY, {| message := "Authentication required"; code := UNAUTHENTICATED; context := [] |})
      end
  | Some u => evaluate_user rs u resource
  end.

(** ** The engine *)

Definition new_PolicyEngine : PolicyEngine := {| rules := []; auditLogs := []; auditCallback := None |}.

Definition onAudit (cb : PolicyAuditLog → result string ()) (e : PolicyEngine) : PolicyEngine :=
  {| rules := rules e; auditLogs := auditLogs e; auditCallback := Some cb |}.

Definition addRule (rule : PolicyRule) (e : PolicyEngine) : PolicyEngine :=
  {| rules := rules e ++ [rule]; auditLogs := auditLogs e; auditCallback := auditCallback e |}.

Definition removeRule (ruleId : string) (e : PolicyEngine) : PolicyEngine * bool :=
  let kept := List.filter (λ r, negb (String.eqb (rule_id r) ruleId)) (rules e) in
  ({| rules := kept; auditLogs := auditLogs e; auditCallback := auditCallback e |},
   (length kept <? length (rules e))%nat).

Definition getRules (e : PolicyEngine) : list PolicyRule := rules e.

Definition clearRules (e : PolicyEngine) : PolicyEngine :=
  {| rules := []; auditLogs := auditLogs e; auditCallback := auditCallback e |}.

Definition clearAuditLogs (e : PolicyEngine) : PolicyEngine :=
  {| rules := rules e; auditLogs := []; auditCallback := auditCallback e |}.

(** [check]; a callback that throws makes the call fail after the log was
    stored. *)
Definition check (id : string) (now : Z) (u : option AuthenticatedUser) (action resource : string)
    (meta : option string) (e : PolicyEngine) : PolicyEngine * result string PolicyAuditLog :=
  let matchingRules := List.filter (λ rule, ruleMatches rule action resource) (rules e) in
  let '(d, why) :=
    match matchingRules with
    | [] => (DENY, {| message := "No policy rule matches action " +:+ quoted action +:+
                        " on resource " +:+ quoted resource;
                      code := NO_MATCHING_RULE; context := [("action", action); ("resource", resource)] |})
    | _ => evaluateRules matchingRules u resource
    end in
  let log := {| log_id := id; timestamp := now; log_user := u; log_action := action;
                log_resource := resource; decision := d; reason := why; metadata := meta |} in
  let e' := {| rules := rules e; auditLogs := auditLogs e ++ [log]; auditCallback := auditCallback e |} in
  match auditCallback e with
  | None => (e', Ok log)
  | Some cb => (e', cb log ≫= λ _, Ok log)
  end.

Record audit_filter := {
  f_userId : option string;
  f_action : option string;
  f_resource : option string;
  f_decision : option PolicyDecision;
  f_since : option Z
}.

(** An empty string filters nothing. *)
Definition by_text (wanted : option string) (actual : option string) : bool :=
  falsy wanted || bool_decide (wanted = actual).

Definition getAuditLogs (filter : option audit_filter) (e : PolicyEngine) : list PolicyAuditLog :=
  match filter with
  | None => auditLogs e
  | Some f =>
      List.filter (λ log,
        by_text (f_userId f) (u_id <$> log_user log) &&
        by_text (f_action f) (Some (log_action log)) &&
        by_text (f_resource f) (Some (log_resource log)) &&
        match f_decision f with Some d => bool_decide (decision log = d) | None => true end &&
        match f_since f with Some t => t <=? timestamp log | None => true end) (auditLogs e)
  end.

(** ** [PolicyRules] *)

Definition publicRead (resourcePattern : string) : PolicyRule :=
  {| rule_id := "public-read-" +:+ resourcePattern;
     description := "Allow public read access to " +:+ resourcePattern;
     actions := ["read:*"]; resources := [resourcePattern];
     allowedRoles := [public; user; verifier; admin]; condition := None |}.

Definition requireMinRole (actionPattern resourcePattern : string) (minRole : Role) : PolicyRule :=
  {| rule_id := "min-role-" +:+ role_name minRole +:+ "-" +:+ actionPattern +:+ "-" +:+ resourcePattern;
     description := "Require minimum role " +:+ quoted (role_name minRole) +:+ " for " +:+ actionPattern
       +:+ " on " +:+ resourcePattern;
     actions := [actionPattern]; resources := [resourcePattern];
     allowedRoles := List.filter (λ r, ROLE_HIERARCHY minRole <=? ROLE_HIERARCHY r) hierarchy_entries;
     condition := None |}.

Definition adminOnly (actionPattern resourcePattern : string) : PolicyRule :=
  {| rule_id := "admin-only-" +:+ actionPattern +:+ "-" +:+ resourcePattern;
     description := "Admin-only access for " +:+ actionPattern +:+ " on " +:+ resourcePattern;
     actions := [actionPattern]; resources := [resourcePattern]; allowedRoles := [admin];
     condition := None |}.

Definition ownerOnly (actionPattern resourcePattern : string) (extractOwnerId : string → string) : PolicyRule :=
  {| rule_id := "owner-only-" +:+ actionPattern +:+ "-" +:+ resourcePattern;
     description := "Owner-only access for " +:+ actionPattern +:+ " on " +:+ resourcePattern;
     actions := [actionPattern]; resources := [resourcePattern];
     allowedRoles := [user; verifier; admin];
     condition := Some (λ u resource,
       match u with
       | None => false
       | Some u => let ownerId := extractOwnerId resource in
                   String.eqb (u_id u) ownerId || String.eqb (u_address u) ownerId
       end) |}.

(** ** Wildcards as globs *)

Definition one_line (s : string) : Prop := str_forallb (λ c, negb (line_terminator c)) s = true.

(** A star stands for any text on one line, every other character for itself. *)
Inductive glob : string → string → Prop :=
| glob_nil : glob EmptyString EmptyString
| glob_lit c p v : c ≠ "*"%char → glob p v → glob (String c p) (String c v)
| glob_star p u v : one_line u → glob p v → glob (String "*" p) (u +:+ v).

(** A star either ends here or takes one more character. *)
Lemma star_step re s : regex_test (AnyStar :: re) s =
  regex_test re s || match s with
                     | String d s' => negb (line_terminator d) && regex_test (AnyStar :: re) s'
                     | EmptyString => false end.
Proof. by destruct s. Qed.

Lemma star_spec re s : regex_test (AnyStar :: re) s = true ↔
  ∃ u v, s = u +:+ v ∧ one_line u ∧ regex_test re v = true.
Proof.
  unfold one_line. induction s as [|d s IH]; rewrite star_step, Bool.orb_true_iff.
  - split; [intros [H|]; [|done]; by exists EmptyString, EmptyString|].
    intros ([|] & v & E & _ & H); simpl in E; [left; by subst|done].
  - rewrite Bool.andb_true_iff, IH. split.
    + intros [H|(Hd & u & v & -> & Hu & Hv)]; [by exists EmptyString, (String d s)|].
      exists (String d u), v. split; [done|]. split; [simpl; by rewrite Hd|done].
    + intros ([|d' u] & v & E & Hu & Hv); simpl in *; [left; by subst|right].
      injection E as <- ->. apply andb_true_iff in Hu as [? ?]. split; [done|by exists u, v].
Qed.

Lemma regex_glob p v : regex_test (regexPattern p) v = true ↔ glob p v.
Proof.
  revert v. induction p as [|c p IH]; intros v; cbn [regexPattern].
  - destruct v; simpl; (split; intros H; [|try done; inversion H]); [constructor|done].
  - destruct (Ascii.eqb_spec c "*") as [->|Hc].
    + rewrite star_spec. setoid_rewrite IH. split.
      * intros (u & w & -> & Hu & Hw). by constructor.
      * inversion 1; subst; [done|eauto].
    + cbn [regex_test]. split.
      * destruct v as [|d v]; [done|]. intros [->%Ascii.eqb_eq H]%andb_true_iff.
        constructor; [done|]. by apply IH.
      * inversion 1; subst; [|done]. rewrite Ascii.eqb_refl. by apply IH.
Qed.

(** A wildcard pattern means a glob: [wildcardMatch] accepts a value if and
    only if the pattern is a lone star, or the value is the pattern with every
    star replaced by some text without line breaks; every other character of
    the pattern, those special in regular expressions included, stands for
    itself only. *)
Theorem wildcardMatch_is_glob pattern value :
  wildcardMatch pattern value = true ↔ pattern = "*" ∨ glob pattern value.
Proof. unfold wildcardMatch. by rewrite Bool.orb_true_iff, String.eqb_eq, regex_glob. Qed.

(** ** What a decision means *)

Definition applies (rule : PolicyRule) (action resource : string) : Prop :=
  (∃ p, p ∈ actions rule ∧ (p = "*" ∨ glob p action)) ∧
  (∃ p, p ∈ resources rule ∧ (p = "*" ∨ glob p resource)).

(** What a rule grants: anonymous callers need the public role; a user needs a
    role at least as high as one of the rule's, and the condition. *)
Definition grants (u : option AuthenticatedUser) (rule : PolicyRule) (resource : string) : Prop :=
  match u with
  | None => public ∈ allowedRoles rule
  | Some x => (∃ r, r ∈ allowedRoles rule ∧ ROLE_HIERARCHY r ≤ ROLE_HIERARCHY (u_role x)) ∧
              ∀ c, condition rule = Some c → c u resource = true
  end.

Lemma existsb_pattern ps v :
  existsb (λ p, wildcardMatch p v) ps = true ↔ ∃ p, p ∈ ps ∧ (p = "*" ∨ glob p v).
Proof.
  rewrite existsb_exists. setoid_rewrite <- list_elem_of_In.
  unfold wildcardMatch. by setoid_rewrite Bool.orb_true_iff; setoid_rewrite String.eqb_eq; setoid_rewrite regex_glob.
Qed.

Lemma ruleMatches_applies rule a res : ruleMatches rule a res = true ↔ applies rule a res.
Proof. unfold ruleMatches, applies. by rewrite Bool.andb_true_iff, !existsb_pattern. Qed.

Lemma condition_fails_spec rule u res :
  condition_fails rule u res = false ↔ ∀ c, condition rule = Some c → c u res = true.
Proof.
  unfold condition_fails. destruct (condition rule) as [c|]; [|naive_solver].
  rewrite Bool.negb_false_iff. naive_solver.
Qed.

(** The least role of a list. *)
Lemma getMinRole_spec rs x :
  (∃ m, getMinRole rs = Some m ∧ ROLE_HIERARCHY m ≤ x) ↔ ∃ r, r ∈ rs ∧ ROLE_HIERARCHY r ≤ x.
Proof.
  destruct rs as [|r rs]; simpl; [split; [naive_solver|intros (? & ?%elem_of_nil & _); done]|].
  revert r. induction rs as [|r' rs IH]; intros r; simpl.
  - split; [intros (? & [= <-] & ?); exists r; split; [by left|done]|].
    intros (r0 & ->%list_elem_of_singleton & ?). eauto.
  - rewrite IH. set (m := if ROLE_HIERARCHY r' <? ROLE_HIERARCHY r then r' else r). split.
    + intros (r0 & [->|H]%elem_of_cons & ?).
      * exists m. split; [unfold m; case_test; set_solver|done].
      * exists r0. set_solver.
    + intros (r0 & Hr0 & Hle). assert (ROLE_HIERARCHY m ≤ ROLE_HIERARCHY r ∧ ROLE_HIERARCHY m ≤ ROLE_HIERARCHY r').
      { unfold m. destruct (Z.ltb_spec (ROLE_HIERARCHY r') (ROLE_HIERARCHY r)); lia. }
      destruct (decide (r0 ∈ rs)); [exists r0; set_solver|exists m; split; [by left|]].
      assert (r0 = r ∨ r0 = r') as [->| ->] by set_solver; lia.
Qed.

Definition allow_code (c : PolicyReasonCode) : bool :=
  match c with ROLE_MATCH | ROLE_HIERARCHY_CODE | PUBLIC_RESOURCE => true | _ => false end.

(** What an outcome of the evaluation says: the decision, and a reason of the
    same kind. *)
Definition outcome (granted : Prop) (o : PolicyDecision * PolicyReason) : Prop :=
  (o.1 = ALLOW ↔ granted) ∧ allow_code (code o.2) = bool_decide (o.1 = ALLOW).

Lemma evaluate_user_spec rs u res :
  outcome (∃ rule, rule ∈ rs ∧ grants (Some u) rule res) (evaluate_user rs u res).
Proof.
  induction rs as [|rule rs [IH IHc]]; cbn [evaluate_user].
  { split; [split; [done|intros (? & ?%elem_of_nil & _); done]|done]. }
  set (G := ∃ r, r ∈ allowedRoles rule ∧ ROLE_HIERARCHY r ≤ ROLE_HIERARCHY (u_role u)).
  assert (∀ o, (G → condition_fails rule (Some u) res = true) →
    o = evaluate_user rs u res → outcome (∃ r, r ∈ rule :: rs ∧ grants (Some u) r res) o) as Hskip.
  { intros o Hno ->. split; [|done]. rewrite IH. split; [intros (r & ? & ?); exists r; set_solver|].
    intros (r & [->|?]%elem_of_cons & Hg); [|eauto]. destruct Hg as [HG Hc].
    apply condition_fails_spec in Hc. rewrite Hno in Hc by done. done. }
  assert (∀ w, allow_code (code w) = true → G → condition_fails rule (Some u) res = false →
    outcome (∃ r, r ∈ rule :: rs ∧ grants (Some u) r res) (ALLOW, w)) as Htake.
  { intros w Hw HG Hc. split; [|by rewrite bool_decide_eq_true_2]. split; [|done].
    intros _. exists rule. split; [by left|]. split; [exact HG|by apply condition_fails_spec]. }
  destruct (decide (u_role u ∈ allowedRoles rule)) as [Hin|Hin];
    [rewrite bool_decide_eq_true_2 by done|rewrite bool_decide_eq_false_2 by done].
  - assert G by (exists (u_role u); split; [done|lia]).
    destruct (condition_fails rule (Some u) res) eqn:Ec; [by apply Hskip|by apply Htake].
  - assert ((∃ m, getMinRole (allowedRoles rule) = Some m ∧ ROLE_HIERARCHY m ≤ ROLE_HIERARCHY (u_role u)) ↔ G)
      as HG by apply getMinRole_spec.
    destruct (getMinRole (allowedRoles rule)) as [m|]; [|apply Hskip; naive_solver].
    destruct (Z.leb_spec (ROLE_HIERARCHY m) (ROLE_HIERARCHY (u_role u))).
    + assert G by (apply HG; eauto).
      destruct (condition_fails rule (Some u) res) eqn:Ec; [by apply Hskip|by apply Htake].
    + apply Hskip; [|done]. intros (m' & [= <-] & ?)%HG. lia.
Qed.

Lemma evaluateRules_spec rs u res :
  outcome (∃ rule, rule ∈ rs ∧ grants u rule res) (evaluateRules rs u res).
Proof.
  destruct u as [u|]; [apply evaluate_user_spec|]. simpl.
  destruct (List.find _ rs) as [rule|] eqn:E.
  - apply find_some in E as [Hin%list_elem_of_In Hp%bool_decide_eq_true]. split; [|done]. naive_solver.
  - split; [|done]. split; [done|]. intros (rule & Hin & Hp).
    pose proof (find_none _ _ E rule (proj1 (list_elem_of_In _ _) Hin)) as Hn. simpl in Hn.
    by rewrite bool_decide_eq_false in Hn.
Qed.

(** Every check is decided by default deny and audited: [check] allows a
    request if and only if some registered rule whose action and resource
    patterns match grants it to the caller; its reason code is of the kind of
    the decision; it appends exactly one audit record, which describes the
    request and the decision, also when the registered callback throws; it
    changes nothing else, and it returns that record unless the callback
    throws. *)
Theorem policy_check_decides id now u action resource meta e :
  let '(e', out) := check id now u action resource meta e in
  ∃ log, rules e' = rules e ∧ auditCallback e' = auditCallback e ∧
    auditLogs e' = auditLogs e ++ [log] ∧
    (log_id log, timestamp log, log_user log, log_action log, log_resource log, metadata log)
      = (id, now, u, action, resource, meta) ∧
    outcome (∃ rule, rule ∈ rules e ∧ applies rule action resource ∧ grants u rule resource)
      (decision log, reason log) ∧
    out = match auditCallback e with Some cb => cb log ≫= λ _, Ok log | None => Ok log end.
Proof.
  unfold check. set (rs := List.filter _ _). set (o := match rs with [] => _ | _ => _ end).
  assert (outcome (∃ rule, rule ∈ rules e ∧ applies rule action resource ∧ grants u rule resource) o) as Ho.
  { assert (∀ rule, rule ∈ rs ↔ rule ∈ rules e ∧ applies rule action resource) as Hrs.
    { intros rule. unfold rs. by rewrite list_elem_of_In, filter_In, <- list_elem_of_In, ruleMatches_applies. }
    pose proof (evaluateRules_spec rs u resource) as [H1 H2]. unfold o.
    destruct rs as [|r0 rs0] eqn:Ers.
    - split; [|done]. split; [done|]. intros (rule & Hin & Happ & _).
      exfalso. eapply elem_of_nil, Hrs. done.
    - split; [|done]. rewrite H1. setoid_rewrite Hrs. naive_solver. }
  destruct o as [d why].
  destruct (auditCallback e); eexists; do 4 (split; [reflexivity|]); (split; [exact Ho|reflexivity]).
Qed.

(** The rules built by the helpers grant what their names say. *)
Lemma policy_rules_grant u act res m owner r :
  let role := default public (u_role <$> u) in
  grants u (publicRead res) r ∧
  (grants u (requireMinRole act res m) r ↔ ROLE_HIERARCHY m ≤ ROLE_HIERARCHY role) ∧
  (grants u (adminOnly act res) r ↔ role = admin) ∧
  (grants u (ownerOnly act res owner) r ↔ role ≠ public ∧ ∃ x, u = Some x ∧
     (u_id x = owner r ∨ u_address x = owner r)).
Proof.
  destruct u as [[i a ro]|]; simpl; (split; [|split; [|split]]).
  - split; [|done]. exists ro. split; [destruct ro; set_solver|lia].
  - split.
    + intros [(r0 & Hr0 & Hle) _]. destruct m, ro; simpl in *; set_solver by lia.
    + intros H. split; [|done]. exists ro. split; [destruct m, ro; simpl in *; set_solver by lia|lia].
  - split; [intros [(r0 & ->%list_elem_of_singleton & H) _]; by destruct ro|].
    intros ->. split; [|done]. exists admin. set_solver.
  - split.
    + intros [(r0 & Hr0 & H) Hc]. split.
      { intros ->. destruct r0; simpl in H; try lia. set_solver. }
      eexists. split; [done|]. specialize (Hc _ eq_refl). simpl in Hc. breflect. naive_solver.
    + intros (Hro & x & [= <-] & Hx). split; [exists ro; split; [destruct ro; set_solver|lia]|].
      intros c [= <-]. simpl in *. breflect. naive_solver.
  - set_solver.
  - destruct m; simpl; set_solver by lia.
  - set_solver.
  - split; [set_solver|]. by intros [? _].
Qed.
