(* ===== verification/PolicyStore.v ===== *)
(** * The organisation policy service

    [services/policy/]: the rule store with its read cache ([store.ts]), the
    evaluator ([evaluator.ts]) and the service with its audit entries
    ([service.ts]). The clock and the random ids are parameters; times are
    milliseconds. *)

From stdpp Require Import base option list sets strings relations.
From Stdlib Require Import ZArith Lia Ascii.
From S2P Require Import Prelude JsLib PolicyEngine.

Open Scope Z_scope.

(** ** Data *)

Inductive PolicyEffect := allow | deny.

#[export] Instance PolicyEffect_eq_dec : EqDecision PolicyEffect.
Proof. solve_decision. Defined.

(** [string | boolean | number]. *)
Inductive cvalue := VString (s : string) | VBool (b : bool) | VNumber (n : Z).

#[export] Instance cvalue_eq_dec : EqDecision cvalue.
Proof. solve_decision. Defined.

Abbreviation PolicyConditions := (list (string * cvalue)).

Record PolicyRule := {
  id : string;
  orgId : string;
  subject : string;
  action : string;
  resource : string;
  effect : PolicyEffect;
  conditions : option PolicyConditions;
  createdAt : Z;
  updatedAt : Z
}.

Record CreatePolicyRuleInput := {
  in_orgId : string;
  in_subject : string;
  in_action : string;
  in_resource : string;
  in_effect : PolicyEffect;
  in_conditions : option PolicyConditions
}.

(** A partial rule; [Some None] sets the conditions to undefined. *)
Record rule_patch := {
  p_orgId : option string;
  p_subject : option string;
  p_action : option string;
  p_resource : option string;
  p_effect : option PolicyEffect;
  p_conditions : option (option PolicyConditions)
}.

Record PolicyContext := {
  ctx_userId : string;
  ctx_role : Role;
  ctx_orgId : string;
  ctx_action : string;
  ctx_resource : string;
  ctx_extra : option (list (string * cvalue))
}.

Record PolicyDecision := {
  allowed : bool;
  d_reason : string;
  matchedRule : option PolicyRule
}.

Record CacheEntry := { c_rules : list PolicyRule; expiresAt : Z }.

Record PolicyStore := {
  rules : jsmap string PolicyRule;
  cache : jsmap string CacheEntry
}.

Definition CACHE_TTL_MS : Z := 30000.

(** ** The store *)

Definition invalidate (org : string) (st : PolicyStore) : PolicyStore :=
  {| rules := rules st; cache := jm_delete "*" (jm_delete org (cache st)) |}.

Definition set_rule (i : string) (r : PolicyRule) (st : PolicyStore) : PolicyStore :=
  {| rules := jm_set i r (rules st); cache := cache st |}.

Definition create (newId : string) (now : Z) (input : CreatePolicyRuleInput) (st : PolicyStore)
  : PolicyStore * PolicyRule :=
  let rule := {| id := newId; orgId := in_orgId input; subject := in_subject input;
    action := in_action input; resource := in_resource input; effect := in_effect input;
    conditions := in_conditions input; createdAt := now; updatedAt := now |} in
  (invalidate (orgId rule) (set_rule newId rule st), rule).

Definition patched (r : PolicyRule) (p : rule_patch) (now : Z) : PolicyRule :=
  {| id := id r; orgId := default (orgId r) (p_orgId p); subject := default (subject r) (p_subject p);
     action := default (action r) (p_action p); resource := default (resource r) (p_resource p);
     effect := default (effect r) (p_effect p);
     conditions := default (conditions r) (p_conditions p);
     createdAt := createdAt r; updatedAt := now |}.

Definition update (i : string) (p : rule_patch) (now : Z) (st : PolicyStore)
  : PolicyStore * option PolicyRule :=
  match jm_get i (rules st) with
  | None => (st, None)
  | Some existing =>
      let updated := patched existing p now in
      let st1 := invalidate (orgId existing) (set_rule i updated st) in
      let st2 := match p_orgId p with
                 | Some o => if negb (String.eqb o EmptyString) && negb (String.eqb o (orgId existing))
                             then invalidate o st1 else st1
                 | None => st1
                 end in
      (st2, Some updated)
  end.

Definition delete (i : string) (st : PolicyStore) : PolicyStore * bool :=
  match jm_get i (rules st) with
  | None => (st, false)
  | Some rule => (invalidate (orgId rule) {| rules := jm_delete i (rules st); cache := cache st |}, true)
  end.

Definition findById (i : string) (st : PolicyStore) : option PolicyRule := jm_get i (rules st).

Definition visible (org : string) (m : jsmap string PolicyRule) : list PolicyRule :=
  List.filter (λ r, String.eqb (orgId r) org || String.eqb (orgId r) "*") (jm_values m).

(** Two readings of the clock: to test the cached entry and to date the new one. *)
Definition findAllByOrg (org : string) (now now' : Z) (st : PolicyStore) : PolicyStore * list PolicyRule :=
  let refill :=
    let all := visible org (rules st) in
    ({| rules := rules st;
        cache := jm_set org {| c_rules := all; expiresAt := now' + CACHE_TTL_MS |} (cache st) |}, all) in
  match jm_get org (cache st) with
  | Some cached => if now <? expiresAt cached then (st, c_rules cached) else refill
  | None => refill
  end.

Definition findByOrg (org : string) (limit offset : Z) (now now' : Z) (st : PolicyStore)
  : PolicyStore * (list PolicyRule * Z) :=
  let '(st', all) := findAllByOrg org now now' st in
  (st', (js_slice all offset (offset + limit), Z.of_nat (length all))).

(** ** The evaluator *)

Definition role_weight (name : string) : option Z :=
  ROLE_HIERARCHY <$> List.find (λ r, String.eqb (role_name r) name) ALL_ROLES.

Definition subjectMatches (subj : string) (ctx : PolicyContext) : bool :=
  String.eqb subj "*" || String.eqb subj ("user:" +:+ ctx_userId ctx) ||
  String.eqb subj (role_name (ctx_role ctx)) ||
  match role_weight subj with Some w => w <=? ROLE_HIERARCHY (ctx_role ctx) | None => false end.

Definition actionMatches (ruleAction ctxAction : string) : bool :=
  String.eqb ruleAction "*" || String.eqb ruleAction ctxAction.

(** [ruleResource.slice(0, -1)] drops the last character. *)
Definition resourceMatches (ruleResource ctxResource : string) : bool :=
  String.eqb ruleResource "*" || String.eqb ruleResource ctxResource ||
  (endsWith ruleResource ":*" &&
   startsWithStr ctxResource (sliceTo ruleResource (slen ruleResource - 1))).

Definition conditionsMatch (conds extra : option (list (string * cvalue))) : bool :=
  match conds with
  | None | Some [] => true
  | Some cs => match extra with
               | None => false
               | Some ex => forallb (λ kv, bool_decide (jm_get kv.1 ex = Some kv.2)) cs
               end
  end.

Definition matches (ctx : PolicyContext) (rule : PolicyRule) : bool :=
  subjectMatches (subject rule) ctx && actionMatches (action rule) (ctx_action ctx) &&
  resourceMatches (resource rule) (ctx_resource ctx) && conditionsMatch (conditions rule) (ctx_extra ctx).

Definition with_effect (e : PolicyEffect) (r : PolicyRule) : bool := bool_decide (effect r = e).

Definition evaluate (ctx : PolicyContext) (now now' : Z) (st : PolicyStore) : PolicyStore * PolicyDecision :=
  let '(st', rs) := findAllByOrg (ctx_orgId ctx) now now' st in
  let matching := List.filter (matches ctx) rs in
  (st',
   match List.find (with_effect deny) matching with
   | Some denyRule =>
       {| allowed := false; d_reason := "Explicit deny rule matched (id=" +:+ id denyRule +:+ ")";
          matchedRule := Some denyRule |}
   | None =>
   match List.find (with_effect allow) matching with
   | Some allowRule =>
       {| allowed := true; d_reason := "Explicit allow rule matched (id=" +:+ id allowRule +:+ ")";
          matchedRule := Some allowRule |}
   | None =>
       if ROLE_HIERARCHY admin <=? ROLE_HIERARCHY (ctx_role ctx)
       then {| allowed := true; d_reason := "Fallback: caller has admin role"; matchedRule := None |}
       else {| allowed := false; d_reason := "Deny by default: no matching allow rule found";
               matchedRule := None |}
   end
   end).

(** ** The service *)

Inductive policy_event := POLICY_RULE_CREATED | POLICY_RULE_UPDATED | POLICY_RULE_DELETED.

(** An audit entry: the tenant, the actor, what was done, and to which rule. *)
Record policy_audit := {
  a_tenantId : string;
  a_actorId : string;
  a_actorEmail : string;
  a_event : policy_event;
  a_ruleId : string
}.

Record PolicyService := { store : PolicyStore; audit : list policy_audit }.

Definition authorize (ctx : PolicyContext) (now now' : Z) (s : PolicyService) : PolicyService * PolicyDecision :=
  let '(st, d) := evaluate ctx now now' (store s) in ({| store := st; audit := audit s |}, d).

Definition logged (s : PolicyService) (st : PolicyStore) (tenant actor email : string) (ev : policy_event)
    (ruleId : string) : PolicyService :=
  {| store := st;
     audit := audit s ++ [{| a_tenantId := tenant; a_actorId := actor; a_actorEmail := email;
                             a_event := ev; a_ruleId := ruleId |}] |}.

Definition createRule (newId : string) (now : Z) (tenant actor email : string)
    (input : CreatePolicyRuleInput) (s : PolicyService) : PolicyService * PolicyRule :=
  let '(st, rule) := create newId now input (store s) in
  (logged s st tenant actor email POLICY_RULE_CREATED (id rule), rule).

Definition updateRule (now : Z) (tenant actor email ruleId : string) (p : rule_patch) (s : PolicyService)
  : PolicyService * result string PolicyRule :=
  match update ruleId p now (store s) with
  | (st, None) => ({| store := st; audit := audit s |}, Err ("Policy rule not found: " +:+ ruleId))
  | (st, Some updated) => (logged s st tenant actor email POLICY_RULE_UPDATED ruleId, Ok updated)
  end.

Definition deleteRule (tenant actor email ruleId : string) (s : PolicyService)
  : PolicyService * result string () :=
  match findById ruleId (store s) with
  | None => (s, Err ("Policy rule not found: " +:+ ruleId))
  | Some rule => (logged s (delete ruleId (store s)).1 tenant actor email POLICY_RULE_DELETED ruleId, Ok ())
  end.

Definition listRules (org : string) (limit offset now now' : Z) (s : PolicyService)
  : PolicyService * (list PolicyRule * Z) :=
  let '(st, page) := findByOrg org limit offset now now' (store s) in
  ({| store := st; audit := audit s |}, page).

Definition getRule (ruleId : string) (s : PolicyService) : option PolicyRule := findById ruleId (store s).

(** ** What a decision means *)

Definition subject_covers (subj : string) (ctx : PolicyContext) : Prop :=
  subj = "*" ∨ subj = "user:" +:+ ctx_userId ctx ∨
  ∃ r, subj = role_name r ∧ ROLE_HIERARCHY r ≤ ROLE_HIERARCHY (ctx_role ctx).

Definition resource_covers (res target : string) : Prop :=
  res = "*" ∨ res = target ∨ ∃ p u, res = p +:+ ":*" ∧ target = p +:+ ":" +:+ u.

Definition conditions_hold (r : PolicyRule) (ctx : PolicyContext) : Prop :=
  ∀ k v, (k, v) ∈ default [] (conditions r) → jm_get k (default [] (ctx_extra ctx)) = Some v.

(** A rule is about a request. *)
Definition about (ctx : PolicyContext) (r : PolicyRule) : Prop :=
  subject_covers (subject r) ctx ∧ (action r = "*" ∨ action r = ctx_action ctx) ∧
  resource_covers (resource r) (ctx_resource ctx) ∧ conditions_hold r ctx.

(** Deny wins, then allow, then the administrator, then deny. *)
Definition permits (rs : list PolicyRule) (ctx : PolicyContext) : Prop :=
  (∀ r, r ∈ rs → about ctx r → effect r ≠ deny) ∧
  ((∃ r, r ∈ rs ∧ about ctx r ∧ effect r = allow) ∨ ctx_role ctx = admin).

Lemma role_weight_spec name w :
  role_weight name = Some w ↔ ∃ r, name = role_name r ∧ ROLE_HIERARCHY r = w.
Proof.
  unfold role_weight, ALL_ROLES. cbn [List.find]. split.
  - repeat (case_match; [intros [= <-]; eexists; by rewrite <- String.eqb_eq, String.eqb_sym|]). done.
  - by intros ([] & -> & <-).
Qed.

Lemma subjectMatches_covers subj ctx : subjectMatches subj ctx = true ↔ subject_covers subj ctx.
Proof.
  unfold subjectMatches, subject_covers. rewrite !Bool.orb_true_iff, !String.eqb_eq.
  assert (match role_weight subj with Some w => w <=? ROLE_HIERARCHY (ctx_role ctx) | None => false end = true
    ↔ ∃ r, subj = role_name r ∧ ROLE_HIERARCHY r ≤ ROLE_HIERARCHY (ctx_role ctx)) as ->.
  { destruct (role_weight subj) as [w|] eqn:E.
    - rewrite Z.leb_le. apply role_weight_spec in E as (r & -> & <-). split; [eauto|].
      intros (r' & E & ?). by destruct r, r'.
    - split; [done|]. intros (r & -> & _). by destruct r. }
  split; [|naive_solver]. intros [[[H|H]|H]|H]; [by left|by right; left| |by right; right].
  right; right. exists (ctx_role ctx). split; [done|lia].
Qed.

Lemma sliceTo_dropped p : sliceTo (p +:+ ":*") (slen (p +:+ ":*") - 1) = p +:+ ":".
Proof.
  rewrite slen_app. change (slen ":*") with 2.
  replace (p +:+ ":*") with ((p +:+ ":") +:+ "*") by by rewrite str_app_assoc.
  replace (slen p + 2 - 1) with (slen (p +:+ ":")) by (rewrite slen_app; change (slen ":") with 1; lia).
  apply sliceTo_app.
Qed.

Lemma resourceMatches_covers res target : resourceMatches res target = true ↔ resource_covers res target.
Proof.
  unfold resourceMatches, resource_covers.
  rewrite !Bool.orb_true_iff, !String.eqb_eq, Bool.andb_true_iff, endsWith_spec, startsWithStr_spec.
  split; [intros [[?|?]|[[p ->] [u E]]]; [by left|by right; left|]|].
  - right; right. exists p, u. rewrite sliceTo_dropped, str_app_assoc in E. done.
  - intros [?|[?|(p & u & -> & ->)]]; [by left; left|by left; right|right].
    split; [eauto|]. exists u. by rewrite sliceTo_dropped, str_app_assoc.
Qed.

Lemma conditionsMatch_hold r ctx :
  conditionsMatch (conditions r) (ctx_extra ctx) = true ↔ conditions_hold r ctx.
Proof.
  unfold conditionsMatch, conditions_hold.
  destruct (conditions r) as [[|c cs]|]; simpl; try (split; [intros _ k v H; by apply elem_of_nil in H|done]).
  destruct (ctx_extra ctx) as [ex|]; simpl.
  - change (_ && _) with (forallb (λ kv, bool_decide (jm_get kv.1 ex = Some kv.2)) (c :: cs)).
    rewrite forallb_forall. split.
    + intros H k v Hin. by eapply bool_decide_eq_true, (H (k, v)), list_elem_of_In.
    + intros H [k v] Hin%list_elem_of_In. apply bool_decide_eq_true. by apply H.
  - split; [done|]. intros H. destruct c as [k v]. specialize (H k v ltac:(by left)). done.
Qed.

Lemma matches_about ctx r : matches ctx r = true ↔ about ctx r.
Proof.
  unfold matches, about, actionMatches.
  rewrite !Bool.andb_true_iff, subjectMatches_covers, resourceMatches_covers, conditionsMatch_hold,
    Bool.orb_true_iff, !String.eqb_eq. tauto.
Qed.

Lemma find_effect eff ctx rs :
  match List.find (with_effect eff) (List.filter (matches ctx) rs) with
  | Some r => r ∈ rs ∧ about ctx r ∧ effect r = eff
  | None => ∀ r, r ∈ rs → about ctx r → effect r ≠ eff
  end.
Proof.
  destruct (List.find _ _) as [r|] eqn:E.
  - apply find_some in E as [Hin He%bool_decide_eq_true]. apply filter_In in Hin as [Hin%list_elem_of_In Hm].
    by apply matches_about in Hm.
  - intros r Hin Ha He. eapply find_none in E.
    + unfold with_effect in E. rewrite bool_decide_eq_false in E. by apply E.
    + apply filter_In. split; [by apply list_elem_of_In|by apply matches_about].
Qed.

Lemma evaluate_permits ctx now now' st : ∃ d,
  evaluate ctx now now' st = ((findAllByOrg (ctx_orgId ctx) now now' st).1, d) ∧
  let rs := (findAllByOrg (ctx_orgId ctx) now now' st).2 in
  (allowed d = true ↔ permits rs ctx) ∧
  (∀ r, matchedRule d = Some r → r ∈ rs ∧ about ctx r ∧ (effect r = allow ↔ allowed d = true)).
Proof.
  unfold evaluate. destruct (findAllByOrg _ _ _ _) as [st' rs]. simpl. eexists. split; [done|].
  unfold permits. pose proof (find_effect deny ctx rs) as Hd. pose proof (find_effect allow ctx rs) as Ha.
  destruct (List.find (with_effect deny) _) as [r|]; simpl.
  { split; [split; [done|]; intros [Hno _]; destruct Hd as (? & ? & ?); by destruct (Hno r)|].
    intros ? [= <-]. destruct Hd as (? & ? & ->). by split_and!. }
  destruct (List.find (with_effect allow) _) as [r|]; simpl.
  { split; [split; [intros _; split; [done|left; eauto]|done]|].
    intros ? [= <-]. destruct Ha as (? & ? & ?). by split_and!. }
  destruct (ctx_role ctx) eqn:Er; simpl; (split; [|done]);
    (split; [|intros [_ [(r & ? & ? & ?)|?]]; [by destruct (Ha r)|done]]); try done.
  intros _. split; [done|by right].
Qed.

(** ** Freshness of the cache *)

Definition own (org : string) (rs : list PolicyRule) : list PolicyRule :=
  List.filter (λ r, String.eqb (orgId r) org) rs.

(** The store with the clock and the rule sets that were in force. *)
Record policy_run := {
  clock : Z;
  st : PolicyStore;
  past : list (Z * jsmap string PolicyRule)
}.

Definition at_time (now : Z) (st' : PolicyStore) (s : policy_run) : policy_run :=
  {| clock := now; st := st'; past := (now, rules st') :: past s |}.

Inductive pstep : policy_run → policy_run → Prop :=
| p_create s now newId input : clock s ≤ now → jm_get newId (rules (st s)) = None →
    pstep s (at_time now (create newId now input (st s)).1 s)
| p_update s now i p : clock s ≤ now → pstep s (at_time now (update i p now (st s)).1 s)
| p_delete s now i : clock s ≤ now → pstep s (at_time now (delete i (st s)).1 s)
| p_find s now now' org : clock s ≤ now → now ≤ now' →
    pstep s (at_time now' (findAllByOrg org now now' (st s)).1 s).

Definition new_store : PolicyStore := {| rules := []; cache := [] |}.

Definition policy_reachable (s : policy_run) : Prop :=
  ∃ t0, rtc pstep {| clock := t0; st := new_store; past := [] |} s.

(** Each cached list was the true one when it was read, and its own rules are
    still those of the store. *)
Definition entry_ok (s : policy_run) (org : string) (e : CacheEntry) : Prop :=
  (∃ t m, (t, m) ∈ past s ∧ t ≤ clock s ∧ expiresAt e = t + CACHE_TTL_MS ∧ c_rules e = visible org m) ∧
  (org ≠ EmptyString → own org (c_rules e) = own org (jm_values (rules (st s)))).

Definition policy_ok (s : policy_run) : Prop :=
  NoDup (jm_keys (rules (st s))) ∧ NoDup (jm_keys (cache (st s))) ∧
  ∀ org e, jm_get org (cache (st s)) = Some e → entry_ok s org e.

Lemma own_visible org m : own org (visible org m) = own org (jm_values m).
Proof.
  unfold own, visible. induction (jm_values m) as [|r l IH]; [done|]. simpl.
  destruct (String.eqb_spec (orgId r) org) as [E|E]; simpl.
  - rewrite (proj2 (String.eqb_eq _ _) E). by f_equal.
  - destruct (String.eqb (orgId r) "*"); simpl; [|done]. by rewrite (proj2 (String.eqb_neq _ _) E).
Qed.

Lemma own_skip org r l : orgId r ≠ org → own org (r :: l) = own org l.
Proof. intros H. unfold own. simpl. by rewrite (proj2 (String.eqb_neq _ _) H). Qed.

Lemma own_cons org r l l' : own org l = own org l' → own org (r :: l) = own org (r :: l').
Proof. unfold own. simpl. intros ->. done. Qed.

Lemma own_set org (i : string) r m : orgId r ≠ org → (∀ r0, jm_get i m = Some r0 → orgId r0 ≠ org) →
  own org (jm_values (jm_set i r m)) = own org (jm_values m).
Proof.
  intros Hr. unfold jm_values. induction m as [|[k r0] m IH]; intros H0; [by apply own_skip|].
  cbn [jm_set jm_get] in *. case_decide; cbn [fmap list_fmap snd].
  - rewrite !own_skip by auto. done.
  - apply own_cons, IH. done.
Qed.

Lemma own_delete org (i : string) m : NoDup (jm_keys m) → (∀ r0, jm_get i m = Some r0 → orgId r0 ≠ org) →
  own org (jm_values (jm_delete i m)) = own org (jm_values m).
Proof.
  unfold jm_delete, jm_values, jm_keys. induction m as [|[k r0] m IH]; [done|].
  rewrite !fmap_cons. intros [Hn Hd]%NoDup_cons H0. cbn [jm_get] in H0. rewrite filter_cons.
  destruct (decide (k = i)) as [->|E].
  - rewrite decide_False by (intros H; by apply H). rewrite own_skip by by apply H0.
    f_equal. f_equal. apply list_filter_id. intros [k' r'] Hin. simpl. intros ->.
    apply Hn, list_elem_of_fmap. by exists (i, r').
  - rewrite decide_True by done. rewrite fmap_cons. by apply own_cons, IH.
Qed.

Lemma cache_after org o st e : NoDup (jm_keys (cache st)) →
  jm_get org (cache (invalidate o st)) = Some e → org ≠ o ∧ org ≠ "*" ∧ jm_get org (cache st) = Some e.
Proof.
  intros Hn. simpl. unfold jm_delete. rewrite jm_get_filter by by apply jm_NoDup_filter.
  rewrite jm_get_filter by done. destruct (jm_get org (cache st)) as [e'|]; simpl; [|done].
  intros H. repeat (case_decide; simplify_eq/=); naive_solver.
Qed.

Lemma NoDup_invalidate o st : NoDup (jm_keys (cache st)) → NoDup (jm_keys (cache (invalidate o st))).
Proof. intros H. by do 2 apply jm_NoDup_filter. Qed.

(** An operation that changes no rule of an organisation whose cache it keeps. *)
Lemma policy_ok_write s now st' : clock s ≤ now → policy_ok s →
  NoDup (jm_keys (rules st')) → NoDup (jm_keys (cache st')) →
  (∀ org e, jm_get org (cache st') = Some e → jm_get org (cache (st s)) = Some e ∧
     (org ≠ EmptyString → own org (jm_values (rules st')) = own org (jm_values (rules (st s))))) →
  policy_ok (at_time now st' s).
Proof.
  intros Hc (_ & _ & Hok) H1 H2 Hk. split; [done|]. split; [done|]. intros org e He.
  destruct (Hk org e He) as [He0 Hown]. destruct (Hok org e He0) as [(t & m & Hin & Ht & Hx & Hv) Ho].
  split; simpl.
  - exists t, m. split; [by right|]. split; [lia|done].
  - intros Hne. by rewrite Hown, Ho.
Qed.

Lemma policy_ok_find s now now' org : clock s ≤ now → now ≤ now' → policy_ok s →
  policy_ok (at_time now' (findAllByOrg org now now' (st s)).1 s).
Proof.
  intros Hc Hn Hok. set (fill := {| c_rules := visible org (rules (st s)); expiresAt := now' + CACHE_TTL_MS |}).
  assert ((findAllByOrg org now now' (st s)).1 = st s ∨
    (findAllByOrg org now now' (st s)).1 = {| rules := rules (st s); cache := jm_set org fill (cache (st s)) |}) as [->| ->].
  { unfold findAllByOrg. destruct (jm_get org (cache (st s))) as [e|]; [|by right]. case_test; [by left|by right]. }
  - destruct Hok as (H1 & H2 & H3). apply policy_ok_write; [lia|done..|]. auto.
  - destruct Hok as (H1 & H2 & H3). split; [done|]. split; [by apply jm_NoDup_set|].
    simpl. intros o e. rewrite jm_get_set. case_decide as E; [subst o; intros [= <-]|].
    + split; [|intros _; apply own_visible]. exists now', (rules (st s)). split; [by left|]. split; [simpl; lia|done].
    + intros He. destruct (H3 o e He) as [(t & m & Hin & Ht & Hx & Hv) Ho]. split; [|done].
      exists t, m. split; [by right|]. split; [simpl; lia|done].
Qed.

Lemma pstep_ok s s' : pstep s s' → policy_ok s → policy_ok s'.
Proof.
  intros Hs Hok. pose proof Hok as (H1 & H2 & _).
  destruct Hs as [s now newId input Hc Hfresh|s now i p Hc|s now i Hc|s now now' org Hc Hn].
  - apply policy_ok_write; [done|done|by apply jm_NoDup_set|by apply NoDup_invalidate|].
    intros org e (Hne & _ & He)%cache_after; [|done]. split; [done|]. intros _.
    apply own_set; [simpl in *; congruence|]. by rewrite Hfresh.
  - unfold update. destruct (jm_get i (rules (st s))) as [r|] eqn:Er; [|by apply policy_ok_write; auto].
    set (st1 := invalidate (orgId r) (set_rule i (patched r p now) (st s))).
    set (st2 := match p_orgId p with Some o => _ | None => st1 end).
    assert (rules st2 = jm_set i (patched r p now) (rules (st s))) as Hr.
    { unfold st2. destruct (p_orgId p); [|done]. by case_test. }
    assert (NoDup (jm_keys (cache st1))) as Hd1 by by apply NoDup_invalidate.
    assert (NoDup (jm_keys (cache st2))) as Hd2.
    { unfold st2. destruct (p_orgId p); [|done]. case_test; [by apply NoDup_invalidate|done]. }
    apply policy_ok_write; [done|done|simpl; rewrite Hr; by apply jm_NoDup_set|done|].
    intros org e He. simpl in He.
    assert (jm_get org (cache st1) = Some e ∧ (org ≠ EmptyString → default (orgId r) (p_orgId p) ≠ org ∨ orgId r = org)) as [He1 Hp].
    { unfold st2 in He. destruct (p_orgId p) as [o|]; [|split; [done|intros; destruct (decide (orgId r = org)); auto]].
      simpl. case_test_in He.
      - apply cache_after in He as (? & _ & ?); [|done]. split; [done|]. auto.
      - split; [done|]. intros Hne. breflect. destruct Htest as [->| ->]; [by left; auto|].
        destruct (decide (orgId r = org)); auto. }
    apply cache_after in He1 as (Hne & _ & He1); [|done]. split; [done|]. intros Ho. simpl. rewrite Hr.
    apply own_set; [destruct (Hp Ho); [done|congruence]|]. intros r0. rewrite Er. intros [= <-]. congruence.
  - unfold delete. destruct (jm_get i (rules (st s))) as [r|] eqn:Er; [|by apply policy_ok_write; auto].
    apply policy_ok_write; [done|done|by apply jm_NoDup_filter|by apply NoDup_invalidate|].
    intros org e (Hne & _ & He)%cache_after; [|done]. split; [done|]. intros _.
    apply own_delete; [done|]. intros r0. rewrite Er. intros [= <-]. congruence.
  - by apply policy_ok_find.
Qed.

Lemma policy_reachable_ok s : policy_reachable s → policy_ok s.
Proof.
  intros [t0 H]. assert (policy_ok {| clock := t0; st := new_store; past := [] |}) as H0.
  { split; [constructor|]. split; [constructor|]. done. }
  revert H0. induction H as [|x y z Hxy _ IH]; [done|]. intros Hx. by apply IH, (pstep_ok x).
Qed.

(** C28. Deny wins, and a decision is at most thirty seconds old: in every
    reachable state of the policy store, [evaluate] allows a request if and
    only if, among the rules of the organisation and the platform that were in
    force at some moment less than thirty seconds ago, no deny rule is about it
    and an allow rule is, or the caller is an administrator; the rules of the
    organisation itself are those in force now, so only platform-wide rules can
    be stale. A rule named by the decision is about the request and has the
    effect of the decision. *)
Theorem policy_decisions_fresh s ctx now now' d st' :
  policy_reachable s → clock s ≤ now → now ≤ now' → evaluate ctx now now' (st s) = (st', d) →
  ∃ t m rs, now - CACHE_TTL_MS < t ≤ now' ∧ ((t, m) ∈ past s ∨ m = rules (st s)) ∧
    rs = visible (ctx_orgId ctx) m ∧ (allowed d = true ↔ permits rs ctx) ∧
    (ctx_orgId ctx ≠ EmptyString →
       own (ctx_orgId ctx) rs = own (ctx_orgId ctx) (jm_values (rules (st s)))) ∧
    (∀ r, matchedRule d = Some r → r ∈ rs ∧ about ctx r ∧ (effect r = allow ↔ allowed d = true)).
Proof.
  intros Hs Hc Hn E. apply policy_reachable_ok in Hs as (_ & _ & Hok).
  destruct (evaluate_permits ctx now now' (st s)) as (d' & E' & Hal & Hm). rewrite E in E'. injection E' as -> <-.
  set (org := ctx_orgId ctx) in *.
  assert (∃ t m, now - CACHE_TTL_MS < t ≤ now' ∧ ((t, m) ∈ past s ∨ m = rules (st s)) ∧
    (findAllByOrg org now now' (st s)).2 = visible org m ∧
    (org ≠ EmptyString → own org (visible org m) = own org (jm_values (rules (st s))))) as (t & m & Ht & Hin & Hv & Ho).
  { assert (now - CACHE_TTL_MS < now' ≤ now') by (unfold CACHE_TTL_MS; lia).
    unfold findAllByOrg. destruct (jm_get org (cache (st s))) as [e|] eqn:Ee.
    - destruct (Hok org e Ee) as [(t & m & Hin & Ht & Hx & Hv) Ho].
      destruct (Z.ltb_spec now (expiresAt e)).
      + exists t, m. split; [lia|]. split; [by left|]. split; [exact Hv|].
        intros Hne. rewrite <- Hv. by apply Ho.
      + exists now', (rules (st s)). split; [done|]. split; [by right|]. split; [done|]. intros _. apply own_visible.
    - exists now', (rules (st s)). split; [done|]. split; [by right|]. split; [done|]. intros _. apply own_visible. }
  rewrite Hv in Hal, Hm. exists t, m, (visible org m).
  split; [exact Ht|]. split; [exact Hin|]. split; [done|]. split; [exact Hal|]. split; [exact Ho|exact Hm].
Qed.

(** ** A concrete run *)

Module PolicyExample.
Definition input (org : string) (e : PolicyEffect) : CreatePolicyRuleInput :=
  {| in_orgId := org; in_subject := "user"; in_action := "org:read"; in_resource := "org:acme:*";
     in_effect := e; in_conditions := None |}.
Definition ctx : PolicyContext :=
  {| ctx_userId := "u1"; ctx_role := user; ctx_orgId := "acme"; ctx_action := "org:read";
     ctx_resource := "org:acme:members"; ctx_extra := None |}.
Definition s0 : policy_run := {| clock := 0; st := new_store; past := [] |}.
Definition s1 := at_time 1 (create "r1" 1 (input "acme" allow) (st s0)).1 s0.
Definition s2 := at_time 2 (findAllByOrg "acme" 2 2 (st s1)).1 s1.
Definition s3 := at_time 3 (create "r2" 3 (input "*" deny) (st s2)).1 s2.

Lemma s3_reachable : policy_reachable s3.
Proof.
  exists 0. eapply (rtc_l _ _ s1); [by apply (p_create s0 1)|].
  eapply (rtc_l _ _ s2); [by apply (p_find s1 2 2)|].
  eapply (rtc_l _ _ s3); [by apply (p_create s2 3)|]. constructor.
Qed.
End PolicyExample.

(** A platform-wide deny rule just created is not seen by an organisation whose
    rules are cached. *)
Lemma policy_decisions_fresh_witness :
  ∃ t m rs, 4 - CACHE_TTL_MS < t ≤ 4 ∧ rs = visible "acme" m ∧
    permits rs PolicyExample.ctx ∧ ¬ permits (visible "acme" (rules (st PolicyExample.s3))) PolicyExample.ctx.
Proof.
  destruct (evaluate PolicyExample.ctx 4 4 (st PolicyExample.s3)) as [st' d] eqn:E.
  destruct (policy_decisions_fresh PolicyExample.s3 PolicyExample.ctx 4 4 d st' PolicyExample.s3_reachable
    ltac:(by vm_compute) ltac:(lia) E) as (t & m & rs & Ht & _ & Hrs & Hal & _ & _).
  exists t, m, rs. split; [exact Ht|]. split; [exact Hrs|]. split.
  - apply Hal. vm_compute in E. injection E as _ <-. reflexivity.
  - intros [Hno _]. eapply (Hno (create "r2" 3 (PolicyExample.input "*" deny) new_store).2); [| |reflexivity].
    + right. left.
    + apply matches_about. vm_compute. reflexivity.
Defined.
