(* ===== verification/WorkerLease.v ===== *)
(** * Leadership of the outbox workers

    [jobs/workerLeaseManager.ts]: any number of managers compete for one
    PostgreSQL advisory lock through sessions checked out of a pool. The
    methods are cut at their awaits into steps, and any interleaving of the
    steps of the managers, the server and the network is allowed. Logging and
    the registered callbacks are left out. *)

From stdpp Require Import base option list gmap fin_maps relations.
From Stdlib Require Import ZArith Lia.
From S2P Require Import Prelude.

Open Scope Z_scope.

(** ** Data *)

Inductive WorkerLeaseState := standby | leader.

#[export] Instance WorkerLeaseState_eq_dec : EqDecision WorkerLeaseState.
Proof. solve_decision. Defined.

(** The query a session has under way: sent, or executed with its response
    still on the way. *)
Inductive query_state :=
| NoQuery
| TrySent | TryDone (acquired : bool)
| UnlockSent | UnlockDone (unlocked : bool)
| PingSent.

#[export] Instance query_state_eq_dec : EqDecision query_state.
Proof. solve_decision. Defined.

(** A [LeaseSession]: the backend of its client, the manager and generation its
    closures captured, its flags, and its query. *)
Record LeaseSession := {
  client : nat;
  s_owner : nat;
  s_gen : Z;
  held : bool;
  querying : bool;
  disposed : bool;
  query : query_state
}.

(** A manager. [lease] is a reference to a session object; [connecting] holds
    the generations of its pending [pool.connect()] calls; [retryTimer] says
    that the timer is armed. *)
Record WorkerLeaseManager := {
  lease : option nat;
  generation : Z;
  acquisition : option Z;
  running : bool;
  state : WorkerLeaseState;
  retryTimer : bool;
  heartbeatTimer : option (nat * Z);
  stopping : bool;
  connecting : list Z
}.

(** All managers and session objects, and the server: who holds the lock, the
    backends that ended, those idle in the pool, those being destroyed. *)
Record world := {
  managers : gmap nat WorkerLeaseManager;
  sessions : gmap nat LeaseSession;
  lock : option nat;
  dead : gset nat;
  idle : gset nat;
  closing : gset nat
}.

Definition new_WorkerLeaseManager : WorkerLeaseManager :=
  {| lease := None; generation := 0; acquisition := None; running := false; state := standby;
     retryTimer := false; heartbeatTimer := None; stopping := false; connecting := [] |}.

(** ** Updates *)

Definition with_manager (i : nat) (m : WorkerLeaseManager) (w : world) : world :=
  {| managers := <[i := m]> (managers w); sessions := sessions w; lock := lock w; dead := dead w;
     idle := idle w; closing := closing w |}.

Definition with_session (o : nat) (s : LeaseSession) (w : world) : world :=
  {| managers := managers w; sessions := <[o := s]> (sessions w); lock := lock w; dead := dead w;
     idle := idle w; closing := closing w |}.

(** [client.release(true)] destroys the connection, [client.release()] returns
    it to the pool. *)
Definition release (b : nat) (destroy : bool) (w : world) : world :=
  {| managers := managers w; sessions := sessions w; lock := lock w; dead := dead w;
     idle := if destroy then idle w else {[b]} ∪ idle w;
     closing := if destroy then {[b]} ∪ closing w else closing w |}.

Definition set_session (s : LeaseSession) (h q d : bool) (qs : query_state) : LeaseSession :=
  {| client := client s; s_owner := s_owner s; s_gen := s_gen s; held := h; querying := q;
     disposed := d; query := qs |}.

Definition set_manager (m : WorkerLeaseManager) (l : option nat) (g : Z) (r : bool)
    (st : WorkerLeaseState) (retry : bool) (hb : option (nat * Z)) (stop : bool) : WorkerLeaseManager :=
  {| lease := l; generation := g; acquisition := acquisition m; running := r; state := st;
     retryTimer := retry; heartbeatTimer := hb; stopping := stop; connecting := connecting m |}.

(** ** The manager *)

Definition isCurrent (m : WorkerLeaseManager) (o : nat) (s : LeaseSession) : bool :=
  running m && (generation m =? s_gen s) && bool_decide (lease m = Some o) && negb (disposed s).

(** The generation of a finished acquisition is cleared. *)
Definition finish_acquisition (g : Z) (m : WorkerLeaseManager) : WorkerLeaseManager :=
  {| lease := lease m; generation := generation m;
     acquisition := if bool_decide (acquisition m = Some g) then None else acquisition m;
     running := running m; state := state m; retryTimer := retryTimer m;
     heartbeatTimer := heartbeatTimer m; stopping := stopping m; connecting := connecting m |}.

(** [scheduleRetry], with its [clearTimers]. *)
Definition scheduleRetry (m : WorkerLeaseManager) : WorkerLeaseManager :=
  if running m then set_manager m (lease m) (generation m) (running m) (state m) true None (stopping m)
  else m.

Definition tryAcquire (m : WorkerLeaseManager) : WorkerLeaseManager :=
  if negb (running m) then m
  else if bool_decide (acquisition m = Some (generation m)) then m
  else {| lease := lease m; generation := generation m; acquisition := Some (generation m);
          running := running m; state := state m; retryTimer := retryTimer m;
          heartbeatTimer := heartbeatTimer m; stopping := stopping m;
          connecting := generation m :: connecting m |}.

(** [start], after it waited for a stop under way. *)
Definition start (m : WorkerLeaseManager) : WorkerLeaseManager :=
  if running m then m
  else tryAcquire (set_manager m (lease m) (generation m + 1) true (state m) (retryTimer m)
                     (heartbeatTimer m) (stopping m)).

(** The timer fires. *)
Definition retry_fires (m : WorkerLeaseManager) : WorkerLeaseManager :=
  tryAcquire (set_manager m (lease m) (generation m) (running m) (state m) false (heartbeatTimer m) (stopping m)).

(** [disposeSession] on the session [o] of manager [i]. *)
Definition disposeSession (i o : nat) (s : LeaseSession) (m : WorkerLeaseManager) (destroy : bool) (w : world)
  : world :=
  if disposed s then with_manager i m (with_session o s w)
  else release (client s) destroy
    (with_manager i
      (set_manager m (if bool_decide (lease m = Some o) then None else lease m) (generation m) (running m)
         (state m) (retryTimer m) (heartbeatTimer m) (stopping m))
      (with_session o (set_session s (held s) (querying s) true (query s)) w)).

(** [loseLease]. *)
Definition loseLease (i o : nat) (s : LeaseSession) (m : WorkerLeaseManager) (w : world) : world :=
  if isCurrent m o s then
    disposeSession i o s
      (set_manager m (lease m) (generation m + 1) (running m) standby true None (stopping m)) true w
  else with_manager i m (with_session o s w).

(** [acquireSession] after [pool.connect()] gave the backend [b]; the session
    object is [o]. *)
Definition connected (i o b : nat) (g : Z) (m : WorkerLeaseManager) (w : world) : world :=
  let s := {| client := b; s_owner := i; s_gen := g; held := false; querying := false; disposed := false;
              query := NoQuery |} in
  let m1 := {| lease := lease m; generation := generation m; acquisition := acquisition m;
               running := running m; state := state m; retryTimer := retryTimer m;
               heartbeatTimer := heartbeatTimer m; stopping := stopping m;
               connecting := List.remove Z.eq_dec g (connecting m) |} in
  if negb (running m) || negb (generation m =? g)
  then disposeSession i o s (finish_acquisition g m1) false w
  else with_manager i (set_manager m1 (Some o) (generation m1) (running m1) (state m1) (retryTimer m1)
         (heartbeatTimer m1) (stopping m1))
       (with_session o (set_session s false true false TrySent) w).

(** [pool.connect()] failed. *)
Definition connect_failed (g : Z) (m : WorkerLeaseManager) : WorkerLeaseManager :=
  let m1 := {| lease := lease m; generation := generation m; acquisition := acquisition m;
               running := running m; state := state m; retryTimer := retryTimer m;
               heartbeatTimer := heartbeatTimer m; stopping := stopping m;
               connecting := List.remove Z.eq_dec g (connecting m) |} in
  finish_acquisition g (if running m && (generation m =? g) then scheduleRetry m1 else m1).

(** [acquireSession] after the response of [pg_try_advisory_lock]. *)
Definition try_response (i o : nat) (acquired : bool) (s : LeaseSession) (m : WorkerLeaseManager) (w : world)
  : world :=
  let s1 := set_session s (held s) false (disposed s) NoQuery in
  let m1 := finish_acquisition (s_gen s) m in
  if negb (isCurrent m o s1) then disposeSession i o s1 m1 true w
  else if acquired then
    with_manager i (set_manager m1 (lease m1) (generation m1) (running m1) leader false
                      (Some (o, s_gen s)) (stopping m1))
      (with_session o (set_session s1 true false (disposed s1) NoQuery) w)
  else disposeSession i o s1 (scheduleRetry m1) false w.

(** The same when the query failed: the catch clause. *)
Definition try_error (i o : nat) (s : LeaseSession) (m : WorkerLeaseManager) (w : world) : world :=
  loseLease i o (set_session s (held s) (querying s) (disposed s) NoQuery) (finish_acquisition (s_gen s) m) w.

(** [heartbeat] up to its query. *)
Definition heartbeat (o : nat) (s : LeaseSession) (m : WorkerLeaseManager) (w : world) : world :=
  if negb (isCurrent m o s) || negb (bool_decide (state m = leader)) || querying s then w
  else with_session o (set_session s (held s) true (disposed s) PingSent) w.

Definition heartbeat_ok (o : nat) (s : LeaseSession) (w : world) : world :=
  with_session o (set_session s (held s) false (disposed s) NoQuery) w.

Definition heartbeat_failed (i o : nat) (s : LeaseSession) (m : WorkerLeaseManager) (w : world) : world :=
  loseLease i o (set_session s (held s) false (disposed s) NoQuery) m w.

(** [stop] with [releaseLock] up to its query. *)
Definition stop (i : nat) (m : WorkerLeaseManager) (w : world) : world :=
  if stopping m || negb (running m) then w else
  let m1 := set_manager m None (generation m + 1) false standby false None in
  match lease m with
  | None => with_manager i (m1 false) w
  | Some o =>
      match sessions w !! o with
      | None => with_manager i (m1 false) w
      | Some s =>
          if disposed s then with_manager i (m1 false) w
          else if held s && negb (querying s) then
            with_manager i (m1 true)
              (with_session o (set_session s (held s) true (disposed s) UnlockSent) w)
          else disposeSession i o s (m1 false) true w
      end
  end.

(** The rest of [releaseLock], after its query gave an answer or failed. *)
Definition unlock_end (i o : nat) (unlocked : bool) (s : LeaseSession) (m : WorkerLeaseManager) (w : world)
  : world :=
  disposeSession i o (set_session s (held s) (querying s) (disposed s) NoQuery)
    (set_manager m (lease m) (generation m) (running m) (state m) (retryTimer m) (heartbeatTimer m) false)
    (negb unlocked) w.

(** ** The server *)

(** A backend ends: the server frees its lock. *)
Definition backend_ends (b : nat) (w : world) : world :=
  {| managers := managers w; sessions := sessions w;
     lock := if bool_decide (lock w = Some b) then None else lock w;
     dead := {[b]} ∪ dead w; idle := idle w; closing := closing w ∖ {[b]} |}.

(** [pg_try_advisory_lock]. *)
Definition exec_try (o : nat) (s : LeaseSession) (w : world) : world :=
  let granted := match lock w with None => true | Some b => bool_decide (b = client s) end in
  {| managers := managers w;
     sessions := <[o := set_session s (held s) (querying s) (disposed s) (TryDone granted)]> (sessions w);
     lock := if granted then Some (client s) else lock w;
     dead := dead w; idle := idle w; closing := closing w |}.

(** [pg_advisory_unlock]. *)
Definition exec_unlock (o : nat) (s : LeaseSession) (w : world) : world :=
  let mine := bool_decide (lock w = Some (client s)) in
  {| managers := managers w;
     sessions := <[o := set_session s (held s) (querying s) (disposed s) (UnlockDone mine)]> (sessions w);
     lock := if mine then None else lock w;
     dead := dead w; idle := idle w; closing := closing w |}.

(** ** Steps *)

(** A client of the pool: idle, or a new backend. *)
Definition available (b : nat) (w : world) : Prop :=
  b ∈ idle w ∨ (b ∉ closing w ∧ b ∉ dead w ∧ lock w ≠ Some b ∧ ∀ o s, sessions w !! o = Some s → client s ≠ b).

Definition take_client (b : nat) (w : world) : world :=
  {| managers := managers w; sessions := sessions w; lock := lock w; dead := dead w;
     idle := idle w ∖ {[b]}; closing := closing w |}.

Inductive lstep : world → world → Prop :=
| l_new w i : managers w !! i = None → lstep w (with_manager i new_WorkerLeaseManager w)
| l_start w i m : managers w !! i = Some m → lstep w (with_manager i (start m) w)
| l_stop w i m : managers w !! i = Some m → lstep w (stop i m w)
| l_retry w i m : managers w !! i = Some m → retryTimer m = true → lstep w (with_manager i (retry_fires m) w)
| l_connect w i m o b g : managers w !! i = Some m → g ∈ connecting m → sessions w !! o = None →
    available b w → lstep w (connected i o b g m (take_client b w))
| l_noconnect w i m g : managers w !! i = Some m → g ∈ connecting m →
    lstep w (with_manager i (connect_failed g m) w)
| l_try w o s : sessions w !! o = Some s → query s = TrySent → client s ∉ dead w → lstep w (exec_try o s w)
| l_tried w o s m b : sessions w !! o = Some s → managers w !! s_owner s = Some m → query s = TryDone b →
    lstep w (try_response (s_owner s) o b s m w)
| l_try_error w o s m : sessions w !! o = Some s → managers w !! s_owner s = Some m →
    (query s = TrySent ∨ (∃ b, query s = TryDone b)) → lstep w (try_error (s_owner s) o s m w)
| l_error_event w o s m : sessions w !! o = Some s → managers w !! s_owner s = Some m →
    lstep w (loseLease (s_owner s) o s m w)
| l_heartbeat w i m o s : managers w !! i = Some m → heartbeatTimer m = Some (o, s_gen s) →
    sessions w !! o = Some s → lstep w (heartbeat o s m w)
| l_heartbeat_ok w o s : sessions w !! o = Some s → query s = PingSent → lstep w (heartbeat_ok o s w)
| l_heartbeat_failed w o s m : sessions w !! o = Some s → managers w !! s_owner s = Some m →
    query s = PingSent → lstep w (heartbeat_failed (s_owner s) o s m w)
| l_unlock w o s : sessions w !! o = Some s → query s = UnlockSent → client s ∉ dead w →
    lstep w (exec_unlock o s w)
| l_unlocked w o s m b : sessions w !! o = Some s → managers w !! s_owner s = Some m →
    query s = UnlockDone b → lstep w (unlock_end (s_owner s) o b s m w)
| l_unlock_error w o s m : sessions w !! o = Some s → managers w !! s_owner s = Some m →
    (query s = UnlockSent ∨ (∃ b, query s = UnlockDone b)) → lstep w (unlock_end (s_owner s) o false s m w)
| l_ends w b : lstep w (backend_ends b w).

Definition initial_world : world :=
  {| managers := ∅; sessions := ∅; lock := None; dead := ∅; idle := ∅; closing := ∅ |}.

Definition lease_reachable (w : world) : Prop := rtc lstep initial_world w.

(** ** Invariant *)

(** The sessions that hold the lock, as far as their client can know. *)
Definition holds (s : LeaseSession) : Prop :=
  (held s = true ∧ query s ≠ UnlockDone true) ∨ query s = TryDone true.

Definition trying (s : LeaseSession) : Prop := query s = TrySent ∨ ∃ b, query s = TryDone b.

Definition unlocking (s : LeaseSession) : Prop := query s = UnlockSent ∨ ∃ b, query s = UnlockDone b.

Record session_ok (w : world) (o : nat) (s : LeaseSession) : Prop := {
  so_client : disposed s = false → client s ∉ idle w ∧ client s ∉ closing w;
  so_owner : disposed s = false → ∃ m, managers w !! s_owner s = Some m ∧
    (lease m = Some o ∨ (held s = true ∧ unlocking s));
  so_lock : disposed s = false → holds s → client s ∉ dead w → lock w = Some (client s);
  so_late : disposed s = true → query s = TrySent → client s ∈ closing w ∪ dead w;
  so_held : held s = true → ¬ trying s;
  so_unlock : query s = UnlockSent → disposed s = false ∧ held s = true
}.

(** What the current lease of a manager is. *)
Definition lease_is (st : WorkerLeaseState) (g : Z) (i : nat) (s : LeaseSession) : Prop :=
  s_owner s = i ∧ s_gen s = g ∧ disposed s = false ∧
  match st with
  | standby => held s = false ∧ trying s
  | leader => held s = true ∧ (query s = NoQuery ∨ query s = PingSent)
  end.

Record manager_ok (ss : gmap nat LeaseSession) (i : nat) (m : WorkerLeaseManager) : Prop := {
  mo_lease o : lease m = Some o → running m = true ∧ ∃ s, ss !! o = Some s ∧ lease_is (state m) (generation m) i s;
  mo_leader : state m = leader → ∃ o, lease m = Some o ∧ heartbeatTimer m = Some (o, generation m);
  mo_going : running m = true →
    state m = leader ∨ retryTimer m = true ∨ generation m ∈ connecting m ∨ lease m ≠ None;
  mo_acq : acquisition m = Some (generation m) →
    generation m ∈ connecting m ∨ (state m = standby ∧ lease m ≠ None);
  mo_old : (∀ g, g ∈ connecting m → g ≤ generation m) ∧ (∀ g, acquisition m = Some g → g ≤ generation m);
  mo_conn : generation m ∈ connecting m → lease m = None;
  mo_retry : retryTimer m = true → running m = true ∧ lease m = None ∧ generation m ∉ connecting m
}.

Record server_ok (w : world) : Prop := {
  sv_disj : idle w ## closing w;
  sv_lock b : lock w = Some b → b ∉ dead w ∧ b ∉ idle w ∧
    (b ∈ closing w ∨ ∃ o s, sessions w !! o = Some s ∧ client s = b ∧ disposed s = false ∧ holds s);
  sv_distinct o1 o2 s1 s2 : sessions w !! o1 = Some s1 → sessions w !! o2 = Some s2 →
    disposed s1 = false → disposed s2 = false → client s1 = client s2 → o1 = o2
}.

Record lease_inv (w : world) : Prop := {
  li_managers i m : managers w !! i = Some m → manager_ok (sessions w) i m;
  li_sessions o s : sessions w !! o = Some s → session_ok w o s;
  li_server : server_ok w
}.

(** A manager only depends on the session it leases. *)
Lemma manager_ok_other ss i m o s : manager_ok ss i m → lease m ≠ Some o → manager_ok (<[o := s]> ss) i m.
Proof.
  intros [] Hne. constructor; try done. intros o' Ho. destruct (mo_lease0 o' Ho) as (? & s' & ? & ?).
  split; [done|]. exists s'. rewrite lookup_insert_ne by congruence. done.
Qed.

(** The lease of another manager is another session. *)
Lemma other_lease w i j m o s : lease_inv w → managers w !! j = Some m → sessions w !! o = Some s →
  s_owner s = i → i ≠ j → lease m ≠ Some o.
Proof.
  intros Hi Hm Hs Ho Hij Hl. destruct (mo_lease _ _ _ (li_managers _ Hi j m Hm) o Hl) as (_ & s' & Hs' & Hl').
  rewrite Hs in Hs'. injection Hs' as <-. destruct Hl'. congruence.
Qed.

(** A change of one manager that keeps its lease. *)
Lemma inv_manager w i m m' : lease_inv w → managers w !! i = Some m → lease m' = lease m →
  manager_ok (sessions w) i m' → lease_inv (with_manager i m' w).
Proof.
  intros Hi Hm Hl Hok. constructor; simpl.
  - intros j mj. rewrite lookup_insert_Some. intros [[-> ->]|[Hne Hj]]; [done|]. by apply Hi.
  - intros o s Hs. destruct (li_sessions _ Hi o s Hs) as [H1 H2 H3 H4 H5 H6]. constructor; simpl; try done.
    intros Hd. destruct (H2 Hd) as (mj & Hmj & Hj).
    destruct (decide (s_owner s = i)) as [E|E].
    + exists m'. rewrite E, lookup_insert, decide_True by done. split; [done|].
      rewrite Hl. assert (mj = m) as -> by congruence. exact Hj.
    + exists mj. by rewrite lookup_insert_ne.
  - by destruct (li_server _ Hi).
Qed.

(** A change of the query of one session that keeps what it holds. *)
Lemma inv_session w o s s' : lease_inv w → sessions w !! o = Some s →
  client s' = client s → s_owner s' = s_owner s → s_gen s' = s_gen s → held s' = held s →
  disposed s' = disposed s → (disposed s = false → (holds s' ↔ holds s) ∧ ¬ unlocking s) → ¬ trying s' →
  query s' ≠ UnlockSent →
  (lease_is leader (s_gen s) (s_owner s) s → lease_is leader (s_gen s) (s_owner s) s') →
  (disposed s = false → ¬ trying s) →
  lease_inv (with_session o s' w).
Proof.
  intros Hi Hs Hc Ho Hg Hh Hd Hlive Htry Hus Hlead Hdt. constructor; simpl.
  - intros j mj Hj. pose proof (li_managers _ Hi j mj Hj) as Hok. destruct (decide (lease mj = Some o)) as [E|E];
      [|by apply manager_ok_other].
    destruct (mo_lease _ _ _ Hok o E) as (Hr & s0 & Hs0 & Hl). rewrite Hs in Hs0. injection Hs0 as <-.
    destruct Hok. constructor; try done. intros o' Eo'. rewrite E in Eo'. injection Eo' as <-. split; [done|].
    exists s'. rewrite lookup_insert, decide_True by done. split; [done|].
    destruct Hl as (L1 & L2 & L3 & L4). destruct (state mj) eqn:Es; [exfalso; destruct L4 as [_ L4]; exact (Hdt L3 L4)|].
    rewrite <- L1, <- L2. apply Hlead. exact (conj eq_refl (conj eq_refl (conj L3 L4))).
  - intros o' s0. rewrite lookup_insert_Some. intros [[<- <-]|[Hne Hs0]].
    + destruct (li_sessions _ Hi o s Hs) as [H1 H2 H3 H4 H5 H6]. constructor; simpl; rewrite ?Hc, ?Ho, ?Hh, ?Hd.
      * done.
      * intros Hf. destruct (H2 Hf) as (m & Hm & [?|[_ ?]]); [|by destruct (Hlive Hf)]. exists m. auto.
      * intros Hf Hho. apply H3; [done|]. by apply (Hlive Hf).
      * intros _ Hq. exfalso. apply Htry. by left.
      * done.
      * done.
    + destruct (li_sessions _ Hi o' s0 Hs0). by constructor.
  - destruct (li_server _ Hi) as [V1 V2 V3]. constructor; simpl; [done| |].
    + intros b Hb. destruct (V2 b Hb) as (? & ? & [?|(o1 & s1 & Hs1 & ? & ? & ?)]); split_and!; auto. right.
      destruct (decide (o1 = o)) as [->|].
      * rewrite Hs in Hs1. injection Hs1 as <-. exists o, s'. rewrite lookup_insert, decide_True by done.
        split_and!; [done|congruence|congruence|by apply Hlive].
      * exists o1, s1. rewrite lookup_insert_ne by done. done.
    + intros o1 o2 s1 s2. rewrite !lookup_insert_Some.
      intros [[<- <-]|[? ?]] [[<- <-]|[? ?]]; rewrite ?Hc, ?Hd; [done|eauto..].
Qed.

(** Disposing of a session that is not disposed yet. *)
Lemma inv_dispose w i o s s' m m' (destroy : bool) : lease_inv w →
  sessions w !! o = Some s → s_owner s = i → managers w !! i = Some m → disposed s = false →
  client s' = client s → s_owner s' = i → disposed s' = true → held s' = held s →
  query s' ≠ UnlockSent → (held s' = true → ¬ trying s') →
  (destroy = false → lock w ≠ Some (client s) ∧ query s' ≠ TrySent) →
  lease m' = (if bool_decide (lease m = Some o) then None else lease m) →
  manager_ok (sessions w) i m' →
  lease_inv (release (client s) destroy (with_manager i m' (with_session o s' w))).
Proof.
  intros Hi Hs Ho Hm Hd Hc' Ho' Hd' Hh' Hu' Ht' Hfree Hl Hok.
  destruct (li_server _ Hi) as [V1 V2 V3].
  destruct (so_client _ _ _ (li_sessions _ Hi o s Hs) Hd) as [Cidle Cclosing].
  assert (lease m' ≠ Some o) as Hno by (rewrite Hl; case_bool_decide; congruence).
  constructor; simpl.
  - intros j mj. rewrite lookup_insert_Some. intros [[-> ->]|[Hne Hj]].
    + by apply manager_ok_other.
    + apply manager_ok_other; [by apply Hi|]. by eapply (other_lease w i).
  - intros o2 s2. rewrite lookup_insert_Some. intros [[<- <-]|[Hne Hs2]].
    { constructor; simpl; rewrite ?Hc'; try done; try (intros; congruence). intros _ Hq.
      destruct destroy; [set_solver|]. by destruct (Hfree eq_refl). }
    destruct (li_sessions _ Hi o2 s2 Hs2) as [H1 H2 H3 H4 H5 H6].
    assert (disposed s2 = false → client s2 ≠ client s) as Hdiff.
    { intros Hd2 E. apply Hne. symmetry. eauto. }
    constructor; simpl; try done.
    + intros Hd2. specialize (H1 Hd2). specialize (Hdiff Hd2). destruct destroy; set_solver.
    + intros Hd2. destruct (H2 Hd2) as (m2 & Hm2 & Hcase).
      destruct (decide (s_owner s2 = i)) as [E|E]; [|exists m2; by rewrite lookup_insert_ne].
      exists m'. rewrite E, lookup_insert, decide_True by done. split; [done|]. rewrite Hl.
      assert (m2 = m) as -> by congruence. destruct Hcase as [Hle|]; [left|by right].
      rewrite bool_decide_eq_false_2; congruence.
    + intros Hd2 Hq. specialize (H4 Hd2 Hq). destruct destroy; set_solver.
  - constructor; simpl.
    + destruct destroy; set_solver.
    + intros b Hb. destruct (V2 b Hb) as (Hbd & Hbi & Hcase).
      assert (destroy = false → b ≠ client s) as Hnb by (intros E ->; by destruct (Hfree E)).
      split; [done|]. split; [destruct destroy; [done|set_solver]|].
      destruct Hcase as [|(o1 & s1 & Hs1 & Hc1 & Hd1 & Hh1)]; [left; destruct destroy; set_solver|].
      destruct (decide (o1 = o)) as [->|].
      * left. assert (s1 = s) as -> by congruence. destruct destroy; [set_solver|]. by destruct Hnb.
      * right. exists o1, s1. by rewrite lookup_insert_ne.
    + intros o1 o2 s1 s2. rewrite !lookup_insert_Some.
      intros [[<- <-]|[? ?]] [[<- <-]|[? ?]]; [done|congruence|congruence|eauto].
Qed.

Lemma available_free b w : lease_inv w → available b w →
  b ∉ closing w ∧ lock w ≠ Some b ∧ ∀ o s, sessions w !! o = Some s → disposed s = false → client s ≠ b.
Proof.
  intros Hi [Hb|(H1 & _ & H3 & H4)]; [|by eauto].
  destruct (li_server _ Hi) as [V1 V2 V3]. split; [set_solver|]. split.
  - intros Hl. by destruct (V2 b Hl) as (_ & ? & _).
  - intros o s Hs Hd <-. by destruct (so_client _ _ _ (li_sessions _ Hi o s Hs) Hd).
Qed.

(** A new session object on a free backend: current, or disposed at once. *)
Lemma inv_connect w i o b s m m' (late : bool) : lease_inv w →
  sessions w !! o = None → managers w !! i = Some m → available b w →
  client s = b → s_owner s = i → held s = false → disposed s = late → ¬ unlocking s → ¬ holds s →
  query s = (if late then NoQuery else TrySent) →
  (if late then lease m' = lease m else lease m' = Some o ∧ lease m = None) →
  manager_ok (<[o := s]> (sessions w)) i m' →
  lease_inv (with_manager i m' (with_session o s
    (if late then release b false (take_client b w) else take_client b w))).
Proof.
  intros Hi Hs Hm Hav Hc Ho Hh Hd Hu Hho Hq Hl Hok.
  destruct (available_free b w Hi Hav) as (Fc & Fl & Fs). destruct (li_server _ Hi) as [V1 V2 V3].
  set (w0 := if late then release b false (take_client b w) else take_client b w).
  assert (managers w0 = managers w ∧ sessions w0 = sessions w ∧ lock w0 = lock w ∧ dead w0 = dead w ∧ closing w0 = closing w)
    as (Em & Es & El & Ed & Ec) by (subst w0; by destruct late).
  assert (∀ x, x ∈ idle w0 → (x ∈ idle w ∧ x ≠ b) ∨ (late = true ∧ x = b)) as Ei.
  { subst w0. destruct late; simpl; set_solver. }
  assert (∀ x, x ∈ idle w → x ≠ b → x ∈ idle w0) as Ei'.
  { subst w0. destruct late; simpl; set_solver. }
  clearbody w0. constructor; simpl; rewrite ?Em, ?Es.
  - intros j mj. rewrite lookup_insert_Some. intros [[-> ->]|[Hne Hj]]; [done|].
    apply manager_ok_other; [by apply Hi|]. intros E.
    destruct (mo_lease _ _ _ (li_managers _ Hi j mj Hj) o E) as (_ & s1 & Hs1 & _). congruence.
  - intros o2 s2. rewrite lookup_insert_Some. intros [[<- <-]|[Hne Hs2]].
    + constructor; simpl; rewrite ?Hc, ?Ho, ?Ed, ?Ec; try congruence.
      * intros Hf. split; [|done]. intros [[_ ?]|[? _]]%Ei; congruence.
      * intros Hf. exists m'. rewrite lookup_insert, decide_True by done. split; [done|]. left. destruct late; [congruence|by destruct Hl].
      * intros Hdt. rewrite Hq. destruct late; congruence.
      * intros Hun. exfalso. apply Hu. by left.
    + destruct (li_sessions _ Hi o2 s2 Hs2) as [H1 H2 H3 H4 H5 H6].
      constructor; simpl; rewrite ?Em, ?El, ?Ed, ?Ec; try done.
      * intros Hd2. destruct (H1 Hd2) as [? ?]. split; [|done].
        intros [[? _]|[_ ?]]%Ei; [done|]. by apply (Fs o2 s2).
      * intros Hd2. destruct (H2 Hd2) as (m2 & Hm2 & Hcase).
        destruct (decide (s_owner s2 = i)) as [E|E]; [|exists m2; by rewrite lookup_insert_ne].
        exists m'. rewrite E, lookup_insert, decide_True by done. split; [done|].
        assert (m2 = m) as -> by congruence. destruct Hcase as [Hle|]; [left|by right].
        destruct late; [congruence|]. destruct Hl. congruence.
  - constructor; simpl; rewrite ?El, ?Ed, ?Ec, ?Es.
    + intros x [[? _]|[_ ->]]%Ei ?; [set_solver|done].
    + intros b' Hb'. destruct (V2 b' Hb') as (Hbd & Hbi & Hcase). split; [done|].
      split; [intros [[? _]|[_ ->]]%Ei; [done|congruence]|].
      destruct Hcase as [|(o1 & s1 & Hs1 & Hc1 & Hd1 & Hh1)]; [by left|right].
      exists o1, s1. rewrite lookup_insert_ne by congruence. done.
    + intros o1 o2 s1 s2. rewrite !lookup_insert_Some.
      intros [[<- <-]|[? Hs1]] [[<- <-]|[? Hs2]]; [done| | |eauto].
      * intros _ Hd2 E. exfalso. apply (Fs o2 s2 Hs2 Hd2). congruence.
      * intros Hd1 _ E. exfalso. apply (Fs o1 s1 Hs1 Hd1). congruence.
Qed.

(** A session that stays checked out and its manager change together. *)
Lemma inv_both w i o s s' m m' : lease_inv w →
  sessions w !! o = Some s → managers w !! i = Some m → lease m = Some o → disposed s = false →
  client s' = client s → s_owner s' = i → disposed s' = false → (holds s' ↔ holds s) →
  (held s' = true → ¬ trying s') → (query s' = UnlockSent → held s' = true) →
  (lease m' = Some o ∨ (lease m' = None ∧ held s' = true ∧ unlocking s')) →
  manager_ok (<[o := s']> (sessions w)) i m' →
  lease_inv (with_manager i m' (with_session o s' w)).
Proof.
  intros Hi Hs Hm Hlo Hd Hc' Ho' Hd' Hh' Ht' Hu' Hl Hok.
  destruct (li_server _ Hi) as [V1 V2 V3].
  destruct (mo_lease _ _ _ (li_managers _ Hi i m Hm) o Hlo) as (_ & s0 & Hs0 & Hown & _).
  assert (s0 = s) as -> by congruence. constructor; simpl.
  - intros j mj. rewrite lookup_insert_Some. intros [[-> ->]|[Hne Hj]]; [done|].
    apply manager_ok_other; [by apply Hi|]. by eapply (other_lease w i).
  - intros o2 s2. rewrite lookup_insert_Some. intros [[<- <-]|[Hne Hs2]].
    + destruct (li_sessions _ Hi o s Hs) as [H1 H2 H3 H4 H5 H6].
      constructor; simpl; rewrite ?Hc'; auto; try (intros; congruence).
      * intros _. exists m'. rewrite Ho', lookup_insert, decide_True by done. naive_solver.
      * intros _ ?. apply H3; [done|]. by apply Hh'.
    + destruct (li_sessions _ Hi o2 s2 Hs2) as [H1 H2 H3 H4 H5 H6]. constructor; simpl; try done.
      intros Hd2. destruct (H2 Hd2) as (m2 & Hm2 & Hcase).
      destruct (decide (s_owner s2 = i)) as [E|E]; [|exists m2; by rewrite lookup_insert_ne].
      exists m'. rewrite E, lookup_insert, decide_True by done. split; [done|].
      assert (m2 = m) as -> by congruence. destruct Hcase as [Hle|]; [congruence|by right].
  - constructor; simpl; [done| |].
    + intros b Hb. destruct (V2 b Hb) as (? & ? & [?|(o1 & s1 & Hs1 & ? & ? & ?)]); split_and!; auto. right.
      destruct (decide (o1 = o)) as [->|].
      * assert (s1 = s) as -> by congruence. exists o, s'. rewrite lookup_insert, decide_True by done.
        split_and!; [done|congruence|done|by apply Hh'].
      * exists o1, s1. rewrite lookup_insert_ne by done. done.
    + intros o1 o2 s1 s2. rewrite !lookup_insert_Some.
      intros [[<- <-]|[? ?]] [[<- <-]|[? ?]]; rewrite ?Hc'; [done|eauto..].
Qed.

Lemma trying_not_unlocking s : trying s → ¬ unlocking s.
Proof. intros [H|[b H]] [H'|[b' H']]; congruence. Qed.

Lemma idle_query s : query s = NoQuery ∨ query s = PingSent → ¬ trying s ∧ ¬ unlocking s.
Proof. intros [H|H]; split; intros [H'|[b' H']]; congruence. Qed.

(** The server executes the query of a session. *)
Lemma inv_exec w o s q' l' : lease_inv w →
  let s' := set_session s (held s) (querying s) (disposed s) q' in
  sessions w !! o = Some s → client s ∉ dead w →
  (trying s ∧ trying s') ∨ (unlocking s ∧ unlocking s') → q' ≠ TrySent → q' ≠ UnlockSent →
  l' = lock w ∨ (lock w = None ∧ l' = Some (client s)) ∨
    (lock w = Some (client s) ∧ l' = None ∧ disposed s = false) →
  (disposed s = false → holds s' → l' = Some (client s)) →
  (l' = Some (client s) → client s ∈ closing w ∨ (disposed s = false ∧ holds s')) →
  lease_inv {| managers := managers w; sessions := <[o := s']> (sessions w); lock := l'; dead := dead w;
               idle := idle w; closing := closing w |}.
Proof.
  intros Hi s' Hs Hdead Hq Hn1 Hn2 Hl Hhold Hlock.
  destruct (li_server _ Hi) as [V1 V2 V3]. constructor; simpl.
  - intros j mj Hj. pose proof (li_managers _ Hi j mj Hj) as Hok. destruct (decide (lease mj = Some o)) as [E|E];
      [|by apply manager_ok_other].
    destruct (mo_lease _ _ _ Hok o E) as (Hr & s0 & Hs0 & L1 & L2 & L3 & L4).
    assert (s0 = s) as -> by congruence.
    destruct Hok. constructor; try done. intros o' Eo'. assert (o' = o) as -> by congruence. split; [done|].
    exists s'. rewrite lookup_insert, decide_True by done. split; [done|]. split_and!; try done.
    destruct (state mj); destruct L4 as [L4 L5].
    + split; [done|]. destruct Hq as [[_ ?]|[Hu _]]; [done|]. by destruct (trying_not_unlocking s).
    + exfalso. destruct (idle_query s L5). tauto.
  - intros o2 s2. rewrite lookup_insert_Some. intros [[<- <-]|[Hne Hs2]].
    + destruct (li_sessions _ Hi o s Hs) as [H1 H2 H3 H4 H5 H6]. constructor; simpl; try done.
      * intros Hf. destruct (H2 Hf) as (m & Hm & Hcase). exists m. split; [done|].
        destruct Hcase as [|[Hh Hu]]; [by left|right]. split; [done|]. destruct Hq as [[Ht _]|[_ ?]]; [|done].
        by destruct (H5 Hh).
      * auto.
      * intros Hh Ht. destruct Hq as [[Ht' _]|[_ Hu]]; [by apply (H5 Hh)|].
        by apply (trying_not_unlocking s').
    + destruct (li_sessions _ Hi o2 s2 Hs2) as [H1 H2 H3 H4 H5 H6]. constructor; simpl; try done.
      intros Hd2 Hh2 Hdd. specialize (H3 Hd2 Hh2 Hdd).
      destruct Hl as [->|[[? ->]|(Hlk & -> & Hds)]]; [done|congruence|].
      exfalso. apply Hne. apply (V3 o o2 s s2); auto. congruence.
  - constructor; simpl; [done| |].
    + intros b Hb. destruct (decide (b = client s)) as [->|Hb'].
      * split; [done|]. destruct (Hlock Hb) as [Hcl|[Hds Hh]].
        { split; [set_solver|by left]. }
        split; [by destruct (so_client _ _ _ (li_sessions _ Hi o s Hs) Hds)|].
        right. exists o, s'. by rewrite lookup_insert, decide_True.
      * assert (lock w = Some b) as Hb0 by (destruct Hl as [->|[[? ->]|(? & -> & ?)]]; congruence).
        destruct (V2 b Hb0) as (? & ? & [?|(o1 & s1 & Hs1 & ? & ? & ?)]); split_and!; auto. right.
        exists o1, s1. rewrite lookup_insert_ne by congruence. done.
    + intros o1 o2 s1 s2. rewrite !lookup_insert_Some.
      intros [[<- <-]|[? ?]] [[<- <-]|[? ?]]; simpl; [done|eauto..].
Qed.

Lemma inv_exec_try w o s : lease_inv w → sessions w !! o = Some s → query s = TrySent → client s ∉ dead w →
  lease_inv (exec_try o s w).
Proof.
  intros Hi Hs Hq Hdead. destruct (li_sessions _ Hi o s Hs) as [H1 H2 H3 H4 H5 H6].
  assert (held s = false) as Hh by (destruct (held s); [|done]; by destruct H5; [|left]).
  unfold exec_try. destruct (lock w) as [b|] eqn:El; simpl; [case_bool_decide as Eb|];
    (apply inv_exec; [done|done|done|left; split; [by left|right; eexists; done]|done|done| | |]); simpl;
    rewrite ?El; auto; try (subst; auto; fail); unfold holds; simpl; rewrite ?Hh.
  - intros _. destruct (disposed s) eqn:Ed; [left; specialize (H4 eq_refl Hq); set_solver|right; auto].
  - intros _ [[? _]|?]; congruence.
  - intros ?. congruence.
  - intros _. destruct (disposed s) eqn:Ed; [left; specialize (H4 eq_refl Hq); set_solver|right; auto].
Qed.

Lemma inv_exec_unlock w o s : lease_inv w → sessions w !! o = Some s → query s = UnlockSent → client s ∉ dead w →
  lease_inv (exec_unlock o s w).
Proof.
  intros Hi Hs Hq Hdead. destruct (li_sessions _ Hi o s Hs) as [H1 H2 H3 H4 H5 H6].
  destruct (H6 Hq) as [Hd Hh]. assert (lock w = Some (client s)) as El.
  { apply H3; [done| |done]. left. split; [done|congruence]. }
  unfold exec_unlock. rewrite bool_decide_eq_true_2 by done.
  apply inv_exec; [done|done|done|right; split; [by left|right; eexists; done]|done|done| | |]; simpl; auto; try done.
  intros _ [[_ ?]|?]; done.
Qed.

Lemma inv_backend_ends w b : lease_inv w → lease_inv (backend_ends b w).
Proof.
  intros Hi. destruct (li_server _ Hi) as [V1 V2 V3]. constructor; simpl; [apply Hi| |].
  - intros o s Hs. destruct (li_sessions _ Hi o s Hs) as [H1 H2 H3 H4 H5 H6]. constructor; simpl; try done.
    + intros Hd. destruct (H1 Hd). set_solver.
    + intros Hd Hh Hdd. assert (client s ≠ b) by set_solver. rewrite H3 by set_solver.
      rewrite bool_decide_eq_false_2; congruence.
    + intros Hd Hq. specialize (H4 Hd Hq). destruct (decide (client s = b)); set_solver.
  - constructor; simpl; [set_solver| |done].
    intros b' Hb'. case_bool_decide as Eb; [done|]. assert (b' ≠ b) by congruence.
    destruct (V2 b' Hb') as (? & ? & [?|?]); split_and!; [set_solver|done|left; set_solver|set_solver|done|by right].
Qed.

(** A manager without a lease is not leading. *)
Lemma no_lease_standby ss i m : manager_ok ss i m → lease m = None → state m = standby.
Proof. intros Hok Hl. destruct (state m) eqn:E; [done|]. destruct (mo_leader _ _ _ Hok E) as (o & ? & _). congruence. Qed.

(** The generation is abandoned and with it the lease: [stop] and [loseLease]. *)
Lemma manager_ok_abandon ss i m r stop : manager_ok ss i m →
  manager_ok ss i (set_manager m None (generation m + 1) r standby r None stop).
Proof.
  intros [M1 M2 M3 M4 [M5 M5'] M6 M7]. constructor; simpl; try done.
  - auto.
  - intros Ha. specialize (M5' _ Ha). lia.
  - split; [intros g Hg; specialize (M5 g Hg); lia|intros g Hg; specialize (M5' g Hg); lia].
  - intros ?. split_and!; [done|done|]. intros Hc. specialize (M5 _ Hc). lia.
Qed.

Lemma manager_ok_tryAcquire ss i m : retryTimer m = false → running m = true →
  manager_ok ss i (set_manager m (lease m) (generation m) (running m) (state m) true (heartbeatTimer m)
                     (stopping m)) →
  manager_ok ss i (tryAcquire m).
Proof.
  intros Hrt Er [M1 M2 M3 M4 [M5 M5'] M6 M7]. simpl in *. destruct (M7 eq_refl) as (_ & Hl & Hc).
  unfold tryAcquire. rewrite Er. simpl. rewrite bool_decide_eq_false_2; [|by intros Ha%M4; tauto].
  constructor; simpl; try done; try (intros; congruence).
  - right; right; left. left.
  - intros _. left. left.
  - split; [|intros g [= <-]; lia]. intros g [->|Hg]%elem_of_cons; [lia|auto].
Qed.

Lemma manager_ok_start ss i m : manager_ok ss i m → manager_ok ss i (start m).
Proof.
  intros Hok. unfold start. destruct (running m) eqn:Er; [done|].
  assert (lease m = None) as Hl.
  { destruct (lease m) as [o|] eqn:E; [|done]. destruct (mo_lease _ _ _ Hok o E). congruence. }
  assert (retryTimer m = false) as Ht.
  { destruct (retryTimer m) eqn:E; [|done]. destruct (mo_retry _ _ _ Hok E). congruence. }
  pose proof (no_lease_standby _ _ _ Hok Hl) as Hs. destruct Hok as [M1 M2 M3 M4 [M5 M5'] M6 M7].
  apply manager_ok_tryAcquire; [done|done|].
  constructor; simpl; try done; rewrite ?Hl, ?Hs; try done.
  - auto.
  - intros Ha. specialize (M5' _ Ha). lia.
  - split; [intros g Hg; specialize (M5 g Hg); lia|intros g Hg; specialize (M5' g Hg); lia].
  - intros _. split_and!; [done|done|]. intros Hc. specialize (M5 _ Hc). lia.
Qed.

Lemma manager_ok_retry ss i m : manager_ok ss i m → retryTimer m = true → manager_ok ss i (retry_fires m).
Proof.
  intros Hok Hr. destruct (mo_retry _ _ _ Hok Hr) as (? & _). apply manager_ok_tryAcquire; [done|done|].
  destruct Hok. constructor; simpl; auto.
Qed.

Lemma elem_remove (x g : Z) l : x ∈ List.remove Z.eq_dec g l ↔ x ∈ l ∧ x ≠ g.
Proof.
  rewrite !list_elem_of_In. split.
  - intros H. by apply List.in_remove in H.
  - intros [? ?]. by apply List.in_in_remove.
Qed.

(** A pending connection of another generation, or of a stopped manager, ends. *)
Lemma manager_ok_late ss i m g : manager_ok ss i m → (running m = true → generation m ≠ g) →
  manager_ok ss i (finish_acquisition g
    {| lease := lease m; generation := generation m; acquisition := acquisition m; running := running m;
       state := state m; retryTimer := retryTimer m; heartbeatTimer := heartbeatTimer m; stopping := stopping m;
       connecting := List.remove Z.eq_dec g (connecting m) |}).
Proof.
  intros [M1 M2 M3 M4 [M5 M5'] M6 M7] Hg. constructor; simpl; try done.
  - rewrite elem_remove. intros Hr. specialize (Hg Hr). naive_solver.
  - rewrite elem_remove. case_bool_decide as E; [done|]. intros Ha. destruct (M4 Ha) as [?|?]; [left|by right].
    split; congruence.
  - split; [|case_bool_decide; [done|exact M5']]. intros g'. rewrite elem_remove. intros [? _]; auto.
  - rewrite elem_remove. intros [Hc Hne]. auto.
  - rewrite elem_remove. naive_solver.
Qed.

Lemma manager_ok_noconnect ss i m g : manager_ok ss i m → g ∈ connecting m → manager_ok ss i (connect_failed g m).
Proof.
  intros Hok Hc. unfold connect_failed. destruct (running m && (generation m =? g)) eqn:E.
  - apply andb_true_iff in E as [Er <-%Z.eqb_eq]. pose proof (mo_conn _ _ _ Hok Hc) as Hl.
    pose proof (no_lease_standby _ _ _ Hok Hl) as Hs. destruct Hok as [M1 M2 M3 M4 [M5 M5'] M6 M7].
    unfold scheduleRetry. simpl. rewrite Er.
    constructor; simpl; rewrite ?Hs, ?Hl, ?elem_remove; try done; try tauto.
    + case_bool_decide; congruence.
    + split; [|case_bool_decide; [done|exact M5']]. intros g'. rewrite elem_remove. intros [? _]; auto.
  - apply manager_ok_late; [done|]. intros Hr. rewrite Hr in E. simpl in E. by apply Z.eqb_neq.
Qed.

Lemma inv_connected w i m o b g : lease_inv w → managers w !! i = Some m → g ∈ connecting m →
  sessions w !! o = None → available b w → lease_inv (connected i o b g m (take_client b w)).
Proof.
  intros Hi Hm Hc Hs Hav. pose proof (li_managers _ Hi i m Hm) as Hok. unfold connected, disposeSession. simpl.
  assert (lease m ≠ Some o) as Hlo.
  { intros E. destruct (mo_lease _ _ _ Hok o E) as (_ & s & Hs' & _). congruence. }
  destruct (negb (running m) || negb (generation m =? g)) eqn:E.
  - rewrite (bool_decide_eq_false_2 (lease m = Some o)) by done.
    apply (inv_connect w i o b {| client := b; s_owner := i; s_gen := g; held := false; querying := false;
      disposed := true; query := NoQuery |} m _ true Hi Hs Hm Hav); try done.
    + intros [?|[? ?]]; done.
    + intros [[? _]|?]; done.
    + apply manager_ok_other; [|done]. apply (manager_ok_late _ _ _ g Hok). intros Hr. rewrite Hr in E.
      simpl in E. by apply negb_true_iff, Z.eqb_neq in E.
  - apply orb_false_iff in E as [Er%negb_false_iff Eg%negb_false_iff]. apply Z.eqb_eq in Eg as <-.
    pose proof (mo_conn _ _ _ Hok Hc) as Hl. pose proof (no_lease_standby _ _ _ Hok Hl) as Hst.
    apply (inv_connect w i o b {| client := b; s_owner := i; s_gen := generation m; held := false; querying := true;
      disposed := false; query := TrySent |} m _ false Hi Hs Hm Hav); try done.
    + intros [?|[? ?]]; done.
    + intros [[? _]|?]; done.
    + destruct Hok as [M1 M2 M3 M4 [M5 M5'] M6 M7].
      constructor; simpl; rewrite ?Hst, ?elem_remove; try done; try tauto.
      * intros o' [= <-]. split; [done|]. eexists. rewrite lookup_insert, decide_True by done. split; [done|].
        split_and!; try done. by left.
      * intros _. by right; right; right.
      * intros _. by right.
      * split; [|exact M5']. intros g'. rewrite elem_remove. intros [? _]; auto.
Qed.

Lemma manager_ok_finish ss i m g : manager_ok ss i m → manager_ok ss i (finish_acquisition g m).
Proof.
  intros [M1 M2 M3 M4 [M5 M5'] M6 M7].
  constructor; simpl; try done; case_bool_decide; [done|exact M4|split; [exact M5|done]|split; [exact M5|exact M5']].
Qed.

Lemma isCurrent_lease m o s : isCurrent m o s = true ↔
  running m = true ∧ generation m = s_gen s ∧ lease m = Some o ∧ disposed s = false.
Proof. unfold isCurrent. rewrite !andb_true_iff, Z.eqb_eq, bool_decide_eq_true, negb_true_iff. tauto. Qed.

(** A session that is checked out is current or being unlocked. *)
Lemma live_session w o s m : lease_inv w → sessions w !! o = Some s → managers w !! s_owner s = Some m →
  disposed s = false → (isCurrent m o s = true ∧ lease_is (state m) (generation m) (s_owner s) s) ∨
    (isCurrent m o s = false ∧ lease m ≠ Some o ∧ held s = true ∧ unlocking s).
Proof.
  intros Hi Hs Hm Hd. destruct (decide (lease m = Some o)) as [Hl|Hl].
  - left. destruct (mo_lease _ _ _ (li_managers _ Hi _ m Hm) o Hl) as (Hr & s0 & Hs0 & Hls).
    assert (s0 = s) as -> by congruence. rewrite isCurrent_lease. destruct Hls as (? & ? & ? & ?). by split_and!.
  - right. destruct (so_owner _ _ _ (li_sessions _ Hi o s Hs) Hd) as (m0 & Hm0 & [?|?]); [congruence|].
    split; [|tauto]. apply not_true_iff_false. rewrite isCurrent_lease. tauto.
Qed.

(** A disposed session is inert: its last query may end. *)
Lemma inv_settle w o s s' m m' : lease_inv w → sessions w !! o = Some s → managers w !! s_owner s = Some m →
  disposed s = true → client s' = client s → s_owner s' = s_owner s → s_gen s' = s_gen s → held s' = held s →
  disposed s' = true → query s' = NoQuery → lease m' = lease m → manager_ok (sessions w) (s_owner s) m' →
  lease_inv (with_manager (s_owner s) m' (with_session o s' w)).
Proof.
  intros Hi Hs Hm Hd Hc Ho Hg Hh Hd' Hq Hl Hok. eapply inv_manager; [|exact Hm|exact Hl|].
  - destruct (idle_query s') as [? ?]; [by left|].
    eapply inv_session; eauto; try congruence. intros (_ & _ & ? & _). congruence.
  - apply manager_ok_other; [done|]. rewrite Hl. intros E.
    destruct (mo_lease _ _ _ (li_managers _ Hi _ m Hm) o E) as (_ & s0 & Hs0 & _ & _ & ? & _). congruence.
Qed.

(** [loseLease] on the current session. *)
Lemma inv_lose w i o s s' m m0 : lease_inv w → sessions w !! o = Some s → s_owner s = i → managers w !! i = Some m →
  isCurrent m o s = true → client s' = client s → s_owner s' = i → s_gen s' = s_gen s → held s' = held s →
  disposed s' = disposed s → (query s' = query s ∨ query s' = NoQuery) →
  lease m0 = lease m → generation m0 = generation m → running m0 = running m → manager_ok (sessions w) i m0 →
  lease_inv (loseLease i o s' m0 w).
Proof.
  intros Hi Hs <- Hm (Hr & Hg & Hl & Hd)%isCurrent_lease Hc Ho Hg' Hh Hd' Hq El Eg Er Hok.
  destruct (live_session w o s m Hi Hs Hm Hd) as [[_ (_ & _ & _ & Hst)]|(_ & ? & _)]; [|done].
  assert (¬ unlocking s ∧ (held s = true → ¬ trying s)) as [Hu Ht].
  { destruct (state m); destruct Hst as [Hh0 Hq0]; [split; [by apply trying_not_unlocking|congruence]|].
    destruct (idle_query s Hq0). auto. }
  unfold loseLease, disposeSession. rewrite (proj2 (isCurrent_lease m0 o s')) by (split_and!; congruence).
  rewrite Hd', Hd, Er, Hr, Eg, El, Hl. simpl. rewrite bool_decide_eq_true_2 by done.
  rewrite Hc. eapply inv_dispose; eauto; simpl; rewrite ?Hl, ?bool_decide_eq_true_2; try congruence; try done.
  - intros E. apply Hu. left. destruct Hq; congruence.
  - intros E [E'|[b E']]; apply (Ht ltac:(congruence)); destruct Hq as [Hq|Hq]; rewrite Hq in E';
      [by left|done|by right; eexists|done].
  - rewrite <- Eg. exact (manager_ok_abandon _ _ m0 true (stopping m0) Hok).
Qed.

(** The lock is not with a session that could not take it or gave it back. *)
Lemma not_holding w o s : lease_inv w → sessions w !! o = Some s → disposed s = false → ¬ holds s →
  lock w ≠ Some (client s).
Proof.
  intros Hi Hs Hd Hh Hl. destruct (li_server _ Hi) as [_ V2 V3].
  destruct (V2 _ Hl) as (_ & _ & [Hc|(o1 & s1 & Hs1 & Hc1 & Hd1 & Hh1)]).
  - by destruct (so_client _ _ _ (li_sessions _ Hi o s Hs) Hd).
  - assert (o1 = o) as -> by eauto. congruence.
Qed.

Lemma inv_try_response w o s m b : lease_inv w → sessions w !! o = Some s → managers w !! s_owner s = Some m →
  query s = TryDone b → lease_inv (try_response (s_owner s) o b s m w).
Proof.
  intros Hi Hs Hm Hq. pose proof (li_managers _ Hi _ m Hm) as Hok.
  pose proof (manager_ok_finish _ _ _ (s_gen s) Hok) as Hfin. unfold try_response.
  replace (isCurrent m o (set_session s (held s) false (disposed s) NoQuery)) with (isCurrent m o s) by done.
  assert (trying s) as Ht by (right; eauto).
  destruct (disposed s) eqn:Hd.
  { replace (isCurrent m o s) with false by (unfold isCurrent; rewrite Hd; by rewrite andb_false_r).
    unfold disposeSession. simpl. rewrite <- ?Hd. by eapply inv_settle; simpl. }
  destruct (live_session w o s m Hi Hs Hm Hd) as [[Hcur (_ & Hgen & _ & Hst)]|(_ & _ & _ & Hu)];
    [|by destruct (trying_not_unlocking s)].
  rewrite Hcur. apply isCurrent_lease in Hcur as (Hr & _ & Hl & _).
  assert (state m = standby ∧ held s = false) as [Est Hh].
  { destruct (state m); destruct Hst as [? Hqq]; [done|]. by destruct (idle_query s Hqq). }
  assert (generation m ∉ connecting m) as Hnc by (intros E%(mo_conn _ _ _ Hok); congruence).
  assert (retryTimer m = false) as Hrt.
  { destruct (retryTimer m) eqn:E; [|done]. destruct (mo_retry _ _ _ Hok E) as (_ & ? & _). congruence. }
  destruct b; simpl.
  - eapply inv_both; eauto; simpl; try done.
    + unfold holds. simpl. rewrite Hq. naive_solver.
    + intros _. apply idle_query. by left.
    + destruct Hok as [M1 M2 M3 M4 [M5 M5'] M6 M7]. constructor; simpl; try done.
      * intros o' E. assert (o' = o) as -> by congruence. split; [done|]. eexists.
        rewrite lookup_insert, decide_True by done. split; [done|]. split_and!; try done. by left.
      * intros _. exists o. rewrite Hgen. done.
      * by left.
      * rewrite Hgen. case_bool_decide; [done|]. intros ?. by destruct H.
      * split; [exact M5|]. case_bool_decide; [done|exact M5'].
  - unfold disposeSession, scheduleRetry. simpl. rewrite Hr, Hl. simpl. rewrite bool_decide_eq_true_2 by done.
    eapply inv_dispose; eauto; simpl; try done; rewrite ?Hl, ?bool_decide_eq_true_2; try done.
    + intros _. apply idle_query. by left.
    + intros _. split; [|done]. eapply not_holding; eauto. unfold holds. rewrite Hh, Hq. naive_solver.
    + destruct Hfin as [M1 M2 M3 M4 [M5 M5'] M6 M7]. constructor; simpl; try done; rewrite ?Est; auto.
      * done.
      * rewrite Hgen. by case_bool_decide.
Qed.

Lemma set_session_same s : set_session s (held s) (querying s) (disposed s) (query s) = s.
Proof. by destruct s. Qed.

Lemma with_same w i o m s : managers w !! i = Some m → sessions w !! o = Some s →
  with_manager i m (with_session o s w) = w.
Proof. intros Hm Hs. destruct w; unfold with_manager, with_session; simpl in *. by rewrite !insert_id. Qed.

(** [loseLease] on any session, its last query possibly over. *)
Lemma inv_lose_any w o s m m0 q qs : lease_inv w → sessions w !! o = Some s → managers w !! s_owner s = Some m →
  qs = NoQuery → ¬ unlocking s →
  lease m0 = lease m → generation m0 = generation m → running m0 = running m → manager_ok (sessions w) (s_owner s) m0 →
  lease_inv (loseLease (s_owner s) o (set_session s (held s) q (disposed s) qs) m0 w).
Proof.
  intros Hi Hs Hm -> Hu El Eg Er Hok. set (s' := set_session s (held s) q (disposed s) NoQuery).
  assert (isCurrent m0 o s' = isCurrent m o s) as Ec by (unfold isCurrent; by rewrite El, Eg, Er).
  destruct (isCurrent m o s) eqn:E.
  - eapply inv_lose; eauto.
  - unfold loseLease. rewrite Ec. destruct (disposed s) eqn:Hd; [by eapply inv_settle|].
    destruct (live_session w o s m Hi Hs Hm Hd) as [[? _]|(_ & _ & _ & ?)]; [congruence|done].
Qed.

Lemma inv_error_event w o s m : lease_inv w → sessions w !! o = Some s → managers w !! s_owner s = Some m →
  lease_inv (loseLease (s_owner s) o s m w).
Proof.
  intros Hi Hs Hm. pose proof (li_managers _ Hi _ m Hm). destruct (isCurrent m o s) eqn:E; [by eapply inv_lose; eauto|].
  unfold loseLease. rewrite E. by rewrite with_same.
Qed.

Lemma inv_heartbeat w i o s m : lease_inv w → sessions w !! o = Some s → managers w !! i = Some m →
  lease_inv (heartbeat o s m w).
Proof.
  intros Hi Hs Hm. unfold heartbeat. destruct (isCurrent m o s) eqn:E; [|done].
  apply isCurrent_lease in E as (_ & _ & Hl & Hd). case_bool_decide as Est; [|done]. destruct (querying s); [done|].
  simpl. destruct (mo_lease _ _ _ (li_managers _ Hi i m Hm) o Hl) as (_ & s0 & Hs0 & Hls).
  assert (s0 = s) as -> by congruence. destruct Hls as (_ & _ & _ & Hst). rewrite Est in Hst. destruct Hst as [Hh Hq].
  destruct (idle_query s Hq) as [Ht Hu]. eapply inv_session; eauto; simpl; try done.
  - intros _. split; [|done]. unfold holds. simpl. rewrite Hh.
    split; intros _; left; (split; [done|destruct Hq; congruence]).
  - intros [?|[? ?]]; done.
  - intros (? & ? & ? & ? & ?). split_and!; try done. by right.
Qed.

Lemma inv_heartbeat_ok w o s : lease_inv w → sessions w !! o = Some s → query s = PingSent →
  lease_inv (heartbeat_ok o s w).
Proof.
  intros Hi Hs Hq. destruct (idle_query s) as [Ht Hu]; [by right|].
  eapply inv_session; eauto; simpl; try done.
  - intros _. split; [|done]. unfold holds. simpl. rewrite Hq. naive_solver.
  - apply idle_query. by left.
  - intros (? & ? & ? & ? & ?). split_and!; try done. by left.
Qed.

Lemma inv_unlock_end w o s m b : lease_inv w → sessions w !! o = Some s → managers w !! s_owner s = Some m →
  unlocking s → (b = true → query s = UnlockDone true) → lease_inv (unlock_end (s_owner s) o b s m w).
Proof.
  intros Hi Hs Hm Hu Hb. pose proof (li_managers _ Hi _ m Hm) as Hok.
  assert (manager_ok (sessions w) (s_owner s) (set_manager m (lease m) (generation m) (running m) (state m)
    (retryTimer m) (heartbeatTimer m) false)) as Hok' by (by destruct Hok; constructor).
  unfold unlock_end, disposeSession. simpl. destruct (disposed s) eqn:Hd; [by eapply inv_settle; eauto|].
  destruct (live_session w o s m Hi Hs Hm Hd) as [[_ (_ & _ & _ & Hst)]|(_ & Hl & Hh & _)].
  { exfalso. destruct (state m); destruct Hst as [_ Hst]; [by apply (trying_not_unlocking s)|].
    by apply (idle_query s Hst). }
  rewrite (bool_decide_eq_false_2 (lease m = Some o)) by done.
  eapply inv_dispose; eauto; simpl; try done; rewrite ?bool_decide_eq_false_2; try done.
  - intros _. apply idle_query. by left.
  - intros Hb'. apply negb_false_iff in Hb'. split; [|done]. eapply not_holding; eauto.
    unfold holds. rewrite (Hb Hb'). naive_solver.
Qed.

Lemma inv_stop w i m : lease_inv w → managers w !! i = Some m → lease_inv (stop i m w).
Proof.
  intros Hi Hm. pose proof (li_managers _ Hi i m Hm) as Hok. unfold stop.
  destruct (stopping m || negb (running m)) eqn:E; [done|]. apply orb_false_iff in E as [_ Hr%negb_false_iff].
  assert (∀ b, manager_ok (sessions w) i (set_manager m None (generation m + 1) false standby false None b)) as Hab.
  { intros b. by apply manager_ok_abandon. }
  destruct (lease m) as [o|] eqn:Hl; [|by eapply inv_manager; eauto; simpl].
  destruct (mo_lease _ _ _ Hok o Hl) as (_ & s & Hs & Ho & Hg & Hd & Hst). rewrite Hs, Hd.
  assert (¬ unlocking s ∧ (held s = true → ¬ trying s ∧ holds s)) as [Hu Ht].
  { destruct (state m); destruct Hst as [Hh0 Hq0]; [split; [by apply trying_not_unlocking|congruence]|].
    destruct (idle_query s Hq0). split; [done|]. intros _. split; [done|]. left. split; [done|].
    destruct Hq0; congruence. }
  destruct (held s && negb (querying s)) eqn:Eh.
  - apply andb_true_iff in Eh as [Hh _]. eapply inv_both; eauto; simpl; try done.
    + destruct (Ht Hh) as [_ ?]. split; [done|]. intros _. left. by split.
    + intros _ [?|[? ?]]; done.
    + right. split; [done|]. split; [done|]. by left.
    + by apply manager_ok_other.
  - unfold disposeSession. rewrite Hd. simpl. eapply inv_dispose; eauto; simpl; try done.
    + intros E. apply Hu. by left.
    + intros E. by apply Ht.
    + by rewrite Hl, bool_decide_eq_true_2.
Qed.

Lemma inv_new w i : lease_inv w → managers w !! i = None → lease_inv (with_manager i new_WorkerLeaseManager w).
Proof.
  intros Hi Hm. constructor; simpl; [|intros o s Hs|].
  - intros j mj. rewrite lookup_insert_Some. intros [[-> <-]|[Hne Hj]]; [|by apply Hi].
    constructor; simpl; try done; try (intros; by destruct (elem_of_nil (A:=Z) 0)).
    + split; [|done]. intros g Hg. by apply elem_of_nil in Hg.
  - destruct (li_sessions _ Hi o s Hs) as [H1 H2 H3 H4 H5 H6]. constructor; simpl; try done.
    intros Hd. destruct (H2 Hd) as (mj & Hmj & Hj). exists mj. split; [|done].
    rewrite lookup_insert_ne; [done|]. congruence.
  - by destruct (li_server _ Hi).
Qed.

(** Every step keeps the invariant. *)
Lemma lstep_inv w w' : lstep w w' → lease_inv w → lease_inv w'.
Proof.
  intros Hst Hi. destruct Hst.
  - by apply inv_new.
  - eapply inv_manager; eauto; [|by apply manager_ok_start, Hi]. unfold start, tryAcquire. by repeat case_match.
  - by apply inv_stop.
  - eapply inv_manager; eauto; [|by apply manager_ok_retry; [apply Hi|]]. unfold retry_fires, tryAcquire.
    by repeat case_match.
  - by apply inv_connected.
  - eapply inv_manager; eauto; [|by apply manager_ok_noconnect; [apply Hi|]].
    unfold connect_failed, scheduleRetry. by repeat case_match.
  - by apply inv_exec_try.
  - by apply inv_try_response.
  - eapply inv_lose_any; eauto; [by apply trying_not_unlocking|]. by apply manager_ok_finish, Hi.
  - by apply inv_error_event.
  - by eapply inv_heartbeat.
  - by apply inv_heartbeat_ok.
  - eapply inv_lose_any; eauto; [by apply idle_query; right|by apply Hi].
  - by apply inv_exec_unlock.
  - apply inv_unlock_end; auto; [right; eauto|]. by intros ->.
  - by apply inv_unlock_end.
  - by apply inv_backend_ends.
Qed.

Lemma reachable_inv w : lease_reachable w → lease_inv w.
Proof.
  intros Hr. unfold lease_reachable in Hr. remember initial_world as w0 eqn:E.
  assert (lease_inv w0) as H0.
  { subst w0. constructor; simpl; try (intros; by rewrite lookup_empty in *). constructor; simpl; [set_solver|done|].
    intros o1 o2 s1 s2. by rewrite lookup_empty. }
  clear E. induction Hr as [|x y z Hxy Hyz IH]; [done|]. apply IH. by eapply lstep_inv.
Qed.

(** ** Leadership *)

(** Manager [i] believes it leads, through the session [s] of a backend that
    has not ended. *)
Definition live_leader (w : world) (i : nat) (s : LeaseSession) : Prop :=
  ∃ m o, managers w !! i = Some m ∧ state m = leader ∧ lease m = Some o ∧ sessions w !! o = Some s ∧
    client s ∉ dead w.

Definition leads (w : world) (i : nat) : Prop := ∃ m, managers w !! i = Some m ∧ state m = leader.

Definition can_lead (w : world) (i : nat) : Prop := ∃ w', rtc lstep w w' ∧ leads w' i.

Lemma live_leader_lock w i s : lease_inv w → live_leader w i s → lock w = Some (client s) ∧ s_owner s = i ∧
  disposed s = false ∧ held s = true.
Proof.
  intros Hi (m & o & Hm & Est & Hl & Hs & Hdead).
  destruct (mo_lease _ _ _ (li_managers _ Hi i m Hm) o Hl) as (_ & s0 & Hs0 & Ho & _ & Hd & Hst).
  assert (s0 = s) as -> by congruence. rewrite Est in Hst. destruct Hst as [Hh Hq]. split_and!; try done.
  apply (so_lock _ _ _ (li_sessions _ Hi o s Hs)); [done| |done]. left. split; [done|]. destruct Hq; congruence.
Qed.

Lemma can_lead_step w w' i : lstep w w' → can_lead w' i → can_lead w i.
Proof. intros Hst (w2 & Hr & Hl). exists w2. split; [by eapply rtc_l|done]. Qed.

Lemma can_lead_tried w o s m : sessions w !! o = Some s → managers w !! s_owner s = Some m →
  isCurrent m o s = true → query s = TryDone true → can_lead w (s_owner s).
Proof.
  intros Hs Hm Hc Hq. eapply can_lead_step; [by eapply l_tried|]. eexists. split; [done|].
  unfold try_response. replace (isCurrent m o (set_session s (held s) false (disposed s) NoQuery)) with (isCurrent m o s) by done.
  rewrite Hc. eexists. simpl. by rewrite lookup_insert, decide_True.
Qed.

Lemma can_lead_try w o s m : sessions w !! o = Some s → managers w !! s_owner s = Some m →
  isCurrent m o s = true → query s = TrySent → client s ∉ dead w → lock w = None → can_lead w (s_owner s).
Proof.
  intros Hs Hm Hc Hq Hd Hl. eapply can_lead_step; [by eapply l_try|]. unfold exec_try. rewrite Hl.
  eapply (can_lead_tried _ o (set_session s (held s) (querying s) (disposed s) (TryDone true)) m); try done.
  simpl. by rewrite lookup_insert, decide_True.
Qed.

(** There is always a backend that nobody uses. *)
Lemma fresh_backend w : lock w = None → ∃ b, available b w ∧ b ∉ dead w.
Proof.
  intros Hl. set (used := elements (closing w) ++ elements (dead w) ++ (client <$> (map_to_list (sessions w)).*2)).
  pose proof (infinite_is_fresh used) as Hf. unfold used in Hf at 2.
  rewrite !elem_of_app, !elem_of_elements in Hf. exists (fresh used). split; [|tauto].
  right. split_and!; [tauto|tauto|congruence|]. intros o s Hs E. apply Hf. right; right.
  rewrite <- E. apply list_elem_of_fmap_2, list_elem_of_fmap. exists (o, s). split; [done|]. by apply elem_of_map_to_list.
Qed.

Lemma can_lead_connecting w i m : managers w !! i = Some m → running m = true → generation m ∈ connecting m →
  lock w = None → can_lead w i.
Proof.
  intros Hm Hr Hg Hl. destruct (fresh_backend w Hl) as (b & Hav & Hdead).
  set (o := fresh (dom (sessions w))).
  assert (sessions w !! o = None) as Ho by apply not_elem_of_dom, is_fresh.
  eapply can_lead_step; [by eapply (l_connect w i m o b (generation m))|].
  unfold connected. rewrite Hr, Z.eqb_refl. simpl.
  match goal with |- can_lead (with_manager _ ?m' (with_session _ ?s' _)) _ => apply (can_lead_try _ o s' m') end;
    simpl; rewrite ?lookup_insert, ?decide_True; try done.
  by apply isCurrent_lease.
Qed.

Lemma can_lead_retry w i m : lease_inv w → managers w !! i = Some m → retryTimer m = true → lock w = None →
  can_lead w i.
Proof.
  intros Hi Hm Hr Hl. pose proof (li_managers _ Hi i m Hm) as Hok. destruct (mo_retry _ _ _ Hok Hr) as (Hrun & Hle & Hnc).
  eapply can_lead_step; [by eapply l_retry|]. unfold retry_fires, tryAcquire. simpl. rewrite Hrun. simpl.
  rewrite bool_decide_eq_false_2; [|by intros [?|[_ ?]]%(mo_acq _ _ _ Hok)].
  eapply can_lead_connecting; simpl; [by rewrite lookup_insert, decide_True|done| |done]. left.
Qed.

(** The current attempt of a standby can end in leadership or in a retry. *)
Lemma can_lead_lease w i m o : lease_inv w → managers w !! i = Some m → lease m = Some o → state m = standby →
  lock w = None → can_lead w i.
Proof.
  intros Hi Hm Hle Est Hl. destruct (mo_lease _ _ _ (li_managers _ Hi i m Hm) o Hle) as (Hr & s & Hs & <- & Hg & Hd & Hst).
  rewrite Est in Hst. destruct Hst as [Hh Ht].
  assert (isCurrent m o s = true) as Hc by (by apply isCurrent_lease).
  destruct (decide (query s = TryDone true)) as [?|Hnt]; [by eapply can_lead_tried|].
  destruct (decide (query s = TrySent ∧ client s ∉ dead w)) as [[? ?]|Hns]; [by eapply can_lead_try|].
  assert (lstep w (try_error (s_owner s) o s m w)) as Hstep by (by apply l_try_error).
  pose proof (lstep_inv _ _ Hstep Hi) as Hi'. eapply can_lead_step; [exact Hstep|].
  revert Hi'. unfold try_error, loseLease, disposeSession.
  rewrite (proj2 (isCurrent_lease (finish_acquisition (s_gen s) m) o
    (set_session s (held s) (querying s) (disposed s) NoQuery))) by done.
  simpl. rewrite Hd. intros Hi'. eapply can_lead_retry; [exact Hi'|simpl; by rewrite lookup_insert, decide_True|done|done].
Qed.

(** C6. At most one worker leads through a live database session, however the
    steps of the managers, the server and the network interleave, across stops,
    restarts, lost connections and late responses. A manager in state leader
    always has its heartbeat armed for a session that it has not disposed of;
    if the backend of that session has not ended, it is the one that holds the
    advisory lock, so two live leaders are the same manager. The lock never
    leaks: its holder is never a backend waiting in the pool, and it is either
    being destroyed or the client of a session that some manager still tracks. *)
Theorem single_live_leader w : lease_reachable w →
  (∀ i m, managers w !! i = Some m → state m = leader → ∃ o s, lease m = Some o ∧
     heartbeatTimer m = Some (o, generation m) ∧ sessions w !! o = Some s ∧ isCurrent m o s = true) ∧
  (∀ i s, live_leader w i s → lock w = Some (client s)) ∧
  (∀ i j s t, live_leader w i s → live_leader w j t → i = j) ∧
  (∀ b, lock w = Some b → b ∉ idle w ∧
     (b ∈ closing w ∨ ∃ o s, sessions w !! o = Some s ∧ client s = b ∧ disposed s = false)).
Proof.
  intros Hr. pose proof (reachable_inv w Hr) as Hi. split_and!.
  - intros i m Hm Est. pose proof (li_managers _ Hi i m Hm) as Hok. destruct (mo_leader _ _ _ Hok Est) as (o & Hl & Hb).
    destruct (mo_lease _ _ _ Hok o Hl) as (Hrun & s & Hs & _ & Hg & Hd & _). exists o, s.
    rewrite isCurrent_lease. by split_and!.
  - intros i s Hs. by apply (live_leader_lock w i s).
  - intros i j s t Hs Ht. destruct (live_leader_lock w i s Hi Hs) as (L1 & <- & D1 & _).
    destruct (live_leader_lock w j t Hi Ht) as (L2 & <- & D2 & _).
    destruct Hs as (? & o1 & _ & _ & _ & Hs & _), Ht as (? & o2 & _ & _ & _ & Ht & _).
    assert (o1 = o2) as -> by (eapply (sv_distinct _ (li_server _ Hi)); eauto; congruence). congruence.
  - intros b Hb. destruct (sv_lock _ (li_server _ Hi) b Hb) as (_ & ? & [?|(o & s & ? & ? & ? & _)]); eauto 10.
Qed.

(** C7. A running worker is never stuck: at every moment it leads, or its retry
    timer is armed, or a connection attempt or a lock query of its current
    generation is under way. Whenever the lock is free there is a sequence of
    steps after which it leads, so no history of errors, stops or late
    responses leaves a worker that waits for nothing. *)
Theorem worker_never_stuck w i m : lease_reachable w → managers w !! i = Some m → running m = true →
  (state m = leader ∨ retryTimer m = true ∨ generation m ∈ connecting m ∨
     ∃ o s, lease m = Some o ∧ sessions w !! o = Some s ∧ isCurrent m o s = true ∧ trying s) ∧
  (lock w = None → can_lead w i).
Proof.
  intros Hr Hm Hrun. pose proof (reachable_inv w Hr) as Hi. pose proof (li_managers _ Hi i m Hm) as Hok. split.
  - destruct (mo_going _ _ _ Hok Hrun) as [?|[?|[?|Hl]]]; auto. destruct (lease m) as [o|] eqn:El; [|done].
    destruct (mo_lease _ _ _ Hok o El) as (_ & s & Hs & _ & Hg & Hd & Hst). destruct (state m); [|by left].
    right; right; right. exists o, s. rewrite isCurrent_lease. split_and!; try done. by destruct Hst.
  - intros Hl. destruct (state m) eqn:Est; [|by exists w; split; [done|exists m]].
    destruct (mo_going _ _ _ Hok Hrun) as [?|[?|[?|Hle]]]; [congruence|by eapply can_lead_retry|by eapply can_lead_connecting|].
    destruct (lease m) as [o|] eqn:El; [|done]. by eapply can_lead_lease.
Qed.

(** *** A concrete run *)

(** Worker 1 leads through backend 7, worker 2 has just started and connects. *)
Definition worker_started : WorkerLeaseManager := Eval vm_compute in start new_WorkerLeaseManager.

Definition run_started : world := Eval vm_compute in
  with_manager 1 worker_started (with_manager 1 new_WorkerLeaseManager initial_world).

Definition run_connected : world := Eval vm_compute in
  connected 1 10 7 1 worker_started (take_client 7 run_started).

Definition run_session (q : query_state) : LeaseSession :=
  {| client := 7; s_owner := 1; s_gen := 1; held := false; querying := true; disposed := false; query := q |}.

Definition run_tried : world := Eval vm_compute in exec_try 10 (run_session TrySent) run_connected.

Definition run_manager : WorkerLeaseManager :=
  {| lease := Some 10%nat; generation := 1; acquisition := Some 1; running := true; state := standby;
     retryTimer := false; heartbeatTimer := None; stopping := false; connecting := [] |}.

Definition run_leads : world := Eval vm_compute in
  try_response 1 10 true (run_session (TryDone true)) run_manager run_tried.

Definition run_two : world := Eval vm_compute in
  with_manager 2 worker_started (with_manager 2 new_WorkerLeaseManager run_leads).

Lemma run_started_reachable : lease_reachable run_started.
Proof.
  eapply rtc_r; [eapply rtc_r; [apply rtc_refl|]|].
  - by apply (l_new initial_world 1).
  - replace run_started with (with_manager 1 (start new_WorkerLeaseManager) (with_manager 1 new_WorkerLeaseManager initial_world))
      by (vm_compute; reflexivity). by apply l_start.
Qed.

Lemma run_leads_reachable : lease_reachable run_leads.
Proof.
  eapply rtc_r; [eapply rtc_r; [eapply rtc_r; [apply run_started_reachable|]|]|].
  - replace run_connected with (connected 1 10 7 1 worker_started (take_client 7 run_started))
      by (vm_compute; reflexivity).
    apply (l_connect run_started 1 worker_started 10 7 1); [reflexivity|left|reflexivity|]. right. split_and!; [apply not_elem_of_empty|apply not_elem_of_empty|done|]. intros o s.
    by rewrite (lookup_empty o : sessions run_started !! o = None).
  - replace run_tried with (exec_try 10 (run_session TrySent) run_connected) by (vm_compute; reflexivity).
    apply (l_try run_connected 10 (run_session TrySent)); [reflexivity|reflexivity|]. apply not_elem_of_empty.
  - replace run_leads with (try_response (s_owner (run_session (TryDone true))) 10 true (run_session (TryDone true)) run_manager run_tried)
      by (vm_compute; reflexivity).
    by apply (l_tried run_tried 10 (run_session (TryDone true)) run_manager true).
Qed.

Lemma run_two_reachable : lease_reachable run_two.
Proof.
  eapply rtc_r; [eapply rtc_r; [apply run_leads_reachable|]|].
  - by apply (l_new run_leads 2).
  - replace run_two with (with_manager 2 (start new_WorkerLeaseManager) (with_manager 2 new_WorkerLeaseManager run_leads))
      by (vm_compute; reflexivity). by apply l_start.
Qed.

(** Worker 1 leads in the run, and no other worker can lead as long as backend 7 lives. *)
Lemma single_live_leader_witness : lock run_two = Some 7%nat ∧ ∀ j t, live_leader run_two j t → 1%nat = j.
Proof.
  assert (live_leader run_two 1 (set_session (run_session NoQuery) true false false NoQuery)) as H1.
  { eexists _, 10%nat. split_and!; try reflexivity. apply not_elem_of_empty. }
  destruct (single_live_leader run_two run_two_reachable) as (_ & H2 & H3 & _).
  split; [exact (H2 _ _ H1)|]. intros j t Ht. exact (H3 _ _ _ _ H1 Ht).
Defined.

(** The started worker waits for its connection, and can lead. *)
Lemma worker_never_stuck_witness : can_lead run_started 1.
Proof. apply (worker_never_stuck run_started 1 worker_started run_started_reachable); reflexivity. Defined.
