(* ===== verification/Ssrf.v ===== *)
(** * Outbound address checks

    [lib/ssrfProtection.ts]: the hostname lists, the IPv4 and IPv6 ranges and
    the two exported checks. [isIPv4] and [isIPv6] of [node:net] are written
    out; the URL parser is a parameter that gives the hostname of a URL. The
    logging of rejected URLs is left out. *)

From stdpp Require Import base option list strings.
From Stdlib Require Import ZArith Lia Ascii.
From S2P Require Import Prelude JsLib.

Open Scope Z_scope.

(** ** Tables *)

Definition BLOCKED_HOSTNAMES : list string :=
  ["localhost"; "localhost.localdomain"; "instance-data"; "instance-data.ec2.internal";
   "instance-data.eu-west-1.compute.internal"; "metadata.google.internal"; "metadata"].

Definition BLOCKED_HOSTNAME_SUFFIXES : list string :=
  [".local"; ".internal"; ".localhost"; ".ec2.internal"; ".compute.internal"; ".compute.amazonaws.com"].

Definition PRIVATE_IPV4_RANGES : list (Z * Z) :=
  [(0x00000000, 0x00ffffff); (0x0a000000, 0x0affffff); (0x7f000000, 0x7fffffff); (0xa9fe0000, 0xa9feffff);
   (0xac100000, 0xac1fffff); (0xc0a80000, 0xc0a8ffff); (0xe0000000, 0xefffffff); (0xf0000000, 0xffffffff)].

Definition PRIVATE_IPV6_RANGES : list (Z * Z) :=
  [(0x00000000000000000000000000000000, 0x00000000000000000000000000000001);
   (0x00000000000000000000000000000001, 0x00000000000000000000000000000001);
   (0xfe800000000000000000000000000000, 0xfebfffffffffffffffffffffffffffff);
   (0xfc000000000000000000000000000000, 0xfdffffffffffffffffffffffffffffff)].

Definition IPV4_MAPPED_PREFIX : Z := 0x00000000000000000000ffff00000000.
Definition IPV4_MAPPED_MASK : Z := 0x00000000000000000000ffffffffffff.

(** ** [node:net] *)

Definition dot : ascii := ".".
Definition colon : ascii := ":".

Definition octet (s : string) : bool :=
  str_forallb is_digit s && (1 <=? slen s) && (slen s <=? 3) && (BigInt s <=? 255) &&
  negb ((1 <? slen s) && startsWith s "0").

Definition isIPv4 (s : string) : bool :=
  match split_on dot s with
  | [a; b; c; d] => octet a && octet b && octet c && octet d
  | _ => false
  end.

Definition is_hex (c : ascii) : bool := match hex_val c with Some _ => true | None => false end.

Definition hextet (s : string) : bool := str_forallb is_hex s && (1 <=? slen s) && (slen s <=? 4).

(** The text before the first [::], and after it. *)
Fixpoint split_dcolon (s : string) : string * option string :=
  match s with
  | EmptyString => (EmptyString, None)
  | String c r =>
      if Ascii.eqb c colon && startsWith r colon then (EmptyString, Some (sliceFrom r 1))
      else let '(a, b) := split_dcolon r in (String c a, b)
  end.

(** The number of 16-bit groups in a list; the last may be an IPv4 address
    when [v4] says so. *)
Fixpoint count_groups (v4 : bool) (ps : list string) : option Z :=
  match ps with
  | [] => Some 0
  | [p] => if hextet p then Some 1 else if v4 && isIPv4 p then Some 2 else None
  | p :: ps' => if hextet p then Z.add 1 <$> count_groups v4 ps' else None
  end.

Definition groups_of (s : string) : list string :=
  match s with EmptyString => [] | _ => split_on colon s end.

Definition zone_char (c : ascii) : bool :=
  let n := code c in
  is_digit c || ((65 <=? n) && (n <=? 90)) || ((97 <=? n) && (n <=? 122)) || (n =? 45) || (n =? 46) || (n =? 58).

Definition isIPv6_bare (s : string) : bool :=
  match split_dcolon s with
  | (l, Some r) =>
      match count_groups false (groups_of l), count_groups true (groups_of r) with
      | Some m, Some n => m + n <=? 7
      | _, _ => false
      end
  | (_, None) => bool_decide (count_groups true (split_on colon s) = Some 8)
  end.

Definition isIPv6 (s : string) : bool :=
  match split_on "%" s with
  | [a] => isIPv6_bare a
  | [a; z] => isIPv6_bare a && (1 <=? slen z) && str_forallb zone_char z
  | _ => false
  end.

(** ** Helpers *)

(** Conversion to a signed 32-bit integer, [<<] and [>>> 0]. *)
Definition ToInt32 (x : Z) : Z := (x + 2 ^ 31) mod 2 ^ 32 - 2 ^ 31.
Definition shl32 (x n : Z) : Z := ToInt32 (Z.shiftl x n).
Definition ushr0 (x : Z) : Z := x mod 2 ^ 32.

(** [parseInt(octet, 10) & 0xff]; [NaN & 0xff] is 0. *)
Definition octet_bits (s : string) : Z := Z.land (default 0 (parseInt s 10)) 0xff.

Definition ipv4ToNumber (addr : string) : Z :=
  let octets := split_on dot addr in
  let o k := octet_bits (default EmptyString (octets !! k)) in
  ushr0 (Z.lor (Z.lor (Z.lor (shl32 (o 0%nat) 24) (shl32 (o 1%nat) 16)) (shl32 (o 2%nat) 8)) (o 3%nat)).

(** The match of [/:(\d+\.\d+\.\d+\.\d+)$/]: what follows the last colon. *)
Definition ipv4SuffixMatch (addr : string) : option string :=
  match split_on colon addr with
  | [] | [_] => None
  | ps =>
      match last ps with
      | Some p =>
          match split_on dot p with
          | [a; b; c; d] =>
              if forallb (λ x, (1 <=? slen x) && str_forallb is_digit x) [a; b; c; d] then Some p else None
          | _ => None
          end
      | None => None
      end
  end.

(** [filter(Boolean)]. *)
Definition truthy (s : string) : bool := negb (String.eqb s EmptyString).

(** [expandIPv6]; [None] is the [RangeError] of [Array(missing)]. *)
Definition expandIPv6 (addr : string) : option string :=
  let ipv4Suffix := ipv4SuffixMatch addr in
  let addrWithoutIpv4 :=
    match ipv4Suffix with Some p => sliceTo addr (slen addr - (slen p + 1)) | None => addr end in
  match split_dcolon addrWithoutIpv4 with
  | (_, None) => Some addr
  | (part0, Some rest) =>
      let part1 := fst (split_dcolon rest) in
      let left := List.filter truthy (groups_of part0) in
      let right := List.filter truthy (groups_of part1) in
      let totalGroups := Z.of_nat (length left) + Z.of_nat (length right) + (match ipv4Suffix with Some _ => 1 | None => 0 end) in
      let missing := 8 - totalGroups in
      if missing <? 0 then None
      else
        let expanded := left ++ replicate (Z.to_nat missing) "0" ++ right in
        Some (join_on colon (expanded ++ match ipv4Suffix with Some p => [p] | None => [] end))
  end.

(** [ipv6ToBigInt]; [None] is a [RangeError], of [expandIPv6] or of [BigInt(NaN)]. *)
Definition ipv6ToBigInt (addr : string) : option Z :=
  expanded ← expandIPv6 addr;
  foldl (λ acc part,
    result ← acc;
    n ← parseInt (if truthy part then part else "0") 16;
    Some (Z.lor (Z.shiftl result 16) n)) (Some 0) (split_on colon expanded).

Definition in_ranges (ranges : list (Z * Z)) (num : Z) : bool :=
  existsb (λ '(start, end_), (start <=? num) && (num <=? end_)) ranges.

Definition isPrivateIPv4 (addr : string) : bool := in_ranges PRIVATE_IPV4_RANGES (ipv4ToNumber addr).

Definition isPrivateIPv6 (addr : string) : option bool :=
  big ← ipv6ToBigInt addr;
  Some (in_ranges PRIVATE_IPV6_RANGES big ||
        ((Z.land big IPV4_MAPPED_MASK =? IPV4_MAPPED_PREFIX) &&
         in_ranges PRIVATE_IPV4_RANGES (Z.land big 0xffffffff))).

(** ** Public API *)

Inductive block_reason := private_ipv4 | private_ipv6 | blocked_hostname | blocked_suffix.

#[export] Instance block_reason_eq_dec : EqDecision block_reason.
Proof. solve_decision. Defined.

Inductive BlockedHostResult := allowed | blocked (reason : block_reason) (host : string).

#[export] Instance BlockedHostResult_eq_dec : EqDecision BlockedHostResult.
Proof. solve_decision. Defined.

(** The checks of a lower-case hostname; the two functions differ in the text
    that is read as an IPv6 address. [None] is an exception. *)
Definition check_lower (lower forIPv6 : string) : option BlockedHostResult :=
  if bool_decide (lower ∈ BLOCKED_HOSTNAMES) then Some (blocked blocked_hostname lower)
  else if existsb (endsWith lower) BLOCKED_HOSTNAME_SUFFIXES then Some (blocked blocked_suffix lower)
  else if isIPv4 lower then
    Some (if isPrivateIPv4 lower then blocked private_ipv4 lower else allowed)
  else if isIPv6 forIPv6 then
    p ← isPrivateIPv6 forIPv6; Some (if (p : bool) then blocked private_ipv6 lower else allowed)
  else Some allowed.

(** [checkHostBlocked]; [hostname_of] gives [new URL(url).hostname], or nothing
    when the constructor throws. *)
Definition checkHostBlocked (hostname_of : string → option string) (url : string) : option BlockedHostResult :=
  match hostname_of url with
  | None => Some allowed
  | Some h => let hostname := toLowerCase h in check_lower hostname hostname
  end.

Definition checkHostnameBlocked (hostname : string) : option BlockedHostResult :=
  let lower := toLowerCase hostname in
  let lowerForIPv6 :=
    if startsWith lower "[" && endsWith lower "]" then sliceTo (sliceFrom lower 1) (slen lower - 2) else lower in
  check_lower lower lowerForIPv6.

(** ** Characters of address literals *)

Definition ip_char (c : ascii) : bool :=
  is_hex c || Ascii.eqb c colon || Ascii.eqb c dot || Ascii.eqb c "[" || Ascii.eqb c "]".

Lemma str_forallb_impl (p q : ascii → bool) s : (∀ c, p c = true → q c = true) →
  str_forallb p s = true → str_forallb q s = true.
Proof. intros Hpq. induction s as [|c s IH]; simpl; [done|]. rewrite !andb_true_iff. intros [? ?]. auto. Qed.

(** An address literal is no name of the tables. *)
Lemma literal_not_named s : str_forallb ip_char s = true →
  bool_decide (s ∈ BLOCKED_HOSTNAMES) = false ∧ existsb (endsWith s) BLOCKED_HOSTNAME_SUFFIXES = false.
Proof.
  intros Hs. split.
  - apply bool_decide_eq_false_2. intros Hin.
    assert (Forall (λ n, str_forallb ip_char n = false) BLOCKED_HOSTNAMES) as Hf by repeat constructor.
    rewrite Forall_forall in Hf. specialize (Hf s Hin). simpl in Hf. congruence.
  - assert (Forall (λ n, str_forallb ip_char n = false) BLOCKED_HOSTNAME_SUFFIXES) as Hf by repeat constructor.
    induction Hf as [|t ts Ht Hts IH]; simpl; [done|]. rewrite IH, orb_false_r.
    apply not_true_iff_false. intros (u & ->)%endsWith_spec. rewrite str_forallb_app, andb_true_iff in Hs.
    destruct Hs. congruence.
Qed.

(** Lower-case hexadecimal text is unchanged by [toLowerCase]. *)
Definition lower_hex (c : ascii) : bool := is_hex c && negb ((65 <=? code c) && (code c <=? 90)).

Lemma toLowerCase_id s : str_forallb (λ c, negb ((65 <=? code c) && (code c <=? 90))) s = true → toLowerCase s = s.
Proof.
  induction s as [|c s IH]; simpl; [done|]. rewrite andb_true_iff, negb_true_iff. intros [Hc Hs].
  unfold lower_char. by rewrite Hc, IH.
Qed.

Lemma is_hex_digit c : is_digit c = true → is_hex c = true.
Proof. unfold is_hex, hex_val, is_digit. by intros ->. Qed.

Lemma is_hex_char c : is_hex c = true → Ascii.eqb c colon = false ∧ Ascii.eqb c dot = false ∧
  is_space c = false ∧ Ascii.eqb c "-" = false ∧ Ascii.eqb c "+" = false ∧ Ascii.eqb c "x" = false ∧
  Ascii.eqb c "X" = false ∧ Ascii.eqb c "%" = false.
Proof. destruct c as [[] [] [] [] [] [] [] []]; vm_compute; try discriminate; intros _; by split_and!. Qed.

(** ** IPv4 *)

Lemma lor_add a b n : 0 ≤ n → 0 ≤ b < 2 ^ n → Z.lor (a * 2 ^ n) b = a * 2 ^ n + b.
Proof.
  intros Hn Hb. assert (Z.land (a * 2 ^ n) b = 0) as Hz.
  { apply Z.bits_inj'. intros k Hk. rewrite Z.land_spec, Z.bits_0. destruct (Z.lt_ge_cases k n) as [Hkn|Hkn].
    - by rewrite Z.mul_pow2_bits_low.
    - destruct (Z.eq_dec b 0) as [->|]; [by rewrite Z.bits_0, andb_false_r|].
      rewrite (Z.bits_above_log2 b k), andb_false_r; [done|lia|].
      apply Z.lt_le_trans with n; [|lia]. apply Z.log2_lt_pow2; lia. }
  rewrite <- Z.lxor_lor by done. by rewrite <- Z.add_nocarry_lxor.
Qed.

(** [parseInt] on text that starts with a digit of the radix. *)
Lemma parseInt_plain s r n : str_forallb is_hex s = true → s ≠ EmptyString → radix_acc r 0 s = Some n →
  parseInt s r = Some n.
Proof.
  intros Hs Hne Hn. destruct s as [|c s]; [done|]. unfold parseInt.
  pose proof Hs as Hs'. simpl in Hs'. apply andb_true_iff in Hs' as [Hc Hs'].
  destruct (is_hex_char c Hc) as (_ & _ & Hsp & Hm & Hp & _).
  assert (trimStart (String c s) = String c s) as -> by (simpl; by rewrite Hsp).
  cbv zeta. simpl startsWith. rewrite Hm, Hp. change (false || false) with false. cbv iota.
  assert ((r =? 16) && (startsWithStr (String c s) "0x" || startsWithStr (String c s) "0X") = false) as ->.
  { apply andb_false_iff. right. apply not_true_iff_false.
    intros [[u E]%startsWithStr_spec|[u E]%startsWithStr_spec]%orb_true_iff; injection E as -> ->; done. }
  by rewrite (parse_digits_radix r (String c s) 0 n).
Qed.

Lemma octet_spec s : octet s = true → str_forallb is_digit s = true ∧ s ≠ EmptyString ∧ 0 ≤ BigInt s ≤ 255 ∧
  octet_bits s = BigInt s.
Proof.
  unfold octet. rewrite !andb_true_iff. intros [[[[Hd Hl] _] Hv] _]. breflect.
  assert (s ≠ EmptyString) as Hne by (by intros ->).
  pose proof (BigInt_bounds s Hd) as Hb. split_and!; [done|done|lia|lia|].
  unfold octet_bits. rewrite (parseInt_plain s 10 (BigInt s)); [|by eapply str_forallb_impl; [apply is_hex_digit|]|done|].
  - simpl. change 0xff with (Z.ones 8). rewrite Z.land_ones by lia. apply Z.mod_small. lia.
  - by apply radix_acc_digits.
Qed.

Lemma ushr0_lor x y : ushr0 (Z.lor x y) = Z.lor (ushr0 x) (ushr0 y).
Proof. unfold ushr0. rewrite <- !Z.land_ones by lia. apply Z.land_lor_distr_l. Qed.

Lemma ushr0_shl x n : 0 ≤ n → 0 ≤ x * 2 ^ n < 2 ^ 32 → ushr0 (shl32 x n) = x * 2 ^ n.
Proof.
  intros Hn Hx. unfold ushr0, shl32, ToInt32. rewrite Z.shiftl_mul_pow2 by done.
  rewrite Zminus_mod, Zmod_mod, <- Zminus_mod. rewrite Z.add_simpl_r. by apply Z.mod_small.
Qed.

Lemma ipv4ToNumber_spec s a b c d : split_on dot s = [a; b; c; d] →
  octet a = true → octet b = true → octet c = true → octet d = true →
  ipv4ToNumber s = ((BigInt a * 2 ^ 8 + BigInt b) * 2 ^ 8 + BigInt c) * 2 ^ 8 + BigInt d.
Proof.
  intros E (_ & _ & Ha & Ba)%octet_spec (_ & _ & Hb & Bb)%octet_spec (_ & _ & Hc & Bc)%octet_spec (_ & _ & Hd & Bd)%octet_spec.
  unfold ipv4ToNumber. rewrite E. cbv zeta. cbn [lookup list_lookup default from_option id]. rewrite Ba, Bb, Bc, Bd.
  rewrite !ushr0_lor, !ushr0_shl by lia. unfold ushr0. rewrite (Z.mod_small (BigInt d)) by lia.
  rewrite (lor_add (BigInt a) (BigInt b * 2 ^ 16) 24) by lia.
  replace (BigInt a * 2 ^ 24 + BigInt b * 2 ^ 16) with ((BigInt a * 2 ^ 8 + BigInt b) * 2 ^ 16) by lia.
  rewrite (lor_add _ (BigInt c * 2 ^ 8)) by lia.
  replace (_ * 2 ^ 16 + BigInt c * 2 ^ 8) with (((BigInt a * 2 ^ 8 + BigInt b) * 2 ^ 8 + BigInt c) * 2 ^ 8) by lia.
  by rewrite lor_add by lia.
Qed.

(** The private and reserved ranges, by octets: 0/8, 10/8, 127/8, 169.254/16,
    172.16/12, 192.168/16, 224/4 and 240/4. *)
Definition private4 (a b : Z) : bool :=
  (a =? 0) || (a =? 10) || (a =? 127) || ((a =? 169) && (b =? 254)) ||
  ((a =? 172) && (16 <=? b) && (b <=? 31)) || ((a =? 192) && (b =? 168)) || (224 <=? a).

Lemma in_ranges4 a b c d : 0 ≤ a ≤ 255 → 0 ≤ b ≤ 255 → 0 ≤ c ≤ 255 → 0 ≤ d ≤ 255 →
  in_ranges PRIVATE_IPV4_RANGES (((a * 2 ^ 8 + b) * 2 ^ 8 + c) * 2 ^ 8 + d) = private4 a b.
Proof.
  intros Ha Hb Hc Hd. apply eq_bool_prop_intro. rewrite !Is_true_true. unfold in_ranges, private4, PRIVATE_IPV4_RANGES.
  cbn [existsb]. rewrite !orb_true_iff, !andb_true_iff, !Z.leb_le, !Z.eqb_eq. lia.
Qed.

Lemma isIPv4_inv s : isIPv4 s = true → ∃ a b c d, split_on dot s = [a; b; c; d] ∧ octet a = true ∧ octet b = true ∧
  octet c = true ∧ octet d = true.
Proof.
  unfold isIPv4. destruct (split_on dot s) as [|a [|b [|c [|d [|]]]]]; try done.
  rewrite !andb_true_iff. intros [[[? ?] ?] ?]. eauto 10.
Qed.

(** The characters of an IPv4 literal. *)
Lemma isIPv4_chars s : isIPv4 s = true → str_forallb (λ c, is_digit c || Ascii.eqb c dot) s = true.
Proof.
  intros (a & b & c & d & E & Ha & Hb & Hc & Hd)%isIPv4_inv. destruct (split_on_join dot s) as [Hj _].
  rewrite <- Hj, E. cbn [join_on].
  assert (∀ x, octet x = true → str_forallb (λ c, is_digit c || Ascii.eqb c dot) x = true) as Hx.
  { intros x (Hx & _)%octet_spec. eapply str_forallb_impl; [|exact Hx]. by intros c' ->. }
  rewrite !str_forallb_app. simpl. rewrite !str_forallb_app. simpl. rewrite !str_forallb_app. simpl.
  by rewrite !Hx.
Qed.

(** ** IPv6 *)

(** A group of one to four lower-case hexadecimal digits, and its value. *)
Definition group (s : string) : Prop := str_forallb lower_hex s = true ∧ 1 ≤ slen s ≤ 4.

Definition group_val (s : string) : Z := default 0 (radix_acc 16 0 s).

(** The ways to write an address of eight groups: in full, or with [::] for
    one or more groups of zeros. *)
Inductive written : string → list string → Prop :=
| written_full ps : length ps = 8%nat → Forall group ps → written (join_on colon ps) ps
| written_short l r : (length l + length r ≤ 7)%nat → Forall group l → Forall group r →
    written (join_on colon l +:+ "::" +:+ join_on colon r)
            (l ++ replicate (8 - (length l + length r)) "0" ++ r).

Lemma lower_hex_hex c : lower_hex c = true → is_hex c = true.
Proof. unfold lower_hex. by intros [? _]%andb_true_iff. Qed.

Lemma group_facts s : group s → str_forallb is_hex s = true ∧ s ≠ EmptyString ∧ no_char colon s ∧ hextet s = true.
Proof.
  intros [Hs Hl]. assert (str_forallb is_hex s = true) as Hx by (by eapply str_forallb_impl; [apply lower_hex_hex|]).
  split_and!; [done|intros ->; unfold slen in Hl; simpl in Hl; lia| |].
  - unfold no_char. eapply str_forallb_impl; [|exact Hx]. intros c Hc. destruct (is_hex_char c Hc) as [-> _]. done.
  - unfold hextet. rewrite Hx. simpl. apply andb_true_iff. split; apply Z.leb_le; lia.
Qed.

Lemma radix_acc_hex s : str_forallb is_hex s = true → ∀ acc, ∃ v,
  radix_acc 16 acc s = Some (acc * 16 ^ slen s + v) ∧ 0 ≤ v < 16 ^ slen s.
Proof.
  induction s as [|c s IH]; simpl; [exists 0; split; [f_equal; unfold slen; simpl; lia|done]|].
  rewrite andb_true_iff. intros [Hc Hs] acc. unfold is_hex in Hc. destruct (hex_val c) as [d|] eqn:E; [|done].
  assert (0 ≤ d < 16) as Hd.
  { unfold hex_val in E. repeat case_match; simplify_eq; breflect; lia. }
  destruct (Z.ltb_spec d 16); [|lia]. destruct (IH Hs (16 * acc + d)) as (v & -> & Hv).
  exists (d * 16 ^ slen s + v). rewrite slen_cons, Z.pow_add_r by (pose proof (slen_nonneg s); lia).
  split; [f_equal; lia|]. nia.
Qed.

Lemma group_value s : group s → parseInt s 16 = Some (group_val s) ∧ 0 ≤ group_val s < 2 ^ 16.
Proof.
  intros Hg. destruct (group_facts s Hg) as (Hx & Hne & _). destruct (radix_acc_hex s Hx 0) as (v & E & Hv).
  unfold group_val. rewrite E. split; [by apply parseInt_plain|]. simpl. destruct Hg as [_ Hl].
  assert (16 ^ slen s ≤ 16 ^ 4) by (apply Z.pow_le_mono_r; lia). lia.
Qed.

Lemma group_zero : group "0".
Proof. split; [done|]. by vm_compute. Qed.

Lemma split_dcolon_app p t : no_char colon p →
  split_dcolon (p +:+ t) = (p +:+ fst (split_dcolon t), snd (split_dcolon t)).
Proof.
  unfold no_char. induction p as [|c p IH]; simpl; [by destruct (split_dcolon t)|].
  intros [Hc Hp]%andb_true_iff. apply negb_true_iff in Hc. rewrite Hc, (IH Hp). done.
Qed.

Lemma join_on_cons p ps : ps ≠ [] → join_on colon (p :: ps) = p +:+ String colon (join_on colon ps).
Proof. by destruct ps. Qed.

Lemma group_start p ps t : group p → startsWith (join_on colon (p :: ps) +:+ t) colon = false.
Proof.
  intros (_ & Hne & Hc & _)%group_facts. destruct p as [|c p]; [done|].
  unfold no_char in Hc. simpl in Hc. apply andb_true_iff in Hc as [Hc%negb_true_iff _]. by destruct ps.
Qed.

(** What follows a list of groups is found by [split_dcolon]. *)
Lemma split_dcolon_join l t : Forall group l → startsWith t colon = false ∨ (∃ t', t = String colon (String colon t')) →
  l ≠ [] → split_dcolon (join_on colon l +:+ t) =
    (join_on colon l +:+ fst (split_dcolon t), snd (split_dcolon t)).
Proof.
  intros Hl Ht Hne. induction Hl as [|p l Hp Hl IH]; [done|]. destruct (group_facts p Hp) as (_ & _ & Hc & _).
  destruct l as [|q l]; [by apply split_dcolon_app|].
  rewrite join_on_cons by done. rewrite str_app_assoc, split_dcolon_app by done.
  cbn [String.append]. cbn [split_dcolon]. rewrite Ascii.eqb_refl. apply Forall_cons in Hl as Hq. destruct Hq as [Hq _].
  rewrite group_start by done. cbn [andb]. rewrite IH by done. cbn [fst snd]. by rewrite str_app_assoc.
Qed.

Lemma split_dcolon_short l t : Forall group l → split_dcolon (join_on colon l +:+ "::" +:+ t) = (join_on colon l, Some t).
Proof.
  intros Hl. destruct l as [|p l]; [done|].
  rewrite split_dcolon_join; [|done|right; by eexists|done]. simpl. by rewrite str_app_nil_r.
Qed.

Lemma split_dcolon_full l : Forall group l → split_dcolon (join_on colon l) = (join_on colon l, None).
Proof.
  intros Hl. destruct l as [|p l]; [done|].
  rewrite <- (str_app_nil_r (join_on colon (p :: l))) at 1. rewrite split_dcolon_join; [|done|by left|done]. simpl.
  by rewrite str_app_nil_r.
Qed.

Lemma groups_split l : Forall group l → l ≠ [] → split_on colon (join_on colon l) = l.
Proof. intros Hl Hne. apply join_on_split; [done|]. eapply Forall_impl; [exact Hl|]. by intros s (_ & _ & ? & _)%group_facts. Qed.

Lemma groups_of_join l : Forall group l → groups_of (join_on colon l) = l.
Proof.
  intros Hl. destruct l as [|p l]; [done|]. unfold groups_of.
  destruct (join_on colon (p :: l)) as [|c s] eqn:E; [|rewrite <- E; by apply groups_split].
  apply Forall_cons in Hl as [(_ & Hne & _)%group_facts _]. destruct p as [|c p]; [done|]. by destruct l.
Qed.

Lemma filter_truthy l : Forall group l → List.filter truthy l = l.
Proof.
  induction 1 as [|p l (_ & Hne & _)%group_facts Hl IH]; simpl; [done|]. rewrite IH.
  unfold truthy. by destruct (String.eqb_spec p EmptyString).
Qed.

Lemma split_on_forallb q c s : str_forallb q s = true → Forall (λ p, str_forallb q p = true) (split_on c s).
Proof.
  induction s as [|d s IH]; simpl; [by repeat constructor|]. rewrite andb_true_iff. intros [Hd Hs].
  specialize (IH Hs). destruct (Ascii.eqb d c); [by constructor|].
  destruct (split_on_cons c s) as (p & ps & E). rewrite E in *. apply Forall_cons in IH as [Hp ?].
  constructor; [|done]. simpl. by rewrite Hd.
Qed.

Lemma join_groups_chars l : Forall group l →
  str_forallb (λ c, lower_hex c || Ascii.eqb c colon) (join_on colon l) = true.
Proof.
  induction 1 as [|p l [Hp _] Hl IH]; [done|].
  assert (str_forallb (λ c, lower_hex c || Ascii.eqb c colon) p = true) as Hp'.
  { eapply str_forallb_impl; [|exact Hp]. by intros c ->. }
  destruct l as [|q l]; [done|]. rewrite join_on_cons, str_forallb_app, Hp' by done. cbn [str_forallb]. by rewrite IH.
Qed.

Lemma written_chars s gs : written s gs → str_forallb (λ c, lower_hex c || Ascii.eqb c colon) s = true.
Proof.
  intros [ps _ Hps|l r _ Hl Hr]; [by apply join_groups_chars|].
  rewrite !str_forallb_app, !join_groups_chars by done. done.
Qed.

Lemma written_groups s gs : written s gs → length gs = 8%nat ∧ Forall group gs.
Proof.
  intros [ps Hn Hps|l r Hn Hl Hr]; [done|]. rewrite !length_app, length_replicate. split; [lia|].
  rewrite !Forall_app. split_and!; [done|apply Forall_replicate, group_zero|done].
Qed.

Lemma written_no_suffix s gs : written s gs → ipv4SuffixMatch s = None.
Proof.
  intros Hw. unfold ipv4SuffixMatch.
  assert (Forall (λ p, split_on dot p = [p]) (split_on colon s)) as Hf.
  { eapply Forall_impl; [apply (split_on_forallb (λ d, negb (Ascii.eqb d dot)))|intros p; apply split_on_id].
    eapply str_forallb_impl; [|by eapply written_chars]. intros c [Hc%lower_hex_hex|Hc%Ascii.eqb_eq]%orb_true_iff; [|by subst c].
    destruct (is_hex_char c Hc) as (_ & -> & _). done. }
  destruct (split_on colon s) as [|p [|q ps]]; [done|done|].
  destruct (last (p :: q :: ps)) as [x|] eqn:E; [|done]. apply last_Some_elem_of in E.
  rewrite Forall_forall in Hf. by rewrite (Hf x E).
Qed.

Lemma expandIPv6_written s gs : written s gs → expandIPv6 s = Some (join_on colon gs).
Proof.
  intros Hw. unfold expandIPv6. rewrite (written_no_suffix s gs Hw). destruct Hw as [ps Hn Hps|l r Hn Hl Hr].
  - by rewrite split_dcolon_full.
  - rewrite split_dcolon_short, split_dcolon_full by done. cbn [fst].
    rewrite !groups_of_join, !filter_truthy by done.
    destruct (Z.ltb_spec (8 - (Z.of_nat (length l) + Z.of_nat (length r) + 0)) 0); [lia|].
    rewrite app_nil_r. do 5 f_equal. lia.
Qed.

Definition address_value (gs : list string) : Z := foldl (λ n g, n * 2 ^ 16 + group_val g) 0 gs.

Lemma ipv6ToBigInt_written s gs : written s gs → ipv6ToBigInt s = Some (address_value gs).
Proof.
  intros Hw. destruct (written_groups s gs Hw) as [Hn Hgs]. unfold ipv6ToBigInt.
  rewrite (expandIPv6_written s gs Hw). cbn [mbind option_bind]. rewrite groups_split; [|done|by intros ->].
  unfold address_value. generalize 0 as acc. clear Hw Hn. induction Hgs as [|g gs Hg Hgs IH]; intros acc; [done|].
  cbn [foldl]. destruct (group_facts g Hg) as (_ & Hne & _). destruct (group_value g Hg) as [Hp Hv].
  assert (truthy g = true) as -> by (unfold truthy; by destruct (String.eqb_spec g EmptyString)).
  cbn [mbind option_bind]. rewrite Hp. cbn [mbind option_bind].
  rewrite Z.shiftl_mul_pow2, lor_add by lia. apply IH.
Qed.

(** The addresses the check treats as private, by their eight groups: [::],
    [::1], fe80::/10 and fc00::/7, and every address whose groups 6 to 8 are
    ffff:0:0. *)
Definition private6 (v : list Z) : bool :=
  match v with
  | [v0; v1; v2; v3; v4; v5; v6; v7] =>
      (forallb (Z.eqb 0) [v0; v1; v2; v3; v4; v5; v6] && (v7 <=? 1)) ||
      ((0xfe80 <=? v0) && (v0 <=? 0xfebf)) || ((0xfc00 <=? v0) && (v0 <=? 0xfdff)) ||
      ((v5 =? 0xffff) && (v6 =? 0) && (v7 =? 0))
  | _ => false
  end.

Lemma private6_value v0 v1 v2 v3 v4 v5 v6 v7 :
  Forall (λ v, 0 ≤ v < 2 ^ 16) [v0; v1; v2; v3; v4; v5; v6; v7] →
  let big := foldl (λ n v, n * 2 ^ 16 + v) 0 [v0; v1; v2; v3; v4; v5; v6; v7] in
  (in_ranges PRIVATE_IPV6_RANGES big ||
   ((Z.land big IPV4_MAPPED_MASK =? IPV4_MAPPED_PREFIX) && in_ranges PRIVATE_IPV4_RANGES (Z.land big 0xffffffff))) =
  private6 [v0; v1; v2; v3; v4; v5; v6; v7].
Proof.
  rewrite !Forall_cons. intros (H0 & H1 & H2 & H3 & H4 & H5 & H6 & H7 & _) big. cbn [foldl] in big.
  assert (Z.land big IPV4_MAPPED_MASK = (v5 * 2 ^ 16 + v6) * 2 ^ 16 + v7) as ->.
  { change IPV4_MAPPED_MASK with (Z.ones 48). rewrite Z.land_ones by lia. subst big. symmetry.
    apply (Z.mod_unique _ _ ((((v0 * 2 ^ 16 + v1) * 2 ^ 16 + v2) * 2 ^ 16 + v3) * 2 ^ 16 + v4)); lia. }
  assert (Z.land big 0xffffffff = v6 * 2 ^ 16 + v7) as ->.
  { change 0xffffffff with (Z.ones 32). rewrite Z.land_ones by lia. subst big. symmetry.
    apply (Z.mod_unique _ _ (((((v0 * 2 ^ 16 + v1) * 2 ^ 16 + v2) * 2 ^ 16 + v3) * 2 ^ 16 + v4) * 2 ^ 16 + v5)); lia. }
  apply eq_bool_prop_intro. rewrite !Is_true_true.
  unfold in_ranges, private6, PRIVATE_IPV6_RANGES, PRIVATE_IPV4_RANGES, IPV4_MAPPED_PREFIX.
  cbn [existsb forallb]. rewrite !orb_true_iff, !andb_true_iff, !Z.leb_le, !Z.eqb_eq. subst big. lia.
Qed.

Lemma isPrivateIPv6_written s gs : written s gs → isPrivateIPv6 s = Some (private6 (group_val <$> gs)).
Proof.
  intros Hw. destruct (written_groups s gs Hw) as [Hn Hgs]. unfold isPrivateIPv6.
  rewrite (ipv6ToBigInt_written s gs Hw). cbn [mbind option_bind]. f_equal.
  assert (Forall (λ v, 0 ≤ v < 2 ^ 16) (group_val <$> gs)) as Hv.
  { apply Forall_fmap. eapply Forall_impl; [exact Hgs|]. by intros g [_ ?]%group_value. }
  destruct gs as [|g0 [|g1 [|g2 [|g3 [|g4 [|g5 [|g6 [|g7 [|]]]]]]]]]; try discriminate Hn.
  exact (private6_value _ _ _ _ _ _ _ _ Hv).
Qed.

(** *** The literals are recognised *)

Lemma count_groups_all v4 l : Forall group l → count_groups v4 l = Some (Z.of_nat (length l)).
Proof.
  induction 1 as [|p l (_ & _ & _ & Hp)%group_facts Hl IH]; [done|].
  destruct l as [|q l]; [simpl; by rewrite Hp|].
  change (count_groups v4 (p :: q :: l)) with (if hextet p then Z.add 1 <$> count_groups v4 (q :: l) else None).
  rewrite Hp, IH. cbn [fmap option_fmap option_map length]. f_equal. lia.
Qed.

Lemma isIPv6_written s gs : written s gs → isIPv6 s = true.
Proof.
  intros Hw. unfold isIPv6. rewrite split_on_id.
  - unfold isIPv6_bare. destruct Hw as [ps Hn Hps|l r Hn Hl Hr].
    + rewrite split_dcolon_full, groups_split, count_groups_all, Hn; try done. by intros ->.
    + rewrite split_dcolon_short, !groups_of_join, !count_groups_all by done. apply Z.leb_le. lia.
  - unfold no_char. eapply str_forallb_impl; [|by eapply written_chars].
    intros c [Hc%lower_hex_hex|Hc%Ascii.eqb_eq]%orb_true_iff; [|by subst c].
    destruct (is_hex_char c Hc) as (_ & _ & _ & _ & _ & _ & _ & ->). done.
Qed.

Lemma written_not_ipv4 s gs : written s gs → isIPv4 s = false.
Proof.
  intros Hw. apply not_true_iff_false. intros Hv%isIPv4_chars.
  assert (no_char colon s) as Hc.
  { eapply str_forallb_impl; [|exact Hv]. intros c [Hd|Hd%Ascii.eqb_eq]%orb_true_iff; [|by subst c].
    destruct (is_hex_char c (is_hex_digit c Hd)) as [-> _]. done. }
  destruct Hw as [ps Hn Hps|l r Hn Hl Hr].
  - apply split_on_id in Hc. rewrite groups_split in Hc by (done || by intros ->). by rewrite Hc in Hn.
  - pose proof (split_dcolon_app _ EmptyString Hc) as E. rewrite str_app_nil_r, split_dcolon_short in E by done.
    discriminate E.
Qed.

(** Text that starts with a bracket is no address. *)
Lemma bracket_no_ipv6 t : isIPv6 (String "[" t) = false.
Proof.
  assert (∀ p, isIPv6_bare (String "[" p) = false) as Hb.
  { intros p. unfold isIPv6_bare. simpl split_dcolon. destruct (split_dcolon p) as [a b].
    assert (∀ v4 q, count_groups v4 (split_on colon (String "[" q)) = None) as Hq.
    { intros v4 q. simpl. destruct (split_on_cons colon q) as (x & xs & ->).
      assert (isIPv4 (String "[" x) = false) as Hx by (apply not_true_iff_false; by intros ?%isIPv4_chars).
      simpl. rewrite Hx, andb_false_r. by destruct xs. }
    destruct b; [unfold groups_of; by rewrite Hq|by rewrite Hq]. }
  unfold isIPv6. simpl. destruct (split_on_cons "%" t) as (x & xs & ->). destruct xs as [|y [|]]; by rewrite ?Hb.
Qed.

Lemma bracketed_slice s : let t := String "[" (s +:+ "]") in
  startsWith t "[" && endsWith t "]" = true ∧ sliceTo (sliceFrom t 1) (slen t - 2) = s.
Proof.
  intros t. split.
  - apply andb_true_iff. split; [done|]. apply endsWith_spec. by exists (String "[" s).
  - unfold t. rewrite slen_cons, slen_app. change (slen "]") with 1.
    replace (1 + (slen s + 1) - 2) with (slen s) by lia. apply sliceTo_app.
Qed.

Lemma toLowerCase_app s t : toLowerCase (s +:+ t) = toLowerCase s +:+ toLowerCase t.
Proof. induction s as [|c s IH]; simpl; [done|]. by rewrite IH. Qed.

Lemma written_lower s gs : written s gs → toLowerCase s = s ∧ str_forallb ip_char s = true.
Proof.
  intros Hw%written_chars. split.
  - apply toLowerCase_id. eapply str_forallb_impl; [|exact Hw].
    intros c [[_ Hc]%andb_true_iff|Hc%Ascii.eqb_eq]%orb_true_iff; [done|by subst c].
  - eapply str_forallb_impl; [|exact Hw]. unfold ip_char. intros c [Hc%lower_hex_hex|Hc]%orb_true_iff; rewrite Hc; [done|].
    by rewrite orb_true_r.
Qed.

(** IPv4 literals are blocked exactly in the private, loopback, link-local,
    multicast and reserved ranges: for every hostname that is an IPv4 address
    with octets a.b.c.d, both checks answer private_ipv4 when a.b lies in 0/8,
    10/8, 127/8, 169.254/16, 172.16/12, 192.168/16, 224/4 or 240/4, and allow
    it otherwise; the shifts to a signed 32-bit integer lose nothing. *)
Theorem ssrf_ipv4_exact s : isIPv4 s = true → ∃ a b c d,
  split_on dot s = [a; b; c; d] ∧ Forall (λ o, 0 ≤ BigInt o ≤ 255) [a; b; c; d] ∧
  let r := if private4 (BigInt a) (BigInt b) then blocked private_ipv4 s else allowed in
  checkHostnameBlocked s = Some r ∧
  ∀ hostname_of url, hostname_of url = Some s → checkHostBlocked hostname_of url = Some r.
Proof.
  intros Hs. pose proof (isIPv4_chars s Hs) as Hch.
  destruct (isIPv4_inv s Hs) as (a & b & c & d & E & Ha & Hb & Hc & Hd). exists a, b, c, d.
  pose proof (ipv4ToNumber_spec s a b c d E Ha Hb Hc Hd) as Hn.
  apply octet_spec in Ha as (_ & _ & Ha & _), Hb as (_ & _ & Hb & _), Hc as (_ & _ & Hc & _), Hd as (_ & _ & Hd & _).
  split; [done|]. split; [by rewrite !Forall_cons|]. intros r.
  assert (toLowerCase s = s) as Hl.
  { apply toLowerCase_id. eapply str_forallb_impl; [|exact Hch].
    intros x [Hx|Hx%Ascii.eqb_eq]%orb_true_iff; [|by subst x]. unfold is_digit in Hx. breflect. lia. }
  destruct (literal_not_named s) as [N1 N2].
  { eapply str_forallb_impl; [|exact Hch]. unfold ip_char.
    intros x [Hx%is_hex_digit|Hx]%orb_true_iff; rewrite Hx; [done|]. by rewrite !orb_true_r. }
  assert (∀ t, check_lower s t = Some r) as Hr.
  { intros t. unfold check_lower. rewrite N1, N2, Hs. unfold isPrivateIPv4. by rewrite Hn, in_ranges4. }
  split; [unfold checkHostnameBlocked; rewrite Hl; apply Hr|].
  intros hostname_of url Hu. unfold checkHostBlocked. rewrite Hu, Hl. apply Hr.
Qed.

(** The metadata endpoint is blocked in a URL, a public resolver is not. *)
Lemma ssrf_ipv4_exact_witness :
  checkHostBlocked (λ _, Some "169.254.169.254") "http://169.254.169.254/latest/meta-data/" =
    Some (blocked private_ipv4 "169.254.169.254") ∧
  checkHostnameBlocked "8.8.8.8" = Some allowed.
Proof.
  split.
  - destruct (ssrf_ipv4_exact "169.254.169.254" eq_refl) as (a & b & c & d & E & _ & _ & H).
    injection E as <- <- <- <-. exact (H _ _ eq_refl).
  - destruct (ssrf_ipv4_exact "8.8.8.8" eq_refl) as (a & b & c & d & E & _ & H & _).
    injection E as <- <- <- <-. exact H.
Defined.

(** IPv6 literals in hexadecimal groups, in full or compressed with [::]:
    the expansion and the 128-bit value are right, so [checkHostnameBlocked]
    blocks them, bare or in brackets, exactly when they are [::], [::1], in
    fe80::/10 or fc00::/7, or end in ffff:0:0. The last case is all that is
    left of the IPv4-mapped check, which compares 48 bits with a prefix of 16.
    [checkHostBlocked] never blocks an IPv6 literal: a URL gives the hostname
    in brackets, which it does not take off. *)
Theorem ssrf_ipv6_exact s gs : written s gs →
  let t := String "[" (s +:+ "]") in
  let r host := if private6 (group_val <$> gs) then blocked private_ipv6 host else allowed in
  checkHostnameBlocked s = Some (r s) ∧ checkHostnameBlocked t = Some (r t) ∧
  ∀ hostname_of url, hostname_of url = Some t → checkHostBlocked hostname_of url = Some allowed.
Proof.
  intros Hw t r. destruct (written_lower s gs Hw) as [Hl Hch].
  assert (toLowerCase t = t) as Hlt by (unfold t; simpl; by rewrite toLowerCase_app, Hl).
  assert (str_forallb ip_char t = true) as Hcht by (unfold t; simpl; by rewrite str_forallb_app, Hch).
  assert (isIPv4 t = false) as Ht4 by (apply not_true_iff_false; by intros ?%isIPv4_chars).
  destruct (literal_not_named s Hch) as [N1 N2], (literal_not_named t Hcht) as [M1 M2].
  destruct (bracketed_slice s) as [B1 B2]. fold t in B1, B2.
  assert (startsWith s "[" = false) as Hb.
  { apply written_chars in Hw. destruct s as [|c s]; [done|]. simpl in Hw |- *.
    apply andb_true_iff in Hw as [Hc _]. destruct (Ascii.eqb_spec c "["); [by subst c|done]. }
  split_and!.
  - unfold checkHostnameBlocked, check_lower.
    rewrite Hl, Hb, N1, N2, (written_not_ipv4 s gs Hw). cbn [andb]. cbv zeta.
    by rewrite (isIPv6_written s gs Hw), (isPrivateIPv6_written s gs Hw).
  - unfold checkHostnameBlocked, check_lower.
    rewrite Hlt, B1, B2, M1, M2, Ht4, (isIPv6_written s gs Hw), (isPrivateIPv6_written s gs Hw). done.
  - intros hostname_of url Hu. unfold checkHostBlocked, check_lower. rewrite Hu, Hlt, M1, M2, Ht4.
    unfold t at 1. by rewrite bracket_no_ipv6.
Qed.

(** A link-local address, compressed: blocked as a hostname and let through in
    a URL; the mapped form of 10.0.0.1 is let through. *)
Lemma ssrf_ipv6_exact_witness :
  checkHostnameBlocked "[fe80::1]" = Some (blocked private_ipv6 "[fe80::1]") ∧
  checkHostBlocked (λ _, Some "[fe80::1]") "http://[fe80::1]/" = Some allowed ∧
  checkHostnameBlocked "::ffff:a00:1" = Some allowed.
Proof.
  assert (written "fe80::1" (["fe80"] ++ replicate 6 "0" ++ ["1"])) as Hw.
  { apply (written_short ["fe80"] ["1"]); [simpl; lia|repeat constructor..]; by vm_compute. }
  assert (written "::ffff:a00:1" ([] ++ replicate 5 "0" ++ ["ffff"; "a00"; "1"])) as Hm.
  { apply (written_short [] ["ffff"; "a00"; "1"]); [simpl; lia|repeat constructor..]; by vm_compute. }
  destruct (ssrf_ipv6_exact _ _ Hw) as (_ & H2 & H3). destruct (ssrf_ipv6_exact _ _ Hm) as (H4 & _ & _).
  split_and!; [exact H2|exact (H3 _ _ eq_refl)|exact H4].
Defined.
