(* ===== verification/Idempotency.v ===== *)
(** * Idempotency

    [db/repositories/idempotencyRepository.ts], [middleware/idempotency.ts],
    [services/idempotentConsumer.ts] and [lib/idempotencyGuard.ts]: stored
    responses with an expiry, the middleware that replays them, its in-process
    lock, the message consumer and the marker guard. SHA-256 is the parameter
    [sha256] and [JSON.parse] of a text the parameter [jsonParse]; logging and
    metrics counters of the process are left out, the guard's own counters are
    kept. Times are milliseconds. *)

From stdpp Require Import base option list gmap strings sorting.
From Stdlib Require Import ZArith Lia Ascii.
From S2P Require Import Prelude JsLib.

Open Scope Z_scope.

(** ** The repository *)

Module Repository.
Section Repository.
Context {B : Type}.

Record IdempotencyRecord := {
  actorId : string;
  requestHash : string;
  responseCode : Z;
  responseBody : B;
  expiresAt : Z;
  createdAt : Z
}.

(** The row of the key with [expires_at > NOW()], its body as the column has it. *)
Definition findByKey (now : Z) (key : string) (db : gmap string IdempotencyRecord) : option IdempotencyRecord :=
  match db !! key with
  | Some r => if now <? expiresAt r then Some r else None
  | None => None
  end.

Definition delete (key : string) (db : gmap string IdempotencyRecord) : gmap string IdempotencyRecord := base.delete key db.

Record CreateIdempotencyInput := {
  i_key : string;
  i_actorId : string;
  i_requestHash : string;
  i_responseCode : Z;
  i_responseBody : B;
  i_ttlSeconds : Z;
  i_expiresInSeconds : option Z
}.

Definition save (now : Z) (input : CreateIdempotencyInput) (db : gmap string IdempotencyRecord) : gmap string IdempotencyRecord :=
  if 400 <=? i_responseCode input then delete (i_key input) db
  else
    let ttlSeconds := default (i_ttlSeconds input) (i_expiresInSeconds input) in
    <[i_key input := {| actorId := i_actorId input; requestHash := i_requestHash input;
                        responseCode := i_responseCode input; responseBody := i_responseBody input;
                        expiresAt := now + ttlSeconds * 1000; createdAt := now |}]> db.

(** The rows left and the number of rows deleted. *)
Definition deleteExpired (now : Z) (db : gmap string IdempotencyRecord) : gmap string IdempotencyRecord * nat :=
  let live := filter (λ kr, now < expiresAt kr.2) db in (live, (size db - size live)%nat).

End Repository.
#[global] Arguments IdempotencyRecord : clear implicits.
#[global] Arguments CreateIdempotencyInput : clear implicits.

(** A value of the column [response_body]: a text, or another JSON value. *)
Inductive json (J : Type) := JString (s : string) | JOther (j : J).
#[global] Arguments JString {J} s.
#[global] Arguments JOther {J} j.

(** What [findByKey] makes of the column: a text is parsed once more, which may
    throw. *)
Definition read_body {J} (jsonParse : string → option (json J)) (b : json J) : option (json J) :=
  match b with JString s => jsonParse s | JOther j => Some (JOther j) end.
End Repository.

(** ** The middleware *)

Module Middleware.
Import Repository.
Section Middleware.
(** JSON values other than texts. A body is what its JSON text denotes; [None]
    is [undefined], which has none. *)
Context {J : Type}.
Variable sha256 : string → string.
Variable jsonParse : string → option (json J).

(** What the middleware reads of a request: the headers, the identities set by
    earlier middleware, and the canonical text of the body. *)
Record Request := {
  idempotency_key : option string;
  x_api_key : option string;
  authorization : option string;
  apiKey_id : option string;
  apiKeyRecord_id : option string;
  user_id : option string;
  canonical_body : string
}.

(** The value of an optional string when it is present and not empty. *)
Definition present (o : option string) : option string :=
  match o with Some EmptyString => None | _ => o end.

Definition extractProvisionalActorId (req : Request) : option string :=
  match present (x_api_key req) with
  | Some k => Some ("raw-key:" +:+ sha256 k)
  | None =>
      match authorization req with
      | Some h =>
          if startsWithStr h "Bearer " then
            match sliceFrom h 7 with
            | EmptyString => None
            | token => Some ("raw-token:" +:+ sha256 token)
            end
          else None
      | None => None
      end
  end.

Definition extractActorId (req : Request) : string :=
  match extractProvisionalActorId req with
  | Some a => a
  | None =>
      match present (apiKey_id req) with
      | Some a => a
      | None =>
          match present (apiKeyRecord_id req) with
          | Some a => a
          | None => default "anonymous" (present (user_id req))
          end
      end
  end.

Definition computeRequestHash (req : Request) : string := sha256 (canonical_body req).

Definition computeBoundKeyHash (actorId payloadHash : string) : string :=
  sha256 (actorId +:+ ":" +:+ payloadHash).

(** The loop of [constantTimeEquals] over two strings of one length. *)
Fixpoint xor_or (result : Z) (a b : string) : Z :=
  match a, b with
  | String c a', String d b' => xor_or (Z.lor result (Z.lxor (code c) (code d))) a' b'
  | _, _ => result
  end.

Definition constantTimeEquals (a b : string) : bool :=
  if negb (slen a =? slen b) then false else xor_or 0 a b =? 0.

(** What happens to a request: it goes on without a key, a stored response is
    sent, the key is refused (409), the handler runs and answers, or the error
    goes to the error handler. *)
Inductive outcome :=
| Passed
| Replayed (status : Z) (body : json J)
| Mismatch
| Executed (status : Z) (body : option (json J))
| NextError.

(** Which database calls of the middleware fail. *)
Record failures := { find_fails : bool; first_save_fails : bool; second_save_fails : bool }.

(** [repo.save(...).catch(...)] of an answer: the record of [undefined] is
    refused by the NOT NULL constraint, unless the answer is one that only
    deletes. *)
Definition save_unless (fails : bool) (now : Z) (key actor payloadHash : string) (status : Z) (body : option (json J))
    (ttlSeconds : Z) (db : gmap string (IdempotencyRecord (json J))) : gmap string (IdempotencyRecord (json J)) :=
  let save_value b := save now {| i_key := key; i_actorId := actor; i_requestHash := payloadHash; i_responseCode := status;
    i_responseBody := b; i_ttlSeconds := ttlSeconds; i_expiresInSeconds := Some ttlSeconds |} db in
  if fails then db else
  match body with
  | Some b => save_value b
  | None => if 400 <=? status then delete key db else db
  end.

(** The wrapped [res.json] with the status and body of the handler. *)
Definition wrapped_json (ttlSeconds now : Z) (io : failures) (key actor payloadHash : string) (status : Z)
    (body : option (json J)) (db : gmap string (IdempotencyRecord (json J))) : gmap string (IdempotencyRecord (json J)) :=
  if status <? 500 then
    let db1 := save_unless (first_save_fails io) now key actor payloadHash status body ttlSeconds db in
    if (status =? 401) || (status =? 403) then db1
    else save_unless (second_save_fails io) now key actor payloadHash status body ttlSeconds db1
  else db.

(** The middleware on a request that is looked up at [now], for a handler that
    answers [status] and [body] through [res.json] at [later]. *)
Definition idempotencyMiddleware (ttlSeconds now later : Z) (io : failures) (req : Request) (status : Z)
    (body : option (json J)) (db : gmap string (IdempotencyRecord (json J)))
    : outcome * gmap string (IdempotencyRecord (json J)) :=
  match present (idempotency_key req) with
  | None => (Passed, db)
  | Some key =>
      let actor := extractActorId req in
      let payloadHash := computeRequestHash req in
      let boundKeyHash := computeBoundKeyHash actor payloadHash in
      if find_fails io then (NextError, db) else
      match findByKey now key db with
      | Some existing =>
          match read_body jsonParse (responseBody existing) with
          | None => (NextError, db)
          | Some stored =>
              let storedBoundHash := computeBoundKeyHash (actorId existing) (requestHash existing) in
              if negb (constantTimeEquals boundKeyHash storedBoundHash) then (Mismatch, db)
              else (Replayed (responseCode existing) stored, db)
          end
      | None => (Executed status body, wrapped_json ttlSeconds later io key actor payloadHash status body db)
      end
  end.

(** *** Lemmas *)

Lemma xor_or_zero a b r : slen a = slen b → 0 ≤ r → xor_or r a b = 0 ↔ r = 0 ∧ a = b.
Proof.
  revert b r. induction a as [|c a IH]; intros [|d b] r Hl Hr; simpl.
  - tauto.
  - rewrite slen_cons in Hl. pose proof (slen_nonneg b). change (slen EmptyString) with 0 in Hl. lia.
  - rewrite slen_cons in Hl. pose proof (slen_nonneg a). change (slen EmptyString) with 0 in Hl. lia.
  - rewrite !slen_cons in Hl. assert (0 ≤ code c ∧ 0 ≤ code d) as [Hc Hd] by (unfold code; lia).
    rewrite IH; [|lia|apply Z.lor_nonneg; split; [done|]; apply Z.lxor_nonneg; lia].
    rewrite Z.lor_eq_0_iff, Z.lxor_eq_0_iff. unfold code.
    split.
    + intros [[-> E] ->]. split; [done|]. f_equal. rewrite <- (ascii_N_embedding c), <- (ascii_N_embedding d). f_equal. lia.
    + intros [-> E]. injection E as -> ->. done.
Qed.

Lemma constantTimeEquals_eq a b : constantTimeEquals a b = String.eqb a b.
Proof.
  unfold constantTimeEquals. destruct (Z.eqb_spec (slen a) (slen b)) as [E|E]; simpl.
  - destruct (String.eqb_spec a b) as [->|Hne].
    + apply Z.eqb_eq. by apply xor_or_zero.
    + apply Z.eqb_neq. intros [_ ?]%xor_or_zero; [done|done|lia].
  - destruct (String.eqb_spec a b) as [->|]; done.
Qed.

(** The text before the last colon and the text after it are determined. *)
Lemma bound_text_inj a h a' h' : no_char ":" h → no_char ":" h' →
  a +:+ ":" +:+ h = a' +:+ ":" +:+ h' → a = a' ∧ h = h'.
Proof.
  intros Hh Hh'. revert a'. induction a as [|c a IH]; intros [|d a'] E; simpl in E.
  - by injection E as ->.
  - injection E as <- E. exfalso. rewrite E in Hh. unfold no_char in Hh. by rewrite str_forallb_app, andb_false_r in Hh.
  - injection E as -> E. exfalso. rewrite <- E in Hh'. unfold no_char in Hh'. by rewrite str_forallb_app, andb_false_r in Hh'.
  - injection E as -> E. destruct (IH a' E) as [-> ->]. done.
Qed.

End Middleware.
#[global] Arguments outcome : clear implicits.
End Middleware.

(** ** Replay *)

Module Replay.
Import Repository Middleware.
Section Replay.
Context {J : Type}.
Variable sha256 : string → string.
Variable jsonParse : string → option (json J).

(** [digest('hex')] gives hexadecimal digits, so no colon. *)
Hypothesis digest_hex : ∀ s, no_char ":" (sha256 s).

Definition no_failures : failures := {| find_fails := false; first_save_fails := false; second_save_fails := false |}.

Definition collision : Prop := ∃ x y, x ≠ y ∧ sha256 x = sha256 y.

Definition same_binding (r1 r2 : Request) : Prop :=
  extractActorId sha256 r1 = extractActorId sha256 r2 ∧ canonical_body r1 = canonical_body r2.

Lemma bound_hash_binding r1 r2 :
  computeBoundKeyHash sha256 (extractActorId sha256 r1) (computeRequestHash sha256 r1) =
    computeBoundKeyHash sha256 (extractActorId sha256 r2) (computeRequestHash sha256 r2) →
  same_binding r1 r2 ∨ collision.
Proof.
  unfold computeBoundKeyHash, computeRequestHash. intros E.
  set (t1 := extractActorId sha256 r1 +:+ ":" +:+ sha256 (canonical_body r1)) in E.
  set (t2 := extractActorId sha256 r2 +:+ ":" +:+ sha256 (canonical_body r2)) in E.
  destruct (decide (t1 = t2)) as [Et|Et]; [|right; by exists t1, t2].
  apply bound_text_inj in Et as [Ea Eh]; [|apply digest_hex..].
  destruct (decide (canonical_body r1 = canonical_body r2)) as [Eb|Eb]; [by left|right; by eexists _, _].
Qed.

(** The record the wrapped [res.json] leaves for its key. *)
Lemma wrapped_json_key ttl later key actor payloadHash status (body : option (json J)) db :
  let db' := wrapped_json ttl later no_failures key actor payloadHash status body db in
  (∀ k, k ≠ key → db' !! k = db !! k) ∧
  db' !! key = (if status <? 400 then
                  match body with
                  | Some b => Some {| actorId := actor; requestHash := payloadHash; responseCode := status;
                      responseBody := b; expiresAt := later + ttl * 1000; createdAt := later |}
                  | None => db !! key
                  end
                else if status <? 500 then None else db !! key).
Proof.
  intros db'. unfold db', wrapped_json, save_unless, save, delete. simpl.
  destruct (Z.leb_spec 400 status) as [Hs|Hs].
  - destruct (Z.ltb_spec status 400); [lia|]. split.
    + intros k Hk. repeat case_match; by rewrite ?lookup_delete_ne.
    + repeat case_match; by rewrite ?lookup_delete_eq.
  - destruct (Z.ltb_spec status 500); [|lia]. destruct (Z.ltb_spec status 400); [|lia].
    replace ((status =? 401) || (status =? 403)) with false
      by (destruct (Z.eqb_spec status 401), (Z.eqb_spec status 403); lia || done).
    destruct body as [b|]; [|done]. split.
    + intros k Hk. by rewrite !lookup_insert_ne.
    + by rewrite lookup_insert, decide_True.
Qed.

End Replay.

(** A hexadecimal digest that is injective: two digits for each character. *)
Definition nibble (n : N) : ascii := if N.ltb n 10 then ascii_of_N (48 + n) else ascii_of_N (87 + n).

Fixpoint hex_encode (s : string) : string :=
  match s with
  | EmptyString => EmptyString
  | String c s' => String (nibble (N_of_ascii c / 16)) (String (nibble (N_of_ascii c mod 16)) (hex_encode s'))
  end.

Lemma hex_encode_hex s : no_char ":" (hex_encode s).
Proof.
  unfold no_char. induction s as [|c s IH]; [done|]. cbn [hex_encode str_forallb]. rewrite IH.
  by destruct c as [[] [] [] [] [] [] [] []].
Qed.

Definition payout_request (api_key body : string) : Request :=
  {| idempotency_key := Some "k-1"; x_api_key := Some api_key; authorization := None; apiKey_id := None;
     apiKeyRecord_id := None; user_id := None; canonical_body := body |}.

(** Objects as their texts; a text that starts with a brace denotes an object. *)
Definition parse_object (t : string) : option (json string) :=
  if startsWithStr t "{" then Some (JOther t) else None.
#[local] Notation middleware := (idempotencyMiddleware hex_encode parse_object).
Definition paid (t : string) : option (json string) := Some (JOther t).


(** An answer that is a bare text cannot be replayed: the retry gets an error. *)
Example text_answer_not_replayed :
  let db' := (middleware 86400 0 5 no_failures (payout_request "A" "{}") 201 (Some (JString "paid")) ∅).2 in
  (middleware 86400 10 11 no_failures (payout_request "A" "{}") 201 (paid "{paid:2}") db').1 = NextError.
Proof. by vm_compute. Qed.
End Replay.

(** ** The in-process lock of the middleware *)

Module InFlight.

(** [inFlightKeys] maps a key to the promise of its last holder. A promise is a
    number; [holders] are the requests that got their release function and did
    not call it, [waiting] those that await a promise, in order of arrival. *)
Record locks := {
  inFlightKeys : gmap string nat;
  holders : list (string * nat);
  waiting : list (string * nat);
  fresh_promise : nat
}.

Definition no_locks : locks := {| inFlightKeys := ∅; holders := []; waiting := []; fresh_promise := 0 |}.

(** [waitForInFlight] after its wait: a new promise, registered and held. *)
Definition hold (key : string) (s : locks) : locks :=
  {| inFlightKeys := <[key := fresh_promise s]> (inFlightKeys s);
     holders := (key, fresh_promise s) :: holders s; waiting := waiting s;
     fresh_promise := S (fresh_promise s) |}.

(** [waitForInFlight] up to its wait. *)
Definition waitForInFlight (key : string) (s : locks) : locks :=
  match inFlightKeys s !! key with
  | Some previous =>
      {| inFlightKeys := inFlightKeys s; holders := holders s; waiting := waiting s ++ [(key, previous)];
         fresh_promise := fresh_promise s |}
  | None => hold key s
  end.

(** The release function of promise [p] for [key]; the requests that await [p]
    go on at once, before another request can arrive. A second call does
    nothing. *)
Definition release (key : string) (p : nat) (s : locks) : locks :=
  if bool_decide ((key, p) ∈ holders s) then
    let s1 := {| inFlightKeys := if bool_decide (inFlightKeys s !! key = Some p) then delete key (inFlightKeys s)
                                 else inFlightKeys s;
                 holders := filter (λ h, h ≠ (key, p)) (holders s);
                 waiting := filter (λ h, h.2 ≠ p) (waiting s);
                 fresh_promise := fresh_promise s |} in
    foldl (λ s' h, hold h.1 s') s1 (filter (λ h, h.2 = p) (waiting s))
  else s.

Inductive event := Arrive (key : string) | Release (key : string) (p : nat).

Definition step (s : locks) (e : event) : locks :=
  match e with Arrive key => waitForInFlight key s | Release key p => release key p s end.

Definition run (es : list event) : locks := foldl step no_locks es.

Definition held_by (s : locks) (key : string) : list nat :=
  (filter (λ h, h.1 = key) (holders s)).*2.

Definition waiters (s : locks) (key : string) : list nat :=
  (filter (λ h, h.1 = key) (waiting s)).*2.

Record lock_ok (s : locks) : Prop := {
  lo_held key p : (key, p) ∈ holders s ↔ inFlightKeys s !! key = Some p;
  lo_fresh key p : (key, p) ∈ holders s → (p < fresh_promise s)%nat;
  lo_one key p key' : (key, p) ∈ holders s → (key', p) ∈ holders s → key = key';
  lo_waiting key p : (key, p) ∈ waiting s → (key, p) ∈ holders s;
  lo_nodup : NoDup (holders s)
}.

Lemma hold_ok key s : lock_ok s → inFlightKeys s !! key = None → lock_ok (hold key s).
Proof.
  intros [H1 H2 H3 H4 H5] Hn. constructor; simpl.
  - intros k p. rewrite elem_of_cons, lookup_insert_Some, H1. split.
    + intros [E|E]; [injection E as -> ->; by left|]. destruct (decide (key = k)) as [->|]; [congruence|by right].
    + intros [[-> ->]|[_ ?]]; [by left|by right].
  - intros k p [E|E]%elem_of_cons; [injection E as -> ->; lia|]. specialize (H2 _ _ E). lia.
  - intros k p k'. rewrite !elem_of_cons. intros [E|E] [E'|E']; simplify_eq; try done; [| |by eapply H3].
    + specialize (H2 _ _ E'). lia.
    + specialize (H2 _ _ E). lia.
  - intros k p Hk. right. by apply H4.
  - constructor; [|done]. intros E. specialize (H2 _ _ E). lia.
Qed.

Lemma length_filter_mono {A} (P Q : A → Prop) `{∀ x, Decision (P x), ∀ x, Decision (Q x)} l :
  (∀ x, x ∈ l → P x → Q x) → (length (filter P l) ≤ length (filter Q l))%nat.
Proof.
  induction l as [|a l IH]; intros HPQ; [done|]. rewrite !filter_cons.
  assert (length (filter P l) ≤ length (filter Q l))%nat by (apply IH; intros; apply HPQ; [by right|done]).
  repeat case_decide; simpl; try lia. match goal with H : ¬ Q a |- _ => destruct H end. apply HPQ; [left|done].
Qed.

Lemma one_holder s key : lock_ok s → (length (held_by s key) ≤ 1)%nat.
Proof.
  intros [H1 _ _ _ H5]. unfold held_by. rewrite length_fmap.
  destruct (filter (λ h, h.1 = key) (holders s)) as [|[k1 p1] [|[k2 p2] l]] eqn:E; simpl; [lia|lia|].
  exfalso. assert (NoDup ((k1, p1) :: (k2, p2) :: l)) as Hnd by (rewrite <- E; by apply NoDup_filter).
  assert ((k1, p1) ∈ filter (λ h, h.1 = key) (holders s) ∧ (k2, p2) ∈ filter (λ h, h.1 = key) (holders s)) as [I1 I2].
  { rewrite E. split; [left|right; left]. }
  apply list_elem_of_filter in I1 as [<- I1], I2 as [E2 I2]. simpl in E2. subst k2.
  apply H1 in I1, I2. apply NoDup_cons in Hnd as [Hn _]. apply Hn. rewrite I1 in I2. injection I2 as <-. left.
Qed.

Lemma release_ok key p s : lock_ok s → (length (waiters s key) ≤ 1)%nat → lock_ok (release key p s).
Proof.
  intros Hok Hw. pose proof Hok as [H1 H2 H3 H4 H5]. unfold release. case_bool_decide as Hin; [|done].
  rewrite (bool_decide_eq_true_2 (inFlightKeys s !! key = Some p)) by (by apply H1).
  set (s1 := {| inFlightKeys := _ |}).
  assert (lock_ok s1 ∧ inFlightKeys s1 !! key = None) as [Hs1 Hn].
  { split; [|simpl; apply lookup_delete_eq]. constructor; simpl.
    - intros k q. rewrite list_elem_of_filter, lookup_delete_Some, H1. split.
      + intros [Hne Hk]. split; [|done]. intros <-. apply Hne. apply H1 in Hin. congruence.
      + intros [Hne Hk]. split; [congruence|done].
    - intros k q [_ Hk]%list_elem_of_filter. eauto.
    - intros k q k' [_ ?]%list_elem_of_filter [_ ?]%list_elem_of_filter. eauto.
    - intros k q [Hne Hk]%list_elem_of_filter. apply list_elem_of_filter. split; [|auto]. simpl in Hne. congruence.
    - by apply NoDup_filter. }
  assert (Forall (λ h, h.1 = key) (filter (λ h, h.2 = p) (waiting s))) as Hkeys.
  { apply Forall_forall. intros [k q] [Hq Hk]%list_elem_of_filter. simpl in *. subst q. eauto. }
  assert (length (filter (λ h, h.2 = p) (waiting s)) ≤ 1)%nat as Hlen.
  { etrans; [|exact Hw]. unfold waiters. rewrite length_fmap.
    apply length_filter_mono. intros h Hh Hp. rewrite Forall_forall in Hkeys. apply Hkeys.
    by apply list_elem_of_filter. }
  destruct (filter (λ h, h.2 = p) (waiting s)) as [|[k q] [|]]; simpl in *; [done| |lia].
  apply Forall_cons in Hkeys as [E _]. simpl in E. subst k. by apply hold_ok.
Qed.

Lemma arrive_ok key s : lock_ok s → lock_ok (waitForInFlight key s).
Proof.
  intros Hok. unfold waitForInFlight. destruct (inFlightKeys s !! key) as [p|] eqn:E; [|by apply hold_ok].
  destruct Hok as [H1 H2 H3 H4 H5]. constructor; simpl; try done.
  intros k q [Hk|Hk]%elem_of_app; [by apply H4|]. apply list_elem_of_singleton in Hk. injection Hk as -> ->. by apply H1.
Qed.

(** Three requests with one key: the first holds the lock, two wait. *)
Definition three_requests (key : string) : list event := [Arrive key; Arrive key; Arrive key; Release key 0].

(** The in-process lock serialises the requests of a key as long as never
    more than one of them waits: then at most one holds it, whatever the other
    keys do. With two waiting requests it does not: when the holder releases,
    both go on, and both hold the lock at once, since a request that was woken
    does not look at the map again. *)
Theorem inflight_mutex :
  (∀ es, (∀ es1 es2 key, es = es1 ++ es2 → length (waiters (run es1) key) ≤ 1)%nat →
     ∀ key, (length (held_by (run es) key) ≤ 1)%nat) ∧
  length (held_by (run (three_requests "payout")) "payout") = 2%nat.
Proof.
  split.
  - intros es Hw key. apply one_holder. induction es as [|e es IH] using rev_ind.
    { constructor; simpl; try (intros; by match goal with H : _ ∈ [] |- _ => apply elem_of_nil in H end).
      - intros k p. rewrite elem_of_nil, lookup_empty. by split.
      - constructor. }
    unfold run in *. rewrite foldl_snoc. assert (lock_ok (foldl step no_locks es)) as Hok.
    { apply IH. intros es1 es2 k ->. apply (Hw es1 (es2 ++ [e])). by rewrite app_assoc. }
    destruct e as [k|k p]; [by apply arrive_ok|]. apply release_ok; [done|]. by apply (Hw es [Release k p]).
  - by vm_compute.
Qed.
End InFlight.

(** ** The message consumer *)

Module Consumer.
Import Repository.
Section Consumer.
Context {R : Type}.
Variable ttlSeconds : Z.
Variable consumer_actor : string.

Inductive IdempotentResult :=
| Succeeded (result : R) (processedAt : Z)
| Failed (error : string) (processedAt : Z).

(** Where a call of [process] is: its lookup sent or answered, waiting for the
    execution of another call, its handler running, its save or delete sent or
    executed, over, or rejected because the lookup failed. *)
Inductive call_state :=
| Reading
| Read (existing : option (IdempotencyRecord R))
| Joined (execution : nat)
| Running
| Saving (result : R) (processedAt : Z)
| Saved (result : R) (processedAt : Z)
| Deleting (error : string)
| Deleted (error : string)
| Returned (r : IdempotentResult)
| Rejected.

(** The table, [inflight], the calls with their message, and the handlers that
    were started, the last one first. *)
Record consumer := {
  rows : gmap string (IdempotencyRecord R);
  inflight : gmap string nat;
  calls : gmap nat (string * call_state);
  started : list (nat * string)
}.

Definition new_consumer : consumer := {| rows := ∅; inflight := ∅; calls := ∅; started := [] |}.

Inductive consumer_event :=
| Call (c : nat) (messageId : string)
| FindExecuted (c : nat) (now : Z)
| FindRejected (c : nat)
| Resumed (c : nat)
| HandlerReturned (c : nat) (result : R) (now : Z)
| HandlerThrew (c : nat) (error : string)
| SaveExecuted (c : nat) (now : Z)
| SaveRejected (c : nat) (error : string)
| SaveAnswered (c : nat)
| DeleteExecuted (c : nat)
| DeleteSettled (c : nat) (now : Z).

Definition set_call (c : nat) (m : string) (st : call_state) (s : consumer) : consumer :=
  {| rows := rows s; inflight := inflight s; calls := <[c := (m, st)]> (calls s); started := started s |}.

(** [process] after the answer of its lookup. *)
Definition resumed (c : nat) (m : string) (existing : option (IdempotencyRecord R)) (s : consumer) : consumer :=
  let run :=
    match inflight s !! m with
    | Some active => set_call c m (Joined active) s
    | None => {| rows := rows s; inflight := <[m := c]> (inflight s); calls := <[c := (m, Running)]> (calls s);
                 started := (c, m) :: started s |}
    end in
  match existing with
  | Some r => if responseCode r <? 400 then set_call c m (Returned (Succeeded (responseBody r) (createdAt r))) s else run
  | None => run
  end.

Definition with_rows (t : gmap string (IdempotencyRecord R)) (s : consumer) : consumer :=
  {| rows := t; inflight := inflight s; calls := calls s; started := started s |}.

(** The [finally] clause of the execution of [c], and its result. *)
Definition finish (c : nat) (m : string) (r : IdempotentResult) (s : consumer) : consumer :=
  {| rows := rows s; inflight := base.delete m (inflight s); calls := <[c := (m, Returned r)]> (calls s);
     started := started s |}.

Definition save_input (m : string) (result : R) : CreateIdempotencyInput R :=
  {| i_key := m; i_actorId := consumer_actor; i_requestHash := m; i_responseCode := 200; i_responseBody := result;
     i_ttlSeconds := ttlSeconds; i_expiresInSeconds := None |}.

Definition cstep (s : consumer) (e : consumer_event) : option consumer :=
  match e with
  | Call c m => match calls s !! c with None => Some (set_call c m Reading s) | Some _ => None end
  | FindExecuted c now =>
      match calls s !! c with Some (m, Reading) => Some (set_call c m (Read (findByKey now m (rows s))) s) | _ => None end
  | FindRejected c => match calls s !! c with Some (m, Reading) => Some (set_call c m Rejected s) | _ => None end
  | Resumed c => match calls s !! c with Some (m, Read x) => Some (resumed c m x s) | _ => None end
  | HandlerReturned c r now =>
      match calls s !! c with Some (m, Running) => Some (set_call c m (Saving r now) s) | _ => None end
  | HandlerThrew c err =>
      match calls s !! c with Some (m, Running) => Some (set_call c m (Deleting err) s) | _ => None end
  | SaveExecuted c now =>
      match calls s !! c with
      | Some (m, Saving r at_) => Some (set_call c m (Saved r at_) (with_rows (save now (save_input m r) (rows s)) s))
      | _ => None
      end
  | SaveRejected c err =>
      match calls s !! c with
      | Some (m, Saving _ _) | Some (m, Saved _ _) => Some (set_call c m (Deleting err) s)
      | _ => None
      end
  | SaveAnswered c =>
      match calls s !! c with Some (m, Saved r at_) => Some (finish c m (Succeeded r at_) s) | _ => None end
  | DeleteExecuted c =>
      match calls s !! c with
      | Some (m, Deleting err) => Some (set_call c m (Deleted err) (with_rows (Repository.delete m (rows s)) s))
      | _ => None
      end
  | DeleteSettled c now =>
      match calls s !! c with
      | Some (m, Deleting err) | Some (m, Deleted err) => Some (finish c m (Failed err now) s)
      | _ => None
      end
  end.

Fixpoint consume (s : consumer) (es : list consumer_event) : option consumer :=
  match es with [] => Some s | e :: es' => s' ← cstep s e; consume s' es' end.

(** [isProcessed] and [getResult]. *)
Definition isProcessed (now : Z) (m : string) (s : consumer) : bool :=
  match findByKey now m (rows s) with Some r => responseCode r <? 400 | None => false end.

Definition getResult (now : Z) (m : string) (s : consumer) : option IdempotentResult :=
  match findByKey now m (rows s) with
  | Some r => if 400 <=? responseCode r then None else Some (Succeeded (responseBody r) (createdAt r))
  | None => None
  end.

(** *** Executions of a message never overlap *)

Definition active (st : call_state) : Prop :=
  match st with Running | Saving _ _ | Saved _ _ | Deleting _ | Deleted _ => True | _ => False end.

Record consumer_ok (s : consumer) : Prop := {
  co_inflight m c : inflight s !! m = Some c ↔ ∃ st, calls s !! c = Some (m, st) ∧ active st;
  co_joined c m e : calls s !! c = Some (m, Joined e) → ∃ st, calls s !! e = Some (m, st) ∧
    (active st ∨ ∃ r, st = Returned r);
  co_started c m : (c, m) ∈ started s → ∃ st, calls s !! c = Some (m, st) ∧ (active st ∨ ∃ r, st = Returned r);
  co_once : NoDup (started s)
}.

(** A call moves without becoming or ceasing to be an execution. *)
Lemma set_call_ok c m st st' s : consumer_ok s → calls s !! c = Some (m, st) →
  (active st' ↔ active st) → (∀ r, st = Returned r → st' = st) → (∀ e, st' = Joined e → ∃ st0, calls s !! e = Some (m, st0) ∧ active st0 ∧ e ≠ c) →
  consumer_ok (set_call c m st' s).
Proof.
  intros [H1 H2 H3 H4] Hc Ha Hr Hj. assert (∀ e m0 st0, calls s !! e = Some (m0, st0) → (active st0 ∨ ∃ r, st0 = Returned r) →
    ∃ st1, <[c := (m, st')]> (calls s) !! e = Some (m0, st1) ∧ (active st1 ∨ ∃ r, st1 = Returned r)) as Hmove.
  { intros e m0 st0 He Hst. destruct (decide (c = e)) as [<-|Hne]; [|exists st0; by rewrite lookup_insert_ne].
    rewrite Hc in He. injection He as <- <-. exists st'. rewrite lookup_insert, decide_True by done. split; [done|].
    destruct Hst as [Hst|[r Hst]]; [left; by apply Ha|right]. exists r. by rewrite (Hr r Hst). }
  constructor; simpl; [| | |done].
  - intros m0 c0. rewrite H1. destruct (decide (c = c0)) as [<-|Hne]; [|by setoid_rewrite lookup_insert_ne].
    rewrite lookup_insert, decide_True, Hc by done. split; intros (st0 & E & Hst); injection E as <- <-; eexists; (split; [done|]); tauto.
  - intros c0 m0 e. rewrite lookup_insert_Some. intros [[<- E]|[Hne E]].
    + injection E as <- ->. destruct (Hj e eq_refl) as (st0 & He & Ha0 & Hne). exists st0.
      rewrite lookup_insert_ne by done. auto.
    + destruct (H2 _ _ _ E) as (st0 & He & Hst). by eapply Hmove.
  - intros c0 m0 Hin. destruct (H3 _ _ Hin) as (st0 & He & Hst). by eapply Hmove.
Qed.

Lemma new_call_ok c m s : consumer_ok s → calls s !! c = None → consumer_ok (set_call c m Reading s).
Proof.
  intros [H1 H2 H3 H4] Hc. assert (∀ e m0 st0, calls s !! e = Some (m0, st0) → c ≠ e) as Hne by (intros; congruence).
  constructor; simpl; [| | |done].
  - intros m0 c0. rewrite H1. split; intros (st0 & E & Hst).
    + exists st0. rewrite lookup_insert_ne by eauto. done.
    + apply lookup_insert_Some in E as [[<- E]|[_ E]]; [by injection E as <- <-|eauto].
  - intros c0 m0 e. rewrite lookup_insert_Some. intros [[_ E]|[_ E]]; [done|].
    destruct (H2 _ _ _ E) as (st0 & He & Hst). exists st0. rewrite lookup_insert_ne by eauto. done.
  - intros c0 m0 Hin. destruct (H3 _ _ Hin) as (st0 & He & Hst). exists st0. rewrite lookup_insert_ne by eauto. done.
Qed.

(** A call starts the execution of its message. *)
Lemma start_ok c m x s : consumer_ok s → calls s !! c = Some (m, Read x) → inflight s !! m = None →
  consumer_ok {| rows := rows s; inflight := <[m := c]> (inflight s); calls := <[c := (m, Running)]> (calls s);
                 started := (c, m) :: started s |}.
Proof.
  intros [H1 H2 H3 H4] Hc Hm.
  assert (∀ e m0 st0, calls s !! e = Some (m0, st0) → (active st0 ∨ ∃ r, st0 = Returned r) → c ≠ e) as Hne.
  { intros e m0 st0 He Hst <-. rewrite Hc in He. injection He as <- <-. destruct Hst as [?|[r ?]]; done. }
  constructor; simpl.
  - intros m0 c0. rewrite lookup_insert_Some. split.
    + intros [[<- <-]|[Hmm E]]; [exists Running; by rewrite lookup_insert, decide_True|].
      apply H1 in E as (st0 & E & Hst). exists st0. rewrite lookup_insert_ne by eauto. done.
    + intros (st0 & E & Hst). apply lookup_insert_Some in E as [[<- E]|[Hcc E]]; [injection E as <- <-; by left|].
      assert (inflight s !! m0 = Some c0) as Ei by (apply H1; eauto). right. split; [congruence|done].
  - intros c0 m0 e. rewrite lookup_insert_Some. intros [[_ E]|[_ E]]; [done|].
    destruct (H2 _ _ _ E) as (st0 & He & Hst). exists st0. rewrite lookup_insert_ne by eauto. done.
  - intros c0 m0 [E|Hin]%elem_of_cons.
    + injection E as -> ->. exists Running. rewrite lookup_insert, decide_True by done. split; [done|by left].
    + destruct (H3 _ _ Hin) as (st0 & He & Hst). exists st0. rewrite lookup_insert_ne by eauto. done.
  - constructor; [|done]. intros Hin. destruct (H3 _ _ Hin) as (st0 & He & Hst). by apply (Hne c m st0).
Qed.

(** An execution ends. *)
Lemma finish_ok c m st r s : consumer_ok s → calls s !! c = Some (m, st) → active st → consumer_ok (finish c m r s).
Proof.
  intros [H1 H2 H3 H4] Hc Ha. assert (inflight s !! m = Some c) as Hm by (apply H1; eauto).
  assert (∀ e m0 st0, calls s !! e = Some (m0, st0) → (active st0 ∨ ∃ r, st0 = Returned r) →
    ∃ st1, <[c := (m, Returned r)]> (calls s) !! e = Some (m0, st1) ∧ (active st1 ∨ ∃ r, st1 = Returned r)) as Hmove.
  { intros e m0 st0 He Hst. destruct (decide (c = e)) as [<-|Hne]; [|exists st0; by rewrite lookup_insert_ne].
    rewrite Hc in He. injection He as <- <-. exists (Returned r). rewrite lookup_insert, decide_True by done. eauto. }
  constructor; simpl; [| | |done].
  - intros m0 c0. rewrite lookup_delete_Some, H1. split.
    + intros [Hne (st0 & E & Hst)]. exists st0. rewrite lookup_insert_ne; [done|]. intros <-. congruence.
    + intros (st0 & E & Hst). apply lookup_insert_Some in E as [[<- E]|[Hcc E]]; [by injection E as <- <-|].
      split; [|eauto]. intros <-. assert (inflight s !! m = Some c0) by (apply H1; eauto). congruence.
  - intros c0 m0 e. rewrite lookup_insert_Some. intros [[_ E]|[_ E]]; [done|].
    destruct (H2 _ _ _ E) as (st0 & He & Hst). by eapply Hmove.
  - intros c0 m0 Hin. destruct (H3 _ _ Hin) as (st0 & He & Hst). by eapply Hmove.
Qed.

Lemma with_rows_ok t s : consumer_ok s → consumer_ok (with_rows t s).
Proof. intros []. by constructor. Qed.

Lemma resumed_ok c m x s : consumer_ok s → calls s !! c = Some (m, Read x) → consumer_ok (resumed c m x s).
Proof.
  intros Hok Hc.
  assert (consumer_ok (match inflight s !! m with Some a => set_call c m (Joined a) s | None =>
    {| rows := rows s; inflight := <[m := c]> (inflight s); calls := <[c := (m, Running)]> (calls s);
       started := (c, m) :: started s |} end)) as Hrun.
  { destruct (inflight s !! m) as [a|] eqn:Ea; [|by eapply start_ok]. eapply set_call_ok; eauto; try done.
    intros e [= <-]. apply (co_inflight s Hok) in Ea as (st0 & E & Hst). exists st0. split_and!; [done|done|].
    intros ->. rewrite Hc in E. by injection E as <-. }
  unfold resumed. destruct x as [r|]; [|done]. destruct (responseCode r <? 400); [|done].
  by eapply set_call_ok.
Qed.

Lemma cstep_ok s e s' : consumer_ok s → cstep s e = Some s' → consumer_ok s'.
Proof.
  intros Hok Hs. destruct e; simpl in Hs; repeat case_match; simplify_eq;
    eauto using new_call_ok, resumed_ok, with_rows_ok;
    try (eapply finish_ok; eauto; done);
    (eapply set_call_ok; [by eauto using with_rows_ok|simpl; eauto|done|done|done]).
Qed.

Lemma consume_ok es : ∀ s s', consumer_ok s → consume s es = Some s' → consumer_ok s'.
Proof.
  induction es as [|e es IH]; simpl; intros s s' Hok Hs; [by injection Hs as <-|].
  destruct (cstep s e) as [s1|] eqn:E; [|done]. simpl in Hs. eapply IH; [|exact Hs]. by eapply cstep_ok.
Qed.

Lemma new_consumer_ok : consumer_ok new_consumer.
Proof.
  constructor; simpl; [|intros c m e; by rewrite lookup_empty|intros c m H; by apply elem_of_nil in H|constructor].
  intros m c. rewrite lookup_empty. split; [done|]. intros (st & E & _). by rewrite lookup_empty in E.
Qed.

(** In one process the executions of a message never overlap: in every
    interleaving of calls, database operations and handlers, at most one call
    per message is between the start of its handler and its return, no call
    starts its handler twice, and a call that joins waits for an execution of
    its own message. *)
Theorem consumer_serial es s : consume new_consumer es = Some s →
  (∀ c c' m st st', calls s !! c = Some (m, st) → calls s !! c' = Some (m, st') → active st → active st' → c = c') ∧
  NoDup (started s) ∧
  (∀ c m e, calls s !! c = Some (m, Joined e) → ∃ st, calls s !! e = Some (m, st) ∧ (active st ∨ ∃ r, st = Returned r)).
Proof.
  intros Hs. destruct (consume_ok es _ _ new_consumer_ok Hs) as [H1 H2 _ H4]. split_and!; [|done|exact H2].
  intros c c' m st st' Hc Hc' Ha Ha'. assert (inflight s !! m = Some c) by (apply H1; eauto).
  assert (inflight s !! m = Some c') by (apply H1; eauto). congruence.
Qed.
End Consumer.

(** Two deliveries look the message up before either runs; the second resumes
    after the first is over. *)
Definition late_lookup : list (consumer_event (R := string)) :=
  [Call 1 "msg"; Call 2 "msg"; FindExecuted 1 0; FindExecuted 2 0; Resumed 1; HandlerReturned 1 "a" 5;
   SaveExecuted 1 6; SaveAnswered 1; Resumed 2; HandlerReturned 2 "b" 9].

(** The executions do not overlap, but the handler runs twice although its
    first run was recorded as a success. *)
Lemma consumer_serial_witness : ∃ s, consume 60 "system" new_consumer late_lookup = Some s ∧
  started s = [(2%nat, "msg"); (1%nat, "msg")] ∧ isProcessed 8 "msg" s = true ∧ NoDup (started s).
Proof.
  destruct (consume 60 "system" new_consumer late_lookup) as [s|] eqn:E; [|by vm_compute in E].
  exists s. split; [done|]. destruct (consumer_serial 60 "system" late_lookup s E) as (_ & H & _).
  vm_compute in E. injection E as <-. split_and!; [done|done|exact H].
Defined.
End Consumer.

(** ** The marker guard *)

Module Guard.
Section Guard.
Context {V : Type}.

(** The markers of the cache with their expiry, and the counters. *)
Record guard := {
  markers : gmap string Z;
  processed : nat;
  duplicates : nat;
  executed : nat;
  errors : nat
}.

Inductive guard_result := Duplicate | Executed_with (value : V) | Threw.

Definition getMarkerKey (handlerType messageId : string) : string := handlerType +:+ ":" +:+ messageId.

(** [cache.exists] answers false when Redis fails. *)
Definition cache_exists (up : bool) (now : Z) (key : string) (g : guard) : bool :=
  up && match markers g !! key with Some e => now <? e | None => false end.

(** [cache.set] refuses a TTL that is not positive and fails with Redis. *)
Definition cache_set (up : bool) (ttlSeconds now : Z) (key : string) (g : guard) : bool * guard :=
  if up && (0 <? ttlSeconds) then
    (true, {| markers := <[key := now + ttlSeconds * 1000]> (markers g); processed := processed g;
              duplicates := duplicates g; executed := executed g; errors := errors g |})
  else (false, g).

Definition count (p d x e : nat) (g : guard) : guard :=
  {| markers := markers g; processed := processed g + p; duplicates := duplicates g + d; executed := executed g + x;
     errors := errors g + e |}.

(** [process]; [up] and [up'] say whether Redis answers [exists] and [set];
    [handler] is the value the handler gives, or nothing when it throws. *)
Definition process (ttlSeconds now : Z) (up up' : bool) (handlerType messageId : string) (handler : option V) (g : guard)
  : guard_result * guard :=
  let g := count 1 0 0 0 g in
  let markerKey := getMarkerKey handlerType messageId in
  if cache_exists up now markerKey g then (Duplicate, count 0 1 0 0 g)
  else
    let '(marked, g) := cache_set up' ttlSeconds now markerKey g in
    let g := if marked then g else count 0 0 0 1 g in
    match handler with
    | Some v => (Executed_with v, count 0 0 1 0 g)
    | None => (Threw, count 0 0 0 1 g)
    end.

Definition guard_isProcessed (up : bool) (now : Z) (handlerType messageId : string) (g : guard) : bool :=
  cache_exists up now (getMarkerKey handlerType messageId) g.

Definition markAsProcessed (up : bool) (ttlSeconds now : Z) (handlerType messageId : string) (g : guard) : bool * guard :=
  cache_set up ttlSeconds now (getMarkerKey handlerType messageId) g.

Definition resetMetrics (g : guard) : guard :=
  {| markers := markers g; processed := 0; duplicates := 0; executed := 0; errors := 0 |}.

(** One delivery: its time, and what its handler would do. *)
Fixpoint deliveries (ttl : Z) (t m : string) (ds : list (Z * option V)) (g : guard) : list guard_result * guard :=
  match ds with
  | [] => ([], g)
  | (now, h) :: ds' =>
      let '(r, g1) := process ttl now true true t m h g in
      let '(rs, g2) := deliveries ttl t m ds' g1 in (r :: rs, g2)
  end.

(** Once a message was handed to its handler, whether that gave a value or
    threw, every later delivery before the marker expires is a duplicate: the
    handler runs at most once, and a message whose handler failed is not
    processed again. *)
Lemma guard_at_most_once ttl now t m h ds g : 0 < ttl → cache_exists true now (getMarkerKey t m) g = false →
  Forall (λ d, d.1 < now + ttl * 1000) ds →
  ∃ g', deliveries ttl t m ((now, h) :: ds) g =
    (match h with Some v => Executed_with v | None => Threw end :: replicate (length ds) Duplicate, g') ∧
    processed g' = (processed g + S (length ds))%nat ∧ duplicates g' = (duplicates g + length ds)%nat.
Proof.
  intros Httl Hnew Hds. cbn [deliveries]. unfold process at 1.
  replace (cache_exists true now (getMarkerKey t m) (count 1 0 0 0 g)) with false by done.
  unfold cache_set. destruct (Z.ltb_spec 0 ttl); [|lia]. cbn [andb].
  match goal with |- context [match h with Some _ => (_, count 0 0 1 0 ?g0) | None => _ end] => set (g1 := g0) end.
  set (g2 := match h with Some v => count 0 0 1 0 g1 | None => count 0 0 0 1 g1 end).
  assert (markers g2 !! getMarkerKey t m = Some (now + ttl * 1000) ∧ processed g2 = (processed g + 1)%nat ∧
    duplicates g2 = duplicates g) as (Hm & Hp & Hd).
  { unfold g2, g1. destruct h; simpl; rewrite lookup_insert, decide_True by done; split_and!; lia || done. }
  assert (∀ g3, markers g3 !! getMarkerKey t m = Some (now + ttl * 1000) → ∃ g', deliveries ttl t m ds g3 =
    (replicate (length ds) Duplicate, g') ∧ processed g' = (processed g3 + length ds)%nat ∧
    duplicates g' = (duplicates g3 + length ds)%nat) as Hrest.
  { clear -Hds. induction Hds as [|[n h] ds Hn Hds IH]; intros g3 Hm; [exists g3; split_and!; simpl; (done || lia)|].
    simpl in Hn. cbn [deliveries]. unfold process, cache_exists. simpl. rewrite Hm. destruct (Z.ltb_spec n (now + ttl * 1000)); [|lia].
    destruct (IH (count 0 1 0 0 (count 1 0 0 0 g3)) Hm) as (g' & -> & Hp & Hd). exists g'. simpl in *. split_and!; [done|lia..]. }
  destruct (Hrest g2 Hm) as (g' & E & Hp' & Hd'). exists g'.
  unfold g2 in E. destruct h; rewrite E; split_and!; (done || lia).
Qed.
End Guard.
End Guard.
