(* ===== verification/Pagination.v ===== *)
(** * Pagination

    [lib/pagination.ts]: the parsing of the page, limit, offset and cursor
    parameters, the signed cursors, and the page links. [Number] on strings,
    the HMAC under the configured secret and the base64url text of a JSON
    object are parameters. Counts are mathematical integers; the doubles of
    the source agree with them below 2^52. *)

From stdpp Require Import base option list strings.
From Stdlib Require Import ZArith Lia Ascii.
From S2P Require Import Prelude JsLib.

Open Scope Z_scope.

Definition DEFAULT_PAGE : Z := 1.
Definition DEFAULT_LIMIT : Z := 20.
Definition MAX_LIMIT : Z := 100.

(** ** Cursors *)

Record DecodedCursor := { t : string; i : string }.

(** An entry of the details of a [PaginationValidationError]. *)
Record detail := { path : string; message : string }.

Module Cursor.
Section Cursor.
(** [JSON.stringify({ t, i })], the hexadecimal HMAC-SHA256 of a text, the
    base64url text of [{ t, i, h }], and what parsing a text gives: nothing when
    it is no JSON object, otherwise its three fields, each when it is a string. *)
Variable payload : string → string → string.
Variable hmac : string → string.
Variable seal : string → string → string → string.
Variable unseal : string → option (option string * option string * option string).

Definition encodeCursor (timestamp id : string) : string := seal timestamp id (hmac (payload timestamp id)).

(** [decodeCursor]: the null result, an exception, or the cursor. *)
Inductive decode_result := no_cursor | cursor_error (d : detail) | decoded (c : DecodedCursor).

Definition decodeCursor (cursor : string) : decode_result :=
  match unseal cursor with
  | Some (Some ct, Some ci, Some h) =>
      if String.eqb h (hmac (payload ct ci)) then decoded {| t := ct; i := ci |}
      else cursor_error {| path := "cursor"; message := "Cursor has been tampered with" |}
  | Some (Some _, Some _, None) => cursor_error {| path := "cursor"; message := "Cursor signature missing" |}
  | _ => no_cursor
  end.

(** Parsing inverts the text of an object. *)
Hypothesis unseal_seal : ∀ ct ci h, unseal (seal ct ci h) = Some (Some ct, Some ci, Some h).

(** Cursors round trip and are authenticated: decoding an encoded cursor
    gives its timestamp and id back; a cursor is accepted only with the HMAC of
    its own fields, so changing the position of an encoded cursor and keeping
    its signature is refused unless the HMACs collide. *)
Theorem cursor_roundtrip ct ci :
  decodeCursor (encodeCursor ct ci) = decoded {| t := ct; i := ci |} ∧
  (∀ c ct' ci', decodeCursor c = decoded {| t := ct'; i := ci' |} →
     unseal c = Some (Some ct', Some ci', Some (hmac (payload ct' ci')))) ∧
  (∀ ct' ci', hmac (payload ct' ci') ≠ hmac (payload ct ci) →
     decodeCursor (seal ct' ci' (hmac (payload ct ci))) =
       cursor_error {| path := "cursor"; message := "Cursor has been tampered with" |}).
Proof.
  unfold decodeCursor, encodeCursor. split_and!.
  - rewrite unseal_seal. by rewrite String.eqb_refl.
  - intros c ct' ci'. destruct (unseal c) as [[[[x|] [y|]] [h|]]|]; try done.
    destruct (String.eqb_spec h (hmac (payload x y))) as [->|]; [|done]. by intros [= -> ->].
  - intros ct' ci' Hne. rewrite unseal_seal. destruct (String.eqb_spec (hmac (payload ct ci)) (hmac (payload ct' ci'))); congruence.
Qed.
End Cursor.
End Cursor.

(** ** Query parameters *)

(** A query parameter: absent, null, a string, or another value with what
    [Number] makes of it when that is an integer. *)
Inductive query_value := QUndefined | QNull | QString (s : string) | QOther (n : option Z).

Definition is_undefined (v : query_value) : bool := match v with QUndefined => true | _ => false end.

Record PaginationParams := {
  page : Z;
  limit : Z;
  offset : Z;
  cursor : option string;
  decodedCursor : option DecodedCursor
}.

Record PaginationParseOptions := { defaultPage : option Z; defaultLimit : option Z; maxLimit : option Z }.

Record pagination_query := { q_page : query_value; q_limit : query_value; q_offset : query_value; q_cursor : query_value }.

Section Parse.
(** [Number(s)] when it is an integer. *)
Variable Number : string → option Z.
Variable decode : string → Cursor.decode_result.

(** [parsePositiveInteger]: undefined, a number, or the details of the error. *)
Definition parsePositiveInteger (value : query_value) (p : string) : result (list detail) (option Z) :=
  let of_number n :=
    match n with Some z => Ok (Some z) | None => Err [{| path := p; message := "Expected an integer" |}] end in
  match value with
  | QUndefined | QNull => Ok None
  | QString s => if String.eqb (trim s) EmptyString then Ok None else of_number (Number s)
  | QOther n => of_number n
  end.

Definition value_of (r : result (list detail) (option Z)) : option Z := match r with Ok v => v | Err _ => None end.
Definition errors_of (r : result (list detail) (option Z)) : list detail := match r with Ok _ => [] | Err e => e end.

Definition check (b : bool) (p m : string) : list detail := if b then [{| path := p; message := m |}] else [].

(** A comparison with a value that may be undefined is false when it is. *)
Definition holds (o : option Z) (p : Z → bool) : bool := match o with Some v => p v | None => false end.

Definition parsePaginationParams (query : pagination_query) (options : PaginationParseOptions)
  : result (list detail) PaginationParams :=
  let default_page := default DEFAULT_PAGE (defaultPage options) in
  let default_limit := default DEFAULT_LIMIT (defaultLimit options) in
  let max_limit := default MAX_LIMIT (maxLimit options) in
  let p := parsePositiveInteger (q_page query) "page" in
  let l := parsePositiveInteger (q_limit query) "limit" in
  let rawCursor :=
    match q_cursor query with
    | QString s => if String.eqb (trim s) EmptyString then None else Some s
    | _ => None
    end in
  let d := match rawCursor with Some c => decode c | None => Cursor.no_cursor end in
  let decoded_cursor := match d with Cursor.decoded c => Some c | _ => None end in
  let decode_errors := match d with Cursor.cursor_error e => [e] | _ => [] end in
  let rawOffset :=
    match q_offset query, rawCursor, decoded_cursor with
    | QUndefined, Some c, None => QString c
    | v, _, _ => v
    end in
  let offsetPath := if is_undefined (q_offset query) then "cursor" else "offset" in
  let o := if is_undefined rawOffset then Ok None else parsePositiveInteger rawOffset offsetPath in
  let offset_errors := match decoded_cursor with Some _ => [] | None => errors_of o end in
  let errors :=
    errors_of p ++ errors_of l ++ decode_errors ++ offset_errors ++
    check (match rawCursor, decoded_cursor, value_of o with Some _, None, None => true | _, _, _ => false end)
      "cursor" "Invalid cursor format" ++
    check (holds (value_of p) (λ v, v <? 1)) "page" "Page must be at least 1" ++
    check (holds (value_of l) (λ v, v <? 1)) "limit" "Limit must be at least 1" ++
    check (holds (value_of l) (λ v, max_limit <? v)) "limit" ("Limit must be at most " +:+ bigint_toString max_limit) ++
    check (holds (value_of o) (λ v, v <? 0)) offsetPath (offsetPath +:+ " must be at least 0") in
  match errors with
  | _ :: _ => Err errors
  | [] =>
      let resolvedLimit := default default_limit (value_of l) in
      let resolvedPage :=
        match value_of p with
        | Some v => v
        | None => match value_of o with Some v => v / resolvedLimit + 1 | None => default_page end
        end in
      Ok {| page := resolvedPage; limit := resolvedLimit;
            offset := default ((resolvedPage - 1) * resolvedLimit) (value_of o);
            cursor := rawCursor; decodedCursor := decoded_cursor |}
  end.

(** Options whose defaults satisfy the limits they set. *)
Definition options_ok (o : PaginationParseOptions) : Prop :=
  1 ≤ default DEFAULT_PAGE (defaultPage o) ∧
  1 ≤ default DEFAULT_LIMIT (defaultLimit o) ≤ default MAX_LIMIT (maxLimit o).

Lemma check_nil b p m : check b p m = [] ↔ b = false.
Proof. by destruct b. Qed.

Lemma holds_false o p v : holds o p = false → o = Some v → p v = false.
Proof. by intros H ->. Qed.

(** The offset the query gives: its own parameter, or a cursor that is a number. *)
Definition given_offset (query : pagination_query) : option Z :=
  match q_offset query with
  | QUndefined => value_of (parsePositiveInteger (q_cursor query) "cursor")
  | v => value_of (parsePositiveInteger v "offset")
  end.

(** Accepted pagination parameters are within bounds: for any query, the
    limit is between 1 and the maximum, the page at least 1 and the offset at
    least 0. The offset is that of the page unless the query gives one, and
    then a page that is not given is the one that contains it. A cursor is kept
    only when it is decoded or is no cursor text at all: a cursor with a missing
    or wrong signature is refused. A refusal carries at least one detail. *)
Theorem pagination_params_sound query options : options_ok options →
  match parsePaginationParams query options with
  | Ok r =>
      1 ≤ limit r ≤ default MAX_LIMIT (maxLimit options) ∧ 1 ≤ page r ∧ 0 ≤ offset r ∧
      (offset r = (page r - 1) * limit r ∨ given_offset query = Some (offset r)) ∧
      (value_of (parsePositiveInteger (q_page query) "page") = None →
         page r = default DEFAULT_PAGE (defaultPage options) ∨ (page r - 1) * limit r ≤ offset r < page r * limit r) ∧
      (∀ c, cursor r = Some c → q_cursor query = QString c ∧
         match decodedCursor r with Some d => decode c = Cursor.decoded d | None => decode c = Cursor.no_cursor end)
  | Err errs => errs ≠ []
  end.
Proof.
  intros [Hp Hl]. unfold parsePaginationParams.
  set (p := parsePositiveInteger (q_page query) "page"). set (l := parsePositiveInteger (q_limit query) "limit").
  set (raw := match q_cursor query with QString s => _ | _ => None end).
  assert (∀ c, raw = Some c → q_cursor query = QString c ∧ String.eqb (trim c) EmptyString = false) as Hraw.
  { unfold raw. intros c. destruct (q_cursor query); try done. destruct (String.eqb (trim s) EmptyString) eqn:E; [done|].
    by intros [= ->]. }
  clearbody raw. set (d := match raw with Some c => decode c | None => _ end).
  set (dc := match d with Cursor.decoded c => Some c | _ => None end).
  set (ro := match q_offset query with QUndefined => _ | _ => _ end).
  set (op := if is_undefined (q_offset query) then "cursor" else "offset").
  set (o := if is_undefined ro then Ok None else parsePositiveInteger ro op).
  assert (∀ v, value_of o = Some v → given_offset query = Some v) as Ho.
  { intros v. unfold o, given_offset, ro, op. destruct (q_offset query) eqn:Eq; simpl; try done.
    destruct raw as [c|]; [|done]. destruct dc; [done|]. destruct (Hraw c eq_refl) as [-> _]. done. }
  clearbody o op. cbv zeta.
  match goal with |- match (match ?errs with _ => _ end) with _ => _ end => destruct errs eqn:He end; [|done].
  rewrite !app_nil, !check_nil in He. destruct He as (_ & _ & Hd & _ & _ & H1 & H2 & H3 & H4).
  simpl. clearbody p l. set (rl := default (default DEFAULT_LIMIT (defaultLimit options)) (value_of l)).
  assert (1 ≤ rl ≤ default MAX_LIMIT (maxLimit options)) as Hrl.
  { unfold rl. destruct (value_of l) as [v|]; simpl in *; [breflect|]; lia. }
  clearbody rl. split_and!; [lia|lia|..].
  - destruct (value_of p) as [v|]; simpl in *; [breflect; lia|]. destruct (value_of o) as [v|]; simpl in *; [|lia].
    breflect. pose proof (Z.div_pos v rl). lia.
  - destruct (value_of o) as [v|]; simpl in *; [breflect; lia|].
    destruct (value_of p) as [v|]; simpl in *; breflect; nia.
  - destruct (value_of o) as [v|] eqn:E; [right; by apply Ho|by left].
  - intros ->. destruct (value_of o) as [v|]; [right|by left]. simpl.
    pose proof (Z.div_mod v rl). pose proof (Z.mod_pos_bound v rl). nia.
  - intros c ->. split; [by apply Hraw|]. unfold dc, d in *. destruct (decode c); done.
Qed.
End Parse.

(** ** Envelopes and links *)

Record PaginationMeta := { m_page : Z; m_limit : Z; m_total : Z; hasNext : bool }.

Definition buildPaginationMeta (total p l : Z) : PaginationMeta :=
  {| m_page := p; m_limit := l; m_total := total; hasNext := p * l <? total |}.

Record CursorPaginationMeta := { cm_limit : Z; hasNextPage : bool; cm_nextCursor : option string }.

Definition buildCursorPaginationMeta (next : bool) (l : Z) (nextCursor : option string) : CursorPaginationMeta :=
  {| cm_limit := l; hasNextPage := next; cm_nextCursor := nextCursor |}.

Record CursorPaginationEnvelope (A : Type) :=
  { data : list A; e_nextCursor : option string; hasMore : bool; e_limit : Z }.
#[global] Arguments data {A}.
#[global] Arguments hasMore {A}.

Definition buildCursorEnvelope {A} (d : list A) (l : Z) (more : bool) (nextCursor : option string)
  : CursorPaginationEnvelope A := {| data := d; e_nextCursor := nextCursor; hasMore := more; e_limit := l |}.

Record PaginationLinks := {
  self : string;
  first : option string;
  prev : option string;
  next : option string;
  last : option string
}.

(** [buildPaginationLinks]; [url_for] gives the request URL with [page] set, the
    limit set and the offset removed. *)
Definition buildPaginationLinks (url_for : Z → string) (p l total : Z) : PaginationLinks :=
  let totalPages := ceil_div total l in
  if total <=? 0 then {| self := url_for p; first := None; prev := None; next := None; last := None |}
  else
    {| self := url_for p;
       first := if 1 <? totalPages then Some (url_for 1) else None;
       prev := if 1 <? p then Some (url_for (p - 1)) else None;
       next := if p <? totalPages then Some (url_for (p + 1)) else None;
       last := if 1 <? totalPages then Some (url_for totalPages) else None |}.

(** [buildCursorPaginationLinks]; [url_for] gives the URL with the limit set and
    the given cursor or none. *)
Definition buildCursorPaginationLinks (url_for : option string → string) (nextCursor : option string) : PaginationLinks :=
  {| self := url_for None; first := None; prev := None;
     next := match nextCursor with
             | Some EmptyString | None => None
             | Some c => Some (url_for (Some c))
             end;
     last := None |}.

(** The double quote. *)
Definition dquote : string := String (ascii_of_nat 34) EmptyString.

Definition link_part (baseUrl : string) (p l : Z) (rel : string) : string :=
  "<" +:+ baseUrl +:+ "?page=" +:+ bigint_toString p +:+ "&limit=" +:+ bigint_toString l +:+ ">; rel=" +:+
  dquote +:+ rel +:+ dquote.

(** The parts [buildLinkHeader] joins with a comma and a space. *)
Definition link_parts (baseUrl : string) (p l total : Z) : list string :=
  let totalPages := Z.max 1 (ceil_div total l) in
  [link_part baseUrl 1 l "first"] ++
  (if 1 <? p then [link_part baseUrl (p - 1) l "prev"] else []) ++
  (if p <? totalPages then [link_part baseUrl (p + 1) l "next"] else []) ++
  [link_part baseUrl totalPages l "last"].

Definition buildLinkHeader (baseUrl : string) (p l total : Z) : option string :=
  if total <=? 0 then None else Some (String.concat ", " (link_parts baseUrl p l total)).

(** Following the next links from a page, while there are any. *)
Fixpoint follow (fuel : nat) (p l total : Z) : list Z :=
  match fuel with
  | O => []
  | S fuel' => p :: (if hasNext (buildPaginationMeta total p l) then follow fuel' (p + 1) l total else [])
  end.

Lemma follow_pages fuel p l total : 1 ≤ l → 0 ≤ total → Z.max 1 (ceil_div total l - p + 1) ≤ Z.of_nat fuel →
  follow fuel p l total = seqZ p (Z.max 1 (ceil_div total l - p + 1)).
Proof.
  intros Hl Ht. destruct (ceil_div_spec total l Hl Ht) as [H0 Hc]. revert p.
  induction fuel as [|fuel IH]; intros p Hf; [lia|]. rewrite seqZ_cons by lia. simpl. f_equal. specialize (Hc p).
  destruct (Z.ltb_spec (p * l) total).
  - rewrite IH by lia. f_equal; lia.
  - replace (Z.pred _) with 0 by lia. done.
Qed.

(** The page links agree with each other and end: for a positive limit and
    page, the metadata says there is a next page exactly when the links and the
    header have a next link, which is that of the next page, and that is when
    rows are left behind the current page; a previous link is there exactly
    after the first page of a non-empty result. Following the next pages from
    page 1 visits every page once and stops after the last, with which all rows
    are covered. *)
Theorem pagination_links_consistent url_for base p l total : 1 ≤ l → 1 ≤ p → 0 ≤ total →
  let links := buildPaginationLinks url_for p l total in
  let pages := Z.max 1 (ceil_div total l) in
  (hasNext (buildPaginationMeta total p l) = true ↔ p * l < total) ∧
  next links = (if hasNext (buildPaginationMeta total p l) then Some (url_for (p + 1)) else None) ∧
  prev links = (if (1 <? p) && (0 <? total) then Some (url_for (p - 1)) else None) ∧
  buildLinkHeader base p l total =
    (if total =? 0 then None else
     Some (String.concat ", " ([link_part base 1 l "first"] ++
       (if 1 <? p then [link_part base (p - 1) l "prev"] else []) ++
       (if hasNext (buildPaginationMeta total p l) then [link_part base (p + 1) l "next"] else []) ++
       [link_part base pages l "last"]))) ∧
  (∀ fuel, pages ≤ Z.of_nat fuel → follow fuel 1 l total = seqZ 1 pages) ∧
  total ≤ pages * l.
Proof.
  intros Hl Hp Ht links pages. destruct (ceil_div_spec total l Hl Ht) as [H0 Hc]. pose proof (Hc p) as Hcp.
  unfold links, buildPaginationLinks, buildLinkHeader, link_parts. simpl. split_and!.
  - apply Z.ltb_lt.
  - destruct (Z.leb_spec total 0); simpl; destruct (Z.ltb_spec (p * l) total); try nia; [done|..];
      destruct (Z.ltb_spec p (ceil_div total l)); lia || done.
  - destruct (Z.leb_spec total 0); simpl.
    + destruct (Z.ltb_spec 0 total); [lia|]. by rewrite andb_false_r.
    + destruct (Z.ltb_spec 0 total); [|lia]. by rewrite andb_true_r.
  - destruct (Z.leb_spec total 0), (Z.eqb_spec total 0); try lia; [done|]. unfold pages.
    destruct (Z.ltb_spec (p * l) total), (Z.ltb_spec p (Z.max 1 (ceil_div total l))); lia || done.
  - intros fuel Hf. rewrite follow_pages by lia. f_equal. lia.
  - specialize (Hc pages). unfold pages in *. nia.
Qed.

(** Forty-five rows in pages of twenty: page 2 of 3. *)
Lemma pagination_links_consistent_witness : let links := buildPaginationLinks (λ n, bigint_toString n) 2 20 45 in
  next links = Some "3" ∧ prev links = Some "1" ∧ follow 10 1 20 45 = [1; 2; 3].
Proof.
  destruct (pagination_links_consistent (λ n, bigint_toString n) "/a" 2 20 45) as (_ & H2 & H3 & _ & H5 & _);
    [lia|lia|lia|]. split_and!; [exact H2|exact H3|exact (H5 10%nat ltac:(by vm_compute))].
Defined.

(** A seal that keeps the three fields apart, and a query for page 3. *)
Lemma pagination_params_sound_witness :
  let query := {| q_page := QString "3"; q_limit := QUndefined; q_offset := QUndefined; q_cursor := QUndefined |} in
  let options := {| defaultPage := None; defaultLimit := None; maxLimit := None |} in
  options_ok options ∧
  match parsePaginationParams (λ s, radix_digits 10 s) (λ _, Cursor.no_cursor) query options with
  | Ok r => 1 ≤ limit r ≤ 100 ∧ 1 ≤ page r ∧ offset r = 40
  | Err _ => False
  end.
Proof.
  set (options := {| defaultPage := None; defaultLimit := None; maxLimit := None |}).
  assert (options_ok options) as Hok by (unfold options_ok; vm_compute; done).
  split; [exact Hok|].
  pose proof (pagination_params_sound (λ s, radix_digits 10 s) (λ _, Cursor.no_cursor)
    {| q_page := QString "3"; q_limit := QUndefined; q_offset := QUndefined; q_cursor := QUndefined |} options Hok) as H.
  vm_compute in H |- *. destruct H as (H1 & H2 & _). split_and!; [apply H1|apply H1|exact H2|reflexivity].
Defined.

(** Fields that are told apart by their length, for the round trip. *)
Definition seal_example (a b h : string) : string :=
  bigint_toString (slen a) +:+ "." +:+ bigint_toString (slen b) +:+ "." +:+ a +:+ b +:+ h.

Definition unseal_example (c : string) : option (option string * option string * option string) :=
  let n := BigInt (sliceTo c (indexOf c ".")) in
  let r := sliceFrom c (indexOf c "." + 1) in
  let m := BigInt (sliceTo r (indexOf r ".")) in
  let u := sliceFrom r (indexOf r "." + 1) in
  Some (Some (sliceTo u n), Some (sliceTo (sliceFrom u n) m), Some (sliceFrom (sliceFrom u n) m)).

Lemma sliceFrom_app s u : sliceFrom (s +:+ u) (slen s) = u.
Proof. unfold sliceFrom, slen. rewrite Nat2Z.id. induction s; simpl; [done|]. exact IHs. Qed.

Lemma unseal_seal_example a b h : unseal_example (seal_example a b h) = Some (Some a, Some b, Some h).
Proof.
  destruct (bigint_toString_spec (slen a) (slen_nonneg a)) as (Da & Va & _).
  destruct (bigint_toString_spec (slen b) (slen_nonneg b)) as (Db & Vb & _).
  unfold unseal_example, seal_example. cbv zeta. cbn [String.append].
  rewrite !(indexOf_app (bigint_toString (slen a))) by (by apply digits_no_char).
  rewrite !sliceFrom_app_cons, !sliceTo_app.
  rewrite !(indexOf_app (bigint_toString (slen b))) by (by apply digits_no_char).
  rewrite !sliceFrom_app_cons, !sliceTo_app, Va, Vb. by rewrite sliceTo_app, !sliceFrom_app, sliceTo_app.
Qed.

(** A cursor of these fields, and one whose id was changed. *)
Lemma cursor_roundtrip_witness :
  let payload x y := x +:+ "/" +:+ y in let hmac x := "k" +:+ x in
  Cursor.decodeCursor payload hmac unseal_example (Cursor.encodeCursor payload hmac seal_example "2024-01-01" "7") =
    Cursor.decoded {| t := "2024-01-01"; i := "7" |} ∧
  Cursor.decodeCursor payload hmac unseal_example (seal_example "2024-01-01" "8" (hmac (payload "2024-01-01" "7"))) =
    Cursor.cursor_error {| path := "cursor"; message := "Cursor has been tampered with" |}.
Proof.
  intros payload hmac.
  destruct (Cursor.cursor_roundtrip payload hmac seal_example unseal_example unseal_seal_example "2024-01-01" "7")
    as (H1 & _ & H3). split; [exact H1|]. apply H3. discriminate.
Defined.
