(* ===== verification/Settlements.v ===== *)
(** * Settlements and payments

    [db/repositories/settlementsRepository.ts], [services/settlementService.ts],
    [services/shadowWrite.ts], [services/payment/orchestrator.ts] and the
    history handler of [routes/transactions.ts]. The table has a unique
    transaction hash; what the NUMERIC column stores for an amount, the
    existing bonds and the generated ids are parameters. Times are
    milliseconds, as the dates of the source; ids compare as text, as UUIDs do.
    Spans, metrics other than the shadow mismatch, and the cache are left out. *)

From stdpp Require Import base option list gmap strings sorting relations.
From Stdlib Require Import ZArith Lia Ascii.
From S2P Require Import Prelude JsLib StateTransition Pagination.
Import StateTransition.Settlement.

Open Scope Z_scope.

(** ** Data *)

Record Settlement := {
  id : string;
  bondId : string;
  amount : string;
  transactionHash : string;
  settledAt : Z;
  status : SettlementLifecycleStatus;
  createdAt : Z;
  updatedAt : Z
}.

#[export] Instance Settlement_eq_dec : EqDecision Settlement.
Proof. solve_decision. Defined.

Record CreateSettlementInput := {
  in_bondId : string;
  in_amount : string;
  in_transactionHash : string;
  in_settledAt : option Z;
  in_status : option SettlementLifecycleStatus
}.

Record UpsertSettlementResult := { settlement : Settlement; isDuplicate : bool }.

(** ** The repository *)

Section Repository.
(** What the NUMERIC column stores for a text, and nothing when it refuses it;
    the bonds that exist. *)
Variable store_amount : string → option string.
Variable bond_exists : string → bool.

Definition findByTransactionHash (h : string) (rows : list Settlement) : option Settlement :=
  list_find (λ r, transactionHash r = h) rows ≫= λ p, Some p.2.

Definition updated (now : Z) (a : string) (input : CreateSettlementInput) (r : Settlement) : Settlement :=
  {| id := id r; bondId := bondId r; amount := a; transactionHash := transactionHash r;
     settledAt := default now (in_settledAt input); status := default pending (in_status input);
     createdAt := createdAt r; updatedAt := now |}.

(** [_upsert]: the [INSERT ... ON CONFLICT (transaction_hash)] statement; [None]
    is a database error. *)
Definition upsert (now : Z) (uuid : string) (input : CreateSettlementInput) (rows : list Settlement)
  : option (UpsertSettlementResult * list Settlement) :=
  a ← store_amount (in_amount input);
  match findByTransactionHash (in_transactionHash input) rows with
  | Some r =>
      let r' := updated now a input r in
      Some ({| settlement := r'; isDuplicate := true |},
            (λ x, if bool_decide (transactionHash x = transactionHash r) then r' else x) <$> rows)
  | None =>
      if bond_exists (in_bondId input) then
        let r' := {| id := uuid; bondId := in_bondId input; amount := a; transactionHash := in_transactionHash input;
                     settledAt := default now (in_settledAt input); status := default pending (in_status input);
                     createdAt := now; updatedAt := now |} in
        Some ({| settlement := r'; isDuplicate := false |}, rows ++ [r'])
      else None
  end.

(** The statements of [upsertBatch], one after the other, up to the first
    error: the rows reached and the results, if there was none. *)
Fixpoint upsert_all (inputs : list (Z * string * CreateSettlementInput)) (rows : list Settlement)
  : option (list UpsertSettlementResult) * list Settlement :=
  match inputs with
  | [] => (Some [], rows)
  | (now, uuid, input) :: rest =>
      match upsert now uuid input rows with
      | Some (r, rows1) => let '(rs, rows2) := upsert_all rest rows1 in (cons r <$> rs, rows2)
      | None => (None, rows)
      end
  end.

(** [upsertBatch]: in a transaction when the repository has a pool. *)
Definition upsertBatch (has_pool : bool) (inputs : list (Z * string * CreateSettlementInput)) (rows : list Settlement)
  : option (list UpsertSettlementResult) * list Settlement :=
  let '(rs, rows') := upsert_all inputs rows in
  match rs with
  | Some _ => (rs, rows')
  | None => (None, if has_pool then rows else rows')
  end.
End Repository.

Definition findById (i : string) (rows : list Settlement) : option Settlement :=
  list_find (λ r, id r = i) rows ≫= λ p, Some p.2.

(** [(settled_at, id) < (t, i)], and the order of the queries. *)
Definition key_before (s : Z) (i : string) (t : Z) (j : string) : bool := (s <? t) || ((s =? t) && String.ltb i j).

Definition newer_first (a b : Settlement) : Prop :=
  settledAt b < settledAt a ∨ (settledAt a = settledAt b ∧ String.leb (id b) (id a) = true).

#[export] Instance newer_first_dec : RelDecision newer_first.
Proof. intros a b. unfold newer_first. apply _. Defined.

Definition findByBondId (b : string) (rows : list Settlement) : list Settlement :=
  merge_sort newer_first (filter (λ r, bondId r = b) rows).

Definition countByBondId (b : string) (rows : list Settlement) : Z :=
  Z.of_nat (length (filter (λ r, bondId r = b) rows)).

Definition delete (i : string) (rows : list Settlement) : bool * list Settlement :=
  (bool_decide (is_Some (findById i rows)), filter (λ r, id r ≠ i) rows).

(** [findManyPaginated]: an empty bond id is no filter. *)
Definition of_bond (b : option string) (r : Settlement) : bool :=
  match b with Some EmptyString | None => true | Some x => String.eqb (bondId r) x end.

Definition after_cursor (cursor : option (Z * string)) (r : Settlement) : bool :=
  match cursor with Some (t, i) => key_before (settledAt r) (id r) t i | None => true end.

Definition findManyPaginated (limit : nat) (cursor : option (Z * string)) (b : option string) (rows : list Settlement)
  : list Settlement :=
  take limit (merge_sort newer_first
    (filter (λ r, of_bond b r && after_cursor cursor r = true) rows)).

(** ** Shadow writes *)

Record shadow_result := {
  oldResult : option UpsertSettlementResult;
  newResult : option UpsertSettlementResult
}.

(** [diffAndRecordShadowWrites]: the recorded mismatches; an absent result is a
    pipeline that failed. *)
Definition diffAndRecordShadowWrites (r : shadow_result) : list string :=
  match oldResult r, newResult r with
  | Some _, None | None, Some _ => ["error_mismatch"]
  | None, None => []
  | Some o, Some n =>
      (if bool_decide (status (settlement o) = status (settlement n)) then [] else ["status_mismatch"]) ++
      (if negb (String.eqb (amount (settlement o)) (amount (settlement n))) ||
          negb (String.eqb (bondId (settlement o)) (bondId (settlement n))) ||
          negb (String.eqb (transactionHash (settlement o)) (transactionHash (settlement n)))
       then ["data_mismatch"] else []) ++
      (if Bool.eqb (isDuplicate o) (isDuplicate n) then [] else ["data_mismatch"])
  end.

(** ** The service *)

Inductive service_error :=
| ValidationError (message : string)
| DatabaseError
| ReferenceError (name : string).

(** The transition check of [upsertSettlementStatus]. *)
Definition check_status (h : string) (st : option SettlementLifecycleStatus) (rows : list Settlement)
  : result service_error () :=
  match st with
  | None => Ok ()
  | Some s =>
      match findByTransactionHash h rows with
      | Some existing =>
          if success (validateSettlementTransition (status existing) s) then Ok ()
          else Err (ValidationError "Settlement transition rejected")
      | None =>
          if bool_decide (s = pending) || bool_decide (s = failed) then Ok ()
          else Err (ValidationError "initial status must be pending or failed")
      end
  end.

Section Service.
Variable store_amount : string → option string.
Variable bond_exists : string → bool.

(** [executeShadowWrite] with the same repository for both pipelines, as the
    service calls it: the result or the error of the first, whether there was a
    mismatch, and the rows. *)
Definition executeShadowWrite (now : Z) (uuid uuid' : string) (input : CreateSettlementInput) (rows : list Settlement)
  : option UpsertSettlementResult * bool * list Settlement :=
  let '(o, rows1) := match upsert store_amount bond_exists now uuid input rows with
                     | Some (r, rows1) => (Some r, rows1) | None => (None, rows) end in
  let '(n, rows2) := match upsert store_amount bond_exists now uuid' input rows1 with
                     | Some (r, rows2) => (Some r, rows2) | None => (None, rows1) end in
  (o, bool_decide (diffAndRecordShadowWrites {| oldResult := o; newResult := n |} ≠ []), rows2).

(** The write of [upsertSettlementStatus]. *)
Definition write_status (shadow : bool) (now : Z) (uuid uuid' : string) (input : CreateSettlementInput)
    (rows : list Settlement) : option UpsertSettlementResult * list Settlement :=
  if shadow then
    let '(o, _, rows') := executeShadowWrite now uuid uuid' input rows in (o, rows')
  else match upsert store_amount bond_exists now uuid input rows with
       | Some (r, rows') => (Some r, rows')
       | None => (None, rows)
       end.

(** [upsertSettlementStatus]. After the write the method calls
    [acquireCacheLock], which the module neither declares nor imports, so that
    it ends in a [ReferenceError]. *)
Definition upsertSettlementStatus (shadow : bool) (now : Z) (uuid uuid' : string) (input : CreateSettlementInput)
    (rows : list Settlement) : result service_error Settlement * list Settlement :=
  match check_status (in_transactionHash input) (in_status input) rows with
  | Err e => (Err e, rows)
  | Ok _ =>
      match write_status shadow now uuid uuid' input rows with
      | (Some _, rows') => (Err (ReferenceError "acquireCacheLock"), rows')
      | (None, rows') => (Err DatabaseError, rows')
      end
  end.

(** [/^\d+(\.\d{1,18})?$/] and a value of at most 1e18 as a double: the doubles
    next to 1e18 are 128 apart, so that a value up to 1e18 + 64 is rounded to
    it. *)
Definition valid_amount (s : string) : bool :=
  match split_on "." s with
  | [w] => (1 <=? slen w) && str_forallb is_digit w && (BigInt w <=? 10 ^ 18 + 64)
  | [w; f] =>
      (1 <=? slen w) && str_forallb is_digit w && (1 <=? slen f) && (slen f <=? 18) && str_forallb is_digit f &&
      (BigInt w * 10 ^ 18 + BigInt f * 10 ^ (18 - slen f) <=? (10 ^ 18 + 64) * 10 ^ 18)
  | _ => false
  end.

(** [validateBatchInputs]: the index and the field of the first invalid item.
    A date is valid, as the type of the input says. *)
Definition invalid_field (item : CreateSettlementInput) : option string :=
  if String.eqb (trim (in_bondId item)) EmptyString then Some "bondId"
  else if negb (valid_amount (in_amount item)) then Some "amount"
  else if String.eqb (trim (in_transactionHash item)) EmptyString || (128 <? slen (in_transactionHash item))
  then Some "transactionHash"
  else None.

Fixpoint validateBatchInputs (index : Z) (items : list CreateSettlementInput) : result (Z * string) () :=
  match items with
  | [] => Ok ()
  | item :: rest =>
      match invalid_field item with
      | Some f => Err (index, f)
      | None => validateBatchInputs (index + 1) rest
      end
  end.

Inductive batch_error := InvalidInput (index : Z) (field : string) | BatchDatabaseError.

Definition upsertSettlementBatch (has_pool : bool) (inputs : list (Z * string * CreateSettlementInput))
    (rows : list Settlement) : result batch_error (list Settlement) * list Settlement :=
  match validateBatchInputs 0 (inputs.*2) with
  | Err (index, f) => (Err (InvalidInput index f), rows)
  | Ok _ =>
      match upsertBatch store_amount bond_exists has_pool inputs rows with
      | (Some rs, rows') => (Ok (settlement <$> rs), rows')
      | (None, rows') => (Err BatchDatabaseError, rows')
      end
  end.
End Service.

(** ** Status changes follow the matrix *)

Definition rows_ok (rows : list Settlement) : Prop := NoDup (transactionHash <$> rows).

Lemma find_hash h rows r : rows_ok rows →
  findByTransactionHash h rows = Some r ↔ r ∈ rows ∧ transactionHash r = h.
Proof.
  intros Hok. unfold findByTransactionHash. split.
  - destruct (list_find _ rows) as [[k x]|] eqn:E; [|done]. intros [= <-].
    apply list_find_Some in E as (Hk & Hx & _). split; [by eapply list_elem_of_lookup_2|done].
  - intros [Hin Hh]. destruct (list_find_elem_of (λ r, transactionHash r = h) rows r Hin Hh) as [[k x] E]. rewrite E.
    apply list_find_Some in E as (Hk & Hx & _). simpl. f_equal. apply list_elem_of_lookup_2 in Hk.
    apply list_elem_of_lookup in Hin as [k1 H1], Hk as [k2 H2].
    assert (k1 = k2) as ->; [|congruence].
    eapply (NoDup_lookup _ _ _ h Hok); rewrite list_lookup_fmap, ?H1, ?H2; simpl; congruence.
Qed.

Lemma find_none h rows : findByTransactionHash h rows = None ↔ h ∉ transactionHash <$> rows.
Proof.
  unfold findByTransactionHash. split.
  - destruct (list_find _ rows) as [[k x]|] eqn:E; [done|]. intros _ (r & -> & Hr)%list_elem_of_fmap.
    apply list_find_None in E. rewrite Forall_forall in E. by apply (E r Hr).
  - intros Hn. destruct (list_find _ rows) as [[k x]|] eqn:E; [|done]. exfalso. apply Hn.
    apply list_find_Some in E as (Hk & <- & _). apply list_elem_of_fmap_2. by eapply list_elem_of_lookup_2.
Qed.

Section Lawful.
Variable store_amount : string → option string.
Variable bond_exists : string → bool.

(** What one upsert does to the row of each hash. *)
Lemma upsert_rows now uuid input rows res rows' : rows_ok rows →
  upsert store_amount bond_exists now uuid input rows = Some (res, rows') →
  rows_ok rows' ∧
  (∀ h, findByTransactionHash h rows' =
     if bool_decide (h = in_transactionHash input) then Some (settlement res) else findByTransactionHash h rows) ∧
  status (settlement res) = default pending (in_status input) ∧
  match findByTransactionHash (in_transactionHash input) rows with
  | Some r => isDuplicate res = true ∧ id (settlement res) = id r ∧ bondId (settlement res) = bondId r ∧
              createdAt (settlement res) = createdAt r
  | None => isDuplicate res = false
  end.
Proof.
  intros Hok Hu. unfold upsert in Hu. destruct (store_amount (in_amount input)) as [a|]; [|done]. simpl in Hu.
  destruct (findByTransactionHash (in_transactionHash input) rows) as [r|] eqn:Ef.
  - injection Hu as <- <-. simpl. apply find_hash in Ef as Ef'; [|done]. destruct Ef' as [Hin Hh].
    set (r' := updated now a input r).
    assert (transactionHash <$> ((λ x, if bool_decide (transactionHash x = transactionHash r) then r' else x) <$> rows) =
      transactionHash <$> rows) as Hsame.
    { rewrite <- list_fmap_compose. apply list_fmap_ext. intros k x _. simpl. case_bool_decide; [|done]. unfold r'. simpl. congruence. }
    assert (rows_ok ((λ x, if bool_decide (transactionHash x = transactionHash r) then r' else x) <$> rows)) as Hok'
      by (unfold rows_ok; by rewrite Hsame).
    split; [done|]. split; [|done]. intros h. case_bool_decide as Hcase.
    + subst h. apply find_hash; [done|]. split; [|by rewrite <- Hh]. apply list_elem_of_fmap. exists r.
      split; [|done]. by rewrite bool_decide_eq_true_2.
    + destruct (findByTransactionHash h rows) as [x|] eqn:Ex.
      * apply find_hash in Ex as [Hx <-]; [|done]. apply find_hash; [done|]. split; [|done]. apply list_elem_of_fmap.
        exists x. split; [|done]. rewrite bool_decide_eq_false_2; [done|]. congruence.
      * apply find_none. rewrite Hsame. by apply find_none.
  - destruct (bond_exists (in_bondId input)); [|done]. injection Hu as <- <-. simpl.
    match goal with |- context [rows ++ [?x]] => set (r' := x) end.
    apply find_none in Ef as Hn. assert (rows_ok (rows ++ [r'])) as Hok'.
    { unfold rows_ok. rewrite fmap_app. apply NoDup_app. split; [done|]. split; [|apply NoDup_singleton].
      intros x Hx Hx'. simpl in Hx'. apply list_elem_of_singleton in Hx'. subst x. done. }
    split; [done|]. split; [|done]. intros h. case_bool_decide as Hcase.
    + subst h. apply find_hash; [done|]. split; [|done]. apply elem_of_app. right. by apply list_elem_of_singleton.
    + destruct (findByTransactionHash h rows) as [x|] eqn:Ex.
      * apply find_hash in Ex as [Hx <-]; [|done]. apply find_hash; [done|]. split; [|done]. apply elem_of_app. by left.
      * apply find_none. apply find_none in Ex. rewrite fmap_app, elem_of_app. simpl. rewrite list_elem_of_singleton.
        intros [?|?]; done.
Qed.

(** The same for the write of the service, with or without the shadow write. *)
Lemma write_status_rows shadow now uuid uuid' input rows o rows' : rows_ok rows →
  write_status store_amount bond_exists shadow now uuid uuid' input rows = (o, rows') →
  rows_ok rows' ∧
  (∀ h, h ≠ in_transactionHash input → findByTransactionHash h rows' = findByTransactionHash h rows) ∧
  (findByTransactionHash (in_transactionHash input) rows' = findByTransactionHash (in_transactionHash input) rows ∨
   ∃ r', findByTransactionHash (in_transactionHash input) rows' = Some r' ∧ status r' = default pending (in_status input)).
Proof.
  intros Hok Hw. assert (∀ u rs, rows_ok rs → let rs' := match upsert store_amount bond_exists now u input rs with
      | Some (_, rs') => rs' | None => rs end in
    rows_ok rs' ∧ (∀ h, h ≠ in_transactionHash input → findByTransactionHash h rs' = findByTransactionHash h rs) ∧
    (findByTransactionHash (in_transactionHash input) rs' = findByTransactionHash (in_transactionHash input) rs ∨
     ∃ r', findByTransactionHash (in_transactionHash input) rs' = Some r' ∧ status r' = default pending (in_status input)))
    as Hone.
  { intros u rs Hrs. destruct (upsert store_amount bond_exists now u input rs) as [[res rs']|] eqn:E; [|auto].
    destruct (upsert_rows _ _ _ _ _ _ Hrs E) as (H1 & H2 & H3 & _). split; [done|]. split.
    - intros h Hh. by rewrite H2, bool_decide_eq_false_2.
    - right. exists (settlement res). by rewrite H2, bool_decide_eq_true_2. }
  destruct (Hone uuid rows Hok) as (A1 & A2 & A3). unfold write_status, executeShadowWrite in Hw.
  destruct shadow; [|destruct (upsert _ _ _ uuid _ rows) as [[r1 rows1]|]; injection Hw as <- <-; auto].
  set (rows1 := match upsert _ _ _ uuid _ rows with Some (_, rs') => rs' | None => rows end) in A1, A2, A3.
  destruct (Hone uuid' rows1 A1) as (B1 & B2 & B3).
  assert (rows' = match upsert store_amount bond_exists now uuid' input rows1 with Some (_, rs') => rs' | None => rows1 end) as ->.
  { unfold rows1 in *. destruct (upsert _ _ _ uuid _ rows) as [[r1 rs1]|];
      destruct (upsert _ _ _ uuid' _ _) as [[r2 rs2]|]; by injection Hw as _ <-. }
  split; [done|]. split.
  - intros h Hh. by rewrite B2, A2.
  - destruct B3 as [B3|?]; [|by right]. rewrite B3. exact A3.
Qed.

(** A call of [upsertSettlementStatus] with its clock and ids. *)
Definition status_call : Type := bool * Z * string * string * CreateSettlementInput.

Definition call_status (rows : list Settlement) (c : status_call) : list Settlement :=
  let '(shadow, now, uuid, uuid', input) := c in
  (upsertSettlementStatus store_amount bond_exists shadow now uuid uuid' input rows).2.

(** What one call may do to the row of a hash. *)
Definition lawful (input : CreateSettlementInput) (o o' : option Settlement) : Prop :=
  o' = o ∨ ∃ r', o' = Some r' ∧ status r' = default pending (in_status input) ∧
    match in_status input, o with
    | Some s, Some r => isValid SETTLEMENT_TRANSITIONS (status r) s = true
    | Some s, None => s = pending ∨ s = failed
    | None, _ => True
    end.

Lemma call_status_lawful rows shadow now uuid uuid' input : rows_ok rows →
  let rows' := call_status rows (shadow, now, uuid, uuid', input) in
  rows_ok rows' ∧ ∀ h, if bool_decide (h = in_transactionHash input)
    then lawful input (findByTransactionHash h rows) (findByTransactionHash h rows')
    else findByTransactionHash h rows' = findByTransactionHash h rows.
Proof.
  intros Hok rows'. unfold rows', call_status, upsertSettlementStatus.
  destruct (check_status _ _ rows) eqn:Ec; simpl.
  2: { split; [done|]. intros h. case_bool_decide; [by left|done]. }
  destruct (write_status _ _ shadow now uuid uuid' input rows) as [o rows1] eqn:Ew.
  destruct (write_status_rows _ _ _ _ _ _ _ _ Hok Ew) as (H1 & H2 & H3).
  assert ((match o with Some _ => (Err (ReferenceError "acquireCacheLock"), rows1) | None => (Err DatabaseError, rows1) end :
    result service_error Settlement * list Settlement).2 = rows1) as -> by (by destruct o).
  split; [done|]. intros h. case_bool_decide as Hh; [|by apply H2]. subst h. destruct H3 as [H3|(r' & H3 & Hst)]; [by left|].
  right. exists r'. split; [done|]. split; [done|]. unfold check_status in Ec. destruct (in_status input) as [s|]; [|done].
  destruct (findByTransactionHash (in_transactionHash input) rows) as [r|].
  - unfold validateSettlementTransition, tryTransition in Ec. by destruct (isValid _ (status r) s).
  - destruct s; [by left|done|by right].
Qed.

Lemma settled_terminal s : isValid SETTLEMENT_TRANSITIONS settled s = false.
Proof. by destruct s. Qed.

(** *** Overlapping calls *)

(** A call past its check: its input, the status it found, and how many of its
    writes are still to come (two with the shadow write). *)
Record pending_call := { input_of : CreateSettlementInput; seen : option SettlementLifecycleStatus; writes : nat }.

Record service := { table : list Settlement; waiting : gmap nat pending_call }.

(** Calls are cut at their waits: the check reads the row, and each write is one
    statement; others may come in between. A call may die at any wait. *)
Inductive sstep (s : service) : service → Prop :=
| s_check i (shadow : bool) input : waiting s !! i = None → in_status input ≠ None →
    check_status (in_transactionHash input) (in_status input) (table s) = Ok () →
    sstep s {| table := table s;
               waiting := <[i := {| input_of := input;
                 seen := status <$> findByTransactionHash (in_transactionHash input) (table s);
                 writes := if shadow then 2 else 1 |}]> (waiting s) |}
| s_write i c n now uuid : waiting s !! i = Some c → writes c = S n →
    sstep s {| table := match upsert store_amount bond_exists now uuid (input_of c) (table s) with
                        | Some (_, rows) => rows | None => table s end;
               waiting := match n with
                          | O => base.delete i (waiting s)
                          | S _ => <[i := {| input_of := input_of c; seen := seen c; writes := n |}]> (waiting s)
                          end |}
| s_end i : sstep s {| table := table s; waiting := base.delete i (waiting s) |}.

(** What the check lets pass. *)
Definition allowed (from to : option SettlementLifecycleStatus) : Prop :=
  match from, to with
  | Some a, Some b => isValid SETTLEMENT_TRANSITIONS a b = true
  | None, Some b => b = pending ∨ b = failed
  | _, None => True
  end.

Lemma check_allowed h st rows : check_status h st rows = Ok () → allowed (status <$> findByTransactionHash h rows) st.
Proof.
  unfold check_status, allowed. destruct st as [s|]; [|by destruct (findByTransactionHash h rows)].
  destruct (findByTransactionHash h rows) as [r|]; simpl.
  - unfold validateSettlementTransition, tryTransition. by destruct (isValid _ (status r) s).
  - destruct s; naive_solver.
Qed.

Definition passed_checks (s : service) : Prop :=
  ∀ i c, waiting s !! i = Some c → in_status (input_of c) ≠ None ∧ allowed (seen c) (in_status (input_of c)).

Lemma sstep_passed s s' : passed_checks s → sstep s s' → passed_checks s'.
Proof.
  intros Hs [i shadow input Hi Hst Hc|i c n now uuid Hi Hn|i] j cj; simpl.
  - intros [[<- <-]|[_ Hj]]%lookup_insert_Some; [|by eapply Hs]. simpl. split; [done|by apply check_allowed].
  - destruct n as [|n]; [intros [_ Hj]%lookup_delete_Some; by eapply Hs|].
    intros [[<- <-]|[_ Hj]]%lookup_insert_Some; [|by eapply Hs]. by apply (Hs i c).
  - intros [_ Hj]%lookup_delete_Some. by eapply Hs.
Qed.

(** What a step does to the rows. *)
Lemma sstep_rows s s' : rows_ok (table s) → sstep s s' →
  rows_ok (table s') ∧ ∀ h, findByTransactionHash h (table s') = findByTransactionHash h (table s) ∨
    ∃ i c r', waiting s !! i = Some c ∧ in_transactionHash (input_of c) = h ∧
      findByTransactionHash h (table s') = Some r' ∧ status r' = default pending (in_status (input_of c)).
Proof.
  intros Hok [i shadow input Hi Hst Hc|i c n now uuid Hi Hn|i]; simpl; [split; [done|by left]| |split; [done|by left]].
  destruct (upsert _ _ now uuid (input_of c) (table s)) as [[res rows]|] eqn:E; [|split; [done|by left]].
  destruct (upsert_rows _ _ _ _ _ _ Hok E) as (H1 & H2 & H3 & _). split; [done|]. intros h. rewrite H2.
  case_bool_decide as Hh; [|by left]. right. exists i, c, (settlement res). by subst.
Qed.

(** A settled row that no call past its check is about to write. *)
Definition at_rest (h : string) (r : Settlement) (s : service) : Prop :=
  rows_ok (table s) ∧ findByTransactionHash h (table s) = Some r ∧ status r = settled ∧
  ∀ i c, waiting s !! i = Some c → in_transactionHash (input_of c) ≠ h.

Lemma sstep_at_rest h r s s' : at_rest h r s → sstep s s' → at_rest h r s'.
Proof.
  intros (Hok & Hf & Hr & Hw) Hst. destruct (sstep_rows s s' Hok Hst) as [Hok' Hrows]. split; [done|]. split; [|split; [done|]].
  - destruct (Hrows h) as [E|(i & c & r' & Hi & Hh & _)]; [by rewrite E|]. by destruct (Hw i c Hi).
  - destruct Hst as [i shadow input Hi Hin Hc|i c n now uuid Hi Hn|i]; simpl.
    + intros j cj [[<- <-]|[_ Hj]]%lookup_insert_Some; [|by eapply Hw]. simpl. intros Eh. subst h.
      apply check_allowed in Hc. rewrite Hf in Hc. simpl in Hc. rewrite Hr in Hc. unfold allowed in Hc.
      destruct (in_status input); [|done]. by rewrite settled_terminal in Hc.
    + intros j cj. destruct n as [|n]; [intros [_ Hj]%lookup_delete_Some; by eapply Hw|].
      intros [[<- <-]|[_ Hj]]%lookup_insert_Some; [|by eapply Hw]. simpl. by apply (Hw i c).
    + intros j cj [_ Hj]%lookup_delete_Some. by eapply Hw.
Qed.
End Lawful.

Definition no_calls (rows : list Settlement) : service := {| table := rows; waiting := ∅ |}.

(** C10. Settlement statuses follow the lifecycle, as far as the check before the
    write can ensure it. However calls of [upsertSettlementStatus] that give a
    status overlap, with or without the shadow write, whatever the database
    refuses and wherever they die: a row is changed only by a call for its
    transaction hash, to the status this call asks for; each call past its check
    asks for a status that the matrix allows from the one it found, or, where it
    found no row, for pending or failed; and once a settlement is settled while
    no call for its hash is between its check and its writes, nothing changes it
    any more. (A call that was past its check at that time may still change it:
    [status_check_race].) *)
Theorem settled_is_final store_amount bond_exists rows s : rows_ok rows →
  rtc (sstep store_amount bond_exists) (no_calls rows) s →
  (∀ s', sstep store_amount bond_exists s s' → ∀ h,
     findByTransactionHash h (table s') = findByTransactionHash h (table s) ∨
     ∃ i c r', waiting s !! i = Some c ∧ in_transactionHash (input_of c) = h ∧
       findByTransactionHash h (table s') = Some r' ∧ Some (status r') = in_status (input_of c)) ∧
  (∀ i c, waiting s !! i = Some c → allowed (seen c) (in_status (input_of c))) ∧
  (∀ h r s', findByTransactionHash h (table s) = Some r → status r = settled →
     (∀ i c, waiting s !! i = Some c → in_transactionHash (input_of c) ≠ h) →
     rtc (sstep store_amount bond_exists) s s' → findByTransactionHash h (table s') = Some r).
Proof.
  intros Hok Hst. assert (rows_ok (table s) ∧ passed_checks s) as [Hs Hp].
  { apply (rtc_ind_r (R := sstep store_amount bond_exists) (λ x, rows_ok (table x) ∧ passed_checks x) (no_calls rows)); [|..|done].
    - split; [done|]. intros i c Hc. cbn in Hc. by rewrite lookup_empty in Hc.
    - intros x y _ Hxy [H1 H2]. split; [by eapply (sstep_rows _ _ x)|by eapply sstep_passed]. }
  split; [|split; [intros i c Hi; by apply (Hp i c)|]].
  - intros s' Hstep h. destruct (sstep_rows _ _ s s' Hs Hstep) as [_ Hr].
    destruct (Hr h) as [?|(i & c & r' & Hi & Hh & Hf & Hst')]; [by left|right]. exists i, c, r'. split_and!; try done.
    destruct (Hp i c Hi) as [Hn _]. rewrite Hst'. by destruct (in_status (input_of c)).
  - intros h r s' Hf Hr Hw Hss. assert (at_rest h r s) as Ha by done.
    assert (at_rest h r s') as (_ & ? & _); [|done]. clear -Ha Hss.
    induction Hss as [|x y z Hxy _ IH]; [done|]. by eapply IH, sstep_at_rest.
Qed.

Definition example_input (st : option SettlementLifecycleStatus) : CreateSettlementInput :=
  {| in_bondId := "b1"; in_amount := "5"; in_transactionHash := "tx"; in_settledAt := None; in_status := st |}.

Definition example_calls (last : option SettlementLifecycleStatus) : list status_call :=
  [(false, 0, "u1", "u2", example_input (Some pending)); (false, 1, "u1", "u2", example_input (Some settled));
   (false, 2, "u1", "u2", example_input last)].

Definition example_rows (calls : list status_call) : list Settlement :=
  foldl (call_status Some (λ _, true)) [] calls.

(** [settled_is_final] on a settled payout, whose next call is refused. *)
Lemma settled_is_final_witness :
  let rows := example_rows (take 2 (example_calls None)) in
  check_status "tx" (Some failed) rows = Err (ValidationError "Settlement transition rejected") ∧
  ∃ r, findByTransactionHash "tx" rows = Some r ∧ status r = settled ∧
    ∀ s', rtc (sstep Some (λ _, true)) (no_calls rows) s' → findByTransactionHash "tx" (table s') = Some r.
Proof.
  intros rows. split; [by vm_compute|].
  destruct (settled_is_final Some (λ _, true) rows (no_calls rows)) as (_ & _ & H); [apply NoDup_singleton|apply rtc_refl|].
  eexists. split; [by vm_compute|]. split; [done|]. intros s' Hs'.
  apply (H "tx" _ s'); [by vm_compute|done| |done]. intros i c Hc. cbn in Hc. by rewrite lookup_empty in Hc.
Defined.

(** A settled payout is reset to pending by a call without a status. *)
Example settled_reset_without_status :
  status <$> findByTransactionHash "tx" (example_rows (example_calls None)) = Some pending.
Proof. by vm_compute. Qed.

(** The shadow write of a new settlement always reports a mismatch, since both
    pipelines are the same repository and the second finds the row of the
    first. *)
Lemma shadow_always_mismatches store_amount bond_exists now uuid uuid' input rows a : rows_ok rows →
  store_amount (in_amount input) = Some a → bond_exists (in_bondId input) = true →
  findByTransactionHash (in_transactionHash input) rows = None →
  (executeShadowWrite store_amount bond_exists now uuid uuid' input rows).1.2 = true.
Proof.
  intros Hok Ha Hb Hf. unfold executeShadowWrite.
  destruct (upsert store_amount bond_exists now uuid input rows) as [[r1 rows1]|] eqn:E1.
  2: { unfold upsert in E1. rewrite Ha, Hf, Hb in E1. done. }
  destruct (upsert_rows _ _ _ _ _ _ _ _ Hok E1) as (Hok1 & Hf1 & _ & Hd1). rewrite Hf in Hd1.
  destruct (upsert store_amount bond_exists now uuid' input rows1) as [[r2 rows2]|] eqn:E2; simpl.
  - destruct (upsert_rows _ _ _ _ _ _ _ _ Hok1 E2) as (_ & _ & _ & Hd2).
    rewrite Hf1, bool_decide_eq_true_2 in Hd2 by done. destruct Hd2 as (Hd2 & _).
    apply bool_decide_eq_true_2. unfold diffAndRecordShadowWrites. simpl. rewrite Hd1, Hd2.
    intros H. apply app_nil in H as [_ H]. apply app_nil in H as [_ H]. done.
  - done.
Qed.

(** Two overlapping calls pass their checks on the pending row before either
    writes: the settled row is then marked failed. *)
Lemma status_check_race : ∃ rows r,
  findByTransactionHash "tx" rows = Some r ∧ status r = pending ∧
  check_status "tx" (Some settled) rows = Ok () ∧ check_status "tx" (Some failed) rows = Ok () ∧
  let rows1 := (write_status Some (λ _, true) false 1 "u" "v" (example_input (Some settled)) rows).2 in
  let rows2 := (write_status Some (λ _, true) false 2 "u" "v" (example_input (Some failed)) rows1).2 in
  status <$> findByTransactionHash "tx" rows1 = Some settled ∧ status <$> findByTransactionHash "tx" rows2 = Some failed.
Proof. exists (example_rows (take 1 (example_calls None))). eexists. split; [by vm_compute|]. by split_and!. Qed.

(** A batch writes nothing when an item is invalid, and reports the first; in a
    transaction it writes all items or none. *)
Lemma validateBatchInputs_spec items k : match validateBatchInputs k items with
  | Ok _ => Forall (λ x, invalid_field x = None) items
  | Err (j, f) => ∃ pre x post, items = pre ++ x :: post ∧ j = k + Z.of_nat (length pre) ∧ invalid_field x = Some f ∧
      Forall (λ x, invalid_field x = None) pre
  end.
Proof.
  revert k. induction items as [|x items IH]; intros k; simpl; [done|].
  destruct (invalid_field x) as [f|] eqn:E; [exists [], x, items; split_and!; [done|simpl; lia|done|done]|].
  specialize (IH (k + 1)). destruct (validateBatchInputs (k + 1) items) as [|[j f]]; [by constructor|].
  destruct IH as (pre & y & post & -> & -> & ? & ?). exists (x :: pre), y, post.
  split_and!; [done|simpl; lia|done|by constructor].
Qed.

Lemma settlement_batch_atomic store_amount bond_exists has_pool inputs rows :
  match upsertSettlementBatch store_amount bond_exists has_pool inputs rows with
  | (Ok ss, rows') => ∃ rs, upsert_all store_amount bond_exists inputs rows = (Some rs, rows') ∧ ss = settlement <$> rs ∧
      Forall (λ x, invalid_field x = None) inputs.*2
  | (Err (InvalidInput j f), rows') => rows' = rows ∧ ∃ x, inputs.*2 !! Z.to_nat j = Some x ∧ invalid_field x = Some f
  | (Err BatchDatabaseError, rows') => has_pool = true → rows' = rows
  end.
Proof.
  unfold upsertSettlementBatch. pose proof (validateBatchInputs_spec inputs.*2 0) as Hv.
  destruct (validateBatchInputs 0 inputs.*2) as [|[j f]].
  - unfold upsertBatch. destruct (upsert_all _ _ inputs rows) as [[rs|] rows']; [eauto|]. by intros ->.
  - split; [done|]. destruct Hv as (pre & x & post & -> & -> & ? & _). exists x. split; [|done].
    rewrite Z.add_0_l, Nat2Z.id. by apply list_lookup_middle.
Qed.

(** ** The transaction history *)

#[export] Instance newer_first_total : Total newer_first.
Proof.
  intros a b. unfold newer_first. destruct (Z.lt_trichotomy (settledAt a) (settledAt b)) as [?|[?|?]]; [right; by left| |left; by left].
  destruct (String.leb_total (id b) (id a)); [left|right]; by right.
Qed.

#[export] Instance newer_first_trans : Transitive newer_first.
Proof.
  intros a b c. unfold newer_first. intros [?|[? ?]] [?|[? ?]]; [left; lia|left; lia|left; lia|right].
  split; [lia|]. by eapply str_leb_trans.
Qed.

(** The settlements the history shows, in its order. *)
Definition listed (b : option string) (rows : list Settlement) : list Settlement :=
  merge_sort newer_first (filter (λ r, of_bond b r = true) rows).

Section Order.
Context (b : option string) (rows : list Settlement).
Hypothesis ids : NoDup (id <$> rows).

Lemma listed_perm : listed b rows ≡ₚ filter (λ r, of_bond b r = true) rows.
Proof. apply merge_sort_Permutation. Qed.

Lemma listed_sorted : StronglySorted newer_first (listed b rows).
Proof. apply Sorted_StronglySorted; [apply _|]. apply Sorted_merge_sort, _. Qed.

Lemma listed_rows x : x ∈ listed b rows → x ∈ rows.
Proof. rewrite listed_perm, list_elem_of_filter. tauto. Qed.

Lemma rows_id_inj x y : x ∈ rows → y ∈ rows → id x = id y → x = y.
Proof.
  intros [k Hk]%list_elem_of_lookup [j Hj]%list_elem_of_lookup E.
  assert (k = j) as ->; [|congruence].
  eapply (NoDup_lookup _ _ _ (id x) ids); rewrite list_lookup_fmap, ?Hk, ?Hj; simpl; congruence.
Qed.

Lemma listed_NoDup : NoDup (listed b rows).
Proof. rewrite listed_perm. apply NoDup_filter. by eapply NoDup_fmap_1. Qed.

(** Behind the cursor of a listed settlement comes what is listed after it. *)
Lemma page_after limit pre x post : listed b rows = pre ++ x :: post →
  findManyPaginated limit (Some (settledAt x, id x)) b rows = take limit post.
Proof.
  intros E. pose proof listed_sorted as Hs. pose proof listed_NoDup as Hnd. rewrite E in Hs, Hnd.
  assert (∀ y, y ∈ pre ++ x :: post → y ∈ rows) as Hin by (intros y; rewrite <- E; apply listed_rows).
  apply StronglySorted_app in Hs as (Hpre & _ & Hs). apply StronglySorted_cons in Hs as [Hpost Hsp].
  apply NoDup_app in Hnd as (_ & Hdisj & [Hx Hndp]%NoDup_cons). rewrite Forall_forall in Hpost.
  assert (filter (λ r, after_cursor (Some (settledAt x, id x)) r = true) (listed b rows) = post) as Hf.
  { rewrite E, filter_app, list_filter_none, filter_cons_False, list_filter_id; [done|..]; simpl; unfold key_before.
    - intros y Hy. assert (x ≠ y) as Hne by (by intros ->). specialize (Hpost y Hy).
      destruct Hpost as [?|[Et Ei]]; [apply orb_true_iff; left; by apply Z.ltb_lt|].
      apply orb_true_iff. right. apply andb_true_iff. split; [by apply Z.eqb_eq|]. apply str_leb_ltb; [done|].
      intros Eid. apply Hne. apply rows_id_inj; [set_solver|set_solver|done].
    - rewrite Z.ltb_irrefl, Z.eqb_refl, str_ltb_irrefl. done.
    - intros y Hy. specialize (Hpre y x Hy ltac:(left)). apply not_true_iff_false, orb_false_iff.
      destruct Hpre as [?|[Et Ei]]; [split; [apply Z.ltb_ge; lia|apply andb_false_iff; left; apply Z.eqb_neq; lia]|].
      split; [apply Z.ltb_ge; lia|]. apply andb_false_iff. right. by apply str_leb_not_ltb. }
  unfold findManyPaginated. f_equal.
  apply (StronglySorted_unique_strong newer_first).
  - intros y z Hy Hz [?|[? Hyz]] [?|[? Hzy]]; try lia. apply rows_id_inj.
    + rewrite merge_sort_Permutation, list_elem_of_filter in Hy. tauto.
    + set_solver.
    + apply String.leb_antisym; done.
  - apply Sorted_StronglySorted; [apply _|]. apply Sorted_merge_sort, _.
  - done.
  - rewrite merge_sort_Permutation, <- Hf, listed_perm, list_filter_filter. apply Permutation_refl'.
    apply list_filter_iff. intros r. rewrite andb_true_iff. tauto.
Qed.

Lemma first_page limit : findManyPaginated limit None b rows = take limit (listed b rows).
Proof.
  unfold findManyPaginated, listed. do 2 f_equal. apply list_filter_iff. intros r. by rewrite andb_true_r.
Qed.
End Order.

Section History.
(** The parameters of the cursors; the ISO text of a date and the date the
    database reads from it. *)
Variable payload : string → string → string.
Variable hmac : string → string.
Variable seal : string → string → string → string.
Variable unseal : string → option (option string * option string * option string).
Variable iso : Z → string.
Variable date : string → Z.

(** The handler of the history route: the page and [next_cursor], or nothing
    when the cursor is refused. *)
Definition history (limit : nat) (cursor : option string) (b : option string) (rows : list Settlement)
  : option (list Settlement * option string) :=
  c ← match cursor with
      | None | Some EmptyString => Some None
      | Some s =>
          match Cursor.decodeCursor payload hmac unseal s with
          | Cursor.decoded c => Some (Some (date (t c), i c))
          | _ => None
          end
      end;
  let settlements := findManyPaginated limit c b rows in
  Some (settlements,
        (λ l, Cursor.encodeCursor payload hmac seal (iso (settledAt l)) (id l)) <$> list.last settlements).

(** A client that follows [next_cursor] until there is none. *)
Fixpoint walk (fuel : nat) (limit : nat) (cursor : option string) (b : option string) (rows : list Settlement)
  : option (list (list Settlement)) :=
  match fuel with
  | O => None
  | S fuel' =>
      '(settlements, next_cursor) ← history limit cursor b rows;
      match next_cursor with
      | None => Some [settlements]
      | Some c => cons settlements <$> walk fuel' limit (Some c) b rows
      end
  end.

(** Parsing inverts sealing, a sealed text is not empty, and a date is read
    back from its ISO text. *)
Hypothesis unseal_seal : ∀ ct ci h, unseal (seal ct ci h) = Some (Some ct, Some ci, Some h).
Hypothesis seal_not_empty : ∀ ct ci h, seal ct ci h ≠ EmptyString.
Hypothesis date_iso : ∀ z, date (iso z) = z.

Context (b : option string) (rows : list Settlement).
Hypothesis ids : NoDup (id <$> rows).

Definition cursor_of (x : Settlement) : string := Cursor.encodeCursor payload hmac seal (iso (settledAt x)) (id x).

Lemma history_after limit pre x post : listed b rows = pre ++ x :: post →
  history limit (Some (cursor_of x)) b rows = Some (take limit post, cursor_of <$> list.last (take limit post)).
Proof.
  intros E. unfold history. destruct (cursor_of x) as [|c s] eqn:Ec.
  { exfalso. unfold cursor_of, Cursor.encodeCursor in Ec. by apply seal_not_empty in Ec. }
  rewrite <- Ec. unfold cursor_of at 1. unfold Cursor.decodeCursor, Cursor.encodeCursor. rewrite unseal_seal, String.eqb_refl.
  simpl. rewrite date_iso, (page_after b rows ids limit pre x post E). done.
Qed.

Lemma walk_S fuel limit cursor : walk (S fuel) limit cursor b rows =
  history limit cursor b rows ≫= λ '(settlements, next_cursor),
    match next_cursor with
    | None => Some [settlements]
    | Some c => cons settlements <$> walk fuel limit (Some c) b rows
    end.
Proof. done. Qed.

(** From a page that is not empty the walk goes on behind its last settlement. *)
Lemma walk_after limit : (1 ≤ limit)%nat → ∀ fuel post pre x, (length post < fuel)%nat → listed b rows = pre ++ x :: post →
  ∃ pages, walk fuel limit (Some (cursor_of x)) b rows = Some pages ∧ List.concat pages = post ∧
    Forall (λ p, length p ≤ limit)%nat pages ∧ (length pages ≤ S (length post))%nat.
Proof.
  intros Hl. induction fuel as [|fuel IH]; intros post pre x Hf E; [lia|]. simpl.
  rewrite (history_after limit pre x post E). simpl.
  destruct (list.last (take limit post)) as [y|] eqn:Ey; simpl.
  - pose proof Ey as Ey'. apply last_Some in Ey' as [l El].
    assert (listed b rows = (pre ++ x :: l) ++ y :: drop limit post) as E'.
    { rewrite E. rewrite <- (take_drop limit post) at 1. rewrite El. by rewrite <- !app_assoc. }
    assert (length (drop limit post) < length post)%nat as Hlt.
    { rewrite length_drop. assert (length (take limit post) ≠ 0)%nat by (rewrite El, length_app; simpl; lia).
      rewrite length_take in H. lia. }
    destruct (IH (drop limit post) _ y ltac:(lia) E') as (pages & Hw & Hc & Hp & Hn).
    rewrite Hw. simpl. eexists. split; [done|]. simpl. rewrite Hc. split_and!; [by rewrite take_drop| |lia].
    constructor; [|done]. rewrite length_take. lia.
  - apply last_None in Ey. exists [[]]. destruct post as [|z post]; [by rewrite take_nil; split_and!; simpl; [| |repeat constructor; simpl; lia|lia]|].
    destruct limit; [lia|done].
Qed.

(** Following the history cursors ends and shows everything: with any page
    size of at least one, for one bond or for all, the walk that starts without
    a cursor and follows [next_cursor] stops after at most one page more than
    there are settlements; no page exceeds the limit, every cursor is accepted,
    and the pages together are exactly the matching settlements, each once,
    newest first. *)
Theorem history_walk_complete limit : (1 ≤ limit)%nat →
  ∃ pages, walk (S (S (length rows))) limit None b rows = Some pages ∧ List.concat pages = listed b rows ∧
    Forall (λ p, length p ≤ limit)%nat pages ∧ (length pages ≤ S (length rows))%nat ∧
    NoDup (List.concat pages) ∧ StronglySorted newer_first (List.concat pages) ∧
    (∀ r, r ∈ List.concat pages ↔ r ∈ rows ∧ of_bond b r = true).
Proof.
  intros Hl. assert (∃ pages, walk (S (S (length rows))) limit None b rows = Some pages ∧ List.concat pages = listed b rows ∧
    Forall (λ p, length p ≤ limit)%nat pages ∧ (length pages ≤ S (length rows))%nat) as (pages & Hw & Hc & Hp & Hn).
  2: { exists pages. rewrite Hc. split_and!; try done; [by apply listed_NoDup|apply listed_sorted|].
       intros r. rewrite listed_perm, list_elem_of_filter. tauto. }
  assert (length (listed b rows) ≤ length rows)%nat as Hlen.
  { rewrite listed_perm. apply length_filter. }
  rewrite walk_S. assert (history limit None b rows =
    Some (take limit (listed b rows), cursor_of <$> list.last (take limit (listed b rows)))) as ->.
  { unfold history. simpl. by rewrite first_page. }
  cbn [mbind option_bind].
  destruct (list.last (take limit (listed b rows))) as [y|] eqn:Ey; cbn [fmap option_fmap option_map].
  - pose proof Ey as Ey'. apply last_Some in Ey' as [l El].
    assert (listed b rows = l ++ y :: drop limit (listed b rows)) as E'.
    { rewrite <- (take_drop limit (listed b rows)) at 1. rewrite El. by rewrite <- app_assoc. }
    assert (length (drop limit (listed b rows)) < length (listed b rows))%nat as Hlt.
    { rewrite E' at 2. rewrite length_app. simpl. lia. }
    destruct (walk_after limit Hl (S (length rows)) (drop limit (listed b rows)) l y ltac:(lia) E') as (pages & Hw & Hc & Hp & Hn).
    rewrite Hw. simpl. eexists. split; [done|]. simpl. rewrite Hc.
    split_and!; [by rewrite take_drop| |lia]. constructor; [rewrite length_take; lia|done].
  - apply last_None in Ey. exists [[]]. destruct (listed b rows) as [|z post]; [rewrite take_nil; split_and!; simpl; [done|done|repeat constructor; simpl; lia|lia]|].
    destruct limit; [lia|done].
Qed.
End History.

(** Texts for the parameters: fields kept apart by their lengths, and signed
    decimal numbers for dates. *)
Definition iso_example (z : Z) : string := if z <? 0 then String "-" (bigint_toString (- z)) else bigint_toString z.

Definition date_example (s : string) : Z :=
  match s with String c r => if Ascii.eqb c "-" then - BigInt r else BigInt s | EmptyString => 0 end.

Lemma date_iso_example z : date_example (iso_example z) = z.
Proof.
  unfold iso_example. destruct (Z.ltb_spec z 0).
  - simpl. destruct (bigint_toString_spec (- z)) as (_ & -> & _); lia.
  - destruct (bigint_toString_spec z) as (Hd & Hv & Hn); [lia|]. unfold date_example.
    destruct (bigint_toString z) as [|c r] eqn:E; [done|]. destruct (Ascii.eqb_spec c "-") as [->|]; [|done].
    unfold all_digits in Hd. simpl in Hd. done.
Qed.

Lemma seal_example_not_empty a b h : seal_example a b h ≠ EmptyString.
Proof.
  unfold seal_example. destruct (bigint_toString_spec (slen a) (slen_nonneg a)) as (_ & _ & Hn).
  by destruct (bigint_toString (slen a)).
Qed.

Definition example_row (i : string) (at_ : Z) : Settlement :=
  {| id := i; bondId := "b1"; amount := "5"; transactionHash := "tx" +:+ i; settledAt := at_; status := pending;
     createdAt := at_; updatedAt := at_ |}.

(** Three settlements, two of the same instant, in pages of two. *)
Lemma history_walk_complete_witness :
  let rows := [example_row "a" 1; example_row "b" 2; example_row "c" 2] in
  (∃ pages, walk (λ x y, x +:+ "/" +:+ y) (λ x, x) seal_example unseal_example iso_example date_example 5 2 None None rows =
     Some pages ∧ List.concat pages = listed None rows) ∧
  id <$> listed None rows = ["c"; "b"; "a"].
Proof.
  intros rows. assert (NoDup (id <$> rows)) as Hids by (by apply (bool_decide_unpack _); vm_compute).
  destruct (history_walk_complete (λ x y, x +:+ "/" +:+ y) (λ x, x) seal_example unseal_example iso_example date_example
    unseal_seal_example seal_example_not_empty date_iso_example None rows Hids 2 ltac:(lia)) as (pages & H1 & H2 & _).
  split; [exists pages; split; [exact H1|exact H2]|by vm_compute].
Defined.

(** ** The payment pipeline *)

Record PaymentRequest := {
  p_bondId : option Z;
  p_amount : string;
  p_transactionHash : string;
  fromAccount : string
}.

Definition TX_HASH_RE (s : string) : bool :=
  (slen s =? 64) && str_forallb (λ c, match hex_val c with Some _ => true | None => false end) s.

Definition ETH_ADDR_RE (s : string) : bool :=
  startsWithStr s "0x" && (slen s =? 42) &&
  str_forallb (λ c, match hex_val c with Some _ => true | None => false end) (sliceFrom s 2).

Definition base32_char (c : ascii) : bool :=
  ((65 <=? code c) && (code c <=? 90)) || ((50 <=? code c) && (code c <=? 55)).

Definition STELLAR_ADDR_RE (s : string) : bool :=
  startsWith s "G" && (slen s =? 56) && str_forallb base32_char (sliceFrom s 1).

Definition RISK_HIGH_THRESHOLD : Z := 10000000000000000000.
Definition RISK_MEDIUM_THRESHOLD : Z := 1000000000000000000.

(** [ingestPayment]: whether it returns. *)
Definition ingestPayment (r : PaymentRequest) : bool := negb (String.eqb (trim (p_amount r)) EmptyString).

Definition validatePayment (r : PaymentRequest) : list string :=
  (match p_bondId r with
   | Some n => if n <=? 0 then ["bondId must be a positive integer"] else []
   | None => ["bondId must be a positive integer"]
   end) ++
  (match BigInt_of_string (p_amount r) with
   | Some a => if a <? 0 then ["amount must be non-negative"] else []
   | None => ["amount must be a valid integer string"]
   end) ++
  (if TX_HASH_RE (p_transactionHash r) then [] else ["transactionHash must be a 64-character hex string"]) ++
  (if ETH_ADDR_RE (fromAccount r) || STELLAR_ADDR_RE (fromAccount r) then []
   else ["fromAccount must be a valid Ethereum or Stellar address"]).

(** [processRiskCheck]: the score; a score below 80 is approved. *)
Definition riskScore (r : PaymentRequest) : Z :=
  match BigInt_of_string (p_amount r) with
  | Some a => if RISK_HIGH_THRESHOLD <=? a then 90 else if RISK_MEDIUM_THRESHOLD <=? a then 50 else 0
  | None => 100
  end.

Definition approved (score : Z) : bool := score <? 80.

(** A [PaymentResult] without its dates and durations. *)
Record PaymentResult := {
  settlementId : Z;
  p_status : SettlementLifecycleStatus;
  validation_success : bool;
  risk_approved : bool;
  risk_score : Z;
  processor_success : bool;
  settlement_success : bool;
  p_isDuplicate : bool
}.

Definition failedResult (valid risk : bool) (score : Z) : PaymentResult :=
  {| settlementId := 0; p_status := failed; validation_success := valid; risk_approved := risk; risk_score := score;
     processor_success := false; settlement_success := false; p_isDuplicate := false |}.

(** [process]; [settle] is the transaction of [settlePayment], which gives the
    settlement id and whether it is a duplicate, or throws. [None] is an
    exception. *)
Definition process (settle : PaymentRequest → option (Z * bool)) (r : PaymentRequest) : option PaymentResult :=
  if negb (ingestPayment r) then None
  else if negb (bool_decide (validatePayment r = [])) then Some (failedResult false false 0)
  else
    let score := riskScore r in
    if negb (approved score) then Some (failedResult true false score)
    else
      '(sid, dup) ← settle r;
      Some {| settlementId := sid; p_status := settled; validation_success := true; risk_approved := true;
              risk_score := score; processor_success := true; settlement_success := true; p_isDuplicate := dup |}.

Definition payable (r : PaymentRequest) (a : Z) : Prop :=
  trim (p_amount r) ≠ EmptyString ∧ (∃ n, p_bondId r = Some n ∧ 0 < n) ∧
  BigInt_of_string (p_amount r) = Some a ∧ 0 ≤ a < RISK_HIGH_THRESHOLD ∧
  TX_HASH_RE (p_transactionHash r) = true ∧
  (ETH_ADDR_RE (fromAccount r) = true ∨ STELLAR_ADDR_RE (fromAccount r) = true).

Lemma validatePayment_valid r : validatePayment r = [] ↔
  (∃ n, p_bondId r = Some n ∧ 0 < n) ∧ (∃ a, BigInt_of_string (p_amount r) = Some a ∧ 0 ≤ a) ∧
  TX_HASH_RE (p_transactionHash r) = true ∧ (ETH_ADDR_RE (fromAccount r) = true ∨ STELLAR_ADDR_RE (fromAccount r) = true).
Proof.
  unfold validatePayment. rewrite !app_nil, <- orb_true_iff.
  assert ((match p_bondId r with Some n => if n <=? 0 then ["bondId must be a positive integer"] else []
    | None => ["bondId must be a positive integer"] end = []) ↔ ∃ n, p_bondId r = Some n ∧ 0 < n) as ->.
  { destruct (p_bondId r) as [n|]; [|split; [done|by intros (? & ? & _)]]. destruct (Z.leb_spec n 0).
    - split; [done|]. intros (? & [= <-] & ?). lia.
    - split; [eauto|done]. }
  assert ((match BigInt_of_string (p_amount r) with Some a => if a <? 0 then ["amount must be non-negative"] else []
    | None => ["amount must be a valid integer string"] end = []) ↔ ∃ a, BigInt_of_string (p_amount r) = Some a ∧ 0 ≤ a) as ->.
  { destruct (BigInt_of_string (p_amount r)) as [n|]; [|split; [done|by intros (? & ? & _)]]. destruct (Z.ltb_spec n 0).
    - split; [done|]. intros (? & [= <-] & ?). lia.
    - split; [eauto|done]. }
  destruct (TX_HASH_RE (p_transactionHash r)), (ETH_ADDR_RE (fromAccount r) || STELLAR_ADDR_RE (fromAccount r)); intuition discriminate.
Qed.

(** A payment is settled exactly when it passes every stage: the amount is
    a BigInt text that is not blank, from zero up to but below the high-risk
    threshold, the bond id a positive integer, the hash 64 hexadecimal digits
    and the account an Ethereum or Stellar address; then the settlement
    transaction alone decides, its exception passes through, and the risk score
    is 50 from the medium threshold on. Any other payment ends as failed or in
    the exception of an empty amount, whatever the transaction would do, so it
    is never run. *)
Theorem payment_settles_exactly r :
  (∀ a, payable r a → ∀ settle, process settle r =
     '(sid, dup) ← settle r;
     Some {| settlementId := sid; p_status := settled; validation_success := true; risk_approved := true;
             risk_score := if RISK_MEDIUM_THRESHOLD <=? a then 50 else 0; processor_success := true;
             settlement_success := true; p_isDuplicate := dup |}) ∧
  ((¬ ∃ a, payable r a) → ∃ res, (∀ settle, process settle r = res) ∧
     match res with
     | None => trim (p_amount r) = EmptyString
     | Some p => p_status p = failed ∧ settlement_success p = false
     end).
Proof.
  unfold process, ingestPayment. split.
  - intros a (Hb & Hn & Ha & Hr & Ht & Hf) settle.
    destruct (String.eqb_spec (trim (p_amount r)) EmptyString); [done|]. simpl.
    rewrite bool_decide_eq_true_2 by (apply validatePayment_valid; naive_solver lia). simpl.
    unfold riskScore. rewrite Ha. destruct (Z.leb_spec RISK_HIGH_THRESHOLD a); [lia|].
    by destruct (RISK_MEDIUM_THRESHOLD <=? a).
  - intros Hno. destruct (String.eqb_spec (trim (p_amount r)) EmptyString) as [E|E]; simpl; [by exists None|].
    case_bool_decide as Hv; simpl; [|by eexists]. apply validatePayment_valid in Hv as (Hn & (a & Ha & H0) & Ht & Hf).
    unfold riskScore. rewrite Ha. destruct (Z.leb_spec RISK_HIGH_THRESHOLD a) as [|Hlt]; simpl; [by eexists|].
    exfalso. apply Hno. exists a. by split_and!.
Qed.

(** A payment of two tokens from a Stellar account, approved with score 50. *)
Definition example_payment : PaymentRequest :=
  {| p_bondId := Some 4; p_amount := "2000000000000000000";
     p_transactionHash := "00000000000000000000000000000000000000000000000000000000000000ab";
     fromAccount := "GAAAAAAAAAAAAAAAAAAAAAAAAAAAAAAAAAAAAAAAAAAAAAAAAAAAAAAA" |}.

Lemma payment_settles_exactly_witness :
  process (λ _, Some (7, false)) example_payment =
    Some {| settlementId := 7; p_status := settled; validation_success := true; risk_approved := true;
            risk_score := 50; processor_success := true; settlement_success := true; p_isDuplicate := false |}.
Proof.
  apply (proj1 (payment_settles_exactly example_payment) 2000000000000000000).
  split_and!; try (vm_compute; congruence); [by exists 4|by right].
Defined.
