(* ===== verification/ApiKeys.v ===== *)
(** * API keys

    [services/apiKeys.ts] with its in-memory store, [lib/singleflight.ts],
    [db/repositories/apiKeysRepository.ts], the scope checks of
    [middleware/apiKey.ts], [repositories/apiKeyRepository.ts] and
    [services/apiKeyRotationService.ts]. SHA-256, the random bytes and the clock
    are parameters; listing orders and the tenant context are left out. *)

From stdpp Require Import base option list gmap strings relations.
From Stdlib Require Import ZArith Lia Ascii.
From S2P Require Import Prelude JsLib.

Open Scope Z_scope.

(** ** Data *)

Inductive SubscriptionTier := free | pro | enterprise.

#[export] Instance SubscriptionTier_eq_dec : EqDecision SubscriptionTier.
Proof. solve_decision. Defined.

Record StoredApiKey := {
  id : string;
  hashedKey : string;
  prefix : string;
  scopes : list string;
  scope : option string;
  tier : SubscriptionTier;
  ownerId : string;
  createdAt : Z;
  lastUsedAt : option Z;
  active : bool
}.

Record CreateApiKeyResult := {
  r_id : string;
  r_key : string;
  r_prefix : string;
  r_scope : option string;
  r_scopes : list string;
  r_tier : SubscriptionTier;
  r_createdAt : Z
}.

Definition set_active (a : bool) (k : StoredApiKey) : StoredApiKey :=
  {| id := id k; hashedKey := hashedKey k; prefix := prefix k; scopes := scopes k; scope := scope k; tier := tier k;
     ownerId := ownerId k; createdAt := createdAt k; lastUsedAt := lastUsedAt k; active := a |}.

Definition touch (now : Z) (k : StoredApiKey) : StoredApiKey :=
  {| id := id k; hashedKey := hashedKey k; prefix := prefix k; scopes := scopes k; scope := scope k; tier := tier k;
     ownerId := ownerId k; createdAt := createdAt k; lastUsedAt := Some now; active := active k |}.

(** [/^cr_[0-9a-f]{64}$/]. *)
Definition is_hex_lower (c : ascii) : bool := is_digit c || ((97 <=? code c) && (code c <=? 102)).

Definition KEY_RE (s : string) : bool :=
  startsWithStr s "cr_" && (slen s =? 67) && str_forallb is_hex_lower (sliceFrom s 3).

(** The scope argument of [generateApiKey]: one scope or an array. *)
Definition scope_arg : Type := string + list string.

Definition grantedScopes (arg : scope_arg) (explicit : option (list string)) : list string :=
  match explicit with Some l => l | None => match arg with inl s => [s] | inr l => l end end.

Section Keys.
Variable sha256 : string → string.

Definition hashKey (raw : string) : string := sha256 raw.
Definition extractPrefix (raw : string) : string := sliceTo (sliceFrom raw 3) 8.

(** ** The in-memory store *)

Abbreviation store := (jsmap string StoredApiKey).

(** [random] and [newId] are the hexadecimal texts of the random bytes. *)
Definition generateApiKey (now : Z) (random newId owner : string) (arg : scope_arg) (t : SubscriptionTier)
    (explicit : option (list string)) (st : store) : store * CreateApiKeyResult :=
  let rawKey := "cr_" +:+ random in
  let granted := grantedScopes arg explicit in
  let stored := {| id := newId; hashedKey := hashKey rawKey; prefix := extractPrefix rawKey; scope := head granted;
                   scopes := granted; tier := t; ownerId := owner; createdAt := now; lastUsedAt := None; active := true |} in
  (jm_set newId stored st,
   {| r_id := newId; r_key := rawKey; r_prefix := extractPrefix rawKey; r_scope := head granted; r_scopes := granted;
      r_tier := t; r_createdAt := now |}).

(** The loop of [_validateApiKeyDirect]: the first record with the prefix and
    hash decides. *)
Fixpoint validate_scan (now : Z) (pfx hashed : string) (st : store) : store * option StoredApiKey :=
  match st with
  | [] => ([], None)
  | (i, key) :: rest =>
      if String.eqb (prefix key) pfx && String.eqb (hashedKey key) hashed then
        if active key then ((i, touch now key) :: rest, Some (touch now key)) else (st, None)
      else let '(rest', r) := validate_scan now pfx hashed rest in ((i, key) :: rest', r)
  end.

Definition validateApiKey (now : Z) (raw : string) (st : store) : store * option StoredApiKey :=
  if negb (KEY_RE raw) then (st, None) else validate_scan now (extractPrefix raw) (hashKey raw) st.

Definition revokeApiKey (i : string) (owner : option string) (st : store) : store * bool :=
  match jm_get i st with
  | None => (st, false)
  | Some key =>
      match owner with
      | Some o => if negb (String.eqb (ownerId key) o) then (st, false) else (jm_set i (set_active false key) st, true)
      | None => (jm_set i (set_active false key) st, true)
      end
  end.

Definition rotateApiKey (now : Z) (random newId i : string) (st : store) : store * option CreateApiKeyResult :=
  match jm_get i st with
  | None => (st, None)
  | Some existing =>
      if negb (active existing) then (st, None)
      else let '(st', r) := generateApiKey now random newId (ownerId existing) (inr (scopes existing)) (tier existing) None
                              (jm_set i (set_active false existing) st) in (st', Some r)
  end.

Definition findApiKeyById (i : string) (st : store) : option StoredApiKey := jm_get i st.

Definition listApiKeys (owner : string) (st : store) : list StoredApiKey :=
  filter (λ k, ownerId k = owner) (jm_values st).

(** ** Scopes *)

Definition LEGACY_FULL : list string := ["full"; "enterprise"].
Definition LEGACY_READ : list string := ["read"; "public"].
Definition REALM_public : list string := ["trust:read"; "attestations:read"; "read"].

Definition has (l : list string) (s : string) : bool := bool_decide (s ∈ l).

Definition scopeSatisfies (granted : list string) (required : string) : bool :=
  has granted required || existsb (has LEGACY_FULL) granted ||
  (existsb (has LEGACY_READ) granted && has REALM_public required).

Inductive auth_error := UnauthorizedError (message : string) | ForbiddenError (message : string).

(** [extractRawKey] from the two headers. *)
Definition extractRawKey (authorization x_api_key : option string) : option string :=
  match authorization with
  | Some a => if startsWithStr a "Bearer " then Some (sliceFrom a 7) else x_api_key
  | None => x_api_key
  end.

(** [requireApiKey] followed by [requireScope]. *)
Definition requireApiKey (now : Z) (authorization x_api_key : option string) (st : store)
  : store * result auth_error StoredApiKey :=
  match extractRawKey authorization x_api_key with
  | None | Some EmptyString => (st, Err (UnauthorizedError "API key required"))
  | Some raw =>
      match validateApiKey now raw st with
      | (st', None) => (st', Err (UnauthorizedError "Invalid or revoked API key"))
      | (st', Some k) => (st', Ok k)
      end
  end.

Definition requireScope (required : string) (k : option StoredApiKey) : result auth_error () :=
  match k with
  | None => Err (UnauthorizedError "API key required")
  | Some key => if scopeSatisfies (scopes key) required then Ok () else Err (ForbiddenError required)
  end.

(** ** The rotation service *)

Inductive key_action := CREATE_API_KEY | ROTATE_API_KEY | REVOKE_API_KEY.

Record key_audit := { a_actor : string; a_action : key_action; a_resource : string; a_error : option string }.

Record service := { keys : store; trail : list key_audit }.

Definition logAction (actor : string) (act : key_action) (i : string) (err : option string) (st : store) (s : service) : service :=
  {| keys := st; trail := trail s ++ [{| a_actor := actor; a_action := act; a_resource := i; a_error := err |}] |}.

Definition issueKey (now : Z) (random newId owner : string) (sc : string) (t : SubscriptionTier) (s : service)
  : service * CreateApiKeyResult :=
  let '(st, r) := generateApiKey now random newId owner (inr [sc]) t None (keys s) in
  (logAction owner CREATE_API_KEY (r_id r) None st s, r).

(** Nothing is awaited between the lookup and the rotation. *)
Definition rotateKey (now : Z) (random newId i actor : string) (s : service) : service * option CreateApiKeyResult :=
  match findApiKeyById i (keys s) with
  | None => (logAction actor ROTATE_API_KEY i (Some "API key not found") (keys s) s, None)
  | Some existing =>
      if negb (active existing) then
        (logAction actor ROTATE_API_KEY i (Some "API key is already revoked") (keys s) s, None)
      else match rotateApiKey now random newId i (keys s) with
      | (st, None) => (logAction actor ROTATE_API_KEY i (Some "API key rotation failed") st s, None)
      | (st, Some r) => (logAction actor ROTATE_API_KEY i None st s, Some r)
      end
  end.

Definition revokeKey (i actor : string) (s : service) : service * bool :=
  let '(st, revoked) := revokeApiKey i None (keys s) in
  (logAction actor REVOKE_API_KEY i (if revoked then None else Some "API key not found") st s, revoked).

(** ** Runs of the store *)

(** The keys issued so far, with their ids. *)
Record key_state := { st : store; issued : list (string * string) }.

(** The fresh random texts of a key: an id that is not in use, and 64
    hexadecimal digits never drawn before. *)
Definition fresh (random newId : string) (s : key_state) : Prop :=
  jm_get newId (st s) = None ∧ KEY_RE ("cr_" +:+ random) = true ∧ "cr_" +:+ random ∉ (issued s).*2.

Inductive kstep : key_state → key_state → Prop :=
| k_generate s now random newId owner arg t explicit : fresh random newId s →
    kstep s {| st := (generateApiKey now random newId owner arg t explicit (st s)).1;
               issued := (newId, "cr_" +:+ random) :: issued s |}
| k_validate s now raw : kstep s {| st := (validateApiKey now raw (st s)).1; issued := issued s |}
| k_revoke s i owner : kstep s {| st := (revokeApiKey i owner (st s)).1; issued := issued s |}
| k_rotate s now random newId i st' r : fresh random newId s →
    rotateApiKey now random newId i (st s) = (st', Some r) →
    kstep s {| st := st'; issued := (newId, "cr_" +:+ random) :: issued s |}.

Definition kreachable (s : key_state) : Prop := rtc kstep {| st := []; issued := [] |} s.

(** SHA-256 does not collide on [raw] and the keys issued. *)
Definition no_collision (raw : string) (s : key_state) : Prop :=
  ∀ raw', raw' ∈ (issued s).*2 → sha256 raw' = sha256 raw → raw' = raw.

(** ** What validation accepts *)

Definition same_grant (k k' : StoredApiKey) : Prop :=
  hashedKey k' = hashedKey k ∧ prefix k' = prefix k ∧ ownerId k' = ownerId k ∧ scopes k' = scopes k ∧ tier k' = tier k ∧
  (active k = false → active k' = false).

Record key_ok (s : key_state) : Prop := {
  ko_keys : NoDup (jm_keys (st s));
  ko_record i k : jm_get i (st s) = Some k → ∃ raw, (i, raw) ∈ issued s ∧ hashedKey k = sha256 raw ∧ prefix k = extractPrefix raw;
  ko_issued i raw : (i, raw) ∈ issued s → KEY_RE raw = true ∧
    ∃ k, jm_get i (st s) = Some k ∧ hashedKey k = sha256 raw ∧ prefix k = extractPrefix raw;
  ko_raws : NoDup (issued s).*2
}.

Definition matching (p h : string) (e : string * StoredApiKey) : bool :=
  String.eqb (prefix e.2) p && String.eqb (hashedKey e.2) h.

(** The loop finds the first match and touches it when it is active. *)
Lemma validate_scan_find now p h m : NoDup (jm_keys m) → validate_scan now p h m =
  match List.find (matching p h) m with
  | Some (i, k) => if active k then (jm_set i (touch now k) m, Some (touch now k)) else (m, None)
  | None => (m, None)
  end.
Proof.
  induction m as [|[i k] m IH]; intros Hnd; simpl; [done|]. apply NoDup_cons in Hnd as [Hi Hnd].
  unfold matching at 1. simpl. destruct (String.eqb (prefix k) p && String.eqb (hashedKey k) h).
  - destruct (active k); [|done]. by rewrite decide_True.
  - rewrite (IH Hnd). destruct (List.find (matching p h) m) as [[j k']|] eqn:E; [|done].
    destruct (active k'); [|done]. rewrite decide_False; [done|]. intros ->. apply Hi.
    apply List.find_some in E as [E _]. apply list_elem_of_In in E. apply list_elem_of_fmap. by exists (j, k').
Qed.

Lemma find_raw s raw : key_ok s → no_collision raw s →
  match List.find (matching (extractPrefix raw) (hashKey raw)) (st s) with
  | Some (i, k) => (i, raw) ∈ issued s ∧ jm_get i (st s) = Some k
  | None => ∀ i, (i, raw) ∉ issued s
  end.
Proof.
  intros Hs Hc. destruct (List.find _ _) as [[i k]|] eqn:E.
  - apply List.find_some in E as [E Hm]. apply list_elem_of_In in E.
    apply jm_get_elem in E; [|apply Hs]. destruct (ko_record s Hs i k E) as (raw' & Hi & Hh & _).
    unfold matching in Hm. simpl in Hm. breflect. destruct Hm as [_ Hm].
    assert (raw' = raw) as <-; [|done]. apply Hc; [apply list_elem_of_fmap; by exists (i, raw')|]. unfold hashKey in *. congruence.
  - intros i Hi. destruct (ko_issued s Hs i raw Hi) as (_ & k & Hk & Hh & Hp). apply jm_get_elem in Hk; [|apply Hs].
    apply list_elem_of_In in Hk. pose proof (List.find_none _ _ E (i, k) Hk) as Hm. unfold matching, hashKey in Hm. simpl in Hm.
    rewrite Hh, Hp, !String.eqb_refl in Hm. done.
Qed.

Lemma validate_accepts s now raw : key_ok s → no_collision raw s →
  match (validateApiKey now raw (st s)).2 with
  | Some k => ∃ i k0, (i, raw) ∈ issued s ∧ jm_get i (st s) = Some k0 ∧ active k0 = true ∧ k = touch now k0
  | None => ∀ i, (i, raw) ∈ issued s → ∃ k, jm_get i (st s) = Some k ∧ active k = false
  end.
Proof.
  intros Hs Hc. unfold validateApiKey. destruct (KEY_RE raw) eqn:Hr; simpl.
  2:{ intros i Hi. destruct (ko_issued s Hs i raw Hi) as [? _]. congruence. }
  rewrite validate_scan_find by apply Hs. pose proof (find_raw s raw Hs Hc) as Hf.
  destruct (List.find _ _) as [[i k]|]; simpl.
  - destruct Hf as [Hi Hk]. destruct (active k) eqn:Ha; simpl; [by exists i, k|].
    intros j Hj. assert (j = i) as ->; [|by exists k]. pose proof (ko_raws s Hs) as Hnd.
    apply list_elem_of_lookup in Hi as [a Ha']. apply list_elem_of_lookup in Hj as [b Hb].
    assert (a = b) as <-; [|congruence]. eapply NoDup_lookup; [exact Hnd| |]; rewrite list_lookup_fmap; [by rewrite Ha'|by rewrite Hb].
  - intros i Hi. by apply Hf in Hi.
Qed.

(** ** Every operation keeps the grants *)

Definition evolves (m m' : store) : Prop := ∀ i k, jm_get i m = Some k → ∃ k', jm_get i m' = Some k' ∧ same_grant k k'.

Lemma same_grant_refl k : same_grant k k.
Proof. done. Qed.

Lemma same_grant_trans k1 k2 k3 : same_grant k1 k2 → same_grant k2 k3 → same_grant k1 k3.
Proof. unfold same_grant. intuition congruence. Qed.

Lemma evolves_refl m : evolves m m.
Proof. intros i k Hk. exists k. eauto using same_grant_refl. Qed.

Lemma evolves_trans m1 m2 m3 : evolves m1 m2 → evolves m2 m3 → evolves m1 m3.
Proof.
  intros H1 H2 i k Hk. destruct (H1 i k Hk) as (k2 & Hk2 & G1). destruct (H2 i k2 Hk2) as (k3 & Hk3 & G2).
  exists k3. eauto using same_grant_trans.
Qed.

Lemma evolves_update i k k' m : jm_get i m = Some k → same_grant k k' → evolves m (jm_set i k' m).
Proof.
  intros Hk Hg j k0 Hj. rewrite jm_get_set. case_decide as E; [subst; simplify_eq; by exists k'|].
  exists k0. eauto using same_grant_refl.
Qed.

Lemma evolves_new i k m : jm_get i m = None → evolves m (jm_set i k m).
Proof.
  intros Hi j k0 Hj. rewrite jm_get_set, decide_False by congruence. exists k0. eauto using same_grant_refl.
Qed.

Lemma key_ok_update s i k k' : key_ok s → jm_get i (st s) = Some k → same_grant k k' →
  key_ok {| st := jm_set i k' (st s); issued := issued s |}.
Proof.
  intros Hs Hk (Hh & Hp & _). split; simpl.
  - apply jm_NoDup_set, Hs.
  - intros j k0. rewrite jm_get_set. case_decide as E; [|apply Hs]. intros [= <-]. subst j. rewrite Hh, Hp. by apply Hs.
  - intros j raw Hj. destruct (ko_issued s Hs j raw Hj) as (Hr & k0 & Hk0 & H1 & H2). split; [done|]. rewrite jm_get_set.
    case_decide as E; [subst; simplify_eq; exists k'; by rewrite Hh, Hp|by exists k0].
  - apply Hs.
Qed.

Lemma key_ok_new s now random newId owner arg t explicit : key_ok s → fresh random newId s →
  key_ok {| st := (generateApiKey now random newId owner arg t explicit (st s)).1;
            issued := (newId, "cr_" +:+ random) :: issued s |}.
Proof.
  intros Hs (Hi & Hr & Hf). split; simpl.
  - apply jm_NoDup_set, Hs.
  - intros j k. rewrite jm_get_set. case_decide as E.
    + intros [= <-]. subst j. eexists. split; [left|]. done.
    + intros Hj. destruct (ko_record s Hs j k Hj) as (raw & ? & ?). exists raw. split; [by right|done].
  - intros j raw [[= -> ->]|Hj]%elem_of_cons.
    + split; [done|]. rewrite jm_get_set, decide_True by done. by eexists.
    + destruct (ko_issued s Hs j raw Hj) as (? & k & Hk & ?). split; [done|]. exists k.
      rewrite jm_get_set, decide_False by congruence. done.
  - apply NoDup_cons. split; [done|apply Hs].
Qed.

Lemma validate_update now raw s : key_ok s → (validateApiKey now raw (st s)).1 = st s ∨
  ∃ i k, jm_get i (st s) = Some k ∧ (validateApiKey now raw (st s)).1 = jm_set i (touch now k) (st s).
Proof.
  intros Hs. unfold validateApiKey. destruct (KEY_RE raw); simpl; [|by left]. rewrite validate_scan_find by apply Hs.
  destruct (List.find _ _) as [[i k]|] eqn:E; simpl; [|by left]. destruct (active k); simpl; [right|by left].
  exists i, k. split; [|done]. apply List.find_some in E as [E _]. apply list_elem_of_In in E. apply jm_get_elem; [apply Hs|done].
Qed.

Lemma revoke_update i owner m m' b : revokeApiKey i owner m = (m', b) →
  (m' = m ∧ b = false) ∨ ∃ k, jm_get i m = Some k ∧ m' = jm_set i (set_active false k) m ∧ b = true.
Proof.
  unfold revokeApiKey. destruct (jm_get i m) as [k|]; [|intros [=]; by left].
  destruct owner as [o|]; [case_match|]; intros [=]; subst; eauto 10.
Qed.

Lemma rotate_inv now random newId i m m' r : rotateApiKey now random newId i m = (m', Some r) →
  ∃ k, jm_get i m = Some k ∧ active k = true ∧
    (m', r) = generateApiKey now random newId (ownerId k) (inr (scopes k)) (tier k) None (jm_set i (set_active false k) m).
Proof.
  unfold rotateApiKey. destruct (jm_get i m) as [k|]; [|done]. destruct (active k) eqn:Ha; simpl; [|done].
  intros [= <- <-]. exists k. done.
Qed.

Lemma revoked_grant k : same_grant k (set_active false k).
Proof. done. Qed.

Lemma kstep_ok s s' : key_ok s → kstep s s' → key_ok s' ∧ evolves (st s) (st s').
Proof.
  intros Hs Hst. destruct Hst as [s now random newId owner arg t explicit Hf|s now raw|s i owner|s now random newId i st' r Hf Hr]; simpl.
  - split; [by apply key_ok_new|]. by apply evolves_new, Hf.
  - destruct (validate_update now raw s Hs) as [->|(i & k & Hk & ->)];
      [destruct s; split; [done|apply evolves_refl]|].
    split; [by eapply key_ok_update|by eapply evolves_update].
  - destruct (revokeApiKey i owner (st s)) as [m b] eqn:E. simpl. apply revoke_update in E as [[-> _]|(k & Hk & -> & _)];
      [destruct s; split; [done|apply evolves_refl]|].
    split; [eapply key_ok_update|eapply evolves_update]; eauto using revoked_grant.
  - apply rotate_inv in Hr as (k & Hk & _ & E). simpl in E. injection E as -> _.
    set (s1 := {| st := jm_set i (set_active false k) (st s); issued := issued s |}).
    assert (key_ok s1) as Hs1 by (eapply key_ok_update; eauto using revoked_grant).
    assert (fresh random newId s1) as Hf1.
    { destruct Hf as (Hi & ? & ?). split_and!; [|done..]. simpl. rewrite jm_get_set, decide_False by congruence. done. }
    split; [exact (key_ok_new s1 now random newId (ownerId k) (inr (scopes k)) (tier k) None Hs1 Hf1)|].
    eapply evolves_trans; [eapply evolves_update; eauto using revoked_grant|apply (evolves_new newId _ (st s1)), Hf1].
Qed.

Lemma ksteps_ok s s' : key_ok s → rtc kstep s s' → key_ok s' ∧ evolves (st s) (st s').
Proof.
  intros Hs H. induction H as [|s1 s2 s3 H1 _ IH]; [by split; [|apply evolves_refl]|].
  destruct (kstep_ok _ _ Hs H1) as [H2 E]. destruct (IH H2) as [H3 E']. split; [done|]. by eapply evolves_trans.
Qed.

Lemma kreachable_ok s : kreachable s → key_ok s.
Proof.
  intros H. apply (ksteps_ok {| st := []; issued := [] |}) in H as [? _]; [done|].
  split; simpl; [apply NoDup_nil_2|done|intros i raw Hi; by apply elem_of_nil in Hi|apply NoDup_nil_2].
Qed.

Lemma no_collision_issue raw i m s : no_collision raw s → no_collision raw {| st := m; issued := (i, raw) :: issued s |}.
Proof. intros Hc raw' Hr. simpl in Hr. apply elem_of_cons in Hr as [->|Hr]; [done|by apply Hc]. Qed.

(** In every reachable in-memory store, which the tests use, a raw key validates exactly when it was issued
    and its record is active, and the record returned is that one, touched; over
    any further calls a record keeps its owner, scopes and tier and, once
    inactive, stays inactive; a revocation that reports success and a rotation
    leave the key inactive; and a rotation issues one new key, with the owner,
    scopes and tier of the old one, which validates. *)
Theorem api_key_lifecycle s : kreachable s →
  (∀ now raw, no_collision raw s →
     match (validateApiKey now raw (st s)).2 with
     | Some k => ∃ i k0, (i, raw) ∈ issued s ∧ jm_get i (st s) = Some k0 ∧ active k0 = true ∧ k = touch now k0
     | None => ∀ i, (i, raw) ∈ issued s → ∃ k, jm_get i (st s) = Some k ∧ active k = false
     end) ∧
  (∀ s', rtc kstep s s' → evolves (st s) (st s')) ∧
  (∀ i owner m, revokeApiKey i owner (st s) = (m, true) → ∃ k, jm_get i m = Some k ∧ active k = false) ∧
  (∀ now random newId i m r, fresh random newId s → rotateApiKey now random newId i (st s) = (m, Some r) →
     ∃ k k' k2, jm_get i (st s) = Some k ∧ active k = true ∧ jm_get i m = Some k' ∧ active k' = false ∧
       jm_get newId m = Some k2 ∧ ownerId k2 = ownerId k ∧ scopes k2 = scopes k ∧ tier k2 = tier k ∧
       (no_collision (r_key r) s → ∃ k3, (validateApiKey now (r_key r) m).2 = Some k3 ∧ id k3 = newId)).
Proof.
  intros Hs%kreachable_ok. split_and!.
  - intros now raw. by apply validate_accepts.
  - intros s' H. by apply (ksteps_ok s s').
  - intros i owner m [[_ [=]]|(k & Hk & -> & _)]%revoke_update. exists (set_active false k).
    by rewrite jm_get_set, decide_True.
  - intros now random newId i m r Hf Hr.
    pose proof (k_rotate s now random newId i m r Hf Hr) as Hst. apply kstep_ok in Hst as [Hok _]; [|done].
    apply rotate_inv in Hr as (k & Hk & Ha & E). unfold generateApiKey in E. cbv zeta in E. injection E as Hm Hr. destruct Hf as (Hi & Hre & Hnew).
    assert (newId ≠ i) by congruence.
    exists k, (set_active false k). eexists. split_and!; [done..| | | | | | |].
    + rewrite Hm, !jm_get_set, decide_False, decide_True by done. done.
    + done.
    + rewrite Hm, jm_get_set, decide_True by done. done.
    + done.
    + done.
    + done.
    + rewrite Hr. cbn [r_key]. intros Hc. pose proof (validate_accepts _ now _ Hok (no_collision_issue _ newId m s Hc)) as Hv.
      cbn [st issued] in Hv. destruct (validateApiKey _ _ _) as [m' [k3|]]; cbn [snd] in *.
      * destruct Hv as (j & k0 & Hj & Hk0 & _ & ->). exists (touch now k0). split; [done|]. simpl.
        apply elem_of_cons in Hj as [[= ->]|Hj]; [rewrite Hm, jm_get_set, decide_True in Hk0 by done; by simplify_eq|].
        exfalso. apply Hnew, list_elem_of_fmap. by exists (j, "cr_" +:+ random).
      * destruct (Hv newId) as (k4 & Hk4 & Ha4); [left|].
        rewrite Hm, jm_get_set, decide_True in Hk4 by done. by simplify_eq.
Qed.

(** Every call of the rotation service writes one audit entry, which reports a
    failure exactly when nothing was changed. *)
Lemma service_audited now random newId i actor s :
  (let '(s', out) := rotateKey now random newId i actor s in
   ∃ e, trail s' = trail s ++ [e] ∧ a_resource e = i ∧ (a_error e = None ↔ isSome out = true) ∧
     (out = None → keys s' = keys s)) ∧
  (let '(s', out) := revokeKey i actor s in
   ∃ e, trail s' = trail s ++ [e] ∧ a_resource e = i ∧ (a_error e = None ↔ out = true) ∧ (out = false → keys s' = keys s)).
Proof.
  split.
  - unfold rotateKey, findApiKeyById, rotateApiKey. destruct (jm_get i (keys s)) as [k|]; [|by eexists].
    destruct (active k); simpl; by eexists.
  - unfold revokeKey. destruct (revokeApiKey i None (keys s)) as [m b] eqn:E. eexists. split_and!; [done|done|by destruct b|].
    intros ->. apply revoke_update in E as [[-> _]|(? & _ & _ & [=])]. done.
Qed.

(** A required scope is satisfied by itself, by a full key, or by a read key
    when it is public. *)
Lemma scopeSatisfies_spec granted required : scopeSatisfies granted required = true ↔
  required ∈ granted ∨ (∃ s, s ∈ granted ∧ s ∈ LEGACY_FULL) ∨
  ((∃ s, s ∈ granted ∧ s ∈ LEGACY_READ) ∧ required ∈ REALM_public).
Proof.
  assert (∀ l, existsb (has l) granted = true ↔ ∃ s, s ∈ granted ∧ s ∈ l) as He.
  { intros l. rewrite List.existsb_exists. unfold has. setoid_rewrite bool_decide_eq_true. setoid_rewrite list_elem_of_In.
    done. }
  unfold scopeSatisfies. rewrite !orb_true_iff, andb_true_iff, !He. unfold has. rewrite !bool_decide_eq_true. tauto.
Qed.
End Keys.

(** ** [SingleFlight] *)

Module SingleFlight.
Section SingleFlight.
Context {R : Type}.

(** A caller runs the function, waits for the caller that does, or has its
    outcome. *)
Inductive call_state := Leading | Waiting (leader : nat) | Settled (leader : nat) (r : R).

(** For each key in flight the leader and the array of waiters. *)
Record flight_map := { inFlight : gmap string (nat * list nat); calls : gmap nat (string * call_state) }.

Definition new_SingleFlight : flight_map := {| inFlight := ∅; calls := ∅ |}.

(** [do] up to its first await. *)
Definition do_ (c : nat) (key : string) (s : flight_map) : flight_map :=
  match inFlight s !! key with
  | Some (l, ws) => {| inFlight := <[key := (l, ws ++ [c])]> (inFlight s); calls := <[c := (key, Waiting l)]> (calls s) |}
  | None => {| inFlight := <[key := (c, [])]> (inFlight s); calls := <[c := (key, Leading)]> (calls s) |}
  end.

Definition answer (key : string) (l : nat) (r : R) (cs : list nat) (m : gmap nat (string * call_state))
  : gmap nat (string * call_state) := foldr (λ c, <[c := (key, Settled l r)]>) m cs.

(** The function settled with [r], a value or an error: the waiters are
    resolved, the leader returns, and the key is evicted. *)
Definition settle (key : string) (r : R) (s : flight_map) : flight_map :=
  match inFlight s !! key with
  | Some (l, ws) => {| inFlight := delete key (inFlight s); calls := answer key l r (l :: ws) (calls s) |}
  | None => s
  end.

Definition has (key : string) (s : flight_map) : bool := isSome (inFlight s !! key).
Definition size (s : flight_map) : nat := base.size (inFlight s).

Inductive sstep : flight_map → flight_map → Prop :=
| s_do s c key : calls s !! c = None → sstep s (do_ c key s)
| s_settle s key r : sstep s (settle key r s).

Record sf_ok (s : flight_map) : Prop := {
  sf_waits key l ws : inFlight s !! key = Some (l, ws) → calls s !! l = Some (key, Leading) ∧
    ∀ c, c ∈ ws → calls s !! c = Some (key, Waiting l);
  sf_leads key c : calls s !! c = Some (key, Leading) → ∃ ws, inFlight s !! key = Some (c, ws);
  sf_waiting key c l : calls s !! c = Some (key, Waiting l) → ∃ ws, inFlight s !! key = Some (l, ws) ∧ c ∈ ws;
  sf_settled key c l r : calls s !! c = Some (key, Settled l r) → calls s !! l = Some (key, Settled l r)
}.

Lemma answer_lookup key l r cs m c : answer key l r cs m !! c = if decide (c ∈ cs) then Some (key, Settled l r) else m !! c.
Proof.
  induction cs as [|c' cs IH]; simpl; [done|]. destruct (decide (c' = c)) as [->|Hne].
  - rewrite lookup_insert_eq, decide_True; [done|left].
  - rewrite lookup_insert_ne by done. rewrite IH. apply decide_ext. set_solver.
Qed.

Lemma do_ok s c key : sf_ok s → calls s !! c = None → sf_ok (do_ c key s).
Proof.
  intros [H1 H2 H3 H4] Hc. unfold do_. destruct (inFlight s !! key) as [[l ws]|] eqn:E.
  - destruct (H1 _ _ _ E) as [Hl Hw]. split; simpl.
    + intros k l' ws' [[<- [= <- <-]]|[Hk Hin]]%lookup_insert_Some.
      * split; [by rewrite lookup_insert_ne by congruence|]. intros c' [Hc'|Hc']%elem_of_app.
        -- apply Hw in Hc'. by rewrite lookup_insert_ne by congruence.
        -- apply list_elem_of_singleton in Hc' as ->. by rewrite lookup_insert_eq.
      * destruct (H1 _ _ _ Hin) as [Hl' Hw']. split; [by rewrite lookup_insert_ne by congruence|].
        intros c' Hc'%Hw'. by rewrite lookup_insert_ne by congruence.
    + intros k c' [[_ [=]]|[_ [ws' Hin]%H2]]%lookup_insert_Some. destruct (decide (k = key)) as [->|].
      * rewrite lookup_insert_eq. simplify_eq. by eexists.
      * exists ws'. by rewrite lookup_insert_ne.
    + intros k c' l' [[<- [= <- <-]]|[_ (ws' & Hin & ?)%H3]]%lookup_insert_Some.
      * rewrite lookup_insert_eq. eexists. split; [done|]. set_solver.
      * destruct (decide (k = key)) as [->|]; [|exists ws'; by rewrite lookup_insert_ne].
        rewrite lookup_insert_eq. simplify_eq. eexists. split; [done|]. set_solver.
    + intros k c' l' r [[_ [=]]|[_ Hin%H4]]%lookup_insert_Some. by rewrite lookup_insert_ne by congruence.
  - split; simpl.
    + intros k l' ws' [[<- [= <- <-]]|[Hk Hin]]%lookup_insert_Some; [rewrite lookup_insert_eq; set_solver|].
      destruct (H1 _ _ _ Hin) as [Hl' Hw']. split; [by rewrite lookup_insert_ne by congruence|].
      intros c' Hc'%Hw'. by rewrite lookup_insert_ne by congruence.
    + intros k c' [[<- [= <-]]|[_ [ws' Hin]%H2]]%lookup_insert_Some; [rewrite lookup_insert_eq; by eexists|].
      exists ws'. by rewrite lookup_insert_ne by congruence.
    + intros k c' l' [[_ [=]]|[_ (ws' & Hin & ?)%H3]]%lookup_insert_Some. exists ws'. by rewrite lookup_insert_ne by congruence.
    + intros k c' l' r [[_ [=]]|[_ Hin%H4]]%lookup_insert_Some. by rewrite lookup_insert_ne by congruence.
Qed.

Lemma settle_ok s key r : sf_ok s → sf_ok (settle key r s).
Proof.
  intros Hs. pose proof Hs as [H1 H2 H3 H4]. unfold settle. destruct (inFlight s !! key) as [[l ws]|] eqn:E; [|done].
  destruct (H1 _ _ _ E) as [Hl Hw].
  assert (∀ c st, calls s !! c = Some (key, st) → c ∈ l :: ws ∨ ∃ l' r', st = Settled l' r') as Hmine.
  { intros c [|l'|l' r'] Hc; [apply H2 in Hc as [ws' ?]; left; simplify_eq; left| |by right; eauto].
    apply H3 in Hc as (ws' & ? & ?). simplify_eq. left. by right. }
  assert (∀ c k st, c ∈ l :: ws → calls s !! c = Some (k, st) → k = key ∧ ∀ l' r', st ≠ Settled l' r') as Hin.
  { intros c k st [->|Hc]%elem_of_cons Hk; [|apply Hw in Hc]; by simplify_eq. }
  split; cbn [inFlight calls].
  - intros k l' ws' [Hk Hf]%lookup_delete_Some. destruct (H1 _ _ _ Hf) as [Hl' Hw'].
    assert (∀ c st, calls s !! c = Some (k, st) → answer key l r (l :: ws) (calls s) !! c = Some (k, st)) as Hkeep.
    { intros c st Hc. rewrite answer_lookup, decide_False; [done|]. intros Hc'. by destruct (Hin c k st Hc' Hc). }
    split; [by apply Hkeep|]. intros c Hc. by apply Hkeep, Hw'.
  - intros k c. rewrite answer_lookup. case_decide as Hd; [done|]. intros Hc. destruct (decide (k = key)) as [->|].
    + by destruct (Hmine _ _ Hc) as [?|(? & ? & ?)].
    + destruct (H2 _ _ Hc) as [ws' Hf]. exists ws'. by rewrite lookup_delete_ne.
  - intros k c l'. rewrite answer_lookup. case_decide as Hd; [done|]. intros Hc. destruct (decide (k = key)) as [->|].
    + by destruct (Hmine _ _ Hc) as [?|(? & ? & ?)].
    + destruct (H3 _ _ _ Hc) as (ws' & Hf & ?). exists ws'. by rewrite lookup_delete_ne.
  - intros k c l' r'. rewrite !answer_lookup. case_decide as Hd.
    + intros [= <- <- <-]. rewrite decide_True; [done|left].
    + intros Hc%H4. rewrite decide_False; [done|]. intros Hl'. destruct (Hin _ _ _ Hl' Hc) as [_ Hn]. by apply (Hn l' r').
Qed.

(** In every state that calls and settlements can reach: a key has at most
    one execution; a caller without an outcome runs it or waits for it, so it
    is never left behind; and a caller with an outcome has that of the
    execution it shared. Settling a key gives its outcome to every caller of
    the key that was waiting, and to no other. *)
Theorem singleflight_shares s : rtc sstep new_SingleFlight s →
  (∀ key c c', calls s !! c = Some (key, Leading) → calls s !! c' = Some (key, Leading) → c = c') ∧
  (∀ key c st, calls s !! c = Some (key, st) →
     match st with
     | Leading => ∃ ws, inFlight s !! key = Some (c, ws)
     | Waiting l => calls s !! l = Some (key, Leading)
     | Settled l r => calls s !! l = Some (key, Settled l r)
     end) ∧
  (∀ key r c k st, calls s !! c = Some (k, st) → calls (settle key r s) !! c =
     Some (k, match st with
              | Leading => if decide (k = key) then Settled c r else st
              | Waiting l => if decide (k = key) then Settled l r else st
              | Settled _ _ => st
              end)).
Proof.
  intros H. assert (sf_ok s) as Hs.
  { assert (sf_ok new_SingleFlight) as H0 by (split; intros *; cbn [inFlight calls new_SingleFlight]; by rewrite lookup_empty).
    induction H as [|s1 s2 s3 Hst _ IH]; [done|]. apply IH. destruct Hst; [by apply do_ok|by apply settle_ok]. }
  destruct Hs as [H1 H2 H3 H4]. split_and!.
  - intros key c c' [ws Hc]%H2 [ws' Hc']%H2. by simplify_eq.
  - intros key c [|l|l r] Hc; [by apply H2| |by eapply H4].
    apply H3 in Hc as (ws & Hf & _). by apply H1 in Hf as [? _].
  - intros key r c k st Hc. unfold settle. destruct (inFlight s !! key) as [[l ws]|] eqn:E; cbn [calls].
    + destruct (H1 _ _ _ E) as [Hl Hw]. rewrite answer_lookup. case_decide as Hd.
      * apply elem_of_cons in Hd as [->|Hd]; [|apply Hw in Hd]; simplify_eq; by rewrite decide_True.
      * rewrite Hc. destruct st as [|l'|l' r']; [| |done]; case_decide; try done; subst k.
        -- apply H2 in Hc as [ws' ?]. simplify_eq. set_solver.
        -- apply H3 in Hc as (ws' & ? & ?). simplify_eq. set_solver.
    + rewrite Hc. destruct st as [|l'|l' r']; [| |done]; case_decide; try done; subst k.
      * apply H2 in Hc as [ws' ?]. congruence.
      * apply H3 in Hc as (ws' & ? & ?). congruence.
Qed.
End SingleFlight.
Arguments call_state R : clear implicits.
Arguments flight_map R : clear implicits.
End SingleFlight.

(** ** Validation against the database *)

Module Database.
Import SingleFlight.
Section Database.
Variable sha256 : string → string.

Abbreviation R := (result () (option StoredApiKey)).

(** Where the execution for a key is: before its SELECT, or before its UPDATE
    with the row it selected. *)
Inductive phase := Selecting | Touching (k : StoredApiKey).

Record database := { table : list StoredApiKey; sf : flight_map R; phases : gmap string phase }.

Definition findByHashAndPrefix (h p : string) (rows : list StoredApiKey) : option StoredApiKey :=
  List.find (λ k, String.eqb (hashedKey k) h && String.eqb (prefix k) p && active k && negb (bool_decide (scopes k = []))) rows.

Definition updateLastUsedAt (now : Z) (i owner : string) (rows : list StoredApiKey) : list StoredApiKey :=
  (λ k, if String.eqb (id k) i && String.eqb (ownerId k) owner then touch now k else k) <$> rows.

Definition owned (i : string) (owner : option string) (k : StoredApiKey) : bool :=
  String.eqb (id k) i && match owner with Some o => String.eqb (ownerId k) o | None => true end.

Definition revoke_row (i : string) (owner : option string) (rows : list StoredApiKey) : list StoredApiKey * bool :=
  ((λ k, if owned i owner k then set_active false k else k) <$> rows, existsb (owned i owner) rows).

(** [createApiKey]: the hash is unique in the table. *)
Definition createApiKey (row : StoredApiKey) (rows : list StoredApiKey) : result string (list StoredApiKey) :=
  if existsb (λ k, String.eqb (hashedKey k) (hashedKey row)) rows then Err "23505" else Ok (rows ++ [row]).

Definition call (c : nat) (raw : string) (d : database) : database :=
  {| table := table d; sf := do_ c raw (sf d);
     phases := if has raw (sf d) then phases d else <[raw := Selecting]> (phases d) |}.

Definition finish (raw : string) (r : R) (rows : list StoredApiKey) (d : database) : database :=
  {| table := rows; sf := settle raw r (sf d); phases := delete raw (phases d) |}.

Definition select (raw : string) (d : database) : database :=
  match findByHashAndPrefix (hashKey sha256 raw) (extractPrefix raw) (table d) with
  | Some k => {| table := table d; sf := sf d; phases := <[raw := Touching k]> (phases d) |}
  | None => finish raw (Ok None) (table d) d
  end.

(** The validations of any number of callers, cut at their queries, with
    revocations and new keys in between. *)
Inductive dstep : database → database → Prop :=
| d_call d c raw : KEY_RE raw = true → calls (sf d) !! c = None → dstep d (call c raw d)
| d_select d raw : phases d !! raw = Some Selecting → dstep d (select raw d)
| d_touch d raw k now : phases d !! raw = Some (Touching k) →
    dstep d (finish raw (Ok (Some (touch now k))) (updateLastUsedAt now (id k) (ownerId k) (table d)) d)
| d_fail d raw p : phases d !! raw = Some p → dstep d (finish raw (Err ()) (table d) d)
| d_revoke d i owner : dstep d {| table := (revoke_row i owner (table d)).1; sf := sf d; phases := phases d |}
| d_create d row rows : createApiKey row (table d) = Ok rows → dstep d {| table := rows; sf := sf d; phases := phases d |}.

(** The table has the key, and only inactive rows of it. *)
Definition revoked (raw : string) (rows : list StoredApiKey) : Prop :=
  (∃ k, k ∈ rows ∧ hashedKey k = sha256 raw) ∧ ∀ k, k ∈ rows → hashedKey k = sha256 raw → active k = false.

(** No caller other than those of [old] was told that [raw] is valid. *)
Definition denied (raw : string) (old : gmap nat (string * call_state R)) (d : database) : Prop :=
  ∀ c l k, old !! c = None → calls (sf d) !! c ≠ Some (raw, Settled l (Ok (Some k))).

Record drained (raw : string) old (d : database) : Prop := {
  dr_revoked : revoked raw (table d);
  dr_phase k : phases d !! raw ≠ Some (Touching k);
  dr_denied : denied raw old d
}.

Lemma revoked_map raw f rows : (∀ k, hashedKey (f k) = hashedKey k ∧ (active k = false → active (f k) = false)) →
  revoked raw rows → revoked raw (f <$> rows).
Proof.
  intros Hf [(k & Hk & Hh) Ha]. split.
  - exists (f k). split; [by apply list_elem_of_fmap_2|]. by rewrite (proj1 (Hf k)).
  - intros k' (k0 & -> & Hk0)%list_elem_of_fmap Hh0. apply Hf, Ha; [done|]. by rewrite <- (proj1 (Hf k0)).
Qed.

Lemma denied_settle raw old raw' r d rows : denied raw old d → (raw' = raw → ∀ k, r ≠ Ok (Some k)) →
  denied raw old (finish raw' r rows d).
Proof.
  intros Hd Hr c l k Hc. cbn [finish sf]. unfold settle. destruct (inFlight (sf d) !! raw') as [[l' ws]|]; [|by apply Hd].
  cbn [calls]. rewrite answer_lookup. case_decide; [|by apply Hd]. intros [= -> -> ->]. by eapply Hr.
Qed.

Lemma find_revoked raw p rows : revoked raw rows → findByHashAndPrefix (hashKey sha256 raw) p rows = None.
Proof.
  intros [_ Ha]. destruct (findByHashAndPrefix _ _ _) as [k|] eqn:E; [|done]. apply List.find_some in E as [Hk Hm].
  apply list_elem_of_In in Hk. breflect. destruct Hm as [[[Hh _] Hac] _]. rewrite (Ha k Hk Hh) in Hac. done.
Qed.

Lemma drained_step raw old d d' : drained raw old d → dstep d d' → drained raw old d'.
Proof.
  intros [Hr Hp Hd] Hs. destruct Hs as [d c raw' _ Hc|d raw' Hs|d raw' k now Hs|d raw' p Hs|d i owner|d row rows Hcr]; split; simpl.
  - done.
  - intros k. case_match; [apply Hp|]. rewrite lookup_insert_Some. intros [[_ [=]]|[_ H2]]. by eapply Hp.
  - intros c' l k Hc'. simpl. unfold do_. destruct (inFlight (sf d) !! raw') as [[l' ws]|]; simpl;
      rewrite lookup_insert_Some; intros [[_ [=]]|[_ H2]]; by eapply Hd.
  - unfold select. by case_match.
  - intros k. unfold select. case_match eqn:E; simpl.
    + rewrite lookup_insert_Some. intros [[-> _]|[_ H2]]; [|by eapply Hp]. by rewrite find_revoked in E.
    + rewrite lookup_delete_Some. intros [_ H2]. by eapply Hp.
  - unfold select. case_match; [done|]. by apply denied_settle.
  - apply revoked_map; [|done]. intros k'. by case_match.
  - intros k'. rewrite lookup_delete_Some. intros [_ H2]. by eapply Hp.
  - apply denied_settle; [done|]. intros ->. by apply Hp in Hs.
  - done.
  - intros k'. rewrite lookup_delete_Some. intros [_ H2]. by eapply Hp.
  - by apply denied_settle.
  - apply revoked_map; [|done]. intros k'. by case_match.
  - done.
  - done.
  - unfold createApiKey in Hcr. case_match eqn:E; simplify_eq. destruct Hr as [(k & Hk & Hh) Ha]. split; [exists k; set_solver|].
    intros k' [Hk'|Hk']%elem_of_app Hh'; [by apply Ha|]. apply list_elem_of_singleton in Hk' as ->. exfalso. apply Bool.not_true_iff_false in E. apply E.
    apply List.existsb_exists. exists k. split; [by apply list_elem_of_In|]. apply String.eqb_eq. congruence.
  - done.
  - done.
Qed.

(** A row that answers a raw key. *)
Definition fits (raw : string) (k : StoredApiKey) : Prop :=
  hashedKey k = sha256 raw ∧ prefix k = extractPrefix raw ∧ active k = true ∧ scopes k ≠ [].

Record sound (d : database) : Prop := {
  so_phase raw k : phases d !! raw = Some (Touching k) → fits raw k;
  so_calls c raw l k : calls (sf d) !! c = Some (raw, Settled l (Ok (Some k))) → fits raw k
}.

Lemma find_fits raw rows k : findByHashAndPrefix (hashKey sha256 raw) (extractPrefix raw) rows = Some k → fits raw k.
Proof. intros E. apply List.find_some in E as [_ Hm]. breflect. destruct Hm as [[[Hh Hp] Hac] Hs]. split_and!; [done..|]. by destruct (bool_decide_reflect (scopes k = [])). Qed.

Lemma finish_sound raw r rows d : sound d → (∀ k, r = Ok (Some k) → fits raw k) → sound (finish raw r rows d).
Proof.
  intros [Hp Hc] Hr. split; cbn [finish sf phases].
  - intros raw' k. rewrite lookup_delete_Some. intros [_ H]. by eapply Hp.
  - intros c raw' l k. unfold settle. destruct (inFlight (sf d) !! raw) as [[l' ws]|]; cbn [calls]; [|apply Hc].
    rewrite answer_lookup. case_decide; [|apply Hc]. intros [= <- <- ->]. by apply Hr.
Qed.

Lemma dstep_sound d d' : sound d → dstep d d' → sound d'.
Proof.
  intros Hs Hst. destruct Hst as [d c raw _ Hc|d raw Hsel|d raw k now Ht|d raw p Ht|d i owner|d row rows Hcr].
  - destruct Hs as [Hp Hca]. split; simpl.
    + intros raw' k. case_match; [apply Hp|]. rewrite lookup_insert_Some. intros [[_ [=]]|[_ H2]]. by eapply Hp.
    + intros c' raw' l k. unfold do_. destruct (inFlight (sf d) !! raw) as [[l' ws]|]; simpl;
        rewrite lookup_insert_Some; intros [[_ [=]]|[_ H2]]; by eapply Hca.
  - unfold select. case_match eqn:E; [|by apply finish_sound]. destruct Hs as [Hp Hca]. split; simpl; [|done].
    intros raw' k. rewrite lookup_insert_Some. intros [[<- [= <-]]|[_ H2]]; [by eapply find_fits|by eapply Hp].
  - apply finish_sound; [done|]. intros k' [= <-]. by apply (so_phase _ Hs) in Ht.
  - by apply finish_sound.
  - by destruct Hs.
  - by destruct Hs.
Qed.

(** C19. Validation of API keys against the database, with the calls for one key
    coalesced. In every state that calls, queries that may fail, revocations and
    new keys can reach: a caller is told that a raw key is valid only with a row
    of its hash and prefix that was active and had scopes when it was read; and
    once a key is revoked in the table and no validation of it is between its
    SELECT and its UPDATE, no later call is told that the key is valid, however
    validations, revocations and new keys interleave from there on. *)
Theorem revocation_takes_effect raw rows d : rtc dstep {| table := rows; sf := new_SingleFlight; phases := ∅ |} d →
  (∀ c l k, calls (sf d) !! c = Some (raw, Settled l (Ok (Some k))) → fits raw k) ∧
  (revoked raw (table d) → (∀ k', phases d !! raw ≠ Some (Touching k')) →
   ∀ d' c l k, calls (sf d) !! c = None → rtc dstep d d' → calls (sf d') !! c ≠ Some (raw, Settled l (Ok (Some k)))).
Proof.
  intros Hreach. split.
  - assert (sound d) as [_ Hc]; [|intros c l k; apply Hc].
    assert (sound {| table := rows; sf := new_SingleFlight; phases := ∅ |}) as H0 by (split; simpl; intros *; by rewrite lookup_empty).
    clear -Hreach H0. induction Hreach; eauto using dstep_sound.
  - clear Hreach. intros Hr Hp d' c l k Hc H. assert (drained raw (calls (sf d)) d) as Hd.
    { split; [done|done|]. intros c' l' k' Hn. by rewrite Hn. }
    assert (drained raw (calls (sf d)) d') as [_ _ Hden]; [|by apply Hden].
    revert Hd. generalize (calls (sf d)). clear Hc Hr Hp. intros old Hd. induction H as [|d1 d2 d3 Hs _ IH]; [done|].
    eauto using drained_step.
Qed.
End Database.
End Database.

(** A key with its row, and a run in which it is revoked between the SELECT and
    the UPDATE of a validation. *)
Module RaceExample.
Import SingleFlight Database.

Definition sha (s : string) : string := s.
Definition raw : string := "cr_" +:+ str_repeat "a" 64.
Definition row : StoredApiKey :=
  {| id := "1"; hashedKey := sha raw; prefix := "aaaaaaaa"; scopes := ["read"]; scope := Some "read"; tier := free;
     ownerId := "acme"; createdAt := 0; lastUsedAt := None; active := true |}.
Definition d0 : database := {| table := [row]; sf := new_SingleFlight; phases := ∅ |}.
Definition revoke (d : database) : database := {| table := (revoke_row "1" None (table d)).1; sf := sf d; phases := phases d |}.
Definition d1 : database := revoke (select sha raw (call 0 raw d0)).
Definition d2 : database := call 1 raw d1.
Definition d3 : database := finish raw (Ok (Some (touch 5 row))) (updateLastUsedAt 5 "1" "acme" (table d2)) d2.

Lemma d1_reached : rtc (dstep sha) d0 d1.
Proof.
  eapply rtc_l; [by apply (d_call sha d0 0 raw)|]. eapply rtc_l; [by apply (d_select sha _ raw)|].
  apply rtc_once. apply d_revoke.
Qed.
End RaceExample.

(** The condition on the phase is needed: a call made after the revocation is
    answered with the active row that an earlier call had selected. *)
Lemma coalesced_after_revocation : 
  rtc (Database.dstep RaceExample.sha) RaceExample.d0 RaceExample.d1 ∧
  Database.revoked RaceExample.sha RaceExample.raw (Database.table RaceExample.d1) ∧
  SingleFlight.calls (Database.sf RaceExample.d1) !! 1%nat = None ∧
  rtc (Database.dstep RaceExample.sha) RaceExample.d1 RaceExample.d3 ∧
  SingleFlight.calls (Database.sf RaceExample.d3) !! 1%nat =
    Some (RaceExample.raw, SingleFlight.Settled 0 (Ok (Some (touch 5 RaceExample.row)))) ∧
  active (touch 5 RaceExample.row) = true.
Proof.
  split_and!; [apply RaceExample.d1_reached| |done| |vm_compute; reflexivity|done].
  - split; [exists (set_active false RaceExample.row); split; [left|done]|]. intros k Hk _.
    vm_compute in Hk. apply list_elem_of_singleton in Hk as ->. done.
  - eapply rtc_l; [by apply (Database.d_call _ _ 1 RaceExample.raw)|].
    apply rtc_once. by apply (Database.d_touch _ _ RaceExample.raw RaceExample.row 5).
Qed.

Lemma revocation_takes_effect_witness :
  SingleFlight.calls (Database.sf (Database.select RaceExample.sha RaceExample.raw
    (Database.call 0 RaceExample.raw (RaceExample.revoke RaceExample.d0)))) !! 0%nat =
    Some (RaceExample.raw, SingleFlight.Settled 0 (Ok None)) ∧
  SingleFlight.calls (Database.sf (Database.select RaceExample.sha RaceExample.raw
    (Database.call 0 RaceExample.raw (RaceExample.revoke RaceExample.d0)))) !! 0%nat ≠
    Some (RaceExample.raw, SingleFlight.Settled 0 (Ok (Some RaceExample.row))).
Proof.
  split; [vm_compute; reflexivity|].
  refine (proj2 (Database.revocation_takes_effect RaceExample.sha RaceExample.raw [RaceExample.row] (RaceExample.revoke RaceExample.d0) _) _ _ _ 0%nat _ _ _ _);
    [apply rtc_once, Database.d_revoke| | |done|].
  - split; [exists (set_active false RaceExample.row); split; [left|done]|]. intros k Hk _.
    vm_compute in Hk. apply list_elem_of_singleton in Hk as ->. done.
  - intros k' Hk. vm_compute in Hk. done.
  - eapply rtc_l; [by apply (Database.d_call _ _ 0 RaceExample.raw)|]. apply rtc_once. by apply Database.d_select.
Defined.

Lemma singleflight_shares_witness :
  let s := SingleFlight.do_ 1 "k" (SingleFlight.do_ 0 "k" (SingleFlight.new_SingleFlight (R := Z))) in
  SingleFlight.calls (SingleFlight.settle "k" 7 s) !! 1%nat = Some ("k", SingleFlight.Settled 0 7).
Proof.
  intros s. refine (proj2 (proj2 (SingleFlight.singleflight_shares s _)) "k" 7 1%nat "k" (SingleFlight.Waiting 0) _); [|done].
  eapply rtc_l; [by apply (SingleFlight.s_do _ 0 "k")|]. apply rtc_once. by apply SingleFlight.s_do.
Defined.

(** A key that is issued, validated and rotated. *)
Module KeyExample.
Definition sha (s : string) : string := s.
Definition ra : string := str_repeat "a" 64.
Definition rb : string := str_repeat "b" 64.
Definition s0 : key_state := {| st := []; issued := [] |}.
Definition s1 : key_state :=
  {| st := (generateApiKey sha 10 ra "i1" "acme" (inl "read") pro None (st s0)).1; issued := [("i1", "cr_" +:+ ra)] |}.

Lemma issued_reachable : kreachable sha s1.
Proof.
  apply rtc_once, (k_generate sha s0 10 ra "i1" "acme" (inl "read") pro None). split_and!; [done|done|apply not_elem_of_nil].
Qed.
End KeyExample.

Lemma api_key_lifecycle_witness :
  (∃ i k0, (i, "cr_" +:+ KeyExample.ra) ∈ issued KeyExample.s1 ∧ jm_get i (st KeyExample.s1) = Some k0 ∧ active k0 = true) ∧
  ∃ m r, rotateApiKey KeyExample.sha 20 KeyExample.rb "i2" "i1" (st KeyExample.s1) = (m, Some r) ∧
    ∃ k', jm_get "i1" m = Some k' ∧ active k' = false.
Proof.
  destruct (api_key_lifecycle KeyExample.sha KeyExample.s1 KeyExample.issued_reachable) as (H1 & _ & _ & H4). split.
  - specialize (H1 15 ("cr_" +:+ KeyExample.ra)).
    destruct (validateApiKey _ _ _ _) as [m [k|]] eqn:E; [|vm_compute in E; discriminate E].
    destruct H1 as (i & k0 & Hi & Hk & Ha & _); [by intros raw' Hr Hs|]. by exists i, k0.
  - destruct (rotateApiKey KeyExample.sha 20 KeyExample.rb "i2" "i1" (st KeyExample.s1)) as [m [r|]] eqn:E;
      [|vm_compute in E; discriminate E].
    exists m, r. split; [done|].
    destruct (H4 20 KeyExample.rb "i2" "i1" m r) as (k & k' & k2 & _ & _ & Hk' & Ha' & _); [|exact E|by exists k'].
    split_and!; [done|done|]. intros Hr. vm_compute in Hr. apply list_elem_of_singleton in Hr. discriminate Hr.
Defined.
