(* ===== verification/RateLimit.v ===== *)
(** * Rate limiting

    [middleware/rateLimit.ts]: the fixed-window limiter with its two counters in
    Redis; [middleware/authRateLimit.ts]; the per-tenant overrides of
    [services/rateLimitOverride/service.ts] on the in-memory repository of
    [db/repositories/tenantRateLimitOverridesRepository.ts]. A Redis command
    runs at one instant of the server's clock, in milliseconds; SHA-256 and the
    seconds TTL reports for a remaining time are parameters. The counters of
    rejected requests and the path for clients without EVAL are left out, and
    windows are positive. *)

From stdpp Require Import base option list gmap strings relations.
From Stdlib Require Import ZArith Lia Ascii.
From S2P Require Import Prelude JsLib ApiKeys.

Open Scope Z_scope.

(** ** Requests and configuration *)

Definition tier_name (t : SubscriptionTier) : string :=
  match t with free => "free" | pro => "pro" | enterprise => "enterprise" end.

(** What the limiter reads of a request. *)
Record Request := {
  apiKeyRecord : option StoredApiKey;
  user_tenantId : option string;
  x_api_key : option string;
  authorization : option string;
  x_tenant_id : option string;
  body_tenantId : option string;
  remoteAddress : option string;
  method : string;
  baseUrl : string;
  path : string
}.

(** [Config['rateLimit']]. *)
Record rate_config := {
  enabled : bool;
  windowSec : Z;
  maxFree : Z;
  maxPro : Z;
  maxEnterprise : Z;
  failOpen : bool
}.

(** The options of the factory: [getTenantId] is the custom extractor. *)
Record RateLimitConfig := {
  namespace : string;
  max : option Z;
  o_windowSec : Z;
  o_getTenantId : option (Request → option string);
  includeRoute : bool;
  has_override : bool
}.

Section Limiter.
Variable sha256 : string → string.
Variable ttl_seconds : Z → Z.

Definition hashIdentifier (raw : string) : string := sliceTo (sha256 raw) 16.

Definition getClientIp (req : Request) : string := default "unknown" (remoteAddress req).

Definition truthy_string (o : option string) : option string :=
  match o with Some EmptyString | None => None | Some s => Some s end.

Definition getTenantId (req : Request) : option string :=
  match truthy_string (ownerId <$> apiKeyRecord req) with
  | Some o => Some o
  | None =>
      match truthy_string (user_tenantId req) with
      | Some t => Some t
      | None =>
          match truthy_string (x_api_key req) with
          | Some k => Some ("ak:" +:+ hashIdentifier k)
          | None =>
              match authorization req with
              | Some auth => if startsWithStr auth "Bearer " then Some ("bt:" +:+ hashIdentifier (sliceFrom auth 7)) else None
              | None => None
              end
          end
      end
  end.

Definition getKeyId (req : Request) : option string := id <$> apiKeyRecord req.

Definition getTier (req : Request) : SubscriptionTier := default free (tier <$> apiKeyRecord req).

Definition resolveTierLimit (tier : SubscriptionTier) (config : rate_config) : Z :=
  match tier with enterprise => maxEnterprise config | pro => maxPro config | free => maxFree config end.

(** ** Redis *)

(** A counter and the time it expires, if any. *)
Record counter := { count : Z; expiry : option Z }.

Abbreviation store := (gmap string counter).

Definition lookup_live (t : Z) (k : string) (db : store) : option counter :=
  match db !! k with
  | Some c => match expiry c with Some x => if t <? x then Some c else None | None => Some c end
  | None => None
  end.

Definition INCR (t : Z) (k : string) (db : store) : Z * store :=
  let c := default {| count := 0; expiry := None |} (lookup_live t k db) in
  (count c + 1, <[k := {| count := count c + 1; expiry := expiry c |}]> db).

Definition EXPIRE (t : Z) (k : string) (s : Z) (db : store) : store :=
  match lookup_live t k db with
  | Some c => if s <=? 0 then base.delete k db else <[k := {| count := count c; expiry := Some (t + s * 1000) |}]> db
  | None => db
  end.

Definition TTL (t : Z) (k : string) (db : store) : Z :=
  match lookup_live t k db with
  | Some c => match expiry c with Some x => ttl_seconds (x - t) | None => -1 end
  | None => -2
  end.

(** The script, which Redis runs without interruption. *)
Definition ATOMIC_FIXED_WINDOW_SCRIPT (t : Z) (k : string) (w : Z) (db : store) : (Z * Z) * store :=
  let '(c, db1) := INCR t k db in
  let db2 := if c =? 1 then EXPIRE t k w db1 else db1 in
  ((c, TTL t k db2), db2).

Definition checkWindow (t : Z) (k : string) (w : Z) (db : store) : (Z * Z) * store :=
  let '((c, ttl), db') := ATOMIC_FIXED_WINDOW_SCRIPT t k w db in
  ((c, if 0 <? ttl then ttl else w), db').

(** ** The middleware, up to its first await *)

Record RateHeaders := { h_limit : Z; h_remaining : Z; h_reset : Z; retryAfter : option Z }.

Definition setRateLimitHeaders (limit remaining reset : Z) (retry : option Z) : RateHeaders :=
  {| h_limit := limit; h_remaining := Z.max 0 remaining; h_reset := reset; retryAfter := retry |}.

Inductive reject_reason := tenant_limit | key_limit.

#[export] Instance reject_reason_eq_dec : EqDecision reject_reason.
Proof. solve_decision. Defined.

(** How the middleware ends: [next()], [next] with the 429 error, or [next]
    with the 503 error. *)
Inductive rate_outcome :=
| Passed (h : option RateHeaders)
| Rejected (why : reject_reason) (h : RateHeaders)
| Unavailable.

(** The two buckets of a request and their limits. *)
Record budget := {
  tenantKey : string;
  keyBucket : option string;
  tierMax : Z;
  keyMax : Z;
  effectiveWindowSec : Z;
  b_now : Z
}.

(** [getTenantOverride]: a missing answer is a lookup that threw. *)
Definition effective (config : rate_config) (options : RateLimitConfig) (tenantId : option string)
    (lookup : string → option (option (Z * Z))) (tier : SubscriptionTier) : Z * Z :=
  let dflt := (resolveTierLimit tier config, o_windowSec options) in
  match truthy_string tenantId with
  | Some t => if has_override options then match lookup t with Some (Some o) => o | _ => dflt end else dflt
  | None => dflt
  end.

Definition tenant_of (options : RateLimitConfig) (req : Request) : option string :=
  match o_getTenantId options with
  | Some f => match f req with Some t => Some t | None => getTenantId req end
  | None => getTenantId req
  end.

(** The budgets of a request at [nowMs]. *)
Definition resolve (config : rate_config) (options : RateLimitConfig) (lookup : string → option (option (Z * Z)))
    (nowMs : Z) (req : Request) : budget :=
  let tenantId := tenant_of options req in
  let tier := getTier req in
  let '(tierMax, window) := effective config options tenantId lookup tier in
  let route := method req +:+ ":" +:+ baseUrl req +:+ path req in
  let identity := match truthy_string tenantId with
                  | Some t => "tenant:" +:+ t
                  | None => "ip:" +:+ getClientIp req
                  end in
  let routeScope := if includeRoute options then "|route:" +:+ route else EmptyString in
  let tenantScope := hashIdentifier (identity +:+ routeScope) in
  let now := nowMs / 1000 in
  let windowId := bigint_toString (now / window) in
  {| tenantKey := namespace options +:+ ":tenant:" +:+ tenantScope +:+ ":" +:+ windowId;
     keyBucket := match truthy_string (getKeyId req) with
                  | Some k => Some (namespace options +:+ ":key:" +:+ k +:+ ":" +:+ tier_name tier +:+ routeScope +:+ ":" +:+ windowId)
                  | None => None
                  end;
     tierMax := tierMax; keyMax := default tierMax (max options); effectiveWindowSec := window; b_now := now |}.

(** The catch clause. *)
Definition redis_error (config : rate_config) (b : budget) : rate_outcome :=
  if failOpen config
  then Passed (Some (setRateLimitHeaders (tierMax b) (tierMax b) (b_now b + effectiveWindowSec b) None))
  else Unavailable.

(** After the tenant check: the outcome, or the key check that is still to come. *)
Definition after_tenant (b : budget) (tenantCount tenantTtl : Z) : rate_outcome + string :=
  if tierMax b <? tenantCount then
    inl (Rejected tenant_limit (setRateLimitHeaders (tierMax b) 0 (b_now b + tenantTtl) (Some tenantTtl)))
  else
    match keyBucket b with
    | Some k => inr k
    | None => inl (Passed (Some (setRateLimitHeaders (tierMax b) (tierMax b - tenantCount) (b_now b + tenantTtl) None)))
    end.

Definition after_key (b : budget) (tenantCount tenantTtl keyCount keyTtl : Z) : rate_outcome :=
  if keyMax b <? keyCount then
    Rejected key_limit (setRateLimitHeaders (keyMax b) 0 (b_now b + keyTtl) (Some keyTtl))
  else
    Passed (Some (setRateLimitHeaders (keyMax b) (Z.min (tierMax b - tenantCount) (keyMax b - keyCount))
                    (b_now b + Z.min tenantTtl keyTtl) None)).

(** ** Requests in flight *)

(** [answered] records whether Redis answered every check of the request. *)
Inductive flight :=
| TenantCheck (b : budget)
| KeyCheck (b : budget) (k : string) (tenantCount tenantTtl : Z)
| Done (b : budget) (answered : bool) (o : rate_outcome)
| NotLimited.

(** An evaluation of the script: by whom, on which bucket, when, under which
    window and limit, and whether the count was within the limit; no verdict
    when the answer was lost. *)
Record check := {
  who : nat;
  bucket : string;
  at_ : Z;
  c_window : Z;
  limit : Z;
  verdict : option bool
}.

Record world := { redis : store; clock : Z; flights : gmap nat flight; log : list check }.

Definition new_world (t : Z) : world := {| redis := ∅; clock := t; flights := ∅; log := [] |}.

Definition with_flight (i : nat) (f : flight) (w : world) : world :=
  {| redis := redis w; clock := clock w; flights := <[i := f]> (flights w); log := log w |}.

(** The script runs for request [i]; the answer and the new world. *)
Definition evaluate (i : nat) (k : string) (win lim : Z) (answered : bool) (w : world) : (Z * Z) * world :=
  let '((c, ttl), db) := checkWindow (clock w) k win (redis w) in
  ((c, ttl),
   {| redis := db; clock := clock w; flights := flights w;
      log := log w ++ [{| who := i; bucket := k; at_ := clock w; c_window := win; limit := lim;
                          verdict := if answered then Some (c <=? lim) else None |}] |}).

Definition tenant_check (i : nat) (b : budget) (w : world) : world :=
  let '((c, ttl), w1) := evaluate i (tenantKey b) (effectiveWindowSec b) (tierMax b) true w in
  match after_tenant b c ttl with
  | inl o => with_flight i (Done b true o) w1
  | inr k => with_flight i (KeyCheck b k c ttl) w1
  end.

Definition key_check (i : nat) (b : budget) (k : string) (tc tt : Z) (w : world) : world :=
  let '((c, ttl), w1) := evaluate i k (effectiveWindowSec b) (keyMax b) true w in
  with_flight i (Done b true (after_key b tc tt c ttl)) w1.

(** The bucket and limit of the check a request is waiting for. *)
Definition pending_check (f : flight) : option (budget * string * Z) :=
  match f with
  | TenantCheck b => Some (b, tenantKey b, tierMax b)
  | KeyCheck b k _ _ => Some (b, k, keyMax b)
  | _ => None
  end.

(** Time passes, requests arrive, Redis answers their checks, or a check fails,
    before or after the script ran. *)
Inductive rstep (config : rate_config) (options : RateLimitConfig) : world → world → Prop :=
| step_tick w t : clock w ≤ t →
    rstep config options w {| redis := redis w; clock := t; flights := flights w; log := log w |}
| step_arrive w i lookup req : flights w !! i = None →
    rstep config options w
      (with_flight i (if enabled config then TenantCheck (resolve config options lookup (clock w) req) else NotLimited) w)
| step_tenant w i b : flights w !! i = Some (TenantCheck b) → rstep config options w (tenant_check i b w)
| step_key w i b k tc tt : flights w !! i = Some (KeyCheck b k tc tt) → rstep config options w (key_check i b k tc tt w)
| step_down w i f b k l : flights w !! i = Some f → pending_check f = Some (b, k, l) →
    rstep config options w (with_flight i (Done b false (redis_error config b)) w)
| step_lost w i f b k l : flights w !! i = Some f → pending_check f = Some (b, k, l) →
    rstep config options w
      (with_flight i (Done b false (redis_error config b)) (evaluate i k (effectiveWindowSec b) l false w).2).

Definition rreachable config options (w : world) : Prop := ∃ t, rtc (rstep config options) (new_world t) w.

(** ** Every check counts *)

Abbreviation checks_of k w := (filter (λ c, bucket c = k) (log w)).

(** The evaluations of [k] fall into one window of [win] seconds that starts
    at [s]. *)
Definition in_one_window (k : string) (s win : Z) (w : world) : Prop :=
  ∀ c, c ∈ log w → bucket c = k → c_window c = win ∧ s ≤ at_ c < s + win * 1000.

(** The [n]-th evaluation, from zero, is within the limit iff [n] is below it. *)
Definition verdicts_right (cs : list check) : Prop :=
  ∀ n c, cs !! n = Some c → verdict c = None ∨ verdict c = Some (Z.of_nat n <? limit c).

(** What Redis holds for a bucket whose evaluations are [cs]. *)
Definition bucket_holds (k : string) (win : Z) (cs : list check) (db : store) : Prop :=
  match cs with
  | [] => db !! k = None
  | c :: _ => db !! k = Some {| count := Z.of_nat (length cs); expiry := Some (at_ c + win * 1000) |}
  end.

Definition counted (w : world) : Prop := ∀ k s win, in_one_window k s win w →
  bucket_holds k win (checks_of k w) (redis w) ∧ verdicts_right (checks_of k w).

Lemma checkWindow_other t k k' win db : k ≠ k' → (checkWindow t k win db).2 !! k' = db !! k'.
Proof.
  intros Hk. unfold checkWindow, ATOMIC_FIXED_WINDOW_SCRIPT, INCR, EXPIRE. simpl.
  repeat case_match; simplify_eq/=; by simplify_map_eq.
Qed.

(** The first evaluation of a bucket. *)
Lemma checkWindow_first t k win db : db !! k = None → 0 < win →
  (checkWindow t k win db).1.1 = 1 ∧
  (checkWindow t k win db).2 !! k = Some {| count := 1; expiry := Some (t + win * 1000) |}.
Proof.
  intros Hk Hw. unfold checkWindow, ATOMIC_FIXED_WINDOW_SCRIPT, INCR, EXPIRE, lookup_live. rewrite Hk. simpl.
  rewrite lookup_insert_eq. simpl. destruct (Z.leb_spec win 0); [lia|]. simpl. split; [done|]. by rewrite lookup_insert_eq.
Qed.

(** A later one. *)
Lemma checkWindow_next t k win db n x : db !! k = Some {| count := n; expiry := Some x |} → t < x → 1 ≤ n →
  (checkWindow t k win db).1.1 = n + 1 ∧
  (checkWindow t k win db).2 !! k = Some {| count := n + 1; expiry := Some x |}.
Proof.
  intros Hk Ht Hn. unfold checkWindow, ATOMIC_FIXED_WINDOW_SCRIPT, INCR, lookup_live. rewrite Hk. simpl.
  destruct (Z.ltb_spec t x); [|lia]. simpl. destruct (Z.eqb_spec (n + 1) 1); [lia|]. simpl. split; [done|].
  by rewrite lookup_insert_eq.
Qed.

Lemma verdicts_right_snoc cs c : verdicts_right cs →
  verdict c = None ∨ verdict c = Some (Z.of_nat (length cs) <? limit c) → verdicts_right (cs ++ [c]).
Proof.
  intros Hv Hc n c' [[_ Hn]|[-> <-]]%lookup_snoc_Some; [by apply Hv|done].
Qed.

Lemma verdict_below (ans : bool) c n lim : c = n + 1 →
  (if ans then Some (c <=? lim) else None) = None ∨ (if ans then Some (c <=? lim) else None) = Some (n <? lim).
Proof.
  intros ->. destruct ans; [right|by left]. f_equal. apply Bool.eq_iff_eq_true. rewrite Z.leb_le, Z.ltb_lt. lia.
Qed.

Lemma counted_evaluate i k win lim ans w : counted w → counted (evaluate i k win lim ans w).2.
Proof.
  intros Hw k' s win'. unfold evaluate. destruct (checkWindow _ _ _ _) as [[c ttl] db] eqn:E. simpl.
  set (e := {| who := i |}). intros Hin.
  assert (in_one_window k' s win' w) as Hold by (intros c' ??; apply Hin; [set_solver|done]).
  destruct (Hw k' s win' Hold) as [Hb Hv]. simpl. rewrite filter_app, filter_cons, filter_nil.
  case_decide as Hk.
  2:{ rewrite app_nil_r. split; [|done]. simpl in Hk. assert (db !! k' = redis w !! k') as Hdb.
      { change db with ((c, ttl, db).2). rewrite <- E. by apply checkWindow_other. }
      unfold bucket_holds in *. by destruct (checks_of k' w); rewrite Hdb. }
  simpl in Hk. subst k'. destruct (Hin e) as [Hwin Hat]; [set_solver|done|]. simpl in Hwin, Hat. subst win'.
  destruct (checks_of k w) as [|c0 cs] eqn:Ecs.
  - simpl in *. destruct (checkWindow_first (clock w) k win (redis w)) as [H1 H2]; [done|lia|].
    rewrite E in H1, H2. simpl in H1, H2. subst c. split; [done|].
    apply (verdicts_right_snoc []); [done|]. apply verdict_below. simpl. lia.
  - assert (bucket c0 = k ∧ c0 ∈ log w) as [Hk0 H0].
    { apply (list_elem_of_filter (λ c, bucket c = k)). rewrite Ecs. left. }
    destruct (Hold c0 H0 Hk0) as [_ Ht0].
    destruct (checkWindow_next (clock w) k win (redis w) (Z.of_nat (length (c0 :: cs))) (at_ c0 + win * 1000)) as [H1 H2];
      [done|lia|simpl; lia|]. rewrite E in H1, H2. cbn [fst snd] in H1, H2. subst c. split.
    + unfold bucket_holds. simpl app. cbn iota. rewrite H2. do 2 f_equal. simpl. rewrite length_app. simpl. lia.
    + apply verdicts_right_snoc; [done|]. by apply verdict_below.
Qed.

Lemma counted_rstep config options w w' : counted w → rstep config options w w' → counted w'.
Proof.
  intros Hw Hs. destruct Hs; try done.
  - unfold tenant_check. pose proof (counted_evaluate i (tenantKey b) (effectiveWindowSec b) (tierMax b) true w Hw) as H1.
    destruct (evaluate _ _ _ _ _ _) as [[c ttl] w1]. by destruct (after_tenant b c ttl).
  - unfold key_check. pose proof (counted_evaluate i k (effectiveWindowSec b) (keyMax b) true w Hw) as H1.
    by destruct (evaluate _ _ _ _ _ _) as [[c ttl] w1].
  - by apply (counted_evaluate i k (effectiveWindowSec b) l false) in Hw.
Qed.

(** ** How a request ends *)

Definition judged (v : bool) (i : nat) (k : string) (lim : Z) (w : world) : Prop :=
  ∃ c, c ∈ log w ∧ who c = i ∧ bucket c = k ∧ limit c = lim ∧ verdict c = Some v.

Definition flight_ok (config : rate_config) (i : nat) (f : flight) (w : world) : Prop :=
  match f with
  | NotLimited => enabled config = false
  | TenantCheck b => enabled config = true
  | KeyCheck b k _ _ => enabled config = true ∧ keyBucket b = Some k ∧ judged true i (tenantKey b) (tierMax b) w
  | Done b true (Passed _) =>
      judged true i (tenantKey b) (tierMax b) w ∧ ∀ k, keyBucket b = Some k → judged true i k (keyMax b) w
  | Done b true (Rejected tenant_limit _) => judged false i (tenantKey b) (tierMax b) w
  | Done b true (Rejected key_limit _) => ∃ k, keyBucket b = Some k ∧ judged false i k (keyMax b) w
  | Done b true Unavailable => False
  | Done b false o => o = redis_error config b
  end.

Lemma judged_mono v i k lim w w' : log w `prefix_of` log w' → judged v i k lim w → judged v i k lim w'.
Proof. intros [l Hl] (c & Hc & H). exists c. split; [rewrite Hl; set_solver|done]. Qed.

Lemma flight_ok_mono config i f w w' : log w `prefix_of` log w' → flight_ok config i f w → flight_ok config i f w'.
Proof.
  intros Hl. assert (∀ v k lim, judged v i k lim w → judged v i k lim w') as HJ by eauto using judged_mono.
  clear Hl. destruct f as [b|b k tc tt|b [] [h|[] h|]|]; simpl; try done.
  - intros (? & ? & ?). auto.
  - intros [? ?]. auto.
  - apply HJ.
  - intros (k & ? & ?). exists k. auto.
Qed.

Lemma evaluate_judged i k win lim w :
  judged ((evaluate i k win lim true w).1.1 <=? lim) i k lim (evaluate i k win lim true w).2.
Proof.
  unfold evaluate, judged. destruct (checkWindow _ _ _ _) as [[c ttl] db]. simpl.
  eexists. split; [apply elem_of_app; right; by apply list_elem_of_singleton|]. done.
Qed.

Lemma evaluate_frame i k win lim ans w : flights (evaluate i k win lim ans w).2 = flights w ∧
  log w `prefix_of` log (evaluate i k win lim ans w).2.
Proof. unfold evaluate. destruct (checkWindow _ _ _ _) as [[c ttl] db]. simpl. split; [done|by apply prefix_app_r]. Qed.

Definition flights_ok config (w : world) : Prop := ∀ i f, flights w !! i = Some f → flight_ok config i f w.

Lemma flights_ok_set config i f w w1 : flights_ok config w → flights w1 = flights w → log w `prefix_of` log w1 →
  flight_ok config i f w1 → flights_ok config (with_flight i f w1).
Proof.
  intros Hw Hf Hl Hi j g. simpl. rewrite Hf. intros [[<- <-]|[_ Hj]]%lookup_insert_Some; [done|].
  eapply flight_ok_mono; [exact Hl|]. by apply Hw.
Qed.

Lemma flights_ok_rstep config options w w' : flights_ok config w → rstep config options w w' → flights_ok config w'.
Proof.
  intros Hw Hs. destruct Hs as [w t Ht|w i lookup req Hi|w i b Hi|w i b k tc tt Hi|w i f b k l Hi Hp|w i f b k l Hi Hp].
  - done.
  - apply (flights_ok_set config i _ w w); [done..|]. by destruct (enabled config) eqn:?.
  - unfold tenant_check. pose proof (evaluate_judged i (tenantKey b) (effectiveWindowSec b) (tierMax b) w) as Hj.
    destruct (evaluate_frame i (tenantKey b) (effectiveWindowSec b) (tierMax b) true w) as [Hf Hl].
    destruct (evaluate _ _ _ _ _ _) as [[c ttl] w1]. simpl in *. unfold after_tenant.
    destruct (Z.ltb_spec (tierMax b) c); destruct (Z.leb_spec c (tierMax b)); try lia;
      [|destruct (keyBucket b) eqn:Ek]; apply (flights_ok_set config i _ w w1); simpl; rewrite ?Ek; try done.
    apply Hw in Hi. done.
  - unfold key_check. pose proof (evaluate_judged i k (effectiveWindowSec b) (keyMax b) w) as Hj.
    destruct (evaluate_frame i k (effectiveWindowSec b) (keyMax b) true w) as [Hf Hl]. apply Hw in Hi as (_ & Hk & Ht).
    destruct (evaluate _ _ _ _ _ _) as [[c ttl] w1]. simpl in *. apply (flights_ok_set config i _ w w1); [done..|].
    unfold after_key. destruct (Z.ltb_spec (keyMax b) c); destruct (Z.leb_spec c (keyMax b)); try lia; simpl.
    + by exists k.
    + split; [by eapply judged_mono|]. intros k' ?. by simplify_eq.
  - by apply (flights_ok_set config i _ w w).
  - destruct (evaluate_frame i k (effectiveWindowSec b) l false w) as [Hf Hl].
    by apply (flights_ok_set config i _ w (evaluate i k (effectiveWindowSec b) l false w).2).
Qed.

Lemma rreachable_ok config options w : rreachable config options w → counted w ∧ flights_ok config w.
Proof.
  intros [t H]. assert (counted (new_world t) ∧ flights_ok config (new_world t)) as H0.
  { split; [by intros k s win _|by intros i f ?]. }
  induction H as [|w1 w2 w3 H12 H23 IH]; [done|]. apply IH. destruct H0 as [Hc Hf].
  split; [by eapply counted_rstep|by eapply flights_ok_rstep].
Qed.

(** When no limit exceeds [M], at most [M] evaluations are within it. *)
Lemma verdicts_bound cs M : verdicts_right cs → 0 ≤ M → (∀ c, c ∈ cs → limit c ≤ M) →
  Z.of_nat (length (filter (λ c, verdict c = Some true) cs)) ≤ M.
Proof.
  intros Hv HM Hl. rewrite <- (take_drop (Z.to_nat M) cs), filter_app, (list_filter_none _ (drop _ _)).
  - rewrite app_nil_r. pose proof (length_filter (λ c, verdict c = Some true) (take (Z.to_nat M) cs)).
    rewrite length_take in *. lia.
  - intros c [n Hn]%list_elem_of_lookup Ht. rewrite lookup_drop in Hn. pose proof (Hl c ltac:(by eapply list_elem_of_lookup_2)).
    destruct (Hv _ _ Hn) as [E|E]; rewrite E in Ht; [done|]. simplify_eq. breflect. lia.
Qed.

(** C13. However requests interleave, and whatever fails or is lost on the way:
    when the evaluations of a bucket fall into one window of the bucket's
    length, the n-th of them, from zero, is within its limit exactly if n is
    below the limit, so at most [M] are admitted under limits up to [M]; and a
    request whose checks Redis answered passes exactly when every one of its
    checks was within its limit, is refused only by a check that was not, and a
    request whose check failed passes only where the limiter is configured to
    fail open. *)
Theorem rate_limit_exact config options w : rreachable config options w →
  (∀ k s win, in_one_window k s win w → verdicts_right (checks_of k w) ∧
     ∀ M, 0 ≤ M → (∀ c, c ∈ checks_of k w → limit c ≤ M) →
       Z.of_nat (length (filter (λ c, verdict c = Some true) (checks_of k w))) ≤ M) ∧
  flights_ok config w.
Proof.
  intros [Hc Hf]%rreachable_ok. split; [|done]. intros k s win [_ Hv]%Hc. split; [done|].
  intros M HM HM'. by apply verdicts_bound.
Qed.
End Limiter.

(** ** The other factories *)

(** [rateLimit], with the route's options and the default of [failOpen] that
    the environment gives. *)
Definition rateLimit_config (maxOpt : option Z) (win : Z) (failOpenOpt : option bool) (production : bool) : rate_config :=
  let m := default 100 maxOpt in
  {| enabled := true; windowSec := win; maxFree := m; maxPro := m; maxEnterprise := m;
     failOpen := default (negb production) failOpenOpt |}.

Definition resolveAuthTenantId (req : Request) : option string :=
  match truthy_string (trim <$> x_tenant_id req) with
  | Some t => Some t
  | None => truthy_string (trim <$> body_tenantId req)
  end.

Definition createAuthRateLimitMiddleware (isEnabled : bool) (win maxPerTenant : Z) (open : bool) : rate_config * RateLimitConfig :=
  ({| enabled := isEnabled; windowSec := win; maxFree := maxPerTenant; maxPro := maxPerTenant;
      maxEnterprise := maxPerTenant; failOpen := open |},
   {| namespace := "ratelimit:auth"; max := None; o_windowSec := win; o_getTenantId := Some resolveAuthTenantId;
      includeRoute := false; has_override := false |}).

(** ** Overrides *)

Module Overrides.

Record TenantRateLimitOverride := {
  o_id : Z;
  tenantId : string;
  rateLimit : Z;
  windowSize : Z;
  reason : option string;
  createdAt : Z;
  updatedAt : Z
}.

(** [InMemoryTenantRateLimitOverridesRepository]. *)
Record repository := { overrides : jsmap string TenantRateLimitOverride; idCounter : Z }.

Definition new_repository : repository := {| overrides := []; idCounter := 1 |}.

Inductive override_error :=
| TenantRateLimitValidationError (message : string)
| ValidationError (message : string)
| NotFoundError (id : string).

Definition normalizeTenantId (t : string) : result override_error string :=
  let trimmed := trim t in
  if slen trimmed =? 0 then Err (TenantRateLimitValidationError "tenantId must be a non-empty string") else Ok trimmed.

(** A number that is an integer, or one that is not. *)
Abbreviation number := (option Z).

Definition positive_integer (v : number) : option Z :=
  match v with Some n => if 0 <? n then Some n else None | None => None end.

Definition normalizePositiveInteger (v : number) (field : string) : result override_error Z :=
  match positive_integer v with
  | Some n => Ok n
  | None => Err (TenantRateLimitValidationError (field +:+ " must be a positive integer"))
  end.

Definition normalizeReason (r : option string) : option string :=
  match r with Some s => if slen (trim s) =? 0 then None else Some (trim s) | None => None end.

Definition findByTenantId (t : string) (r : repository) : result override_error (option TenantRateLimitOverride) :=
  n ← normalizeTenantId t; Ok (jm_get n (overrides r)).

Definition upsert (now : Z) (t : string) (lim win : number) (why : option string) (r : repository)
  : result override_error (TenantRateLimitOverride * repository) :=
  n ← normalizeTenantId t;
  l ← normalizePositiveInteger lim "rateLimit";
  w ← normalizePositiveInteger win "windowSize";
  let existing := jm_get n (overrides r) in
  let item := {| o_id := match existing with Some e => o_id e | None => idCounter r end;
                 tenantId := n; rateLimit := l; windowSize := w; reason := normalizeReason why;
                 createdAt := match existing with Some e => createdAt e | None => now end; updatedAt := now |} in
  Ok (item, {| overrides := jm_set n item (overrides r);
               idCounter := if isSome existing then idCounter r else idCounter r + 1 |}).

Definition delete (t : string) (r : repository) : result override_error (bool * repository) :=
  n ← normalizeTenantId t;
  Ok (isSome (jm_get n (overrides r)), {| overrides := jm_delete n (overrides r); idCounter := idCounter r |}).

Definition listAll (r : repository) : list TenantRateLimitOverride := jm_values (overrides r).

(** *** The service: the repository and the audit trail *)

Inductive override_action := SET_RATE_LIMIT_OVERRIDE | REMOVE_RATE_LIMIT_OVERRIDE.

Record audit_entry := {
  a_actor : string;
  a_action : override_action;
  a_target : string;
  a_failure : option string;
  a_old : option (Z * Z);
  a_new : option (Z * Z)
}.

Record service := { repo : repository; trail : list audit_entry }.

Definition logAction (actor : string) (act : override_action) (t : string) (fail : option string) (old new : option (Z * Z))
    (s : service) : service :=
  {| repo := repo s;
     trail := trail s ++ [{| a_actor := actor; a_action := act; a_target := t; a_failure := fail; a_old := old; a_new := new |}] |}.

Definition values (o : option TenantRateLimitOverride) : option (Z * Z) := (λ e, (rateLimit e, windowSize e)) <$> o.

Definition set_message : string := "Override reason is required and must be at least 3 characters".
Definition remove_message : string := "Override removal reason is required and must be at least 3 characters".

Definition refuse (actor : string) (act : override_action) (t msg : string) (s : service)
  : service * result override_error TenantRateLimitOverride :=
  (logAction actor act t (Some msg) None None s, Err (ValidationError msg)).

Definition setOverride (now : Z) (t : string) (lim win : number) (why actor : string) (s : service)
  : service * result override_error TenantRateLimitOverride :=
  if slen (trim why) <? 3 then refuse actor SET_RATE_LIMIT_OVERRIDE t set_message s
  else match positive_integer lim with
  | None => refuse actor SET_RATE_LIMIT_OVERRIDE t "rateLimit must be a positive integer" s
  | Some l =>
      match positive_integer win with
      | None => refuse actor SET_RATE_LIMIT_OVERRIDE t "windowSize must be a positive integer in seconds" s
      | Some w =>
          match findByTenantId t (repo s) with
          | Err e => (s, Err e)
          | Ok existing =>
              match upsert now t lim win (Some (trim why)) (repo s) with
              | Err e => (s, Err e)
              | Ok (updated, r) =>
                  (logAction actor SET_RATE_LIMIT_OVERRIDE t None (values existing) (Some (l, w))
                     {| repo := r; trail := trail s |}, Ok updated)
              end
          end
      end
  end.

Definition removeOverride (t why actor : string) (s : service) : service * result override_error () :=
  if slen (trim why) <? 3 then
    (logAction actor REMOVE_RATE_LIMIT_OVERRIDE t (Some remove_message) None None s, Err (ValidationError remove_message))
  else match findByTenantId t (repo s) with
  | Err e => (s, Err e)
  | Ok None =>
      (logAction actor REMOVE_RATE_LIMIT_OVERRIDE t (Some ("Rate limit override for tenant " +:+ t +:+ " not found")) None None s,
       Err (NotFoundError t))
  | Ok (Some existing) =>
      match delete t (repo s) with
      | Err e => (s, Err e)
      | Ok (_, r) =>
          (logAction actor REMOVE_RATE_LIMIT_OVERRIDE t None (values (Some existing)) None {| repo := r; trail := trail s |}, Ok ())
      end
  end.

Definition getOverride (t : string) (s : service) : result override_error (option TenantRateLimitOverride) :=
  findByTenantId t (repo s).

(** The lookup the limiter is given: an exception is caught there. *)
Definition getTenantOverride (s : service) (t : string) : option (option (Z * Z)) :=
  match getOverride t s with Ok o => Some (values o) | Err _ => None end.

(** *** An override governs its tenant and no other *)

Definition call_ok (s s' : service) : Prop := ∃ e, trail s' = trail s ++ [e].

Lemma normalizeTenantId_trim t n : normalizeTenantId t = Ok n → n = trim t.
Proof. unfold normalizeTenantId. case_test; intros [=]. done. Qed.

(** A call of [setOverride] either fails and leaves every override as it was,
    or from then on the limiter applies the new limit and window to every
    spelling of the tenant, and what it applied before to every other; it
    writes one audit entry unless the tenant id is blank. *)
Lemma override_governs now t lim win why actor s : 
  let '(s', out) := setOverride now t lim win why actor s in
  (trim t ≠ EmptyString → call_ok s s') ∧
  match out with
  | Err _ => repo s' = repo s
  | Ok o => ∃ l w, lim = Some l ∧ win = Some w ∧ 0 < l ∧ 0 < w ∧ values (Some o) = Some (l, w) ∧
      (∀ t', trim t' = trim t → getTenantOverride s' t' = Some (Some (l, w))) ∧
      (∀ t', trim t' ≠ trim t → getTenantOverride s' t' = getTenantOverride s t')
  end.
Proof.
  unfold setOverride, refuse. destruct (Z.ltb_spec (slen (trim why)) 3); [split; [by eexists|done]|].
  unfold upsert, normalizePositiveInteger.
  destruct (positive_integer lim) as [l|] eqn:El; [|split; [by eexists|done]].
  destruct (positive_integer win) as [w|] eqn:Ew; [|split; [by eexists|done]].
  unfold findByTenantId. destruct (normalizeTenantId t) as [n|e] eqn:En; simpl.
  2:{ split; [|done]. intros Ht. unfold normalizeTenantId in En. case_test_in En; [|done].
      destruct (trim t); [done|]. breflect. rewrite slen_cons in *. pose proof (slen_nonneg s0). lia. }
  apply normalizeTenantId_trim in En as Hn. split; [by eexists|].
  assert (lim = Some l ∧ 0 < l) as [-> Hl] by (destruct lim as [z|]; simpl in El; [case_test_in El; simplify_eq; split; [done|lia]|done]).
  assert (win = Some w ∧ 0 < w) as [-> Hw] by (destruct win as [z|]; simpl in Ew; [case_test_in Ew; simplify_eq; split; [done|lia]|done]).
  exists l, w. split_and!; try done.
  - intros t' Ht. unfold getTenantOverride, getOverride, findByTenantId. simpl.
    assert (normalizeTenantId t' = Ok n) as -> by (unfold normalizeTenantId in *; by rewrite Ht).
    simpl. by rewrite jm_get_set, decide_True.
  - intros t' Ht. unfold getTenantOverride, getOverride, findByTenantId. simpl.
    destruct (normalizeTenantId t') as [n'|] eqn:En'; [|done]. simpl. apply normalizeTenantId_trim in En' as ->.
    rewrite jm_get_set, decide_False; [done|]. by subst n.
Qed.
End Overrides.

(** ** A run: two requests of a tenant under a limit of one *)

Module RateExample.
Definition sha (s : string) : string := s.
Definition ttl (d : Z) : Z := ceil_div d 1000.
Definition config : rate_config :=
  {| enabled := true; windowSec := 60; maxFree := 1; maxPro := 1; maxEnterprise := 1; failOpen := false |}.
Definition options : RateLimitConfig :=
  {| namespace := "rl"; max := None; o_windowSec := 60; o_getTenantId := None; includeRoute := false; has_override := false |}.
Definition req : Request :=
  {| apiKeyRecord := Some {| id := "k1"; hashedKey := EmptyString; prefix := EmptyString; scopes := ["read"]; scope := Some "read";
       tier := free; ownerId := "acme"; createdAt := 0; lastUsedAt := None; active := true |}; user_tenantId := None; x_api_key := None;
     authorization := None; x_tenant_id := None; body_tenantId := None; remoteAddress := None; method := "GET";
     baseUrl := EmptyString; path := "/" |}.
Definition b : budget := resolve sha config options (λ _, None) 120000 req.
Definition tick (t : Z) (w : world) : world := {| redis := redis w; clock := t; flights := flights w; log := log w |}.
Definition arrive (i : nat) (w : world) : world := with_flight i (TenantCheck b) w.
Definition w1 : world := tenant_check ttl 0 b (arrive 1 (arrive 0 (new_world 120000))).
Definition w2 : world := tenant_check ttl 1 b (tick 121000 w1).
Definition w3 : world := key_check ttl 0 b "rl:key:k1:free:2" 1 60 w2.

Lemma arrives i w : enabled config = true → clock w = 120000 → flights w !! i = None →
  rstep sha ttl config options w (arrive i w).
Proof. intros He Hc Hi. unfold arrive, b. rewrite <- Hc. apply (step_arrive _ _ config options w i (λ _, None) req Hi). Qed.

Lemma w3_reachable : rreachable sha ttl config options w3.
Proof.
  exists 120000. apply (rtc_l _ _ (arrive 0 (new_world 120000))); [by apply arrives|].
  apply (rtc_l _ _ (arrive 1 (arrive 0 (new_world 120000)))); [by apply arrives|].
  apply (rtc_l _ _ w1); [by apply step_tenant|].
  apply (rtc_l _ _ (tick 121000 w1)); [by apply step_tick|].
  apply (rtc_l _ _ w2); [apply step_tenant; vm_compute; reflexivity|].
  apply rtc_once, step_key. vm_compute. reflexivity.
Qed.
End RateExample.

Lemma rate_limit_exact_witness :
  verdict <$> filter (λ c, bucket c = "rl:tenant:tenant:acme:2") (log RateExample.w3) = [Some true; Some false] ∧
  Z.of_nat (length (filter (λ c, verdict c = Some true)
    (filter (λ c, bucket c = "rl:tenant:tenant:acme:2") (log RateExample.w3)))) ≤ 1.
Proof.
  split; [vm_compute; reflexivity|].
  refine (proj2 (proj1 (rate_limit_exact RateExample.sha RateExample.ttl RateExample.config RateExample.options
    RateExample.w3 RateExample.w3_reachable) "rl:tenant:tenant:acme:2" 120000 60 _) 1 _ _); [|lia|].
  - intros c Hc Hb. vm_compute in Hc. repeat (apply elem_of_cons in Hc as [->|Hc]); vm_compute; [by split..|].
    by apply elem_of_nil in Hc.
  - intros c [_ Hc]%list_elem_of_filter. vm_compute in Hc. repeat (apply elem_of_cons in Hc as [->|Hc]); vm_compute; [done..|].
    by apply elem_of_nil in Hc.
Defined.
