(* ===== verification/Webhooks.v ===== *)
(** * Webhooks

    [services/webhooks/admission.ts] (incoming events) as module [Admission];
    [delivery.ts], [memoryStore.ts], [idempotency.ts] and [dlq.ts] of the same
    directory (outgoing events) as module [Delivery]. HMAC-SHA256, the size of a
    payload's JSON text and what a transmission with its retries ends in are
    parameters; TLS, tracing and metrics are left out. Times are milliseconds
    unless they are called seconds. *)

From stdpp Require Import base option list gmap strings relations.
From Stdlib Require Import ZArith Lia Ascii.
From S2P Require Import Prelude JsLib Ssrf.

Open Scope Z_scope.

(** ** Incoming events *)

Module Admission.

Definition DEFAULT_WEBHOOK_TOLERANCE_SECONDS : Z := 300.
Definition DEFAULT_WEBHOOK_TTL_MS : Z := 24 * 60 * 60 * 1000.

Inductive AdmissionOutcome := accepted | replay | conflict.

#[export] Instance AdmissionOutcome_eq_dec : EqDecision AdmissionOutcome.
Proof. solve_decision. Defined.

(** A number that is an integer, or one that is not. *)
Abbreviation number := (option Z).

Record AdmissionInput := {
  tenantId : string;
  eventId : string;
  timestamp : number;
  rawBody : string;
  signature : string;
  secret : string
}.

(** The codes of a [WebhookAdmissionError]. *)
Inductive admission_error :=
| IDENTITY_REQUIRED | TIMESTAMP_INVALID | SECRET_REQUIRED | SIGNATURE_INVALID
| CLOCK_INVALID | TOLERANCE_INVALID | TIMESTAMP_OUT_OF_RANGE | RECORD_CONFLICT.

Definition MAX_SAFE_INTEGER : Z := 2 ^ 53 - 1.
Definition isSafeInteger (n : Z) : bool := Z.abs n <=? MAX_SAFE_INTEGER.

(** [Buffer.from(s, 'hex')]: pairs of digits up to the first that is none. *)
Fixpoint hex_bytes (s : string) : list Z :=
  match s with
  | String a (String b s') =>
      match hex_val a, hex_val b with Some x, Some y => (16 * x + y) :: hex_bytes s' | _, _ => [] end
  | _ => []
  end.

Section Admission.
Context {B : Type}.
(** [createHmac('sha256', key).update(text).digest('hex')], and null. *)
Variable hmac : string → string → string.
Variable null : B.

Record AdmissionRecord := {
  r_tenantId : string;
  r_eventId : string;
  fingerprint : string;
  statusCode : Z;
  responseBody : B;
  createdAt : Z;
  expiresAt : Z
}.

Definition bodyFingerprint (body : string) : string := hmac "credence-webhook-fingerprint" body.

Definition show_Z (n : Z) : string := if n <? 0 then "-" +:+ bigint_toString (- n) else bigint_toString n.

Definition signingMaterial (tenant event : string) (ts : Z) (body : string) : string :=
  "v1:" +:+ tenant +:+ ":" +:+ event +:+ ":" +:+ show_Z ts +:+ ":" +:+ body.

Definition signIncomingWebhook (tenant event : string) (ts : Z) (body sec : string) : result admission_error string :=
  if String.eqb sec EmptyString then Err SECRET_REQUIRED else Ok (hmac sec (signingMaterial tenant event ts body)).

Definition suppliedText (i : AdmissionInput) : string :=
  if startsWithStr (signature i) "v1=" then sliceFrom (signature i) 3 else signature i.

Definition verifyIncomingSignature (i : AdmissionInput) : result admission_error Z :=
  if String.eqb (tenantId i) EmptyString || String.eqb (eventId i) EmptyString then Err IDENTITY_REQUIRED else
  match timestamp i with
  | None => Err TIMESTAMP_INVALID
  | Some ts =>
      if negb (isSafeInteger ts) || (ts <=? 0) then Err TIMESTAMP_INVALID else
      if String.eqb (secret i) EmptyString then Err SECRET_REQUIRED else
      expected ← signIncomingWebhook (tenantId i) (eventId i) ts (rawBody i) (secret i);
      if negb (bool_decide (hex_bytes (suppliedText i) = hex_bytes expected)) then Err SIGNATURE_INVALID else Ok ts
  end.

Definition natural (n : number) : option Z :=
  match n with Some z => if negb (isSafeInteger z) || (z <? 0) then None else Some z | None => None end.

Definition validateFreshness (ts : Z) (nowSeconds toleranceSeconds : number) : result admission_error () :=
  match natural nowSeconds with
  | None => Err CLOCK_INVALID
  | Some now =>
      match natural toleranceSeconds with
      | None => Err TOLERANCE_INVALID
      | Some tolerance => throw_if (tolerance <? Z.abs (now - ts)) TIMESTAMP_OUT_OF_RANGE
      end
  end.

(** *** The store *)

Abbreviation records := (gmap string AdmissionRecord).

Definition key (tenant event : string) : string := tenant +:+ String zero event.

Definition purge (now : Z) (m : records) : records := filter (λ e, ¬ expiresAt e.2 ≤ now) m.

Definition claim (ttlMs now : Z) (tenant event body : string) (status : Z) (resp : B) (m : records)
  : records * (AdmissionOutcome * AdmissionRecord) :=
  let m1 := purge now m in
  let fp := bodyFingerprint body in
  match m1 !! key tenant event with
  | Some existing => (m1, (if String.eqb (fingerprint existing) fp then replay else conflict, existing))
  | None =>
      let r := {| r_tenantId := tenant; r_eventId := event; fingerprint := fp; statusCode := status; responseBody := resp;
                  createdAt := now; expiresAt := now + ttlMs |} in
      (<[key tenant event := r]> m1, (accepted, r))
  end.

Definition complete (tenant event body : string) (status : Z) (resp : B) (m : records)
  : records * result admission_error AdmissionRecord :=
  match m !! key tenant event with
  | Some current =>
      if String.eqb (fingerprint current) (bodyFingerprint body) then
        let r := {| r_tenantId := r_tenantId current; r_eventId := r_eventId current; fingerprint := fingerprint current;
                    statusCode := status; responseBody := resp; createdAt := createdAt current; expiresAt := expiresAt current |} in
        (<[key tenant event := r]> m, Ok r)
      else (m, Err RECORD_CONFLICT)
  | None => (m, Err RECORD_CONFLICT)
  end.

Definition get (tenant event : string) (m : records) : option AdmissionRecord := m !! key tenant event.
Definition delete (tenant event : string) (m : records) : records * bool :=
  (base.delete (key tenant event) m, isSome (m !! key tenant event)).
Definition size (now : Z) (m : records) : records * nat := (purge now m, map_size (purge now m)).
Definition clear (m : records) : records := ∅.

(** [admitIncomingWebhook], when the clock of the store reads [now]; the seconds
    are an argument of their own, by default those of the system clock. *)
Definition admitIncomingWebhook (ttlMs now : Z) (nowSeconds toleranceSeconds : number) (i : AdmissionInput) (m : records)
  : records * result admission_error (AdmissionOutcome * AdmissionRecord) :=
  match (ts ← verifyIncomingSignature i; validateFreshness ts nowSeconds toleranceSeconds) with
  | Err e => (m, Err e)
  | Ok _ => let '(m', r) := claim ttlMs now (tenantId i) (eventId i) (rawBody i) 202 null m in (m', Ok r)
  end.

(** ** An event is admitted once *)

(** Calls on the store at a clock that does not go back, but those that remove
    the record of [k]: its deletion, and [clear]. *)
Inductive astep (ttlMs : Z) (k : string) : Z * records → Z * records → Prop :=
| a_admit t t' n tol i m : t ≤ t' → astep ttlMs k (t, m) (t', (admitIncomingWebhook ttlMs t' n tol i m).1)
| a_claim t t' tenant event body status resp m : t ≤ t' → astep ttlMs k (t, m) (t', (claim ttlMs t' tenant event body status resp m).1)
| a_complete t tenant event body status resp m :
    astep ttlMs k (t, m) (t, (complete tenant event body status resp m).1)
| a_delete t tenant event m : key tenant event ≠ k → astep ttlMs k (t, m) (t, (delete tenant event m).1)
| a_size t t' m : t ≤ t' → astep ttlMs k (t, m) (t', (size t' m).1).

(** The record of [k] lives until [x] with fingerprint [fp]. *)
Definition holds (k fp : string) (x : Z) (s : Z * records) : Prop :=
  s.1 < x → ∃ r, s.2 !! k = Some r ∧ fingerprint r = fp ∧ expiresAt r = x.

Lemma purge_keeps now m k r : m !! k = Some r → now < expiresAt r → purge now m !! k = Some r.
Proof. intros Hk Hr. apply map_lookup_filter_Some. split; [done|]. simpl. lia. Qed.

Lemma purge_alive now m k r : purge now m !! k = Some r → m !! k = Some r ∧ now < expiresAt r.
Proof. intros [Hk Hr]%map_lookup_filter_Some. simpl in Hr. split; [done|lia]. Qed.

Lemma holds_claim k fp x ttlMs t t' tenant event body status resp m : t ≤ t' → holds k fp x (t, m) →
  holds k fp x (t', (claim ttlMs t' tenant event body status resp m).1).
Proof.
  intros Ht Hh Hlt. simpl in Hlt. destruct Hh as (r & Hr & Hf & Hx); [simpl; lia|]. simpl in Hr.
  apply (purge_keeps t') in Hr; [|lia]. unfold claim. destruct (purge t' m !! key tenant event) as [e|] eqn:E; simpl.
  - by exists r.
  - exists r. rewrite lookup_insert_ne by congruence. done.
Qed.

Lemma holds_astep k fp x ttlMs s s' : holds k fp x s → astep ttlMs k s s' → holds k fp x s'.
Proof.
  intros Hh Hs. destruct Hs as [t t' n tol i m Ht|t t' tenant event body status resp m Ht|t tenant event body status resp m|t tenant event m Hne|t t' m Ht].
  - unfold admitIncomingWebhook. destruct (_ ≫= _).
    + by apply (holds_claim k fp x ttlMs t t' (tenantId i) (eventId i) (rawBody i) 202 null m) in Hh;
        [destruct (claim _ _ _ _ _ _ _ _)|].
    + intros Hlt. apply Hh. simpl in *. lia.
  - by eapply holds_claim.
  - intros Hlt. destruct (Hh Hlt) as (r & Hr & Hf & Hx). simpl in *. unfold complete.
    destruct (m !! key tenant event) as [c|] eqn:E; [|by exists r]. case_match; simpl; [|by exists r].
    destruct (decide (key tenant event = k)) as [<-|]; [|exists r; by rewrite lookup_insert_ne].
    rewrite lookup_insert_eq. simplify_eq. by eexists.
  - intros Hlt. destruct (Hh Hlt) as (r & Hr & Hf & Hx). exists r. simpl in *. by rewrite lookup_delete_ne.
  - intros Hlt. simpl in Hlt. destruct Hh as (r & Hr & Hf & Hx); [simpl; lia|]. exists r. simpl in *.
    split; [apply purge_keeps; [done|lia]|done].
Qed.

Lemma astep_clock ttlMs k s s' : astep ttlMs k s s' → s.1 ≤ s'.1.
Proof. intros []; simpl; lia. Qed.

Lemma holds_asteps k fp x ttlMs s s' : holds k fp x s → rtc (astep ttlMs k) s s' → holds k fp x s' ∧ s.1 ≤ s'.1.
Proof.
  intros Hh H. induction H as [|s1 s2 s3 Hs _ IH]; [by split; [|lia]|].
  destruct (IH (holds_astep _ _ _ _ _ _ Hh Hs)). apply astep_clock in Hs. split; [done|lia].
Qed.

(** What a call that is not refused established. *)
Lemma admit_Ok ttlMs now n tol i m m' o r : admitIncomingWebhook ttlMs now n tol i m = (m', Ok (o, r)) →
  claim ttlMs now (tenantId i) (eventId i) (rawBody i) 202 null m = (m', (o, r)) ∧
  ∃ ts seconds tolerance, timestamp i = Some ts ∧ n = Some seconds ∧ tol = Some tolerance ∧ 0 < ts ∧ Z.abs (seconds - ts) ≤ tolerance ∧
    secret i ≠ EmptyString ∧
    hex_bytes (suppliedText i) = hex_bytes (hmac (secret i) (signingMaterial (tenantId i) (eventId i) ts (rawBody i))).
Proof.
  unfold admitIncomingWebhook. destruct (_ ≫= _) as [[]|e] eqn:E; [|done]. intros H. split.
  { destruct (claim _ _ _ _ _ _ _ _). by simplify_eq. }
  clear H. apply bind_Ok_inv in E as (ts & Hv & Hf). unfold verifyIncomingSignature in Hv.
  case_test_in Hv; [done|]. destruct (timestamp i) as [t|]; [|done]. case_test_in Hv; [done|].
  unfold signIncomingWebhook in Hv. destruct (String.eqb_spec (secret i) EmptyString); [done|]. simpl in Hv.
  case_bool_decide as Hb; simplify_eq/=. unfold validateFreshness, natural in Hf.
  destruct n as [n|]; [|done]. case_test_in Hf; [done|]. destruct tol as [tol|]; [|done]. case_test_in Hf; [done|].
  apply throw_if_Ok in Hf. exists ts, n, tol. breflect. split_and!; try done; lia.
Qed.

Lemma claim_accepted ttlMs now tenant event body status resp m m' r :
  claim ttlMs now tenant event body status resp m = (m', (accepted, r)) →
  purge now m !! key tenant event = None ∧ m' !! key tenant event = Some r ∧ fingerprint r = bodyFingerprint body ∧
  expiresAt r = now + ttlMs.
Proof.
  unfold claim. destruct (purge now m !! key tenant event) as [e|] eqn:E; [intros [= _ Ho _]; by case_match|].
  intros [= <- <-]. by rewrite lookup_insert_eq.
Qed.

(** C29. An incoming event is accepted only with the HMAC of its tenant, id,
    timestamp and body under the secret, and with a timestamp within the tolerance
    of the seconds given. Whatever calls follow an acceptance at a clock that does
    not go back, until its record expires or is removed by [delete] or [clear],
    the same event is answered as a replay or, with another body, as a conflict,
    whatever seconds are given; and when the seconds given are those of the
    store's clock, an event with the same tenant, id and timestamp is not accepted
    again after the expiry either, if both tolerances and a second are no longer
    than the lifetime of records. *)
Theorem webhook_admitted_once ttlMs now n tol i m m' r : admitIncomingWebhook ttlMs now n tol i m = (m', Ok (accepted, r)) →
  (∃ ts seconds tolerance, timestamp i = Some ts ∧ n = Some seconds ∧ tol = Some tolerance ∧ Z.abs (seconds - ts) ≤ tolerance ∧
     hex_bytes (suppliedText i) = hex_bytes (hmac (secret i) (signingMaterial (tenantId i) (eventId i) ts (rawBody i)))) ∧
  ∀ now2 m2 i2 n2 tol2 o2 r2 m3, rtc (astep ttlMs (key (tenantId i) (eventId i))) (now, m') (now2, m2) →
    tenantId i2 = tenantId i → eventId i2 = eventId i →
    admitIncomingWebhook ttlMs now2 n2 tol2 i2 m2 = (m3, Ok (o2, r2)) →
    (now2 < now + ttlMs → o2 = if String.eqb (bodyFingerprint (rawBody i)) (bodyFingerprint (rawBody i2)) then replay else conflict) ∧
    (n = Some (now / 1000) → n2 = Some (now2 / 1000) → timestamp i2 = timestamp i →
       (default 0 tol + default 0 tol2 + 1) * 1000 ≤ ttlMs → o2 ≠ accepted).
Proof.
  intros [Hc (ts & sec & tl & Hts & -> & -> & _ & Hab & _ & Hsig)]%admit_Ok. split; [by exists ts, sec, tl|].
  intros now2 m2 i2 n2 tol2 o2 r2 m3 Hst Ht He [Hc2 (ts2 & sec2 & tl2 & Hts2 & -> & -> & _ & Hab2 & _ & _)]%admit_Ok.
  apply claim_accepted in Hc as (_ & Hr & Hf & Hx).
  assert (holds (key (tenantId i) (eventId i)) (bodyFingerprint (rawBody i)) (now + ttlMs) (now, m')) as H0
    by (intros _; exists r; by rewrite <- Hf).
  destruct (holds_asteps _ _ _ _ _ _ H0 Hst) as [Hh Hle]. simpl in Hle.
  assert (now2 < now + ttlMs → o2 = if String.eqb (bodyFingerprint (rawBody i)) (bodyFingerprint (rawBody i2)) then replay else conflict)
    as Hbefore.
  { intros Hlt. destruct (Hh Hlt) as (r' & Hr' & Hf' & Hx'). simpl in Hr'. apply (purge_keeps now2) in Hr'; [|lia].
    unfold claim in Hc2. rewrite Ht, He, Hr', Hf' in Hc2. by injection Hc2. }
  split; [done|]. intros [= ->] [= ->] Hsame Htol ->. rewrite Hts, Hts2 in Hsame. injection Hsame as ->. simpl in Htol.
  pose proof (Z.div_mod now 1000 ltac:(lia)). pose proof (Z.mod_pos_bound now 1000 ltac:(lia)).
  pose proof (Z.div_mod now2 1000 ltac:(lia)). pose proof (Z.mod_pos_bound now2 1000 ltac:(lia)).
  assert (now2 < now + ttlMs) as Hlt by lia. specialize (Hbefore Hlt). by case_match.
Qed.

(** The signed text does not separate tenant and event: a signature for the
    event [b:c] of tenant [a] also passes for the event [c] of tenant [a:b]. *)
Lemma signing_material_ambiguous a b c ts body :
  signingMaterial (a +:+ ":" +:+ b) c ts body = signingMaterial a (b +:+ ":" +:+ c) ts body.
Proof. unfold signingMaterial. by rewrite !str_app_assoc. Qed.
End Admission.
Arguments AdmissionRecord B : clear implicits.
End Admission.

(** ** Outgoing events *)

Module Delivery.
Section Delivery.
(** An item of a list payload, or the object of another payload. *)
Context {I : Type}.

Inductive payload_data := Object (o : I) | Listing (items : list I).

Record WebhookPayload := {
  event : string;
  timestamp : string;
  data : payload_data;
  chunkId : option string;
  chunkIndex : option Z;
  totalChunks : option Z;
  payloadTruncated : option bool
}.

(** The JSON text of a payload and its length in UTF-8. *)
Variable stringify : WebhookPayload → string.
Variable byteLength : string → Z.
Variable hmac : string → string → string.
Variable sha256 : string → string.
Variable hostname_of : string → option string.

Definition bytes (p : WebhookPayload) : Z := byteLength (stringify p).

(** *** Chunks *)

(** [{ ...basePayload, data, chunkId, chunkIndex, totalChunks: 0 }], marked as
    truncated or not. *)
Definition chunk_of (base : WebhookPayload) (cid : string) (items : list I) (idx : Z) (truncated : bool) : WebhookPayload :=
  {| event := event base; timestamp := timestamp base; data := Listing items; chunkId := Some cid;
     chunkIndex := Some idx; totalChunks := Some 0;
     payloadTruncated := if truncated then Some true else payloadTruncated base |}.

(** The body of the loop. *)
Definition chunk_step (base : WebhookPayload) (sizeCap : Z) (cid : string) (s : list WebhookPayload * list I) (item : I)
  : list WebhookPayload * list I :=
  let '(chunks, current) := s in
  let idx := Z.of_nat (length chunks) in
  if bytes (chunk_of base cid (current ++ [item]) idx false) <=? sizeCap then (chunks, current ++ [item])
  else match current with
  | _ :: _ => (chunks ++ [chunk_of base cid current idx false], [item])
  | [] => (chunks ++ [chunk_of base cid [item] idx true], [])
  end.

Definition set_total (n : Z) (c : WebhookPayload) : WebhookPayload :=
  {| event := event c; timestamp := timestamp c; data := data c; chunkId := chunkId c; chunkIndex := chunkIndex c;
     totalChunks := Some n; payloadTruncated := payloadTruncated c |}.

Definition chunkListPayload (base : WebhookPayload) (sizeCap : Z) (cid : string) : list WebhookPayload :=
  match data base with
  | Object _ => [base]
  | Listing items =>
      let '(chunks, current) := foldl (chunk_step base sizeCap cid) ([], []) items in
      let all := match current with
                 | _ :: _ => chunks ++ [chunk_of base cid current (Z.of_nat (length chunks)) false]
                 | [] => chunks
                 end in
      set_total (Z.of_nat (length all)) <$> all
  end.

Definition items_of (c : WebhookPayload) : list I := match data c with Listing l => l | Object _ => [] end.

(** A chunk cut at index [n]: it fits unless it is a single item, and only a
    single item that does not fit is marked. *)
Definition chunk_ok (base : WebhookPayload) (cid : string) (sizeCap : Z) (n : nat) (c : WebhookPayload) : Prop :=
  ∃ items mark, c = chunk_of base cid items (Z.of_nat n) mark ∧ items ≠ [] ∧
    ((2 ≤ length items)%nat → mark = false ∧ bytes c ≤ sizeCap) ∧
    (mark = true → sizeCap < bytes (chunk_of base cid items (Z.of_nat n) false)).

Definition cut_ok (base : WebhookPayload) (cid : string) (sizeCap : Z) (done : list I) (s : list WebhookPayload * list I) : Prop :=
  List.concat (items_of <$> s.1) ++ s.2 = done ∧
  (∀ n c, s.1 !! n = Some c → chunk_ok base cid sizeCap n c) ∧
  ((2 ≤ length s.2)%nat → bytes (chunk_of base cid s.2 (Z.of_nat (length s.1)) false) ≤ sizeCap).

Lemma concat_items_snoc chunks base cid items idx mark :
  List.concat (items_of <$> chunks ++ [chunk_of base cid items idx mark]) = List.concat (items_of <$> chunks) ++ items.
Proof. rewrite fmap_app, List.concat_app. simpl. by rewrite app_nil_r. Qed.

Lemma chunks_snoc base cid sizeCap chunks c : (∀ n c, chunks !! n = Some c → chunk_ok base cid sizeCap n c) →
  chunk_ok base cid sizeCap (length chunks) c → ∀ n c', (chunks ++ [c]) !! n = Some c' → chunk_ok base cid sizeCap n c'.
Proof. intros H Hc n c' [[_ Hn]|[-> <-]]%lookup_snoc_Some; [by apply H|done]. Qed.

Lemma cut_step base cid sizeCap done_ s item : cut_ok base cid sizeCap done_ s →
  cut_ok base cid sizeCap (done_ ++ [item]) (chunk_step base sizeCap cid s item).
Proof.
  destruct s as [chunks current]. intros (Hd & Hc & Hcur). simpl in *. unfold chunk_step.
  destruct (Z.leb_spec (bytes (chunk_of base cid (current ++ [item]) (Z.of_nat (length chunks)) false)) sizeCap) as [Hf|Hf].
  - split_and!; simpl; [|done|done]. by rewrite app_assoc, Hd.
  - destruct current as [|x current].
    + split_and!; simpl; [| |lia].
      * rewrite concat_items_snoc. rewrite app_nil_r in *. by rewrite Hd.
      * apply chunks_snoc; [done|]. exists [item], true. simpl in *. split_and!; [done|done|lia|done].
    + split_and!; simpl; [| |lia].
      * rewrite concat_items_snoc. by rewrite Hd.
      * apply chunks_snoc; [done|]. exists (x :: current), false. split_and!; [done|done|by auto|done].
Qed.

Lemma cut_all base cid sizeCap items : cut_ok base cid sizeCap items (foldl (chunk_step base sizeCap cid) ([], []) items).
Proof.
  induction items as [|x items IH] using rev_ind; [by split_and!; simpl; [|intros n c; rewrite lookup_nil|lia]|].
  rewrite foldl_snoc. by apply cut_step.
Qed.

Lemma length_chunk_total (n : Z) l : length (set_total n <$> l) = length l.
Proof. apply length_fmap. Qed.

(** Chunking a list payload loses, repeats and reorders nothing: the items of
    the chunks, in order, are those of the payload; the chunks carry the event,
    one id, the indices from zero and their number; none is empty; and a chunk
    of several items is within the size cap but for the digits of the number of
    chunks, where the JSON text of a chunk grows with that number's digits only. *)
Theorem chunks_cover_payload base items sizeCap cid : data base = Listing items →
  (∀ c n, 0 ≤ n → bytes (set_total n c) ≤ bytes (set_total 0 c) + slen (bigint_toString n) - 1) →
  let cs := chunkListPayload base sizeCap cid in
  let total := Z.of_nat (length cs) in
  List.concat (items_of <$> cs) = items ∧
  ∀ n c, cs !! n = Some c → event c = event base ∧ timestamp c = timestamp base ∧ chunkId c = Some cid ∧
    chunkIndex c = Some (Z.of_nat n) ∧ totalChunks c = Some total ∧ items_of c ≠ [] ∧
    ((2 ≤ length (items_of c))%nat → payloadTruncated c = payloadTruncated base ∧
       bytes c ≤ sizeCap + slen (bigint_toString total) - 1).
Proof.
  intros Hdata Hjson. cbv zeta. unfold chunkListPayload. rewrite Hdata.
  pose proof (cut_all base cid sizeCap items) as Hcut. destruct (foldl _ _ _) as [chunks current].
  destruct Hcut as (Hd & Hc & Hcur). simpl in *.
  set (all := match current with [] => chunks | _ => _ end).
  assert (List.concat (items_of <$> all) = items ∧ ∀ n c, all !! n = Some c → chunk_ok base cid sizeCap n c) as [Hall Hok].
  { destruct current as [|x current]; subst all; [by rewrite app_nil_r in Hd|].
    split; [by rewrite concat_items_snoc|]. apply chunks_snoc; [done|]. exists (x :: current), false. split_and!; [done|done|auto|done]. }
  rewrite length_chunk_total. split.
  - transitivity (List.concat (items_of <$> all)); [|done]. f_equal. rewrite <- list_fmap_compose. apply list_fmap_ext. by intros.
  - intros n c. rewrite list_lookup_fmap. intros (c0 & Hc0 & ->)%fmap_Some.
    destruct (Hok n c0 Hc0) as (its & mark & -> & Hne & Hfit & _). simpl. split_and!; try done.
    intros H2. destruct (Hfit H2) as [-> Hb]. split; [done|].
    pose proof (Hjson (chunk_of base cid its (Z.of_nat n) false) (Z.of_nat (length all)) ltac:(lia)) as Hj.
    change (set_total 0 (chunk_of base cid its (Z.of_nat n) false)) with (chunk_of base cid its (Z.of_nat n) false) in Hj. lia.
Qed.

(** *** One transmission *)

Definition GRACE_PERIOD_MS : Z := 24 * 60 * 60 * 1000.

(** The fields the delivery reads, with the secrets and their times. *)
Record WebhookConfig := {
  id : string;
  url : string;
  events : list string;
  secret : string;
  previousSecret : option string;
  secretUpdatedAt : Z;
  w_active : bool;
  secretRotatedAt : option Z;
  previousSecretExpiresAt : option Z
}.

Record WebhookDeliveryResult := {
  webhookId : string;
  success : bool;
  skipped : bool;
  statusCode : option Z;
  error : option string;
  attempts : Z;
  errorCode : option string
}.

Definition signPayload (payload sec : string) : result string string :=
  if String.eqb sec EmptyString then Err "signPayload: secret must be a non-empty string" else Ok (hmac sec payload).

(** The signatures of a text at [now]: two during the grace period. *)
Definition signatures (now : Z) (w : WebhookConfig) (payloadStr : string) : result string (list string) :=
  s ← signPayload payloadStr (secret w);
  match previousSecret w with
  | None | Some EmptyString => Ok [s]
  | Some prev =>
      if now - secretUpdatedAt w <? GRACE_PERIOD_MS then (p ← signPayload payloadStr prev; Ok [s; p]) else Ok [s]
  end.

(** What [executeWithRetry] on the POST ends in, with the number of attempts:
    the status of the response, or the exception. *)
Inductive transmission :=
| Responded (status tries : Z)
| Threw (message : string) (status : option Z) (code : option string) (timedOut : bool) (tries : Z).

Definition sent (t : transmission) (w : WebhookConfig) : WebhookDeliveryResult :=
  match t with
  | Responded st n => {| webhookId := id w; success := true; skipped := false; statusCode := Some st; error := None;
                         attempts := n; errorCode := None |}
  | Threw msg st code timedOut n =>
      {| webhookId := id w; success := false; skipped := false; statusCode := st; error := Some msg; attempts := n;
         errorCode := match st with
                      | Some s => if s =? 0 then (if timedOut then Some "TIMEOUT_ERROR" else code)
                                  else Some ("HTTP_" +:+ bigint_toString s)
                      | None => if timedOut then Some "TIMEOUT_ERROR" else code
                      end |}
  end.

(** The network: what was posted so far, with its signature header, and the
    reservations of the store. *)
Record wire := { posted : list (WebhookPayload * string); reservations : gmap string string }.

Definition post (p : WebhookPayload) (h : string) (x : wire) : wire :=
  {| posted := posted x ++ [(p, h)]; reservations := reservations x |}.

(** [net] gives what the n-th transmission ends in. *)
Definition deliverSingleWebhook (net : nat → transmission) (now : Z) (w : WebhookConfig) (p : WebhookPayload) (x : wire)
  : wire * result string WebhookDeliveryResult :=
  match signatures now w (stringify p) with
  | Err e => (x, Err e)
  | Ok sigs =>
      match checkHostBlocked hostname_of (url w) with
      | None => (x, Err "RangeError")
      | Some (blocked _ host) =>
          (x, Ok {| webhookId := id w; success := false; skipped := false; statusCode := None;
                    error := Some ("Webhook target '" +:+ host +:+ "' is restricted"); attempts := 0;
                    errorCode := Some "SSRF_BLOCKED" |})
      | Some allowed => (post p (join_on "," sigs) x, Ok (sent (net (length (posted x))) w))
      end
  end.

(** *** The in-memory store *)

Definition generateWebhookIdempotencyKey (subscriber ev : string) : string :=
  sha256 ("webhook-delivery:" +:+ subscriber +:+ ":" +:+ ev).

Definition marker (subscriber ev : string) : string := subscriber +:+ ":" +:+ ev.

Definition reserveWebhookDelivery (subscriber ev k : string) (x : wire) : wire * bool :=
  match reservations x !! marker subscriber ev with
  | Some _ => (x, false)
  | None => ({| posted := posted x; reservations := <[marker subscriber ev := k]> (reservations x) |}, true)
  end.

Definition clearWebhookDeliveryAttempt (subscriber ev : string) (x : wire) : wire :=
  {| posted := posted x; reservations := delete (marker subscriber ev) (reservations x) |}.

Definition rotateSecret (now : Z) (i newSecret prev : string) (expires : Z) (m : jsmap string WebhookConfig)
  : jsmap string WebhookConfig * result string WebhookConfig :=
  match jm_get i m with
  | None => (m, Err ("Webhook not found: " +:+ i))
  | Some e =>
      let u := {| id := id e; url := url e; events := events e; secret := newSecret; previousSecret := Some prev;
                  secretUpdatedAt := secretUpdatedAt e; w_active := w_active e; secretRotatedAt := Some now;
                  previousSecretExpiresAt := Some expires |} in
      (jm_set i u m, Ok u)
  end.

(** *** [deliverWebhook] *)

(** The chunks are sent one after the other until one fails. *)
Fixpoint deliver_chunks (net : nat → transmission) (now : Z) (w : WebhookConfig) (ps : list WebhookPayload) (x : wire)
  : wire * result string (list WebhookDeliveryResult) :=
  match ps with
  | [] => (x, Ok [])
  | p :: ps' =>
      match deliverSingleWebhook net now w p x with
      | (x1, Err e) => (x1, Err e)
      | (x1, Ok r) =>
          if success r then
            match deliver_chunks net now w ps' x1 with
            | (x2, Ok rs) => (x2, Ok (r :: rs))
            | (x2, Err e) => (x2, Err e)
            end
          else (x1, Ok [r])
      end
  end.

Definition truncated (p : WebhookPayload) : WebhookPayload :=
  {| event := event p; timestamp := timestamp p; data := data p; chunkId := chunkId p; chunkIndex := chunkIndex p;
     totalChunks := totalChunks p; payloadTruncated := Some true |}.

(** What is sent for a payload. *)
Definition to_send (p : WebhookPayload) (sizeCap : Z) (cid : string) : list WebhookPayload :=
  if bytes p <=? sizeCap then [p]
  else match data p with Listing _ => chunkListPayload p sizeCap cid | Object _ => [truncated p] end.

(** The statements of a store in a database may fail: with the error, and whether
    they were executed all the same. The in-memory store has no faults. *)
Record store_faults := {
  reserve_fault : option (string * bool);
  clear_fault : option (string * bool);
  clear_again_fault : option (string * bool)
}.
Definition no_faults : store_faults := {| reserve_fault := None; clear_fault := None; clear_again_fault := None |}.

Definition reserve_with (f : option (string * bool)) (subscriber ev k : string) (x : wire) : wire * result string bool :=
  let '(x1, reserved) := reserveWebhookDelivery subscriber ev k x in
  match f with
  | Some (m, executed) => (if executed then x1 else x, Err m)
  | None => (x1, Ok reserved)
  end.

(** The clearing, after which [r] is returned or thrown. *)
Definition clear_with {A} (f : option (string * bool)) (subscriber ev : string) (r : result string A) (x : wire) : wire * result string A :=
  match f with
  | Some (m, executed) => (if executed then clearWebhookDeliveryAttempt subscriber ev x else x, Err m)
  | None => (clearWebhookDeliveryAttempt subscriber ev x, r)
  end.

(** With all results returned; [ev] is the event id when one is given along
    with a store. A clearing that fails after a failed result is tried again. *)
Definition deliverWebhook (f : store_faults) (net : nat → transmission) (now : Z) (w : WebhookConfig) (p : WebhookPayload) (sizeCap : Z)
    (cid : string) (ev : option string) (x : wire) : wire * result string (list WebhookDeliveryResult) :=
  match ev with
  | None | Some EmptyString => deliver_chunks net now w (to_send p sizeCap cid) x
  | Some e =>
      match reserve_with (reserve_fault f) (id w) e (generateWebhookIdempotencyKey (id w) e) x with
      | (x1, Err m) => (x1, Err m)
      | (x1, Ok false) =>
          (x1, Ok [{| webhookId := id w; success := true; skipped := true; statusCode := None; error := None; attempts := 0;
                      errorCode := None |}])
      | (x1, Ok true) =>
          match deliver_chunks net now w (to_send p sizeCap cid) x1 with
          | (x2, Ok rs) =>
              if existsb (λ r, negb (success r)) rs then
                match clear_with (clear_fault f) (id w) e (Ok rs) x2 with
                | (x3, Ok rs) => (x3, Ok rs)
                | (x3, Err m) => clear_with (clear_again_fault f) (id w) e (Err m) x3
                end
              else (x2, Ok rs)
          | (x2, Err m) => clear_with (clear_fault f) (id w) e (Err m) x2
          end
      end
  end.

(** *** A delivered event is not sent again *)

Definition all_succeeded (r : result string (list WebhookDeliveryResult)) : bool :=
  match r with Ok rs => forallb success rs | Err _ => false end.

(** What a run of chunks posts: a prefix of them, all of them when it
    succeeds, and its reservations are untouched. *)
Lemma deliver_chunks_spec net now w ps x : 
  let '(x', r) := deliver_chunks net now w ps x in
  reservations x' = reservations x ∧ ∃ sent, posted x' = posted x ++ sent ∧ sent.*1 `prefix_of` ps ∧
    (all_succeeded r = true → sent.*1 = ps).
Proof.
  revert x. induction ps as [|p ps IH]; intros x; simpl.
  { split; [done|]. exists []. by rewrite app_nil_r. }
  unfold deliverSingleWebhook. destruct (signatures _ _ _) as [sigs|e]; simpl.
  2:{ split; [done|]. exists []. rewrite app_nil_r. split_and!; [done|apply prefix_nil|done]. }
  destruct (checkHostBlocked _ _) as [[|why host]|].
  - set (x1 := post p (join_on "," sigs) x). destruct (success (sent _ w)) eqn:Es; simpl.
    + specialize (IH x1). destruct (deliver_chunks net now w ps x1) as [x2 [rs|m]]; destruct IH as [Hr (l & Hp & Hl & Ha)];
        (split; [done|]); exists ((p, join_on "," sigs) :: l); rewrite Hp; simpl; rewrite <- (app_assoc (posted x));
        (split_and!; [done|by apply prefix_cons|]); simpl in *; [|done].
      rewrite Es. intros Hall. f_equal. by apply Ha.
    + split; [done|]. exists [(p, join_on "," sigs)]. split_and!; [done|by exists ps|]. rewrite Es. done.
  - split; [done|]. exists []. rewrite app_nil_r. split_and!; [done|apply prefix_nil|done].
  - split; [done|]. exists []. rewrite app_nil_r. split_and!; [done|apply prefix_nil|done].
Qed.

Lemma existsb_failed rs : existsb (λ r, negb (success r)) rs = negb (forallb success rs).
Proof. induction rs as [|r rs IH]; simpl; [done|]. rewrite IH. by destruct (success r). Qed.

(** A delivery of an event that is reserved posts nothing. Any other posts
    the payload, or its chunks in order, up to the first that fails; when all
    succeed the event stays reserved, so that a later delivery of it posts
    nothing, and otherwise the reservation is gone and it can be delivered
    again; other events are not touched. The statements of the store succeed. *)
Theorem delivery_once net now w p sizeCap cid e x : e ≠ EmptyString →
  let m := marker (id w) e in
  let '(x', r) := deliverWebhook no_faults net now w p sizeCap cid (Some e) x in
  (∀ m', m' ≠ m → reservations x' !! m' = reservations x !! m') ∧
  match reservations x !! m with
  | Some _ => x' = x ∧ all_succeeded r = true
  | None => (∃ sent, posted x' = posted x ++ sent ∧ sent.*1 `prefix_of` to_send p sizeCap cid ∧
       (all_succeeded r = true → sent.*1 = to_send p sizeCap cid)) ∧
     if all_succeeded r then
       ∀ net2 now2 w2 p2 cap2 cid2, id w2 = id w → (deliverWebhook no_faults net2 now2 w2 p2 cap2 cid2 (Some e) x').1 = x'
     else reservations x' !! m = None
  end.
Proof.
  intros He m. subst m. unfold deliverWebhook at 1. destruct e as [|a e]; [done|]. set (ev := String a e).
  unfold reserve_with, reserveWebhookDelivery. destruct (reservations x !! marker (id w) ev) as [k|] eqn:Ek; simpl; [done|].
  set (x1 := {| posted := posted x; reservations := _ |}).
  pose proof (deliver_chunks_spec net now w (to_send p sizeCap cid) x1) as Hs.
  destruct (deliver_chunks _ _ _ _ x1) as [x2 [rs|m]]; destruct Hs as [Hr Hsent]; simpl in Hsent.
  - rewrite existsb_failed. cbn [all_succeeded] in *. destruct (forallb success rs) eqn:Ea; simpl; rewrite Ea.
    + split_and!.
      * intros m' Hm. rewrite Hr. simpl. by rewrite lookup_insert_ne.
      * done.
      * intros net2 now2 w2 p2 cap2 cid2 Hw. unfold deliverWebhook, reserve_with, reserveWebhookDelivery. cbn.
        rewrite Hw, Hr. simpl. by rewrite lookup_insert_eq.
    + split_and!.
      * intros m' Hm. rewrite lookup_delete_ne, Hr by done. simpl. by rewrite lookup_insert_ne.
      * done.
      * apply lookup_delete_eq.
  - simpl. split_and!.
    + intros m' Hm. rewrite lookup_delete_ne, Hr by done. simpl. by rewrite lookup_insert_ne.
    + done.
    + apply lookup_delete_eq.
Qed.

(** The in-memory store rotates the secret without moving [secretUpdatedAt]: a
    webhook whose secret was a day old signs with the new secret only. *)
Lemma rotation_drops_previous now i new_ prev expires m m' u text : rotateSecret now i new_ prev expires m = (m', Ok u) →
  secretUpdatedAt u + GRACE_PERIOD_MS ≤ now → new_ ≠ EmptyString →
  signatures now u text = Ok [hmac new_ text].
Proof.
  unfold rotateSecret. destruct (jm_get i m) as [e|]; [|done]. intros [= <- <-] Ht Hn. unfold signatures, signPayload. simpl in *.
  destruct (String.eqb_spec new_ EmptyString); [done|]. simpl. destruct prev; [done|].
  destruct (Z.ltb_spec (now - secretUpdatedAt e) GRACE_PERIOD_MS); [lia|done].
Qed.
End Delivery.
Arguments WebhookPayload I : clear implicits.
Arguments payload_data I : clear implicits.
End Delivery.

(** ** Examples *)

Module WebhookExample.
Import Admission.

Definition mac (k t : string) : string := "ab".
Definition input : AdmissionInput :=
  {| tenantId := "acme"; eventId := "e1"; timestamp := Some 1000; rawBody := "body"; signature := "v1=ab"; secret := "s" |}.
Definition incoming (now : Z) (m : gmap string (AdmissionRecord ())) :=
  admitIncomingWebhook mac tt DEFAULT_WEBHOOK_TTL_MS now (Some (now / 1000)) (Some DEFAULT_WEBHOOK_TOLERANCE_SECONDS) input m.
Definition m1 : gmap string (AdmissionRecord ()) := (incoming 1000000 ∅).1.
End WebhookExample.

Lemma webhook_admitted_once_witness :
  ∃ r, WebhookExample.incoming 1000000 ∅ = (WebhookExample.m1, Ok (Admission.accepted, r)) ∧
  ∃ m r2, WebhookExample.incoming 1200000 WebhookExample.m1 = (m, Ok (Admission.replay, r2)) ∧ Admission.replay ≠ Admission.accepted.
Proof.
  destruct (WebhookExample.incoming 1000000 ∅) as [m' [[o r]|e]] eqn:E; [|vm_compute in E; discriminate E].
  assert (o = Admission.accepted ∧ m' = WebhookExample.m1) as [-> ->].
  { unfold WebhookExample.m1. rewrite E. vm_compute in E. injection E as _ <- _. done. }
  exists r. split; [done|].
  destruct (WebhookExample.incoming 1200000 WebhookExample.m1) as [m [[o r2]|e]] eqn:E2; [|vm_compute in E2; discriminate E2].
  destruct (proj2 (Admission.webhook_admitted_once WebhookExample.mac tt _ _ _ _ _ _ _ _ E) 1200000 WebhookExample.m1
    WebhookExample.input (Some 1200) (Some Admission.DEFAULT_WEBHOOK_TOLERANCE_SECONDS) o r2 m) as [H1 H2]; [|done|done|exact E2|].
  - apply rtc_once. unfold WebhookExample.m1 at 2.
    assert (Admission.purge 1200000 WebhookExample.m1 = (WebhookExample.incoming 1000000 ∅).1) as <- by (vm_compute; reflexivity).
    apply Admission.a_size. lia.
  - exists m, r2. rewrite H1 in * by (vm_compute; reflexivity). by split; [|apply H2].
Defined.

(** A record that is deleted, or a clock in seconds of the caller's own, lets the
    same event in again. *)
Lemma removed_event_accepted : let m := (Admission.delete "acme" "e1" WebhookExample.m1).1 in
  fst <$> (WebhookExample.incoming 1000001 m).2 = Ok Admission.accepted ∧
  fst <$> (Admission.admitIncomingWebhook WebhookExample.mac tt Admission.DEFAULT_WEBHOOK_TTL_MS 90000000 (Some 1000)
    (Some Admission.DEFAULT_WEBHOOK_TOLERANCE_SECONDS) WebhookExample.input WebhookExample.m1).2 = Ok Admission.accepted.
Proof. vm_compute. auto. Qed.

Module ChunkExample.
Import Delivery.

Definition text (p : WebhookPayload Z) : string :=
  bigint_toString (default 0 (totalChunks p)) +:+
  str_repeat "x" (match data p with Listing l => Z.to_nat (sumZ (λ n, n) l) | Object _ => 0%nat end).
Definition base (items : list Z) : WebhookPayload Z :=
  {| event := "score.updated"; timestamp := "t"; data := Listing items; chunkId := None; chunkIndex := None;
     totalChunks := None; payloadTruncated := None |}.
Definition hook : WebhookConfig :=
  {| Delivery.id := "w1"; url := "https://example.org/"; events := []; secret := "s"; previousSecret := None;
     secretUpdatedAt := 0; w_active := true; secretRotatedAt := None; previousSecretExpiresAt := None |}.
End ChunkExample.

Lemma chunks_cover_payload_witness :
  let cs := Delivery.chunkListPayload ChunkExample.text slen (ChunkExample.base [1; 1; 1; 1; 1]) 3 "c" in
  length cs = 3%nat ∧ List.concat (Delivery.items_of <$> cs) = [1; 1; 1; 1; 1].
Proof.
  split; [vm_compute; reflexivity|].
  apply (Delivery.chunks_cover_payload ChunkExample.text slen (ChunkExample.base [1; 1; 1; 1; 1]) [1; 1; 1; 1; 1] 3 "c"); [done|].
  intros c n Hn. unfold Delivery.bytes, ChunkExample.text. simpl Delivery.totalChunks. simpl Delivery.data. rewrite !slen_app.
  change (slen (bigint_toString (default 0 (Some 0)))) with 1. simpl default. lia.
Defined.

(** An item that alone exceeds the cap is marked as truncated only when no item
    waits before it. *)
Lemma oversized_item_unmarked :
  Delivery.payloadTruncated <$> Delivery.chunkListPayload ChunkExample.text slen (ChunkExample.base [9; 1]) 3 "c" =
    [Some true; None] ∧
  Delivery.payloadTruncated <$> Delivery.chunkListPayload ChunkExample.text slen (ChunkExample.base [1; 9; 1]) 3 "c" =
    [None; None; None].
Proof. split; vm_compute; reflexivity. Qed.

Lemma delivery_once_witness :
  let deliver := Delivery.deliverWebhook ChunkExample.text slen (λ k t, "sig") (λ s, s) (λ _, Some "example.org") Delivery.no_faults
    (λ n, Delivery.Responded 200 1) 5 ChunkExample.hook (ChunkExample.base [1; 1; 1]) 3 "c" (Some "e1") in
  let x := (deliver {| Delivery.posted := []; Delivery.reservations := ∅ |}).1 in
  length (Delivery.posted x) = 2%nat ∧ (deliver x).1 = x.
Proof.
  intros deliver x. split; [vm_compute; reflexivity|].
  pose proof (Delivery.delivery_once ChunkExample.text slen (λ k t, "sig") (λ s, s) (λ _, Some "example.org")
    (λ n, Delivery.Responded 200 1) 5 ChunkExample.hook (ChunkExample.base [1; 1; 1]) 3 "c" "e1" x ltac:(done)) as H.
  change (Delivery.deliverWebhook _ _ _ _ _ _ _ _ _ _ _ _ _ x) with (deliver x) in H. destruct (deliver x) as [x' r].
  destruct H as [_ H]. destruct (Delivery.reservations x !! _) eqn:E; [by destruct H as [-> _]|]. vm_compute in E. discriminate E.
Defined.
