(* ===== verification/Imports.v ===== *)
(** * CSV imports

    [services/imports/mapping.ts] (column mappings, the in-memory presets and
    the dry run), [services/imports/commit.ts] (the resumable commit and the
    lock of its checkpoint store), [services/importPreviewService.ts] and
    [lib/stellarAddress.ts]. Parameters: the rows the CSV parser yields from a
    file and whether it then fails, the UTF-8 check, byte lengths, the clock at
    each row, zod's email check and its message for a missing field, SHA-256 and
    JSON texts. Lower case is that of ASCII; metrics are left out. *)

From stdpp Require Import base option list gmap strings relations.
From Stdlib Require Import ZArith Lia Ascii.
From S2P Require Import Prelude JsLib.

Open Scope Z_scope.

(** ** Limits *)

Definition IMPORT_PREVIEW_MAX_FILE_BYTES : Z := 512 * 1024.
Definition IMPORT_PREVIEW_MAX_ROWS : nat := Z.to_nat 10000.
Definition IMPORT_PREVIEW_MAX_PARSE_MS : Z := 5000.
Definition IMPORT_PREVIEW_MAX_ROW_ERRORS : nat := 100.
Definition IMPORT_PREVIEW_VALID_SAMPLE : nat := 20.
Definition IMPORT_PREVIEW_INVALID_SAMPLE : nat := 20.
Definition IMPORT_PREVIEW_MAX_CELL_BYTES : Z := 1024.
Definition IMPORT_DRY_RUN_MAX_ERRORS : nat := IMPORT_PREVIEW_MAX_ROW_ERRORS.

(** ** Addresses *)

(** [/^G[A-Z2-7]{55}$/]. *)
Definition base32_char (c : ascii) : bool :=
  ((65 <=? code c) && (code c <=? 90)) || ((50 <=? code c) && (code c <=? 55)).

Definition isValidStellarAddress (address : string) : bool :=
  match address with
  | String g rest => Ascii.eqb g "G" && (slen rest =? 55) && str_forallb base32_char rest
  | EmptyString => false
  end.

(** ** Column mappings *)

(** The entries of the mapping object, in order. *)
Abbreviation ColumnMapping := (jsmap string string).

Abbreviation mapped_row := (jsmap string string).

Definition DEFAULT_COLUMN_MAPPING : ColumnMapping := [("address", "address")].
Definition CANONICAL_IMPORT_COLUMNS : list string := ["address"; "email"; "name"].

Definition columnMappingSchema (m : ColumnMapping) : bool :=
  forallb (λ e, negb (String.eqb e.1 EmptyString) && bool_decide (e.2 ∈ CANONICAL_IMPORT_COLUMNS)) m &&
  bool_decide ("address" ∈ jm_values m).

Definition FORMULA_INJECTION_PREFIXES : list ascii := ["="; "+"; "-"; "@"; "009"; "013"]%char.

Definition sanitizeCellValue (value : string) : string :=
  match value with
  | String c _ => if bool_decide (c ∈ FORMULA_INJECTION_PREFIXES) then String "009" value else value
  | EmptyString => value
  end.

Definition stripBom (text : string) : string :=
  match text with String c rest => if code c =? 0xfeff then rest else text | EmptyString => text end.

(** [normalizedHeaders.indexOf(h)]. *)
Fixpoint header_index (h : string) (hs : list string) : option nat :=
  match hs with
  | [] => None
  | x :: xs => if String.eqb x h then Some 0%nat else S <$> header_index h xs
  end.

Definition normalized (csvHeaders : list string) : list string := (λ h, toLowerCase (stripBom h)) <$> csvHeaders.

(** [canonicalToCsvIndex]: a later entry of a canonical column replaces an
    earlier one. *)
Definition canonicalToCsvIndex (csvHeaders : list string) (m : ColumnMapping) : jsmap string nat :=
  foldl (λ acc e, match header_index (toLowerCase e.1) (normalized csvHeaders) with
                  | Some idx => jm_set e.2 idx acc
                  | None => acc
                  end) [] m.

Definition buildColumnMapper (csvHeaders : list string) (m : ColumnMapping) (row : list string) : mapped_row :=
  (λ e, (e.1, sanitizeCellValue (trim (default EmptyString (row !! e.2))))) <$> canonicalToCsvIndex csvHeaders m.

Definition applyPresetToPreview (rawRows : list (list string)) (csvHeaders : list string) (m : ColumnMapping)
  : list (mapped_row * Z) :=
  imap (λ idx row, (buildColumnMapper csvHeaders m row, Z.of_nat idx + 2)) rawRows.

Definition headersSatisfyMapping (csvHeaders : list string) (m : ColumnMapping) : bool :=
  existsb (λ e, String.eqb e.2 "address" && bool_decide (toLowerCase e.1 ∈ normalized csvHeaders)) m.

(** ** Row errors *)

Record ImportDryRunRowError := { row : Z; column : string; e_code : string; message : string }.

#[export] Instance ImportDryRunRowError_eq_dec : EqDecision ImportDryRunRowError.
Proof. solve_decision. Defined.

Section Imports.
Variable is_email : string → bool.
Variable required_message : string.
Variable byteLength : string → Z.

(** The issues of [importMappedRowSchema]: column and message. *)
Definition schema_issues (r : mapped_row) : list (string * string) :=
  match jm_get "address" r with
  | None => [("address", required_message)]
  | Some a =>
      (if String.eqb a EmptyString || String.eqb (trim a) EmptyString then [("address", "Missing address")]
       else if negb (isValidStellarAddress a) then [("address", "Invalid Stellar address")] else []) ++
      match jm_get "email" r with
      | None => []
      | Some e => if negb (String.eqb e EmptyString) && negb (is_email e) then [("email", "Invalid email address")] else []
      end
  end.

Definition zodIssueToImportError (issue : string * string) (n : Z) : ImportDryRunRowError :=
  {| row := n; column := issue.1;
     e_code := if String.eqb issue.1 "address" then
                 if String.eqb issue.2 "Missing address" then "MISSING_ADDRESS"
                 else if String.eqb issue.2 "Invalid Stellar address" then "INVALID_ADDRESS" else "VALIDATION_ERROR"
               else if String.eqb issue.1 "email" && String.eqb issue.2 "Invalid email address" then "INVALID_EMAIL"
               else "VALIDATION_ERROR";
     message := issue.2 |}.

Definition validateMappedRow (r : mapped_row) (n : Z) : list ImportDryRunRowError :=
  (λ i, zodIssueToImportError i n) <$> schema_issues r.

(** ** The dry run *)

(** The message texts are left out. *)
Record ImportDryRunErrorBody := { status : Z; error : string; code_ : string; body_row : option Z }.

Record ImportDryRunSuccessBody := { valid : bool; totalRows : Z; errors : list ImportDryRunRowError; errorsTruncated : bool }.

Abbreviation ImportDryRunResult := (result ImportDryRunErrorBody ImportDryRunSuccessBody).

Definition fail (s : Z) (err c : string) (r : option Z) : ImportDryRunErrorBody :=
  {| status := s; error := err; code_ := c; body_row := r |}.

Definition FileTooLarge := fail 413 "PayloadTooLarge" "FileTooLarge" None.
Definition InvalidEncoding := fail 400 "InvalidRequest" "InvalidEncoding" None.
Definition SchemaError := fail 400 "InvalidRequest" "SchemaError" (Some 1).
Definition ParseTimeout := fail 408 "RequestTimeout" "ParseTimeout" None.
Definition CellTooLarge (n : Z) := fail 400 "InvalidRequest" "CellTooLarge" (Some n).
Definition MalformedCsv := fail 400 "InvalidRequest" "MalformedCsv" None.

(** [pushRowErrors]: the array, and whether an error did not fit. *)
Fixpoint pushRowErrors (errs new_ : list ImportDryRunRowError) (maxErrors : nat) : list ImportDryRunRowError * bool :=
  match new_ with
  | [] => (errs, false)
  | e :: rest => if (maxErrors <=? length errs)%nat then (errs, true) else pushRowErrors (errs ++ [e]) rest maxErrors
  end.

(** The variables of the loop. *)
Record scan := {
  s_total : nat;
  s_scanned : nat;
  s_errors : list ImportDryRunRowError;
  s_truncated : bool;
  s_seen : gmap string Z
}.

Definition duplicate_error (n first : Z) : ImportDryRunRowError :=
  {| row := n; column := "address"; e_code := "DUPLICATE_KEY";
     message := "Duplicate address (first seen on row " +:+ bigint_toString first +:+ ")" |}.

Definition cell_too_large (cells : list string) : bool :=
  existsb (λ c, IMPORT_PREVIEW_MAX_CELL_BYTES <? byteLength (trim c)) cells.

(** What a row that is scanned adds: its errors, or its address. *)
Definition row_effect (r : mapped_row) (n : Z) (seen : gmap string Z) : list ImportDryRunRowError * gmap string Z :=
  match validateMappedRow r n with
  | [] =>
      let address := default EmptyString (jm_get "address" r) in
      match seen !! address with
      | Some first => ([duplicate_error n first], seen)
      | None => ([], <[address := n]> seen)
      end
  | errs => (errs, seen)
  end.

(** One row of the loop; [late] tells that the clock is past the limit. *)
Definition scan_row (mapper : list string → mapped_row) (late : nat → bool) (maxErrors maxRowsScan : nat) (cells : list string)
    (s : scan) : result ImportDryRunErrorBody scan :=
  let total := S (s_total s) in
  if late total then Err ParseTimeout else
  if (maxRowsScan <=? s_scanned s)%nat then
    Ok {| s_total := total; s_scanned := s_scanned s; s_errors := s_errors s; s_truncated := s_truncated s; s_seen := s_seen s |}
  else
    let rowNum := Z.of_nat total + 1 in
    if cell_too_large cells then Err (CellTooLarge rowNum) else
    let '(errs, seen) := row_effect (mapper cells) rowNum (s_seen s) in
    let '(errors', cut) := pushRowErrors (s_errors s) errs maxErrors in
    Ok {| s_total := total; s_scanned := S (s_scanned s); s_errors := errors';
          s_truncated := s_truncated s || cut || (maxErrors <=? length errors')%nat; s_seen := seen |}.

Fixpoint scan_rows (mapper : list string → mapped_row) (late : nat → bool) (maxErrors maxRowsScan : nat)
    (rows : list (list string)) (s : scan) : result ImportDryRunErrorBody scan :=
  match rows with
  | [] => Ok s
  | r :: rest => s' ← scan_row mapper late maxErrors maxRowsScan r s; scan_rows mapper late maxErrors maxRowsScan rest s'
  end.

(** A file: its bytes, their number, whether they are UTF-8, and what the parser yields and ends with. *)
Record file := { f_text : string; f_size : Z; f_utf8 : bool; f_rows : list (list string); f_broken : bool }.

Definition dryRunImportFile (f : file) (m : ColumnMapping) (late : nat → bool) (maxErrors maxRowsScan : nat) : ImportDryRunResult :=
  if IMPORT_PREVIEW_MAX_FILE_BYTES <? f_size f then Err FileTooLarge else
  if negb (f_utf8 f) then Err InvalidEncoding else
  if negb (columnMappingSchema m) then Err SchemaError else
  match f_rows f with
  | [] => if f_broken f then Err MalformedCsv
          else Ok {| valid := true; totalRows := 0; errors := []; errorsTruncated := false |}
  | header :: rows =>
      let csvHeaders := trim <$> header in
      if negb (headersSatisfyMapping csvHeaders m) then Err SchemaError
      else
        s ← scan_rows (buildColumnMapper csvHeaders m) late maxErrors maxRowsScan rows
              {| s_total := 0; s_scanned := 0; s_errors := []; s_truncated := false; s_seen := ∅ |};
        if f_broken f then Err MalformedCsv else
        let rowScanTruncated := (s_scanned s <? s_total s)%nat in
        Ok {| valid := bool_decide (s_errors s = []) && negb rowScanTruncated; totalRows := Z.of_nat (s_scanned s);
              errors := s_errors s; errorsTruncated := s_truncated s || rowScanTruncated |}
  end.

(** ** What the dry run reports *)

(** The errors of all rows, with no limit: those of the schema, or the
    duplicate of an address of an earlier valid row. *)
Fixpoint all_errors (mapper : list string → mapped_row) (rows : list (list string)) (n : nat) (seen : gmap string Z)
  : list ImportDryRunRowError :=
  match rows with
  | [] => []
  | r :: rest =>
      let '(errs, seen') := row_effect (mapper r) (Z.of_nat n + 2) seen in errs ++ all_errors mapper rest (S n) seen'
  end.

(** A row the schema accepts. *)
Definition row_valid (r : mapped_row) : Prop :=
  ∃ a, jm_get "address" r = Some a ∧ isValidStellarAddress a = true ∧
    match jm_get "email" r with Some e => e = EmptyString ∨ is_email e = true | None => True end.

Definition address_of (r : mapped_row) : string := default EmptyString (jm_get "address" r).


Lemma trim_address a : isValidStellarAddress a = true → trim a ≠ EmptyString.
Proof.
  destruct a as [|g a]; [done|]. simpl. intros H. breflect. destruct H as [[Hg _] _]. apply Ascii.eqb_eq in Hg as ->.
  unfold trim. simpl. case_match; done.
Qed.

Lemma schema_issues_nil r : schema_issues r = [] ↔ row_valid r.
Proof.
  unfold schema_issues, row_valid. destruct (jm_get "address" r) as [a|]; [|naive_solver]. split.
  - intros [H1 H2]%app_nil. exists a. case_test_in H1; [done|].
    destruct (isValidStellarAddress a); [|done]. split_and!; [done|done|]. destruct (jm_get "email" r) as [e|]; [|done].
    destruct (String.eqb_spec e EmptyString); [by left|]. right. by destruct (is_email e).
  - intros (a' & [= <-] & Ha & He). apply app_nil. split.
    + destruct (String.eqb_spec a EmptyString) as [->|]; [done|]. destruct (String.eqb_spec (trim a) EmptyString) as [E|];
        [by apply trim_address in Ha|]. simpl. by rewrite Ha.
    + destruct (jm_get "email" r) as [e|]; [|done]. destruct He as [->|He]; [done|]. by rewrite He, andb_false_r.
Qed.

Lemma row_effect_nil r n seen errs seen' : row_effect r n seen = (errs, seen') →
  errs = [] ↔ row_valid r ∧ seen !! address_of r = None.
Proof.
  unfold row_effect, validateMappedRow. rewrite <- schema_issues_nil. unfold address_of.
  destruct (schema_issues r) as [|i is_]; simpl; [|intros [= <- <-]; naive_solver].
  destruct (seen !! _); intros [= <- <-]; naive_solver.
Qed.

Lemma row_effect_seen r n seen seen' : row_effect r n seen = ([], seen') → seen' = <[address_of r := n]> seen.
Proof.
  unfold row_effect, address_of. destruct (validateMappedRow r n); [|done]. destruct (seen !! _); [done|]. by intros [= <-].
Qed.

Lemma all_errors_nil mapper rows n seen : all_errors mapper rows n seen = [] ↔
  Forall (λ r, row_valid (mapper r)) rows ∧ NoDup ((λ r, address_of (mapper r)) <$> rows) ∧
  Forall (λ r, seen !! address_of (mapper r) = None) rows.
Proof.
  revert n seen. induction rows as [|r rows IH]; intros n seen; simpl.
  { split; [|done]. intros _. split_and!; [done|apply NoDup_nil_2|done]. }
  destruct (row_effect (mapper r) (Z.of_nat n + 2) seen) as [errs seen'] eqn:E.
  pose proof (row_effect_nil _ _ _ _ _ E) as Hn. rewrite !Forall_cons, NoDup_cons. split.
  - intros [-> H]%app_nil. apply row_effect_seen in E as ->. destruct (proj1 Hn eq_refl) as [Hv Hs].
    apply IH in H as (H1 & H2 & H3). split_and!; try done.
    + intros (r' & Heq & Hr')%list_elem_of_fmap. rewrite Forall_forall in H3. specialize (H3 r' Hr'). simpl in *.
      rewrite <- Heq, lookup_insert_eq in H3. done.
    + eapply Forall_impl; [exact H3|]. simpl. intros r' Hr'. by apply lookup_insert_None in Hr' as [? _].
  - intros ([Hv Hvs] & [Hni Hnd] & [Hs Hss]). rewrite (proj2 Hn (conj Hv Hs)) in *. apply row_effect_seen in E as ->. simpl.
    apply IH. split_and!; [done|done|]. rewrite Forall_forall in Hss |- *. intros r' Hr'. apply lookup_insert_None.
    split; [by apply Hss|]. intros Heq. apply Hni. apply list_elem_of_fmap. exists r'. done.
Qed.

Lemma pushRowErrors_spec errs new_ mx : (length errs ≤ mx)%nat →
  pushRowErrors errs new_ mx = (take mx (errs ++ new_), (mx <? length (errs ++ new_))%nat).
Proof.
  revert errs. induction new_ as [|e new_ IH]; intros errs Hle; simpl.
  - rewrite app_nil_r, take_ge by lia. by destruct (Nat.ltb_spec mx (length errs)); [lia|].
  - rewrite length_app. simpl. destruct (Nat.leb_spec mx (length errs)).
    + assert (mx = length errs) as -> by lia. rewrite take_app_length. f_equal. symmetry. apply Nat.ltb_lt. lia.
    + rewrite IH by (rewrite length_app; simpl; lia). rewrite <- (app_assoc errs). simpl. f_equal. rewrite length_app. done.
Qed.

(** The loop, on rows within the limits of time and size. *)
Lemma scan_rows_spec mapper late mx maxRows rows s : (∀ n, late n = false) → Forall (λ c, cell_too_large c = false) rows →
  (length (s_errors s) ≤ mx)%nat → s_scanned s = Nat.min maxRows (s_total s) → (0 < mx)%nat →
  s_truncated s = (mx <=? length (s_errors s))%nat →
  ∃ s', scan_rows mapper late mx maxRows rows s = Ok s' ∧ s_total s' = (s_total s + length rows)%nat ∧
    s_scanned s' = Nat.min maxRows (s_total s') ∧
    s_errors s' = take mx (s_errors s ++ all_errors mapper (take (maxRows - s_total s) rows) (s_total s) (s_seen s)) ∧
    s_truncated s' = (mx <=? length (s_errors s'))%nat.
Proof.
  intros Hlate. revert s. induction rows as [|r rows IH]; intros s Hc Hle Hsc Hmx Htr; simpl.
  { exists s. rewrite take_nil. simpl. rewrite app_nil_r, take_ge by lia. split_and!; [done|lia|done|done|done]. }
  apply Forall_cons in Hc as [Hr Hc]. unfold scan_row. rewrite Hlate.
  destruct (Nat.leb_spec maxRows (s_scanned s)) as [Hfull|Hroom]; simpl.
  - destruct (IH {| s_total := S (s_total s); s_scanned := s_scanned s; s_errors := s_errors s; s_truncated := s_truncated s;
                    s_seen := s_seen s |}) as (s' & -> & Ht & Hs' & He & Htr'); simpl in *; try done; [lia|].
    exists s'. split_and!; [done|lia|done| |done]. rewrite He.
    replace (maxRows - S (s_total s))%nat with 0%nat by lia. replace (maxRows - s_total s)%nat with 0%nat by lia. done.
  - rewrite Hr. replace (Z.of_nat (S (s_total s)) + 1) with (Z.of_nat (s_total s) + 2) by lia.
    replace (maxRows - s_total s)%nat with (S (maxRows - S (s_total s))) by lia. cbn [take firstn all_errors].
    destruct (row_effect (mapper r) (Z.of_nat (s_total s) + 2) (s_seen s)) as [errs seen] eqn:E.
    rewrite pushRowErrors_spec by done. simpl.
    match goal with |- context [scan_rows _ _ _ _ _ ?s0] =>
      destruct (IH s0) as (s' & Heq & Ht & Hs' & He & Htr') end; simpl in *;
      [done| | |done| |exists s'; rewrite Heq; split_and!; [done|lia|done| |done]].
    + rewrite length_take. lia.
    + lia.
    + rewrite Htr, length_take, length_app.
      destruct (Nat.leb_spec mx (length (s_errors s))), (Nat.ltb_spec mx (length (s_errors s) + length errs)),
        (Nat.leb_spec mx (Nat.min mx (length (s_errors s) + length errs))); simpl; lia || done.
    + rewrite He. rewrite app_assoc. destruct (Nat.leb_spec mx (length (s_errors s ++ errs))) as [Hb|Hb].
      * rewrite (take_app_le (take mx (s_errors s ++ errs))), (take_app_le (s_errors s ++ errs)) by (rewrite ?length_take; lia).
        by rewrite take_take, Nat.min_id.
      * by rewrite (take_ge (s_errors s ++ errs)) by lia.
Qed.

(** For a file within the limits of size, encoding and time whose header
    satisfies the mapping: the dry run succeeds, its errors are the first
    [maxErrors] of all errors of the scanned rows, in order, and it says so when
    it reached that number or left rows unscanned; and it calls the file valid
    exactly when it scanned every row, every row has a valid address and no
    invalid email, and no address occurs twice. *)
Theorem dry_run_exact f m late maxErrors maxRows header rows :
  f_size f ≤ IMPORT_PREVIEW_MAX_FILE_BYTES → f_utf8 f = true → columnMappingSchema m = true → f_broken f = false →
  f_rows f = header :: rows → headersSatisfyMapping (trim <$> header) m = true →
  (∀ n, late n = false) → Forall (λ c, cell_too_large c = false) rows → (0 < maxErrors)%nat →
  let mapper := buildColumnMapper (trim <$> header) m in
  let all := all_errors mapper (take maxRows rows) 0 ∅ in
  ∃ b, dryRunImportFile f m late maxErrors maxRows = Ok b ∧
    errors b = take maxErrors all ∧ totalRows b = Z.of_nat (Nat.min maxRows (length rows)) ∧
    (errorsTruncated b = true ↔ (maxErrors ≤ length all)%nat ∨ (maxRows < length rows)%nat) ∧
    (valid b = true ↔ (length rows ≤ maxRows)%nat ∧ Forall (λ r, row_valid (mapper r)) rows ∧
       NoDup ((λ r, address_of (mapper r)) <$> rows)).
Proof.
  intros Hsize Hutf Hm Hb Hrows Hh Hlate Hc Hmx mapper all. unfold dryRunImportFile.
  destruct (Z.ltb_spec IMPORT_PREVIEW_MAX_FILE_BYTES (f_size f)); [lia|]. rewrite Hutf, Hm, Hrows, Hh, Hb. simpl.
  destruct (scan_rows_spec mapper late maxErrors maxRows rows
    {| s_total := 0; s_scanned := 0; s_errors := []; s_truncated := false; s_seen := ∅ |})
    as (s & Hs & Ht & Hsc & He & Htr); simpl; [done|done|lia|lia|done|by destruct maxErrors; [lia|]|].
  fold mapper. rewrite Hs. simpl. eexists. split; [done|]. simpl in *. rewrite Nat.sub_0_r in He. fold all in He.
  rewrite Ht in Hsc |- *. rewrite Hsc, Htr, He, length_take. split_and!; [done|done| |].
  - rewrite orb_true_iff, Nat.leb_le, Nat.ltb_lt. lia.
  - rewrite andb_true_iff, negb_true_iff, bool_decide_eq_true, Nat.ltb_ge. split.
    + intros [Hnil Hlen]. assert (length rows ≤ maxRows)%nat as Hle by lia. split; [done|].
      assert (all = []) as Hall by (destruct all; [done|destruct maxErrors; [lia|done]]).
      unfold all in Hall. rewrite take_ge in Hall by done. apply all_errors_nil in Hall as (? & ? & _). done.
    + intros (Hle & Hv & Hnd). split; [|lia]. assert (all = []) as ->; [|by rewrite take_nil].
      unfold all. rewrite take_ge by done. apply all_errors_nil. split_and!; [done|done|]. apply Forall_true. intros. apply lookup_empty.
Qed.

End Imports.

(** ** The commit *)

Section Commit.
Variable sha256 : string → string.
Variable json_mapping : ColumnMapping → string.
Variable json_row : mapped_row → string.

Inductive ImportRowStatus := accepted | retryable.

#[export] Instance ImportRowStatus_eq_dec : EqDecision ImportRowStatus.
Proof. solve_decision. Defined.

Record ImportRowOutcome := { out_row : Z; rowKey : string; out_status : ImportRowStatus }.

Record ImportCheckpoint := {
  operationId : string;
  fingerprint : string;
  outcomes : gmap string ImportRowOutcome;
  completed : bool
}.

Record ValidatedImportRow := { v_row : Z; fields : mapped_row }.

#[export] Instance ValidatedImportRow_eq_dec : EqDecision ValidatedImportRow.
Proof. solve_decision. Defined.

Definition collectValidatedImportRows (f : file) (m : ColumnMapping) : list ValidatedImportRow :=
  match f_rows f with
  | [] => []
  | header :: rows =>
      imap (λ idx r, {| v_row := Z.of_nat idx + 2; fields := buildColumnMapper (trim <$> header) m r |}) rows
  end.

Definition importFingerprint (f : file) (m : ColumnMapping) : string := sha256 (f_text f +:+ json_mapping m).

Definition stableRowKey (fp : string) (r : ValidatedImportRow) : string :=
  sha256 (fp +:+ ":" +:+ bigint_toString (v_row r) +:+ ":" +:+ json_row (fields r)).

(** The checkpoints and the rows the committer upserted. *)
Record import_store := { checkpoints : gmap string ImportCheckpoint; upserted : list (string * mapped_row) }.

Definition upsert_of (r : ValidatedImportRow) : string * mapped_row := (address_of (fields r), fields r).

(** The variables of the loop over the rows. *)
Record progress := {
  g_outcomes : gmap string ImportRowOutcome;
  g_upserted : list (string * mapped_row);
  g_rowOutcomes : list ImportRowOutcome;
  g_accepted : nat;
  g_retried : nat
}.

(** One row; [down] tells that its upsert throws. *)
Definition commit_row (fp : string) (down : bool) (r : ValidatedImportRow) (g : progress) : progress :=
  let k := stableRowKey fp r in
  let retried' := match g_outcomes g !! k with
                  | Some o => if bool_decide (out_status o = retryable) then S (g_retried g) else g_retried g
                  | None => g_retried g
                  end in
  let go :=
    if down then
      let o := {| out_row := v_row r; rowKey := k; out_status := retryable |} in
      {| g_outcomes := <[k := o]> (g_outcomes g); g_upserted := g_upserted g; g_rowOutcomes := g_rowOutcomes g ++ [o];
         g_accepted := g_accepted g; g_retried := retried' |}
    else
      let o := {| out_row := v_row r; rowKey := k; out_status := accepted |} in
      {| g_outcomes := <[k := o]> (g_outcomes g); g_upserted := g_upserted g ++ [upsert_of r];
         g_rowOutcomes := g_rowOutcomes g ++ [o]; g_accepted := S (g_accepted g); g_retried := retried' |} in
  match g_outcomes g !! k with
  | Some o =>
      if bool_decide (out_status o = accepted) then
        {| g_outcomes := g_outcomes g; g_upserted := g_upserted g; g_rowOutcomes := g_rowOutcomes g ++ [o];
           g_accepted := S (g_accepted g); g_retried := g_retried g |}
      else go
  | None => go
  end.

(** The loop; [down] decides for each row of the file. *)
Fixpoint commit_rows (fp : string) (down : ValidatedImportRow → bool) (rows : list ValidatedImportRow) (g : progress) : progress :=
  match rows with [] => g | r :: rest => commit_rows fp down rest (commit_row fp (down r) r g) end.

Record ImportCommitSuccessBody := {
  committed : bool;
  b_totalRows : nat;
  imported : nat;
  b_operationId : string;
  retried : nat;
  rowOutcomes : list ImportRowOutcome
}.

Inductive commit_result :=
| Refused (e : ImportDryRunErrorBody)
| NotValid (b : ImportDryRunSuccessBody)
| Committed (b : ImportCommitSuccessBody).

Definition IdempotencyConflict : ImportDryRunErrorBody := fail 409 "Conflict" "IdempotencyConflict" None.

Definition is_retryable (o : ImportRowOutcome) : bool := bool_decide (out_status o = retryable).

(** [execute], under the lock of the key. *)
Definition execute (key fp newOp : string) (rows : list ValidatedImportRow) (down : ValidatedImportRow → bool) (w : import_store)
  : import_store * commit_result :=
  let run (c : ImportCheckpoint) :=
    let g := commit_rows fp down rows
               {| g_outcomes := outcomes c; g_upserted := upserted w; g_rowOutcomes := []; g_accepted := 0; g_retried := 0 |} in
    let retryable_ := existsb is_retryable (g_rowOutcomes g) in
    ({| checkpoints := <[key := {| operationId := operationId c; fingerprint := fingerprint c; outcomes := g_outcomes g;
                                   completed := negb retryable_ |}]> (checkpoints w);
        upserted := g_upserted g |},
     Committed {| committed := negb retryable_; b_totalRows := length rows; imported := g_accepted g;
                  b_operationId := operationId c; retried := g_retried g; rowOutcomes := g_rowOutcomes g |}) in
  match checkpoints w !! key with
  | Some c => if String.eqb (fingerprint c) fp then run c else (w, Refused IdempotencyConflict)
  | None => run {| operationId := "import_" +:+ newOp; fingerprint := fp; outcomes := ∅; completed := false |}
  end.

Definition scopedKey (tenant idempotencyKey : option string) (uuid : string) : string :=
  match trim <$> idempotencyKey with
  | None | Some EmptyString => "operation:" +:+ uuid
  | Some k => default "anonymous" tenant +:+ ":" +:+ k
  end.

Definition commitImportFile (is_email : string → bool) (required_message : string) (byteLength : string → Z) (f : file) (m : ColumnMapping) (tenant idempotencyKey : option string) (uuid newOp : string)
    (late : nat → bool) (down : ValidatedImportRow → bool) (w : import_store) : import_store * commit_result :=
  if IMPORT_PREVIEW_MAX_FILE_BYTES <? f_size f then (w, Refused FileTooLarge) else
  if negb (columnMappingSchema m) then (w, Refused SchemaError) else
  match dryRunImportFile is_email required_message byteLength f m late IMPORT_DRY_RUN_MAX_ERRORS IMPORT_PREVIEW_MAX_ROWS with
  | Err e => (w, Refused e)
  | Ok b =>
      if negb (valid b) then (w, NotValid b)
      else execute (scopedKey tenant idempotencyKey uuid) (importFingerprint f m) newOp (collectValidatedImportRows f m) down w
  end.

(** ** A retried import *)

(** The rows of [l], and no other of [rows], are accepted. *)
Definition records_rows (fp : string) (rows l : list ValidatedImportRow) (m : gmap string ImportRowOutcome) : Prop :=
  ∀ r, r ∈ rows → (∃ o, m !! stableRowKey fp r = Some o ∧ out_status o = accepted) ↔ r ∈ l.

Lemma commit_row_spec fp down r g rows l : NoDup (stableRowKey fp <$> rows) → r ∈ rows → records_rows fp rows l (g_outcomes g) →
  ∃ new_ st, let g' := commit_row fp down r g in
    records_rows fp rows (l ++ new_) (g_outcomes g') ∧ g_upserted g' = g_upserted g ++ (upsert_of <$> new_) ∧
    (new_ = [] ∨ new_ = [r] ∧ r ∉ l) ∧ (st = accepted ↔ r ∈ l ++ new_) ∧ (down = false → st = accepted) ∧
    g_accepted g' = (g_accepted g + if bool_decide (st = accepted) then 1 else 0)%nat ∧
    ∃ o, g_rowOutcomes g' = g_rowOutcomes g ++ [o] ∧ out_status o = st.
Proof.
  intros Hnd Hr Hrec.
  assert (∀ r', r' ∈ rows → stableRowKey fp r' = stableRowKey fp r → r' = r) as Hinj.
  { intros r' Hr' E. apply list_elem_of_lookup in Hr as [a Ha]. apply list_elem_of_lookup in Hr' as [b Hb].
    assert (a = b) as <-; [|congruence]. eapply NoDup_lookup; [exact Hnd| |]; rewrite list_lookup_fmap; [by rewrite Ha|by rewrite Hb; simpl; f_equal]. }
  assert (∀ o, records_rows fp rows (if bool_decide (out_status o = accepted) then l ++ [r] else l)
    (<[stableRowKey fp r := o]> (g_outcomes g)) ∨ r ∈ l) as Hins.
  { intros o. destruct (decide (r ∈ l)) as [|Hn]; [by right|left]. intros r' Hr'. destruct (decide (r' = r)) as [->|Hne].
    - rewrite lookup_insert_eq. case_bool_decide; set_solver.
    - rewrite lookup_insert_ne by (intros E; by apply Hne, Hinj). rewrite (Hrec r' Hr'). case_bool_decide; set_solver. }
  assert (r ∈ l → ∃ o, g_outcomes g !! stableRowKey fp r = Some o ∧ out_status o = accepted) as Hin by (by apply Hrec).
  assert (∀ d, (∃ o, g_outcomes g !! stableRowKey fp r = Some o ∧ out_status o = accepted) ∨ r ∉ l ∧ commit_row fp d r g =
    (let o := {| out_row := v_row r; rowKey := stableRowKey fp r; out_status := if d then retryable else accepted |} in
     {| g_outcomes := <[stableRowKey fp r := o]> (g_outcomes g);
        g_upserted := g_upserted g ++ (upsert_of <$> if d then [] else [r]); g_rowOutcomes := g_rowOutcomes g ++ [o];
        g_accepted := (g_accepted g + if d then 0 else 1)%nat; g_retried := g_retried (commit_row fp d r g) |})) as Hgo.
  { intros d. destruct (decide (r ∈ l)) as [|Hn]; [by left; auto|right]. split; [done|]. unfold commit_row.
    destruct (g_outcomes g !! stableRowKey fp r) as [o|] eqn:E.
    - rewrite (bool_decide_eq_false_2 (out_status o = accepted)) by (intros Ha; apply Hn, Hrec; eauto).
      destruct d; simpl; f_equal; rewrite ?app_nil_r; lia || done.
    - destruct d; simpl; f_equal; rewrite ?app_nil_r; lia || done. }
  destruct (Hgo down) as [(o & Ho & Hs)|[Hn ->]].
  - exists [], accepted. unfold commit_row. rewrite Ho, bool_decide_eq_true_2 by done. simpl. rewrite !app_nil_r.
    split_and!; [done|done|by left|split; [|done]; intros _; apply Hrec; eauto|done|lia|by eexists].
  - destruct down; cbn [g_outcomes g_upserted g_rowOutcomes g_accepted].
    + exists [], retryable. rewrite !app_nil_r. destruct (Hins {| out_row := v_row r; rowKey := stableRowKey fp r; out_status := retryable |}); [|done].
      split_and!; [done|done|by left|done|done|done|by eexists].
    + exists [r], accepted. destruct (Hins {| out_row := v_row r; rowKey := stableRowKey fp r; out_status := accepted |}); [|done].
      split_and!; [done|done|by right|set_solver|done|done|by eexists].
Qed.

(** The loop over [rows]: [new_] are the rows it upserts. *)
Lemma commit_rows_spec fp down all rows g l : NoDup (stableRowKey fp <$> all) → NoDup rows → rows ⊆ all →
  records_rows fp all l (g_outcomes g) →
  ∃ new_, let g' := commit_rows fp down rows g in
    records_rows fp all (l ++ new_) (g_outcomes g') ∧ g_upserted g' = g_upserted g ++ (upsert_of <$> new_) ∧
    new_ ⊆ rows ∧ (NoDup l → NoDup (l ++ new_)) ∧
    (existsb is_retryable (g_rowOutcomes g') = false ↔
       existsb is_retryable (g_rowOutcomes g) = false ∧ rows ⊆ l ++ new_) ∧
    ((∀ r, down r = false) → rows ⊆ l ++ new_).
Proof.
  intros Hnd. revert g l. induction rows as [|r rows IH]; intros g l Hr0 Hsub Hrec; simpl.
  { exists []. rewrite !app_nil_r. split_and!; [done..|set_solver|set_solver]. }
  destruct (commit_row_spec fp (down r) r g all l Hnd ltac:(set_solver) Hrec) as (n1 & st & Hrec1 & Hu1 & Hn1 & Hst & Hdn & _ & o & Ho & Hos).
  destruct (IH (commit_row fp (down r) r g) (l ++ n1) ltac:(by apply NoDup_cons in Hr0 as [_ ?]) ltac:(set_solver) Hrec1) as (n2 & Hrec2 & Hu2 & Hsub2 & Hnd2 & Hre & Hall).
  exists (n1 ++ n2). rewrite app_assoc. split_and!.
  - done.
  - rewrite Hu2, Hu1, fmap_app. by rewrite app_assoc.
  - destruct Hn1 as [->|[-> _]]; set_solver.
  - intros Hl. apply Hnd2. destruct Hn1 as [->|[-> Hn]]; [by rewrite app_nil_r|]. apply NoDup_app. split_and!; [done| |apply NoDup_singleton].
    intros x Hx Hx'%list_elem_of_singleton. by subst.
  - rewrite Hre, Ho, existsb_app. simpl. unfold is_retryable at 2. rewrite orb_false_r, orb_false_iff.
    assert (bool_decide (out_status o = retryable) = false ↔ r ∈ l ++ n1) as ->.
    { rewrite bool_decide_eq_false, Hos, <- Hst. destruct st; naive_solver. }
    split; [set_solver|]. intros [H1 H2]. split_and!; [done| |set_solver].
    apply NoDup_cons in Hr0 as [Hr0 _]. assert (r ∈ (l ++ n1) ++ n2) as Hx by (apply H2; left).
    apply elem_of_app in Hx as [?|Hx]; [done|]. by apply Hsub2 in Hx.
  - intros Hd. specialize (Hall Hd). apply Hdn in Hd as Hs0. assert (r ∈ l ++ n1) by (by apply Hst). set_solver.
Qed.

(** One call of a key after another, each with its own failures. *)
Fixpoint attempts (key fp newOp : string) (rows : list ValidatedImportRow) (downs : list (ValidatedImportRow → bool)) (w : import_store)
  : import_store * list commit_result :=
  match downs with
  | [] => (w, [])
  | d :: rest =>
      let '(w1, r) := execute key fp newOp rows d w in
      let '(w2, rs) := attempts key fp newOp rows rest w1 in (w2, r :: rs)
  end.

(** Between the calls: the accepted rows [l] of the key's checkpoint. *)
Definition resumed (key fp : string) (rows l : list ValidatedImportRow) (w : import_store) : Prop :=
  match checkpoints w !! key with
  | Some c => fingerprint c = fp ∧ records_rows fp rows l (outcomes c)
  | None => l = []
  end.

Lemma execute_spec key fp newOp rows down w l : NoDup (stableRowKey fp <$> rows) → NoDup l → resumed key fp rows l w →
  ∃ w' b new_, execute key fp newOp rows down w = (w', Committed b) ∧ resumed key fp rows (l ++ new_) w' ∧ NoDup (l ++ new_) ∧
    new_ ⊆ rows ∧ upserted w' = upserted w ++ (upsert_of <$> new_) ∧ b_totalRows b = length rows ∧
    (committed b = true ↔ rows ⊆ l ++ new_) ∧ ((∀ r, down r = false) → committed b = true).
Proof.
  intros Hnd Hl Hres. assert (NoDup rows) as Hrows by (by eapply NoDup_fmap_1).
  assert (∃ c, records_rows fp rows l (outcomes c) ∧ fingerprint c = fp ∧
    match checkpoints w !! key with Some c' => c' = c
    | None => c = {| operationId := "import_" +:+ newOp; fingerprint := fp; outcomes := ∅; completed := false |} end) as (c & Hrec & Hfp & Hc).
  { unfold resumed in Hres. destruct (checkpoints w !! key) as [c|]; [exists c; naive_solver|].
    exists {| operationId := "import_" +:+ newOp; fingerprint := fp; outcomes := ∅; completed := false |}.
    split_and!; [|done|done]. subst l. intros r _. simpl. setoid_rewrite lookup_empty. set_solver. }
  destruct (commit_rows_spec fp down rows rows {| g_outcomes := outcomes c; g_upserted := upserted w; g_rowOutcomes := [];
    g_accepted := 0; g_retried := 0 |} l Hnd Hrows (λ _ H, H) Hrec) as (new_ & Hrec' & Hup & Hsub & Hnd' & Hcom & Hall).
  set (g := commit_rows _ _ _ _) in *.
  assert (execute key fp newOp rows down w =
    ({| checkpoints := <[key := {| operationId := operationId c; fingerprint := fingerprint c; outcomes := g_outcomes g;
                                   completed := negb (existsb is_retryable (g_rowOutcomes g)) |}]> (checkpoints w);
        upserted := g_upserted g |},
     Committed {| committed := negb (existsb is_retryable (g_rowOutcomes g)); b_totalRows := length rows; imported := g_accepted g;
                  b_operationId := operationId c; retried := g_retried g; rowOutcomes := g_rowOutcomes g |})) as Hex.
  { unfold execute, g. destruct (checkpoints w !! key) as [c'|].
    - by rewrite Hc, Hfp, String.eqb_refl.
    - clear g Hcom Hrec' Hup Hall. by rewrite Hc. }
  rewrite Hex. do 3 eexists. split; [done|]. cbn [committed b_totalRows upserted].
  rewrite negb_true_iff. cbn [g_rowOutcomes existsb] in Hcom. split_and!; [|by apply Hnd'|done|done|done| |].
  - unfold resumed. simpl. rewrite lookup_insert_eq. done.
  - rewrite Hcom. naive_solver.
  - intros Hd. apply Hcom. split; [done|]. by apply Hall.
Qed.

(** Any number of calls from a state with the accepted rows [l0]. *)
Lemma attempts_spec key fp newOp rows downs w l0 : NoDup (stableRowKey fp <$> rows) → NoDup l0 → l0 ⊆ rows →
  resumed key fp rows l0 w → let '(w', rs) := attempts key fp newOp rows downs w in
  ∃ l, NoDup (l0 ++ l) ∧ l ⊆ rows ∧ upserted w' = upserted w ++ (upsert_of <$> l) ∧ length rs = length downs ∧
    resumed key fp rows (l0 ++ l) w' ∧ (downs ≠ [] → isSome (checkpoints w' !! key) = true) ∧
    (∀ r, last rs = Some r → ∃ b, r = Committed b ∧ (committed b = true ↔ rows ⊆ l0 ++ l)) ∧
    (∀ d, last downs = Some d → (∀ r, d r = false) → rows ⊆ l0 ++ l).
Proof.
  intros Hnd. revert w l0. induction downs as [|d downs IH]; intros w l0 Hl0 Hsub Hres; simpl.
  { exists []. rewrite !app_nil_r. split_and!; done || set_solver. }
  destruct (execute_spec key fp newOp rows d w l0 Hnd Hl0 Hres) as (w1 & b & n1 & Hex & Hres1 & Hnd1 & Hs1 & Hu1 & Ht & Hcom & Hall).
  rewrite Hex. specialize (IH w1 (l0 ++ n1) Hnd1 ltac:(set_solver) Hres1).
  destruct (attempts key fp newOp rows downs w1) as [w2 rs] eqn:Ea. destruct IH as (l & H1 & H2 & H3 & H4 & H5 & H6 & H7 & H8).
  exists (n1 ++ l). rewrite !app_assoc. split_and!.
  - done.
  - set_solver.
  - rewrite H3, Hu1, fmap_app. by rewrite app_assoc.
  - simpl. by rewrite H4.
  - done.
  - intros _. destruct downs as [|d' downs]; [|by apply H6]. simpl in Ea. injection Ea as <- _. unfold execute in Hex.
    repeat case_match; simplify_eq/=; by rewrite lookup_insert_eq.
  - intros r Hr. destruct rs as [|r' rs]; [|apply H7; done]. simpl in Hr. injection Hr as <-.
    destruct downs; [|done]. simpl in Ea. injection Ea as <-. assert (l = []) as ->.
    { apply (f_equal length) in H3. rewrite length_app, length_fmap in H3. destruct l; [done|]. simpl in H3. lia. }
    rewrite app_nil_r. by exists b.
  - intros d' Hd'. destruct downs as [|d2 downs]; [|by apply H8]. simpl in Hd'. injection Hd' as <-. intros Hd.
    apply Hall in Hd. apply Hcom in Hd. set_solver.
Qed.

(** C14. Repeating an import under its idempotency key resumes it: however the
    upserts fail in each call, every row is upserted at most once, in all calls
    together, and nothing that is not in the file is; a call reports the import
    as committed exactly when all rows have been upserted, which a call in which
    no upsert fails reaches; and the key refuses any other file without a
    change. *)
Theorem import_resumes key fp newOp rows downs w : NoDup (stableRowKey fp <$> rows) → checkpoints w !! key = None →
  let '(w', rs) := attempts key fp newOp rows downs w in
  ∃ l, NoDup l ∧ l ⊆ rows ∧ upserted w' = upserted w ++ (upsert_of <$> l) ∧ length rs = length downs ∧
    (∀ r, last rs = Some r → ∃ b, r = Committed b ∧ (committed b = true ↔ rows ≡ₚ l)) ∧
    (∀ d, last downs = Some d → (∀ r, d r = false) → rows ≡ₚ l) ∧
    (∀ fp' newOp' rows' d, downs ≠ [] → fp' ≠ fp → execute key fp' newOp' rows' d w' = (w', Refused IdempotencyConflict)).
Proof.
  intros Hnd H0. assert (NoDup rows) as Hrows by (by eapply NoDup_fmap_1).
  pose proof (attempts_spec key fp newOp rows downs w [] Hnd NoDup_nil_2 ltac:(set_solver)) as Hgen.
  unfold resumed at 1 in Hgen. rewrite H0 in Hgen. specialize (Hgen eq_refl).
  destruct (attempts key fp newOp rows downs w) as [w' rs]. destruct Hgen as (l & H1 & H2 & H3 & H4 & H5 & H6 & H7 & H8). simpl in *.
  assert (rows ⊆ l ↔ rows ≡ₚ l) as Hperm.
  { split; [intros Hs; apply NoDup_Permutation; [done|done|]; intros x; split; [by apply Hs|by apply H2]|by intros ->]. }
  exists l. split_and!; try done.
  - intros r (b & -> & Hb)%H7. exists b. by rewrite <- Hperm.
  - intros d Hd Hno. apply Hperm. by eapply H8.
  - intros fp' newOp' rows' d Hne Hfp. specialize (H6 Hne). unfold resumed in H5. unfold execute.
    destruct (checkpoints w' !! key) as [c|]; [|done]. destruct H5 as [Hc _]. destruct (String.eqb_spec (fingerprint c) fp'); [congruence|done].
Qed.
End Commit.

(** ** The lock of the checkpoint store *)

Module ImportLock.

Inductive lock_phase := Waiting | Working | Released.

#[export] Instance lock_phase_eq_dec : EqDecision lock_phase.
Proof. solve_decision. Defined.

(** A call of [withLock]: its key, the call whose promise it awaits, and where
    it is. *)
Record holder := { h_key : string; previous : option nat; h_phase : lock_phase }.

(** [locks] maps a key to the call that queued last. *)
Record lock_state := { locks : gmap string nat; holders : gmap nat holder }.

Definition set_phase (p : lock_phase) (h : holder) : holder := {| h_key := h_key h; previous := previous h; h_phase := p |}.

(** [withLock] up to its await. *)
Definition enter (c : nat) (k : string) (s : lock_state) : lock_state :=
  {| locks := <[k := c]> (locks s); holders := <[c := {| h_key := k; previous := locks s !! k; h_phase := Waiting |}]> (holders s) |}.

(** The awaited promise is resolved: there was none, or its call, which had
    its own turn, has released. *)
Definition resolved (h : holder) (s : lock_state) : Prop :=
  match previous h with None => True | Some p => h_phase <$> holders s !! p = Some Released end.

(** The [finally] clause. *)
Definition leave (c : nat) (h : holder) (s : lock_state) : lock_state :=
  {| locks := if decide (locks s !! h_key h = Some c) then delete (h_key h) (locks s) else locks s;
     holders := <[c := set_phase Released h]> (holders s) |}.

Inductive lock_step : lock_state → lock_state → Prop :=
| l_enter s c k : holders s !! c = None → lock_step s (enter c k s)
| l_start s c h : holders s !! c = Some h → h_phase h = Waiting → resolved h s →
    lock_step s {| locks := locks s; holders := <[c := set_phase Working h]> (holders s) |}
| l_leave s c h : holders s !! c = Some h → h_phase h = Working → lock_step s (leave c h s).

Definition new_locks : lock_state := {| locks := ∅; holders := ∅ |}.

(** The calls of [k] that have not released, in the order they came. *)
Record queue_ok (k : string) (q : list nat) (s : lock_state) : Prop := {
  q_nodup : NoDup q;
  q_elem c : c ∈ q ↔ ∃ h, holders s !! c = Some h ∧ h_key h = k ∧ h_phase h ≠ Released;
  q_last : last q = locks s !! k;
  q_head c q' h : q = c :: q' → holders s !! c = Some h → resolved h s;
  q_next i c c' h : q !! i = Some c → q !! S i = Some c' → holders s !! c' = Some h → previous h = Some c ∧ h_phase h = Waiting
}.

Lemma resolved_mono c h0 h s : holders s !! c = Some h0 → h_phase h0 ≠ Released → ∀ h1 ls, resolved h s →
  resolved h {| locks := ls; holders := <[c := h1]> (holders s) |}.
Proof.
  intros Hc Hr h1 ls. unfold resolved. destruct (previous h) as [p|]; [|done]. simpl. intros Hp.
  destruct (decide (p = c)) as [->|]; [|by rewrite lookup_insert_ne]. rewrite Hc in Hp. simpl in Hp. congruence.
Qed.

Lemma queue_enter k q s c k' : queue_ok k q s → holders s !! c = None →
  queue_ok k (if decide (k' = k) then q ++ [c] else q) (enter c k' s).
Proof.
  intros [H1 H2 H3 H4 H5] Hc. assert (c ∉ q) as Hq by (intros (h & Hh & _)%H2; congruence).
  assert (∀ h, resolved h s → resolved h (enter c k' s)) as Hres.
  { intros h. unfold resolved, enter. destruct (previous h) as [p|]; [|done]. simpl. intros Hp.
    rewrite lookup_insert_ne; [done|]. intros ->. by rewrite Hc in Hp. }
  case_decide as E; [subst k'|].
  - split; simpl.
    + apply NoDup_app. split_and!; [done| |apply NoDup_singleton]. intros x Hx ->%list_elem_of_singleton. done.
    + intros x. rewrite elem_of_app, list_elem_of_singleton, H2. destruct (decide (x = c)) as [->|].
      * rewrite lookup_insert_eq. naive_solver.
      * rewrite lookup_insert_ne by done. naive_solver.
    + rewrite last_snoc, lookup_insert_eq. done.
    + intros x q' h Hx Hh. apply Hres. destruct q as [|y q]; simpl in Hx; simplify_eq.
      * rewrite lookup_insert_eq in Hh. simplify_eq. unfold resolved. simpl. simpl in H3. by rewrite <- H3.
      * rewrite lookup_insert_ne in Hh by (intros ->; apply Hq; left). by eapply H4.
    + intros i x x' h Hi [[_ Hi']|[Hi' <-]]%lookup_snoc_Some.
      * rewrite lookup_insert_ne by (intros ->; apply Hq; by eapply list_elem_of_lookup_2).
        apply lookup_snoc_Some in Hi as [[_ Hi]|[-> _]]; [by apply (H5 i)|]. apply lookup_lt_Some in Hi'. lia.
      * rewrite lookup_insert_eq. intros [= <-]. simpl. split; [|done]. rewrite <- H3.
        apply lookup_snoc_Some in Hi as [[_ Hi]|[-> _]]; [|lia]. rewrite last_lookup, <- Hi'. done.
  - split; simpl.
    + done.
    + intros x. rewrite H2. destruct (decide (x = c)) as [->|]; [rewrite Hc, lookup_insert_eq; naive_solver|by rewrite lookup_insert_ne].
    + by rewrite lookup_insert_ne.
    + intros x q' h -> Hh. apply Hres. rewrite lookup_insert_ne in Hh by (intros ->; apply Hq; left). by eapply H4.
    + intros i x x' h Hi Hi'. rewrite lookup_insert_ne by (intros ->; apply Hq; by eapply list_elem_of_lookup_2). by apply (H5 i).
Qed.

(** A call that starts is the first of its queue. *)
Lemma start_first k q s c h : queue_ok k q s → holders s !! c = Some h → h_key h = k → h_phase h ≠ Released → resolved h s →
  ∃ q', q = c :: q'.
Proof.
  intros Hq Hc Hk Hp Hr. assert (c ∈ q) as Hin by (apply Hq; eauto). apply list_elem_of_lookup in Hin as [[|i] Hi].
  - destruct q as [|y q]; [done|]. simpl in Hi. simplify_eq. by eexists.
  - destruct (q !! i) as [p|] eqn:Ei; [|apply lookup_ge_None in Ei; apply lookup_lt_Some in Hi; lia].
    destruct (q_next k q s Hq i p c h Ei Hi Hc) as [Hprev _]. unfold resolved in Hr. rewrite Hprev in Hr.
    assert (p ∈ q) as (hp & Hhp & _ & Hne)%(q_elem k q s Hq) by (by eapply list_elem_of_lookup_2).
    rewrite Hhp in Hr. simpl in Hr. congruence.
Qed.

Lemma queue_start k q s c h : queue_ok k q s → holders s !! c = Some h → h_phase h = Waiting → resolved h s →
  queue_ok k q {| locks := locks s; holders := <[c := set_phase Working h]> (holders s) |}.
Proof.
  intros Hq Hc Hp Hr. pose proof Hq as [H1 H2 H3 H4 H5]. split; simpl.
  - done.
  - intros x. rewrite H2. destruct (decide (x = c)) as [->|]; [|by rewrite lookup_insert_ne].
    rewrite lookup_insert_eq, Hc. split; intros (h' & [= <-] & Hk & _); eexists; (split; [done|]); simpl in *; rewrite ?Hp; done.
  - done.
  - intros x q' h' -> Hh'. apply (resolved_mono c h); [done|by rewrite Hp|]. destruct (decide (x = c)) as [->|].
    + rewrite lookup_insert_eq in Hh'. simplify_eq. exact Hr.
    + rewrite lookup_insert_ne in Hh' by done. by eapply H4.
  - intros i x x' h' Hi Hi'. destruct (decide (x' = c)) as [->|]; [|rewrite lookup_insert_ne by done; by apply (H5 i)].
    exfalso. assert (h_key h = k) as Hk.
    { assert (c ∈ q) as (h2 & Hh2 & Hk2 & _)%H2 by (by eapply list_elem_of_lookup_2). by simplify_eq. }
    destruct (start_first k q s c h Hq Hc Hk ltac:(by rewrite Hp) Hr) as [q' ->]. apply NoDup_cons in H1 as [Hn _].
    apply Hn. simpl in Hi'. by eapply list_elem_of_lookup_2.
Qed.

Lemma queue_leave k q s c h : queue_ok k q s → holders s !! c = Some h → h_phase h = Working →
  queue_ok k (if decide (h_key h = k) then tail q else q) (leave c h s) ∧ (h_key h = k → ∃ q', q = c :: q').
Proof.
  intros Hq Hc Hp. pose proof Hq as [H1 H2 H3 H4 H5].
  assert (h_key h = k → ∃ q', q = c :: q') as Hfirst.
  { intros Hk. assert (c ∈ q) as Hin by (apply H2; exists h; rewrite Hp; done). apply list_elem_of_lookup in Hin as [[|i] Hi].
    - destruct q as [|y q]; [done|]. simpl in Hi. simplify_eq. by eexists.
    - destruct (q !! i) as [p|] eqn:Ei; [|apply lookup_ge_None in Ei; apply lookup_lt_Some in Hi; lia].
      destruct (H5 i p c h Ei Hi Hc) as [_ ?]. congruence. }
  split; [|done]. case_decide as E.
  - destruct (Hfirst E) as [q' ->]. simpl. apply NoDup_cons in H1 as [Hn H1]. split; simpl.
    + done.
    + intros x. destruct (decide (x = c)) as [->|].
      * rewrite lookup_insert_eq. simpl. naive_solver.
      * rewrite lookup_insert_ne by done. rewrite <- H2. set_solver.
    + destruct q' as [|y q']; simpl.
      * rewrite decide_True by (by rewrite E). rewrite E. by rewrite lookup_delete_eq.
      * rewrite decide_False; [done|]. rewrite E, <- H3. simpl. intros Hl.
        assert (c ∈ y :: q') by (apply last_Some_elem_of; done). done.
    + intros x q2 h2 -> Hh2. assert (x ≠ c) by (intros ->; apply Hn; left). rewrite lookup_insert_ne in Hh2 by done.
      destruct (H5 0%nat c x h2 eq_refl eq_refl Hh2) as [Hprev _]. unfold resolved. rewrite Hprev. simpl. by rewrite lookup_insert_eq.
    + intros i x x' h' Hi Hi'. rewrite lookup_insert_ne by (intros ->; apply Hn; by eapply list_elem_of_lookup_2). by apply (H5 (S i)).
  - assert (c ∉ q) as Hn by (intros (h2 & Hh2 & Hk2 & _)%H2; congruence). split; simpl.
    + done.
    + intros x. rewrite H2. destruct (decide (x = c)) as [->|]; [rewrite lookup_insert_eq, Hc; simpl; naive_solver|by rewrite lookup_insert_ne].
    + case_decide; [|done]. by rewrite lookup_delete_ne.
    + intros x q' h' -> Hh'. apply (resolved_mono c h); [done|by rewrite Hp|].
      rewrite lookup_insert_ne in Hh' by (intros ->; apply Hn; left). by eapply H4.
    + intros i x x' h' Hi Hi'. rewrite lookup_insert_ne by (intros ->; apply Hn; by eapply list_elem_of_lookup_2). by apply (H5 i).
Qed.

Lemma lock_reachable s k : rtc lock_step new_locks s → ∃ q, queue_ok k q s.
Proof.
  intros H. assert (∃ q, queue_ok k q new_locks) as H0.
  { exists []. split; simpl; [apply NoDup_nil_2| |by rewrite lookup_empty|done|done].
    intros c. rewrite lookup_empty. split; [intros []%elem_of_nil|naive_solver]. }
  induction H as [|s1 s2 s3 Hs _ IH]; [done|]. apply IH. destruct H0 as [q Hq].
  destruct Hs as [s c k' Hc|s c h Hc Hp Hr|s c h Hc Hp]; eexists; [by apply queue_enter|by apply queue_start|].
  by apply queue_leave.
Qed.

(** However calls of [withLock] interleave, at most one call of a key works at a
    time; and as long as a call of a key has not released, one of them works or
    may start, so none waits forever behind nobody. *)
Lemma import_lock_fair s k : rtc lock_step new_locks s →
  (∀ c c' h h', holders s !! c = Some h → holders s !! c' = Some h' → h_key h = k → h_key h' = k →
     h_phase h = Working → h_phase h' = Working → c = c') ∧
  ((∃ c h, holders s !! c = Some h ∧ h_key h = k ∧ h_phase h ≠ Released) →
   ∃ c h, holders s !! c = Some h ∧ h_key h = k ∧ (h_phase h = Working ∨ (h_phase h = Waiting ∧ resolved h s))).
Proof.
  intros [q Hq]%(lock_reachable s k). split.
  - intros c c' h h' Hc Hc' Hk Hk' Hp Hp'. destruct (queue_leave k q s c h Hq Hc Hp) as [_ [q1 ->]%(λ H, H Hk)].
    destruct (queue_leave k _ s c' h' Hq Hc' Hp') as [_ [q2 E]%(λ H, H Hk')]. congruence.
  - intros (c & h & Hc & Hk & Hp). assert (c ∈ q) as Hin by (apply Hq; eauto). destruct q as [|x q]; [by apply elem_of_nil in Hin|].
    assert (x ∈ x :: q) as (hx & Hhx & Hkx & Hpx)%(q_elem k _ s Hq) by left. exists x, hx. split_and!; [done|done|].
    pose proof (q_head k _ s Hq x q hx eq_refl Hhx). destruct (h_phase hx); [by right|by left|done].
Qed.
End ImportLock.

(** ** The preview *)

Module Preview.
Section Preview.
#[local] Opaque IMPORT_PREVIEW_MAX_ROWS IMPORT_PREVIEW_MAX_ROW_ERRORS.
Variable byteLength : string → Z.

Record ImportPreviewRowError := { line : Z; p_code : string }.

Record ImportPreviewSummary := {
  totalRowsScanned : nat;
  validRows : nat;
  invalidRows : nat;
  truncated : bool;
  totalDataRowsInFile : option nat
}.

Record ImportPreviewSuccessBody := {
  summary : ImportPreviewSummary;
  validSample : list (Z * string);
  invalidSample : list (Z * string);
  rowErrors : list ImportPreviewRowError
}.

(** [header.findIndex(c => c.toLowerCase() === 'address')]. *)
Definition addressColIndex (header : list string) : option nat := header_index "address" (toLowerCase <$> header).

(** The error of a trimmed address cell, if any. *)
Definition cell_error (raw : string) : option string :=
  if String.eqb raw EmptyString then Some "MISSING_ADDRESS"
  else if negb (isValidStellarAddress raw) then Some "INVALID_ADDRESS" else None.

(** The variables of the loop, with the number of data rows read. *)
Record pstate := { p_body : ImportPreviewSuccessBody; dataRowCount : nat }.

Definition empty_summary : ImportPreviewSummary :=
  {| totalRowsScanned := 0; validRows := 0; invalidRows := 0; truncated := false; totalDataRowsInFile := None |}.

Definition empty_body : ImportPreviewSuccessBody :=
  {| summary := empty_summary; validSample := []; invalidSample := []; rowErrors := [] |}.

Definition add_row (lineNum : Z) (raw : string) (b : ImportPreviewSuccessBody) : ImportPreviewSuccessBody :=
  let s := summary b in
  match cell_error raw with
  | Some c =>
      {| summary := {| totalRowsScanned := S (totalRowsScanned s); validRows := validRows s; invalidRows := S (invalidRows s);
                       truncated := truncated s; totalDataRowsInFile := None |};
         validSample := validSample b;
         invalidSample := if (length (invalidSample b) <? IMPORT_PREVIEW_INVALID_SAMPLE)%nat
                          then invalidSample b ++ [(lineNum, sanitizeCellValue raw)] else invalidSample b;
         rowErrors := if (length (rowErrors b) <? IMPORT_PREVIEW_MAX_ROW_ERRORS)%nat
                      then rowErrors b ++ [{| line := lineNum; p_code := c |}] else rowErrors b |}
  | None =>
      {| summary := {| totalRowsScanned := S (totalRowsScanned s); validRows := S (validRows s); invalidRows := invalidRows s;
                       truncated := truncated s; totalDataRowsInFile := None |};
         validSample := if (length (validSample b) <? IMPORT_PREVIEW_VALID_SAMPLE)%nat
                        then validSample b ++ [(lineNum, sanitizeCellValue raw)] else validSample b;
         invalidSample := invalidSample b; rowErrors := rowErrors b |}
  end.

Definition set_truncated (b : ImportPreviewSuccessBody) : ImportPreviewSuccessBody :=
  {| summary := {| totalRowsScanned := totalRowsScanned (summary b); validRows := validRows (summary b);
                   invalidRows := invalidRows (summary b); truncated := true; totalDataRowsInFile := None |};
     validSample := validSample b; invalidSample := invalidSample b; rowErrors := rowErrors b |}.

Definition cell_at (col : nat) (row : list string) : string := trim (default EmptyString (row !! col)).

Definition preview_row (col : nat) (late : nat → bool) (row : list string) (p : pstate) : result ImportDryRunErrorBody pstate :=
  let n := S (dataRowCount p) in
  if late n then Err ParseTimeout else
  if (IMPORT_PREVIEW_MAX_ROWS <=? totalRowsScanned (summary (p_body p)))%nat then
    Ok {| p_body := set_truncated (p_body p); dataRowCount := n |}
  else
    let lineNum := Z.of_nat n + 1 in
    let raw := cell_at col row in
    if IMPORT_PREVIEW_MAX_CELL_BYTES <? byteLength raw then Err (CellTooLarge lineNum)
    else Ok {| p_body := add_row lineNum raw (p_body p); dataRowCount := n |}.

Fixpoint preview_rows (col : nat) (late : nat → bool) (rows : list (list string)) (p : pstate) : result ImportDryRunErrorBody pstate :=
  match rows with [] => Ok p | r :: rest => p' ← preview_row col late r p; preview_rows col late rest p' end.

Definition previewImportFile (f : file) (late : nat → bool) : result ImportDryRunErrorBody ImportPreviewSuccessBody :=
  if IMPORT_PREVIEW_MAX_FILE_BYTES <? f_size f then Err FileTooLarge else
  if negb (f_utf8 f) then Err InvalidEncoding else
  match f_rows f with
  | [] => if f_broken f then Err MalformedCsv else Ok empty_body
  | header :: rows =>
      match addressColIndex (trim <$> header) with
      | None => Err SchemaError
      | Some col =>
          p ← preview_rows col late rows {| p_body := empty_body; dataRowCount := 0 |};
          if f_broken f then Err MalformedCsv else
          let b := p_body p in
          Ok (if truncated (summary b) then
                {| summary := {| totalRowsScanned := totalRowsScanned (summary b); validRows := validRows (summary b);
                                 invalidRows := invalidRows (summary b); truncated := true;
                                 totalDataRowsInFile := Some (dataRowCount p) |};
                   validSample := validSample b; invalidSample := invalidSample b; rowErrors := rowErrors b |}
              else b)
      end
  end.

(** The counts and samples of the rows read so far. *)
Definition summarises (col : nat) (rows : list (list string)) (b : ImportPreviewSuccessBody) : Prop :=
  let scanned := take IMPORT_PREVIEW_MAX_ROWS rows in
  let good := filter (λ r, cell_error (cell_at col r) = None) scanned in
  totalRowsScanned (summary b) = length scanned ∧ validRows (summary b) = length good ∧
  (validRows (summary b) + invalidRows (summary b))%nat = totalRowsScanned (summary b) ∧
  truncated (summary b) = (IMPORT_PREVIEW_MAX_ROWS <? length rows)%nat ∧
  length (rowErrors b) = Nat.min IMPORT_PREVIEW_MAX_ROW_ERRORS (invalidRows (summary b)) ∧
  length (validSample b) = Nat.min IMPORT_PREVIEW_VALID_SAMPLE (validRows (summary b)) ∧
  length (invalidSample b) = Nat.min IMPORT_PREVIEW_INVALID_SAMPLE (invalidRows (summary b)).

Lemma length_push {A} (l : list A) x m n : length l = Nat.min m n →
  length (if (length l <? m)%nat then l ++ [x] else l) = Nat.min m (S n).
Proof. intros H. destruct (Nat.ltb_spec (length l) m); rewrite ?length_app; simpl; lia. Qed.

Lemma preview_row_ok col late done_ r p : (∀ n, late n = false) → byteLength (cell_at col r) ≤ IMPORT_PREVIEW_MAX_CELL_BYTES →
  summarises col done_ (p_body p) → dataRowCount p = length done_ →
  ∃ p', preview_row col late r p = Ok p' ∧ summarises col (done_ ++ [r]) (p_body p') ∧ dataRowCount p' = length (done_ ++ [r]).
Proof.
  intros Hlate Hc (H1 & H2 & H3 & H4 & H5 & H6 & H7) Hn. unfold preview_row. rewrite Hlate.
  rewrite length_take in H1. destruct (Nat.leb_spec IMPORT_PREVIEW_MAX_ROWS (totalRowsScanned (summary (p_body p)))) as [Hf|Hf].
  - eexists. split; [done|]. unfold summarises. cbn. rewrite length_app, take_app_le by lia.
    split; [|simpl; lia]. rewrite length_take. split_and!; [lia|done|lia| |done|done|done].
    symmetry. apply Nat.ltb_lt. simpl. lia.
  - destruct (Z.ltb_spec IMPORT_PREVIEW_MAX_CELL_BYTES (byteLength (cell_at col r))); [lia|].
    eexists. split; [done|]. rewrite take_ge in H2 by lia. unfold summarises, add_row. cbn [p_body dataRowCount].
    rewrite take_ge by (rewrite length_app; simpl; lia). rewrite filter_app, filter_cons, filter_nil, !length_app.
    assert ((IMPORT_PREVIEW_MAX_ROWS <? length done_)%nat = (IMPORT_PREVIEW_MAX_ROWS <? length done_ + length [r])%nat) as Ht.
    { destruct (Nat.ltb_spec IMPORT_PREVIEW_MAX_ROWS (length done_)), (Nat.ltb_spec IMPORT_PREVIEW_MAX_ROWS (length done_ + length [r]));
        simpl in *; lia || done. }
    rewrite Ht in H4. destruct (cell_error (cell_at col r)) eqn:E; cbn [summary totalRowsScanned validRows invalidRows truncated
      rowErrors validSample invalidSample]; (split; [|simpl; lia]).
    + rewrite decide_False by done. split_and!; [simpl; lia|simpl; lia|lia|done|by apply length_push|done|by apply length_push].
    + rewrite decide_True by done. split_and!; [simpl; lia|simpl; lia|lia|done|done|by apply length_push|done].
Qed.

Lemma preview_rows_ok col late done_ rows p : (∀ n, late n = false) →
  Forall (λ r, byteLength (cell_at col r) ≤ IMPORT_PREVIEW_MAX_CELL_BYTES) rows →
  summarises col done_ (p_body p) → dataRowCount p = length done_ →
  ∃ p', preview_rows col late rows p = Ok p' ∧ summarises col (done_ ++ rows) (p_body p') ∧ dataRowCount p' = length (done_ ++ rows).
Proof.
  intros Hlate. revert done_ p. induction rows as [|r rows IH]; intros done_ p Hc Hs Hn; simpl.
  { exists p. by rewrite app_nil_r. }
  apply Forall_cons in Hc as [Hr Hc]. destruct (preview_row_ok col late done_ r p Hlate Hr Hs Hn) as (p' & -> & Hs' & Hn'). simpl.
  destruct (IH (done_ ++ [r]) p' Hc Hs' Hn') as (p2 & H2). exists p2. by rewrite <- (app_assoc done_) in H2.
Qed.

(** The preview of a file within the limits counts every scanned row once, as
    valid exactly when its address cell is, says when it left rows unscanned
    and then how many the file has, and keeps its samples and errors within
    their limits. *)
Lemma preview_counts f late header rows col :
  f_size f ≤ IMPORT_PREVIEW_MAX_FILE_BYTES → f_utf8 f = true → f_broken f = false → f_rows f = header :: rows →
  addressColIndex (trim <$> header) = Some col → (∀ n, late n = false) →
  Forall (λ r, byteLength (cell_at col r) ≤ IMPORT_PREVIEW_MAX_CELL_BYTES) rows →
  ∃ b, previewImportFile f late = Ok b ∧ summarises col rows b ∧
    (truncated (summary b) = true → totalDataRowsInFile (summary b) = Some (length rows)).
Proof.
  intros Hsize Hutf Hb Hrows Hcol Hlate Hc. unfold previewImportFile.
  destruct (Z.ltb_spec IMPORT_PREVIEW_MAX_FILE_BYTES (f_size f)); [lia|]. rewrite Hutf, Hrows, Hcol, Hb. simpl.
  destruct (preview_rows_ok col late [] rows {| p_body := empty_body; dataRowCount := 0 |}) as (p & -> & Hs & Hn); [done|done| |done|].
  { unfold summarises. cbn. rewrite take_nil. split_and!; try done; try (rewrite Nat.min_0_r; done). }
  simpl. simpl in Hs, Hn. eexists. split; [done|]. destruct (truncated (summary (p_body p))) eqn:Et.
  - rewrite Hn. split; [|done]. destruct Hs as (H1 & H2 & H3 & H4 & H5 & H6 & H7). unfold summarises.
    cbn [summary totalRowsScanned validRows invalidRows truncated rowErrors validSample invalidSample].
    rewrite Et in H4. by split_and!.
  - split; [done|]. by rewrite Et.
Qed.
End Preview.
End Preview.

(** ** Presets *)

Module Presets.

Record ImportMappingPreset := {
  id : string;
  orgId : string;
  name : string;
  version : Z;
  columnMappings : ColumnMapping;
  createdAt : Z;
  updatedAt : Z
}.

(** [InMemoryMappingPresetRepository]. *)
Abbreviation presets := (list ImportMappingPreset).

Definition findById (i : string) (ps : presets) : option ImportMappingPreset := List.find (λ p, String.eqb (id p) i) ps.

Definition create (uuid : string) (now : Z) (org nm : string) (m : ColumnMapping) (ps : presets) : presets * ImportMappingPreset :=
  let existing := foldl (λ mx p, Z.max mx (version p)) 0 (filter (λ p, orgId p = org ∧ name p = nm) ps) in
  let p := {| id := uuid; orgId := org; name := nm; version := existing + 1; columnMappings := m; createdAt := now; updatedAt := now |} in
  (ps ++ [p], p).

Definition changed (now : Z) (nm : option string) (m : option ColumnMapping) (p : ImportMappingPreset) : ImportMappingPreset :=
  {| id := id p; orgId := orgId p; name := default (name p) nm; version := version p + 1;
     columnMappings := default (columnMappings p) m; createdAt := createdAt p; updatedAt := now |}.

(** The first preset with the id is replaced. *)
Fixpoint update (now : Z) (i : string) (nm : option string) (m : option ColumnMapping) (ps : presets)
  : presets * option ImportMappingPreset :=
  match ps with
  | [] => ([], None)
  | p :: rest =>
      if String.eqb (id p) i then
        if isSome nm || isSome m then (changed now nm m p :: rest, Some (changed now nm m p)) else (ps, Some p)
      else let '(rest', r) := update now i nm m rest in (p :: rest', r)
  end.

Fixpoint delete (i : string) (ps : presets) : presets * bool :=
  match ps with
  | [] => ([], false)
  | p :: rest => if String.eqb (id p) i then (rest, true) else let '(rest', b) := delete i rest in (p :: rest', b)
  end.

(** The column the table keeps unique. *)
Definition version_key (p : ImportMappingPreset) : string * string * Z := (orgId p, name p, version p).

Lemma max_version ps b : b ≤ foldl (λ mx p, Z.max mx (version p)) b ps ∧
  Forall (λ p, version p ≤ foldl (λ mx p, Z.max mx (version p)) b ps) ps.
Proof.
  revert b. induction ps as [|p ps IH]; intros b; simpl; [split; [lia|done]|]. destruct (IH (Z.max b (version p))) as [H1 H2].
  split; [lia|]. constructor; [lia|done].
Qed.

(** Creating a preset keeps the versions of an organisation's name apart; an
    update may not, as it raises the version of the row it changes without
    looking at the others. *)
Lemma preset_versions ps uuid now org nm m : NoDup (version_key <$> ps) → NoDup (version_key <$> (create uuid now org nm m ps).1).
Proof.
  intros Hnd. simpl. rewrite fmap_app. apply NoDup_app. split_and!; [done| |apply NoDup_singleton].
  intros k (p & -> & Hp)%list_elem_of_fmap Hk. apply list_elem_of_singleton in Hk. injection Hk as Ho Hn Hv.
  pose proof (proj2 (max_version (filter (λ p, orgId p = org ∧ name p = nm) ps) 0)) as Hmax. rewrite Forall_forall in Hmax.
  specialize (Hmax p ltac:(by apply list_elem_of_filter)). simpl in Hmax. lia.
Qed.

Lemma preset_version_collision :
  let p1 := create "1" 0 "org" "a" [] [] in
  let p2 := create "2" 0 "org" "a" [] p1.1 in
  version_key <$> (update 5 "1" None (Some []) p2.1).1 = [("org", "a", 2); ("org", "a", 2)].
Proof. vm_compute. reflexivity. Qed.
End Presets.

(** [isDryRunQuery] on a query value: a string, an array, or anything else. *)
#[warnings="-register-all"]
Inductive query_value := QString (s : string) | QArray (l : list query_value) | QOther.

Fixpoint isDryRunQuery (v : query_value) : bool :=
  match v with
  | QString s => String.eqb (toLowerCase s) "true"
  | QArray (x :: _) => isDryRunQuery x
  | _ => false
  end.

(** ** Examples *)

Module ImportExample.
Definition addr (c : ascii) : string := String "G" (str_repeat c 55).
Definition f : file :=
  {| f_text := "text"; f_size := 200; f_utf8 := true;
     f_rows := [["Address"; "mail"]; [addr "A"; "x"]; [addr "B"; EmptyString]; [addr "A"; EmptyString]]; f_broken := false |}.
Definition m : ColumnMapping := [("address", "address"); ("Mail", "email")].
Definition email (s : string) : bool := false.
Definition rows : list ValidatedImportRow := take 2 (collectValidatedImportRows f m).
Definition w0 : import_store := {| checkpoints := ∅; upserted := [] |}.
End ImportExample.

Lemma dry_run_exact_witness :
  ∃ b, dryRunImportFile ImportExample.email "required" slen ImportExample.f ImportExample.m (λ _, false) 100 10 = Ok b ∧
    (e_code <$> errors b) = ["INVALID_EMAIL"] ∧ valid b = false.
Proof.
  destruct (dry_run_exact ImportExample.email "required" slen ImportExample.f ImportExample.m (λ _, false) 100 10
    ["Address"; "mail"] [[ImportExample.addr "A"; "x"]; [ImportExample.addr "B"; EmptyString]; [ImportExample.addr "A"; EmptyString]])
    as (b & Hb & He & _ & _ & Hv); [vm_compute; congruence|done|vm_compute; reflexivity|done|done|vm_compute; reflexivity|done| |lia|].
  - repeat constructor; vm_compute; reflexivity.
  - exists b. split; [exact Hb|]. split; [rewrite He; vm_compute; reflexivity|]. vm_compute in Hb. by injection Hb as <-.
Defined.

Lemma import_resumes_witness :
  let fp := "fp" in
  let key := stableRowKey (λ s, s) (λ r, "json") fp in
  NoDup (key <$> ImportExample.rows) ∧
  ∃ l, ImportExample.rows ≡ₚ l ∧
    upserted (attempts (λ s, s) (λ r, "json") "t:k" fp "op" ImportExample.rows
      [(λ r, v_row r =? 3); (λ _, false)] ImportExample.w0).1 = (upsert_of <$> l).
Proof.
  intros fp key. assert (NoDup (key <$> ImportExample.rows)) as Hnd.
  { vm_compute. apply NoDup_cons. split; [|apply NoDup_singleton]. intros H%list_elem_of_singleton. discriminate H. }
  split; [exact Hnd|].
  pose proof (import_resumes (λ s, s) (λ r, "json") "t:k" fp "op" ImportExample.rows [(λ r, v_row r =? 3); (λ _, false)]
    ImportExample.w0 Hnd eq_refl) as H.
  destruct (attempts _ _ _ _ _ _ _ _) as [w' rs]. destruct H as (l & _ & _ & Hu & _ & _ & Hall & _).
  exists l. split; [by eapply Hall|exact Hu].
Defined.
