(* ===== verification/FeatureFlags.v ===== *)
(** * Feature flags

    [services/featureFlags/]: the tables of flags, tenant overrides and tenant
    rollouts, the service with its in-process cache, the evaluation order and
    the audited mutations. Several instances of the service share the database,
    each with a cache of its own. SHA-256 in hexadecimal, the collation of
    [ORDER BY key], the clock and generated ids are parameters; a call reads
    the clock once. Rows and the objects the service maps them to have the same
    fields and are one type here. *)

From stdpp Require Import base option list sets strings gmap relations.
From Stdlib Require Import ZArith Lia Ascii.
From S2P Require Import Prelude JsLib.

Open Scope Z_scope.

(** ** Constants *)

Definition FLAG_CACHE_PREFIX : string := "feature_flag:".
Definition FLAG_LIST_CACHE_KEY : string := "feature_flags:all".
Definition OVERRIDE_CACHE_PREFIX : string := "feature_flag_override:".
Definition TENANT_ROLLOUT_CACHE_PREFIX : string := "feature_flag_tenant_rollout:".
Definition FLAG_CACHE_TTL_MS : Z := 30000.
Definition ROLLOUT_PERCENT_MAX : Z := 100.
Definition ROLLOUT_PERCENT_MIN : Z := 0.
Definition ROLLOUT_HASH_HEX_CHARS : Z := 8.
Definition OUTBOX_EVENT_CREATED : string := "feature_flag_created".
Definition OUTBOX_EVENT_UPDATED : string := "feature_flag_updated".
Definition OUTBOX_EVENT_OVERRIDE_UPDATED : string := "feature_flag_override_updated".
Definition OUTBOX_EVENT_OVERRIDE_REMOVED : string := "feature_flag_override_removed".
Definition OUTBOX_EVENT_TENANT_ROLLOUT_SET : string := "feature_flag_tenant_rollout_set".
Definition OUTBOX_EVENT_TENANT_ROLLOUT_REMOVED : string := "feature_flag_tenant_rollout_removed".

(** ** Data *)

Record FeatureFlag := {
  id : string;
  key : string;
  description : string;
  defaultEnabled : bool;
  rolloutPercent : Z;
  createdAt : Z;
  updatedAt : Z
}.

(** A row about a flag and a tenant: a boolean override or a percentage. *)
Record tenant_row (V : Type) := {
  t_id : string;
  flagId : string;
  tenantId : string;
  setting : V;
  t_createdAt : Z;
  t_updatedAt : Z
}.
Arguments t_id {V} _.
Arguments flagId {V} _.
Arguments tenantId {V} _.
Arguments setting {V} _.
Arguments t_createdAt {V} _.
Arguments t_updatedAt {V} _.

Abbreviation FeatureFlagOverride := (tenant_row bool).
Abbreviation FeatureFlagTenantRollout := (tenant_row Z).

Record FeatureFlagWithOverride := {
  flag : FeatureFlag;
  override : option FeatureFlagOverride;
  tenantRollout : option FeatureFlagTenantRollout;
  effectiveEnabled : bool;
  effectiveRolloutPercent : Z
}.

Record ActorInfo := { a_id : string; email : string; a_tenantId : string; ipAddress : option string }.

Record UpdateFlagInput := {
  u_description : option string;
  u_defaultEnabled : option bool;
  u_rolloutPercent : option Z
}.

Record flag_tables := {
  flags : list FeatureFlag;
  overrides : list FeatureFlagOverride;
  rollouts : list FeatureFlagTenantRollout
}.

(** ** Statements, with the constraints of the tables *)

Definition percent_ok (p : Z) : bool := (ROLLOUT_PERCENT_MIN <=? p) && (p <=? ROLLOUT_PERCENT_MAX).

Definition insert_flag (f : FeatureFlag) (d : flag_tables) : result string flag_tables :=
  if existsb (λ g, String.eqb (id g) (id f) || String.eqb (key g) (key f)) (flags d) then Err "23505"
  else if negb (percent_ok (rolloutPercent f)) then Err "23514"
  else Ok {| flags := flags d ++ [f]; overrides := overrides d; rollouts := rollouts d |}.

Definition updated_flag (now : Z) (u : UpdateFlagInput) (f : FeatureFlag) : FeatureFlag :=
  {| id := id f; key := key f; description := default (description f) (u_description u);
     defaultEnabled := default (defaultEnabled f) (u_defaultEnabled u);
     rolloutPercent := default (rolloutPercent f) (u_rolloutPercent u); createdAt := createdAt f; updatedAt := now |}.

(** The new tables and the row returned, if the key has one. *)
Definition update_flag (now : Z) (k : string) (u : UpdateFlagInput) (d : flag_tables) : flag_tables * option FeatureFlag :=
  ({| flags := (λ f, if String.eqb (key f) k then updated_flag now u f else f) <$> flags d;
      overrides := overrides d; rollouts := rollouts d |},
   updated_flag now u <$> List.find (λ f, String.eqb (key f) k) (flags d)).

Section Rows.
Context {V : Type}.

(** The join with [feature_flags] on the flag's key. *)
Definition row_of (fs : list FeatureFlag) (k t : string) (r : tenant_row V) : bool :=
  String.eqb (tenantId r) t && existsb (λ f, String.eqb (id f) (flagId r) && String.eqb (key f) k) fs.

Definition find_row (fs : list FeatureFlag) (k t : string) (rows : list (tenant_row V)) : option (tenant_row V) :=
  List.find (row_of fs k t) rows.

Definition with_setting (now : Z) (v : V) (r : tenant_row V) : tenant_row V :=
  {| t_id := t_id r; flagId := flagId r; tenantId := tenantId r; setting := v; t_createdAt := t_createdAt r;
     t_updatedAt := now |}.

Definition same_target (i t : string) (r : tenant_row V) : bool := String.eqb (flagId r) i && String.eqb (tenantId r) t.

(** [INSERT ... ON CONFLICT (flag_id, tenant_id) DO UPDATE ... RETURNING]. *)
Definition upsert_row (fs : list FeatureFlag) (now : Z) (newId i t : string) (v : V) (rows : list (tenant_row V))
  : result string (list (tenant_row V) * tenant_row V) :=
  if negb (existsb (λ f, String.eqb (id f) i) fs) then Err "23503"
  else match List.find (same_target i t) rows with
       | Some r => Ok ((λ r', if same_target i t r' then with_setting now v r' else r') <$> rows, with_setting now v r)
       | None =>
           if existsb (λ r, String.eqb (t_id r) newId) rows then Err "23505"
           else let r := {| t_id := newId; flagId := i; tenantId := t; setting := v; t_createdAt := now; t_updatedAt := now |} in
                Ok (rows ++ [r], r)
       end.

(** [DELETE ... USING feature_flags]: the rows left and the ids returned. *)
Definition delete_rows (fs : list FeatureFlag) (k t : string) (rows : list (tenant_row V)) : list (tenant_row V) * list string :=
  (List.filter (λ r, negb (row_of fs k t r)) rows, t_id <$> List.filter (row_of fs k t) rows).

(** The rows of a tenant, as a [Map] from flag ids. *)
Definition tenant_map (fs : list FeatureFlag) (t : string) (rows : list (tenant_row V)) : gmap string (tenant_row V) :=
  foldl (λ m r, <[flagId r := r]> m) ∅
    (List.filter (λ r, String.eqb (tenantId r) t && existsb (λ f, String.eqb (id f) (flagId r)) fs) rows).

End Rows.

(** ** The service *)

Record FlagEvent := { eventType : string; aggregateId : string; e_tenant : option string }.

Record FlagAudit := { by_ : ActorInfo; action : string; resourceType : string; resourceId : string }.

(** What the instances share: the tables, the outbox and the audit log. *)
Record shared := { tables : flag_tables; outbox : list FlagEvent; trail : list FlagAudit }.

(** The values the service caches; a missing flag is not cached, a missing
    override or rollout is. *)
Inductive cached :=
| CFlag (f : option FeatureFlag)
| CList (l : list FeatureFlag)
| COverride (o : option FeatureFlagOverride)
| CRollout (o : option FeatureFlagTenantRollout).

Record CacheEntry := { value : cached; expiresAt : Z }.

Abbreviation flag_cache := (gmap string CacheEntry).

(** What a read asks for, and the key it is cached under. *)
Inductive request :=
| QFlag (k : string)
| QList
| QOverride (k t : string)
| QRollout (k t : string).

Definition cacheKey (q : request) : string :=
  match q with
  | QFlag k => FLAG_CACHE_PREFIX +:+ k
  | QList => FLAG_LIST_CACHE_KEY
  | QOverride k t => OVERRIDE_CACHE_PREFIX +:+ k +:+ ":" +:+ t
  | QRollout k t => TENANT_ROLLOUT_CACHE_PREFIX +:+ k +:+ ":" +:+ t
  end.

(** [flagKeySchema]. *)
Definition flagKeySchema (k : string) : bool :=
  (1 <=? slen k) && (slen k <=? 128) &&
  str_forallb (λ c, is_digit c || ((97 <=? code c) && (code c <=? 122)) || (code c =? 95) || (code c =? 45)) k.

Section FeatureFlags.
Context (sha256 : string → string) (by_key : list FeatureFlag → list FeatureFlag).

Definition computeRolloutBucket (percent : Z) (entityId flagKey : string) : bool :=
  if ROLLOUT_PERCENT_MAX <=? percent then true
  else if percent <=? ROLLOUT_PERCENT_MIN then false
  else match parseInt (sliceTo (sha256 (flagKey +:+ ":" +:+ entityId)) ROLLOUT_HASH_HEX_CHARS) 16 with
       | Some n => Z.rem n 100 <? percent
       | None => false
       end.

(** The SELECT of a request. *)
Definition answer (d : flag_tables) (q : request) : cached :=
  match q with
  | QFlag k => CFlag (List.find (λ f, String.eqb (key f) k) (flags d))
  | QList => CList (by_key (flags d))
  | QOverride k t => COverride (find_row (flags d) k t (overrides d))
  | QRollout k t => CRollout (find_row (flags d) k t (rollouts d))
  end.

Definition cacheGet (now : Z) (k : string) (c : flag_cache) : flag_cache * option cached :=
  match c !! k with
  | None => (c, None)
  | Some e => if expiresAt e <? now then (delete k c, None) else (c, Some (value e))
  end.

Definition cacheSet (now : Z) (k : string) (v : cached) (c : flag_cache) : flag_cache :=
  <[k := {| value := v; expiresAt := now + FLAG_CACHE_TTL_MS |}]> c.

Definition cacheDelete (k : string) (c : flag_cache) : flag_cache := delete k c.

Definition sweepExpiredCacheEntries (now : Z) (c : flag_cache) : flag_cache * Z :=
  (filter (λ e, ¬ expiresAt e.2 < now) c, Z.of_nat (size (filter (λ e, expiresAt e.2 < now) c))).

Definition stores (v : cached) : bool := match v with CFlag None => false | _ => true end.

(** A read: from the cache, or from the database and into the cache. *)
Definition through (now : Z) (d : flag_tables) (q : request) (c : flag_cache) : flag_cache * cached :=
  match cacheGet now (cacheKey q) c with
  | (c1, Some v) => (c1, v)
  | (c1, None) => let v := answer d q in ((if stores v then cacheSet now (cacheKey q) v c1 else c1), v)
  end.

Definition getFlag (now : Z) (d : flag_tables) (k : string) (c : flag_cache) : flag_cache * option FeatureFlag :=
  let '(c1, v) := through now d (QFlag k) c in (c1, match v with CFlag f => f | _ => None end).

Definition listFlags (now : Z) (d : flag_tables) (c : flag_cache) : flag_cache * list FeatureFlag :=
  let '(c1, v) := through now d QList c in (c1, match v with CList l => l | _ => [] end).

Definition getOverride (now : Z) (d : flag_tables) (k t : string) (c : flag_cache) : flag_cache * option FeatureFlagOverride :=
  let '(c1, v) := through now d (QOverride k t) c in (c1, match v with COverride o => o | _ => None end).

Definition getTenantRollout (now : Z) (d : flag_tables) (k t : string) (c : flag_cache)
  : flag_cache * option FeatureFlagTenantRollout :=
  let '(c1, v) := through now d (QRollout k t) c in (c1, match v with CRollout o => o | _ => None end).

Definition isEnabled (now : Z) (d : flag_tables) (flagKey tenant : string) (userId : option string) (c : flag_cache)
  : flag_cache * bool :=
  let '(c1, o) := getOverride now d flagKey tenant c in
  match o with
  | Some o => (c1, setting o)
  | None =>
      let '(c2, f) := getFlag now d flagKey c1 in
      match f with
      | None => (c2, false)
      | Some f =>
          let entityId := default tenant userId in
          let '(c3, r) := getTenantRollout now d flagKey tenant c2 in
          match r with
          | Some r => (c3, computeRolloutBucket (setting r) entityId flagKey)
          | None =>
              (c3, if ROLLOUT_PERCENT_MIN <? rolloutPercent f then computeRolloutBucket (rolloutPercent f) entityId flagKey
                   else defaultEnabled f)
          end
      end
  end.

Definition listFlagsWithOverrides (now : Z) (d : flag_tables) (tenant : string) (c : flag_cache)
  : flag_cache * list FeatureFlagWithOverride :=
  let '(c1, fs) := listFlags now d c in
  let overrideMap := tenant_map (flags d) tenant (overrides d) in
  let tenantRolloutMap := tenant_map (flags d) tenant (rollouts d) in
  (c1, (λ f,
     let o := overrideMap !! id f in
     let r := tenantRolloutMap !! id f in
     {| flag := f; override := o; tenantRollout := r;
        effectiveEnabled :=
          match o, r with
          | Some o, _ => setting o
          | None, Some r => computeRolloutBucket (setting r) tenant (key f)
          | None, None => if ROLLOUT_PERCENT_MIN <? rolloutPercent f then computeRolloutBucket (rolloutPercent f) tenant (key f)
                          else defaultEnabled f
          end;
        effectiveRolloutPercent := match r with Some r => setting r | None => rolloutPercent f end |}) <$> fs).

Definition invalidateFlagCache (k : string) (c : flag_cache) : flag_cache :=
  cacheDelete FLAG_LIST_CACHE_KEY (cacheDelete (FLAG_CACHE_PREFIX +:+ k) c).

Definition invalidateOverrideCache (k t : string) (c : flag_cache) : flag_cache :=
  cacheDelete (FLAG_CACHE_PREFIX +:+ k)
    (cacheDelete FLAG_LIST_CACHE_KEY (cacheDelete (OVERRIDE_CACHE_PREFIX +:+ k +:+ ":" +:+ t) c)).

Definition invalidateTenantRolloutCache (k t : string) (c : flag_cache) : flag_cache :=
  cacheDelete (FLAG_CACHE_PREFIX +:+ k)
    (cacheDelete FLAG_LIST_CACHE_KEY (cacheDelete (TENANT_ROLLOUT_CACHE_PREFIX +:+ k +:+ ":" +:+ t) c)).

(** A failed write to the outbox is swallowed; [up] tells that it succeeds. *)
Definition emitOutboxEvent (up : bool) (ev k : string) (t : option string) (s : shared) : shared :=
  if up then {| tables := tables s; outbox := outbox s ++ [{| eventType := ev; aggregateId := k; e_tenant := t |}]; trail := trail s |}
  else s.

Definition logAction (a : ActorInfo) (act ty rid : string) (s : shared) : shared :=
  {| tables := tables s; outbox := outbox s; trail := trail s ++ [{| by_ := a; action := act; resourceType := ty; resourceId := rid |}] |}.

Definition with_tables (d : flag_tables) (s : shared) : shared := {| tables := d; outbox := outbox s; trail := trail s |}.

Definition createFlag (now : Z) (newId : string) (up : bool) (k desc : string) (def : bool) (percent : Z) (actor : ActorInfo)
    (s : shared) (c : flag_cache) : shared * flag_cache * result string FeatureFlag :=
  if (percent <? ROLLOUT_PERCENT_MIN) || (ROLLOUT_PERCENT_MAX <? percent)
  then (s, c, Err "rolloutPercent must be between 0 and 100")
  else
    let f := {| id := newId; key := k; description := desc; defaultEnabled := def; rolloutPercent := percent;
                createdAt := now; updatedAt := now |} in
    match insert_flag f (tables s) with
    | Err e => (s, c, Err e)
    | Ok d =>
        (logAction actor "CREATE_FLAG" "feature_flag" k (emitOutboxEvent up OUTBOX_EVENT_CREATED k None (with_tables d s)),
         invalidateFlagCache k c, Ok f)
    end.

Definition updateFlag (now : Z) (up : bool) (k : string) (u : UpdateFlagInput) (actor : ActorInfo) (s : shared) (c : flag_cache)
  : shared * flag_cache * result string FeatureFlag :=
  if match u_rolloutPercent u with
     | Some p => (p <? ROLLOUT_PERCENT_MIN) || (ROLLOUT_PERCENT_MAX <? p)
     | None => false
     end
  then (s, c, Err "rolloutPercent must be between 0 and 100")
  else if negb (isSome (u_description u) || isSome (u_defaultEnabled u) || isSome (u_rolloutPercent u))
  then (s, c, Err "No fields to update")
  else
    match update_flag now k u (tables s) with
    | (_, None) => (s, c, Err ("Feature flag '" +:+ k +:+ "' not found"))
    | (d, Some f) =>
        (logAction actor "UPDATE_FLAG" "feature_flag" (key f)
           (emitOutboxEvent up OUTBOX_EVENT_UPDATED (key f) None (with_tables d s)),
         invalidateFlagCache (key f) c, Ok f)
    end.

Definition set_overrides (os : list FeatureFlagOverride) (d : flag_tables) : flag_tables :=
  {| flags := flags d; overrides := os; rollouts := rollouts d |}.

Definition set_rollouts (rs : list FeatureFlagTenantRollout) (d : flag_tables) : flag_tables :=
  {| flags := flags d; overrides := overrides d; rollouts := rs |}.

Definition setOverride (now : Z) (newId : string) (up : bool) (k t : string) (enabled : bool) (actor : ActorInfo)
    (s : shared) (c : flag_cache) : shared * flag_cache * result string FeatureFlagOverride :=
  let d := tables s in
  match getFlag now d k c with
  | (c1, None) => (s, c1, Err ("Feature flag '" +:+ k +:+ "' not found"))
  | (c1, Some f) =>
      match upsert_row (flags d) now newId (id f) t enabled (overrides d) with
      | Err e => (s, c1, Err e)
      | Ok (os, o) =>
          (logAction actor "SET_FLAG_OVERRIDE" "feature_flag_override" (k +:+ ":" +:+ t)
             (emitOutboxEvent up OUTBOX_EVENT_OVERRIDE_UPDATED k (Some t) (with_tables (set_overrides os d) s)),
           invalidateOverrideCache k t c1, Ok o)
      end
  end.

Definition removeOverride (up : bool) (k t : string) (actor : ActorInfo) (s : shared) (c : flag_cache)
  : shared * flag_cache * result string () :=
  let d := tables s in
  match delete_rows (flags d) k t (overrides d) with
  | (_, []) => (s, c, Err ("Override not found for flag '" +:+ k +:+ "' and tenant '" +:+ t +:+ "'"))
  | (os, _) =>
      (logAction actor "REMOVE_FLAG_OVERRIDE" "feature_flag_override" (k +:+ ":" +:+ t)
         (emitOutboxEvent up OUTBOX_EVENT_OVERRIDE_REMOVED k (Some t) (with_tables (set_overrides os d) s)),
       invalidateOverrideCache k t c, Ok ())
  end.

Definition setTenantRollout (now : Z) (newId : string) (up : bool) (k t : string) (percent : Z) (actor : ActorInfo)
    (s : shared) (c : flag_cache) : shared * flag_cache * result string FeatureFlagTenantRollout :=
  if (percent <? ROLLOUT_PERCENT_MIN) || (ROLLOUT_PERCENT_MAX <? percent)
  then (s, c, Err "rolloutPercent must be between 0 and 100")
  else
    let d := tables s in
    match getFlag now d k c with
    | (c1, None) => (s, c1, Err ("Feature flag '" +:+ k +:+ "' not found"))
    | (c1, Some f) =>
        match upsert_row (flags d) now newId (id f) t percent (rollouts d) with
        | Err e => (s, c1, Err e)
        | Ok (rs, r) =>
            (logAction actor "SET_FLAG_OVERRIDE" "feature_flag_tenant_rollout" (k +:+ ":" +:+ t)
               (emitOutboxEvent up OUTBOX_EVENT_TENANT_ROLLOUT_SET k (Some t) (with_tables (set_rollouts rs d) s)),
             invalidateTenantRolloutCache k t c1, Ok r)
        end
    end.

Definition removeTenantRollout (up : bool) (k t : string) (actor : ActorInfo) (s : shared) (c : flag_cache)
  : shared * flag_cache * result string () :=
  let d := tables s in
  match delete_rows (flags d) k t (rollouts d) with
  | (_, []) => (s, c, Err ("Tenant rollout not found for flag '" +:+ k +:+ "' and tenant '" +:+ t +:+ "'"))
  | (rs, _) =>
      (logAction actor "REMOVE_FLAG_OVERRIDE" "feature_flag_tenant_rollout" (k +:+ ":" +:+ t)
         (emitOutboxEvent up OUTBOX_EVENT_TENANT_ROLLOUT_REMOVED k (Some t) (with_tables (set_rollouts rs d) s)),
       invalidateTenantRolloutCache k t c, Ok ())
  end.

End FeatureFlags.

(** ** Cache keys *)

Lemma schema_no_colon k : flagKeySchema k = true → no_char ":" k.
Proof.
  unfold flagKeySchema, no_char. rewrite !andb_true_iff. intros [_ H]. revert H.
  induction k as [|c k IH]; simpl; [done|]. rewrite !andb_true_iff. intros [Hc Hk]. split; [|by apply IH].
  destruct (Ascii.eqb_spec c ":") as [->|]; [by vm_compute in Hc|done].
Qed.

(** A request with a key the schema accepts. *)
Definition request_ok (q : request) : Prop :=
  match q with QFlag k | QOverride k _ | QRollout k _ => flagKeySchema k = true | QList => True end.

Lemma cacheKey_inj q1 q2 : request_ok q1 → request_ok q2 → cacheKey q1 = cacheKey q2 → q1 = q2.
Proof.
  destruct q1 as [k1| |k1 t1|k1 t1], q2 as [k2| |k2 t2|k2 t2]; simpl; try done; intros H1 H2 E; try discriminate E.
  - f_equal. by injection E.
  - injection E as E. by destruct (colon_split k1 k2 t1 t2) as [-> ->]; [by apply schema_no_colon..|done|].
  - injection E as E. by destruct (colon_split k1 k2 t1 t2) as [-> ->]; [by apply schema_no_colon..|done|].
Qed.

(** ** What the entries of a cache say *)

(** Every entry is the answer to a request, for which [P] holds. *)
Definition entries (P : request → CacheEntry → Prop) (c : flag_cache) : Prop :=
  ∀ k e, c !! k = Some e → ∃ q, request_ok q ∧ k = cacheKey q ∧ P q e.

Lemma entries_delete P k c : entries P c → entries P (delete k c).
Proof. intros H k' e [_ He]%lookup_delete_Some. by apply H. Qed.

Lemma entries_sweep P now c : entries P c → entries P (sweepExpiredCacheEntries now c).1.
Proof. intros H k e [He _]%map_lookup_filter_Some. by apply H. Qed.

Lemma entries_mono P Q c : (∀ q e, P q e → Q q e) → entries P c → entries Q c.
Proof. intros HPQ H k e (q & ? & ? & ?)%H. eauto. Qed.

Section Theory.
Context (sha256 : string → string) (by_key : list FeatureFlag → list FeatureFlag).
Abbreviation ask := (answer by_key).
Abbreviation fetch := (through by_key).

Definition entry_now (now : Z) (d : flag_tables) (q : request) : CacheEntry :=
  {| value := ask d q; expiresAt := now + FLAG_CACHE_TTL_MS |}.

(** A read keeps the entries, and returns the value of one that is alive. *)
Lemma through_entries P now d q c : request_ok q → P q (entry_now now d q) → entries P c →
  let '(c', v) := fetch now d q c in entries P c' ∧ ∃ e, P q e ∧ now ≤ expiresAt e ∧ v = value e.
Proof.
  intros Hq Hnow H. assert (∃ e, P q e ∧ now ≤ expiresAt e ∧ ask d q = value e) as Hfresh
    by (exists (entry_now now d q); unfold entry_now, FLAG_CACHE_TTL_MS; simpl; split_and!; [done|lia|done]).
  assert (∀ c1, entries P c1 →
    entries P (if stores (ask d q) then cacheSet now (cacheKey q) (ask d q) c1 else c1)) as Hset.
  { intros c1 H1. destruct (stores _); [|done]. unfold cacheSet. intros k e [[<- <-]|[_ He]]%lookup_insert_Some; [by exists q|by apply H1]. }
  unfold through, cacheGet. destruct (c !! cacheKey q) as [e|] eqn:E.
  - destruct (Z.ltb_spec (expiresAt e) now).
    + split; [by apply Hset, entries_delete|done].
    + split; [done|]. destruct (H _ _ E) as (q' & Hq' & Hk & HP). apply cacheKey_inj in Hk as <-; [|done..]. by exists e.
  - split; [by apply Hset|done].
Qed.

(** ** Evaluation *)

(** The documented order, on an override, a flag and a rollout. *)
Definition evaluation (o : option FeatureFlagOverride) (f : option FeatureFlag) (r : option FeatureFlagTenantRollout)
    (k entity : string) : bool :=
  match o, f, r with
  | Some o, _, _ => setting o
  | None, None, _ => false
  | None, Some f, Some r => computeRolloutBucket sha256 (setting r) entity k
  | None, Some f, None => if 0 <? rolloutPercent f then computeRolloutBucket sha256 (rolloutPercent f) entity k
                          else defaultEnabled f
  end.

Definition override_of (d : flag_tables) (k t : string) := find_row (flags d) k t (overrides d).
Definition rollout_of (d : flag_tables) (k t : string) := find_row (flags d) k t (rollouts d).
Definition flag_of (d : flag_tables) (k : string) := List.find (λ f, String.eqb (key f) k) (flags d).

(** An entry that answers its request on some tables for which [R] holds. *)
Definition answers (R : flag_tables → CacheEntry → Prop) (q : request) (e : CacheEntry) : Prop :=
  ∃ d, R d e ∧ value e = ask d q.

Lemma isEnabled_evaluates R now d k t u c : flagKeySchema k = true →
  (∀ q, R d (entry_now now d q)) → entries (answers R) c →
  let '(c', b) := isEnabled sha256 by_key now d k t u c in entries (answers R) c' ∧
  ∃ d1 d2 d3 e1 e2 e3, R d1 e1 ∧ R d2 e2 ∧ R d3 e3 ∧ now ≤ expiresAt e1 ∧ now ≤ expiresAt e2 ∧ now ≤ expiresAt e3 ∧
    b = evaluation (override_of d1 k t) (flag_of d2 k) (rollout_of d3 k t) k (default t u).
Proof.
  intros Hk HR Hc. assert (∀ q, answers R q (entry_now now d q)) as Hans by (intros q; by exists d).
  assert (∀ q, now ≤ expiresAt (entry_now now d q)) as Hlive by (intros q; unfold entry_now, FLAG_CACHE_TTL_MS; simpl; lia).
  unfold isEnabled, getOverride.
  pose proof (through_entries (answers R) now d (QOverride k t) c Hk (Hans _) Hc) as H1.
  destruct (fetch now d (QOverride k t) c) as [c1 v1]. destruct H1 as [Hc1 (e1 & (d1 & HR1 & E1) & Hl1 & ->)].
  rewrite E1. simpl. fold (override_of d1 k t). destruct (override_of d1 k t) as [o|] eqn:Eo.
  { split; [done|]. exists d1, d, d, e1, (entry_now now d (QFlag k)), (entry_now now d (QRollout k t)). rewrite Eo. auto 10. }
  unfold getFlag. pose proof (through_entries (answers R) now d (QFlag k) c1 Hk (Hans _) Hc1) as H2.
  destruct (fetch now d (QFlag k) c1) as [c2 v2]. destruct H2 as [Hc2 (e2 & (d2 & HR2 & E2) & Hl2 & ->)].
  rewrite E2. simpl. fold (flag_of d2 k). destruct (flag_of d2 k) as [f|] eqn:Ef.
  2:{ split; [done|]. exists d1, d2, d, e1, e2, (entry_now now d (QRollout k t)). rewrite Eo, Ef. auto 10. }
  unfold getTenantRollout. pose proof (through_entries (answers R) now d (QRollout k t) c2 Hk (Hans _) Hc2) as H3.
  destruct (fetch now d (QRollout k t) c2) as [c3 v3]. destruct H3 as [Hc3 (e3 & (d3 & HR3 & E3) & Hl3 & ->)].
  rewrite E3. simpl. fold (rollout_of d3 k t). destruct (rollout_of d3 k t) as [r|] eqn:Er;
    (split; [done|]); exists d1, d2, d3, e1, e2, e3; rewrite Eo, Ef, Er; auto 10.
Qed.
End Theory.

(** ** The tables *)

Definition rows_ok {V} (fs : list FeatureFlag) (rows : list (tenant_row V)) : Prop :=
  (∀ r, r ∈ rows → flagId r ∈ id <$> fs) ∧ NoDup ((λ r, (flagId r, tenantId r)) <$> rows).

Definition tables_ok (d : flag_tables) : Prop :=
  NoDup (id <$> flags d) ∧ NoDup (key <$> flags d) ∧ rows_ok (flags d) (overrides d) ∧ rows_ok (flags d) (rollouts d).

Lemma find_ext {A} (p q : A → bool) l : (∀ x, x ∈ l → p x = q x) → List.find p l = List.find q l.
Proof.
  induction l as [|x l IH]; intros H; simpl; [done|]. rewrite H by left. rewrite IH; [done|]. intros y Hy. apply H. by right.
Qed.

Lemma find_map {A} (p : A → bool) (f : A → A) l : (∀ x, p (f x) = p x) → (∀ x, p x = true → f x = x) →
  List.find p (f <$> l) = List.find p l.
Proof.
  intros Hp Hf. induction l as [|x l IH]; [done|]. simpl. rewrite Hp. destruct (p x) eqn:E; [by rewrite Hf|done].
Qed.

Lemma find_snoc {A} (p : A → bool) l x : p x = false → List.find p (l ++ [x]) = List.find p l.
Proof. intros H. induction l as [|y l IH]; simpl; [by rewrite H|]. by rewrite IH. Qed.

Lemma find_filter {A} (p q : A → bool) l : (∀ x, p x = true → q x = true) → List.find p (List.filter q l) = List.find p l.
Proof.
  intros H. induction l as [|x l IH]; simpl; [done|]. destruct (q x) eqn:E; simpl; [by rewrite IH|].
  destruct (p x) eqn:Ep; [by rewrite H in E|done].
Qed.

Lemma find_Some {A} (p : A → bool) l x : List.find p l = Some x → x ∈ l ∧ p x = true.
Proof. intros [H%list_elem_of_In Hp]%List.find_some. done. Qed.

Lemma existsb_elem {A} (p : A → bool) l : existsb p l = true ↔ ∃ x, x ∈ l ∧ p x = true.
Proof. rewrite existsb_exists. by setoid_rewrite list_elem_of_In. Qed.

Lemma row_of_true {V} fs k t (r : tenant_row V) :
  row_of fs k t r = true ↔ tenantId r = t ∧ ∃ f, f ∈ fs ∧ id f = flagId r ∧ key f = k.
Proof.
  unfold row_of. rewrite andb_true_iff, String.eqb_eq, existsb_elem.
  by setoid_rewrite andb_true_iff; setoid_rewrite String.eqb_eq.
Qed.

Lemma id_unique fs f g : NoDup (id <$> fs) → f ∈ fs → g ∈ fs → id f = id g → f = g.
Proof.
  intros Hnd [i Hi]%list_elem_of_lookup [j Hj]%list_elem_of_lookup E.
  assert (i = j) as <-; [|congruence]. apply (NoDup_lookup _ _ _ (id f) Hnd); rewrite list_lookup_fmap; [by rewrite Hi|by rewrite Hj, E].
Qed.

(** A row that joins with two keys joins with one. *)
Lemma row_of_unique {V} fs k t k' t' (r : tenant_row V) : NoDup (id <$> fs) →
  row_of fs k t r = true → row_of fs k' t' r = true → (k, t) = (k', t').
Proof.
  intros Hnd (<- & f & Hf & Hi & <-)%row_of_true (<- & g & Hg & Hj & <-)%row_of_true.
  f_equal. f_equal. eapply id_unique; eauto. congruence.
Qed.

Lemma find_row_flags {V} fs fs' k t (rows : list (tenant_row V)) :
  (∀ r, r ∈ rows → (∃ f, f ∈ fs ∧ id f = flagId r ∧ key f = k) ↔ ∃ f, f ∈ fs' ∧ id f = flagId r ∧ key f = k) →
  find_row fs' k t rows = find_row fs k t rows.
Proof.
  intros H. apply find_ext. intros r Hr. apply eq_iff_eq_true. rewrite !row_of_true. by rewrite (H r Hr).
Qed.

Lemma same_target_true {V} i t (r : tenant_row V) : same_target i t r = true ↔ flagId r = i ∧ tenantId r = t.
Proof. unfold same_target. by rewrite andb_true_iff, !String.eqb_eq. Qed.

Lemma upsert_find {V} fs now newId f t (v : V) rows rows' r k' t' : NoDup (id <$> fs) → f ∈ fs →
  upsert_row fs now newId (id f) t v rows = Ok (rows', r) → (k', t') ≠ (key f, t) →
  find_row fs k' t' rows' = find_row fs k' t' rows.
Proof.
  intros Hnd Hf. unfold upsert_row. destruct (negb _); [done|].
  assert (∀ r : tenant_row V, same_target (id f) t r = true → (k', t') ≠ (key f, t) → row_of fs k' t' r = false) as Hother.
  { intros r0 [Hi Ht]%same_target_true Hne. apply not_true_iff_false. intros Hr. apply Hne. eapply row_of_unique; [done|done|].
    apply row_of_true. split; [done|]. by exists f. }
  destruct (List.find _ rows) as [r0|] eqn:E.
  - intros [= <- <-] Hne. apply find_map.
    + intros x. case_match; [|done]. reflexivity.
    + intros x Hx. destruct (same_target (id f) t x) eqn:Es; [|done]. by rewrite Hother in Hx.
  - destruct (existsb _ rows); [done|]. intros [= <- <-] Hne. apply find_snoc, Hother; [|done]. by apply same_target_true.
Qed.

Lemma upsert_ok {V} fs now newId i t (v : V) rows rows' r : rows_ok fs rows →
  upsert_row fs now newId i t v rows = Ok (rows', r) → rows_ok fs rows'.
Proof.
  intros [Hfk Hnd]. unfold upsert_row. destruct (existsb _ fs) eqn:Ei; [|done]. simpl.
  apply existsb_elem in Ei as (f & Hf & Hi%String.eqb_eq). destruct (List.find _ rows) as [r0|] eqn:E.
  - intros [= <- <-]. split.
    + intros x (y & -> & Hy)%list_elem_of_fmap. specialize (Hfk y Hy). by case_match.
    + rewrite <- list_fmap_compose. erewrite list_fmap_ext; [exact Hnd|]. intros j x _. simpl. by case_match.
  - destruct (existsb _ rows); [done|]. intros [= <- <-]. split.
    + intros x [Hx|Hx]%elem_of_app; [by apply Hfk|]. apply list_elem_of_singleton in Hx as ->. simpl. apply list_elem_of_fmap. by exists f.
    + rewrite fmap_app. apply NoDup_app. split_and!; [done| |apply NoDup_singleton].
      intros p (x & -> & Hx)%list_elem_of_fmap Hp. simpl in Hp. apply list_elem_of_singleton in Hp as [= H1 H2].
      assert (same_target i t x = true) as Hs by (by apply same_target_true).
      by rewrite (List.find_none _ _ E x (proj1 (list_elem_of_In _ _) Hx)) in Hs.
Qed.

Lemma delete_find {V} fs k t (rows : list (tenant_row V)) k' t' : NoDup (id <$> fs) → (k', t') ≠ (k, t) →
  find_row fs k' t' (delete_rows fs k t rows).1 = find_row fs k' t' rows.
Proof.
  intros Hnd Hne. apply find_filter. intros r Hr. apply negb_true_iff, not_true_iff_false. intros Hr'.
  apply Hne. by eapply row_of_unique.
Qed.

Lemma NoDup_fmap_filter {A B} (f : A → B) (p : A → bool) l : NoDup (f <$> l) → NoDup (f <$> List.filter p l).
Proof.
  induction l as [|x l IH]; simpl; [done|]. intros [Hn Hl]%NoDup_cons. destruct (p x); [|auto]. simpl.
  apply NoDup_cons. split; [|auto]. intros (y & E & Hy)%list_elem_of_fmap. apply Hn, list_elem_of_fmap. exists y. split; [done|].
  apply list_elem_of_In in Hy. apply filter_In in Hy as [Hy _]. by apply list_elem_of_In.
Qed.

Lemma delete_rows_ok {V} fs k t (rows : list (tenant_row V)) : rows_ok fs rows → rows_ok fs (delete_rows fs k t rows).1.
Proof.
  intros [Hfk Hnd]. split; [|by apply NoDup_fmap_filter]. simpl. intros r Hr. apply list_elem_of_In in Hr.
  apply filter_In in Hr as [Hr _]. apply Hfk. by apply list_elem_of_In.
Qed.

Section Writes.
Context (by_key : list FeatureFlag → list FeatureFlag).
Abbreviation ask := (answer by_key).

(** Every entry holds what the tables answer now. *)
Definition coherent (d : flag_tables) (c : flag_cache) : Prop := entries (answers by_key (λ d0 _, d0 = d)) c.

(** What a call at [now] does to the tables and to the cache of its instance. *)
Record sound (now : Z) (d : flag_tables) (c : flag_cache) (d' : flag_tables) (c' : flag_cache) : Prop := {
  sound_tables : tables_ok d → tables_ok d';
  sound_entries : ∀ R, (∀ q, R d (entry_now by_key now d q)) → entries (answers by_key R) c → entries (answers by_key R) c';
  sound_coherent : tables_ok d → coherent d c → coherent d' c'
}.

Lemma sound_refl now d c : sound now d c d c.
Proof. by split. Qed.

Lemma sound_through now d q c : request_ok q → sound now d c d (through by_key now d q c).1.
Proof.
  intros Hq. assert (∀ R, (∀ q', R d (entry_now by_key now d q')) → entries (answers by_key R) c →
    entries (answers by_key R) (through by_key now d q c).1) as H.
  { intros R HR Hc. pose proof (through_entries by_key (answers by_key R) now d q c Hq) as Ht.
    destruct (through by_key now d q c). apply Ht; [by exists d|done]. }
  split; [done|done|]. intros _ Hc. by apply H.
Qed.

(** A read followed by a write and the invalidation of what it changes. *)
Lemma sound_write now d c c1 d' c' : sound now d c d c1 → (tables_ok d → tables_ok d') → c' ⊆ c1 →
  (tables_ok d → coherent d c → ∀ q, request_ok q → c' !! cacheKey q ≠ None → ask d' q = ask d q) → sound now d c d' c'.
Proof.
  intros [_ Hent Hcoh] Hok Hsub Hask. split; [done| |].
  - intros R HR Hc k e He. by eapply (Hent R HR Hc), lookup_weaken.
  - intros Hd Hc k e He. destruct (Hcoh Hd Hc k e) as (q & Hq & -> & (d0 & -> & Hv)); [by eapply lookup_weaken|].
    exists q. split_and!; [done|done|]. exists d'. split; [done|]. rewrite Hv. symmetry. apply Hask; [done|done|done|congruence].
Qed.

(** The entries that survive an invalidation. *)
Lemma kept_flag k c q : invalidateFlagCache k c !! cacheKey q ≠ None → q ≠ QList ∧ q ≠ QFlag k.
Proof.
  unfold invalidateFlagCache, cacheDelete. intros H. split; intros ->; apply H.
  - apply lookup_delete_eq.
  - apply lookup_delete_None. right. apply lookup_delete_eq.
Qed.

Lemma kept_override k t c q : invalidateOverrideCache k t c !! cacheKey q ≠ None → q ≠ QList ∧ q ≠ QOverride k t.
Proof.
  unfold invalidateOverrideCache, cacheDelete. intros H. split; intros ->; apply H; apply lookup_delete_None; right.
  - apply lookup_delete_eq.
  - apply lookup_delete_None. right. apply lookup_delete_eq.
Qed.

Lemma kept_rollout k t c q : invalidateTenantRolloutCache k t c !! cacheKey q ≠ None → q ≠ QList ∧ q ≠ QRollout k t.
Proof.
  unfold invalidateTenantRolloutCache, cacheDelete. intros H. split; intros ->; apply H; apply lookup_delete_None; right.
  - apply lookup_delete_eq.
  - apply lookup_delete_None. right. apply lookup_delete_eq.
Qed.

Lemma deletes_subseteq (c c0 : flag_cache) k : c ⊆ c0 → delete k c ⊆ c0.
Proof. intros H. etrans; [apply delete_subseteq|done]. Qed.

Lemma event_tables up ev k t s : tables (emitOutboxEvent up ev k t s) = tables s.
Proof. by destruct up. Qed.

Lemma createFlag_sound now newId up k desc def p a s c : 
  let '(s', c', _) := createFlag now newId up k desc def p a s c in sound now (tables s) c (tables s') c'.
Proof.
  unfold createFlag. destruct (_ || _); [apply sound_refl|]. set (f := Build_FeatureFlag _ _ _ _ _ _ _).
  unfold insert_flag. destruct (existsb _ _) eqn:E; [apply sound_refl|]. destruct (negb _); [apply sound_refl|].
  unfold logAction. simpl. rewrite event_tables. simpl.
  assert (∀ g, g ∈ flags (tables s) → id g ≠ newId ∧ key g ≠ k) as Hnew.
  { intros g Hg. apply not_true_iff_false in E. split; intros Hx; apply E; apply existsb_elem; exists g; (split; [done|]); simpl;
      rewrite Hx, String.eqb_refl; [done|by rewrite orb_true_r]. }
  apply (sound_write _ _ _ c); [apply sound_refl|..].
  - intros (H1 & H2 & (H3 & H4) & H5 & H6). unfold tables_ok. simpl. rewrite !fmap_app. split_and!.
    + apply NoDup_app. split_and!; [done| |apply NoDup_singleton]. intros i (g & -> & Hg)%list_elem_of_fmap Hi.
      apply list_elem_of_singleton in Hi. by destruct (proj1 (Hnew g Hg) Hi).
    + apply NoDup_app. split_and!; [done| |apply NoDup_singleton]. intros i (g & -> & Hg)%list_elem_of_fmap Hi.
      apply list_elem_of_singleton in Hi. by destruct (proj2 (Hnew g Hg) Hi).
    + split; [|done]. intros r Hr. rewrite fmap_app. apply elem_of_app. left. auto.
    + split; [|done]. intros r Hr. rewrite fmap_app. apply elem_of_app. left. auto.
  - repeat apply deletes_subseteq. done.
  - intros (_ & _ & [H3 _] & [H5 _]) _ q _ [Hl Hf]%kept_flag.
    assert (∀ V (rows : list (tenant_row V)) k' t', (∀ r, r ∈ rows → flagId r ∈ id <$> flags (tables s)) →
      find_row (flags (tables s) ++ [f]) k' t' rows = find_row (flags (tables s)) k' t' rows) as Hrows.
    { intros V rows k' t' Hfk. apply find_row_flags. intros r (g & Hg & Hg')%Hfk%list_elem_of_fmap. split.
      - intros (x & Hx & ?). exists x. split; [set_solver|done].
      - intros (x & [Hx|Hx%list_elem_of_singleton]%elem_of_app & Hi & ?); [by exists x|]. subst x. simpl in Hi.
        destruct (Hnew g Hg') as [Hne _]. by rewrite <- Hg, Hi in Hne. }
    destruct q as [k'| |k' t'|k' t']; simpl; [|done|by rewrite Hrows..].
    f_equal. apply find_snoc. simpl. apply String.eqb_neq. congruence.
Qed.

Lemma updateFlag_sound now up k u a s c :
  let '(s', c', _) := updateFlag now up k u a s c in sound now (tables s) c (tables s') c'.
Proof.
  unfold updateFlag. destruct (match u_rolloutPercent u with Some _ => _ | None => _ end); [apply sound_refl|].
  destruct (negb _); [apply sound_refl|]. unfold update_flag. destruct (List.find _ _) as [f|] eqn:E; simpl; [|apply sound_refl].
  apply find_Some in E as [_ ->%String.eqb_eq]. rewrite event_tables. simpl.
  set (g := λ f : FeatureFlag, _).
  assert (∀ x, id (g x) = id x ∧ key (g x) = key x) as Hg by (intros x; unfold g; by case_match).
  assert ((id <$> (g <$> flags (tables s))) = id <$> flags (tables s)) as Hid
    by (rewrite <- list_fmap_compose; apply list_fmap_ext; intros; apply Hg).
  assert ((key <$> (g <$> flags (tables s))) = key <$> flags (tables s)) as Hkey
    by (rewrite <- list_fmap_compose; apply list_fmap_ext; intros; apply Hg).
  apply (sound_write _ _ _ c); [apply sound_refl|..].
  - unfold tables_ok, rows_ok. simpl. by rewrite Hid, Hkey.
  - repeat apply deletes_subseteq. done.
  - intros _ _ q _ [Hl Hf]%kept_flag.
    assert (∀ V (rows : list (tenant_row V)) k' t',
      find_row (g <$> flags (tables s)) k' t' rows = find_row (flags (tables s)) k' t' rows) as Hrows.
    { intros V rows k' t'. apply find_row_flags. intros r _. split.
      - intros (x & Hx & ? & ?). exists (g x). split; [apply list_elem_of_fmap; by exists x|]. destruct (Hg x). split; congruence.
      - intros (y & (x & -> & Hx)%list_elem_of_fmap & ? & ?). exists x. destruct (Hg x). split_and!; [done|congruence..]. }
    destruct q as [k'| |k' t'|k' t']; simpl; [|done|by rewrite Hrows..].
    f_equal. apply find_map; intros x; [by rewrite (proj2 (Hg x))|]. intros Hx%String.eqb_eq. unfold g.
    destruct (String.eqb_spec (key x) k) as [E|]; [|done]. destruct Hf. by rewrite <- Hx, E.
Qed.

(** The flag that a coherent read returns is the one in the table. *)
Lemma getFlag_sound now d k c : flagKeySchema k = true → sound now d c d (getFlag by_key now d k c).1.
Proof.
  intros Hk. pose proof (sound_through now d (QFlag k) c Hk) as H. unfold getFlag. by destruct (through _ _ _ _ _).
Qed.

Lemma getFlag_coherent now d k c f : flagKeySchema k = true → coherent d c → (getFlag by_key now d k c).2 = Some f →
  f ∈ flags d ∧ key f = k.
Proof.
  intros Hk Hc. pose proof (through_entries by_key (answers by_key (λ d0 _, d0 = d)) now d (QFlag k) c Hk) as H.
  unfold getFlag. destruct (through _ _ _ _ _) as [c1 v]. destruct H as [_ (e & (d0 & -> & E) & _ & ->)]; [by exists d|done|].
  rewrite E. simpl. intros [Hf Hx%String.eqb_eq]%find_Some. done.
Qed.

Lemma setOverride_sound now newId up k t b a s c : flagKeySchema k = true →
  let '(s', c', _) := setOverride by_key now newId up k t b a s c in sound now (tables s) c (tables s') c'.
Proof.
  intros Hk. unfold setOverride. pose proof (getFlag_sound now (tables s) k c Hk) as Hg.
  pose proof (getFlag_coherent now (tables s) k c) as Hf. destruct (getFlag _ _ _ _ _) as [c1 [f|]]; simpl in *; [|done].
  destruct (upsert_row _ _ _ _ _ _ _) as [[os o]|e] eqn:E; [|done]. simpl. rewrite event_tables. simpl.
  apply (sound_write _ _ _ c1); [done| | |].
  - intros (H1 & H2 & H3 & H4). split_and!; [done|done|by eapply upsert_ok|done].
  - repeat apply deletes_subseteq. done.
  - intros (H1 & _) Hc q _ [Hl Hq]%kept_override. destruct (Hf f Hk Hc eq_refl) as [Hin <-].
    destruct q as [k'| |k' t'|k' t']; simpl; [done..| |done]. f_equal. eapply upsert_find; [done|done|done|congruence].
Qed.

Lemma setTenantRollout_sound now newId up k t p a s c : flagKeySchema k = true →
  let '(s', c', _) := setTenantRollout by_key now newId up k t p a s c in sound now (tables s) c (tables s') c'.
Proof.
  intros Hk. unfold setTenantRollout. destruct (_ || _); [apply sound_refl|].
  pose proof (getFlag_sound now (tables s) k c Hk) as Hg.
  pose proof (getFlag_coherent now (tables s) k c) as Hf. destruct (getFlag _ _ _ _ _) as [c1 [f|]]; simpl in *; [|done].
  destruct (upsert_row _ _ _ _ _ _ _) as [[rs r]|e] eqn:E; [|done]. simpl. rewrite event_tables. simpl.
  apply (sound_write _ _ _ c1); [done| | |].
  - intros (H1 & H2 & H3 & H4). split_and!; [done|done|done|by eapply upsert_ok].
  - repeat apply deletes_subseteq. done.
  - intros (H1 & _) Hc q _ [Hl Hq]%kept_rollout. destruct (Hf f Hk Hc eq_refl) as [Hin <-].
    destruct q as [k'| |k' t'|k' t']; simpl; [done..|]. f_equal. eapply upsert_find; [done|done|done|congruence].
Qed.

Lemma removeOverride_sound now up k t a s c :
  let '(s', c', _) := removeOverride up k t a s c in sound now (tables s) c (tables s') c'.
Proof.
  unfold removeOverride. pose proof (delete_rows_ok (flags (tables s)) k t (overrides (tables s))) as Hok.
  pose proof (delete_find (flags (tables s)) k t (overrides (tables s))) as Hfind.
  destruct (delete_rows _ _ _ _) as [os [|i is_]]; [apply sound_refl|]. simpl in *. rewrite event_tables. simpl.
  apply (sound_write _ _ _ c); [apply sound_refl| | |].
  - intros (H1 & H2 & H3 & H4). split_and!; [done|done|by apply Hok|done].
  - repeat apply deletes_subseteq. done.
  - intros (H1 & _) _ q _ [Hl Hq]%kept_override.
    destruct q as [k'| |k' t'|k' t']; simpl; [done..| |done]. f_equal. apply Hfind; [done|congruence].
Qed.

Lemma removeTenantRollout_sound now up k t a s c :
  let '(s', c', _) := removeTenantRollout up k t a s c in sound now (tables s) c (tables s') c'.
Proof.
  unfold removeTenantRollout. pose proof (delete_rows_ok (flags (tables s)) k t (rollouts (tables s))) as Hok.
  pose proof (delete_find (flags (tables s)) k t (rollouts (tables s))) as Hfind.
  destruct (delete_rows _ _ _ _) as [rs [|i is_]]; [apply sound_refl|]. simpl in *. rewrite event_tables. simpl.
  apply (sound_write _ _ _ c); [apply sound_refl| | |].
  - intros (H1 & H2 & H3 & H4). split_and!; [done|done|done|by apply Hok].
  - repeat apply deletes_subseteq. done.
  - intros (H1 & _) _ q _ [Hl Hq]%kept_rollout.
    destruct q as [k'| |k' t'|k' t']; simpl; [done..|]. f_equal. apply Hfind; [done|congruence].
Qed.
End Writes.

(** ** The listing *)

Lemma foldl_insert_find {V} (l : list (tenant_row V)) (m : gmap string (tenant_row V)) i : NoDup (flagId <$> l) →
  foldl (λ m r, <[flagId r := r]> m) m l !! i =
    match List.find (λ r, String.eqb (flagId r) i) l with Some r => Some r | None => m !! i end.
Proof.
  revert m. induction l as [|r l IH]; intros m; simpl; [done|]. intros [Hn Hl]%NoDup_cons. rewrite IH by done.
  destruct (String.eqb_spec (flagId r) i) as [<-|Hne].
  - destruct (List.find _ l) as [r'|] eqn:E; [|by rewrite lookup_insert_eq]. apply find_Some in E as [Hr Hx%String.eqb_eq].
    destruct Hn. rewrite <- Hx. apply list_elem_of_fmap. by exists r'.
  - by rewrite lookup_insert_ne.
Qed.

Lemma find_of_filter {A} (p q : A → bool) l : List.find p (List.filter q l) = List.find (λ x, q x && p x) l.
Proof. induction l as [|x l IH]; simpl; [done|]. destruct (q x); simpl; [by rewrite IH|done]. Qed.

Lemma key_unique fs f g : NoDup (key <$> fs) → f ∈ fs → g ∈ fs → key f = key g → f = g.
Proof.
  intros Hnd [i Hi]%list_elem_of_lookup [j Hj]%list_elem_of_lookup E.
  assert (i = j) as <-; [|congruence]. apply (NoDup_lookup _ _ _ (key f) Hnd); rewrite list_lookup_fmap; [by rewrite Hi|by rewrite Hj, E].
Qed.

(** The map of a tenant's rows and the join on the key find the same row. *)
Lemma tenant_map_row {V} fs t (rows : list (tenant_row V)) f : NoDup (key <$> fs) → rows_ok fs rows → f ∈ fs →
  tenant_map fs t rows !! id f = find_row fs (key f) t rows.
Proof.
  intros Hkeys [Hfk Hnd] Hf. unfold tenant_map. set (p := λ r : tenant_row V, _).
  rewrite foldl_insert_find, lookup_empty.
  - rewrite find_of_filter.
    assert (List.find (λ r, p r && String.eqb (flagId r) (id f)) rows = find_row fs (key f) t rows) as ->;
      [|by destruct (find_row _ _ _ _)].
    apply find_ext. intros r Hr. apply eq_iff_eq_true. unfold p. rewrite row_of_true, !andb_true_iff, !String.eqb_eq, existsb_elem. split.
    + intros [[-> _] Hi]. split; [done|]. by exists f.
    + intros (-> & g & Hg & Hi & Hk). assert (g = f) as -> by (by apply (key_unique fs)).
      split_and!; [done| |done]. exists f. split; [done|]. by apply String.eqb_eq.
  - apply (NoDup_fmap_filter _ p) in Hnd. clear -Hnd. assert (∀ r, r ∈ List.filter p rows → tenantId r = t) as Ht.
    { intros r Hr. apply list_elem_of_In in Hr. apply filter_In in Hr as [_ Hp]. unfold p in Hp.
      apply andb_true_iff in Hp as [Hp%String.eqb_eq _]. done. }
    induction (List.filter p rows) as [|r l IH]; [constructor|]. apply NoDup_cons in Hnd as [Hn Hl]. apply NoDup_cons.
    split; [|apply IH; [done|intros; apply Ht; by right]]. intros (r' & E & Hr')%list_elem_of_fmap. apply Hn, list_elem_of_fmap.
    exists r'. split; [|done]. rewrite E, (Ht r), (Ht r'); [done|by right|by left].
Qed.

(** ** Rollouts *)

(** Raising the percentage never takes a flag away from an entity. *)
Lemma rollout_monotone sha256 p q entity k : p ≤ q →
  computeRolloutBucket sha256 p entity k = true → computeRolloutBucket sha256 q entity k = true.
Proof.
  unfold computeRolloutBucket, ROLLOUT_PERCENT_MAX, ROLLOUT_PERCENT_MIN. intros Hpq.
  destruct (Z.leb_spec 100 q); [done|]. destruct (Z.leb_spec 100 p); [lia|]. destruct (Z.leb_spec p 0); [done|].
  destruct (Z.leb_spec q 0); [lia|]. destruct (parseInt _ 16); [|done]. rewrite !Z.ltb_lt. lia.
Qed.

(** ** Instances that share a database *)

(** [writers] are the instances that have made a mutating call, [past] the
    tables with the times at which they were current. *)
Record fleet := {
  clock : Z;
  common : shared;
  caches : gmap nat flag_cache;
  writers : list nat;
  past : list (Z * flag_tables)
}.

Definition cache_of (w : fleet) (i : nat) : flag_cache := default ∅ (caches w !! i).

Section Fleet.
Context (sha256 : string → string) (by_key : list FeatureFlag → list FeatureFlag).

(** A call of an instance; the flag tells whether it may mutate the tables. *)
Inductive call (now : Z) (s : shared) (c : flag_cache) : bool → shared → flag_cache → Prop :=
| call_isEnabled k t u : flagKeySchema k = true → call now s c false s (isEnabled sha256 by_key now (tables s) k t u c).1
| call_get q : request_ok q → call now s c false s (through by_key now (tables s) q c).1
| call_list t : call now s c false s (listFlagsWithOverrides sha256 by_key now (tables s) t c).1
| call_sweep : call now s c false s (sweepExpiredCacheEntries now c).1
| call_create newId up k desc def p a s' c' r : createFlag now newId up k desc def p a s c = (s', c', r) → call now s c true s' c'
| call_update up k u a s' c' r : updateFlag now up k u a s c = (s', c', r) → call now s c true s' c'
| call_setOverride newId up k t b a s' c' r : flagKeySchema k = true →
    setOverride by_key now newId up k t b a s c = (s', c', r) → call now s c true s' c'
| call_removeOverride up k t a s' c' r : removeOverride up k t a s c = (s', c', r) → call now s c true s' c'
| call_setRollout newId up k t p a s' c' r : flagKeySchema k = true →
    setTenantRollout by_key now newId up k t p a s c = (s', c', r) → call now s c true s' c'
| call_removeRollout up k t a s' c' r : removeTenantRollout up k t a s c = (s', c', r) → call now s c true s' c'.

Inductive fstep (w : fleet) : fleet → Prop :=
| f_tick t : clock w ≤ t →
    fstep w {| clock := t; common := common w; caches := caches w; writers := writers w; past := past w |}
| f_call i m s' c' : call (clock w) (common w) (cache_of w i) m s' c' →
    fstep w {| clock := clock w; common := s'; caches := <[i := c']> (caches w);
               writers := if m then i :: writers w else writers w;
               past := (clock w, tables s') :: (clock w, tables (common w)) :: past w |}.

Definition no_flags : flag_tables := {| flags := []; overrides := []; rollouts := [] |}.
Definition new_fleet (t0 : Z) : fleet :=
  {| clock := t0; common := {| tables := no_flags; outbox := []; trail := [] |}; caches := ∅; writers := []; past := [] |}.

Definition freachable (w : fleet) : Prop := ∃ t0, rtc fstep (new_fleet t0) w.

(** Tables that were current at a time from which an entry has its expiry. *)
Definition seen (past : list (Z * flag_tables)) (now : Z) (d : flag_tables) (e : CacheEntry) : Prop :=
  ∃ t, (t, d) ∈ past ∧ t ≤ now ∧ expiresAt e = t + FLAG_CACHE_TTL_MS.

Definition fleet_ok (w : fleet) : Prop :=
  tables_ok (tables (common w)) ∧
  (∀ i, entries (answers by_key (seen (past w) (clock w))) (cache_of w i)) ∧
  (∀ i, (∀ j, j ∈ writers w → j = i) → coherent by_key (tables (common w)) (cache_of w i)).

Lemma isEnabled_sound now d k t u c : flagKeySchema k = true → sound by_key now d c d (isEnabled sha256 by_key now d k t u c).1.
Proof.
  intros Hk. assert (∀ R, (∀ q, R d (entry_now by_key now d q)) → entries (answers by_key R) c →
    entries (answers by_key R) (isEnabled sha256 by_key now d k t u c).1) as H.
  { intros R HR Hc. pose proof (isEnabled_evaluates sha256 by_key R now d k t u c Hk HR Hc) as He.
    destruct (isEnabled _ _ _ _ _ _ _ _). apply He. }
  split; [done|done|]. intros _ Hc. by apply H.
Qed.

Lemma call_sound now s c m s' c' : call now s c m s' c' → sound by_key now (tables s) c (tables s') c' ∧ (m = false → s' = s).
Proof.
  intros []; (split; [|done]).
  - by apply isEnabled_sound.
  - by apply sound_through.
  - unfold listFlagsWithOverrides, listFlags. pose proof (sound_through by_key now (tables s) QList c I).
    by destruct (through _ _ _ _ _).
  - split; [done| |]; intros; by apply entries_sweep.
  - pose proof (createFlag_sound by_key now newId up k desc def p a s c) as Hs. by rewrite H in Hs.
  - pose proof (updateFlag_sound by_key now up k u a s c) as Hs. by rewrite H in Hs.
  - pose proof (setOverride_sound by_key now newId up k t b a s c H) as Hs. by rewrite H0 in Hs.
  - pose proof (removeOverride_sound by_key now up k t a s c) as Hs. by rewrite H in Hs.
  - pose proof (setTenantRollout_sound by_key now newId up k t p a s c H) as Hs. by rewrite H0 in Hs.
  - pose proof (removeTenantRollout_sound by_key now up k t a s c) as Hs. by rewrite H in Hs.
Qed.

Lemma cache_of_insert w i j c s wr p t : 
  cache_of {| clock := t; common := s; caches := <[i := c]> (caches w); writers := wr; past := p |} j =
    if decide (i = j) then c else cache_of w j.
Proof. unfold cache_of. simpl. case_decide; subst; [by rewrite lookup_insert_eq|by rewrite lookup_insert_ne]. Qed.

Lemma fstep_ok w w' : fleet_ok w → fstep w w' → fleet_ok w'.
Proof.
  intros (Ht & He & Hc) [t Hle|i m s' c' Hcall].
  - split_and!; [done| |done]. intros i. eapply entries_mono; [|apply He].
    intros q e (d & (t' & Hin & Hle' & Hx) & Hv). exists d. split; [|done]. exists t'. split_and!; [done|simpl; lia|done].
  - apply call_sound in Hcall as [[H1 H2 H3] Hread].
    assert (∀ c0, entries (answers by_key (seen (past w) (clock w))) c0 → entries (answers by_key
      (seen ((clock w, tables s') :: (clock w, tables (common w)) :: past w) (clock w))) c0) as Hmore.
    { intros c0. apply entries_mono. intros q e (d & (t' & Hin & ?) & Hv). exists d. split; [|done]. exists t'. split; [set_solver|done]. }
    split_and!; [by apply H1| |].
    + intros j. rewrite cache_of_insert. simpl. case_decide; [subst j|by apply Hmore, He]. apply H2; [|by apply Hmore, He].
      intros q. exists (clock w). split_and!; [set_solver|lia|done].
    + intros j Hj. rewrite cache_of_insert. simpl in *. destruct m.
      * assert (i = j) as <- by (apply Hj; left). rewrite decide_True by done. apply H3; [done|]. apply Hc.
        intros j' Hj'. apply Hj. by right.
      * rewrite (Hread eq_refl) in *. case_decide; [subst j|by apply Hc]. apply H3; [done|by apply Hc].
Qed.

Lemma freachable_ok w : freachable w → fleet_ok w.
Proof.
  intros [t0 H]. assert (fleet_ok (new_fleet t0)) as H0.
  { split_and!.
    - unfold tables_ok, rows_ok. simpl. split_and!; try apply NoDup_nil_2; intros ? []%not_elem_of_nil.
    - intros i k e He. by unfold cache_of in He; simpl in He; rewrite lookup_empty in He.
    - intros i _ k e He. by unfold cache_of in He; simpl in He; rewrite lookup_empty in He. }
  induction H; eauto using fstep_ok.
Qed.

(** The tables were current at some time within the lifetime of the cache. *)
Definition recent (w : fleet) (d : flag_tables) : Prop :=
  ∃ t, (t, d) ∈ (clock w, tables (common w)) :: past w ∧ clock w - FLAG_CACHE_TTL_MS ≤ t ≤ clock w.

(** In every run of instances that share the database: [isEnabled] evaluates,
    in the documented order, an override, a flag and a rollout that the tables
    held at most 30 seconds ago, and those they hold now when no other instance
    has made a mutating call; and then the listing for a tenant shows every flag
    with the value [isEnabled] has for that tenant. *)
Theorem flag_evaluation_fresh w i k t u : freachable w → flagKeySchema k = true → (∀ l, by_key l ≡ₚ l) →
  let d := tables (common w) in
  let b := (isEnabled sha256 by_key (clock w) d k t u (cache_of w i)).2 in
  let listing := (listFlagsWithOverrides sha256 by_key (clock w) d t (cache_of w i)).2 in
  (∃ d1 d2 d3, recent w d1 ∧ recent w d2 ∧ recent w d3 ∧
     b = evaluation sha256 (override_of d1 k t) (flag_of d2 k) (rollout_of d3 k t) k (default t u)) ∧
  ((∀ j, j ∈ writers w → j = i) →
     b = evaluation sha256 (override_of d k t) (flag_of d k) (rollout_of d k t) k (default t u) ∧
     (flag <$> listing) ≡ₚ flags d ∧
     ∀ x, x ∈ listing → effectiveEnabled x =
       evaluation sha256 (override_of d (key (flag x)) t) (flag_of d (key (flag x))) (rollout_of d (key (flag x)) t) (key (flag x)) t).
Proof.
  intros (Ht & He & Hc)%freachable_ok Hk Hperm d b listing. split.
  - pose proof (isEnabled_evaluates sha256 by_key (seen ((clock w, d) :: past w) (clock w)) (clock w) d k t u (cache_of w i) Hk) as H.
    unfold b. destruct (isEnabled _ _ _ _ _ _ _ _) as [c' b']. destruct H as [_ (d1 & d2 & d3 & e1 & e2 & e3 & R1 & R2 & R3 & L1 & L2 & L3 & ->)].
    + intros q. exists (clock w). split_and!; [left|lia|done].
    + eapply entries_mono; [|apply He]. intros q e (d0 & (t0 & ? & ?) & ?). exists d0. split; [|done]. exists t0. split; [by right|done].
    + exists d1, d2, d3. split_and!; [..|done].
      1: destruct R1 as (t1 & ? & ? & ?). 2: destruct R2 as (t1 & ? & ? & ?). 3: destruct R3 as (t1 & ? & ? & ?).
      all: exists t1; split; [done|lia].
  - intros Hw. specialize (Hc i Hw). split.
    + pose proof (isEnabled_evaluates sha256 by_key (λ d0 _, d0 = d) (clock w) d k t u (cache_of w i) Hk) as H.
      unfold b. destruct (isEnabled _ _ _ _ _ _ _ _) as [c' b'].
      by destruct H as [_ (d1 & d2 & d3 & e1 & e2 & e3 & -> & -> & -> & _ & _ & _ & ->)].
    + unfold listing, listFlagsWithOverrides, listFlags.
      pose proof (through_entries by_key (answers by_key (λ d0 _, d0 = d)) (clock w) d QList (cache_of w i) I) as H.
      destruct (through _ _ _ _ _) as [c' v]. destruct H as [_ (e & (d0 & -> & E) & _ & ->)]; [by exists d|done|].
      rewrite E. simpl. rewrite <- list_fmap_compose. split.
      * erewrite list_fmap_ext; [rewrite list_fmap_id; apply Hperm|done].
      * intros x (f & -> & Hf)%list_elem_of_fmap. simpl. rewrite Hperm in Hf. destruct Ht as (_ & Hkeys & Ho & Hr).
        rewrite !tenant_map_row by done. unfold override_of, rollout_of, evaluation.
        assert (flag_of d (key f) = Some f) as ->;
          [|by destruct (find_row (flags d) (key f) t (overrides d)), (find_row (flags d) (key f) t (rollouts d))].
        unfold flag_of. destruct (List.find _ _) as [g|] eqn:Eg.
        -- apply find_Some in Eg as [Hg Hx%String.eqb_eq]. f_equal. by apply (key_unique (flags d)).
        -- pose proof (List.find_none _ _ Eg f (proj1 (list_elem_of_In _ _) Hf)) as Hx. simpl in Hx. by rewrite String.eqb_refl in Hx.
Qed.
End Fleet.

(** ** Limits *)

(** Keys outside the schema share cache entries with others. *)
Lemma colon_keys_collide : cacheKey (QOverride "a:b" "c") = cacheKey (QOverride "a" "b:c") ∧ flagKeySchema "a:b" = false.
Proof. by vm_compute. Qed.

(** A read that selected its row before an update of the same instance, and
    stores it after the update has invalidated the cache, brings the old flag
    back for the lifetime of an entry. *)
Lemma late_store_outlives_update by_key now up k u a s c s' c' f f' later :
  flag_of (tables s) k = Some f → updateFlag now up k u a s c = (s', c', Ok f') → later ≤ now + FLAG_CACHE_TTL_MS →
  flag_of (tables s') k = Some f' ∧
  (getFlag by_key later (tables s') k (cacheSet now (cacheKey (QFlag k)) (answer by_key (tables s) (QFlag k)) c')).2 = Some f.
Proof.
  intros Hf Hu Hl. split.
  - unfold updateFlag in Hu. destruct (match u_rolloutPercent u with Some _ => _ | None => _ end); [done|].
    destruct (negb _); [done|]. unfold update_flag in Hu. unfold flag_of in *. rewrite Hf in Hu. simpl in Hu.
    injection Hu as <- _ <-. simpl. rewrite event_tables. simpl. clear -Hf.
    induction (flags (tables s)) as [|g l IH]; simpl in *; [done|]. destruct (String.eqb_spec (key g) k) as [E|E]; simpl.
    + injection Hf as ->. by rewrite (proj2 (String.eqb_eq _ _) E).
    + rewrite (proj2 (String.eqb_neq _ _) E). auto.
  - unfold getFlag, through, cacheGet, cacheSet. rewrite lookup_insert_eq. simpl.
    destruct (Z.ltb_spec (now + FLAG_CACHE_TTL_MS) later); [lia|]. done.
Qed.

(** ** Examples *)

Module FlagExample.

Definition sha (s : string) : string := "00000032".
Definition in_order (l : list FeatureFlag) : list FeatureFlag := l.
Definition ops : ActorInfo := {| a_id := "u1"; email := "ops@credence"; a_tenantId := "credence"; ipAddress := None |}.

(** Instance 0 creates a flag at half rollout and gives a tenant 60 percent. *)
Definition s0 : shared := common (new_fleet 0).
Definition created := createFlag 0 "f1" true "beta" EmptyString false 50 ops s0 ∅.
Definition rolled := setTenantRollout in_order 0 "r1" true "beta" "acme" 60 ops created.1.1 created.1.2.

Definition w1 : fleet :=
  {| clock := 0; common := created.1.1; caches := <[0%nat := created.1.2]> ∅; writers := [0%nat];
     past := [(0, tables created.1.1); (0, no_flags)] |}.
Definition w2 : fleet :=
  {| clock := 0; common := rolled.1.1; caches := <[0%nat := rolled.1.2]> (caches w1); writers := [0%nat; 0%nat];
     past := (0, tables rolled.1.1) :: (0, tables created.1.1) :: past w1 |}.

Lemma w2_reachable : freachable sha in_order w2.
Proof.
  exists 0. eapply rtc_l; [|eapply rtc_l; [|apply rtc_refl]].
  - apply (f_call sha in_order (new_fleet 0) 0 true created.1.1 created.1.2).
    by apply (call_create _ _ _ _ _ "f1" true "beta" EmptyString false 50 ops _ _ created.2).
  - apply (f_call sha in_order w1 0 true rolled.1.1 rolled.1.2).
    by apply (call_setRollout _ _ _ _ _ "r1" true "beta" "acme" 60 ops _ _ rolled.2).
Qed.

End FlagExample.

(** The hash puts every entity in bucket 50: outside half of the users, inside
    the tenant's 60 percent. *)
Lemma flag_evaluation_fresh_witness :
  let w := FlagExample.w2 in
  evaluation FlagExample.sha (override_of (tables (common w)) "beta" "acme") (flag_of (tables (common w)) "beta")
    (rollout_of (tables (common w)) "beta" "acme") "beta" "u7" = true ∧
  (isEnabled FlagExample.sha FlagExample.in_order 0 (tables (common w)) "beta" "acme" (Some "u7") (cache_of w 0)).2 = true ∧
  (isEnabled FlagExample.sha FlagExample.in_order 0 (tables (common w)) "beta" "other" (Some "u7") (cache_of w 0)).2 = false.
Proof.
  intros w. split; [vm_compute; reflexivity|].
  destruct (flag_evaluation_fresh FlagExample.sha FlagExample.in_order w 0 "beta" "acme" (Some "u7") FlagExample.w2_reachable
    ltac:(vm_compute; reflexivity) (λ l, Permutation_refl l)) as [_ H].
  destruct (flag_evaluation_fresh FlagExample.sha FlagExample.in_order w 0 "beta" "other" (Some "u7") FlagExample.w2_reachable
    ltac:(vm_compute; reflexivity) (λ l, Permutation_refl l)) as [_ H2].
  assert (∀ j, j ∈ writers w → j = 0%nat) as Hw by (intros j; simpl; set_solver).
  destruct (H Hw) as [E _]. destruct (H2 Hw) as [E2 _]. split; [exact E|exact E2].
Defined.
