(* ===== verification/Currency.v ===== *)
(** * The currency whitelist

    [services/currency/whitelist.ts]: codes are normalised, only administrators
    change the set, and every change is written to the audit log. A [Set] is
    the list of its members in insertion order. *)

From stdpp Require Import base option list sets strings relations.
From Stdlib Require Import ZArith Lia Ascii.
From S2P Require Import Prelude JsLib.

Open Scope Z_scope.

(** ** Codes *)

(** [toUpperCase] on the code units below 256, as the code points it gives:
    sharp s becomes two letters, and the micro sign and y with diaeresis leave
    the range. *)
Definition upper_points (c : ascii) : list Z :=
  let n := code c in
  if (97 <=? n) && (n <=? 122) then [n - 32]
  else if n =? 223 then [83; 83]
  else if n =? 181 then [924]
  else if n =? 255 then [376]
  else if (224 <=? n) && negb (n =? 247) then [n - 32]
  else [n].

Fixpoint upper_case (s : string) : list Z :=
  match s with
  | EmptyString => []
  | String c s' => upper_points c ++ upper_case s'
  end.

Definition is_capital (n : Z) : bool := (65 <=? n) && (n <=? 90).

(** [ISO_4217_CODE]. *)
Definition ISO_4217_CODE (s : list Z) : bool := (Z.of_nat (length s) =? 3) && forallb is_capital s.

Fixpoint text_of (s : list Z) : string :=
  match s with [] => EmptyString | n :: s' => String (ascii_of_N (Z.to_N n)) (text_of s') end.

Inductive whitelist_error := InvalidCode (currency : string) | Unauthorized | Forbidden (role : string).

#[export] Instance whitelist_error_eq_dec : EqDecision whitelist_error.
Proof. solve_decision. Defined.

Definition normalize_currency_code (currency : string) : result whitelist_error string :=
  let normalised := upper_case (trim currency) in
  if ISO_4217_CODE normalised then Ok (text_of normalised) else Err (InvalidCode currency).

(** ** The whitelist *)

Record AdminContext := { userId : string; role : string }.

Definition ADMIN_ROLES : list string := ["admin"; "super-admin"].

Definition assertAdmin (ctx : option AdminContext) : result whitelist_error AdminContext :=
  match ctx with
  | None => Err Unauthorized
  | Some c => if bool_decide (role c ∈ ADMIN_ROLES) then Ok c else Err (Forbidden (role c))
  end.

(** The details of an audit entry. *)
Inductive mutation :=
| AddOp (assetCode : string) (wasPresent : bool)
| RemoveOp (assetCode : string) (wasPresent : bool)
| SetOp (before after : list string)
| ClearOp (before : list string).

Record whitelist := { codes : list string; audit : list (string * mutation) }.

(** [Set.prototype.add] and [delete]. *)
Definition add_code (c : string) (s : list string) : list string := if bool_decide (c ∈ s) then s else s ++ [c].
Definition drop_code (c : string) (s : list string) : list string := filter (λ x, x ≠ c) s.

Fixpoint map_codes (l : list string) : result whitelist_error (list string) :=
  match l with
  | [] => Ok []
  | c :: l' => n ← normalize_currency_code c; ns ← map_codes l'; Ok (n :: ns)
  end.

Definition new_CurrencyWhitelist (initial : list string) : result whitelist_error whitelist :=
  ns ← map_codes initial; Ok {| codes := foldl (λ s c, add_code c s) [] ns; audit := [] |}.

Definition is_allowed_currency (currency : string) (w : whitelist) : result whitelist_error bool :=
  n ← normalize_currency_code currency; Ok (bool_decide (n ∈ codes w)).

Definition snapshot (w : whitelist) : list string := codes w.

Definition size (w : whitelist) : Z := Z.of_nat (length (codes w)).

Definition logged (ctx : AdminContext) (m : mutation) (s : list string) (w : whitelist) : whitelist :=
  {| codes := s; audit := audit w ++ [(userId ctx, m)] |}.

Definition add_currency (currency : string) (ctx : option AdminContext) (w : whitelist) : result whitelist_error whitelist :=
  a ← assertAdmin ctx; n ← normalize_currency_code currency;
  let wasPresent := bool_decide (n ∈ codes w) in
  Ok (logged a (AddOp n wasPresent) (if wasPresent then codes w else add_code n (codes w)) w).

Definition remove_currency (currency : string) (ctx : option AdminContext) (w : whitelist) : result whitelist_error whitelist :=
  a ← assertAdmin ctx; n ← normalize_currency_code currency;
  let wasPresent := bool_decide (n ∈ codes w) in
  Ok (logged a (RemoveOp n wasPresent) (if wasPresent then drop_code n (codes w) else codes w) w).

Definition set_currencies (currencies : list string) (ctx : option AdminContext) (w : whitelist) : result whitelist_error whitelist :=
  a ← assertAdmin ctx; ns ← map_codes currencies;
  let s := foldl (λ s c, add_code c s) [] ns in
  Ok (logged a (SetOp (codes w) s) s w).

Definition clear_currencies (ctx : option AdminContext) (w : whitelist) : result whitelist_error whitelist :=
  a ← assertAdmin ctx; Ok (logged a (ClearOp (codes w)) [] w).

(** [currencyWhitelist], the instance of the application. *)
Definition currencyWhitelist : result whitelist_error whitelist :=
  new_CurrencyWhitelist ["USD"; "EUR"; "GBP"; "CAD"; "AUD"; "CHF"; "JPY"; "KRW"; "MXN"; "BRL"; "SGD"; "HKD"; "SEK"; "NOK";
    "DKK"; "ZAR"; "INR"; "KWD"; "BHD"; "OMR"; "JOD"].

(** ** Properties *)

Inductive whitelist_call :=
| Add (currency : string)
| Remove (currency : string)
| SetAll (currencies : list string)
| Clear.

Definition run (c : whitelist_call) (ctx : option AdminContext) (w : whitelist) : result whitelist_error whitelist :=
  match c with
  | Add x => add_currency x ctx w
  | Remove x => remove_currency x ctx w
  | SetAll xs => set_currencies xs ctx w
  | Clear => clear_currencies ctx w
  end.

(** Calls one after the other; a call that throws changes nothing. *)
Fixpoint run_all (cs : list (whitelist_call * option AdminContext)) (w : whitelist) : whitelist :=
  match cs with
  | [] => w
  | (c, ctx) :: cs' => run_all cs' (match run c ctx w with Ok w' => w' | Err _ => w end)
  end.

(** The set that an audit log describes. *)
Definition replayed (m : mutation) (s : list string) : list string :=
  match m with
  | AddOp c _ => add_code c s
  | RemoveOp c _ => drop_code c s
  | SetOp _ after => after
  | ClearOp _ => []
  end.

Definition replay_all (s : list string) (log : list (string * mutation)) : list string :=
  foldl (λ s e, replayed e.2 s) s log.

(** Three capital letters. *)
Definition canonical (c : string) : Prop := slen c = 3 ∧ str_forallb (λ x, is_capital (code x)) c = true.

Lemma code_of_N n : 0 ≤ n < 256 → code (ascii_of_N (Z.to_N n)) = n.
Proof. intros H. unfold code. rewrite N_ascii_embedding by lia. lia. Qed.

Lemma normalize_canonical c n : normalize_currency_code c = Ok n → canonical n.
Proof.
  unfold normalize_currency_code. destruct (ISO_4217_CODE _) eqn:E; [|done]. intros [= <-].
  unfold ISO_4217_CODE in E. apply andb_true_iff in E as [Hl%Z.eqb_eq Hc].
  destruct (upper_case _) as [|x [|y [|z [|]]]]; simpl in Hl; try lia. simpl in Hc. rewrite !andb_true_iff in Hc.
  destruct Hc as (Hx & Hy & Hz & _). split; [done|]. simpl. unfold is_capital in *.
  rewrite !andb_true_iff, !Z.leb_le in *. rewrite !code_of_N by lia. lia.
Qed.

Lemma upper_capitals s : str_forallb (λ x, is_capital (code x)) s = true → text_of (upper_case s) = s ∧ forallb is_capital (upper_case s) = true ∧
  Z.of_nat (length (upper_case s)) = slen s.
Proof.
  induction s as [|c s IH]; simpl; [done|]. rewrite andb_true_iff. intros [Hc (H1 & H2 & H3)%IH].
  assert (upper_points c = [code c]) as ->.
  { unfold is_capital in Hc. apply andb_true_iff in Hc as [?%Z.leb_le ?%Z.leb_le]. unfold upper_points.
    repeat (case_match; breflect; [lia|]). done. }
  simpl. rewrite H1, H2, Hc, slen_cons, <- H3. split_and!; [|done|lia]. f_equal. unfold code. rewrite N2Z.id. apply ascii_N_embedding.
Qed.

(** A canonical code is its own normal form. *)
Lemma normalize_id c : canonical c → normalize_currency_code c = Ok c.
Proof.
  intros [Hl Hc]. unfold normalize_currency_code.
  assert (trim c = c) as ->.
  { unfold trim. destruct c as [|x [|y [|z [|]]]]; try (rewrite ?slen_cons in Hl; unfold slen in Hl; simpl in Hl; lia).
    assert (∀ x, is_capital (code x) = true → is_space x = false) as Hs.
    { intros a Ha. unfold is_capital in Ha. apply andb_true_iff in Ha as [?%Z.leb_le ?%Z.leb_le]. unfold is_space.
      repeat (apply orb_false_iff; split); apply Z.eqb_neq || (apply andb_false_iff; rewrite Z.leb_gt, Z.leb_gt); lia. }
    simpl in Hc. rewrite !andb_true_iff in Hc. destruct Hc as (Hx & Hy & Hz & _). simpl. rewrite (Hs x Hx). simpl.
    by rewrite (Hs z Hz). }
  destruct (upper_capitals c Hc) as (H1 & H2 & H3). unfold ISO_4217_CODE. by rewrite H2, H3, Hl, H1.
Qed.

Lemma elem_of_add x c s : x ∈ add_code c s ↔ x = c ∨ x ∈ s.
Proof. unfold add_code. case_bool_decide; set_solver. Qed.

Lemma elem_of_drop x c s : x ∈ drop_code c s ↔ x ≠ c ∧ x ∈ s.
Proof. unfold drop_code. by rewrite list_elem_of_filter. Qed.

Lemma drop_absent c s : c ∉ s → drop_code c s = s.
Proof. intros H. apply list_filter_id. intros x Hx ->. done. Qed.

(** A set of canonical codes. *)
Definition codes_ok (s : list string) : Prop := NoDup s ∧ Forall canonical s.

Lemma add_ok c s : canonical c → codes_ok s → codes_ok (add_code c s).
Proof.
  intros Hc [Hn Hs]. unfold add_code. case_bool_decide as E; [done|]. split.
  - apply NoDup_app. split_and!; [done|set_solver|apply NoDup_singleton].
  - apply Forall_app. split; [done|]. by apply Forall_singleton.
Qed.

Lemma adds_ok cs s : Forall canonical cs → codes_ok s → codes_ok (foldl (λ s c, add_code c s) s cs).
Proof. intros H. revert s. induction H; intros s Hs; simpl; [done|]. auto using add_ok. Qed.

Lemma map_codes_canonical l ns : map_codes l = Ok ns → Forall canonical ns.
Proof.
  revert ns. induction l as [|c l IH]; intros ns H; simpl in H; invert_result; [constructor|].
  constructor; [by eapply normalize_canonical|by apply IH].
Qed.

Lemma assertAdmin_Ok ctx a : assertAdmin ctx = Ok a → ctx = Some a ∧ role a ∈ ADMIN_ROLES.
Proof. destruct ctx as [c|]; simpl; [|done]. case_bool_decide; [|done]. by intros [= <-]. Qed.

(** A successful call logs one entry, which describes what it did to the set. *)
Lemma run_logged c ctx w w' : codes_ok (codes w) → run c ctx w = Ok w' →
  ∃ a m, ctx = Some a ∧ role a ∈ ADMIN_ROLES ∧ audit w' = audit w ++ [(userId a, m)] ∧ codes w' = replayed m (codes w) ∧ codes_ok (codes w').
Proof.
  intros Hok. destruct c; simpl; unfold add_currency, remove_currency, set_currencies, clear_currencies; intros H; invert_result;
    apply assertAdmin_Ok in H0 as [-> Hr]; eexists _, _; (split_and!; [done|done|done| |]); simpl.
  - unfold add_code. by case_bool_decide.
  - case_bool_decide; [done|]. apply add_ok; [by eapply normalize_canonical|done].
  - case_bool_decide; [done|]. by rewrite drop_absent.
  - case_bool_decide; [|done]. destruct Hok as [Hn Hc]. split; [by apply NoDup_filter|]. apply Forall_forall. intros y [_ Hy]%elem_of_drop.
    rewrite Forall_forall in Hc. auto.
  - done.
  - apply adds_ok; [by eapply map_codes_canonical|]. split; constructor.
  - done.
  - split; constructor.
Qed.

(** Over any calls on a whitelist: it stays a set of canonical codes; the audit
    log, replayed on the initial set, gives the current one; only
    administrators change it; and a code that was added is allowed in every
    spelling, one that was removed in none, the others as before. *)
Theorem whitelist_audited initial w0 cs : new_CurrencyWhitelist initial = Ok w0 →
  let w := run_all cs w0 in
  codes_ok (codes w) ∧ replay_all (codes w0) (audit w) = codes w ∧
  (∀ c ctx w', run c ctx w = Ok w' → ∃ a, ctx = Some a ∧ role a ∈ ADMIN_ROLES) ∧
  (∀ x y ctx w', run (Add x) ctx w = Ok w' → is_allowed_currency y w' =
     (if bool_decide (normalize_currency_code y = normalize_currency_code x) then Ok true else is_allowed_currency y w)) ∧
  (∀ x y ctx w', run (Remove x) ctx w = Ok w' → is_allowed_currency y w' =
     (if bool_decide (normalize_currency_code y = normalize_currency_code x) then Ok false else is_allowed_currency y w)).
Proof.
  intros H0. assert (codes_ok (codes w0) ∧ audit w0 = []) as [Hok0 Ha0].
  { unfold new_CurrencyWhitelist in H0. invert_result. split; [|done]. apply adds_ok; [by eapply map_codes_canonical|]. split; constructor. }
  assert (∀ w1, codes_ok (codes w1) → replay_all (codes w0) (audit w1) = codes w1 →
    codes_ok (codes (run_all cs w1)) ∧ replay_all (codes w0) (audit (run_all cs w1)) = codes (run_all cs w1)) as Hrun.
  { clear -w0. induction cs as [|[c ctx] cs IH]; intros w1 Hok Hr; simpl; [done|].
    destruct (run c ctx w1) as [w2|e] eqn:E; [|by apply IH].
    destruct (run_logged c ctx w1 w2 Hok E) as (a & m & _ & _ & Hl & Hc & Hok2). apply IH; [done|].
    rewrite Hl. unfold replay_all in *. by rewrite foldl_app, Hr. }
  destruct (Hrun w0 Hok0) as [Hok Hr]; [by rewrite Ha0|]. split_and!; [apply Hok..|exact Hr| | |].
  - intros c ctx w' (a & m & -> & Ha & _)%run_logged; [|done]. by exists a.
  - intros x y ctx w' H. unfold run, add_currency in H. invert_result. unfold is_allowed_currency.
    rewrite H2. destruct (normalize_currency_code y) as [n|e]; [|done]. cbn [mbind result_bind logged codes].
    destruct (bool_decide_reflect (Ok n = Ok x1 :> result whitelist_error string)) as [E|E]; f_equal; [injection E as ->|].
    + apply bool_decide_eq_true. case_bool_decide; [done|]. apply elem_of_add. by left.
    + apply bool_decide_ext. case_bool_decide; [done|]. rewrite elem_of_add. split; [intros [->|]; [congruence|done]|by right].
  - intros x y ctx w' H. unfold run, remove_currency in H. invert_result. unfold is_allowed_currency.
    rewrite H2. destruct (normalize_currency_code y) as [n|e]; [|done]. cbn [mbind result_bind logged codes].
    destruct (bool_decide_reflect (Ok n = Ok x1 :> result whitelist_error string)) as [E|E]; f_equal; [injection E as ->|].
    + apply bool_decide_eq_false. case_bool_decide; [|done]. rewrite elem_of_drop. by intros [? _].
    + apply bool_decide_ext. case_bool_decide; [|done]. rewrite elem_of_drop. split; [by intros [_ ?]|]. intros Hn. split; [congruence|done].
Qed.

Lemma whitelist_audited_witness : ∃ w0, currencyWhitelist = Ok w0 ∧
  let w := run_all [(Add "pln", Some {| userId := "u"; role := "admin" |}); (Add "pln", None)] w0 in
  size w = 22 ∧ is_allowed_currency " Pln" w = Ok true ∧ replay_all (codes w0) (audit w) = codes w.
Proof.
  destruct currencyWhitelist as [w0|e] eqn:E; [|vm_compute in E; discriminate E]. exists w0. split; [done|]. cbv zeta.
  unfold currencyWhitelist in E. destruct (whitelist_audited _ w0 [(Add "pln", Some {| userId := "u"; role := "admin" |}); (Add "pln", None)] E)
    as (_ & Hr & _). split; [|split]; [| |exact Hr]; vm_compute in E; injection E as <-; vm_compute; reflexivity.
Defined.

(** A text that is not three letters long passes: sharp s counts as two. *)
Lemma sharp_s_accepted : normalize_currency_code (String (ascii_of_N 223) "D") = Ok "SSD".
Proof. reflexivity. Qed.
