(* ===== verification/Redaction.v ===== *)
(** * Log redaction

    [observability/redaction.ts] with the schemas of
    [observability/logSchemas.ts], and the message format and identifiers of
    [utils/logger.ts]. A logged value is a graph of JavaScript objects, possibly
    shared or circular: values refer to nodes of a heap by their addresses, and
    the set of addresses seen is threaded through the recursion as the code
    threads its [WeakSet]. The result is a tree. *)

From stdpp Require Import base option list sets strings gmap.
From Stdlib Require Import ZArith Lia Ascii.
From S2P Require Import Prelude JsLib.

Open Scope Z_scope.

(** ** Values *)

Inductive prim := JNull | JUndefined | JBool (b : bool) | JNumber (text : string) | JString (s : string).

Inductive value := VPrim (p : prim) | VRef (l : nat).

(** The kinds of object the code tells apart; a [Map] may have keys that are
    not strings, and an error has properties of its own beside its message. *)
Inductive node :=
| NDate (iso : string)
| NBuffer (bytes : list value)
| NArray (items : list value)
| NMap (entries : list (option string * value))
| NSet (items : list value)
| NError (message name : string) (stack : option string) (own : list (string * value))
| NObject (own : list (string * value)).

Abbreviation heap := (nat → node).

(** What redaction returns. *)
Inductive out := OPrim (p : prim) | OArray (l : list out) | OObject (l : list (string * out)).

Definition OStr (s : string) : out := OPrim (JString s).

Definition MAX_REDACTION_DEPTH : nat := 20.
Definition CIRCULAR_REF_MARKER : out := OStr "[Circular Reference]".
Definition DEPTH_EXCEEDED_MARKER : out := OStr "[Max Depth Exceeded]".
Definition REDACTED : out := OStr "[REDACTED]".

(** The own enumerable properties, in the order of [for ... in]. *)
Definition own_props (n : node) : list (string * value) :=
  match n with
  | NBuffer l | NArray l => imap (λ i v, (bigint_toString (Z.of_nat i), v)) l
  | NError _ _ _ ps | NObject ps => ps
  | NDate _ | NMap _ | NSet _ => []
  end.

(** [plain[key] = value] for the string keys of a [Map]. *)
Definition plain_of (es : list (option string * value)) : list (string * value) :=
  omap (λ e, k ← e.1; Some (k, e.2)) es.

(** ** Schemas *)

Inductive schema_type := Ty_string | Ty_number | Ty_boolean | Ty_object | Ty_array | Ty_any.

#[export] Instance schema_type_eq_dec : EqDecision schema_type.
Proof. solve_decision. Defined.

Inductive FieldSchema :=
  Field (ty : schema_type) (allowed : option bool) (nested : option (list (string * FieldSchema))) (items : option FieldSchema).

Abbreviation schema := (list (string * FieldSchema)).

Definition ty_of (f : FieldSchema) : schema_type := let 'Field t _ _ _ := f in t.
Definition allowed_of (f : FieldSchema) : option bool := let 'Field _ a _ _ := f in a.
Definition nested_of (f : FieldSchema) : option schema := let 'Field _ _ n _ := f in n.
Definition items_of (f : FieldSchema) : option FieldSchema := let 'Field _ _ _ i := f in i.

Definition denied (f : FieldSchema) : bool := match allowed_of f with Some false => true | _ => false end.

Definition text : FieldSchema := Field Ty_string None None None.
Definition num : FieldSchema := Field Ty_number None None None.
Definition bool_ : FieldSchema := Field Ty_boolean None None None.
Definition any_ : FieldSchema := Field Ty_any None None None.
Definition nested (fs : schema) : FieldSchema := Field Ty_object None (Some fs) None.

(** [LogEventType]: the names of the events. *)
Definition getRegisteredEventTypes : list string :=
  [
    "outbox-publisher:starting"; "outbox-publisher:published-event"; "outbox-publisher:failed-publish";
    "outbox-publisher:event-quarantined"; "outbox-publisher:cleaned-up"; "outbox-publisher:lease-renewed";
    "webhook-delivery:retry"; "webhook-delivery:exhausted"; "soroban:retry"; "horizon-listener:started";
    "horizon-listener:event"; "horizon-listener:error"; "stellar:tx-submitted"; "stellar:tx-failed";
    "http:request"; "http:error"; "idempotency:replay"; "idempotency:mismatch"; "idempotency:not-cached";
    "auth:login"; "auth:failure"; "audit-chain:verification"; "audit:log-recorded"; "db:slow-query";
    "generic:info"; "generic:error"; "generic:warn"; "generic:debug"].

Definition LOG_SCHEMAS : list (string * schema) :=
  [
    ("outbox-publisher:starting", [("message", text); ("config", nested [("consumerId", text); ("leaseSeconds", num);
    ("pollIntervalMs", num); ("cleanupIntervalMs", num); ("batchSize", num); ("tableName", text);
    ("metricsIntervalMs", num); ("maxPayloadBytes", num); ("cleanup", nested [("retentionDays", num);
    ("publishedRetentionDays", num); ("failedRetentionDays", num)])])]);
  ("outbox-publisher:published-event", [("message", text)]);
  ("outbox-publisher:failed-publish", [("message", text); ("error", text)]);
  ("outbox-publisher:event-quarantined", [("message", text); ("eventType", text); ("reason", text); ("error", text)]);
  ("outbox-publisher:cleaned-up", [("message", text)]);
  ("outbox-publisher:lease-renewed", [("message", text); ("renewed", num)]);
    ("webhook-delivery:retry", [("message", text); ("provider", text); ("attempt", num); ("delayMs", num);
    ("webhookId", text); ("error", text)]);
  ("webhook-delivery:exhausted", [("message", text); ("provider", text); ("attempts", num); ("errorCode", text)]);
    ("soroban:retry", [("message", text); ("provider", text); ("attempt", num); ("maxAttempts", num); ("delayMs",
    num); ("code", text)]);
  ("horizon-listener:started", [("message", text); ("cursor", text); ("network", text)]);
    ("horizon-listener:event", [("message", text); ("ledger", num); ("operationType", text); ("transactionHash",
    text)]);
  ("horizon-listener:error", [("message", text); ("error", text); ("cursor", text)]);
  ("stellar:tx-submitted", [("message", text); ("transactionHash", text); ("ledger", num); ("network", text)]);
  ("stellar:tx-failed", [("message", text); ("transactionHash", text); ("error", text); ("resultCode", text)]);
    ("http:request", [("message", text); ("method", text); ("path", text); ("route", text); ("statusCode", num);
    ("durationMs", num); ("requestId", text); ("tenant", text); ("actor", text); ("correlationId", text)]);
    ("http:error", [("message", text); ("method", text); ("path", text); ("route", text); ("statusCode", num);
    ("error", text); ("stack", text); ("requestId", text); ("tenant", text); ("actor", text); ("correlationId",
    text)]);
    ("idempotency:replay", [("message", text); ("correlationId", text); ("requestId", text); ("tenantId", text);
    ("actorId", text); ("route", text); ("key", text); ("statusCode", num)]);
    ("idempotency:mismatch", [("message", text); ("correlationId", text); ("requestId", text); ("tenantId", text);
    ("actorId", text); ("route", text); ("key", text); ("storedActorId", text); ("requestActorId", text);
    ("storedPayloadHash", text); ("requestPayloadHash", text)]);
    ("idempotency:not-cached", [("message", text); ("correlationId", text); ("requestId", text); ("tenantId", text);
    ("actorId", text); ("route", text); ("key", text); ("status", num)]);
  ("auth:login", [("message", text); ("method", text); ("success", bool_)]);
  ("auth:failure", [("message", text); ("method", text); ("reason", text)]);
    ("audit-chain:verification", [("valid", bool_); ("rowsChecked", num); ("violationCount", num); ("lastCheckedSeq",
    num); ("firstViolationSeq", num); ("checkedAt", text)]);
    ("audit:log-recorded", [("tenantId", text); ("action", text); ("resourceType", text); ("status", text);
    ("requestId", text)]);
    ("db:slow-query", [("message", text); ("query", text); ("durationMs", num); ("thresholdMs", num); ("pool", text);
    ("plan", text)]);
  ("generic:info", [("message", any_)]);
  ("generic:error", [("message", any_); ("error", text); ("stack", text)]);
  ("generic:warn", [("message", any_)]);
  ("generic:debug", [("message", any_)])].

Definition STELLAR_SENSITIVE_FIELDS : list string :=
  [
    "memo"; "memovalue"; "memodata"; "memo_hash"; "memo_return"; "memo_id"; "memotext"; "memotype";
    "memo_type"].

Definition PII_PATTERNS : list string :=
  [
    "password"; "secret"; "token"; "authorization"; "authtoken"; "auth_token"; "cookie"; "cookies"; "email";
    "emailaddress"; "email_address"; "ssn"; "social_security_number"; "socialsecuritynumber"; "api_key";
    "apikey"; "client_secret"; "clientsecret"; "private_key"; "privatekey"; "publickey"; "public_key"; "jti";
    "sub"; "user_id"; "userid"; "account_id"; "accountid"; "phone"; "phonenumber"; "phone_number";
    "creditcard"; "credit_card"; "ccv"; "cvv"; "bankaccount"; "bank_account"; "routingnumber";
    "routing_number"; "accesstoken"; "access_token"; "refreshtoken"; "refresh_token"; "idtoken"; "id_token";
    "secretkey"; "secret_key"; "signingkey"; "signing_key"; "encryptionkey"; "encryption_key"; "bearer";
    "credential"; "credentials"; "pin"; "passcode"; "dateofbirth"; "date_of_birth"; "dob"; "nationalid";
    "national_id"; "taxid"; "tax_id"; "driverslicense"; "drivers_license"; "passportnumber";
    "passport_number"].

Definition GENERIC_INFO : schema := [("message", any_)].
Definition GENERIC_ERROR : schema := [("message", any_); ("error", text); ("stack", text)].

(** Names inherited from [Object.prototype] are not event types. *)
Definition getSchemaForEventType (eventType : string) : schema :=
  match jm_get eventType LOG_SCHEMAS with
  | Some s => s
  | None => if includes eventType "error" then GENERIC_ERROR else GENERIC_INFO
  end.

(** ** Redaction *)

Definition shouldRedactField (fieldName : string) : bool :=
  let lowerName := toLowerCase fieldName in
  bool_decide (lowerName ∈ PII_PATTERNS) || bool_decide (lowerName ∈ STELLAR_SENSITIVE_FIELDS).

Definition isPIIField : string → bool := shouldRedactField.

Abbreviation seen_set := (gset nat).

(** [items.map(f)], with the set of seen objects. *)
Fixpoint map_seen {A B} (f : A → seen_set → seen_set * B) (l : list A) (seen : seen_set) : seen_set * list B :=
  match l with
  | [] => (seen, [])
  | x :: l' =>
      let '(s1, y) := f x seen in
      let '(s2, ys) := map_seen f l' s1 in
      (s2, y :: ys)
  end.

(** The loop of [redactObjectWithSchema] over the properties; [field] redacts
    the value of a property of the schema. *)
Fixpoint redactObjectWithSchema (field : value → FieldSchema → seen_set → seen_set * out) (s : schema)
    (props : list (string * value)) (seen : seen_set) : seen_set * list (string * out) :=
  match props with
  | [] => (seen, [])
  | (key, v) :: props' =>
      if shouldRedactField key then
        let '(s1, rest) := redactObjectWithSchema field s props' seen in (s1, (key, REDACTED) :: rest)
      else
        match jm_get key s with
        | Some f =>
            if denied f then redactObjectWithSchema field s props' seen
            else
              let '(s1, o) := field v f seen in
              let '(s2, rest) := redactObjectWithSchema field s props' s1 in
              (s2, (key, o) :: rest)
        | None => redactObjectWithSchema field s props' seen
        end
  end.

Section Redaction.
Context (h : heap).

(** [room] is [MAX_REDACTION_DEPTH - depth]. *)
Fixpoint redactAnyObject (room : nat) (v : value) (seen : seen_set) : seen_set * out :=
  match v with
  | VPrim p => (seen, OPrim p)
  | VRef l =>
      match room with
      | O => (seen, DEPTH_EXCEEDED_MARKER)
      | S r =>
          if bool_decide (l ∈ seen) then (seen, CIRCULAR_REF_MARKER)
          else
            let fields ps :=
              let '(s1, os) := map_seen (λ p s, if shouldRedactField p.1 then (s, (p.1, REDACTED))
                                                else let '(s', o) := redactAnyObject r p.2 s in (s', (p.1, o))) ps ({[l]} ∪ seen) in
              (s1, OObject os) in
            match h l with
            | NArray items => let '(s1, os) := map_seen (redactAnyObject r) items seen in (s1, OArray os)
            | NDate iso => (seen, OStr iso)
            | NBuffer _ => (seen, OStr "[Buffer]")
            | n => fields (own_props n)
            end
      end
  end.

(** An element of an array or set without a schema for its items; [field]
    redacts a nested array and [fields] never recurses, for want of a schema. *)
Definition redactItem (nested_array : bool) (field : value → seen_set → seen_set * out) (v : value) (seen : seen_set)
  : seen_set * out :=
  match v with
  | VPrim p => (seen, OPrim p)
  | VRef l =>
      let bare := (let '(s1, os) := redactObjectWithSchema (λ w _ s, (s, OPrim JNull)) [] (own_props (h l)) seen in (s1, OObject os)) in
      match h l with
      | NArray _ => if nested_array then field v seen else bare
      | _ => bare
      end
  end.

Fixpoint redactFieldValue (room : nat) (v : value) (f : FieldSchema) (seen : seen_set) : seen_set * out :=
  if denied f then (seen, REDACTED)
  else
    match v with
    | VPrim p => (seen, OPrim p)
    | VRef l =>
        match room with
        | O => (seen, DEPTH_EXCEEDED_MARKER)
        | S r =>
            if bool_decide (l ∈ seen) then (seen, CIRCULAR_REF_MARKER)
            else
              let seen1 := {[l]} ∪ seen in
              let object s ps :=
                let '(s1, os) := redactObjectWithSchema (redactFieldValue (Nat.pred r)) s ps seen1 in (s1, OObject os) in
              let elements nested_array items :=
                let '(s1, os) := match items_of f with
                                 | Some g => map_seen (λ w s, redactFieldValue r w g s) items seen1
                                 | None => map_seen (redactItem nested_array (λ w s, redactFieldValue r w f s)) items seen1
                                 end in (s1, OArray os) in
              match h l with
              | NDate iso => (seen1, OStr iso)
              | NBuffer _ => (seen1, OStr "[Buffer]")
              | NArray items => elements true items
              | NMap es => object (default [] (nested_of f)) (plain_of es)
              | NSet items => elements false items
              | n =>
                  if bool_decide (ty_of f = Ty_any) then redactAnyObject r v seen1
                  else match nested_of f with
                       | Some s => object s (own_props n)
                       | None => (seen1, OObject [])
                       end
              end
        end
    end.

Fixpoint redactInternal (room : nat) (s : schema) (v : value) (seen : seen_set) : seen_set * out :=
  match v with
  | VPrim p => (seen, OPrim p)
  | VRef l =>
      match room with
      | O => (seen, DEPTH_EXCEEDED_MARKER)
      | S r =>
          if bool_decide (l ∈ seen) then (seen, CIRCULAR_REF_MARKER)
          else
            let seen1 := {[l]} ∪ seen in
            let object ps := let '(s1, os) := redactObjectWithSchema (redactFieldValue r) s ps seen1 in (s1, OObject os) in
            let elements items := let '(s1, os) := map_seen (redactInternal r s) items seen1 in (s1, OArray os) in
            match h l with
            | NDate iso => (seen1, OStr iso)
            | NMap es => object (plain_of es)
            | NSet items => elements items
            | NArray items => elements items
            | NBuffer _ => (seen1, OStr "[Buffer]")
            | NError message name stack _ =>
                (seen1, OObject ([("message", OStr message); ("name", OStr name)] ++
                                 match stack with
                                 | Some t => if String.eqb t EmptyString then [] else [("stack", OStr t)]
                                 | None => []
                                 end))
            | NObject ps => object ps
            end
      end
  end.

Record RedactionContext := { eventType : option string; c_schema : option schema }.

Definition schema_for (c : option RedactionContext) : schema :=
  match c with
  | None => []
  | Some c =>
      match c_schema c with
      | Some s => s
      | None => match eventType c with
                | Some e => if String.eqb e EmptyString then [] else getSchemaForEventType e
                | None => []
                end
      end
  end.

Definition redact (v : value) (c : option RedactionContext) : out :=
  (redactInternal MAX_REDACTION_DEPTH (schema_for c) v ∅).2.

(** [redactLegacy] has no guard; [None] when it recurses deeper than [fuel]. *)
Fixpoint redactLegacy (fuel : nat) (v : value) : option out :=
  match v with
  | VPrim p => Some (OPrim p)
  | VRef l =>
      match fuel with
      | O => None
      | S fuel' =>
          match h l with
          | NArray items => OArray <$> mapM (redactLegacy fuel') items
          | n => OObject <$> mapM (λ p, if shouldRedactField p.1 then Some (p.1, REDACTED)
                                        else o ← redactLegacy fuel' p.2; Some (p.1, o)) (own_props n)
          end
      end
  end.

End Redaction.

(** ** Identifiers *)

Definition safe_id_char (c : ascii) : bool :=
  is_digit c || ((65 <=? code c) && (code c <=? 90)) || ((97 <=? code c) && (code c <=? 122)) ||
  (code c =? 46) || (code c =? 95) || (code c =? 58) || (code c =? 45).

Fixpoint str_filter (p : ascii → bool) (s : string) : string :=
  match s with
  | EmptyString => EmptyString
  | String c s' => if p c then String c (str_filter p s') else str_filter p s'
  end.

Definition MAX_ID_LENGTH : Z := 128.

Definition sanitizeCorrelationId (v : option string) : option string :=
  match v with
  | None => None
  | Some s => if String.eqb s EmptyString then None
              else let cleaned := sliceTo (str_filter safe_id_char s) MAX_ID_LENGTH in
                   if String.eqb cleaned EmptyString then None else Some cleaned
  end.

(** ** Secrets do not influence what is logged *)

(** Properties that agree but for the values under redacted names. *)
Definition props_agree (ps qs : list (string * value)) : Prop :=
  Forall2 (λ p q, p.1 = q.1 ∧ (shouldRedactField p.1 = false → p.2 = q.2)) ps qs.

Definition node_agree (n m : node) : Prop :=
  match n, m with
  | NObject ps, NObject qs => props_agree ps qs
  | NError a b c ps, NError a' b' c' qs => a = a' ∧ b = b' ∧ c = c' ∧ props_agree ps qs
  | NMap es, NMap fs =>
      Forall2 (λ e f, e.1 = f.1 ∧ (∀ k, e.1 = Some k → shouldRedactField k = false → e.2 = f.2)) es fs
  | _, _ => n = m
  end.

Lemma props_agree_refl ps : props_agree ps ps.
Proof. unfold props_agree. apply Forall_Forall2_diag, Forall_true. naive_solver. Qed.

Lemma own_props_agree n m : node_agree n m → props_agree (own_props n) (own_props m).
Proof. destruct n, m; simpl; intros H; simplify_eq; try apply props_agree_refl; try constructor; naive_solver. Qed.

Lemma plain_of_agree es fs : node_agree (NMap es) (NMap fs) → props_agree (plain_of es) (plain_of fs).
Proof.
  simpl. unfold props_agree, plain_of. induction 1 as [|[[k|] v] [k' w] es fs [Hk Hv] H IH]; simpl in *; [constructor| |]; subst k'; simpl.
  - constructor; [|done]. simpl. split; [done|]. by apply Hv.
  - done.
Qed.

Lemma map_seen_ext {A B} (f g : A → seen_set → seen_set * B) l seen : (∀ x s, x ∈ l → f x s = g x s) →
  map_seen f l seen = map_seen g l seen.
Proof.
  revert seen. induction l as [|x l IH]; intros seen H; simpl; [done|]. rewrite (H x seen) by left. destruct (g x seen) as [s1 y].
  rewrite IH; [done|]. intros y' s Hy. apply H. by right.
Qed.

Lemma map_seen_agree {B} (f g : string * value → seen_set → seen_set * B) ps qs seen : props_agree ps qs →
  (∀ p q s, p.1 = q.1 → (shouldRedactField p.1 = false → p.2 = q.2) → f p s = g q s) → map_seen f ps seen = map_seen g qs seen.
Proof.
  intros H Hf. revert seen. induction H as [|p q ps qs [Hk Hv] H IH]; intros seen; simpl; [done|].
  rewrite (Hf p q seen Hk Hv). destruct (g q seen) as [s1 y]. by rewrite IH.
Qed.

Lemma object_agree f g s ps qs seen : props_agree ps qs → (∀ v x t, f v x t = g v x t) →
  redactObjectWithSchema f s ps seen = redactObjectWithSchema g s qs seen.
Proof.
  intros H Hf. revert seen. induction H as [|[k v] [k' w] ps qs [Hk Hv] H IH]; intros seen; simpl in *; [done|]. subst k'.
  destruct (shouldRedactField k) eqn:E; [by rewrite IH|]. rewrite (Hv eq_refl). destruct (jm_get k s) as [x|]; [|done].
  destruct (denied x); [done|]. rewrite Hf. destruct (g w x seen) as [s1 o]. by rewrite IH.
Qed.

Section Agree.
Context (h h' : heap) (Hh : ∀ l, node_agree (h l) (h' l)).

(** Case analysis on two nodes that agree. *)
Ltac nodes l := let H := fresh "Hn" in pose proof (Hh l) as H; destruct (h l), (h' l); simpl in H; simplify_eq.

Lemma any_agree room v seen : redactAnyObject h room v seen = redactAnyObject h' room v seen.
Proof.
  revert v seen. induction room as [|r IH]; intros [p|l] seen; simpl; [done..|]. case_bool_decide; [done|].
  assert (∀ ps qs s, props_agree ps qs →
    map_seen (λ p s, if shouldRedactField p.1 then (s, (p.1, REDACTED)) else let '(s', o) := redactAnyObject h r p.2 s in (s', (p.1, o))) ps s =
    map_seen (λ p s, if shouldRedactField p.1 then (s, (p.1, REDACTED)) else let '(s', o) := redactAnyObject h' r p.2 s in (s', (p.1, o))) qs s) as Hps.
  { intros ps qs s Hq. apply map_seen_agree; [done|]. intros p q s0 Hk Hv. rewrite Hk in *. destruct (shouldRedactField q.1); [done|].
    by rewrite Hv, IH. }
  nodes l; try done.
  - erewrite map_seen_ext; [done|]. auto.
  - destruct Hn as (-> & -> & -> & Hq). by rewrite (Hps _ _ _ Hq).
  - by rewrite (Hps _ _ _ Hn).
Qed.

Lemma item_agree b f g v seen : (∀ w s, f w s = g w s) → redactItem h b f v seen = redactItem h' b g v seen.
Proof.
  intros Hf. destruct v as [p|l]; simpl; [done|].
  rewrite (object_agree (λ _ _ s, (s, OPrim JNull)) (λ _ _ s, (s, OPrim JNull)) [] _ (own_props (h' l)) seen);
    [|by apply own_props_agree|done]. nodes l; try done. by rewrite Hf.
Qed.

Lemma field_agree room v f seen : redactFieldValue h room v f seen = redactFieldValue h' room v f seen.
Proof.
  revert v f seen. induction room as [room IH] using lt_wf_ind. intros v f seen. destruct room as [|r]; simpl; destruct (denied f); try done.
  destruct v as [p|l]; [done|]. case_bool_decide; [done|].
  assert (∀ s ps qs, props_agree ps qs → redactObjectWithSchema (redactFieldValue h (Nat.pred r)) s ps ({[l]} ∪ seen) =
    redactObjectWithSchema (redactFieldValue h' (Nat.pred r)) s qs ({[l]} ∪ seen)) as Hobj.
  { intros s ps qs Hq. apply object_agree; [done|]. intros w x t. apply IH. lia. }
  assert (∀ b items, match items_of f with
    | Some g => map_seen (λ w s, redactFieldValue h r w g s) items ({[l]} ∪ seen)
    | None => map_seen (redactItem h b (λ w s, redactFieldValue h r w f s)) items ({[l]} ∪ seen) end =
    match items_of f with
    | Some g => map_seen (λ w s, redactFieldValue h' r w g s) items ({[l]} ∪ seen)
    | None => map_seen (redactItem h' b (λ w s, redactFieldValue h' r w f s)) items ({[l]} ∪ seen) end) as Hel.
  { intros b items. destruct (items_of f); apply map_seen_ext; intros w s _; [by apply IH; lia|].
    apply item_agree. intros. apply IH. lia. }
  rewrite <- any_agree. nodes l; try done.
  - by rewrite Hel.
  - by rewrite (Hobj _ _ _ (plain_of_agree _ _ Hn)).
  - by rewrite Hel.
  - destruct Hn as (-> & -> & -> & Hq). case_bool_decide; [done|]. destruct (nested_of f); [|done]. simpl. by rewrite (Hobj _ _ _ Hq).
  - case_bool_decide; [done|]. destruct (nested_of f); [|done]. simpl. by rewrite (Hobj _ _ _ Hn).
Qed.

Lemma internal_agree room s v seen : redactInternal h room s v seen = redactInternal h' room s v seen.
Proof.
  revert v seen. induction room as [|r IH]; intros [p|l] seen; simpl; [done..|]. case_bool_decide; [done|].
  assert (∀ ps qs, props_agree ps qs → redactObjectWithSchema (redactFieldValue h r) s ps ({[l]} ∪ seen) =
    redactObjectWithSchema (redactFieldValue h' r) s qs ({[l]} ∪ seen)) as Hobj
    by (intros ps qs Hq; apply object_agree; [done|]; intros; apply field_agree).
  nodes l; try done.
  - erewrite map_seen_ext; [done|]. auto.
  - by rewrite (Hobj _ _ (plain_of_agree _ _ Hn)).
  - erewrite map_seen_ext; [done|]. auto.
  - by destruct Hn as (-> & -> & -> & _).
  - by rewrite (Hobj _ _ Hn).
Qed.

Lemma legacy_agree fuel v : redactLegacy h fuel v = redactLegacy h' fuel v.
Proof.
  revert v. induction fuel as [|n IH]; intros [p|l]; simpl; [done..|].
  assert (∀ ps qs, props_agree ps qs →
    mapM (λ p, if shouldRedactField p.1 then Some (p.1, REDACTED) else o ← redactLegacy h n p.2; Some (p.1, o)) ps =
    mapM (λ p, if shouldRedactField p.1 then Some (p.1, REDACTED) else o ← redactLegacy h' n p.2; Some (p.1, o)) qs) as Hps.
  { intros ps qs. induction 1 as [|p q ps qs [Hk Hv] H IHps]; simpl; [done|]. rewrite Hk in *.
    destruct (shouldRedactField q.1); simpl; [by rewrite IHps|]. rewrite Hv, IH by done. by rewrite IHps. }
  assert (∀ items, mapM (redactLegacy h n) items = mapM (redactLegacy h' n) items) as Hit
    by (intros items; induction items as [|x items IHi]; simpl; [done|]; by rewrite IH, IHi).
  nodes l; rewrite ?Hit; try done.
  - by rewrite (Hps _ _ (props_agree_refl _)).
  - destruct Hn as (_ & _ & _ & Hq). by rewrite (Hps _ _ Hq).
  - by rewrite (Hps _ _ Hn).
Qed.
End Agree.

(** C39. Redaction hides what it should: two logged values whose object graphs
    agree but for the values of properties and map entries with a sensitive
    name, in any spelling of its case, are logged as the same text, whatever
    the schema and however the graph is shared or circular, by [redact] and, at
    every recursion depth, by [redactLegacy]. *)
Theorem redaction_noninterference h h' v c fuel : (∀ l, node_agree (h l) (h' l)) →
  redact h v c = redact h' v c ∧ redactLegacy h fuel v = redactLegacy h' fuel v.
Proof. intros H. split; [unfold redact; by rewrite (internal_agree h h' H)|by apply legacy_agree]. Qed.

(** ** The result follows the schema *)

(** A redacted property: a sensitive name with the marker. *)
Definition marked (k : string) (o : out) : Prop := shouldRedactField k = true ∧ o = REDACTED.

(** An object of which only redacted properties are left. *)
Definition bare (o : out) : Prop := ∃ l, o = OObject l ∧ ∀ k x, (k, x) ∈ l → marked k x.

(** What may be logged for a field of a schema. *)
Inductive shaped : FieldSchema → out → Prop :=
| shaped_prim f p : shaped f (OPrim p)
| shaped_items f g l : items_of f = Some g → (∀ o, o ∈ l → shaped g o) → shaped f (OArray l)
| shaped_array f l : items_of f = None → (∀ o, o ∈ l → shaped f o ∨ bare o) → shaped f (OArray l)
| shaped_object f l :
    (∀ k o, (k, o) ∈ l → marked k o ∨
       ∃ g, jm_get k (default [] (nested_of f)) = Some g ∧ denied g = false ∧ shouldRedactField k = false ∧ shaped g o) →
    shaped f (OObject l).

(** The properties of an object under a schema. *)
Definition fields_shaped (s : schema) (l : list (string * out)) : Prop :=
  ∀ k o, (k, o) ∈ l → marked k o ∨ ∃ g, jm_get k s = Some g ∧ denied g = false ∧ shouldRedactField k = false ∧ shaped g o.

(** What may be logged for a message: objects under the schema, elements of
    arrays likewise, and for an [Error] of the logged graph, whatever the schema
    says, its message, name and stack. *)
Inductive log_shaped (h : heap) (s : schema) : out → Prop :=
| log_prim p : log_shaped h s (OPrim p)
| log_array l : (∀ o, o ∈ l → log_shaped h s o) → log_shaped h s (OArray l)
| log_error a message name stack own l : h a = NError message name stack own →
    (∀ k o, (k, o) ∈ l → (k = "message" ∧ o = OStr message) ∨ (k = "name" ∧ o = OStr name) ∨
       (k = "stack" ∧ ∃ t, stack = Some t ∧ o = OStr t)) → log_shaped h s (OObject l)
| log_object l : fields_shaped s l → log_shaped h s (OObject l).

(** The same without the exception for errors. *)
Inductive allowlisted (s : schema) : out → Prop :=
| allow_prim p : allowlisted s (OPrim p)
| allow_array l : (∀ o, o ∈ l → allowlisted s o) → allowlisted s (OArray l)
| allow_object l : fields_shaped s l → allowlisted s (OObject l).

Definition is_error (n : node) : bool := match n with NError _ _ _ _ => true | _ => false end.

Lemma map_seen_all {A B} (P : B → Prop) (f : A → seen_set → seen_set * B) l seen : (∀ x s, P (f x s).2) →
  ∀ y, y ∈ (map_seen f l seen).2 → P y.
Proof.
  intros H. revert seen. induction l as [|x l IH]; intros seen y; simpl; [by intros ?%not_elem_of_nil|].
  pose proof (H x seen) as Hx. destruct (f x seen) as [s1 z]. specialize (IH s1). destruct (map_seen f l s1) as [s2 ys]. simpl in *.
  intros [->|Hy]%elem_of_cons; [done|by apply IH].
Qed.

Lemma object_shaped f s ps seen : (∀ v g t, denied g = false → shaped g (f v g t).2) →
  fields_shaped s (redactObjectWithSchema f s ps seen).2.
Proof.
  intros Hf. revert seen. induction ps as [|[k v] ps IH]; intros seen; simpl; [by intros ?? ?%not_elem_of_nil|].
  destruct (shouldRedactField k) eqn:Ek.
  - specialize (IH seen). destruct (redactObjectWithSchema f s ps seen) as [s1 l]. simpl in *.
    intros k' o [[= -> ->]|Hin]%elem_of_cons; [by left|by apply IH].
  - destruct (jm_get k s) as [g|] eqn:Eg; [|apply IH]. destruct (denied g) eqn:Ed; [apply IH|].
    pose proof (Hf v g seen Ed) as Hv. destruct (f v g seen) as [s1 o0]. specialize (IH s1).
    destruct (redactObjectWithSchema f s ps s1) as [s2 l]. simpl in *.
    intros k' o [[= -> ->]|Hin]%elem_of_cons; [right; by exists g|by apply IH].
Qed.

(** Without a schema only redacted properties are left. *)
Lemma object_bare f ps seen : let '(s1, l) := redactObjectWithSchema f [] ps seen in ∀ k x, (k, x) ∈ l → marked k x.
Proof.
  pose proof (object_shaped (λ _ _ s, (s, OPrim JNull)) [] ps seen) as H.
  assert (redactObjectWithSchema f [] ps seen = redactObjectWithSchema (λ _ _ s, (s, OPrim JNull)) [] ps seen) as ->.
  { clear. revert seen. induction ps as [|[k v] ps IH]; intros seen; simpl; [done|]. by rewrite IH. }
  destruct (redactObjectWithSchema _ _ _ _) as [s1 l]. intros k x Hin. destruct (H ltac:(constructor) k x Hin) as [?|(? & [=] & _)]. done.
Qed.

(** An object that the caller has just marked as seen. *)
Lemma any_seen h room l seen : l ∈ seen → ∃ p, (redactAnyObject h room (VRef l) seen).2 = OPrim p.
Proof. intros H. destruct room; simpl; [eauto|]. rewrite bool_decide_true by done. eauto. Qed.

Lemma field_shaped h room v f seen : shaped f (redactFieldValue h room v f seen).2.
Proof.
  revert v f seen. induction room as [room IH] using lt_wf_ind. intros v f seen. destruct room as [|r]; simpl;
    (destruct (denied f); [constructor|]); (destruct v as [p|l]; [constructor|]); [constructor|].
  case_bool_decide; [constructor|].
  assert (∀ s ps, s = default [] (nested_of f) → shaped f (let '(s1, os) :=
    redactObjectWithSchema (redactFieldValue h (Nat.pred r)) s ps ({[l]} ∪ seen) in (s1, OObject os)).2) as Hobj.
  { intros s ps ->. pose proof (object_shaped (redactFieldValue h (Nat.pred r)) (default [] (nested_of f)) ps ({[l]} ∪ seen)) as Ho.
    destruct (redactObjectWithSchema _ _ _ _) as [s1 os]. constructor. apply Ho. intros w g t _. apply IH. lia. }
  assert (∀ b items, shaped f (let '(s1, os) := match items_of f with
    | Some g => map_seen (λ w s, redactFieldValue h r w g s) items ({[l]} ∪ seen)
    | None => map_seen (redactItem h b (λ w s, redactFieldValue h r w f s)) items ({[l]} ∪ seen) end in (s1, OArray os)).2) as Hel.
  { intros b items. destruct (items_of f) as [g|] eqn:Ei.
    - pose proof (map_seen_all (shaped g) (λ w s, redactFieldValue h r w g s) items ({[l]} ∪ seen)) as Hm.
      destruct (map_seen _ _ _) as [s1 os]. eapply shaped_items; [done|]. apply Hm. intros. apply IH. lia.
    - pose proof (map_seen_all (λ o, shaped f o ∨ bare o) (redactItem h b (λ w s, redactFieldValue h r w f s)) items ({[l]} ∪ seen)) as Hm.
      destruct (map_seen _ _ _) as [s1 os]. apply shaped_array; [done|]. apply Hm. intros x s. unfold redactItem.
      destruct x as [p|l']; [left; constructor|].
      assert (bare (let '(s1, os) := redactObjectWithSchema (λ _ _ s, (s, OPrim JNull)) [] (own_props (h l')) s in (s1, OObject os)).2) as Hb.
      { pose proof (object_bare (λ _ _ s, (s, OPrim JNull)) (own_props (h l')) s) as Ho.
        destruct (redactObjectWithSchema _ _ _ _) as [s2 l2]. by exists l2. }
      destruct (h l'); auto. destruct b; [|auto]. left. apply IH. lia. }
  destruct (h l); try apply Hel; try (by apply Hobj); try constructor.
  all: case_bool_decide; [destruct (any_seen h r l ({[l]} ∪ seen)) as [p ->]; [set_solver|constructor]|].
  all: destruct (nested_of f) as [s|] eqn:En; [by apply Hobj|constructor; by intros ?? ?%not_elem_of_nil].
Qed.

Lemma internal_shaped h room s v seen : log_shaped h s (redactInternal h room s v seen).2.
Proof.
  revert v seen. induction room as [|r IH]; intros [p|l] seen; simpl; try constructor. case_bool_decide; [constructor|].
  assert (∀ ps, log_shaped h s (let '(s1, os) := redactObjectWithSchema (redactFieldValue h r) s ps ({[l]} ∪ seen) in (s1, OObject os)).2) as Hobj.
  { intros ps. pose proof (object_shaped (redactFieldValue h r) s ps ({[l]} ∪ seen)) as Ho.
    destruct (redactObjectWithSchema _ _ _ _) as [s1 os]. apply log_object, Ho. intros. apply field_shaped. }
  assert (∀ items, log_shaped h s (let '(s1, os) := map_seen (redactInternal h r s) items ({[l]} ∪ seen) in (s1, OArray os)).2) as Hel.
  { intros items. pose proof (map_seen_all (log_shaped h s) (redactInternal h r s) items ({[l]} ∪ seen)) as Hm.
    destruct (map_seen _ _ _) as [s1 os]. apply log_array, Hm. intros. apply IH. }
  destruct (h l) as [| | | | |message name stack own|] eqn:El; try apply Hobj; try apply Hel; try apply log_prim.
  eapply log_error; [exact El|]. intros k o. simpl. destruct stack as [t|]; [destruct (String.eqb t EmptyString)|]; intros Hin;
    repeat (apply elem_of_cons in Hin as [[= -> ->]|Hin]; [by eauto 6|]); by apply not_elem_of_nil in Hin.
Qed.

Lemma log_shaped_allowlisted h s o : (∀ l, is_error (h l) = false) → log_shaped h s o → allowlisted s o.
Proof.
  intros He. induction 1 as [p|l _ IH|a message name stack own l Ha _|l Hl]; [constructor..| |by constructor].
  - done.
  - specialize (He a). by rewrite Ha in He.
Qed.



(** The message of an error is logged under a schema that lists no field. *)
Lemma error_message_logged : redact (λ _ : nat, NError "card 4111" "Error" None []) (VRef 0) None =
  OObject [("message", OStr "card 4111"); ("name", OStr "Error")].
Proof. by vm_compute. Qed.

(** ** The registered schemas *)

Fixpoint lists_no_pii (fuel : nat) (s : schema) : bool :=
  match fuel with
  | O => false
  | S n => forallb (λ e, negb (shouldRedactField e.1) && match nested_of e.2 with Some s' => lists_no_pii n s' | None => true end) s
  end.

(** Every event type has a schema, and none lists a sensitive name. *)
Lemma schemas_registered : LOG_SCHEMAS.*1 = getRegisteredEventTypes ∧ NoDup getRegisteredEventTypes ∧
  forallb (λ e, lists_no_pii 3 e.2) LOG_SCHEMAS = true.
Proof. split_and!; [done| |vm_compute; done]. apply (bool_decide_unpack (NoDup getRegisteredEventTypes)). by vm_compute. Qed.

(** ** Limits *)

(** An object under a field of type [any] is never logged: its address was
    marked as seen just before. *)
Lemma any_logged_as_circular h r f l ps seen : h l = NObject ps → denied f = false → ty_of f = Ty_any → l ∉ seen →
  (redactFieldValue h (S (S r)) (VRef l) f seen).2 = CIRCULAR_REF_MARKER.
Proof.
  intros Hl Hd Hf Hs. simpl. rewrite Hd, bool_decide_false, Hl, bool_decide_true by done. simpl.
  rewrite bool_decide_true by set_solver. done.
Qed.

(** An object that occurs twice, without a cycle, is logged once. *)
Lemma shared_logged_once : let h := λ l : nat, match l with O => NArray [VRef 1; VRef 1] | _ => NObject [] end in
  redact h (VRef 0) None = OArray [OObject []; CIRCULAR_REF_MARKER].
Proof. by vm_compute. Qed.

(** [redactLegacy] does not return on a circular object. *)
Lemma legacy_circular_overflows h l k : h l = NObject [(k, VRef l)] → shouldRedactField k = false →
  ∀ fuel, redactLegacy h fuel (VRef l) = None.
Proof. intros Hl Hk fuel. induction fuel as [|n IH]; simpl; [done|]. rewrite Hl. simpl. by rewrite Hk, IH. Qed.

(** ** Identifiers *)

Lemma str_filter_spec p s : str_forallb p (str_filter p s) = true ∧ (str_forallb p s = true → str_filter p s = s).
Proof.
  induction s as [|c s [IH1 IH2]]; simpl; [done|]. destruct (p c) eqn:E; simpl.
  - rewrite E. split; [done|]. intros H. by rewrite IH2.
  - done.
Qed.

Lemma str_take_forallb p n s : str_forallb p s = true → str_forallb p (str_take n s) = true ∧ slen (str_take n s) ≤ Z.of_nat n.
Proof.
  revert n. induction s as [|c s IH]; intros [|n]; simpl; try (intros; unfold slen; simpl; split; [done|lia]).
  rewrite andb_true_iff. intros [Hc Hs]. destruct (IH n Hs) as [H1 H2]. rewrite Hc, H1, slen_cons. split; [done|lia].
Qed.

Lemma str_take_all n s : slen s ≤ Z.of_nat n → str_take n s = s.
Proof.
  revert n. induction s as [|c s IH]; intros [|n]; simpl; try done. rewrite slen_cons. intros H.
  rewrite IH; [done|lia].
Qed.

(** An id that leaves the process has at most 128 safe characters, and is kept
    when it is sanitized again. *)
Lemma sanitized_id_safe v s : sanitizeCorrelationId v = Some s →
  s ≠ EmptyString ∧ slen s ≤ MAX_ID_LENGTH ∧ str_forallb safe_id_char s = true ∧ sanitizeCorrelationId (Some s) = Some s.
Proof.
  destruct v as [t|]; simpl; [|done]. destruct (String.eqb t EmptyString); [done|].
  destruct (String.eqb_spec (sliceTo (str_filter safe_id_char t) MAX_ID_LENGTH) EmptyString) as [|Hne]; [done|]. intros [= <-].
  destruct (str_take_forallb safe_id_char (Z.to_nat MAX_ID_LENGTH) (str_filter safe_id_char t)) as [H1 H2]; [apply str_filter_spec|].
  change (Z.of_nat (Z.to_nat MAX_ID_LENGTH)) with MAX_ID_LENGTH in H2.
  unfold sliceTo in *. set (s := str_take _ _) in *. split_and!; [done|done|done|].
  destruct (String.eqb_spec s EmptyString); [done|]. rewrite (proj2 (str_filter_spec safe_id_char s) H1).
  rewrite str_take_all by exact H2. by destruct (String.eqb_spec s EmptyString).
Qed.

(** ** Examples *)

Module RedactionExample.
(** A circular message with a secret, two levels deep. *)
Definition graph (secret : string) : heap := λ l,
  match l with
  | O => NObject [("message", VPrim (JString "m")); ("Password", VPrim (JString secret)); ("config", VRef 1)]
  | _ => NObject [("batchSize", VPrim (JNumber "10")); ("apiKey", VPrim (JString secret)); ("cleanup", VRef 0); ("host", VRef 1)]
  end.
Definition ctx : option RedactionContext := Some {| eventType := Some "outbox-publisher:starting"; c_schema := None |}.
End RedactionExample.

Lemma redaction_noninterference_witness :
  redact (RedactionExample.graph "a") (VRef 0) RedactionExample.ctx = redact (RedactionExample.graph "b") (VRef 0) RedactionExample.ctx ∧
  redact (RedactionExample.graph "a") (VRef 0) RedactionExample.ctx =
    OObject [("message", OStr "m"); ("Password", REDACTED);
             ("config", OObject [("batchSize", OPrim (JNumber "10")); ("apiKey", REDACTED); ("cleanup", CIRCULAR_REF_MARKER)])].
Proof.
  split; [|vm_compute; reflexivity].
  apply (redaction_noninterference (RedactionExample.graph "a") (RedactionExample.graph "b") (VRef 0) RedactionExample.ctx 0).
  intros [|l]; simpl; unfold props_agree; repeat constructor; intros H; try reflexivity; vm_compute in H; discriminate H.
Defined.
