(* ===== verification/Withdrawals.v ===== *)
(** * Bond withdrawals from Horizon

    [listeners/horizonWithdrawalEvents.ts] as a whole, with the validation of
    [listeners/messageValidator.ts] against [schemas/queue.ts], the cursors of
    [db/repositories/cursorRepository.ts] and [services/identityService.ts],
    and the idempotent consumer called for one message after the other. The
    Horizon server, zod's reading of integers and its error texts are
    parameters. *)

From stdpp Require Import base option list strings gmap sorting.
From Stdlib Require Import ZArith Lia Ascii QArith Qminmax Sorting.Sorted.
From S2P Require Import Prelude JsLib DecimalMath BondAmount Idempotency.
Import Idempotency.Repository.

Open Scope Z_scope.

(** ** Cursors *)

Module Cursors.

Record HorizonCursor := {
  pagingToken : string;
  lastCheckpoint : Z;
  createdAt : Z;
  updatedAt : Z
}.

Abbreviation table := (gmap string HorizonCursor).

Inductive cursor_error := InvalidStreamName (s : string) | InvalidPagingToken (t : string).

(** A digit or more. *)
Definition numeric (token : string) : bool := negb (String.eqb token EmptyString) && str_forallb is_digit token.

Definition isValidPagingToken (token : string) : bool := String.eqb token "now" || numeric token.

Definition findByStreamName (streamName : string) (t : table) : option HorizonCursor := t !! streamName.

(** The INSERT with its ON CONFLICT clause. *)
Definition write_cursor (now : Z) (streamName token : string) (t : table) : table :=
  let created := match t !! streamName with Some c => createdAt c | None => now end in
  <[streamName := {| pagingToken := token; lastCheckpoint := now; createdAt := created; updatedAt := now |}]> t.

Definition upsert (now : Z) (streamName token : string) (t : table) : result cursor_error (table * option HorizonCursor) :=
  _ ← throw_if (String.eqb (trim streamName) EmptyString) (InvalidStreamName streamName);
  _ ← throw_if (negb (isValidPagingToken token)) (InvalidPagingToken token);
  let t' := write_cursor now streamName token t in Ok (t', t' !! streamName).

Definition delete (streamName : string) (t : table) : result cursor_error (table * bool) :=
  _ ← throw_if (String.eqb (trim streamName) EmptyString) (InvalidStreamName streamName);
  Ok (base.delete streamName t, isSome (t !! streamName)).

Definition getCursorLag (now : Z) (streamName : string) (t : table) : option Z :=
  c ← findByStreamName streamName t; Some ((now - lastCheckpoint c) / 1000).

(** [upsertCursor] of the identity service. *)
Definition upsertCursor (now : Z) (streamName token : string) (t : table) : result cursor_error table :=
  _ ← throw_if (negb (numeric token) && negb (String.eqb token "now")) (InvalidPagingToken token);
  Ok (write_cursor now streamName token t).

(** Both upserts accept the same tokens and write the same row; the checkpoint
    is found again, with no lag, and no other stream is touched. *)
Lemma cursor_upserts_agree now s token t :
  match upsertCursor now s token t with
  | Ok t' => isValidPagingToken token = true ∧ (pagingToken <$> findByStreamName s t') = Some token ∧
      getCursorLag now s t' = Some 0 ∧ (∀ s', s' ≠ s → t' !! s' = t !! s') ∧
      (trim s ≠ EmptyString → upsert now s token t = Ok (t', t' !! s))
  | Err e => e = InvalidPagingToken token ∧ isValidPagingToken token = false ∧
      (trim s ≠ EmptyString → upsert now s token t = Err e)
  end.
Proof.
  unfold upsertCursor, upsert, isValidPagingToken, getCursorLag, findByStreamName, write_cursor.
  destruct (numeric token), (String.eqb token "now"); simpl; rewrite ?lookup_insert_eq; simpl; rewrite ?Z.sub_diag;
    split_and!; try done; try (intros s' Hne; by rewrite lookup_insert_ne); intros H%String.eqb_neq; by rewrite H.
Qed.

End Cursors.

(** ** Messages *)

Inductive DlqReasonCode := SCHEMA_VALIDATION_FAILED | UNKNOWN_MESSAGE_TYPE | PROCESSING_ERROR | MAX_RETRIES_EXCEEDED.

Definition reason_text (c : DlqReasonCode) : string :=
  match c with
  | SCHEMA_VALIDATION_FAILED => "SCHEMA_VALIDATION_FAILED"
  | UNKNOWN_MESSAGE_TYPE => "UNKNOWN_MESSAGE_TYPE"
  | PROCESSING_ERROR => "PROCESSING_ERROR"
  | MAX_RETRIES_EXCEEDED => "MAX_RETRIES_EXCEEDED"
  end.

Inductive ValidationResult (T : Type) :=
| Valid (data : T)
| Invalid (reasonCode : DlqReasonCode) (detail : string).
Arguments Valid {T} data.
Arguments Invalid {T} reasonCode detail.

(** [issues.map(...).join('; ')]; an issue is its path and message. *)
Fixpoint join_issues (l : list string) : string :=
  match l with [] => EmptyString | [x] => x | x :: l' => x +:+ "; " +:+ join_issues l' end.

Definition formatZodErrors (issues : list (list string * string)) : string :=
  join_issues (map (λ i, (if bool_decide (i.1 = []) then "(root)" else join_on "." i.1) +:+ ": " +:+ i.2) issues).

(** [safeParse] answers with the data or the issues. *)
Definition validateMessage {A T} (safeParse : A → T + list (list string * string)) (rawPayload : A) : ValidationResult T :=
  match safeParse rawPayload with
  | inl data => Valid data
  | inr issues => Invalid SCHEMA_VALIDATION_FAILED (formatZodErrors issues)
  end.

(** What the dead letter sink is given: label, payload and tagged reason. *)
Definition route {A} (messageType : string) (rawPayload : A) (c : DlqReasonCode) (detail : string) : string * A * string :=
  (messageType, rawPayload, "[" +:+ reason_text c +:+ "] " +:+ detail).

Definition validateAndRoute {A T} (safeParse : A → T + list (list string * string)) (messageType : string) (rawPayload : A)
    (sink : list (string * A * string)) : ValidationResult T * list (string * A * string) :=
  match validateMessage safeParse rawPayload with
  | Valid d => (Valid d, sink)
  | Invalid c detail => (Invalid c detail, sink ++ [route messageType rawPayload c detail])
  end.

Definition min1 (s : string) : bool := 1 <=? slen s.

Definition decimalAmountSchema (amount : string) : bool :=
  (slen amount <=? 32) && NON_NEGATIVE_DECIMAL_RE amount &&
  let dot := indexOf amount "." in
  let intPart := if dot =? -1 then amount else sliceTo amount dot in
  let fracPart := if dot =? -1 then EmptyString else sliceFrom amount (dot + 1) in
  (slen intPart <=? 20) && (slen fracPart <=? 7).

(** ** Operations and events *)

(** The fields of a Horizon operation record the listener reads. *)
Record operation := {
  op_id : string;
  paging_token : string;
  op_type : string;
  created_at : option Z;            (* [None] when it is not a date *)
  from : option string;
  source_account : option string;
  op_amount : option string;
  asset_type : option string;
  asset_code : option string;
  asset_issuer : option string;
  transaction_hash : option string
}.

Record WithdrawalEvent := {
  id : string;
  pagingToken : string;
  type : string;
  createdAt : option Z;
  bondId : string;
  account : option string;
  amount : option string;
  assetType : option string;
  assetCode : option string;
  assetIssuer : option string;
  transactionHash : string;
  operationIndex : Z
}.

(** [a || b] on optional strings. *)
Definition js_or (a b : option string) : option string := if falsy a then b else a.

Definition isWithdrawalOperation (bondContractAddress : option string) (o : operation) : bool :=
  if negb (String.eqb (op_type o) "payment") then false
  else if negb (falsy bondContractAddress) then bool_decide (source_account o = bondContractAddress)
  else true.

Definition shown (s : option string) : string := default "undefined" s.

Definition extractBondId (o : operation) : string :=
  shown (js_or (from o) (source_account o)) +:+ "-" +:+ shown (transaction_hash o).

Definition parseWithdrawalEvent (o : operation) : option WithdrawalEvent :=
  if negb (String.eqb (op_type o) "payment") then None
  else Some {|
    id := op_id o; pagingToken := paging_token o; type := op_type o; createdAt := created_at o;
    bondId := extractBondId o; account := js_or (from o) (source_account o); amount := op_amount o;
    assetType := asset_type o; assetCode := asset_code o; assetIssuer := asset_issuer o;
    transactionHash := default EmptyString (transaction_hash o);
    operationIndex := default 0 (parseInt (default "0" (last (split_on "-" (op_id o)))) 10)
  |}.

(** [zod_int] is the integer test of the installed zod. *)
Definition withdrawalEventSchema (zod_int : Z → bool) (e : WithdrawalEvent) : bool :=
  min1 (id e) && min1 (pagingToken e) && min1 (type e) && isSome (createdAt e) && min1 (bondId e) &&
  match account e with Some a => min1 a | None => false end &&
  match amount e with Some a => decimalAmountSchema a | None => false end &&
  match assetType e with Some a => min1 a | None => false end &&
  min1 (transactionHash e) && zod_int (operationIndex e) && (0 <=? operationIndex e).

(** ** The listener *)

Definition STREAM_NAME : string := "bond_withdrawal".
Definition CONSUMER_TTL : Z := 86400.

Record ScoreHistorySnapshot := {
  address : string;
  score : Z;
  bondedAmount : string;
  full : bool                       (* withdrawal_full or withdrawal_partial *)
}.

(** A dead letter: label, event and reason. *)
Abbreviation letter := (string * WithdrawalEvent * string)%type.

Abbreviation keys := (gmap string (IdempotencyRecord string)).

(** The tables, the memory of the instance, and what it did: the updates it
    wrote, each with its event, and the snapshots it saved. *)
Record listener := {
  cursors : Cursors.table;
  key_rows : keys;
  letters : list letter;
  isRunning : bool;
  pollTimer : bool;
  lastCursor : string;
  applied : list (WithdrawalEvent * BondStateUpdate);
  snapshots : list (WithdrawalEvent * ScoreHistorySnapshot)
}.

Definition set_cursors (t : Cursors.table) (s : listener) : listener :=
  {| cursors := t; key_rows := key_rows s; letters := letters s; isRunning := isRunning s; pollTimer := pollTimer s;
     lastCursor := lastCursor s; applied := applied s; snapshots := snapshots s |}.

Definition set_keys (k : keys) (s : listener) : listener :=
  {| cursors := cursors s; key_rows := k; letters := letters s; isRunning := isRunning s; pollTimer := pollTimer s;
     lastCursor := lastCursor s; applied := applied s; snapshots := snapshots s |}.

Definition captureFailure (l : letter) (s : listener) : listener :=
  {| cursors := cursors s; key_rows := key_rows s; letters := letters s ++ [l]; isRunning := isRunning s;
     pollTimer := pollTimer s; lastCursor := lastCursor s; applied := applied s; snapshots := snapshots s |}.

Definition setCursor (c : string) (s : listener) : listener :=
  {| cursors := cursors s; key_rows := key_rows s; letters := letters s; isRunning := isRunning s; pollTimer := pollTimer s;
     lastCursor := c; applied := applied s; snapshots := snapshots s |}.

Definition set_running (r timer : bool) (s : listener) : listener :=
  {| cursors := cursors s; key_rows := key_rows s; letters := letters s; isRunning := r; pollTimer := timer;
     lastCursor := lastCursor s; applied := applied s; snapshots := snapshots s |}.

Definition updateBondState (e : WithdrawalEvent) (u : BondStateUpdate) (s : listener) : listener :=
  {| cursors := cursors s; key_rows := key_rows s; letters := letters s; isRunning := isRunning s; pollTimer := pollTimer s;
     lastCursor := lastCursor s; applied := applied s ++ [(e, u)]; snapshots := snapshots s |}.

Definition saveScoreSnapshot (e : WithdrawalEvent) (x : ScoreHistorySnapshot) (s : listener) : listener :=
  {| cursors := cursors s; key_rows := key_rows s; letters := letters s; isRunning := isRunning s; pollTimer := pollTimer s;
     lastCursor := lastCursor s; applied := applied s; snapshots := snapshots s ++ [(e, x)] |}.

(** The bond every event is applied to. *)
Definition getBondState : string := "1000.0000000".

Definition calculateTrustScore : Z := 85.

Definition createScoreSnapshot (e : WithdrawalEvent) : result amount_error ScoreHistorySnapshot :=
  new ← computeNewBondAmount getBondState (shown (amount e));
  Ok {| address := shown (account e); score := calculateTrustScore; bondedAmount := getBondState;
        full := String.eqb new "0" |}.

(** The [try] of [processWithdrawalEvent]: the listener so far, and the error. *)
Definition apply_event (e : WithdrawalEvent) (s : listener) : listener * result amount_error () :=
  match calculateBondUpdate getBondState (shown (amount e)) with
  | Err err => (s, Err err)
  | Ok u =>
      let s1 := updateBondState e u s in
      match shouldCreateScoreSnapshot u with
      | Err err => (s1, Err err)
      | Ok false => (s1, Ok ())
      | Ok true =>
          match createScoreSnapshot e with
          | Err err => (s1, Err err)
          | Ok x => (saveScoreSnapshot e x s1, Ok ())
          end
      end
  end.

(** [message] is the text of an error. *)
Definition processWithdrawalEvent (message : amount_error → string) (e : WithdrawalEvent) (s : listener) : listener * bool :=
  match apply_event e s with
  | (s1, Ok _) => (s1, true)
  | (s1, Err err) => (captureFailure ("withdrawal", e, message err) s1, false)
  end.

(** How the database treats one event: whether the dead letter is stored, the
    lookup answered, a connection given, the key deleted; and the transaction. *)
Inductive tx_fate := BeginFails | CursorFails | CommitFails | CommitUnseen | Commits.

Record event_io := {
  capture_ok : bool;
  find_ok : bool;
  connect_ok : bool;
  fate : tx_fate;
  save_ok : bool;
  delete_ok : bool
}.

(** A transaction whose body is [body] and then the checkpoint. *)
Definition checkpointed (now : Z) (io : event_io) (token : string) (body : listener → listener * bool) (s : listener)
  : listener * bool :=
  if negb (connect_ok io) then (s, false)
  else
    match fate io with
    | BeginFails => (s, false)
    | f =>
        let '(s1, done_) := body s in
        if negb done_ then (s1, false)
        else
          match f, Cursors.upsertCursor now STREAM_NAME token (cursors s1) with
          | Commits, Ok t => (set_cursors t s1, true)
          | CommitUnseen, Ok t => (set_cursors t s1, false)
          | _, _ => (s1, false)
          end
    end.

Definition commitCursor (now : Z) (io : event_io) (token : string) (s : listener) : listener * bool :=
  checkpointed now io token (λ s, (s, true)) s.

(** [repository.save] of a handler's result: the text of [undefined] is
    [undefined] again, which the driver sends as NULL, and the column
    [response_body] is NOT NULL. *)
Definition save_result (now : Z) (io : event_io) (m : string) (body : option string) (k : keys) : option keys :=
  match body with
  | None => None
  | Some b =>
      if save_ok io then
        Some (save now {| i_key := m; i_actorId := "horizon-withdrawal-listener"; i_requestHash := m; i_responseCode := 200;
                          i_responseBody := b; i_ttlSeconds := CONSUMER_TTL; i_expiresInSeconds := None |} k)
      else None
  end.

(** [IdempotentConsumer.process] with no other call of the message under way:
    [None] when the lookup throws, otherwise whether it reports success;
    [stored] is the JSON text of the handler's result. *)
Definition process_message (now : Z) (io : event_io) (m : string) (stored : option string)
    (handler : listener → listener * bool) (s : listener) : listener * option bool :=
  if negb (find_ok io) then (s, None)
  else
    let run :=
      let '(s1, ok) := handler s in
      let failed := (if delete_ok io then set_keys (Repository.delete m (key_rows s1)) s1 else s1, Some false) in
      if ok then
        match save_result now io m stored (key_rows s1) with
        | Some k => (set_keys k s1, Some true)
        | None => failed
        end
      else failed in
    match findByKey now m (key_rows s) with
    | Some r => if responseCode r <? 400 then (s, Some true) else run
    | None => run
    end.

Section Listener.
Variable bondContractAddress : option string.
Variable configCursor : option string.
Variable zod_int : Z → bool.
Variable zod_issues : WithdrawalEvent → list (list string * string).
Variable message : amount_error → string.

Definition safeParse (e : WithdrawalEvent) : WithdrawalEvent + list (list string * string) :=
  if withdrawalEventSchema zod_int e then inl e else inr (zod_issues e).

(** One event of a batch; [None] ends the batch. *)
Definition handle_event (now : Z) (io : event_io) (e : WithdrawalEvent) (s : listener) : listener * bool :=
  match validateMessage safeParse e with
  | Invalid c detail =>
      if negb (capture_ok io) then (s, false)
      else
        let s1 := captureFailure (route STREAM_NAME e c detail) s in
        match commitCursor now io (pagingToken e) s1 with
        | (s2, true) => (setCursor (pagingToken e) s2, true)
        | (s2, false) => (s2, false)
        end
  | Valid _ =>
      match process_message now io (STREAM_NAME +:+ ":" +:+ id e) None
              (checkpointed now io (pagingToken e) (processWithdrawalEvent message e)) s with
      | (s1, Some true) => (setCursor (pagingToken e) s1, true)
      | (s1, _) => (s1, false)
      end
  end.

Fixpoint handle_events (now : Z) (ios : nat → event_io) (es : list WithdrawalEvent) (s : listener) : listener :=
  match es with
  | [] => s
  | e :: es' => let '(s1, ok) := handle_event now (ios O) e s in
                if ok then handle_events now (λ n, ios (S n)) es' s1 else s1
  end.

(** [records] is [None] when the request to Horizon fails. *)
Definition fetchWithdrawalEvents (records : option (list operation)) : list WithdrawalEvent :=
  match records with
  | None => []
  | Some l => omap (λ o, if isWithdrawalOperation bondContractAddress o then parseWithdrawalEvent o else None) l
  end.

Definition pollForEvents (now : Z) (records : option (list operation)) (ios : nat → event_io) (s : listener) : listener :=
  if negb (isRunning s) then s
  else let s1 := handle_events now ios (fetchWithdrawalEvents records) s in set_running true true s1.

(** The constructor and [start] up to its first poll; [None] when the lookup
    of the cursor throws. *)
Definition new_listener (s : listener) : listener :=
  setCursor (if falsy configCursor then "now" else shown configCursor) (set_running false false s).

Definition start (found : bool) (s : listener) : option listener :=
  if isRunning s then Some s
  else if negb found then None
  else
    let s1 := match Cursors.findByStreamName STREAM_NAME (cursors s) with
              | Some c => setCursor (Cursors.pagingToken c) s
              | None => s
              end in
    Some (set_running true (pollTimer s1) s1).

Definition stop (s : listener) : listener := if isRunning s then set_running false false s else s.

End Listener.

(** ** Horizon, and the runs of a listener *)

Definition token_value (o : operation) : Z := BigInt (paging_token o).

(** A ledger: operations with numeric tokens in increasing order. *)
Definition ordered (L : list operation) : Prop :=
  StronglySorted (λ a b, token_value a < token_value b) L ∧ Forall (λ o, Cursors.numeric (paging_token o) = true) L.

(** A page of operations in ascending order: the first hundred after a cursor,
    and none after [now], for which the page is asked anew at every poll. *)
Class Horizon := {
  page : list operation → string → list operation;
  page_after L c : ordered L → Cursors.numeric c = true →
    page L c = take 100 (filter (λ o, BigInt c < token_value o) L);
  page_now L : page L "now" = []
}.

#[export] Program Instance horizon_model : Horizon := {|
  page L c := if Cursors.numeric c then take 100 (filter (λ o, BigInt c < token_value o) L) else []
|}.
Next Obligation. simpl. by case_match. Qed.

Section Runs.
Context `{HZ : !Horizon}.
Variable bondContractAddress : option string.
Variable configCursor : option string.
Variable zod_int : Z → bool.
Variable zod_issues : WithdrawalEvent → list (list string * string).
Variable message : amount_error → string.

Abbreviation run_event := (handle_event zod_int zod_issues message).
Abbreviation run_events := (handle_events zod_int zod_issues message).
Abbreviation poll := (pollForEvents bondContractAddress zod_int zod_issues message).
Abbreviation valid := (withdrawalEventSchema zod_int).

(** What can happen: the ledger grows, a poll runs with any failures, and the
    instance is stopped, started or replaced by a new one. *)
Inductive reach (L0 : list operation) (s0 : listener) : list operation → listener → Prop :=
| reach_init : reach L0 s0 L0 (new_listener configCursor s0)
| reach_grow L s ops : reach L0 s0 L s → ordered (L ++ ops) → reach L0 s0 (L ++ ops) s
| reach_poll L s now (answered : bool) ios : reach L0 s0 L s →
    reach L0 s0 L (poll now (if answered then Some (page L (lastCursor s)) else None) ios s)
| reach_stop L s : reach L0 s0 L s → reach L0 s0 L (stop s)
| reach_start L s found s' : reach L0 s0 L s → start found s = Some s' → reach L0 s0 L s'
| reach_new L s : reach L0 s0 L s → reach L0 s0 L (new_listener configCursor s).

(** An operation is dealt with: its valid event was applied, its invalid one
    is a dead letter. *)
Definition dealt_with (s : listener) (o : operation) : Prop := ∃ e, parseWithdrawalEvent o = Some e ∧
  if valid e then ∃ u, (e, u) ∈ applied s else ∃ r, (STREAM_NAME, e, r) ∈ letters s.

Definition covered (c0 : string) (L : list operation) (s : listener) (c : string) : Prop :=
  Cursors.numeric c = true ∧ (BigInt c ≤ BigInt c0 ∨ ∃ o, o ∈ L ∧ BigInt c ≤ token_value o) ∧
  ∀ o, o ∈ L → isWithdrawalOperation bondContractAddress o = true → BigInt c0 < token_value o ≤ BigInt c → dealt_with s o.

Definition stored (s : listener) : option string := Cursors.pagingToken <$> cursors s !! STREAM_NAME.

(** Every applied update is that of a valid withdrawal of the ledger. *)
Definition genuine (L : list operation) (s : listener) : Prop := ∀ e u, (e, u) ∈ applied s →
  ∃ o, o ∈ L ∧ isWithdrawalOperation bondContractAddress o = true ∧ parseWithdrawalEvent o = Some e ∧ valid e = true ∧
    calculateBondUpdate getBondState (shown (amount e)) = Ok u.

Record inv (c0 : string) (L : list operation) (s : listener) : Prop := {
  inv_ordered : ordered L;
  inv_last : isRunning s = true ∨ stored s = None → covered c0 L s (lastCursor s);
  inv_stored c : stored s = Some c → covered c0 L s c;
  inv_config : stored s = None → configCursor = Some c0;
  inv_c0 : Cursors.numeric c0 = true;
  inv_keys m : key_rows s !! (STREAM_NAME +:+ ":" +:+ m) = None;
  inv_genuine : genuine L s
}.

(** *** One event *)

Definition grows (s s' : listener) : Prop := (∃ l, applied s' = applied s ++ l) ∧ (∃ l, letters s' = letters s ++ l).

Lemma grows_refl s : grows s s.
Proof. split; exists []; by rewrite app_nil_r. Qed.

Lemma grows_trans s1 s2 s3 : grows s1 s2 → grows s2 s3 → grows s1 s3.
Proof.
  intros [[a Ha] [b Hb]] [[a' Ha'] [b' Hb']].
  split; [exists (a ++ a'); by rewrite Ha', Ha, app_assoc|exists (b ++ b'); by rewrite Hb', Hb, app_assoc].
Qed.

Lemma dealt_with_grows s s' o : grows s s' → dealt_with s o → dealt_with s' o.
Proof.
  intros [[a Ha] [b Hb]] (e & He & H). exists e. split; [done|]. rewrite Ha, Hb.
  destruct (valid e); destruct H as [x Hx]; exists x; apply elem_of_app; by left.
Qed.

Lemma covered_grows c0 L s s' c : grows s s' → covered c0 L s c → covered c0 L s' c.
Proof. intros Hg (H1 & H2 & H3). split_and!; [done..|]. intros o ???. eapply dealt_with_grows; eauto. Qed.

(** A valid amount is processed without error, exactly once. *)
Lemma valid_amount e : valid e = true → NON_NEGATIVE_DECIMAL_RE (shown (amount e)) = true.
Proof.
  unfold withdrawalEventSchema. destruct (amount e) as [a|]; [|rewrite ?andb_false_r; done].
  unfold decimalAmountSchema. simpl. intros H. breflect. naive_solver.
Qed.

Lemma process_valid e s : valid e = true → ∃ u s', calculateBondUpdate getBondState (shown (amount e)) = Ok u ∧
  processWithdrawalEvent message e s = (s', true) ∧ applied s' = applied s ++ [(e, u)] ∧ letters s' = letters s ∧
  cursors s' = cursors s ∧ key_rows s' = key_rows s ∧ lastCursor s' = lastCursor s ∧ isRunning s' = isRunning s.
Proof.
  intros Hv%valid_amount. pose proof (calculateBondUpdate_exact getBondState (shown (amount e))) as H.
  rewrite Hv in H. change (NON_NEGATIVE_DECIMAL_RE getBondState) with true in H. destruct H as (u & Hu & Hp & _).
  unfold processWithdrawalEvent, apply_event. rewrite Hu. unfold shouldCreateScoreSnapshot.
  destruct (shouldTakeSnapshot_exact (previousAmount u) (newAmount u) (isActive u)) as (b & -> & _).
  destruct b; [|eexists u, _; split_and!; done].
  unfold createScoreSnapshot. unfold calculateBondUpdate in Hu. destruct (computeNewBondAmount _ _); [|done].
  eexists u, _. split_and!; done.
Qed.

(** What the tables and the log say after an event was handled, fully or not. *)
Definition handled_event (e : WithdrawalEvent) (s : listener) : Prop :=
  if valid e then ∃ u, (e, u) ∈ applied s else ∃ r, (STREAM_NAME, e, r) ∈ letters s.

Record after_event (e : WithdrawalEvent) (s s' : listener) (ok : bool) : Prop := {
  ae_grows : grows s s';
  ae_running : isRunning s' = isRunning s;
  ae_keys m : key_rows s !! (STREAM_NAME +:+ ":" +:+ m) = None → key_rows s' !! (STREAM_NAME +:+ ":" +:+ m) = None;
  ae_stored : stored s' = stored s ∨ stored s' = Some (pagingToken e) ∧ handled_event e s';
  ae_last : if ok then lastCursor s' = pagingToken e ∧ handled_event e s' else lastCursor s' = lastCursor s;
  ae_applied e' u : (e', u) ∈ applied s' → (e', u) ∈ applied s ∨
    e' = e ∧ valid e = true ∧ calculateBondUpdate getBondState (shown (amount e)) = Ok u
}.

Lemma stored_write now token t s : Cursors.upsertCursor now STREAM_NAME token (cursors s) = Ok t →
  stored (set_cursors t s) = Some token.
Proof.
  pose proof (Cursors.cursor_upserts_agree now STREAM_NAME token (cursors s)) as H. intros E. rewrite E in H.
  apply H.
Qed.

(** The checkpoint of a handled event, however its transaction ends. *)
Lemma checkpointed_spec now io token body s s1 : body s = (s1, true) → cursors s1 = cursors s →
  ∃ s' ok, checkpointed now io token body s = (s', ok) ∧
    ((s' = s ∨ s' = s1) ∧ ok = false ∨ ∃ t, s' = set_cursors t s1 ∧ stored s' = Some token).
Proof.
  intros Hb Hc. unfold checkpointed. destruct (connect_ok io); simpl; [|eauto 8].
  rewrite Hb. simpl. destruct (Cursors.upsertCursor now STREAM_NAME token (cursors s1)) as [t|] eqn:Ht;
    [apply stored_write in Ht|]; destruct (fate io); simpl; eauto 10.
Qed.

Lemma invalid_event now io e s : valid e = false → ∃ s' ok, run_event now io e s = (s', ok) ∧ after_event e s s' ok.
Proof.
  intros Hv. unfold handle_event, validateMessage, safeParse. rewrite Hv.
  destruct (capture_ok io); simpl.
  2:{ eexists _, _. split; [done|]. split; auto using grows_refl. }
  set (s1 := captureFailure _ s). unfold commitCursor.
  destruct (checkpointed_spec now io (pagingToken e) (λ s, (s, true)) s1 s1) as (s' & ok & -> & H); [done..|].
  assert (grows s s1) as Hg by (split; [exists []; by rewrite app_nil_r|by eexists]).
  assert (handled_event e s1) as Hh. { unfold handled_event. rewrite Hv. eexists. apply elem_of_app. right. by left. }
  destruct H as [[Hs' ->]|(t & -> & Ht)].
  - assert (s' = s1) as -> by (by destruct Hs'). eexists _, _. split; [done|].
    split; [done|done|auto|by left|done|auto].
  - destruct ok; (eexists _, _; split; [done|]; split; [done|done|auto|right; split; done|try (by split)|auto]).
Qed.

Lemma valid_event now io e s : valid e = true → key_rows s !! (STREAM_NAME +:+ ":" +:+ id e) = None →
  ∃ s', run_event now io e s = (s', false) ∧ after_event e s s' false.
Proof.
  intros Hv Hk. unfold handle_event, validateMessage, safeParse. rewrite Hv.
  unfold process_message. set (m := STREAM_NAME +:+ ":" +:+ id e) in *. destruct (find_ok io); simpl.
  2:{ eexists. split; [done|]. split; auto using grows_refl. }
  unfold findByKey. rewrite Hk.
  destruct (process_valid e s Hv) as (u & s1 & Hu & Hp & Ha & Hl & Hc & Hkr & Hla & Hr).
  destruct (checkpointed_spec now io (pagingToken e) (processWithdrawalEvent message e) s s1) as (s' & ok & -> & H);
    [done..|].
  set (s2 := if delete_ok io then set_keys (Repository.delete m (key_rows s')) s' else s').
  assert (after_event e s s' false) as Hs'.
  { assert (∀ e' u', (e', u') ∈ applied s1 → (e', u') ∈ applied s ∨ e' = e ∧ valid e = true ∧
      calculateBondUpdate getBondState (shown (amount e)) = Ok u') as Hap.
    { intros e' u'. rewrite Ha, elem_of_app, list_elem_of_singleton. intros [?|[= -> ->]]; auto. }
    assert (grows s s1) as Hg by (split; [by eexists|exists []; by rewrite app_nil_r]).
    assert (handled_event e s1) as Hh.
    { unfold handled_event. rewrite Hv, Ha. exists u. apply elem_of_app. right. by left. }
    destruct H as [[[->| ->] ->]|(t & -> & Ht)].
    - split; auto using grows_refl.
    - split; [done|done|by rewrite Hkr|left; unfold stored; by rewrite Hc|done|done].
    - split; [done|done|simpl; by rewrite Hkr|by right|done|done]. }
  assert (after_event e s s2 false) as Hs2.
  { unfold s2. destruct (delete_ok io); [|done]. destruct Hs' as [H1 H2 H3 H4 H5 H6]. split; [exact H1|exact H2| |exact H4|exact H5|exact H6].
    intros m' Hm. apply lookup_delete_None. right. exact (H3 m' Hm). }
  exists s2. split; [|done]. by destruct ok.
Qed.

(** *** A batch *)

Lemma sorted_filter {A} (R : A → A → Prop) (P : A → Prop) `{∀ x, Decision (P x)} l : StronglySorted R l → StronglySorted R (filter P l).
Proof.
  induction 1 as [|x l Hs IH Hx]; [constructor|]. rewrite filter_cons. case_decide; [|done].
  constructor; [done|]. rewrite Forall_forall in *. intros y [_ Hy]%list_elem_of_filter. auto.
Qed.

Abbreviation withdrawals := (filter (λ o, isWithdrawalOperation bondContractAddress o = true)).
Abbreviation following c := (filter (λ o, BigInt c < token_value o)).

(** The withdrawals of a page up to one of them are all those of the ledger
    between the cursor and it. *)
Lemma page_prefix L c pre o post o' : ordered L → withdrawals (take 100 (following c L)) = pre ++ o :: post →
  o' ∈ L → isWithdrawalOperation bondContractAddress o' = true → BigInt c < token_value o' ≤ token_value o →
  o' ∈ pre ++ [o].
Proof.
  intros [Hs _] Hf Hin Hw Hr.
  apply (sorted_filter _ (λ o, BigInt c < token_value o)) in Hs. set (F := following c L) in *.
  assert (o ∈ take 100 F) as Ho.
  { assert (o ∈ pre ++ o :: post) as H by (apply elem_of_app; right; by left).
    rewrite <- Hf in H. by apply list_elem_of_filter in H as [_ H]. }
  assert (o' ∈ F) as Ho' by (apply list_elem_of_filter; split; [lia|done]).
  rewrite <- (take_drop 100 F) in Hs, Ho'.
  assert (o' ∈ take 100 F) as Ho't.
  { apply elem_of_app in Ho' as [?|Hd]; [done|]. exfalso.
    pose proof (StronglySorted_app_1_elem_of _ _ _ o o' Hs Ho Hd). simpl in *. lia. }
  assert (o' ∈ pre ++ o :: post) as H by (rewrite <- Hf; by apply list_elem_of_filter).
  apply StronglySorted_app_1_l, (sorted_filter _ (λ o, isWithdrawalOperation bondContractAddress o = true)) in Hs.
  rewrite Hf in Hs. apply StronglySorted_app_1_r, StronglySorted_inv in Hs as [_ Hall].
  rewrite Forall_forall in Hall. rewrite elem_of_app, elem_of_cons in H. rewrite elem_of_app, list_elem_of_singleton.
  destruct H as [?|[->|Hpost]]; auto. specialize (Hall o' Hpost). simpl in Hall. lia.
Qed.

Lemma withdrawal_parses o : isWithdrawalOperation bondContractAddress o = true →
  ∃ e, parseWithdrawalEvent o = Some e ∧ pagingToken e = paging_token o ∧ id e = op_id o.
Proof.
  unfold isWithdrawalOperation, parseWithdrawalEvent. destruct (String.eqb (op_type o) "payment"); [|done].
  intros _. eexists. split_and!; done.
Qed.

Lemma fetch_withdrawals l : fetchWithdrawalEvents bondContractAddress (Some l) = omap parseWithdrawalEvent (withdrawals l).
Proof.
  simpl. induction l as [|o l IH]; [done|]. rewrite filter_cons. simpl.
  destruct (isWithdrawalOperation bondContractAddress o) eqn:E; [|by rewrite decide_False].
  rewrite decide_True by done. simpl. destruct (parseWithdrawalEvent o); [f_equal|]; exact IH.
Qed.

(** The cursor and the checkpoint pass an event only when it is dealt with. *)
Lemma event_covered c0 L c s s1 e o pre post : ordered L → covered c0 L s c → Cursors.numeric c0 = true →
  withdrawals (take 100 (following c L)) = pre ++ o :: post → Forall (dealt_with s) pre →
  parseWithdrawalEvent o = Some e → pagingToken e = paging_token o → grows s s1 → handled_event e s1 →
  covered c0 L s1 (pagingToken e).
Proof.
  intros HL (Hn & _ & Hc) H0 Hf Hpre Hp Htok Hg Hh.
  assert (o ∈ L) as Ho.
  { assert (o ∈ pre ++ o :: post) as H by (apply elem_of_app; right; by left).
    rewrite <- Hf in H. apply list_elem_of_filter in H as [_ H]. apply elem_of_take in H as (i & H & _).
    by apply list_elem_of_lookup_2, list_elem_of_filter in H as [_ ?]. }
  split_and!.
  { rewrite Htok. destruct HL as [_ HF]. rewrite Forall_forall in HF. by apply HF. }
  { right. exists o. unfold token_value. rewrite Htok. split; [done|lia]. }
  intros o' Hin Hw Hr. rewrite Htok in Hr. change (BigInt (paging_token o)) with (token_value o) in Hr.
  destruct (decide (token_value o' ≤ BigInt c)) as [Hle|Hgt].
  { apply (dealt_with_grows s); [done|]. apply Hc; [done..|lia]. }
  pose proof (page_prefix L c pre o post o' HL Hf Hin Hw ltac:(lia)) as H.
  apply elem_of_app in H as [H| ->%list_elem_of_singleton]; [|by exists e].
  rewrite Forall_forall in Hpre. apply (dealt_with_grows s); auto.
Qed.

Lemma batch_inv c0 L c now pre post ios s : inv c0 L s → isRunning s = true → covered c0 L s c →
  withdrawals (take 100 (following c L)) = pre ++ post → Forall (dealt_with s) pre →
  inv c0 L (run_events now ios (omap parseWithdrawalEvent post) s) ∧
  isRunning (run_events now ios (omap parseWithdrawalEvent post) s) = true.
Proof.
  intros HI Hr Hc. revert pre ios s HI Hr Hc. induction post as [|o post IH]; intros pre ios s HI Hr Hc Hf Hpre; [done|].
  assert (o ∈ L ∧ isWithdrawalOperation bondContractAddress o = true) as [Ho Hw].
  { assert (o ∈ pre ++ o :: post) as H by (apply elem_of_app; right; by left). rewrite <- Hf in H.
    apply list_elem_of_filter in H as [? H]. apply elem_of_take in H as (i & H & _).
    by apply list_elem_of_lookup_2, list_elem_of_filter in H as [_ ?]. }
  destruct (withdrawal_parses o Hw) as (e & Hp & Htok & Hid). simpl. rewrite Hp. cbn [handle_events].
  assert (∃ s1 ok, run_event now (ios O) e s = (s1, ok) ∧ after_event e s s1 ok) as (s1 & ok & Heq & HA).
  { destruct (valid e) eqn:Hv; [|by apply invalid_event].
    destruct (valid_event now (ios O) e s Hv (inv_keys _ _ _ HI (id e))) as (s1 & ? & ?). eauto. }
  destruct HA as [Hg Hrun Hk Hst Hla Hap]. rewrite Heq.
  assert (handled_event e s1 → covered c0 L s1 (pagingToken e)) as Hcov.
  { intros Hh. eapply event_covered; eauto using inv_ordered, inv_c0. }
  assert (inv c0 L s1) as HI1.
  { destruct HI as [I1 I2 I3 I4 I5 I6 I7]. split; [done| | | |done|intros m; apply Hk, I6|].
    - intros _. destruct ok; [destruct Hla as [-> ?]; by apply Hcov|]. rewrite Hla.
      eapply covered_grows; [done|]. auto.
    - intros c' Hc'. destruct Hst as [Hst|[Hst Hh]]; [|rewrite Hst in Hc'; injection Hc' as <-; auto].
      rewrite Hst in Hc'. eapply covered_grows; eauto.
    - intros Hn. apply I4. destruct Hst as [Hst|[Hst ?]]; congruence.
    - intros e' u Hin. apply Hap in Hin as [Hin|(-> & Hv & Hu)]; [by apply I7|]. exists o. done. }
  destruct ok; [|split; [done|by rewrite Hrun]].
  apply (IH (pre ++ [o])); [done|by rewrite Hrun|by eapply covered_grows|by rewrite <- app_assoc|].
  apply Forall_app. split.
  - eapply Forall_impl; [exact Hpre|]. intros. by eapply dealt_with_grows.
  - apply Forall_singleton. exists e. destruct Hla as [_ ?]. done.
Qed.

(** *** Runs *)

Lemma poll_inv c0 L s now (answered : bool) ios : inv c0 L s →
  inv c0 L (poll now (if answered then Some (page L (lastCursor s)) else None) ios s).
Proof.
  intros HI. unfold pollForEvents. destruct (isRunning s) eqn:Hr; [|done]. simpl.
  assert (∀ s', inv c0 L s' → isRunning s' = true → inv c0 L (set_running true true s')) as Hset.
  { intros s' [I1 I2 I3 I4 I5 I6 I7] Hr'. split; auto. }
  destruct answered; [|by apply Hset].
  pose proof (inv_last _ _ _ HI (or_introl Hr)) as Hc. pose proof (inv_ordered _ _ _ HI) as HL.
  rewrite (page_after L _ HL (proj1 Hc)), fetch_withdrawals.
  destruct (batch_inv c0 L (lastCursor s) now [] (withdrawals (take 100 (following (lastCursor s) L))) ios s) as [H1 H2];
    [done..|constructor|]. by apply Hset.
Qed.

Lemma start_inv c0 L s found s' : inv c0 L s → start found s = Some s' → inv c0 L s'.
Proof.
  intros HI. unfold start. destruct (isRunning s) eqn:Hr; [by intros [= <-]|]. destruct HI as [I1 I2 I3 I4 I5 I6 I7].
  destruct found; [|done]. simpl. intros [= <-]. unfold Cursors.findByStreamName.
  destruct (cursors s !! STREAM_NAME) as [c|] eqn:E; split; auto; intros _.
  - apply I3. unfold stored. by rewrite E.
  - apply I2. right. unfold stored. by rewrite E.
Qed.

(** Later operations lie beyond every cursor. *)
Lemma covered_grow c0 L s ops c : ordered (L ++ ops) → covered c0 L s c → covered c0 (L ++ ops) s c.
Proof.
  intros [Hs _] (Hn & Hb & Hc). split_and!; [done| |].
  { destruct Hb as [?|(o & ? & ?)]; [by left|right; exists o; split; [apply elem_of_app; by left|done]]. }
  intros o [Ho|Ho]%elem_of_app Hw Hr; [by apply Hc|]. exfalso. destruct Hb as [?|(o' & Ho' & ?)]; [lia|].
  pose proof (StronglySorted_app_1_elem_of _ _ _ o' o Hs Ho' Ho). simpl in *. lia.
Qed.

Lemma grow_inv c0 L s ops : ordered (L ++ ops) → inv c0 L s → inv c0 (L ++ ops) s.
Proof.
  intros HL [I1 I2 I3 I4 I5 I6 I7]. split; auto using covered_grow.
  intros e u (o & Ho & H)%I7. exists o. split; [apply elem_of_app; by left|done].
Qed.

(** A store as the listener first finds it: a checkpoint at [c0], or none and
    a configured cursor [c0]; nothing applied and no keys of this stream. *)
Definition fresh (c0 : string) (s0 : listener) : Prop :=
  Cursors.numeric c0 = true ∧ applied s0 = [] ∧ letters s0 = [] ∧
  (∀ m, key_rows s0 !! (STREAM_NAME +:+ ":" +:+ m) = None) ∧
  match stored s0 with Some c => c = c0 | None => configCursor = Some c0 end.

Lemma covered_start c0 L s : Cursors.numeric c0 = true → covered c0 L s c0.
Proof. intros H. split_and!; [done|by left|lia]. Qed.

Lemma new_inv c0 L s : ordered L → Cursors.numeric c0 = true → (stored s = None → configCursor = Some c0) →
  (∀ c, stored s = Some c → covered c0 L s c) → (∀ m, key_rows s !! (STREAM_NAME +:+ ":" +:+ m) = None) →
  genuine L s → inv c0 L (new_listener configCursor s).
Proof.
  intros HL Hn Hcfg Hst Hk Hg. split; auto. intros [?|Hnone]; [done|]. rewrite (Hcfg Hnone). simpl.
  destruct (String.eqb_spec c0 EmptyString) as [->|]; [done|]. by apply covered_start.
Qed.

Lemma reach_inv c0 L0 s0 L s : ordered L0 → fresh c0 s0 → reach L0 s0 L s → inv c0 L s.
Proof.
  intros HL (Hn & Ha & _ & Hk & Hst).
  induction 1 as [|L s ops _ IH Hops|L s now answered ios _ IH|L s _ IH|L s found s' _ IH Hs|L s _ IH].
  - apply new_inv; [done..| | |done|].
    + intros E. by rewrite E in Hst.
    + intros c E. rewrite E in Hst. subst c. by apply covered_start.
    + intros e u. by rewrite Ha, elem_of_nil.
  - by apply grow_inv.
  - by apply poll_inv.
  - unfold stop. destruct (isRunning s) eqn:E; [|done]. destruct IH as [I1 I2 I3 I4 I5 I6 I7]. split; auto.
  - by eapply start_inv.
  - destruct IH. by apply new_inv.
Qed.

(** C12. The withdrawal listener skips nothing: however the ledger grows, polls
    fail half way, and the instance is stopped, crashes and is restarted, every
    withdrawal of the ledger from the first cursor up to the stored checkpoint,
    and up to the position of a running listener, has been applied if it is
    valid and is a dead letter otherwise; and every update applied is that of a
    valid withdrawal of the ledger, with the new amount exactly the bond less
    the amount withdrawn, or zero. *)
Theorem withdrawals_not_skipped c0 L0 s0 L s : ordered L0 → fresh c0 s0 → reach L0 s0 L s →
  (∀ o c, o ∈ L → isWithdrawalOperation bondContractAddress o = true →
    stored s = Some c ∨ isRunning s = true ∧ c = lastCursor s →
    BigInt c0 < token_value o ≤ BigInt c → dealt_with s o) ∧
  (∀ e u, (e, u) ∈ applied s →
    (∃ o, o ∈ L ∧ isWithdrawalOperation bondContractAddress o = true ∧ parseWithdrawalEvent o = Some e ∧ valid e = true) ∧
    (amount_value (newAmount u) == Qmax 0 (1000 - amount_value (shown (amount e))))%Q).
Proof.
  intros HL Hf Hr. destruct (reach_inv c0 L0 s0 L s HL Hf Hr) as [I1 I2 I3 I4 I5 I6 I7]. split.
  - intros o c Ho Hw Hc Hlt. destruct Hc as [Hc|[Hrun ->]]; [by apply (I3 c)|by apply I2; auto].
  - intros e u (o & Ho & Hw & Hp & Hv & Hu)%I7. split; [by exists o|].
    pose proof (calculateBondUpdate_exact getBondState (shown (amount e))) as H.
    rewrite (valid_amount e Hv) in H. change (NON_NEGATIVE_DECIMAL_RE getBondState) with true in H.
    destruct H as (u' & Hu' & _ & Hq & _). rewrite Hu in Hu'. injection Hu' as <-. rewrite Hq.
    assert (amount_value getBondState == 1000)%Q as -> by reflexivity. reflexivity.
Qed.

(** *** Where the listener stands still *)

Definition no_failure : event_io :=
  {| capture_ok := true; find_ok := true; connect_ok := true; fate := Commits; save_ok := true; delete_ok := true |}.

(** A valid event is applied and checkpointed, but the consumer reports a
    failure, because the result of its handler cannot be stored: the cursor in
    memory stays, so every poll applies the same event again, and none after
    it, until the listener is restarted. *)
Lemma event_applied_at_every_poll L s now o e post n : ordered L → isRunning s = true →
  Cursors.numeric (lastCursor s) = true → (∀ m, key_rows s !! (STREAM_NAME +:+ ":" +:+ m) = None) →
  withdrawals (take 100 (following (lastCursor s) L)) = o :: post → parseWithdrawalEvent o = Some e → valid e = true →
  Cursors.numeric (paging_token o) = true →
  let s' := Nat.iter n (λ s, poll now (Some (page L (lastCursor s))) (λ _, no_failure) s) s in
  lastCursor s' = lastCursor s ∧ ∃ u, applied s' = applied s ++ replicate n (e, u).
Proof.
  intros HL Hr Hn Hk Hpage Hp Hv Ht.
  destruct (process_valid e s Hv) as (u & _ & Hu & _).
  assert (∀ s1, isRunning s1 = true → lastCursor s1 = lastCursor s → (∀ m, key_rows s1 !! (STREAM_NAME +:+ ":" +:+ m) = None) →
    let s2 := poll now (Some (page L (lastCursor s1))) (λ _, no_failure) s1 in
    isRunning s2 = true ∧ lastCursor s2 = lastCursor s ∧ (∀ m, key_rows s2 !! (STREAM_NAME +:+ ":" +:+ m) = None) ∧
    applied s2 = applied s1 ++ [(e, u)]) as Hstep.
  { intros s1 Hr1 Hl1 Hk1. cbv zeta. unfold pollForEvents. rewrite Hr1, Hl1, (page_after L _ HL Hn), fetch_withdrawals, Hpage.
    simpl omap. rewrite Hp. cbn [negb handle_events].
    destruct (valid_event now no_failure e s1 Hv (Hk1 _)) as (s2 & Heq & HA). rewrite Heq.
    destruct HA as [_ Hrun Hkk _ Hlast _]. simpl. split_and!; [done|by rewrite Hlast|intros m; apply Hkk, Hk1|].
    revert Heq. unfold handle_event, validateMessage, safeParse. rewrite Hv. unfold process_message.
    set (m := STREAM_NAME +:+ ":" +:+ id e) in *. simpl. unfold findByKey. rewrite (Hk1 (id e) : key_rows s1 !! m = None).
    destruct (process_valid e s1 Hv) as (u' & s3 & Hu' & Hp3 & Ha3 & _ & Hc3 & _). rewrite Hu in Hu'. injection Hu' as <-.
    unfold checkpointed. simpl. rewrite Hp3. simpl.
    destruct (Cursors.upsertCursor _ _ _ _); simpl; intros [= <-]; exact Ha3. }
  intros s'. enough (isRunning s' = true ∧ lastCursor s' = lastCursor s ∧
    (∀ m, key_rows s' !! (STREAM_NAME +:+ ":" +:+ m) = None) ∧ applied s' = applied s ++ replicate n (e, u)) as H.
  { destruct H as (_ & H1 & _ & H2). split; [done|by exists u]. }
  subst s'. induction n as [|n IH]; [simpl; rewrite app_nil_r; done|].
  destruct IH as (H1 & H2 & H3 & H4). destruct (Hstep _ H1 H2 H3) as (H5 & H6 & H7 & H8).
  split_and!; [done..|]. rewrite Nat.iter_succ, H8, H4, <- app_assoc. by rewrite <- replicate_S_end.
Qed.

(** The cursor moves over withdrawals only: a hundred other operations in a
    row are fetched for ever, however the ledger grows behind them. *)
Lemma other_operations_stall L ops s now ios : ordered (L ++ ops) → Cursors.numeric (lastCursor s) = true →
  length (following (lastCursor s) L) = 100%nat → withdrawals (following (lastCursor s) L) = [] →
  let s' := poll now (Some (page (L ++ ops) (lastCursor s))) ios s in
  lastCursor s' = lastCursor s ∧ applied s' = applied s ∧ letters s' = letters s ∧ cursors s' = cursors s.
Proof.
  intros HL Hn Hlen Hw. cbv zeta. unfold pollForEvents. destruct (isRunning s); [|done]. simpl negb.
  rewrite (page_after _ _ HL Hn), filter_app, take_app_le by lia. rewrite take_ge by lia. rewrite fetch_withdrawals, Hw. done.
Qed.

(** A poll at [now] sees nothing and the cursor stays [now]: without a stored
    checkpoint the default configuration never applies an event. *)
Lemma now_never_advances L s now (answered : bool) ios : lastCursor s = "now" →
  let s' := poll now (if answered then Some (page L (lastCursor s)) else None) ios s in
  lastCursor s' = "now" ∧ applied s' = applied s ∧ letters s' = letters s.
Proof. intros Hn. cbv zeta. unfold pollForEvents. rewrite Hn, page_now. by destruct (isRunning s), answered. Qed.

(** An operation id without a dash is read as an operation index, and the
    schema admits safe integers only: the ids of Horizon, which are beyond them,
    make every withdrawal a dead letter. *)
Lemma large_ids_rejected o e : (∀ n, zod_int n = true → n < 2 ^ 53) → parseWithdrawalEvent o = Some e →
  no_char "-" (op_id o) → Cursors.numeric (op_id o) = true → 2 ^ 53 ≤ BigInt (op_id o) → valid e = false.
Proof.
  intros Hz Hp Hd Hnum Hbig. destruct (valid e) eqn:Hv; [|done]. exfalso.
  unfold parseWithdrawalEvent in Hp. destruct (String.eqb (op_type o) "payment"); [|done].
  injection Hp as <-. unfold withdrawalEventSchema in Hv. simpl in Hv. breflect.
  destruct Hv as [[_ Hi] _]. rewrite split_on_id in Hi by done. simpl in Hi.
  unfold Cursors.numeric in Hnum. breflect. rewrite parseInt_digits in Hi by naive_solver. simpl in Hi. apply Hz in Hi. lia.
Qed.

End Runs.

Definition payment (i : string) (amt : string) : operation :=
  {| op_id := i; paging_token := i; op_type := "payment"; created_at := Some 0; from := Some "GA"; source_account := None;
     op_amount := Some amt; asset_type := Some "native"; asset_code := None; asset_issuer := None;
     transaction_hash := Some "abc" |}.

Definition empty_store : listener :=
  {| cursors := ∅; key_rows := ∅; letters := []; isRunning := false; pollTimer := false; lastCursor := EmptyString;
     applied := []; snapshots := [] |}.

Definition safe_int (n : Z) : bool := n <? 2 ^ 53.

(** A negative amount is a dead letter; the withdrawal behind it is applied. *)
Lemma withdrawals_not_skipped_witness : ∃ s,
  reach None (Some "100") safe_int (λ _, []) (λ _, EmptyString) [payment "101" "-5"; payment "102" "250"] empty_store
    [payment "101" "-5"; payment "102" "250"] s ∧
  stored s = Some "102" ∧ lastCursor s = "101" ∧
  dealt_with safe_int s (payment "101" "-5") ∧ dealt_with safe_int s (payment "102" "250").
Proof.
  eexists. split; [eapply (reach_poll _ _ _ _ _ _ _ _ _ 7 true (λ _, no_failure)), (reach_start _ _ _ _ _ _ _ _ _ true);
    [apply reach_init|reflexivity]|].
  split; [vm_compute; reflexivity|]. split; [vm_compute; reflexivity|].
  split; (eapply (withdrawals_not_skipped None (Some "100") safe_int (λ _, []) (λ _, EmptyString) "100"
    [payment "101" "-5"; payment "102" "250"] empty_store);
    [split; repeat constructor|split_and!; [done..|intros m; apply lookup_empty|done]
    |eapply (reach_poll _ _ _ _ _ _ _ _ _ 7 true (λ _, no_failure)), (reach_start _ _ _ _ _ _ _ _ _ true);
       [apply reach_init|reflexivity]|set_solver|done|left; vm_compute; reflexivity|vm_compute; done]).
Defined.
