(* ===== verification/BondStream.v ===== *)
(** * Bond creation: the stream, the event ledger and the parity check

    [listeners/horizonBondEvents.ts] with [utils/backoff.ts], the upserts of
    [services/identityService.ts] on the identities of
    [migrations/001_initial_schema.ts], the ledger of
    [db/repositories/horizonEventRepository.ts], and the verifier of
    [services/horizonParity.ts]. The listener writes identity, ledger record
    and cursor in one transaction; the verifier folds the ledger and compares
    the fold with the identities. *)

From stdpp Require Import base option list strings gmap sorting.
From Stdlib Require Import ZArith Lia Ascii QArith Qround Lqa Sorting.Sorted.
From S2P Require Import Prelude JsLib Withdrawals.

Open Scope Z_scope.

(** ** Reconnecting with bounded backoff *)

Module Backoff.

Inductive JitterStrategy := JNone | JFull | JEqual | JDecorrelated.

Record options := { baseMs : Z; maxMs : Z; maxAttempts : Z; jitter : JitterStrategy }.

Definition default_options : options := {| baseMs := 500; maxMs := 30000; maxAttempts := 0; jitter := JFull |}.

(** [pending]: a timer is armed and its promise not settled. *)
Record backoff := { attempt : nat; totalReconnects : nat; previousDelay : Z; pending : bool; stopped : bool }.

Definition new (o : options) : backoff :=
  {| attempt := 0; totalReconnects := 0; previousDelay := baseMs o; pending := false; stopped := false |}.

Inductive waiting := Waits (delay : Z) | RejectStopped | RejectExhausted.

(** [r] is the random number drawn. *)
Definition computeDelay (o : options) (b : backoff) (r : Q) (cap : Z) : Z :=
  match jitter o with
  | JNone => cap
  | JFull => Qfloor (r * inject_Z cap)
  | JEqual => Qfloor (inject_Z cap / 2 + r * (inject_Z cap / 2))
  | JDecorrelated => Z.min cap (Qfloor (inject_Z (baseMs o) + r * inject_Z (previousDelay b * 3 - baseMs o)))
  end.

Definition wait (o : options) (r : Q) (b : backoff) : backoff * waiting :=
  if stopped b then (b, RejectStopped)
  else if (0 <? maxAttempts o) && (maxAttempts o <=? Z.of_nat (attempt b)) then (b, RejectExhausted)
  else
    let cap := Z.min (maxMs o) (baseMs o * 2 ^ Z.of_nat (attempt b)) in
    let delay := computeDelay o b r cap in
    ({| attempt := S (attempt b); totalReconnects := S (totalReconnects b);
        previousDelay := if 0 <=? delay then delay else 0; pending := true; stopped := stopped b |}, Waits delay).

(** The timer fires. *)
Definition elapsed (b : backoff) : backoff :=
  {| attempt := attempt b; totalReconnects := totalReconnects b; previousDelay := previousDelay b; pending := false;
     stopped := stopped b |}.

Definition reset (o : options) (b : backoff) : backoff :=
  {| attempt := 0; totalReconnects := totalReconnects b; previousDelay := baseMs o; pending := pending b; stopped := stopped b |}.

(** The pending promise, if any, is rejected. *)
Definition stop (b : backoff) : backoff * bool :=
  ({| attempt := attempt b; totalReconnects := totalReconnects b; previousDelay := previousDelay b; pending := false;
      stopped := true |}, pending b).

Lemma floor_le_Z q n : (q <= inject_Z n)%Q → Qfloor q ≤ n.
Proof. intros H. rewrite <- (Qfloor_Z n). by apply Qfloor_resp_le. Qed.

Lemma floor_ge_Z q n : (inject_Z n <= q)%Q → n ≤ Qfloor q.
Proof. intros H. rewrite <- (Qfloor_Z n) at 1. by apply Qfloor_resp_le. Qed.

(** Every delay lies between zero and the cap, which doubles with the attempts
    and never exceeds the maximum; a bounded number of attempts is never
    exceeded before a reset, and nothing waits after a stop. *)
Lemma backoff_bounded o r b : 0 ≤ baseMs o → 0 ≤ maxMs o → 0 ≤ previousDelay b → (0 <= r)%Q → (r < 1)%Q →
  match wait o r b with
  | (b', Waits delay) => 0 ≤ delay ≤ Z.min (maxMs o) (baseMs o * 2 ^ Z.of_nat (attempt b)) ∧ stopped b = false ∧
      0 ≤ previousDelay b' ∧ attempt b' = S (attempt b) ∧ (0 < maxAttempts o → Z.of_nat (attempt b') ≤ maxAttempts o)
  | (b', RejectStopped) => b' = b ∧ stopped b = true
  | (b', RejectExhausted) => b' = b ∧ 0 < maxAttempts o ≤ Z.of_nat (attempt b)
  end.
Proof.
  intros Hb Hm Hp Hr0 Hr1. unfold wait. destruct (stopped b) eqn:Es; [done|].
  destruct (_ && _) eqn:Ex; [breflect; simpl in *; split; [done|lia]|].
  set (cap := Z.min (maxMs o) (baseMs o * 2 ^ Z.of_nat (attempt b))).
  assert (0 ≤ cap) as Hc by (unfold cap; pose proof (Z.pow_nonneg 2 (Z.of_nat (attempt b)) ltac:(lia)); nia).
  assert (0 <= inject_Z cap)%Q as Hcq by (change 0%Q with (inject_Z 0); by rewrite <- Zle_Qle).
  assert (0 ≤ computeDelay o b r cap ≤ cap) as Hd.
  { unfold computeDelay. destruct (jitter o); [lia|split|split|].
    - apply floor_ge_Z. change (inject_Z 0) with 0%Q. nra.
    - apply floor_le_Z. nra.
    - apply floor_ge_Z. change (inject_Z 0) with 0%Q. unfold Qdiv. change (/ 2)%Q with (1 # 2). nra.
    - apply floor_le_Z. unfold Qdiv. change (/ 2)%Q with (1 # 2). nra.
    - split; [|lia]. apply Z.min_glb; [done|]. apply floor_ge_Z. change (inject_Z 0) with 0%Q.
      unfold Z.sub. rewrite inject_Z_plus, inject_Z_opp, inject_Z_mult. change (inject_Z 3) with 3%Q.
      assert (0 <= inject_Z (baseMs o))%Q by (change 0%Q with (inject_Z 0); by rewrite <- Zle_Qle).
      assert (0 <= inject_Z (previousDelay b))%Q by (change 0%Q with (inject_Z 0); by rewrite <- Zle_Qle). nra. }
  simpl. split_and!; [lia..|done| |done|].
  - by destruct (Z.leb_spec 0 (computeDelay o b r cap)).
  - intros. apply andb_false_iff in Ex as [Ex|Ex]; breflect; lia.
Qed.

End Backoff.

(** ** Identities *)

Record identity_row := {
  bonded_amount : string;
  bond_start : option Z;
  bond_duration : option Z;
  active : bool
}.

Abbreviation identities := (gmap string identity_row).

Inductive stream_error :=
| SqlError (code : string)
| LedgerInput
| LedgerToken (t : string)
| CursorError (e : Cursors.cursor_error)
| ConnectionError.

Record Bond := { bond_id : string; bond_address : string; bond_amount : string; duration : option string }.

(** The columns: [address] varchar(64), [bonded_amount] varchar(78),
    [bond_duration] integer. *)
Definition upsertIdentity (address : string) (t : identities) : result stream_error identities :=
  _ ← throw_if (64 <? slen address) (SqlError "22001");
  Ok (match t !! address with
      | Some _ => t
      | None => <[address := {| bonded_amount := "0"; bond_start := None; bond_duration := None; active := false |}]> t
      end).

(** [NaN] is no integer for the column. *)
Definition durationSeconds (d : option string) : result stream_error (option Z) :=
  if falsy d then Ok None
  else match parseInt (default EmptyString d) 10 with
       | None => Err (SqlError "22P02")
       | Some n => if (- 2 ^ 31 <=? n) && (n <? 2 ^ 31) then Ok (Some n) else Err (SqlError "22003")
       end.

Definition upsertBond (now : Z) (b : Bond) (t : identities) : result stream_error identities :=
  d ← durationSeconds (duration b);
  _ ← throw_if (78 <? slen (bond_amount b)) (SqlError "22001");
  Ok (match t !! bond_address b with
      | None => t
      | Some r => <[bond_address b := {| bonded_amount := bond_amount b; bond_start := Some (default now (bond_start r));
                                         bond_duration := d; active := true |}]> t
      end).

(** ** States and events *)

Record IdentityStateView := {
  address : string;
  bondedAmount : string;
  hasBondStart : bool;
  bondDuration : option Z;
  v_active : bool
}.

#[export] Instance view_eq_dec : EqDecision IdentityStateView.
Proof. solve_decision. Defined.

(** The event payload: the identity and its bond. *)
Record BondCreationEventPayload := { identity_id : string; bond : Bond }.

(** A duration that is not a number is [null]. *)
Definition stateFromBondEvent (p : BondCreationEventPayload) : IdentityStateView :=
  let d := if falsy (duration (bond p)) then None else parseInt (default EmptyString (duration (bond p))) 10 in
  {| address := bond_address (bond p); bondedAmount := bond_amount (bond p); hasBondStart := true; bondDuration := d;
     v_active := true |}.

(** [Number] is the rounding of an integer to a double. *)
Definition extractLedgerSeq (Number : Z → Z) (token : string) : option Z :=
  Number <$> parseInt (default EmptyString (head (split_on "-" token))) 10.

(** ** The ledger *)

Record HorizonEventRecord := {
  row_id : nat;
  streamName : string;
  eventId : string;
  pagingToken : string;
  ledgerSeq : option Z;
  eventType : string;
  payload : BondCreationEventPayload;
  stateHash : option string
}.

Definition findByStreamAndEvent (stream event : string) (l : list HorizonEventRecord) : option HorizonEventRecord :=
  head (filter (λ r, streamName r = stream ∧ eventId r = event) l).

(** The insert is a no-op when the pair is there; [true] when it inserted. *)
Definition record (stream event token : string) (seq : option Z) (type : string) (p : BondCreationEventPayload)
    (hash : option string) (l : list HorizonEventRecord) : result stream_error (list HorizonEventRecord * bool) :=
  _ ← throw_if (String.eqb (trim stream) EmptyString || String.eqb (trim event) EmptyString) LedgerInput;
  _ ← throw_if (negb (Cursors.numeric token) && negb (String.eqb token "now")) (LedgerToken token);
  match findByStreamAndEvent stream event l with
  | Some _ => Ok (l, false)
  | None => Ok (l ++ [{| row_id := length l; streamName := stream; eventId := event; pagingToken := token; ledgerSeq := seq;
                         eventType := type; payload := p; stateHash := hash |}], true)
  end.

(** [LIMIT] of a listing. *)
Definition list_limit (limit : option Z) : Z := Z.min (Z.max (default 1000 limit) 1) 5000.

(** [ordered] is ORDER BY paging_token, id, and [after] the comparison of the
    column, under the collation of the database. *)
Definition list_events (ordered : list HorizonEventRecord → list HorizonEventRecord) (after : string → string → bool)
    (stream : string) (limit : option Z) (afterPagingToken : option string) (l : list HorizonEventRecord)
  : list HorizonEventRecord :=
  let rows := filter (λ r, streamName r = stream ∧
                           (falsy afterPagingToken || after (default EmptyString afterPagingToken) (pagingToken r)) = true) l in
  take (Z.to_nat (list_limit limit)) (ordered rows).

Definition count (stream : option string) (l : list HorizonEventRecord) : Z :=
  Z.of_nat (length (if falsy stream then l else filter (λ r, Some (streamName r) = stream) l)).

(** ** The parity check *)

Section Parity.
Variable sha256 : string → string.
Variable canonical : IdentityStateView → string.              (* JSON.stringify *)
Variable localeCompare : string → string → Z.                 (* with numeric collation *)
Variable idCompare : nat → nat → Z.

Definition computeStateHash (s : IdentityStateView) : string := sha256 (canonical s).

Definition compare_events (a b : HorizonEventRecord) : Z :=
  let cmp := localeCompare (pagingToken a) (pagingToken b) in
  if negb (cmp =? 0) then cmp else idCompare (row_id a) (row_id b).

(** [Array.prototype.sort] is stable. *)
Fixpoint insert_event (e : HorizonEventRecord) (l : list HorizonEventRecord) : list HorizonEventRecord :=
  match l with
  | [] => [e]
  | x :: l' => if compare_events e x <=? 0 then e :: l else x :: insert_event e l'
  end.

Definition sort_events (l : list HorizonEventRecord) : list HorizonEventRecord := foldr insert_event [] l.

Abbreviation buckets := (jsmap string (IdentityStateView * gset string)).

Definition fold_event (m : buckets) (e : HorizonEventRecord) : buckets :=
  if negb (String.eqb (eventType e) "create_bond") then m
  else
    let p := payload e in
    let a := bond_address (bond p) in
    if String.eqb a EmptyString then m
    else
      let '(last, seenEvents) := default (stateFromBondEvent p, ∅) (jm_get a m) in
      if bool_decide (eventId e ∈ seenEvents) then m
      else
        let candidate := stateFromBondEvent p in
        jm_set a ({| address := a; bondedAmount := bondedAmount candidate;
                     hasBondStart := hasBondStart last || hasBondStart candidate;
                     bondDuration := bondDuration candidate; v_active := true |}, {[eventId e]} ∪ seenEvents) m.

Definition applyBondEvents (events : list HorizonEventRecord) : jsmap string IdentityStateView :=
  (λ x, (x.1, x.2.1)) <$> foldl fold_event [] (sort_events events).

Inductive finding :=
| record_hash_mismatch (addr event expected actual : string)
| state_mismatch (addr : string) (expected actual : IdentityStateView)
| event_without_state (addr : string) (expected : IdentityStateView)
| state_without_event (addr : string) (actual : IdentityStateView).

Definition check_record (e : HorizonEventRecord) : option finding :=
  if negb (String.eqb (eventType e) "create_bond") then None
  else
    let expected := computeStateHash (stateFromBondEvent (payload e)) in
    match stateHash e with
    | Some h => if String.eqb h expected then None
                else Some (record_hash_mismatch (bond_address (bond (payload e))) (eventId e) expected h)
    | None => None
    end.

(** The fields compared; the address is the key. *)
Definition same_state (e a : IdentityStateView) : bool :=
  String.eqb (bondedAmount e) (bondedAmount a) && Bool.eqb (hasBondStart e) (hasBondStart a) &&
  bool_decide (bondDuration e = bondDuration a) && Bool.eqb (v_active e) (v_active a).

Definition check_state (get : string → option IdentityStateView) (x : string * IdentityStateView) : option finding :=
  match get x.1 with
  | None => Some (event_without_state x.1 x.2)
  | Some actual => if same_state x.2 actual then None else Some (state_mismatch x.1 x.2 actual)
  end.

Definition check_known (get : string → option IdentityStateView) (with_events : list string) (a : string) : option finding :=
  if bool_decide (a ∈ with_events) then None
  else match get a with
       | Some actual => if v_active actual || negb (String.eqb (bondedAmount actual) "0")
                        then Some (state_without_event a actual) else None
       | None => None
       end.

Definition finding_address (f : finding) : option string :=
  match f with
  | record_hash_mismatch _ _ _ _ => None
  | state_mismatch a _ _ | event_without_state a _ | state_without_event a _ => Some a
  end.

Record HorizonParityReport := {
  totalEvents : Z;
  totalAddresses : Z;
  matchedAddresses : Z;
  mismatchedAddresses : Z;
  findings : list finding;
  valid : bool
}.

Definition verifyHorizonParity (events : list HorizonEventRecord) (get : string → option IdentityStateView)
    (knownAddresses : list string) : HorizonParityReport :=
  let expected := applyBondEvents events in
  let fs := omap check_record events ++ omap (check_state get) expected ++
            omap (check_known get (jm_keys expected)) knownAddresses in
  let mismatched := Z.of_nat (size (list_to_set (omap finding_address fs) : gset string)) in
  {| totalEvents := Z.of_nat (length events); totalAddresses := Z.of_nat (length expected);
     matchedAddresses := Z.of_nat (length expected) - mismatched; mismatchedAddresses := mismatched; findings := fs;
     valid := bool_decide (length fs = 0%nat) |}.

(** [HorizonParityService.verify]: the listing has its default limit. *)
Definition verify_stream (ordered : list HorizonEventRecord → list HorizonEventRecord) (after : string → string → bool)
    (stream : string) (get : string → option IdentityStateView) (addresses : list string) (l : list HorizonEventRecord)
  : HorizonParityReport :=
  verifyHorizonParity (list_events ordered after stream None None l) get addresses.

End Parity.

(** The state of an identity as a reader shows it. *)
Definition view_of (a : string) (r : identity_row) : IdentityStateView :=
  {| address := a; bondedAmount := bonded_amount r; hasBondStart := isSome (bond_start r); bondDuration := bond_duration r;
     v_active := active r |}.

Definition reader (t : identities) (a : string) : option IdentityStateView := view_of a <$> t !! a.

(** ** The listener *)

Definition BOND_STREAM : string := "bond_creation".

(** The fields of a streamed operation; a field that is not a string counts as
    missing, and a duration is missing, [null] or a string. *)
Record bond_op := {
  o_type : string;
  o_token : string;
  o_source : option string;
  o_id : option string;
  o_amount : option string;
  o_duration : option (option string)
}.

Definition integer_string (s : string) : bool := negb (String.eqb s EmptyString) && str_forallb is_digit s.

(** [strkey] is the test of the Stellar SDK. *)
Definition bondOperationSchema (strkey : string → bool) (o : bond_op) : option (string * string * string) :=
  a ← o_source o; i ← o_id o; m ← o_amount o;
  if (slen a <=? 128) && strkey a && min1 i && (slen i <=? 256) && (slen m <=? 32) && integer_string m &&
     match o_duration o with Some (Some d) => slen d <=? 32 | _ => true end
  then Some (a, i, m) else None.

Definition parseBondEvent (o : bond_op) (x : string * string * string) : BondCreationEventPayload :=
  let '(a, i, m) := x in
  {| identity_id := a; bond := {| bond_id := i; bond_address := a; bond_amount := m; duration := mjoin (o_duration o) |} |}.

Record tables := { identity_rows : identities; events : list HorizonEventRecord; b_cursors : Cursors.table }.

(** A listener: the tables, the dead letters, the cursor in memory, and the
    position of the open stream. *)
Record stream := {
  db : tables;
  dlq : list (string * bond_op * string);
  cursor : string;
  position : option nat;
  s_stopped : bool;
  retry : Backoff.backoff
}.

(** How the sink and the database treat one message. *)
Record message_io := { route_ok : bool; reroute_ok : bool; b_connect_ok : bool; b_fate : tx_fate }.

Section Listener.
Variable sha256 : string → string.
Variable canonical : IdentityStateView → string.
Variable Number : Z → Z.
Variable strkey : string → bool.
Variable zod_issues : bond_op → list (list string * string).
Variable message : stream_error → string.

(** The statements of the transaction. *)
Definition persist (now : Z) (token : string) (p : BondCreationEventPayload) (t : tables) : result stream_error tables :=
  i1 ← upsertIdentity (identity_id p) (identity_rows t);
  i2 ← upsertBond now (bond p) i1;
  l ← record BOND_STREAM (bond_id (bond p)) token (extractLedgerSeq Number token) "create_bond" p
        (Some (computeStateHash sha256 canonical (stateFromBondEvent p))) (events t);
  c ← match Cursors.upsertCursor now BOND_STREAM token (b_cursors t) with Ok c => Ok c | Err e => Err (CursorError e) end;
  Ok {| identity_rows := i2; events := l.1; b_cursors := c |}.

Definition transact (now : Z) (io : message_io) (token : string) (p : BondCreationEventPayload) (t : tables)
  : tables * result stream_error () :=
  if negb (b_connect_ok io) then (t, Err ConnectionError)
  else match b_fate io, persist now token p t with
       | BeginFails, _ | CursorFails, _ => (t, Err ConnectionError)
       | _, Err e => (t, Err e)
       | CommitFails, Ok _ => (t, Err ConnectionError)
       | CommitUnseen, Ok t' => (t', Err ConnectionError)
       | Commits, Ok t' => (t', Ok ())
       end.

Definition set_dlq (l : list (string * bond_op * string)) (s : stream) : stream :=
  {| db := db s; dlq := l; cursor := cursor s; position := position s; s_stopped := s_stopped s; retry := retry s |}.

(** The [catch] clause. *)
Definition on_failure (io : message_io) (o : bond_op) (e : stream_error) (s : stream) : stream :=
  if reroute_ok io then set_dlq (dlq s ++ [route BOND_STREAM o PROCESSING_ERROR (message e)]) s else s.

Definition parse_op (o : bond_op) : (string * string * string) + list (list string * string) :=
  match bondOperationSchema strkey o with Some x => inl x | None => inr (zod_issues o) end.

Definition onmessage (now : Z) (io : message_io) (o : bond_op) (s : stream) : stream :=
  if negb (String.eqb (o_type o) "create_bond") then s
  else
    match validateMessage parse_op o with
    | Invalid c detail =>
        if route_ok io then set_dlq (dlq s ++ [route BOND_STREAM o c detail]) s else on_failure io o ConnectionError s
    | Valid x =>
        match transact now io (o_token o) (parseBondEvent o x) (db s) with
        | (t, Err e) =>
            on_failure io o e {| db := t; dlq := dlq s; cursor := cursor s; position := position s; s_stopped := s_stopped s;
                                 retry := retry s |}
        | (t, Ok _) =>
            {| db := t; dlq := dlq s; cursor := o_token o; position := position s; s_stopped := s_stopped s;
               retry := Backoff.reset Backoff.default_options (retry s) |}
        end
    end.

End Listener.

(** ** The stream and its runs *)

Definition op_value (o : bond_op) : Z := BigInt (o_token o).

(** The operations of the chain: numeric tokens in increasing order, and ids of
    their own. *)
Definition chain (L : list bond_op) : Prop :=
  StronglySorted (λ a b, op_value a < op_value b) L ∧ Forall (λ o, Cursors.numeric (o_token o) = true) L ∧
  ∀ a b, a ∈ L → b ∈ L → is_Some (o_id a) → o_id a = o_id b → a = b.

(** Where a stream opened at a cursor starts: behind the cursor, or, for [now],
    behind what there is. *)
Class StreamServer := {
  seek : list bond_op → string → nat;
  seek_after L c i o : chain L → Cursors.numeric c = true → L !! i = Some o → (seek L c ≤ i)%nat ↔ BigInt c < op_value o;
  seek_now L : seek L "now" = length L
}.

Definition set_position (p : option nat) (s : stream) : stream :=
  {| db := db s; dlq := dlq s; cursor := cursor s; position := p; s_stopped := s_stopped s; retry := retry s |}.

Definition set_retry (b : Backoff.backoff) (s : stream) : stream :=
  {| db := db s; dlq := dlq s; cursor := cursor s; position := position s; s_stopped := s_stopped s; retry := b |}.

Definition startStream `{!StreamServer} (L : list bond_op) (s : stream) : stream :=
  if s_stopped s then s else set_position (Some (seek L (cursor s))) s.

(** [subscribeBondCreationEvents]; [found] is false when the cursor cannot be
    read. *)
Definition initAndStart `{!StreamServer} (found : bool) (L : list bond_op) (t : tables) (letters : list (string * bond_op * string))
  : stream :=
  let saved := if found then Cursors.findByStreamName BOND_STREAM (b_cursors t) else None in
  startStream L {| db := t; dlq := letters; cursor := match saved with Some c => Cursors.pagingToken c | None => "now" end;
                   position := None; s_stopped := false; retry := Backoff.new Backoff.default_options |}.

(** [onerror]: wait, then open the stream again. The source does not close the
    stream that failed; here it delivers nothing more. *)
Definition onerror `{!StreamServer} (r : Q) (L : list bond_op) (s : stream) : stream :=
  if s_stopped s then s
  else match Backoff.wait Backoff.default_options r (retry s) with
       | (b, Backoff.Waits _) => startStream L (set_retry (Backoff.elapsed b) s)
       | (b, _) => set_retry b s
       end.

Definition stop_stream (s : stream) : stream :=
  {| db := db s; dlq := dlq s; cursor := cursor s; position := None; s_stopped := true;
     retry := (Backoff.stop (retry s)).1 |}.

(** ** What the fold of the ledger is *)

Definition at_address (a : string) (r : HorizonEventRecord) : Prop := bond_address (bond (payload r)) = a.
#[export] Instance at_address_dec a r : Decision (at_address a r).
Proof. unfold at_address. apply _. Defined.

Definition proper_record (r : HorizonEventRecord) : Prop :=
  eventType r = "create_bond" ∧ bond_address (bond (payload r)) ≠ EmptyString.

Lemma fold_events_spec l : Forall proper_record l → NoDup (eventId <$> l) →
  let m := foldl fold_event [] l in
  NoDup (jm_keys m) ∧ ∀ a, jm_get a m =
    (λ r, (stateFromBondEvent (payload r), list_to_set (eventId <$> filter (at_address a) l) : gset string)) <$>
      last (filter (at_address a) l).
Proof.
  induction l as [|r l IH] using rev_ind; intros Hp Hnd; [split; [constructor|done]|].
  apply Forall_app in Hp as [Hp Hr]. apply Forall_singleton in Hr as [Ht Ha].
  rewrite fmap_app in Hnd. apply NoDup_app in Hnd as (Hnd & Hni & _).
  destruct (IH Hp Hnd) as [Hk Hg]. cbv zeta in *. rewrite foldl_app. cbn [foldl].
  set (m := foldl fold_event [] l) in *. unfold fold_event. rewrite Ht.
  change (String.eqb "create_bond" "create_bond") with true. cbn [negb].
  apply String.eqb_neq in Ha. rewrite Ha. rewrite Hg. set (A := bond_address (bond (payload r))) in *.
  assert (∀ a, filter (at_address a) (l ++ [r]) = filter (at_address a) l ++ if decide (A = a) then [r] else []) as Hf.
  { intros a. rewrite filter_app. f_equal. }
  set (o := (λ r0, _) <$> last (filter (at_address A) l)).
  assert (∃ v, default (stateFromBondEvent (payload r), ∅) o =
    (v, list_to_set (eventId <$> filter (at_address A) l) : gset string)) as [v ->].
  { subst o. destruct (last (filter (at_address A) l)) eqn:El; simpl; [by eexists|].
    apply last_None in El. rewrite El. by eexists. }
  rewrite bool_decide_eq_false_2.
  2:{ rewrite elem_of_list_to_set. intros (r' & Heq & [_ Hin]%list_elem_of_filter)%list_elem_of_fmap.
      apply (Hni (eventId r)); [rewrite Heq; by apply list_elem_of_fmap_2|by left]. }
  cbv beta iota. split; [by apply jm_NoDup_set|]. intros a. rewrite jm_get_set, Hf. destruct (decide (A = a)) as [<-|Hne].
  - rewrite last_snoc. simpl. f_equal. f_equal.
    + unfold stateFromBondEvent. simpl. by rewrite orb_true_r.
    + rewrite fmap_app, list_to_set_app_L. simpl. set_solver.
  - by rewrite app_nil_r.
Qed.

Lemma jm_get_fmap {V W} (f : V → W) k (m : jsmap string V) : jm_get k ((λ e, (e.1, f e.2)) <$> m) = f <$> jm_get k m.
Proof. induction m as [|[k0 v0] m IH]; simpl; [done|]. by case_decide. Qed.

(** *** Sorting *)

(** Numeric collation compares strings of digits by their value. *)
Class NumericCollation (localeCompare : string → string → Z) : Prop := {
  collate_digits a b : Cursors.numeric a = true → Cursors.numeric b = true →
    (localeCompare a b < 0 ↔ BigInt a < BigInt b) ∧ (0 < localeCompare a b ↔ BigInt b < BigInt a)
}.

Definition record_value (r : HorizonEventRecord) : Z := BigInt (pagingToken r).

Section Fold.
Context (localeCompare : string → string → Z) (idCompare : nat → nat → Z) `{NC : !NumericCollation localeCompare}.

Abbreviation sorted l := (StronglySorted (λ a b, record_value a < record_value b) l).
Abbreviation digits := (Forall (λ r, Cursors.numeric (pagingToken r) = true)).

Lemma compare_events_le a b : Cursors.numeric (pagingToken a) = true → Cursors.numeric (pagingToken b) = true →
  record_value a ≠ record_value b → compare_events localeCompare idCompare a b ≤ 0 ↔ record_value a < record_value b.
Proof.
  intros Ha Hb Hne. unfold compare_events. destruct (collate_digits (pagingToken a) (pagingToken b) Ha Hb) as [H1 H2].
  unfold record_value in *. destruct (Z.eqb_spec (localeCompare (pagingToken a) (pagingToken b)) 0); simpl; lia.
Qed.

Lemma insert_event_sorted e l : sorted l → digits (e :: l) → Forall (λ x, record_value x ≠ record_value e) l →
  sorted (insert_event localeCompare idCompare e l) ∧ insert_event localeCompare idCompare e l ≡ₚ e :: l.
Proof.
  intros Hs Hd Hn. apply Forall_cons in Hd as [He Hd]. induction l as [|x l IH]; simpl.
  - split; [repeat constructor|done].
  - apply StronglySorted_cons in Hs as [Hx Hs]. apply Forall_cons in Hd as [Hdx Hd]. apply Forall_cons in Hn as [Hnx Hn].
    destruct (IH Hs Hd Hn) as [H1 H2]. pose proof (compare_events_le e x He Hdx ltac:(lia)) as Hc.
    destruct (Z.leb_spec (compare_events localeCompare idCompare e x) 0) as [Hle|Hgt].
    + split; [|done]. constructor; [by constructor|]. constructor; [lia|].
      eapply Forall_impl; [exact Hx|]. simpl. intros; lia.
    + split; [|by rewrite H2, Permutation_swap]. constructor; [done|]. rewrite H2. constructor; [lia|done].
Qed.

(** Whatever order the rows come in, the sort puts them in the order of their
    tokens. *)
Lemma sort_events_spec evs l : evs ≡ₚ l → sorted l → digits l → sort_events localeCompare idCompare evs = l.
Proof.
  intros Hp Hs Hd. assert (NoDup (record_value <$> l)) as Hnd.
  { clear -Hs. induction Hs as [|x l _ IH Hx]; [constructor|]. simpl. apply NoDup_cons. split; [|done].
    intros (y & Heq & Hy)%list_elem_of_fmap. rewrite Forall_forall in Hx. specialize (Hx y Hy). simpl in Hx. lia. }
  assert (NoDup (record_value <$> evs)) as Hnd' by (by rewrite Hp). assert (digits evs) as Hd' by (by rewrite Hp).
  assert (sorted (sort_events localeCompare idCompare evs) ∧ sort_events localeCompare idCompare evs ≡ₚ evs) as [H1 H2].
  { clear -Hnd' Hd' NC. induction evs as [|e evs IH]; simpl; [by split; [constructor|]|].
    simpl in Hnd'. apply NoDup_cons in Hnd' as [Hni Hnd]. apply Forall_cons in Hd' as [He Hd]. destruct (IH Hnd Hd) as [H1 H2].
    destruct (insert_event_sorted e (sort_events localeCompare idCompare evs)) as [H3 H4];
      [done|by rewrite H2; constructor| |split; [done|by rewrite H4, H2]].
    rewrite H2, Forall_forall. intros x Hx Heq. apply Hni, list_elem_of_fmap. by exists x. }
  apply (StronglySorted_unique_strong (λ a b, record_value a < record_value b)); [|done..|by rewrite H2].
  simpl. intros x y _ _ Hxy Hyx. lia.
Qed.

End Fold.

(** ** What a report says *)

(** A report is valid exactly when every recorded hash is that of its payload,
    the identity of every address of the ledger is the state its last event
    implies, and no other known address has a bond. *)
Lemma parity_report_exact sha256 canonical localeCompare idCompare evs l get known : NumericCollation localeCompare →
  evs ≡ₚ l → StronglySorted (λ a b, record_value a < record_value b) l →
  Forall (λ r, Cursors.numeric (pagingToken r) = true) l → Forall proper_record l → NoDup (eventId <$> l) →
  valid (verifyHorizonParity sha256 canonical localeCompare idCompare evs get known) = true ↔
  (∀ r h, r ∈ l → stateHash r = Some h → h = computeStateHash sha256 canonical (stateFromBondEvent (payload r))) ∧
  (∀ a r, last (filter (at_address a) l) = Some r → ∃ v, get a = Some v ∧ same_state (stateFromBondEvent (payload r)) v = true) ∧
  (∀ a v, a ∈ known → filter (at_address a) l = [] → get a = Some v → v_active v = false ∧ bondedAmount v = "0").
Proof.
  intros NC Hp Hs Hd Hpr Hnd. unfold verifyHorizonParity, valid. unfold applyBondEvents.
  rewrite (sort_events_spec localeCompare idCompare evs l Hp Hs Hd).
  destruct (fold_events_spec l Hpr Hnd) as [Hk Hg]. cbv zeta in *. set (m := foldl fold_event [] l) in *.
  set (X := (λ x : string * (IdentityStateView * gset string), (x.1, x.2.1)) <$> m).
  assert (jm_keys X = jm_keys m) as HkX.
  { unfold X, jm_keys. rewrite <- list_fmap_compose. by apply list_fmap_ext. }
  assert (∀ a v, (a, v) ∈ X ↔ ∃ r, last (filter (at_address a) l) = Some r ∧ v = stateFromBondEvent (payload r)) as HX.
  { intros a v. rewrite <- jm_get_elem by (by rewrite HkX). unfold X. rewrite jm_get_fmap, Hg.
    destruct (last (filter (at_address a) l)); simpl; naive_solver. }
  assert (∀ a, a ∈ jm_keys X ↔ filter (at_address a) l ≠ []) as HkeysX.
  { intros a. rewrite <- last_is_Some. unfold jm_keys. rewrite list_elem_of_fmap. split.
    - intros ([a' v] & Ha & H%HX). simpl in Ha. subst a'. destruct H as (r & -> & _). by eexists.
    - intros [r Hr]. exists (a, stateFromBondEvent (payload r)). split; [done|]. apply HX. eauto. }
  rewrite bool_decide_eq_true, length_zero_iff_nil. rewrite !app_nil.
  assert (∀ {A B} (f : A → option B) (k : list A), omap f k = [] ↔ ∀ x, x ∈ k → f x = None) as Homap.
  { clear. intros A B f k. induction k as [|x k IH]; simpl; [split; [set_solver|done]|].
    destruct (f x) eqn:E; [split; [done|]|rewrite IH; set_solver].
    intros H. specialize (H x (list_elem_of_here _ _)). congruence. }
  rewrite !Homap. split.
  - intros (H1 & H2 & H3). split_and!.
    + intros r h Hr Hh. specialize (H1 r ltac:(by rewrite Hp)). unfold check_record in H1.
      rewrite Forall_forall in Hpr. destruct (Hpr r Hr) as [Ht _]. rewrite Ht, Hh in H1.
      change (String.eqb "create_bond" "create_bond") with true in H1. cbn [negb] in H1. by destruct (String.eqb_spec h (computeStateHash sha256 canonical (stateFromBondEvent (payload r)))).
    + intros a r Hr. assert ((a, stateFromBondEvent (payload r)) ∈ X) as Hin by (apply HX; eauto).
      specialize (H2 _ Hin). unfold check_state in H2. cbn [fst snd] in H2.
      destruct (get a) as [v|]; [|done]. exists v. split; [done|]. by destruct (same_state _ v).
    + intros a v Ha Hf Hv. specialize (H3 a Ha). unfold check_known in H3. rewrite bool_decide_eq_false_2, Hv in H3.
      2:{ rewrite HkeysX. by intros []. }
      destruct (v_active v); [done|]. by destruct (String.eqb_spec (bondedAmount v) "0").
  - intros (H1 & H2 & H3). split_and!.
    + intros r Hr. unfold check_record. destruct (negb _); [done|]. destruct (stateHash r) as [h|] eqn:Hh; [|done].
      rewrite (H1 r h ltac:(by rewrite <- Hp) Hh). by rewrite String.eqb_refl.
    + intros [a v] (r & Hr & ->)%HX. unfold check_state. cbn [fst snd].
      destruct (H2 a r Hr) as (v & -> & Hv). by rewrite Hv.
    + intros a Ha. unfold check_known. destruct (bool_decide (a ∈ jm_keys X)) eqn:Hb; [done|].
      apply bool_decide_eq_false in Hb. rewrite HkeysX in Hb. destruct (get a) as [v|] eqn:Hv; [|done].
      destruct (H3 a v Ha) as [-> ->]; [|done..]. destruct (filter (at_address a) l); [done|]. by destruct Hb.
Qed.

(** ** The listener keeps the parity *)

Section Runs.
Context `{SS : !StreamServer}.
Variable sha256 : string → string.
Variable canonical : IdentityStateView → string.
Variable Number : Z → Z.
Variable strkey : string → bool.
Variable zod_issues : bond_op → list (list string * string).
Variable message : stream_error → string.
Hypothesis strkey_nonempty : strkey EmptyString = false.

Abbreviation handle := (onmessage sha256 canonical Number strkey zod_issues message).

(** Messages are handled one after the other, and no acknowledgement of a
    commit is lost; the chain grows, the stream breaks, and the process is
    stopped and started at any time. *)
Inductive breach (t0 : tables) (L0 : list bond_op) : list bond_op → stream → Prop :=
| b_init found : breach t0 L0 L0 (initAndStart found L0 t0 [])
| b_grow L s ops : breach t0 L0 L s → chain (L ++ ops) → breach t0 L0 (L ++ ops) s
| b_deliver L s p o now io : breach t0 L0 L s → position s = Some p → L !! p = Some o → b_fate io ≠ CommitUnseen →
    breach t0 L0 L (handle now io o (set_position (Some (S p)) s))
| b_error L s r : breach t0 L0 L s → breach t0 L0 L (onerror r L s)
| b_stop L s : breach t0 L0 L s → breach t0 L0 L (stop_stream s)
| b_restart L s found : breach t0 L0 L s → breach t0 L0 L (initAndStart found L (db s) (dlq s)).

Definition beyond (R : list HorizonEventRecord) (c : string) : Prop :=
  c = "now" ∨ Cursors.numeric c = true ∧ ∀ r, r ∈ R → record_value r ≤ BigInt c.

(** An identity without events has no bond. *)
Definition agrees (R : list HorizonEventRecord) (I : identities) (a : string) : Prop :=
  match last (filter (at_address a) R) with
  | Some r => ∃ row, I !! a = Some row ∧ view_of a row = stateFromBondEvent (payload r)
  | None => ∀ row, I !! a = Some row → active row = false ∧ bonded_amount row = "0"
  end.

Record good_record (L : list bond_op) (r : HorizonEventRecord) : Prop := {
  gr_proper : proper_record r;
  gr_stream : streamName r = BOND_STREAM;
  gr_token : Cursors.numeric (pagingToken r) = true;
  gr_hash : stateHash r = Some (computeStateHash sha256 canonical (stateFromBondEvent (payload r)));
  gr_op : ∃ o, o ∈ L ∧ o_token o = pagingToken r ∧ o_id o = Some (eventId r)
}.

Record tables_ok (L : list bond_op) (t : tables) : Prop := {
  to_records : Forall (good_record L) (events t);
  to_sorted : StronglySorted (λ a b, record_value a < record_value b) (events t);
  to_stored c : b_cursors t !! BOND_STREAM = Some c → beyond (events t) (Cursors.pagingToken c);
  to_agrees a : agrees (events t) (identity_rows t) a
}.

Record stream_ok (L : list bond_op) (s : stream) : Prop := {
  so_chain : chain L;
  so_tables : tables_ok L (db s);
  so_cursor : beyond (events (db s)) (cursor s);
  so_position p i o r : position s = Some p → (p ≤ i)%nat → L !! i = Some o → r ∈ events (db s) → record_value r < op_value o
}.

Lemma stream_start_ok L s : chain L → tables_ok L (db s) → beyond (events (db s)) (cursor s) →
  (s_stopped s = true → position s = None) → stream_ok L (startStream L s).
Proof.
  intros HL Ht Hc Hst. unfold startStream. destruct (s_stopped s) eqn:E.
  - split; [done..|]. by rewrite Hst.
  - split; [done..|]. cbn [position set_position db]. intros p i o r [= <-] Hp Hi Hr.
    destruct Hc as [Hc|[Hn Hle]].
    + rewrite Hc, seek_now in Hp. apply lookup_lt_Some in Hi. lia.
    + apply (seek_after L (cursor s) i o HL Hn Hi) in Hp. specialize (Hle r Hr). lia.
Qed.

Lemma duration_agrees d n : durationSeconds d = Ok n →
  n = if falsy d then None else parseInt (default EmptyString d) 10.
Proof. unfold durationSeconds. destruct (falsy d); [by intros [= <-]|]. destruct (parseInt _ 10); [|done]. by case_test; intros [= <-]. Qed.

(** The rows the two upserts leave. *)
Lemma upserts_spec now p t i1 i2 : identity_id p = bond_address (bond p) → upsertIdentity (identity_id p) t = Ok i1 →
  upsertBond now (bond p) i1 = Ok i2 →
  (∃ row, i2 !! bond_address (bond p) = Some row ∧ view_of (bond_address (bond p)) row = stateFromBondEvent p) ∧
  ∀ a, a ≠ bond_address (bond p) → i2 !! a = t !! a.
Proof.
  intros Hid H1 H2. unfold upsertIdentity in H1. unfold upsertBond in H2. rewrite Hid in H1. invert_result.
  match goal with H : durationSeconds _ = Ok _ |- _ => apply duration_agrees in H as -> end.
  set (A := bond_address (bond p)) in *.
  assert (∃ r1, (match t !! A with Some _ => t | None => <[A := {| bonded_amount := "0"; bond_start := None;
    bond_duration := None; active := false |}]> t end) !! A = Some r1) as [r1 Hr1].
  { destruct (t !! A) eqn:E; [by eexists|]. rewrite lookup_insert_eq. by eexists. }
  rewrite Hr1. split.
  - eexists. split; [apply lookup_insert_eq|]. done.
  - intros a Ha. rewrite lookup_insert_ne by done. destruct (t !! A); [done|]. by rewrite lookup_insert_ne.
Qed.

Lemma persist_ok L t t' now o p : chain L → tables_ok L t → o ∈ L → o_id o = Some (bond_id (bond p)) →
  identity_id p = bond_address (bond p) → bond_address (bond p) ≠ EmptyString →
  (∀ r, r ∈ events t → record_value r < op_value o) →
  persist sha256 canonical Number now (o_token o) p t = Ok t' →
  tables_ok L t' ∧ ∃ r, events t' = events t ++ [r] ∧ record_value r = op_value o.
Proof.
  intros HL [T1 T2 T3 T4] Ho Hoid Hid Hne Hlt Hp. unfold persist in Hp.
  apply bind_Ok_inv in Hp as (i1 & H1 & Hp). apply bind_Ok_inv in Hp as (i2 & H2 & Hp).
  apply bind_Ok_inv in Hp as ([l b] & Hrec & Hp). apply bind_Ok_inv in Hp as (c & Hc & Hp). injection Hp as <-.
  destruct (upserts_spec now p (identity_rows t) i1 i2 Hid H1 H2) as [(row & Hrow & Hview) Hother].
  assert (Cursors.numeric (o_token o) = true) as Hnum.
  { destruct HL as (_ & HF & _). rewrite Forall_forall in HF. by apply HF. }
  unfold record in Hrec. apply bind_Ok_inv in Hrec as ([] & _ & Hrec). apply bind_Ok_inv in Hrec as ([] & _ & Hrec).
  assert (findByStreamAndEvent BOND_STREAM (bond_id (bond p)) (events t) = None) as Hnone.
  { unfold findByStreamAndEvent. destruct (filter _ (events t)) as [|r rest] eqn:E; [done|]. exfalso.
    assert (r ∈ filter (λ r, streamName r = BOND_STREAM ∧ eventId r = bond_id (bond p)) (events t)) as Hr
      by (rewrite E; by left).
    apply list_elem_of_filter in Hr as [[_ Hev] Hr]. rewrite Forall_forall in T1.
    destruct (gr_op _ _ (T1 r Hr)) as (o' & Ho' & Htok & Hid'). destruct HL as (_ & _ & Huniq).
    assert (o' = o) as -> by (apply Huniq; [done..|by rewrite Hid'|by rewrite Hid', Hoid, Hev]).
    specialize (Hlt r Hr). unfold record_value, op_value in Hlt. rewrite Htok in Hlt. lia. }
  rewrite Hnone in Hrec. injection Hrec as <- <-. cbn [fst].
  set (r := {| row_id := length (events t) |}) in *.
  split; [|by exists r]. split; cbn [events identity_rows b_cursors].
  - apply Forall_app. split; [done|]. apply Forall_singleton. split; [done..|]. by exists o.
  - apply StronglySorted_app_2; [|done|repeat constructor]. intros x y Hx ->%list_elem_of_singleton. by apply Hlt.
  - intros c' Hc'. destruct (Cursors.upsertCursor now BOND_STREAM (o_token o) (b_cursors t)) as [tc|] eqn:Ec; [|done].
    injection Hc as <-. pose proof (Cursors.cursor_upserts_agree now BOND_STREAM (o_token o) (b_cursors t)) as H.
    rewrite Ec in H. destruct H as (_ & Hf & _). unfold Cursors.findByStreamName in Hf. rewrite Hc' in Hf.
    injection Hf as ->. right. split; [done|]. intros x [Hx| ->%list_elem_of_singleton]%elem_of_app; [|done].
    specialize (Hlt x Hx). unfold op_value in Hlt. lia.
  - intros a. unfold agrees. rewrite filter_app. destruct (decide (bond_address (bond p) = a)) as [<-|Hna].
    + rewrite filter_cons_True, filter_nil, last_snoc by done. by exists row.
    + rewrite filter_cons_False, filter_nil, app_nil_r by done. rewrite Hother by done. apply T4.
Qed.

Lemma schema_parse o x : bondOperationSchema strkey o = Some x → let p := parseBondEvent o x in
  o_id o = Some (bond_id (bond p)) ∧ identity_id p = bond_address (bond p) ∧ bond_address (bond p) ≠ EmptyString.
Proof.
  unfold bondOperationSchema. destruct (o_source o) as [a|], (o_id o) as [i|], (o_amount o) as [m|]; simpl; try done.
  destruct (_ && _) eqn:E; [|done]. intros [= <-]. simpl. split_and!; [done..|]. intros ->.
  rewrite strkey_nonempty in E. by rewrite andb_false_r in E.
Qed.

Lemma deliver_ok L s p o now io : stream_ok L s → position s = Some p → L !! p = Some o → b_fate io ≠ CommitUnseen →
  stream_ok L (handle now io o (set_position (Some (S p)) s)).
Proof.
  intros [S1 S2 S3 S4] Hp Ho Hf.
  assert (stream_ok L (set_position (Some (S p)) s)) as Hmoved.
  { split; [done..|]. cbn [position db set_position]. intros p' i o' r [= <-] Hi. apply (S4 p); [done|lia]. }
  assert (∀ l, stream_ok L (set_dlq l (set_position (Some (S p)) s))) as Hdlq by (intros; destruct Hmoved; by split).
  assert (∀ e, stream_ok L (on_failure message io o e (set_position (Some (S p)) s))) as Hfail.
  { intros e. unfold on_failure. destruct (reroute_ok io); [apply Hdlq|done]. }
  unfold onmessage. destruct (negb _); [done|]. unfold validateMessage, parse_op.
  destruct (bondOperationSchema strkey o) as [x|] eqn:Ex; [|destruct (route_ok io); [apply Hdlq|apply Hfail]].
  destruct (schema_parse o x Ex) as (Hid & Haddr & Hne). cbn [db set_position]. unfold transact.
  destruct (b_connect_ok io); cbn [negb]; [|apply Hfail].
  destruct (persist _ _ _ _ _ _ _) as [t'|e] eqn:Hper; [|destruct (b_fate io); apply Hfail].
  destruct (b_fate io); try apply Hfail; [done|].
  assert (o ∈ L) as HoL by (by eapply list_elem_of_lookup_2).
  destruct (persist_ok L (db s) t' now o (parseBondEvent o x) S1 S2 HoL Hid Haddr Hne) as [Ht' (r & Hev & Hval)];
    [intros r Hr; by eapply S4|done|].
  pose proof S1 as (Hsort & Hnum & _). rewrite Forall_forall in Hnum. split; [done..| |]; cbn [db cursor position set_position].
  - right. split; [by apply Hnum|]. rewrite Hev. intros y [Hy| ->%list_elem_of_singleton]%elem_of_app.
    + specialize (S4 p p o y Hp ltac:(lia) Ho Hy). unfold op_value in S4. lia.
    + unfold op_value in Hval. lia.
  - intros p' i o' y [= <-] Hi Ho' Hy. rewrite Hev in Hy. apply elem_of_app in Hy as [Hy| ->%list_elem_of_singleton].
    + apply (S4 p i); [done|lia|done..].
    + rewrite Hval. rewrite <- (take_drop_middle L p o Ho) in Hsort. apply StronglySorted_app_1_r, StronglySorted_cons in Hsort as [Hall _].
      rewrite Forall_forall in Hall. apply Hall. apply (list_elem_of_lookup_2 _ (i - S p)). rewrite lookup_drop.
      by replace (S p + (i - S p))%nat with i by lia.
Qed.

Lemma good_record_grow L ops r : good_record L r → good_record (L ++ ops) r.
Proof. intros [? ? ? ? (o & ? & ?)]. split; try done. exists o. split; [apply elem_of_app; by left|done]. Qed.

Lemma stream_grow L s ops : chain (L ++ ops) → stream_ok L s → stream_ok (L ++ ops) s.
Proof.
  intros HL [S1 [T1 T2 T3 T4] S3 S4]. split; [done| |done|].
  - split; try done. eapply Forall_impl; [exact T1|apply good_record_grow].
  - intros p i o r Hp Hi Ho Hr. apply lookup_app_Some in Ho as [Ho|[_ Ho]]; [by eapply S4|].
    rewrite Forall_forall in T1. destruct (gr_op _ _ (T1 r Hr)) as (o' & Ho' & Htok & _).
    destruct HL as [Hs _]. apply list_elem_of_lookup_2 in Ho.
    pose proof (StronglySorted_app_1_elem_of _ _ _ o' o Hs Ho' Ho) as H. unfold op_value, record_value in *. by rewrite <- Htok.
Qed.

Lemma init_ok L t found l : chain L → tables_ok L t → stream_ok L (initAndStart found L t l).
Proof.
  intros HL Ht. unfold initAndStart. apply stream_start_ok; [done..| |done]. cbn [db cursor].
  destruct found; [|by left]. unfold Cursors.findByStreamName.
  destruct (b_cursors t !! BOND_STREAM) as [c|] eqn:E; [|by left]. by apply (to_stored _ _ Ht).
Qed.

(** The tables as the listener first finds them: no events, no bonds, and a
    checkpoint at most. *)
Definition untouched (t : tables) : Prop :=
  events t = [] ∧ (∀ c, b_cursors t !! BOND_STREAM = Some c → Cursors.isValidPagingToken (Cursors.pagingToken c) = true) ∧
  ∀ a row, identity_rows t !! a = Some row → active row = false ∧ bonded_amount row = "0".

Lemma breach_ok t0 L0 L s : untouched t0 → chain L0 → breach t0 L0 L s →
  stream_ok L s ∧ (s_stopped s = true → position s = None).
Proof.
  intros (He & Hc & Hi) HL0 H.
  assert (∀ s', s_stopped s' = false → s_stopped s' = true → position s' = None) as Hrun by congruence.
  induction H as [found|L s ops _ [IH IHs] Hops|L s p o now io _ [IH IHs] Hp Ho Hf|L s r _ [IH IHs]|L s _ [IH IHs]|L s found _ [IH IHs]].
  - split; [|unfold initAndStart, startStream; simpl; done]. apply init_ok; [done|].
    split; rewrite ?He; [constructor|constructor| |done].
    intros c Hc0. specialize (Hc c Hc0). unfold Cursors.isValidPagingToken in Hc. apply orb_true_iff in Hc as [Hc|Hc].
    + left. by apply String.eqb_eq.
    + right. split; [done|]. set_solver.
  - split; [by apply stream_grow|done].
  - split; [by apply deliver_ok|]. intros Hs. exfalso. revert Hs. cut (s_stopped s = false).
    { intros E. unfold onmessage, on_failure, transact, set_dlq. repeat case_match; simpl; congruence. }
    destruct (s_stopped s); [|done]. rewrite IHs in Hp; done.
  - unfold onerror. destruct (s_stopped s) eqn:E; [split; [done|]; intros _; by apply IHs|]. destruct (Backoff.wait _ _ _) as [b [d| |]].
    + split; [|unfold startStream; simpl; rewrite E; simpl; congruence]. destruct IH. apply stream_start_ok; [done..|]. simpl. congruence.
    + split; [by destruct IH; split|]. simpl. congruence.
    + split; [by destruct IH; split|]. simpl. congruence.
  - split; [|done]. destruct IH. by split.
  - split; [|unfold initAndStart, startStream; simpl; done]. destruct IH. by apply init_ok.
Qed.

(** Events and state agree: on tables no event was applied to, after any run of
    the bond listener in which one stream is open at a time, messages are handled
    in turn and no acknowledgement of a commit is lost, with any failures, dead
    letters, reconnects and restarts, the parity check of the stream, whatever
    order the database lists the rows in and whatever addresses are known, reports
    no finding as long as the ledger has at most 1000 events; every event is
    counted and every address matched. [long_ledger_reported] shows the limit. *)
Theorem ledger_parity localeCompare idCompare ordered after known t0 L0 L s :
  NumericCollation localeCompare → (∀ l, ordered l ≡ₚ l) → untouched t0 → chain L0 → breach t0 L0 L s →
  (length (events (db s)) ≤ 1000)%nat →
  let report := verify_stream sha256 canonical localeCompare idCompare ordered after BOND_STREAM
                  (reader (identity_rows (db s))) known (events (db s)) in
  valid report = true ∧ totalEvents report = Z.of_nat (length (events (db s))) ∧
  mismatchedAddresses report = 0 ∧ matchedAddresses report = totalAddresses report.
Proof.
  intros NC Hord Ht0 HL0 Hr Hlen report. destruct (breach_ok t0 L0 L s Ht0 HL0 Hr) as [[S1 [T1 T2 T3 T4] _ _] _].
  set (R := events (db s)) in *.
  assert (list_events ordered after BOND_STREAM None None R ≡ₚ R) as Hperm.
  { unfold list_events. change (Z.to_nat (list_limit None)) with 1000%nat. rewrite list_filter_id.
    - rewrite take_ge by (by rewrite Hord). apply Hord.
    - intros r Hin. rewrite Forall_forall in T1. split; [by apply T1|done]. }
  assert (NoDup (eventId <$> R)) as Hnd.
  { clear -T1 T2 S1. induction T2 as [|r l Hs IH Hall]; [constructor|]. simpl. apply Forall_cons in T1 as [Hr T1].
    apply NoDup_cons. split; [|by apply IH]. intros (r' & Hid & Hin)%list_elem_of_fmap.
    rewrite Forall_forall in T1. rewrite Forall_forall in Hall. specialize (Hall r' Hin). simpl in Hall.
    destruct (gr_op _ _ Hr) as (o & Ho & Ht & Hi), (gr_op _ _ (T1 r' Hin)) as (o' & Ho' & Ht' & Hi').
    destruct S1 as (_ & _ & Hu). assert (o = o') as -> by (apply Hu; [done..|by rewrite Hi|by rewrite Hi, Hi', Hid]).
    unfold record_value in Hall. rewrite <- Ht, <- Ht' in Hall. lia. }
  assert (valid report = true) as Hv.
  { unfold report, verify_stream. eapply parity_report_exact; [done|exact Hperm|done| | |done|].
    - eapply Forall_impl; [exact T1|by intros ? []].
    - eapply Forall_impl; [exact T1|by intros ? []].
    - split_and!.
      + intros r h Hin Hh. rewrite Forall_forall in T1. rewrite (gr_hash _ _ (T1 r Hin)) in Hh. by injection Hh as <-.
      + intros a r Hl. specialize (T4 a). unfold agrees in T4. rewrite Hl in T4. destruct T4 as (row & Hrow & Hview).
        exists (view_of a row). unfold reader. rewrite Hrow. split; [done|]. rewrite Hview. unfold same_state.
        by rewrite String.eqb_refl, !Bool.eqb_reflx, bool_decide_eq_true_2.
      + intros a v _ Hnil. unfold reader. destruct (identity_rows (db s) !! a) as [row|] eqn:E; [|done]. intros [= <-].
        specialize (T4 a). unfold agrees in T4. rewrite Hnil in T4. simpl. by apply T4. }
  split; [done|]. unfold report, verify_stream, verifyHorizonParity in *. cbn [valid findings totalEvents mismatchedAddresses
    matchedAddresses totalAddresses] in *. apply bool_decide_eq_true, length_zero_iff_nil in Hv. rewrite Hv. simpl.
  split_and!; [by rewrite Hperm|done|apply Z.sub_0_r].
Qed.
End Runs.

(** ** Runs that break the parity, and a run that keeps it *)

Definition model_seek (L : list bond_op) (c : string) : nat :=
  if Cursors.numeric c then length (filter (λ o, op_value o ≤ BigInt c) L) else length L.

Lemma model_seek_after L c i o : chain L → Cursors.numeric c = true → L !! i = Some o →
  (model_seek L c ≤ i)%nat ↔ BigInt c < op_value o.
Proof.
  intros [Hs _] Hn Hi. unfold model_seek. rewrite Hn. clear Hn. revert i Hi.
  induction Hs as [|x L Hs IH Hx]; intros i Hi; [done|]. rewrite filter_cons.
  destruct i as [|i]; simpl in Hi.
  - injection Hi as ->. destruct (decide (op_value o ≤ BigInt c)) as [Hle|Hgt]; simpl; [split; [|]; lia|].
    rewrite list_filter_none; [simpl; lia|]. intros y Hy. rewrite Forall_forall in Hx. specialize (Hx y Hy). simpl in Hx. lia.
  - assert (op_value x < op_value o) as Hlt.
    { rewrite Forall_forall in Hx. apply (Hx o). by eapply list_elem_of_lookup_2. }
    specialize (IH i Hi). destruct (decide (op_value x ≤ BigInt c)) as [Hle|Hgt]; simpl; [lia|].
    rewrite list_filter_none; [simpl; lia|]. intros y Hy. rewrite Forall_forall in Hx. specialize (Hx y Hy). simpl in Hx. lia.
Qed.

#[export] Instance model_stream : StreamServer :=
  {| seek := model_seek; seek_after := model_seek_after; seek_now L := eq_refl |}.

Definition value_compare (a b : string) : Z := BigInt a - BigInt b.

#[export] Instance value_collation : NumericCollation value_compare.
Proof. split. intros a b _ _. unfold value_compare. lia. Qed.

Definition bond_creation (i m : string) : bond_op :=
  {| o_type := "create_bond"; o_token := i; o_source := Some "GA"; o_id := Some i; o_amount := Some m; o_duration := None |}.

Definition checkpoint (c : string) : tables :=
  {| identity_rows := ∅; events := [];
     b_cursors := {[ BOND_STREAM := {| Cursors.pagingToken := c; Cursors.lastCheckpoint := 0; Cursors.createdAt := 0;
                                       Cursors.updatedAt := 0 |} ]} |}.

Definition all_ok (f : tx_fate) : message_io := {| route_ok := true; reroute_ok := true; b_connect_ok := true; b_fate := f |}.

Definition show_state (v : IdentityStateView) : string := bondedAmount v.

Abbreviation deliver f o s :=
  (onmessage (λ x, x) show_state (λ n, n) (λ a, negb (String.eqb a EmptyString)) (λ _, []) (λ _, "error") 7 (all_ok f) o s).

Abbreviation parity t :=
  (valid (verify_stream (λ x, x) show_state value_compare (λ a b, Z.of_nat a - Z.of_nat b) (λ l, l) String.ltb BOND_STREAM
     (reader (identity_rows t)) [] (events t))).

(** Two messages of one account whose transactions commit in the other order
    leave the older bond, and move the checkpoint back. *)
Lemma overlapping_messages_break_parity :
  let s := initAndStart true [] (checkpoint "100") [] in
  let s' := deliver Commits (bond_creation "101" "5") (deliver Commits (bond_creation "102" "9") s) in
  parity (db s') = false ∧ cursor s' = "101".
Proof. vm_compute. done. Qed.

(** When the acknowledgements of two commits are lost, the stream is opened
    again behind both events, and the older one overwrites the newer. *)
Lemma lost_acknowledgements_break_parity :
  let L := [bond_creation "101" "5"; bond_creation "102" "9"] in
  let s := initAndStart true L (checkpoint "100") [] in
  let s1 := deliver CommitUnseen (bond_creation "102" "9") (deliver CommitUnseen (bond_creation "101" "5") s) in
  let s2 := onerror 0 L s1 in
  position s2 = Some 0%nat ∧ parity (db s2) = true ∧ parity (db (deliver Commits (bond_creation "101" "5") s2)) = false.
Proof. vm_compute. done. Qed.

(** The check lists at most a thousand rows: when an account has moved on in
    the rows after them, its state is reported as a mismatch. *)
Lemma long_ledger_reported R get a r v : StronglySorted (λ a b, record_value a < record_value b) R →
  Forall (λ r, Cursors.numeric (pagingToken r) = true ∧ proper_record r ∧ streamName r = BOND_STREAM) R → NoDup (eventId <$> R) →
  last (filter (at_address a) (take 1000 R)) = Some r → get a = Some v → bondedAmount v ≠ bond_amount (bond (payload r)) →
  valid (verify_stream (λ x, x) show_state value_compare (λ a b, Z.of_nat a - Z.of_nat b) (λ l, l) String.ltb BOND_STREAM
    get [] R) = false.
Proof.
  intros Hs Hall Hnd Hl Hv Hne. apply not_true_iff_false. unfold verify_stream, list_events.
  rewrite list_filter_id by (intros x Hx; rewrite Forall_forall in Hall; split; [by apply Hall|done]).
  change (Z.to_nat (list_limit None)) with 1000%nat. apply (Forall_take _ 1000%nat) in Hall. rewrite <- (take_drop 1000 R) in Hs, Hnd.
  apply StronglySorted_app_1_l in Hs. rewrite fmap_app in Hnd. apply NoDup_app in Hnd as [Hnd _].
  rewrite (parity_report_exact _ _ _ _ _ (take 1000 R)); [|apply _|done|done|eapply Forall_impl; [exact Hall|naive_solver]..|done].
  intros (_ & H & _). destruct (H a r Hl) as (v' & Hv' & Hsame). rewrite Hv in Hv'. injection Hv' as <-.
  unfold same_state in Hsame. simpl in Hsame. breflect. naive_solver.
Qed.

(** The cursor does pass an event that was not stored: the next good one takes
    it along. *)
Lemma failed_event_passed :
  let s := initAndStart true [] (checkpoint "100") [] in
  let s' := deliver Commits (bond_creation "102" "9") (deliver Commits (bond_creation "101" "-5") s) in
  cursor s' = "102" ∧ (eventId <$> events (db s')) = ["102"] ∧ length (dlq s') = 1%nat.
Proof. vm_compute. done. Qed.

Lemma two_bonds_chain : chain [bond_creation "101" "5"; bond_creation "102" "9"].
Proof.
  split_and!; [repeat constructor..|]. intros a b Ha Hb _.
  rewrite !elem_of_cons, elem_of_nil in Ha, Hb. naive_solver.
Qed.

(** The first bond fails, the stream breaks and both are delivered. *)
Lemma ledger_parity_witness : ∃ s,
  breach (λ x, x) show_state (λ n, n) (λ a, negb (String.eqb a EmptyString)) (λ _, []) (λ _, "error") (checkpoint "100")
    [bond_creation "101" "5"; bond_creation "102" "9"] [bond_creation "101" "5"; bond_creation "102" "9"] s ∧
  (bonded_amount <$> identity_rows (db s) !! "GA") = Some "9" ∧ parity (db s) = true.
Proof.
  set (L := [bond_creation "101" "5"; bond_creation "102" "9"]).
  pose proof (b_init (λ x, x) show_state (λ n, n) (λ a, negb (String.eqb a EmptyString)) (λ _, []) (λ _, "error")
    (checkpoint "100") L true) as H0.
  pose proof (b_deliver _ _ _ _ _ _ _ _ _ _ 0 (bond_creation "101" "5") 7 (all_ok CommitFails) H0 eq_refl eq_refl ltac:(done)) as H1.
  pose proof (b_error _ _ _ _ _ _ _ _ _ _ 0 H1) as H2.
  pose proof (b_deliver _ _ _ _ _ _ _ _ _ _ 0 (bond_creation "101" "5") 7 (all_ok Commits) H2 eq_refl eq_refl ltac:(done)) as H3.
  pose proof (b_deliver _ _ _ _ _ _ _ _ _ _ 1 (bond_creation "102" "9") 7 (all_ok Commits) H3 eq_refl eq_refl ltac:(done)) as H4.
  eexists. split; [exact H4|]. split; [vm_compute; reflexivity|].
  eapply (ledger_parity (λ x, x) show_state (λ n, n) (λ a, negb (String.eqb a EmptyString)) (λ _, []) (λ _, "error")
    eq_refl value_compare (λ a b, Z.of_nat a - Z.of_nat b) (λ l, l) String.ltb [] (checkpoint "100") L L);
    [apply value_collation|done| |apply two_bonds_chain|exact H4|vm_compute; lia].
  split_and!; [done| |intros a row; cbn; by rewrite lookup_empty].
  intros c. unfold checkpoint. simpl. rewrite lookup_singleton_eq. by intros [= <-].
Defined.
