(* ===== verification/Payouts.v ===== *)
(** * Batch payouts and settlement reconciliation

    [jobs/batchPayoutProcessor.ts] and [services/batchPayoutService.ts] against
    their store interface, with [repositories/batchPayout.repository.ts] (the
    settlements repository) as its implementation; and
    [jobs/settlementReconciler.ts]. The payout executor and Horizon answer as
    parameters say; log texts, durations and metrics are left out. *)

From stdpp Require Import base option list gmap strings.
From Stdlib Require Import ZArith Lia Ascii.
From S2P Require Import Prelude JsLib StateTransition Pagination Settlements.
Import StateTransition.Settlement.

Open Scope Z_scope.

(** ** Items and their validation *)

(** A field that is absent or of another type is [None]; a date that is not
    valid is [Some None]. *)
Record PayoutItem := {
  p_bondId : option string;
  p_amount : option string;
  p_hash : option string;
  p_settledAt : option (option Z)
}.

Inductive payout_error :=
| TooManyItems (max : Z)
| InvalidBondId (i : nat)
| InvalidAmount (i : nat)
| AmountOutOfRange (i : nat)
| InvalidHash (i : nat)
| DuplicateHash (i : nat)
| InvalidSettledAt (i : nat)
| ReferenceError.

(** Digits, then optionally a point and one to eighteen digits. *)
Definition amount_re (s : string) : bool :=
  let '(int, rest) := span_digits s in
  negb (String.eqb int EmptyString) &&
  match rest with
  | EmptyString => true
  | String c frac => Ascii.eqb c "." && negb (String.eqb frac EmptyString) && str_forallb is_digit frac && (slen frac <=? 18)
  end.

Definition DEFAULT_MAX_BATCH : Z := 1000.

(** The constructor's maximum; [None] when the option is no finite integer. *)
Definition maxBatchSize (configured : option Z) : Z :=
  match configured with Some n => if 0 <? n then n else DEFAULT_MAX_BATCH | None => DEFAULT_MAX_BATCH end.

Section Validation.
(** [parseFloat(amount) > 1e18]. *)
Variable above_1e18 : string → bool.

Definition validate_item (i : nat) (item : PayoutItem) (seen : gset string) : result payout_error (gset string) :=
  _ ← throw_if (match p_bondId item with Some b => String.eqb (trim b) EmptyString | None => true end) (InvalidBondId i);
  _ ← throw_if (match p_amount item with Some a => negb (amount_re a) | None => true end) (InvalidAmount i);
  _ ← throw_if (above_1e18 (default EmptyString (p_amount item))) (AmountOutOfRange i);
  let h := default EmptyString (p_hash item) in
  _ ← throw_if (String.eqb (trim h) EmptyString || (128 <? slen h)) (InvalidHash i);
  _ ← throw_if (bool_decide (h ∈ seen)) (DuplicateHash i);
  _ ← throw_if (match p_settledAt item with Some None => true | _ => false end) (InvalidSettledAt i);
  Ok ({[h]} ∪ seen).

Fixpoint validate_items (i : nat) (items : list PayoutItem) (seen : gset string) : result payout_error () :=
  match items with
  | [] => Ok ()
  | item :: rest => seen' ← validate_item i item seen; validate_items (S i) rest seen'
  end.

Definition validatePayload (max : Z) (items : list PayoutItem) : result payout_error () :=
  _ ← throw_if (max <? Z.of_nat (length items)) (TooManyItems max);
  validate_items 0 items ∅.
End Validation.

(** ** The processor against its store *)

Definition item_hash (item : PayoutItem) : string := default EmptyString (p_hash item).

Definition input_of (item : PayoutItem) (s : SettlementLifecycleStatus) : CreateSettlementInput :=
  {| in_bondId := default EmptyString (p_bondId item); in_amount := default EmptyString (p_amount item);
     in_transactionHash := item_hash item; in_settledAt := mjoin (p_settledAt item); in_status := Some s |}.

(** [PayoutSettlementStore]: the new store and whether the hash was there;
    [None] when the write is refused. [clock] is the time and the generated id
    of the statement. *)
Class PayoutStore (St : Type) := {
  store_upsert : Z * string → CreateSettlementInput → St → option (St * bool);
  recorded : St → string → Prop
}.

(** What the processor relies on: a hash is reported as new exactly when it was
    not recorded, is recorded from then on, and no other is affected. *)
Class PayoutStoreLaws (St : Type) `{PayoutStore St} := {
  store_ok : St → Prop;
  upsert_duplicate c input s s' dup : store_ok s → store_upsert c input s = Some (s', dup) →
    store_ok s' ∧ (dup = true ↔ recorded s (in_transactionHash input)) ∧
    (∀ h, recorded s' h ↔ h = in_transactionHash input ∨ recorded s h)
}.

(** A write succeeds, fails before it has an effect, or its answer is lost. *)
Inductive write_fate := Written (clock : Z * string) | NotWritten | Unacknowledged (clock : Z * string).

Record item_io := { record_io : write_fate; execute_ok : bool; failed_io : write_fate; settled_io : write_fate }.

Record PayoutItemResult := {
  r_bondId : string;
  r_hash : string;
  r_status : SettlementLifecycleStatus;
  r_retryEligible : bool
}.

Record BatchPayoutResult := {
  total : Z;
  n_settled : Z;
  n_failed : Z;
  n_skipped : Z;
  items : list PayoutItemResult
}.

Section Processor.
Context {St : Type} `{PayoutStore St}.
Variable above_1e18 : string → bool.
Variable max : Z.

(** The store, and the items handed to the executor. *)
Record world := { store : St; executed : list PayoutItem }.

Definition write (f : write_fate) (item : PayoutItem) (s : SettlementLifecycleStatus) (st : St) : St * option bool :=
  match f with
  | NotWritten => (st, None)
  | Written c => match store_upsert c (input_of item s) st with Some (st', dup) => (st', Some dup) | None => (st, None) end
  | Unacknowledged c => match store_upsert c (input_of item s) st with Some (st', _) => (st', None) | None => (st, None) end
  end.

Definition result_of (item : PayoutItem) (s : SettlementLifecycleStatus) (retry : bool) : PayoutItemResult :=
  {| r_bondId := default EmptyString (p_bondId item); r_hash := item_hash item; r_status := s; r_retryEligible := retry |}.

Definition processItem (io : item_io) (item : PayoutItem) (w : world) : world * PayoutItemResult :=
  match write (record_io io) item pending (store w) with
  | (st, None) => ({| store := st; executed := executed w |}, result_of item failed true)
  | (st, Some true) => ({| store := st; executed := executed w |}, result_of item pending false)
  | (st, Some false) =>
      let log := executed w ++ [item] in
      if negb (execute_ok io) then
        let '(st1, _) := write (failed_io io) item failed st in
        ({| store := st1; executed := log |}, result_of item failed true)
      else
        match write (settled_io io) item settled st with
        | (st1, None) => ({| store := st1; executed := log |}, result_of item failed true)
        | (st1, Some _) => ({| store := st1; executed := log |}, result_of item settled false)
        end
  end.

Fixpoint process_items (ios : nat → item_io) (l : list PayoutItem) (w : world) : world * list PayoutItemResult :=
  match l with
  | [] => (w, [])
  | item :: rest =>
      let '(w1, r) := processItem (ios O) item w in
      let '(w2, rs) := process_items (λ n, ios (S n)) rest w1 in (w2, r :: rs)
  end.

Definition count_status (s : SettlementLifecycleStatus) (rs : list PayoutItemResult) : Z :=
  Z.of_nat (length (filter (λ r, r_status r = s) rs)).

Definition process (ios : nat → item_io) (l : list PayoutItem) (w : world) : result payout_error (world * BatchPayoutResult) :=
  _ ← validatePayload above_1e18 max l;
  let '(w', rs) := process_items ios l w in
  Ok (w', {| total := Z.of_nat (length l); n_settled := count_status settled rs; n_failed := count_status failed rs;
             n_skipped := count_status pending rs; items := rs |}).

(** [processBatch] of the service. *)
Definition processBatch := process.

(** Batches one after the other; a refused one changes nothing. *)
Fixpoint run_batches (bs : list ((nat → item_io) * list PayoutItem)) (w : world) : world :=
  match bs with
  | [] => w
  | (ios, l) :: bs' => match process ios l w with Ok (w', _) => run_batches bs' w' | Err _ => run_batches bs' w end
  end.

End Processor.
#[global] Arguments world : clear implicits.

(** [getRetryableItems]: its filter reads [retryHashs], which is not declared. *)
Definition getRetryableItems (original : list PayoutItem) (r : BatchPayoutResult) : result payout_error (list PayoutItem) :=
  match original with [] => Ok [] | _ => Err ReferenceError end.

(** ** A payout is executed once *)

Section Once.
Context {St : Type} {PS : PayoutStore St} {PL : PayoutStoreLaws St}.
Variable above_1e18 : string → bool.
Variable max : Z.

Lemma write_spec f item s st st' o : store_ok st → write f item s st = (st', o) →
  store_ok st' ∧ (∀ h, recorded st h → recorded st' h) ∧ (∀ h, h ≠ item_hash item → recorded st' h → recorded st h) ∧
  match o with Some dup => (dup = true ↔ recorded st (item_hash item)) ∧ recorded st' (item_hash item) | None => True end.
Proof.
  intros Hok. unfold write. destruct f as [c| |c]; [destruct (store_upsert c (input_of item s) st) as [[st1 dup]|] eqn:E|
    |destruct (store_upsert c (input_of item s) st) as [[st1 dup]|] eqn:E]; intros [= <- <-]; try done;
    apply upsert_duplicate in E as (Hok' & Hd & Hr); try done; simpl in *; naive_solver.
Qed.

(** What one item does: whether it was executed, and what is reported. *)
Record item_outcome (io : item_io) (item : PayoutItem) (w w' : world St) (r : PayoutItemResult) : Prop := {
  out_store : store_ok (store w');
  out_kept h : recorded (store w) h → recorded (store w') h;
  out_others h : h ≠ item_hash item → recorded (store w') h → recorded (store w) h;
  out_executed : executed w' = executed w ∧ r_status r ≠ settled ∨
    executed w' = executed w ++ [item] ∧ ¬ recorded (store w) (item_hash item) ∧ recorded (store w') (item_hash item) ∧
      (r_status r = settled → execute_ok io = true);
  out_hash : r_hash r = item_hash item;
  out_retry : r_retryEligible r = true ↔ r_status r = failed;
  out_pending : r_status r = pending ↔ r_retryEligible r = false ∧ recorded (store w) (item_hash item)
}.

Lemma processItem_outcome io item w w' r : store_ok (store w) → processItem io item w = (w', r) → item_outcome io item w w' r.
Proof.
  intros Hok. unfold processItem. destruct (write (record_io io) item pending (store w)) as [st o] eqn:Ew.
  destruct (write_spec _ _ _ _ _ _ Hok Ew) as (Hok1 & Hk1 & Ho1 & Hd). destruct o as [[]|].
  - intros [= <- <-]. split; simpl; try done; [by left|naive_solver].
  - destruct Hd as [Hd Hr]. destruct (execute_ok io) eqn:Ex; simpl.
    + destruct (write (settled_io io) item settled st) as [st2 o2] eqn:E2.
      destruct (write_spec _ _ _ _ _ _ Hok1 E2) as (Hok2 & Hk2 & Ho2 & _).
      destruct o2; intros [= <- <-]; split; simpl; try done; try naive_solver; right; naive_solver.
    + destruct (write (failed_io io) item failed st) as [st2 o2] eqn:E2.
      destruct (write_spec _ _ _ _ _ _ Hok1 E2) as (Hok2 & Hk2 & Ho2 & _).
      intros [= <- <-]; split; simpl; try done; try naive_solver; right; naive_solver.
  - intros [= <- <-]. split; simpl; try done; [by left|naive_solver].
Qed.

(** The executed items of a world are of different hashes, all recorded, and
    none was recorded at the start. *)
Definition once (st0 : St) (w : world St) : Prop :=
  store_ok (store w) ∧ NoDup (item_hash <$> executed w) ∧ (∀ h, recorded st0 h → recorded (store w) h) ∧
  ∀ x, x ∈ executed w → ¬ recorded st0 (item_hash x) ∧ recorded (store w) (item_hash x).

Lemma item_once st0 io item w w' r : once st0 w → processItem io item w = (w', r) → once st0 w'.
Proof.
  intros (Hok & Hnd & Hk & Hx) Hp. destruct (processItem_outcome _ _ _ _ _ Hok Hp) as [O1 O2 O3 O4 _ _ _].
  split_and!; [done| |auto|].
  - destruct O4 as [[-> _]|(-> & Hn & _)]; [done|]. rewrite fmap_app. apply NoDup_app.
    split_and!; [done| |apply NoDup_singleton]. intros h (x & -> & Hin)%list_elem_of_fmap [= Heq]%list_elem_of_singleton.
    apply Hn. rewrite <- Heq. by apply Hx.
  - destruct O4 as [[-> _]|(-> & Hn & Hr & _)]; [naive_solver|].
    intros x [Hin| ->%list_elem_of_singleton]%elem_of_app; [naive_solver|]. split; [|done]. auto.
Qed.

Lemma items_once st0 ios l w w' rs : once st0 w → process_items ios l w = (w', rs) → once st0 w'.
Proof.
  revert ios w w' rs. induction l as [|item l IH]; intros ios w w' rs Ho; simpl; [by intros [= <- <-]|].
  destruct (processItem (ios O) item w) as [w1 r] eqn:E. destruct (process_items _ l w1) as [w2 rs2] eqn:E2.
  intros [= <- <-]. eapply IH; [|exact E2]. by eapply item_once.
Qed.

Lemma batches_once st0 bs w : once st0 w → once st0 (run_batches above_1e18 max bs w).
Proof.
  revert w. induction bs as [|[ios l] bs IH]; intros w Ho; simpl; [done|].
  unfold process. destruct (validatePayload above_1e18 max l); simpl; [|by apply IH].
  destruct (process_items ios l w) as [w' rs] eqn:E. apply IH. by eapply items_once.
Qed.

(** *** The report of a batch *)

Lemma validate_items_NoDup i l seen u : validate_items above_1e18 i l seen = Ok u →
  NoDup (item_hash <$> l) ∧ ∀ x, x ∈ l → item_hash x ∉ seen.
Proof.
  revert i seen. induction l as [|item l IH]; intros i seen H; [split; [constructor|set_solver]|].
  simpl in H. apply bind_Ok_inv in H as (seen' & Hv & H). destruct (IH _ _ H) as [Hnd Hni].
  unfold validate_item in Hv. do 6 (apply bind_Ok_inv in Hv as (? & ? & Hv)). injection Hv as <-. invert_result. breflect.
  fold (item_hash item) in *. split.
  - simpl. apply NoDup_cons. split; [|done]. intros (y & Heq & Hy)%list_elem_of_fmap. apply (Hni y Hy). set_solver.
  - intros y [->|Hy]%elem_of_cons; [done|]. specialize (Hni y Hy). set_solver.
Qed.

Lemma items_report ios l w w' rs : store_ok (store w) → NoDup (item_hash <$> l) → process_items ios l w = (w', rs) →
  length rs = length l ∧ ∃ done_, executed w' = executed w ++ done_ ∧ done_ ⊆ l ∧
  ∀ i item r, l !! i = Some item → rs !! i = Some r →
    r_hash r = item_hash item ∧ (r_retryEligible r = true ↔ r_status r = failed) ∧
    (r_status r = pending ↔ r_retryEligible r = false ∧ recorded (store w) (item_hash item)) ∧
    (item ∈ done_ → ¬ recorded (store w) (item_hash item)) ∧
    (r_status r = settled → item ∈ done_ ∧ execute_ok (ios i) = true).
Proof.
  revert ios w w' rs. induction l as [|item l IH]; intros ios w w' rs Hok Hnd; simpl.
  { intros [= <- <-]. split; [done|]. exists []. rewrite app_nil_r. split_and!; [done|set_solver|intros; by rewrite lookup_nil in *]. }
  apply NoDup_cons in Hnd as [Hni Hnd]. destruct (processItem (ios O) item w) as [w1 r] eqn:E.
  destruct (process_items _ l w1) as [w2 rs2] eqn:E2. intros [= <- <-].
  destruct (processItem_outcome _ _ _ _ _ Hok E) as [O1 O2 O3 O4 O5 O6 O7].
  destruct (IH _ _ _ _ O1 Hnd E2) as (Hlen & done_ & Hdone & Hsub & Hall). split; [simpl; by rewrite Hlen|].
  assert (∀ x, x ∈ l → item_hash x ≠ item_hash item) as Hdiff.
  { intros x Hx Heq. apply Hni. rewrite <- Heq. by apply list_elem_of_fmap_2. }
  assert (∀ x, x ∈ l → recorded (store w1) (item_hash x) ↔ recorded (store w) (item_hash x)) as Hrec.
  { intros x Hx. split; [by apply O3, Hdiff|apply O2]. }
  assert (item ∉ done_) as Hnd_. { intros Hin. apply (Hdiff item); [by apply Hsub|done]. }
  assert (∃ mine, executed w1 = executed w ++ mine ∧ (item ∈ mine → ¬ recorded (store w) (item_hash item)) ∧
    (r_status r = settled → item ∈ mine ∧ execute_ok (ios O) = true) ∧ mine ⊆ [item]) as (mine & Hm & Hm1 & Hm2 & Hm3).
  { destruct O4 as [[-> Hs]|(-> & Hn & _ & Hs)]; [exists []|exists [item]]; rewrite ?app_nil_r; split_and!; set_solver. }
  exists (mine ++ done_). split; [by rewrite Hdone, Hm, app_assoc|]. split; [set_solver|].
  intros [|i] it rr; simpl.
  - intros [= <-] [= <-]. split_and!; [done|done|done| |].
    + intros [?|?]%elem_of_app; [auto|done].
    + intros Hs. destruct (Hm2 Hs). set_solver.
  - intros Hit Hrr. destruct (Hall i it rr Hit Hrr) as (H1 & H2 & H3 & H4 & H5).
    assert (it ∈ l) as Hin by (by eapply list_elem_of_lookup_2). rewrite <- (Hrec it Hin).
    split_and!; [done|done|done| |].
    + intros [Hmi|?]%elem_of_app; [|auto]. apply Hm3, list_elem_of_singleton in Hmi. subst it. by destruct (Hdiff item Hin).
    + intros Hs. destruct (H5 Hs). set_solver.
Qed.

Lemma count_statuses rs : Z.of_nat (length rs) = count_status settled rs + count_status failed rs + count_status pending rs.
Proof.
  unfold count_status. induction rs as [|r rs IH]; [done|]. rewrite !filter_cons. destruct (r_status r); simpl; lia.
Qed.

(** C9. No payout is made twice: over any batches, accepted or refused, repeated
    or overlapping, and whatever writes fail or lose their answer, a transaction
    hash is handed to the executor at most once, and never when it was recorded
    before. In a batch that is accepted the counts add up to its items, every
    item reports its own hash and can be retried exactly when it failed, is
    skipped exactly when its hash was recorded before the batch, and is reported
    as settled only when it was executed in this batch without an error. *)
Theorem payouts_executed_once w0 bs ios l w' rep : store_ok (store w0) → executed w0 = [] →
  let w := run_batches above_1e18 max bs w0 in
  (NoDup (item_hash <$> executed w) ∧
   ∀ x, x ∈ executed w → ¬ recorded (store w0) (item_hash x) ∧ recorded (store w) (item_hash x)) ∧
  (process above_1e18 max ios l w = Ok (w', rep) →
   total rep = n_settled rep + n_failed rep + n_skipped rep ∧ total rep = Z.of_nat (length l) ∧ (total rep ≤ max) ∧
   ∃ now_executed, executed w' = executed w ++ now_executed ∧
   ∀ i item r, l !! i = Some item → items rep !! i = Some r →
     r_hash r = item_hash item ∧ (r_retryEligible r = true ↔ r_status r = failed) ∧
     (r_status r = pending ↔ r_retryEligible r = false ∧ recorded (store w) (item_hash item)) ∧
     (item ∈ now_executed → ¬ recorded (store w) (item_hash item)) ∧
     (r_status r = settled → item ∈ now_executed ∧ execute_ok (ios i) = true)).
Proof.
  intros Hok He w. destruct (batches_once (store w0) bs w0) as (Hok' & Hnd & _ & Hx).
  { unfold once. rewrite He. split_and!; [done|constructor|done|set_solver]. }
  split; [done|]. unfold process. intros H. apply bind_Ok_inv in H as ([] & Hv & H).
  unfold validatePayload in Hv. apply bind_Ok_inv in Hv as ([] & Hmax & Hv). apply throw_if_Ok in Hmax.
  apply validate_items_NoDup in Hv as [Hl _].
  destruct (process_items ios l w) as [w1 rs] eqn:E. injection H as <- <-. simpl.
  destruct (items_report ios l w w1 rs Hok' Hl E) as (Hlen & done_ & Hd & _ & Hall).
  split_and!; [rewrite <- Hlen; apply count_statuses|done|breflect; lia|]. exists done_. split; [done|]. exact Hall.
Qed.
End Once.

(** ** The settlements repository as the store *)

Section Repository.
Variable store_amount : string → option string.
Variable bond_exists : string → bool.

#[local] Instance settlements_store : PayoutStore (list Settlement) := {|
  store_upsert c input rows := '(r, rows') ← upsert store_amount bond_exists c.1 c.2 input rows; Some (rows', isDuplicate r);
  recorded rows h := is_Some (findByTransactionHash h rows)
|}.

#[local] Program Instance settlements_laws : PayoutStoreLaws (list Settlement) := {| store_ok := rows_ok |}.
Next Obligation.
  intros [now uuid] input s s' dup Hok Hu. simpl in *.
  destruct (upsert store_amount bond_exists now uuid input s) as [[r rows']|] eqn:E; [|done]. injection Hu as <- <-.
  destruct (upsert_rows _ _ _ _ _ _ _ _ Hok E) as (Hok' & Hf & _ & Hd). split; [done|]. split.
  - destruct (findByTransactionHash (in_transactionHash input) s); [destruct Hd as [-> _]|rewrite Hd];
      (split; [done|]); [done|by intros []].
  - intros h. rewrite Hf. case_bool_decide; naive_solver.
Qed.

(** A payout that failed is not made again: when it is retried, its hash is
    recorded, so it is reported as skipped and not eligible for a retry. *)
Lemma failed_payout_not_retried io clock item (w : world (list Settlement)) : rows_ok (store w) →
  is_Some (findByTransactionHash (item_hash item) (store w)) → is_Some (store_amount (default EmptyString (p_amount item))) →
  record_io io = Written clock →
  let '(w', r) := processItem io item w in
  executed w' = executed w ∧ r_status r = pending ∧ r_retryEligible r = false.
Proof.
  intros Hok [row Hrow] [a Ha] Hio. unfold processItem, write. rewrite Hio. simpl. unfold upsert. simpl.
  rewrite Ha. simpl. rewrite Hrow. done.
Qed.

(** Worse, a batch that is submitted again turns its settled rows to pending. *)
Lemma resubmission_unsettles io clock item row (w : world (list Settlement)) : rows_ok (store w) →
  findByTransactionHash (item_hash item) (store w) = Some row → status row = settled →
  is_Some (store_amount (default EmptyString (p_amount item))) → record_io io = Written clock →
  ∃ row', findByTransactionHash (item_hash item) (store (processItem io item w).1) = Some row' ∧ status row' = pending.
Proof.
  intros Hok Hrow _ [a Ha] Hio. unfold processItem, write. rewrite Hio. destruct clock as [now uuid]. simpl.
  destruct (upsert store_amount bond_exists now uuid (input_of item pending) (store w)) as [[r rows']|] eqn:E.
  2:{ unfold upsert in E. simpl in E. rewrite Ha in E. simpl in E. by rewrite Hrow in E. }
  destruct (upsert_rows _ _ _ _ _ _ _ _ Hok E) as (_ & Hf & Hs & Hd). simpl in Hd. rewrite Hrow in Hd.
  destruct Hd as [Hdup _]. simpl. rewrite Hdup. simpl. exists (settlement r). rewrite Hf. simpl.
  by rewrite bool_decide_eq_true_2.
Qed.
End Repository.

(** [getRetryableItems] fails on every batch that has items. *)
Lemma retryable_items_unusable original r : original ≠ [] → getRetryableItems original r = Err ReferenceError.
Proof. by destruct original. Qed.

Definition payout (h : string) : PayoutItem :=
  {| p_bondId := Some "b1"; p_amount := Some "12.5"; p_hash := Some h; p_settledAt := None |}.

Definition io_of (record ok : bool) : item_io :=
  {| record_io := if record then Written (5, "u") else Unacknowledged (5, "u"); execute_ok := ok; failed_io := NotWritten;
     settled_io := Written (6, "u") |}.

(** The answer of the second record is lost, the third payout fails; then the
    batch is submitted again with a new item. *)
Lemma payouts_executed_once_witness :
  let PS := settlements_store Some (λ _, true) in
  let batch := [payout "t1"; payout "t2"; payout "t3"] in
  let ios n := match n with 1%nat => io_of false true | 2%nat => io_of true false | _ => io_of true true end in
  let w := run_batches (λ _, false) 1000 [(ios, batch)] {| store := []; executed := [] |} in
  ∃ w' rep, process (λ _, false) 1000 (λ _, io_of true true) (batch ++ [payout "t4"]) w = Ok (w', rep) ∧
    (item_hash <$> executed w') = ["t1"; "t3"; "t4"] ∧ n_skipped rep = 3 ∧ n_settled rep = 1 ∧
    total rep = n_settled rep + n_failed rep + n_skipped rep ∧ NoDup (item_hash <$> executed w).
Proof.
  intros PS batch ios w. eexists _, _. split; [vm_compute; reflexivity|]. split_and!; [vm_compute; reflexivity..| |].
  - eapply (@payouts_executed_once _ PS (settlements_laws Some (λ _, true)) (λ _, false) 1000 {| store := []; executed := [] |}
      [(ios, batch)] (λ _, io_of true true) (batch ++ [payout "t4"])); [constructor|done|vm_compute; reflexivity].
  - by apply (@payouts_executed_once _ PS (settlements_laws Some (λ _, true)) (λ _, false) 1000 {| store := []; executed := [] |}
      [(ios, batch)] ios [] w {| total := 0; n_settled := 0; n_failed := 0; n_skipped := 0; items := [] |}); [constructor|].
Defined.

(** ** The settlement reconciler *)

Module Reconciler.

Inductive finding_type := state_mismatch | missing_on_chain.

#[export] Instance finding_type_eq_dec : EqDecision finding_type.
Proof. solve_decision. Defined.

#[export] Instance finding_type_countable : Countable finding_type.
Proof.
  refine (inj_countable' (λ t, match t with state_mismatch => true | missing_on_chain => false end)
    (λ b : bool, if b then state_mismatch else missing_on_chain) _). by intros [].
Defined.

(** What Horizon answers for a transaction. *)
Inductive chain_answer := TxSuccessful | TxFailed | TxNotFound | TxError.

Record details := {
  internalStatus : SettlementLifecycleStatus;
  chainStatus : option SettlementLifecycleStatus;
  d_hash : string;
  d_amount : string;
  d_updatedAt : Z
}.

(** A row of the findings; its time is in microseconds, as the column holds. *)
Record finding := { f_id : string; f_details : details; f_created : Z; f_run : option string }.

Abbreviation findings := (gmap (string * finding_type) finding).

(** A date of JavaScript has milliseconds. *)
Definition js_date (t : Z) : Z := t / 1000 * 1000.

(** The INSERT with its ON CONFLICT clause at the time [io.1], with the id
    [io.2] for a new row; [None] when it fails. *)
Definition recordFinding (io : option (Z * string)) (sid : string) (ty : finding_type) (d : details) (t : findings)
  : findings * option (string * Z) :=
  match io with
  | None => (t, None)
  | Some (now, uuid) =>
      let i := match t !! (sid, ty) with Some f => f_id f | None => uuid end in
      (<[(sid, ty) := {| f_id := i; f_details := d; f_created := now; f_run := None |}]> t, Some (i, js_date now))
  end.

Record progress := {
  checked : Z;
  discrepancies : Z;
  errors : Z;
  found : list (string * Z);
  table : findings
}.

Definition chain_status (a : chain_answer) : option SettlementLifecycleStatus :=
  match a with TxSuccessful => Some settled | TxFailed => Some failed | _ => None end.

Definition report (io : option (Z * string)) (s : Settlement) (ty : finding_type) (a : chain_answer) (p : progress) : progress :=
  let d := {| internalStatus := status s; chainStatus := chain_status a; d_hash := transactionHash s; d_amount := amount s;
              d_updatedAt := updatedAt s |} in
  let '(t, r) := recordFinding io (id s) ty d (table p) in
  {| checked := checked p; discrepancies := discrepancies p + 1;
     errors := match r with Some _ => errors p | None => errors p + 1 end;
     found := match r with Some x => found p ++ [x] | None => found p end; table := t |}.

(** The skips of the loop: no hash, or pending and recent. *)
Definition eligible (now gracePeriodMs : Z) (s : Settlement) : bool :=
  negb (String.eqb (transactionHash s) EmptyString) &&
  negb (bool_decide (status s = pending) && (now - updatedAt s <? gracePeriodMs)).

Definition reconcile_one (now gracePeriodMs : Z) (chain : string → chain_answer) (io : option (Z * string)) (s : Settlement)
    (p : progress) : progress :=
  if negb (eligible now gracePeriodMs s) then p
  else
    let p1 := {| checked := checked p + 1; discrepancies := discrepancies p; errors := errors p; found := found p;
                 table := table p |} in
    let a := chain (transactionHash s) in
    match a with
    | TxNotFound => report io s missing_on_chain a p1
    | TxError => {| checked := checked p1; discrepancies := discrepancies p1; errors := errors p1 + 1; found := found p1;
                    table := table p1 |}
    | _ => if bool_decide (Some (status s) = chain_status a) then p1 else report io s state_mismatch a p1
    end.

Fixpoint reconcile (now gracePeriodMs : Z) (chain : string → chain_answer) (io : nat → option (Z * string))
    (l : list Settlement) (p : progress) : progress :=
  match l with
  | [] => p
  | s :: l' => reconcile now gracePeriodMs chain (λ n, io (S n)) l' (reconcile_one now gracePeriodMs chain (io O) s p)
  end.

Definition link_one (runId : string) (x : string * Z) (t : findings) : findings :=
  (λ f, if bool_decide (f_id f = x.1 ∧ f_created f = x.2 ∧ f_run f = None)
        then {| f_id := f_id f; f_details := f_details f; f_created := f_created f; f_run := Some runId |} else f) <$> t.

(** Each update succeeds or counts as an error. *)
Fixpoint linkFindingsToRun (runId : string) (ok : nat → bool) (l : list (string * Z)) (t : findings) : findings * Z :=
  match l with
  | [] => (t, 0)
  | x :: l' =>
      if ok O then linkFindingsToRun runId (λ n, ok (S n)) l' (link_one runId x t)
      else let '(t', e) := linkFindingsToRun runId (λ n, ok (S n)) l' t in (t', e + 1)
  end.

Record run_row := { run_id : string; run_checked : Z; run_discrepancies : Z; run_errors : Z }.

Record reconciler := { fs : findings; runs : list run_row }.

(** How the database treats a run. *)
Record run_io := {
  select_ok : bool;
  finding_io : nat → option (Z * string);
  summary_io : option string;
  link_ok : nat → bool;
  update_ok : bool
}.

Record ReconciliationResult := { runId : option string; res_checked : Z; res_discrepancies : Z; res_errors : Z }.

Definition run (windowMs gracePeriodMs now : Z) (chain : string → chain_answer) (io : run_io) (rows : list Settlement)
    (r : reconciler) : reconciler * ReconciliationResult :=
  let p0 := {| checked := 0; discrepancies := 0; errors := 0; found := []; table := fs r |} in
  let p := if select_ok io
           then reconcile now gracePeriodMs chain (finding_io io) (filter (λ s, now - windowMs ≤ updatedAt s) rows) p0
           else {| checked := 0; discrepancies := 0; errors := 1; found := []; table := fs r |} in
  match summary_io io with
  | None => ({| fs := table p; runs := runs r |},
             {| runId := None; res_checked := checked p; res_discrepancies := discrepancies p; res_errors := errors p |})
  | Some u =>
      let '(t, e) := linkFindingsToRun u (link_ok io) (found p) (table p) in
      let errs := errors p + e in
      let row := {| run_id := u; run_checked := checked p; run_discrepancies := discrepancies p;
                    run_errors := if (0 <? e) && update_ok io then errs else errors p |} in
      ({| fs := t; runs := runs r ++ [row] |},
       {| runId := Some u; res_checked := checked p; res_discrepancies := discrepancies p; res_errors := errs |})
  end.

(** *** What a run finds *)

(** The finding a settlement deserves. *)
Definition verdict (chain : string → chain_answer) (s : Settlement) : option finding_type :=
  match chain (transactionHash s) with
  | TxNotFound => Some missing_on_chain
  | TxError => None
  | a => if bool_decide (Some (status s) = chain_status a) then None else Some state_mismatch
  end.

Definition evidence (chain : string → chain_answer) (s : Settlement) : details :=
  {| internalStatus := status s; chainStatus := chain_status (chain (transactionHash s)); d_hash := transactionHash s;
     d_amount := amount s; d_updatedAt := updatedAt s |}.

Definition is_error (chain : string → chain_answer) (s : Settlement) : bool :=
  match chain (transactionHash s) with TxError => true | _ => false end.

Definition countZ {A} (p : A → bool) (l : list A) : Z := Z.of_nat (length (filter (λ x, p x = true) l)).

Lemma countZ_cons {A} (p : A → bool) x l : countZ p (x :: l) = (if p x then 1 else 0) + countZ p l.
Proof. unfold countZ. rewrite filter_cons. destruct (p x); [rewrite decide_True by done|rewrite decide_False by done]; simpl length; lia. Qed.

(** Linking sets the run of exactly the rows noted under their id and time. *)
Lemma link_spec u l t k f : t !! k = Some f →
  (linkFindingsToRun u (λ _, true) l t).2 = 0 ∧
  (linkFindingsToRun u (λ _, true) l t).1 !! k =
    Some (if bool_decide (f_run f = None ∧ (f_id f, f_created f) ∈ l)
          then {| f_id := f_id f; f_details := f_details f; f_created := f_created f; f_run := Some u |} else f).
Proof.
  revert t f. induction l as [|[i c] l IH]; intros t f Hk; simpl.
  - split; [done|]. rewrite bool_decide_eq_false_2 by set_solver. done.
  - assert (link_one u (i, c) t !! k = Some (if bool_decide (f_id f = i ∧ f_created f = c ∧ f_run f = None)
      then {| f_id := f_id f; f_details := f_details f; f_created := f_created f; f_run := Some u |} else f)) as H1.
    { unfold link_one. by rewrite lookup_fmap, Hk. }
    destruct (IH _ _ H1) as [H2 H3]. split; [done|]. rewrite H3. clear H1 H2 H3 IH.
    destruct (bool_decide_reflect (f_id f = i ∧ f_created f = c ∧ f_run f = None)) as [(<- & <- & Hn)|Hno]; simpl.
    + rewrite (bool_decide_eq_true_2 (f_run f = None ∧ _)); [done|]. split; [done|left].
    + f_equal. case_bool_decide as H1; case_bool_decide as H2; try done; exfalso; [apply H2|apply H1]; set_solver.
Qed.

Lemma link_domain u l t k : t !! k = None → (linkFindingsToRun u (λ _, true) l t).1 !! k = None.
Proof.
  revert t. induction l as [|x l IH]; intros t Hk; simpl; [done|]. apply IH. unfold link_one. by rewrite lookup_fmap, Hk.
Qed.

Lemma link_errors u l t t' e : linkFindingsToRun u (λ _, true) l t = (t', e) → e = 0.
Proof. revert t. induction l as [|x l IH]; intros t; simpl; [by intros [= _ <-]|apply IH]. Qed.

Section Exact.
Variables (now gracePeriodMs : Z) (chain : string → chain_answer).

Abbreviation judged s := (eligible now gracePeriodMs s).

(** One settlement: its verdict is recorded, or nothing changes. *)
Lemma reconcile_one_spec time uuid s p : let p' := reconcile_one now gracePeriodMs chain (Some (time, uuid)) s p in
  checked p' = checked p + (if judged s then 1 else 0) ∧
  errors p' = errors p + (if judged s && is_error chain s then 1 else 0) ∧
  match (if judged s then verdict chain s else None) with
  | Some ty => discrepancies p' = discrepancies p + 1 ∧
      ∃ i, table p' = <[(id s, ty) := {| f_id := i; f_details := evidence chain s; f_created := time; f_run := None |}]> (table p) ∧
           found p' = found p ++ [(i, js_date time)]
  | None => discrepancies p' = discrepancies p ∧ table p' = table p ∧ found p' = found p
  end.
Proof.
  unfold reconcile_one, verdict, is_error, evidence. destruct (judged s); simpl; [|split_and!; lia || done].
  destruct (chain (transactionHash s)); simpl; try case_bool_decide; simpl; split_and!; try lia; try done; eauto.
Qed.

(** The loop: the counts, the rows written, and that each was noted. *)
Lemma reconcile_spec times uuids l p : NoDup (id <$> l) →
  let p' := reconcile now gracePeriodMs chain (λ n, Some (times n, uuids n)) l p in
  checked p' = checked p + countZ (λ s, judged s) l ∧
  errors p' = errors p + countZ (λ s, judged s && is_error chain s) l ∧
  discrepancies p' = discrepancies p + countZ (λ s, judged s && isSome (verdict chain s)) l ∧
  (∀ k, (∀ s, s ∈ l → judged s = true → verdict chain s = Some k.2 → id s ≠ k.1) → table p' !! k = table p !! k) ∧
  (∀ n s ty, l !! n = Some s → judged s = true → verdict chain s = Some ty →
     ∃ i, table p' !! (id s, ty) = Some {| f_id := i; f_details := evidence chain s; f_created := times n; f_run := None |} ∧
          (i, js_date (times n)) ∈ found p') ∧
  (∀ x, x ∈ found p → x ∈ found p') ∧
  (∀ x, x ∈ found p' → x ∈ found p ∨ ∃ n, x.2 = js_date (times n)).
Proof.
  revert times uuids p. induction l as [|s l IH]; intros times uuids p Hnd.
  { simpl. unfold countZ. simpl. split_and!; try lia; try done; auto. }
  apply NoDup_cons in Hnd as [Hni Hnd].
  pose proof (reconcile_one_spec (times O) (uuids O) s p) as H1. cbv zeta in H1 |- *. cbn [reconcile].
  set (p1 := reconcile_one now gracePeriodMs chain (Some (times O, uuids O)) s p) in *.
  specialize (IH (λ n, times (S n)) (λ n, uuids (S n)) p1 Hnd). cbv zeta in IH.
  set (p' := reconcile now gracePeriodMs chain (λ n, Some (times (S n), uuids (S n))) l p1) in *.
  destruct IH as (I1 & I2 & I3 & I4 & I5 & I6 & I7). destruct H1 as (C1 & C2 & C3).
  assert (∀ x, x ∈ l → id x ≠ id s) as Hdiff.
  { intros x Hx Heq. apply Hni. rewrite <- Heq. by apply list_elem_of_fmap_2. }
  rewrite !countZ_cons, I1, I2, I3, C1, C2. split; [lia|]. split; [lia|].
  destruct (judged s) eqn:Hj; simpl in C3 |- *; destruct (verdict chain s) as [ty|] eqn:Hv; simpl.
  1: { destruct C3 as (-> & i & Ht & Hf). split; [lia|]. split_and!.
       - intros [sid ty'] Hk. rewrite (I4 (sid, ty')); [|intros x Hx; apply Hk; set_solver]. rewrite Ht.
         apply lookup_insert_ne. intros [= <- <-]. apply (Hk s); [set_solver|done..].
       - intros [|n] x ty' Hn Hjx Hvx; simpl in Hn.
         + injection Hn as <-. assert (ty' = ty) as -> by congruence. exists i.
           rewrite (I4 (id s, ty)); [|intros x Hx _ _; simpl; by apply Hdiff]. rewrite Ht, lookup_insert_eq.
           split; [done|]. apply I6. rewrite Hf. set_solver.
         + by apply (I5 n).
       - intros x Hx. apply I6. rewrite Hf. set_solver.
       - intros x [Hx|[n Hx]]%I7; [|by eauto]. rewrite Hf in Hx. apply elem_of_app in Hx as [?| ->%list_elem_of_singleton]; [by left|].
         right. by exists O. }
  all: destruct C3 as (-> & Ht & Hf); split; [lia|]; split_and!;
    [intros k Hk; rewrite I4; [by rewrite Ht|intros x Hx; apply Hk; set_solver]
    |intros [|n] x ty' Hn Hjx Hvx; simpl in Hn; [injection Hn as <-; congruence|by apply (I5 n)]
    |intros x Hx; apply I6; by rewrite Hf
    |intros x [Hx|[n Hx]]%I7; [rewrite Hf in Hx; by left|by eauto]].
Qed.

End Exact.

(** A reconciliation run whose statements succeed judges exactly the
    settlements of its window that have a hash and are not freshly pending: it
    counts them, the ones that disagree with the chain and the ones Horizon did
    not answer for; each disagreement leaves one finding of its kind with the
    statuses compared, and no other finding is touched but for its run. The
    finding carries the id of the run exactly when the database stored it on a
    full millisecond, since the run looks for it with a date of JavaScript. *)
Theorem reconciliation_exact windowMs gracePeriodMs now chain times uuids u rows r : NoDup (id <$> rows) →
  let io := {| select_ok := true; finding_io n := Some (times n, uuids n); summary_io := Some u; link_ok _ := true;
               update_ok := true |} in
  let '(r', res) := run windowMs gracePeriodMs now chain io rows r in
  let window := filter (λ s, now - windowMs ≤ updatedAt s) rows in
  let judged := eligible now gracePeriodMs in
  runId res = Some u ∧ res_checked res = countZ judged window ∧
  res_discrepancies res = countZ (λ s, judged s && isSome (verdict chain s)) window ∧
  res_errors res = countZ (λ s, judged s && is_error chain s) window ∧
  runs r' = runs r ++ [{| run_id := u; run_checked := res_checked res; run_discrepancies := res_discrepancies res;
                          run_errors := res_errors res |}] ∧
  (∀ n s ty, window !! n = Some s → judged s = true → verdict chain s = Some ty →
     ∃ f, fs r' !! (id s, ty) = Some f ∧ f_details f = evidence chain s ∧ f_created f = times n ∧
          f_run f = if times n mod 1000 =? 0 then Some u else None) ∧
  (∀ sid ty, (∀ s, s ∈ window → judged s = true → verdict chain s = Some ty → id s ≠ sid) →
     match fs r !! (sid, ty), fs r' !! (sid, ty) with
     | Some f, Some f' => f_id f' = f_id f ∧ f_details f' = f_details f ∧ f_created f' = f_created f
     | None, None => True
     | _, _ => False
     end).
Proof.
  intros Hnd io. set (window := filter (λ s, now - windowMs ≤ updatedAt s) rows).
  assert (NoDup (id <$> window)) as Hw.
  { eapply sublist_NoDup; [exact Hnd|]. apply fmap_sublist, sublist_filter. }
  destruct (run windowMs gracePeriodMs now chain io rows r) as [r' res] eqn:Hrun. unfold run in Hrun. cbn [select_ok finding_io summary_io link_ok update_ok io] in Hrun.
  pose proof (reconcile_spec now gracePeriodMs chain times uuids window
    {| checked := 0; discrepancies := 0; errors := 0; found := []; table := fs r |} Hw) as H. cbv zeta in H, Hrun.
  fold window in Hrun.
  set (p := reconcile now gracePeriodMs chain (λ n, Some (times n, uuids n)) window
    {| checked := 0; discrepancies := 0; errors := 0; found := []; table := fs r |}) in *.
  destruct H as (I1 & I2 & I3 & I4 & I5 & _ & I7). cbn [checked errors discrepancies table found] in *.
  destruct (linkFindingsToRun u (λ _, true) (found p) (table p)) as [t e] eqn:Hl.
  assert (e = 0) as -> by (apply link_errors in Hl; done).
  assert (∀ k f, table p !! k = Some f → t !! k = Some (if bool_decide (f_run f = None ∧ (f_id f, f_created f) ∈ found p)
      then {| f_id := f_id f; f_details := f_details f; f_created := f_created f; f_run := Some u |} else f)) as Hlink.
  { intros k f Hk. pose proof (link_spec u (found p) (table p) k f Hk) as [_ H]. by rewrite Hl in H. }
  injection Hrun as <- <-. cbn [runId res_checked res_discrepancies res_errors runs fs]. rewrite Z.add_0_r.
  split_and!; [done|rewrite I1; apply Z.add_0_l|rewrite I3; apply Z.add_0_l|rewrite I2; apply Z.add_0_l|done| |].
  - intros n s ty Hn Hj Hv. destruct (I5 n s ty Hn Hj Hv) as (i & Hk & Hf). rewrite (Hlink _ _ Hk). eexists. split; [done|].
    cbn [f_run f_id f_created f_details]. destruct (Z.eqb_spec (times n mod 1000) 0) as [Hm|Hm].
    + rewrite bool_decide_eq_true_2; [done|]. split; [done|]. replace (times n) with (js_date (times n)); [done|].
      unfold js_date. pose proof (Z.div_mod (times n) 1000). lia.
    + rewrite bool_decide_eq_false_2; [done|]. intros [_ [?|[m Hx]]%I7]; [set_solver|]. simpl in Hx. apply Hm. rewrite Hx.
      apply Z.mod_mul. lia.
  - intros sid ty Hno. pose proof (I4 (sid, ty) Hno) as Hk. cbn [snd fst] in Hk. destruct (fs r !! (sid, ty)) as [f|] eqn:E.
    + rewrite (Hlink _ _ Hk). by case_bool_decide.
    + pose proof (link_domain u (found p) (table p) (sid, ty)) as Hd. rewrite Hl in Hd. simpl in Hd. by rewrite Hd.
Qed.

Definition settlement_of (i h : string) (st : SettlementLifecycleStatus) : Settlement :=
  {| id := i; bondId := "b"; amount := "1"; transactionHash := h; settledAt := 0; status := st; createdAt := 0; updatedAt := 900 |}.

Definition sample_chain (h : string) : chain_answer :=
  if String.eqb h "t1" then TxSuccessful else if String.eqb h "t2" then TxFailed else TxNotFound.

(** Three settlements, two of which disagree with the chain; the second finding
    is stored between two milliseconds and stays without its run. *)
Lemma reconciliation_exact_witness :
  let rows := [settlement_of "s1" "t1" settled; settlement_of "s2" "t2" settled; settlement_of "s3" "t3" failed] in
  let io := {| select_ok := true; finding_io n := Some (1000000 + 500 * Z.of_nat n, bigint_toString (Z.of_nat n));
               summary_io := Some "r1"; link_ok _ := true; update_ok := true |} in
  let '(r', res) := run 1000 300 1000 sample_chain io rows {| fs := ∅; runs := [] |} in
  res_discrepancies res = 2 ∧ runs r' = [{| run_id := "r1"; run_checked := 3; run_discrepancies := 2; run_errors := 0 |}] ∧
  (f_run <$> fs r' !! ("s2", state_mismatch)) = Some None ∧ (f_run <$> fs r' !! ("s3", missing_on_chain)) = Some (Some "r1").
Proof.
  intros rows io.
  assert (NoDup (id <$> rows)) as Hnd by (apply (bool_decide_unpack (NoDup _)); vm_compute; done).
  pose proof (reconciliation_exact 1000 300 1000 sample_chain (λ n, 1000000 + 500 * Z.of_nat n)
    (λ n, bigint_toString (Z.of_nat n)) "r1" rows {| fs := ∅; runs := [] |} Hnd) as H. cbv beta zeta in H. fold io in H.
  destruct (run 1000 300 1000 sample_chain io rows {| fs := ∅; runs := [] |}) as [r' res].
  destruct H as (_ & Hc & Hd & He & Hr & Hf & _). rewrite Hr, Hc, Hd, He. split_and!; [vm_compute; reflexivity..| |].
  - destruct (Hf 1%nat (settlement_of "s2" "t2" settled) state_mismatch) as (f & Hk & _ & _ & Hrun); [reflexivity..|].
    cbn [id settlement_of] in Hk. rewrite Hk. simpl. by rewrite Hrun.
  - destruct (Hf 2%nat (settlement_of "s3" "t3" failed) missing_on_chain) as (f & Hk & _ & _ & Hrun); [reflexivity..|].
    cbn [id settlement_of] in Hk. rewrite Hk. simpl. by rewrite Hrun.
Defined.

End Reconciler.
