(* ===== verification/DeadLetters.v ===== *)
(** * Dead letters: captured events, their replay and their retention

    [db/repositories/failedInboundEventsRepository.ts] on the table of its
    migrations, [services/replayService.ts] with its cache, and
    [jobs/failedInboundEventsSweeper.ts]. The handlers, the clock and generated
    ids are parameters; audit entries, metrics and log texts are left out. *)

From stdpp Require Import base option list gmap strings sorting.
From Stdlib Require Import ZArith Lia Ascii.
From S2P Require Import Prelude JsLib.

Open Scope Z_scope.

Inductive FailedEventStatus := Failed | Replayed | Skipped.

#[export] Instance status_eq_dec : EqDecision FailedEventStatus.
Proof. solve_decision. Defined.

Definition terminal (s : FailedEventStatus) : bool := match s with Failed => false | _ => true end.

Section Data.
Context {D : Type}.

Record FailedInboundEvent := {
  id : string;
  eventType : string;
  eventData : D;
  failureReason : option string;
  replayToken : string;
  status : FailedEventStatus;
  createdAt : Z;
  updatedAt : Z;
  retryCount : Z;
  lastRetriedAt : option Z
}.

Inductive repo_error :=
| INVALID_EVENT_TYPE
| INVALID_EVENT_DATA
| CREATE_FAILED
| INVALID_ID
| SqlState (code : string).

Abbreviation rows := (list FailedInboundEvent).

(** ** The repository *)

Definition findById (i : string) (t : rows) : option FailedInboundEvent :=
  if String.eqb i EmptyString then None else head (filter (λ r, id r = i) t).

Definition findByReplayToken (tok : string) (t : rows) : option FailedInboundEvent :=
  if String.eqb tok EmptyString then None else head (filter (λ r, replayToken r = tok) t).

(** Missing data is [None]; [uuid] gives the id of the row and, when no token
    is given, the token. The columns are varchar(50) and varchar(100). *)
Definition create (now : Z) (uuid : string * string) (type : string) (data : option D) (reason token : option string) (t : rows)
  : result repo_error (rows * FailedInboundEvent) :=
  _ ← throw_if (String.eqb (trim type) EmptyString) INVALID_EVENT_TYPE;
  match data with
  | None => Err INVALID_EVENT_DATA
  | Some d =>
      let tok := if falsy token then uuid.2 else default EmptyString token in
      _ ← throw_if ((50 <? slen type) || (100 <? slen tok)) (SqlState "22001");
      match head (filter (λ r, replayToken r = tok) t) with
      | Some existing => Ok (t, existing)
      | None =>
          let r := {| id := uuid.1; eventType := type; eventData := d; failureReason := reason; replayToken := tok;
                      status := Failed; createdAt := now; updatedAt := now; retryCount := 0; lastRetriedAt := None |} in
          Ok (t ++ [r], r)
      end
  end.

Definition set_status (now : Z) (s : FailedEventStatus) (r : FailedInboundEvent) : FailedInboundEvent :=
  {| id := id r; eventType := eventType r; eventData := eventData r; failureReason := failureReason r;
     replayToken := replayToken r; status := s; createdAt := createdAt r; updatedAt := now; retryCount := retryCount r;
     lastRetriedAt := lastRetriedAt r |}.

Definition retried (now : Z) (r : FailedInboundEvent) : FailedInboundEvent :=
  {| id := id r; eventType := eventType r; eventData := eventData r; failureReason := failureReason r;
     replayToken := replayToken r; status := status r; createdAt := createdAt r; updatedAt := now;
     retryCount := retryCount r + 1; lastRetriedAt := Some now |}.

(** [UPDATE ... WHERE id = i AND p]. *)
Definition update_row (i : string) (p : FailedInboundEvent → bool) (f : FailedInboundEvent → FailedInboundEvent) (t : rows) : rows :=
  (λ r, if bool_decide (id r = i) && p r then f r else r) <$> t.

Definition updateStatus (now : Z) (i : string) (s : FailedEventStatus) (t : rows)
  : result repo_error (rows * option FailedInboundEvent) :=
  _ ← throw_if (String.eqb i EmptyString) INVALID_ID;
  let t' := update_row i (λ r, negb (terminal (status r) && bool_decide (s = Failed))) (set_status now s) t in
  Ok (t', findById i t').

(** The count is a smallint. *)
Definition incrementRetryCount (now : Z) (i : string) (t : rows) : result repo_error (rows * option FailedInboundEvent) :=
  _ ← throw_if (String.eqb i EmptyString) INVALID_ID;
  let hit r := bool_decide (status r = Failed) in
  _ ← throw_if (existsb (λ r, bool_decide (id r = i) && hit r && (32767 <=? retryCount r)) t) (SqlState "22003");
  let t' := update_row i hit (retried now) t in
  Ok (t', r ← findById i t; if hit r then findById i t' else None).

Definition MAX_BATCH_SIZE : Z := 1000.
Definition MAX_LIST_LIMIT : Z := 500.
Definition DEFAULT_LIST_LIMIT : Z := 50.

Definition newest_first (a b : FailedInboundEvent) : Prop :=
  createdAt b < createdAt a ∨ (createdAt a = createdAt b ∧ String.leb (id b) (id a) = true).
#[export] Instance newest_first_dec : RelDecision newest_first.
Proof. intros a b. unfold newest_first. apply _. Defined.

(** [limit] and [offset] are [None] when they are not finite. With a type and
    no status the clause reads [WHEREevent_type], which is no SQL. *)
Definition list_events (s : option FailedEventStatus) (type : option string) (limit offset : option Z) (t : rows)
  : result repo_error (rows * Z) :=
  let safeLimit := match limit with Some n => Z.min (Z.max n 1) MAX_LIST_LIMIT | None => DEFAULT_LIST_LIMIT end in
  let safeOffset := match offset with Some n => Z.max n 0 | None => 0 end in
  let by_type := negb (falsy type) in
  _ ← throw_if (by_type && negb (isSome s)) (SqlState "42601");
  let hit r := match s with Some x => bool_decide (status r = x) | None => true end &&
               (negb by_type || bool_decide (Some (eventType r) = type)) in
  let hits := filter (λ r, hit r = true) t in
  Ok (take (Z.to_nat safeLimit) (drop (Z.to_nat safeOffset) (merge_sort newest_first hits)), Z.of_nat (length hits)).

Definition countByStatus (s : FailedEventStatus) (t : rows) : Z := Z.of_nat (length (filter (λ r, status r = s) t)).

(** The first [n] rows of [p], oldest first and by position, are deleted. *)
Definition oldest_first (a b : nat * FailedInboundEvent) : Prop :=
  createdAt a.2 < createdAt b.2 ∨ (createdAt a.2 = createdAt b.2 ∧ (a.1 ≤ b.1)%nat).
#[export] Instance oldest_first_dec : RelDecision oldest_first.
Proof. intros a b. unfold oldest_first. apply _. Defined.

Definition victims (n : nat) (p : FailedInboundEvent → bool) (t : rows) : list nat :=
  (take n (merge_sort oldest_first (filter (λ x, p x.2 = true) (imap pair t)))).*1.

Definition delete_batch (n : nat) (p : FailedInboundEvent → bool) (t : rows) : rows * Z :=
  let v := victims n p t in
  ((filter (λ x, x.1 ∉ v) (imap pair t)).*2, Z.of_nat (length v)).

Definition expired_terminal (before : Z) (r : FailedInboundEvent) : bool := terminal (status r) && (createdAt r <? before).
Definition expired_failed (before : Z) (r : FailedInboundEvent) : bool :=
  bool_decide (status r = Failed) && (createdAt r <? before).

Definition deleteTerminalEvents (before batchSize : Z) (t : rows) : rows * Z :=
  if batchSize <=? 0 then (t, 0)
  else delete_batch (Z.to_nat (Z.min batchSize MAX_BATCH_SIZE)) (expired_terminal before) t.

Definition count_rows (p : FailedInboundEvent → bool) (t : rows) : Z := Z.of_nat (length (filter (λ r, p r = true) t)).

Definition countTerminalEvents (before : Z) (t : rows) : Z := count_rows (expired_terminal before) t.

(** ** The sweeper *)

Record SweeperOptions := { batchSize : Z; dryRun : bool; terminalRetentionDays : Z; failedMaxAgeDays : Z }.

Definition default_sweeper : SweeperOptions :=
  {| batchSize := 5000; dryRun := false; terminalRetentionDays := 30; failedMaxAgeDays := 0 |}.

Definition DAY_MS : Z := 24 * 60 * 60 * 1000.

(** The deletion loop; [None] when [fuel] runs out. *)
Fixpoint delete_loop (fuel : nat) (batch : Z) (del : rows → rows * Z) (remaining deleted : Z) (t : rows) : option (rows * Z) :=
  if remaining <=? 0 then Some (t, deleted)
  else
    match fuel with
    | O => None
    | S n =>
        let '(t', k) := del t in
        if k <? batch then Some (t', deleted + k)
        else delete_loop n batch del (remaining - k) (deleted + k) t'
    end.

Record SweepResult := { terminalCount : Z; deletedCount : Z }.

Definition sweep (o : SweeperOptions) (now : Z) (t : rows) : option (rows * SweepResult) :=
  let cutoff := now - terminalRetentionDays o * DAY_MS in
  let found := countTerminalEvents cutoff t in
  '(t1, deleted) ← (if negb (dryRun o) && (0 <? found)
                    then delete_loop (S (length t)) (batchSize o) (deleteTerminalEvents cutoff (batchSize o)) found 0 t
                    else Some (t, 0));
  let failedCutoff := now - failedMaxAgeDays o * DAY_MS in
  let failedFound := count_rows (expired_failed failedCutoff) t1 in
  '(t2, _) ← (if (0 <? failedMaxAgeDays o) && negb (dryRun o) && (0 <? failedFound)
              then delete_loop (S (length t1)) (batchSize o)
                     (λ t, delete_batch (Z.to_nat (batchSize o)) (expired_failed failedCutoff) t) failedFound 0 t1
              else Some (t1, 0));
  Some (t2, {| terminalCount := found; deletedCount := deleted |}).

(** ** The replay service *)

Definition FAILED_EVENT_CACHE_TTL : Z := 300 * 1000.

(** The table, the cache with the expiry of its entries, and the events the
    handlers were given, with whether they succeeded. *)
Record service := {
  table : rows;
  cache : gmap string (FailedInboundEvent * Z);
  handled : list (string * bool)
}.

Definition cache_get (now : Z) (i : string) (s : service) : option FailedInboundEvent :=
  match cache s !! i with Some (e, x) => if now <? x then Some e else None | None => None end.

Definition with_table (t : rows) (s : service) : service := {| table := t; cache := cache s; handled := handled s |}.

Definition getFailedEvent (now : Z) (i : string) (s : service) : service * option FailedInboundEvent :=
  match cache_get now i s with
  | Some e => (s, Some e)
  | None =>
      match findById i (table s) with
      | Some e => ({| table := table s; cache := <[i := (e, now + FAILED_EVENT_CACHE_TTL)]> (cache s); handled := handled s |}, Some e)
      | None => (s, None)
      end
  end.

Inductive replay_result :=
| ReplaySuccess
| AlreadyReplayed
| EventNotFound (i : string)
| NoHandler (type : string)
| ReplayFailed.

(** Which statements of a replay succeed, and how the handler ends. *)
Record replay_io := { handler_ok : bool; update_ok : bool; increment_ok : bool }.

Definition all_ok (h : bool) : replay_io := {| handler_ok := h; update_ok := true; increment_ok := true |}.

Definition increment (io : replay_io) (now : Z) (i : string) (t : rows) : rows :=
  if increment_ok io then match incrementRetryCount now i t with Ok (t', _) => t' | Err _ => t end else t.

(** [replayEvent], the calls of one event one after the other. *)
Definition replayEvent (registered : string → bool) (io : replay_io) (now : Z) (i : string) (s : service)
  : service * replay_result :=
  let '(s0, found) := getFailedEvent now i s in
  match found with
  | None => (s0, EventNotFound i)
  | Some e =>
      if bool_decide (status e = Replayed) then (s0, AlreadyReplayed)
      else if negb (registered (eventType e)) then (s0, NoHandler (eventType e))
      else
        let s1 := {| table := table s0; cache := cache s0; handled := handled s0 ++ [(i, handler_ok io)] |} in
        let fails s := (with_table (increment io now i (table s)) s, ReplayFailed) in
        if negb (handler_ok io) then fails s1
        else if negb (update_ok io) then fails s1
        else
          match updateStatus now i Replayed (table s1) with
          | Err _ => fails s1
          | Ok (t, _) =>
              let s2 := with_table t s1 in
              match (if increment_ok io then incrementRetryCount now i t else Err CREATE_FAILED) with
              | Err _ => fails s2
              | Ok (t', _) =>
                  let s3 := with_table t' s2 in
                  match findById i t' with
                  | Some _ => ({| table := table s3; cache := delete i (cache s3); handled := handled s3 |}, ReplaySuccess)
                  | None => (s3, ReplaySuccess)
                  end
              end
          end
  end.

Definition captureFailure (now : Z) (uuid : string * string) (type : string) (data : option D) (reason token : option string)
    (s : service) : result repo_error (service * FailedInboundEvent) :=
  '(t, r) ← create now uuid type data reason token (table s); Ok (with_table t s, r).

End Data.
#[global] Arguments FailedInboundEvent : clear implicits.
#[global] Arguments service : clear implicits.

(** ** What a sweep deletes *)

Section Sweep.
Context {D : Type}.
Abbreviation rows := (list (FailedInboundEvent D)).

Lemma imap_pair_snd {A} (l : list A) : (imap pair l).*2 = l.
Proof. apply list_eq. intros i. rewrite list_lookup_fmap, list_lookup_imap. by destruct (l !! i). Qed.

Lemma imap_pair_NoDup {A} (l : list A) : NoDup (imap pair l).*1.
Proof.
  apply NoDup_alt. intros i j x. rewrite !list_lookup_fmap, !list_lookup_imap.
  destruct (l !! i), (l !! j); simpl; try done. congruence.
Qed.

Lemma filter_snd {A B} (P : B → Prop) `{∀ x, Decision (P x)} (X : list (A * B)) :
  (filter (λ x, P x.2) X).*2 = filter P X.*2.
Proof.
  induction X as [|[a b] X IH]; [done|]. rewrite fmap_cons, !filter_cons. cbn [snd]. case_decide; [rewrite fmap_cons|]; by rewrite IH.
Qed.

Lemma filter_comm {A} (P Q : A → Prop) `{∀ x, Decision (P x), ∀ x, Decision (Q x)} (l : list A) :
  filter P (filter Q l) = filter Q (filter P l).
Proof. induction l as [|x l IH]; [done|]. rewrite !filter_cons. repeat case_decide; rewrite ?filter_cons; repeat case_decide; naive_solver congruence. Qed.

(** A batch deletes as many rows of [p] as it may, and no other row. *)
Lemma delete_batch_spec n (p : FailedInboundEvent D → bool) (t : rows) :
  let '(t', k) := delete_batch n p t in
  k = Z.min (Z.of_nat n) (count_rows p t) ∧ count_rows p t' = count_rows p t - k ∧
  filter (λ r, p r = false) t' = filter (λ r, p r = false) t ∧ t' `sublist_of` t.
Proof.
  unfold delete_batch, victims, count_rows. set (X := imap pair t). set (M := merge_sort oldest_first (filter (λ x, p x.2 = true) X)).
  set (v := (take n M).*1).
  assert (M ≡ₚ filter (λ x, p x.2 = true) X) as HM by apply merge_sort_Permutation.
  assert (X.*2 = t) as HX by apply imap_pair_snd. assert (NoDup X.*1) as Hnd by apply imap_pair_NoDup.
  assert (NoDup M.*1) as HndM.
  { rewrite HM. eapply sublist_NoDup; [exact Hnd|]. apply fmap_sublist, sublist_filter. }
  assert (length M = length (filter (λ r, p r = true) t)) as Hlen.
  { rewrite HM, <- HX, <- (filter_snd (λ r, p r = true) X). by rewrite length_fmap. }
  assert (length v = Nat.min n (length M)) as Hv by (unfold v; by rewrite length_fmap, length_take).
  assert (∀ q : bool, length (filter (λ r, p r = q) (filter (λ x, x.1 ∉ v) X).*2) =
    length (filter (λ x, x.1 ∉ v) (filter (λ x, p x.2 = q) X))) as Hcount.
  { intros q. rewrite <- (filter_snd (λ r, p r = q)), length_fmap. by rewrite filter_comm. }
  split_and!.
  - rewrite Hv, <- Hlen. lia.
  - rewrite Hcount. rewrite <- Hlen, Hv.
    assert (filter (λ x, x.1 ∉ v) (filter (λ x, p x.2 = true) X) ≡ₚ drop n M) as ->; [|rewrite length_drop; lia].
    rewrite <- HM. rewrite <- (take_drop n M) at 1. rewrite filter_app.
    rewrite (list_filter_none _ (take n M)), (list_filter_id _ (drop n M)); [done| |].
    + intros x Hx Hin. rewrite <- (take_drop n M), fmap_app in HndM. apply NoDup_app in HndM as (_ & Hdis & _).
      apply (Hdis x.1 Hin). by apply list_elem_of_fmap_2.
    + intros x Hx Hn. apply Hn. by apply list_elem_of_fmap_2.
  - rewrite <- (filter_snd (λ r, p r = false)), filter_comm. rewrite (list_filter_id (λ x : nat * FailedInboundEvent D, x.1 ∉ v)).
    + rewrite <- HX. exact (filter_snd (λ r, p r = false) X).
    + intros x [Hp Hx]%list_elem_of_filter (y & Heq & Hy)%list_elem_of_fmap.
      apply elem_of_take in Hy as (i & Hy%list_elem_of_lookup_2 & _). rewrite HM in Hy. apply list_elem_of_filter in Hy as [Hpy Hy].
      assert (x = y) as ->; [|congruence]. destruct x as [a b], y as [a' b']. simpl in Heq. subst a'.
      apply list_elem_of_lookup in Hx as [j Hj], Hy as [k Hk]. assert (j = k) as ->; [|congruence].
      eapply (NoDup_lookup _ _ _ a Hnd); rewrite list_lookup_fmap, ?Hj, ?Hk; done.
  - rewrite <- HX. apply fmap_sublist, sublist_filter.
Qed.

(** The loop over batches that delete up to [cap] rows at a time: when [cap] is
    the batch size it deletes all; when [cap] is smaller it stops after one. *)
Lemma delete_loop_spec (del : rows → rows * Z) p cap batch : 1 ≤ cap ≤ batch →
  (∀ t, let '(t', k) := del t in k = Z.min cap (count_rows p t) ∧ count_rows p t' = count_rows p t - k ∧
     filter (λ r, p r = false) t' = filter (λ r, p r = false) t ∧ t' `sublist_of` t) →
  ∀ fuel t d, count_rows p t < Z.of_nat fuel →
  ∃ t', delete_loop fuel batch del (count_rows p t) d t =
      Some (t', d + (if cap =? batch then count_rows p t else Z.min cap (count_rows p t))) ∧
    count_rows p t' = count_rows p t - (if cap =? batch then count_rows p t else Z.min cap (count_rows p t)) ∧
    filter (λ r, p r = false) t' = filter (λ r, p r = false) t ∧ t' `sublist_of` t.
Proof.
  intros Hcap Hdel fuel. induction fuel as [|fuel IH]; intros t d Hf.
  { assert (0 ≤ count_rows p t) by (unfold count_rows; lia). lia. }
  assert (0 ≤ count_rows p t) as Hpos by (unfold count_rows; lia). cbn [delete_loop].
  destruct (Z.leb_spec (count_rows p t) 0) as [H0|H0].
  { exists t. replace (count_rows p t) with 0 by lia. destruct (cap =? batch); (split; [f_equal; f_equal; lia|split; [lia|done]]). }
  pose proof (Hdel t) as Hd. destruct (del t) as [t1 k]. destruct Hd as (Hk & Hc & Hkeep & Hsub).
  destruct (Z.ltb_spec k batch) as [Hlt|Hge].
  - exists t1. rewrite Hc, Hk. split; [|split; [destruct (Z.eqb_spec cap batch); lia|done]].
    f_equal. f_equal. destruct (Z.eqb_spec cap batch); lia.
  - assert (cap = batch) as -> by lia. rewrite Z.eqb_refl in *.
    destruct (IH t1 (d + k)) as (t' & He & Hc' & Hkeep' & Hsub'); [lia|]. exists t'.
    rewrite <- Hc, He. split; [f_equal; f_equal; lia|]. split; [lia|].
    split; [congruence|]. by etrans.
Qed.

Lemma count_le_length (p : FailedInboundEvent D → bool) t : count_rows p t ≤ Z.of_nat (length t).
Proof. unfold count_rows. pose proof (length_filter (λ r, p r = true) t). lia. Qed.

(** The sweeper ends. With batches of at most a thousand it deletes exactly the
    replayed and skipped events past their retention; with larger ones, as by
    default, it deletes a thousand of them in a run, since the repository caps
    the batch and the sweeper takes a short batch for the last one. Failed
    events are deleted only when a maximum age is set. *)
Lemma sweep_exact o now (t : rows) : 1 ≤ batchSize o → dryRun o = false → failedMaxAgeDays o ≤ 0 →
  let p := expired_terminal (now - terminalRetentionDays o * DAY_MS) in
  ∃ t' r, sweep o now t = Some (t', r) ∧ terminalCount r = count_rows p t ∧
    deletedCount r = (if batchSize o <=? 1000 then count_rows p t else Z.min 1000 (count_rows p t)) ∧
    count_rows p t' = count_rows p t - deletedCount r ∧
    filter (λ r, p r = false) t' = filter (λ r, p r = false) t ∧ t' `sublist_of` t.
Proof.
  intros Hb Hdry Hage p. unfold sweep. rewrite Hdry. fold p. unfold countTerminalEvents. fold p. cbn [negb andb].
  assert (∃ t' k, (if 0 <? count_rows p t
      then delete_loop (S (length t)) (batchSize o) (deleteTerminalEvents (now - terminalRetentionDays o * DAY_MS) (batchSize o)) (count_rows p t) 0 t
      else Some (t, 0)) = Some (t', k) ∧ k = (if batchSize o <=? 1000 then count_rows p t else Z.min 1000 (count_rows p t)) ∧
    count_rows p t' = count_rows p t - k ∧ filter (λ r, p r = false) t' = filter (λ r, p r = false) t ∧ t' `sublist_of` t)
    as (t' & k & -> & Hk & Hc & Hf & Hsub).
  { assert (0 ≤ count_rows p t) by (unfold count_rows; lia). destruct (Z.ltb_spec 0 (count_rows p t)).
    2:{ exists t, 0. split; [done|]. split; [destruct (_ <=? _); lia|]. split; [lia|done]. }
    destruct (delete_loop_spec (deleteTerminalEvents (now - terminalRetentionDays o * DAY_MS) (batchSize o)) p
      (Z.min (batchSize o) 1000) (batchSize o)) with (fuel := S (length t)) (t := t) (d := 0) as (t' & He & Hc & Hf & Hsub).
    - lia.
    - intros u. unfold deleteTerminalEvents. destruct (Z.leb_spec (batchSize o) 0); [lia|]. fold p.
      pose proof (delete_batch_spec (Z.to_nat (Z.min (batchSize o) MAX_BATCH_SIZE)) p u) as Hd.
      destruct (delete_batch _ p u). unfold MAX_BATCH_SIZE in Hd. by rewrite Z2Nat.id in Hd by lia.
    - pose proof (count_le_length p t). lia.
    - eexists t', _. split; [exact He|].
      assert ((if Z.min (batchSize o) 1000 =? batchSize o then count_rows p t else Z.min (Z.min (batchSize o) 1000) (count_rows p t)) =
        if batchSize o <=? 1000 then count_rows p t else Z.min 1000 (count_rows p t)) as Heq.
      { destruct (Z.eqb_spec (Z.min (batchSize o) 1000) (batchSize o)), (Z.leb_spec (batchSize o) 1000); lia. }
      rewrite Heq in Hc |- *. split; [lia|]. split; [lia|done]. }
  cbn. destruct (Z.ltb_spec 0 (failedMaxAgeDays o)); [lia|]. cbn. eexists t', _. split; [done|]. by subst k.
Qed.
End Sweep.

(** ** An event is replayed once *)

Section Replay.
Context {D : Type}.
Variable registered : string → bool.
Abbreviation event := (FailedInboundEvent D).
Implicit Types (t : list event) (s : service D).

(** Calls one after the other, on a database that works: captures under new
    ids, lookups, replays whose handlers may fail, and sweeps that keep the
    failed events. *)
Inductive step s : service D → Prop :=
| step_capture now uuid type data reason token s' r : captureFailure now uuid type data reason token s = Ok (s', r) →
    uuid.1 ≠ EmptyString → (∀ x, x ∈ table s → id x ≠ uuid.1) → cache s !! uuid.1 = None → (uuid.1, true) ∉ handled s →
    step s s'
| step_get now i : step s (getFailedEvent now i s).1
| step_replay now i h : step s (replayEvent registered (all_ok h) now i s).1
| step_sweep o now t r : failedMaxAgeDays o ≤ 0 → sweep o now (table s) = Some (t, r) → step s (with_table t s).

Inductive steps s : service D → Prop :=
| steps_refl : steps s s
| steps_step s1 s2 : steps s s1 → step s1 s2 → steps s s2.

Definition fresh_service : service D := {| table := []; cache := ∅; handled := [] |}.

(** Nothing of an event follows its successful replay. *)
Definition final (l : list (string * bool)) : Prop := ∀ l1 l2 i, l = l1 ++ (i, true) :: l2 → ∀ b, (i, b) ∉ l2.

Lemma final_snoc l i b : final l → (i, true) ∉ l → final (l ++ [(i, b)]).
Proof.
  intros Hl Hi l1 l2 j Heq c Hc. destruct (decide (l2 = [])) as [->|Hne]; [set_solver|].
  destruct l2 as [|x l2 _] using rev_ind; [done|].
  rewrite app_comm_cons, app_assoc in Heq. apply app_inj_tail in Heq as [-> <-].
  apply elem_of_app in Hc as [Hc|Hc%list_elem_of_singleton]; [by eapply Hl|]. injection Hc as -> ->. apply Hi. set_solver.
Qed.

(** The ids and statuses of the rows are all the invariant needs. *)
Definition statuses t : list (string * FailedEventStatus) := (λ r, (id r, status r)) <$> t.

Record ok s : Prop := {
  ok_rows i st : (i, st) ∈ statuses (table s) → i ≠ EmptyString ∧ st ≠ Skipped;
  ok_cached i e x : cache s !! i = Some (e, x) → status e = Replayed ∨ status e = Failed ∧ (i, Failed) ∈ statuses (table s);
  ok_done i : (i, true) ∈ handled s → (∀ st, (i, st) ∈ statuses (table s) → st = Replayed) ∧
                                      (∀ e x, cache s !! i = Some (e, x) → status e = Replayed);
  ok_final : final (handled s)
}.

Lemma find_status i t r : findById i t = Some r → (i, status r) ∈ statuses t.
Proof.
  unfold findById. destruct (String.eqb _ _); [done|]. intros [Hi Hr]%head_Some_elem_of%list_elem_of_filter.
  apply list_elem_of_fmap. exists r. by rewrite <- Hi.
Qed.

Lemma status_find i st t : i ≠ EmptyString → (i, st) ∈ statuses t → is_Some (findById i t).
Proof.
  intros Hi%String.eqb_neq (r & [= -> ->] & Hr)%list_elem_of_fmap. unfold findById. rewrite Hi.
  destruct (filter _ t) as [|x l] eqn:E; [|by eexists]. exfalso.
  assert (r ∈ filter (λ x, id x = id r) t) as H by (by apply list_elem_of_filter). rewrite E in H. set_solver.
Qed.

(** A cache filled from the table. *)
Lemma get_ok now i s : ok s → ok (getFailedEvent now i s).1 ∧
  handled (getFailedEvent now i s).1 = handled s ∧
  ∀ e, (getFailedEvent now i s).2 = Some e → ∃ x, cache (getFailedEvent now i s).1 !! i = Some (e, x).
Proof.
  intros Hok. unfold getFailedEvent. destruct (cache_get now i s) as [e|] eqn:Ec.
  - split; [done|]. split; [done|]. intros e' [= <-]. unfold cache_get in Ec. simpl.
    destruct (cache s !! i) as [[e' x]|]; [|done]. destruct (now <? x); [|done]. injection Ec as ->. eauto.
  - destruct (findById i (table s)) as [r|] eqn:Ef; [|done]. apply find_status in Ef. simpl.
    split; [|split; [done|]; intros e [= <-]; rewrite lookup_insert_eq; eauto].
    destruct Hok as [Hrows Hcached Hdone Hfinal]. split; simpl; [done| | |done].
    + intros j e x [[-> [= <- <-]]|[_ H]]%lookup_insert_Some; [|by eapply Hcached].
      destruct (Hrows _ _ Ef). destruct (status r); auto. done.
    + intros j Hj. destruct (Hdone j Hj) as [H1 H2]. split; [done|].
      intros e x [[-> [= <- <-]]|[_ H]]%lookup_insert_Some; eauto.
Qed.

Lemma increment_statuses io now i t : statuses (increment io now i t) = statuses t.
Proof.
  unfold increment, incrementRetryCount. destruct (increment_ok io); [|done].
  destruct (String.eqb i EmptyString); [done|]. destruct (existsb _ t); [done|]. unfold statuses, update_row; simpl. rewrite <- list_fmap_compose.
  apply list_fmap_ext. intros k r _. simpl. by destruct (_ && _).
Qed.

(** A handler that failed changes no status. *)
Lemma failed_ok io now i s : ok s → (i, true) ∉ handled s →
  ok (with_table (increment io now i (table s)) {| table := table s; cache := cache s; handled := handled s ++ [(i, false)] |}).
Proof.
  intros [Hrows Hcached Hdone Hfinal] Hi. split; simpl; rewrite ?increment_statuses; [done|done| |by apply final_snoc].
  intros j [Hj|[=]%list_elem_of_singleton]%elem_of_app. by apply Hdone.
Qed.

Lemma set_replayed now i t j st : (j, st) ∈ statuses (update_row i (λ r, negb (terminal (status r) && bool_decide (Replayed = Failed))) (set_status now Replayed) t) →
  j = i ∧ st = Replayed ∧ (∃ st0, (i, st0) ∈ statuses t) ∨ j ≠ i ∧ (j, st) ∈ statuses t.
Proof.
  intros (r' & [= -> ->] & (r & -> & Hr)%list_elem_of_fmap)%list_elem_of_fmap.
  rewrite (bool_decide_eq_false_2 (Replayed = Failed)), andb_false_r by done. cbn [negb]. rewrite andb_true_r.
  assert ((id r, status r) ∈ statuses t) as Hin by (apply list_elem_of_fmap; eauto).
  case_bool_decide as Hid; [left; subst i; eauto|by right].
Qed.

Lemma set_replayed_other now i t j st : j ≠ i → (j, st) ∈ statuses t →
  (j, st) ∈ statuses (update_row i (λ r, negb (terminal (status r) && bool_decide (Replayed = Failed))) (set_status now Replayed) t).
Proof.
  intros Hj (r & [= -> ->] & Hr)%list_elem_of_fmap. apply list_elem_of_fmap. exists r. split; [done|].
  apply list_elem_of_fmap. exists r. split; [|done]. by rewrite bool_decide_eq_false_2.
Qed.

Lemma set_replayed_hit now i t : (∃ st, (i, st) ∈ statuses t) →
  (i, Replayed) ∈ statuses (update_row i (λ r, negb (terminal (status r) && bool_decide (Replayed = Failed))) (set_status now Replayed) t).
Proof.
  intros (st & (r & [= -> ->] & Hr)%list_elem_of_fmap). apply list_elem_of_fmap. exists (set_status now Replayed r). split; [done|].
  apply list_elem_of_fmap. exists r. split; [|done]. rewrite bool_decide_eq_true_2 by done.
  by rewrite (bool_decide_eq_false_2 (Replayed = Failed)), andb_false_r by done.
Qed.

(** Once an event is replayed its retries are no longer counted. *)
Lemma increment_replayed now i t : i ≠ EmptyString → (∀ st, (i, st) ∈ statuses t → st = Replayed) →
  ∃ r, incrementRetryCount now i t = Ok (t, r).
Proof.
  intros Hi Hall. apply String.eqb_neq in Hi. unfold incrementRetryCount. rewrite Hi. cbn [throw_if mbind result_bind].
  assert (∀ r, r ∈ t → bool_decide (id r = i) && bool_decide (status r = Failed) = false) as Hno.
  { intros r Hr. do 2 case_bool_decide; try done. rewrite (Hall (status r)) in *; [done|]. apply list_elem_of_fmap. exists r. by subst i. }
  destruct (existsb _ t) eqn:E.
  { apply existsb_exists in E as (r & Hr%list_elem_of_In & H). by rewrite Hno in H. }
  assert (update_row i (λ r, bool_decide (status r = Failed)) (retried now) t = t) as ->; [|by eexists].
  unfold update_row. rewrite <- (list_fmap_id t) at 2. apply list_fmap_ext. intros k r Hr%list_elem_of_lookup_2.
  by rewrite Hno.
Qed.

Lemma replay_ok now i h s : ok s → ok (replayEvent registered (all_ok h) now i s).1.
Proof.
  intros Hok0. unfold replayEvent. destruct (get_ok now i s Hok0) as (Hok & _ & Hget).
  destruct (getFailedEvent now i s) as [s0 [e|]]; simpl in *; [|done]. destruct (Hget e eq_refl) as [x Hc].
  case_bool_decide as Hst; [done|]. destruct (registered (eventType e)); [|done]. cbn [negb].
  destruct (ok_cached _ Hok i e x Hc) as [?|[He Hrow]]; [done|]. destruct (ok_rows _ Hok _ _ Hrow) as [Hi _].
  assert ((i, true) ∉ handled s0) as Hnew by (intros Hd; by destruct (ok_done _ Hok i Hd) as [_ H]; eapply H in Hc).
  destruct h; cbn [all_ok handler_ok update_ok increment_ok negb fst]; [|by apply failed_ok].
  unfold updateStatus. pose proof Hi as Hi'. apply String.eqb_neq in Hi'. rewrite Hi'. cbn [throw_if mbind result_bind table with_table].
  set (t := update_row _ _ _ _). destruct (increment_replayed now i t Hi) as [r ->].
  { intros st [(_ & -> & _)|[? _]]%set_replayed; done. }
  destruct (status_find i Replayed t Hi) as [r' ->]; [by apply set_replayed_hit; eauto|].
  destruct Hok as [Hrows Hcached Hdone Hfinal]. split; simpl.
  - intros j st [(-> & -> & _)|[_ H]]%set_replayed; [done|by eapply Hrows].
  - intros j f y [Hj H]%lookup_delete_Some. destruct (Hcached _ _ _ H) as [?|[? ?]]; [by left|]. right. split; [done|].
    by apply set_replayed_other.
  - intros j [Hj|[= ->]%list_elem_of_singleton]%elem_of_app.
    + destruct (Hdone j Hj) as [H1 H2]. split; [intros st [(_ & -> & _)|[_ H]]%set_replayed; eauto|].
      intros f y [_ H]%lookup_delete_Some. eauto.
    + split; [by intros st [(_ & -> & _)|[? _]]%set_replayed|]. intros f y. by rewrite lookup_delete_eq.
  - by apply final_snoc.
Qed.

(** A sweep without a maximum age keeps the failed events and adds none. *)
Definition keeps t t' : Prop := t' `sublist_of` t ∧ ∀ r, r ∈ t → status r = Failed → r ∈ t'.

Lemma keeps_trans t1 t2 t3 : keeps t1 t2 → keeps t2 t3 → keeps t1 t3.
Proof. intros [? H1] [? H2]. split; [by etrans|eauto]. Qed.

Lemma delete_loop_keeps before batch n d remaining t t' k :
  delete_loop n batch (deleteTerminalEvents before batch) remaining d t = Some (t', k) → keeps t t'.
Proof.
  assert (∀ u, keeps u (deleteTerminalEvents before batch u).1) as Hdel.
  { intros u. unfold deleteTerminalEvents. destruct (batch <=? 0); [split; [done|auto]|].
    pose proof (delete_batch_spec (Z.to_nat (Z.min batch MAX_BATCH_SIZE)) (expired_terminal before) u) as Hd.
    destruct (delete_batch _ _ u) as [u' j]. destruct Hd as (_ & _ & Hkeep & Hsub). split; [done|]. intros r Hr Hf. simpl.
    assert (r ∈ filter (λ r, expired_terminal before r = false) u') as H.
    { rewrite Hkeep. apply list_elem_of_filter. unfold expired_terminal. by rewrite Hf. }
    by apply list_elem_of_filter in H as [_ H]. }
  revert d remaining t. induction n as [|n IH]; intros d remaining t; simpl; destruct (remaining <=? 0); try done;
    try (intros [= <- <-]; split; [done|auto]).
  pose proof (Hdel t) as Hd. destruct (deleteTerminalEvents before batch t) as [u j]. simpl in Hd.
  destruct (j <? batch); [by intros [= <- <-]|]. intros H%IH. by eapply keeps_trans.
Qed.

Lemma sweep_keeps o now t t' r : failedMaxAgeDays o ≤ 0 → sweep o now t = Some (t', r) → keeps t t'.
Proof.
  intros Hage. unfold sweep. destruct (Z.ltb_spec 0 (failedMaxAgeDays o)); [lia|]. cbn [andb].
  destruct (if negb (dryRun o) && _ then _ else _) as [[t1 d]|] eqn:E; [|done]. cbn [mbind option_bind]. intros [= <- <-].
  destruct (negb (dryRun o) && _); [by eapply delete_loop_keeps|]. injection E as <- _. split; [done|auto].
Qed.

Lemma step_ok s s' : ok s → step s s' → ok s'.
Proof.
  intros Hok Hs. destruct Hs as [now uuid type data reason token s' r Hc Hne Hrow Hcache Hnew|now i|now i h|o now t r Hage Hs].
  2: by apply get_ok. 2: by apply replay_ok.
  - unfold captureFailure, create in Hc.
    destruct (throw_if _ INVALID_EVENT_TYPE); [|done]. simpl in Hc. destruct data as [d|]; [|done].
    destruct (throw_if _ _); [|done]. simpl in Hc.
    destruct (head _); simpl in Hc; injection Hc as <- <-; [by destruct s|].
    destruct Hok as [Hrows Hcached Hdone Hfinal]. split; unfold statuses; simpl; rewrite ?fmap_app; [| | |done].
    + intros i st [H|[= -> ->]%list_elem_of_singleton]%elem_of_app; [by eapply Hrows|done].
    + intros i e x H. destruct (Hcached _ _ _ H) as [?|[? ?]]; [by left|right]. split; [done|]. apply elem_of_app. by left.
    + intros i Hi. destruct (Hdone i Hi) as [H1 H2]. split; [|done].
      intros st [H|[= -> ->]%list_elem_of_singleton]%elem_of_app; [by apply H1|done].
  - apply sweep_keeps in Hs as [Hsub Hkeep]; [|done].
    assert (∀ p, p ∈ statuses t → p ∈ statuses (table s)) as Hin.
    { intros p Hp. eapply elem_of_sublist; [exact Hp|]. by apply fmap_sublist. }
    destruct Hok as [Hrows Hcached Hdone Hfinal]. split; simpl; [eauto| | |done].
    + intros i e x H. destruct (Hcached _ _ _ H) as [?|[? H']]; [by left|right]. split; [done|].
      apply list_elem_of_fmap in H' as (q & Hq & Hin'). apply list_elem_of_fmap. exists q. split; [done|]. apply Hkeep; [done|]. congruence.
    + intros i Hi. destruct (Hdone i Hi). eauto.
Qed.

Lemma steps_ok s s' : ok s → steps s s' → ok s'.
Proof. intros Hok Hs. induction Hs; eauto using step_ok. Qed.

(** On a working database, with calls one after the other, an event that was
    replayed is never given to its handler again: whatever captures, lookups,
    replays and retention sweeps follow, a later replay answers that it was
    replayed already, or that it is gone. *)
Theorem replayed_once s i :
  steps fresh_service s → final (handled s) ∧
  ((i, true) ∈ handled s → ∀ io now, ∃ s',
     (replayEvent registered io now i s = (s', AlreadyReplayed) ∨ replayEvent registered io now i s = (s', EventNotFound i)) ∧
     handled s' = handled s).
Proof.
  intros Hs. apply steps_ok in Hs; [|by split; simpl; try set_solver; intros [] ? ? ?].
  split; [apply Hs|]. intros Hi io now. unfold replayEvent. destruct (get_ok now i s Hs) as (Hok & Hh & Hget).
  destruct (getFailedEvent now i s) as [s0 [e|]]; simpl in *; [|eauto]. destruct (Hget e eq_refl) as [x Hc].
  rewrite <- Hh in Hi. destruct (ok_done _ Hok i Hi) as [_ H]. rewrite bool_decide_eq_true_2 by eauto. eauto.
Qed.
End Replay.

(** ** Examples *)

Module Examples.
Definition any_type (_ : string) : bool := true.
Definition captured : result repo_error (service Z * FailedInboundEvent Z) :=
  captureFailure 0 ("e1", "t1")%string "bond_creation" (Some 7) (Some "boom") None fresh_service.
Definition s1 : service Z := match captured with Ok (s, _) => s | Err _ => fresh_service end.
Definition s2 : service Z := (replayEvent any_type (all_ok false) 10 "e1" s1).1.
Definition s3 : service Z := (replayEvent any_type (all_ok true) 20 "e1" s2).1.

Lemma replayed_reachable : steps any_type fresh_service s3.
Proof.
  eapply steps_step; [eapply steps_step; [eapply steps_step; [apply steps_refl|]|]|].
  - eapply (step_capture _ _ 0 ("e1", "t1")%string "bond_creation" (Some 7) (Some "boom") None); [vm_compute; reflexivity|done| | |];
      simpl; set_solver.
  - exact (step_replay any_type s1 10 "e1" false).
  - exact (step_replay any_type s2 20 "e1" true).
Qed.

Lemma replayed_once_witness :
  handled s3 = [("e1", false); ("e1", true)]%string ∧ final (handled s3) ∧
  ∃ s', (replayEvent any_type (all_ok true) 30 "e1" s3 = (s', AlreadyReplayed) ∨
         replayEvent any_type (all_ok true) 30 "e1" s3 = (s', EventNotFound "e1")) ∧ handled s' = handled s3.
Proof.
  destruct (replayed_once any_type s3 "e1" replayed_reachable) as [Hf H]. split; [vm_compute; reflexivity|]. split; [exact Hf|].
  apply H. vm_compute. right. left.
Defined.

(** When the retry counter cannot be written after the status was, the cached
    event still reads as failed and the handler is given the event again. *)
Lemma replayed_twice_after_error :
  let s := (replayEvent any_type {| handler_ok := true; update_ok := true; increment_ok := false |} 10 "e1" s1).1 in
  status <$> findById "e1" (table s) = Some Replayed ∧
  (replayEvent any_type (all_ok true) 20 "e1" s).2 = ReplaySuccess ∧
  handled (replayEvent any_type (all_ok true) 20 "e1" s).1 = [("e1", true); ("e1", true)]%string.
Proof. vm_compute. auto. Qed.

(** A cached event that a sweep with a maximum age deleted is replayed each
    time it is asked for, until the cache lets go of it. *)
Lemma swept_event_replayed_again :
  let o := {| batchSize := 100; dryRun := false; terminalRetentionDays := 30; failedMaxAgeDays := 1 |} in
  let now := 2 * DAY_MS in
  let s := (getFailedEvent now "e1" s1).1 in
  ∃ t r, sweep o now (table s) = Some (t, r) ∧ t = [] ∧ deletedCount r = 0 ∧
    let s' := (replayEvent any_type (all_ok true) now "e1" (with_table t s)).1 in
    handled (replayEvent any_type (all_ok true) now "e1" s').1 = [("e1", true); ("e1", true)]%string.
Proof. eexists _, _. split; [vm_compute; reflexivity|]. vm_compute. auto. Qed.

(** A successful replay leaves the retry counter as it was. *)
Lemma success_not_counted : retryCount <$> findById "e1" (table s3) = Some 1.
Proof. vm_compute. reflexivity. Qed.

(** Listing by type alone is a syntax error. *)
Lemma list_by_type_fails : list_events None (Some "bond_creation") None None (table s3) = Err (SqlState "42601").
Proof. vm_compute. reflexivity. Qed.
End Examples.
