(* ===== verification/WebhookDlq.v ===== *)
(** * Webhook events and their dead letter queue

    [services/webhooks/service.ts] (emitting an event to its subscribers,
    replaying an entry, the secrets), [services/webhooks/dlq.ts] and
    [postgresDlqStore.ts] as instances of one interface, and
    [jobs/webhookDlqProcessor.ts]. A delivery is that of [Webhooks.Delivery].
    Calls run one after the other; the deliveries of one event, which the
    source starts together, run in the order of the subscribers. Clock readings,
    generated ids and failures of statements are given per entry or subscriber.
    Audit entries, metrics and log texts are left out. *)

From stdpp Require Import base option list gmap strings sorting.
From Stdlib Require Import ZArith Lia Ascii.
From S2P Require Import Prelude JsLib Webhooks.

Import Delivery.

Open Scope Z_scope.

(** ** Entries *)

Section Entries.
Context {I : Type}.

(** A payload as it is read back from JSON, where fields may be missing. *)
Record raw_payload := {
  raw_event : option string;
  raw_timestamp : option string;
  raw_data : option (payload_data I);
  raw_chunkId : option string;
  raw_chunkIndex : option Z;
  raw_totalChunks : option Z;
  raw_truncated : option bool
}.

Definition raw_of (p : WebhookPayload I) : raw_payload :=
  {| raw_event := Some (event p); raw_timestamp := Some (timestamp p); raw_data := Some (data p); raw_chunkId := chunkId p;
     raw_chunkIndex := chunkIndex p; raw_totalChunks := totalChunks p; raw_truncated := payloadTruncated p |}.

(** [failedAt] is the time its text stands for, if it is a date; [entryAttempts]
    is [None] when it is no finite number. *)
Record DlqEntry := {
  entryId : string;
  entryWebhook : string;
  payload : option raw_payload;
  failedAt : option Z;
  entryAttempts : option Z;
  lastStatusCode : option Z;
  lastError : option string;
  responseBodySnippet : option string;
  replayedAt : option Z
}.

(** [{ ...entry, replayedAt }]. *)
Definition set_replayed (t : Z) (e : DlqEntry) : DlqEntry :=
  {| entryId := entryId e; entryWebhook := entryWebhook e; payload := payload e; failedAt := failedAt e;
     entryAttempts := entryAttempts e; lastStatusCode := lastStatusCode e; lastError := lastError e;
     responseBodySnippet := responseBodySnippet e; replayedAt := Some t |}.

(** The snippet of a result is always undefined. *)
Definition buildDlqEntry (uuid : string) (now : Z) (r : WebhookDeliveryResult) (p : WebhookPayload I) : DlqEntry :=
  {| entryId := uuid; entryWebhook := webhookId r; payload := Some (raw_of p); failedAt := Some now;
     entryAttempts := Some (attempts r); lastStatusCode := statusCode r; lastError := error r;
     responseBodySnippet := None; replayedAt := None |}.

(** What the columns of webhook_dlq refuse: a missing payload, time or number of
    attempts, an identifier that is too long, a number out of range. Texts with a
    NUL character, which PostgreSQL refuses too, are left out. *)
Definition int4 (n : Z) : bool := (- 2 ^ 31 <=? n) && (n <? 2 ^ 31).
Definition column_error (e : DlqEntry) : option string :=
  if negb (isSome (payload e) && isSome (failedAt e) && isSome (entryAttempts e)) then Some "23502"
  else if (255 <? slen (entryId e)) || (255 <? slen (entryWebhook e)) then Some "22001"
  else if int4 (default 0 (entryAttempts e)) && int4 (default 0 (lastStatusCode e)) then None else Some "22003".

(** What a store of entries offers; a push may be refused. *)
Class DlqStore (S : Type) := {
  dlq_push : DlqEntry → S → result string S;
  dlq_list : S → list DlqEntry;
  dlq_get : string → S → option DlqEntry;
  dlq_mark : string → Z → S → S
}.

(** What it promises, in terms of the entries it holds by id. *)
Class DlqStoreLaws (S : Type) `{DlqStore S} := {
  dlq_ok : S → Prop;
  entries : S → gmap string DlqEntry;
  law_key s i e : dlq_ok s → entries s !! i = Some e → entryId e = i;
  law_list s : dlq_ok s → dlq_list s ≡ₚ (map_to_list (entries s)).*2;
  law_get s i : dlq_ok s → dlq_get i s = entries s !! i;
  law_mark s i t : dlq_ok s → dlq_ok (dlq_mark i t s) ∧ entries (dlq_mark i t s) = alter (set_replayed t) i (entries s);
  law_push s e s' : dlq_ok s → entries s !! entryId e = None → dlq_push e s = Ok s' →
    dlq_ok s' ∧ entries s' = <[entryId e := e]> (entries s);
  law_accepts s e : dlq_ok s → entries s !! entryId e = None → column_error e = None → ∃ s', dlq_push e s = Ok s'
}.

(** *** [MemoryDlqStore] *)

Definition MemoryDlqStore : Type := jsmap string DlqEntry.

Definition memory_push (e : DlqEntry) (m : MemoryDlqStore) : result string MemoryDlqStore := Ok (jm_set (entryId e) e m).
Definition memory_mark (i : string) (t : Z) (m : MemoryDlqStore) : MemoryDlqStore :=
  match jm_get i m with Some e => jm_set i (set_replayed t e) m | None => m end.

#[export] Instance memory_dlq : DlqStore MemoryDlqStore :=
  {| dlq_push := memory_push; dlq_list := jm_values; dlq_get := jm_get; dlq_mark := memory_mark |}.

(** *** [PostgresDlqStore] *)

(** The rows of webhook_dlq, whose primary key is the id. *)
Definition PostgresDlqStore : Type := list DlqEntry.

Definition postgres_push (e : DlqEntry) (t : PostgresDlqStore) : result string PostgresDlqStore :=
  match column_error e with
  | Some code => Err code
  | None => if existsb (λ r, bool_decide (entryId r = entryId e)) t then Err "23505" else Ok (t ++ [e])
  end.

(** [ORDER BY failed_at DESC]; rows of one time in the order of the table. *)
Definition later_failed (a b : DlqEntry) : Prop := default 0 (failedAt b) ≤ default 0 (failedAt a).
#[export] Instance later_failed_dec : RelDecision later_failed.
Proof. intros a b. unfold later_failed. apply _. Defined.

Definition postgres_list (t : PostgresDlqStore) : list DlqEntry := merge_sort later_failed t.
Definition postgres_get (i : string) (t : PostgresDlqStore) : option DlqEntry := list_find (λ r, entryId r = i) t ≫= λ x, Some x.2.
Definition postgres_mark (i : string) (at_ : Z) (t : PostgresDlqStore) : PostgresDlqStore :=
  (λ r, if bool_decide (entryId r = i) then set_replayed at_ r else r) <$> t.

#[export] Instance postgres_dlq : DlqStore PostgresDlqStore :=
  {| dlq_push := postgres_push; dlq_list := postgres_list; dlq_get := postgres_get; dlq_mark := postgres_mark |}.
End Entries.
#[global] Arguments raw_payload : clear implicits.
#[global] Arguments DlqEntry : clear implicits.
#[global] Arguments MemoryDlqStore : clear implicits.
#[global] Arguments PostgresDlqStore : clear implicits.
#[global] Arguments DlqStore I S : clear implicits.
#[global] Arguments DlqStoreLaws I S {_}.

(** *** Both keep their promises *)

Section Stores.
Context {I : Type}.
Implicit Types (m : MemoryDlqStore I) (t : PostgresDlqStore I) (e : DlqEntry I).

Definition memory_ok m : Prop := NoDup (jm_keys m) ∧ ∀ k e, (k, e) ∈ m → entryId e = k.
Definition memory_entries m : gmap string (DlqEntry I) := list_to_map m.

Lemma memory_lookup m i : NoDup (jm_keys m) → memory_entries m !! i = jm_get i m.
Proof.
  intros Hnd. apply option_eq. intros e. unfold memory_entries. rewrite <- elem_of_list_to_map by done. symmetry. by apply jm_get_elem.
Qed.

Lemma memory_set_ok m i e : memory_ok m → entryId e = i →
  memory_ok (jm_set i e m) ∧ memory_entries (jm_set i e m) = <[i := e]> (memory_entries m).
Proof.
  intros [Hnd Hk] He. assert (NoDup (jm_keys (jm_set i e m))) as Hnd' by by apply jm_NoDup_set. split; [split; [done|]|].
  - intros k x. rewrite <- jm_get_elem, jm_get_set by done. case_decide; [by intros [= <-]; subst k|].
    rewrite jm_get_elem by done. apply Hk.
  - apply map_eq. intros k. rewrite memory_lookup, jm_get_set by done.
    destruct (decide (k = i)) as [->|]; [by rewrite decide_True, lookup_insert_eq|].
    rewrite decide_False, lookup_insert_ne by done. by rewrite memory_lookup.
Qed.

#[export] Program Instance memory_dlq_laws : DlqStoreLaws I (MemoryDlqStore I) := {| dlq_ok := memory_ok; entries := memory_entries |}.
Next Obligation. intros m i e [Hnd Hk]. rewrite memory_lookup, jm_get_elem by done. apply Hk. Qed.
Next Obligation. intros m [Hnd _]. simpl. unfold jm_values, memory_entries. by rewrite map_to_list_to_map. Qed.
Next Obligation. intros m i [Hnd _]. simpl. by rewrite memory_lookup. Qed.
Next Obligation.
  intros m i at_ Hm. simpl. unfold memory_mark. destruct (jm_get i m) as [e|] eqn:E.
  - destruct (memory_set_ok m i (set_replayed at_ e) Hm) as [Hok Hent].
    { apply jm_get_elem in E; [|apply Hm]. by eapply Hm in E. }
    split; [done|]. rewrite Hent. apply map_eq. intros k. destruct (decide (k = i)) as [->|].
    + rewrite lookup_insert_eq, lookup_alter_eq, memory_lookup, E by apply Hm. done.
    + by rewrite lookup_insert_ne, lookup_alter_ne by done.
  - split; [done|]. symmetry. apply map_eq. intros k. destruct (decide (k = i)) as [->|]; [|by rewrite lookup_alter_ne].
    by rewrite lookup_alter_eq, memory_lookup, E by apply Hm.
Qed.
Next Obligation. intros m e m' Hm _ [= <-]. by apply memory_set_ok. Qed.
Next Obligation. intros m e Hm _ _. by eexists. Qed.

Definition postgres_ok t : Prop := NoDup (entryId <$> t).
Definition postgres_entries t : gmap string (DlqEntry I) := list_to_map ((λ e, (entryId e, e)) <$> t).

Lemma postgres_keys t : ((λ e, (entryId e, e)) <$> t).*1 = entryId <$> t.
Proof. by rewrite <- list_fmap_compose. Qed.

Lemma postgres_lookup t i e : postgres_ok t → postgres_entries t !! i = Some e ↔ e ∈ t ∧ entryId e = i.
Proof.
  intros Hnd. unfold postgres_entries. rewrite <- elem_of_list_to_map by (by rewrite postgres_keys). rewrite list_elem_of_fmap.
  split; [intros (x & [= -> ->] & ?); done|]. intros [? <-]. by exists e.
Qed.

Lemma postgres_lookup_None t i : postgres_ok t → postgres_entries t !! i = None → ∀ e, e ∈ t → entryId e ≠ i.
Proof. intros Hnd Hn e He Hi. assert (postgres_entries t !! i = Some e) by (by apply postgres_lookup). congruence. Qed.

Lemma postgres_mark_ids t i at_ : entryId <$> postgres_mark i at_ t = entryId <$> t.
Proof.
  unfold postgres_mark. rewrite <- list_fmap_compose. apply list_fmap_ext. intros k r _. simpl. by destruct (bool_decide _).
Qed.

#[export] Program Instance postgres_dlq_laws : DlqStoreLaws I (PostgresDlqStore I) :=
  {| dlq_ok := postgres_ok; entries := postgres_entries |}.
Next Obligation. intros t i e Ht. by intros [_ ?]%postgres_lookup. Qed.
Next Obligation.
  intros t Ht. simpl. unfold postgres_list, postgres_entries. rewrite merge_sort_Permutation.
  rewrite map_to_list_to_map by (by rewrite postgres_keys). rewrite <- list_fmap_compose. by rewrite list_fmap_id.
Qed.
Next Obligation.
  intros t i Ht. simpl. unfold postgres_get. destruct (list_find _ t) as [[k e]|] eqn:E; simpl; symmetry.
  - apply list_find_Some in E as (Hk & Hi & _). apply postgres_lookup; [done|]. split; [by eapply list_elem_of_lookup_2|done].
  - apply eq_None_not_Some. intros [e [He Hi]%postgres_lookup]; [|done]. rewrite list_find_None in E.
    eapply Forall_forall in E; done.
Qed.
Next Obligation.
  intros t i at_ Ht. simpl. assert (postgres_ok (postgres_mark i at_ t)) as Ht' by (unfold postgres_ok; by rewrite postgres_mark_ids).
  split; [done|]. apply map_eq. intros k. apply option_eq. intros e. rewrite postgres_lookup by done.
  destruct (decide (k = i)) as [->|Hk].
  - rewrite lookup_alter_eq, fmap_Some. split.
    + intros [(r & -> & Hr)%list_elem_of_fmap Hi]. case_bool_decide; [|done]. exists r. by rewrite postgres_lookup.
    + intros (r & [Hr Hi]%postgres_lookup & ->); [|done]. split; [|done]. apply list_elem_of_fmap. exists r.
      by rewrite bool_decide_eq_true_2.
  - rewrite lookup_alter_ne, postgres_lookup by done. split.
    + intros [(r & -> & Hr)%list_elem_of_fmap Hi]. case_bool_decide; [|done]. simpl in Hi. congruence.
    + intros [Hr Hi]. split; [|done]. apply list_elem_of_fmap. exists e. rewrite bool_decide_eq_false_2; [done|congruence].
Qed.
Next Obligation.
  intros t e t' Ht Hnew. simpl. pose proof (postgres_lookup_None t _ Ht Hnew) as Hn. unfold postgres_push.
  destruct (column_error e); [done|]. destruct (existsb _ t); [done|]. intros [= <-].
  assert (postgres_ok (t ++ [e])) as Ht'.
  { unfold postgres_ok. rewrite fmap_app. apply NoDup_app. split; [done|]. split; [|apply NoDup_singleton].
    intros i (r & -> & Hr)%list_elem_of_fmap Hi%list_elem_of_singleton. by eapply Hn. }
  split; [done|]. apply map_eq. intros k. apply option_eq. intros x. rewrite postgres_lookup by done.
  rewrite lookup_insert_Some, postgres_lookup, elem_of_app, list_elem_of_singleton by done. split.
  - intros [[Hx| ->] Hi]; [right|by left]. split; [|done]. intros <-. by eapply Hn.
  - intros [[Hi Hx]|[Hi [Hx Hk]]]; subst; auto.
Qed.
Next Obligation.
  intros t e Ht Hnew Hc. simpl. pose proof (postgres_lookup_None t _ Ht Hnew) as Hn. unfold postgres_push. rewrite Hc.
  destruct (existsb _ t) eqn:E; [|by eexists].
  apply existsb_exists in E as (r & Hr%list_elem_of_In & Hi%bool_decide_eq_true). by destruct (Hn r Hr).
Qed.
End Stores.

(** ** The processor and the service *)

Definition DEFAULT_BATCH_SIZE : Z := 100.
Definition DEFAULT_MIN_AGE_MS : Z := 60000.
Definition DEFAULT_MAX_REPLAY_ATTEMPTS : Z := 5.
Definition DELIVERY_SPACING_MS : Z := 100.

Inductive DlqSkipReason := already_replayed | too_recent | attempts_exhausted | inactive_webhook | dry_run.

Inductive DlqEntryOutcome :=
| Replayed
| Failed (error : string)
| Skipped (reason : DlqSkipReason)
| Orphaned
| Invalid (reason : string).

(** Options that are numbers are integers here. *)
Definition nonNegativeOrDefault (value : option Z) (fallback : Z) : Z :=
  match value with Some v => if 0 <=? v then v else fallback | None => fallback end.

Definition positiveOrDefault (value : option Z) (fallback : Z) : Z :=
  let resolved := nonNegativeOrDefault value fallback in if 1 <=? resolved then resolved else fallback.

Record WebhookDlqProcessor := { batchSize : Z; minAgeMs : Z; maxReplayAttempts : Z; dryRun : bool; running : bool }.

Definition new_processor (batch age attempts_ : option Z) (dry : option bool) : WebhookDlqProcessor :=
  {| batchSize := positiveOrDefault batch DEFAULT_BATCH_SIZE; minAgeMs := nonNegativeOrDefault age DEFAULT_MIN_AGE_MS;
     maxReplayAttempts := nonNegativeOrDefault attempts_ DEFAULT_MAX_REPLAY_ATTEMPTS; dryRun := default false dry;
     running := false |}.

Record WebhookDlqProcessorResult := {
  scannedCount : Z;
  eligibleCount : Z;
  replayedCount : Z;
  failedCount : Z;
  skippedCount : Z;
  orphanedCount : Z;
  invalidCount : Z;
  concurrentSkip : bool
}.

Definition emptyResult (concurrent : bool) : WebhookDlqProcessorResult :=
  {| scannedCount := 0; eligibleCount := 0; replayedCount := 0; failedCount := 0; skippedCount := 0; orphanedCount := 0;
     invalidCount := 0; concurrentSkip := concurrent |}.

Definition scanned (n : Z) (r : WebhookDlqProcessorResult) : WebhookDlqProcessorResult :=
  {| scannedCount := n; eligibleCount := eligibleCount r; replayedCount := replayedCount r; failedCount := failedCount r;
     skippedCount := skippedCount r; orphanedCount := orphanedCount r; invalidCount := invalidCount r;
     concurrentSkip := concurrentSkip r |}.

Definition eligible_one (r : WebhookDlqProcessorResult) : WebhookDlqProcessorResult :=
  {| scannedCount := scannedCount r; eligibleCount := eligibleCount r + 1; replayedCount := replayedCount r;
     failedCount := failedCount r; skippedCount := skippedCount r; orphanedCount := orphanedCount r;
     invalidCount := invalidCount r; concurrentSkip := concurrentSkip r |}.

Definition recordOutcome (o : DlqEntryOutcome) (r : WebhookDlqProcessorResult) : WebhookDlqProcessorResult :=
  let add a b c d e :=
    {| scannedCount := scannedCount r; eligibleCount := eligibleCount r; replayedCount := replayedCount r + a;
       failedCount := failedCount r + b; skippedCount := skippedCount r + c; orphanedCount := orphanedCount r + d;
       invalidCount := invalidCount r + e; concurrentSkip := concurrentSkip r |} in
  match o with
  | Replayed => add 1 0 0 0 0
  | Failed _ => add 0 1 0 0 0
  | Skipped _ => add 0 0 1 0 0
  | Orphaned => add 0 0 0 1 0
  | Invalid _ => add 0 0 0 0 1
  end.

(** An entry beyond the batch. *)
Definition defer (r : WebhookDlqProcessorResult) : WebhookDlqProcessorResult :=
  {| scannedCount := scannedCount r; eligibleCount := eligibleCount r; replayedCount := replayedCount r;
     failedCount := failedCount r; skippedCount := skippedCount r + 1; orphanedCount := orphanedCount r;
     invalidCount := invalidCount r; concurrentSkip := concurrentSkip r |}.

(** What happens around one entry or one subscriber: the clock when it is
    judged, delivered and written, the ids drawn, and what fails. *)
Record turn := {
  now_judge : Z;
  now_deliver : Z;
  now_write : Z;
  chunk_uuid : string;
  entry_uuid : string;
  lookup_error : option string;
  write_error : option string;
  faults : store_faults
}.

Section Processor.
Context {I S : Type} `{!DlqStore I S}.

Variable stringify : WebhookPayload I → string.
Variable byteLength : string → Z.
Variable hmac : string → string → string.
Variable sha256 : string → string.
Variable hostname_of : string → option string.
(** Whether [Date.parse] takes a text. *)
Variable is_date : string → bool.
Variable sizeCap : Z.
Variable net : nat → transmission.

(** The queue, the network, the deliveries that were acknowledged whole, with
    their event ids, and the reservations that a delivery which threw left behind
    because a statement on them failed. *)
Record world := {
  dlq : S;
  wires : wire (I := I);
  acks : list (string * option string * WebhookPayload I);
  stuck : gset string
}.

Definition with_dlq (q : S) (w : world) : world := {| dlq := q; wires := wires w; acks := acks w; stuck := stuck w |}.

Definition event_id (ev : option string) : option string := if falsy ev then None else ev.

Definition was_skipped (r : result string (list WebhookDeliveryResult)) : bool :=
  match r with Ok rs => existsb skipped rs | Err _ => false end.

(** A reservation that was not there before a delivery that threw. *)
Definition left_behind (h : WebhookConfig) (ev : option string) (x x' : wire (I := I)) (r : result string (list WebhookDeliveryResult)) : gset string :=
  match event_id ev, r with
  | Some e, Err _ =>
      if isSome (reservations x' !! marker (id h) e) && negb (isSome (reservations x !! marker (id h) e)) then {[marker (id h) e]} else ∅
  | _, _ => ∅
  end.

Definition after (h : WebhookConfig) (p : WebhookPayload I) (ev : option string) (x : wire) (r : result string (list WebhookDeliveryResult))
    (w : world) : world :=
  {| dlq := dlq w; wires := x;
     acks := if all_succeeded r && negb (was_skipped r) then acks w ++ [(id h, event_id ev, p)] else acks w;
     stuck := left_behind h ev (wires w) x r ∪ stuck w |}.

Definition deliver (t : turn) (h : WebhookConfig) (p : WebhookPayload I) (ev : option string) (w : world)
  : world * result string (list WebhookDeliveryResult) :=
  let '(x, r) := deliverWebhook stringify byteLength hmac sha256 hostname_of (faults t) net (now_deliver t) h p sizeCap (chunk_uuid t) ev (wires w) in
  (after h p ev x r w, r).

(** *** The processor *)

Definition validateDlqEntry (e : DlqEntry I) : result string (WebhookPayload I) :=
  _ ← throw_if (String.eqb (entryId e) EmptyString) "missing_id";
  _ ← throw_if (String.eqb (entryWebhook e) EmptyString) "missing_webhook_id";
  _ ← throw_if (negb (isSome (failedAt e))) "unparseable_failed_at";
  _ ← throw_if (negb (isSome (entryAttempts e))) "non_numeric_attempts";
  match payload e with
  | None => Err "missing_payload"
  | Some p =>
      match raw_event p with
      | None | Some EmptyString => Err "payload_missing_event"
      | Some ev =>
          match raw_timestamp p with
          | None => Err "payload_unparseable_timestamp"
          | Some ts =>
              _ ← throw_if (negb (is_date ts)) "payload_unparseable_timestamp";
              match raw_data p with
              | None => Err "payload_missing_data"
              | Some d => Ok {| event := ev; timestamp := ts; data := d; chunkId := raw_chunkId p; chunkIndex := raw_chunkIndex p;
                                totalChunks := raw_totalChunks p; payloadTruncated := raw_truncated p |}
              end
          end
      end
  end.

(** An entry that may be replayed, or why not. *)
Definition classify (P : WebhookDlqProcessor) (now : Z) (e : DlqEntry I) : result DlqEntryOutcome (WebhookPayload I) :=
  if isSome (replayedAt e) then Err (Skipped already_replayed)
  else match validateDlqEntry e with
  | Err reason => Err (Invalid reason)
  | Ok p =>
      if maxReplayAttempts P <? default 0 (entryAttempts e) then Err (Skipped attempts_exhausted)
      else if now - default 0 (failedAt e) <? minAgeMs P then Err (Skipped too_recent)
      else Ok p
  end.

(** A single result that is not in an array, or an array that is not empty. *)
Definition succeeded (rs : list WebhookDeliveryResult) : bool :=
  match rs with [] => false | _ => forallb success rs end.

Definition attemptDelivery (t : turn) (e : DlqEntry I) (p : WebhookPayload I) (h : WebhookConfig) (w : world)
  : world * DlqEntryOutcome :=
  match deliver t h p None w with
  | (w1, Err msg) => (w1, Failed msg)
  | (w1, Ok rs) =>
      if negb (succeeded rs) then (w1, Failed "delivery_unsuccessful")
      else match write_error t with
      | Some msg => (w1, Failed ("mark_replayed_failed: " +:+ msg))
      | None => (with_dlq (dlq_mark (entryId e) (now_write t) (dlq w1)) w1, Replayed)
      end
  end.

Definition replayEntryInternal (P : WebhookDlqProcessor) (hooks : jsmap string WebhookConfig) (t : turn) (e : DlqEntry I)
    (p : WebhookPayload I) (w : world) : world * DlqEntryOutcome :=
  match lookup_error t with
  | Some msg => (w, Failed msg)
  | None =>
      match jm_get (entryWebhook e) hooks with
      | None => (w, Orphaned)
      | Some h =>
          if negb (w_active h) then (w, Skipped inactive_webhook)
          else if dryRun P then (w, Skipped dry_run)
          else attemptDelivery t e p h w
      end
  end.

(** The body of the loop. *)
Definition process_entry (P : WebhookDlqProcessor) (hooks : jsmap string WebhookConfig) (turns : string → turn)
    (x : world * WebhookDlqProcessorResult) (e : DlqEntry I) : world * WebhookDlqProcessorResult :=
  let '(w, r) := x in
  let t := turns (entryId e) in
  match classify P (now_judge t) e with
  | Err o => (w, recordOutcome o r)
  | Ok p =>
      if batchSize P <=? eligibleCount r then (w, defer r)
      else
        let '(w', o) := replayEntryInternal P hooks t e p w in
        (w', recordOutcome o (eligible_one r))
  end.

(** [run] over a queue that can be read. *)
Definition run (P : WebhookDlqProcessor) (hooks : jsmap string WebhookConfig) (turns : string → turn) (w : world)
  : world * WebhookDlqProcessorResult :=
  if running P then (w, emptyResult true)
  else
    let es := dlq_list (dlq w) in
    foldl (process_entry P hooks turns) (w, scanned (Z.of_nat (length es)) (emptyResult false)) es.

Definition replayEntry (P : WebhookDlqProcessor) (hooks : jsmap string WebhookConfig) (t : turn) (i : string) (w : world)
  : world * DlqEntryOutcome :=
  match dlq_get i (dlq w) with
  | None => (w, Invalid "not_found")
  | Some e =>
      match validateDlqEntry e with
      | Err reason => (w, Invalid reason)
      | Ok p =>
          match jm_get (entryWebhook e) hooks with
          | None => (w, Orphaned)
          | Some h =>
              if negb (w_active h) then (w, Skipped inactive_webhook)
              else if dryRun P then (w, Skipped dry_run)
              else attemptDelivery t e p h w
          end
      end
  end.

(** *** The service *)

Definition getByEvent (ev : string) (hooks : jsmap string WebhookConfig) : list WebhookConfig :=
  filter (λ h, ev ∈ events h) (jm_values hooks).

Definition subscribers (ev : string) (hooks : jsmap string WebhookConfig) : list WebhookConfig :=
  filter (λ h, w_active h = true) (getByEvent ev hooks).

(** The deliveries; those after one that throws still take place. *)
Fixpoint deliver_all (turns : string → turn) (hs : list WebhookConfig) (p : WebhookPayload I) (ev : option string) (w : world)
  : world * result string (list (list WebhookDeliveryResult)) :=
  match hs with
  | [] => (w, Ok [])
  | h :: hs' =>
      let '(w1, r) := deliver (turns (id h)) h p ev w in
      let '(w2, rs) := deliver_all turns hs' p ev w1 in
      (w2, match r with Ok x => (match rs with Ok xs => Ok (x :: xs) | Err m => Err m end) | Err m => Err m end)
  end.

(** The pushes of the failed results; a refused one does not keep the others
    from being made, and rejects the whole. *)
Fixpoint push_all (turns : string → turn) (rs : list WebhookDeliveryResult) (p : WebhookPayload I) (w : world) : world * result string () :=
  match rs with
  | [] => (w, Ok tt)
  | r :: rs' =>
      let t := turns (webhookId r) in
      let pushed := match write_error t with
                    | Some m => Err m
                    | None => dlq_push (buildDlqEntry (entry_uuid t) (now_write t) r p) (dlq w)
                    end in
      let w1 := match pushed with Ok q => with_dlq q w | Err _ => w end in
      let '(w2, o) := push_all turns rs' p w1 in
      (w2, match pushed with Ok _ => o | Err m => Err m end)
  end.

Definition new_payload (ev ts : string) (d : payload_data I) : WebhookPayload I :=
  {| event := ev; timestamp := ts; data := d; chunkId := None; chunkIndex := None; totalChunks := None; payloadTruncated := None |}.

Definition emit (configured : bool) (hooks : jsmap string WebhookConfig) (turns : string → turn) (ev ts : string)
    (d : payload_data I) (eventId : option string) (w : world) : world * result string (list (list WebhookDeliveryResult)) :=
  match subscribers ev hooks with
  | [] => (w, Ok [])
  | hs =>
      let p := new_payload ev ts d in
      match deliver_all turns hs p eventId w with
      | (w1, Err m) => (w1, Err m)
      | (w1, Ok rss) =>
          if configured then
            match push_all turns (filter (λ r, success r = false) (List.concat rss)) p w1 with
            | (w2, Ok _) => (w2, Ok rss)
            | (w2, Err m) => (w2, Err m)
            end
          else (w1, Ok rss)
      end
  end.

(** A stored payload with all the fields of its type. *)
Definition typed_payload (r : raw_payload I) : option (WebhookPayload I) :=
  match raw_event r, raw_timestamp r, raw_data r with
  | Some a, Some b, Some c =>
      Some {| event := a; timestamp := b; data := c; chunkId := raw_chunkId r; chunkIndex := raw_chunkIndex r;
              totalChunks := raw_totalChunks r; payloadTruncated := raw_truncated r |}
  | _, _, _ => None
  end.

(** Also to webhooks that are not active. A stored payload that lacks fields,
    which the source sends as it is, is refused here. *)
Definition replayWebhook (hooks : jsmap string WebhookConfig) (t : turn) (i : string) (w : world)
  : world * result string (option WebhookDeliveryResult) :=
  match dlq_get i (dlq w) with
  | None => (w, Err "DLQ entry not found")
  | Some e =>
      match jm_get (entryWebhook e) hooks with
      | None => (w, Err "Webhook not found")
      | Some h =>
          match payload e ≫= typed_payload with
          | None => (w, Err "malformed payload")
          | Some p =>
              match deliver t h p None w with
              | (w1, Err m) => (w1, Err m)
              | (w1, Ok rs) =>
                  if forallb success rs then
                    match write_error t with
                    | Some m => (w1, Err m)
                    | None => (with_dlq (dlq_mark i (now_write t) (dlq w1)) w1, Ok (head rs))
                    end
                  else (w1, Ok (head rs))
              end
          end
      end
  end.

(** The secrets, over the in-memory store of webhooks. *)
Definition service_rotateSecret (now : Z) (i newSecret : string) (m : jsmap string WebhookConfig)
  : jsmap string WebhookConfig * result string WebhookConfig :=
  match jm_get i m with
  | None => (m, Err "Webhook not found")
  | Some h => rotateSecret now i newSecret (secret h) (now + GRACE_PERIOD_MS) m
  end.

Definition revokePreviousSecret (i : string) (m : jsmap string WebhookConfig) : jsmap string WebhookConfig * result string WebhookConfig :=
  match jm_get i m with
  | None => (m, Err "Webhook not found")
  | Some h =>
      let u := {| id := id h; url := url h; events := events h; secret := secret h; previousSecret := None;
                  secretUpdatedAt := secretUpdatedAt h; w_active := w_active h; secretRotatedAt := secretRotatedAt h;
                  previousSecretExpiresAt := previousSecretExpiresAt h |} in
      (jm_set (id u) u m, Ok u)
  end.

(** When a delivery asked for at [now] starts, and the map it leaves. *)
Definition deliverWithRateLimit (i : string) (now : Z) (last : gmap string Z) : Z * gmap string Z :=
  let since := now - default 0 (last !! i) in
  let start := if since <? DELIVERY_SPACING_MS then now + (DELIVERY_SPACING_MS - since) else now in
  (start, <[i := start]> last).

(** ** No event is lost *)

Context `{!DlqStoreLaws I S}.
Implicit Types (w : world) (p : WebhookPayload I) (e : DlqEntry I).

(** A subscriber, the event id given and the payload it is owed. *)
Definition debt : Type := string * option string * WebhookPayload I.

(** It was acknowledged, or an event of its id was, or the reservation of its
    id was left behind; or it waits in the queue. *)
Definition excused w (d : debt) : Prop := ∃ ev, event_id d.1.2 = Some ev ∧ marker d.1.1 ev ∈ stuck w.
Definition paid w (d : debt) : Prop :=
  (∃ ev p, (d.1.1, ev, p) ∈ acks w ∧ (p = d.2 ∨ ev = event_id d.1.2 ∧ ev ≠ None)) ∨ excused w d.
Definition waiting (q : gmap string (DlqEntry I)) (d : debt) : Prop :=
  ∃ i e, q !! i = Some e ∧ entryWebhook e = d.1.1 ∧ payload e = Some (raw_of d.2) ∧ replayedAt e = None.
Definition kept w (d : debt) : Prop := paid w d ∨ waiting (entries (dlq w)) d.

(** Reservations belong to acknowledged events, or were left behind. *)
Definition reserved_ok w : Prop := ∀ m k, reservations (wires w) !! m = Some k → m ∈ stuck w ∨
  ∃ i ev p, (i, Some ev, p) ∈ acks w ∧ m = marker i ev ∧ no_char ":" i.

Definition hooks_ok (hooks : jsmap string WebhookConfig) : Prop :=
  NoDup (jm_keys hooks) ∧ ∀ i h, (i, h) ∈ hooks → id h = i ∧ no_char ":" i.

(** *** One delivery *)

Lemma chunks_results now h ps x x' rs : deliver_chunks stringify hmac hostname_of net now h ps x = (x', Ok rs) →
  ∀ r, r ∈ rs → webhookId r = id h ∧ skipped r = false.
Proof.
  revert x x' rs. induction ps as [|p ps IH]; intros x x' rs; simpl; [intros [= <- <-]; set_solver|].
  unfold deliverSingleWebhook. destruct (signatures _ _ _ _); [|done].
  destruct (Ssrf.checkHostBlocked _ _) as [[|why host]|]; simpl; [| |done].
  - destruct (success _).
    + destruct (deliver_chunks _ _ _ _ _ _ ps _) as [x2 [rs'|]] eqn:E; [|done]. intros [= <- <-] r [->|Hr]%elem_of_cons; [by destruct (net _)|].
      eapply IH; [exact E|done].
    + intros [= <- <-] r ->%list_elem_of_singleton. by destruct (net _).
  - intros [= <- <-] r ->%list_elem_of_singleton. done.
Qed.

Lemma chunks_reservations now h ps x : reservations (deliver_chunks stringify hmac hostname_of net now h ps x).1 = reservations x.
Proof. pose proof (deliver_chunks_spec stringify hmac hostname_of net now h ps x) as Hs. destruct (deliver_chunks _ _ _ _ _ _ _ x). apply Hs. Qed.

Lemma no_skip rs : (∀ r, r ∈ rs → skipped r = false) → existsb skipped rs = false.
Proof. intros Hr. apply not_true_iff_false. rewrite existsb_exists. intros (r & Hin%list_elem_of_In & Hs). by rewrite Hr in Hs. Qed.

Lemma no_acks (a : list debt) x (b c : bool) y : b = false ∨ c = false →
  ∃ l, a = a ++ l ∧ (length l ≤ 1)%nat ∧ (∀ z, z ∈ l → z = x) ∧ (b = true → c = true → y ∈ l).
Proof. intros Hbc. exists []. rewrite app_nil_r. split_and!; [done|simpl; lia|set_solver|by destruct Hbc as [-> | ->]]. Qed.

(** A clearing that works, or that fails with the reservation or without. *)
Lemma clear_cases {A} f i (e : string) (r : result string A) (x : wire (I := I)) :
  (∃ x', clear_with f i e r x = (x', r) ∧ x' = clearWebhookDeliveryAttempt i e x) ∨
  ∃ x' m, clear_with f i e r x = (x', Err m) ∧ (x' = x ∨ x' = clearWebhookDeliveryAttempt i e x).
Proof. unfold clear_with. destruct f as [[m []]|]; [right; eauto..|left; eauto]. Qed.

(** The reservations but for one. *)
Definition same_but (m : string) (x x' : wire (I := I)) : Prop := ∀ m', m' ≠ m → reservations x' !! m' = reservations x !! m'.

Lemma clear_same_but i (e : string) (x y y' : wire (I := I)) :
  same_but (marker i e) x y → y' = y ∨ y' = clearWebhookDeliveryAttempt i e y → same_but (marker i e) x y'.
Proof. intros Hs [->| ->] m Hm; [by apply Hs|]. simpl. rewrite lookup_delete_ne by done. by apply Hs. Qed.

(** What a delivery does: it leaves the queue alone, acknowledges nothing but
    itself, and when all its results are successes its debt is paid. *)
Definition delivery_ok h p ev w w' r : Prop :=
  dlq w' = dlq w ∧ reserved_ok w' ∧ stuck w ⊆ stuck w' ∧
  (∃ l, acks w' = acks w ++ l ∧ (length l ≤ 1)%nat ∧ (∀ a, a ∈ l → a = (id h, event_id ev, p)) ∧
     (all_succeeded r = true → falsy ev = true → (id h, None, p) ∈ l)) ∧
  (∀ rs, r = Ok rs → ∀ x, x ∈ rs → webhookId x = id h) ∧
  (all_succeeded r = true → paid w' (id h, ev, p)).

Section Outcomes.
Context (h : WebhookConfig) (p : WebhookPayload I) (w : world) (Hres : reserved_ok w).

(** Without an event id. *)
Lemma delivery_plain t ev x r : falsy ev = true →
  deliver_chunks stringify hmac hostname_of net (now_deliver t) h (to_send stringify byteLength p sizeCap (chunk_uuid t)) (wires w) = (x, r) →
  delivery_ok h p ev w (after h p ev x r w) r.
Proof.
  intros Hf Ed. assert (event_id ev = None) as He by (unfold event_id; by rewrite Hf). unfold delivery_ok, after, left_behind. rewrite He.
  pose proof (chunks_reservations (now_deliver t) h (to_send stringify byteLength p sizeCap (chunk_uuid t)) (wires w)) as Hr.
  rewrite Ed in Hr. simpl in Hr.
  assert (was_skipped r = false ∧ ∀ rs, r = Ok rs → ∀ x, x ∈ rs → webhookId x = id h) as [Hs Hid].
  { destruct r as [rs|]; [|done]. split; [apply no_skip; intros; by eapply chunks_results|].
    intros rs' [= <-] y Hy. by eapply chunks_results. }
  rewrite Hs. cbn [negb dlq wires acks stuck]. rewrite andb_true_r.
  set (a' := if all_succeeded r then acks w ++ [(id h, None, p)] else acks w).
  assert (∀ a, a ∈ acks w → a ∈ a') as Hsub by (subst a'; destruct (all_succeeded r); set_solver).
  split_and!; [done| |set_solver| |done|].
  - intros m k. simpl. rewrite Hr. intros [Hst|(i & e & q & Hin & Hm)]%Hres; [left; set_solver|right]. exists i, e, q. split; [by apply Hsub|done].
  - subst a'. destruct (all_succeeded r); [exists [(id h, None, p)]|exists []; rewrite app_nil_r]; (split_and!; [done|simpl; lia|set_solver|set_solver]).
  - intros Hall. subst a'. left. exists None, p. simpl. rewrite Hall. split; [set_solver|by left].
Qed.

Variable e : string.
Hypothesis He : event_id (Some e) = Some e.

Lemma named : falsy (Some e) = false.
Proof. unfold event_id in He. by destruct (falsy (Some e)). Qed.

(** It throws, with or without its reservation. *)
Lemma delivery_throws x m : same_but (marker (id h) e) (wires w) x →
  delivery_ok h p (Some e) w (after h p (Some e) x (Err m) w) (Err m).
Proof.
  intros Hs. unfold delivery_ok, after. cbn [dlq wires acks stuck all_succeeded andb].
  split_and!; [done| |set_solver|apply no_acks; auto|done|done].
  unfold left_behind. rewrite He. intros m' k. simpl. intros Hk. destruct (decide (m' = marker (id h) e)) as [->|Hne].
  - rewrite Hk. simpl. destruct (reservations (wires w) !! marker (id h) e) as [k'|] eqn:E; simpl; [|left; set_solver].
    destruct (Hres _ _ E) as [|]; [left; set_solver|by right].
  - rewrite Hs in Hk by done. destruct (Hres m' k Hk); [left; set_solver|by right].
Qed.

(** The event was reserved before. *)
Lemma delivery_skipped k r : reservations (wires w) !! marker (id h) e = Some k → no_char ":" (id h) →
  skipped r = true → success r = true → webhookId r = id h →
  delivery_ok h p (Some e) w (after h p (Some e) (wires w) (Ok [r]) w) (Ok [r]).
Proof.
  intros Ek Hc Hsk Hsu Hid. unfold delivery_ok, after. cbn [dlq wires acks stuck all_succeeded forallb was_skipped existsb]. rewrite Hsk, Hsu.
  cbn [orb andb negb]. unfold left_behind. rewrite He.
  split_and!; [done| |set_solver|apply no_acks; right; exact named|by intros rs [= <-] y ->%list_elem_of_singleton|].
  - intros m' k'. simpl. intros [Hst|Hack]%Hres; [left; set_solver|by right].
  - intros _. destruct (Hres _ _ Ek) as [Hst|(i & e' & q & Hin & Hm & Hi)]; [right; exists e; split; [done|set_solver]|left].
    apply (colon_split (id h) i e e') in Hm as [<- <-]; [|done..]. exists (Some e), q. split; [done|]. by right.
Qed.

(** Every piece was acknowledged, and the event stays reserved. *)
Lemma delivery_complete x k rs : reservations x = <[marker (id h) e := k]> (reservations (wires w)) → no_char ":" (id h) →
  forallb success rs = true → was_skipped (Ok rs) = false → (∀ y, y ∈ rs → webhookId y = id h) →
  delivery_ok h p (Some e) w (after h p (Some e) x (Ok rs) w) (Ok rs).
Proof.
  intros Hx Hc Ea Hskip Hid. unfold delivery_ok, after. cbn [dlq wires acks stuck all_succeeded]. rewrite Ea, Hskip.
  cbn [negb andb]. unfold left_behind. rewrite He.
  split_and!; [done| |set_solver|exists [(id h, Some e, p)]; split_and!; [done|simpl; lia|set_solver|]|by intros rs' [= <-]|].
  - intros m' k'. simpl. rewrite Hx. intros [[<- _]|[Hne Hk]]%lookup_insert_Some.
    + right. exists (id h), e, p. split; [set_solver|done].
    + destruct (Hres _ _ Hk) as [Hst|(i & e' & q & Hin & Hm)]; [left; set_solver|right]. exists i, e', q. split; [set_solver|done].
  - rewrite named. done.
  - intros _. left. exists (Some e), p. split; [simpl; set_solver|by left].
Qed.

(** A piece failed, and the reservation was cleared. *)
Lemma delivery_failed x rs : same_but (marker (id h) e) (wires w) x → reservations x !! marker (id h) e = None →
  forallb success rs = false → (∀ y, y ∈ rs → webhookId y = id h) →
  delivery_ok h p (Some e) w (after h p (Some e) x (Ok rs) w) (Ok rs).
Proof.
  intros Hs Hn Ea Hid. unfold delivery_ok, after. cbn [dlq wires acks stuck all_succeeded]. rewrite Ea. cbn [andb]. unfold left_behind. rewrite He.
  split_and!; [done| |set_solver|apply no_acks; auto|by intros rs' [= <-]|done].
  intros m' k'. simpl. intros Hk. destruct (decide (m' = marker (id h) e)) as [->|Hne]; [congruence|]. rewrite Hs in Hk by done.
  destruct (Hres m' k' Hk); [left; set_solver|by right].
Qed.
End Outcomes.

Lemma deliver_spec t h p ev w w' r : deliver t h p ev w = (w', r) → no_char ":" (id h) → reserved_ok w → delivery_ok h p ev w w' r.
Proof.
  unfold deliver. intros E Hc Hres.
  destruct (deliverWebhook _ _ _ _ _ _ _ _ _ _ _ _ _ _) as [x r0] eqn:Ed. injection E as <- <-. unfold deliverWebhook in Ed.
  destruct ev as [[|a s]|]; [by eapply delivery_plain| |by eapply delivery_plain].
  set (e := String a s) in *. assert (event_id (Some e) = Some e) as He by done.
  unfold reserve_with, reserveWebhookDelivery in Ed. destruct (reservations (wires w) !! marker (id h) e) as [k|] eqn:Ek.
  { destruct (reserve_fault (faults t)) as [[m []]|]; simpl in Ed; injection Ed as <- <-; [by apply delivery_throws..|]. by eapply delivery_skipped. }
  set (x1 := {| posted := posted (wires w); reservations := _ |}) in Ed.
  assert (same_but (marker (id h) e) (wires w) x1) as Hx1 by (intros m' Hm'; simpl; by rewrite lookup_insert_ne).
  destruct (reserve_fault (faults t)) as [[m []]|]; [by injection Ed as <- <-; apply delivery_throws..|].
  pose proof (chunks_reservations (now_deliver t) h (to_send stringify byteLength p sizeCap (chunk_uuid t)) x1) as Hr.
  destruct (deliver_chunks _ _ _ _ _ _ _ x1) as [x2 rs0] eqn:Ec; simpl in Hr.
  assert (same_but (marker (id h) e) (wires w) x2) as Hx2 by (intros m' Hm'; rewrite Hr; by apply Hx1).
  destruct rs0 as [rs|m]; cycle 1.
  { destruct (clear_cases (A := list WebhookDeliveryResult) (clear_fault (faults t)) (id h) e (Err m) x2) as [(x3 & E3 & H3)|(x3 & m' & E3 & H3)];
      rewrite E3 in Ed; injection Ed as <- <-; apply delivery_throws; auto; eapply clear_same_but; eauto. }
  rewrite existsb_failed in Ed. assert (∀ y, y ∈ rs → webhookId y = id h) as Hid by (intros; by eapply chunks_results).
  destruct (forallb success rs) eqn:Ea; cbn [negb] in Ed.
  { injection Ed as <- <-. eapply delivery_complete; auto; [by rewrite Hr|apply no_skip; intros; by eapply chunks_results]. }
  destruct (clear_cases (clear_fault (faults t)) (id h) e (Ok rs) x2) as [(x3 & E3 & H3)|(x3 & m & E3 & H3)]; rewrite E3 in Ed.
  - injection Ed as <- <-. apply delivery_failed; auto; [eapply clear_same_but; eauto|]. rewrite H3. simpl. apply lookup_delete_eq.
  - destruct (clear_cases (A := list WebhookDeliveryResult) (clear_again_fault (faults t)) (id h) e (Err m) x3) as [(x4 & E4 & H4)|(x4 & m' & E4 & H4)];
      rewrite E4 in Ed; injection Ed as <- <-; apply delivery_throws; auto; (eapply clear_same_but; [eapply clear_same_but; eauto|eauto]).
Qed.

(** *** What every call keeps *)

(** An entry but for its mark. *)
Definition content e : DlqEntry I := set_replayed 0 e.

Definition inv w (owed : list debt) : Prop := dlq_ok (dlq w) ∧ reserved_ok w ∧ ∀ d, d ∈ owed → kept w d.

(** A call adds acknowledgements, and marks entries but changes and drops none. *)
Definition extends w w' : Prop := (acks w `prefix_of` acks w' ∧ stuck w ⊆ stuck w') ∧
  ∀ i, content <$> entries (dlq w') !! i = content <$> entries (dlq w) !! i.

Lemma extends_refl w : extends w w.
Proof. done. Qed.

Lemma extends_trans w1 w2 w3 : extends w1 w2 → extends w2 w3 → extends w1 w3.
Proof. intros [[? ?] Hi] [[? ?] Hj]. split; [split; by etrans|]. intros i. by rewrite Hj, Hi. Qed.

Lemma paid_mono w w' d : acks w `prefix_of` acks w' → stuck w ⊆ stuck w' → paid w d → paid w' d.
Proof.
  intros [l Ha] Hs [(ev & p & Hin & Hd)|(e & He & Hm)]; [left; exists ev, p; rewrite Ha; split; [set_solver|done]|right].
  exists e. split; [done|by apply Hs].
Qed.

Lemma kept_delivered w w' d : dlq w' = dlq w → acks w `prefix_of` acks w' → stuck w ⊆ stuck w' → kept w d → kept w' d.
Proof. intros Hq Ha Hs [Hp|Hw]; [left; by eapply paid_mono|right; by rewrite Hq]. Qed.

Lemma deliver_inv t h p ev w w' r owed : deliver t h p ev w = (w', r) → no_char ":" (id h) → inv w owed →
  inv w' owed ∧ extends w w' ∧ dlq w' = dlq w.
Proof.
  intros E Hc (Hq & Hr & Hk). destruct (deliver_spec _ _ _ _ _ _ _ E Hc Hr) as (Hd & Hr' & Hst & (l & Ha & _) & _).
  assert (acks w `prefix_of` acks w') by (rewrite Ha; by eexists). split_and!; [split_and!| |done].
  - by rewrite Hd.
  - done.
  - intros d Hin. apply kept_delivered with w; auto.
  - split; [done|]. by rewrite Hd.
Qed.

(** An entry may be marked once its payload is acknowledged. *)
Lemma mark_inv i t e p w owed : inv w owed → entries (dlq w) !! i = Some e → payload e = Some (raw_of p) →
  (entryWebhook e, None, p) ∈ acks w →
  inv (with_dlq (dlq_mark i t (dlq w)) w) owed ∧ extends w (with_dlq (dlq_mark i t (dlq w)) w).
Proof.
  intros (Hq & Hr & Hk) He Hp Ha. destruct (law_mark (dlq w) i t Hq) as [Hq' Hent]. split; [split_and!; [done|done|]|].
  - intros d Hd. destruct (Hk d Hd) as [Hpaid|(j & e' & Hj & Hw & Hp' & Hm)]; [by left|]. destruct (decide (j = i)) as [->|Hne].
    + left. assert (e' = e) as -> by congruence. left. exists None, p. simpl. rewrite <- Hw. split; [done|]. left.
      rewrite Hp in Hp'. unfold raw_of in Hp'. destruct p, (d.2). by injection Hp' as -> -> -> -> -> -> ->.
    + right. exists j, e'. simpl. rewrite Hent, lookup_alter_ne by done. done.
  - split; [done|]. intros j. simpl. rewrite Hent. destruct (decide (j = i)) as [->|]; [|by rewrite lookup_alter_ne].
    by rewrite lookup_alter_eq, He.
Qed.

(** The entry as it was read is the stored one but for the mark. *)
Lemma mark_read i t e p w owed : inv w owed → content <$> entries (dlq w) !! i = Some (content e) → payload e = Some (raw_of p) →
  (entryWebhook e, None, p) ∈ acks w →
  inv (with_dlq (dlq_mark i t (dlq w)) w) owed ∧ extends w (with_dlq (dlq_mark i t (dlq w)) w).
Proof.
  intros Hi He Hp Ha. apply fmap_Some in He as (e' & He' & Hc). unfold content, set_replayed in Hc. injection Hc as _ Hw Hp' _ _ _ _ _.
  apply (mark_inv i t e' p); [done|done|congruence|]. by rewrite <- Hw.
Qed.

Lemma validate_payload e p : validateDlqEntry e = Ok p → payload e = Some (raw_of p).
Proof.
  unfold validateDlqEntry. destruct (String.eqb (entryId e) _); [done|]. destruct (String.eqb (entryWebhook e) _); [done|].
  destruct (failedAt e); [|done]. destruct (entryAttempts e); [|done]. simpl. destruct (payload e) as [r|]; [|done].
  destruct (raw_event r) as [[|a s]|] eqn:E1; [done| |done]. destruct (raw_timestamp r) as [ts|] eqn:E2; [|done].
  destruct (is_date ts); [simpl|done]. destruct (raw_data r) as [d|] eqn:E3; [|done]. intros [= <-].
  unfold raw_of; simpl. destruct r; simpl in *. by subst.
Qed.

Lemma attempt_inv t e p h w w' o owed : attemptDelivery t e p h w = (w', o) → inv w owed →
  content <$> entries (dlq w) !! entryId e = Some (content e) → payload e = Some (raw_of p) → id h = entryWebhook e → no_char ":" (id h) →
  inv w' owed ∧ extends w w'.
Proof.
  unfold attemptDelivery. intros E Hi He Hp Hh Hc. destruct (deliver t h p None w) as [w1 r] eqn:Ed.
  destruct (deliver_inv _ _ _ _ _ _ _ owed Ed Hc Hi) as (Hi1 & Hx & Hq).
  destruct (deliver_spec _ _ _ _ _ _ _ Ed Hc (proj1 (proj2 Hi))) as (_ & _ & _ & (l & Ha & _ & _ & Hack) & _ & _).
  destruct r as [rs|m]; [|by injection E as <- <-]. destruct (succeeded rs) eqn:Es; cbn [negb] in E; [|by injection E as <- <-].
  destruct (write_error t); [by injection E as <- <-|]. injection E as <- <-.
  destruct (mark_read (entryId e) (now_write t) e p w1 owed) as [Hi2 Hx2]; [done|by rewrite Hq|done| |].
  - rewrite <- Hh, Ha. apply elem_of_app. right. apply Hack; [|done]. simpl. by destruct rs.
  - split; [done|]. by eapply extends_trans.
Qed.

Lemma hook_found hooks i h : hooks_ok hooks → jm_get i hooks = Some h → id h = i ∧ no_char ":" (id h).
Proof. intros [Hnd Hh] Hg. apply jm_get_elem in Hg; [|done]. destruct (Hh _ _ Hg) as [-> ?]. done. Qed.

Lemma classify_valid P now e p : classify P now e = Ok p → validateDlqEntry e = Ok p ∧ replayedAt e = None.
Proof.
  unfold classify. destruct (replayedAt e); [done|]. simpl. destruct (validateDlqEntry e); [|done].
  destruct (_ <? _); [done|]. destruct (_ <? _); naive_solver.
Qed.

Lemma entry_inv P hooks turns w r w' r' e owed : process_entry P hooks turns (w, r) e = (w', r') → hooks_ok hooks → inv w owed →
  content <$> entries (dlq w) !! entryId e = Some (content e) → inv w' owed ∧ extends w w'.
Proof.
  unfold process_entry. intros E Hh Hi He. destruct (classify _ _ e) as [p|o] eqn:Ec; [|by injection E as <- <-].
  apply classify_valid in Ec as [Hp%validate_payload _]. destruct (batchSize P <=? _); [by injection E as <- <-|].
  destruct (replayEntryInternal _ _ _ _ _ w) as [w1 o] eqn:Er. injection E as <- <-. unfold replayEntryInternal in Er.
  destruct (lookup_error _); [by injection Er as <- <-|]. destruct (jm_get _ hooks) as [h|] eqn:Eh; [|by injection Er as <- <-].
  destruct (hook_found _ _ _ Hh Eh) as [Hid Hc]. destruct (w_active h); [|by injection Er as <- <-]. cbn [negb] in Er.
  destruct (dryRun P); [by injection Er as <- <-|]. by eapply attempt_inv.
Qed.

Lemma run_inv P hooks turns w owed : hooks_ok hooks → inv w owed →
  inv (run P hooks turns w).1 owed ∧ extends w (run P hooks turns w).1.
Proof.
  intros Hh Hi. unfold run. destruct (running P); [done|]. set (r0 := scanned _ _).
  assert (∀ e, e ∈ dlq_list (dlq w) → content <$> entries (dlq w) !! entryId e = Some (content e)) as Hes.
  { intros e. rewrite (law_list (dlq w)) by apply Hi. intros ([i e'] & -> & Hin)%list_elem_of_fmap. apply elem_of_map_to_list in Hin.
    simpl. rewrite (law_key (dlq w) i e') by (done || apply Hi). by rewrite Hin. }
  generalize dependent r0. revert Hi Hes. generalize (dlq_list (dlq w)) as es. intros es. revert w.
  induction es as [|e es IH]; intros w Hi Hes r0; [done|]. cbn [foldl]. destruct (process_entry P hooks turns (w, r0) e) as [w1 r1] eqn:Ep.
  destruct (entry_inv _ _ _ _ _ _ _ _ owed Ep Hh Hi) as [Hi1 Hx]; [by apply Hes; left|].
  destruct (IH w1 Hi1) with (r0 := r1) as [Hi2 Hx2]; [intros e' He'; rewrite (proj2 Hx); apply Hes; by right|].
  split; [done|]. by eapply extends_trans.
Qed.

Lemma get_found w owed i e : inv w owed → dlq_get i (dlq w) = Some e → entryId e = i ∧ content <$> entries (dlq w) !! i = Some (content e).
Proof. intros (Hq & _). rewrite law_get by done. intros He. rewrite He. split; [by eapply law_key|done]. Qed.

Lemma replayEntry_inv P hooks t i w owed : hooks_ok hooks → inv w owed →
  inv (replayEntry P hooks t i w).1 owed ∧ extends w (replayEntry P hooks t i w).1.
Proof.
  intros Hh Hi. unfold replayEntry. destruct (dlq_get i (dlq w)) as [e|] eqn:Eg; [|done].
  destruct (get_found _ _ _ _ Hi Eg) as [Hid He].
  destruct (validateDlqEntry e) as [p|] eqn:Ev; [|done]. destruct (jm_get _ hooks) as [h|] eqn:Eh; [|done].
  destruct (hook_found _ _ _ Hh Eh) as [? Hc]. destruct (w_active h); [|done]. destruct (dryRun P); [done|]. cbn [negb].
  destruct (attemptDelivery _ _ _ _ _) as [w' o] eqn:Ea. eapply attempt_inv; [exact Ea|done|by rewrite Hid|by apply validate_payload|done|done].
Qed.

Lemma replayWebhook_inv hooks t i w owed : hooks_ok hooks → inv w owed →
  inv (replayWebhook hooks t i w).1 owed ∧ extends w (replayWebhook hooks t i w).1.
Proof.
  intros Hh Hi. unfold replayWebhook. destruct (dlq_get i (dlq w)) as [e|] eqn:Eg; [|done].
  destruct (get_found _ _ _ _ Hi Eg) as [_ He]. destruct (jm_get _ hooks) as [h|] eqn:Eh; [|done].
  destruct (hook_found _ _ _ Hh Eh) as [Hid Hc]. destruct (payload e ≫= typed_payload) as [p|] eqn:Ep; [|done].
  assert (payload e = Some (raw_of p)) as Hp.
  { destruct (payload e) as [r|]; [|done]. simpl in Ep. unfold typed_payload in Ep.
    destruct r as [[]  [] [] ? ? ? ?]; simpl in *; try done. by injection Ep as <-. }
  destruct (deliver t h p None w) as [w1 r] eqn:Ed.
  destruct (deliver_inv _ _ _ _ _ _ _ owed Ed Hc Hi) as (Hi1 & Hx & Hq).
  destruct (deliver_spec _ _ _ _ _ _ _ Ed Hc (proj1 (proj2 Hi))) as (_ & _ & _ & (l & Ha & _ & _ & Hack) & _ & _).
  destruct r as [rs|m]; [|done]. destruct (forallb success rs) eqn:Es; [|done]. destruct (write_error t); [done|].
  destruct (mark_read i (now_write t) e p w1 owed) as [Hi2 Hx2]; [done|by rewrite Hq|done| |split; [done|by eapply extends_trans]].
  rewrite <- Hid, Ha. apply elem_of_app. right. by apply Hack.
Qed.

(** *** Emitting *)

(** A delivery ends at its first failure. *)
Lemma one_failure now h ps x x' rs : deliver_chunks stringify hmac hostname_of net now h ps x = (x', Ok rs) →
  (length (filter (λ r, success r = false) rs) ≤ 1)%nat.
Proof.
  revert x x' rs. induction ps as [|p ps IH]; intros x x' rs; simpl; [by intros [= <- <-]; simpl; lia|].
  destruct (deliverSingleWebhook _ _ _ _ _ _ _ x) as [x1 [r|]]; [|done]. destruct (success r) eqn:Es.
  - destruct (deliver_chunks _ _ _ _ _ _ ps x1) as [x2 [rs'|]] eqn:E; [|done]. intros [= <- <-].
    rewrite filter_cons_False by congruence. by eapply IH.
  - intros [= <- <-]. rewrite filter_cons_True by done. simpl. lia.
Qed.

Lemma deliver_failures t h p ev w w' rs : deliver t h p ev w = (w', Ok rs) → (length (filter (λ r, success r = false) rs) ≤ 1)%nat.
Proof.
  unfold deliver, deliverWebhook. destruct ev as [[|a s]|].
  1, 3: destruct (deliver_chunks _ _ _ _ _ _ _ _) as [x r] eqn:E; intros [= _ ->]; by eapply one_failure.
  destruct (reserve_with _ _ _ _ _) as [x1 [[]|]]; simpl; [|by intros [= _ <-]; simpl; lia|done].
  destruct (deliver_chunks _ _ _ _ _ _ _ x1) as [x2 [rs'|]] eqn:E; simpl.
  - destruct (existsb _ rs'); [|intros [= _ <-]; by eapply one_failure]. destruct (clear_cases (clear_fault (faults t)) (id h) (String a s) (Ok rs') x2) as [(x3 & -> & _)|(x3 & m & -> & _)].
    + intros [= _ <-]. by eapply one_failure.
    + destruct (clear_cases (A := list WebhookDeliveryResult) (clear_again_fault (faults t)) (id h) (String a s) (Err m) x3) as [(x4 & -> & _)|(x4 & m' & -> & _)]; done.
  - destruct (clear_cases (A := list WebhookDeliveryResult) (clear_fault (faults t)) (id h) (String a s) (Err e) x2) as [(x3 & -> & _)|(x3 & m' & -> & _)]; done.
Qed.

(** Every subscriber of a round of deliveries is paid or has a failed result,
    and at most one of those. *)
Lemma deliver_all_spec turns hs p ev w w' r owed : deliver_all turns hs p ev w = (w', r) →
  (∀ h, h ∈ hs → no_char ":" (id h)) → inv w owed →
  inv w' owed ∧ dlq w' = dlq w ∧ (acks w `prefix_of` acks w' ∧ stuck w ⊆ stuck w') ∧
  ∀ rss, r = Ok rss → let failed := filter (λ r, success r = false) (List.concat rss) in
    (λ x, entry_uuid (turns (webhookId x))) <$> failed `sublist_of` ((λ h, entry_uuid (turns (id h))) <$> hs) ∧
    ∀ h, h ∈ hs → paid w' (id h, ev, p) ∨ ∃ x, x ∈ failed ∧ webhookId x = id h.
Proof.
  revert w w' r. induction hs as [|h hs IH]; intros w w' r E Hc Hi.
  { injection E as <- <-. split_and!; [done..|]. intros rss [= <-]. split; [done|set_solver]. }
  simpl in E. destruct (deliver (turns (id h)) h p ev w) as [w1 r1] eqn:Ed. destruct (deliver_all turns hs p ev w1) as [w2 r2] eqn:Ea.
  injection E as <- <-. assert (no_char ":" (id h)) as Hh by (apply Hc; left).
  destruct (deliver_inv _ _ _ _ _ _ _ owed Ed Hh Hi) as (Hi1 & Hx & Hq).
  destruct (deliver_spec _ _ _ _ _ _ _ Ed Hh (proj1 (proj2 Hi))) as (_ & _ & _ & _ & Hids & Hpaid).
  destruct (IH w1 w2 r2 Ea) as (Hi2 & Hq2 & Hpre & Hrs); [intros; apply Hc; by right|done|].
  split_and!; [done|congruence|etrans; [apply Hx|apply Hpre]|etrans; [apply Hx|apply Hpre]|]. intros rss Er.
  destruct r1 as [rs1|]; [|done]. destruct r2 as [rs2|]; [|done]. injection Er as <-. destruct (Hrs rs2 eq_refl) as [Hsub Hall].
  assert (failed1 := deliver_failures _ _ _ _ _ _ _ Ed). simpl. rewrite filter_app. split.
  - rewrite fmap_app. destruct (filter (λ r, success r = false) rs1) as [|x [|y l]] eqn:Ef; simpl in *; [by apply sublist_cons| |lia].
    rewrite (Hids rs1 eq_refl x); [by apply sublist_skip|].
    assert (x ∈ filter (λ r, success r = false) rs1) as Hin by (rewrite Ef; left). by apply list_elem_of_filter in Hin as [_ ?].
  - intros h' [->|Hin]%elem_of_cons.
    + destruct (forallb success rs1) eqn:Eb; [left; eapply paid_mono; [apply Hpre..|by apply Hpaid]|right].
      apply not_true_iff_false in Eb. rewrite forallb_forall in Eb.
      assert (∃ x, x ∈ filter (λ r, success r = false) rs1) as [x Hx'].
      { destruct (filter (λ r, success r = false) rs1) as [|x l] eqn:Ef; [|exists x; left]. exfalso. apply Eb. intros x Hx'%list_elem_of_In.
        destruct (success x) eqn:Es; [done|]. assert (x ∈ filter (λ r, success r = false) rs1) as Hin by (by apply list_elem_of_filter).
        rewrite Ef in Hin. set_solver. }
      exists x. split; [set_solver|]. apply list_elem_of_filter in Hx' as [_ Hx']. by eapply Hids.
    + destruct (Hall h' Hin) as [?|(x & Hx' & ?)]; [by left|right]. exists x. split; [set_solver|done].
Qed.

Lemma push_all_spec turns rs p w w' o owed : push_all turns rs p w = (w', o) → inv w owed →
  NoDup ((λ x, entry_uuid (turns (webhookId x))) <$> rs) →
  (∀ x, x ∈ rs → entries (dlq w) !! entry_uuid (turns (webhookId x)) = None) →
  inv w' owed ∧ (acks w' = acks w ∧ stuck w' = stuck w) ∧ entries (dlq w) ⊆ entries (dlq w') ∧
  (o = Ok tt → ∀ x ev, x ∈ rs → waiting (entries (dlq w')) (webhookId x, ev, p)).
Proof.
  assert (∀ (q q' : gmap string (DlqEntry I)) d, q ⊆ q' → waiting q d → waiting q' d) as Hmono.
  { intros q q' d Hs (i & e & He & Hd). exists i, e. split; [by eapply lookup_weaken|done]. }
  assert (∀ rs w w' o, push_all turns rs p w = (w', o) → dlq_ok (dlq w) → NoDup ((λ x, entry_uuid (turns (webhookId x))) <$> rs) →
    (∀ x, x ∈ rs → entries (dlq w) !! entry_uuid (turns (webhookId x)) = None) →
    (acks w' = acks w ∧ stuck w' = stuck w) ∧ wires w' = wires w ∧ dlq_ok (dlq w') ∧ entries (dlq w) ⊆ entries (dlq w') ∧
    (o = Ok tt → ∀ x ev, x ∈ rs → waiting (entries (dlq w')) (webhookId x, ev, p))) as Hgen.
  { clear rs w w' o. induction rs as [|x rs IH]; intros w w' o E Hq Hnd Hnew; simpl in E.
    { injection E as <- <-. split_and!; try done. set_solver. }
    rewrite fmap_cons in Hnd. apply NoDup_cons in Hnd as [Hx Hnd].
    set (e := buildDlqEntry _ _ x p) in E. set (t := turns (webhookId x)) in *.
    set (pushed := match write_error t with Some m => Err m | None => dlq_push e (dlq w) end) in E.
    destruct pushed as [q|m] eqn:Epush; cycle 1.
    - destruct (push_all turns rs p w) as [w2 o2] eqn:Ep. injection E as <- <-.
      destruct (IH _ _ _ Ep) as (? & ? & ? & ? & _); [done|done|intros; apply Hnew; by right|]. done.
    - assert (dlq_push e (dlq w) = Ok q) as Hpush by (unfold pushed in Epush; by destruct (write_error t)).
      destruct (law_push (dlq w) e q Hq) as (Hq' & Hent); [by apply Hnew; left|done|]. destruct (push_all turns rs p (with_dlq q w)) as [w2 o2] eqn:Ep. injection E as <- <-.
      destruct (IH _ _ _ Ep) as (Ha & Hw & Hok & Hs & Hwait); [done|done| |].
      { intros y Hy. simpl. rewrite Hent, lookup_insert_ne; [apply Hnew; by right|].
        intros Heq. apply Hx. apply list_elem_of_fmap. exists y. done. }
      simpl in Hs. rewrite Hent in Hs. assert (entries (dlq w) !! entryId e = None) as Hne by (apply Hnew; left).
      split_and!; [apply Ha|apply Ha|done|done|etrans; [by apply insert_subseteq|done]|]. intros Ho y ev [->|Hy]%elem_of_cons; [|by apply Hwait].
      exists (entryId e), e. split; [|done]. eapply lookup_weaken; [|exact Hs]. apply lookup_insert_eq. }
  intros E (Hq & Hr & Hk) Hnd Hnew. destruct (Hgen _ _ _ _ E Hq Hnd Hnew) as ([Ha Ht] & Hw & Hok & Hs & Hwait). split_and!; [|done|done|done|done].
  split_and!; [done|intros m k; rewrite Ha, Ht, Hw; apply Hr|]. intros d Hd.
  destruct (Hk d Hd) as [Hp|]; [left; apply (paid_mono w); [by rewrite Ha|by rewrite Ht|done]|right; by eapply Hmono].
Qed.

(** What an event owes. *)
Definition owes (hooks : jsmap string WebhookConfig) (ev ts : string) (d : payload_data I) (eventId : option string) : list debt :=
  (λ h, (id h, eventId, new_payload ev ts d)) <$> subscribers ev hooks.

(** The ids drawn for entries are new, and distinct per subscriber. *)
Definition new_ids (hooks : jsmap string WebhookConfig) (turns : string → turn) (ev : string) w : Prop :=
  NoDup ((λ h, entry_uuid (turns (id h))) <$> subscribers ev hooks) ∧
  ∀ h, h ∈ subscribers ev hooks → entries (dlq w) !! entry_uuid (turns (id h)) = None.

Lemma subscriber_hook hooks ev h : hooks_ok hooks → h ∈ subscribers ev hooks → no_char ":" (id h).
Proof.
  intros [_ Hh] [_ [_ Hin]%list_elem_of_filter]%list_elem_of_filter. apply list_elem_of_fmap in Hin as ([i h'] & -> & Hin).
  destruct (Hh _ _ Hin) as [Hi Hc]. simpl. by rewrite Hi.
Qed.

Lemma emit_inv hooks turns ev ts d eventId w w' r owed : emit true hooks turns ev ts d eventId w = (w', r) →
  hooks_ok hooks → new_ids hooks turns ev w → inv w owed →
  inv w' (if isOk r then owed ++ owes hooks ev ts d eventId else owed) ∧ entries (dlq w) ⊆ entries (dlq w').
Proof.
  unfold emit, owes. intros E Hh [Hnd Hnew] Hi. assert (∀ h, h ∈ subscribers ev hooks → no_char ":" (id h)) as Hc by (intros; by eapply subscriber_hook).
  set (hs := subscribers ev hooks) in *. set (p := new_payload ev ts d) in *.
  assert (hs = [] ∧ w' = w ∧ r = Ok [] ∨ match deliver_all turns hs p eventId w with
      | (w1, Err m) => (w1, Err m)
      | (w1, Ok rss) => match push_all turns (filter (λ r, success r = false) (List.concat rss)) p w1 with
            | (w2, Ok _) => (w2, Ok rss) | (w2, Err m) => (w2, Err m) end
      end = (w', r)) as [(-> & -> & ->)|E'].
  { destruct hs; [left; by injection E as <- <-|by right]. }
  { simpl. by rewrite app_nil_r. }
  destruct (deliver_all turns hs p eventId w) as [w1 rs] eqn:Ed.
  destruct (deliver_all_spec _ _ _ _ _ _ _ owed Ed Hc Hi) as (Hi1 & Hq & _ & Hrs).
  destruct rs as [rss|m]; [|injection E' as <- <-; by rewrite Hq]. destruct (Hrs rss eq_refl) as [Hsub Hall]. clear Hrs E.
  destruct (push_all _ _ p w1) as [w2 o] eqn:Ep.
  destruct (push_all_spec _ _ _ _ _ _ owed Ep Hi1) as (Hi2 & [Ha Ht] & Hs & Hwait).
  - by eapply sublist_NoDup.
  - intros x Hx. rewrite Hq.
    assert (entry_uuid (turns (webhookId x)) ∈ (λ h, entry_uuid (turns (id h))) <$> hs) as (h & -> & Hin)%list_elem_of_fmap; [|by apply Hnew].
    eapply elem_of_sublist; [|exact Hsub]. apply list_elem_of_fmap. by exists x.
  - rewrite Hq in Hs. destruct o as [[]|m]; injection E' as <- <-; [|done]. simpl. destruct Hi2 as (? & ? & Hk).
    split; [|done]. split_and!; [done|done|].
    intros x [Hx|(h & -> & Hin)%list_elem_of_fmap]%elem_of_app; [by apply Hk|].
    destruct (Hall h Hin) as [Hp|(y & Hy & <-)]; [left; apply (paid_mono w1); [by rewrite Ha|by rewrite Ht|done]|right]. by apply Hwait.
Qed.

(** *** The system *)

Definition state : Type := jsmap string WebhookConfig * world * list debt.

Inductive step : state → state → Prop :=
| step_emit hooks turns ev ts d eventId w w' r owed : emit true hooks turns ev ts d eventId w = (w', r) → new_ids hooks turns ev w →
    step (hooks, w, owed) (hooks, w', if isOk r then owed ++ owes hooks ev ts d eventId else owed)
| step_run P hooks turns w owed : step (hooks, w, owed) (hooks, (run P hooks turns w).1, owed)
| step_replay_entry P hooks t i w owed : step (hooks, w, owed) (hooks, (replayEntry P hooks t i w).1, owed)
| step_replay_webhook hooks t i w owed : step (hooks, w, owed) (hooks, (replayWebhook hooks t i w).1, owed)
| step_hooks hooks hooks' w owed : hooks_ok hooks' → step (hooks, w, owed) (hooks', w, owed).

(** No entry is dropped, or changed but for its mark. *)
Definition retains w w' : Prop := ∀ i, is_Some (entries (dlq w) !! i) → content <$> entries (dlq w') !! i = content <$> entries (dlq w) !! i.

Lemma retains_trans w1 w2 w3 : retains w1 w2 → retains w2 w3 → retains w1 w3.
Proof.
  intros H1 H2 i Hi. pose proof (H1 i Hi) as H. rewrite <- H. apply H2. destruct Hi as [e He]. rewrite He in H.
  destruct (entries (dlq w2) !! i); [by eexists|done].
Qed.

Lemma step_inv s s' : step s s' → hooks_ok s.1.1 → inv s.1.2 s.2 → hooks_ok s'.1.1 ∧ inv s'.1.2 s'.2 ∧ retains s.1.2 s'.1.2.
Proof.
  intros Hs Hh Hi. destruct Hs as [hooks turns ev ts d eventId w w' r owed E Hnew|P hooks turns w owed|P hooks t i w owed|hooks t i w owed|hooks hooks' w owed Hh'];
    simpl in *.
  - destruct (emit_inv _ _ _ _ _ _ _ _ _ owed E Hh Hnew Hi) as [Hi' Hs]. split_and!; [done|done|]. intros i [e He].
    by rewrite He, (lookup_weaken _ _ _ _ He Hs).
  - destruct (run_inv P hooks turns w owed Hh Hi) as [Hi' [_ Hx]]. split_and!; [done|done|]. by intros i _.
  - destruct (replayEntry_inv P hooks t i w owed Hh Hi) as [Hi' [_ Hx]]. split_and!; [done|done|]. by intros j _.
  - destruct (replayWebhook_inv hooks t i w owed Hh Hi) as [Hi' [_ Hx]]. split_and!; [done|done|]. by intros j _.
  - split_and!; [done|done|]. by intros i _.
Qed.

Lemma steps_inv s s' : rtc step s s' → hooks_ok s.1.1 → inv s.1.2 s.2 → hooks_ok s'.1.1 ∧ inv s'.1.2 s'.2 ∧ retains s.1.2 s'.1.2.
Proof.
  induction 1 as [s|s1 s2 s3 Hs _ IH]; intros Hh Hi; [by split_and!; [..|intros i _]|].
  destruct (step_inv _ _ Hs Hh Hi) as (Hh2 & Hi2 & Hr). destruct (IH Hh2 Hi2) as (? & ? & ?). split_and!; [done|done|]. by eapply retains_trans.
Qed.

(** C30. Whatever subscribers and statements fail, those on the queue and on the
    reservations included, and however emissions, runs of the processor, replays
    by operators and changes of the webhooks follow each other, no event that
    [emit] accepted is lost to a subscriber that was active: every piece of it was
    acknowledged (or an event of its id was), or it waits in the queue unmarked.
    The one exception is an event of an id whose delivery to that subscriber threw
    before, and whose reservation stayed because the statement that makes or
    clears it failed. No entry of the queue is ever dropped, or changed but for
    its mark. *)
Theorem webhook_not_lost hooks q s : hooks_ok hooks → dlq_ok q →
  rtc step (hooks, {| dlq := q; wires := {| posted := []; reservations := ∅ |}; acks := []; stuck := ∅ |}, []) s →
  (∀ d, d ∈ s.2 → kept s.1.2 d) ∧ ∀ s', rtc step s s' → retains s.1.2 s'.1.2.
Proof.
  intros Hh Hq Hs. apply steps_inv in Hs as (Hh' & Hi & _); [|done|].
  - split; [apply Hi|]. intros s' Hs'. by apply (steps_inv _ _ Hs').
  - split_and!; [done|intros m k; simpl; by rewrite lookup_empty|set_solver].
Qed.

(** *** What a run does *)

Definition eligible (P : WebhookDlqProcessor) (turns : string → turn) e : bool :=
  isOk (classify P (now_judge (turns (entryId e))) e).

(** An acknowledgement that comes from an entry an active webhook is owed. *)
Definition from_entry (P : WebhookDlqProcessor) hooks (turns : string → turn) (a : debt) e : Prop :=
  ∃ p h, classify P (now_judge (turns (entryId e))) e = Ok p ∧ jm_get (entryWebhook e) hooks = Some h ∧ w_active h = true ∧
    dryRun P = false ∧ a = (entryWebhook e, None, p).

Definition counted (r : WebhookDlqProcessorResult) : Z :=
  replayedCount r + failedCount r + skippedCount r + orphanedCount r + invalidCount r.

Definition is_replayed (o : DlqEntryOutcome) : bool := match o with Replayed => true | _ => false end.

Lemma recordOutcome_counts o r : counted (recordOutcome o r) = counted r + 1 ∧ eligibleCount (recordOutcome o r) = eligibleCount r ∧
  scannedCount (recordOutcome o r) = scannedCount r ∧
  replayedCount (recordOutcome o r) = replayedCount r + Z.b2z (is_replayed o).
Proof. unfold counted. destruct o; simpl; lia. Qed.

(** One delivery from the queue: nothing changes but for an acknowledgement,
    and the mark when the outcome is a replay. *)
Lemma attempt_spec t e p h w w' o : attemptDelivery t e p h w = (w', o) → no_char ":" (id h) → dlq_ok (dlq w) → reserved_ok w →
  dlq_ok (dlq w') ∧ reserved_ok w' ∧
  (∃ l, acks w' = acks w ++ l ∧ (length l ≤ 1)%nat ∧ (∀ a, a ∈ l → a = (id h, None, p)) ∧ (is_replayed o = true → (id h, None, p) ∈ l)) ∧
  entries (dlq w') = (if is_replayed o then alter (set_replayed (now_write t)) (entryId e) (entries (dlq w)) else entries (dlq w)).
Proof.
  unfold attemptDelivery. intros E Hc Hq Hr. destruct (deliver t h p None w) as [w1 r] eqn:Ed.
  destruct (deliver_spec _ _ _ _ _ _ _ Ed Hc Hr) as (Hd & Hr' & _ & (l & Ha & Hl & Hall & Hack) & _ & _). rewrite <- Hd in Hq |- *.
  destruct r as [rs|m]; [|injection E as <- <-; split_and!; [done|done|by exists l|done]].
  destruct (succeeded rs) eqn:Es; cbn [negb] in E; [|injection E as <- <-; split_and!; [done|done|by exists l|done]].
  destruct (write_error t); [injection E as <- <-; split_and!; [done|done|by exists l|done]|]. injection E as <- <-.
  destruct (law_mark (dlq w1) (entryId e) (now_write t) Hq) as [Hq' He]. split_and!; [done|done| |done].
  exists l. split_and!; [done|done|done|]. intros _. apply Hack; [|done]. simpl. by destruct rs.
Qed.

(** One entry of the loop. *)
Lemma entry_spec P hooks turns w r w' r' e : process_entry P hooks turns (w, r) e = (w', r') → hooks_ok hooks →
  dlq_ok (dlq w) → reserved_ok w →
  dlq_ok (dlq w') ∧ reserved_ok w' ∧ scannedCount r' = scannedCount r ∧ counted r' = counted r + 1 ∧
  eligibleCount r' = (if eligible P turns e && (eligibleCount r <? batchSize P) then eligibleCount r + 1 else eligibleCount r) ∧
  ∃ l (mark : bool), acks w' = acks w ++ l ∧ Z.of_nat (length l) ≤ eligibleCount r' - eligibleCount r ∧
    (∀ a, a ∈ l → from_entry P hooks turns a e) ∧
    (mark = true → eligible P turns e = true ∧ l ≠ []) ∧ replayedCount r' = replayedCount r + Z.b2z mark ∧
    entries (dlq w') = (if mark then alter (set_replayed (now_write (turns (entryId e)))) (entryId e) (entries (dlq w)) else entries (dlq w)).
Proof.
  unfold process_entry, eligible. intros E Hh Hq Hr. destruct (classify _ _ e) as [p|o] eqn:Ec; cbn [isOk andb].
  2:{ injection E as <- <-. destruct (recordOutcome_counts o r) as (Hn & He & Hs & Hp).
      assert (is_replayed o = false) as Ho.
      { unfold classify in Ec. destruct (isSome _); [by injection Ec as <-|]. destruct (validateDlqEntry e); [|by injection Ec as <-].
        destruct (_ <? _); [by injection Ec as <-|]. destruct (_ <? _); [by injection Ec as <-|done]. }
      rewrite Ho in Hp. split_and!; [done..|]. exists [], false. rewrite app_nil_r. split_and!; try done; simpl in *; [lia|set_solver]. }
  destruct (Z.leb_spec (batchSize P) (eligibleCount r)).
  { injection E as <- <-. rewrite (proj2 (Z.ltb_ge _ _)) by done. unfold counted. simpl. split_and!; try done; [lia|].
    exists [], false. rewrite app_nil_r. split_and!; try done; simpl; [lia|set_solver|lia]. }
  rewrite (proj2 (Z.ltb_lt _ _)) by done.
  destruct (replayEntryInternal P hooks _ e p w) as [w1 o] eqn:Er. injection E as <- <-.
  destruct (recordOutcome_counts o (eligible_one r)) as (Hn & He & Hs & Hp). rewrite Hn, He, Hs, Hp. unfold counted. simpl.
  assert (dlq_ok (dlq w1) ∧ reserved_ok w1 ∧ ∃ l (mark : bool), acks w1 = acks w ++ l ∧ (length l ≤ 1)%nat ∧
    (∀ a, a ∈ l → from_entry P hooks turns a e) ∧ (mark = true → l ≠ []) ∧ is_replayed o = mark ∧
    entries (dlq w1) = (if mark then alter (set_replayed (now_write (turns (entryId e)))) (entryId e) (entries (dlq w)) else entries (dlq w)))
    as (Hq1 & Hr1 & l & mark & Ha & Hl & Hfrom & Hm & Ho & Hent); cycle 1.
  { split_and!; [done|done|done|lia|done|]. exists l, mark. split_and!; [done|lia|done|auto|by rewrite Ho|done]. }
  assert (∀ o', is_replayed o' = false → (w, o') = (w1, o) → dlq_ok (dlq w1) ∧ reserved_ok w1 ∧ ∃ l (mark : bool), acks w1 = acks w ++ l ∧ (length l ≤ 1)%nat ∧
    (∀ a, a ∈ l → from_entry P hooks turns a e) ∧ (mark = true → l ≠ []) ∧ is_replayed o = mark ∧
    entries (dlq w1) = (if mark then alter (set_replayed (now_write (turns (entryId e)))) (entryId e) (entries (dlq w)) else entries (dlq w))) as Hidle.
  { intros o' Ho' [= <- <-]. split_and!; [done|done|]. exists [], false. rewrite app_nil_r. split_and!; try done; [simpl; lia|set_solver]. }
  unfold replayEntryInternal in Er. destruct (lookup_error _); [by (eapply Hidle; [|exact Er])|].
  destruct (jm_get _ hooks) as [h|] eqn:Eh; [|by (eapply Hidle; [|exact Er])]. destruct (hook_found _ _ _ Hh Eh) as [Hid Hc].
  destruct (w_active h) eqn:Ew; cbn [negb] in Er; [|by (eapply Hidle; [|exact Er])]. destruct (dryRun P) eqn:Edry; [by (eapply Hidle; [|exact Er])|].
  destruct (attempt_spec _ _ _ _ _ _ _ Er Hc Hq Hr) as (? & ? & (l & Ha & Hl & Hall & Hack) & Hent). split_and!; [done|done|].
  exists l, (is_replayed o). split_and!; [done|done| | |done|done].
  - intros a ->%Hall. exists p, h. split_and!; try done. by rewrite Hid.
  - intros Ho. specialize (Hack Ho). by destruct l; [set_solver|].
Qed.

(** Marked now, and not when it was read. *)
Definition newly_marked w e : bool :=
  match entries (dlq w) !! entryId e with Some x => isSome (replayedAt x) | None => false end && negb (isSome (replayedAt e)).

(** The run so far, over a prefix [done_] of the entries [es] read. *)
Definition run_ok P hooks turns w (es done_ : list (DlqEntry I)) (x : world * WebhookDlqProcessorResult) : Prop :=
  let '(w', r) := x in
  dlq_ok (dlq w') ∧ reserved_ok w' ∧ scannedCount r = Z.of_nat (length es) ∧ counted r = Z.of_nat (length done_) ∧
  eligibleCount r = Z.min (batchSize P) (Z.of_nat (length (filter (λ e, eligible P turns e = true) done_))) ∧
  (∃ l, acks w' = acks w ++ l ∧ Z.of_nat (length l) ≤ eligibleCount r ∧
     (∀ a, a ∈ l → ∃ e, e ∈ done_ ∧ from_entry P hooks turns a e) ∧
     ∀ e, e ∈ es → entries (dlq w') !! entryId e = Some e ∨
       e ∈ done_ ∧ ∃ t a, entries (dlq w') !! entryId e = Some (set_replayed t e) ∧ a ∈ l ∧ from_entry P hooks turns a e) ∧
  replayedCount r = Z.of_nat (length (filter (λ e, newly_marked w' e = true) done_)).

Lemma list_ids (q : S) : dlq_ok q → NoDup (entryId <$> dlq_list q).
Proof.
  intros Hq. rewrite (law_list q Hq).
  assert (entryId <$> (map_to_list (entries q)).*2 = (map_to_list (entries q)).*1) as ->; [|apply NoDup_fst_map_to_list].
  rewrite <- list_fmap_compose. apply list_fmap_ext. intros k [i e] Hk%list_elem_of_lookup_2%elem_of_map_to_list. simpl.
  by apply (law_key q).
Qed.

Lemma list_read (q : S) e : dlq_ok q → e ∈ dlq_list q → entries q !! entryId e = Some e.
Proof.
  intros Hq. rewrite (law_list q Hq). intros ([i e'] & -> & Hin%elem_of_map_to_list)%list_elem_of_fmap. simpl.
  by rewrite (law_key q i e' Hq Hin).
Qed.

Lemma run_entry P hooks turns w es done_ e x : hooks_ok hooks → 1 ≤ batchSize P → e ∈ es → NoDup (entryId <$> es) → e ∉ done_ →
  (∀ y, y ∈ done_ → y ∈ es) → run_ok P hooks turns w es done_ x → run_ok P hooks turns w es (done_ ++ [e]) (process_entry P hooks turns x e).
Proof.
  intros Hh Hb He Hnd Hnew Hsub. destruct x as [w1 r1]. intros (Hq & Hr & Hs & Hc & Hel & (l & Ha & Hl & Hfrom & Hent) & Hp).
  destruct (process_entry P hooks turns (w1, r1) e) as [w2 r2] eqn:E.
  destruct (entry_spec _ _ _ _ _ _ _ _ E Hh Hq Hr) as (Hq2 & Hr2 & Hs2 & Hc2 & Hel2 & l2 & mark & Ha2 & Hl2 & Hfrom2 & Hm & Hp2 & He2).
  assert (∀ y, y ∈ es → entryId y = entryId e → y = e) as Hinj.
  { intros y Hy Hid. apply list_elem_of_lookup in Hy as [i Hi], He as [j Hj]. assert (i = j) as ->; [|congruence].
    eapply (NoDup_lookup _ _ _ (entryId e) Hnd); rewrite list_lookup_fmap, ?Hi, ?Hj; simpl; congruence. }
  assert (entries (dlq w1) !! entryId e = Some e) as Hread by (destruct (Hent e He) as [?|[? _]]; done).
  assert (∀ y, y ∈ es → y ≠ e → entries (dlq w2) !! entryId y = entries (dlq w1) !! entryId y) as Hother.
  { intros y Hy Hne. rewrite He2. destruct mark; [|done]. apply lookup_alter_ne. intros Hid. apply Hne. by apply Hinj. }
  unfold run_ok. rewrite filter_app, !length_app. rewrite Hc2, Hc. split_and!; [done|done|congruence|simpl; lia| | |].
  - rewrite filter_cons, filter_nil. rewrite Hel2, Hel. destruct (eligible P turns e) eqn:Ee; simpl; [|rewrite Nat.add_0_r; lia].
    destruct (Z.ltb_spec (batchSize P `min` Z.of_nat (length (filter (λ e, eligible P turns e = true) done_))) (batchSize P)); lia.
  - exists (l ++ l2). rewrite Ha2, Ha, app_assoc. split_and!; [done|rewrite length_app; lia| |].
    + intros a [Hin|Hin]%elem_of_app; [destruct (Hfrom a Hin) as (y & Hy & ?)|]; [exists y; set_solver|exists e; set_solver].
    + intros y Hy. destruct (decide (entryId y = entryId e)) as [Hid|Hid].
      * apply Hinj in Hid as ->; [|done]. rewrite He2. destruct mark; [right|by left].
        split; [set_solver|]. destruct (Hm eq_refl) as [_ Hne]. destruct l2 as [|a l2]; [done|].
        exists (now_write (turns (entryId e))), a. rewrite lookup_alter_eq, Hread. split_and!; [done|set_solver|apply Hfrom2; left].
      * rewrite Hother by (done || congruence). destruct (Hent y Hy) as [?|(? & t & a & ? & ? & ?)]; [by left|right].
        split; [set_solver|]. exists t, a. split_and!; [done|set_solver|done].
  - rewrite filter_app, length_app, Hp2, Hp, filter_cons, filter_nil.
    assert (filter (λ y, newly_marked w2 y = true) done_ = filter (λ y, newly_marked w1 y = true) done_) as ->.
    { apply list_filter_ext. intros y Hy. unfold newly_marked. rewrite Hother; [done|by apply Hsub|]. intros ->. done. }
    assert (newly_marked w2 e = mark) as ->; [|destruct mark; simpl; lia].
    unfold newly_marked. rewrite He2. destruct mark.
    + rewrite lookup_alter_eq, Hread. simpl. destruct (Hm eq_refl) as [Hel' _]. unfold eligible in Hel'.
      destruct (classify P _ e) as [p|] eqn:Ec; [|done]. apply classify_valid in Ec as [_ ->]. done.
    + rewrite Hread. by destruct (isSome (replayedAt e)).
Qed.

(** A run judges every entry of the queue once and counts every outcome;
    it replays the first entries of the batch size that may be, and no more; it
    sends only what an active webhook is owed by such an entry, and marks an
    entry only after its payload was acknowledged in the run; every entry is
    otherwise as it was, and exactly the replayed ones are newly marked. *)
Theorem dlq_run_exact P hooks turns w : hooks_ok hooks → dlq_ok (dlq w) → reserved_ok w → 1 ≤ batchSize P → running P = false →
  let es := dlq_list (dlq w) in
  let '(w', r) := run P hooks turns w in
  scannedCount r = Z.of_nat (length es) ∧
  replayedCount r + failedCount r + skippedCount r + orphanedCount r + invalidCount r = scannedCount r ∧
  eligibleCount r = Z.min (batchSize P) (Z.of_nat (length (filter (λ e, eligible P turns e = true) es))) ∧
  replayedCount r = Z.of_nat (length (filter (λ e, newly_marked w' e = true) es)) ∧
  ∃ l, acks w' = acks w ++ l ∧ Z.of_nat (length l) ≤ eligibleCount r ∧
    (∀ a, a ∈ l → ∃ e, e ∈ es ∧ from_entry P hooks turns a e) ∧
    ∀ e, e ∈ es → entries (dlq w') !! entryId e = Some e ∨
      ∃ t a, entries (dlq w') !! entryId e = Some (set_replayed t e) ∧ a ∈ l ∧ from_entry P hooks turns a e.
Proof.
  intros Hh Hq Hr Hb Hrun es. unfold run. rewrite Hrun. fold es. set (x0 := (w, scanned _ _)).
  assert (∀ done_, done_ `prefix_of` es → run_ok P hooks turns w es done_ (foldl (process_entry P hooks turns) x0 done_)) as Hall.
  { intros done_. induction done_ as [|e done_ IH] using rev_ind; intros [rest Hes].
    - unfold run_ok, x0. simpl. split_and!; try done; [lia|]. exists []. rewrite app_nil_r. split_and!; [done|simpl; lia|set_solver|].
      intros e He. left. by apply list_read.
    - rewrite foldl_snoc. pose proof (list_ids _ Hq) as Hnd. fold es in Hnd.
      apply run_entry; [done|done|rewrite Hes; set_solver|done| |rewrite Hes; set_solver|].
      + apply NoDup_fmap_1 in Hnd. rewrite Hes, <- app_assoc in Hnd. apply NoDup_app in Hnd as (_ & Hd & _). intros Hin. eapply Hd; [exact Hin|]. left.
      + apply IH. rewrite Hes, <- app_assoc. by eexists. }
  specialize (Hall es ltac:(done)). destruct (foldl _ _ _) as [w' r]. destruct Hall as (_ & _ & Hs & Hc & Hel & (l & Ha & Hl & Hf & He) & Hp).
  unfold counted in Hc. split_and!; [done|lia|done|done|]. exists l. split_and!; [done|done|done|].
  intros e Hin. destruct (He e Hin) as [?|[_ ?]]; auto.
Qed.
End Processor.
#[global] Arguments world : clear implicits.

(** ** The stores refine one specification *)

Section Refinement.
Context {I : Type}.

Inductive dlq_call := Push (e : DlqEntry I) | Mark (i : string) (t : Z).

(** The specification: entries by id, and no id pushed twice. *)
Definition spec_call (c : dlq_call) (q : gmap string (DlqEntry I)) : option (gmap string (DlqEntry I)) :=
  match c with
  | Push e => match q !! entryId e with Some _ => None | None => Some (<[entryId e := e]> q) end
  | Mark i t => Some (alter (set_replayed t) i q)
  end.

Fixpoint spec_calls (cs : list dlq_call) (q : gmap string (DlqEntry I)) : option (gmap string (DlqEntry I)) :=
  match cs with [] => Some q | c :: cs => spec_call c q ≫= spec_calls cs end.

Fixpoint store_calls {S} `{!DlqStore I S} (cs : list dlq_call) (s : S) : result string S :=
  match cs with
  | [] => Ok s
  | Push e :: cs => s' ← dlq_push e s; store_calls cs s'
  | Mark i t :: cs => store_calls cs (dlq_mark i t s)
  end.

(** A call that pushes no entry the columns of the table refuse. *)
Definition pushable (c : dlq_call) : Prop := match c with Push e => column_error e = None | Mark _ _ => True end.

Lemma calls_refine {S} `{!DlqStore I S, !DlqStoreLaws I S} cs : ∀ (s : S) q, dlq_ok s → Forall pushable cs → spec_calls cs (entries s) = Some q →
  ∃ s', store_calls cs s = Ok s' ∧ dlq_ok s' ∧ entries s' = q.
Proof.
  induction cs as [|[e|i t] cs IH]; intros s q Hs Hf; simpl; [intros [= <-]; by exists s| |]; apply Forall_cons in Hf as [Hc Hf].
  - destruct (entries s !! entryId e) eqn:E; [done|]. simpl. intros Hq. destruct (law_accepts s e Hs E Hc) as (s' & Hp).
    destruct (law_push s e s' Hs E Hp) as (Hs' & He). rewrite <- He in Hq. rewrite Hp. simpl. by apply IH.
  - destruct (law_mark s i t Hs) as [Hs' He]. rewrite <- He. by apply IH.
Qed.

(** C31. The memory and the PostgreSQL queue refine one specification: after any
    pushes of new ids, of entries that the columns of the table take (a payload, a
    time of failure and a number of attempts, identifiers and numbers within the
    limits of the columns), and any marks, both hold exactly the entries it says,
    answer every lookup with them, and list them all, the one in the order of the
    pushes, the other the latest failure first. An entry that the columns do not
    take, or of an id that is there, is refused by the PostgreSQL queue without
    effect. *)
Theorem dlq_stores_refine cs q (Hcs : Forall pushable cs) (Hq : spec_calls cs ∅ = Some q) :
  (∃ m : MemoryDlqStore I, store_calls cs ([] : MemoryDlqStore I) = Ok m ∧ (∀ i, dlq_get i m = q !! i) ∧
     dlq_list m ≡ₚ (map_to_list q).*2 ∧ entryId <$> dlq_list m = omap (λ c, match c with Push e => Some (entryId e) | Mark _ _ => None end) cs) ∧
  (∃ t : PostgresDlqStore I, store_calls cs ([] : PostgresDlqStore I) = Ok t ∧ (∀ i, dlq_get i t = q !! i) ∧
     dlq_list t ≡ₚ (map_to_list q).*2 ∧ Sorted later_failed (dlq_list t) ∧
     ∀ e, (∃ code, column_error e = Some code) ∨ is_Some (q !! entryId e) → ∃ code, dlq_push e t = Err code).
Proof.
  split.
  - destruct (calls_refine cs ([] : MemoryDlqStore I) q) as (m & Hm & Hok & <-); [by split; [apply NoDup_nil_2|set_solver]|done|done|].
    exists m. split_and!; [done|intros i; by apply law_get|by apply law_list|].
    assert (∀ cs (m0 m : MemoryDlqStore I) q, memory_ok m0 → spec_calls cs (memory_entries m0) = Some q → store_calls cs m0 = Ok m →
      jm_keys m = jm_keys m0 ++ omap (λ c, match c with Push e => Some (entryId e) | Mark _ _ => None end) cs) as Hkeys.
    { clear. induction cs as [|[e|i t] cs IH]; intros m0 m q Hok; simpl.
      - intros _ [= <-]. by rewrite app_nil_r.
      - destruct (memory_entries m0 !! entryId e) eqn:E; [done|]. rewrite memory_lookup in E by apply Hok. simpl. intros Hq Hm.
        destruct (memory_set_ok m0 (entryId e) e Hok eq_refl) as [Hok' Hent]. rewrite <- Hent in Hq.
        rewrite (IH _ _ _ Hok' Hq Hm), jm_keys_set, decide_False, <- app_assoc; [done|].
        intros ([k x] & Hk & Hx)%list_elem_of_fmap. apply jm_get_elem in Hx; [|apply Hok]. simpl in Hk. congruence.
      - intros Hq Hm. pose proof (law_mark (S := MemoryDlqStore I) m0 i t) as Hmark. destruct (Hmark Hok) as [Hok' Hent]. simpl in Hent, Hok'. rewrite <- Hent in Hq.
        rewrite (IH _ _ _ Hok' Hq Hm). f_equal. unfold memory_mark. destruct (jm_get i m0) as [x|] eqn:E; [|done].
        rewrite jm_keys_set, decide_True; [done|]. apply jm_get_elem in E; [|apply Hok]. by apply (list_elem_of_fmap_2 fst) in E. }
    simpl. unfold jm_values. rewrite <- (app_nil_l (omap _ cs)). change [] with (jm_keys ([] : MemoryDlqStore I)).
    rewrite <- (Hkeys cs [] m _) by (done || by split; [apply NoDup_nil_2|set_solver]).
    rewrite <- list_fmap_compose. apply list_fmap_ext. intros k [i e] Hk%list_elem_of_lookup_2. simpl. by eapply Hok in Hk.
  - destruct (calls_refine cs ([] : PostgresDlqStore I) q) as (t & Ht & Hok & <-); [by apply NoDup_nil_2|done|done|].
    exists t. split_and!; [done|intros i; by apply law_get|by apply law_list| |].
    + simpl. apply Sorted_merge_sort. intros a b. unfold later_failed. lia.
    + intros e He. simpl. unfold postgres_push. destruct (column_error e) as [code|]; [by exists code|].
      destruct He as [[code He]|[x Hx]]; [done|]. exists "23505"%string. apply postgres_lookup in Hx as [Hx Hid]; [|done].
      assert (existsb (λ r, bool_decide (entryId r = entryId e)) t = true) as ->; [|done].
      apply existsb_exists. exists x. split; [by apply list_elem_of_In|by apply bool_decide_eq_true].
Qed.
End Refinement.

(** ** Examples *)

Module DlqExample.
Definition text (p : WebhookPayload Z) : string := "x".
Definition mac (k t : string) : string := "sig".
Definition host (_ : string) : option string := Some "example.org".
Definition hook (i sec : string) : WebhookConfig :=
  {| Delivery.id := i; url := "https://example.org/"; events := ["bond.created"]%string; secret := sec; previousSecret := None;
     secretUpdatedAt := 0; w_active := true; secretRotatedAt := None; previousSecretExpiresAt := None |}.
Definition hooks : jsmap string WebhookConfig := [("w1", hook "w1" "s"); ("w2", hook "w2" "s")]%string.
Definition turns (now : Z) (i : string) : turn :=
  {| now_judge := now; now_deliver := now; now_write := now; chunk_uuid := "c"; entry_uuid := "u-" +:+ i;
     lookup_error := None; write_error := None; faults := no_faults |}.
Definition down : transmission := Threw "HTTP 503" (Some 503) None false 4.
(** The first transmission fails. *)
Definition net (n : nat) : transmission := if Nat.eqb n 0 then down else Responded 200 1.
Definition never (n : nat) : transmission := down.
Definition emit_with (n : nat → transmission) (hooks : jsmap string WebhookConfig) (now : Z) (i : option string)
    (w : world Z (MemoryDlqStore Z)) :=
  emit text slen mac (λ s, s) host 1000 n true hooks (turns now) "bond.created" "t" (Object 7) i w.
Definition run_with (n : nat → transmission) (P : WebhookDlqProcessor) (hooks : jsmap string WebhookConfig) (now : Z)
    (w : world Z (MemoryDlqStore Z)) :=
  run text slen mac (λ s, s) host (λ _, true) 1000 n P hooks (turns now) w.
Definition P : WebhookDlqProcessor := new_processor None None None None.
Definition w0 : world Z (MemoryDlqStore Z) := {| dlq := []; wires := {| posted := []; reservations := ∅ |}; acks := []; stuck := ∅ |}.
Definition w1 := (emit_with net hooks 0 (Some "e1"%string) w0).1.
Definition w2 := (run_with net P hooks 100000 w1).1.

Definition failed (i : string) (at_ : Z) : DlqEntry Z := buildDlqEntry i at_
  {| webhookId := "w1"; success := false; skipped := false; statusCode := Some 503; error := Some "HTTP 503"; attempts := 4; errorCode := None |}
  (new_payload "bond.created" "t" (Object 7)).

Lemma hooks_fine : hooks_ok hooks.
Proof.
  split; [vm_compute; apply NoDup_cons; split; [set_solver|apply NoDup_singleton]|].
  intros i h [[= -> ->]|[[= -> ->]|Hin]%elem_of_cons]%elem_of_cons; [done|done|set_solver].
Qed.

Lemma ids_new : new_ids hooks (turns 0) "bond.created" w0.
Proof.
  split; [vm_compute; apply NoDup_cons; split; [set_solver|apply NoDup_singleton]|]. intros h _. done.
Qed.
End DlqExample.

Lemma webhook_not_lost_witness :
  let owed := owes DlqExample.hooks "bond.created" "t" (Object 7) (Some "e1"%string) in
  length owed = 2%nat ∧ (∀ d, d ∈ owed → kept DlqExample.w1 d) ∧ (∀ d, d ∈ owed → kept DlqExample.w2 d) ∧
  retains DlqExample.w1 DlqExample.w2.
Proof.
  set (s0 := (DlqExample.hooks, DlqExample.w0, [] : list (debt (I := Z)))).
  set (owed := owes DlqExample.hooks "bond.created" "t" (Object 7) (Some "e1"%string)).
  set (s1 := (DlqExample.hooks, DlqExample.w1, owed)). set (s2 := (DlqExample.hooks, DlqExample.w2, owed)).
  set (st := step (S := MemoryDlqStore Z) DlqExample.text slen DlqExample.mac (λ s, s) DlqExample.host (λ _, true) 1000 DlqExample.net).
  assert (Hs1 : st s0 s1).
  { exact (step_emit _ _ _ _ _ _ _ _ DlqExample.hooks (DlqExample.turns 0) "bond.created" "t" (Object 7) (Some "e1"%string) DlqExample.w0 DlqExample.w1
      (DlqExample.emit_with DlqExample.net DlqExample.hooks 0 (Some "e1"%string) DlqExample.w0).2 []
      (surjective_pairing _) DlqExample.ids_new). }
  assert (Hs2 : st s1 s2).
  { exact (step_run _ _ _ _ _ _ _ _ DlqExample.P DlqExample.hooks (DlqExample.turns 100000) DlqExample.w1 owed). }
  assert (Hq : dlq_ok ([] : MemoryDlqStore Z)) by (split; [apply NoDup_nil_2|set_solver]).
  destruct (webhook_not_lost DlqExample.text slen DlqExample.mac (λ s, s) DlqExample.host (λ _, true) 1000 DlqExample.net
    DlqExample.hooks [] s1 DlqExample.hooks_fine Hq (rtc_once _ _ Hs1)) as [H1 Hr].
  destruct (webhook_not_lost DlqExample.text slen DlqExample.mac (λ s, s) DlqExample.host (λ _, true) 1000 DlqExample.net
    DlqExample.hooks [] s2 DlqExample.hooks_fine Hq (rtc_l _ _ _ _ Hs1 (rtc_once _ _ Hs2))) as [H2 _].
  split; [vm_compute; reflexivity|]. split; [exact H1|]. split; [exact H2|]. exact (Hr s2 (rtc_once _ _ Hs2)).
Defined.

Lemma dlq_run_exact_witness :
  let '(w', r) := DlqExample.run_with DlqExample.net DlqExample.P DlqExample.hooks 100000 DlqExample.w1 in
  replayedCount r = 1 ∧ replayedCount r + failedCount r + skippedCount r + orphanedCount r + invalidCount r = scannedCount r.
Proof.
  assert (Hq : dlq_ok (dlq DlqExample.w1)).
  { split; [vm_compute; apply NoDup_singleton|]. intros k e. vm_compute. intros [[= -> ->]|Hin]%elem_of_cons; [done|set_solver]. }
  assert (Hr : reserved_ok DlqExample.w1).
  { intros m k Hm. right. exists "w2"%string, "e1"%string, (new_payload "bond.created" "t" (Object 7)). split; [vm_compute; left|].
    change (({["w2:e1" := "webhook-delivery:w2:e1"]} : gmap string string) !! m = Some k) in Hm.
    apply lookup_singleton_Some in Hm as [<- _]. done. }
  pose proof (dlq_run_exact DlqExample.text slen DlqExample.mac (λ s, s) DlqExample.host (λ _, true) 1000 DlqExample.net
    DlqExample.P DlqExample.hooks (DlqExample.turns 100000) DlqExample.w1 DlqExample.hooks_fine Hq Hr ltac:(done) eq_refl) as H.
  unfold DlqExample.run_with.
  destruct (run _ _ _ _ _ _ _ _ _ _ _ DlqExample.w1) as [w' r] eqn:E. destruct H as (_ & H & _). split; [|exact H].
  vm_compute in E. injection E as _ <-. reflexivity.
Defined.

Lemma dlq_stores_refine_witness :
  let e i z : DlqEntry Z := DlqExample.failed i z in
  let cs := [Push (e "a"%string 1); Push (e "b"%string 2); Mark "a" 9] in
  Forall (pushable (I := Z)) cs ∧ ∃ q, spec_calls cs ∅ = Some q ∧
  (∃ m : MemoryDlqStore Z, store_calls cs ([] : MemoryDlqStore Z) = Ok m ∧ (∀ i, dlq_get i m = q !! i) ∧ entryId <$> dlq_list m = ["a"; "b"]%string) ∧
  (∃ t : PostgresDlqStore Z, store_calls cs ([] : PostgresDlqStore Z) = Ok t ∧ (∀ i, dlq_get i t = q !! i) ∧ entryId <$> dlq_list t = ["b"; "a"]%string).
Proof.
  intros e cs. assert (Hf : Forall (pushable (I := Z)) cs) by (by repeat constructor). split; [exact Hf|].
  exists (default ∅ (spec_calls cs ∅)). assert (Hq : spec_calls cs ∅ = Some (default ∅ (spec_calls cs ∅))) by (vm_compute; reflexivity).
  split; [exact Hq|]. destruct (dlq_stores_refine cs (default ∅ (spec_calls cs ∅)) Hf Hq) as [(m & H1 & H2 & _ & H3) (t & T1 & T2 & _)].
  split; [exists m; split; [exact H1|]; split; [exact H2|exact H3]|]. exists t. split; [exact T1|]. split; [exact T2|].
  vm_compute in T1. injection T1 as <-. vm_compute. reflexivity.
Defined.

(** ** What goes wrong *)

Section Defects.
Import DlqExample.

(** The attempts of an entry never grow, so an entry whose webhook keeps
    failing is sent at every run, without bound. *)
Definition dead (i : string) (z : Z) : DlqEntry Z := buildDlqEntry i 0
  {| webhookId := "w1"; success := false; skipped := false; statusCode := None; error := None; attempts := 4; errorCode := None |}
  (new_payload "bond.created" "t" (Object z)).
Definition queue (l : list (WebhookPayload Z * string)) : world Z (MemoryDlqStore Z) :=
  {| dlq := [("a", dead "a" 1); ("b", dead "b" 2)]%string; wires := {| posted := l; reservations := ∅ |}; acks := []; stuck := ∅ |}.

(** With a batch of one, the entry behind it is never tried. *)
Lemma failing_entry_starves n :
  Nat.iter n (λ w, (run_with never (new_processor (Some 1) None None None) hooks 100000 w).1) (queue []) =
  queue (replicate n (new_payload "bond.created" "t" (Object 1), "sig"%string)).
Proof.
  assert (∀ l, (run_with never (new_processor (Some 1) None None None) hooks 100000 (queue l)).1 =
    queue (l ++ [(new_payload "bond.created" "t" (Object 1), "sig"%string)])) as Hrun by reflexivity.
  induction n as [|n IH]; [done|]. rewrite Nat.iter_succ, IH, Hrun. f_equal. by rewrite <- replicate_cons_app.
Qed.

(** An event is lost to a subscriber that failed when the delivery to another
    one throws. *)
Lemma emit_error_loses_failures :
  let '(w, r) := emit_with never [("w1", hook "w1" "s"); ("w2", hook "w2" "")]%string 0 None w0 in
  isOk r = false ∧ dlq w = [] ∧ acks w = [] ∧ length (posted (wires w)) = 1%nat.
Proof. vm_compute. auto. Qed.

(** A reservation that could not be cleared swallows the event when it is
    emitted again. *)
Lemma reservation_left_behind :
  let gone := Some ("connection lost", false)%string in
  let ts i := {| now_judge := 0; now_deliver := 0; now_write := 0; chunk_uuid := "c"; entry_uuid := "u-" +:+ i; lookup_error := None; write_error := None;
    faults := {| reserve_fault := None; clear_fault := gone; clear_again_fault := gone |} |} in
  let h1 := [("w1", hook "w1" "s")]%string in
  let '(w, r) := emit text slen mac (λ s, s) host 1000 never true h1 ts "bond.created" "t" (Object 7) (Some "e1"%string) w0 in
  let '(w', r') := emit_with net h1 0 (Some "e1"%string) w in
  isOk r = false ∧ isOk r' = true ∧ dlq w' = [] ∧ acks w' = [] ∧ stuck w' = {[marker "w1" "e1"]}.
Proof. vm_compute. auto. Qed.

(** Reservations of ids with colons collide in memory. *)
Lemma reservations_collide : marker "a:b" "c" = marker "a" "b:c".
Proof. reflexivity. Qed.

(** Deliveries asked for one after the other are spaced. *)
Lemma spaced_deliveries i now now' last : let '(s1, m1) := deliverWithRateLimit i now last in
  s1 ≤ now' → s1 + DELIVERY_SPACING_MS ≤ (deliverWithRateLimit i now' m1).1.
Proof.
  unfold deliverWithRateLimit, DELIVERY_SPACING_MS. intros Hs. rewrite lookup_insert_eq. simpl.
  destruct (Z.ltb_spec (now' - (if now - default 0 (last !! i) <? 100 then now + (100 - (now - default 0 (last !! i))) else now)) 100); lia.
Qed.

End Defects.
