(* ===== verification/Notifications.v ===== *)
(** * Notifications

    [jobs/notificationIdempotency.ts] as module [Jobs] (the claims of jobs, and
    workers that race for them), [services/notifications/health.ts] as module
    [Health], and the delivery of an e-mail with failover, retries and dead
    letters of [services/notifications/delivery.ts] over the attempts of
    [services/notifications/repository.ts]. What providers answer, the clock
    and the ids drawn are parameters; delays, metrics and log texts are left
    out. *)

From stdpp Require Import base option list gmap strings sorting.
From Stdlib Require Import ZArith Lia Ascii.
From S2P Require Import Prelude JsLib.

Open Scope Z_scope.

(** ** Claims of jobs *)

Module Jobs.

Definition DEFAULT_EXPIRY_SECONDS : Z := 24 * 60 * 60.
Definition DEFAULT_CLAIM_TIMEOUT_SECONDS : Z := 15 * 60.
Definition NOTIFICATION_DELIVERY_JOB_TYPE : string := "notification_delivery".

Definition buildNotificationDeliveryJobKey (notification : string) : string :=
  NOTIFICATION_DELIVERY_JOB_TYPE +:+ ":" +:+ notification.

Inductive JobStatus := Pending | Completed | Failed.
#[export] Instance job_status_eq_dec : EqDecision JobStatus.
Proof. solve_decision. Defined.

Section Jobs.
(** The results of a job, as they are stored and read back. *)
Context {R : Type}.

Inductive stored := Value (r : R) | Text (error : string).

Record IdempotentJobAttempt := {
  job_id : string;
  jobKey : string;
  jobType : string;
  job_status : JobStatus;
  job_result : option stored;
  attemptedAt : Z;
  completedAt : option Z;
  expiresAt : Z
}.

(** The rows of idempotent_job_attempts by their unique key; times are in
    seconds. *)
Abbreviation table := (gmap string IdempotentJobAttempt).

Record CreateIdempotentJobInput := { in_key : string; in_type : string; expiresInSeconds : Z; claimTimeoutSeconds : Z }.

(** The [WHERE] clause of the conflict. *)
Definition reclaimable (now timeout : Z) (r : IdempotentJobAttempt) : bool :=
  bool_decide (job_status r = Failed) || (expiresAt r <=? now) ||
  (bool_decide (job_status r = Pending) && (attemptedAt r <=? now - timeout)).

Definition claimAttempt (now : Z) (uuid : string) (i : CreateIdempotentJobInput) (t : table) : table * option IdempotentJobAttempt :=
  let fresh := {| job_id := uuid; jobKey := in_key i; jobType := in_type i; job_status := Pending; job_result := None;
                  attemptedAt := now; completedAt := None; expiresAt := now + expiresInSeconds i |} in
  match t !! in_key i with
  | Some r => if reclaimable now (claimTimeoutSeconds i) r then (<[in_key i := fresh]> t, Some fresh) else (t, None)
  | None => (<[in_key i := fresh]> t, Some fresh)
  end.

Definition findAttempt (now : Z) (k : string) (t : table) : option IdempotentJobAttempt :=
  match t !! k with Some r => if now <? expiresAt r then Some r else None | None => None end.

(** [UPDATE ... WHERE id = ...]. *)
Definition mark (s : JobStatus) (now : Z) (attempt : string) (x : stored) (t : table) : table :=
  (λ r, if bool_decide (job_id r = attempt)
        then {| job_id := job_id r; jobKey := jobKey r; jobType := jobType r; job_status := s; job_result := Some x;
                attemptedAt := attemptedAt r; completedAt := Some now; expiresAt := expiresAt r |}
        else r) <$> t.

Definition markCompleted (now : Z) (attempt : string) (r : R) (t : table) : table := mark Completed now attempt (Value r) t.
Definition markFailed (now : Z) (attempt : string) (e : string) (t : table) : table := mark Failed now attempt (Text e) t.

Definition parseStoredResult (x : option stored) : option R := match x with Some (Value r) => Some r | _ => None end.

Inductive job_error := DuplicateJobExecution (key : string) | JobError (message : string).

(** The instants of the statements of one execution and the ids it draws. *)
Record moments := { t_claim : Z; t_find : Z; t_again : Z; t_find_again : Z; t_end : Z; uuid1 : string; uuid2 : string }.

Record IdempotentJobResult := { alreadyProcessed : bool; result_of : option R }.

(** [execute], alone on the table; [run] is the job, on a state [W] of its own. *)
Definition execute {W} (m : moments) (i : CreateIdempotentJobInput) (run : W → W * result string R) (w : W) (t : table)
  : W * table * result job_error IdempotentJobResult :=
  let running w t (a : IdempotentJobAttempt) :=
    match run w with
    | (w', Ok r) => (w', markCompleted (t_end m) (job_id a) r t, Ok {| alreadyProcessed := false; result_of := Some r |})
    | (w', Err e) => (w', markFailed (t_end m) (job_id a) e t, Err (JobError e))
    end in
  match claimAttempt (t_claim m) (uuid1 m) i t with
  | (t1, Some a) => running w t1 a
  | (t1, None) =>
      match findAttempt (t_find m) (in_key i) t1 with
      | Some {| job_status := Completed; job_result := x |} => (w, t1, Ok {| alreadyProcessed := true; result_of := parseStoredResult x |})
      | Some {| job_status := Pending |} => (w, t1, Err (DuplicateJobExecution (in_key i)))
      | _ =>
          match claimAttempt (t_again m) (uuid2 m) i t1 with
          | (t2, Some a) => running w t2 a
          | (t2, None) =>
              match findAttempt (t_find_again m) (in_key i) t2 with
              | Some {| job_status := Completed; job_result := x |} => (w, t2, Ok {| alreadyProcessed := true; result_of := parseStoredResult x |})
              | _ => (w, t2, Err (DuplicateJobExecution (in_key i)))
              end
          end
      end
  end.

(** *** Workers *)

(** The clock, the table, the claims whose jobs run (their ids and keys, and the
    times of the claims), and the jobs that completed before their claims timed
    out, with those times and their results. *)
Record pool := {
  now : Z;
  rows : table;
  running : list (string * string * Z);
  completed : list (string * Z * R)
}.

Section Workers.
Variables (expiry timeout : Z).

Definition input (k : string) : CreateIdempotentJobInput :=
  {| in_key := k; in_type := NOTIFICATION_DELIVERY_JOB_TYPE; expiresInSeconds := expiry; claimTimeoutSeconds := timeout |}.

(** One statement of some worker, in any order, or time that passes: a claim
    under a new id, the end of a job, in time or long after its claim timed
    out, or the death of a worker. *)
Inductive wstep (p : pool) : pool → Prop :=
| w_tick t : now p ≤ t → wstep p {| now := t; rows := rows p; running := running p; completed := completed p |}
| w_claim uuid k t' a : claimAttempt (now p) uuid (input k) (rows p) = (t', Some a) →
    (∀ k' r, rows p !! k' = Some r → job_id r ≠ uuid) → (∀ k' z, (uuid, k', z) ∉ running p) →
    wstep p {| now := now p; rows := t'; running := (uuid, k, now p) :: running p; completed := completed p |}
| w_complete i k z r l1 l2 : running p = l1 ++ (i, k, z) :: l2 →
    wstep p {| now := now p; rows := markCompleted (now p) i r (rows p); running := l1 ++ l2;
               completed := if now p <? z + timeout then (k, z, r) :: completed p else completed p |}
| w_fail i k z e l1 l2 : running p = l1 ++ (i, k, z) :: l2 →
    wstep p {| now := now p; rows := markFailed (now p) i e (rows p); running := l1 ++ l2; completed := completed p |}
| w_crash x l1 l2 : running p = l1 ++ x :: l2 →
    wstep p {| now := now p; rows := rows p; running := l1 ++ l2; completed := completed p |}.

Record pool_ok (p : pool) : Prop := {
  ok_own i k z k' r : (i, k, z) ∈ running p → rows p !! k' = Some r → job_id r = i →
    k' = k ∧ job_status r = Pending ∧ attemptedAt r = z ∧ expiresAt r = z + expiry;
  ok_leased i k z : (i, k, z) ∈ running p → now p < z + timeout → ∃ r, rows p !! k = Some r ∧ job_id r = i;
  ok_ids : NoDup ((λ x, x.1.1) <$> running p);
  ok_unique k1 k2 r1 r2 : rows p !! k1 = Some r1 → rows p !! k2 = Some r2 → job_id r1 = job_id r2 → k1 = k2;
  ok_completed k z r : (k, z, r) ∈ completed p → now p < z + expiry →
    ∃ a, rows p !! k = Some a ∧ job_status a = Completed ∧ job_result a = Some (Value r) ∧ expiresAt a = z + expiry
}.

Lemma mark_lookup s n i x (t : table) k r : mark s n i x t !! k = Some r ↔
  ∃ r0, t !! k = Some r0 ∧ (job_id r0 ≠ i ∧ r = r0 ∨ job_id r0 = i ∧ job_id r = i ∧ job_status r = s ∧ job_result r = Some x ∧
    r = {| job_id := job_id r0; jobKey := jobKey r0; jobType := jobType r0; job_status := s; job_result := Some x;
           attemptedAt := attemptedAt r0; completedAt := Some n; expiresAt := expiresAt r0 |}).
Proof.
  unfold mark. rewrite lookup_fmap, fmap_Some. split.
  - intros (r0 & H0 & ->). exists r0. split; [done|]. case_bool_decide; [right|left]; auto.
  - intros (r0 & H0 & [[Hi ->]|(Hi & _ & _ & _ & ->)]); exists r0; (split; [done|]).
    + by rewrite bool_decide_eq_false_2.
    + by rewrite bool_decide_eq_true_2.
Qed.

(** The end of a job, whatever it writes: its own row or none. *)
Lemma mark_ok s n i k z x p l1 l2 : pool_ok p → running p = l1 ++ (i, k, z) :: l2 →
  pool_ok {| now := now p; rows := mark s n i x (rows p); running := l1 ++ l2; completed := completed p |} ∧
  (now p < z + timeout → ∃ a, mark s n i x (rows p) !! k = Some a ∧ job_status a = s ∧ job_result a = Some x ∧ expiresAt a = z + expiry).
Proof.
  intros [Hown Hleased Hids Huniq Hcomp] E.
  assert (∀ y, y ∈ l1 ++ l2 → y ∈ running p) as Hsub by (rewrite E; set_solver).
  assert (∀ i' k' z', (i', k', z') ∈ l1 ++ l2 → i' ≠ i) as Hne.
  { rewrite E, fmap_app, fmap_cons in Hids. simpl in Hids. rewrite <- Permutation_middle in Hids. apply NoDup_cons in Hids as [Hn _].
    intros i' k' z' Hin ->. apply Hn. rewrite <- fmap_app. apply (list_elem_of_fmap_2 (λ x, x.1.1)) in Hin. done. }
  assert ((i, k, z) ∈ running p) as Hme by (rewrite E; set_solver).
  split; [split; simpl|].
  - intros i' k' z' k2 r Hin (r0 & H0 & [[_ ->]|(Hi & Hi' & _)])%mark_lookup Hid; [apply (Hown i' k' z'); [by apply Hsub|done|done]|]. exfalso. eapply Hne; [exact Hin|congruence].
  - intros i' k' z' Hin Hlt. destruct (Hleased i' k' z' (Hsub _ Hin) Hlt) as (r & Hr & Hid). exists r. split; [|done].
    apply mark_lookup. exists r. split; [done|]. left. split; [|done]. rewrite Hid. by eapply Hne.
  - rewrite E in Hids. eapply sublist_NoDup; [exact Hids|]. apply fmap_sublist. apply sublist_app; [done|]. by apply sublist_cons.
  - intros k1 k2 r1 r2 (a1 & H1 & Hr1)%mark_lookup (a2 & H2 & Hr2)%mark_lookup Hid. eapply Huniq; [exact H1|exact H2|].
    destruct Hr1 as [[? ->]|(? & ? & _)], Hr2 as [[? ->]|(? & ? & _)]; congruence.
  - intros k' z' r' Hin Hlt. destruct (Hcomp k' z' r' Hin Hlt) as (a & Ha & Hs & Hr & He). exists a. split; [|done].
    apply mark_lookup. exists a. split; [done|]. left. split; [|done]. intros Hid.
    destruct (Hown i k z k' a Hme Ha Hid) as (_ & Hp & _). congruence.
  - intros Hlt. destruct (Hleased i k z Hme Hlt) as (a & Ha & Hid). destruct (Hown i k z k a Hme Ha Hid) as (_ & _ & _ & He).
    exists {| job_id := job_id a; jobKey := jobKey a; jobType := jobType a; job_status := s; job_result := Some x;
              attemptedAt := attemptedAt a; completedAt := Some n; expiresAt := expiresAt a |}.
    split; [|done]. apply mark_lookup. exists a. split; [done|right; by split_and!].
Qed.

Hypothesis timeout_pos : 0 < timeout ≤ expiry.

Lemma claim_ok p uuid k t' a : pool_ok p → claimAttempt (now p) uuid (input k) (rows p) = (t', Some a) →
  (∀ k' r, rows p !! k' = Some r → job_id r ≠ uuid) → (∀ k' z, (uuid, k', z) ∉ running p) →
  pool_ok {| now := now p; rows := t'; running := (uuid, k, now p) :: running p; completed := completed p |}.
Proof.
  intros [Hown Hleased Hids Huniq Hcomp] E Hnew Hfresh.
  set (fresh := {| job_id := uuid; jobKey := k; jobType := NOTIFICATION_DELIVERY_JOB_TYPE; job_status := Pending; job_result := None;
                  attemptedAt := now p; completedAt := None; expiresAt := now p + expiry |}).
  assert (t' = <[k := fresh]> (rows p) ∧ ∀ r, rows p !! k = Some r → reclaimable (now p) timeout r = true) as [-> Hrec].
  { unfold claimAttempt in E. simpl in E. destruct (rows p !! k) as [r|] eqn:Er; [|injection E as <- _; split; [done|intros ? [=]]].
    destruct (reclaimable (now p) timeout r) eqn:Hr; [|done]. injection E as <- _. split; [done|]. by intros r' [= <-]. }
  split; simpl.
  - intros i k0 z k' r [Hin|Hin]%elem_of_cons.
    + injection Hin as -> -> ->. intros [[<- <-]|[_ Hr]]%lookup_insert_Some Hid; [done|]. by destruct (Hnew _ _ Hr).
    + intros [[<- <-]|[_ Hr]]%lookup_insert_Some Hid; [simpl in Hid; subst i; by destruct (Hfresh k0 z)|by eapply Hown].
  - intros i k0 z [Hin|Hin]%elem_of_cons Hlt; [injection Hin as -> -> ->; exists fresh; by rewrite lookup_insert_eq|].
    destruct (Hleased i k0 z Hin Hlt) as (r & Hr & Hid). exists r. split; [|done]. rewrite lookup_insert_ne; [done|]. intros <-.
    destruct (Hown i k z k r Hin Hr Hid) as (_ & Hs & Ha & He). specialize (Hrec r Hr). unfold reclaimable in Hrec.
    rewrite Hs, Ha, He in Hrec. rewrite (bool_decide_eq_false_2 (Pending = Failed)), (bool_decide_eq_true_2 (Pending = Pending)) in Hrec by done.
    simpl in Hrec. apply orb_true_iff in Hrec as [H%Z.leb_le|H%Z.leb_le]; lia.
  - apply NoDup_cons. split; [|done]. intros ([[i k0] z] & Hi & Hin)%list_elem_of_fmap. simpl in Hi. subst i. by destruct (Hfresh k0 z).
  - intros k1 k2 r1 r2 [[<- <-]|[_ H1]]%lookup_insert_Some [[<- <-]|[_ H2]]%lookup_insert_Some Hid; [done| | |by eapply Huniq].
    + by destruct (Hnew _ _ H2).
    + by destruct (Hnew _ _ H1).
  - intros k0 z r Hin Hlt. destruct (Hcomp k0 z r Hin Hlt) as (b & Hb & Hs & Hr & He). exists b. split; [|done].
    rewrite lookup_insert_ne; [done|]. intros <-. specialize (Hrec b Hb). unfold reclaimable in Hrec. rewrite Hs, He in Hrec.
    rewrite (bool_decide_eq_false_2 (Completed = Failed)), (bool_decide_eq_false_2 (Completed = Pending)) in Hrec by done.
    simpl in Hrec. rewrite orb_false_r in Hrec. apply Z.leb_le in Hrec. lia.
Qed.

Lemma worker_step_ok p p' : wstep p p' → pool_ok p → pool_ok p'.
Proof.
  intros Hs Hok. destruct Hs as [t Ht|uuid k t' a E Hnew Hfresh|i k z r l1 l2 E|i k z e l1 l2 E|x l1 l2 E].
  - destruct Hok as [Hown Hleased Hids Huniq Hcomp]. split; simpl; [done| |done|done|].
    + intros i k z Hin Hlt. apply (Hleased i k z Hin). lia.
    + intros k z r Hin Hlt. apply (Hcomp k z r Hin). lia.
  - by eapply claim_ok.
  - destruct (mark_ok Completed (now p) i k z (Value r) p l1 l2 Hok E) as [[Hown Hleased Hids Huniq Hcomp] Hme].
    split; simpl in *; [done..|]. intros k' z' r' Hin Hlt. destruct (Z.ltb_spec (now p) (z + timeout)); [|by apply (Hcomp k' z' r')].
    apply elem_of_cons in Hin as [[= -> -> ->]|Hin]; [|by apply (Hcomp k' z' r')].
    destruct (Hme ltac:(lia)) as (a & ? & ? & ? & ?). by exists a.
  - by apply (mark_ok Failed (now p) i k z (Text e) p l1 l2 Hok E).
  - destruct x as [[i k] z]. destruct Hok as [Hown Hleased Hids Huniq Hcomp].
    assert (∀ y, y ∈ l1 ++ l2 → y ∈ running p) as Hsub by (rewrite E; set_solver). split; simpl; [|intros i' k' z' Hin; by apply Hleased, Hsub| |done|done].
    + intros i' k' z' k2 r Hin. by apply Hown, Hsub.
    + rewrite E in Hids. eapply sublist_NoDup; [exact Hids|]. apply fmap_sublist. apply sublist_app; [done|]. by apply sublist_cons.
Qed.

Definition idle (t : Z) : pool := {| now := t; rows := ∅; running := []; completed := [] |}.

(** However workers race for jobs, die, and come back to write the end of a
    job long after their claim was taken over: no two jobs of one key run at a
    time within their claims; and once a job completed within its claim, no
    worker can claim its key again until it expires, and whoever asks is given
    its result. *)
Theorem job_claims_exclusive t p : rtc wstep (idle t) p →
  (∀ i1 i2 k z1 z2, (i1, k, z1) ∈ running p → (i2, k, z2) ∈ running p → now p < z1 + timeout → now p < z2 + timeout →
     i1 = i2 ∧ z1 = z2) ∧
  ∀ k z r, (k, z, r) ∈ completed p → now p < z + expiry →
    (∀ uuid, claimAttempt (now p) uuid (input k) (rows p) = (rows p, None)) ∧
    ∃ a, findAttempt (now p) k (rows p) = Some a ∧ job_status a = Completed ∧ parseStoredResult (job_result a) = Some r.
Proof.
  intros Hs. assert (pool_ok p) as [Hown Hleased Hids Huniq Hcomp].
  { assert (pool_ok (idle t)) as H0 by (split; simpl; try set_solver; apply NoDup_nil_2).
    revert H0. induction Hs as [|p1 p2 p3 Hs _ IH]; [done|]. intros H0. apply IH. by eapply worker_step_ok. }
  split.
  - intros i1 i2 k z1 z2 H1 H2 L1 L2. destruct (Hleased _ _ _ H1 L1) as (r & Hr & <-). destruct (Hleased _ _ _ H2 L2) as (r' & Hr' & <-).
    assert (r = r') as <- by congruence. destruct (Hown _ _ _ _ _ H1 Hr eq_refl) as (_ & _ & <- & _).
    by destruct (Hown _ _ _ _ _ H2 Hr eq_refl) as (_ & _ & <- & _).
  - intros k z r Hin Hlt. destruct (Hcomp k z r Hin Hlt) as (a & Ha & Hst & Hr & He). split.
    + intros uuid. unfold claimAttempt. simpl. rewrite Ha. unfold reclaimable. rewrite Hst, He.
      rewrite (bool_decide_eq_false_2 (Completed = Failed)), (bool_decide_eq_false_2 (Completed = Pending)) by done.
      by rewrite (proj2 (Z.leb_gt _ _)) by lia.
    + exists a. unfold findAttempt. rewrite Ha, He, (proj2 (Z.ltb_lt _ _)) by lia. split_and!; [done|done|]. by rewrite Hr.
Qed.
End Workers.
End Jobs.
#[global] Arguments pool : clear implicits.
End Jobs.

(** ** The health of providers *)

Module Health.

Definition PROVIDER_RECOVERY_BUFFER_MS : Z := 5000.
Definition DEFAULT_COOLDOWN_MS : Z := 30000.
Definition DEFAULT_FAILURE_THRESHOLD : Z := 1.

Record InternalHealthState := { consecutiveFailures : Z; unhealthyUntil : option Z; recoveredAt : option Z }.

(** The settings of a tracker and its states by provider. *)
Record tracker := { cooldownMs : Z; failureThreshold : Z; recoveryBufferMs : Z; states : gmap string InternalHealthState }.

Definition new_tracker : tracker :=
  {| cooldownMs := DEFAULT_COOLDOWN_MS; failureThreshold := DEFAULT_FAILURE_THRESHOLD;
     recoveryBufferMs := PROVIDER_RECOVERY_BUFFER_MS; states := ∅ |}.

Definition set_state (p : string) (s : InternalHealthState) (h : tracker) : tracker :=
  {| cooldownMs := cooldownMs h; failureThreshold := failureThreshold h; recoveryBufferMs := recoveryBufferMs h;
     states := <[p := s]> (states h) |}.

(** 0 healthy, 1 recovering, 2 unhealthy. *)
Definition providerCategory (h : tracker) (s : option InternalHealthState) (timestamp : Z) : Z :=
  match s with
  | None => 0
  | Some s =>
      if timestamp <? default 0 (unhealthyUntil s) then 2
      else
        let recovered := default 0 (recoveredAt s) in
        if (0 <? recovered) && (timestamp - recovered <? recoveryBufferMs h) then 1 else 0
  end.

Definition category (h : tracker) (timestamp : Z) (p : string) : Z := providerCategory h (states h !! p) timestamp.

(** The sort of the language is stable: providers of one category keep their
    order. *)
Definition orderProviders (h : tracker) (timestamp : Z) (ps : list string) : list string :=
  filter (λ p, category h timestamp p = 0) ps ++ filter (λ p, category h timestamp p = 1) ps ++
  filter (λ p, category h timestamp p = 2) ps.

Definition recordFailure (now : Z) (p : string) (transient : bool) (h : tracker) : tracker :=
  let current := default {| consecutiveFailures := 0; unhealthyUntil := None; recoveredAt := None |} (states h !! p) in
  let n := consecutiveFailures current + 1 in
  set_state p {| consecutiveFailures := n;
                 unhealthyUntil := if transient && (failureThreshold h <=? n) then Some (now + cooldownMs h) else unhealthyUntil current;
                 recoveredAt := recoveredAt current |} h.

Definition recordSuccess (now : Z) (p : string) (h : tracker) : tracker :=
  let wasUnhealthy := match states h !! p with Some c => 0 <? consecutiveFailures c | None => false end in
  set_state p {| consecutiveFailures := 0; unhealthyUntil := None; recoveredAt := if wasUnhealthy then Some now else None |} h.

Definition isRecovering (now : Z) (p : string) (h : tracker) : bool :=
  match states h !! p with Some s => providerCategory h (Some s) now =? 1 | None => false end.

Lemma category_cases h t p : category h t p = 0 ∨ category h t p = 1 ∨ category h t p = 2.
Proof. unfold category, providerCategory. destruct (states h !! p); [|by left]. destruct (_ <? _); [auto|]. destruct (_ && _); auto. Qed.

(** No provider is dropped or added; healthier ones come first, and those of one
    category keep their order. *)
Lemma orderProviders_spec h t ps : orderProviders h t ps ≡ₚ ps ∧
  Sorted (λ p q, category h t p ≤ category h t q) (orderProviders h t ps) ∧
  ∀ c, filter (λ p, category h t p = c) (orderProviders h t ps) = filter (λ p, category h t p = c) ps.
Proof.
  assert (∀ c l d, Forall (λ p, category h t p = d) l → filter (λ p, category h t p = c) l = if decide (c = d) then l else []) as Hf.
  { intros c l d Hl. case_decide as Hcd.
    - apply list_filter_id. intros x Hx. eapply Forall_forall in Hl; [|exact Hx]. by rewrite Hl.
    - apply list_filter_none. intros x Hx. eapply Forall_forall in Hl; [|exact Hx]. by rewrite Hl. }
  assert (∀ c, Forall (λ p, category h t p = c) (filter (λ p, category h t p = c) ps)) as Hc.
  { intros c. apply Forall_forall. by intros x [? _]%list_elem_of_filter. }
  split_and!.
  - clear Hf Hc. unfold orderProviders. induction ps as [|p ps IH]; [done|]. rewrite !filter_cons. destruct (category_cases h t p) as [E|[E|E]];
      repeat (case_decide; [|try congruence]); try congruence.
    + cbn [app]. by rewrite IH.
    + rewrite <- app_comm_cons, <- Permutation_middle. by rewrite IH.
    + rewrite app_assoc, <- Permutation_middle, <- app_assoc. by rewrite IH.
  - unfold orderProviders. apply StronglySorted_Sorted.
    assert (∀ d l, Forall (λ p, category h t p = d) l → StronglySorted (λ p q, category h t p ≤ category h t q) l) as Hs.
    { intros d l. induction l as [|x l IH]; intros [Hx Hl]%Forall_cons || intros _; constructor; [by apply IH|].
      eapply Forall_impl; [exact Hl|]. simpl. lia. }
    apply StronglySorted_app_2; [| |apply StronglySorted_app_2].
    1: intros x y [Hx _]%list_elem_of_filter [[Hy _]%list_elem_of_filter|[Hy _]%list_elem_of_filter]%elem_of_app; lia.
    2: intros x y [Hx _]%list_elem_of_filter [Hy _]%list_elem_of_filter; lia.
    all: eapply Hs, Hc.
  - intros c. unfold orderProviders. rewrite !filter_app. rewrite (Hf c _ 0), (Hf c _ 1), (Hf c _ 2) by apply Hc.
    repeat case_decide; subst; rewrite ?app_nil_r; try done.
    symmetry. apply list_filter_none. intros x _. destruct (category_cases h t x) as [E|[E|E]]; congruence.
Qed.
End Health.

(** ** Delivery *)

Import Health.

(** *** Errors of providers *)

Definition is_word (c : ascii) : bool :=
  is_digit c || ((65 <=? code c) && (code c <=? 90)) || ((97 <=? code c) && (code c <=? 122)) || Ascii.eqb c "_".

(** The first match of [\b([45]\d{2})\b]; [before] is whether a word character
    precedes. *)
Fixpoint status_match (before : bool) (s : string) : option Z :=
  match s with
  | EmptyString => None
  | String a s' =>
      let here :=
        match s' with
        | String b (String c rest) =>
            if negb before && (Ascii.eqb a "4" || Ascii.eqb a "5") && is_digit b && is_digit c &&
               negb (match rest with EmptyString => false | String d _ => is_word d end)
            then Some (100 * digit_val a + 10 * digit_val b + digit_val c) else None
        | _ => None
        end in
      match here with Some n => Some n | None => status_match (is_word a) s' end
  end.

Record DeliveryErrorClassification := { c_retryable : bool; c_transient : bool; c_ambiguous : bool; c_status : option Z }.

Definition classifyDeliveryError (message : string) : DeliveryErrorClassification :=
  let normalized := toLowerCase message in
  let st := status_match false message in
  if includes normalized "timeout" || includes normalized "timed out" || includes normalized "abort" then
    {| c_retryable := false; c_transient := true; c_ambiguous := true; c_status := st |}
  else if includes normalized "5xx" || match st with Some n => 500 <=? n | None => false end || includes normalized "fetch failed" ||
          includes normalized "econnreset" || includes normalized "econnrefused" || includes normalized "enotfound" ||
          includes normalized "eai_again" then
    {| c_retryable := true; c_transient := true; c_ambiguous := false; c_status := st |}
  else {| c_retryable := false; c_transient := false; c_ambiguous := false; c_status := st |}.

(** *** The attempts *)

Inductive SendStatus := Pending | Sent | Failed | Deduped.
#[export] Instance send_status_eq_dec : EqDecision SendStatus.
Proof. solve_decision. Defined.

Record SendAttempt := {
  sa_id : string;
  notificationId : string;
  idempotencyKey : string;
  attemptGroup : Z;
  attemptNumber : Z;
  provider : string;
  status : SendStatus;
  providerResponseId : option string;
  errorMessage : option string;
  attemptedAt : Z;
  sentAt : option Z
}.

Record NotificationDlqAttempt := { d_provider : string; d_number : Z; d_key : string; d_error : string; d_class : DeliveryErrorClassification }.

Record NotificationDlqEntry := { e_notification : string; e_providers : list string; e_attempts : list NotificationDlqAttempt; e_reason : string }.

Record NotificationDeliveryResult := {
  r_notification : string;
  success : bool;
  deduped : bool;
  r_attempts : Z;
  r_key : string;
  r_provider : option string
}.

(** What a provider answers to a call: the id it gives, or an error. *)
Inductive answer := Accepted (response : string) | Rejected (message : string).

(** The rows of notification_send_attempts, the health of the providers, the
    dead letters, and the calls of providers: the notification, the provider,
    the key and whether it accepted. *)
Record mail := {
  attempts : list SendAttempt;
  health : tracker;
  dlq : list NotificationDlqEntry;
  calls : list (string * string * string * bool)
}.

Section Delivery.
Variable sha256 : string → string.
(** [ORDER BY attempted_at DESC LIMIT 1]: some row of the latest time. *)
Variable newest : list SendAttempt → option SendAttempt.
(** The n-th call: what the provider answers, the times before it and after it,
    the id of its row, and the error of the statement that records its success. *)
Variable answers : nat → answer.
Variable clock : nat → Z.
Variable later : nat → Z.
Variable row_id : nat → string.
Variable record_error : nat → option string.

Definition generateIdempotencyKey (notification : string) (group : Z) : string :=
  sha256 (notification +:+ String ":" (bigint_toString group)).

Definition of_notification (n : string) (rows : list SendAttempt) : list SendAttempt := filter (λ r, notificationId r = n) rows.

Definition getLastSendAttempt (n : string) (m : mail) : option SendAttempt := newest (of_notification n (attempts m)).

Definition getSendByIdempotencyKey (k : string) (m : mail) : option SendAttempt := head (filter (λ r, idempotencyKey r = k) (attempts m)).

(** [attempt?.status === 'sent']. *)
Definition sent_only (o : option SendAttempt) : option SendAttempt :=
  o ≫= λ r, if bool_decide (status r = Sent) then Some r else None.

(** The columns the statement inserts. *)
Definition createSendAttempt (uuid n k : string) (group number : Z) (p : string) (s : SendStatus) (at_ : Z) (m : mail) : mail * SendAttempt :=
  match getSendByIdempotencyKey k m with
  | Some r => (m, r)
  | None =>
      let r := {| sa_id := uuid; notificationId := n; idempotencyKey := k; attemptGroup := group; attemptNumber := number; provider := p;
                  status := s; providerResponseId := None; errorMessage := None; attemptedAt := at_; sentAt := None |} in
      ({| attempts := attempts m ++ [r]; health := health m; dlq := dlq m; calls := calls m |}, r)
  end.

Definition updateSendAttempt (i : string) (s : SendStatus) (sent : option Z) (response error : option string) (m : mail) : mail :=
  {| attempts := (λ r, if bool_decide (sa_id r = i)
                       then {| sa_id := sa_id r; notificationId := notificationId r; idempotencyKey := idempotencyKey r;
                               attemptGroup := attemptGroup r; attemptNumber := attemptNumber r; provider := provider r; status := s;
                               providerResponseId := match response with Some _ => response | None => providerResponseId r end;
                               errorMessage := match error with Some _ => error | None => errorMessage r end;
                               attemptedAt := attemptedAt r; sentAt := match sent with Some _ => sent | None => sentAt r end |}
                       else r) <$> attempts m;
     health := health m; dlq := dlq m; calls := calls m |}.

Definition with_health (h : tracker) (m : mail) : mail := {| attempts := attempts m; health := h; dlq := dlq m; calls := calls m |}.
Definition called (c : string * string * string * bool) (m : mail) : mail :=
  {| attempts := attempts m; health := health m; dlq := dlq m; calls := calls m ++ [c] |}.

Definition routeToDlq (with_dlq : bool) (n : string) (ordered : list string) (failures : list NotificationDlqAttempt) (reason : string)
    (number : Z) (k p : string) (m : mail) : mail * NotificationDeliveryResult :=
  let m' := if with_dlq
            then {| attempts := attempts m; health := health m;
                    dlq := dlq m ++ [{| e_notification := n; e_providers := ordered; e_attempts := failures; e_reason := reason |}];
                    calls := calls m |}
            else m in
  (m', {| r_notification := n; success := false; deduped := false; r_attempts := number; r_key := k; r_provider := Some p |}).

Definition already_sent (r : SendAttempt) (n : string) (number : Z) (k : string) : NotificationDeliveryResult :=
  {| r_notification := n; success := true; deduped := true; r_attempts := number; r_key := k; r_provider := Some (provider r) |}.

(** How the loop over the providers of one cycle ends: the delivery returns, or
    the next cycle starts. *)
Inductive cycle_end :=
| Returned (m : mail) (r : NotificationDeliveryResult)
| Fell (m : mail) (n_attempts group : Z) (failures : list NotificationDlqAttempt).

(** One call of a provider: [inl] the delivery returns, [inr] it failed and the
    loop goes on. *)
Definition try_provider (with_dlq : bool) (maxAttempts : Z) (n : string) (ordered : list string) (p : string) (rest : list string)
    (n_attempts group : Z) (failures : list NotificationDlqAttempt) (m : mail)
  : (mail * NotificationDeliveryResult) + (mail * list NotificationDlqAttempt) :=
  let number := n_attempts + 1 in
  let k := generateIdempotencyKey n group in
  match sent_only (getSendByIdempotencyKey k m) with
  | Some r => inl (m, already_sent r n number k)
  | None =>
      let i := length (calls m) in
      let '(m1, row) := createSendAttempt (row_id i) n k group number p Pending (clock i) m in
      let ended := match answers i with
                   | Accepted response =>
                       let m2 := called (n, p, k, true) m1 in
                       match record_error i with
                       | None =>
                           let m3 := updateSendAttempt (sa_id row) Sent (Some (later i)) (Some response) None m2 in
                           inl (with_health (recordSuccess (later i) p (health m3)) m3,
                                {| r_notification := n; success := true; deduped := false; r_attempts := number; r_key := k; r_provider := Some p |})
                       | Some e => inr (m2, e)
                       end
                   | Rejected e => inr (called (n, p, k, false) m1, e)
                   end in
      match ended with
      | inl x => inl x
      | inr (m2, e) =>
          let c := classifyDeliveryError e in
          let failures' := failures ++ [{| d_provider := p; d_number := number; d_key := k; d_error := e; d_class := c |}] in
          let m3 := updateSendAttempt (sa_id row) Failed None None (Some e) m2 in
          let m4 := with_health (recordFailure (later i) p (c_transient c) (health m3)) m3 in
          if c_ambiguous c then inl (routeToDlq with_dlq n ordered failures' e number k p m4)
          else if c_retryable c && negb (match rest with [] => true | _ => false end) && (number <? maxAttempts) then inr (m4, failures')
          else if negb (c_retryable c) || (maxAttempts <=? number) then inl (routeToDlq with_dlq n ordered failures' e number k p m4)
          else inr (m4, failures')
      end
  end.

Fixpoint for_providers (with_dlq : bool) (maxAttempts : Z) (n : string) (ordered rest : list string) (n_attempts group : Z)
    (failures : list NotificationDlqAttempt) (m : mail) : cycle_end :=
  match rest with
  | [] => Fell m n_attempts group failures
  | p :: rest' =>
      if maxAttempts <=? n_attempts then Fell m n_attempts group failures
      else match try_provider with_dlq maxAttempts n ordered p rest' n_attempts group failures m with
      | inl (m', r) => Returned m' r
      | inr (m', failures') => for_providers with_dlq maxAttempts n ordered rest' (n_attempts + 1) (group + 1) failures' m'
      end
  end.

Definition exhausted (n : string) (n_attempts group : Z) (failures : list NotificationDlqAttempt) (m : mail) : mail * NotificationDeliveryResult :=
  (m, {| r_notification := n; success := false; deduped := false; r_attempts := n_attempts;
         r_key := match list.last failures with Some f => d_key f | None => generateIdempotencyKey n group end;
         r_provider := d_provider <$> list.last failures |}).

(** The cycles; [None] when [fuel] runs out. *)
Fixpoint cycles (fuel : nat) (with_dlq : bool) (maxAttempts : Z) (n : string) (providers : list string) (n_attempts group : Z)
    (failures : list NotificationDlqAttempt) (m : mail) : option (mail * NotificationDeliveryResult) :=
  if maxAttempts <=? n_attempts then Some (exhausted n n_attempts group failures m)
  else match fuel with
  | O => None
  | S f =>
      let ordered := orderProviders (health m) (later (length (calls m))) providers in
      match for_providers with_dlq maxAttempts n ordered ordered n_attempts group failures m with
      | Returned m' r => Some (m', r)
      | Fell m' a g fs =>
          if (maxAttempts <=? a) || match fs with [] => true | _ => false end then Some (exhausted n a g fs m')
          else cycles f with_dlq maxAttempts n providers a g fs m'
      end
  end.

Definition executeDelivery (with_dlq : bool) (maxAttempts : Z) (n : string) (providers : list string) (m : mail)
  : result string (option (mail * NotificationDeliveryResult)) :=
  _ ← throw_if (match providers with [] => true | _ => false end) "No email providers configured";
  Ok (match sent_only (getLastSendAttempt n m) with
      | Some r => Some (m, already_sent r n 1 (idempotencyKey r))
      | None => cycles (Z.to_nat maxAttempts) with_dlq maxAttempts n providers 0
                  (default 0 (attemptGroup <$> getLastSendAttempt n m) + 1) [] m
      end).

(** The attempts of the defaults: three retries. *)
Definition DEFAULT_MAX_ATTEMPTS : Z := 3 + 1.

Definition reconcileSend (uuid n response : string) (statusCode now : Z) (providers : list string) (m : mail) : mail :=
  match getLastSendAttempt n m with
  | None =>
      let ok := (200 <=? statusCode) && (statusCode <? 300) in
      (createSendAttempt uuid n (generateIdempotencyKey n 1) 1 1 (default "unknown"%string (head providers)) (if ok then Sent else Failed) now m).1
  | Some a =>
      if (200 <=? statusCode) && (statusCode <? 300) then
        let m' := updateSendAttempt (sa_id a) Sent (Some now) (Some response) None m in
        with_health (recordSuccess now (provider a) (health m')) m'
      else if (400 <=? statusCode) && (statusCode <? 500) then
        updateSendAttempt (sa_id a) Failed None None (Some ("Provider returned " +:+ bigint_toString statusCode)) m
      else m
  end.

(** *** Every delivery ends *)

Lemma route_spec with_dlq n ordered fs e number k p m : let '(m', r) := routeToDlq with_dlq n ordered fs e number k p m in
  calls m' = calls m ∧ attempts m' = attempts m ∧ success r = false ∧
  (if with_dlq then ∃ x, dlq m' = dlq m ++ [x] ∧ e_notification x = n else dlq m' = dlq m).
Proof. unfold routeToDlq. destruct with_dlq; simpl; split_and!; try done. by eexists. Qed.

(** A delivery that returned: how many providers were called, and the dead
    letter of a failed one. *)
Definition ended (with_dlq : bool) (n : string) (most : Z) (m m' : mail) (r : NotificationDeliveryResult) : Prop :=
  Z.of_nat (length (calls m')) ≤ Z.of_nat (length (calls m)) + most ∧
  if success r || negb with_dlq then dlq m' = dlq m else ∃ x, dlq m' = dlq m ++ [x] ∧ e_notification x = n.

Lemma create_calls uuid n k g a p s at_ m : calls (createSendAttempt uuid n k g a p s at_ m).1 = calls m ∧
  dlq (createSendAttempt uuid n k g a p s at_ m).1 = dlq m.
Proof. unfold createSendAttempt. by destruct (getSendByIdempotencyKey k m). Qed.

Lemma try_ends with_dlq maxAttempts n ordered p rest a g fs m :
  match try_provider with_dlq maxAttempts n ordered p rest a g fs m with
  | inl (m', r) => ended with_dlq n 1 m m' r
  | inr (m', fs') => length (calls m') = Datatypes.S (length (calls m)) ∧ dlq m' = dlq m ∧ fs' ≠ [] ∧ a + 1 < maxAttempts
  end.
Proof.
  unfold try_provider. destruct (sent_only _) as [r|]; [split; [lia|done]|].
  set (i := length (calls m)). set (k := generateIdempotencyKey n g).
  pose proof (create_calls (row_id i) n k g (a + 1) p Pending (clock i) m) as [Hc Hd].
  destruct (createSendAttempt _ _ _ _ _ _ _ _ m) as [m1 row]. simpl in Hc, Hd.
  assert (∀ b, length (calls (called (n, p, k, b) m1)) = Datatypes.S (length (calls m))) as Hlen.
  { intros b. simpl. rewrite Hc, length_app. simpl. lia. }
  set (out := match answers i with Accepted _ => _ | Rejected _ => _ end).
  assert (match out with inl (m', r) => length (calls m') = Datatypes.S (length (calls m)) ∧ dlq m' = dlq m ∧ success r = true
          | inr (m2, _) => length (calls m2) = Datatypes.S (length (calls m)) ∧ dlq m2 = dlq m end) as Hout.
  { subst out. destruct (answers i); [|simpl; rewrite <- Hlen with (b := false); done]. destruct (record_error i); simpl; rewrite <- Hlen with (b := true); done. }
  destruct out as [[m' r]|[m2 e]]; [destruct Hout as (H1 & H2 & H3); split; [rewrite H1; lia|by rewrite H3]|]. destruct Hout as [H1 H2].
  set (fs' := fs ++ _). set (m4 := with_health _ _).
  assert (ended with_dlq n 1 m (routeToDlq with_dlq n ordered fs' e (a + 1) k p m4).1 (routeToDlq with_dlq n ordered fs' e (a + 1) k p m4).2) as Hroute.
  { pose proof (route_spec with_dlq n ordered fs' e (a + 1) k p m4) as Hr. destruct (routeToDlq _ _ _ _ _ _ _ _ m4) as [m' r].
    destruct Hr as (Hr1 & _ & Hr2 & Hr3). simpl in *. split; [rewrite Hr1; simpl; rewrite H1; lia|]. rewrite Hr2. simpl. destruct with_dlq; simpl in *; by rewrite H2 in Hr3. }
  destruct (c_ambiguous _); [by destruct (routeToDlq _ _ _ _ _ _ _ _ m4)|].
  destruct (c_retryable _ && _ && _) eqn:E1.
  { apply andb_true_iff in E1 as [_ E1%Z.ltb_lt]. split_and!; [done|done|by destruct fs|lia]. }
  destruct (negb _ || _) eqn:E2; [by destruct (routeToDlq _ _ _ _ _ _ _ _ m4)|].
  apply orb_false_iff in E2 as [_ E2%Z.leb_gt]. split_and!; [done|done|by destruct fs|lia].
Qed.

Lemma for_ends with_dlq maxAttempts n ordered rest a g fs m :
  match for_providers with_dlq maxAttempts n ordered rest a g fs m with
  | Returned m' r => ended with_dlq n (maxAttempts - a) m m' r
  | Fell m' a' _ fs' => Z.of_nat (length (calls m')) = Z.of_nat (length (calls m)) + (a' - a) ∧ dlq m' = dlq m ∧
      (a < maxAttempts → rest ≠ [] → a < a' < maxAttempts ∧ fs' ≠ []) ∧ (a' ≤ Z.max a maxAttempts)
  end.
Proof.
  revert a g fs m. induction rest as [|p rest IH]; intros a g fs m; simpl; [split_and!; [lia|done|done|lia]|].
  destruct (Z.leb_spec maxAttempts a); [split_and!; [lia|done|lia|lia]|].
  pose proof (try_ends with_dlq maxAttempts n ordered p rest a g fs m) as Ht.
  destruct (try_provider _ _ _ _ _ _ _ _ _ m) as [[m1 r]|[m1 fs1]].
  - destruct Ht as [H1 H2]. split; [lia|done].
  - destruct Ht as (H1 & H2 & Hne & Hlt). specialize (IH (a + 1) (g + 1) fs1 m1).
    destruct (for_providers _ _ _ _ rest _ _ _ m1) as [m' r|m' a' g' fs'] eqn:Ef.
    + destruct IH as [I1 I2]. split; [lia|]. by rewrite H2 in I2.
    + destruct IH as (I1 & I2 & I3 & I4). split_and!; [lia|congruence| |lia]. intros _ _.
      destruct rest as [|q rest]; [simpl in Ef; injection Ef as <- <- <- <-; split; [lia|done]|].
      destruct (I3 Hlt ltac:(done)) as [? ?]. split; [lia|done].
Qed.

Lemma cycles_end fuel with_dlq maxAttempts n providers a g fs m : providers ≠ [] → maxAttempts - a ≤ Z.of_nat fuel → 0 ≤ a → (a = 0 ∨ a < maxAttempts) →
  0 < maxAttempts → ∃ m' r, cycles fuel with_dlq maxAttempts n providers a g fs m = Some (m', r) ∧ ended with_dlq n (maxAttempts - a) m m' r.
Proof.
  intros Hne. revert a g fs m. induction fuel as [|fuel IH]; intros a g fs m Hf Ha Hlt Hmax; simpl.
  { assert (a < maxAttempts) by lia. lia. }
  destruct (Z.leb_spec maxAttempts a); [lia|].
  set (ordered := orderProviders _ _ providers).
  assert (ordered ≠ []) as Hord.
  { intros E. destruct (orderProviders_spec (health m) (later (length (calls m))) providers) as [Hp _]. fold ordered in Hp. rewrite E in Hp.
    apply Permutation_nil in Hp. done. }
  pose proof (for_ends with_dlq maxAttempts n ordered ordered a g fs m) as Hfor.
  destruct (for_providers _ _ _ _ _ _ _ _ m) as [m' r|m' a' g' fs']; [by eexists _, _|].
  destruct Hfor as (H1 & H2 & H3 & _). destruct (H3 ltac:(lia) Hord) as [Ha' Hfs].
  destruct (Z.leb_spec maxAttempts a'); [lia|]. destruct fs' as [|f fs']; [done|]. cbn [orb].
  destruct (IH a' g' (f :: fs') m') as (m2 & r & -> & Hend); [lia|lia|lia|lia|]. exists m2, r. split; [done|].
  destruct Hend as [E1 E2]. split; [lia|]. by rewrite H2 in E2.
Qed.

(** A delivery with some provider always ends, whatever the providers answer
    and whichever statements fail: it calls providers at most as often as it
    may, and leaves a dead letter for the notification when it failed after some
    attempt, and none otherwise. *)
Theorem delivery_ends with_dlq maxAttempts n providers m : providers ≠ [] → 0 < maxAttempts →
  ∃ m' r, executeDelivery with_dlq maxAttempts n providers m = Ok (Some (m', r)) ∧
    Z.of_nat (length (calls m')) ≤ Z.of_nat (length (calls m)) + maxAttempts ∧
    if success r || negb with_dlq then dlq m' = dlq m else ∃ x, dlq m' = dlq m ++ [x] ∧ e_notification x = n.
Proof.
  intros Hne Hmax. unfold executeDelivery. destruct providers as [|p ps]; [done|]. cbn [throw_if mbind result_bind].
  destruct (sent_only _) as [r|]; [eexists _, _; split; [done|]; split; [lia|done]|].
  destruct (cycles_end (Z.to_nat maxAttempts) with_dlq maxAttempts n (p :: ps) 0
    (default 0 (attemptGroup <$> getLastSendAttempt n m) + 1) [] m) as (m' & r & -> & H1 & H2); [done|lia|lia|lia|lia|].
  exists m', r. split; [done|]. split; [lia|done].
Qed.

(** *** A notification is accepted once *)

(** The uuids are distinct, the hash has no collisions, the clock moves on
    between calls, successes are recorded, and a query for the last attempt
    finds one of the latest time. *)
Hypothesis row_id_inj : ∀ i j, row_id i = row_id j → i = j.
Hypothesis sha256_inj : ∀ s t, sha256 s = sha256 t → s = t.
Hypothesis clock_strict : ∀ i j, (i < j)%nat → clock i < clock j.
Hypothesis recorded : ∀ i, record_error i = None.
Hypothesis newest_nil : ∀ l, newest l = None → l = [].
Hypothesis newest_Some : ∀ l r, newest l = Some r → r ∈ l ∧ ∀ x, x ∈ l → attemptedAt x ≤ attemptedAt r.

(** Nothing of a notification follows the call that accepted it. *)
Definition final_calls (l : list (string * string * string * bool)) : Prop :=
  ∀ l1 l2 n p k, l = l1 ++ (n, p, k, true) :: l2 → ∀ p' k' b, (n, p', k', b) ∉ l2.

Definition accepted (n : string) (m : mail) : Prop := ∃ p k, (n, p, k, true) ∈ calls m.

Record mail_ok (m : mail) : Prop := {
  ok_row r : r ∈ attempts m → ∃ i, (i < length (calls m))%nat ∧ sa_id r = row_id i ∧ attemptedAt r = clock i ∧
    idempotencyKey r = generateIdempotencyKey (notificationId r) (attemptGroup r) ∧ 1 ≤ attemptGroup r;
  ok_times r1 r2 : r1 ∈ attempts m → r2 ∈ attempts m → attemptedAt r1 = attemptedAt r2 → r1 = r2;
  ok_groups r1 r2 : r1 ∈ attempts m → r2 ∈ attempts m → notificationId r1 = notificationId r2 →
    attemptedAt r1 ≤ attemptedAt r2 → attemptGroup r1 ≤ attemptGroup r2;
  ok_sent n : accepted n m → ∃ r, r ∈ attempts m ∧ notificationId r = n ∧ status r = Sent ∧
    ∀ x, x ∈ attempts m → notificationId x = n → attemptedAt x ≤ attemptedAt r;
  ok_final : final_calls (calls m)
}.

Lemma key_inj n g n' g' : 1 ≤ g → 1 ≤ g' → generateIdempotencyKey n g = generateIdempotencyKey n' g' → n = n' ∧ g = g'.
Proof.
  intros Hg Hg' H%sha256_inj.
  assert (∀ s t u v, no_char ":" t → no_char ":" v → s +:+ String ":" t = u +:+ String ":" v → s = u ∧ t = v) as Hlast.
  { clear. intros s. assert (∀ u t v, no_char ":" t → t = u +:+ String ":" v → False) as Hno.
    { intros u. induction u as [|c u IH]; intros [|d t] v Ht E; try done; unfold no_char in *; simpl in *; injection E as -> E.
      - done.
      - apply andb_true_iff in Ht as [_ Ht]. by eapply IH. }
    induction s as [|c s IH]; intros t [|d u] v Ht Hv E; simpl in E.
    - by injection E as ->.
    - injection E as <- E. by destruct (Hno u t v).
    - injection E as -> E. by destruct (Hno s v t).
    - injection E as -> E. by destruct (IH t u v Ht Hv E) as [-> ->]. }
  destruct (bigint_toString_spec g ltac:(lia)) as (Hd & Hv & _), (bigint_toString_spec g' ltac:(lia)) as (Hd' & Hv' & _).
  apply Hlast in H as [-> Hs]; [|by apply digits_no_char..]. split; [done|]. by rewrite <- Hv, <- Hv', Hs.
Qed.

(** A state with one more call, and its row. *)
Definition one_more (m m' : mail) (n : string) (g : Z) (b : bool) : Prop := ∃ p k row,
  attempts m' = attempts m ++ [row] ∧ calls m' = calls m ++ [(n, p, k, b)] ∧ sa_id row = row_id (length (calls m)) ∧
  notificationId row = n ∧ attemptedAt row = clock (length (calls m)) ∧ attemptGroup row = g ∧
  idempotencyKey row = generateIdempotencyKey n g ∧ (b = true → status row = Sent).

(** The groups of the attempts so far. *)
Definition below (n : string) (g : Z) (m : mail) : Prop := ∀ r, r ∈ attempts m → notificationId r = n → attemptGroup r < g.

Lemma one_more_ok m m' n g b : mail_ok m → ¬ accepted n m → below n g m → 1 ≤ g → one_more m m' n g b →
  mail_ok m' ∧ below n (g + 1) m' ∧ (b = false → ¬ accepted n m').
Proof.
  intros [Hrow Htimes Hgroups Hsent Hfinal] Hnot Hbelow Hg (p & k & row & Ha & Hc & Hid & Hn & Ht & Hgr & Hk & Hst).
  assert (∀ r, r ∈ attempts m → attemptedAt r < attemptedAt row) as Hlate.
  { intros r Hr. destruct (Hrow r Hr) as (i & Hi & _ & -> & _). rewrite Ht. by apply clock_strict. }
  assert (length (calls m') = Datatypes.S (length (calls m))) as Hlen by (rewrite Hc, length_app; simpl; lia).
  split_and!; [split|..].
  - intros r. rewrite Ha, Hlen. intros [Hr| ->%list_elem_of_singleton]%elem_of_app.
    + destruct (Hrow r Hr) as (i & Hi & Hrest). exists i. split; [lia|done].
    + exists (length (calls m)). split_and!; [lia|done|done|by rewrite Hn, Hgr|lia].
  - intros r1 r2. rewrite Ha. intros [H1| ->%list_elem_of_singleton]%elem_of_app [H2| ->%list_elem_of_singleton]%elem_of_app Heq; [by apply Htimes| | |done].
    + specialize (Hlate r1 H1). lia.
    + specialize (Hlate r2 H2). lia.
  - intros r1 r2. rewrite Ha. intros [H1| ->%list_elem_of_singleton]%elem_of_app [H2| ->%list_elem_of_singleton]%elem_of_app Heq Hle; [by apply Hgroups| | |done].
    + specialize (Hbelow r1 H1). rewrite Hn in Heq. specialize (Hbelow Heq). lia.
    + specialize (Hlate r2 H2). lia.
  - intros n'. unfold accepted. rewrite Hc. intros (p' & k' & [Hin|Hin]%elem_of_app).
    + destruct (Hsent n') as (r & Hr & Hrn & Hrs & Hmax); [by exists p', k'|]. assert (n' ≠ n) as Hne by (intros ->; apply Hnot; by exists p', k').
      exists r. rewrite Ha. split_and!; [set_solver|done|done|]. intros x [Hx| ->%list_elem_of_singleton]%elem_of_app Hxn; [by apply Hmax|congruence].
    + apply list_elem_of_singleton in Hin. injection Hin as -> _ _ Hb. exists row. rewrite Ha. split_and!; [set_solver|done|by apply Hst|].
      intros x [Hx| ->%list_elem_of_singleton]%elem_of_app _; [|done]. specialize (Hlate x Hx). lia.
  - rewrite Hc. intros l1 l2 n' p' k' E p2 k2 b2 Hin. destruct l2 as [|y l2 _] using rev_ind; [set_solver|].
    rewrite app_comm_cons, app_assoc in E. apply app_inj_tail in E as [E <-]. apply elem_of_app in Hin as [Hin|Hin%list_elem_of_singleton]; [by eapply Hfinal|].
    injection Hin as -> _ _ _. apply Hnot. exists p', k'. rewrite E. set_solver.
  - intros r. rewrite Ha. intros [Hr| ->%list_elem_of_singleton]%elem_of_app Hrn; [specialize (Hbelow r Hr Hrn); lia|lia].
  - intros -> (p' & k' & Hin). rewrite Hc in Hin. apply elem_of_app in Hin as [Hin|Hin%list_elem_of_singleton]; [|done]. apply Hnot. by exists p', k'.
Qed.

(** A call under a new key: it adds one row. *)
Lemma key_new n g m : mail_ok m → below n g m → 1 ≤ g → getSendByIdempotencyKey (generateIdempotencyKey n g) m = None.
Proof.
  intros Hok Hb Hg. unfold getSendByIdempotencyKey. destruct (filter _ _) as [|r l] eqn:E; [done|]. exfalso.
  assert (r ∈ filter (λ r, idempotencyKey r = generateIdempotencyKey n g) (attempts m)) as [Hk Hr]%list_elem_of_filter by (rewrite E; left).
  destruct (ok_row m Hok r Hr) as (i & _ & _ & _ & Hk' & Hge). rewrite Hk' in Hk. apply key_inj in Hk as [Hn <-]; [|done|done].
  specialize (Hb r Hr Hn). lia.
Qed.

Lemma update_new m m1 row s sent resp err : mail_ok m → calls m `prefix_of` calls m1 → attempts m1 = attempts m ++ [row] → sa_id row = row_id (length (calls m)) →
  ∃ row', attempts (updateSendAttempt (sa_id row) s sent resp err m1) = attempts m ++ [row'] ∧ sa_id row' = sa_id row ∧
    notificationId row' = notificationId row ∧ attemptedAt row' = attemptedAt row ∧ attemptGroup row' = attemptGroup row ∧
    idempotencyKey row' = idempotencyKey row ∧ status row' = s.
Proof.
  intros Hok _ Ha Hid. unfold updateSendAttempt. simpl. rewrite Ha, fmap_app. simpl. rewrite bool_decide_eq_true_2 by done.
  eexists. split; [f_equal|by split_and!]. rewrite <- (list_fmap_id (attempts m)) at 2. apply list_fmap_ext. intros j r Hr%list_elem_of_lookup_2.
  rewrite bool_decide_eq_false_2; [done|]. destruct (ok_row m Hok r Hr) as (i & Hi & -> & _). rewrite Hid. intros Heq%row_id_inj. lia.
Qed.

Lemma try_once with_dlq maxAttempts n ordered p rest a g fs m : mail_ok m → below n g m → 1 ≤ g →
  match try_provider with_dlq maxAttempts n ordered p rest a g fs m with
  | inl (m', r) => one_more m m' n g (success r)
  | inr (m', fs') => one_more m m' n g false
  end.
Proof.
  intros Hok Hb Hg. unfold try_provider. rewrite key_new by done. cbn [sent_only mbind option_bind].
  unfold createSendAttempt. rewrite key_new by done. set (i := length (calls m)). set (k := generateIdempotencyKey n g). set (row := Build_SendAttempt _ _ _ _ _ _ _ _ _ _ _).
  set (m1 := Build_mail _ _ _ _).
  assert (∀ s sent resp err b h, (b = true → s = Sent) →
    one_more m (with_health h (updateSendAttempt (sa_id row) s sent resp err (called (n, p, k, b) m1))) n g b) as Hone.
  { intros s sent resp err b h Hs. destruct (update_new m (called (n, p, k, b) m1) row s sent resp err) as (row' & H1 & H2 & H3 & H4 & H5 & H6 & H7);
      [done|by eexists|done|done|]. exists p, k, row'. split_and!; try done. intros Hbt. rewrite H7. auto. }
  destruct (answers i) as [response|e]; [rewrite recorded; by apply Hone|].
  set (fs' := fs ++ _). cbn beta zeta iota. set (m4 := with_health _ _).
  assert (one_more m m4 n g false) as H4 by (by apply Hone).
  assert (∀ q, one_more m (routeToDlq with_dlq n ordered fs' e (a + 1) k q m4).1 n g (success (routeToDlq with_dlq n ordered fs' e (a + 1) k q m4).2)) as Hroute.
  { intros q. destruct H4 as (p' & k' & row' & H1 & H2 & Hrest). exists p', k', row'. unfold routeToDlq. by destruct with_dlq. }
  specialize (Hroute p). destruct (c_ambiguous _); [by destruct (routeToDlq _ _ _ _ _ _ _ _ m4)|].
  destruct (c_retryable _ && _ && _); [done|]. destruct (negb _ || _); [by destruct (routeToDlq _ _ _ _ _ _ _ _ m4)|done].
Qed.

Lemma for_once with_dlq maxAttempts n ordered rest a g fs m : mail_ok m → ¬ accepted n m → below n g m → 1 ≤ g →
  match for_providers with_dlq maxAttempts n ordered rest a g fs m with
  | Returned m' _ => mail_ok m'
  | Fell m' _ g' _ => mail_ok m' ∧ ¬ accepted n m' ∧ below n g' m' ∧ 1 ≤ g'
  end.
Proof.
  revert a g fs m. induction rest as [|p rest IH]; intros a g fs m Hok Hnot Hb Hg; simpl; [done|].
  destruct (maxAttempts <=? a); [done|]. pose proof (try_once with_dlq maxAttempts n ordered p rest a g fs m Hok Hb Hg) as Ht.
  destruct (try_provider _ _ _ _ _ _ _ _ _ m) as [[m1 r]|[m1 fs1]]; destruct (one_more_ok _ _ _ _ _ Hok Hnot Hb Hg Ht) as (Hok1 & Hb1 & Hnot1); [done|].
  apply IH; auto. lia.
Qed.

Lemma cycles_once fuel with_dlq maxAttempts n providers a g fs m m' r : cycles fuel with_dlq maxAttempts n providers a g fs m = Some (m', r) →
  mail_ok m → ¬ accepted n m → below n g m → 1 ≤ g → mail_ok m'.
Proof.
  revert a g fs m. induction fuel as [|fuel IH]; intros a g fs m E Hok Hnot Hb Hg; simpl in E.
  { destruct (maxAttempts <=? a); [|done]. by injection E as <- <-. }
  destruct (maxAttempts <=? a); [by injection E as <- <-|].
  pose proof (for_once with_dlq maxAttempts n (orderProviders (health m) (later (length (calls m))) providers)
    (orderProviders (health m) (later (length (calls m))) providers) a g fs m Hok Hnot Hb Hg) as Hf.
  destruct (for_providers _ _ _ _ _ _ _ _ m) as [m1 r1|m1 a1 g1 fs1]; [by injection E as <- <-|]. destruct Hf as (? & ? & ? & ?).
  destruct (_ || _); [by injection E as <- <-|]. by eapply IH.
Qed.

(** The last attempt of a notification that was accepted is the one that was. *)
Lemma last_sent n m : mail_ok m → accepted n m → ∃ r, sent_only (getLastSendAttempt n m) = Some r.
Proof.
  intros Hok (r & Hr & Hn & Hs & Hmax)%(ok_sent m Hok). unfold getLastSendAttempt.
  destruct (newest (of_notification n (attempts m))) as [x|] eqn:E.
  - apply newest_Some in E as [[Hxn Hx]%list_elem_of_filter Hx2]. assert (x = r) as ->.
    { apply (ok_times m Hok); [done|done|]. specialize (Hmax x Hx Hxn). assert (attemptedAt r ≤ attemptedAt x); [|lia].
      apply Hx2. by apply list_elem_of_filter. }
    exists r. simpl. by rewrite bool_decide_eq_true_2.
  - apply newest_nil in E. assert (r ∈ of_notification n (attempts m)) as Hin by (by apply list_elem_of_filter). rewrite E in Hin. set_solver.
Qed.

Lemma execute_ok with_dlq maxAttempts n providers m m' r : executeDelivery with_dlq maxAttempts n providers m = Ok (Some (m', r)) →
  mail_ok m → mail_ok m' ∧ (accepted n m → m' = m ∧ success r = true ∧ deduped r = true).
Proof.
  unfold executeDelivery. destruct (throw_if _ _); [cbn [mbind result_bind]|done]. intros E Hok.
  destruct (sent_only _) as [x|] eqn:Es; [injection E as <- <-; done|].
  assert (¬ accepted n m) as Hnot by (intros [y Hy]%(last_sent n m Hok); congruence). split; [|done].
  assert (below n (default 0 (attemptGroup <$> getLastSendAttempt n m) + 1) m) as Hb.
  { intros y Hy Hyn. unfold getLastSendAttempt. destruct (newest (of_notification n (attempts m))) as [z|] eqn:Ez.
    - apply newest_Some in Ez as [[Hzn Hz]%list_elem_of_filter Hmax]. simpl. assert (attemptGroup y ≤ attemptGroup z); [|lia].
      apply (ok_groups m Hok); [done|done|congruence|]. apply Hmax. by apply list_elem_of_filter.
    - apply newest_nil in Ez. assert (y ∈ of_notification n (attempts m)) as Hin by (by apply list_elem_of_filter). rewrite Ez in Hin. set_solver. }
  eapply cycles_once; [by injection E as E; exact E|done|done|done|].
  unfold getLastSendAttempt in *. destruct (newest (of_notification n (attempts m))) as [z|] eqn:Ez; simpl; [|lia].
  apply newest_Some in Ez as [[_ Hz]%list_elem_of_filter _]. destruct (ok_row m Hok z Hz) as (_ & _ & _ & _ & _ & ?). lia.
Qed.

(** Deliveries one after the other. *)
Inductive delivers : mail → mail → Prop :=
| d_refl m : delivers m m
| d_step m1 m2 m3 with_dlq maxAttempts n providers r : delivers m1 m2 →
    executeDelivery with_dlq maxAttempts n providers m2 = Ok (Some (m3, r)) → delivers m1 m3.

Definition no_mail (h : tracker) : mail := {| attempts := []; health := h; dlq := []; calls := [] |}.

(** With deliveries of any notifications one after the other, retried and
    failed over in any way, no provider is called for a notification after one
    accepted it; and a further delivery of it calls none and answers with the
    recorded success. *)
Theorem mail_accepted_once h m : delivers (no_mail h) m →
  final_calls (calls m) ∧
  ∀ n, accepted n m → ∀ with_dlq maxAttempts providers, providers ≠ [] →
    ∃ r, executeDelivery with_dlq maxAttempts n providers m = Ok (Some (m, r)) ∧ success r = true ∧ deduped r = true.
Proof.
  intros Hd. assert (mail_ok m) as Hok.
  { remember (no_mail h) as m0. induction Hd as [|m1 m2 m3 d x n ps r Hd IH E]; subst.
    - split; simpl; [by intros r ?%elem_of_nil|by intros r1 r2 ?%elem_of_nil|by intros r1 r2 ?%elem_of_nil| |by intros [] ? ? ? ?].
      by intros n (p & k & ?%elem_of_nil).
    - by eapply execute_ok; [exact E|apply IH]. }
  split; [apply Hok|]. intros n Hacc with_dlq maxAttempts providers Hne. unfold executeDelivery. destruct providers; [done|]. cbn [throw_if mbind result_bind].
  destruct (last_sent n m Hok Hacc) as [r ->]. eexists. done.
Qed.


(** *** Through the job repository *)

Definition set_deduped (r : NotificationDeliveryResult) : NotificationDeliveryResult :=
  {| r_notification := r_notification r; success := success r; deduped := true; r_attempts := r_attempts r; r_key := r_key r;
     r_provider := r_provider r |}.

(** The job, which throws on a failed delivery and leaves its result aside. *)
Definition delivery_job (with_dlq : bool) (maxAttempts : Z) (n : string) (providers : list string) (w : mail * option NotificationDeliveryResult)
  : (mail * option NotificationDeliveryResult) * result string NotificationDeliveryResult :=
  match executeDelivery with_dlq maxAttempts n providers w.1 with
  | Ok (Some (m', r)) =>
      if success r then ((m', w.2), Ok r) else ((m', Some r), Err ("notification delivery failed: " +:+ n))
  | Ok None => (w, Err "out of fuel")
  | Err e => (w, Err e)
  end.

Definition job_input (n : string) : Jobs.CreateIdempotentJobInput :=
  Jobs.input Jobs.DEFAULT_EXPIRY_SECONDS Jobs.DEFAULT_CLAIM_TIMEOUT_SECONDS (Jobs.buildNotificationDeliveryJobKey n).

Definition deliver (t : Jobs.moments) (with_dlq : bool) (maxAttempts : Z) (n : string) (providers : list string) (m : mail)
    (jobs : gmap string (Jobs.IdempotentJobAttempt (R := NotificationDeliveryResult)))
  : mail * gmap string (Jobs.IdempotentJobAttempt (R := NotificationDeliveryResult)) * result Jobs.job_error NotificationDeliveryResult :=
  let '(w, jobs', out) := Jobs.execute t (job_input n) (delivery_job with_dlq maxAttempts n providers) (m, None) jobs in
  let m' := w.1 in
  let caught e :=
    match w.2 with
    | Some failure => Ok failure
    | None =>
        match sent_only (getLastSendAttempt n m') with
        | Some r => Ok (already_sent r n 1 (idempotencyKey r))
        | None =>
            match e with
            | Jobs.DuplicateJobExecution k =>
                Ok {| r_notification := n; success := false; deduped := true; r_attempts := 0;
                      r_key := Jobs.buildNotificationDeliveryJobKey n; r_provider := None |}
            | Jobs.JobError _ => Err e
            end
        end
    end in
  (m', jobs',
   match out with
   | Ok r =>
       match Jobs.result_of r with
       | Some x => Ok (if Jobs.alreadyProcessed r then set_deduped x else x)
       | None => caught (Jobs.JobError ("Notification delivery returned no result for " +:+ n))
       end
   | Err e => caught e
   end).

(** A delivery whose job completed calls no provider and changes nothing. *)
Lemma deliver_completed t with_dlq maxAttempts n providers m jobs a x :
  jobs !! Jobs.buildNotificationDeliveryJobKey n = Some a → Jobs.job_status a = Jobs.Completed → Jobs.job_result a = Some (Jobs.Value x) →
  Jobs.t_claim t < Jobs.expiresAt a → Jobs.t_find t < Jobs.expiresAt a →
  deliver t with_dlq maxAttempts n providers m jobs = (m, jobs, Ok (set_deduped x)).
Proof.
  intros Ha Hs Hr Hc Hf. unfold deliver, Jobs.execute, Jobs.claimAttempt. simpl. rewrite Ha. unfold Jobs.reclaimable. rewrite Hs.
  rewrite (bool_decide_eq_false_2 (Jobs.Completed = Jobs.Failed)), (bool_decide_eq_false_2 (Jobs.Completed = Jobs.Pending)) by done.
  rewrite (proj2 (Z.leb_gt _ _)) by done. simpl. unfold Jobs.findAttempt. rewrite Ha, (proj2 (Z.ltb_lt _ _)) by done.
  destruct a; simpl in *; subst. done.
Qed.
End Delivery.

(** ** Examples *)

Module MailExample.
Fixpoint newest_of (l : list SendAttempt) : option SendAttempt :=
  match l with
  | [] => None
  | r :: l' => match newest_of l' with Some x => if attemptedAt r <=? attemptedAt x then Some x else Some r | None => Some r end
  end.

Lemma newest_of_nil l : newest_of l = None → l = [].
Proof. destruct l as [|r l]; [done|]. simpl. destruct (newest_of l); [|done]. by destruct (_ <=? _). Qed.

Lemma newest_of_Some l r : newest_of l = Some r → r ∈ l ∧ ∀ x, x ∈ l → attemptedAt x ≤ attemptedAt r.
Proof.
  revert r. induction l as [|y l IH]; intros r; simpl; [done|]. destruct (newest_of l) as [z|] eqn:E.
  - destruct (IH z eq_refl) as [Hz Hmax]. destruct (Z.leb_spec (attemptedAt y) (attemptedAt z)); intros [= <-].
    + split; [by right|]. intros x [->|Hx]%elem_of_cons; [done|by apply Hmax].
    + split; [left|]. intros x [->|Hx]%elem_of_cons; [done|]. specialize (Hmax x Hx). lia.
  - apply newest_of_nil in E as ->. intros [= <-]. split; [left|]. by intros x [->|?%elem_of_nil]%elem_of_cons.
Qed.

Definition hash (s : string) : string := s.
Definition uuid (i : nat) : string := bigint_toString (Z.of_nat i).
Definition working (i : nat) : option string := None.
(** The first provider is down at the first call. *)
Definition flaky (i : nat) : answer := if Nat.eqb i 0 then Rejected "HTTP 503" else Accepted "r".
Definition step (newest : list SendAttempt → option SendAttempt) (answers : nat → answer) (clock : nat → Z) (errors : nat → option string) (m : mail)
  : option (mail * NotificationDeliveryResult) :=
  match executeDelivery hash newest answers clock Z.of_nat uuid errors true DEFAULT_MAX_ATTEMPTS "n" ["a"; "b"]%string m with
  | Ok o => o
  | Err _ => None
  end.
Definition m0 : mail := no_mail new_tracker.
Definition m1 : mail := match step newest_of flaky Z.of_nat working m0 with Some (m, _) => m | None => m0 end.

Lemma uuid_inj i j : uuid i = uuid j → i = j.
Proof.
  unfold uuid. intros E. destruct (bigint_toString_spec (Z.of_nat i)) as (_ & Hi & _); [lia|].
  destruct (bigint_toString_spec (Z.of_nat j)) as (_ & Hj & _); [lia|]. rewrite E in Hi. lia.
Qed.
End MailExample.

Lemma mail_accepted_once_witness :
  calls MailExample.m1 = [("n", "a", "n:1", false); ("n", "b", "n:2", true)]%string ∧ final_calls (calls MailExample.m1) ∧
  ∃ r, MailExample.step MailExample.newest_of MailExample.flaky Z.of_nat MailExample.working MailExample.m1 = Some (MailExample.m1, r) ∧ deduped r = true.
Proof.
  destruct (mail_accepted_once MailExample.hash MailExample.newest_of MailExample.flaky Z.of_nat Z.of_nat MailExample.uuid MailExample.working
    MailExample.uuid_inj (λ s t H, H) (λ i j H, proj1 (Nat2Z.inj_lt i j) H) (λ i, eq_refl) MailExample.newest_of_nil MailExample.newest_of_Some
    new_tracker MailExample.m1) as [Hf Hacc].
  { eapply (d_step _ _ _ _ _ _ _ _ _ _ true DEFAULT_MAX_ATTEMPTS "n" ["a"; "b"]%string); [apply d_refl|vm_compute; reflexivity]. }
  split; [vm_compute; reflexivity|]. split; [exact Hf|].
  destruct (Hacc "n"%string) with (with_dlq := true) (maxAttempts := DEFAULT_MAX_ATTEMPTS) (providers := ["a"; "b"]%string) as (r & E & _ & Hd); [|done|].
  - exists "b"%string, "n:2"%string. vm_compute. right. left.
  - exists r. unfold MailExample.step. rewrite E. done.
Defined.

Lemma delivery_ends_witness :
  ∃ m' r, MailExample.step MailExample.newest_of (λ _, Rejected "HTTP 503") Z.of_nat MailExample.working MailExample.m0 = Some (m', r) ∧
    Z.of_nat (length (calls m')) ≤ 4.
Proof.
  destruct (delivery_ends MailExample.hash MailExample.newest_of (λ _, Rejected "HTTP 503") Z.of_nat Z.of_nat MailExample.uuid MailExample.working
    true DEFAULT_MAX_ATTEMPTS "n" ["a"; "b"]%string MailExample.m0 ltac:(done) ltac:(done)) as (m' & r & E & Hl & _).
  exists m', r. unfold MailExample.step. rewrite E. split; [reflexivity|exact Hl].
Defined.

Lemma job_claims_exclusive_witness :
  ∃ p : Jobs.pool Z, Jobs.completed p = [("k"%string, 0, 7)] ∧ Jobs.now p = 100 ∧
    ∀ uuid, Jobs.claimAttempt (Jobs.now p) uuid (Jobs.input 1000 60 "k") (Jobs.rows p) = (Jobs.rows p, None).
Proof.
  set (p0 := Jobs.idle (R := Z) 0).
  set (row := {| Jobs.job_id := "u"; Jobs.jobKey := "k"; Jobs.jobType := Jobs.NOTIFICATION_DELIVERY_JOB_TYPE; Jobs.job_status := Jobs.Pending;
    Jobs.job_result := None; Jobs.attemptedAt := 0; Jobs.completedAt := None; Jobs.expiresAt := 1000 |} : Jobs.IdempotentJobAttempt (R := Z)).
  set (p1 := {| Jobs.now := 0; Jobs.rows := <["k"%string := row]> ∅; Jobs.running := [("u", "k", 0)]%string; Jobs.completed := [] |}).
  set (p2 := {| Jobs.now := 0; Jobs.rows := Jobs.markCompleted 0 "u" 7 (Jobs.rows p1); Jobs.running := []; Jobs.completed := [("k"%string, 0, 7)] |}).
  set (p3 := {| Jobs.now := 100; Jobs.rows := Jobs.rows p2; Jobs.running := []; Jobs.completed := Jobs.completed p2 |}).
  assert (Hs : rtc (Jobs.wstep 1000 60) p0 p3).
  { eapply rtc_l; [eapply (Jobs.w_claim _ _ p0 "u" "k" _ row); [reflexivity|intros k r; simpl; by rewrite lookup_empty|intros k z; apply not_elem_of_nil]|].
    eapply rtc_l; [exact (Jobs.w_complete 1000 60 p1 "u" "k" 0 7 [] [] eq_refl)|]. eapply rtc_once.
    exact (Jobs.w_tick 1000 60 p2 100 ltac:(done)). }
  destruct (Jobs.job_claims_exclusive 1000 60 ltac:(lia) 0 p3 Hs) as [_ H].
  destruct (H "k"%string 0 7) as [H1 _]; [left|simpl; lia|]. exists p3. split; [reflexivity|]. split; [reflexivity|exact H1].
Defined.

(** ** What goes wrong *)

Section Defects.
Import MailExample.

(** A success that cannot be recorded counts as a failure of the provider, and
    the next one sends the mail again. *)
Lemma unrecorded_success_resent :
  (λ x, calls x.1) <$> step newest_of (λ _, Accepted "r") Z.of_nat (λ i, if Nat.eqb i 0 then Some "read ECONNRESET"%string else None) m0 =
  Some [("n", "a", "n:1", true); ("n", "b", "n:2", true)]%string.
Proof. vm_compute. reflexivity. Qed.

(** After a time out, where the mail may have been sent, the notification goes
    to the dead letters; the next delivery sends it under another key. *)
Lemma ambiguous_delivery_resent :
  let answers i := if Nat.eqb i 0 then Rejected "Request timeout" else Accepted "r" in
  let first := step newest_of answers Z.of_nat working m0 in
  (length ∘ (λ x : mail * NotificationDeliveryResult, dlq x.1)) <$> first = Some 1%nat ∧
  (λ x, calls x.1) <$> (first ≫= λ x, step newest_of answers Z.of_nat working x.1) =
    Some [("n", "a", "n:1", false); ("n", "b", "n:2", true)]%string.
Proof. vm_compute. auto. Qed.

(** With three attempts in one millisecond the query may find the first of
    them, and an accepted mail is sent again under a used key. *)
Lemma simultaneous_attempts_resent :
  let answers i := if Nat.ltb i 2 then Rejected "HTTP 503" else Accepted "r" in
  (λ x, calls x.1) <$> (step (λ l, head l) answers (λ _, 0) working m0 ≫= λ x, step (λ l, head l) answers (λ _, 0) working x.1) =
  Some [("n", "a", "n:1", false); ("n", "b", "n:2", false); ("n", "a", "n:3", true); ("n", "a", "n:2", true)]%string.
Proof. vm_compute. reflexivity. Qed.

(** A later report of a client error marks the accepted attempt as failed, and
    the mail is sent again. *)
Lemma reconciled_mail_resent :
  let m := reconcileSend hash newest_of "x" "n" "r" 404 9 ["a"; "b"]%string m1 in
  (λ x, calls x.1) <$> step newest_of flaky Z.of_nat working m =
  Some (calls m1 ++ [("n", "b", "n:3", true)]%string).
Proof. vm_compute. reflexivity. Qed.
End Defects.
