(* ===== verification/Recovery.v ===== *)
(** * Errors of downstream calls, retries and time budgets

    Module [Errors]: [clients/httpErrors.ts] and [utils/retryClassifier.ts], on
    thrown values that live in a heap, so that chains of causes may be shared
    and cyclic and property reads may throw. Module [Policy]:
    [lib/retryPolicy.ts], with numbers as exact rationals. Module [Timeouts]:
    [lib/timeouts.ts] and [utils/timeoutContext.ts]. *)

From stdpp Require Import base option list gmap strings.
From Stdlib Require Import ZArith Lia Lqa QArith Qround Qpower Ascii.
From S2P Require Import Prelude JsLib.

Open Scope Z_scope.

Module Errors.

(** ** Thrown values *)

(** [undefined] or [null]; a primitive with its text; an object. *)
Inductive value := Nullish | Primitive (text : string) | Object (l : nat).

(** A property: not there (or null), of the type it is read at, of another type
    (with its text, empty when it is falsy), or a getter that throws. *)
Inductive field (A : Type) := Absent | Has (a : A) | Other (text : string) | Throws.
Arguments Absent {A}.
Arguments Has {A} a.
Arguments Other {A} text.
Arguments Throws {A}.

Record object := {
  is_Error : bool;
  is_DOMException : bool;
  p_name : field string;
  p_message : field string;
  p_code : field (string + Z);
  p_cause : field value;
  p_status : field Z;
  p_statusCode : field Z;
  p_response : field value;
  p_retryable : field bool;
  p_rpcCode : field Z;
  p_error : field value
}.

Definition plain : object :=
  {| is_Error := false; is_DOMException := false; p_name := Absent; p_message := Absent; p_code := Absent; p_cause := Absent;
     p_status := Absent; p_statusCode := Absent; p_response := Absent; p_retryable := Absent; p_rpcCode := Absent; p_error := Absent |}.

Definition MAX_CAUSE_DEPTH : nat := 8.

Inductive TransportErrorCode := TIMEOUT | RESET | REFUSED | NETWORK.
#[export] Instance transport_code_eq_dec : EqDecision TransportErrorCode.
Proof. solve_decision. Defined.

Inductive NormalizedErrorCode := Transport (c : TransportErrorCode) | PERMISSION | STALE | UNKNOWN.
#[export] Instance normalized_code_eq_dec : EqDecision NormalizedErrorCode.
Proof. solve_decision. Defined.

Record NormalizedError := { code : NormalizedErrorCode; message : string; retryable : bool }.
Record TransportError := { t_code : TransportErrorCode; t_message : string }.

Definition RESET_CODES : list string := ["ECONNRESET"; "EPIPE"; "ENOTCONN"].
Definition REFUSED_CODES : list string := ["ECONNREFUSED"].
Definition TIMEOUT_CODES : list string := ["ETIMEDOUT"; "ESOCKETTIMEDOUT"; "ECONNABORTED"].
Definition DNS_HOST_CODES : list string := ["ENOTFOUND"; "EAI_AGAIN"; "EHOSTUNREACH"].
Definition PERMISSION_CODES : list string := ["EACCES"; "EPERM"].

Definition has_code (s : list string) (c : string) : bool := existsb (String.eqb c) s.

Definition isTransportCode (c : string) : bool :=
  has_code RESET_CODES c || has_code REFUSED_CODES c || has_code TIMEOUT_CODES c || has_code DNS_HOST_CODES c.

Section Heap.
Variable heap : gmap nat object.

Definition get (l : nat) : object := default plain (heap !! l).

Definition instanceof_Error (v : value) : bool := match v with Object l => is_Error (get l) | _ => false end.

(** *** Guarded reads *)

Definition getNodeCode (v : value) : option string :=
  match v with Object l => match p_code (get l) with Has (inl s) => Some s | _ => None end | _ => None end.

Definition getCause (v : value) : value :=
  match v with Object l => match p_cause (get l) with Has c => c | Other t => Primitive t | _ => Nullish end | _ => Nullish end.

Definition getName (v : value) : string :=
  match v with Object l => match p_name (get l) with Has s => s | _ => EmptyString end | _ => EmptyString end.

Definition getSafeMessage (v : value) (fallback : string) : string :=
  match v with
  | Object l => match p_message (get l) with Has (String a s) => String a s | _ => fallback end
  | _ => fallback
  end.

(** Of an [Error]: [String(err.message || '')], cut and in lower case. *)
Definition getBoundedMessage (v : value) : string :=
  match v with
  | Object l => match p_message (get l) with Has s | Other s => toLowerCase (str_take 1000 s) | _ => EmptyString end
  | _ => EmptyString
  end.

(** A code that is there and not empty. *)
Definition node_code (v : value) : option string :=
  match getNodeCode v with Some EmptyString => None | o => o end.

(** *** Detectors *)

(** [fuel] is the depth that is left. *)
Fixpoint isAbortErrorAtDepth (fuel : nat) (v : value) : bool :=
  match fuel with
  | O => false
  | S f =>
      match v with
      | Object l =>
          (is_DOMException (get l) && String.eqb (getName v) "AbortError") || (is_Error (get l) && String.eqb (getName v) "AbortError") ||
          (is_Error (get l) && match getCause v with Nullish => false | c => isAbortErrorAtDepth f c end)
      | _ => false
      end
  end.

Definition isAbortError (v : value) : bool := isAbortErrorAtDepth (S MAX_CAUSE_DEPTH) v.

Fixpoint hasPermissionNodeCodeAtDepth (fuel : nat) (v : value) : bool :=
  match fuel with
  | O => false
  | S f =>
      instanceof_Error v &&
      ((match node_code v with Some c => has_code PERMISSION_CODES c | None => false end) ||
       (instanceof_Error (getCause v) && hasPermissionNodeCodeAtDepth f (getCause v)))
  end.

Definition isValidHttpStatus (n : Z) : bool := (100 <=? n) && (n <=? 599).

(** What [??] of two properties reads, and the read of one; [None] when a
    getter throws. *)
Definition read {A} (f : field A) : option (option A) :=
  match f with Throws => None | Has a => Some (Some a) | _ => Some None end.
Definition coalesce {A} (f g : field A) : option (option A) := match f with Absent => read g | _ => read f end.

Definition valid_status (o : option Z) : option Z := n ← o; if isValidHttpStatus n then Some n else None.

Definition getHttpStatus (v : value) : option Z :=
  match v with
  | Object l =>
      match coalesce (p_status (get l)) (p_statusCode (get l)) with
      | None => None
      | Some direct =>
          match valid_status direct with
          | Some n => Some n
          | None =>
              match p_response (get l) with
              | Has (Object r) => match read (p_status (get r)) with Some o => valid_status o | None => None end
              | _ => None
              end
          end
      end
  | _ => None
  end.

Definition isPermissionError (v : value) : bool :=
  (instanceof_Error v && hasPermissionNodeCodeAtDepth (S MAX_CAUSE_DEPTH) v) ||
  match getHttpStatus v with Some n => (n =? 401) || (n =? 403) | None => false end.

Definition socket_message (msg : string) : bool :=
  includes msg "socket hang up" || includes msg "econnreset" || includes msg "connection reset" ||
  includes msg "socket ended without sending a response" || includes msg "network request failed".

Definition fetch_failed (v : value) : bool := String.eqb (getName v) "TypeError" && includes (getBoundedMessage v) "fetch failed".

Definition isNetworkError (v : value) : bool :=
  if isAbortError v then false
  else if negb (instanceof_Error v) then false
  else if isPermissionError v then false
  else if match node_code v with Some c => isTransportCode c | None => false end then true
  else if fetch_failed v then true
  else socket_message (getBoundedMessage v).

Definition code_class (c : string) : option TransportErrorCode :=
  if has_code RESET_CODES c then Some RESET
  else if has_code REFUSED_CODES c then Some REFUSED
  else if has_code TIMEOUT_CODES c then Some TIMEOUT
  else if has_code DNS_HOST_CODES c then Some NETWORK else None.

Definition normalizeTransportError (v : value) : option TransportError :=
  if isAbortError v then
    Some {| t_code := TIMEOUT; t_message := if instanceof_Error v then getSafeMessage v "Request aborted" else "Request aborted" |}
  else if negb (instanceof_Error v) then None
  else if isPermissionError v then None
  else
    let m := getSafeMessage v EmptyString in
    match node_code v ≫= code_class with
    | Some c => Some {| t_code := c; t_message := m |}
    | None =>
        if fetch_failed v then
          let c := getCause v in
          match (if instanceof_Error c then node_code c ≫= code_class else None) with
          | Some x => Some {| t_code := x; t_message := getSafeMessage c m |}
          | None => Some {| t_code := NETWORK; t_message := m |}
          end
        else if socket_message (getBoundedMessage v) then Some {| t_code := RESET; t_message := m |}
        else None
    end.

Definition isRetryableHttpStatus (status : Z) : bool := (status =? 408) || (status =? 429) || (500 <=? status).
Definition isRetryableTransportCode (c : TransportErrorCode) : bool :=
  match c with TIMEOUT | RESET | REFUSED | NETWORK => true end.

Definition isStaleError (v : value) : bool :=
  if isPermissionError v then false
  else if match getHttpStatus v with Some n => (n =? 409) || (n =? 410) || (n =? 412) | None => false end then true
  else if negb (instanceof_Error v) then false
  else let msg := getBoundedMessage v in includes msg "stale" || includes msg "expired" || includes msg "precondition failed".

(** *** Decisions *)

Inductive RecoveryDecision := Retry (reason : option TransportErrorCode) | Reread | Fail (permission : bool).

(** [Retry None] is a retry because of the HTTP status. *)
Definition classifyRecovery (v : value) : RecoveryDecision :=
  if isPermissionError v then Fail true
  else if isStaleError v then Reread
  else match normalizeTransportError v with
  | Some t => if isRetryableTransportCode (t_code t) then Retry (Some (t_code t))
              else if match getHttpStatus v with Some n => isRetryableHttpStatus n | None => false end then Retry None else Fail false
  | None => if match getHttpStatus v with Some n => isRetryableHttpStatus n | None => false end then Retry None else Fail false
  end.

Definition code_of (s : string) : option NormalizedErrorCode :=
  if String.eqb s "TIMEOUT" then Some (Transport TIMEOUT) else if String.eqb s "RESET" then Some (Transport RESET)
  else if String.eqb s "REFUSED" then Some (Transport REFUSED) else if String.eqb s "NETWORK" then Some (Transport NETWORK)
  else if String.eqb s "PERMISSION" then Some PERMISSION else if String.eqb s "STALE" then Some STALE
  else if String.eqb s "UNKNOWN" then Some UNKNOWN else None.

Definition code_text (c : NormalizedErrorCode) : string :=
  match c with
  | Transport TIMEOUT => "TIMEOUT" | Transport RESET => "RESET" | Transport REFUSED => "REFUSED" | Transport NETWORK => "NETWORK"
  | PERMISSION => "PERMISSION" | STALE => "STALE" | UNKNOWN => "UNKNOWN"
  end.

(** The normalized error that a value is already. *)
Definition isNormalizedError (v : value) : option NormalizedError :=
  match v with
  | Object l =>
      if is_Error (get l) then None
      else match p_code (get l), p_message (get l), p_retryable (get l) with
      | Has (inl s), Has m, Has r => match code_of s with Some c => Some {| code := c; message := m; retryable := r |} | None => None end
      | _, _, _ => None
      end
  | _ => None
  end.

Definition normalizeError (v : value) : NormalizedError :=
  match isNormalizedError v with
  | Some e => e
  | None =>
      if isPermissionError v then {| code := PERMISSION; message := getSafeMessage v "Permission denied"; retryable := false |}
      else if isStaleError v then {| code := STALE; message := getSafeMessage v "Resource state is stale"; retryable := false |}
      else match normalizeTransportError v with
      | Some t => {| code := Transport (t_code t); message := t_message t; retryable := isRetryableTransportCode (t_code t) |}
      | None =>
          match getHttpStatus v with
          | Some n =>
              if isRetryableHttpStatus n
              then {| code := Transport NETWORK; message := getSafeMessage v ("HTTP " +:+ bigint_toString n); retryable := true |}
              else {| code := UNKNOWN; message := getSafeMessage v "Unknown error"; retryable := false |}
          | None => {| code := UNKNOWN; message := getSafeMessage v "Unknown error"; retryable := false |}
          end
      end
  end.

(** *** [utils/retryClassifier.ts] *)

(** The reasons, which are messages, are left out, but not the read of the
    message of an error that is not of the transport layer, which may throw. *)
Definition classifyTransportError (v : value) : result string (option TransportErrorCode) :=
  match normalizeTransportError v with
  | Some t => Ok (if isRetryableTransportCode (t_code t) then Some (t_code t) else None)
  | None =>
      match v with
      | Object l => match is_Error (get l), p_message (get l) with true, Throws => Err "getter" | _, _ => Ok None end
      | _ => Ok None
      end
  end.

Definition RETRYABLE_RPC_ERROR_CODES : list Z := [-32004; -32005].
Definition isRetryableRpcCode (c : option Z) : bool := match c with Some n => bool_decide (n ∈ RETRYABLE_RPC_ERROR_CODES) | None => false end.

(** The code of an RPC error; an error when a getter throws. *)
Definition extractRpcError (v : value) : result string (option Z) :=
  match v with
  | Object l =>
      match p_rpcCode (get l) with
      | Throws => Err "getter"
      | Has n => match (if is_Error (get l) then read (p_message (get l)) else Some None) with Some _ => Ok (Some n) | None => Err "getter" end
      | _ =>
          match p_error (get l) with
          | Throws => Err "getter"
          | Has (Object e) =>
              match read (p_code (get e)), read (p_message (get e)) with
              | Some c, Some _ => Ok (match c with Some (inr n) => Some n | _ => None end)
              | _, _ => Err "getter"
              end
          | _ => Ok None
          end
      end
  | _ => Ok None
  end.

Inductive DownstreamClassification :=
| NETWORK_ERROR (retry : bool) (transport : TransportErrorCode)
| TIMEOUT_ERROR (retry : bool)
| RPC_ERROR (retry : bool) (rpcCode : Z).

Definition classifyDownstreamError (v : value) : result string (option DownstreamClassification) :=
  rpc ← extractRpcError v;
  Ok (match rpc with
      | Some n => Some (RPC_ERROR (isRetryableRpcCode (Some n)) n)
      | None =>
          match normalizeTransportError v with
          | Some t =>
              let r := isRetryableTransportCode (t_code t) in
              Some (match t_code t with TIMEOUT => TIMEOUT_ERROR r | c => NETWORK_ERROR r c end)
          | None => None
          end
      end).

Definition classifyHttpStatus (status : Z) : bool := isRetryableHttpStatus status.
End Heap.

(** ** What the detectors find *)

Section Facts.
Variable heap : gmap nat object.

(** The k-th cause of an error, reached through errors only. *)
Fixpoint nth_cause (k : nat) (v : value) : option value :=
  match k with
  | O => Some v
  | S k' => if instanceof_Error heap v then match getCause heap v with Nullish => None | c => nth_cause k' c end else None
  end.

Definition is_abort (v : value) : bool :=
  match v with Object l => (is_DOMException (get heap l) || is_Error (get heap l)) && String.eqb (getName heap v) "AbortError" | _ => false end.

Definition is_permission (v : value) : bool :=
  instanceof_Error heap v && match node_code heap v with Some c => has_code PERMISSION_CODES c | None => false end.

Lemma abort_step f v : isAbortErrorAtDepth heap (S f) v =
  is_abort v || (instanceof_Error heap v && match getCause heap v with Nullish => false | c => isAbortErrorAtDepth heap f c end).
Proof.
  destruct v as [|t|l]; [done|done|]. unfold is_abort. cbn [isAbortErrorAtDepth instanceof_Error].
  destruct (is_DOMException _), (is_Error _), (String.eqb _ _); cbn [andb orb]; rewrite ?orb_false_r; done.
Qed.

Lemma abort_exact_fuel f v : isAbortErrorAtDepth heap f v = true ↔ ∃ k w, (k < f)%nat ∧ nth_cause k v = Some w ∧ is_abort w = true.
Proof.
  revert v. induction f as [|f IH]; intros v; [split; [done|intros (k & w & ? & _); lia]|]. rewrite abort_step, orb_true_iff, andb_true_iff. split.
  - intros [H|[He H]]; [exists 0%nat, v; split_and!; [lia|done|done]|]. destruct (getCause heap v) as [|t|l] eqn:Ec; [done| |];
      apply IH in H as (k & w & Hk & Hn & Hw); exists (S k), w; simpl; rewrite He, Ec; split_and!; auto; lia.
  - intros ([|k] & w & Hk & Hn & Hw); [injection Hn as ->; by left|right]. simpl in Hn. destruct (instanceof_Error heap v); [|done]. split; [done|].
    destruct (getCause heap v) as [|t|l]; [done| |]; apply IH; exists k, w; split_and!; auto; lia.
Qed.

Lemma permission_exact_fuel f v : hasPermissionNodeCodeAtDepth heap f v = true ↔ ∃ k w, (k < f)%nat ∧ nth_cause k v = Some w ∧ is_permission w = true.
Proof.
  revert v. induction f as [|f IH]; intros v; [split; [done|intros (k & w & ? & _); lia]|].
  change (hasPermissionNodeCodeAtDepth heap (S f) v) with (instanceof_Error heap v &&
    ((match node_code heap v with Some c => has_code PERMISSION_CODES c | None => false end) ||
     (instanceof_Error heap (getCause heap v) && hasPermissionNodeCodeAtDepth heap f (getCause heap v)))).
  rewrite andb_true_iff, orb_true_iff, andb_true_iff. split.
  - intros [He [H|[Hc H]]]; [exists 0%nat, v; unfold is_permission; rewrite He; split_and!; [lia|done|done]|].
    apply IH in H as (k & w & Hk & Hn & Hw). exists (S k), w. simpl. rewrite He. destruct (getCause heap v) as [|t|l]; [done| |]; split_and!; auto; lia.
  - intros ([|k] & w & Hk & Hn & Hw); [injection Hn as ->; apply andb_true_iff in Hw as [? ?]; auto|]. simpl in Hn.
    destruct (instanceof_Error heap v) eqn:Ev; [|done]. split; [done|right].
    assert (getCause heap v ≠ Nullish ∧ nth_cause k (getCause heap v) = Some w) as [Hne Hk'] by (destruct (getCause heap v); done).
    split; [|apply IH; exists k, w; split_and!; auto; lia].
    destruct k as [|k]; [injection Hk' as ->; by apply andb_true_iff in Hw as [? _]|]. simpl in Hk'. by destruct (instanceof_Error heap (getCause heap v)).
Qed.

(** The code of an error is of the transport layer when it has a class. *)
Lemma code_class_transport c : isTransportCode c = isSome (code_class c).
Proof. unfold isTransportCode, code_class. by destruct (has_code RESET_CODES c), (has_code REFUSED_CODES c), (has_code TIMEOUT_CODES c), (has_code DNS_HOST_CODES c). Qed.

Lemma network_iff v : isNetworkError heap v = isSome (normalizeTransportError heap v) && negb (isAbortError heap v).
Proof.
  unfold isNetworkError, normalizeTransportError. destruct (isAbortError heap v); [done|]. destruct (instanceof_Error heap v); [|done].
  destruct (isPermissionError heap v); [done|]. cbn [negb]. destruct (node_code heap v) as [c|]; simpl; rewrite ?code_class_transport.
  - destruct (code_class c); simpl; [done|]. destruct (fetch_failed heap v); [|by destruct (socket_message _)].
    destruct (instanceof_Error heap (getCause heap v)); [|done]. by destruct (node_code heap (getCause heap v) ≫= code_class).
  - destruct (fetch_failed heap v); [|by destruct (socket_message _)].
    destruct (instanceof_Error heap (getCause heap v)); [|done]. by destruct (node_code heap (getCause heap v) ≫= code_class).
Qed.

(** A normalized error as the object it is. *)
Definition as_object (e : NormalizedError) : object :=
  {| is_Error := false; is_DOMException := false; p_name := Absent; p_message := Has (message e); p_code := Has (inl (code_text (code e)));
     p_cause := Absent; p_status := Absent; p_statusCode := Absent; p_response := Absent; p_retryable := Has (retryable e);
     p_rpcCode := Absent; p_error := Absent |}.

Lemma normalize_idempotent e l : normalizeError (<[l := as_object e]> heap) (Object l) = e.
Proof.
  unfold normalizeError, isNormalizedError, get. rewrite lookup_insert_eq. destruct e as [c m r]; simpl. by destruct c as [[]| | |].
Qed.

Lemma retry_class v : classifyRecovery heap v = if isPermissionError heap v then Fail true else if isStaleError heap v then Reread else
  match normalizeTransportError heap v with
  | Some t => Retry (Some (t_code t))
  | None => if match getHttpStatus heap v with Some n => isRetryableHttpStatus n | None => false end then Retry None else Fail false
  end.
Proof.
  unfold classifyRecovery. destruct (isPermissionError heap v); [done|]. destruct (isStaleError heap v); [done|].
  destruct (normalizeTransportError heap v) as [t|]; [|done]. by destruct (t_code t).
Qed.

(** An error whose own status refuses permission. *)
Definition refused_status (v : value) : Prop := getHttpStatus heap v = Some 401 ∨ getHttpStatus heap v = Some 403.

(** A refusal of permission, by a code or a status, among the first nine errors
    of the chain of causes. *)
Definition permission_refused (v : value) : Prop :=
  ∃ k w, (k ≤ 8)%nat ∧ nth_cause k v = Some w ∧ (is_permission w = true ∨ refused_status w).

(** The refusals that the code sees: of the status, only that of the error
    itself. *)
Lemma permission_iff v : isPermissionError heap v = true ↔
  (∃ k w, (k ≤ 8)%nat ∧ nth_cause k v = Some w ∧ is_permission w = true) ∨ refused_status v.
Proof.
  unfold isPermissionError. rewrite orb_true_iff, andb_true_iff, permission_exact_fuel. unfold MAX_CAUSE_DEPTH. split.
  - intros [[_ (k & w & Hk & H)]|H]; [left; exists k, w; split; [lia|done]|right]. unfold refused_status. destruct (getHttpStatus heap v) as [n|]; [|done].
    apply orb_true_iff in H as [H%Z.eqb_eq|H%Z.eqb_eq]; subst n; auto.
  - intros [(k & w & Hk & Hn & Hw)|[-> | ->]]; [left|by right|by right]. split; [|exists k, w; split_and!; [lia|done|done]].
    destruct k; simpl in Hn; [injection Hn as ->; by apply andb_true_iff in Hw as [? _]|]. by destruct (instanceof_Error heap v).
Qed.

Lemma permission_refused_iff v : (∀ k w, (0 < k)%nat → nth_cause k v = Some w → ¬ refused_status w) →
  isPermissionError heap v = true ↔ permission_refused v.
Proof.
  intros Hn. rewrite permission_iff. split.
  - intros [(k & w & Hk & Hw & Hp)|H]; [exists k, w; auto|exists 0%nat, v; split_and!; [lia|done|auto]].
  - intros (k & w & Hk & Hw & [Hp|Hp]); [left; eauto|]. destruct k as [|k]; [injection Hw as ->; by right|].
    destruct (Hn (S k) w); [lia|done..].
Qed.

Lemma transport_seen v o : classifyTransportError heap v = Ok o → o = t_code <$> normalizeTransportError heap v.
Proof.
  unfold classifyTransportError. destruct (normalizeTransportError heap v) as [t|]; [intros [= <-]; simpl; by destruct (t_code t)|].
  destruct v as [|?|l]; simpl; [congruence..|]. repeat case_match; congruence.
Qed.

End Facts.

(** A normalized error is a plain object: it is kept by [normalizeError] and
    failed by [classifyRecovery], even when it says that it is retryable. *)
Lemma normalized_not_retried : let e := {| code := Transport NETWORK; message := "down"; retryable := true |} in
  let heap := <[0%nat := as_object e]> ∅ in normalizeError heap (Object 0) = e ∧ classifyRecovery heap (Object 0) = Fail false.
Proof. vm_compute. auto. Qed.

(** A refusal of permission that is wrapped as a cause, with its status, is not
    seen: the wrapping error is retried. *)
Lemma wrapped_403_retried :
  let forbidden := {| is_Error := true; is_DOMException := false; p_name := Has "Error"; p_message := Has "Forbidden"; p_code := Absent;
    p_cause := Absent; p_status := Has 403; p_statusCode := Absent; p_response := Absent; p_retryable := Absent; p_rpcCode := Absent; p_error := Absent |} in
  let failed := {| is_Error := true; is_DOMException := false; p_name := Has "TypeError"; p_message := Has "fetch failed"; p_code := Absent;
    p_cause := Has (Object 1); p_status := Absent; p_statusCode := Absent; p_response := Absent; p_retryable := Absent; p_rpcCode := Absent; p_error := Absent |} in
  let heap := <[0%nat := failed]> (<[1%nat := forbidden]> ∅) in
  classifyRecovery heap (Object 1) = Fail true ∧ classifyRecovery heap (Object 0) = Retry (Some NETWORK).
Proof. vm_compute. auto. Qed.

(** An aborted call that was refused permission is retried by one classifier
    and not by the other. *)
Lemma aborted_403_disagrees :
  let o := {| is_Error := true; is_DOMException := false; p_name := Has "AbortError"; p_message := Has "aborted"; p_code := Absent;
    p_cause := Absent; p_status := Has 403; p_statusCode := Absent; p_response := Absent; p_retryable := Absent; p_rpcCode := Absent; p_error := Absent |} in
  let heap := <[0%nat := o]> ∅ in
  classifyRecovery heap (Object 0) = Fail true ∧ classifyTransportError heap (Object 0) = Ok (Some TIMEOUT).
Proof. vm_compute. auto. Qed.
End Errors.

(** ** Numbers of JavaScript *)

(** Finite numbers are exact rationals: the rounding of the floating point
    operations is not in the model. *)
Inductive num := Fin (q : Q) | PInf | NInf | NaN.

Definition qmin (x y : Q) : Q := if Qle_bool x y then x else y.
Definition qmax (x y : Q) : Q := if Qle_bool x y then y else x.

Lemma qmin_spec x y : (qmin x y <= x)%Q ∧ (qmin x y <= y)%Q ∧ (qmin x y = x ∨ qmin x y = y).
Proof.
  unfold qmin. destruct (Qle_bool x y) eqn:E; [apply Qle_bool_iff in E; split_and!; auto; lra|].
  assert (¬ (x <= y)%Q) as H by (intros H; apply Qle_bool_iff in H; congruence). split_and!; auto; lra.
Qed.

Lemma qmax_spec x y : (x <= qmax x y)%Q ∧ (y <= qmax x y)%Q ∧ (qmax x y = x ∨ qmax x y = y).
Proof.
  unfold qmax. destruct (Qle_bool x y) eqn:E; [apply Qle_bool_iff in E; split_and!; auto; lra|].
  assert (¬ (x <= y)%Q) as H by (intros H; apply Qle_bool_iff in H; congruence). split_and!; auto; lra.
Qed.

Lemma floor_mono_Z q n : (inject_Z n <= q)%Q → n ≤ Qfloor q.
Proof. intros H. rewrite <- (Qfloor_Z n). by apply Qfloor_resp_le. Qed.

(** ** [lib/retryPolicy.ts] *)
Module Policy.

Inductive RetryJitterStrategy := none | full | equal | decorrelated.

Record RetryPolicy := { maxAttempts : num; baseDelayMs : num; maxDelayMs : num; backoffMultiplier : num; jitterStrategy : RetryJitterStrategy }.

Record RetryPolicyOverrides := {
  o_maxAttempts : option num; o_baseDelayMs : option num; o_maxDelayMs : option num; o_backoffMultiplier : option num;
  o_jitterStrategy : option RetryJitterStrategy }.

(** A policy after its caps were enforced: all its numbers are finite. *)
Record capped := { attempts : Q; base : Q; limit : Q; multiplier : Q; jitter : RetryJitterStrategy }.

Definition cap_maxAttempts : Q := 10.
Definition cap_baseDelayMs : Q := 60000.
Definition cap_maxDelayMs : Q := 300000.
Definition cap_backoffMultiplier : Q := 10.

Definition clamp (v mn mx : Q) : Q := qmin (qmax v mn) mx.

Definition sanitizeNumber (v : num) (fallback : Q) : Q := match v with Fin q => q | _ => fallback end.

Definition math_floor (v : num) : num := match v with Fin q => Fin (inject_Z (Qfloor q)) | _ => v end.

Definition enforceRetryPolicyCaps (p : RetryPolicy) : capped :=
  let boundedBaseDelay := clamp (sanitizeNumber (baseDelayMs p) 1) 1 cap_baseDelayMs in
  {| attempts := clamp (sanitizeNumber (math_floor (maxAttempts p)) 1) 1 cap_maxAttempts;
     base := boundedBaseDelay;
     limit := clamp (sanitizeNumber (maxDelayMs p) boundedBaseDelay) boundedBaseDelay cap_maxDelayMs;
     multiplier := clamp (sanitizeNumber (backoffMultiplier p) 1) 1 cap_backoffMultiplier;
     jitter := jitterStrategy p |}.

(** [{...p, ...definedOnly(o)}] *)
Definition spread (o : option RetryPolicyOverrides) (p : RetryPolicy) : RetryPolicy :=
  match o with
  | None => p
  | Some o =>
      {| maxAttempts := default (maxAttempts p) (o_maxAttempts o); baseDelayMs := default (baseDelayMs p) (o_baseDelayMs o);
         maxDelayMs := default (maxDelayMs p) (o_maxDelayMs o);
         backoffMultiplier := default (backoffMultiplier p) (o_backoffMultiplier o);
         jitterStrategy := default (jitterStrategy p) (o_jitterStrategy o) |}
  end.

Record ProviderRetryPolicies := { dflt : option RetryPolicyOverrides; providers : gmap string RetryPolicyOverrides }.

Definition resolveProviderRetryPolicy (provider : string) (defaults : RetryPolicy) (policies : option ProviderRetryPolicies)
    (overrides : option RetryPolicyOverrides) : capped :=
  enforceRetryPolicyCaps (spread overrides (spread (policies ≫= λ ps, providers ps !! provider) (spread (policies ≫= dflt) defaults))).

(** [r] is the random number drawn. *)
Definition getBackoffDelayMs (p : capped) (attempt : num) (r : Q) (previousDelayMs : option num) : Q :=
  let boundedAttempt := Z.max 1 (Qfloor (sanitizeNumber attempt 1)) in
  let exponentialDelay := (base p * multiplier p ^ Z.max 0 (boundedAttempt - 1))%Q in
  let cappedDelay := qmin exponentialDelay (limit p) in
  match jitter p with
  | full => inject_Z (Qfloor (r * cappedDelay))
  | equal => let half := (cappedDelay / 2)%Q in inject_Z (Qfloor (half + r * half))
  | decorrelated =>
      let prev := clamp (sanitizeNumber (default (Fin (base p)) previousDelayMs) (base p)) (base p) (limit p) in
      let delay := inject_Z (Qfloor (base p + r * (prev * 3 - base p))) in
      qmin cappedDelay delay
  | none => inject_Z (Qfloor cappedDelay)
  end.

(** *** Bounds *)

Record policy_ok (p : capped) : Prop := {
  ok_attempts : ∃ n, attempts p = inject_Z n ∧ 1 ≤ n ≤ 10;
  ok_base : (1 <= base p <= 60000)%Q;
  ok_limit : (base p <= limit p <= 300000)%Q;
  ok_multiplier : (1 <= multiplier p <= 10)%Q
}.

Lemma clamp_bounds v mn mx : (mn <= mx)%Q → (mn <= clamp v mn mx <= mx)%Q.
Proof.
  intros H. unfold clamp. destruct (qmax_spec v mn) as (_ & Hm & _), (qmin_spec (qmax v mn) mx) as (_ & Hx & [E|E]); rewrite E in *; split; lra.
Qed.

Lemma clamp_id v mn mx : (mn <= v <= mx)%Q → clamp v mn mx = qmax v mn ∧ (clamp v mn mx == v)%Q.
Proof.
  intros [H1 H2]. unfold clamp, qmin, qmax. destruct (Qle_bool v mn) eqn:E.
  - apply Qle_bool_iff in E. assert (Qle_bool mn mx = true) as -> by (apply Qle_bool_iff; lra). split; [done|lra].
  - assert (Qle_bool v mx = true) as -> by (apply Qle_bool_iff; lra). split; [done|lra].
Qed.

Lemma clamp_integer z : ∃ n, clamp (inject_Z z) 1 10 = inject_Z n ∧ 1 ≤ n ≤ 10.
Proof.
  unfold clamp, qmin, qmax. change 1%Q with (inject_Z 1). change 10%Q with (inject_Z 10).
  destruct (Qle_bool (inject_Z z) (inject_Z 1)) eqn:E1.
  - exists 1. split; [done|lia].
  - assert (¬ z ≤ 1) by (intros H; rewrite Zle_Qle in H; apply Qle_bool_iff in H; congruence).
    destruct (Qle_bool (inject_Z z) (inject_Z 10)) eqn:E2; [|exists 10; split; [done|lia]].
    apply Qle_bool_iff in E2. rewrite <- Zle_Qle in E2. exists z. split; [done|lia].
Qed.

Lemma enforced_ok p : policy_ok (enforceRetryPolicyCaps p).
Proof.
  unfold enforceRetryPolicyCaps. set (b := clamp (sanitizeNumber (baseDelayMs p) 1) 1 cap_baseDelayMs).
  assert (1 <= b <= 60000)%Q as Hb by (apply clamp_bounds; unfold cap_baseDelayMs; lra). constructor; simpl.
  - unfold cap_maxAttempts. destruct (maxAttempts p); simpl; try (apply (clamp_integer 1)). apply clamp_integer.
  - done.
  - apply clamp_bounds. unfold cap_maxDelayMs. lra.
  - apply clamp_bounds. unfold cap_backoffMultiplier. lra.
Qed.

Lemma Qpower_ge1 (q : Q) n : (1 <= q)%Q → 0 ≤ n → (1 <= q ^ n)%Q.
Proof. intros Hq Hn. pose proof (Qpower_le_compat_l q 0 n Hn Hq). rewrite Qpower_0_r in H. done. Qed.

Definition exponent (attempt : num) : Z := Z.max 0 (Z.max 1 (Qfloor (sanitizeNumber attempt 1)) - 1).
Definition cap_at (p : capped) (attempt : num) : Q := qmin (base p * multiplier p ^ exponent attempt) (limit p).

Lemma cap_at_bounds p a : policy_ok p → (base p <= cap_at p a <= limit p)%Q.
Proof.
  intros [_ [Hb1 Hb2] [Hl1 Hl2] [Hm1 Hm2]]. unfold cap_at.
  pose proof (Qpower_ge1 (multiplier p) (exponent a) Hm1 ltac:(unfold exponent; lia)).
  destruct (qmin_spec (base p * multiplier p ^ exponent a) (limit p)) as (_ & Hx & [E|E]); rewrite E in *; split; try lra; nra.
Qed.

Lemma floor_in (q lo hi : Q) : (lo <= q)%Q → (q <= hi)%Q → (inject_Z (Qfloor lo) <= inject_Z (Qfloor q) <= hi)%Q.
Proof. intros H1 H2. split; [rewrite <- Zle_Qle; by apply Qfloor_resp_le|]. pose proof (Qfloor_le q). lra. Qed.

(** Every delay of a capped policy lies between zero and the cap of its attempt;
    without jitter, or with a decorrelated one, it is not under the base delay. *)
Lemma delay_bounds p a r prev : policy_ok p → (0 <= r < 1)%Q →
  let d := getBackoffDelayMs p a r prev in
  (0 <= d <= cap_at p a)%Q ∧
  (match jitter p with
   | none | decorrelated => inject_Z (Qfloor (base p)) <= d
   | equal => inject_Z (Qfloor (base p / 2)) <= d
   | full => True
   end)%Q.
Proof.
  intros Hok [Hr0 Hr1] d. pose proof (cap_at_bounds p a Hok) as [Hc1 Hc2]. destruct Hok as [_ [Hb1 Hb2] [Hl1 Hl2] _].
  assert (∀ q, (0 <= q)%Q → (0 <= inject_Z (Qfloor q))%Q) as H0.
  { intros q Hq. change 0%Q with (inject_Z 0). rewrite <- Zle_Qle. by apply floor_mono_Z. }
  unfold d, getBackoffDelayMs. fold (exponent a). fold (cap_at p a). destruct (jitter p).
  - destruct (floor_in (cap_at p a) (base p) (cap_at p a)) as [H1 H2]; [lra..|]. split; [|done]. split; [apply H0; lra|done].
  - destruct (floor_in (r * cap_at p a) 0 (cap_at p a)) as [H1 H2]; [nra..|]. split; [|done]. split; [apply H0; nra|done].
  - unfold Qdiv. change (/ 2)%Q with (1 # 2).
    destruct (floor_in (cap_at p a * (1 # 2) + r * (cap_at p a * (1 # 2))) (base p * (1 # 2)) (cap_at p a)) as [H1 H2]; [nra..|].
    split; [|done]. split; [apply H0; nra|done].
  - set (pv := clamp _ (base p) (limit p)). assert (base p <= pv <= limit p)%Q as [Hp1 Hp2] by (apply clamp_bounds; lra).
    set (q := (base p + r * (pv * 3 - base p))%Q). assert (base p <= q)%Q as Hq by (unfold q; nra).
    destruct (floor_in q (base p) q) as [H1 H2]; [lra..|]. pose proof (H0 (base p) ltac:(lra)). pose proof (Qfloor_le (base p)).
    destruct (qmin_spec (cap_at p a) (inject_Z (Qfloor q))) as (Hx & Hy & [E|E]); rewrite E in *; split_and!; lra.
Qed.

Lemma cap_mono p a b : policy_ok p → exponent a ≤ exponent b → (cap_at p a <= cap_at p b)%Q.
Proof.
  intros [_ [Hb1 _] _ [Hm1 _]] He. pose proof (Qpower_le_compat_l (multiplier p) (exponent a) (exponent b) He Hm1).
  unfold cap_at. assert (base p * multiplier p ^ exponent a <= base p * multiplier p ^ exponent b)%Q by nra.
  destruct (qmin_spec (base p * multiplier p ^ exponent a) (limit p)) as (Hx & Hy & _),
    (qmin_spec (base p * multiplier p ^ exponent b) (limit p)) as (_ & _ & [E|E]); rewrite E; lra.
Qed.

(** A policy within the caps is left as it is. *)
Definition as_policy (c : capped) : RetryPolicy :=
  {| maxAttempts := Fin (attempts c); baseDelayMs := Fin (base c); maxDelayMs := Fin (limit c); backoffMultiplier := Fin (multiplier c);
     jitterStrategy := jitter c |}.

Lemma enforce_within p : policy_ok p →
  let p' := enforceRetryPolicyCaps (as_policy p) in
  (attempts p' == attempts p ∧ base p' == base p ∧ limit p' == limit p ∧ multiplier p' == multiplier p)%Q ∧ jitter p' = jitter p.
Proof.
  intros [(n & En & Hn) Hb Hl Hm] p'. unfold p', enforceRetryPolicyCaps, as_policy. simpl. split_and!; [| | | |done].
  - rewrite En, Qfloor_Z. apply clamp_id. change 1%Q with (inject_Z 1). unfold cap_maxAttempts. change 10%Q with (inject_Z 10). by rewrite <- !Zle_Qle.
  - by apply clamp_id.
  - assert (clamp (base p) 1 cap_baseDelayMs == base p)%Q as E by (by apply clamp_id). apply clamp_id. unfold cap_maxDelayMs. lra.
  - by apply clamp_id.
Qed.
End Policy.

(** ** The retry executor of [examples/retryExecutor.ts] *)
Module Retry.
Import Errors Policy.

Record ExtendedRetryPolicy := {
  policy : capped;
  retryableErrors : option (list string);
  retryableStatusCodes : option (list Z);
  timeoutMs : option num
}.

Record ExtendedRetryPolicyOverrides := {
  e_policy : RetryPolicyOverrides; e_retryableErrors : option (list string); e_retryableStatusCodes : option (list Z); e_timeoutMs : option num }.

Record ExtendedProviderPolicies := { e_dflt : option ExtendedRetryPolicyOverrides; e_providers : gmap string ExtendedRetryPolicyOverrides }.

Definition plain_policies (ps : ExtendedProviderPolicies) : ProviderRetryPolicies :=
  {| dflt := e_policy <$> e_dflt ps; providers := e_policy <$> e_providers ps |}.

(** [a ?? b] *)
Definition orElse {A} (a b : option A) : option A := match a with Some _ => a | None => b end.

(** The first of the overrides, the policy of the provider, the default policy
    and the defaults that has the member. *)
Definition first_of {A} (member : ExtendedRetryPolicyOverrides → option A) (provider : string) (policies : option ExtendedProviderPolicies)
    (overrides : option ExtendedRetryPolicyOverrides) (d : option A) : option A :=
  orElse (overrides ≫= member) (orElse (policies ≫= λ ps, e_providers ps !! provider ≫= member) (orElse ((policies ≫= e_dflt) ≫= member) d)).

Definition resolveExtendedProviderRetryPolicy (provider : string) (defaults : RetryPolicy) (dErrors : option (list string))
    (dStatus : option (list Z)) (dTimeout : option num) (policies : option ExtendedProviderPolicies)
    (overrides : option ExtendedRetryPolicyOverrides) : ExtendedRetryPolicy :=
  {| policy := resolveProviderRetryPolicy provider defaults (plain_policies <$> policies) (e_policy <$> overrides);
     retryableErrors := first_of e_retryableErrors provider policies overrides dErrors;
     retryableStatusCodes := first_of e_retryableStatusCodes provider policies overrides dStatus;
     timeoutMs := first_of e_timeoutMs provider policies overrides dTimeout |}.

Section Executor.
Variable heap : gmap nat object.
(** [normalizeTransportError] of the file beside the executor. *)
Variable transport : value → option TransportErrorCode.
(** [String] of an object that is no [Error], and the [errorCode] property. *)
Variable text_of : nat → string.
Variable other_code : nat → option string.

Definition getter {A} : result string A := Err "getter".

Definition read_field {A} (f : field A) : result string (option A) := match read f with Some o => Ok o | None => getter end.

(** A property in a template string. *)
Definition shown (f : field string) : result string string :=
  match f with Throws => getter | Has s | Other s => Ok s | Absent => Ok "undefined" end.

(** [error?.status ?? error?.statusCode] and [error?.rpcCode ?? error?.error?.code], when they are numbers. *)
Definition status_of (v : value) : result string (option Z) :=
  match v with
  | Object l => match coalesce (p_status (get heap l)) (p_statusCode (get heap l)) with Some o => Ok o | None => getter end
  | _ => Ok None
  end.

Definition rpcCode_of (v : value) : result string (option Z) :=
  match v with
  | Object l =>
      match p_rpcCode (get heap l) with
      | Throws => getter
      | Has n => Ok (Some n)
      | Other _ => Ok None
      | Absent =>
          match p_error (get heap l) with
          | Throws => getter
          | Has (Object e) => c ← read_field (p_code (get heap e)); Ok (match c with Some (inr n) => Some n | _ => None end)
          | _ => Ok None
          end
      end
  | _ => Ok None
  end.

Definition errorStr (v : value) : result string string :=
  match v with
  | Object l =>
      if is_Error (get heap l)
      then n ← shown (p_name (get heap l)); m ← shown (p_message (get heap l)); Ok (n +:+ ": " +:+ m)
      else Ok (text_of l)
  | Primitive t => Ok t
  | Nullish => Ok "undefined"
  end.

(** [error?.code || error?.errorCode], as text. *)
Definition error_code (v : value) : result string (option string) :=
  match v with
  | Object l =>
      match p_code (get heap l) with
      | Throws => getter
      | Has (inl (String a s)) => Ok (Some (String a s))
      | Has (inr n) => Ok (if n =? 0 then other_code l else Some (bigint_toString n))
      | Other (String a s) => Ok (Some (String a s))
      | _ => Ok (other_code l)
      end
  | _ => Ok None
  end.

Definition matches_pattern (patterns : list string) (v : value) : result string bool :=
  s ← errorStr v; c ← error_code v;
  Ok (existsb (λ p, match c with Some t => includes t p | None => false end || includes s p) patterns).

Definition is_nonretryable (v : value) : result string bool :=
  match v with
  | Object l => n ← read_field (p_name (get heap l)); Ok (match n with Some s => String.eqb s "NonRetryableError" | None => false end)
  | _ => Ok false
  end.

Definition isErrorRetryable (cfg : ExtendedRetryPolicy) (v : value) : result string bool :=
  no ← is_nonretryable v;
  if (no : bool) then Ok false else
  custom ← (match retryableErrors cfg with Some (p :: ps) => matches_pattern (p :: ps) v | _ => Ok false end);
  if (custom : bool) then Ok true else
  match transport v with
  | Some _ => Ok true
  | None =>
      status ← status_of v;
      match status with
      | Some n =>
          Ok (match retryableStatusCodes cfg with Some (c :: cs) => existsb (Z.eqb n) (c :: cs) | _ => isRetryableHttpStatus n end)
      | None => rpc ← rpcCode_of v; Ok (isRetryableRpcCode rpc)
      end
  end.

(** The code for the metrics, whose computation may throw; the one after the
    loop ([timeouts] false) does not look for timeouts. *)
Definition errorCode_with (timeouts : bool) (v : value) : result string string :=
  c ← (match v with
       | Object l =>
           if is_Error (get heap l) then
             match transport v with
             | Some t => Ok (code_text (Transport t))
             | None =>
                 n ← read_field (p_name (get heap l));
                 let name := match p_name (get heap l) with Has (String a s) | Other (String a s) => String a s | _ => "ERROR" end in
                 if negb timeouts then Ok name
                 else if match n with Some s => String.eqb s "AbortError" | None => false end then Ok "TIMEOUT_ERROR"
                 else match p_message (get heap l) with
                 | Has m => Ok (if includes m "timeout" then "TIMEOUT_ERROR" else name)
                 | Throws => getter
                 | _ => Err "TypeError"
                 end
             end
           else Ok "UNKNOWN"
       | _ => Ok "UNKNOWN"
       end);
  status ← status_of v;
  rpc ← rpcCode_of v;
  Ok (match rpc with
      | Some n => "RPC_" +:+ bigint_toString n
      | None => match status with Some n => "HTTP_" +:+ bigint_toString n | None => c end
      end).

Definition errorCode : value → result string string := errorCode_with true.
Definition finalErrorCode : value → result string string := errorCode_with false.

(** The line of the log before a retry reads the message. *)
Definition log_line (v : value) : result string () :=
  match v with
  | Nullish => Err "TypeError"
  | Primitive _ => Ok ()
  | Object l => _ ← read_field (p_message (get heap l)); Ok ()
  end.

Section Run.
Context {T : Type}.
(** What the n-th call of the operation gives, and the n-th random number. *)
Variable operation : Z → result value T.
Variable random : Z → Q.

Inductive outcome := Returned (x : T) | Threw (v : value) | Broke (e : string).

(** What is observed: [onSuccess], [onRetryAttempt] with its delay, [onRetryExhausted]. *)
Inductive observation := OnSuccess (attempt : Z) | OnRetryAttempt (attempt : Z) (delayMs : Q) (c : string) | OnRetryExhausted (attempts : Z) (c : string).

Record run := { calls : Z; slept : list Q; observed : list observation; result_of : outcome }.

Definition add_retry (attempt : Z) (delay : Q) (c : string) (r : run) : run :=
  {| calls := calls r; slept := delay :: slept r; observed := OnRetryAttempt attempt delay c :: observed r; result_of := result_of r |}.

Definition stop (attempt : Z) (obs : list observation) (o : outcome) : run := {| calls := attempt; slept := []; observed := obs; result_of := o |}.

(** What is done with the error of an attempt: go on after a delay, or end. *)
Definition on_error (p : ExtendedRetryPolicy) (maxAttempts attempt : Z) (e : value) : result run (Q * string) :=
  match (if attempt <? maxAttempts then isErrorRetryable p e else Ok false) with
  | Err x => Err (stop attempt [] (Broke x))
  | Ok shouldRetry =>
      match errorCode e with
      | Err x => Err (stop attempt [] (Broke x))
      | Ok c =>
          if (shouldRetry : bool) then
            let delay := getBackoffDelayMs (policy p) (Fin (inject_Z attempt)) (random attempt) None in
            match log_line e with
            | Err x => Err (stop attempt [OnRetryAttempt attempt delay c] (Broke x))
            | Ok _ => Ok (delay, c)
            end
          else Err (stop attempt [OnRetryExhausted attempt c] (Threw e))
      end
  end.

(** [left] attempts are left; the code after the loop is reached when none was
    made. *)
Fixpoint attempt_loop (p : ExtendedRetryPolicy) (maxAttempts : Z) (left : nat) (attempt : Z) (lastError : value) : run :=
  match left with
  | O =>
      match finalErrorCode lastError with
      | Ok c => stop (attempt - 1) [OnRetryExhausted maxAttempts c] (Threw lastError)
      | Err x => stop (attempt - 1) [] (Broke x)
      end
  | S n =>
      match operation attempt with
      | Ok x => stop attempt [OnSuccess attempt] (Returned x)
      | Err e =>
          match on_error p maxAttempts attempt e with
          | Err r => r
          | Ok (delay, c) => add_retry attempt delay c (attempt_loop p maxAttempts n (attempt + 1) e)
          end
      end
  end.

Definition executeWithRetry (p : ExtendedRetryPolicy) : run :=
  let m := Qfloor (attempts (policy p)) in attempt_loop p m (Z.to_nat m) 1 Nullish.

(** *** What a run does *)

(** The errors of all the calls but the last were retried, after the delays of
    the policy; the last one ends the run. *)
Record run_ok (p : ExtendedRetryPolicy) (m a : Z) (r : run) : Prop := {
  run_calls : a ≤ calls r ≤ m;
  run_retried : ∀ k, a ≤ k < calls r → ∃ e, operation k = Err e ∧ isErrorRetryable p e = Ok true;
  run_slept : slept r = (λ k, getBackoffDelayMs (policy p) (Fin (inject_Z k)) (random k) None) <$> seqZ a (calls r - a);
  run_result : match result_of r with
    | Returned x => operation (calls r) = Ok x
    | Threw e => operation (calls r) = Err e ∧ (calls r = m ∨ isErrorRetryable p e = Ok false)
    | Broke x => ∃ e, operation (calls r) = Err e ∧ (isErrorRetryable p e = Err x ∨ errorCode e = Err x ∨ log_line e = Err x)
    end
}.

Lemma stop_ok p m a obs o : a ≤ m →
  (match o with
   | Returned x => operation a = Ok x
   | Threw e => operation a = Err e ∧ (a = m ∨ isErrorRetryable p e = Ok false)
   | Broke x => ∃ e, operation a = Err e ∧ (isErrorRetryable p e = Err x ∨ errorCode e = Err x ∨ log_line e = Err x)
   end) → run_ok p m a (stop a obs o).
Proof. intros Ha Ho. constructor; simpl; [lia|intros; lia|by rewrite Z.sub_diag|done]. Qed.

Lemma on_error_spec p m a e : a ≤ m → operation a = Err e →
  match on_error p m a e with
  | Err r => run_ok p m a r
  | Ok (delay, _) => a < m ∧ isErrorRetryable p e = Ok true ∧ delay = getBackoffDelayMs (policy p) (Fin (inject_Z a)) (random a) None
  end.
Proof.
  intros Ha Ho. unfold on_error. destruct (Z.ltb_spec a m).
  - destruct (isErrorRetryable p e) as [b|x] eqn:Er; [|apply stop_ok; eauto]. destruct (errorCode e) as [c|x] eqn:Ec; [|apply stop_ok; eauto 6].
    destruct b; [|apply stop_ok; eauto]. destruct (log_line e) eqn:El; [done|apply stop_ok; eauto 6].
  - destruct (errorCode e) as [c|x] eqn:Ec; apply stop_ok; eauto 6. split; [done|left; lia].
Qed.

Lemma loop_ok p m n a last : m = a + Z.of_nat n → run_ok p m a (attempt_loop p m (S n) a last).
Proof.
  revert a last. induction n as [|n IH]; intros a last Hm; cbn [attempt_loop]; destruct (operation a) as [x|e] eqn:Eo;
    try (apply stop_ok; [lia|done]); pose proof (on_error_spec p m a e ltac:(lia) Eo) as He;
    destruct (on_error p m a e) as [[d c]|r]; try done; destruct He as (Hlt & Hr & ->); [lia|].
  destruct (IH (a + 1) e ltac:(lia)) as [Hc Hk Hs Hres]. cbn [attempt_loop] in *. constructor; simpl; [lia| | |done].
  - intros k Hk'. destruct (decide (k = a)) as [-> |]; [eauto|apply Hk; lia].
  - rewrite Hs. rewrite (seqZ_cons a) by lia. simpl. repeat f_equal; lia.
Qed.
End Run.
End Executor.
Arguments outcome : clear implicits.
Arguments run : clear implicits.

(** C36. A call through the retry executor ends: whatever the operation does at
    each attempt, whatever the defaults, the policies of the providers and the
    overrides ask for, it is called between one and ten times, and as often as
    the capped policy says at most; every call but the last failed with an
    error that [isErrorRetryable] accepts; between two calls the delay of the
    policy is slept, of at least zero and at most the cap of its attempt, five
    minutes at most; and the result is the value of the last call or its error,
    thrown only when it is not retryable or when no attempt is left (an error
    whose properties cannot be read replaces it). *)
Theorem retries_bounded heap transport text_of other_code {T} (operation : Z → result value T) (random : Z → Q)
    provider defaults dErrors dStatus dTimeout policies overrides (Hr : ∀ k, (0 <= random k < 1)%Q) :
  let p := resolveExtendedProviderRetryPolicy provider defaults dErrors dStatus dTimeout policies overrides in
  let r := executeWithRetry heap transport text_of other_code operation random p in
  let retryable := isErrorRetryable heap transport text_of other_code p in
  (∃ m, attempts (policy p) = inject_Z m ∧ 1 ≤ calls r ≤ m ∧ m ≤ 10 ∧
    match result_of r with
    | Returned x => operation (calls r) = Ok x
    | Threw e => operation (calls r) = Err e ∧ (calls r = m ∨ retryable e = Ok false)
    | Broke x => ∃ e, operation (calls r) = Err e ∧ (retryable e = Err x ∨ errorCode heap transport e = Err x ∨ log_line heap e = Err x)
    end) ∧
  (∀ k, 1 ≤ k < calls r → ∃ e, operation k = Err e ∧ retryable e = Ok true) ∧
  (∀ i d, slept r !! i = Some d → 0 <= d <= cap_at (policy p) (Fin (inject_Z (Z.of_nat i + 1))) ∧ d <= 300000)%Q ∧
  Z.of_nat (length (slept r)) = calls r - 1.
Proof.
  intros p r retryable. assert (policy_ok (policy p)) as Hok by apply enforced_ok.
  destruct (ok_attempts _ Hok) as (m & Em & Hm1 & Hm2).
  assert (run_ok heap transport text_of other_code operation random p m 1 r) as [Hc Hk Hs Hres].
  { unfold r, executeWithRetry. rewrite Em, Qfloor_Z. replace (Z.to_nat m) with (S (Z.to_nat (m - 1))) by lia. apply loop_ok. lia. }
  split_and!; [exists m; auto|done| |].
  - intros i d Hi. rewrite Hs in Hi. apply list_lookup_fmap_Some in Hi as (k & -> & Hi). apply lookup_seqZ in Hi as [-> Hi].
    replace (1 + Z.of_nat i) with (Z.of_nat i + 1) by lia.
    destruct (delay_bounds (policy p) (Fin (inject_Z (Z.of_nat i + 1))) (random (Z.of_nat i + 1)) None Hok (Hr _)) as [[H1 H2] _].
    pose proof (cap_at_bounds (policy p) (Fin (inject_Z (Z.of_nat i + 1))) Hok) as [_ Hx]. destruct (ok_limit _ Hok) as [_ Hl].
    split; [done|]. lra.
  - rewrite Hs, length_fmap, length_seqZ. lia.
Qed.

Definition DEFAULT_RETRY : RetryPolicy :=
  {| maxAttempts := Fin 3; baseDelayMs := Fin 200; maxDelayMs := Fin 2000; backoffMultiplier := Fin 2; jitterStrategy := none |}.

Definition reset_error : object :=
  {| is_Error := true; is_DOMException := false; p_name := Has "Error"; p_message := Has "read ECONNRESET"; p_code := Has (inl "ECONNRESET");
     p_cause := Absent; p_status := Absent; p_statusCode := Absent; p_response := Absent; p_retryable := Absent; p_rpcCode := Absent; p_error := Absent |}.

Definition flaky (n : Z) : result value Z := if n <? 3 then Err (Object 0) else Ok 42.

(** Two resets, then an answer: three calls, after 200 and 400 milliseconds. *)
Lemma retries_bounded_witness :
  let heap := <[0%nat := reset_error]> ∅ in
  let transport v := t_code <$> normalizeTransportError heap v in
  let p := resolveExtendedProviderRetryPolicy "soroban" DEFAULT_RETRY None None None None None in
  let r := executeWithRetry heap transport (λ _, EmptyString) (λ _, None) flaky (λ _, (1 # 2)) p in
  (calls r = 3 ∧ result_of r = Returned 42 ∧ slept r = [inject_Z 200; inject_Z 400]) ∧
  Z.of_nat (length (slept r)) = calls r - 1.
Proof.
  intros heap transport p r. split; [by vm_compute|].
  apply (retries_bounded heap transport (λ _, EmptyString) (λ _, None) flaky (λ _, (1 # 2))). intros k. split; [discriminate|reflexivity].
Defined.
End Retry.

(** ** Time budgets: [lib/timeouts.ts], [utils/timeoutContext.ts],
    [lib/timeoutExecutor.ts] and [middleware/timeoutBudget.ts] *)
Module Timeouts.
Import Errors.

Inductive ServiceType := database | cache | queue | http | soroban | webhook | grpc.
#[export] Instance service_eq_dec : EqDecision ServiceType.
Proof. solve_decision. Defined.

Inductive TimeoutReasonCode :=
| DB_QUERY_TIMEOUT | DB_TRANSACTION_TIMEOUT | CACHE_GET_TIMEOUT | CACHE_SET_TIMEOUT | QUEUE_PUBLISH_TIMEOUT | QUEUE_PROCESS_TIMEOUT
| HTTP_REQUEST_TIMEOUT | SOROBAN_RPC_TIMEOUT | WEBHOOK_DELIVERY_TIMEOUT | GRPC_TIMEOUT | CUSTOM_TIMEOUT.

Record TimeoutBudget := { defaultMs : Z; minMs : Z; maxMs : Z; targetMs : Z }.

Definition DEFAULT_TIMEOUT_BUDGETS (s : ServiceType) : TimeoutBudget :=
  match s with
  | database => {| defaultMs := 2000; minMs := 100; maxMs := 10000; targetMs := 1000 |}
  | cache => {| defaultMs := 500; minMs := 50; maxMs := 2000; targetMs := 200 |}
  | queue => {| defaultMs := 1000; minMs := 100; maxMs := 5000; targetMs := 500 |}
  | http => {| defaultMs := 5000; minMs := 1000; maxMs := 30000; targetMs := 3000 |}
  | soroban => {| defaultMs := 5000; minMs := 100; maxMs := 15000; targetMs := 4000 |}
  | webhook => {| defaultMs := 10000; minMs := 2000; maxMs := 30000; targetMs := 8000 |}
  | grpc => {| defaultMs := 10000; minMs := 100; maxMs := 30000; targetMs := 5000 |}
  end.

Definition TIMEOUT_HARD_CAPS (s : ServiceType) : Z :=
  match s with
  | database => 30000 | cache => 10000 | queue => 15000 | http => 60000 | soroban => 45000 | webhook => 60000 | grpc => 60000
  end.

(** A configuration: the budget is an object, known by the service whose budget
    it is; [None] is an object of the caller's own. *)
Record TimeoutConfig := { budget : option ServiceType; overrideMs : option num; reasonCode : TimeoutReasonCode }.

Definition math_min (a b : num) : num :=
  match a, b with
  | NaN, _ | _, NaN => NaN
  | NInf, _ | _, NInf => NInf
  | PInf, x | x, PInf => x
  | Fin x, Fin y => Fin (qmin x y)
  end.

Definition math_max (a b : num) : num :=
  match a, b with
  | NaN, _ | _, NaN => NaN
  | PInf, _ | _, PInf => PInf
  | NInf, x | x, NInf => x
  | Fin x, Fin y => Fin (qmax x y)
  end.

Definition int (z : Z) : num := Fin (inject_Z z).

Definition clampTimeout (ms : num) (b : TimeoutBudget) (s : ServiceType) : num :=
  let budgetClamped := math_max (int (minMs b)) (math_min ms (int (maxMs b))) in
  math_min budgetClamped (int (TIMEOUT_HARD_CAPS s)).

(** The request's deadline is kept by the asynchronous context. *)
Definition plus (now : Q) (ms : num) : num := match ms with Fin q => Fin (now + q) | x => x end.
Definition minus (d : num) (now : Q) : num := match d with Fin q => Fin (q - now) | x => x end.

Definition runWithGlobalTimeout {A} (now : Q) (ms : num) (fn : option num → A) : A := fn (Some (plus now ms)).

Definition getRemainingTimeoutMs (deadline : option num) (now : Q) : option num :=
  (λ d, math_max (Fin 0) (minus d now)) <$> deadline.

Definition not_positive (x : num) : bool := match x with Fin q => Qle_bool q 0 | NInf => true | _ => false end.

Definition resolveTimeout (deadline : option num) (now : Q) (s : ServiceType) (config : TimeoutConfig) : num :=
  let b := DEFAULT_TIMEOUT_BUDGETS s in
  let requestedTimeout := default (int (defaultMs b)) (overrideMs config) in
  let clampedTimeout := clampTimeout requestedTimeout b s in
  match getRemainingTimeoutMs deadline now with
  | Some remaining => if not_positive remaining then Fin 1 else math_min clampedTimeout remaining
  | None => clampedTimeout
  end.

Definition createTimeoutConfig (s : ServiceType) (r : TimeoutReasonCode) (o : option num) : TimeoutConfig :=
  {| budget := Some s; overrideMs := o; reasonCode := r |}.

(** The middleware: the header may ask for less. *)
Definition timeoutBudgetMiddleware {A} (globalTimeoutMs : Q) (header : option string) (now : Q) (next : option num → A) : A :=
  let requestTimeout :=
    match header with
    | Some h => match parseInt h 10 with
                | Some n => if 0 <? n then qmin (inject_Z n) globalTimeoutMs else globalTimeoutMs
                | None => globalTimeoutMs end
    | None => globalTimeoutMs
    end in
  runWithGlobalTimeout now (Fin requestTimeout) next.

(** *** The executor *)

Section Executor.
Variable heap : gmap nat object.

(** [fuel] is the stack that is left: [None] when it overflows or a getter
    throws. *)
Fixpoint executor_isAbortError (fuel : nat) (v : value) : option bool :=
  match fuel with
  | O => None
  | S f =>
      match v with
      | Object l =>
          let o := get heap l in
          if is_DOMException o || is_Error o then
            name ← read (p_name o);
            if match name with Some s => String.eqb s "AbortError" | None => false end then Some true
            else if is_Error o then
              match p_cause o with Throws => None | Has (Object c) => executor_isAbortError f (Object c) | _ => Some false end
            else Some false
          else Some false
      | _ => Some false
      end
  end.

Inductive failure := TimeoutExceededError (s : ServiceType) (r : TimeoutReasonCode) (timeoutMs : num) | Thrown (v : value) | Broken.

(** Timers take a delay that is no number, or an infinite one, for one
    millisecond. *)
Definition timer_ms (x : num) : Q := match x with Fin q => qmax q 1 | _ => 1 end.

(** What the function does by itself: when it settles and how; [None] never. *)
Definition promise (T : Type) : Type := option (Q * result value T).

(** Two timers are armed at once, one of which makes the abort promise reject
    with an abort error: the promise that settles first wins. *)
Definition race {T} (limit : Q) (p : promise T) : Q * result (option value) T :=
  match p with
  | Some (t, r) => if Qle_bool t limit then (t, match r with Ok x => Ok x | Err e => Err (Some e) end) else (limit, Err None)
  | None => (limit, Err None)
  end.

(** The result and the time it takes; [late] is how much later than its delay
    the timer fires, because the event loop was busy. A budget of the caller's
    own is not found, and reading its members throws. The hooks for metrics and
    errors are not given. *)
Definition executeWithTimeoutConfig {T} (stack : nat) (deadline : option num) (now late : Q) (fn : promise T) (config : TimeoutConfig) :
    Q * result failure T :=
  match budget config with
  | None => (0%Q, Err Broken)
  | Some s =>
      let timeoutMs := resolveTimeout deadline now s config in
      match race (timer_ms timeoutMs + late) fn with
      | (t, Ok x) => (t, Ok x)
      | (t, Err None) => (t, Err (TimeoutExceededError s (reasonCode config) timeoutMs))
      | (t, Err (Some e)) =>
          (t, match executor_isAbortError stack e with
              | None => Err Broken
              | Some true => Err (TimeoutExceededError s (reasonCode config) timeoutMs)
              | Some false => Err (Thrown e)
              end)
      end
  end.

Definition executeWithTimeout {T} (stack : nat) (deadline : option num) (now late : Q) (fn : promise T) (s : ServiceType) (r : TimeoutReasonCode)
    (o : option num) : Q * result failure T :=
  executeWithTimeoutConfig stack deadline now late fn (createTimeoutConfig s r o).

Definition executeDbOperation {T} stack deadline now late (operation : string) (fn : promise T) o :=
  executeWithTimeout stack deadline now late fn database (if includes operation "transaction" then DB_TRANSACTION_TIMEOUT else DB_QUERY_TIMEOUT) o.
Definition executeCacheOperation {T} stack deadline now late (operation : string) (fn : promise T) o :=
  executeWithTimeout stack deadline now late fn cache (if includes operation "set" then CACHE_SET_TIMEOUT else CACHE_GET_TIMEOUT) o.

(** The inner timer of these aborts the signal that the function gets, which is
    part of what the function does. *)
Definition executeHttpRequest {T} stack deadline now late (fn : promise T) o := executeWithTimeout stack deadline now late fn http HTTP_REQUEST_TIMEOUT o.
Definition executeSorobanOperation {T} stack deadline now late (fn : promise T) o :=
  executeWithTimeout stack deadline now late fn soroban SOROBAN_RPC_TIMEOUT o.
Definition executeWebhookDelivery {T} stack deadline now late (fn : promise T) o :=
  executeWithTimeout stack deadline now late fn webhook WEBHOOK_DELIVERY_TIMEOUT o.
End Executor.

(** *** Bounds *)

Lemma budgets_ordered s : let b := DEFAULT_TIMEOUT_BUDGETS s in
  (1 <= inject_Z (minMs b))%Q ∧ (inject_Z (minMs b) <= inject_Z (maxMs b))%Q ∧ (inject_Z (maxMs b) <= inject_Z (TIMEOUT_HARD_CAPS s))%Q.
Proof. destruct s; simpl; split_and!; discriminate. Qed.

Lemma qmin_between x lo hi : (lo <= x)%Q → (lo <= hi)%Q → (lo <= qmin x hi <= hi)%Q.
Proof. intros H1 H2. destruct (qmin_spec x hi) as (_ & H & [E|E]); rewrite E in *; lra. Qed.

(** Any request that is a number, infinite ones too, is clamped into the budget. *)
Lemma clampTimeout_bounds ms s : ms ≠ NaN →
  ∃ t, clampTimeout ms (DEFAULT_TIMEOUT_BUDGETS s) s = Fin t ∧
    (inject_Z (minMs (DEFAULT_TIMEOUT_BUDGETS s)) <= t <= inject_Z (maxMs (DEFAULT_TIMEOUT_BUDGETS s)))%Q.
Proof.
  intros Hn. pose proof (budgets_ordered s) as (H1 & H2 & H3). unfold clampTimeout. set (b := DEFAULT_TIMEOUT_BUDGETS s) in *.
  assert (∃ u, math_max (int (minMs b)) (math_min ms (int (maxMs b))) = Fin u ∧ (inject_Z (minMs b) <= u <= inject_Z (maxMs b))%Q) as (u & -> & Hu).
  { destruct ms as [q| | |]; simpl; [| | |done].
    - eexists; split; [done|]. destruct (qmin_spec q (inject_Z (maxMs b))) as (_ & Hq & _).
      destruct (qmax_spec (inject_Z (minMs b)) (qmin q (inject_Z (maxMs b)))) as (Hm & _ & [E|E]); rewrite E in *; [|clear E]; lra.
    - eexists; split; [done|]. destruct (qmax_spec (inject_Z (minMs b)) (inject_Z (maxMs b))) as (Hm & _ & [E|E]); rewrite E in *; lra.
    - exists (inject_Z (minMs b)). split; [done|lra]. }
  simpl. eexists; split; [done|]. destruct (qmin_spec u (inject_Z (TIMEOUT_HARD_CAPS s))) as (Hp & Hq & [E|E]); rewrite E in *; lra.
Qed.

Lemma resolveTimeout_bounds deadline now s c : overrideMs c ≠ Some NaN →
  ∃ t, resolveTimeout (Fin <$> deadline) now s c = Fin t ∧ (0 < t <= inject_Z (maxMs (DEFAULT_TIMEOUT_BUDGETS s)))%Q ∧
    match deadline with
    | None => (inject_Z (minMs (DEFAULT_TIMEOUT_BUDGETS s)) <= t)%Q
    | Some d => (d <= now ∧ t = 1) ∨ (t <= d - now)
    end%Q.
Proof.
  intros Hn. pose proof (budgets_ordered s) as (H1 & H2 & H3). unfold resolveTimeout.
  destruct (clampTimeout_bounds (default (int (defaultMs (DEFAULT_TIMEOUT_BUDGETS s))) (overrideMs c)) s) as (t & -> & Ht).
  { destruct (overrideMs c); simpl; [congruence|done]. }
  destruct deadline as [d|]; simpl; [|exists t; split_and!; [done|lra..]].
  destruct (qmax_spec 0 (d - now)) as (Hm0 & Hm1 & Hm). destruct (Qle_bool (qmax 0 (d - now)) 0) eqn:E.
  - apply Qle_bool_iff in E. exists 1%Q. split_and!; [done|lra..|]. left. split; [lra|done].
  - assert (¬ (qmax 0 (d - now) <= 0)%Q) as Hp by (intros H; apply Qle_bool_iff in H; congruence).
    destruct Hm as [Hm|Hm]; rewrite Hm in *; [lra|]. eexists; split; [done|].
    destruct (qmin_spec t (d - now)) as (Hx & Hy & [Ex|Ex]); rewrite Ex in *; split_and!; try lra; right; lra.
Qed.

(** A call of a request: the time of the request's own code before it, how late
    its timer fires, and its service, reason, override and promise. *)
Record call := { c_before : Q; c_late : Q; c_service : ServiceType; c_reason : TimeoutReasonCode; c_override : option num; c_promise : promise () }.

Definition execute_call (heap : gmap nat object) (stack : nat) (deadline : option num) (now : Q) (c : call) : Q * result failure () :=
  executeWithTimeout heap stack deadline now (c_late c) (c_promise c) (c_service c) (c_reason c) (c_override c).

Definition call_timeout (deadline : option num) (now : Q) (c : call) : num :=
  resolveTimeout deadline now (c_service c) (createTimeoutConfig (c_service c) (c_reason c) (c_override c)).

(** The calls of a request, one after the other, and the time they end. *)
Fixpoint run_calls (heap : gmap nat object) (stack : nat) (cs : list call) (now : Q) (deadline : option num) : Q :=
  match cs with
  | [] => now
  | c :: cs =>
      let at_ms := (now + c_before c)%Q in
      run_calls heap stack cs (at_ms + (execute_call heap stack deadline at_ms c).1)%Q deadline
  end.

(** What the calls may take beyond the deadline: the request's own code, late
    timers, and a millisecond for each call. *)
Fixpoint overhead (cs : list call) : Q :=
  match cs with
  | [] => 0
  | c :: cs => c_before c + c_late c + 1 + overhead cs
  end%Q.

Definition timed (c : call) : Prop := (0 <= c_before c)%Q ∧ (0 <= c_late c)%Q.

Lemma race_limit {T} limit (p : promise T) : ((race limit p).1 <= limit)%Q.
Proof. destruct p as [[t r]|]; simpl; [|lra]. destruct (Qle_bool t limit) eqn:E; simpl; [by apply Qle_bool_iff|lra]. Qed.

Lemma execute_time heap stack dl now c : ((execute_call heap stack dl now c).1 <= timer_ms (call_timeout dl now c) + c_late c)%Q.
Proof.
  unfold execute_call, executeWithTimeout, executeWithTimeoutConfig. cbn [budget createTimeoutConfig]. fold (call_timeout dl now c).
  pose proof (race_limit (timer_ms (call_timeout dl now c) + c_late c) (c_promise c)) as H. by destruct (race _ _) as [t [x|[e|]]].
Qed.

Lemma timer_ms_le t x : (t <= x)%Q → (1 <= x)%Q → (timer_ms (Fin t) <= x)%Q.
Proof. intros H1 H2. simpl. destruct (qmax_spec t 1) as (_ & _ & [E|E]); rewrite E; lra. Qed.

(** An override that is no number is not clamped, and its timer fires after a
    millisecond. *)
Lemma call_timeout_cases deadline now c :
  (call_timeout (Fin <$> deadline) now c = NaN ∧ c_override c = Some NaN) ∨
  ∃ t, call_timeout (Fin <$> deadline) now c = Fin t ∧ (0 < t <= inject_Z (maxMs (DEFAULT_TIMEOUT_BUDGETS (c_service c))))%Q ∧
    ∀ d, deadline = Some d → (t <= qmax (d - now) 1)%Q.
Proof.
  pose proof (budgets_ordered (c_service c)) as (H1 & H2 & _).
  assert (c_override c = Some NaN ∨ c_override c ≠ Some NaN) as [E|E] by (destruct (c_override c) as [[]|]; auto).
  - unfold call_timeout, resolveTimeout. simpl. rewrite E. destruct deadline as [d|]; simpl; [|by left].
    destruct (Qle_bool (qmax 0 (d - now)) 0); [right|by left]. exists 1%Q. split_and!; [done|lra..|]. intros ? [= <-]. apply qmax_spec.
  - right. destruct (resolveTimeout_bounds deadline now (c_service c) (createTimeoutConfig (c_service c) (c_reason c) (c_override c)) E) as (t & Et & Ht & Hd).
    exists t. split_and!; [done|apply Ht..|]. intros d ->. destruct (qmax_spec (d - now) 1) as (Hx & Hy & _). destruct Hd as [[_ ->]|Hd]; lra.
Qed.

Lemma timer_bounds deadline now c :
  (timer_ms (call_timeout (Fin <$> deadline) now c) <= inject_Z (maxMs (DEFAULT_TIMEOUT_BUDGETS (c_service c))))%Q ∧
  ∀ d, deadline = Some d → (timer_ms (call_timeout (Fin <$> deadline) now c) <= qmax (d - now) 1)%Q.
Proof.
  pose proof (budgets_ordered (c_service c)) as (H1 & H2 & _).
  destruct (call_timeout_cases deadline now c) as [[-> _]|(t & -> & Ht & Hd)].
  - split; [simpl; lra|]. intros d _. apply qmax_spec.
  - split; [apply timer_ms_le; lra|]. intros d E. apply timer_ms_le; [by apply Hd|apply qmax_spec].
Qed.

(** A call ends by the deadline, or within a millisecond when it starts later. *)
Lemma call_end heap stack d now c : (now + (execute_call heap stack (Some (Fin d)) now c).1 <= qmax d (now + 1) + c_late c)%Q.
Proof.
  pose proof (execute_time heap stack (Some (Fin d)) now c) as H. destruct (timer_bounds (Some d) now c) as [_ Hd].
  specialize (Hd d eq_refl). cbn [fmap option_fmap option_map] in Hd. destruct (qmax_spec d (now + 1)) as (Hx & Hy & _).
  destruct (qmax_spec (d - now) 1) as (_ & _ & [E|E]); rewrite E in Hd; lra.
Qed.

Lemma run_calls_bound heap stack cs now d D : Forall timed cs → (now <= D)%Q → (d <= D)%Q →
  (run_calls heap stack cs now (Some (Fin d)) <= D + overhead cs)%Q.
Proof.
  revert now D. induction cs as [|c cs IH]; intros now D Hcs Hnow Hd; cbn [run_calls overhead]; [lra|].
  apply Forall_cons in Hcs as [[Hb Hl] Hcs]. pose proof (call_end heap stack d (now + c_before c) c) as He.
  destruct (qmax_spec d (now + c_before c + 1)) as (_ & _ & [E|E]); rewrite E in He;
    (specialize (IH (now + c_before c + (execute_call heap stack (Some (Fin d)) (now + c_before c) c).1)%Q (D + c_before c + c_late c + 1)%Q Hcs);
     lapply IH; [intros IH'; lapply IH'; lra|lra]).
Qed.

(** C37. A request stays within its time budget. Under the middleware, calls to
    any services made one after the other, which may never settle, end by the
    budget of the server and, when the header [x-timeout-ms] asks for a positive
    number of milliseconds, by that number, counted from the start; on top of
    this come only the time of the request's own code, the lateness of timers and
    a millisecond per call. Each call takes at most the budget of its service,
    and ends by the deadline or, started later, within a millisecond, but for a
    late timer. A call that does not settle before its timer fails with a
    [TimeoutExceededError] of the resolved time, which is positive, or no number
    when the override of the call is none; a call that settles in time with a
    value gives it. *)
Theorem request_within_budget heap stack cs start globalTimeoutMs header (Hcs : Forall timed cs) (Hg : (0 <= globalTimeoutMs)%Q) :
  let end_ms := timeoutBudgetMiddleware globalTimeoutMs header start (run_calls heap stack cs start) in
  (end_ms <= start + globalTimeoutMs + overhead cs)%Q ∧
  (∀ h n, header = Some h → parseInt h 10 = Some n → 0 < n → (end_ms <= start + inject_Z n + overhead cs)%Q) ∧
  ∀ c deadline now, c ∈ cs →
    let t := call_timeout (Fin <$> deadline) now c in
    let res := execute_call heap stack (Fin <$> deadline) now c in
    (res.1 <= inject_Z (maxMs (DEFAULT_TIMEOUT_BUDGETS (c_service c))) + c_late c)%Q ∧
    (∀ d, deadline = Some d → (now + res.1 <= qmax d (now + 1) + c_late c)%Q) ∧
    ((t = NaN ∧ c_override c = Some NaN) ∨ ∃ q, t = Fin q ∧ (0 < q)%Q) ∧
    match c_promise c with
    | None => res.2 = Err (TimeoutExceededError (c_service c) (c_reason c) t)
    | Some (at_ms, r) =>
        if Qle_bool at_ms (timer_ms t + c_late c) then ∀ x, r = Ok x → res.2 = Ok x
        else res.2 = Err (TimeoutExceededError (c_service c) (c_reason c) t)
    end.
Proof.
  assert (∀ h n, parseInt h 10 = Some n → 0 < n → (0 <= inject_Z n)%Q) as Hpos by (intros h n _ Hn; rewrite <- (Zle_Qle 0); lia).
  split_and!.
  - unfold timeoutBudgetMiddleware, runWithGlobalTimeout. simpl. apply run_calls_bound; [done|lra|].
    destruct header as [h|]; [|lra]. destruct (parseInt h 10) as [n|]; [|lra]. destruct (0 <? n); [|lra].
    destruct (qmin_spec (inject_Z n) globalTimeoutMs) as (_ & H & _). lra.
  - intros h n -> Hh Hn. unfold timeoutBudgetMiddleware, runWithGlobalTimeout. rewrite Hh, (proj2 (Z.ltb_lt 0 n) Hn). specialize (Hpos h n Hh Hn).
    apply run_calls_bound; [done|lra|]. destruct (qmin_spec (inject_Z n) globalTimeoutMs) as (H & _ & _). lra.
  - intros c deadline now Hc t res. split_and!.
    + pose proof (execute_time heap stack (Fin <$> deadline) now c). destruct (timer_bounds deadline now c) as [H1 _]. unfold res. lra.
    + intros d ->. apply call_end.
    + destruct (call_timeout_cases deadline now c) as [H|(q & E & H & _)]; [by left|right; exists q; split; [done|lra]].
    + unfold res, t, execute_call, executeWithTimeout, executeWithTimeoutConfig. cbn [budget createTimeoutConfig]. fold (call_timeout (Fin <$> deadline) now c).
      destruct (c_promise c) as [[a r]|]; [|done]. cbn [race]. destruct (Qle_bool a _); [|done]. by intros x ->.
Qed.

Definition slow : call :=
  {| c_before := 5; c_late := 2; c_service := soroban; c_reason := SOROBAN_RPC_TIMEOUT; c_override := Some PInf; c_promise := None |}.

Lemma request_within_budget_witness :
  (timeoutBudgetMiddleware 20000 (Some "12000") 0 (run_calls ∅ 100 [slow; slow; slow] 0) == 12018)%Q ∧
  (timeoutBudgetMiddleware 20000 (Some "12000") 0 (run_calls ∅ 100 [slow; slow; slow] 0) <= 0 + inject_Z 12000 + overhead [slow; slow; slow])%Q.
Proof.
  split; [by vm_compute|].
  refine (proj1 (proj2 (request_within_budget ∅ 100 [slow; slow; slow] 0 20000 (Some "12000") _ _)) "12000" 12000 eq_refl eq_refl _);
    [by repeat constructor|discriminate|lia].
Defined.

(** An override that is not a number is not clamped: the timer fires at once. *)
Lemma nan_override_unclamped s r : let c := createTimeoutConfig s r (Some NaN) in
  resolveTimeout None 0 s c = NaN ∧ timer_ms (resolveTimeout None 0 s c) = 1%Q.
Proof. by destruct s. Qed.

(** A budget of the caller's own always throws. *)
Lemma own_budget_throws {T} heap stack deadline now late (fn : promise T) o r :
  executeWithTimeoutConfig heap stack deadline now late fn {| budget := None; overrideMs := o; reasonCode := r |} = (0%Q, Err Broken).
Proof. done. Qed.

(** The executor's own abort detector follows a cyclic chain of causes without
    end, where the bounded one answers. *)
Lemma cyclic_cause_overflows : let heap := <[0%nat := {| is_Error := true; is_DOMException := false; p_name := Has "Error"; p_message := Has "failed";
    p_code := Absent; p_cause := Has (Object 0); p_status := Absent; p_statusCode := Absent; p_response := Absent; p_retryable := Absent;
    p_rpcCode := Absent; p_error := Absent |}]> ∅ in
  (∀ fuel, executor_isAbortError heap fuel (Object 0) = None) ∧ Errors.isAbortError heap (Object 0) = false.
Proof. intros heap. split; [|by vm_compute]. intros fuel. induction fuel as [|f IH]; [done|]. by rewrite <- IH. Qed.
End Timeouts.
