(* ===== verification/Cache.v ===== *)
(** * The two-level cache

    [cache/redis.ts]: [CacheService] with its in-process level (L1), the shared
    Redis (L2) and the generation that fences delayed replies. Every operation
    is split where the code awaits Redis, and the parts of any number of
    operations interleave, with failures, timeouts, evictions, and writes of
    other processes. [cache/invalidation.ts]: what the helpers invalidate. *)

From stdpp Require Import base option list gmap strings relations.
From Stdlib Require Import ZArith Lia Ascii.
From S2P Require Import Prelude JsLib.

Open Scope Z_scope.

(** ** Values and patterns *)

(** Values of JavaScript as the cache sees them: [stringify] gives nothing for
    [undefined] and functions, [parse] nothing for a text that is not JSON. *)
Class Values (value : Type) := {
  as_string : value → option string;
  of_string : string → value;
  stringify : value → option string;
  parse : string → option value
}.

(** [pattern.replace('*', '')] *)
Fixpoint replace_star (p : string) : string :=
  match p with
  | EmptyString => EmptyString
  | String c p' => if Ascii.eqb c "*" then p' else String c (replace_star p')
  end.

(** The glob of the KEYS command: it has at least the star; for a text without
    special characters that a star follows, it accepts what starts with it. *)
Definition special (c : ascii) : bool := existsb (Ascii.eqb c) ["*"; "?"; "["; "]"; "\"; "^"]%char.
Definition plain_text (s : string) : bool := str_forallb (λ c, negb (special c)) s.

Class Glob := {
  keys_match : string → string → bool;
  keys_prefix : ∀ p k, plain_text p = true → keys_match (p +:+ "*") k = startsWithStr k p
}.

Definition getNamespacedKey (namespace key : string) : string := namespace +:+ ":" +:+ key.

(** ** The cache *)

Definition L1_TTL_MS : Z := 60000.

Section Service.
Context {value : Type} `{Values value} `{Glob}.

Record entry := { e_value : value; e_until : Z }.

(** An operation that waits for Redis; [true] and [Some] once the command was
    executed. *)
Inductive op :=
| OGet (k : string) (generation : Z) (answer : option (option string))
| OSet (k : string) (v : value) (text : string) (ttl : option Z) (generation : Z) (executed : bool)
| ODelete (k : string) (executed : bool)
| OClear (pattern : string) (keys : option (list string)) (executed : bool)
| OExpire (k : string) (ttl : Z) (executed : bool).

(** [foreign]: the keys that other processes wrote or whose time ran out in
    Redis; [stray]: those that a clearing deleted from Redis by a pattern that
    L1 does not match. The proofs keep track of both. *)
Record state := {
  l1 : gmap string entry;
  l1Generation : Z;
  redis : gmap string (string * option Z);
  ops : gmap nat op;
  now : Z;
  foreign : gset string;
  stray : gset string
}.

Definition init : state := {| l1 := ∅; l1Generation := 0; redis := ∅; ops := ∅; now := 0; foreign := ∅; stray := ∅ |}.

Definition with_l1 (f : gmap string entry → gmap string entry) (s : state) : state :=
  {| l1 := f (l1 s); l1Generation := l1Generation s; redis := redis s; ops := ops s; now := now s; foreign := foreign s; stray := stray s |}.
Definition with_redis (f : gmap string (string * option Z) → gmap string (string * option Z)) (s : state) : state :=
  {| l1 := l1 s; l1Generation := l1Generation s; redis := f (redis s); ops := ops s; now := now s; foreign := foreign s; stray := stray s |}.
Definition with_ops (f : gmap nat op → gmap nat op) (s : state) : state :=
  {| l1 := l1 s; l1Generation := l1Generation s; redis := redis s; ops := f (ops s); now := now s; foreign := foreign s; stray := stray s |}.
Definition bump (s : state) : state :=
  {| l1 := l1 s; l1Generation := l1Generation s + 1; redis := redis s; ops := ops s; now := now s; foreign := foreign s; stray := stray s |}.
Definition add_stray (ks : list string) (s : state) : state :=
  {| l1 := l1 s; l1Generation := l1Generation s; redis := redis s; ops := ops s; now := now s; foreign := foreign s; stray := list_to_set ks ∪ stray s |}.
Definition touched (s : state) : gset string := foreign s ∪ stray s.

Definition invalidateL1 (k : string) (s : state) : state := with_l1 (delete k) (bump s).

Definition clearL1Pattern (pattern : string) (s : state) : state :=
  with_l1 (filter (λ kv, startsWithStr kv.1 (replace_star pattern) = false)) (bump s).

Definition l1_get (s : state) (k : string) : option value :=
  match l1 s !! k with Some e => if now s <? e_until e then Some (e_value e) else None | None => None end.

Definition l1_set (k : string) (v : value) (ttlMs : Z) (s : state) : state :=
  with_l1 <[k := {| e_value := v; e_until := now s + ttlMs |}]> s.

Definition start (i : nat) (o : op) : state → state := with_ops <[i := o]>.
Definition finish (i : nat) : state → state := with_ops (delete i).

(** JSON, or the string itself. *)
Definition deserialize (text : string) : value := default (of_string text) (parse text).
Definition serialize (v : value) : option string := match as_string v with Some t => Some t | None => stringify v end.

(** *** Operations, up to the first wait and after the reply *)

(** A hit is returned at once. *)
Definition get_start (i : nat) (k : string) (s : state) : state * option value :=
  match l1_get s k with
  | Some v => (s, Some v)
  | None => (start i (OGet k (l1Generation s) None) s, None)
  end.

Definition get_end (i : nat) (s : state) : state * option value :=
  match ops s !! i with
  | Some (OGet k generation (Some (Some text))) =>
      let v := deserialize text in
      let s' := finish i s in
      (if generation =? l1Generation s then l1_set k v L1_TTL_MS s' else s', Some v)
  | Some (OGet k generation (Some None)) => (finish i s, None)
  | _ => (s, None)
  end.

(** The catch: of a failure, or of the timeout, after which the request goes on. *)
Definition get_failed (timed_out : bool) (i : nat) (s : state) : state :=
  match ops s !! i with
  | Some (OGet k generation _) => let s' := invalidateL1 k s in if timed_out then s' else finish i s'
  | _ => s
  end.

Definition isSafeInteger (n : Z) : bool := (- (2 ^ 53 - 1) <=? n) && (n <=? 2 ^ 53 - 1).

Definition set_start (i : nat) (k : string) (v : value) (ttl : option Z) (s : state) : state * option bool :=
  if match ttl with Some n => negb (isSafeInteger n) || (n <=? 0) | None => false end then (s, Some false)
  else match serialize v with
  | None => (s, Some false)
  | Some text => let s' := invalidateL1 k s in (start i (OSet k v text ttl (l1Generation s') false) s', None)
  end.

Definition set_end (i : nat) (s : state) : state * bool :=
  match ops s !! i with
  | Some (OSet k v text ttl generation true) =>
      let canPopulate := generation =? l1Generation s in
      let s' := invalidateL1 k (finish i s) in
      (if canPopulate then l1_set k v (match ttl with Some n => n * 1000 | None => L1_TTL_MS end) s' else s', true)
  | _ => (s, false)
  end.

Definition set_failed (i : nat) (s : state) : state * bool :=
  match ops s !! i with
  | Some (OSet k v text ttl generation _) => (invalidateL1 k (finish i s), false)
  | _ => (s, false)
  end.

Definition delete_start (i : nat) (k : string) (s : state) : state := start i (ODelete k false) (invalidateL1 k s).

(** The reply, or a failure: the finally clause runs in both cases. *)
Definition delete_end (i : nat) (s : state) : state :=
  match ops s !! i with
  | Some (ODelete k _) => invalidateL1 k (finish i s)
  | _ => s
  end.

Definition clearNamespace_start (i : nat) (namespace : string) (s : state) : state :=
  let pattern := getNamespacedKey namespace "*" in
  start i (OClear pattern None false) (clearL1Pattern pattern s).

Definition clearNamespace_end (i : nat) (s : state) : state :=
  match ops s !! i with
  | Some (OClear pattern _ _) => clearL1Pattern pattern (finish i s)
  | _ => s
  end.

Definition expire_start (i : nat) (k : string) (ttl : Z) (s : state) : state * option bool :=
  if negb (isSafeInteger ttl) then (s, Some false) else (start i (OExpire k ttl false) (invalidateL1 k s), None).

Definition expire_end (i : nat) (s : state) : state :=
  match ops s !! i with
  | Some (OExpire k _ _) => invalidateL1 k (finish i s)
  | _ => s
  end.

(** *** Redis executes a command *)

Definition server (i : nat) (s : state) : state :=
  match ops s !! i with
  | Some (OGet k g None) => start i (OGet k g (Some (fst <$> redis s !! k))) s
  | Some (OSet k v text ttl g false) =>
      start i (OSet k v text ttl g true) (with_redis <[k := (text, (λ n, now s + n * 1000) <$> ttl)]> s)
  | Some (ODelete k false) => start i (ODelete k true) (with_redis (delete k) s)
  | Some (OClear p None e) => start i (OClear p (Some (filter (λ k, keys_match p k = true) (elements (dom (redis s))))) e) s
  | Some (OClear p (Some keys) false) =>
      start i (OClear p (Some keys) true)
        (with_redis (filter (λ kv, kv.1 ∉ keys)) (add_stray (filter (λ k, startsWithStr k (replace_star p) = false) keys) s))
  | Some (OExpire k ttl false) =>
      start i (OExpire k ttl true)
        (with_redis (if ttl <=? 0 then delete k else alter (λ r, (fst r, Some (now s + ttl * 1000))) k) s)
  | _ => s
  end.

Definition exists_key (s : state) (k : string) : bool := match l1_get s k with Some _ => true | None => bool_decide (is_Some (redis s !! k)) end.

(** *** Interleavings *)

Inductive step : state → state → Prop :=
| s_get i k s : ops s !! i = None → step s (get_start i k s).1
| s_get_end i s : step s (get_end i s).1
| s_get_failed b i s : step s (get_failed b i s)
| s_set i k v ttl s : ops s !! i = None → step s (set_start i k v ttl s).1
| s_set_end i s : step s (set_end i s).1
| s_set_failed i s : step s (set_failed i s).1
| s_delete i k s : ops s !! i = None → step s (delete_start i k s)
| s_delete_end i s : step s (delete_end i s)
| s_clear i ns s : ops s !! i = None → step s (clearNamespace_start i ns s)
| s_clear_end i s : step s (clearNamespace_end i s)
| s_expire i k ttl s : ops s !! i = None → step s (expire_start i k ttl s).1
| s_expire_end i s : step s (expire_end i s)
| s_server i s : step s (server i s)
(** Another process writes a key, or its time runs out. *)
| s_foreign k r s : step s {| l1 := l1 s; l1Generation := l1Generation s; redis := partial_alter (λ _, r) k (redis s); ops := ops s;
                              now := now s; foreign := {[k]} ∪ foreign s; stray := stray s |}
(** L1 evicts an entry, and time passes. *)
| s_evict k s : step s (with_l1 (delete k) s)
| s_tick t s : 0 ≤ t → step s {| l1 := l1 s; l1Generation := l1Generation s; redis := redis s; ops := ops s; now := now s + t; foreign := foreign s; stray := stray s |}.

(** *** Coherence *)

(** The operation may have changed the key in Redis. *)
Definition mutates (o : op) (k : string) : Prop :=
  match o with
  | OGet _ _ _ => False
  | OSet k' _ _ _ _ _ | ODelete k' _ | OExpire k' _ _ => k' = k
  | OClear p (Some keys) _ => k ∈ keys ∧ startsWithStr k (replace_star p) = true
  | OClear _ None _ => False
  end.

Definition mutating (s : state) (k : string) : Prop := ∃ i o, ops s !! i = Some o ∧ mutates o k.
Definition mutating_but (i : nat) (s : state) (k : string) : Prop := ∃ j o, j ≠ i ∧ ops s !! j = Some o ∧ mutates o k.

(** The value is what the text in Redis stands for. *)
Definition stands (text : string) (v : value) : Prop := v = deserialize text ∨ serialize v = Some text.
Definition fresh (s : state) (k : string) (v : value) : Prop := ∃ text x, redis s !! k = Some (text, x) ∧ stands text v.

(** What an operation that was not overtaken holds. *)
Definition op_ok (s : state) (i : nat) (o : op) : Prop :=
  match o with
  | OGet k g (Some (Some text)) => g = l1Generation s → k ∉ touched s → (∃ x, redis s !! k = Some (text, x)) ∨ mutating s k
  | OSet k v text _ g executed =>
      serialize v = Some text ∧
      (executed = true → g = l1Generation s → k ∉ touched s → (∃ x, redis s !! k = Some (text, x)) ∨ mutating_but i s k)
  | OClear p keys _ =>
      (∃ ns, p = getNamespacedKey ns "*") ∧ (∀ ks k, keys = Some ks → k ∈ ks → keys_match p k = true)
  | _ => True
  end.

Definition op_generation (o : op) : option Z := match o with OGet _ g _ | OSet _ _ _ _ g _ => Some g | _ => None end.

(** The pattern of a namespace reaches the key in Redis only. *)
Definition astray (k : string) : Prop :=
  ∃ ns, keys_match (getNamespacedKey ns "*") k = true ∧ startsWithStr k (replace_star (getNamespacedKey ns "*")) = false.

Record coherent (s : state) : Prop := {
  coh_l1 : ∀ k e, k ∉ touched s → l1 s !! k = Some e → fresh s k (e_value e) ∨ mutating s k;
  coh_ops : ∀ i o, ops s !! i = Some o → op_ok s i o;
  coh_gen : ∀ i o g, ops s !! i = Some o → op_generation o = Some g → g ≤ l1Generation s;
  coh_stray : ∀ k, k ∈ stray s → astray k
}.

(** The conditions of an operation that do not depend on the rest. *)
Definition op_static (o : op) : Prop :=
  match o with
  | OSet _ v text _ _ _ => serialize v = Some text
  | OClear p keys _ =>
      (∃ ns, p = getNamespacedKey ns "*") ∧ (∀ ks k, keys = Some ks → k ∈ ks → keys_match p k = true)
  | _ => True
  end.

Lemma op_ok_static s i o : op_ok s i o → op_static o.
Proof. destruct o as [k g [[?|]|]|k v t ttl g []| | |]; simpl; tauto. Qed.

(** An operation of an older generation only has to be well formed. *)
Lemma op_ok_old s i o : op_static o → (∀ g, op_generation o = Some g → g < l1Generation s) → op_ok s i o.
Proof.
  destruct o as [k g [[t|]|]|k v t ttl g []| | |]; simpl; intros Hs Hg; try done.
  - intros ->. specialize (Hg _ eq_refl). lia.
  - split; [done|]. intros _ ->. specialize (Hg _ eq_refl). lia.
Qed.

(** A step that raises the generation and only takes entries away. *)
Lemma coherent_fenced s s' : coherent s → redis s' = redis s → touched s' = touched s → stray s' = stray s → l1Generation s < l1Generation s' →
  (∀ k e, l1 s' !! k = Some e → l1 s !! k = Some e ∧ (mutating s k → mutating s' k)) →
  (∀ i o, ops s' !! i = Some o → ops s !! i = Some o ∨ (op_ok s' i o ∧ ∀ g, op_generation o = Some g → g ≤ l1Generation s')) →
  coherent s'.
Proof.
  intros [H1 H2 H3 H4] Hr Ht Hst Hg Hl Ho. constructor.
  - intros k e Hk He. rewrite Ht in Hk. destruct (Hl k e He) as [He' Hm]. destruct (H1 k e Hk He') as [(t & x & Hx & Hs)|]; [left|right; auto].
    exists t, x. by rewrite Hr.
  - intros i o Hi. destruct (Ho i o Hi) as [Hi'|[? _]]; [|done]. apply op_ok_old; [by eapply op_ok_static, H2|].
    intros g Eg. pose proof (H3 i o g Hi' Eg). lia.
  - intros i o g Hi Eg. destruct (Ho i o Hi) as [Hi'|[_ Hn]]; [|auto]. pose proof (H3 i o g Hi' Eg). lia.
  - by rewrite Hst.
Qed.

Lemma coherent_l1_set s k v ms : coherent s → (k ∉ touched s → fresh s k v ∨ mutating s k) → coherent (l1_set k v ms s).
Proof.
  intros [H1 H2 H3 H4] Hk. constructor; [|done..]. intros k' e Ht He. unfold l1_set in He. simpl in He.
  destruct (decide (k' = k)) as [-> |Hne]; [|rewrite lookup_insert_ne in He by done; by apply H1].
  rewrite lookup_insert_eq in He. injection He as <-. simpl. by apply Hk.
Qed.

Lemma mutating_finish s i k : mutating (finish i s) k ↔ mutating_but i s k.
Proof.
  unfold mutating, mutating_but, finish. simpl. split.
  - intros (j & o & Hj & Hm). apply lookup_delete_Some in Hj as [Hne Hj]. exists j, o. auto.
  - intros (j & o & Hne & Hj & Hm). exists j, o. by rewrite lookup_delete_ne.
Qed.

Lemma mutating_split s i k : mutating s k → (∃ o, ops s !! i = Some o ∧ mutates o k) ∨ mutating_but i s k.
Proof. intros (j & o & Hj & Hm). destruct (decide (j = i)) as [-> |]; [left; eauto|right; exists j, o; auto]. Qed.

(** The end of an operation on one key, which is invalidated. *)
Lemma coherent_end s i k : coherent s → (∀ o k', ops s !! i = Some o → mutates o k' → k' = k) → coherent (invalidateL1 k (finish i s)).
Proof.
  intros Hc Hi. apply (coherent_fenced s); [done|done|done|done|simpl; lia| |].
  - intros k' e He. simpl in He. apply lookup_delete_Some in He as [Hne He]. split; [done|]. intros Hm.
    apply (mutating_split s i) in Hm as [(o & Ho & Hm)|Hm]; [by apply (Hi _ k') in Ho; [congruence|]|]. by apply mutating_finish in Hm.
  - intros j o Hj. simpl in Hj. apply lookup_delete_Some in Hj as [_ Hj]. by left.
Qed.

(** The start of one. *)
Lemma coherent_start s i o k : coherent s → ops s !! i = None → op_ok (start i o (invalidateL1 k s)) i o →
  (∀ g, op_generation o = Some g → g ≤ l1Generation s + 1) → coherent (start i o (invalidateL1 k s)).
Proof.
  intros Hc Hi Ho Hg. apply (coherent_fenced s); [done|done|done|done|simpl; lia| |].
  - intros k' e He. simpl in He. apply lookup_delete_Some in He as [Hne He]. split; [done|]. intros (j & o' & Hj & Hm).
    exists j, o'. simpl. split; [|done]. rewrite lookup_insert_ne; [done|]. intros ->. congruence.
  - intros j o' Hj. simpl in Hj. destruct (decide (j = i)) as [-> |]; [|rewrite lookup_insert_ne in Hj by done; by left].
    rewrite lookup_insert_eq in Hj. injection Hj as <-. by right.
Qed.

(** Redis executes the command of an operation. *)
Lemma coherent_server s i o o' r : coherent s → ops s !! i = Some o →
  (∀ k, k ∉ touched s → r !! k ≠ redis s !! k → mutates o' k) → (∀ k, mutates o k → mutates o' k) →
  (∀ g, op_generation o' = Some g → op_generation o = Some g) →
  op_ok (start i o' (with_redis (λ _, r) s)) i o' → coherent (start i o' (with_redis (λ _, r) s)).
Proof.
  intros [H1 H2 H3 H4] Hi Hr Hm Hg Hok. set (s' := start i o' (with_redis (λ _, r) s)).
  assert (ops s' !! i = Some o') as Hi' by apply lookup_insert_eq.
  assert (∀ j, j ≠ i → ops s' !! j = ops s !! j) as Hj' by (intros j Hne; by apply lookup_insert_ne).
  assert (∀ k, mutating s k → mutating s' k) as Hmm.
  { intros k (j & p & Hj & Hp). destruct (decide (j = i)) as [-> |]; [exists i, o'; split; [done|apply Hm; congruence]|].
    exists j, p. by rewrite Hj'. }
  assert (∀ j k, j ≠ i → mutating_but j s k → mutating_but j s' k) as Hmb.
  { intros j k Hji (l & p & Hlj & Hl & Hp). destruct (decide (l = i)) as [-> |]; [exists i, o'; split_and!; [done|done|apply Hm; congruence]|].
    exists l, p. by rewrite Hj'. }
  constructor.
  - intros k e Ht He. destruct (decide (r !! k = redis s !! k)) as [E|E]; [|right; exists i, o'; auto].
    destruct (H1 k e Ht He) as [(t & x & Hx & Hs)|]; [left; exists t, x; split; [simpl; congruence|done]|right; auto].
  - intros j p Hj. destruct (decide (j = i)) as [-> |Hne]; [assert (p = o') as -> by congruence; done|]. rewrite Hj' in Hj by done.
    pose proof (H2 j p Hj) as Hp. destruct p as [k g [[t|]|]|k v t ttl g ex| | |]; simpl in *; try done.
    + intros Eg Ht. destruct (decide (r !! k = redis s !! k)) as [E|E]; [|right; exists i, o'; auto].
      destruct (Hp Eg Ht) as [[x Hx]|]; [left; exists x; congruence|right; auto].
    + destruct Hp as [Hs Hp]. split; [done|]. intros Ee Eg Ht. destruct (decide (r !! k = redis s !! k)) as [E|E]; [|right; exists i, o'; auto].
      destruct (Hp Ee Eg Ht) as [[x Hx]|]; [left; exists x; congruence|right; auto].
  - intros j p g Hj Eg. destruct (decide (j = i)) as [-> |Hne]; [|rewrite Hj' in Hj by done; by apply (H3 j p)].
    assert (p = o') as -> by congruence. apply Hg in Eg. by apply (H3 i o).
  - done.
Qed.

Lemma replace_star_plain q : plain_text q = true → replace_star (q +:+ "*") = q.
Proof.
  unfold plain_text. induction q as [|c q IH]; [done|]. simpl. intros Hq. apply andb_true_iff in Hq as [Hc Hq].
  destruct (Ascii.eqb c "*") eqn:E; [apply Ascii.eqb_eq in E; by subst c|]. by rewrite IH.
Qed.

(** The keys of a plain namespace, in both levels. *)
Lemma namespace_pattern ns : plain_text ns = true →
  replace_star (getNamespacedKey ns "*") = ns +:+ ":" ∧ ∀ k, keys_match (getNamespacedKey ns "*") k = startsWithStr k (ns +:+ ":").
Proof.
  intros Hns. assert (plain_text (ns +:+ ":") = true) as Hp by (unfold plain_text in *; by rewrite str_forallb_app, Hns).
  unfold getNamespacedKey. rewrite <- (str_app_assoc ns ":" "*").
  split; [by apply replace_star_plain|]. intros k. by apply keys_prefix.
Qed.

Lemma with_redis_id s : with_redis (λ _, redis s) s = s.
Proof. by destruct s. Qed.

Lemma coherent_answer s i o o' : coherent s → ops s !! i = Some o → (∀ k, mutates o k → mutates o' k) →
  (∀ g, op_generation o' = Some g → op_generation o = Some g) → op_ok (start i o' s) i o' → coherent (start i o' s).
Proof.
  intros Hc Hi Hm Hg Hok. pose proof (coherent_server s i o o' (redis s) Hc Hi) as H'. rewrite with_redis_id in H'. by apply H'.
Qed.

(** More keys that are not vouched for. *)
Lemma coherent_add_stray s ks : coherent s → (∀ k, k ∈ ks → astray k) → coherent (add_stray ks s).
Proof.
  intros [H1 H2 H3 H4] Hks.
  assert (∀ k, k ∉ touched (add_stray ks s) → k ∉ touched s) as Ht by (intros k; unfold touched; simpl; set_solver).
  constructor.
  - intros k e Hk He. apply H1; auto.
  - intros i o Hi. specialize (H2 i o Hi). destruct o as [k g [[t|]|]|k v t ttl g ex| | |]; simpl in *; try done.
    + intros Eg Hk. apply H2; auto.
    + destruct H2 as [Hs H2]. split; [done|]. intros Ee Eg Hk. apply H2; auto.
  - done.
  - intros k. simpl. rewrite elem_of_union, elem_of_list_to_set. intros [|]; auto.
Qed.

Lemma server_coherent i s : coherent s → coherent (server i s).
Proof.
  intros Hc. unfold server. destruct (ops s !! i) as [o|] eqn:Hi; [|done]. pose proof (coh_ops s Hc i o Hi) as Hok.
  destruct o as [k g [a|]|k v t ttl g []|k []|p [ks|] e|k ttl []]; try done.
  - apply (coherent_answer _ _ _ _ Hc Hi); [done|done|]. simpl. destruct (redis s !! k) as [[t x]|]; simpl; eauto.
  - apply (coherent_server _ _ _ _ (<[k := (t, _)]> (redis s)) Hc Hi); [|done|done|].
    + intros k' _ Hk. simpl. destruct (decide (k = k')); [done|]. by rewrite lookup_insert_ne in Hk.
    + destruct Hok as [Hs _]. split; [done|]. intros _ _ _. left. simpl. rewrite lookup_insert_eq. eauto.
  - apply (coherent_server _ _ _ _ (delete k (redis s)) Hc Hi); [|done|done|done].
    intros k' _ Hk. simpl. destruct (decide (k = k')); [done|]. by rewrite lookup_delete_ne in Hk.
  - destruct e; [done|]. set (s1 := add_stray _ s). destruct Hok as [[ns ->] Hk].
    assert (coherent s1) as Hc1.
    { apply coherent_add_stray; [done|]. intros k Hin. apply list_elem_of_filter in Hin as [Hf Hin]. exists ns. split; [by apply (Hk ks)|done]. }
    apply (coherent_server s1 i _ _ (filter (λ kv, kv.1 ∉ ks) (redis s)) Hc1 Hi); [|done|done|by split; [eauto|]].
    intros k Ht Hne. simpl. destruct (decide (k ∈ ks)) as [Hin|Hn].
    + split; [done|]. destruct (startsWithStr k _) eqn:Ep; [done|]. destruct Ht. unfold s1, touched. simpl.
      apply elem_of_union_r, elem_of_union_l, elem_of_list_to_set, list_elem_of_filter. done.
    + destruct Hne. apply option_eq. intros x. rewrite map_lookup_filter_Some. simpl. tauto.
  - apply (coherent_answer _ _ _ _ Hc Hi); [done|done|]. destruct Hok as [Hns _]. split; [done|].
    intros ks k [= <-] Hk. by apply list_elem_of_filter in Hk as [Hk _].
  - apply (coherent_server _ _ _ _ ((if ttl <=? 0 then delete k else alter _ k) (redis s)) Hc Hi); [|done|done|done].
    intros k' _ Hk. simpl. destruct (decide (k = k')); [done|]. destruct (ttl <=? 0); [by rewrite lookup_delete_ne in Hk|by rewrite lookup_alter_ne in Hk].
Qed.

(** An operation that changes nothing ends. *)
Lemma coherent_finish_get s i k g a : coherent s → ops s !! i = Some (OGet k g a) → coherent (finish i s).
Proof.
  intros [H1 H2 H3 H4] Hi.
  assert (∀ k', mutating s k' → mutating (finish i s) k') as Hm.
  { intros k' Hk. apply mutating_finish. apply (mutating_split s i) in Hk as [(o & Ho & Hk)|]; [|done]. rewrite Hi in Ho. by injection Ho as <-. }
  assert (∀ j k', mutating_but j s k' → mutating_but j (finish i s) k') as Hb.
  { intros j k' (l & o & Hl & Ho & Hk). exists l, o. split_and!; [done| |done]. simpl. rewrite lookup_delete_ne; [done|].
    intros ->. rewrite Hi in Ho. by injection Ho as <-. }
  constructor.
  - intros k' e Ht He. destruct (H1 k' e Ht He); [by left|right; auto].
  - intros j o Hj. simpl in Hj. apply lookup_delete_Some in Hj as [_ Hj]. specialize (H2 j o Hj).
    destruct o as [k' g' [[t|]|]|k' v t ttl g' ex| | |]; simpl in *; try done.
    + intros Eg Ht. destruct (H2 Eg Ht); auto.
    + destruct H2 as [Hs H2]. split; [done|]. intros Ee Eg Ht. destruct (H2 Ee Eg Ht); auto.
  - intros j o g' Hj. simpl in Hj. apply lookup_delete_Some in Hj as [_ Hj]. by apply (H3 j o).
  - done.
Qed.

Lemma get_end_coherent i s : coherent s → coherent (get_end i s).1.
Proof.
  intros Hc. unfold get_end. destruct (ops s !! i) as [[k g [[t|]|]| | | |]|] eqn:Hi; simpl; try done; [|exact (coherent_finish_get s i k g _ Hc Hi)].
  destruct (Z.eqb_spec g (l1Generation s)) as [E|]; [|exact (coherent_finish_get s i k g _ Hc Hi)].
  apply coherent_l1_set; [exact (coherent_finish_get s i k g _ Hc Hi)|]. intros Ht. destruct (coh_ops s Hc i _ Hi E Ht) as [[x Hx]|Hm].
  - left. exists t, x. split; [done|by left].
  - right. apply mutating_finish. apply (mutating_split s i) in Hm as [(o & Ho & Hm)|]; [|done]. rewrite Hi in Ho. by injection Ho as <-.
Qed.

Lemma get_failed_coherent b i s : coherent s → coherent (get_failed b i s).
Proof.
  intros Hc. unfold get_failed. destruct (ops s !! i) as [[k g a| | | |]|] eqn:Hi; try done.
  assert (coherent (invalidateL1 k s)) as Hv.
  { apply (coherent_fenced s); [done|done|done|done|simpl; lia| |by left]. intros k' e He. simpl in He. apply lookup_delete_Some in He as [_ He]. auto. }
  destruct b; [done|]. by apply (coherent_finish_get _ i k g a).
Qed.

Lemma set_end_coherent i s : coherent s → coherent (set_end i s).1.
Proof.
  intros Hc. unfold set_end. destruct (ops s !! i) as [[|k v t ttl g []| | |]|] eqn:Hi; simpl; try done.
  assert (coherent (invalidateL1 k (finish i s))) as Hv.
  { apply coherent_end; [done|]. intros o k' Ho Hm. rewrite Hi in Ho. injection Ho as <-. by simpl in Hm. }
  destruct (Z.eqb_spec g (l1Generation s)) as [E|]; [|done]. apply coherent_l1_set; [done|]. intros Ht.
  destruct (coh_ops s Hc i _ Hi) as [Hs Hx]. destruct (Hx eq_refl E Ht) as [[x Hr]|Hm]; [left; exists t, x; split; [done|by right]|right].
  by apply mutating_finish in Hm.
Qed.

(** The end of an operation on one key. *)
Lemma end_one_coherent s i o k : coherent s → ops s !! i = Some o → (∀ k', mutates o k' → k' = k) → coherent (invalidateL1 k (finish i s)).
Proof. intros Hc Hi Hm. apply coherent_end; [done|]. intros o' k' Ho. rewrite Hi in Ho. injection Ho as <-. auto. Qed.

Lemma clear_start_coherent i ns s : coherent s → ops s !! i = None → coherent (clearNamespace_start i ns s).
Proof.
  intros Hc Hi. apply (coherent_fenced s); [done|done|done|done|simpl; lia| |].
  - intros k e He. simpl in He. apply map_lookup_filter_Some in He as [He _]. split; [done|]. intros (j & o & Hj & Hm). exists j, o. simpl.
    split; [|done]. rewrite lookup_insert_ne; [done|]. intros ->. congruence.
  - intros j o Hj. simpl in Hj. destruct (decide (j = i)) as [-> |]; [|rewrite lookup_insert_ne in Hj by done; by left].
    rewrite lookup_insert_eq in Hj. injection Hj as <-. right. split; [|done]. split; [eauto|done].
Qed.

Lemma clear_end_coherent i s : coherent s → coherent (clearNamespace_end i s).
Proof.
  intros Hc. unfold clearNamespace_end. destruct (ops s !! i) as [[| | |p keys e|]|] eqn:Hi; try done.
  apply (coherent_fenced s); [done|done|done|done|simpl; lia| |].
  - intros k en He. simpl in He. apply map_lookup_filter_Some in He as [He Hp]. split; [done|]. intros Hm.
    apply (mutating_split s i) in Hm as [(o & Ho & Hm)|Hm]; [|by apply mutating_finish in Hm]. rewrite Hi in Ho. injection Ho as <-.
    destruct keys as [ks|]; [|done]. simpl in Hm, Hp. destruct Hm as [_ Hm]. by rewrite Hm in Hp.
  - intros j o Hj. simpl in Hj. apply lookup_delete_Some in Hj as [_ Hj]. by left.
Qed.

Lemma step_coherent s s' : step s s' → coherent s → coherent s'.
Proof.
  intros Hst Hc. destruct Hst as [i k s Hi|i s|b i s|i k v ttl s Hi|i s|i s|i k s Hi|i s|i ns s Hi|i s|i k ttl s Hi|i s|i s|k r s|k s|t s Ht].
  - unfold get_start. destruct (l1_get s k); [done|]. simpl. destruct Hc as [H1 H2 H3 H4].
    assert (∀ j o, ops s !! j = Some o → <[i := OGet k (l1Generation s) None]> (ops s) !! j = Some o) as Hj.
    { intros j o Hj. rewrite lookup_insert_ne; [done|]. intros ->. congruence. }
    constructor.
    + intros k' e Ht He. destruct (H1 k' e Ht He) as [|(j & o & Ho & Hm)]; [by left|right; exists j, o; split; [by apply Hj|done]].
    + intros j o Ho. simpl in Ho. apply lookup_insert_Some in Ho as [[<- <-]|[Hne Ho]]; [done|]. specialize (H2 j o Ho).
      destruct o as [k' g' [[t|]|]|k' v t ttl g' ex| | |]; simpl in *; try done.
      * intros Eg Ht. destruct (H2 Eg Ht) as [|(l & o & Hl & Hm)]; [by left|right; exists l, o; split; [by apply Hj|done]].
      * destruct H2 as [Hs H2]. split; [done|]. intros Ee Eg Ht. destruct (H2 Ee Eg Ht) as [|(l & o & Hlj & Hl & Hm)]; [by left|right].
        exists l, o. split_and!; [done|by apply Hj|done].
    + intros j o g Ho Eg. simpl in Ho. apply lookup_insert_Some in Ho as [[<- <-]|[Hne Ho]]; [|by apply (H3 j o)]. injection Eg as <-. simpl. lia.
    + done.
  - by apply get_end_coherent.
  - by apply get_failed_coherent.
  - unfold set_start. destruct (match ttl with Some _ => _ | None => _ end); [done|]. destruct (serialize v) as [t|] eqn:Es; [|done].
    apply coherent_start; [done|done|by split|]. intros g [= <-]. simpl. lia.
  - by apply set_end_coherent.
  - unfold set_failed. destruct (ops s !! i) as [[|k v t ttl g e| | |]|] eqn:Hi; try done. by eapply end_one_coherent.
  - by apply coherent_start.
  - unfold delete_end. destruct (ops s !! i) as [[| |k e| |]|] eqn:Hi; try done. by eapply end_one_coherent.
  - by apply clear_start_coherent.
  - by apply clear_end_coherent.
  - unfold expire_start. destruct (isSafeInteger ttl); [|done]. by apply coherent_start.
  - unfold expire_end. destruct (ops s !! i) as [[| | | |k ttl e]|] eqn:Hi; try done. by eapply end_one_coherent.
  - by apply server_coherent.
  - destruct Hc as [H1 H2 H3 H4]. unfold touched in *. constructor; unfold touched in *.
    + intros k' e Ht He. simpl in Ht. destruct (H1 k' e ltac:(set_solver) He) as [(t & x & Hx & Hs)|]; [left; exists t, x|by right].
      split; [|done]. simpl. rewrite lookup_partial_alter_ne by set_solver. done.
    + intros j o Ho. specialize (H2 j o Ho). destruct o as [k' g' [[t|]|]|k' v t ttl g' ex| | |]; simpl in *; try done.
      * intros Eg Ht. rewrite lookup_partial_alter_ne by set_solver. apply H2; [done|set_solver].
      * destruct H2 as [Hs H2]. split; [done|]. intros Ee Eg Ht. rewrite lookup_partial_alter_ne by set_solver. apply H2; [done|done|set_solver].
    + done.
    + done.
  - destruct Hc as [H1 H2 H3 H4]. constructor; [|done..]. intros k' e Ht He. simpl in He. apply lookup_delete_Some in He as [_ He]. by apply H1.
  - destruct Hc as [H1 H2 H3 H4]. constructor; [|done..]. intros k' e Ht' He. by apply H1.
Qed.
(** C34. The cache is coherent: however reads, writes, deletions, expirations and
    clearings overlap in a process, whichever commands fail or time out and
    however late their replies come, an entry that L1 serves for a key stands for
    the text that Redis holds for it at that moment, unless a change of that key
    by this process is still waiting for its reply, the key was changed by
    another process or ran out of time in Redis, or a clearing deleted it from
    Redis by a pattern with special characters, of which the prefix that L1
    clears does not reach the key; a clearing of a namespace without special
    characters never does. In particular a reply that was overtaken never brings
    a deleted value back. *)
Theorem cache_coherent s (Hs : rtc step init s) :
  (∀ k v, k ∉ foreign s ∪ stray s → ¬ mutating s k → l1_get s k = Some v → fresh s k v) ∧
  (∀ k, k ∉ foreign s ∪ stray s → ¬ mutating s k → redis s !! k = None → l1_get s k = None) ∧
  (∀ i k g text, ops s !! i = Some (OGet k g (Some (Some text))) → k ∉ foreign s ∪ stray s → ¬ mutating s k →
     l1_get (get_end i s).1 k = None ∨ ∃ v, l1_get (get_end i s).1 k = Some v ∧ fresh s k v) ∧
  (∀ k, k ∈ stray s → ∃ ns, plain_text ns = false ∧ keys_match (getNamespacedKey ns "*") k = true ∧
     startsWithStr k (replace_star (getNamespacedKey ns "*")) = false).
Proof.
  assert (coherent s) as Hc.
  { assert (coherent init) as Hinit by (constructor; intros *; simpl; rewrite ?lookup_empty; set_solver). clear -Hinit Hs. induction Hs; eauto using step_coherent. }
  assert (∀ k v, k ∉ foreign s ∪ stray s → ¬ mutating s k → l1_get s k = Some v → fresh s k v) as H1.
  { intros k v Ht Hm Hv. unfold l1_get in Hv. destruct (l1 s !! k) as [e|] eqn:He; [|done]. destruct (now s <? e_until e); [|done].
    injection Hv as <-. by destruct (coh_l1 s Hc k e Ht He). }
  split_and!; [done| | |].
  - intros k Ht Hm Hr. destruct (l1_get s k) as [v|] eqn:Hv; [|done]. destruct (H1 k v Ht Hm Hv) as (t & x & Hx & _). congruence.
  - intros i k g text Hi Ht Hm. destruct (l1_get (get_end i s).1 k) as [v|] eqn:Hv; [right; exists v; split; [done|]|by left].
    pose proof (get_end_coherent i s Hc) as Hc'. unfold get_end in Hv, Hc'. rewrite Hi in Hv, Hc'.
    set (s' := if g =? l1Generation s then l1_set k (deserialize text) L1_TTL_MS (finish i s) else finish i s) in *. simpl in Hv, Hc'.
    unfold l1_get in Hv. destruct (l1 s' !! k) as [e|] eqn:He; [|done]. destruct (now s' <? e_until e); [|done]. injection Hv as <-.
    assert (touched s' = touched s ∧ redis s' = redis s ∧ ops s' = delete i (ops s)) as (Et & Er & Eo) by (unfold s'; by destruct (g =? l1Generation s)).
    destruct (coh_l1 s' Hc' k e ltac:(by rewrite Et) He) as [(t & x & Hx & Hst)|(j & o & Hj & Hmu)]; [exists t, x; by rewrite <- Er|].
    destruct Hm. exists j, o. rewrite Eo in Hj. apply lookup_delete_Some in Hj as [_ Hj]. done.
  - intros k Hk. destruct (coh_stray s Hc k Hk) as (ns & Hm & Hp). exists ns. split_and!; [|done|done].
    destruct (plain_text ns) eqn:E; [|done]. destruct (namespace_pattern ns E) as [Er Em]. rewrite Er, <- Em in Hp. congruence.
Qed.

(** ** Clearing a namespace *)

(** One clearing that nothing overlaps; the number of deleted keys, or that the
    backend failed. *)
Definition clear_run (i : nat) (ns : string) (s : state) : state * nat :=
  let s1 := server i (clearNamespace_start i ns s) in
  let n := match ops s1 !! i with Some (OClear _ (Some keys) _) => length keys | _ => 0%nat end in
  (clearNamespace_end i (server i s1), n).

Definition clear_failing (i : nat) (ns : string) (s : state) : state := clearNamespace_end i (clearNamespace_start i ns s).

Definition clearNamespace_result (failed throwOnError : bool) (n : nat) : result string nat :=
  if failed then if throwOnError then Err "error" else Ok 0%nat else Ok n.

(** A clearing of a plain namespace empties it in both levels and touches
    nothing else. *)
Lemma clear_run_exact i ns s : plain_text ns = true → ops s !! i = None →
  let s' := (clear_run i ns s).1 in
  (∀ k, startsWithStr k (ns +:+ ":") = true → l1 s' !! k = None ∧ redis s' !! k = None) ∧
  (∀ k, startsWithStr k (ns +:+ ":") = false → l1 s' !! k = l1 s !! k ∧ redis s' !! k = redis s !! k) ∧
  (clear_run i ns s).2 = length (filter (λ k, startsWithStr k (ns +:+ ":") = true) (elements (dom (redis s)))).
Proof.
  intros Hns Hi. destruct (namespace_pattern ns Hns) as [Hr Hm]. set (p := getNamespacedKey ns "*") in *.
  set (ks := filter (λ k, keys_match p k = true) (elements (dom (redis s)))).
  set (base := start i (OClear p None false) (clearL1Pattern p s)).
  assert (server i base = start i (OClear p (Some ks) false) base) as E1 by (unfold server; change (ops base) with (<[i := OClear p None false]> (ops s)); by rewrite lookup_insert_eq).
  set (mid := start i (OClear p (Some ks) false) base).
  assert (server i mid = start i (OClear p (Some ks) true) (with_redis (filter (λ kv, kv.1 ∉ ks)) (add_stray (filter (λ k, startsWithStr k (replace_star p) = false) ks) mid))) as E2
    by (unfold server; change (ops mid) with (<[i := OClear p (Some ks) false]> (ops base)); by rewrite lookup_insert_eq).
  set (last := start i (OClear p (Some ks) true) (with_redis (filter (λ kv, kv.1 ∉ ks)) (add_stray (filter (λ k, startsWithStr k (replace_star p) = false) ks) mid))).
  assert (clearNamespace_end i last = clearL1Pattern p (finish i last)) as E3 by (unfold clearNamespace_end; change (ops last) with (<[i := OClear p (Some ks) true]> (ops mid)); by rewrite lookup_insert_eq).
  intros s'. assert (s' = clearL1Pattern p (finish i last)) as Es.
  { unfold s', clear_run, clearNamespace_start. fold p. fold base. rewrite E1. fold mid. rewrite E2. fold last. simpl. exact E3. }
  assert (∀ k, l1 s' !! k = if startsWithStr k (ns +:+ ":") then None else l1 s !! k) as Hl.
  { intros k. rewrite Es. simpl. apply option_eq. intros e. rewrite !map_lookup_filter_Some. simpl. rewrite Hr. destruct (startsWithStr k _); naive_solver. }
  assert (∀ k, redis s' !! k = if startsWithStr k (ns +:+ ":") then None else redis s !! k) as Hred.
  { intros k. rewrite Es. simpl. apply option_eq. intros e. rewrite map_lookup_filter_Some. simpl. unfold ks.
    rewrite list_elem_of_filter, elem_of_elements, elem_of_dom, Hm. destruct (startsWithStr k _); [|naive_solver]. split; [|done].
    intros [He Hn]. destruct Hn. rewrite He. eauto. }
  split_and!.
  - intros k Hk. by rewrite Hl, Hred, Hk.
  - intros k Hk. by rewrite Hl, Hred, Hk.
  - unfold clear_run, clearNamespace_start. fold p. fold base. rewrite E1. fold mid. simpl. rewrite lookup_insert_eq. unfold ks.
    f_equal. apply list_filter_iff. intros k. by rewrite Hm.
Qed.
End Service.
Arguments entry : clear implicits.
Arguments op : clear implicits.
Arguments state : clear implicits.

(** ** Tenants: [invalidateTenantCache] *)

Definition is_hex (c : ascii) : bool := isSome (hex_val c).

Fixpoint hex_run (n : nat) (s : string) : option string :=
  match n, s with
  | O, _ => Some s
  | S n', String c s' => if is_hex c then hex_run n' s' else None
  | S _, EmptyString => None
  end.

Fixpoint hex_groups (ns : list nat) (s : string) : bool :=
  match ns with
  | [] => false
  | [n] => match hex_run n s with Some EmptyString => true | _ => false end
  | n :: ns' => match hex_run n s with Some (String c s') => Ascii.eqb c "-" && hex_groups ns' s' | _ => false end
  end.

(** [TENANT_ID_PATTERN] *)
Definition isValidTenantId (s : string) : bool := hex_groups [8; 4; 4; 4; 12]%nat s.

Section Tenants.
Context {value : Type} `{Values value} `{Glob}.

(** The clearing is asked for without [throwOnError]. *)
Definition invalidateTenantCache (i : nat) (tenantId : string) (healthy failed : bool) (s : state value) : state value * result string nat :=
  if negb (isValidTenantId tenantId) then (s, Err "ValidationError")
  else if negb healthy then (s, Err "ServiceUnavailableError")
  else
    let '(s', n) := if failed then (clear_failing i tenantId s, 0%nat) else clear_run i tenantId s in
    (s', match clearNamespace_result failed false n with Ok n => Ok n | Err _ => Err "ServiceUnavailableError" end).
End Tenants.

Lemma hex_not_special c : is_hex c = true → special c = false.
Proof. destruct c as [[] [] [] [] [] [] [] []]; vm_compute; done. Qed.

Lemma hex_run_spec n s r : hex_run n s = Some r → plain_text s = plain_text r ∧ String.length s = (n + String.length r)%nat.
Proof.
  revert s. induction n as [|n IH]; intros [|c s]; simpl; intros Hr; simplify_eq; try done.
  destruct (is_hex c) eqn:Ec; [|done]. apply IH in Hr as [Hp Hl]. split; [|lia]. unfold plain_text in *. simpl. by rewrite hex_not_special.
Qed.

Lemma hex_groups_spec ns s : hex_groups ns s = true → plain_text s = true ∧ S (String.length s) = (list_sum ns + length ns)%nat.
Proof.
  revert s. induction ns as [|n ns IH]; intros s; [done|]. destruct ns as [|n' ns].
  - simpl. destruct (hex_run n s) as [[|]|] eqn:Er; try done. intros _. apply hex_run_spec in Er as [-> ->]. split; [done|]. simpl. lia.
  - cbn [hex_groups]. destruct (hex_run n s) as [[|c r]|] eqn:Er; try done. intros Hg. apply andb_true_iff in Hg as [Ec Hg]. apply Ascii.eqb_eq in Ec as ->.
    apply hex_run_spec in Er as [-> ->]. apply IH in Hg as [Hp Hl]. simpl in *. split; [unfold plain_text in *; simpl; done|lia].
Qed.

Lemma tenant_text t : isValidTenantId t = true → plain_text t = true ∧ String.length t = 36%nat.
Proof. intros Ht. apply hex_groups_spec in Ht as [Hp Hl]. split; [done|]. simpl in Hl. lia. Qed.

Lemma app_length_inj (a b u v : string) : String.length a = String.length b → a +:+ u = b +:+ v → a = b.
Proof. revert b. induction a as [|c a IH]; intros [|d b] Hl He; simpl in *; try done. injection He as -> He. f_equal. apply IH; [lia|done]. Qed.

(** The keys of one tenant are not those of another. *)
Lemma tenant_keys_disjoint t t' k : isValidTenantId t = true → isValidTenantId t' = true → t ≠ t' →
  startsWithStr (getNamespacedKey t' k) (t +:+ ":") = false.
Proof.
  intros Ht Ht' Hne. destruct (startsWithStr _ _) eqn:E; [|done]. apply startsWithStr_spec in E as [u E]. unfold getNamespacedKey in E.
  rewrite str_app_assoc in E. symmetry in E. apply app_length_inj in E; [done|]. by rewrite (proj2 (tenant_text t Ht)), (proj2 (tenant_text t' Ht')).
Qed.

(** Support tooling clears one tenant exactly: with a valid identifier and a
    backend that works, no key of the tenant is left in either level, the keys
    of every other tenant keep their values and lifetimes in both, and the count
    is that of the keys Redis held for it; an identifier that is not a UUID, so
    that none can carry the wildcards of KEYS, and an unhealthy backend change
    nothing. *)
Theorem tenant_cleared {value} `{Values value} `{Glob} i t (s : state value) (Hi : ops s !! i = None) :
  (isValidTenantId t = false → ∀ h f, invalidateTenantCache i t h f s = (s, Err "ValidationError")) ∧
  (isValidTenantId t = true →
    (∀ f, invalidateTenantCache i t false f s = (s, Err "ServiceUnavailableError")) ∧
    (invalidateTenantCache i t true false s).2 = Ok (length (filter (λ k, startsWithStr k (t +:+ ":") = true) (elements (dom (redis s))))) ∧
    let s' := (invalidateTenantCache i t true false s).1 in
    (∀ k, l1 s' !! getNamespacedKey t k = None ∧ redis s' !! getNamespacedKey t k = None) ∧
    (∀ t' k, isValidTenantId t' = true → t' ≠ t →
       l1 s' !! getNamespacedKey t' k = l1 s !! getNamespacedKey t' k ∧ redis s' !! getNamespacedKey t' k = redis s !! getNamespacedKey t' k)).
Proof.
  unfold invalidateTenantCache. split; [by intros ->|]. intros Ht. rewrite Ht. destruct (tenant_text t Ht) as [Hp _].
  destruct (clear_run_exact i t s Hp Hi) as (H1 & H2 & H3). destruct (clear_run i t s) as [s' n]. simpl in *. subst n.
  split_and!; [done|done| |].
  - intros k. apply H1. apply startsWithStr_spec. exists k. unfold getNamespacedKey. by rewrite str_app_assoc.
  - intros t' k Ht' Hne. apply H2. apply tenant_keys_disjoint; auto.
Qed.

(** ** [cache/invalidation.ts]: patterns *)

(** The pattern becomes part of the namespace. *)
Definition invalidatePattern {value} `{Glob} (i : nat) (namespace pattern : string) (s : state value) : state value * nat :=
  clear_run i (namespace +:+ ":" +:+ pattern) s.

(** [createCacheKey] of strings. *)
Definition createCacheKey (parts : list string) : string := join_on ":" parts.

(** ** [clients/sorobanStateCache.ts] *)
Module StateCache.
Section StateCache.
Context {value : Type}.

Record state_cache := {
  ttlMs : Z;
  l1s : gmap string (value * Z);
  l2 : gmap string value;
  reads : gmap nat (string * option (option value))
}.

Definition disabled (c : state_cache) : bool := ttlMs c =? 0.

Definition buildKey (network contractId address : string) : string := network +:+ ":" +:+ contractId +:+ ":" +:+ toLowerCase address.

Definition blank (s : string) : bool := String.eqb (trim s) EmptyString.

(** The component that is refused. *)
Definition assertKeyComponents (network contractId address : string) : option string :=
  if blank network then Some "network" else if blank contractId then Some "contractId" else if blank address then Some "address" else None.

Definition set_l1 (f : gmap string (value * Z) → gmap string (value * Z)) (c : state_cache) : state_cache :=
  {| ttlMs := ttlMs c; l1s := f (l1s c); l2 := l2 c; reads := reads c |}.
Definition set_l2 (f : gmap string value → gmap string value) (c : state_cache) : state_cache :=
  {| ttlMs := ttlMs c; l1s := l1s c; l2 := f (l2 c); reads := reads c |}.
Definition set_reads (f : gmap nat (string * option (option value)) → gmap nat (string * option (option value))) (c : state_cache) : state_cache :=
  {| ttlMs := ttlMs c; l1s := l1s c; l2 := l2 c; reads := f (reads c) |}.

Definition l1_hit (now : Z) (key : string) (c : state_cache) : option value :=
  '(v, until) ← l1s c !! key; if now <? until then Some v else None.

(** Up to the wait for the second level: an answer, or a read that waits. *)
Definition get_begin (i : nat) (now : Z) (network contractId address : string) (c : state_cache) : state_cache * option (result string (option value)) :=
  if disabled c then (c, Some (Ok None))
  else match assertKeyComponents network contractId address with
  | Some part => (c, Some (Err part))
  | None =>
      let key := buildKey network contractId address in
      match l1_hit now key c with
      | Some v => (c, Some (Ok (Some v)))
      | None => (set_reads <[i := (key, None)]> c, None)
      end
  end.

(** The second level answers; a failure is a miss. *)
Definition l2_answer (ok : bool) (i : nat) (c : state_cache) : state_cache :=
  match reads c !! i with
  | Some (key, None) => set_reads <[i := (key, Some (if ok then l2 c !! key else None))]> c
  | _ => c
  end.

(** An answer is promoted into the first level. *)
Definition get_finish (i : nat) (now : Z) (c : state_cache) : state_cache * option value :=
  match reads c !! i with
  | Some (key, Some (Some v)) => (set_l1 <[key := (v, now + ttlMs c)]> (set_reads (delete i) c), Some v)
  | Some (key, Some None) => (set_reads (delete i) c, None)
  | _ => (c, None)
  end.

(** [None] is a nullish value; [ok]: the second level takes the write. *)
Definition cache_set (ok : bool) (now : Z) (network contractId address : string) (v : option value) (c : state_cache) : state_cache :=
  if disabled c then c
  else match v with
  | None => c
  | Some v =>
      let key := buildKey network contractId address in
      let c' := set_l1 <[key := (v, now + ttlMs c)]> c in
      if ok then set_l2 <[key := v]> c' else c'
  end.

Definition ttlSeconds (c : state_cache) : Z := Z.max 1 (ceil_div (ttlMs c) 1000).

Definition invalidate (ok : bool) (network contractId address : string) (c : state_cache) : state_cache * result string () :=
  match assertKeyComponents network contractId address with
  | Some part => (c, Err part)
  | None =>
      let key := buildKey network contractId address in
      let c' := set_l1 (delete key) c in
      (if ok then set_l2 (delete key) c' else c', Ok ())
  end.
End StateCache.
Arguments state_cache : clear implicits.

(** Keys of different networks or contracts differ, where their names have no
    colon. *)
Lemma buildKey_inj n n' c c' a a' : no_char ":" n → no_char ":" n' → no_char ":" c → no_char ":" c' →
  buildKey n c a = buildKey n' c' a' → n = n' ∧ c = c' ∧ toLowerCase a = toLowerCase a'.
Proof.
  unfold buildKey. intros Hn Hn' Hc Hc' E. apply colon_split in E as [-> E]; [|done|done]. apply colon_split in E as [-> E]; done.
Qed.

Lemma buildKey_collides : buildKey "mainnet" "a:b" "c" = buildKey "mainnet" "a" "b:c".
Proof. done. Qed.

(** What was set is read back in any case of the address, until its time is
    over, and never after it was invalidated, reads that wait apart. *)
Lemma state_cache_roundtrip {value} ok i now now' n c a a' (v : value) (s : state_cache value) :
  ttlMs s ≠ 0 → assertKeyComponents n c a' = None → toLowerCase a = toLowerCase a' → now' < now + ttlMs s →
  (get_begin i now' n c a' (cache_set ok now n c a (Some v) s)).2 = Some (Ok (Some v)) ∧
  l1_hit now' (buildKey n c a) (invalidate ok n c a' s).1 = None.
Proof.
  intros Hd Hk Ha Ht. assert (buildKey n c a = buildKey n c a') as Ek by (unfold buildKey; by rewrite Ha). split.
  - unfold get_begin, cache_set, disabled. rewrite (proj2 (Z.eqb_neq _ _) Hd).
    assert (ttlMs (if ok then set_l2 <[buildKey n c a := v]> (set_l1 <[buildKey n c a := (v, now + ttlMs s)]> s)
      else set_l1 <[buildKey n c a := (v, now + ttlMs s)]> s) = ttlMs s) as -> by (by destruct ok).
    rewrite (proj2 (Z.eqb_neq _ _) Hd), Hk, <- Ek. unfold l1_hit.
    destruct ok; simpl; rewrite lookup_insert_eq; simpl; by rewrite (proj2 (Z.ltb_lt _ _) Ht).
  - unfold invalidate. rewrite Hk, <- Ek. unfold l1_hit. destruct ok; simpl; by rewrite lookup_delete_eq.
Qed.

(** A read that waited while the entry was invalidated brings it back. *)
Lemma invalidated_state_returns :
  let key := buildKey "testnet" "C1" "G1" in
  let c0 := {| ttlMs := 5000; l1s := ∅; l2 := {[ key := 7 ]}; reads := ∅ |} in
  let c1 := l2_answer true 0 (get_begin 0 0 "testnet" "C1" "G1" c0).1 in
  let c2 := (invalidate true "testnet" "C1" "G1" c1).1 in
  let c3 := (get_finish 0 10 c2).1 in
  l2 c2 !! key = None ∧ (get_begin 1 20 "testnet" "C1" "G1" c3).2 = Some (Ok (Some 7)).
Proof. vm_compute. auto. Qed.

(** A value that is null is not stored. *)
Lemma null_not_stored {value} ok now n c a (s : state_cache value) : cache_set ok now n c a None s = s.
Proof. unfold cache_set. by destruct (disabled s). Qed.
End StateCache.

(** ** Examples *)
Module CacheExample.

Inductive jv := JString (s : string) | JNumber (n : Z) | JUndefined.

#[export] Instance jv_values : Values jv := {|
  as_string v := match v with JString s => Some s | _ => None end;
  of_string := JString;
  stringify v := match v with JNumber n => Some (bigint_toString n) | _ => None end;
  parse s := if negb (String.eqb s EmptyString) && str_forallb is_digit s then Some (JNumber (BigInt s)) else None |}.

Fixpoint any_suffix (f : string → bool) (s : string) : bool := f s || match s with EmptyString => false | String _ s' => any_suffix f s' end.

(** The star of KEYS. *)
Fixpoint star_match (p : string) : string → bool :=
  match p with
  | EmptyString => λ s, String.eqb s EmptyString
  | String c p' =>
      if Ascii.eqb c "*" then any_suffix (star_match p')
      else λ s, match s with String d s' => Ascii.eqb c d && star_match p' s' | EmptyString => false end
  end.

Lemma any_empty s : any_suffix (λ s, String.eqb s EmptyString) s = true.
Proof. induction s; simpl; [done|]. by rewrite IHs. Qed.

Lemma star_prefix p k : plain_text p = true → star_match (p +:+ "*") k = startsWithStr k p.
Proof.
  unfold plain_text. revert k. induction p as [|c p IH]; intros k Hp; [simpl; rewrite any_empty; by destruct k|].
  simpl in Hp. apply andb_true_iff in Hp as [Hc Hp]. simpl. destruct (Ascii.eqb c "*") eqn:E; [apply Ascii.eqb_eq in E; by subst c|].
  destruct k as [|d k]; [done|]. by rewrite IH.
Qed.

#[export] Instance star_glob : Glob := {| keys_match := star_match; keys_prefix := star_prefix |}.

Definition stored : state jv := (set_end 0 (server 0 (set_start 0 "bond:7" (JNumber 5) None init).1)).1.

Lemma stored_reachable : rtc step init stored.
Proof. unfold stored. eapply rtc_r; [eapply rtc_r; [eapply rtc_r; [apply rtc_refl|]|]|]; [by apply s_set|apply s_server|apply s_set_end]. Qed.

Lemma cache_coherent_witness : l1_get stored "bond:7" = Some (JNumber 5) ∧ fresh stored "bond:7" (JNumber 5).
Proof.
  split; [by vm_compute|]. apply (proj1 (cache_coherent stored stored_reachable)); [by vm_compute| |by vm_compute].
  intros (i & o & Hi & _). change (ops stored) with (delete 0%nat (<[0%nat := OSet "bond:7" (JNumber 5) "5" None 1 true]>
    (<[0%nat := OSet "bond:7" (JNumber 5) "5" None 1 false]> ∅)) : gmap nat (op jv)) in Hi.
  destruct i; [by rewrite lookup_delete_eq in Hi|]. rewrite lookup_delete_ne, !lookup_insert_ne in Hi by done. by rewrite lookup_empty in Hi.
Defined.

Definition tenant : string := "123e4567-e89b-12d3-a456-426614174000".
Definition tenant_state : state jv := (set_end 0 (server 0 (set_start 0 (getNamespacedKey tenant "profile") (JNumber 1) None init).1)).1.

Lemma tenant_cleared_witness :
  ops tenant_state !! 1%nat = None ∧ isValidTenantId tenant = true ∧ (invalidateTenantCache 1 tenant true false tenant_state).2 = Ok 1%nat ∧
  redis (invalidateTenantCache 1 tenant true false tenant_state).1 !! getNamespacedKey tenant "profile" = None.
Proof.
  split_and!; [by vm_compute|by vm_compute|by vm_compute|].
  exact (proj2 (proj1 (proj2 (proj2 (proj2 (tenant_cleared 1 tenant tenant_state eq_refl) eq_refl))) "profile")).
Defined.

(** A key that expires in Redis is served for a minute once it was read. *)
Lemma promoted_entry_outlives_ttl :
  ∃ s : state jv, rtc step init s ∧ now s = 30000 ∧ redis s !! "bond:7" = None ∧ l1_get s "bond:7" = Some (JNumber 1).
Proof.
  eexists. split.
  - eapply rtc_r; [eapply rtc_r; [eapply rtc_r; [eapply rtc_r; [eapply rtc_r; [eapply rtc_r; [apply rtc_refl|]|]|]|]|]|].
    + apply (s_foreign "bond:7" (Some ("1", Some 1000))).
    + by apply (s_get 0 "bond:7").
    + apply (s_server 0).
    + apply (s_get_end 0).
    + by apply (s_tick 30000).
    + apply (s_foreign "bond:7" None).
  - vm_compute. auto.
Qed.

(** A string that looks like JSON changes its type when it comes from Redis. *)
Lemma string_changes_type :
  let s := (set_end 0 (server 0 (set_start 0 "k" (JString "42") None init).1)).1 in
  (get_start 1 "k" s).2 = Some (JString "42") ∧
  (get_end 1 (server 1 (get_start 1 "k" (with_l1 (delete "k") s)).1)).2 = Some (JNumber 42).
Proof. vm_compute. auto. Qed.

(** The documented pattern for the bonds of an identity leaves them in both
    levels. *)
Lemma pattern_not_cleared :
  let s := (set_end 0 (server 0 (set_start 0 "bond:identity:7" (JNumber 5) None init).1)).1 in
  let s' := (invalidatePattern 1 "bond" "identity:*" s).1 in
  l1_get s' "bond:identity:7" = Some (JNumber 5) ∧ redis s' !! "bond:identity:7" = redis s !! "bond:identity:7".
Proof. vm_compute. auto. Qed.

(** A pattern with a star deletes a key from Redis that L1 goes on serving. *)
Lemma pattern_strays :
  let s := (set_end 0 (server 0 (set_start 0 "bond:identity:7:x" (JNumber 5) None init).1)).1 in
  let s' := (invalidatePattern 1 "bond" "identity:*" s).1 in
  l1_get s' "bond:identity:7:x" = Some (JNumber 5) ∧ redis s' !! "bond:identity:7:x" = None ∧ stray s' = {["bond:identity:7:x"]}.
Proof. split_and!; by vm_compute. Qed.

(** A clearing that fails is reported as one that found nothing. *)
Lemma failed_clear_reported :
  let s' := invalidateTenantCache 1 tenant true true tenant_state in
  s'.2 = Ok 0%nat ∧ redis s'.1 !! getNamespacedKey tenant "profile" = redis tenant_state !! getNamespacedKey tenant "profile".
Proof. vm_compute. auto. Qed.

(** Parts with colons make the same key. *)
Lemma cache_keys_collide : createCacheKey ["a:b"; "c"] = createCacheKey ["a"; "b:c"].
Proof. done. Qed.
End CacheExample.
