(* ===== verification/Outbox.v ===== *)
(** * The transactional outbox

    The statements of [db/outbox/repository.ts] on the tables [event_outbox] and
    [outbox_quarantine], the emitter ([db/outbox/emitter.ts]), the validation of
    the coordinator ([db/outbox/atomic.ts], whose run is in [OutboxAtomic]), the
    publisher
    ([db/outbox/publisher.ts]) with any number of consumers whose batches
    interleave statement by statement and may crash anywhere, and the webhook
    publisher ([db/outbox/webhookPublisher.ts]).

    The repository as it stands does not parse (a function is declared inside
    its class) and several methods use names that are not declared
    ([effectiveLimit], [effectiveLeaseSeconds], [shardCountParam],
    [sanitizedMessage], [rawMessage]): what is modelled is their statements,
    with the arguments that the helpers beside them normalise and messages as
    [errorSanitizer.ts] leaves them. *)

From stdpp Require Import base option list gmap strings sorting relations.
From Stdlib Require Import ZArith Lia Ascii.
From S2P Require Import Prelude JsLib StateTransition.
Import StateTransition.Outbox.

Open Scope Z_scope.

(** ** Tables *)

Record OutboxEvent := {
  id : Z;
  aggregateType : string;
  aggregateId : string;
  eventType : string;
  payload : string;
  status : OutboxLifecycleStatus;
  retryCount : Z;
  maxRetries : Z;
  consumerId : option string;
  leaseExpiresAt : option Z;
  nextAttemptAt : option Z;
  createdAt : Z;
  processedAt : option Z;
  errorMessage : option string;
  shardCount : option Z;
  shardId : option Z;
  publishIdempotencyKey : option string
}.

Inductive OutboxQuarantineReason := malformed_json | schema_invalid | oversized_payload | unknown_event_type.
#[export] Instance reason_eq_dec : EqDecision OutboxQuarantineReason.
Proof. solve_decision. Defined.

Record OutboxQuarantineEntry := {
  q_id : Z;
  originalEventId : Z;
  q_aggregateType : string;
  q_aggregateId : string;
  q_eventType : string;
  q_payload : string;
  reason : OutboxQuarantineReason;
  q_errorMessage : string;
  q_retryCount : Z;
  q_maxRetries : Z;
  reinjectedAt : option Z;
  reinjectedBy : option string
}.

(** The rows by their ids, the sequence of ids, and the quarantine. *)
Record outbox := {
  rows : gmap Z OutboxEvent;
  seq : Z;
  quarantined : list OutboxQuarantineEntry;
  qseq : Z
}.

Definition with_rows (f : gmap Z OutboxEvent → gmap Z OutboxEvent) (d : outbox) : outbox :=
  {| rows := f (rows d); seq := seq d; quarantined := quarantined d; qseq := qseq d |}.

(** An UPDATE of the rows that meet a condition, and their number. *)
Definition update_where (p : OutboxEvent → bool) (f : OutboxEvent → OutboxEvent) (d : outbox) : outbox * Z :=
  (with_rows (fmap (λ r, if p r then f r else r)) d, Z.of_nat (size (filter (λ kv, p kv.2 = true) (rows d)))).

Definition update_one (i : Z) (p : OutboxEvent → bool) (f : OutboxEvent → OutboxEvent) (d : outbox) : outbox * bool :=
  match rows d !! i with
  | Some r => if p r then (with_rows <[i := f r]> d, true) else (d, false)
  | None => (d, false)
  end.

Definition is_processing (r : OutboxEvent) : bool := bool_decide (status r = processing).
Definition owned_by (c : string) (r : OutboxEvent) : bool := bool_decide (consumerId r = Some c).

(** ** Arguments *)

Definition MAX_BACKOFF_SECONDS : Z := 3600.
Definition DEFAULT_LEASE_SECONDS : Z := 300.
Definition DEFAULT_CLAIM_LIMIT : Z := 100.

(** Of integers: values that are not finite do not occur here. *)
Definition normalizeLeaseSeconds (s : Z) : Z := if s <=? 0 then DEFAULT_LEASE_SECONDS else s.
Definition normalizeLimit (n : Z) : Z := if n <=? 0 then DEFAULT_CLAIM_LIMIT else n.

Definition normalizeShard (count shard : option Z) : option (Z * Z) :=
  match count, shard with
  | Some n, Some i => if (n <=? 0) || (i <? 0) || (n <=? i) then None else Some (n, i)
  | _, _ => None
  end.

(** ** Statements of the repository *)

Record CreateOutboxEvent := {
  n_aggregateType : string;
  n_aggregateId : string;
  n_eventType : string;
  n_payload : string;
  n_maxRetries : option Z
}.

Definition new_row (now i : Z) (e : CreateOutboxEvent) : OutboxEvent :=
  {| id := i; aggregateType := n_aggregateType e; aggregateId := n_aggregateId e; eventType := n_eventType e; payload := n_payload e;
     status := pending; retryCount := 0; maxRetries := default 5 (n_maxRetries e); consumerId := None; leaseExpiresAt := None;
     nextAttemptAt := None; createdAt := now; processedAt := None; errorMessage := None; shardCount := None; shardId := None;
     publishIdempotencyKey := None |}.

Definition create (now : Z) (e : CreateOutboxEvent) (d : outbox) : outbox * result string Z :=
  if match n_maxRetries e with Some n => n <? 0 | None => false end then (d, Err "maxRetries must be a non-negative integer")
  else
    let i := seq d + 1 in
    ({| rows := <[i := new_row now i e]> (rows d); seq := i; quarantined := quarantined d; qseq := qseq d |}, Ok i).

Section Claims.
(** [('x'||substr(md5(id::text),1,8))::bit(32)::int]: the first 32 bits of the
    digest, as a signed integer. *)
Variable shard_hash : Z → Z.

(** The remainder of SQL has the sign of the dividend. *)
Definition in_shard (shard : option (Z * Z)) (r : OutboxEvent) : bool :=
  match shard with None => true | Some (n, i) => Z.rem (shard_hash (id r)) n =? i end.

Definition claimable (now : Z) (r : OutboxEvent) : bool :=
  (bool_decide (status r = pending) ||
   (is_processing r && match leaseExpiresAt r with None => true | Some t => t <? now end)) &&
  match nextAttemptAt r with None => true | Some t => t <=? now end.

Definition claim_row (now lease : Z) (c : string) (shard : option (Z * Z)) (r : OutboxEvent) : OutboxEvent :=
  {| id := id r; aggregateType := aggregateType r; aggregateId := aggregateId r; eventType := eventType r; payload := payload r;
     status := processing; retryCount := retryCount r; maxRetries := maxRetries r; consumerId := Some c;
     leaseExpiresAt := Some (now + lease * 1000); nextAttemptAt := nextAttemptAt r; createdAt := createdAt r; processedAt := processedAt r;
     errorMessage := errorMessage r; shardCount := fst <$> shard; shardId := snd <$> shard;
     publishIdempotencyKey := publishIdempotencyKey r |}.

(** By the time of creation; PostgreSQL is free among rows of one time. *)
Definition older (x y : Z * OutboxEvent) : Prop := createdAt x.2 ≤ createdAt y.2.
#[export] Instance older_dec x y : Decision (older x y).
Proof. unfold older. solve_decision. Defined.

(** [locked]: the rows that other statements hold, which SKIP LOCKED passes. *)
Definition picked (now limit : Z) (shard : option (Z * Z)) (locked : gset Z) (d : outbox) : list (Z * OutboxEvent) :=
  take (Z.to_nat limit)
    (merge_sort older (filter (λ kv, claimable now kv.2 && in_shard shard kv.2 = true ∧ kv.1 ∉ locked) (map_to_list (rows d)))).

(** The claimed rows, as they are after the update. *)
Definition claimEvents (now : Z) (c : string) (limit lease : Z) (count shard : option Z) (locked : gset Z) (d : outbox) :
    outbox * list OutboxEvent :=
  if limit <=? 0 then (d, [])
  else
    let sh := normalizeShard count shard in
    let l := picked now (normalizeLimit limit) sh locked d in
    let claim := claim_row now (normalizeLeaseSeconds lease) c sh in
    (with_rows (λ m, foldr (λ kv, <[kv.1 := claim kv.2]>) m l) d, (λ kv, claim kv.2) <$> l).
End Claims.

Definition set_lease (t : option Z) (r : OutboxEvent) : OutboxEvent :=
  {| id := id r; aggregateType := aggregateType r; aggregateId := aggregateId r; eventType := eventType r; payload := payload r;
     status := status r; retryCount := retryCount r; maxRetries := maxRetries r; consumerId := consumerId r; leaseExpiresAt := t;
     nextAttemptAt := nextAttemptAt r; createdAt := createdAt r; processedAt := processedAt r; errorMessage := errorMessage r;
     shardCount := shardCount r; shardId := shardId r; publishIdempotencyKey := publishIdempotencyKey r |}.

Definition set_key (k : option string) (r : OutboxEvent) : OutboxEvent :=
  {| id := id r; aggregateType := aggregateType r; aggregateId := aggregateId r; eventType := eventType r; payload := payload r;
     status := status r; retryCount := retryCount r; maxRetries := maxRetries r; consumerId := consumerId r;
     leaseExpiresAt := leaseExpiresAt r; nextAttemptAt := nextAttemptAt r; createdAt := createdAt r; processedAt := processedAt r;
     errorMessage := errorMessage r; shardCount := shardCount r; shardId := shardId r; publishIdempotencyKey := k |}.

(** The end of a claim: to a status, with the owner, the lease and the key gone. *)
Definition unclaim (s : OutboxLifecycleStatus) (p : option Z) (r : OutboxEvent) : OutboxEvent :=
  {| id := id r; aggregateType := aggregateType r; aggregateId := aggregateId r; eventType := eventType r; payload := payload r;
     status := s; retryCount := retryCount r; maxRetries := maxRetries r; consumerId := None; leaseExpiresAt := None;
     nextAttemptAt := nextAttemptAt r; createdAt := createdAt r; processedAt := p; errorMessage := errorMessage r;
     shardCount := shardCount r; shardId := shardId r; publishIdempotencyKey := None |}.

Definition renewLease (now : Z) (c : string) (lease : Z) (d : outbox) : outbox * Z :=
  if lease <=? 0 then (d, 0)
  else update_where (λ r, owned_by c r && is_processing r) (set_lease (Some (now + normalizeLeaseSeconds lease * 1000))) d.

Definition releaseClaims (c : string) (d : outbox) : outbox * Z :=
  if String.eqb c EmptyString then (d, 0)
  else update_where (λ r, owned_by c r && is_processing r) (λ r, unclaim pending (processedAt r) r) d.

Definition recoverStaleLeases (now : Z) (d : outbox) : outbox * Z :=
  update_where (λ r, is_processing r && match leaseExpiresAt r with None => true | Some t => t <? now end)
    (λ r, unclaim pending (processedAt r) r) d.

(** What a caller passes for the consumer: a name, or a boolean, which the
    driver sends as text. *)
Inductive consumer_arg := Name (c : string) | Flag (b : bool).

Definition arg_text (a : consumer_arg) : option string :=
  match a with
  | Name EmptyString | Flag false => None
  | Name c => Some c
  | Flag true => Some "true"
  end.

Definition markPublished (now i : Z) (a : consumer_arg) (d : outbox) : outbox * result string () :=
  match arg_text a with
  | None => (d, Err "markPublished")
  | Some c =>
      let '(d', ok) := update_one i (λ r, is_processing r && owned_by c r) (unclaim published (Some now)) d in
      (d', if (ok : bool) then Ok () else Err "markPublished")
  end.

Definition trySetPublishIdempotencyKey (i : Z) (key c : string) (d : outbox) : outbox * bool :=
  if String.eqb key EmptyString || String.eqb c EmptyString then (d, false)
  else update_one i (λ r, is_processing r && bool_decide (publishIdempotencyKey r = None) && owned_by c r) (set_key (Some key)) d.

Definition clearPublishIdempotencyKey (i : Z) (d : outbox) : outbox := (update_one i (λ _, true) (set_key None) d).1.

Definition exhausts (r : OutboxEvent) : bool := maxRetries r <=? retryCount r + 1.

Definition fail_row (now : Z) (m : string) (r : OutboxEvent) : OutboxEvent :=
  {| id := id r; aggregateType := aggregateType r; aggregateId := aggregateId r; eventType := eventType r; payload := payload r;
     status := if exhausts r then dead_letter else pending; retryCount := retryCount r + 1; maxRetries := maxRetries r; consumerId := None;
     leaseExpiresAt := None;
     nextAttemptAt := if exhausts r then None else Some (now + Z.min (2 ^ (retryCount r + 1)) MAX_BACKOFF_SECONDS * 1000);
     createdAt := createdAt r; processedAt := if exhausts r then Some now else None; errorMessage := Some m;
     shardCount := shardCount r; shardId := shardId r; publishIdempotencyKey := None |}.

Definition markFailed (now i : Z) (m : string) (a : consumer_arg) (d : outbox) : outbox * result string (OutboxLifecycleStatus * Z) :=
  match arg_text a with
  | None => (d, Err "markFailed")
  | Some c =>
      match rows d !! i with
      | Some r =>
          if is_processing r && owned_by c r
          then (with_rows <[i := fail_row now m r]> d,
                Ok (if maxRetries r <=? retryCount r + 1 then dead_letter else pending, retryCount r + 1))
          else (d, Err "markFailed")
      | None => (d, Err "markFailed")
      end
  end.

(** The move to the quarantine; the row is deleted even when an entry for it is
    there. *)
Definition quarantine (e : OutboxEvent) (why : OutboxQuarantineReason) (m : string) (d : outbox) : outbox :=
  if bool_decide (status e = published) then d
  else match rows d !! id e with
  | None => d
  | Some r =>
      let entry := {| q_id := qseq d + 1; originalEventId := id r; q_aggregateType := aggregateType r; q_aggregateId := aggregateId r;
        q_eventType := eventType r; q_payload := payload r; reason := why; q_errorMessage := m; q_retryCount := retryCount r;
        q_maxRetries := maxRetries r; reinjectedAt := None; reinjectedBy := None |} in
      let known := existsb (λ q, originalEventId q =? id r) (quarantined d) in
      {| rows := delete (id e) (rows d); seq := seq d;
         quarantined := if known then quarantined d else quarantined d ++ [entry]; qseq := qseq d + 1 |}
  end.

Definition mark_reinjected (now : Z) (by_ : string) (q : OutboxQuarantineEntry) : OutboxQuarantineEntry :=
  {| q_id := q_id q; originalEventId := originalEventId q; q_aggregateType := q_aggregateType q; q_aggregateId := q_aggregateId q;
     q_eventType := q_eventType q; q_payload := q_payload q; reason := reason q; q_errorMessage := q_errorMessage q;
     q_retryCount := q_retryCount q; q_maxRetries := q_maxRetries q; reinjectedAt := Some now; reinjectedBy := Some by_ |}.

Definition reinjectQuarantined (now qid : Z) (fixedPayload by_ : string) (d : outbox) : outbox * option Z :=
  if String.eqb by_ EmptyString then (d, None)
  else match find (λ q, (q_id q =? qid) && bool_decide (reinjectedAt q = None)) (quarantined d) with
  | None => (d, None)
  | Some q =>
      let i := seq d + 1 in
      let r := new_row now i {| n_aggregateType := q_aggregateType q; n_aggregateId := q_aggregateId q; n_eventType := q_eventType q;
        n_payload := fixedPayload; n_maxRetries := Some (q_maxRetries q) |} in
      ({| rows := <[i := r]> (rows d); seq := i; quarantined := (λ x, if q_id x =? qid then mark_reinjected now by_ x else x) <$> quarantined d;
          qseq := qseq d |}, Some i)
  end.

Definition DAY_MS : Z := 86400000.

Definition expired_row (now published_days failed_days : Z) (r : OutboxEvent) : bool :=
  match processedAt r with
  | None => false
  | Some t => (bool_decide (status r = published) && (t <? now - published_days * DAY_MS)) ||
              (bool_decide (status r = failed) && (t <? now - failed_days * DAY_MS))
  end.

Definition cleanup (now published_days failed_days : Z) (d : outbox) : outbox * Z :=
  if (published_days <? 0) || (failed_days <? 0) then (d, 0)
  else (with_rows (filter (λ kv, expired_row now published_days failed_days kv.2 = false)) d,
        Z.of_nat (size (filter (λ kv, expired_row now published_days failed_days kv.2 = true) (rows d)))).

Definition fetchByConsumer (c : string) (limit : Z) (d : outbox) : list OutboxEvent :=
  if String.eqb c EmptyString || (limit <=? 0) then []
  else (take (Z.to_nat (normalizeLimit limit)) (merge_sort older (filter (λ kv, owned_by c kv.2 && is_processing kv.2 = true) (map_to_list (rows d))))).*2.

(** The count of a status. *)
Definition getStats (s : OutboxLifecycleStatus) (d : outbox) : Z := Z.of_nat (size (filter (λ kv, status kv.2 = s) (rows d))).

(** ** The emitter *)
Module Emitter.

Definition MAX_BATCH_SIZE : nat := 1000.

(** The event as it is given; [g_version] is the optional version. *)
Record given := { g_event : CreateOutboxEvent; g_version : option Z }.

Definition empty (s : string) : bool := String.eqb s EmptyString.

Definition assertEvent (g : given) : option string :=
  if empty (n_aggregateType (g_event g)) then Some "event.aggregateType is required"
  else if empty (n_aggregateId (g_event g)) then Some "event.aggregateId is required"
  else if empty (n_eventType (g_event g)) then Some "event.eventType is required"
  else if match g_version g with Some v => v <? 1 | None => false end then Some "event.version must be a positive integer"
  else None.

Definition emit (now : Z) (g : given) (d : outbox) : outbox * result string Z :=
  match assertEvent g with Some m => (d, Err m) | None => create now (g_event g) d end.

(** The INSERTs, one after the other; the first error is thrown. *)
Fixpoint create_all (now : Z) (gs : list given) (d : outbox) : outbox * result string (list Z) :=
  match gs with
  | [] => (d, Ok [])
  | g :: gs' =>
      match create now (g_event g) d with
      | (d1, Err m) => (d1, Err m)
      | (d1, Ok i) => let '(d2, r) := create_all now gs' d1 in (d2, match r with Ok l => Ok (i :: l) | Err m => Err m end)
      end
  end.

Definition emitBatch (now : Z) (gs : list given) (d : outbox) : outbox * result string (list Z) :=
  match gs with
  | [] => (d, Err "emitBatch requires at least one event")
  | _ =>
      if (MAX_BATCH_SIZE <? length gs)%nat then (d, Err ("emitBatch supports at most 1000 events per call, received " +:+ bigint_toString (Z.of_nat (length gs))))
      else match list_find (λ g, is_Some (assertEvent g)) gs with
      | Some (k, g) => (d, Err ("emitBatch event at index " +:+ bigint_toString (Z.of_nat k) +:+ " is invalid: " +:+ default EmptyString (assertEvent g)))
      | None => create_all now gs d
      end
  end.
End Emitter.

(** ** The validation of the coordinator's events *)
Module Atomic.
Import Emitter.

Definition blank (s : string) : bool := String.eqb (trim s) EmptyString.

(** [plain]: the payload is a plain object. *)
Definition validateOutboxEvent (plain : string → bool) (g : given) : option string :=
  if blank (n_aggregateType (g_event g)) then Some "Outbox event aggregateType is required"
  else if blank (n_aggregateId (g_event g)) then Some "Outbox event aggregateId is required"
  else if blank (n_eventType (g_event g)) then Some "Outbox event eventType is required"
  else if negb (plain (n_payload (g_event g))) then Some "Outbox event payload must be a plain object"
  else None.

End Atomic.

(** ** The publisher *)

(** The keys of [QUEUE_EVENT_SCHEMAS], and the other known types. *)
Definition QUEUE_EVENT_TYPES : list string :=
  ["attestation.event"; "attestation.add"; "attestation.revoke"; "bond.creation"; "bond.create"; "withdrawal.event"; "bond.withdrawal"].
Definition KNOWN_OUTBOX_EVENT_TYPES : list string :=
  ["bond.created"; "bond.slashed"; "bond.withdrawn"; "attestation.created"; "attestation.revoked"] ++ QUEUE_EVENT_TYPES.

Definition DEFAULT_MAX_PAYLOAD_BYTES : Z := 262144.

Definition buildPublishIdempotencyKey (c : string) (i : Z) : string := "outbox-pub:" +:+ c +:+ ":" +:+ bigint_toString i.

(** The shards a publisher accepts. *)
Definition publisher_shard_ok (count shard : option Z) : bool :=
  match count, shard with
  | None, None => true
  | Some n, Some i => (0 <? n) && (0 <=? i) && (i <? n)
  | _, _ => false
  end.

(** [mapEventType] of the webhook publisher. *)
Definition mapEventType (t : string) : option string :=
  if String.eqb t "bond.created" then Some "bond.created" else if String.eqb t "bond.slashed" then Some "bond.slashed"
  else if String.eqb t "bond.withdrawn" then Some "bond.withdrawn" else if String.eqb t "attestation.created" then Some "attestation.added"
  else if String.eqb t "attestation.revoked" then Some "attestation.revoked" else if String.eqb t "credits.low" then Some "credits.low"
  else None.

(** The groups of a batch, in the order of their first events. *)
Fixpoint add_to_group (key : string) (e : OutboxEvent) (gs : list (string * list OutboxEvent)) : list (string * list OutboxEvent) :=
  match gs with
  | [] => [(key, [e])]
  | (k, es) :: gs' => if String.eqb k key then (k, es ++ [e]) :: gs' else (k, es) :: add_to_group key e gs'
  end.

Definition aggregate_key (e : OutboxEvent) : string := aggregateType e +:+ ":" +:+ aggregateId e.
Definition groupByAggregate (es : list OutboxEvent) : list (string * list OutboxEvent) :=
  foldl (λ gs e, add_to_group (aggregate_key e) e gs) [] es.

Section Publisher.
Variable shard_hash : Z → Z.
(** What the driver and zod find wrong with a payload, and its length in UTF-8. *)
Variable parse_error : string → option string.
Variable schema_error : string → string → option string.
Variable byteLength : string → Z.
Variable maxPayloadBytes : Z.

Definition detectPoisonPill (e : OutboxEvent) : option (OutboxQuarantineReason * string) :=
  match parse_error (payload e) with
  | Some m => Some (malformed_json, m)
  | None =>
      if maxPayloadBytes <? byteLength (payload e) then Some (oversized_payload, "payload exceeds " +:+ bigint_toString maxPayloadBytes +:+ " bytes")
      else if negb (bool_decide (eventType e ∈ KNOWN_OUTBOX_EVENT_TYPES)) then Some (unknown_event_type, "unknown event type " +:+ eventType e)
      else if bool_decide (eventType e ∈ QUEUE_EVENT_TYPES)
      then match schema_error (eventType e) (payload e) with Some m => Some (schema_invalid, m) | None => None end
      else None
  end.

(** The consumer is passed as a boolean. (A budget of 0 is read as 1, which the
    comparison does not tell apart.) *)
Definition handlePublishFailure (now : Z) (e : OutboxEvent) (m : string) (d : outbox) : outbox * result string (OutboxLifecycleStatus * Z) :=
  markFailed now (id e) m (Flag (maxRetries e <=? retryCount e + 1)) d.

(** *** Batches that interleave *)

(** An event of a batch: not begun, with its key set, or published. *)
Inductive phase := Claimed | Keyed | Sent.
Record task := { owner : string; event : OutboxEvent; at_ : phase }.

(** [log]: the events that [publish] was called with. *)
Record system := { db : outbox; tasks : gmap nat task; log : list Z; clock : Z }.

Definition set_db (d : outbox) (s : system) : system := {| db := d; tasks := tasks s; log := log s; clock := clock s |}.
Definition set_tasks (f : gmap nat task → gmap nat task) (s : system) : system := {| db := db s; tasks := f (tasks s); log := log s; clock := clock s |}.

(** [processEvent] up to its next statement; [ok]: what [publish] gives. An
    error of a statement ends the batch; the failure handler runs twice when it
    throws itself. *)
Definition task_step (j : nat) (ok : bool) (s : system) : system :=
  match tasks s !! j with
  | None => s
  | Some t =>
      let e := event t in
      let c := owner t in
      let drop := set_tasks (delete j) in
      let next p := set_tasks <[j := {| owner := c; event := e; at_ := p |}]> in
      match at_ t with
      | Claimed =>
          match detectPoisonPill e with
          | Some (why, m) => drop (set_db (quarantine e why m (db s)) s)
          | None =>
              match publishIdempotencyKey e with
              | Some (String _ _) => drop (set_db (markPublished (clock s) (id e) (Name c) (db s)).1 s)
              | _ =>
                  let '(d, acquired) := trySetPublishIdempotencyKey (id e) (buildPublishIdempotencyKey c (id e)) c (db s) in
                  if (acquired : bool) then next Keyed (set_db d s)
                  else drop (set_db (markPublished (clock s) (id e) (Name c) d).1 s)
              end
          end
      | Keyed =>
          let s1 := {| db := db s; tasks := tasks s; log := id e :: log s; clock := clock s |} in
          if ok then next Sent s1 else drop (set_db (handlePublishFailure (clock s) e "error" (db s)).1 s1)
      | Sent =>
          match markPublished (clock s) (id e) (Name c) (db s) with
          | (d, Ok _) => drop (set_db d s)
          | (d, Err m) => drop (set_db (handlePublishFailure (clock s) e m d).1 s)
          end
      end
  end.

Definition add_tasks (c : string) (js : list nat) (es : list OutboxEvent) (m : gmap nat task) : gmap nat task :=
  foldr (λ x, <[x.1 := {| owner := c; event := x.2; at_ := Claimed |}]>) m (zip js es).

(** Steps of consumers without a stop; a consumer is never called by the text
    of a boolean. *)
Inductive step : system → system → Prop :=
| st_emit g s : step s (set_db (Emitter.emit (clock s) g (db s)).1 s)
| st_claim c limit lease count shard locked js s :
    let r := claimEvents shard_hash (clock s) c limit lease count shard locked (db s) in
    c ≠ "true" → length js = length r.2 → NoDup js → (∀ j, j ∈ js → tasks s !! j = None) →
    step s (set_tasks (add_tasks c js r.2) (set_db r.1 s))
| st_task j ok s : step s (task_step j ok s)
| st_renew c lease s : step s (set_db (renewLease (clock s) c lease (db s)).1 s)
| st_crash j s : step s (set_tasks (delete j) s)
| st_cleanup p f s : step s (set_db (cleanup (clock s) p f (db s)).1 s)
| st_reinject q p by_ s : step s (set_db (reinjectQuarantined (clock s) q p by_ (db s)).1 s)
| st_time t s : 0 ≤ t → step s {| db := db s; tasks := tasks s; log := log s; clock := clock s + t |}.

Definition no_outbox : outbox := {| rows := ∅; seq := 0; quarantined := []; qseq := 0 |}.
Definition start : system := {| db := no_outbox; tasks := ∅; log := []; clock := 0 |}.
End Publisher.

(** ** Every event is published at most once *)

Definition is_end (s : OutboxLifecycleStatus) : bool := isTerminalOutboxStatus s.

(** No key can be set on the event any more. *)
Definition closed (d : outbox) (i : Z) : Prop :=
  i ≤ seq d ∧ ∀ r, rows d !! i = Some r → publishIdempotencyKey r ≠ None ∨ is_end (status r) = true.

Definition wf (d : outbox) : Prop := ∀ i r, rows d !! i = Some r → id r = i ∧ i ≤ seq d ∧ consumerId r ≠ Some "true".

(** A statement keeps the tables well formed and the closed events closed. *)
Record keeps (d d' : outbox) : Prop := {
  keeps_wf : wf d';
  keeps_seq : seq d ≤ seq d';
  keeps_closed : ∀ i, closed d i → closed d' i
}.

Lemma keeps_refl d : wf d → keeps d d.
Proof. by constructor. Qed.
#[local] Hint Resolve keeps_refl : core.

(** Statements that add a fresh row. *)
Lemma keeps_insert d r qs n : wf d → id r = seq d + 1 → consumerId r = None →
  keeps d {| rows := <[seq d + 1 := r]> (rows d); seq := seq d + 1; quarantined := qs; qseq := n |}.
Proof.
  intros Hw Hi Hc. constructor; simpl; [|lia|].
  - intros i x Hx. simpl in Hx. apply lookup_insert_Some in Hx as [[<- <-]|[Hne Hx]]; [rewrite Hc; split_and!; [done|simpl; lia|done]|].
    destruct (Hw i x Hx) as (? & ? & ?). split_and!; [done|simpl; lia|done].
  - intros i [Hle Hr]. split; [simpl; lia|]. intros x Hx. simpl in Hx. rewrite lookup_insert_ne in Hx by lia. by apply Hr.
Qed.

(** Statements that change rows in place. *)
Lemma keeps_update d m : wf d →
  (∀ i r', m !! i = Some r' → ∃ r, rows d !! i = Some r ∧ id r' = id r ∧ consumerId r' ≠ Some "true" ∧
     (publishIdempotencyKey r ≠ None ∨ is_end (status r) = true → publishIdempotencyKey r' ≠ None ∨ is_end (status r') = true)) →
  keeps d (with_rows (λ _, m) d).
Proof.
  intros Hw Hm. constructor; simpl; [|lia|].
  - intros i r' Hr. destruct (Hm i r' Hr) as (r & Hr0 & Hid & Hc & _). destruct (Hw i r Hr0) as (? & ? & _). simpl. split_and!; [congruence|done|done].
  - intros i [Hle Hr]. split; [done|]. intros r' Hr'. destruct (Hm i r' Hr') as (r & Hr0 & _ & _ & Hx). by apply Hx, Hr.
Qed.

Lemma keeps_one d i p f : wf d →
  (∀ r, rows d !! i = Some r → p r = true → id (f r) = id r ∧ consumerId (f r) ≠ Some "true" ∧
     (publishIdempotencyKey r ≠ None ∨ is_end (status r) = true → publishIdempotencyKey (f r) ≠ None ∨ is_end (status (f r)) = true)) →
  keeps d (update_one i p f d).1.
Proof.
  intros Hw Hf. unfold update_one. destruct (rows d !! i) as [r|] eqn:Hr; [|by apply keeps_refl]. destruct (p r) eqn:Ep; [|by apply keeps_refl].
  apply (keeps_update d (<[i := f r]> (rows d)) Hw). intros j r' Hj. apply lookup_insert_Some in Hj as [[<- <-]|[Hne Hj]]; [exists r; by destruct (Hf r eq_refl Ep)|].
  exists r'. split_and!; [done|done|by apply (Hw j r')|auto].
Qed.

Lemma keeps_where d p f : wf d →
  (∀ i r, rows d !! i = Some r → p r = true → id (f r) = id r ∧ consumerId (f r) ≠ Some "true" ∧
     (publishIdempotencyKey r ≠ None ∨ is_end (status r) = true → publishIdempotencyKey (f r) ≠ None ∨ is_end (status (f r)) = true)) →
  keeps d (update_where p f d).1.
Proof.
  intros Hw Hf. apply (keeps_update d (_ <$> rows d) Hw). intros i r' Hr. apply lookup_fmap_Some in Hr as (r & <- & Hr). exists r.
  destruct (p r) eqn:Ep; [by destruct (Hf i r Hr Ep)|]. split_and!; [done|done|by apply (Hw i r)|auto].
Qed.

Lemma keeps_smaller d m qs n : wf d → m ⊆ rows d → keeps d {| rows := m; seq := seq d; quarantined := qs; qseq := n |}.
Proof.
  intros Hw Hm. constructor; simpl; [|lia|].
  - intros i r Hr. simpl in *. apply (Hw i r). by eapply lookup_weaken.
  - intros i [Hle Hr]. split; [done|]. intros r Hr'. apply Hr. by eapply lookup_weaken.
Qed.

Lemma emit_keeps now g d : wf d → keeps d (Emitter.emit now g d).1.
Proof.
  intros Hw. unfold Emitter.emit. destruct (Emitter.assertEvent g); [by apply keeps_refl|]. unfold create.
  destruct (match n_maxRetries _ with Some _ => _ | None => _ end); [by apply keeps_refl|]. by apply keeps_insert.
Qed.

Lemma reinject_keeps now q p b d : wf d → keeps d (reinjectQuarantined now q p b d).1.
Proof.
  intros Hw. unfold reinjectQuarantined. destruct (String.eqb b _); [by apply keeps_refl|]. destruct (find _ _); [|by apply keeps_refl].
  by apply keeps_insert.
Qed.

Lemma renew_keeps now c lease d : wf d → keeps d (renewLease now c lease d).1.
Proof.
  intros Hw. unfold renewLease. destruct (lease <=? 0); [by apply keeps_refl|]. apply keeps_where; [done|]. intros i r Hr _.
  split_and!; [done|by apply (Hw i r)|done].
Qed.

Lemma cleanup_keeps now p f d : wf d → keeps d (cleanup now p f d).1.
Proof.
  intros Hw. unfold cleanup. destruct (_ || _); [by apply keeps_refl|]. simpl. apply keeps_smaller; [done|]. apply map_filter_subseteq.
Qed.

Lemma quarantine_keeps e w m d : wf d → keeps d (quarantine e w m d).
Proof.
  intros Hw. unfold quarantine. destruct (bool_decide _); [by apply keeps_refl|]. destruct (rows d !! id e); [|by apply keeps_refl].
  apply keeps_smaller; [done|]. apply delete_subseteq.
Qed.

Lemma markPublished_keeps now i a d : wf d → keeps d (markPublished now i a d).1.
Proof.
  intros Hw. unfold markPublished. destruct (arg_text a) as [c|]; [|by apply keeps_refl].
  pose proof (keeps_one d i (λ r, is_processing r && owned_by c r) (unclaim published (Some now)) Hw) as Hk.
  destruct (update_one _ _ _ _) as [d' ok]. apply Hk. intros r _ _. split_and!; [done|done|]. by right.
Qed.

Lemma trySet_keeps i k c d : wf d → keeps d (trySetPublishIdempotencyKey i k c d).1.
Proof.
  intros Hw. unfold trySetPublishIdempotencyKey. destruct (_ || _); [by apply keeps_refl|]. apply keeps_one; [done|]. intros r Hr _.
  split_and!; [done|by apply (Hw i r)|]. by left.
Qed.

(** Who sets the key closed an event that was open. *)
Lemma trySet_closes i k c d : wf d → (trySetPublishIdempotencyKey i k c d).2 = true →
  ¬ closed d i ∧ closed (trySetPublishIdempotencyKey i k c d).1 i.
Proof.
  intros Hw. unfold trySetPublishIdempotencyKey. destruct (_ || _); [done|]. unfold update_one. destruct (rows d !! i) as [r|] eqn:Hr; [|done].
  destruct (is_processing r && _ && _) eqn:Ep; [|done]. intros _. destruct (Hw i r Hr) as (_ & Hle & _).
  apply andb_true_iff in Ep as [Ep _]. apply andb_true_iff in Ep as [Ep Ek]. apply bool_decide_eq_true in Ep, Ek. split.
  - intros [_ Hc]. destruct (Hc r Hr) as [?|He]; [done|]. rewrite Ep in He. done.
  - split; [done|]. intros r' Hr'. simpl in Hr'. rewrite lookup_insert_eq in Hr'. injection Hr' as <-. by left.
Qed.

(** The failure handler finds no row: it passes a boolean for the consumer. *)
Lemma handler_noop now e m d : wf d → (handlePublishFailure now e m d).1 = d ∧ ∃ x, (handlePublishFailure now e m d).2 = Err x.
Proof.
  intros Hw. unfold handlePublishFailure, markFailed. destruct (maxRetries e <=? retryCount e + 1); simpl; [|eauto].
  destruct (rows d !! id e) as [r|] eqn:Hr; [|eauto]. destruct (Hw _ r Hr) as (_ & _ & Hc). unfold owned_by. rewrite (bool_decide_eq_false_2 _ Hc), andb_false_r. eauto.
Qed.

Lemma picked_row now limit sh lk hash d i r : (i, r) ∈ picked hash now limit sh lk d → rows d !! i = Some r ∧ claimable now r = true.
Proof.
  unfold picked. intros Hx. apply elem_of_take in Hx as (n & Hx & _). apply list_elem_of_lookup_2 in Hx. rewrite merge_sort_Permutation in Hx.
  apply list_elem_of_filter in Hx as [[Hc _] Hx]. apply elem_of_map_to_list in Hx. simpl in Hc. apply andb_true_iff in Hc as [Hc _]. done.
Qed.

Lemma foldr_insert_lookup {A} (f : A → A) (l : list (Z * A)) (m : gmap Z A) i x :
  foldr (λ kv, <[kv.1 := f kv.2]>) m l !! i = Some x → (∃ r, (i, r) ∈ l ∧ x = f r) ∨ m !! i = Some x.
Proof.
  induction l as [|[k r] l IH]; simpl; [by right|]. intros Hx. apply lookup_insert_Some in Hx as [[<- <-]|[_ Hx]]; [left; exists r; split; [left|done]|].
  destruct (IH Hx) as [(r' & Hr & ->)|]; [left; exists r'; split; [by right|done]|by right].
Qed.

Lemma claim_keeps hash now c limit lease cnt sh lk d : wf d → c ≠ "true" →
  keeps d (claimEvents hash now c limit lease cnt sh lk d).1 ∧
  ∀ e, e ∈ (claimEvents hash now c limit lease cnt sh lk d).2 → id e ≤ seq d.
Proof.
  intros Hw Hc. unfold claimEvents. destruct (limit <=? 0); [split; [by apply keeps_refl|intros e He; by apply not_elem_of_nil in He]|]. simpl.
  set (l := picked _ _ _ _ _ _). split.
  - apply (keeps_update d (foldr _ (rows d) l) Hw). intros i r' Hr. apply foldr_insert_lookup in Hr as [(r & Hr & ->)|Hr].
    + apply picked_row in Hr as [Hr Hcl]. exists r. split_and!; [done|done|simpl; congruence|]. intros [Hk|He]; [by left|]. exfalso.
      unfold claimable, is_processing in Hcl. by destruct (status r).
    + exists r'. split_and!; [done|done|by apply (Hw i r')|auto].
  - intros e He. apply list_elem_of_fmap in He as ([i r] & -> & Hr). apply picked_row in Hr as [Hr _]. destruct (Hw i r Hr) as (Hi & Hle & _). simpl. lia.
Qed.

Section Safety.
Variable shard_hash : Z → Z.
Variable parse_error : string → option string.
Variable schema_error : string → string → option string.
Variable byteLength : string → Z.
Variable maxPayloadBytes : Z.
#[local] Notation pstep := (step shard_hash parse_error schema_error byteLength maxPayloadBytes).
#[local] Notation tstep := (task_step parse_error schema_error byteLength maxPayloadBytes).

(** A task that is between its key and its publish. *)
Definition keyed (s : system) (j : nat) (i : Z) : Prop := ∃ t, tasks s !! j = Some t ∧ at_ t = Keyed ∧ id (event t) = i.

Record inv (s : system) : Prop := {
  inv_wf : wf (db s);
  inv_once : NoDup (log s);
  inv_log : ∀ i, i ∈ log s → closed (db s) i;
  inv_keyed : ∀ j i, keyed s j i → closed (db s) i ∧ i ∉ log s;
  inv_one : ∀ j1 j2 i, keyed s j1 i → keyed s j2 i → j1 = j2
}.

(** Statements that keep the closed events, and no new task with a key. *)
Lemma inv_keeps s s' : inv s → keeps (db s) (db s') → log s' = log s → (∀ j i, keyed s' j i → keyed s j i) → inv s'.
Proof.
  intros [Hw Ho Hl Hk H1] [Hw' _ Hc] El Ht. constructor.
  - done.
  - by rewrite El.
  - intros i. rewrite El. auto.
  - intros j i Hj. rewrite El. destruct (Hk j i (Ht j i Hj)). auto.
  - intros j1 j2 i Ha Hb. eapply H1; eauto.
Qed.

Lemma inv_start : inv start.
Proof.
  constructor; [intros i r Hr; cbn in Hr; by rewrite lookup_empty in Hr|constructor|intros i Hi; by apply not_elem_of_nil in Hi| |];
    intros ? ? ?; [|intros]; by repeat match goal with H : keyed start _ _ |- _ => destruct H as (? & H & _); cbn in H; rewrite lookup_empty in H end.
Qed.

Lemma keyed_delete d m j k i : keyed (set_db d (set_tasks (delete j) m)) k i → keyed m k i.
Proof. intros (t & Ht & Hr). simpl in Ht. apply lookup_delete_Some in Ht as [_ Ht]. by exists t. Qed.

(** A task that ends after a statement. *)
Lemma inv_drop s j d : inv s → keeps (db s) d → inv (set_tasks (delete j) (set_db d s)).
Proof. intros Hi Hk. eapply inv_keeps; [done|done|done|]. intros k i. by apply keyed_delete. Qed.

Lemma add_tasks_claimed c js es m k t : add_tasks c js es m !! k = Some t → at_ t = Keyed → m !! k = Some t.
Proof.
  unfold add_tasks. induction (zip js es) as [|x l IH]; simpl; [done|]. intros Ht Ha. apply lookup_insert_Some in Ht as [[_ <-]|[_ Ht]]; [done|by apply IH].
Qed.

(** A task whose key was set. *)
Lemma inv_key s j t d : inv s → tasks s !! j = Some t → at_ t = Claimed → keeps (db s) d → ¬ closed (db s) (id (event t)) →
  closed d (id (event t)) → inv (set_tasks <[j := {| owner := owner t; event := event t; at_ := Keyed |}]> (set_db d s)).
Proof.
  intros [Hw Ho Hl Hk H1] Hj Ha [Hw' _ Hc] Hopen Hcl.
  assert (Hs : ∀ k i, keyed (set_tasks <[j := {| owner := owner t; event := event t; at_ := Keyed |}]> (set_db d s)) k i →
    (k = j ∧ i = id (event t)) ∨ (k ≠ j ∧ keyed s k i ∧ i ≠ id (event t))).
  { intros k i (u & Hu & Hau & Hiu). simpl in Hu. apply lookup_insert_Some in Hu as [[<- <-]|[Hne Hu]]; [by left|right].
    assert (Hks : keyed s k i) by (by exists u). split_and!; [done|done|]. intros ->. by apply Hopen, (Hk k _ Hks). }
  constructor; simpl; try done.
  - intros i Hi. auto.
  - intros k i Hki. destruct (Hs k i Hki) as [[_ ->]|(_ & Hks & _)]; [split; [done|]; intros Hi; by apply Hopen, Hl|].
    destruct (Hk k i Hks). auto.
  - intros k1 k2 i Ha1 Ha2. destruct (Hs k1 i Ha1) as [[-> ->]|(_ & Hk1 & Hn)], (Hs k2 _ Ha2) as [[-> ?]|(_ & Hk2 & ?)]; try done. by eapply H1.
Qed.

(** A task that publishes goes to the log. *)
Lemma inv_publish s j t t' : inv s → tasks s !! j = Some t → at_ t = Keyed → (∀ u, t' = Some u → at_ u ≠ Keyed) →
  inv {| db := db s; tasks := partial_alter (λ _, t') j (tasks s); log := id (event t) :: log s; clock := clock s |}.
Proof.
  intros [Hw Ho Hl Hk H1] Hj Ha Ht'. assert (Hkj : keyed s j (id (event t))) by (by exists t). destruct (Hk j _ Hkj) as [Hcl Hn].
  set (s' := {| db := db s |}). assert (Hs : ∀ k i, keyed s' k i → k ≠ j ∧ keyed s k i).
  { intros k i (u & Hu & Hau & Hiu). simpl in Hu. destruct (decide (k = j)) as [->|Hne]; [rewrite lookup_partial_alter_eq in Hu; by destruct (Ht' u Hu)|].
    rewrite lookup_partial_alter_ne in Hu by done. split; [done|by exists u]. }
  constructor; simpl; try done.
  - by constructor.
  - intros i Hi. apply elem_of_cons in Hi as [->|Hi]; auto.
  - intros k i Hki. destruct (Hs k i Hki) as [Hne Hks]. destruct (Hk k i Hks) as [Hci Hni]. split; [done|]. intros Hi.
    apply elem_of_cons in Hi as [->|Hi]; [|done]. by apply Hne, (H1 _ _ _ Hks Hkj).
  - intros k1 k2 i Ha1 Ha2. destruct (Hs _ _ Ha1), (Hs _ _ Ha2). by eapply H1.
Qed.

Lemma task_step_inv j ok s : inv s → inv (tstep j ok s).
Proof.
  intros Hi. pose proof (inv_wf s Hi) as Hw. unfold task_step. destruct (tasks s !! j) as [t|] eqn:Hj; [|done].
  destruct (at_ t) eqn:Ha.
  - destruct (detectPoisonPill _ _ _ _ _) as [[why m]|]; [by apply inv_drop, quarantine_keeps|].
    assert (Hmp : ∀ d, keeps (db s) d → inv (set_tasks (delete j) (set_db (markPublished (clock s) (id (event t)) (Name (owner t)) d).1 s))).
    { intros d [Hd Hq Hc]. apply inv_drop; [done|]. destruct (markPublished_keeps (clock s) (id (event t)) (Name (owner t)) d Hd). constructor; [done|lia|auto]. }
    assert (Htry : inv (let '(d, acquired) := trySetPublishIdempotencyKey (id (event t)) (buildPublishIdempotencyKey (owner t) (id (event t))) (owner t) (db s) in
      if (acquired : bool) then set_tasks <[j := {| owner := owner t; event := event t; at_ := Keyed |}]> (set_db d s)
      else set_tasks (delete j) (set_db (markPublished (clock s) (id (event t)) (Name (owner t)) d).1 s))).
    { pose proof (trySet_keeps (id (event t)) (buildPublishIdempotencyKey (owner t) (id (event t))) (owner t) _ Hw) as Hk.
      pose proof (trySet_closes (id (event t)) (buildPublishIdempotencyKey (owner t) (id (event t))) (owner t) _ Hw) as Hcl.
      destruct (trySetPublishIdempotencyKey _ _ _ _) as [d [|]]; [|by apply Hmp]. destruct (Hcl eq_refl). by apply inv_key. }
    destruct (publishIdempotencyKey (event t)) as [[|]|]; [exact Htry|apply Hmp; by constructor|exact Htry].
  - destruct ok; [by apply (inv_publish s j t (Some _) Hi Hj Ha); intros u [= <-]|].
    destruct (handler_noop (clock s) (event t) "error" (db s) Hw) as [-> _]. by apply (inv_publish s j t None Hi Hj Ha).
  - pose proof (markPublished_keeps (clock s) (id (event t)) (Name (owner t)) (db s) Hw) as Hk.
    destruct (markPublished _ _ _ _) as [d [[]|m]]; [by apply inv_drop|]. destruct (handler_noop (clock s) (event t) m d (keeps_wf _ _ Hk)) as [-> _]. by apply inv_drop.
Qed.

Lemma publisher_step_inv s s' : pstep s s' → inv s → inv s'.
Proof.
  intros Hst Hi. pose proof (inv_wf s Hi) as Hw. inversion Hst; subst.
  - eapply inv_keeps; [done|by apply emit_keeps|done|done].
  - eapply inv_keeps; [done|by apply claim_keeps|done|]. intros k i (t & Ht & Ha & Hid). exists t. split_and!; [|done|done]. by apply (add_tasks_claimed _ _ _ _ k t Ht).
  - by apply task_step_inv.
  - eapply inv_keeps; [done|by apply renew_keeps|done|done].
  - eapply inv_keeps; [done|by apply keeps_refl|done|]. intros k i. by apply (keyed_delete (db s) s).
  - eapply inv_keeps; [done|by apply cleanup_keeps|done|done].
  - eapply inv_keeps; [done|by apply reinject_keeps|done|done].
  - eapply inv_keeps; [done|by apply keeps_refl|done|done].
Qed.

(** The publisher as it is written gives up an event whose publication failed,
    where it means to retry it. That has one consequence: however the batches of
    any number of consumers interleave, wherever they crash, whatever the leases,
    the shards and the results of [publish], no event is handed to the publisher
    twice while no consumer stops. *)
Theorem published_at_most_once s : rtc pstep start s → NoDup (log s).
Proof.
  intros Hs. apply inv_once. revert Hs. generalize inv_start. generalize start. intros s0 H0 Hs. induction Hs as [|x y z Hxy _ IH]; [done|].
  by apply IH, (publisher_step_inv x).
Qed.
End Safety.

(** ** The other statements, and the tables of [types.ts] *)

Definition process_row (r : OutboxEvent) : OutboxEvent :=
  {| id := id r; aggregateType := aggregateType r; aggregateId := aggregateId r; eventType := eventType r; payload := payload r;
     status := processing; retryCount := retryCount r; maxRetries := maxRetries r; consumerId := consumerId r;
     leaseExpiresAt := leaseExpiresAt r; nextAttemptAt := nextAttemptAt r; createdAt := createdAt r; processedAt := processedAt r;
     errorMessage := errorMessage r; shardCount := shardCount r; shardId := shardId r; publishIdempotencyKey := publishIdempotencyKey r |}.

(** The deprecated claim, which takes neither owner nor lease. *)
Definition fetchPendingForProcessing (limit : Z) (locked : gset Z) (d : outbox) : outbox * list OutboxEvent :=
  if limit <=? 0 then (d, [])
  else
    let l := take (Z.to_nat (normalizeLimit limit))
      (merge_sort older (filter (λ kv, status kv.2 = pending ∧ kv.1 ∉ locked) (map_to_list (rows d)))) in
    (with_rows (λ m, foldr (λ kv, <[kv.1 := process_row kv.2]>) m l) d, (λ kv, process_row kv.2) <$> l).

(** In milliseconds; 0 when no event waits. *)
Definition getOldestPendingEventLag (now : Z) (d : outbox) : Z :=
  match createdAt <$> (filter (λ r, status r = pending ∨ status r = processing) (map_to_list (rows d)).*2) with
  | [] => 0
  | t :: ts => now - foldr Z.min t ts
  end.

Definition getByAggregate (ty i : string) (limit : Z) (d : outbox) : list OutboxEvent :=
  if limit <=? 0 then []
  else take (Z.to_nat (normalizeLimit limit))
    (reverse (merge_sort older (filter (λ kv, aggregateType kv.2 = ty ∧ aggregateId kv.2 = i) (map_to_list (rows d)))).*2).

(** Newest first: the quarantine is kept in the order of its ids. *)
Definition listQuarantine (limit offset : Z) (why : option OutboxQuarantineReason) (d : outbox) : list OutboxQuarantineEntry * Z :=
  if limit <=? 0 then ([], 0)
  else
    let l := reverse (filter (λ q, reinjectedAt q = None ∧ (why = None ∨ why = Some (reason q))) (quarantined d)) in
    let page := take (Z.to_nat limit) (drop (Z.to_nat offset) l) in
    (page, match page with [] => 0 | _ => Z.of_nat (length l) end).

Module Types.

(** The first table, and the one that is called canonical. *)
Definition OUTBOX_STATUS_TRANSITIONS (s : OutboxLifecycleStatus) : list OutboxLifecycleStatus :=
  match s with
  | pending => [processing]
  | processing => [pending; failed; published; dead_letter]
  | failed => [processing; dead_letter]
  | published | dead_letter => []
  end.

Definition OUTBOX_STATE_TRANSITIONS (s : OutboxLifecycleStatus) : list OutboxLifecycleStatus :=
  match s with
  | pending => [processing; dead_letter]
  | processing => [published; failed; dead_letter]
  | failed => [pending; dead_letter]
  | published | dead_letter => []
  end.

Definition can_transition (table : OutboxLifecycleStatus → list OutboxLifecycleStatus) (f t : OutboxLifecycleStatus) : bool :=
  negb (bool_decide (f = t)) && bool_decide (t ∈ table f).

Definition terminal_status (s : OutboxLifecycleStatus) : bool := bool_decide (s ∈ [published; dead_letter]).

Definition isOutboxRetryExhausted (r : OutboxEvent) : bool := (maxRetries r <=? 0) || (maxRetries r <=? retryCount r).
Definition isOutboxLeaseExpired (now : Z) (r : OutboxEvent) : bool := match leaseExpiresAt r with None => true | Some t => t <=? now end.

Definition isOutboxEventClaimable (now : Z) (r : OutboxEvent) : bool :=
  if terminal_status (status r) then false else if isOutboxRetryExhausted r then false
  else if bool_decide (status r = processing) && negb (isOutboxLeaseExpired now r) then false else true.

Definition canRetryOutboxEvent (r : OutboxEvent) : bool :=
  if negb (bool_decide (status r = failed)) && negb (bool_decide (status r = pending)) then false
  else if (retryCount r <? 0) || (maxRetries r <? 0) then false else retryCount r <? maxRetries r.

Definition isOutboxEventExhausted (r : OutboxEvent) : bool :=
  (retryCount r <? 0) || (maxRetries r <? 0) || (maxRetries r <=? retryCount r).

Definition canReclaimOutboxEvent (now : Z) (r : OutboxEvent) : bool := bool_decide (status r = processing) && isOutboxLeaseExpired now r.

Definition MAX_RETRIES_LIMIT : Z := 100.
Definition MAX_IDENTIFIER_LENGTH : nat := 255.

Definition field_errors (field value : string) : list string :=
  if Atomic.blank value then [field +:+ " must be a non-empty string"]
  else if (MAX_IDENTIFIER_LENGTH <? String.length value)%nat then [field +:+ " must be at most 255 characters"] else [].

(** Of an event whose fields have their types. *)
Definition validateCreateOutboxEvent (plain : string → bool) (e : CreateOutboxEvent) : list string :=
  field_errors "aggregateType" (n_aggregateType e) ++ field_errors "aggregateId" (n_aggregateId e) ++ field_errors "eventType" (n_eventType e) ++
  (if plain (n_payload e) then [] else ["payload must be a plain object"]) ++
  match n_maxRetries e with
  | Some n => if (n <? 0) || (MAX_RETRIES_LIMIT <? n) then ["maxRetries must be an integer between 0 and 100"] else []
  | None => []
  end.

(** The statement and the predicate agree on rows that can be retried, except
    at the very end of a lease. *)
Lemma claimable_agrees now r : status r ≠ failed → isOutboxRetryExhausted r = false → nextAttemptAt r = None → leaseExpiresAt r ≠ Some now →
  claimable now r = isOutboxEventClaimable now r.
Proof.
  intros Hf He Hn Hl. unfold claimable, isOutboxEventClaimable, is_processing, isOutboxLeaseExpired. rewrite He, Hn.
  destruct (status r), (leaseExpiresAt r) as [t|]; try done; repeat case_decide; try done; simpl; destruct (t <? now) eqn:E1, (t <=? now) eqn:E2; try done;
    try lia; destruct Hl; f_equal; lia.
Qed.

(** Neither table is the one of the statements: both refuse what a statement
    does or allow what none does. *)
Lemma transition_tables_disagree :
  can_transition OUTBOX_STATE_TRANSITIONS processing pending = false ∧ isValidOutboxTransition processing pending = true ∧
  can_transition OUTBOX_STATUS_TRANSITIONS processing failed = true ∧ isValidOutboxTransition processing failed = false.
Proof. done. Qed.
End Types.

(** ** The life of an event *)

Inductive statement :=
| Create (e : CreateOutboxEvent)
| Claim (c : string) (limit lease : Z) (count shard : option Z) (locked : gset Z)
| FetchPending (limit : Z) (locked : gset Z)
| RenewLease (c : string) (lease : Z)
| ReleaseClaims (c : string)
| RecoverStale
| MarkPublished (i : Z) (a : consumer_arg)
| SetKey (i : Z) (key c : string)
| ClearKey (i : Z)
| MarkFailed (i : Z) (m : string) (a : consumer_arg)
| Quarantine (e : OutboxEvent) (why : OutboxQuarantineReason) (m : string)
| Reinject (q : Z) (p by_ : string)
| Cleanup (published_days failed_days : Z).

Section Lifecycle.
Variable shard_hash : Z → Z.

Definition execute (now : Z) (st : statement) (d : outbox) : outbox :=
  match st with
  | Create e => (create now e d).1
  | Claim c limit lease count shard locked => (claimEvents shard_hash now c limit lease count shard locked d).1
  | FetchPending limit locked => (fetchPendingForProcessing limit locked d).1
  | RenewLease c lease => (renewLease now c lease d).1
  | ReleaseClaims c => (releaseClaims c d).1
  | RecoverStale => (recoverStaleLeases now d).1
  | MarkPublished i a => (markPublished now i a d).1
  | SetKey i key c => (trySetPublishIdempotencyKey i key c d).1
  | ClearKey i => clearPublishIdempotencyKey i d
  | MarkFailed i m a => (markFailed now i m a d).1
  | Quarantine e why m => quarantine e why m d
  | Reinject q p by_ => (reinjectQuarantined now q p by_ d).1
  | Cleanup p f => (cleanup now p f d).1
  end.

Definition history (l : list (Z * statement)) : outbox := foldl (λ d x, execute x.1 x.2 d) no_outbox l.

Definition open_status (s : OutboxLifecycleStatus) : Prop := s = pending ∨ s = processing.

(** The retries of a row are within its budget. *)
Definition budget (r : OutboxEvent) : Prop :=
  0 ≤ retryCount r ≤ Z.max 1 (maxRetries r) ∧ 0 ≤ maxRetries r ∧ (open_status (status r) → retryCount r = 0 ∨ retryCount r < maxRetries r).

(** What becomes of a row: its content stays; its status follows the matrix or
    stays; a failure is counted once, ends the event when the budget is spent
    and otherwise delays it for at most an hour. *)
Record evolves (now : Z) (r r' : OutboxEvent) : Prop := {
  ev_content : id r' = id r ∧ aggregateType r' = aggregateType r ∧ aggregateId r' = aggregateId r ∧ eventType r' = eventType r ∧
    payload r' = payload r ∧ createdAt r' = createdAt r ∧ maxRetries r' = maxRetries r;
  ev_status : status r' = status r ∨ isValidOutboxTransition (status r) (status r') = true;
  ev_retries : (retryCount r' = retryCount r ∧ nextAttemptAt r' = nextAttemptAt r) ∨
    (status r = processing ∧ retryCount r' = retryCount r + 1 ∧
     ((status r' = dead_letter ∧ maxRetries r ≤ retryCount r') ∨
      (status r' = pending ∧ retryCount r' < maxRetries r ∧
       ∃ t, nextAttemptAt r' = Some t ∧ now < t ≤ now + 3600000)))
}.

(** An entry of the quarantine that holds an event. *)
Definition holds (q : OutboxQuarantineEntry) (r : OutboxEvent) : Prop :=
  originalEventId q = id r ∧ q_aggregateType q = aggregateType r ∧ q_aggregateId q = aggregateId r ∧ q_eventType q = eventType r ∧
  q_payload q = payload r ∧ q_retryCount q = retryCount r ∧ q_maxRetries q = maxRetries r ∧ reinjectedAt q = None.

(** From tables to tables: rows evolve, leave to the quarantine or long after
    their end, and come fresh; the quarantine keeps its entries and reinjects
    each at most once. *)
Record moves (now : Z) (d d' : outbox) : Prop := {
  mv_rows : ∀ i r r', rows d !! i = Some r → rows d' !! i = Some r' → evolves now r r';
  mv_gone : ∀ i r, rows d !! i = Some r → rows d' !! i = None →
    (∃ q, q ∈ quarantined d' ∧ holds q r) ∨ (is_end (status r) = true ∧ ∃ t, processedAt r = Some t ∧ t < now);
  mv_new : ∀ i r, rows d !! i = None → rows d' !! i = Some r → i = seq d + 1 ∧ seq d' = i ∧ status r = pending ∧ retryCount r = 0 ∧
    (0 ≤ maxRetries r) ∧ id r = i;
  mv_kept : ∀ q, q ∈ quarantined d → q ∈ quarantined d' ∨ (reinjectedAt q = None ∧ ∃ b, mark_reinjected now b q ∈ quarantined d' ∧ seq d' = seq d + 1)
}.

(** The tables of every history. *)
Record ledger_ok (d : outbox) : Prop := {
  lo_rows : ∀ i r, rows d !! i = Some r → id r = i ∧ i ≤ seq d ∧ budget r;
  lo_apart : ∀ q, q ∈ quarantined d → originalEventId q ≤ seq d ∧ rows d !! originalEventId q = None ∧ q_id q ≤ qseq d ∧ 0 ≤ q_maxRetries q;
  lo_ids : NoDup (q_id <$> quarantined d)
}.

Lemma row_evolves_refl now r : evolves now r r.
Proof. constructor; auto 10. Qed.

Lemma evolves_budget now r r' : evolves now r r' → budget r → budget r'.
Proof.
  intros [(_ & _ & _ & _ & _ & _ & Hm) Hs Hr] (Hb & H0 & Ho). unfold budget, open_status in *. rewrite Hm.
  destruct Hr as [[-> _]|(Hp & Hc & [[Hd Hx]|(Hd & Hx & _)])].
  - split_and!; [lia|lia|done|]. intros Hop. apply Ho. destruct Hs as [<-|Hv]; [done|]. destruct (status r); auto; by destruct (status r').
  - rewrite Hd. specialize (Ho (or_intror Hp)). split_and!; [lia|lia|done|by intros [?|?]].
  - split_and!; [lia|lia|done|]. intros _. right. lia.
Qed.

(** Rows updated in place. *)
Lemma moves_update now d m : (∀ i, rows d !! i = None → m !! i = None) → (∀ i r, rows d !! i = Some r → ∃ r', m !! i = Some r' ∧ evolves now r r') →
  moves now d (with_rows (λ _, m) d).
Proof.
  intros Hn Hs. constructor; simpl.
  - intros i r r' Hr Hr'. destruct (Hs i r Hr) as (x & Hx & He). by simplify_eq.
  - intros i r Hr Hr'. destruct (Hs i r Hr) as (x & Hx & He). by simplify_eq.
  - intros i r Hr Hr'. rewrite Hn in Hr' by done. done.
  - auto.
Qed.

Lemma moves_refl now d : moves now d d.
Proof. destruct d. apply (moves_update now {| rows := _ |}); [done|]. intros i r Hr. exists r. split; [done|apply row_evolves_refl]. Qed.

Lemma moves_one now d i p f : (∀ r, rows d !! i = Some r → p r = true → evolves now r (f r)) → moves now d (update_one i p f d).1.
Proof.
  intros Hf. unfold update_one. destruct (rows d !! i) as [r|] eqn:Hr; [|apply moves_refl]. destruct (p r) eqn:Ep; [|apply moves_refl].
  apply (moves_update now d (<[i := f r]> (rows d))).
  - intros j Hj. rewrite lookup_insert_ne; [done|congruence].
  - intros j x Hj. destruct (decide (i = j)) as [<-|Hne].
    + rewrite lookup_insert_eq. simplify_eq. eauto.
    + rewrite lookup_insert_ne by done. exists x. split; [done|apply row_evolves_refl].
Qed.

Lemma moves_where now d p f : (∀ i r, rows d !! i = Some r → p r = true → evolves now r (f r)) → moves now d (update_where p f d).1.
Proof.
  intros Hf. apply (moves_update now d ((λ r, if p r then f r else r) <$> rows d)).
  - intros i Hi. by rewrite lookup_fmap, Hi.
  - intros i r Hr. rewrite lookup_fmap, Hr. simpl. eexists. split; [done|]. destruct (p r) eqn:Ep; [eauto|apply row_evolves_refl].
Qed.

(** Rows claimed from a list of rows of the table. *)
Lemma moves_list now d (l : list (Z * OutboxEvent)) f : (∀ i r, (i, r) ∈ l → rows d !! i = Some r ∧ evolves now r (f r)) →
  moves now d (with_rows (λ m, foldr (λ kv, <[kv.1 := f kv.2]>) m l) d).
Proof.
  intros Hl. apply (moves_update now d (foldr (λ kv, <[kv.1 := f kv.2]>) (rows d) l)).
  - intros i Hi. destruct (foldr _ _ l !! i) as [x|] eqn:Hx; [|done]. apply foldr_insert_lookup in Hx as [(r & Hr & _)|?]; [|congruence].
    destruct (Hl i r Hr). congruence.
  - intros i r Hr. destruct (foldr _ _ l !! i) as [x|] eqn:Hx.
    + exists x. split; [done|]. apply foldr_insert_lookup in Hx as [(r0 & Hr0 & ->)|Hx]; [destruct (Hl i r0 Hr0); by simplify_eq|].
      simplify_eq. apply row_evolves_refl.
    + exfalso. clear Hl. induction l as [|[k y] l IH]; simpl in Hx; [congruence|]. apply lookup_insert_None in Hx as [Hx _]. by apply IH.
Qed.

Lemma moves_insert now d r : ledger_ok d → id r = seq d + 1 → status r = pending → retryCount r = 0 → 0 ≤ maxRetries r →
  ∀ qs n, (∀ q, q ∈ quarantined d → q ∈ qs ∨ (reinjectedAt q = None ∧ ∃ b, mark_reinjected now b q ∈ qs)) →
  moves now d {| rows := <[seq d + 1 := r]> (rows d); seq := seq d + 1; quarantined := qs; qseq := n |}.
Proof.
  intros Hd Hi Hs Hr Hm qs n Hq. assert (Hf : rows d !! (seq d + 1) = None).
  { destruct (rows d !! (seq d + 1)) as [x|] eqn:Hx; [|done]. destruct (lo_rows d Hd _ _ Hx) as (_ & ? & _). lia. }
  constructor; simpl.
  - intros i x x' Hx Hx'. rewrite lookup_insert_ne in Hx' by congruence. simplify_eq. apply row_evolves_refl.
  - intros i x Hx Hx'. apply lookup_insert_None in Hx' as [? _]. congruence.
  - intros i x Hx Hx'. apply lookup_insert_Some in Hx' as [[<- <-]|[_ ?]]; [|congruence]. auto 10.
  - intros q Hin. destruct (Hq q Hin) as [|(? & b & ?)]; [by left|right]. eauto.
Qed.

(** *** The statements *)

Lemma claim_row_evolves now c lease sh r : claimable now r = true → evolves now r (claim_row now lease c sh r).
Proof.
  intros Hc. constructor; simpl; auto 10. unfold claimable, is_processing in Hc. destruct (status r); auto; done.
Qed.

Lemma unclaim_evolves now s p r : is_processing r = true → s = pending ∨ s = published → evolves now r (unclaim s p r).
Proof. intros Hp Hs. apply bool_decide_eq_true in Hp. constructor; simpl; auto 10. rewrite Hp. by destruct Hs as [->| ->]; right. Qed.

Lemma fail_row_evolves now m r : is_processing r = true → 0 ≤ retryCount r → evolves now r (fail_row now m r).
Proof.
  intros Hp H0. apply bool_decide_eq_true in Hp. constructor; simpl; auto 10; unfold exhausts; destruct (maxRetries r <=? retryCount r + 1) eqn:E.
  - rewrite Hp. by right.
  - rewrite Hp. by right.
  - right. split_and!; [done|done|]. left. split; [done|lia].
  - right. split_and!; [done|done|]. right. split_and!; [done|lia|]. eexists. split; [done|]. unfold MAX_BACKOFF_SECONDS.
    assert (0 < 2 ^ (retryCount r + 1)) by (apply Z.pow_pos_nonneg; lia). lia.
Qed.

Lemma quarantine_moves now e w m d : ledger_ok d → moves now d (quarantine e w m d).
Proof.
  intros Hd. unfold quarantine. destruct (bool_decide _); [apply moves_refl|]. destruct (rows d !! id e) as [x|] eqn:Hx; [|apply moves_refl].
  destruct (lo_rows d Hd _ _ Hx) as (Hid & _). assert (Hn : existsb (λ q, originalEventId q =? id x) (quarantined d) = false).
  { apply not_true_iff_false. intros (q & Hq & He)%existsb_exists. apply list_elem_of_In in Hq. destruct (lo_apart d Hd q Hq) as (_ & Hg & _).
    apply Z.eqb_eq in He. rewrite He, Hid, Hx in Hg. done. }
  rewrite Hn. constructor; simpl.
  - intros i r r' Hr Hr'. apply lookup_delete_Some in Hr' as [_ ?]. simplify_eq. apply row_evolves_refl.
  - intros i r Hr Hr'. apply lookup_delete_None in Hr' as [<-|?]; [|congruence]. simplify_eq. left. eexists. split; [apply elem_of_app; right; by apply list_elem_of_singleton|].
    done.
  - intros i r Hr Hr'. apply lookup_delete_Some in Hr' as [_ ?]. congruence.
  - intros q Hq. left. apply elem_of_app. by left.
Qed.

Lemma cleanup_moves now p f d : 0 ≤ p → 0 ≤ f → moves now d (cleanup now p f d).1.
Proof.
  intros Hp Hf. unfold cleanup. destruct (_ || _); [apply moves_refl|]. constructor; simpl.
  - intros i r r' Hr Hr'. apply map_lookup_filter_Some in Hr' as [? _]. simplify_eq. apply row_evolves_refl.
  - intros i r Hr Hr'. right. apply map_lookup_filter_None in Hr' as [?|Hx]; [congruence|]. specialize (Hx r Hr). simpl in Hx.
    unfold expired_row, DAY_MS in Hx. destruct (processedAt r) as [t|]; [|done]. split; [destruct (status r)|exists t; split; [done|]]; try done;
      repeat case_bool_decide; simpl in Hx; try done; lia.
  - intros i r Hr Hr'. apply map_lookup_filter_Some in Hr' as [? _]. congruence.
  - auto.
Qed.

Lemma reinject_moves now q p b d : ledger_ok d → moves now d (reinjectQuarantined now q p b d).1.
Proof.
  intros Hd. unfold reinjectQuarantined. destruct (String.eqb b _); [apply moves_refl|]. destruct (find _ _) as [x|] eqn:Hx; [|apply moves_refl].
  apply find_some in Hx as [Hin Hp]. apply list_elem_of_In in Hin. apply andb_true_iff in Hp as [Hq Hn]. apply Z.eqb_eq in Hq. apply bool_decide_eq_true in Hn.
  destruct (lo_apart d Hd x Hin) as (_ & _ & _ & H0). apply moves_insert; try done. intros y Hy. destruct (q_id y =? q) eqn:Ey.
  - right. apply Z.eqb_eq in Ey. assert (y = x) as ->.
    { apply list_elem_of_lookup in Hin as (n1 & H1), Hy as (n2 & H2).
      assert (n1 = n2) as -> by (apply (NoDup_lookup _ n1 n2 (q_id x) (lo_ids d Hd)); rewrite list_lookup_fmap; [rewrite H1|rewrite H2]; simpl; congruence).
      congruence. }
    split; [done|]. exists b. apply list_elem_of_fmap. exists x. split; [|done]. by rewrite Hq, Z.eqb_refl.
  - left. apply list_elem_of_fmap. exists y. by rewrite Ey.
Qed.

Lemma execute_moves now st d : ledger_ok d → moves now d (execute now st d).
Proof.
  intros Hd. destruct st as [e|c limit lease count shard locked|limit locked|c lease|c| |i a|i key c|i|i m a|e why m|q p b|p f]; simpl.
  - unfold create. destruct (match n_maxRetries e with Some n => _ | None => _ end) eqn:En; [apply moves_refl|]. apply moves_insert; auto.
    simpl. destruct (n_maxRetries e); simpl; lia.
  - unfold claimEvents. destruct (limit <=? 0); [apply moves_refl|]. apply (moves_list now d _ (claim_row _ _ _ _)). intros i r Hr.
    apply picked_row in Hr as [? ?]. split; [done|by apply claim_row_evolves].
  - unfold fetchPendingForProcessing. destruct (limit <=? 0); [apply moves_refl|]. apply (moves_list now d _ process_row). intros i r Hr.
    apply elem_of_take in Hr as (n & Hr & _). apply list_elem_of_lookup_2 in Hr. rewrite merge_sort_Permutation in Hr.
    apply list_elem_of_filter in Hr as [[Hp _] Hr]. apply elem_of_map_to_list in Hr. split; [done|]. constructor; simpl; auto 10. simpl in Hp. rewrite Hp. by right.
  - unfold renewLease. destruct (lease <=? 0); [apply moves_refl|]. apply moves_where. intros. constructor; simpl; auto 10.
  - unfold releaseClaims. destruct (String.eqb _ _); [apply moves_refl|]. apply moves_where. intros i r _ [_ Hp]%andb_true_iff. apply unclaim_evolves; auto.
  - apply moves_where. intros i r _ [Hp _]%andb_true_iff. apply unclaim_evolves; auto.
  - unfold markPublished. destruct (arg_text a) as [c|]; [|apply moves_refl].
    pose proof (moves_one now d i (λ r, is_processing r && owned_by c r) (unclaim published (Some now))) as Hk.
    destruct (update_one _ _ _ _) as [d' ok]. apply Hk. intros r _ [Hp _]%andb_true_iff. apply unclaim_evolves; auto.
  - unfold trySetPublishIdempotencyKey. destruct (_ || _); [apply moves_refl|]. apply moves_one. intros. constructor; simpl; auto 10.
  - apply moves_one. intros. constructor; simpl; auto 10.
  - unfold markFailed. destruct (arg_text a) as [c|]; [|apply moves_refl]. destruct (rows d !! i) as [r|] eqn:Hr; [|apply moves_refl].
    destruct (is_processing r && owned_by c r) eqn:Ep; [|apply moves_refl]. apply andb_true_iff in Ep as [Ep _].
    pose proof (moves_one now d i (λ r, is_processing r) (fail_row now m)) as Hk. unfold update_one in Hk. rewrite Hr, Ep in Hk. apply Hk.
    intros x [= <-] _. apply fail_row_evolves; [done|]. destruct (lo_rows d Hd i r Hr) as (_ & _ & [? _]). lia.
  - by apply quarantine_moves.
  - by apply reinject_moves.
  - destruct (decide (0 ≤ p ∧ 0 ≤ f)) as [[? ?]|Hn]; [by apply cleanup_moves|]. unfold cleanup.
    destruct ((p <? 0) || (f <? 0)) eqn:E; [apply moves_refl|]. apply orb_false_iff in E as [? ?]. lia.
Qed.

(** The tables stay in order when the quarantine keeps its entries up to their marks. *)
Lemma ledger_moves now d d' : ledger_ok d → moves now d d' → seq d ≤ seq d' → qseq d' = qseq d →
  (λ q, (originalEventId q, q_id q, q_maxRetries q)) <$> quarantined d' = (λ q, (originalEventId q, q_id q, q_maxRetries q)) <$> quarantined d → ledger_ok d'.
Proof.
  intros Hd [Hr _ Hn _] Hs Hq Hl. constructor.
  - intros i r' Hr'. destruct (rows d !! i) as [r|] eqn:E.
    + pose proof (Hr i r r' E Hr') as He. destruct (lo_rows d Hd i r E) as (Hi & Hle & Hb). split_and!; [|lia|by eapply evolves_budget].
      destruct He as [(-> & _) _ _]. done.
    + destruct (Hn i r' E Hr') as (-> & Hs' & Hp & H0 & Hm & Hid). split_and!; [done|lia|]. unfold budget. rewrite H0. split_and!; [lia|lia|done|auto].
  - intros q Hin. assert (Hx : (originalEventId q, q_id q, q_maxRetries q) ∈ (λ q, (originalEventId q, q_id q, q_maxRetries q)) <$> quarantined d).
    { rewrite <- Hl. apply list_elem_of_fmap. by exists q. }
    apply list_elem_of_fmap in Hx as (x & [= -> -> ->] & Hx). destruct (lo_apart d Hd x Hx) as (Ho & Hg & Hi & Hm). rewrite Hq. split_and!; [lia| |lia|done].
    destruct (rows d' !! originalEventId x) as [r|] eqn:E; [|done]. destruct (Hn _ r Hg E) as (He & _). lia.
  - assert (Hp : ∀ l : list OutboxQuarantineEntry, q_id <$> l = (λ x, x.1.2) <$> ((λ q, (originalEventId q, q_id q, q_maxRetries q)) <$> l)).
    { intros l. rewrite <- list_fmap_compose. done. }
    rewrite Hp, Hl, <- Hp. by apply lo_ids.
Qed.

Lemma quarantine_ok e w m d : ledger_ok d → ledger_ok (quarantine e w m d).
Proof.
  intros Hd. unfold quarantine. destruct (bool_decide _); [done|]. destruct (rows d !! id e) as [x|] eqn:Hx; [|done].
  destruct (lo_rows d Hd _ _ Hx) as (Hid & Hle & (_ & Hb & _)). assert (Hsub : ∀ i r, delete (id e) (rows d) !! i = Some r → rows d !! i = Some r)
    by (intros i r [_ ?]%lookup_delete_Some; done). set (known := existsb _ _).
  assert (Hold : ∀ q, q ∈ quarantined d → originalEventId q ≤ seq d ∧ delete (id e) (rows d) !! originalEventId q = None ∧ q_id q ≤ qseq d + 1 ∧ 0 ≤ q_maxRetries q).
  { intros q Hq. destruct (lo_apart d Hd q Hq) as (? & ? & ? & ?). split_and!; [done|by apply lookup_delete_None; right|lia|done]. }
  constructor; simpl.
  - intros i r Hr. by apply (lo_rows d Hd), Hsub.
  - intros q Hq. destruct known; [by apply Hold|]. apply elem_of_app in Hq as [Hq|Hq]; [by apply Hold|]. apply list_elem_of_singleton in Hq as ->. simpl.
    rewrite Hid. split_and!; [done|apply lookup_delete_eq|lia|done].
  - destruct known; [by apply lo_ids|]. rewrite fmap_app. apply NoDup_app. split_and!; [by apply lo_ids| |apply NoDup_singleton].
    intros y Hy Hy'. apply list_elem_of_singleton in Hy' as ->. apply list_elem_of_fmap in Hy as (q & Hq & Hin). simpl in Hq. destruct (lo_apart d Hd q Hin) as (_ & _ & ? & _). lia.
Qed.

Lemma execute_ledger_ok now st d : ledger_ok d → ledger_ok (execute now st d).
Proof.
  intros Hd. pose proof (execute_moves now st d Hd) as Hm.
  destruct st as [e|c limit lease count shard locked|limit locked|c lease|c| |i a|i key c|i|i m a|e why m|q p b|p f]; simpl in *;
    try (by apply quarantine_ok); apply (ledger_moves now d _ Hd Hm); clear Hm;
    unfold create, claimEvents, fetchPendingForProcessing, renewLease, releaseClaims, recoverStaleLeases, markPublished, trySetPublishIdempotencyKey,
      clearPublishIdempotencyKey, markFailed, reinjectQuarantined, cleanup, update_where, update_one;
    repeat case_match; simplify_eq/=; try done; try lia.
  rewrite <- list_fmap_compose. apply list_fmap_ext. intros k x _. simpl. by destruct (q_id x =? q).
Qed.

Lemma history_ok l : ledger_ok (history l).
Proof.
  unfold history. assert (Hs : ledger_ok no_outbox).
  { constructor; [intros i r Hr; cbn in Hr; by rewrite lookup_empty in Hr|intros q Hq; by apply not_elem_of_nil in Hq|constructor]. }
  revert Hs. generalize no_outbox. induction l as [|[now st] l IH]; intros d Hd; simpl; [done|]. by apply IH, execute_ledger_ok.
Qed.

(** A row under a live lease is not taken by another claim. *)
Lemma lease_respected now st d i r t : rows d !! i = Some r → status r = processing → leaseExpiresAt r = Some t → now ≤ t →
  (∃ c limit lease count shard locked, st = Claim c limit lease count shard locked) ∨ st = RecoverStale → rows (execute now st d) !! i = Some r.
Proof.
  intros Hr Hs Ht Hn Hst. assert (Hlt : (t <? now) = false) by lia. destruct Hst as [(c & limit & lease & count & shard & locked & ->)| ->]; simpl.
  - unfold claimEvents. destruct (limit <=? 0); [done|]. simpl. destruct (foldr _ _ _ !! i) as [x|] eqn:Hx.
    + apply foldr_insert_lookup in Hx as [(y & Hy & _)|Hx]; [|congruence]. apply picked_row in Hy as [Hy Hc]. simplify_eq.
      unfold claimable, is_processing in Hc. rewrite Hs, Ht, Hlt in Hc. done.
    + exfalso. clear Ht. induction (picked _ _ _ _ _ _) as [|[k y] l IH]; simpl in Hx; [congruence|]. apply lookup_insert_None in Hx as [Hx _]. by apply IH.
  - rewrite lookup_fmap, Hr. simpl. by rewrite Ht, Hlt, andb_false_r.
Qed.

(** After every history of statements of the repository, by any callers and
    at any times: the retries of a row are within its budget, an event is never
    in the outbox and the quarantine at once, and no id of the quarantine is
    used twice. The next statement then moves the tables as the lifecycle says:
    the content of a row never changes, its status follows the matrix of
    transitions or stays, a failure counts once, ends the event when the budget
    is spent and otherwise delays it by at most an hour; a row leaves only to
    an entry that holds all of it or after its end; a new row has a fresh id;
    an entry of the quarantine is kept and reinjected at most once; and a live
    lease is not taken over. *)
Theorem outbox_lifecycle l now st :
  let d := history l in
  ledger_ok d ∧ moves now d (execute now st d) ∧
  ∀ i r t, rows d !! i = Some r → status r = processing → leaseExpiresAt r = Some t → now ≤ t →
    (∃ c limit lease count shard locked, st = Claim c limit lease count shard locked) ∨ st = RecoverStale → rows (execute now st d) !! i = Some r.
Proof.
  intros d. pose proof (history_ok l) as Hd. split_and!; [done|by apply execute_moves|]. intros i r t. apply lease_respected.
Qed.
End Lifecycle.

(** ** The batch of the emitter *)

(** The INSERTs of a batch: consecutive ids, in the order of the events. *)
Lemma create_all_spec now gs d d' ids : Emitter.create_all now gs d = (d', Ok ids) →
  ids = seqZ (seq d + 1) (Z.of_nat (length gs)) ∧ seq d' = seq d + Z.of_nat (length gs) ∧ quarantined d' = quarantined d ∧
  (∀ i, i ≤ seq d → rows d' !! i = rows d !! i) ∧
  ∀ k g, gs !! k = Some g → rows d' !! (seq d + 1 + Z.of_nat k) = Some (new_row now (seq d + 1 + Z.of_nat k) (Emitter.g_event g)).
Proof.
  revert d ids. induction gs as [|g gs IH]; intros d ids; simpl; [intros [= <- <-]; split_and!; [done|lia|done|done|done]|].
  unfold create. destruct (match n_maxRetries _ with Some _ => _ | None => _ end); [done|]. set (d1 := {| seq := seq d + 1 |}).
  destruct (Emitter.create_all now gs d1) as [d2 [l|m]] eqn:E; [|done]. intros [= <- <-]. destruct (IH d1 l E) as (-> & Hs & Hq & Ho & Hn).
  assert (H1 : seq d1 = seq d + 1) by done. rewrite H1 in *. split_and!; [|lia|done| |].
  - rewrite (seqZ_cons (seq d + 1) (Z.of_nat (S (length gs)))) by lia. f_equal. f_equal; lia.
  - intros i Hi. rewrite Ho by lia. simpl. apply lookup_insert_ne. lia.
  - intros [|k] g' Hg; simpl in Hg.
    + injection Hg as <-. rewrite Z.add_0_r, Ho by lia. apply lookup_insert_eq.
    + replace (seq d + 1 + Z.of_nat (S k)) with (seq d + 1 + 1 + Z.of_nat k) by lia. by apply Hn.
Qed.

Lemma create_all_nonempty now gs d d' ids : Emitter.emitBatch now gs d = (d', Ok ids) →
  gs ≠ [] ∧ Forall (λ g, Emitter.assertEvent g = None) gs ∧ Emitter.create_all now gs d = (d', Ok ids).
Proof.
  unfold Emitter.emitBatch. destruct gs as [|g gs]; [done|]. destruct (_ <? _)%nat; [done|]. destruct (list_find _ _) as [[k x]|] eqn:E; [done|].
  intros ->. split_and!; [done| |done]. apply list_find_None in E. eapply Forall_impl; [exact E|]. simpl. intros y Hy. destruct (Emitter.assertEvent y); [by destruct Hy|done].
Qed.

(** ** Examples and defects *)
Module OutboxExample.
Import Emitter.

Definition event_of (i : string) (n : option Z) : CreateOutboxEvent :=
  {| n_aggregateType := "bond"; n_aggregateId := i; n_eventType := "bond.created"; n_payload := "{}"; n_maxRetries := n |}.
Definition given_of (i : string) : given := {| g_event := event_of i None; g_version := None |}.

(** An invalid event of a batch that only the INSERT finds leaves the rows
    before it, when the caller has no transaction. *)
Example batch_written_in_part :
  let r := emitBatch 0 [given_of "1"; {| g_event := event_of "2" (Some (-1)); g_version := None |}] no_outbox in
  r.2 = Err "maxRetries must be a non-negative integer" ∧ size (rows r.1) = 1%nat.
Proof. vm_compute. done. Qed.

Definition hash (i : Z) : Z := i.
Definition no_parse_error (_ : string) : option string := None.
Definition no_schema_error (_ _ : string) : option string := None.
Definition length_of (s : string) : Z := Z.of_nat (String.length s).
#[local] Notation st := (step hash no_parse_error no_schema_error length_of DEFAULT_MAX_PAYLOAD_BYTES).
#[local] Notation run_task := (task_step no_parse_error no_schema_error length_of DEFAULT_MAX_PAYLOAD_BYTES).

Definition emitted : system := set_db (emit 0 (given_of "1") no_outbox).1 start.
Definition claimed (c : string) (j : nat) (s : system) : system :=
  let r := claimEvents hash (clock s) c 10 60 None None ∅ (db s) in set_tasks (add_tasks c [j] r.2) (set_db r.1 s).
Definition later (t : Z) (s : system) : system := {| db := db s; tasks := tasks s; log := log s; clock := clock s + t |}.

(** A consumer that dies after the publish, and one that takes the event over. *)
Definition crashed : system := set_tasks (delete 0%nat) (run_task 0 true (run_task 0 true (claimed "a" 0 emitted))).
Definition recovered : system := run_task 1 true (claimed "b" 1 (later 61000 crashed)).

Lemma claimed_step c j s : c ≠ "true" → tasks s !! j = None → length (claimEvents hash (clock s) c 10 60 None None ∅ (db s)).2 = 1%nat →
  st s (claimed c j s).
Proof.
  intros Hc Hj Hl. apply (st_claim hash _ _ _ _ c 10 60 None None ∅ [j]); [done|done|apply NoDup_singleton|].
  intros k Hk. by apply list_elem_of_singleton in Hk as ->.
Qed.

Lemma recovered_reachable : rtc st start recovered.
Proof.
  eapply rtc_l; [apply (st_emit hash _ _ _ _ (given_of "1"))|]. eapply rtc_l; [by apply (claimed_step "a" 0)|].
  do 2 (eapply rtc_l; [apply (st_task hash no_parse_error no_schema_error length_of DEFAULT_MAX_PAYLOAD_BYTES 0 true)|]).
  eapply rtc_l; [apply (st_crash hash _ _ _ _ 0)|]. eapply rtc_l; [by apply (st_time hash _ _ _ _ 61000)|].
  eapply rtc_l; [by apply (claimed_step "b" 1)|]. apply rtc_once, st_task.
Qed.

Lemma published_at_most_once_witness : log recovered = [1] ∧ NoDup (log recovered).
Proof.
  split; [reflexivity|]. exact (published_at_most_once hash no_parse_error no_schema_error length_of DEFAULT_MAX_PAYLOAD_BYTES recovered recovered_reachable).
Defined.

(** A publish that fails is not retried: the failure handler passes a boolean
    where the statement compares the consumer, the row stays with its key, and
    the next consumer marks it published. *)
Definition failed_publish : system := run_task 0 false (run_task 0 true (claimed "a" 0 emitted)).
Definition taken_over : system := run_task 1 true (claimed "b" 1 (later 61000 failed_publish)).

Example failed_publish_lost :
  (handlePublishFailure 0 (new_row 0 1 (event_of "1" None)) "error" (db (claimed "a" 0 emitted))).2 = Err "markFailed" ∧
  (status <$> rows (db failed_publish) !! 1) = Some processing ∧ (retryCount <$> rows (db failed_publish) !! 1) = Some 0 ∧
  (status <$> rows (db taken_over) !! 1) = Some published.
Proof. vm_compute. done. Qed.

(** A consumer that dies between its key and the publish: marked published by
    the next one, never handed to [publish]. *)
Definition dead_before_publish : system := set_tasks (delete 0%nat) (run_task 0 true (claimed "a" 0 emitted)).
Definition skipped : system := run_task 1 true (claimed "b" 1 (later 61000 dead_before_publish)).

Example crash_before_publish_lost : log skipped = [] ∧ (status <$> rows (db skipped) !! 1) = Some published.
Proof. vm_compute. done. Qed.

(** A stop while a publish is under way clears its key: the event is published
    again by the next consumer. *)
Definition stopped : system := let s := run_task 0 true (run_task 0 true (claimed "a" 0 emitted)) in set_db (releaseClaims "a" (db s)).1 s.
Definition published_again : system := run_task 1 true (run_task 1 true (claimed "b" 1 stopped)).

Example stop_publishes_twice : log published_again = [1; 1].
Proof. vm_compute. done. Qed.

(** The deprecated claim leaves no lease: a consumer takes the row at once. *)
Example legacy_claim_taken : let d := (fetchPendingForProcessing 10 ∅ (db emitted)).1 in
  length (claimEvents hash 0 "b" 10 60 None None ∅ d).2 = 1%nat.
Proof. vm_compute. done. Qed.

(** The quarantine takes any row: a published one too, when the caller's copy is older. *)
Example published_row_quarantined :
  let d := (markPublished 5 1 (Name "a") (db (claimed "a" 0 emitted))).1 in
  let d' := quarantine (new_row 0 1 (event_of "1" None)) oversized_payload "error" d in
  (status <$> rows d !! 1) = Some published ∧ rows d' !! 1 = None ∧ length (quarantined d') = 1%nat.
Proof. vm_compute. done. Qed.

(** Past the last page the quarantine reports that it is empty. *)
Example quarantine_total_lost :
  let d := quarantine (new_row 0 1 (event_of "1" None)) oversized_payload "error" (db emitted) in
  (listQuarantine 10 0 None d).2 = 1 ∧ (listQuarantine 10 10 None d).2 = 0.
Proof. vm_compute. done. Qed.

(** An event the webhook publisher knows, and the publisher puts away. *)
Example known_event_quarantined : mapEventType "credits.low" = Some "credits.low" ∧ "credits.low" ∉ KNOWN_OUTBOX_EVENT_TYPES.
Proof. split; [done|]. by apply (bool_decide_eq_true_1 ("credits.low" ∉ KNOWN_OUTBOX_EVENT_TYPES)). Qed.

Definition one_failure : list (Z * statement) :=
  [(0, Create (event_of "1" (Some 2))); (1, Claim "a" 10 60 None None ∅); (2, MarkFailed 1 "e" (Name "a")); (3000000, Claim "a" 10 60 None None ∅)].

(** A published event keeps the time of its next attempt. *)
Example next_attempt_kept :
  let d := (markPublished 3000001 1 (Name "a") (history hash one_failure)).1 in
  (status <$> rows d !! 1) = Some published ∧ (nextAttemptAt <$> rows d !! 1) = Some (Some 2002).
Proof. vm_compute. done. Qed.

Lemma outbox_lifecycle_witness :
  let d := history hash one_failure in
  (retryCount <$> rows d !! 1) = Some 1 ∧ moves 3000001 d (execute hash 3000001 (MarkFailed 1 "e" (Name "a")) d) ∧
  (status <$> rows (execute hash 3000001 (MarkFailed 1 "e" (Name "a")) d) !! 1) = Some dead_letter.
Proof.
  split_and!; [reflexivity| |reflexivity].
  exact (proj1 (proj2 (outbox_lifecycle hash one_failure 3000001 (MarkFailed 1 "e" (Name "a"))))).
Defined.
End OutboxExample.

(** An id whose digest is a negative number is in no shard. *)
Lemma negative_hash_never_claimed shard_hash n i r : shard_hash (id r) < 0 → Z.rem (shard_hash (id r)) n ≠ 0 → normalizeShard (Some n) (Some i) = Some (n, i) →
  in_shard shard_hash (Some (n, i)) r = false.
Proof.
  unfold normalizeShard, in_shard. destruct ((n <=? 0) || (i <? 0) || (n <=? i)) eqn:E; [done|]. intros Hh Hne _. apply orb_false_iff in E as [E _].
  apply orb_false_iff in E as [En Ei]. apply Z.leb_gt in En. apply Z.ltb_ge in Ei.
  destruct (Z.rem_bound_pos_neg (shard_hash (id r)) n) as [_ Hr]; [done|by apply Z.lt_le_incl|]. apply Z.eqb_neq. lia.
Qed.
