(* ===== verification/OutboxAtomic.v ===== *)
(** * Mutations and their events

    [AtomicOutboxCoordinator] of [db/outbox/atomic.ts] on the transactions of
    [TransactionManager] ([Transaction]): the business mutation, the events it
    gives and their rows are one callback of [withTransaction]. The coordinator
    is over any emitter, as its interface [OutboxBatchEmitter] is;
    [emitBatch] is the one of [db/outbox/emitter.ts], one INSERT after the other
    through the budgeted client, each of which may fail, with ids from a sequence
    that other sessions draw from as well. *)

From stdpp Require Import base option list gmap strings sorting.
From Stdlib Require Import ZArith Lia.
From S2P Require Import Prelude JsLib Transaction Outbox.
Import Emitter.

Open Scope Z_scope.

Section Coordinator.
Context {B T : Type}.

(** The business state and the outbox. *)
#[local] Abbreviation db := (B * outbox)%type.

(** ** The emitter *)

(** Other sessions draw [n] ids. *)
Definition drawn (n : nat) (d : outbox) : outbox :=
  {| rows := rows d; seq := seq d + Z.of_nat n; quarantined := quarantined d; qseq := qseq d |}.

Definition INSERT_SQL : string := "INSERT INTO event_outbox".

(** [repository.create] on the client: the check of [maxRetries], then the
    statement. *)
Definition insert_event (now : Z) (others_drew : nat) (e : CreateOutboxEvent) : txm db string Z :=
  if match n_maxRetries e with Some n => n <? 0 | None => false end
  then tx_throw "maxRetries must be a non-negative integer"
  else wrappedQuery INSERT_SQL (λ bd : db,
    match create now e (drawn others_drew bd.2) with
    | (d, Ok i) => Ok (i, (bd.1, d))
    | (_, Err m) => Err m
    end).

Fixpoint insert_events (now : Z) (others_drew : nat → nat) (k : nat) (gs : list given) : txm db string (list Z) :=
  match gs with
  | [] => mret []
  | g :: gs' =>
      i ← insert_event now (others_drew k) (g_event g);
      l ← insert_events now others_drew (S k) gs';
      mret (i :: l)
  end.

(** [withTracingContext] calls a method that spans do not have: with an active
    span it throws. *)
Definition withTracingContext (activeSpan : bool) (g : given) : result string given :=
  if activeSpan then Err "spanSpanContext is not a function" else Ok g.

(** The map over the events before anything is written: the first that is
    invalid, or the first whose context cannot be read, ends it. *)
Fixpoint prepare (activeSpan : bool) (index : nat) (gs : list given) : result string (list given) :=
  match gs with
  | [] => Ok []
  | g :: gs' =>
      match assertEvent g with
      | Some m => Err ("emitBatch event at index " +:+ bigint_toString (Z.of_nat index) +:+ " is invalid: " +:+ m)
      | None => x ← withTracingContext activeSpan g; l ← prepare activeSpan (S index) gs'; Ok (x :: l)
      end
  end.

Definition emitBatch (activeSpan : bool) (now : Z) (others_drew : nat → nat) (gs : list given) : txm db string (list Z) :=
  if (length gs =? 0)%nat then tx_throw "emitBatch requires at least one event"
  else if (MAX_BATCH_SIZE <? length gs)%nat
  then tx_throw ("emitBatch supports at most 1000 events per call, received " +:+ bigint_toString (Z.of_nat (length gs)))
  else match prepare activeSpan 0 gs with
  | Err e => tx_throw e
  | Ok prepared => insert_events now others_drew 0 prepared
  end.

(** ** The coordinator *)

Section Run.
Variable plain : string → bool.                        (* the payload is a plain object *)
Variable emitter : list given → txm db string (list Z).
Variable allowEmptyEvents : bool.
Variable mutation : txm db string T.
Variable events : T → result string (list given).

Definition atomic_body : txm db string (T * list Z) :=
  v ← mutation;
  match events v with
  | Err e => tx_throw e
  | Ok records =>
      if (length records =? 0)%nat && negb allowEmptyEvents
      then tx_throw "Atomic outbox mutation must produce at least one event"
      else match list_find (λ g, is_Some (Atomic.validateOutboxEvent plain g)) records with
      | Some (_, g) => tx_throw (default EmptyString (Atomic.validateOutboxEvent plain g))
      | None =>
          ids ← emitter records;
          if (length ids =? length records)%nat then mret (v, ids)
          else tx_throw "Outbox emitter returned an incomplete event id list"
      end
  end.

Definition run (timeouts : LockTimeoutConfig) (o : TransactionOptions) (env : tx_env db) (d : db)
  : option (tx_run db string (T * list Z)) :=
  withTransaction timeouts atomic_body o env d.

(** The event that [runOne] makes of what it is given. *)
Definition runOne_events (event : given + (T → result string given)) (v : T) : result string (list given) :=
  match event with
  | inl g => Ok [g]
  | inr f => match f v with Ok g => Ok [g] | Err e => Err e end
  end.

(** ** What a successful callback did *)

(** From the database [d] the mutation gave [v], the events for it are valid, and
    the emitter stored them under [ids], which left [d']. *)
Definition performed (o : TransactionOptions) (q : query_env) (d d' : db) (v : T) (ids : list Z) : Prop :=
  ∃ s1 records s2,
    mutation o q (fresh d) = (Ok v, s1) ∧ events v = Ok records ∧
    (records = [] → allowEmptyEvents = true) ∧
    Forall (λ g, Atomic.validateOutboxEvent plain g = None) records ∧
    emitter records o q s1 = (Ok ids, s2) ∧ length ids = length records ∧ d' = data s2.

Lemma atomic_body_performed o q d v ids s :
  atomic_body o q (fresh d) = (Ok (v, ids), s) → performed o q d (data s) v ids.
Proof.
  unfold atomic_body, mbind, txm_bind. destruct (mutation o q (fresh d)) as [[x|e] s1] eqn:Em; [|done].
  destruct (events x) as [records|e] eqn:Ee; [|done].
  destruct ((length records =? 0)%nat && negb allowEmptyEvents) eqn:E0; [done|].
  destruct (list_find _ records) as [[k g]|] eqn:Ef; [done|].
  destruct (emitter records o q s1) as [[l|e] s2] eqn:Eb; [|done].
  destruct (Nat.eqb_spec (length l) (length records)); [|done]. intros [= <- <- <-].
  exists s1, records, s2. split_and!; try done.
  - intros ->. simpl in E0. by destruct allowEmptyEvents.
  - apply list_find_None in Ef. eapply Forall_impl; [exact Ef|]. simpl. intros g Hg.
    destruct (Atomic.validateOutboxEvent plain g); [by destruct Hg|done].
Qed.

Lemma try_at_performed o env d k v ids s :
  try_at atomic_body o env d k = (Ok (v, ids), s) → performed o (during env k) (world env d k) (data s) v ids.
Proof.
  unfold try_at, attempt. destruct (begin_err env k); [done|].
  destruct (atomic_body o (during env k) (fresh (world env d k))) as [[[x l]|e] y] eqn:Eb; [|done].
  destruct (commit_outcome_of env k); [|done..]. simpl. intros [= <- <- <-]. by apply atomic_body_performed.
Qed.
End Run.

Definition runOne plain emitter allow mutation event timeouts o env d :=
  run plain emitter allow mutation (runOne_events event) timeouts o env d.

(** ** What the emitter stores *)

(** The rows of the events, in their order and under ids no row had, and nothing
    else of the outbox. *)
Definition stored (now : Z) (gs : list given) (ids : list Z) (d d' : outbox) : Prop :=
  seq d ≤ seq d' ∧ length ids = length gs ∧ StronglySorted Z.lt ids ∧ Forall (λ i, seq d < i ≤ seq d') ids ∧
  quarantined d' = quarantined d ∧
  (∀ i, i ∉ ids → rows d' !! i = rows d !! i) ∧
  ∀ k g i, gs !! k = Some g → ids !! k = Some i → rows d' !! i = Some (new_row now i (g_event g)).

Lemma insert_event_stored now n e o q s i s' : insert_event now n e o q s = (Ok i, s') →
  (data s').1 = (data s).1 ∧ i = seq (data s).2 + Z.of_nat n + 1 ∧ seq (data s').2 = i ∧
  quarantined (data s').2 = quarantined (data s).2 ∧ rows (data s').2 = <[i := new_row now i e]> (rows (data s).2).
Proof.
  unfold insert_event. destruct (match n_maxRetries e with Some _ => _ | None => _ end) eqn:En; [done|].
  unfold wrappedQuery, create. rewrite En.
  destruct (_ >? _); [done|]. destruct (_ && _); [done|]. destruct (fault q (queries s)); [done|].
  intros [= <- <-]. simpl. done.
Qed.

Lemma stored_nil now d : stored now [] [] d d.
Proof. split_and!; try done; constructor. Qed.

Lemma stored_cons now g gs ids (d d1 d' : outbox) i :
  seq d < i → seq d1 = i → quarantined d1 = quarantined d → rows d1 = <[i := new_row now i (g_event g)]> (rows d) →
  stored now gs ids d1 d' → stored now (g :: gs) (i :: ids) d d'.
Proof.
  intros Hi H1 Hq Hr (Hle & Hl & Hs & Hf & Hq' & Ho & Hn). rewrite H1 in Hf.
  assert (i ∉ ids) as Hni by (intros Hin; rewrite Forall_forall in Hf; specialize (Hf i Hin); lia).
  assert (Forall (λ x, i < x) ids) as Hlt by (eapply Forall_impl; [exact Hf|]; simpl; lia).
  split_and!.
  - lia.
  - simpl. by rewrite Hl.
  - by constructor.
  - constructor; [lia|]. eapply Forall_impl; [exact Hf|]. simpl. lia.
  - congruence.
  - intros j [Hne Hj]%not_elem_of_cons. rewrite Ho, Hr by done. by rewrite lookup_insert_ne.
  - intros [|k] x j Hg Hj; simpl in *; simplify_eq.
    + rewrite Ho, Hr by done. by rewrite lookup_insert_eq.
    + by eapply Hn.
Qed.

Lemma insert_events_stored now draws k gs o q s ids s' : insert_events now draws k gs o q s = (Ok ids, s') →
  (data s').1 = (data s).1 ∧ stored now gs ids (data s).2 (data s').2.
Proof.
  revert k s ids. induction gs as [|g gs IH]; intros k s ids.
  { intros [= <- <-]. split; [done|apply stored_nil]. }
  cbn [insert_events]. unfold mbind, txm_bind.
  destruct (insert_event now (draws k) (g_event g) o q s) as [[i|e] s1] eqn:Ei; [|done].
  destruct (insert_events now draws (S k) gs o q s1) as [[l|e] s2] eqn:El; [|done]. intros [= <- <-].
  destruct (insert_event_stored _ _ _ _ _ _ _ _ Ei) as (Hb & Hi & Hs & Hq & Hr). destruct (IH _ _ _ El) as [Hb' Hst].
  split; [congruence|]. eapply stored_cons; [|exact Hs|exact Hq|exact Hr|exact Hst]. lia.
Qed.

Lemma prepare_ok span k gs l : prepare span k gs = Ok l → l = gs ∧ Forall (λ g, assertEvent g = None) gs.
Proof.
  revert k l. induction gs as [|g gs IH]; intros k l; simpl; [by intros [= <-]|]. destruct (assertEvent g) eqn:E; [done|].
  unfold withTracingContext. destruct span; [done|]. simpl. destruct (prepare false (S k) gs) as [l'|] eqn:Ep; [|done].
  simpl. intros [= <-]. destruct (IH _ _ Ep) as [-> ?]. split; [done|by constructor].
Qed.

Lemma emitBatch_stored span now draws gs o q s ids s' : emitBatch span now draws gs o q s = (Ok ids, s') →
  gs ≠ [] ∧ Forall (λ g, assertEvent g = None) gs ∧ (data s').1 = (data s).1 ∧ stored now gs ids (data s).2 (data s').2.
Proof.
  unfold emitBatch. destruct (Nat.eqb_spec (length gs) 0) as [|Hne]; [done|]. destruct (_ <? _)%nat; [done|].
  destruct (prepare span 0 gs) as [l|] eqn:E; [|done]. apply prepare_ok in E as [-> Hv]. intros H.
  apply insert_events_stored in H as [? ?]. split_and!; try done. by intros ->.
Qed.

(** C4. A mutation and its events are one: the coordinator always ends, and what
    it leaves of its run is either everything or nothing. When it returns, the
    database is what one run of the mutation and the insertion of all its events
    left, where the events are those given for the returned value, are all valid
    and at least one unless empty ones were allowed, and have as many ids as
    there are events. When it throws, whatever failed, nothing of any run is
    there; or, if only the acknowledgement of the [COMMIT] was lost, again a whole
    run of the mutation with all its events. The emitter of the outbox, where it
    succeeds, leaves the business state alone and stores the events in their
    order under new, increasing ids, whatever ids other sessions draw; a list
    without events it refuses. *)
Theorem mutation_and_events_atomic plain emitter allow mutation events timeouts o env d :
  (∃ k r, run plain emitter allow mutation events timeouts o env d = Some r ∧
    match out r with
    | Ok (v, ids) => performed plain emitter allow mutation events o (during env k) (world env d k) (committed r) v ids
    | Err e => committed r = world env d k ∨
        e = Thrown (Pg CONNECTION_LOST) ∧
        ∃ v ids, performed plain emitter allow mutation events o (during env k) (world env d k) (committed r) v ids
    end) ∧
  (∀ span now draws gs q s ids s', emitBatch span now draws gs o q s = (Ok ids, s') →
    gs ≠ [] ∧ (data s').1 = (data s).1 ∧ stored now gs ids (data s).2 (data s').2).
Proof.
  split; [|intros span now draws gs q s ids s' H; apply emitBatch_stored in H; naive_solver].
  destruct (withTransaction_ends timeouts (atomic_body plain emitter allow mutation events) o env d) as (k & r & Hr & _ & _ & _ & Hk).
  exists k, r. split; [exact Hr|]. destruct (out r) as [[v ids]|[e|p t]].
  - destruct Hk as (_ & s & Hs & -> & _). by apply try_at_performed.
  - destruct Hk as [[Hc _]|(_ & _ & _ & _ & [[Hc _]|(Hc & (_ & Hb & Ho & [v ids] & s & Hf) & ->)])]; [by left..|right].
    split; [done|]. exists v, ids. rewrite Hc. unfold try_at, attempt. rewrite Hb, Hf, Ho. by apply atomic_body_performed.
  - left. apply Hk.
Qed.

(** The option for mutations without events never lets one through the outbox's
    own emitter. *)
Lemma silent_mutation_refused plain mutation events span now draws o q d v s :
  mutation o q (fresh d) = (Ok v, s) → events v = Ok [] →
  ∃ e s', atomic_body plain (emitBatch span now draws) true mutation events o q (fresh d) = (Err (App e), s').
Proof. intros Hm He. unfold atomic_body, mbind, txm_bind. rewrite Hm, He. simpl. by repeat eexists. Qed.

(** With an active span no event is stored. *)
Lemma traced_emission_fails now draws gs o q s : ∃ e, (emitBatch true now draws gs o q s).1 = Err (App e).
Proof.
  unfold emitBatch. destruct gs as [|g gs]; [by eexists|]. simpl. destruct (_ <? _)%nat; [by eexists|].
  destruct (assertEvent g); by eexists.
Qed.
End Coordinator.

(** ** A deposit with two events *)
Module AtomicExample.
Definition given_for (i : string) : given :=
  {| g_event := {| n_aggregateType := "bond"; n_aggregateId := i; n_eventType := "bond.created"; n_payload := "{}"; n_maxRetries := None |};
     g_version := None |}.
Definition deposit : txm (Z * outbox) string Z := wrappedQuery "UPDATE accounts" (λ bd, Ok (bd.1 + 10, (bd.1 + 10, bd.2))).
Definition two_events (_ : Z) : result string (list given) := Ok [given_for "1"; given_for "2"].
(** Another session draws three ids between the two. *)
Definition draws (k : nat) : nat := match k with 1%nat => 3%nat | _ => O end.
Definition go (c : commit_outcome) : option (tx_run (Z * outbox) string (Z * list Z)) :=
  run (λ _, true) (emitBatch false 0 draws) false deposit two_events FALLBACK_TIMEOUTS default_options
    {| connect_err := λ _, None; begin_err := λ _, None; commit_outcome_of := λ _, c;
       during := λ _, {| elapsed := λ _, 0; fault := λ _, None |}; others := λ _ d, d |} (5, no_outbox).

Example deposit_committed :
  (out <$> go Acknowledged) = Some (Ok (15, [1; 5])) ∧
  ((λ r, ((committed r).1, size (rows (committed r).2))) <$> go Acknowledged) = Some (15, 2%nat) ∧
  (committed <$> go (Refused "40001")) = Some (5, no_outbox) ∧
  ((λ r, ((committed r).1, size (rows (committed r).2))) <$> go AnswerLost) = Some (15, 2%nat).
Proof. vm_compute. done. Qed.
End AtomicExample.
