(* ===== verification/Soroban.v ===== *)
(** * The Soroban client

    [clients/soroban.ts]: the event cursor, down to the text of its JSON and the
    bytes of its base64url form (modules [Base64url], [Utf8] and [Json] say what
    [Buffer] and [JSON] do); the pages of events; the reading of a reply and the
    normal form of errors. Identity states are not modelled: their method calls
    one that does not exist. The retry executor that the file imports is stored
    as text that breaks off in the middle; it is modelled in [Recovery.Retry]
    from its readable copy.

    Strings are kept as their bytes in UTF-8. *)

From stdpp Require Import base option list gmap strings.
From Stdlib Require Import ZArith Lia Ascii QArith Qround Qpower.
From S2P Require Import Prelude JsLib Recovery.

Open Scope Z_scope.

(** ** base64url *)
Module Base64url.

Definition sextet_char (n : Z) : ascii :=
  ascii_of_N (Z.to_N (if n <? 26 then 65 + n else if n <? 52 then 71 + n else if n <? 62 then n - 4 else if n =? 62 then 45 else 95)).

(** Both alphabets are read. *)
Definition char_sextet (c : ascii) : option Z :=
  let n := code c in
  if (65 <=? n) && (n <=? 90) then Some (n - 65) else if (97 <=? n) && (n <=? 122) then Some (n - 71)
  else if (48 <=? n) && (n <=? 57) then Some (n + 4) else if (n =? 45) || (n =? 43) then Some 62 else if (n =? 95) || (n =? 47) then Some 63
  else None.

Fixpoint sextets (l : list Z) : list Z :=
  match l with
  | a :: b :: c :: r => Z.shiftr a 2 :: Z.lor (Z.shiftl (Z.land a 3) 4) (Z.shiftr b 4) :: Z.lor (Z.shiftl (Z.land b 15) 2) (Z.shiftr c 6) :: Z.land c 63 :: sextets r
  | [a; b] => [Z.shiftr a 2; Z.lor (Z.shiftl (Z.land a 3) 4) (Z.shiftr b 4); Z.shiftl (Z.land b 15) 2]
  | [a] => [Z.shiftr a 2; Z.shiftl (Z.land a 3) 4]
  | [] => []
  end.

(** A sextet that is left over gives no byte. *)
Fixpoint octets (l : list Z) : list Z :=
  match l with
  | w :: x :: y :: z :: r => Z.lor (Z.shiftl w 2) (Z.shiftr x 4) :: Z.lor (Z.shiftl (Z.land x 15) 4) (Z.shiftr y 2) :: Z.lor (Z.shiftl (Z.land y 3) 6) z :: octets r
  | [w; x; y] => [Z.lor (Z.shiftl w 2) (Z.shiftr x 4); Z.lor (Z.shiftl (Z.land x 15) 4) (Z.shiftr y 2)]
  | [w; x] => [Z.lor (Z.shiftl w 2) (Z.shiftr x 4)]
  | _ => []
  end.

Definition chars (s : string) : list ascii := String.list_ascii_of_string s.
Definition text (l : list ascii) : string := String.string_of_list_ascii l.
Definition byte_char (n : Z) : ascii := ascii_of_N (Z.to_N n).

Definition encode (s : string) : string := text (sextet_char <$> sextets (code <$> chars s)).

(** Up to the first padding; other characters are passed over. *)
Fixpoint unpadded (l : list ascii) : list ascii :=
  match l with [] => [] | c :: r => if code c =? 61 then [] else c :: unpadded r end.
Definition decode (s : string) : string := text (byte_char <$> octets (omap char_sextet (unpadded (chars s)))).

(** A character that is seen, below 128. *)
Definition word (c : ascii) : bool := (33 <=? code c) && (code c <? 127).

Lemma sextet_read n : 0 ≤ n < 64 → char_sextet (sextet_char n) = Some n ∧ code (sextet_char n) ≠ 61 ∧ word (sextet_char n) = true.
Proof.
  intros Hn. assert (Hall : forallb (λ k, bool_decide (char_sextet (sextet_char k) = Some k ∧ code (sextet_char k) ≠ 61 ∧ word (sextet_char k) = true)) (seqZ 0 64) = true) by by vm_compute.
  rewrite forallb_forall in Hall. specialize (Hall n). rewrite bool_decide_eq_true in Hall. apply Hall, list_elem_of_In, elem_of_seqZ. lia.
Qed.

Lemma code_byte n : 0 ≤ n < 256 → code (byte_char n) = n.
Proof. intros Hn. unfold code, byte_char. rewrite N_ascii_embedding by lia. lia. Qed.

Lemma byte_code c : byte_char (code c) = c.
Proof. unfold code, byte_char. rewrite N2Z.id. apply ascii_N_embedding. Qed.

Lemma code_range c : 0 ≤ code c < 256.
Proof. unfold code. pose proof (N_ascii_bounded c). lia. Qed.

(** Facts of one and of two bytes, by trying them all. *)
Lemma every_byte (p : Z → bool) : forallb p (seqZ 0 256) = true → ∀ a, 0 ≤ a < 256 → p a = true.
Proof. intros Hp a Ha. rewrite forallb_forall in Hp. apply Hp, list_elem_of_In, elem_of_seqZ. lia. Qed.

Lemma every_pair (p : Z → Z → bool) : forallb (λ a, forallb (p a) (seqZ 0 256)) (seqZ 0 256) = true → ∀ a b, 0 ≤ a < 256 → 0 ≤ b < 256 → p a b = true.
Proof. intros Hp a b Ha Hb. apply (every_byte (p a)); [|done]. by apply (every_byte (λ a, forallb (p a) (seqZ 0 256))). Qed.

Definition small (n : Z) : bool := (0 <=? n) && (n <? 64).

Lemma sextets_small l : Forall (λ n, 0 ≤ n < 256) l → Forall (λ n, 0 ≤ n < 64) (sextets l).
Proof.
  assert (H1 : ∀ a, 0 ≤ a < 256 → small (Z.shiftr a 2) && small (Z.shiftl (Z.land a 3) 4) && small (Z.shiftl (Z.land a 15) 2) && small (Z.land a 63) = true)
    by (apply every_byte; by vm_compute).
  assert (H2 : ∀ a b, 0 ≤ a < 256 → 0 ≤ b < 256 →
    small (Z.lor (Z.shiftl (Z.land a 3) 4) (Z.shiftr b 4)) && small (Z.lor (Z.shiftl (Z.land a 15) 2) (Z.shiftr b 6)) = true) by (apply every_pair; by vm_compute).
  unfold small in *. revert l. fix IH 1. intros [|a [|b [|c r]]] Hl; simpl; inversion_clear Hl as [|? ? Ha Hr]; [constructor| | |].
  - specialize (H1 a Ha). repeat constructor; lia.
  - inversion_clear Hr as [|? ? Hb _]. pose proof (H1 a Ha). pose proof (H1 b Hb). specialize (H2 a b Ha Hb). repeat constructor; lia.
  - inversion_clear Hr as [|? ? Hb Hr']. inversion_clear Hr' as [|? ? Hc Hr]. pose proof (H1 a Ha). pose proof (H1 c Hc). pose proof (H2 a b Ha Hb). pose proof (H2 b c Hb Hc).
    constructor; [lia|]. constructor; [lia|]. constructor; [lia|]. constructor; [lia|]. by apply IH.
Qed.

Lemma octets_sextets l : Forall (λ n, 0 ≤ n < 256) l → octets (sextets l) = l.
Proof.
  assert (H1 : ∀ a, 0 ≤ a < 256 → Z.lor (Z.shiftl (Z.shiftr a 2) 2) (Z.land a 3) = a ∧ Z.lor (Z.shiftl (Z.shiftr a 4) 4) (Z.land a 15) = a ∧
    Z.lor (Z.shiftl (Z.shiftr a 6) 6) (Z.land a 63) = a ∧ Z.shiftr (Z.shiftl (Z.land a 3) 4) 4 = Z.land a 3 ∧ Z.shiftr (Z.shiftl (Z.land a 15) 2) 2 = Z.land a 15).
  { intros a Ha. apply (bool_decide_eq_true_1 _). revert a Ha. apply every_byte. by vm_compute. }
  assert (H2 : ∀ a b, 0 ≤ a < 256 → 0 ≤ b < 256 → let x := Z.lor (Z.shiftl (Z.land a 3) 4) (Z.shiftr b 4) in let y := Z.lor (Z.shiftl (Z.land a 15) 2) (Z.shiftr b 6) in
    Z.shiftr x 4 = Z.land a 3 ∧ Z.land x 15 = Z.shiftr b 4 ∧ Z.shiftr y 2 = Z.land a 15 ∧ Z.land y 3 = Z.shiftr b 6).
  { intros a b Ha Hb x y. unfold x, y. clear x y. apply (bool_decide_eq_true_1 _). revert a b Ha Hb. apply every_pair. by vm_compute. }
  revert l. fix IH 1. intros [|a [|b [|c r]]] Hl; cbn [sextets octets]; inversion_clear Hl as [|? ? Ha Hr]; [done| | |]; destruct (H1 a Ha) as (A1 & A2 & A3 & A4 & A5).
  - by rewrite A4, A1.
  - inversion_clear Hr as [|? ? Hb _]. destruct (H1 b Hb) as (B1 & B2 & B3 & B4 & B5). destruct (H2 a b Ha Hb) as (X1 & X2 & _). by rewrite X1, X2, A1, B5, B2.
  - inversion_clear Hr as [|? ? Hb Hr']. inversion_clear Hr' as [|? ? Hc Hr]. destruct (H1 b Hb) as (B1 & B2 & B3 & _). destruct (H1 c Hc) as (_ & _ & C3 & _).
    destruct (H2 a b Ha Hb) as (X1 & X2 & _). destruct (H2 b c Hb Hc) as (_ & _ & Y3 & Y4). by rewrite X1, X2, Y3, Y4, A1, B2, C3, IH.
Qed.

Lemma chars_text l : chars (text l) = l.
Proof. apply String.list_ascii_of_string_of_list_ascii. Qed.
Lemma text_chars s : text (chars s) = s.
Proof. apply String.string_of_list_ascii_of_string. Qed.

Lemma codes_bytes s : Forall (λ n, 0 ≤ n < 256) (code <$> chars s).
Proof. apply Forall_fmap, Forall_true. intros c. apply code_range. Qed.

Lemma unpadded_all l : Forall (λ n, 0 ≤ n < 64) l → unpadded (sextet_char <$> l) = sextet_char <$> l ∧ omap char_sextet (sextet_char <$> l) = l.
Proof.
  induction 1 as [|n l Hn _ [IH1 IH2]]; csimpl; [done|]. destruct (sextet_read n Hn) as (Hr & Hp & _). apply Z.eqb_neq in Hp. by rewrite Hp, IH1, Hr, IH2.
Qed.

Lemma decode_encode s : decode (encode s) = s.
Proof.
  unfold decode, encode. rewrite chars_text. destruct (unpadded_all _ (sextets_small _ (codes_bytes s))) as [-> ->].
  rewrite octets_sextets by apply codes_bytes. rewrite <- list_fmap_compose. rewrite (list_fmap_ext _ id) by (intros; simpl; by rewrite byte_code).
  rewrite list_fmap_id. apply text_chars.
Qed.

Lemma encode_words s : str_forallb word (encode s) = true.
Proof.
  unfold encode. generalize (sextets_small _ (codes_bytes s)). induction 1 as [|n l Hn _ IH]; simpl; [done|].
  destruct (sextet_read n Hn) as (_ & _ & ->). done.
Qed.
End Base64url.

(** ** UTF-8 *)
Module Utf8.

Definition replacement : string := String (ascii_of_nat 239) (String (ascii_of_nat 191) (String (ascii_of_nat 189) EmptyString)).

(** What a first byte asks for: so many bytes more, the next one in a range. *)
Definition lead (c : ascii) : option (nat * Z * Z) :=
  let n := code c in
  if n <? 128 then Some (0%nat, 128, 191)
  else if (194 <=? n) && (n <=? 223) then Some (1%nat, 128, 191)
  else if (224 <=? n) && (n <=? 239) then Some (2%nat, if n =? 224 then 160 else 128, if n =? 237 then 159 else 191)
  else if (240 <=? n) && (n <=? 244) then Some (3%nat, if n =? 240 then 144 else 128, if n =? 244 then 143 else 191)
  else None.

(** [Buffer.toString('utf8')]: a sequence that cannot be completed becomes a
    replacement character, and the byte that broke it is read again. [pending]
    are the bytes read of a sequence of which [need] are missing. *)
Fixpoint decode_from (need : nat) (lo hi : Z) (pending s : string) : string :=
  match s with
  | EmptyString => match need with O => EmptyString | _ => replacement end
  | String c r =>
      let begin_ :=
        match lead c with
        | None => replacement +:+ decode_from 0 128 191 EmptyString r
        | Some (O, _, _) => String c (decode_from 0 128 191 EmptyString r)
        | Some (k, l, h) => decode_from k l h (String c EmptyString) r
        end in
      match need with
      | O => begin_
      | S n =>
          if (lo <=? code c) && (code c <=? hi) then
            match n with
            | O => (pending +:+ String c EmptyString) +:+ decode_from 0 128 191 EmptyString r
            | _ => decode_from n 128 191 (pending +:+ String c EmptyString) r
            end
          else replacement +:+ begin_
      end
  end.

Definition toString (s : string) : string := decode_from 0 128 191 EmptyString s.

(** The bytes are those of some string. *)
Fixpoint valid_from (need : nat) (lo hi : Z) (s : string) : bool :=
  match s with
  | EmptyString => match need with O => true | _ => false end
  | String c r =>
      match need with
      | O => match lead c with None => false | Some (k, l, h) => valid_from k l h r end
      | S n => (lo <=? code c) && (code c <=? hi) && valid_from n 128 191 r
      end
  end.

Definition valid (s : string) : bool := valid_from 0 128 191 s.

Lemma str_app_cons c s t : String c s +:+ t = String c (s +:+ t).
Proof. done. Qed.

Lemma decode_valid need lo hi pending s : (need = 0%nat → pending = EmptyString) → valid_from need lo hi s = true →
  decode_from need lo hi pending s = pending +:+ s.
Proof.
  revert need lo hi pending. induction s as [|c r IH]; intros need lo hi pending Hp Hv; simpl in *.
  - destruct need; [by rewrite Hp|done].
  - destruct need as [|n].
    + rewrite Hp by done. destruct (lead c) as [[[k l] h]|]; [|done]. destruct k as [|k]; [|by rewrite IH].
      simpl. f_equal. rewrite IH; [done|done|]. by destruct r.
    + apply andb_true_iff in Hv as [-> Hv]. destruct n as [|n]; rewrite IH; try done; by rewrite <- ?str_app_assoc, ?str_app_nil_r, str_app_assoc.
Qed.

Lemma toString_valid s : valid s = true → toString s = s.
Proof. intros Hv. by apply decode_valid. Qed.

Definition is_ascii (c : ascii) : bool := code c <? 128.

Lemma lead_ascii c : is_ascii c = true → lead c = Some (0%nat, 128, 191).
Proof. unfold is_ascii, lead. by intros ->. Qed.

Lemma valid_ascii s t : str_forallb is_ascii s = true → valid (s +:+ t) = valid t.
Proof.
  intros Hs. unfold valid. induction s as [|c s IH]; [done|]. simpl in Hs. apply andb_true_iff in Hs as [Hc Hs]. rewrite str_app_cons. simpl.
  rewrite (lead_ascii c Hc). by apply IH.
Qed.
End Utf8.

(** ** JSON *)
Module Json.

Definition quote : ascii := ascii_of_nat 34.
Definition backslash : ascii := ascii_of_nat 92.
Definition chr (n : Z) : ascii := Base64url.byte_char n.
Definition is_c (n : Z) (c : ascii) : bool := code c =? n.

Definition hex_digit (n : Z) : ascii := chr (if n <? 10 then 48 + n else 87 + n).

(** *** Writing *)

Definition esc_char (c : ascii) : string :=
  let n := code c in
  let two x := String backslash (String (chr x) EmptyString) in
  if (n =? 34) || (n =? 92) then two n
  else if n =? 8 then two 98 else if n =? 12 then two 102 else if n =? 10 then two 110 else if n =? 13 then two 114 else if n =? 9 then two 116
  else if n <? 32 then String backslash ("u00" +:+ String (hex_digit (n / 16)) (String (hex_digit (n mod 16)) EmptyString))
  else String c EmptyString.

Fixpoint escape (s : string) : string := match s with EmptyString => EmptyString | String c r => esc_char c +:+ escape r end.

(** [JSON.stringify] of a string without lone surrogates. *)
Definition quoted (s : string) (rest : string) : string := String quote (escape s +:+ String quote rest).

(** *** Numbers *)

Definition log2_floor (q : Q) : Z :=
  let k := Z.log2 (Qnum q) - Z.log2 (Zpos (Qden q)) in if Qle_bool (inject_Z 2 ^ k) q then k else k - 1.

Definition round_even (q : Q) : Z :=
  let f := Qfloor q in
  let d := (q - inject_Z f)%Q in
  if negb (Qle_bool (1 # 2) d) then f else if negb (Qle_bool d (1 # 2)) then f + 1 else if Z.even f then f else f + 1.

(** The nearest double of a positive number; none beyond the largest. *)
Definition nearest (q : Q) : option Q :=
  let e := Z.max (log2_floor q - 52) (-1074) in
  let v := (inject_Z (round_even (q / inject_Z 2 ^ e)) * inject_Z 2 ^ e)%Q in
  if Qle_bool (inject_Z 2 ^ 1024) v then None else Some v.

Definition to_double (negative : bool) (mantissa exponent : Z) : option Q :=
  if mantissa =? 0 then Some 0%Q
  else
    v ← nearest (inject_Z mantissa * inject_Z 10 ^ exponent)%Q; Some (if negative then (- v)%Q else v).

(** *** Reading *)

(** [JNum None]: beyond the doubles. *)
Inductive json := JNull | JBool (b : bool) | JNum (q : option Q) | JStr (s : string) | JArr (l : list json) | JObj (l : list (string * json)).

Fixpoint skip_ws (s : string) : string :=
  match s with String c r => if is_c 32 c || is_c 9 c || is_c 10 c || is_c 13 c then skip_ws r else s | EmptyString => EmptyString end.

Definition hex4 (s : string) : option (Z * string) :=
  match s with
  | String a (String b (String c (String d r))) =>
      a ← hex_val a; b ← hex_val b; c ← hex_val c; d ← hex_val d; Some (4096 * a + 256 * b + 16 * c + d, r)
  | _ => None
  end.

(** The UTF-8 form of a code point (lone surrogates in the same pattern). *)
Definition utf8 (n : Z) : string :=
  if n <? 128 then String (chr n) EmptyString
  else if n <? 2048 then String (chr (192 + n / 64)) (String (chr (128 + n mod 64)) EmptyString)
  else if n <? 65536 then String (chr (224 + n / 4096)) (String (chr (128 + n / 64 mod 64)) (String (chr (128 + n mod 64)) EmptyString))
  else String (chr (240 + n / 262144)) (String (chr (128 + n / 4096 mod 64)) (String (chr (128 + n / 64 mod 64)) (String (chr (128 + n mod 64)) EmptyString))).

(** The second half of a pair of surrogates. *)
Definition low_surrogate (s : string) : option (Z * string) :=
  match s with
  | String b (String u r) =>
      if is_c 92 b && is_c 117 u then '(n, r') ← hex4 r; if (56320 <=? n) && (n <=? 57343) then Some (n, r') else None else None
  | _ => None
  end.

Definition unicode (s : string) : option (string * string) :=
  '(n, r) ← hex4 s;
  Some (if (55296 <=? n) && (n <=? 56319)
        then match low_surrogate r with Some (m, r') => (utf8 (65536 + (n - 55296) * 1024 + (m - 56320)), r') | None => (utf8 n, r) end
        else (utf8 n, r)).

Definition simple_escape (e : ascii) : option ascii :=
  if is_c 34 e || is_c 92 e || is_c 47 e then Some e
  else if is_c 98 e then Some (chr 8) else if is_c 102 e then Some (chr 12) else if is_c 110 e then Some (chr 10)
  else if is_c 114 e then Some (chr 13) else if is_c 116 e then Some (chr 9) else None.

(** The rest of a string after its quote; [fuel] above its length is enough. *)
Fixpoint parse_str (fuel : nat) (s : string) : option (string * string) :=
  match fuel, s with
  | S f, String c r =>
      if is_c 34 c then Some (EmptyString, r)
      else if is_c 92 c then
        match r with
        | String e r' =>
            if is_c 117 e then '(u, r2) ← unicode r'; '(t, r3) ← parse_str f r2; Some (u +:+ t, r3)
            else x ← simple_escape e; '(t, r3) ← parse_str f r'; Some (String x t, r3)
        | EmptyString => None
        end
      else if code c <? 32 then None else '(t, r') ← parse_str f r; Some (String c t, r')
  | _, _ => None
  end.

Definition leading_zero (s : string) : bool := match s with String c (String _ _) => is_c 48 c | _ => false end.

(** The digits after a mark; none is an error. *)
Definition part (marked : ascii → bool) (s : string) : option (string * string) :=
  match s with
  | String c r => if marked c then let '(d, r') := span_digits r in match d with EmptyString => None | _ => Some (d, r') end else Some (EmptyString, s)
  | EmptyString => Some (EmptyString, s)
  end.

Definition exponent_part (s : string) : option (Z * string) :=
  match s with
  | String c r =>
      if is_c 101 c || is_c 69 c then
        let '(sign, r1) := match r with String g r1 => if is_c 43 g then (1, r1) else if is_c 45 g then (-1, r1) else (1, r) | EmptyString => (1, r) end in
        match span_digits r1 with (EmptyString, _) => None | (d, r2) => Some (sign * BigInt d, r2) end
      else Some (0, s)
  | EmptyString => Some (0, s)
  end.

Definition parse_number (s : string) : option (option Q * string) :=
  let '(negative, s1) := match s with String c r => if is_c 45 c then (true, r) else (false, s) | EmptyString => (false, s) end in
  let '(ip, r) := span_digits s1 in
  if match ip with EmptyString => true | _ => leading_zero ip end then None
  else
    '(frac, r1) ← part (is_c 46) r;
    '(e, r2) ← exponent_part r1;
    Some (to_double negative (BigInt (ip +:+ frac)) (e - slen frac), r2).

Definition keyword (w : string) (v : json) (s : string) : option (json * string) :=
  if startsWithStr s w then Some (v, str_drop (String.length w) s) else None.

(** The value at the head of a text; the members of an object and the elements
    of an array after their first mark. Every call reads a character, so a fuel
    above the length of the text is enough. *)
Fixpoint value (fuel : nat) (s : string) : option (json * string) :=
  match fuel with
  | O => None
  | S f =>
      match skip_ws s with
      | EmptyString => None
      | String c r =>
          if is_c 34 c then '(t, r') ← parse_str (S (String.length r)) r; Some (JStr t, r')
          else if is_c 123 c then match skip_ws r with String x r' => if is_c 125 x then Some (JObj [], r') else members f [] r | EmptyString => None end
          else if is_c 91 c then match skip_ws r with String x r' => if is_c 93 x then Some (JArr [], r') else elements f [] r | EmptyString => None end
          else if is_c 116 c then keyword "true" (JBool true) (String c r) else if is_c 102 c then keyword "false" (JBool false) (String c r)
          else if is_c 110 c then keyword "null" JNull (String c r)
          else '(q, r') ← parse_number (String c r); Some (JNum q, r')
      end
  end
with members (fuel : nat) (acc : list (string * json)) (s : string) : option (json * string) :=
  match fuel with
  | O => None
  | S f =>
      match skip_ws s with
      | String c r =>
          if is_c 34 c then
            '(k, r1) ← parse_str (S (String.length r)) r;
            match skip_ws r1 with
            | String d r2 =>
                if is_c 58 d then
                  '(v, r3) ← value f r2;
                  match skip_ws r3 with
                  | String x r4 =>
                      if is_c 125 x then Some (JObj (reverse ((k, v) :: acc)), r4)
                      else if is_c 44 x then members f ((k, v) :: acc) r4 else None
                  | EmptyString => None
                  end
                else None
            | EmptyString => None
            end
          else None
      | EmptyString => None
      end
  end
with elements (fuel : nat) (acc : list json) (s : string) : option (json * string) :=
  match fuel with
  | O => None
  | S f =>
      '(v, r) ← value f s;
      match skip_ws r with
      | String x r' => if is_c 93 x then Some (JArr (reverse (v :: acc)), r') else if is_c 44 x then elements f (v :: acc) r' else None
      | EmptyString => None
      end
  end.

(** [JSON.parse]; [None] is a syntax error. *)
Definition parse (s : string) : option json :=
  '(v, r) ← value (S (String.length s)) s;
  match skip_ws r with EmptyString => Some v | _ => None end.

(** A property of an object: the last member of that name. *)
Definition property (k : string) (l : list (string * json)) : option json := snd <$> last (filter (λ kv, kv.1 = k) l).
End Json.

(** *** Reading what was written *)
Module JsonFacts.
Import Json.

Lemma chr_code c n : code c = n → chr n = c.
Proof. intros <-. apply Base64url.byte_code. Qed.

Lemma hex_read n : 0 ≤ n < 16 → hex_val (hex_digit n) = Some n.
Proof.
  intros Hn. assert (Hall : forallb (λ k, bool_decide (hex_val (hex_digit k) = Some k)) (seqZ 0 16) = true) by by vm_compute.
  rewrite forallb_forall in Hall. specialize (Hall n). rewrite bool_decide_eq_true in Hall. apply Hall, list_elem_of_In, elem_of_seqZ. lia.
Qed.

Lemma unicode_control n r : 0 ≤ n < 32 →
  unicode (String "0" (String "0" (String (hex_digit (n / 16)) (String (hex_digit (n mod 16)) r)))) = Some (String (chr n) EmptyString, r).
Proof.
  intros Hn. pose proof (Z.div_lt_upper_bound n 16 2). pose proof (Z.div_pos n 16). pose proof (Z.mod_pos_bound n 16). pose proof (Z.div_mod n 16).
  unfold unicode, hex4. rewrite (hex_read (n / 16)), (hex_read (n mod 16)) by lia. change (hex_val "0") with (Some 0). cbn [mbind option_bind].
  replace (4096 * 0 + 256 * 0 + 16 * (n / 16) + n mod 16) with n by lia. rewrite (proj2 (Z.leb_gt 55296 n)) by lia. cbn [andb]. unfold utf8. by rewrite (proj2 (Z.ltb_lt n 128)) by lia.
Qed.

Lemma parse_str_char f c r : parse_str (S f) (esc_char c +:+ r) = '(t, r') ← parse_str f r; Some (String c t, r').
Proof.
  unfold esc_char. pose proof (Base64url.code_range c) as Hc.
  assert (Hsimple : ∀ n e, simple_escape (chr e) = Some (chr n) → is_c 117 (chr e) = false → code c = n →
    parse_str (S f) (String backslash (String (chr e) EmptyString) +:+ r) = '(t, r') ← parse_str f r; Some (String c t, r')).
  { intros n e He Hu Hn. simpl. rewrite Hu, He. simpl. by rewrite (chr_code c n Hn). }
  destruct (Z.eqb_spec (code c) 34) as [E|N34]; [rewrite E; by apply (Hsimple 34)|].
  destruct (Z.eqb_spec (code c) 92) as [E|N92]; [rewrite E; by apply (Hsimple 92)|]. simpl orb. cbv iota.
  destruct (Z.eqb_spec (code c) 8); [by apply (Hsimple 8)|]. destruct (Z.eqb_spec (code c) 12); [by apply (Hsimple 12)|].
  destruct (Z.eqb_spec (code c) 10); [by apply (Hsimple 10)|]. destruct (Z.eqb_spec (code c) 13); [by apply (Hsimple 13)|].
  destruct (Z.eqb_spec (code c) 9); [by apply (Hsimple 9)|]. destruct (Z.ltb_spec (code c) 32) as [Hlt|Hge].
  - cbn [parse_str String.append]. change (is_c 34 backslash) with false. change (is_c 92 backslash) with true. cbv iota. change (is_c 117 "u") with true. cbv iota.
    change (("u00" +:+ String (hex_digit (code c / 16)) (String (hex_digit (code c mod 16)) EmptyString)) +:+ r) with
      (String "u" (String "0" (String "0" (String (hex_digit (code c / 16)) (String (hex_digit (code c mod 16)) r))))). cbv iota.
    change (is_c 117 "u") with true. cbv iota. rewrite unicode_control by lia. simpl. by rewrite (chr_code c _ eq_refl).
  - simpl. unfold is_c. rewrite (proj2 (Z.eqb_neq _ _) N34), (proj2 (Z.eqb_neq _ _) N92), (proj2 (Z.ltb_ge _ _) Hge). done.
Qed.

Lemma parse_str_quoted f s r : (String.length s < f)%nat → parse_str f (escape s +:+ String quote r) = Some (s, r).
Proof.
  revert f. induction s as [|c s IH]; intros f Hf; simpl in Hf; destruct f as [|f]; try lia; [done|].
  cbn [escape]. rewrite str_app_assoc, parse_str_char, IH by lia. done.
Qed.

(** *** Integers *)

Lemma round_integer q z : (q == inject_Z z)%Q → round_even q = z.
Proof.
  intros Hq. unfold round_even. assert (Hf : Qfloor q = z) by (rewrite (Qfloor_comp _ _ Hq); apply Qfloor_Z). rewrite Hf.
  assert (Hd : (q - inject_Z z == 0)%Q) by (rewrite Hq; ring). assert (Hh : Qle_bool (1 # 2) (q - inject_Z z) = false).
  { apply not_true_iff_false. rewrite Qle_bool_iff, Hd. intros Hx. by apply Hx. }
  by rewrite Hh.
Qed.

Lemma nearest_integer n : 0 < n < 2 ^ 53 → ∃ v, nearest (inject_Z n) = Some v ∧ (v == inject_Z n)%Q.
Proof.
  intros Hn. unfold nearest. assert (Hk : log2_floor (inject_Z n) = Z.log2 n).
  { unfold log2_floor. simpl Qnum. simpl Qden. change (Z.log2 1) with 0. rewrite Z.sub_0_r.
    pose proof (Z.log2_nonneg n) as H0. destruct (Z.log2_spec n ltac:(lia)) as [Hlo _].
    assert (Hle : Qle_bool (inject_Z 2 ^ Z.log2 n) (inject_Z n) = true).
    { rewrite Qle_bool_iff. rewrite <- Zpower_Qpower by done. by rewrite <- Zle_Qle. }
    by rewrite Hle. }
  rewrite Hk. assert (Hl : Z.log2 n < 53) by (apply Z.log2_lt_pow2; lia). pose proof (Z.log2_nonneg n) as H0.
  rewrite Z.max_l by lia. set (e := Z.log2 n - 52).
  assert (Hp : (inject_Z 2 ^ e * inject_Z (2 ^ (- e)) == 1)%Q).
  { rewrite Zpower_Qpower by lia. rewrite <- Qpower_plus by done. replace (e + - e) with 0 by lia. done. }
  assert (Hnz : ¬ (inject_Z 2 ^ e == 0)%Q) by (intros Hz; rewrite Hz in Hp; by vm_compute in Hp).
  assert (Hr : round_even (inject_Z n / inject_Z 2 ^ e) = n * 2 ^ (- e)).
  { apply round_integer. rewrite inject_Z_mult. apply Qmult_inj_r with (inject_Z 2 ^ e)%Q; [done|]. rewrite Qmult_comm, Qmult_div_r by done.
    rewrite <- Qmult_assoc, (Qmult_comm (inject_Z (2 ^ (- e)))), Hp. ring. }
  rewrite Hr. assert (Hv : (inject_Z (n * 2 ^ (- e)) * inject_Z 2 ^ e == inject_Z n)%Q).
  { rewrite inject_Z_mult, <- Qmult_assoc, (Qmult_comm (inject_Z (2 ^ (- e)))), Hp. ring. }
  assert (Hb : Qle_bool (inject_Z 2 ^ 1024) (inject_Z (n * 2 ^ (- e)) * inject_Z 2 ^ e) = false).
  { apply not_true_iff_false. rewrite Qle_bool_iff, Hv. rewrite <- Zpower_Qpower by lia. rewrite <- Zle_Qle.
    assert (2 ^ 53 < 2 ^ 1024) by (by vm_compute). lia. }
  rewrite Hb. eauto.
Qed.
End JsonFacts.

Module NumberFacts.
Import Json JsonFacts.

Lemma no_leading_zero n : 0 < n → leading_zero (bigint_toString n) = false.
Proof.
  intros Hn. destruct (bigint_toString_spec n ltac:(lia)) as (Hd & Hb & _). destruct (bigint_toString n) as [|c [|d s]] eqn:E; try done. simpl.
  unfold is_c. apply Z.eqb_neq. intros Hc. apply andb_true_iff in Hd as [_ Hd].
  assert (Hbt : BigInt (String d s) = n).
  { rewrite <- Hb. unfold BigInt. cbn [BigInt_acc]. unfold digit_val at 2. by rewrite Hc. }
  pose proof (BigInt_bounds (String d s) Hd) as Hlt. rewrite Hbt in Hlt.
  pose proof (slen_nonneg s).
  pose proof (bigint_toString_len n (slen (String d s)) ltac:(lia) ltac:(rewrite slen_cons; lia)) as Hlen. rewrite E, !slen_cons in Hlen. lia.
Qed.

(** An integer up to 2^53 - 1 is read as itself. *)
Lemma parse_integer n r : 0 < n < 2 ^ 53 → (∀ c t, r = String c t → is_digit c = false ∧ is_c 46 c = false ∧ is_c 101 c = false ∧ is_c 69 c = false) →
  ∃ q, parse_number (bigint_toString n +:+ r) = Some (Some q, r) ∧ (q == inject_Z n)%Q.
Proof.
  intros Hn Hr. destruct (bigint_toString_spec n ltac:(lia)) as (Hd & Hb & Hne). pose proof (no_leading_zero n ltac:(lia)) as Hz.
  destruct (bigint_toString n) as [|c s] eqn:E; [done|]. assert (Hc : is_digit c = true) by (by apply andb_true_iff in Hd as [? _]).
  unfold parse_number. cbn [String.append]. assert (H45 : is_c 45 c = false).
  { unfold is_digit in Hc. unfold is_c. apply Z.eqb_neq. apply andb_true_iff in Hc as [Hc _]. apply Z.leb_le in Hc. lia. }
  rewrite H45. change (String c (s +:+ r)) with (String c s +:+ r). rewrite span_digits_app by done.
  assert (Hs : span_digits r = (EmptyString, r)).
  { destruct r as [|x t]; [done|]. destruct (Hr x t eq_refl) as (Hx & _). simpl. by rewrite Hx. }
  rewrite Hs. cbn [fst snd]. rewrite str_app_nil_r, Hz.
  assert (Hp : part (is_c 46) r = Some (EmptyString, r)).
  { destruct r as [|x t]; [done|]. destruct (Hr x t eq_refl) as (_ & Hx & _). simpl. by rewrite Hx. }
  assert (He : exponent_part r = Some (0, r)).
  { destruct r as [|x t]; [done|]. destruct (Hr x t eq_refl) as (_ & _ & Hx & Hy). simpl. by rewrite Hx, Hy. }
  rewrite Hp. cbn [mbind option_bind]. rewrite He. cbn [mbind option_bind]. rewrite str_app_nil_r, Hb. change (0 - slen EmptyString) with 0.
  destruct (nearest_integer n Hn) as (v & Hv & Hq). unfold to_double. rewrite (proj2 (Z.eqb_neq n 0)) by lia.
  replace (inject_Z n * inject_Z 10 ^ 0)%Q with (inject_Z n) by (unfold inject_Z; cbv [Qpower Qmult Qnum Qden]; by rewrite Z.mul_1_r).
  rewrite Hv. by exists v.
Qed.
End NumberFacts.

(** ** Errors *)

Inductive error_code := CONFIG_ERROR | LIMIT_ERROR | NETWORK_ERROR | TIMEOUT_ERROR | HTTP_ERROR | RPC_ERROR | PARSE_ERROR.

Record SorobanClientError := { e_code : error_code; e_message : string; e_status : option Z; e_rpcCode : option Z; e_attempts : Z }.

(** What the functions throw: a client error, or the error of reading a member of null. *)
Inductive thrown := ClientError (e : SorobanClientError) | TypeError.

Definition client_error (c : error_code) (m : string) (attempts : Z) : thrown :=
  ClientError {| e_code := c; e_message := m; e_status := None; e_rpcCode := None; e_attempts := attempts |}.
Definition parse_error (m : string) : thrown := client_error PARSE_ERROR ("Invalid event cursor: " +:+ m) 1.

(** ** Event cursors *)

Definition SOROBAN_EVENT_CURSOR_VERSION : Z := 1.
Definition DEFAULT_EVENTS_PAGE_LIMIT : Z := 100.
Definition MAX_EVENTS_PAGE_LIMIT : Z := 1000.
Definition MAX_EVENT_CURSOR_PAYLOAD_BYTES : Z := 2048.
Definition MAX_SAFE_INTEGER : Z := 2 ^ 53 - 1.

(** A white space of [trim] at the head of a text: the number of its bytes. *)
Definition space_at (s : string) : nat :=
  match s with
  | String a r =>
      if ((9 <=? code a) && (code a <=? 13)) || (code a =? 32) then 1%nat
      else match r with
      | String b r' =>
          if (code a =? 194) && (code b =? 160) then 2%nat
          else match r' with
          | String c _ =>
              if ((code a =? 225) && (code b =? 154) && (code c =? 128)) ||
                 ((code a =? 226) && (code b =? 128) && ((code c <=? 138) || (code c =? 168) || (code c =? 169) || (code c =? 175))) ||
                 ((code a =? 226) && (code b =? 129) && (code c =? 159)) || ((code a =? 227) && (code b =? 128) && (code c =? 128)) ||
                 ((code a =? 239) && (code b =? 187) && (code c =? 191)) then 3%nat else 0%nat
          | EmptyString => 0%nat
          end
      | EmptyString => 0%nat
      end
  | EmptyString => 0%nat
  end.

(** [s.trim() === ""] *)
Fixpoint blank_fuel (fuel : nat) (s : string) : bool :=
  match s, fuel with
  | EmptyString, _ => true
  | _, O => false
  | _, S f => match space_at s with O => false | k => blank_fuel f (str_drop k s) end
  end.
Definition blank (s : string) : bool := blank_fuel (String.length s) s.

Fixpoint ends_with_space (s : string) : bool :=
  match s with
  | EmptyString => false
  | String _ r => negb (space_at s =? 0)%nat && (space_at s =? String.length s)%nat || ends_with_space r
  end.

(** [s.trim() !== s] *)
Definition padded (s : string) : bool := negb (space_at s =? 0)%nat || ends_with_space s.

Definition payload_text (c : string) (seq : Z) : string :=
  String "{" (Json.quoted "v" (String ":" (bigint_toString SOROBAN_EVENT_CURSOR_VERSION +:+ String "," (Json.quoted "c" (String ":" (Json.quoted c
    (String "," (Json.quoted "seq" (String ":" (bigint_toString seq +:+ String "}" EmptyString)))))))))).

Definition encodeEventCursor (serverCursor : string) (seq : Z) : string := Base64url.encode (payload_text serverCursor seq).

Definition members_of (v : Json.json) : list (string * Json.json) := match v with Json.JObj l => l | _ => [] end.

Definition safe_integer (q : Q) : option Z :=
  let n := Qfloor q in if Qeq_bool (inject_Z n) q && (Z.abs n <=? MAX_SAFE_INTEGER) then Some n else None.

Definition check_payload (v : Json.json) : result thrown (string * Z) :=
  match Json.property "v" (members_of v) with
  | Some (Json.JNum (Some q)) =>
      if negb (Qeq_bool q (inject_Z SOROBAN_EVENT_CURSOR_VERSION)) then Err (parse_error "unsupported cursor version.")
      else match Json.property "c" (members_of v) with
      | Some (Json.JStr c) =>
          if blank c then Err (parse_error "missing server cursor payload.")
          else match Json.property "seq" (members_of v) with
          | Some (Json.JNum (Some s)) =>
              match safe_integer s with
              | Some n => if n <? 1 then Err (parse_error "page sequence must be a positive integer.") else Ok (c, n)
              | None => Err (parse_error "page sequence must be a positive integer.")
              end
          | _ => Err (parse_error "page sequence must be a positive integer.")
          end
      | _ => Err (parse_error "missing server cursor payload.")
      end
  | _ => Err (parse_error "unsupported cursor version.")
  end.

Definition decodeEventCursor (token : string) : result thrown (string * Z) :=
  if blank token || padded token then Err (parse_error "cursor must be a non-empty, non-whitespace-padded string.")
  else
    let raw := Utf8.toString (Base64url.decode token) in
    if MAX_EVENT_CURSOR_PAYLOAD_BYTES <? slen raw then Err (parse_error "payload exceeds 2048 bytes.")
    else match Json.parse raw with
    | None => Err (parse_error "unable to decode cursor token.")
    | Some Json.JNull => Err TypeError
    | Some v => check_payload v
    end.

Definition buildNextCursor (serverCursor : option string) (seq : Z) : option string :=
  match serverCursor with
  | None | Some EmptyString => None
  | Some c => Some (encodeEventCursor c (seq + 1))
  end.

(** *** The round trip *)
Module CursorFacts.
Import Json JsonFacts NumberFacts.

Lemma forallb_impl (p q : ascii → bool) s : (∀ c, p c = true → q c = true) → str_forallb p s = true → str_forallb q s = true.
Proof. intros Hpq. induction s as [|c s IH]; simpl; [done|]. intros [Hc Hs]%andb_true_iff. by rewrite Hpq, IH. Qed.

Lemma space_at_word s c r : s = String c r → Base64url.word c = true → space_at s = 0%nat.
Proof.
  intros -> [H1 H2]%andb_true_iff. apply Z.leb_le in H1. apply Z.ltb_lt in H2. unfold space_at.
  repeat match goal with |- context [code c =? ?n] => rewrite (proj2 (Z.eqb_neq (code c) n)) by lia end.
  rewrite (proj2 (Z.leb_gt (code c) 13)) by lia. rewrite andb_false_r. simpl. by destruct r as [|? [|? ?]].
Qed.

Lemma words_not_padded s : str_forallb Base64url.word s = true → padded s = false.
Proof.
  unfold padded. induction s as [|c s IH]; [done|]. intros Hs. apply andb_true_iff in Hs as [Hc Hs].
  rewrite (space_at_word _ c s eq_refl Hc). cbn [ends_with_space]. rewrite (space_at_word _ c s eq_refl Hc). simpl. specialize (IH Hs). by apply orb_false_iff in IH as [_ ->].
Qed.

Lemma words_not_blank s : s ≠ EmptyString → str_forallb Base64url.word s = true → blank s = false.
Proof.
  destruct s as [|c s]; [done|]. intros _ [Hc _]%andb_true_iff. unfold blank. cbn [String.length blank_fuel]. by rewrite (space_at_word _ c s eq_refl Hc).
Qed.

Lemma token_accepted c n : blank (encodeEventCursor c n) || padded (encodeEventCursor c n) = false.
Proof.
  pose proof (Base64url.encode_words (payload_text c n)) as Hw. apply orb_false_iff. split; [|by apply words_not_padded].
  apply words_not_blank; [|done]. intros He. pose proof (Base64url.decode_encode (payload_text c n)) as Hd.
  unfold encodeEventCursor in He. rewrite He in Hd. done.
Qed.

Lemma esc_ascii c : Utf8.is_ascii c = true → str_forallb Utf8.is_ascii (esc_char c) = true.
Proof.
  intros Hc. rewrite <- (chr_code c _ eq_refl). apply Z.ltb_lt in Hc. pose proof (Base64url.code_range c) as Hr.
  assert (Hall : forallb (λ k, str_forallb Utf8.is_ascii (esc_char (chr k))) (seqZ 0 128) = true) by by vm_compute.
  rewrite forallb_forall in Hall. apply Hall, list_elem_of_In, elem_of_seqZ. lia.
Qed.

Lemma esc_high c : 128 ≤ code c → esc_char c = String c EmptyString.
Proof.
  intros Hc. unfold esc_char. repeat match goal with |- context [code c =? ?n] => rewrite (proj2 (Z.eqb_neq (code c) n)) by lia end.
  by rewrite (proj2 (Z.ltb_ge (code c) 32)) by lia.
Qed.

Lemma valid_escape need lo hi s t : (need = 0%nat ∨ 128 ≤ lo) → Utf8.valid_from need lo hi s = true →
  Utf8.valid_from need lo hi (escape s +:+ t) = Utf8.valid t.
Proof.
  revert need lo hi. induction s as [|c s IH]; intros need lo hi Hlo Hv; cbn [escape Utf8.valid_from] in *.
  - destruct need; [by destruct t|done].
  - rewrite str_app_assoc. destruct need as [|n].
    + destruct (Utf8.is_ascii c) eqn:Ha.
      * rewrite (Utf8.lead_ascii c Ha) in Hv. rewrite <- (IH 0%nat lo hi); [|by left|by destruct s].
        pose proof (Utf8.valid_ascii (esc_char c) (escape s +:+ t) (esc_ascii c Ha)) as Hx. unfold Utf8.valid in Hx.
        assert (Hany : ∀ x, Utf8.valid_from 0 lo hi x = Utf8.valid_from 0 128 191 x) by (by intros []). by rewrite !Hany.
      * rewrite esc_high by (by apply Z.ltb_ge in Ha). rewrite Utf8.str_app_cons. simpl. destruct (Utf8.lead c) as [[[k l] h]|] eqn:El; [|done].
        apply IH; [|done]. destruct k; [by left|right]. unfold Utf8.lead in El. unfold Utf8.is_ascii in Ha. rewrite Ha in El.
        repeat case_match; simplify_eq; lia.
    + apply andb_true_iff in Hv as [Hr Hv]. destruct Hlo as [?|Hlo]; [done|]. assert (128 ≤ code c) by (apply andb_true_iff in Hr as [Hr _]; apply Z.leb_le in Hr; lia).
      rewrite esc_high by done. rewrite Utf8.str_app_cons. simpl. rewrite Hr. simpl. apply IH; [by right|done].
Qed.

Lemma valid_quoted s t : Utf8.valid s = true → Utf8.valid (quoted s t) = Utf8.valid t.
Proof.
  intros Hs. unfold quoted. change (String quote (escape s +:+ String quote t)) with (String quote EmptyString +:+ (escape s +:+ String quote t)).
  rewrite Utf8.valid_ascii by done. unfold Utf8.valid at 1. rewrite valid_escape; [|by left|done].
  change (String quote t) with (String quote EmptyString +:+ t). by rewrite Utf8.valid_ascii.
Qed.

Lemma valid_digits n t : 0 ≤ n → Utf8.valid (bigint_toString n +:+ t) = Utf8.valid t.
Proof.
  intros Hn. destruct (bigint_toString_spec n Hn) as (Hd & _). apply Utf8.valid_ascii. eapply forallb_impl; [|exact Hd].
  intros c [_ Hc]%andb_true_iff. unfold Utf8.is_ascii. lia.
Qed.

Lemma valid_payload c n : Utf8.valid c = true → 0 ≤ n → Utf8.valid (payload_text c n) = true.
Proof.
  intros Hc Hn. unfold payload_text.
  assert (H1 : ∀ x t, Utf8.is_ascii x = true → Utf8.valid (String x t) = Utf8.valid t).
  { intros x t Hx. change (String x t) with (String x EmptyString +:+ t). apply Utf8.valid_ascii. simpl. by rewrite Hx. }
  rewrite H1 by done. rewrite valid_quoted by done. rewrite H1 by done. rewrite valid_digits by done. rewrite H1, valid_quoted, H1 by done.
  rewrite valid_quoted by done. rewrite H1, valid_quoted, H1 by done. by rewrite valid_digits.
Qed.

(** *** Parsing the payload *)

Lemma esc_nonempty c : 1 ≤ slen (esc_char c).
Proof. unfold esc_char, slen. repeat case_match; simpl; lia. Qed.

Lemma length_escape s t : (String.length s <= String.length (escape s +:+ t))%nat.
Proof.
  apply Nat2Z.inj_le. change (slen s ≤ slen (escape s +:+ t)). induction s as [|c s IH]; cbn [escape]; [apply slen_nonneg|].
  rewrite str_app_assoc, slen_app, slen_cons. pose proof (esc_nonempty c). lia.
Qed.

Lemma read_quoted s t : parse_str (S (String.length (escape s +:+ String quote t))) (escape s +:+ String quote t) = Some (s, t).
Proof. apply parse_str_quoted. pose proof (length_escape s (String quote t)). lia. Qed.

(** A member and what follows it. *)
Lemma member_read f acc k t v r : value f t = Some (v, r) →
  members (S f) acc (quoted k (String ":" t)) =
  match skip_ws r with
  | String x r4 => if is_c 125 x then Some (JObj (reverse ((k, v) :: acc)), r4) else if is_c 44 x then members f ((k, v) :: acc) r4 else None
  | EmptyString => None
  end.
Proof.
  intros Hv. unfold quoted. cbn [members]. change (skip_ws (String quote (escape k +:+ String quote (String ":" t)))) with (String quote (escape k +:+ String quote (String ":" t))).
  change (is_c 34 quote) with true. cbv iota. rewrite read_quoted. cbn [mbind option_bind]. change (skip_ws (String ":" t)) with (String ":" t).
  change (is_c 58 ":") with true. cbv iota. by rewrite Hv.
Qed.

Lemma value_quoted f s t : value (S f) (quoted s t) = Some (JStr s, t).
Proof.
  unfold quoted. cbn [value]. change (skip_ws (String quote (escape s +:+ String quote t))) with (String quote (escape s +:+ String quote t)).
  change (is_c 34 quote) with true. cbv iota. by rewrite read_quoted.
Qed.

Lemma value_integer f n r : 0 < n < 2 ^ 53 → (∀ c t, r = String c t → is_digit c = false ∧ is_c 46 c = false ∧ is_c 101 c = false ∧ is_c 69 c = false) →
  ∃ q, value (S f) (bigint_toString n +:+ r) = Some (JNum (Some q), r) ∧ (q == inject_Z n)%Q.
Proof.
  intros Hn Hr. destruct (parse_integer n r Hn Hr) as (q & Hq & He). exists q. split; [|done].
  destruct (bigint_toString_spec n ltac:(lia)) as (Hd & _ & Hne). destruct (bigint_toString n) as [|c s]; [done|]. apply andb_true_iff in Hd as [Hc _].
  assert (Hx : ∀ m, m < 48 ∨ 57 < m → is_c m c = false) by (intros m Hm; unfold is_c; apply Z.eqb_neq; unfold is_digit in Hc; lia).
  change (String c s +:+ r) with (String c (s +:+ r)) in *. cbn [value skip_ws].
  rewrite (Hx 32), (Hx 9), (Hx 10), (Hx 13) by lia. cbv [orb]. rewrite (Hx 34), (Hx 123), (Hx 91), (Hx 116), (Hx 102), (Hx 110) by lia. by rewrite Hq.
Qed.

Lemma parse_payload c n : 0 < n < 2 ^ 53 → ∃ q1 q, parse (payload_text c n) = Some (JObj [("v", JNum (Some q1)); ("c", JStr c); ("seq", JNum (Some q))]) ∧
  (q1 == inject_Z 1)%Q ∧ (q == inject_Z n)%Q.
Proof.
  intros Hn. unfold parse. assert (∃ m, String.length (payload_text c n) = S (S (S (S m)))) as [m ->] by (by eexists).
  unfold payload_text. set (tail := String "," (quoted "c" _)). set (end_ := String "}" EmptyString).
  destruct (value_integer (S (S m)) 1 tail) as (q1 & H1 & E1); [lia|by intros x t [= <- <-]|].
  destruct (value_integer m n end_) as (q & H2 & E2); [done|by intros x t [= <- <-]|]. exists q1, q. split; [|done].
  assert (Hseq : members (S (S m)) [("c", JStr c); ("v", JNum (Some q1))] (quoted "seq" (String ":" (bigint_toString n +:+ end_))) =
    Some (JObj [("v", JNum (Some q1)); ("c", JStr c); ("seq", JNum (Some q))], EmptyString)) by (by rewrite (member_read (S m) _ "seq" _ _ _ H2)).
  assert (Hc : members (S (S (S m))) [("v", JNum (Some q1))] (quoted "c" (String ":" (quoted c (String "," (quoted "seq" (String ":" (bigint_toString n +:+ end_))))))) =
    Some (JObj [("v", JNum (Some q1)); ("c", JStr c); ("seq", JNum (Some q))], EmptyString)).
  { rewrite (member_read (S (S m)) _ "c" _ _ _ (value_quoted _ c _)). exact Hseq. }
  assert (Hv : members (S (S (S (S m)))) [] (quoted "v" (String ":" (bigint_toString SOROBAN_EVENT_CURSOR_VERSION +:+ tail))) =
    Some (JObj [("v", JNum (Some q1)); ("c", JStr c); ("seq", JNum (Some q))], EmptyString)).
  { rewrite (member_read (S (S (S m))) _ "v" _ _ _ H1). exact Hc. }
  cbn [value]. unfold quoted at 1 in Hv. unfold quoted at 1. set (inner := escape "v" +:+ _) in *.
  change (skip_ws (String "{" (String quote inner))) with (String "{" (String quote inner)).
  change (is_c 34 "{") with false. change (is_c 123 "{") with true. cbv iota. change (skip_ws (String quote inner)) with (String quote inner).
  change (is_c 125 quote) with false. cbv iota. rewrite Hv. done.
Qed.

Lemma safe_integer_of q n : (q == inject_Z n)%Q → Z.abs n ≤ MAX_SAFE_INTEGER → safe_integer q = Some n.
Proof.
  intros Hq Hn. unfold safe_integer. assert (Hf : Qfloor q = n) by (rewrite (Qfloor_comp _ _ Hq); apply Qfloor_Z). rewrite Hf.
  rewrite (proj2 (Qeq_bool_iff _ _)) by (by rewrite Hq). simpl. by rewrite (proj2 (Z.leb_le _ _)).
Qed.

Lemma checked_valid v c n : check_payload v = Ok (c, n) → blank c = false ∧ 1 ≤ n ≤ MAX_SAFE_INTEGER.
Proof.
  unfold check_payload, safe_integer. intros H. repeat case_match; simplify_eq. split; [done|].
  match goal with H : _ && _ = true |- _ => apply andb_true_iff in H as [_ H] end. lia.
Qed.
Lemma roundtrip c seq :
  Utf8.valid c = true → blank c = false → 1 ≤ seq ≤ MAX_SAFE_INTEGER →
  (if slen (payload_text c seq) <=? MAX_EVENT_CURSOR_PAYLOAD_BYTES
   then decodeEventCursor (encodeEventCursor c seq) = Ok (c, seq)
   else ∃ m, decodeEventCursor (encodeEventCursor c seq) = Err (parse_error m)) ∧
  ∀ token c' seq', decodeEventCursor token = Ok (c', seq') → blank c' = false ∧ 1 ≤ seq' ≤ MAX_SAFE_INTEGER.
Proof.
  intros Hv Hb Hn. split.
  - unfold decodeEventCursor. rewrite token_accepted. unfold encodeEventCursor. rewrite Base64url.decode_encode, Utf8.toString_valid by (apply valid_payload; [done|lia]).
    destruct (Z.leb_spec (slen (payload_text c seq)) MAX_EVENT_CURSOR_PAYLOAD_BYTES) as [Hl|Hl].
    + rewrite (proj2 (Z.ltb_ge _ _) Hl). destruct (parse_payload c seq) as (q1 & q & -> & H1 & H2); [unfold MAX_SAFE_INTEGER in Hn; lia|].
      unfold check_payload. simpl. rewrite (proj2 (Qeq_bool_iff _ _)) by (by rewrite H1). simpl. rewrite Hb.
      rewrite (safe_integer_of q seq) by (done || lia). by rewrite (proj2 (Z.ltb_ge seq 1)) by lia.
    + rewrite (proj2 (Z.ltb_lt _ _) Hl). eauto.
  - intros token c' n'. unfold decodeEventCursor. destruct (_ || _); [done|]. destruct (_ <? _); [done|].
    destruct (Json.parse _) as [[]|]; try done; apply checked_valid.
Qed.
End CursorFacts.

(** C38. A cursor is read back as it was written, through the JSON text, its UTF-8
    bytes and base64url: for every server cursor that is not blank, every page
    sequence up to 2^53 - 1 and every payload of at most 2048 bytes; one byte
    more is refused. And whatever token is accepted, the server cursor in it is
    not blank and the sequence is a positive safe integer. *)
Theorem event_cursor_roundtrip c seq :
  Utf8.valid c = true → blank c = false → 1 ≤ seq ≤ MAX_SAFE_INTEGER →
  (if slen (payload_text c seq) <=? MAX_EVENT_CURSOR_PAYLOAD_BYTES
   then decodeEventCursor (encodeEventCursor c seq) = Ok (c, seq)
   else ∃ m, decodeEventCursor (encodeEventCursor c seq) = Err (parse_error m)) ∧
  ∀ token c' seq', decodeEventCursor token = Ok (c', seq') → blank c' = false ∧ 1 ≤ seq' ≤ MAX_SAFE_INTEGER.
Proof. apply CursorFacts.roundtrip. Qed.

(** ** Pages of events *)
Module Events.

(** [None] inside: a number that is no integer. *)
Definition resolveEventsPageLimit (requested : option (option Z)) : result thrown Z :=
  match requested with
  | None => Ok DEFAULT_EVENTS_PAGE_LIMIT
  | Some (Some n) =>
      if (n <? 1) || (MAX_EVENTS_PAGE_LIMIT <? n) then Err (client_error CONFIG_ERROR "Invalid events page limit" 1) else Ok n
  | Some None => Err (client_error CONFIG_ERROR "Invalid events page limit" 1)
  end.

Section Pages.
Context {event : Type}.

(** The result of [getEvents]; [events] is there when it is an array. *)
Record events_result := { r_events : option (list event); r_latestCursor : option string; r_cursor : option string }.
Record ContractEventsPage := { events : list event; next : option string }.

(** [callRpc] with the server cursor and the limit of the request. *)
Definition getContractEvents (callRpc : option string → Z → result thrown events_result) (cursor : option string) (requested : option (option Z)) :
    result thrown ContractEventsPage :=
  decoded ← (match cursor with None | Some EmptyString => Ok None | Some t => '(c, _) ← decodeEventCursor t; Ok (Some c) end);
  limit ← resolveEventsPageLimit requested;
  r ← callRpc decoded limit;
  Ok {| events := default [] (r_events r); next := match r_latestCursor r with Some c => Some c | None => r_cursor r end |}.

(** A request with a bad cursor or a bad limit is not sent. *)
Lemma bad_request_not_sent rpc rpc' cursor requested :
  (match cursor with None | Some EmptyString => False | Some t => ∃ e, decodeEventCursor t = Err e end) ∨ (∃ e, resolveEventsPageLimit requested = Err e) →
  getContractEvents rpc cursor requested = getContractEvents rpc' cursor requested.
Proof.
  intros H. unfold getContractEvents. destruct cursor as [[|a t]|].
  - destruct H as [[]|[e He]]. by rewrite He.
  - destruct (decodeEventCursor (String a t)) as [[c n]|e] eqn:E; [|done]. destruct H as [[e He]|[e He]]; [congruence|by rewrite He].
  - destruct H as [[]|[e He]]. by rewrite He.
Qed.
End Pages.

(** *** The cursor of a page is not one that is taken back *)

Lemma decode_first need lo hi b p t : (need ≠ 0)%nat → 128 ≤ code b → ∃ x u, Utf8.decode_from need lo hi (String b p) t = String x u ∧ 128 ≤ code x.
Proof.
  revert need lo hi p. induction t as [|c t IH]; intros need lo hi p Hn Hb; destruct need as [|n]; try done; cbn [Utf8.decode_from]; [by eexists _, _|].
  destruct ((lo <=? code c) && (code c <=? hi)).
  - destruct n as [|n]; [rewrite !Utf8.str_app_cons; eauto|]. rewrite Utf8.str_app_cons. by apply IH.
  - eexists _, _. split; [done|]. by vm_compute.
Qed.

Lemma toString_first b t : 128 ≤ code b → ∃ x u, Utf8.toString (String b t) = String x u ∧ 128 ≤ code x.
Proof.
  intros Hb. unfold Utf8.toString. cbn [Utf8.decode_from]. destruct (Utf8.lead b) as [[[k l] h]|]; [|eexists _, _; split; [done|by vm_compute]].
  destruct k as [|k]; [eauto|]. by apply decode_first.
Qed.

Lemma high_not_json x u : 128 ≤ code x → Json.parse (String x u) = None.
Proof.
  intros Hx. assert (Hc : ∀ n, n < 128 → Json.is_c n x = false) by (intros n Hn; unfold Json.is_c; apply Z.eqb_neq; lia).
  unfold Json.parse. cbn [String.length Json.value Json.skip_ws]. rewrite (Hc 32), (Hc 9), (Hc 10), (Hc 13) by lia. cbv [orb].
  rewrite (Hc 34), (Hc 123), (Hc 91), (Hc 116), (Hc 102), (Hc 110) by lia. unfold Json.parse_number. rewrite (Hc 45) by lia.
  assert (Hd : is_digit x = false) by (unfold is_digit; lia). cbn [span_digits]. by rewrite Hd.
Qed.

(** The bytes of a token that begins with a digit. *)
Lemma digit_bytes c r : is_digit c = true → Base64url.decode (String c r) = EmptyString ∨ ∃ b t, Base64url.decode (String c r) = String b t ∧ 128 ≤ code b.
Proof.
  intros [H1 H2]%andb_true_iff. apply Z.leb_le in H1. apply Z.leb_le in H2. unfold Base64url.decode. cbn [Base64url.chars String.list_ascii_of_string Base64url.unpadded].
  rewrite (proj2 (Z.eqb_neq (code c) 61)) by lia. cbn [omap list_omap]. assert (Hs : Base64url.char_sextet c = Some (code c + 4)).
  { unfold Base64url.char_sextet. rewrite (proj2 (Z.leb_gt 65 (code c))), (proj2 (Z.leb_gt 97 (code c))) by lia. simpl.
    by rewrite (proj2 (Z.leb_le 48 (code c))), (proj2 (Z.leb_le (code c) 57)) by lia. }
  rewrite Hs. assert (Hl : Forall (λ n, 0 ≤ n < 64) (omap Base64url.char_sextet (Base64url.unpadded (String.list_ascii_of_string r)))).
  { apply Forall_forall. intros n (a & _ & Ha)%list_elem_of_omap. unfold Base64url.char_sextet in Ha. repeat case_match; simplify_eq; lia. }
  change (list_omap ascii Z Base64url.char_sextet) with (omap (M := list) Base64url.char_sextet).
  set (l := omap Base64url.char_sextet _) in *.
  assert (Hb : ∀ x, 0 ≤ x < 64 → 128 ≤ code (Base64url.byte_char (Z.lor (Z.shiftl (code c + 4) 2) (Z.shiftr x 4)))).
  { intros x Hx. assert (Hall : forallb (λ w, forallb (λ x, 128 <=? code (Base64url.byte_char (Z.lor (Z.shiftl w 2) (Z.shiftr x 4)))) (seqZ 0 64)) (seqZ 52 10) = true) by by vm_compute.
    rewrite forallb_forall in Hall. specialize (Hall (code c + 4)). rewrite forallb_forall in Hall. apply Z.leb_le, Hall; apply list_elem_of_In, elem_of_seqZ; lia. }
  destruct l as [|x [|y [|z l']]]; [by left|right..]; inversion Hl; subst; eexists _, _; (split; [done|by apply Hb]).
Qed.

(** No token that begins with a digit is taken, as the cursors of the server do. *)
Lemma server_cursor_refused c r : is_digit c = true → ∃ m, decodeEventCursor (String c r) = Err (parse_error m).
Proof.
  intros Hc. unfold decodeEventCursor. destruct (_ || _); [eauto|]. destruct (_ <? _); [eauto|].
  destruct (digit_bytes c r Hc) as [->|(b & t & -> & Hb)]; [by eexists|]. destruct (toString_first b t Hb) as (x & u & -> & Hx).
  rewrite (high_not_json x u Hx). eauto.
Qed.

(** The page hands out the cursor of the server as it is: the next call with it
    is refused, whatever the server would answer. *)
Lemma second_page_refused {event} (rpc rpc' : option string → Z → result thrown (@events_result event)) first requested requested' page c r :
  getContractEvents rpc first requested = Ok page → next page = Some (String c r) → is_digit c = true →
  ∃ m, getContractEvents rpc' (next page) requested' = Err (parse_error m).
Proof.
  intros _ -> Hc. destruct (server_cursor_refused c r Hc) as [m Hm]. exists m. unfold getContractEvents. by rewrite Hm.
Qed.

(** The token that the client could have built is taken back. *)
Lemma next_cursor_resumes {event} (rpc : option string → Z → result thrown (@events_result event)) c seq t requested limit r :
  Utf8.valid c = true → blank c = false → 1 ≤ seq < MAX_SAFE_INTEGER → slen (payload_text c (seq + 1)) ≤ MAX_EVENT_CURSOR_PAYLOAD_BYTES →
  buildNextCursor (Some c) seq = Some t → resolveEventsPageLimit requested = Ok limit → rpc (Some c) limit = Ok r →
  ∃ page, getContractEvents rpc (Some t) requested = Ok page ∧ events page = default [] (r_events r).
Proof.
  intros Hv Hb Hs Hl Ht Hr Hrpc. destruct (CursorFacts.roundtrip c (seq + 1)) as [Hrt _]; [done|done|lia|]. rewrite (proj2 (Z.leb_le _ _) Hl) in Hrt.
  unfold buildNextCursor in Ht. destruct c as [|a c]; [done|]. injection Ht as <-. eexists. unfold getContractEvents.
  pose proof (CursorFacts.token_accepted (String a c) (seq + 1)) as Hne. destruct (encodeEventCursor (String a c) (seq + 1)) as [|x u] eqn:E; [done|].
  rewrite Hrt. cbn [mbind result_bind]. rewrite Hr. cbn [mbind result_bind]. rewrite Hrpc. done.
Qed.
End Events.

(** ** Replies and errors of an attempt *)
Module Replies.
Import Recovery.Errors(object, normalizeTransportError, t_code, t_message, TIMEOUT, instanceof_Error, p_message, get, Has, Other, Object).

Section Heap.
Variable heap : gmap nat object.
(** The time limit of the client, for its messages. *)
Variable timeoutMs : Z.

(** What a request gives: the fetch rejects, a status that is not ok, a body that
    cannot be read, an RPC error, no result, or a result. *)
Inductive reply (T : Type) := Rejected (v : Errors.value) | NotOk (status : Z) | BodyError (v : Errors.value) | RpcFault (c : Z) (m : string) | NoResult | Success (x : T).
Arguments Rejected {T} v.
Arguments NotOk {T} status.
Arguments BodyError {T} v.
Arguments RpcFault {T} c m.
Arguments NoResult {T}.
Arguments Success {T} x.

(** What an attempt throws: an error of the client, the timeout of the executor,
    or any other value. *)
Inductive raised := Mine (e : SorobanClientError) | TimeoutExceededError | Foreign (v : Errors.value).

Definition timed_out (attempts : Z) : SorobanClientError :=
  {| e_code := TIMEOUT_ERROR; e_message := "Soroban RPC request timed out after " +:+ bigint_toString timeoutMs +:+ "ms."; e_status := None; e_rpcCode := None;
     e_attempts := attempts |}.
Definition network (m : string) (attempts : Z) : SorobanClientError :=
  {| e_code := NETWORK_ERROR; e_message := m; e_status := None; e_rpcCode := None; e_attempts := attempts |}.

Definition buildHttpError (status attempts : Z) : SorobanClientError :=
  {| e_code := HTTP_ERROR; e_message := "Soroban RPC request failed with HTTP " +:+ bigint_toString status +:+ "."; e_status := Some status; e_rpcCode := None;
     e_attempts := attempts |}.

Definition executeRpc {T} (attempt : Z) (r : reply T) : result raised T :=
  match r with
  | Rejected v => Err (Foreign v)
  | NotOk status => Err (Mine (buildHttpError status attempt))
  | BodyError v =>
      match normalizeTransportError heap v with
      | Some t =>
          Err (Mine (match t_code t with
                     | TIMEOUT => {| e_code := TIMEOUT_ERROR; e_message := "Soroban RPC response timed out while reading body after " +:+ bigint_toString timeoutMs +:+ "ms.";
                                     e_status := None; e_rpcCode := None; e_attempts := attempt |}
                     | _ => network ("Soroban RPC transport error reading body: " +:+ t_message t) attempt
                     end))
      | None => Err (Mine {| e_code := PARSE_ERROR; e_message := "Unable to parse Soroban RPC response JSON."; e_status := None; e_rpcCode := None; e_attempts := attempt |})
      end
  | RpcFault c m => Err (Mine {| e_code := RPC_ERROR; e_message := "Soroban RPC error: " +:+ m; e_status := None; e_rpcCode := Some c; e_attempts := attempt |})
  | NoResult => Err (Mine {| e_code := PARSE_ERROR; e_message := "Soroban RPC response missing result field."; e_status := None; e_rpcCode := None; e_attempts := attempt |})
  | Success x => Ok x
  end.

Definition normalizeError (e : raised) (attempts : Z) : SorobanClientError :=
  match e with
  | Mine e => e
  | TimeoutExceededError => timed_out attempts
  | Foreign v =>
      match normalizeTransportError heap v with
      | Some t => match t_code t with TIMEOUT => timed_out attempts | _ => network ("Soroban RPC transport error: " +:+ t_message t) attempts end
      | None =>
          if instanceof_Error heap v
          then network ("Soroban RPC transport error: " +:+ match v with Object l => match p_message (get heap l) with Has m | Other m => m | _ => "undefined" end | _ => EmptyString end) attempts
          else network "Unknown Soroban RPC transport error." attempts
      end
  end.

(** A timeout that cuts the body and one that cuts the request have one code;
    so does a reset. *)
Lemma same_code_before_and_after_headers {T} attempt attempt' v t : normalizeTransportError heap v = Some t →
  ∃ e, executeRpc attempt (@BodyError T v) = Err (Mine e) ∧ e_code e = e_code (normalizeError (Foreign v) attempt') ∧
       e_code e = match t_code t with TIMEOUT => TIMEOUT_ERROR | _ => NETWORK_ERROR end.
Proof. intros Ht. unfold executeRpc, normalizeError. rewrite Ht. destruct (t_code t); by eexists. Qed.
End Heap.
End Replies.

(** ** Examples *)
Module SorobanExample.
Import Events.

(** A cursor of the server, as the RPC gives them. *)
Definition server_cursor : string := "0164090849041387521-0000000001".

Lemma event_cursor_roundtrip_witness :
  encodeEventCursor server_cursor 2 = "eyJ2IjoxLCJjIjoiMDE2NDA5MDg0OTA0MTM4NzUyMS0wMDAwMDAwMDAxIiwic2VxIjoyfQ" ∧
  decodeEventCursor (encodeEventCursor server_cursor 2) = Ok (server_cursor, 2).
Proof.
  split; [vm_compute; reflexivity|].
  pose proof (proj1 (event_cursor_roundtrip server_cursor 2 eq_refl eq_refl ltac:(unfold MAX_SAFE_INTEGER; lia))) as H.
  change (slen (payload_text server_cursor 2) <=? MAX_EVENT_CURSOR_PAYLOAD_BYTES) with true in H. exact H.
Defined.

(** The two are the tokens of the JSON texts null and {}. *)
Example null_token_type_error : decodeEventCursor "bnVsbA" = Err TypeError ∧ decodeEventCursor "e30" = Err (parse_error "unsupported cursor version.").
Proof. by vm_compute. Qed.

(** The first page answers, and its cursor is refused. *)
Definition server (_ : option string) (_ : Z) : result thrown (@events_result nat) :=
  Ok {| r_events := Some [1; 2]%nat; r_latestCursor := Some server_cursor; r_cursor := None |}.

Example walk_stops_after_one_page : ∃ page m, getContractEvents server None None = Ok page ∧
  getContractEvents server (next page) None = Err (parse_error m).
Proof. by eexists _, _. Qed.
End SorobanExample.
