(* ===== verification/Backfill.v ===== *)
(** * Resumable backfills

    The progress markers of [db/repositories/backfillProgressRepository.ts] and
    the runner of [jobs/backfill/runner.ts]. A run is a program over the table
    of markers in a small monad with exceptions and crashes: a script says of
    every statement and of every call of the processor whether it works or
    fails, and the process dies where the script ends. *)

From stdpp Require Import base option list gmap strings sorting.
From Stdlib Require Import ZArith Lia Ascii.
From S2P Require Import Prelude JsLib.

Open Scope Z_scope.

(** ** Progress markers *)

Inductive BackfillProgressStatus := pending | running | completed | failed.
#[export] Instance backfill_status_eq_dec : EqDecision BackfillProgressStatus.
Proof. solve_decision. Defined.

(** [metadata] is the text of a JSON object. *)
Record BackfillProgress := {
  jobName : string;
  cursorValue : string;
  rowsProcessed : Z;
  totalRows : option Z;
  status : BackfillProgressStatus;
  lastError : option string;
  metadata : string;
  updatedAt : Z
}.

Abbreviation markers := (gmap string BackfillProgress).

Definition MAX_CURSOR_LENGTH : Z := 1024.
Definition MAX_ERROR_LENGTH : nat := 2000.

Definition job_char (c : ascii) : bool :=
  let n := code c in
  ((97 <=? n) && (n <=? 122)) || ((65 <=? n) && (n <=? 90)) || ((45 <=? n) && (n <=? 58)) || (n =? 95).

Definition assertValidJobName (j : string) : bool := (1 <=? slen j) && (slen j <=? 128) && str_forallb job_char j.

Definition control (c : ascii) : bool :=
  let n := code c in (n <=? 8) || (n =? 11) || (n =? 12) || ((14 <=? n) && (n <=? 31)).

(** The error, when there is one. *)
Definition assertValidCursor (c : string) : option string :=
  if MAX_CURSOR_LENGTH <? slen c then Some "cursor_value exceeds maximum length of 1024"
  else if negb (str_forallb (λ x, negb (control x)) c) then Some "cursor_value contains invalid control characters" else None.

Definition assertNonNegative (n : Z) (field : string) : option string :=
  if n <? 0 then Some (field +:+ " must be a non-negative integer") else None.

(** The first error of a list of checks. *)
Definition first_error (l : list (option string)) : option string := head (omap id l).

Record UpsertBackfillProgressInput := {
  u_jobName : string;
  u_cursorValue : string;
  u_rowsProcessed : Z;
  u_totalRows : option Z;
  u_status : BackfillProgressStatus;
  u_lastError : option string;
  u_metadata : string
}.

Definition job_error (j : string) : option string := if assertValidJobName j then None else Some "Invalid backfill job_name".
Definition total_error (t : option Z) : option string := match t with Some n => assertNonNegative n "totalRows" | None => None end.

Definition findByJobName (j : string) (t : markers) : result string (option BackfillProgress) :=
  match job_error j with Some m => Err m | None => Ok (t !! j) end.

(** Newest first; rows of one time in any order. *)
Definition newer (x y : BackfillProgress) : Prop := updatedAt y ≤ updatedAt x.
#[export] Instance newer_dec x y : Decision (newer x y).
Proof. unfold newer. solve_decision. Defined.
Definition findAll (t : markers) : list BackfillProgress := merge_sort newer (map_to_list t).*2.

Definition upsert (now : Z) (i : UpsertBackfillProgressInput) (t : markers) : markers * result string BackfillProgress :=
  match first_error [job_error (u_jobName i); assertValidCursor (u_cursorValue i); assertNonNegative (u_rowsProcessed i) "rowsProcessed"; total_error (u_totalRows i)] with
  | Some m => (t, Err m)
  | None =>
      let p := {| jobName := u_jobName i; cursorValue := u_cursorValue i; rowsProcessed := u_rowsProcessed i; totalRows := u_totalRows i;
        status := u_status i; lastError := u_lastError i; metadata := u_metadata i; updatedAt := now |} in
      (<[u_jobName i := p]> t, Ok p)
  end.

Record CheckpointBackfillInput := {
  c_jobName : string;
  c_cursorValue : string;
  c_rowsProcessed : Z;
  c_totalRows : option Z;
  c_metadata : option string
}.

(** [a ?? b] of members that may be missing. *)
Definition or_else {A} (a b : option A) : option A := match a with Some _ => a | None => b end.

Definition checkpoint (now : Z) (i : CheckpointBackfillInput) (t : markers) : markers * result string BackfillProgress :=
  match first_error [job_error (c_jobName i); assertValidCursor (c_cursorValue i); assertNonNegative (c_rowsProcessed i) "rowsProcessed"; total_error (c_totalRows i)] with
  | Some m => (t, Err m)
  | None =>
      let old := t !! c_jobName i in
      let p := {| jobName := c_jobName i; cursorValue := c_cursorValue i; rowsProcessed := c_rowsProcessed i;
        totalRows := or_else (c_totalRows i) (old ≫= totalRows); status := running; lastError := None;
        metadata := match c_metadata i with Some m => m | None => from_option metadata "{}" old end; updatedAt := now |} in
      (<[c_jobName i := p]> t, Ok p)
  end.

Definition delete_marker (j : string) (t : markers) : markers * result string bool :=
  match job_error j with Some m => (t, Err m) | None => (delete j t, Ok (bool_decide (is_Some (t !! j)))) end.

(** ** Programs that fail and crash *)

Inductive fate := Fine | Fails.
Inductive outcome (A : Type) := Value (a : A) | Exception (m : string) | Crash.
Arguments Value {A} a.
Arguments Exception {A} m.
Arguments Crash {A}.

(** The markers, the rows that the processor worked on, the time, and the
    variables of the run. *)
Record world := {
  table : markers;
  worked : list string;
  now : Z;
  cursor : string;
  rows : Z;
  batches : Z;
  progress : option BackfillProgress
}.

Definition io (A : Type) : Type := world → list fate → (world * list fate) * outcome A.
#[export] Instance io_ret : MRet io := λ A a w s, ((w, s), Value a).
#[export] Instance io_bind : MBind io := λ A B f p w s,
  match p w s with
  | ((w', s'), Value a) => f a w' s'
  | (ws, Exception m) => (ws, Exception m)
  | (ws, Crash) => (ws, Crash)
  end.

Definition throw {A} (m : string) : io A := λ w s, ((w, s), Exception m).
Definition catch {A} (p : io A) (h : string → io A) : io A := λ w s,
  match p w s with (ws, Exception m) => h m ws.1 ws.2 | r => r end.
Definition get_world : io world := λ w s, ((w, s), Value w).
Definition set_world (f : world → world) : io () := λ w s, ((f w, s), Value ()).

Definition with_table (t : markers) (w : world) : world :=
  {| table := t; worked := worked w; now := now w; cursor := cursor w; rows := rows w; batches := batches w; progress := progress w |}.

(** A step of the outside world: it happens, fails without effect, or the
    process dies before it. *)
Definition act {A} (f : world → world * result string A) : io A := λ w s,
  match s with
  | [] => ((w, []), Crash)
  | Fails :: s' => ((w, s'), Exception "failed")
  | Fine :: s' => match f w with (w', Ok a) => ((w', s'), Value a) | (w', Err m) => ((w', s'), Exception m) end
  end.

Definition query {A} (f : Z → markers → markers * result string A) : io A :=
  act (λ w, let '(t, r) := f (now w) (table w) in (with_table t w, r)).

Definition find (j : string) : io (option BackfillProgress) := query (λ _ t, (t, findByJobName j t)).

Definition markRunning (j : string) (total : option Z) : io BackfillProgress :=
  existing ← find j;
  query (λ now, upsert now {| u_jobName := j; u_cursorValue := from_option cursorValue EmptyString existing;
    u_rowsProcessed := from_option rowsProcessed 0 existing; u_totalRows := or_else total (existing ≫= totalRows); u_status := running;
    u_lastError := None; u_metadata := from_option metadata "{}" existing |}).

Definition markCompleted (j c : string) (n : Z) : io BackfillProgress :=
  existing ← find j;
  match existing with
  | None => throw "Cannot complete unknown backfill job"
  | Some e =>
      query (λ now, upsert now {| u_jobName := j; u_cursorValue := c; u_rowsProcessed := n; u_totalRows := totalRows e; u_status := completed;
        u_lastError := None; u_metadata := metadata e |})
  end.

Definition markFailed (j m : string) : io BackfillProgress :=
  existing ← find j;
  match existing with
  | None => throw "Cannot fail unknown backfill job"
  | Some e =>
      query (λ now, upsert now {| u_jobName := j; u_cursorValue := cursorValue e; u_rowsProcessed := rowsProcessed e; u_totalRows := totalRows e;
        u_status := failed; u_lastError := Some (str_take MAX_ERROR_LENGTH m); u_metadata := metadata e |})
  end.

(** ** The runner *)

Record BackfillBatchResult := { nextCursor : string; processedCount : Z; done : bool; b_totalRows : option Z; b_metadata : option string }.

Record ResumableBackfillOptions := { o_jobName : string; batchSize : Z; o_totalRows : option Z; initialCursor : string; forceRestart : bool }.

Record ResumableBackfillResult := {
  r_status : BackfillProgressStatus;
  r_rowsProcessed : Z;
  r_cursorValue : string;
  batchesProcessed : Z;
  resumedFromCursor : string;
  r_progress : option BackfillProgress;
  error : option string
}.

Section Runner.
(** The processor: the rows it works on and what it reports, or an error, when
    its batch is rolled back. *)
Variable processor : string → Z → result string (list string * BackfillBatchResult).

Definition process (size : Z) : io BackfillBatchResult :=
  act (λ w, match processor (cursor w) size with
            | Ok (ks, b) => ({| table := table w; worked := worked w ++ ks; now := now w; cursor := cursor w; rows := rows w; batches := batches w; progress := progress w |}, Ok b)
            | Err m => (w, Err m)
            end).

Definition set_run (c : string) (n b : Z) : io () :=
  set_world (λ w, {| table := table w; worked := worked w; now := now w; cursor := c; rows := n; batches := b; progress := progress w |}).
Definition set_progress (p : BackfillProgress) : io () :=
  set_world (λ w, {| table := table w; worked := worked w; now := now w; cursor := cursor w; rows := rows w; batches := batches w; progress := Some p |}).

Definition one_batch (o : ResumableBackfillOptions) : io BackfillBatchResult :=
  b ← process (batchSize o);
  if processedCount b <? 0 then throw "Backfill batch reported negative processedCount"
  else
    w ← get_world;
    _ ← set_run (nextCursor b) (rows w + processedCount b) (batches w + 1);
    p ← query (λ now, checkpoint now {| c_jobName := o_jobName o; c_cursorValue := nextCursor b; c_rowsProcessed := rows w + processedCount b;
      c_totalRows := or_else (b_totalRows b) (or_else (o_totalRows o) (progress w ≫= totalRows)); c_metadata := b_metadata b |});
    _ ← set_progress p;
    mret b.

(** [left] batches may still be made. *)
Fixpoint batch_loop (left : nat) (o : ResumableBackfillOptions) : io () :=
  match left with
  | O => mret ()
  | S n => b ← one_batch o; if done b || (processedCount b =? 0) then mret () else batch_loop n o
  end.

Definition finish (st : BackfillProgressStatus) (resumed : string) (e : option string) : io ResumableBackfillResult :=
  w ← get_world;
  mret {| r_status := st; r_rowsProcessed := rows w; r_cursorValue := cursor w; batchesProcessed := batches w; resumedFromCursor := resumed;
          r_progress := progress w; error := e |}.

Definition reset (o : ResumableBackfillOptions) (now : Z) : markers → markers * result string BackfillProgress :=
  upsert now {| u_jobName := o_jobName o; u_cursorValue := initialCursor o; u_rowsProcessed := 0; u_totalRows := o_totalRows o; u_status := pending;
    u_lastError := None; u_metadata := "{}" |}.

Definition resume (maxBatches : nat) (o : ResumableBackfillOptions) (existing : option BackfillProgress) : io ResumableBackfillResult :=
  let resumeCursor := from_option cursorValue (initialCursor o) existing in
  p ← markRunning (o_jobName o) (or_else (o_totalRows o) (existing ≫= totalRows));
  _ ← set_run resumeCursor (from_option rowsProcessed 0 existing) 0;
  _ ← set_progress p;
  catch (_ ← batch_loop maxBatches o;
         w ← get_world;
         p ← markCompleted (o_jobName o) (cursor w) (rows w);
         _ ← set_progress p;
         finish completed resumeCursor None)
        (λ m, _ ← catch (p ← markFailed (o_jobName o) m; set_progress p) (λ _, mret ());
              finish failed resumeCursor (Some m)).

Definition run_with (maxBatches : nat) (o : ResumableBackfillOptions) : io ResumableBackfillResult :=
  found ← find (o_jobName o);
  existing ← (if forceRestart o && bool_decide (is_Some found) then p ← query (reset o); mret (Some p) else mret found);
  match existing with
  | Some e =>
      if bool_decide (status e = completed) && negb (forceRestart o)
      then mret {| r_status := completed; r_rowsProcessed := rowsProcessed e; r_cursorValue := cursorValue e; batchesProcessed := 0;
                   resumedFromCursor := cursorValue e; r_progress := Some e; error := None |}
      else resume maxBatches o existing
  | None => resume maxBatches o existing
  end.

Definition MAX_BATCHES : N := 10000000.
Definition run : ResumableBackfillOptions → io ResumableBackfillResult := run_with (N.to_nat MAX_BATCHES).
End Runner.

(** ** Keysets *)

(** What the runner relies on: a processor that works through rows in the order
    of their keys, after the cursor, and says that it is done only at the end. *)
Definition after (keys : list string) (c : string) : list string := filter (λ k, String.ltb c k = true) keys.

Class KeysetProcessor (keys : list string) (processor : string → Z → result string (list string * BackfillBatchResult)) := {
  keys_sorted : StronglySorted (λ a b, String.ltb a b = true) keys;
  keys_named : Forall (λ k, k ≠ EmptyString) keys;
  batch_exact : ∀ c n ks b, 1 ≤ n → processor c n = Ok (ks, b) →
    ks = take (Z.to_nat n) (after keys c) ∧ processedCount b = Z.of_nat (length ks) ∧ nextCursor b = default c (last ks) ∧
    (done b = true → Z.of_nat (length (after keys c)) ≤ n)
}.

Lemma first_error_none l : first_error l = None → Forall (λ e, e = None) l.
Proof. unfold first_error. induction l as [|[m|] l IH]; simpl; [constructor|done|]. intros Hl. constructor; [done|by apply IH]. Qed.

Lemma total_or_else a b : total_error a = None → total_error b = None → total_error (or_else a b) = None.
Proof. by destruct a. Qed.

Lemma filter_implied {A} (P Q : A → Prop) `{∀ x, Decision (P x), ∀ x, Decision (Q x)} (l : list A) : (∀ x, x ∈ l → P x → Q x) → filter P (filter Q l) = filter P l.
Proof.
  induction l as [|x l IH]; intros Hx; [done|]. rewrite (filter_cons Q), (filter_cons P). destruct (decide (Q x)) as [q|nq].
  - rewrite filter_cons, IH by (intros y Hy; apply Hx; by right). done.
  - rewrite decide_False by (intros p; apply nq, Hx; [left|done]). apply IH. intros y Hy. apply Hx. by right.
Qed.

Lemma filter_none {A} (P : A → Prop) `{∀ x, Decision (P x)} (l : list A) : (∀ x, x ∈ l → ¬ P x) → filter P l = [].
Proof.
  induction l as [|x l IH]; intros Hx; [done|]. rewrite filter_cons, decide_False by (apply Hx; left). apply IH. intros y Hy. apply Hx. by right.
Qed.

Lemma filter_every {A} (P : A → Prop) `{∀ x, Decision (P x)} (l : list A) : Forall P l → filter P l = l.
Proof. induction 1 as [|x l Hx _ IH]; [done|]. by rewrite filter_cons, decide_True, IH. Qed.

Lemma keys_filter_sorted {A} (R : relation A) (P : A → Prop) `{∀ x, Decision (P x)} (l : list A) : StronglySorted R l → StronglySorted R (filter P l).
Proof.
  induction 1 as [|x l Hl IH Hx]; [constructor|]. rewrite filter_cons. destruct (decide (P x)); [|done]. constructor; [done|].
  apply Forall_forall. intros y [_ Hy]%list_elem_of_filter. by eapply Forall_forall in Hx.
Qed.

Lemma after_last keys c pre k rest : StronglySorted (λ a b, String.ltb a b = true) keys → after keys c = pre ++ k :: rest → after keys k = rest.
Proof.
  intros Hs Ha. assert (Hck : String.ltb c k = true).
  { assert (Hin : k ∈ after keys c) by (rewrite Ha; apply elem_of_app; right; left). by apply list_elem_of_filter in Hin as [? _]. }
  assert (Hf : after keys k = filter (λ x, String.ltb k x = true) (after keys c)).
  { symmetry. apply filter_implied. intros x _ Hx. by apply (str_ltb_trans c k x). }
  assert (Hsa : StronglySorted (λ a b, String.ltb a b = true) (after keys c)) by (by apply keys_filter_sorted).
  rewrite Hf, Ha in *. rewrite filter_app, filter_cons. rewrite (decide_False (P := String.ltb k k = true)) by (by rewrite str_ltb_irrefl).
  apply StronglySorted_app in Hsa as (Hlt & _ & Hr). apply StronglySorted_inv in Hr as [_ Hr].
  assert (Hpre : filter (λ x, String.ltb k x = true) pre = []).
  { apply filter_none. intros x Hx Hkx. assert (Hxk : String.ltb x k = true) by (apply Hlt; [done|left]).
    pose proof (str_ltb_trans x k x Hxk Hkx) as Hxx. by rewrite str_ltb_irrefl in Hxx. }
  rewrite Hpre. simpl. by apply filter_every.
Qed.

(** ** A run keeps the markers right *)

Section Safety.
Context {keys : list string} {processor : string → Z → result string (list string * BackfillBatchResult)} `{KeysetProcessor keys processor}.
Variable job : string.

(** Every key up to a cursor was worked on. *)
Definition covered (c : string) (w : world) : Prop := ∀ k, k ∈ keys → String.ltb c k = false → k ∈ worked w.
Definition left_after (c : string) : Z := Z.of_nat (length (after keys c)).

Definition marker_ok (w : world) (p : BackfillProgress) : Prop :=
  rowsProcessed p = Z.of_nat (length keys) - left_after (cursorValue p) ∧ covered (cursorValue p) w ∧ (status p = completed → after keys (cursorValue p) = []) ∧
  assertValidCursor (cursorValue p) = None ∧ total_error (totalRows p) = None.

Definition world_ok (w : world) : Prop := ∀ p, table w !! job = Some p → marker_ok w p.

(** The variables of the run stand where its cursor says. *)
Definition run_ok (w : world) : Prop := rows w = Z.of_nat (length keys) - left_after (cursor w) ∧ covered (cursor w) w.

(** What a program leaves when it returns and when it throws; a crash leaves the
    world right. *)
Definition triple {A} (P : world → Prop) (p : io A) (Q : A → world → Prop) : Prop :=
  ∀ w s, P w → match p w s with ((w', _), Value a) => Q a w' | ((w', _), _) => world_ok w' end.

Lemma triple_bind {A B} P Q R (p : io A) (f : A → io B) : triple P p Q → (∀ a, triple (Q a) (f a) R) → triple P (p ≫= f) R.
Proof.
  intros Hp Hf w s Hw. specialize (Hp w s Hw). unfold mbind, io_bind. destruct (p w s) as [[w' s'] [a|m|]]; [by apply Hf|done..].
Qed.

Lemma triple_ret {A} (P : world → Prop) (a : A) (Q : A → world → Prop) : (∀ w, P w → Q a w) → triple P (mret a) Q.
Proof. intros HQ w s Hw. by apply HQ. Qed.

Lemma triple_throw {A} P m (Q : A → world → Prop) : (∀ w, P w → world_ok w) → triple P (throw m) Q.
Proof. intros HP w s Hw. by apply HP. Qed.

Lemma triple_catch {A} P Q (p : io A) h : triple P p Q → (∀ m, triple world_ok (h m) Q) → triple P (catch p h) Q.
Proof.
  intros Hp Hh w s Hw. specialize (Hp w s Hw). unfold catch. destruct (p w s) as [[w' s'] [a|m|]]; [done|by apply Hh|done].
Qed.

Lemma triple_conseq {A} (P P' : world → Prop) (Q Q' : A → world → Prop) p : triple P' p Q' → (∀ w, P w → P' w) → (∀ a w, Q' a w → Q a w) → triple P p Q.
Proof. intros Hp HP HQ w s Hw. specialize (Hp w s (HP w Hw)). destruct (p w s) as [[w' s'] [a|m|]]; [by apply HQ|done..]. Qed.

Lemma triple_get P : triple P get_world (λ a w, a = w ∧ P w).
Proof. by intros w s Hw. Qed.

Lemma triple_set (P Q : world → Prop) f : (∀ w, P w → Q (f w)) → triple P (set_world f) (λ _, Q).
Proof. intros HQ w s Hw. by apply HQ. Qed.

(** A step of the outside world: on an error nothing was done. *)
Lemma triple_act {A} (P : world → Prop) (f : world → world * result string A) Q : (∀ w, P w → world_ok w) →
  (∀ w, P w → match f w with (w', Ok a) => Q a w' | (w', Err _) => world_ok w' end) → triple P (act f) Q.
Proof.
  intros HP Hf w s Hw. unfold act. specialize (Hf w Hw). destruct s as [|[|] s]; [by apply HP| |by apply HP].
  by destruct (f w) as [w' [a|m]].
Qed.

Lemma world_eta w : with_table (table w) w = w.
Proof. by destruct w. Qed.

Lemma triple_find P j : (∀ w, P w → world_ok w) → triple P (find j) (λ r w, P w ∧ r = table w !! j).
Proof.
  intros HP. apply triple_act; [done|]. intros w Hw. unfold findByJobName. destruct (job_error j); simpl; rewrite world_eta; [by apply HP|done].
Qed.

(** An upsert of a marker that is right. *)
Lemma triple_upsert P i : (∀ w, P w → world_ok w) → u_jobName i = job →
  (∀ w p, P w → rowsProcessed p = u_rowsProcessed i → cursorValue p = u_cursorValue i → status p = u_status i →
     assertValidCursor (cursorValue p) = None → total_error (totalRows p) = None → marker_ok w p) →
  triple P (query (λ now, upsert now i)) (λ p w, (∃ t w0, P w0 ∧ w = with_table t w0) ∧ world_ok w ∧ table w !! job = Some p ∧
    cursorValue p = u_cursorValue i ∧ rowsProcessed p = u_rowsProcessed i ∧ status p = u_status i).
Proof.
  intros HP Hj Hp. apply triple_act; [done|]. intros w Hw. unfold upsert.
  destruct (first_error _) as [m|] eqn:Hm; [simpl; rewrite world_eta; by apply HP|]. simpl.
  assert (Hc : assertValidCursor (u_cursorValue i) = None ∧ total_error (u_totalRows i) = None).
  { apply first_error_none in Hm. by apply Forall_cons in Hm as [_ [? [_ [? _]%Forall_cons]%Forall_cons]%Forall_cons]. }
  destruct Hc as [Hc Ht]. rewrite Hj. split_and!; [by eexists _, _| |apply lookup_insert_eq|done|done|done].
  intros p Hx. simpl in Hx. rewrite lookup_insert_eq in Hx. injection Hx as <-.
  destruct (Hp w {| jobName := job; cursorValue := u_cursorValue i; rowsProcessed := u_rowsProcessed i; totalRows := u_totalRows i;
    status := u_status i; lastError := u_lastError i; metadata := u_metadata i; updatedAt := now w |} Hw) as (? & ? & ? & ? & ?); done.
Qed.

Lemma batch_moves c n ks b : 1 ≤ n → processor c n = Ok (ks, b) →
  after keys (nextCursor b) = drop (Z.to_nat n) (after keys c) ∧ 0 ≤ processedCount b ∧ left_after (nextCursor b) = left_after c - processedCount b ∧
  (∀ k, k ∈ keys → String.ltb (nextCursor b) k = false → String.ltb c k = false ∨ k ∈ ks) ∧
  (done b || (processedCount b =? 0) = true → after keys (nextCursor b) = []) ∧ (processedCount b = 0 ∨ (length (after keys (nextCursor b)) < length (after keys c))%nat).
Proof.
  intros Hn Hp. destruct (batch_exact c n ks b Hn Hp) as (-> & Hc & Hnext & Hd).
  assert (Ha : after keys (nextCursor b) = drop (Z.to_nat n) (after keys c)).
  { destruct (last (take (Z.to_nat n) (after keys c))) as [k|] eqn:El; simpl in Hnext; rewrite Hnext.
    - apply last_Some in El as [pre Hpre]. apply (after_last keys c pre k); [apply keys_sorted|]. rewrite <- (take_drop (Z.to_nat n) (after keys c)) at 1.
      rewrite Hpre. by rewrite <- app_assoc.
    - apply last_None in El. destruct (after keys c) as [|x l]; [by rewrite drop_nil|]. destruct (Z.to_nat n) eqn:En; [lia|done]. }
  assert (Hl : processedCount b + Z.of_nat (length (drop (Z.to_nat n) (after keys c))) = left_after c).
  { rewrite Hc. unfold left_after. rewrite length_take, length_drop. lia. }
  split_and!; [done|lia|unfold left_after at 1; rewrite Ha; lia| | |].
  - intros k Hk Hlt. destruct (String.ltb c k) eqn:Eck; [right|by left]. assert (Hin : k ∈ after keys c) by (by apply list_elem_of_filter).
    rewrite <- (take_drop (Z.to_nat n) (after keys c)) in Hin. apply elem_of_app in Hin as [?|Hin]; [done|]. rewrite <- Ha in Hin.
    apply list_elem_of_filter in Hin as [Hx _]. by rewrite Hx in Hlt.
  - intros Hdone. rewrite Ha. apply drop_ge. apply orb_true_iff in Hdone as [Hdone|Hz]; [specialize (Hd Hdone); lia|].
    apply Z.eqb_eq in Hz. rewrite Hc, length_take in Hz. lia.
  - unfold left_after in Hl. rewrite Ha. lia.
Qed.

Lemma covered_mono c w w' : (∀ k, k ∈ worked w → k ∈ worked w') → covered c w → covered c w'.
Proof. intros Hw Hc k Hk Hlt. by apply Hw, Hc. Qed.

Lemma world_ok_mono w w' : table w' = table w → (∀ k, k ∈ worked w → k ∈ worked w') → world_ok w → world_ok w'.
Proof.
  intros Ht Hw Hok p Hp. rewrite Ht in Hp. destruct (Hok p Hp) as (? & Hc & ?). split; [done|]. split; [by eapply covered_mono|done].
Qed.

Lemma at_start w : covered EmptyString w ∧ left_after EmptyString = Z.of_nat (length keys).
Proof.
  pose proof keys_named as Hk. rewrite Forall_forall in Hk. split.
  - intros k Hin Hlt. destruct k as [|a k]; [by destruct (Hk EmptyString Hin)|done].
  - unfold left_after, after. rewrite filter_every; [done|]. apply Forall_forall. intros k Hin. destruct k; [by destruct (Hk EmptyString Hin)|done].
Qed.

Context (o : ResumableBackfillOptions) (Hjob : o_jobName o = job) (Hsize : 1 ≤ batchSize o) (Hinit : initialCursor o = EmptyString).

Lemma process_triple : triple (λ w, world_ok w ∧ run_ok w) (process processor (batchSize o))
  (λ b w, world_ok w ∧ run_ok w ∧ covered (nextCursor b) w ∧ 0 ≤ processedCount b ∧ left_after (nextCursor b) = left_after (cursor w) - processedCount b ∧
    (done b || (processedCount b =? 0) = true → after keys (nextCursor b) = []) ∧
    (processedCount b = 0 ∨ (length (after keys (nextCursor b)) < length (after keys (cursor w)))%nat)).
Proof.
  apply triple_act; [by intros w [? _]|]. intros w [Hw [Hr Hc]]. destruct (processor (cursor w) (batchSize o)) as [[ks b]|m] eqn:Ep; [|done].
  destruct (batch_moves _ _ _ _ Hsize Ep) as (_ & H0 & Hl & Hk & Hd & Hs). assert (Hsub : ∀ k, k ∈ worked w → k ∈ worked w ++ ks) by (intros; apply elem_of_app; by left).
  split; [by apply (world_ok_mono w)|]. split; [split; [exact Hr|by apply (covered_mono _ w)]|]. split; [|done].
  intros k Hin Hlt. simpl. apply elem_of_app. destruct (Hk k Hin Hlt); [left; by apply Hc|by right].
Qed.

Lemma one_batch_triple n : triple (λ w, world_ok w ∧ run_ok w ∧ (length (after keys (cursor w)) < S n)%nat) (one_batch processor o)
  (λ b w, world_ok w ∧ run_ok w ∧ if done b || (processedCount b =? 0) then after keys (cursor w) = [] else (length (after keys (cursor w)) < n)%nat).
Proof.
  intros w s (Hw & Hr & Hn). unfold one_batch. pose proof (process_triple w s (conj Hw Hr)) as Hp. unfold mbind, io_bind.
  assert (Hcur : cursor ((process processor (batchSize o) w s).1.1) = cursor w).
  { unfold process, act. destruct s as [|[|] s]; [done| |done]. by destruct (processor _ _) as [[]|]. }
  destruct (process processor (batchSize o) w s) as [[w1 s1] [b|m|]]; [|done..]. simpl in Hcur. destruct Hp as (Hw1 & [Hr1 Hc1] & Hc & H0 & Hl & Hd & Hsh).
  rewrite (proj2 (Z.ltb_ge _ _) H0). cbn [get_world set_run set_world]. unfold query, act. destruct s1 as [|[|] s2]; [by apply (world_ok_mono w1)| |by apply (world_ok_mono w1)].
  cbn [table now]. unfold checkpoint. destruct (first_error _) as [m|] eqn:Em; [by apply (world_ok_mono w1)|]. cbn.
  assert (Hv : assertValidCursor (nextCursor b) = None ∧ total_error (or_else (b_totalRows b) (or_else (o_totalRows o) (progress w1 ≫= totalRows))) = None).
  { apply first_error_none in Em. by apply Forall_cons in Em as [_ [? [_ [? _]%Forall_cons]%Forall_cons]%Forall_cons]. }
  assert (Hrow : rows w1 + processedCount b = Z.of_nat (length keys) - left_after (nextCursor b)) by (rewrite Hl, Hr1; lia).
  split_and!; [|split; [done|exact Hc]|].
  - intros p Hpj. simpl in Hpj. rewrite Hjob, lookup_insert_eq in Hpj. injection Hpj as <-. destruct Hv as [Hv1 Hv2]. split_and!; simpl; try done.
    apply total_or_else; [exact Hv2|]. destruct (table w1 !! job) as [q|] eqn:Eq; [|done]. simpl. by destruct (Hw1 q Eq) as (_ & _ & _ & _ & ?).
  - destruct (done b || _) eqn:Ed; [by apply Hd|]. simpl. apply orb_false_iff in Ed as [_ Ez]. apply Z.eqb_neq in Ez. destruct Hsh as [?|Hlt]; [done|]. rewrite Hcur in Hlt. lia.
Qed.

Lemma loop_triple n : triple (λ w, world_ok w ∧ run_ok w ∧ (length (after keys (cursor w)) < n)%nat) (batch_loop processor n o)
  (λ _ w, world_ok w ∧ run_ok w ∧ after keys (cursor w) = []).
Proof.
  induction n as [|n IH]; [intros w s (_ & _ & ?); lia|]. cbn [batch_loop]. eapply triple_bind; [apply one_batch_triple|]. intros b. simpl.
  destruct (done b || _); [by apply triple_ret|apply IH].
Qed.

(** The marker that was found, when the rows worked on are as they were. *)
Definition known (e : option BackfillProgress) (w : world) : Prop := world_ok w ∧ match e with Some p => marker_ok w p | None => True end.

Lemma known_table e t w : known e w → world_ok (with_table t w) → known e (with_table t w).
Proof. intros [_ He] Hw. by split. Qed.

Lemma markRunning_triple e total : triple (known e) (markRunning job total) (λ _, known e).
Proof.
  unfold markRunning. eapply triple_bind; [apply (triple_find (known e)); intros w Hw; apply Hw|]. intros r. simpl.
  eapply triple_conseq; [apply (triple_upsert (λ w, known e w ∧ r = table w !! job))| |]; simpl.
  - by intros w [[? _] _].
  - done.
  - intros w p [[Hw _] ->] Hr Hc Hs Hv Ht. destruct (table w !! job) as [q|] eqn:Eq; simpl in *.
    + destruct (Hw q Eq) as (H1 & H2 & _ & H4 & _). unfold marker_ok. rewrite Hr, Hc, Hs. rewrite Hc in Hv. done.
    + unfold marker_ok. destruct (at_start w) as [Ha Hl]. rewrite Hr, Hc, Hs, Hl. rewrite Hc in Hv. split_and!; [lia|done|done|done|done].
  - done.
  - intros p w [(t & w0 & [Hk _] & ->) (Hw & _)]. by apply known_table.
Qed.

(** At the end of the loop. *)
Definition at_end (c : string) (n : Z) (w : world) : Prop :=
  world_ok w ∧ n = Z.of_nat (length keys) - left_after c ∧ covered c w ∧ after keys c = [] ∧ rows w = n.

Lemma markCompleted_triple c n : triple (at_end c n)
  (markCompleted job c n) (λ p w, world_ok w ∧ table w !! job = Some p ∧ status p = completed ∧ rows w = Z.of_nat (length keys)).
Proof.
  unfold markCompleted. eapply triple_bind; [apply (triple_find (at_end c n)); intros w Hw; apply Hw|]. intros [e|]; simpl.
  - eapply triple_conseq; [apply (triple_upsert (λ w, at_end c n w ∧ Some e = table w !! job))| |]; simpl.
    + intros w [Hw _]. apply Hw.
    + done.
    + intros w p [(_ & Hn & Hc & Ha & _) _] Hr Hcu Hs Hv Ht. unfold marker_ok. rewrite Hr, Hcu, Hs, Hn. rewrite Hcu in Hv. done.
    + done.
    + intros p w ((t & w0 & [(_ & Hn & _ & Ha & Hrow) _] & ->) & Hw & Hp & _ & _ & Hs). split_and!; try done. simpl. rewrite Hrow, Hn. unfold left_after. rewrite Ha. simpl. lia.
  - apply triple_throw. intros w [Hw _]. apply Hw.
Qed.

Lemma markFailed_triple m : triple world_ok (markFailed job m) (λ _ w, world_ok w).
Proof.
  unfold markFailed. eapply triple_bind; [apply (triple_find world_ok); done|]. intros [e|]; simpl.
  - eapply triple_conseq; [apply (triple_upsert (λ w, world_ok w ∧ Some e = table w !! job))| |]; simpl.
    + by intros w [? _].
    + done.
    + intros w p [Hw He] Hr Hc Hs Hv Ht. destruct (Hw e (eq_sym He)) as (H1 & H2 & _). unfold marker_ok. rewrite Hr, Hc, Hs. rewrite Hc in Hv. done.
    + done.
    + by intros p w (_ & Hw & _).
  - apply triple_throw. by intros w [? _].
Qed.

(** Setting variables keeps the rest. *)
Lemma set_progress_triple p (P : world → Prop) : (∀ w w', table w' = table w → worked w' = worked w → cursor w' = cursor w → rows w' = rows w → P w → P w') →
  triple P (set_progress p) (λ _, P).
Proof. intros HP. apply triple_set. intros w. by apply HP. Qed.

Lemma world_ok_same w w' : table w' = table w → worked w' = worked w → world_ok w → world_ok w'.
Proof. intros Ht Hw. apply world_ok_mono; [done|by rewrite Hw]. Qed.

(** What a run reports as completed is completed in the table. *)
Definition reported (r : ResumableBackfillResult) (w : world) : Prop :=
  world_ok w ∧ (r_status r = completed → r_rowsProcessed r = Z.of_nat (length keys) ∧ ∃ p, table w !! job = Some p ∧ status p = completed).

Lemma resume_triple max e : (length keys < max)%nat → triple (known e) (resume processor max o e) reported.
Proof.
  intros Hmax. unfold resume. rewrite Hjob, Hinit. eapply triple_bind; [apply (markRunning_triple e)|]. intros p0. simpl.
  eapply triple_bind; [apply (triple_set (known e) (λ w, world_ok w ∧ run_ok w))|].
  { intros w [Hw He]. split; [by eapply world_ok_same|]. unfold run_ok. simpl. destruct e as [q|]; simpl; [by destruct He as (? & ? & _)|].
    destruct (at_start w) as [Ha Hl]. rewrite Hl. split; [lia|done]. }
  intros ?. simpl. eapply triple_bind; [apply set_progress_triple|].
  { intros w w' Ht Hwk Hc Hr [Hw [H1 H2]]. split; [by eapply world_ok_same|]. unfold run_ok. rewrite Hc, Hr. split; [done|].
    intros k Hin Hlt. rewrite Hwk. by apply H2. }
  intros ?. simpl. apply triple_catch.
  - eapply triple_bind.
    { eapply triple_conseq; [apply (loop_triple max)| |intros ? ? Hx; exact Hx]. intros w [Hw Hr]. split_and!; [done|done|].
      unfold after. pose proof (length_filter (λ k, String.ltb (cursor w) k = true) keys). lia. }
    intros ?. simpl. eapply triple_bind; [apply triple_get|]. intros w0. simpl. eapply triple_bind.
    { eapply triple_conseq; [apply (markCompleted_triple (cursor w0) (rows w0))| |intros ? ? Hx; exact Hx].
      intros w [-> (Hw & [H1 H2] & Ha)]. split_and!; done. }
    intros p. simpl. eapply triple_bind; [apply (set_progress_triple p (λ w, world_ok w ∧ table w !! job = Some p ∧ status p = completed ∧ rows w = Z.of_nat (length keys)))|].
    { intros w w' Ht Hwk _ Hr (Hw & Hp). rewrite Ht, Hr. split; [by eapply world_ok_same|done]. }
    intros ?. simpl. unfold finish. eapply triple_bind; [apply triple_get|]. intros w1. apply triple_ret. simpl. intros w [-> (Hw & Hp & Hst & Hrow)].
    split; [done|]. intros _. simpl. split; [done|by exists p].
  - intros m. eapply triple_bind; [apply triple_catch with (Q := λ _, world_ok)|].
    + eapply triple_bind; [apply markFailed_triple|]. intros p. simpl. apply set_progress_triple. intros w w' Ht Hwk _ _. by eapply world_ok_same.
    + intros m'. by apply triple_ret.
    + intros ?. simpl. unfold finish. eapply triple_bind; [apply triple_get|]. intros w0. apply triple_ret. by intros w [-> Hw].
Qed.

Lemma run_triple max : (length keys < max)%nat → triple world_ok (run_with processor max o) reported.
Proof.
  intros Hmax. unfold run_with. rewrite Hjob. eapply triple_bind; [apply (triple_find world_ok); done|]. intros found. simpl.
  eapply triple_bind with (Q := λ e w, known e w ∧ (forceRestart o = false → e = table w !! job)).
  - destruct (forceRestart o) eqn:Ef; simpl.
    + destruct (bool_decide (is_Some found)).
      * eapply triple_bind; [unfold reset; rewrite Hjob; apply (triple_upsert (λ w, world_ok w ∧ found = table w !! job))|]; simpl.
        -- by intros w [? _].
        -- done.
        -- intros w p _ Hr Hc Hs Hv Ht. rewrite Hinit in Hc. unfold marker_ok. destruct (at_start w) as [Ha Hl]. rewrite Hr, Hc, Hs, Hl. rewrite Hc in Hv. split_and!; [lia|done..].
        -- intros p. apply triple_ret. intros w (_ & Hw & Hp & _). split; [|done]. split; [done|]. by apply Hw.
      * apply triple_ret. intros w [Hw ->]. split; [|done]. split; [done|]. destruct (table w !! job) eqn:E; [by apply Hw|done].
    + apply triple_ret. intros w [Hw ->]. split; [|done]. split; [done|]. destruct (table w !! job) eqn:E; [by apply Hw|done].
  - intros [e|]; simpl.
    + destruct (bool_decide (status e = completed)) eqn:Es; destruct (forceRestart o) eqn:Ef; simpl;
        try (eapply triple_conseq; [by apply (resume_triple max (Some e))|by intros w [? _]|done]).
      apply bool_decide_eq_true in Es. apply triple_ret. intros w [[Hw He] Ht]. split; [done|]. intros _. simpl. destruct He as (Hr & _ & Hend & _).
      rewrite Hr. unfold left_after. rewrite (Hend Es). simpl. split; [lia|]. exists e. by rewrite <- Ht.
    + eapply triple_conseq; [by apply (resume_triple max None)|by intros w [? _]|done].
Qed.

(** ** A run without faults completes *)

Context (Htotal : ∀ c n, 1 ≤ n → ∃ ks b, processor c n = Ok (ks, b) ∧ total_error (b_totalRows b) = None).
Context (Hkeys : Forall (λ k, assertValidCursor k = None) keys) (Hname : job_error job = None) (Hrows : total_error (o_totalRows o) = None).

(** The program returns within [n] steps of the outside world. *)
Definition fine {A} (P : world → Prop) (p : io A) (n : nat) (Q : A → world → Prop) : Prop :=
  ∀ w k, P w → ∃ a w' k', p w (replicate (n + k) Fine) = ((w', replicate k' Fine), Value a) ∧ (k ≤ k')%nat ∧ Q a w'.

Lemma fine_bind {A B} P Q R (p : io A) (f : A → io B) m n : fine P p m Q → (∀ a, fine (Q a) (f a) n R) → fine P (p ≫= f) (m + n) R.
Proof.
  intros Hp Hf w k Hw. rewrite <- Nat.add_assoc. destruct (Hp w (n + k)%nat Hw) as (a & w1 & k1 & E1 & Hk1 & Ha). unfold mbind, io_bind. rewrite E1.
  replace k1 with (n + (k1 - n))%nat by lia. destruct (Hf a w1 (k1 - n)%nat Ha) as (b & w2 & k2 & E2 & Hk2 & Hb). exists b, w2, k2. split_and!; [done|lia|done].
Qed.

Lemma fine_ret {A} (P : world → Prop) (a : A) (Q : A → world → Prop) : (∀ w, P w → Q a w) → fine P (mret a) 0 Q.
Proof. intros HQ w k Hw. exists a, w, k. split_and!; [done|lia|by apply HQ]. Qed.

Lemma fine_act {A} (P : world → Prop) (f : world → world * result string A) Q : (∀ w, P w → ∃ a w', f w = (w', Ok a) ∧ Q a w') → fine P (act f) 1 Q.
Proof. intros Hf w k Hw. destruct (Hf w Hw) as (a & w' & E & Ha). exists a, w', k. simpl. rewrite E. split_and!; [done|lia|done]. Qed.

Lemma fine_set (P Q : world → Prop) f : (∀ w, P w → Q (f w)) → fine P (set_world f) 0 (λ _, Q).
Proof. intros HQ w k Hw. exists tt, (f w), k. split_and!; [done|lia|by apply HQ]. Qed.

Lemma fine_conseq {A} (P P' : world → Prop) (Q Q' : A → world → Prop) p n : fine P' p n Q' → (∀ w, P w → P' w) → (∀ a w, Q' a w → Q a w) → fine P p n Q.
Proof. intros Hp HP HQ w k Hw. destruct (Hp w k (HP w Hw)) as (a & w' & k' & ? & ? & ?). exists a, w', k'. split_and!; [done|done|by apply HQ]. Qed.

Lemma fine_find (P : world → Prop) : fine P (find job) 1 (λ r w, P w ∧ r = table w !! job).
Proof. apply fine_act. intros w Hw. unfold findByJobName. rewrite Hname. eexists _, _. split; [done|]. by rewrite world_eta. Qed.

Definition storable (p : BackfillProgress) : Prop := assertValidCursor (cursorValue p) = None ∧ total_error (totalRows p) = None ∧ 0 ≤ rowsProcessed p.

(** The table has a marker that can be written again. *)
Definition has_marker (w : world) : Prop := ∃ p, table w !! job = Some p ∧ storable p.

Lemma fine_upsert P i : u_jobName i = job → assertValidCursor (u_cursorValue i) = None → 0 ≤ u_rowsProcessed i → total_error (u_totalRows i) = None →
  fine P (query (λ now, upsert now i)) 1 (λ p w, ∃ t w0, P w0 ∧ w = with_table t w0 ∧ has_marker w ∧ total_error (totalRows p) = None).
Proof.
  intros Hj Hc Hr Ht. apply fine_act. intros w Hw. unfold upsert. assert (Hn : assertNonNegative (u_rowsProcessed i) "rowsProcessed" = None).
  { unfold assertNonNegative. by rewrite (proj2 (Z.ltb_ge _ _) Hr). }
  unfold first_error. simpl. rewrite Hj, Hname, Hc, Hn, Ht. simpl. eexists _, _. split; [done|]. eexists _, w. split_and!; [done|done| |done].
  eexists. split; [apply lookup_insert_eq|done].
Qed.

(** Between two batches of a run. *)
Definition ready (w : world) : Prop :=
  run_ok w ∧ assertValidCursor (cursor w) = None ∧ total_error (progress w ≫= totalRows) = None ∧ has_marker w.

Lemma rows_nonneg c : 0 ≤ Z.of_nat (length keys) - left_after c.
Proof. unfold left_after, after. pose proof (length_filter (λ k, String.ltb c k = true) keys). lia. Qed.

Lemma one_batch_fine n : fine (λ w, ready w ∧ (length (after keys (cursor w)) < S n)%nat) (one_batch processor o) 2
  (λ b w, ready w ∧ (done b || (processedCount b =? 0) = false → (length (after keys (cursor w)) < n)%nat)).
Proof.
  intros w k [([Hr Hc] & Hv & Ht & p0 & Hp0 & Hs0) Hn]. destruct (Htotal (cursor w) (batchSize o) Hsize) as (ks & b & Ep & Hb).
  destruct (batch_moves _ _ _ _ Hsize Ep) as (_ & H0 & Hl & Hk & _ & Hsh). destruct (batch_exact _ _ _ _ Hsize Ep) as (Hks & _ & Hnext & _).
  assert (Hvn : assertValidCursor (nextCursor b) = None).
  { rewrite Hnext. destruct (last ks) as [x|] eqn:El; [|done]. simpl. apply last_Some_elem_of in El. rewrite Hks in El. apply elem_of_take in El as (i & Hi & _).
    apply list_elem_of_lookup_2 in Hi. apply list_elem_of_filter in Hi as [_ Hi]. rewrite Forall_forall in Hkeys. by apply Hkeys. }
  assert (Hrow : rows w + processedCount b = Z.of_nat (length keys) - left_after (nextCursor b)) by (rewrite Hl, Hr; lia).
  assert (Htot : total_error (or_else (b_totalRows b) (or_else (o_totalRows o) (progress w ≫= totalRows))) = None) by (by repeat apply total_or_else).
  eexists b, _, k. cbn [replicate plus]. unfold one_batch, mbind, io_bind, process, act. rewrite Ep. rewrite (proj2 (Z.ltb_ge _ _) H0).
  cbn [get_world set_run set_world]. unfold query, act. cbn [table now rows progress batches]. unfold checkpoint, first_error. cbn [c_jobName c_cursorValue c_rowsProcessed c_totalRows].
  assert (Hnn : assertNonNegative (rows w + processedCount b) "rowsProcessed" = None).
  { unfold assertNonNegative. rewrite Hrow. pose proof (rows_nonneg (nextCursor b)). by rewrite (proj2 (Z.ltb_ge _ _)) by lia. }
  unfold mbind in Htot. rewrite Hjob, Hname, Hvn, Hnn, Htot. cbn. split; [reflexivity|]. split; [lia|].
  assert (Hold : total_error (table w !! job ≫= totalRows) = None) by (rewrite Hp0; apply Hs0). split.
  - split_and!; cbn.
    + split; [exact Hrow|]. intros x Hin Hlt. cbn. apply elem_of_app. destruct (Hk x Hin Hlt); [left; by apply Hc|by right].
    + done.
    + by apply total_or_else.
    + eexists. split; [apply lookup_insert_eq|]. split_and!; cbn; [done|by apply total_or_else|]. pose proof (rows_nonneg (nextCursor b)). lia.
  - intros [_ Hz]%orb_false_iff. apply Z.eqb_neq in Hz. cbn. destruct Hsh as [?|Hlt]; [done|]. lia.
Qed.

(** [n] batches are enough, and more are allowed. *)
Lemma loop_fine n m : (n ≤ m)%nat → fine (λ w, ready w ∧ (length (after keys (cursor w)) < n)%nat) (batch_loop processor m o) (2 * n) (λ _, ready).
Proof.
  revert m. induction n as [|n IH]; intros m Hm; [intros w k [_ ?]; lia|]. destruct m as [|m]; [lia|]. replace (2 * S n)%nat with (2 + 2 * n)%nat by lia.
  cbn [batch_loop]. eapply fine_bind; [apply (one_batch_fine n)|]. intros b. simpl. destruct (done b || _) eqn:Ed.
  - intros w k [Hw _]. exists tt, w, (2 * n + k)%nat. split_and!; [done|lia|done].
  - eapply fine_conseq; [apply (IH m); lia| |done]. intros w [Hw Hl]. auto.
Qed.

Lemma world_storable w : world_ok w → match table w !! job with Some p => storable p | None => True end.
Proof.
  intros Hw. destruct (table w !! job) as [p|] eqn:E; [|done]. destruct (Hw p E) as (Hr & _ & _ & Hv & Ht). split_and!; [done|done|].
  rewrite Hr. apply rows_nonneg.
Qed.

Lemma markRunning_fine e total : total_error total = None → fine (known e) (markRunning job total) 2 (λ p w, known e w ∧ has_marker w ∧ total_error (totalRows p) = None).
Proof.
  intros Ht w k Hw. pose proof (markRunning_triple e total w (replicate (2 + k) Fine) Hw) as Htr. revert Htr.
  assert (Hf : fine (known e) (markRunning job total) 2 (λ p w, has_marker w ∧ total_error (totalRows p) = None)).
  { change 2%nat with (1 + 1)%nat. eapply fine_bind; [apply fine_find|]. intros r. simpl. intros w1 k1 [Hw1 ->].
    pose proof (world_storable w1 (proj1 Hw1)) as Hst.
    assert (Hargs : assertValidCursor (from_option cursorValue EmptyString (table w1 !! job)) = None ∧ 0 ≤ from_option rowsProcessed 0 (table w1 !! job) ∧
      total_error (or_else total (table w1 !! job ≫= totalRows)) = None).
    { destruct (table w1 !! job) as [q|]; simpl; [destruct Hst as (? & ? & ?)|]; split_and!; try done; by apply total_or_else. }
    destruct Hargs as (Ha & Hb & Hc).
    destruct (fine_upsert (λ w, w = w1) {| u_jobName := job; u_cursorValue := from_option cursorValue EmptyString (table w1 !! job);
      u_rowsProcessed := from_option rowsProcessed 0 (table w1 !! job); u_totalRows := or_else total (table w1 !! job ≫= totalRows); u_status := running;
      u_lastError := None; u_metadata := from_option metadata "{}" (table w1 !! job) |} eq_refl Ha Hb Hc w1 k1 eq_refl) as (p & w2 & k2 & E & Hk & (t & w0 & -> & -> & Hm & Hp)).
    exists p, (with_table t w1), k2. done. }
  destruct (Hf w k Hw) as (p & w' & k' & -> & Hk & Hm & Hp). intros Htr. exists p, w', k'. done.
Qed.

Lemma markCompleted_fine c n : assertValidCursor c = None → 0 ≤ n → fine has_marker (markCompleted job c n) 2 (λ _ _, True).
Proof.
  intros Hc Hn. change 2%nat with (1 + 1)%nat. eapply fine_bind; [apply fine_find|]. intros r. simpl. intros w k [(p & Hp & Hs) ->]. rewrite Hp.
  destruct Hs as (_ & Ht & _). destruct (fine_upsert (λ _, True) {| u_jobName := job; u_cursorValue := c; u_rowsProcessed := n; u_totalRows := totalRows p;
    u_status := completed; u_lastError := None; u_metadata := metadata p |} eq_refl Hc Hn Ht w k I) as (q & w' & k' & E & Hk & _). by exists q, w', k'.
Qed.

Lemma fine_catch {A} P (p : io A) h n Q : fine P p n Q → fine P (catch p h) n Q.
Proof. intros Hp w k Hw. destruct (Hp w k Hw) as (a & w' & k' & E & ?). exists a, w', k'. unfold catch. by rewrite E. Qed.

Lemma fine_get P : fine P get_world 0 (λ a w, a = w ∧ P w).
Proof. intros w k Hw. exists w, w, k. split; [done|]. split; [lia|done]. Qed.

Lemma resume_fine max e : (length keys < max)%nat → match e with Some p => storable p | None => True end →
  fine (known e) (resume processor max o e) (6 + 2 * length keys) (λ r _, r_status r = completed).
Proof.
  intros Hmax He. replace (6 + 2 * length keys)%nat with (2 + (0 + (0 + (2 * (length keys + 1) + (0 + (2 + (0 + 0)))))))%nat by lia.
  assert (Ht : total_error (or_else (o_totalRows o) (e ≫= totalRows)) = None) by (apply total_or_else; [done|]; destruct e as [p|]; [apply He|done]).
  unfold resume. rewrite Hjob, Hinit. eapply fine_bind; [by apply markRunning_fine|]. intros p. cbn beta.
  eapply fine_bind; [apply (fine_set _ (λ w, run_ok w ∧ assertValidCursor (cursor w) = None ∧ has_marker w ∧ total_error (totalRows p) = None))|].
  { intros w ([_ He1] & Hm & Hp). split; [|split; [destruct e as [q|]; simpl; [apply He|done]|done]]. destruct e as [q|]; simpl in *.
    - destruct He1 as (? & ? & _). by split.
    - destruct (at_start w) as [Ha Hl]. split; [simpl; rewrite Hl; lia|done]. }
  intros []. cbn beta iota. eapply fine_bind; [apply (fine_set _ ready)|].
  { intros w (Hr & Hv & Hm & Hp). by split_and!. }
  intros []. cbn beta iota. apply fine_catch. eapply fine_bind.
  { eapply fine_conseq; [apply (loop_fine (length keys + 1) max); lia| |intros ? ? Hx; exact Hx]. intros w Hw. split; [done|].
    unfold after. pose proof (length_filter (λ k, String.ltb (cursor w) k = true) keys). lia. }
  intros []. cbn beta iota. eapply fine_bind; [apply fine_get|]. intros w1. cbn beta. eapply fine_bind.
  { intros w k [-> ([Hrow _] & Hv & _ & Hm)]. apply (markCompleted_fine (cursor w) (rows w)); [done| |done]. rewrite Hrow. apply rows_nonneg. }
  intros q. cbn beta. eapply fine_bind; [by apply (fine_set _ (λ _, True))|]. intros []. cbn beta iota. unfold finish.
  change 0%nat with (0 + 0)%nat. eapply fine_bind; [apply fine_get|]. intros w2. by apply fine_ret.
Qed.

Lemma run_fine max : (length keys < max)%nat → fine world_ok (run_with processor max o) (8 + 2 * length keys) (λ r _, r_status r = completed).
Proof.
  intros Hmax. unfold run_with. rewrite Hjob. replace (8 + 2 * length keys)%nat with (1 + (1 + (6 + 2 * length keys)))%nat by lia.
  eapply fine_bind; [apply fine_find|]. intros found. cbn beta.
  eapply (fine_bind _ (λ e w, known e w ∧ match e with Some p => storable p | None => True end)).
  - destruct (forceRestart o && bool_decide (is_Some found)).
    + change 1%nat with (1 + 0)%nat. eapply fine_bind; [|intros p; apply fine_ret; intros w Hw; exact Hw]. cbn beta. unfold reset. rewrite Hjob, Hinit.
      intros w k [Hw _]. assert (Hv : assertValidCursor EmptyString = None) by done. set (i := {| u_jobName := job |}).
      destruct (fine_upsert (λ x, x = w) i eq_refl Hv ltac:(simpl; lia) Hrows w k eq_refl) as (p & w' & k' & E & Hk & _).
      assert (Hup : triple world_ok (query (λ now, upsert now i)) (λ p w, world_ok w ∧ table w !! job = Some p)).
      { eapply triple_conseq; [apply (triple_upsert world_ok i); [done|done|]|done|by intros q x (_ & ? & ? & _)]. simpl. intros x q _ Hr Hc Hs Hvq Htq.
        unfold marker_ok. destruct (at_start x) as [Ha Hl]. rewrite Hr, Hc, Hs, Hl. rewrite Hc in Hvq. split_and!; [lia|done..]. }
      specialize (Hup w (replicate (1 + k) Fine) Hw). rewrite E in Hup. destruct Hup as [Hw' Hp]. exists p, w', k'. split; [exact E|]. split; [done|].
      pose proof (world_storable w' Hw') as Hst. rewrite Hp in Hst. split; [split; [done|by apply Hw']|done].
    + intros w k [Hw ->]. exists (table w !! job), w, (1 + k)%nat. split; [done|]. split; [lia|]. split; [|by apply world_storable]. split; [done|].
      destruct (table w !! job) eqn:E; [by apply Hw|done].
  - intros [e|]; cbn beta iota; [destruct (_ && _)|]; [|intros w k [Hw He]; by apply (resume_fine max (Some e) Hmax He w k Hw)|intros w k [Hw He]; by apply (resume_fine max None Hmax He w k Hw)].
    intros w k Hw. eexists _, w, (6 + 2 * length keys + k)%nat. split; [done|]. split; [lia|done].
Qed.
End Safety.

(** ** Runs after runs *)

Definition no_world : world := {| table := ∅; worked := []; now := 0; cursor := EmptyString; rows := 0; batches := 0; progress := None |}.

(** One run after the other, each with its options and its script. *)
Definition runs (processor : string → Z → result string (list string * BackfillBatchResult)) (l : list (ResumableBackfillOptions * list fate)) (w : world) : world :=
  foldl (λ w x, (run processor x.1 w x.2).1.1) w l.

(** The options of the runs of a job: what they may not change. *)
Definition of_job (job : string) (o : ResumableBackfillOptions) : Prop :=
  o_jobName o = job ∧ 1 ≤ batchSize o ∧ initialCursor o = EmptyString ∧ total_error (o_totalRows o) = None.

(** C15. A job over fewer than 10,000,000 keys (as many batches as a run may take),
    whose runs give no initial cursor, a batch size of at least one and a valid
    total, with a processor that works through the keys in their order. It is run
    again and again, restarted or not, with statements and batches that fail and
    crashes anywhere: the marker never says more than what was done. Every key up
    to its cursor was worked on, it counts exactly these, and when it says
    completed, or a run reports so, every key was worked on and counted once. And
    for a valid job name and valid keys, with a processor that answers, the next
    run without faults always completes, within twice the number of keys and eight
    steps. Both conditions on the job are needed: [initial_cursor_lost] and
    [cap_reports_completed] show what happens without them. *)
Theorem backfill_resumes keys processor `{KeysetProcessor keys processor} job (l : list (ResumableBackfillOptions * list fate)) :
  Forall (λ x, of_job job x.1) l → (length keys < N.to_nat MAX_BATCHES)%nat →
  let w := runs processor l no_world in
  (∀ p, table w !! job = Some p →
     rowsProcessed p = Z.of_nat (length keys) - Z.of_nat (length (after keys (cursorValue p))) ∧
     (∀ k, k ∈ keys → String.ltb (cursorValue p) k = false → k ∈ worked w) ∧
     (status p = completed → rowsProcessed p = Z.of_nat (length keys) ∧ ∀ k, k ∈ keys → k ∈ worked w)) ∧
  ∀ o extra, of_job job o → assertValidJobName job = true → Forall (λ k, assertValidCursor k = None) keys →
    (∀ c n, 1 ≤ n → ∃ ks b, processor c n = Ok (ks, b) ∧ total_error (b_totalRows b) = None) →
    ∃ w' s' r, run processor o w (replicate (8 + 2 * length keys + extra) Fine) = ((w', s'), Value r) ∧
      r_status r = completed ∧ r_rowsProcessed r = Z.of_nat (length keys) ∧ ∀ k, k ∈ keys → k ∈ worked w'.
Proof.
  intros Hl Hmax w. assert (Hall : ∀ (x : world) p, world_ok (keys := keys) job x → table x !! job = Some p → status p = completed → ∀ k, k ∈ keys → k ∈ worked x).
  { intros x p Hx Hp Hs k Hk. destruct (Hx p Hp) as (_ & Hc & He & _). apply Hc; [done|]. destruct (String.ltb (cursorValue p) k) eqn:E; [|done].
    assert (Hin : k ∈ after keys (cursorValue p)) by (by apply list_elem_of_filter). rewrite (He Hs) in Hin. by apply not_elem_of_nil in Hin. }
  assert (Hw : world_ok (keys := keys) job w).
  { subst w. assert (H0 : world_ok (keys := keys) job no_world) by (intros p Hp; cbn in Hp; by rewrite lookup_empty in Hp). revert H0. generalize no_world.
    induction Hl as [|[o s] l (Hj & Hn & Hi & _) _ IH]; intros x Hx; simpl; [done|]. apply IH.
    pose proof (run_triple job o Hj Hn Hi (N.to_nat MAX_BATCHES) Hmax x s Hx) as Hr. unfold run. simpl.
    destruct (run_with processor (N.to_nat MAX_BATCHES) o x s) as [[x' s'] [r|m|]]; [apply Hr|done..]. }
  split.
  - intros p Hp. destruct (Hw p Hp) as (H1 & H2 & H3 & _). split_and!; [done|done|]. intros Hs. split; [|by apply (Hall w p)].
    rewrite H1. unfold left_after. rewrite (H3 Hs). simpl. lia.
  - intros o extra (Hj & Hn & Hi & Ht) Hname Hkeys Htot. assert (Hje : job_error job = None) by (unfold job_error; by rewrite Hname).
    destruct (run_fine job o Hj Hn Hi Htot Hkeys Hje Ht (N.to_nat MAX_BATCHES) Hmax w extra Hw) as (r & w' & k' & E & _ & Hs).
    pose proof (run_triple job o Hj Hn Hi (N.to_nat MAX_BATCHES) Hmax w (replicate (8 + 2 * length keys + extra) Fine) Hw) as Htr. rewrite E in Htr.
    destruct Htr as [Hw' Hrep]. destruct (Hrep Hs) as [Hrows (p & Hp & Hps)]. exists w', (replicate k' Fine), r. split_and!; [exact E|done|done|by apply (Hall w' p)].
Qed.

Module BackfillExample.

Definition users : list string := ["u1"; "u2"; "u3"; "u4"; "u5"].

(** Five rows, by their keys. *)
Definition by_key (c : string) (n : Z) : result string (list string * BackfillBatchResult) :=
  let ks := take (Z.to_nat n) (after users c) in
  Ok (ks, {| nextCursor := default c (last ks); processedCount := Z.of_nat (length ks); done := bool_decide (Z.of_nat (length (after users c)) ≤ n);
             b_totalRows := Some 5; b_metadata := None |}).

#[export] Instance by_key_keyset : KeysetProcessor users by_key.
Proof.
  constructor.
  - repeat constructor.
  - by repeat constructor.
  - intros c n ks b Hn [= <- <-]. split_and!; [done|done|done|]. simpl. by intros ?%bool_decide_eq_true.
Qed.

Definition options : ResumableBackfillOptions := {| o_jobName := "users"; batchSize := 2; o_totalRows := None; initialCursor := EmptyString; forceRestart := false |}.

(** The process dies after its second batch and before the checkpoint of it. *)
Definition crash : list fate := [Fine; Fine; Fine; Fine; Fine; Fine].

Lemma backfill_resumes_witness :
  let w := (run_with by_key 10 options no_world crash).1.1 in
  (worked w = ["u1"; "u2"; "u3"; "u4"] ∧ (rowsProcessed <$> table w !! "users") = Some 2) ∧
  ∃ w' s' r, run by_key options (runs by_key [] no_world) (replicate (8 + 2 * 5 + 0) Fine) = ((w', s'), Value r) ∧
    r_status r = completed ∧ r_rowsProcessed r = 5 ∧ ∀ k, k ∈ users → k ∈ worked w'.
Proof.
  intros w. split; [by vm_compute|]. refine (proj2 (backfill_resumes users by_key "users" [] _ _) options 0%nat _ _ _ _).
  - constructor.
  - simpl length. unfold MAX_BATCHES. lia.
  - by repeat split.
  - by vm_compute.
  - by repeat constructor.
  - intros c n _. by eexists _, _.
Defined.

(** A start cursor is forgotten when the process dies before the first
    checkpoint: the marker is created with the empty cursor. *)
Definition from_u3 : ResumableBackfillOptions := {| o_jobName := "users"; batchSize := 2; o_totalRows := None; initialCursor := "u3"; forceRestart := false |}.

Example initial_cursor_lost :
  worked (run_with by_key 10 from_u3 no_world (replicate 20 Fine)).1.1 = ["u4"; "u5"] ∧
  let w := (run_with by_key 10 from_u3 no_world [Fine; Fine; Fine]).1.1 in
  worked (run_with by_key 10 from_u3 w (replicate 20 Fine)).1.1 = users.
Proof. by vm_compute. Qed.

(** At the cap of batches a job that is not done is marked completed. *)
Example cap_reports_completed :
  let r := run_with by_key 1 options no_world (replicate 20 Fine) in
  (status <$> table r.1.1 !! "users") = Some completed ∧ worked r.1.1 = ["u1"; "u2"].
Proof. by vm_compute. Qed.
End BackfillExample.
