(* ===== verification/Evidence.v ===== *)
(** * Evidence: envelope encryption, legal holds, crypto-shredding, key rotation

    [services/evidence/storage.ts], [services/evidence/erasureProof.ts] and
    [jobs/keyRotationWorker.ts]. The records of [evidenceDB] are objects that the
    methods mutate in place and the map never loses one, so they are the entries
    of the map. Only [cryptoShredEvidence] waits between reading a record and
    changing it: its two halves are separate operations, and other operations
    run in between. Strings stand for their UTF-8 bytes; the random bytes an
    upload draws are arguments of it. AES-256-GCM is a class with the documented
    behaviour of [node:crypto]; the keys are those of [Kek] and the signatures
    those of [KeyManager]. *)

From stdpp Require Import base option list strings relations.
From Stdlib Require Import ZArith Lia Ascii.
From S2P Require Import Prelude JsLib StateTransition KeyManager Kek Webhooks.

Open Scope Z_scope.

(** ** Buffers *)

(** The bytes of a string, and the string of the bytes. *)
Fixpoint utf8 (s : string) : list Z :=
  match s with EmptyString => [] | String c s' => code c :: utf8 s' end.

Fixpoint utf8_string (l : list Z) : string :=
  match l with [] => EmptyString | x :: l' => String (ascii_of_N (Z.to_N x)) (utf8_string l') end.

Definition hexDigit (n : Z) : ascii := ascii_of_N (Z.to_N (if n <? 10 then 48 + n else 87 + n)).

(** [buffer.toString('hex')]; [fromHex] is [Buffer.from(s, 'hex')]. *)
Fixpoint toHex (l : list Z) : string :=
  match l with
  | [] => EmptyString
  | x :: l' => String (hexDigit (x / 16)) (String (hexDigit (x mod 16)) (toHex l'))
  end.

Definition fromHex (s : string) : list Z := Admission.hex_bytes s.

Definition is_byte (x : Z) : Prop := 0 ≤ x < 256.

(** ** AES-256-GCM *)

(** What [node:crypto] provides: encryption of a text with a key and an IV gives
    the ciphertext and the tag; decryption fails on anything the key did not
    authenticate. *)
Class AesGcm := {
  gcm_encrypt : list Z → list Z → list Z → list Z * list Z;             (* key, iv, text *)
  gcm_decrypt : list Z → list Z → list Z → list Z → option (list Z);    (* key, iv, tag, ciphertext *)
  gcm_bytes k i p : Forall is_byte (gcm_encrypt k i p).1 ∧ Forall is_byte (gcm_encrypt k i p).2;
  gcm_decrypt_bytes k i t c p : gcm_decrypt k i t c = Some p → Forall is_byte p;
  gcm_roundtrip k i p : Forall is_byte p →
    gcm_decrypt k i (gcm_encrypt k i p).2 (gcm_encrypt k i p).1 = Some p
}.

(** ** Data *)

Inductive Role := USER | ARBITRATOR | GOVERNANCE.
#[export] Instance Role_eq_dec : EqDecision Role.
Proof. solve_decision. Defined.

Record EvidenceRecord := {
  evidence_id : string;
  encryptedBlob : string;
  iv : string;
  authTag : string;
  wrappedDek : string;
  wrappedDekIv : string;
  wrappedDekAuthTag : string;
  uploaderId : string;
  tenantId : string;
  createdAt : Z;
  kek_version : Z;
  deletedAt : option Z;
  legalHold : bool;
  shreddedAt : option Z
}.

Record ErasureProofPayload := {
  p_evidence_id : string;
  p_erased_at : Z;
  p_nonce : string;
  p_tenant_id : string;
  p_actor_id : string
}.

Record ErasureProof := {
  pf_evidence_id : string;
  signedProofJwt : string;
  pf_payload : ErasureProofPayload;
  pf_createdAt : Z
}.

Inductive ev_error :=
| BadEvidenceKey                 (* EVIDENCE_ENCRYPTION_KEY must be exactly 32 bytes long *)
| InvalidId
| AlreadyExists
| NotFound
| Shredded
| OnLegalHold
| Unauthorized
| InvalidKeyLength               (* createCipheriv, createDecipheriv *)
| DecryptionFailed               (* final() of a decipher *)
| SigningFailed (e : key_error)
| AuditFailed.                   (* the audit log refused the entry *)

(** The EVIDENCE_SHREDDED entry of the audit log. *)
Record ShredAudit := {
  a_tenantId : string;
  a_actorId : string;
  a_actorEmail : string;
  a_resourceId : string;
  a_proofJwt : string;
  a_shreddedAt : Z
}.

(** A call of [cryptoShredEvidence] that waits for its signature. *)
Record pending_shred := { ps_id : string; ps_actor : string; ps_jwt : string }.

Record ev_state := {
  evidenceDB : jsmap string EvidenceRecord;
  keks : kek_manager;
  signer : manager;
  shredding : list pending_shred;
  audit : list ShredAudit
}.

Definition set_db (d : jsmap string EvidenceRecord) (s : ev_state) : ev_state :=
  {| evidenceDB := d; keks := keks s; signer := signer s; shredding := shredding s; audit := audit s |}.

Definition set_keks (m : kek_manager) (s : ev_state) : ev_state :=
  {| evidenceDB := evidenceDB s; keks := m; signer := signer s; shredding := shredding s; audit := audit s |}.

Definition set_signer (m : manager) (s : ev_state) : ev_state :=
  {| evidenceDB := evidenceDB s; keks := keks s; signer := m; shredding := shredding s; audit := audit s |}.

Definition set_shredding (l : list pending_shred) (s : ev_state) : ev_state :=
  {| evidenceDB := evidenceDB s; keks := keks s; signer := signer s; shredding := l; audit := audit s |}.

Definition add_audit (a : ShredAudit) (s : ev_state) : ev_state :=
  {| evidenceDB := evidenceDB s; keks := keks s; signer := signer s; shredding := shredding s;
     audit := audit s ++ [a] |}.

(** ** The storage service *)

Section Storage.
Context {GCM : AesGcm} {JOSE : Jose ErasureProofPayload}.
(** [process.env.EVIDENCE_ENCRYPTION_KEY], and whether an audit log was given to
    the constructor. *)
Variable EVIDENCE_ENCRYPTION_KEY : option string.
Variable auditLogService : bool.

Definition secretKey : result ev_error (list Z) :=
  match EVIDENCE_ENCRYPTION_KEY with
  | None => Err BadEvidenceKey
  | Some secret =>
      if Z.of_nat (length (utf8 secret)) =? 32 then Ok (utf8 secret) else Err BadEvidenceKey
  end.

(** The constructor. *)
Definition new_EvidenceStorageService (m : kek_manager) : result ev_error () :=
  if (length (versions m) =? 0)%nat then _ ← secretKey; Ok () else Ok ().

Definition getKey (v : Z) (m : kek_manager) : result ev_error (list Z) :=
  match getVersion v m with Ok k => Ok (keyMaterial k) | Err _ => secretKey end.

Definition getCurrentKey (m : kek_manager) : result ev_error (list Z * Z) :=
  match getCurrentKek m with
  | Ok k => Ok (keyMaterial k, version k)
  | Err _ => k ← secretKey; Ok (k, 1)
  end.

Definition validateId (id : string) : result ev_error () :=
  throw_if (String.eqb id EmptyString || String.eqb (trim id) EmptyString ||
            negb (str_forallb (λ c, negb (is_space c)) id)) InvalidId.

(** A cipher or a decipher from its creation to [final]. *)
Definition encrypt (key i text : list Z) : result ev_error (list Z * list Z) :=
  _ ← throw_if (negb (Z.of_nat (length key) =? 32)) InvalidKeyLength;
  Ok (gcm_encrypt key i text).

Definition decrypt (key i tag ciphertext : list Z) : result ev_error (list Z) :=
  _ ← throw_if (negb (Z.of_nat (length key) =? 32)) InvalidKeyLength;
  match gcm_decrypt key i tag ciphertext with Some t => Ok t | None => Err DecryptionFailed end.

(** The random bytes of an upload. *)
Record draws := { dek : list Z; dataIv : list Z; wrapIv : list Z }.

Definition seal_record (id rawData uploader tenant : string) (d : draws) (now : Z) (m : kek_manager)
  : result ev_error EvidenceRecord :=
  enc ← encrypt (dek d) (dataIv d) (utf8 rawData);
  kv ← getCurrentKey m;
  wrapped ← encrypt kv.1 (wrapIv d) (utf8 (toHex (dek d)));
  Ok {| evidence_id := id; encryptedBlob := toHex enc.1; iv := toHex (dataIv d); authTag := toHex enc.2;
        wrappedDek := toHex wrapped.1; wrappedDekIv := toHex (wrapIv d);
        wrappedDekAuthTag := toHex wrapped.2;
        uploaderId := uploader; tenantId := tenant; createdAt := now; kek_version := kv.2;
        deletedAt := None; legalHold := false; shreddedAt := None |}.

Definition uploadEvidence (id rawData uploader tenant : string) (d : draws) (now : Z) (s : ev_state)
  : ev_state * result ev_error EvidenceRecord :=
  match
    (_ ← validateId id;
     _ ← throw_if (isSome (jm_get id (evidenceDB s))) AlreadyExists;
     seal_record id rawData uploader tenant d now (keks s))
  with
  | Ok record => (set_db (jm_set id record (evidenceDB s)) s, Ok record)
  | Err e => (s, Err e)
  end.

(** The two decryptions of [retrieveEvidence]. *)
Definition open_record (kek : list Z) (record : EvidenceRecord) : result ev_error string :=
  dekHex ← decrypt kek (fromHex (wrappedDekIv record)) (fromHex (wrappedDekAuthTag record))
             (fromHex (wrappedDek record));
  decrypted ← decrypt (fromHex (utf8_string dekHex)) (fromHex (iv record))
                (fromHex (authTag record)) (fromHex (encryptedBlob record));
  Ok (utf8_string decrypted).

Definition enforceAccessControl (role : Role) : result ev_error () :=
  throw_if (negb (bool_decide (role ∈ [ARBITRATOR; GOVERNANCE]))) Unauthorized.

Definition getRecord (id : string) (s : ev_state) : result ev_error EvidenceRecord :=
  match jm_get id (evidenceDB s) with Some r => Ok r | None => Err NotFound end.

Definition retrieveEvidence (id : string) (role : Role) (s : ev_state) : result ev_error string :=
  _ ← validateId id;
  _ ← enforceAccessControl role;
  record ← getRecord id s;
  _ ← throw_if (isSome (shreddedAt record)) Shredded;
  kek ← getKey (kek_version record) (keks s);
  open_record kek record.

Definition with_deletedAt (t : option Z) (r : EvidenceRecord) : EvidenceRecord :=
  {| evidence_id := evidence_id r; encryptedBlob := encryptedBlob r; iv := iv r; authTag := authTag r;
     wrappedDek := wrappedDek r; wrappedDekIv := wrappedDekIv r;
     wrappedDekAuthTag := wrappedDekAuthTag r; uploaderId := uploaderId r; tenantId := tenantId r;
     createdAt := createdAt r; kek_version := kek_version r; deletedAt := t;
     legalHold := legalHold r; shreddedAt := shreddedAt r |}.

Definition with_legalHold (b : bool) (r : EvidenceRecord) : EvidenceRecord :=
  {| evidence_id := evidence_id r; encryptedBlob := encryptedBlob r; iv := iv r; authTag := authTag r;
     wrappedDek := wrappedDek r; wrappedDekIv := wrappedDekIv r;
     wrappedDekAuthTag := wrappedDekAuthTag r; uploaderId := uploaderId r; tenantId := tenantId r;
     createdAt := createdAt r; kek_version := kek_version r; deletedAt := deletedAt r;
     legalHold := b; shreddedAt := shreddedAt r |}.

(** The assignments of [cryptoShredEvidence]. *)
Definition shredded (now : Z) (r : EvidenceRecord) : EvidenceRecord :=
  {| evidence_id := evidence_id r; encryptedBlob := EmptyString; iv := EmptyString;
     authTag := EmptyString; wrappedDek := EmptyString; wrappedDekIv := EmptyString;
     wrappedDekAuthTag := EmptyString; uploaderId := uploaderId r; tenantId := tenantId r;
     createdAt := createdAt r; kek_version := kek_version r; deletedAt := deletedAt r;
     legalHold := legalHold r; shreddedAt := Some now |}.

(** [record.field = ...] on the record of [evidenceDB]. *)
Definition mutate (id : string) (f : EvidenceRecord → EvidenceRecord) (s : ev_state)
  : ev_state * result ev_error () :=
  match (_ ← validateId id; getRecord id s) with
  | Ok r => (set_db (jm_set id (f r) (evidenceDB s)) s, Ok ())
  | Err e => (s, Err e)
  end.

Definition softDeleteEvidence (id : string) (now : Z) : ev_state → ev_state * result ev_error () :=
  mutate id (with_deletedAt (Some now)).

Definition setLegalHold (id : string) (hold : bool) : ev_state → ev_state * result ev_error () :=
  mutate id (with_legalHold hold).

Definition isOnLegalHold (id : string) (s : ev_state) : result ev_error bool :=
  _ ← validateId id; r ← getRecord id s; Ok (legalHold r).

Definition isShredded (id : string) (s : ev_state) : result ev_error bool :=
  _ ← validateId id; r ← getRecord id s; Ok (isSome (shreddedAt r)).

Definition getErasureProofJwt (id : string) (s : ev_state) : result ev_error (option string) :=
  _ ← validateId id;
  match jm_get id (evidenceDB s) with
  | None => Ok None
  | Some r => if negb (isSome (shreddedAt r)) then Ok None else Ok None
  end.

Definition PROOF_EXPIRY : string := "100y".

(** The signature with the key that is active at the call; the date and the
    nonce are drawn by it. *)
Definition createSignedErasureProof (id tenant actor nonce : string) (now : Z) (s : ev_state)
  : result ev_error (ErasureProof * string) :=
  let payload := {| p_evidence_id := id; p_erased_at := now; p_nonce := nonce; p_tenant_id := tenant;
                    p_actor_id := actor |} in
  match signToken payload PROOF_EXPIRY now (signer s) with
  | Ok jwt => Ok ({| pf_evidence_id := id; signedProofJwt := jwt; pf_payload := payload;
                     pf_createdAt := now |}, jwt)
  | Err e => Err (SigningFailed e)
  end.

(** [cryptoShredEvidence] up to the signature: a refusal, a fresh proof of what
    is shredded already, or a call that waits. *)
Inductive shred_reply :=
| Refused (e : ev_error)
| Proof (jwt : string)
| Waiting.

Definition shred_begin (id actor nonce : string) (now : Z) (s : ev_state) : ev_state * shred_reply :=
  match
    (_ ← validateId id;
     record ← getRecord id s;
     _ ← throw_if (legalHold record) OnLegalHold;
     proof ← createSignedErasureProof id (tenantId record) actor nonce now s;
     Ok (record, proof.2))
  with
  | Err e => (s, Refused e)
  | Ok (record, jwt) =>
      if isSome (shreddedAt record) then (s, Proof jwt) else
      (set_shredding (shredding s ++ [{| ps_id := id; ps_actor := actor; ps_jwt := jwt |}]) s, Waiting)
  end.

(** The rest of the call: the record object is changed and the audit entry
    written; [written] says whether the audit log took it. *)
Definition shred_finish (p : pending_shred) (now : Z) (written : bool) (s : ev_state) : ev_state :=
  match jm_get (ps_id p) (evidenceDB s) with
  | None => s
  | Some record =>
      let s1 := set_db (jm_set (ps_id p) (shredded now record) (evidenceDB s)) s in
      if auditLogService && written then
        add_audit {| a_tenantId := tenantId record; a_actorId := ps_actor p;
                     a_actorEmail := ps_actor p +:+ "@system.internal"; a_resourceId := ps_id p;
                     a_proofJwt := ps_jwt p; a_shreddedAt := now |} s1
      else s1
  end.

(** The whole call, when nothing else runs while it waits. *)
Definition cryptoShredEvidence (id actor nonce : string) (now : Z) (written : bool) (s : ev_state)
  : ev_state * result ev_error string :=
  match shred_begin id actor nonce now s with
  | (s1, Refused e) => (s1, Err e)
  | (s1, Proof jwt) => (s1, Ok jwt)
  | (s1, Waiting) =>
      match last (shredding s1) with
      | None => (s1, Err NotFound)
      | Some p =>
          (shred_finish p now written (set_shredding (shredding s) s1),
           if auditLogService && negb written then Err AuditFailed else Ok (ps_jwt p))
      end
  end.

Definition MS_PER_DAY : Z := 24 * 60 * 60 * 1000.

Definition is_expired (ttlDays now : Z) (r : EvidenceRecord) : bool :=
  (createdAt r <? now - ttlDays * MS_PER_DAY) && negb (legalHold r) &&
  negb (isSome (shreddedAt r)) && negb (isSome (deletedAt r)).

Definition getExpiredEvidenceIds (ttlDays now : Z) (s : ev_state) : list string :=
  if ttlDays <=? 0 then [] else
  (filter (λ e, is_expired ttlDays now e.2 = true) (evidenceDB s)).*1.

(** ** Everything that can happen *)

Inductive ev_op :=
| Upload (id rawData uploader tenant : string) (d : draws) (now : Z)
| SoftDelete (id : string) (now : Z)
| SetLegalHold (id : string) (hold : bool)
| ShredBegin (id actor nonce : string) (now : Z)
| ShredFinish (call : nat) (now : Z) (written : bool)
| ShredRejected (call : nat)                               (* the signature fails after all *)
| RegisterKek (now : Z) (material : list Z)
| ApproveKek (v : Z) (by_ : string) (now : Z)
| ActivateKek (v now : Z)
| ZeroizeRetired (now : Z)
| SigningKeys (m : manager).                               (* the signing keys rotate *)

Definition run_op (o : ev_op) (s : ev_state) : ev_state :=
  match o with
  | Upload id rawData uploader tenant d now => (uploadEvidence id rawData uploader tenant d now s).1
  | SoftDelete id now => (softDeleteEvidence id now s).1
  | SetLegalHold id hold => (setLegalHold id hold s).1
  | ShredBegin id actor nonce now => (shred_begin id actor nonce now s).1
  | ShredFinish call now written =>
      match shredding s !! call with
      | Some p => shred_finish p now written (set_shredding (delete call (shredding s)) s)
      | None => s
      end
  | ShredRejected call => set_shredding (delete call (shredding s)) s
  | RegisterKek now material => set_keks (registerVersion now material (keks s)).1 s
  | ApproveKek v by_ now => set_keks (approveActivation v by_ now (keks s)).1 s
  | ActivateKek v now => set_keks (activateVersion v now (keks s)).1 s
  | ZeroizeRetired now => set_keks (zeroizeRetired now (keks s)).1 s
  | SigningKeys m => set_signer m s
  end.

Definition run_ops (os : list ev_op) (s : ev_state) : ev_state := foldl (λ s o, run_op o s) s os.
End Storage.

(** ** Buffers and hexadecimal text *)

Lemma utf8_bytes s : Forall is_byte (utf8 s).
Proof.
  induction s as [|c s IH]; constructor; [|done]. unfold is_byte, code.
  pose proof (N_ascii_bounded c). lia.
Qed.

Lemma utf8_roundtrip s : utf8_string (utf8 s) = s.
Proof.
  induction s as [|c s IH]; simpl; [done|]. unfold code. by rewrite N2Z.id, ascii_N_embedding, IH.
Qed.

Lemma hexDigit_val n : 0 ≤ n < 16 → hex_val (hexDigit n) = Some n.
Proof.
  intros H. assert (∃ i, n = Z.of_nat i ∧ (i < 16)%nat) as (i & -> & Hi) by (exists (Z.to_nat n); lia).
  do 16 (destruct i as [|i]; [reflexivity|]). lia.
Qed.

Lemma toHex_roundtrip l : Forall is_byte l → fromHex (toHex l) = l.
Proof.
  unfold fromHex. induction 1 as [|x l Hx Hl IH]; [done|]. cbn [toHex Admission.hex_bytes].
  unfold is_byte in Hx. pose proof (Z.mod_pos_bound x 16). pose proof (Z.div_mod x 16).
  rewrite !hexDigit_val, IH by (split; [apply Z.div_pos|apply Z.div_lt_upper_bound]; lia) || lia.
  f_equal. lia.
Qed.

(** ** What is stored can be read back *)

Section Lifecycle.
Context {GCM : AesGcm} {JOSE : Jose ErasureProofPayload}.
Variable env : option string.
Variable audited : bool.

Definition draws_ok (d : draws) : Prop :=
  length (dek d) = 32%nat ∧ Forall is_byte (dek d) ∧ Forall is_byte (dataIv d) ∧ Forall is_byte (wrapIv d).

Lemma open_sealed id raw uploader tenant d now m r : draws_ok d →
  seal_record env id raw uploader tenant d now m = Ok r →
  ∃ key, Evidence.getCurrentKey env m = Ok (key, kek_version r) ∧ open_record key r = Ok raw ∧
    shreddedAt r = None ∧ evidence_id r = id ∧ tenantId r = tenant.
Proof.
  intros (Hlen & Hd & Hi & Hw) Hseal. unfold seal_record, encrypt in Hseal. invert_result.
  match goal with Hk : Evidence.getCurrentKey _ _ = Ok ?kv |- _ => destruct kv as [key v]; simpl in * end.
  exists key. split_and!; [done| |done..].
  unfold open_record, decrypt; cbn [wrappedDekIv wrappedDekAuthTag wrappedDek iv authTag encryptedBlob].
  repeat match goal with |- context [fromHex (toHex (?f (gcm_encrypt ?k ?i ?p)))] =>
    rewrite (toHex_roundtrip (f (gcm_encrypt k i p))) by apply gcm_bytes end.
  rewrite !toHex_roundtrip by done.
  match goal with Hk : negb (Z.of_nat (length key) =? 32) = false |- _ => rewrite Hk; simpl end.
  rewrite gcm_roundtrip by apply utf8_bytes. simpl.
  rewrite utf8_roundtrip, toHex_roundtrip by done. rewrite Hlen. simpl.
  rewrite gcm_roundtrip by apply utf8_bytes. simpl. by rewrite utf8_roundtrip.
Qed.

(** ** What an operation can do to a record *)

Definition sealed_of (r : EvidenceRecord) : list string :=
  [encryptedBlob r; iv r; authTag r; wrappedDek r; wrappedDekIv r; wrappedDekAuthTag r].

Definition meta_of (r : EvidenceRecord) :=
  (evidence_id r, uploaderId r, tenantId r, createdAt r, kek_version r).

Definition erased : list string := replicate 6 EmptyString.

(** Nothing but the marks changes, or the record is shredded and erased. *)
Definition evolves (r r' : EvidenceRecord) : Prop :=
  meta_of r' = meta_of r ∧
  ((shreddedAt r' = shreddedAt r ∧ sealed_of r' = sealed_of r) ∨
   (is_Some (shreddedAt r') ∧ sealed_of r' = erased)).

#[local] Instance evolves_preorder : PreOrder evolves.
Proof.
  split; [intros r; unfold evolves; auto|].
  intros r1 r2 r3 [Hm12 H12] [Hm23 H23]. split; [congruence|].
  destruct H23 as [[-> ->]|]; [|by right]. destruct H12; [left|right]; done.
Qed.

(** An operation changes at most the record of one id, in one of these ways. *)
Definition evolves_at (s s' : ev_state) : Prop :=
  ∀ id r, jm_get id (evidenceDB s) = Some r → ∃ r', jm_get id (evidenceDB s') = Some r' ∧ evolves r r'.

Lemma evolves_at_set id r r' s : jm_get id (evidenceDB s) = Some r → evolves r r' →
  evolves_at s (set_db (jm_set id r' (evidenceDB s)) s).
Proof.
  intros Hg He id' r1 H1. cbn [set_db evidenceDB]. rewrite jm_get_set.
  case_decide as E; [|by exists r1]. subst. rewrite Hg in H1. injection H1 as <-. eauto.
Qed.

Lemma evolves_at_same s s' : evidenceDB s' = evidenceDB s → evolves_at s s'.
Proof. intros E id r H. rewrite E. by exists r. Qed.

Lemma mutate_evolves id f s : (∀ r, evolves r (f r)) → evolves_at s (mutate id f s).1.
Proof.
  intros Hf. unfold mutate. destruct (validateId id); [|by apply evolves_at_same]. simpl.
  unfold getRecord. destruct (jm_get id (evidenceDB s)) as [r|] eqn:Hr; [|by apply evolves_at_same].
  by eapply evolves_at_set.
Qed.

Lemma finish_evolves p now w s : evolves_at s (shred_finish audited p now w s).
Proof.
  unfold shred_finish. destruct (jm_get _ _) as [r|] eqn:Hr; [|by apply evolves_at_same].
  assert (evolves_at s (set_db (jm_set (ps_id p) (shredded now r) (evidenceDB s)) s)).
  { eapply evolves_at_set; [done|]. split; [done|]. right. split; [by eexists|done]. }
  by case_match.
Qed.

Lemma op_evolves o s : evolves_at s (run_op env audited o s).
Proof.
  destruct o; simpl; try by apply evolves_at_same.
  - unfold uploadEvidence. destruct (validateId id); [|by apply evolves_at_same]. simpl.
    destruct (jm_get id (evidenceDB s)) as [r|] eqn:Hr; simpl; [by apply evolves_at_same|].
    destruct (seal_record _ _ _ _ _ _ _ _); simpl; [|by apply evolves_at_same].
    intros id' r' H'. cbn [set_db evidenceDB]. rewrite jm_get_set.
    destruct (decide (id = id')) as [->|]; [congruence|by exists r'].
  - apply mutate_evolves. intros r. split; [done|by left].
  - apply mutate_evolves. intros r. split; [done|by left].
  - unfold shred_begin. destruct (_ ≫= _) as [[r jwt]|]; [|by apply evolves_at_same].
    destruct (isSome _); by apply evolves_at_same.
  - destruct (shredding s !! call); [|by apply evolves_at_same]. intros id r H.
    by apply (finish_evolves p now written (set_shredding (delete call (shredding s)) s)).
Qed.

Lemma ops_evolve os s : evolves_at s (run_ops env audited os s).
Proof.
  revert s. induction os as [|o os IH]; intros s id r Hr; [by exists r|].
  destruct (op_evolves o s id r Hr) as (r1 & H1 & E1).
  destruct (IH _ id r1 H1) as (r2 & H2 & E2). exists r2. split; [done|]. by etrans.
Qed.

(** ** What becomes of a key *)

(** The bytes of a version stay, or [zeroizeRetired] wiped them. *)
Definition kept (material : list Z) (v : Z) (m : kek_manager) : Prop :=
  ∃ k, getVersion v m = Ok k ∧ (keyMaterial k = material ∨ keyMaterial k = replicate 32 0).

Lemma op_keks o s : keks (run_op env audited o s) = keks s ∨ kek_step (keks s) (keks (run_op env audited o s)).
Proof.
  destruct o; simpl; try (right; constructor); try by left.
  - left. unfold uploadEvidence. by destruct (_ ≫= _).
  - left. unfold softDeleteEvidence, mutate. by destruct (_ ≫= _).
  - left. unfold setLegalHold, mutate. by destruct (_ ≫= _).
  - left. unfold shred_begin. destruct (_ ≫= _) as [[r jwt]|]; [|done]. by destruct (isSome _).
  - left. destruct (shredding s !! call); [|done]. unfold shred_finish.
    destruct (jm_get _ _); [|done]. by destruct (audited && written).
Qed.

Lemma step_material v k m m' : kek_ok m → kek_step m m' → getVersion v m = Ok k →
  ∃ k', getVersion v m' = Ok k' ∧ (keyMaterial k' = keyMaterial k ∨ keyMaterial k' = replicate 32 0).
Proof.
  intros Hok Hst Hk. unfold getVersion in *. destruct (jm_get v (versions m)) as [k0|] eqn:Hg; [|done].
  injection Hk as ->. destruct (kek_keyed m Hok v k Hg) as [Hv Hlen].
  assert (v ≤ Z.of_nat (length (versions m))) as Hle by (apply (kek_numbered m Hok); eauto).
  destruct Hst as [now material|w by_ now|w now|now]; simpl.
  - exists k. split; [|by left]. unfold registerVersion. case_test; [by simpl; rewrite Hg|].
    destruct (currentVersion m); simpl; rewrite ?jm_get_set;
      repeat (rewrite decide_False by lia); by rewrite Hg.
  - exists k. split; [|by left]. unfold approveActivation. destruct (jm_get w (versions m)); [|by simpl; rewrite Hg].
    repeat (case_test; [by simpl; rewrite Hg|]). simpl. by rewrite Hg.
  - unfold activateVersion. destruct (jm_get w (versions m)) as [kw|] eqn:Hw; [|by simpl; rewrite Hg; eauto].
    destruct (kek_keyed m Hok w kw Hw) as [Hkw _].
    repeat (case_test; [by simpl; rewrite Hg; eauto|]). destruct (currentVersion m) as [pv|].
    + destruct (jm_get pv (versions m)) as [kp|] eqn:Hp; [|by simpl; rewrite Hg; eauto].
      destruct (kek_keyed m Hok pv kp Hp) as [Hkp _].
      case_test; [by simpl; rewrite Hg; eauto|]. simpl. rewrite !jm_get_set, Hkw, Hkp.
      destruct (decide (w = v)) as [->|]; [rewrite Hg in Hw; injection Hw as <-; eauto|].
      destruct (decide (pv = v)) as [->|]; [rewrite Hg in Hp; injection Hp as <-; eauto|].
      rewrite Hg. eauto.
    + simpl. rewrite jm_get_set, Hkw.
      destruct (decide (w = v)) as [->|]; [rewrite Hg in Hw; injection Hw as <-|rewrite Hg]; eauto.
  - rewrite (jm_get_map (λ k, if zeroizable k then zeroize k else k)), Hg. simpl.
    eexists. split; [done|]. destruct (zeroizable k); [right|by left].
    symmetry. change (replicate 32 0 = (λ _, 0) <$> keyMaterial k). apply replicate_as_elem_of. rewrite length_fmap. split; [done|].
    intros x (y & -> & _)%list_elem_of_fmap. done.
Qed.

Lemma kek_step_ok m m' : kek_ok m → kek_step m m' → kek_ok m'.
Proof. intros ? []; auto using register_ok, approve_ok, activate_ok, zeroize_ok. Qed.

Lemma ops_kept v material os s : kek_ok (keks s) → kept material v (keks s) →
  kept material v (keks (run_ops env audited os s)).
Proof.
  revert s. induction os as [|o os IH]; intros s Hok Hk; [done|]. simpl.
  destruct (op_keks o s) as [E|Hst]; [apply IH; by rewrite E|].
  apply IH; [by eapply kek_step_ok|]. destruct Hk as (k & Hg & Hm).
  destruct (step_material v k _ _ Hok Hst Hg) as (k' & Hg' & Hm'). exists k'. split; [done|].
  destruct Hm' as [->|]; [done|by right].
Qed.

Lemma valid_uploaded id raw uploader tenant d now s s' r :
  uploadEvidence env id raw uploader tenant d now s = (s', Ok r) →
  validateId id = Ok () ∧ jm_get id (evidenceDB s) = None ∧
  seal_record env id raw uploader tenant d now (keks s) = Ok r ∧
  s' = set_db (jm_set id r (evidenceDB s)) s.
Proof.
  unfold uploadEvidence. destruct (validateId id) as [[]|]; [|done]. simpl.
  destruct (jm_get id _); [done|]. simpl. by destruct (seal_record _ _ _ _ _ _ _ _); intros [= <- <-].
Qed.

(** The key a record was sealed with is the one its version names at that time. *)
Lemma sealing_key m v key : kek_ok m → Evidence.getCurrentKey env m = Ok (key, v) → getKey env v m = Ok key.
Proof.
  intros Hk Hkey. unfold Evidence.getCurrentKey, getCurrentKek, getKey, getVersion in *.
  destruct (currentVersion m) as [c|] eqn:Hc.
  - destruct (jm_get c _) as [k|] eqn:Hg; [|by pose proof (kek_current _ Hk) as Hcur; rewrite Hc in Hcur; destruct Hcur; congruence].
    injection Hkey as <- <-. destruct (kek_keyed _ Hk c k Hg) as [-> _]. by rewrite Hg.
  - pose proof (kek_current _ Hk) as Hcur. rewrite Hc in Hcur. apply nil_length_inv in Hcur.
    rewrite Hcur. simpl. destruct (secretKey env); [|done]. by injection Hkey as -> ?.
Qed.

(** A registered version keeps the key of its time, or was wiped. *)
Lemma registered_key m v key k os s : kek_ok m → keks s = m → Evidence.getCurrentKey env m = Ok (key, v) → getCurrentKek m = Ok k →
  getKey env v (keks (run_ops env audited os s)) = Ok key ∨
  ∃ k', getVersion v (keks (run_ops env audited os s)) = Ok k' ∧ keyMaterial k' = replicate 32 0.
Proof.
  intros Hk <- Hkey Hcur. unfold Evidence.getCurrentKey in Hkey. rewrite Hcur in Hkey. injection Hkey as <- <-.
  assert (kept (keyMaterial k) (version k) (keks s)) as H0.
  { unfold getCurrentKek in Hcur. destruct (currentVersion (keks s)) as [c|]; [|done]. destruct (jm_get c _) as [k'|] eqn:Hg; [|done].
    injection Hcur as ->. exists k. split; [|by left]. unfold getVersion. destruct (kek_keyed _ Hk c k Hg) as [-> _]. by rewrite Hg. }
  destruct (ops_kept (version k) (keyMaterial k) os s Hk H0) as (k' & Hv & [Hm|Hm]); [left|right; eauto].
  unfold getKey. by rewrite Hv, Hm.
Qed.

(** No version is ever dropped. *)
Lemma no_versions_before os s : kek_ok (keks s) → versions (keks (run_ops env audited os s)) = [] → versions (keks s) = [].
Proof.
  intros Hk Hempty. destruct (versions (keks s)) as [|x l] eqn:E; [done|exfalso].
  assert (is_Some (jm_get 1 (versions (keks s)))) as [k Hg] by (apply (kek_numbered _ Hk); rewrite E; simpl; lia).
  destruct (ops_kept 1 (keyMaterial k) os s Hk) as (k' & Hv & _); [|unfold getVersion in Hv; by rewrite Hempty in Hv].
  exists k. split; [|by left]. unfold getVersion. by rewrite Hg.
Qed.

(** C23. The life of a piece of evidence. Once [uploadEvidence] has stored it,
    whatever is uploaded, deleted, held, shredded, and however the keys rotate,
    in a process whose environment stays: its record stays, its id cannot be
    uploaded again, and users without an arbitrator's or governance role never
    read it. While it is not shredded, the other roles read back exactly the text
    uploaded, unless a zeroization wiped the key version it was sealed with; if
    it was sealed with the key of the environment, because no version was
    registered yet, they do until a version is registered (the first one hides
    that key). Once it is shredded, the ciphertext, the wrapped key and their IVs
    and tags are all empty, and no read gives a text. *)
Theorem evidence_lifecycle id raw uploader tenant d now s s1 r os :
  kek_reachable (keks s) → draws_ok d →
  uploadEvidence env id raw uploader tenant d now s = (s1, Ok r) →
  let s2 := run_ops env audited os s1 in
  ∃ r', jm_get id (evidenceDB s2) = Some r' ∧ meta_of r' = meta_of r ∧
    (∀ raw' u t d' n, uploadEvidence env id raw' u t d' n s2 = (s2, Err AlreadyExists)) ∧
    retrieveEvidence env id USER s2 = Err Unauthorized ∧
    ∀ role, role ≠ USER →
      match shreddedAt r' with
      | None =>
          (∀ k, getCurrentKek (keks s) = Ok k → retrieveEvidence env id role s2 = Ok raw ∨
             ∃ k', getVersion (kek_version r) (keks s2) = Ok k' ∧ keyMaterial k' = replicate 32 0) ∧
          (versions (keks s2) = [] → retrieveEvidence env id role s2 = Ok raw)
      | Some _ => sealed_of r' = erased ∧ ∀ text, retrieveEvidence env id role s2 ≠ Ok text
      end.
Proof.
  intros Hk%kek_reachable_ok Hd (Hv & Hnew & Hseal & ->)%valid_uploaded s2.
  destruct (open_sealed _ _ _ _ _ _ _ _ Hd Hseal) as (key & Hkey & Hopen & Hns & _).
  destruct (ops_evolve os (set_db (jm_set id r (evidenceDB s)) s) id r) as (r' & Hr' & Hmeta & Hev).
  { simpl. by rewrite jm_get_set, decide_True. }
  fold s2 in Hr'. exists r'. split_and!; [done|done| | |].
  - intros. unfold uploadEvidence. by rewrite Hv, Hr'.
  - unfold retrieveEvidence. by rewrite Hv.
  - intros role Hrole.
    assert (∀ t, shreddedAt r' = Some t → retrieveEvidence env id role s2 = Err Shredded) as Hgone.
    { intros t Ht. unfold retrieveEvidence, getRecord. rewrite Hv, Hr'. simpl.
      assert (enforceAccessControl role = Ok ()) as -> by (by destruct role). simpl. by rewrite Ht. }
    destruct Hev as [[Hs Hsealed]|[[t Ht] Her]]; [|rewrite Ht; split; [done|]; intros text; by rewrite (Hgone t Ht)].
    rewrite Hs, Hns.
    assert (getKey env (kek_version r) (keks s2) = Ok key → retrieveEvidence env id role s2 = Ok raw) as Hread.
    { intros Hg. unfold retrieveEvidence, getRecord. rewrite Hv, Hr'. simpl.
      assert (enforceAccessControl role = Ok ()) as -> by (by destruct role). simpl. rewrite Hs, Hns. simpl.
      injection Hmeta as ? ? ? ? Hver. rewrite Hver, Hg. simpl. rewrite <- Hopen. unfold open_record. by injection Hsealed as -> -> -> -> -> ->. }
    split.
    + intros k Hcur. destruct (registered_key (keks s) _ key k os (set_db (jm_set id r (evidenceDB s)) s) Hk eq_refl Hkey Hcur); [left; auto|by right].
    + intros Hempty. apply Hread. assert (versions (keks s) = []) as H0.
      { by apply (no_versions_before os (set_db (jm_set id r (evidenceDB s)) s)). }
      pose proof (sealing_key _ _ _ Hk Hkey) as Hg. unfold getKey, getVersion in *. rewrite Hempty. rewrite H0 in Hg. done.
Qed.

(** ** Legal holds *)

(** The record is on hold and nobody waits to shred it. *)
Definition held (id : string) (s : ev_state) : Prop :=
  (∃ r, jm_get id (evidenceDB s) = Some r ∧ legalHold r = true ∧ shreddedAt r = None) ∧
  (∀ p, p ∈ shredding s → ps_id p ≠ id).

Lemma held_set id id' r' s :
  (id' = id → legalHold r' = true ∧ shreddedAt r' = None) → held id s →
  held id (set_db (jm_set id' r' (evidenceDB s)) s).
Proof.
  intros Hr' [(r & Hr & Hh & Hs) Hp]. split; [|done]. simpl. rewrite jm_get_set.
  case_decide; [|by exists r]. exists r'. split; [done|auto].
Qed.

Lemma mutate_held id id' f s :
  (id' = id → ∀ r, legalHold r = true → legalHold (f r) = true ∧ shreddedAt (f r) = shreddedAt r) →
  held id s → held id (mutate id' f s).1.
Proof.
  intros Hf Hh. unfold mutate. destruct (validateId id'); [|done]. simpl. unfold getRecord.
  destruct (jm_get id' _) as [r'|] eqn:Hr'; [|done]. apply held_set; [|done]. intros ->.
  destruct Hh as [(r & Hr & Hl & Hs) _]. rewrite Hr in Hr'. injection Hr' as <-.
  destruct (Hf eq_refl r Hl) as [-> ->]. done.
Qed.

Lemma op_held id o s : o ≠ SetLegalHold id false → held id s → held id (run_op env audited o s).
Proof.
  intros Hne Hh. pose proof Hh as [(r & Hr & Hl & Hs) Hp]. destruct o; simpl; try exact Hh.
  - unfold uploadEvidence. destruct (validateId id0); [|done]. simpl.
    destruct (jm_get id0 _) eqn:H0; [done|]. simpl. destruct (seal_record _ _ _ _ _ _ _ _); [|done].
    apply held_set; [|done]. intros ->. congruence.
  - by apply mutate_held.
  - apply mutate_held; [|done]. intros -> r1 Hr1. by destruct hold.
  - unfold shred_begin. destruct (validateId id0); [|done]. simpl. unfold getRecord.
    destruct (jm_get id0 _) as [r0|] eqn:H0; [|done]. simpl. destruct (legalHold r0) eqn:Hl0; [done|]. simpl.
    destruct (createSignedErasureProof _ _ _ _ _ _); [|done]. simpl. destruct (isSome _); [done|].
    split; [by exists r|]. simpl. intros p [H| ->%list_elem_of_singleton]%elem_of_app; simpl; [auto|].
    intros ->. congruence.
  - destruct (shredding s !! call) as [p|] eqn:Hc; [|done]. unfold shred_finish; cbn [set_shredding evidenceDB].
    assert (held id (set_shredding (delete call (shredding s)) s)) as Hh'.
    { split; [by exists r|]. simpl. intros q Hq. apply Hp. by eapply elem_of_list_delete. }
    destruct (jm_get (ps_id p) _) as [rp|] eqn:Hrp; [|done].
    assert (ps_id p ≠ id) by (apply Hp; by eapply list_elem_of_lookup_2).
    assert (held id (set_db (jm_set (ps_id p) (shredded now rp) (evidenceDB s))
      (set_shredding (delete call (shredding s)) s))) as Hh2
      by (by apply (held_set id _ _ (set_shredding (delete call (shredding s)) s))).
    by destruct (audited && written).
  - split; [by exists r|]. simpl. intros q Hq. apply Hp. by eapply elem_of_list_delete.
Qed.

(** C24. A legal hold holds: from the moment a record is on hold and no call is
    waiting to shred it, whatever happens other than lifting that hold, the
    record stays on hold and is not shredded, and every attempt to shred it is
    refused without effect. *)
Theorem legal_hold_respected id s os :
  validateId id = Ok () → held id s → SetLegalHold id false ∉ os →
  let s2 := run_ops env audited os s in
  isOnLegalHold id s2 = Ok true ∧ isShredded id s2 = Ok false ∧
  ∀ actor nonce now, shred_begin id actor nonce now s2 = (s2, Refused OnLegalHold).
Proof.
  intros Hv Hh Hos. assert (held id (run_ops env audited os s)) as [(r & Hr & Hl & Hs) _].
  { clear Hv. revert s Hh. induction os as [|o os IH]; intros s Hh; [done|].
    apply not_elem_of_cons in Hos as [Hne Hos]. apply (IH Hos), op_held; [|done]. congruence. }
  unfold isOnLegalHold, isShredded, shred_begin, getRecord. cbv zeta. rewrite Hv, Hr. simpl.
  by rewrite Hl, Hs.
Qed.

(** A hold placed while a call waits for its signature does not stop that call:
    the check was before the wait. The record ends shredded and on hold. *)
Theorem hold_during_shred_lost id r s call p now w :
  jm_get id (evidenceDB s) = Some r → validateId id = Ok () →
  shredding s !! call = Some p → ps_id p = id →
  let s2 := run_ops env audited [SetLegalHold id true; ShredFinish call now w] s in
  isOnLegalHold id s2 = Ok true ∧ isShredded id s2 = Ok true.
Proof.
  intros Hr Hv Hc Hp s2. unfold s2. cbn [run_ops foldl run_op]. unfold setLegalHold, mutate, getRecord.
  rewrite Hv, Hr. simpl. rewrite Hc. unfold shred_finish; simpl. rewrite Hp, !jm_get_set, decide_True by done.
  unfold isOnLegalHold, isShredded, getRecord. rewrite Hv.
  destruct (audited && w); simpl; by rewrite jm_get_set, decide_True.
Qed.

(** ** Erasures are proved *)

(** A token signed by the key manager over a proof for this record. *)
Definition genuine (tenant id actor jwt : string) : Prop :=
  ∃ nonce t i priv, jwt = sign {| p_evidence_id := id; p_erased_at := t; p_nonce := nonce;
    p_tenant_id := tenant; p_actor_id := actor |} i priv PROOF_EXPIRY t.

(** Every finished call reached the audit log. *)
Definition all_written (os : list ev_op) : Prop :=
  ∀ call now w, ShredFinish call now w ∈ os → w = true.

Record accounted (s : ev_state) : Prop := {
  acc_pending p : p ∈ shredding s →
    ∃ r, jm_get (ps_id p) (evidenceDB s) = Some r ∧ genuine (tenantId r) (ps_id p) (ps_actor p) (ps_jwt p);
  acc_audit a : a ∈ audit s →
    ∃ r, jm_get (a_resourceId a) (evidenceDB s) = Some r ∧ is_Some (shreddedAt r) ∧
      a_tenantId a = tenantId r ∧ genuine (tenantId r) (a_resourceId a) (a_actorId a) (a_proofJwt a);
  acc_erased id r : jm_get id (evidenceDB s) = Some r → is_Some (shreddedAt r) → sealed_of r = erased
}.

Definition audited_all (s : ev_state) : Prop := ∀ id r,
  jm_get id (evidenceDB s) = Some r → is_Some (shreddedAt r) → ∃ a, a ∈ audit s ∧ a_resourceId a = id.

(** Steps that only let records evolve keep what the calls and the log say. *)
Lemma accounted_evolve s s' :
  accounted s → evolves_at s s' → (∀ p, p ∈ shredding s' → p ∈ shredding s) → audit s' = audit s →
  (∀ id r, jm_get id (evidenceDB s') = Some r → is_Some (shreddedAt r) → sealed_of r = erased) →
  accounted s'.
Proof.
  intros [Hp Ha He] Hev Hsub Hau Her. split; [| |done].
  - intros p Hin. destruct (Hp p (Hsub p Hin)) as (r & Hr & Hg). destruct (Hev _ _ Hr) as (r' & Hr' & Hm & _).
    exists r'. split; [done|]. by injection Hm as _ _ -> _ _.
  - rewrite Hau. intros a Hin. destruct (Ha a Hin) as (r & Hr & Hs & Ht & Hg).
    destruct (Hev _ _ Hr) as (r' & Hr' & Hm & Hev'). exists r'. split; [done|].
    split; [by destruct Hev' as [[-> _]|[? _]]|]. by injection Hm as _ _ -> _ _.
Qed.

Lemma mutate_accounted id f s : (∀ r, evolves r (f r)) → (∀ r, shreddedAt (f r) = shreddedAt r) →
  accounted s → accounted (mutate id f s).1.
Proof.
  intros Hf Hs Hacc. pose proof (mutate_evolves id f s Hf) as Hev. revert Hev.
  unfold mutate. destruct (validateId id); [|done]. simpl. unfold getRecord.
  destruct (jm_get id _) as [r|] eqn:Hr; [|done]. intros Hev.
  apply (accounted_evolve _ _ Hacc Hev); [done|done|]. intros id' r'. simpl. rewrite jm_get_set.
  case_decide; [|by apply (acc_erased _ Hacc)]. intros [= <-]. rewrite Hs. intros Hsh.
  destruct (Hf r) as [_ [[_ ->]|[_ ->]]]; [|done]. by apply (acc_erased _ Hacc id).
Qed.

Lemma op_accounted o s : accounted s → accounted (run_op env audited o s).
Proof.
  intros Hacc. pose proof (op_evolves o s) as Hev. destruct o; simpl in *.
  - revert Hev. unfold uploadEvidence. destruct (validateId id); [|done]. simpl.
    destruct (jm_get id _) eqn:Hid; [done|]. simpl.
    destruct (seal_record _ _ _ _ _ _ _ _) as [r|] eqn:Hseal; [|done]. intros Hev.
    apply (accounted_evolve _ _ Hacc Hev); [done|done|]. intros id' r'. simpl. rewrite jm_get_set.
    case_decide; [|by apply (acc_erased _ Hacc)]. intros [= <-].
    unfold seal_record in Hseal. invert_result. by intros [? [=]].
  - by apply mutate_accounted; [intros r; split; [done|by left]|..].
  - by apply mutate_accounted; [intros r; split; [done|by left]|..].
  - revert Hev. unfold shred_begin. destruct (validateId id); [|done]. simpl. unfold getRecord.
    destruct (jm_get id _) as [r|] eqn:Hr; [|done]. simpl. destruct (legalHold r); [done|]. simpl.
    unfold createSignedErasureProof, signToken.
    destruct (KeyManager.getCurrentKey (signer s)) as [k|]; [|done]. simpl. destruct (isSome _); [done|]. intros _.
    destruct Hacc as [Hp Ha He]. split; [|done..]. simpl.
    intros p [Hin| ->%list_elem_of_singleton]%elem_of_app; [by apply Hp|]. simpl.
    exists r. split; [done|]. by repeat eexists.
  - destruct (shredding s !! call) as [p|] eqn:Hc; [|done]. unfold shred_finish in *; simpl in *.
    destruct (acc_pending _ Hacc p) as (r & Hr & Hg); [by eapply list_elem_of_lookup_2|]. rewrite Hr in *.
    assert (accounted (set_db (jm_set (ps_id p) (shredded now r) (evidenceDB s))
      (set_shredding (delete call (shredding s)) s))) as Hacc'.
    { apply (accounted_evolve _ _ Hacc).
      - by destruct (audited && written).
      - intros q. simpl. apply elem_of_list_delete.
      - done.
      - intros id' r'. simpl. rewrite jm_get_set. case_decide; [by intros [= <-]|]. apply (acc_erased _ Hacc). }
    destruct (audited && written); [|done]. destruct Hacc' as [Hp Ha He]. split; [done| |done].
    intros a [Hin| ->%list_elem_of_singleton]%elem_of_app; [by apply Ha|]. simpl.
    rewrite jm_get_set, decide_True by done. exists (shredded now r). split_and!; [done|by eexists|done|done].
  - apply (accounted_evolve _ _ Hacc Hev); [|done|apply (acc_erased _ Hacc)]. intros p. apply elem_of_list_delete.
  - by destruct Hacc.
  - by destruct Hacc.
  - by destruct Hacc.
  - by destruct Hacc.
  - by destruct Hacc.
Qed.

Lemma mutate_audited id f s : (∀ r, shreddedAt (f r) = shreddedAt r) →
  audited_all s → audited_all (mutate id f s).1.
Proof.
  intros Hf Hau. unfold mutate. destruct (validateId id); [|done]. simpl. unfold getRecord.
  destruct (jm_get id _) as [r|] eqn:Hr; [|done]. intros id' r'. simpl. rewrite jm_get_set.
  case_decide; [|by apply Hau]. subst. intros [= <-]. rewrite Hf. by apply Hau.
Qed.

Lemma op_audited o s : audited = true → (∀ call now w, o = ShredFinish call now w → w = true) →
  audited_all s → audited_all (run_op env audited o s).
Proof.
  intros Haud Hw Hau. destruct o; simpl; try exact Hau.
  - unfold uploadEvidence. destruct (validateId id); [|done]. simpl. destruct (jm_get id _); [done|]. simpl.
    destruct (seal_record _ _ _ _ _ _ _ _) as [r|] eqn:Hseal; [|done]. intros id' r'. simpl. rewrite jm_get_set.
    case_decide; [|by apply Hau]. intros [= <-]. unfold seal_record in Hseal. invert_result. by intros [? [=]].
  - by apply mutate_audited.
  - by apply mutate_audited.
  - unfold shred_begin. destruct (_ ≫= _) as [[r jwt]|]; [|done]. by destruct (isSome _).
  - destruct (shredding s !! call) as [p|]; [|done]. unfold shred_finish; simpl.
    destruct (jm_get (ps_id p) _) as [r|]; [|done]. rewrite Haud, (Hw call now written eq_refl). simpl.
    intros id' r'. simpl. rewrite jm_get_set. case_decide as E.
    + intros _ _. eexists. split; [by apply elem_of_app; right; left|done].
    + intros H1 H2. destruct (Hau id' r' H1 H2) as (a & Ha & <-). exists a. split; [|done].
      apply elem_of_app. by left.
Qed.

Definition new_store (m : kek_manager) (k : manager) : ev_state :=
  {| evidenceDB := []; keks := m; signer := k; shredding := []; audit := [] |}.

(** Erasure is accounted for: whatever happens to a new store, every entry
    of the audit log names a record that is shredded and carries a proof signed
    by the key manager for that record, its tenant and the actor; every
    shredded record has nothing left of the ciphertext or the keys; and with an
    audit log that takes its entries, none is shredded without an entry. *)
Theorem erasures_proved m k os :
  let s := run_ops env audited os (new_store m k) in
  (∀ a, a ∈ audit s → ∃ r, jm_get (a_resourceId a) (evidenceDB s) = Some r ∧ is_Some (shreddedAt r) ∧
     a_tenantId a = tenantId r ∧ genuine (tenantId r) (a_resourceId a) (a_actorId a) (a_proofJwt a)) ∧
  (∀ id r, jm_get id (evidenceDB s) = Some r → is_Some (shreddedAt r) →
     sealed_of r = erased ∧
     (audited = true → all_written os → ∃ a, a ∈ audit s ∧ a_resourceId a = id)).
Proof.
  assert (∀ s0, accounted s0 → accounted (run_ops env audited os s0)) as Hacc.
  { induction os as [|o os' IH]; intros s0 H; [done|]. by apply IH, op_accounted. }
  assert (audited = true → all_written os → ∀ s0, audited_all s0 → audited_all (run_ops env audited os s0)) as Hau.
  { intros Haud. clear Hacc. induction os as [|o os' IH]; intros Hw s0 H; [done|]. apply IH.
    - intros call now w Hin. by eapply Hw; right.
    - apply op_audited; [done| |done]. intros call now w ->. eapply Hw. left. }
  destruct (Hacc (new_store m k)) as [_ Ha He]; [by split; [intros ? []%elem_of_nil|intros ? []%elem_of_nil|]|].
  split; [done|]. intros id r Hr Hs. split; [by eapply He|]. intros Haud Hw. by eapply Hau.
Qed.
End Lifecycle.

(** ** The rotation worker *)

(** [interface EvidenceStore], with what the worker relies on: the pages cut the
    records in a fixed order, and an update replaces the record of its id. *)
Class EvidenceStore (S : Type) := {
  records : S → list EvidenceRecord;
  listPage : Z → Z → S → list EvidenceRecord;
  update : EvidenceRecord → S → option S;
  count : S → Z;
  listPage_spec o l s : 0 ≤ o → 0 ≤ l → listPage o l s = take (Z.to_nat l) (drop (Z.to_nat o) (records s));
  count_spec s : count s = Z.of_nat (length (records s));
  update_spec r s s' : update r s = Some s' →
    records s' = (λ x, if decide (evidence_id x = evidence_id r) then r else x) <$> records s
}.

Inductive rotation_failure :=
| InvalidShape | CannotDecrypt | EmptyPlaintext | EmptyOutput | UpdateFailed.

Record RotationError := { e_evidenceId : string; e_message : rotation_failure; e_kekVersion : Z }.

Record RotationProgress := { pr_total : Z; pr_reencrypted : Z; pr_skipped : Z; pr_failed : Z }.

Record RotationResult := {
  total : Z; reencrypted : Z; skipped : Z; failed : Z;
  newVersion : Z; oldVersion : Z; interrupted : bool; errors : list RotationError
}.

Section Rotation.
Context {GCM : AesGcm} {S : Type} {STORE : EvidenceStore S}.

Definition isValidRecord (r : EvidenceRecord) : bool :=
  negb (slen (evidence_id r) =? 0) && negb (slen (encryptedBlob r) =? 0) &&
  negb (slen (iv r) =? 0) && negb (slen (authTag r) =? 0).

Definition reencryptRecord (r : EvidenceRecord) (oldKek newKek : KekVersion) (newIv : list Z)
  : result rotation_failure EvidenceRecord :=
  if negb (isValidRecord r) then Err InvalidShape else
  match decrypt (keyMaterial oldKek) (fromHex (iv r)) (fromHex (authTag r)) (fromHex (encryptedBlob r)) with
  | Err _ => Err CannotDecrypt
  | Ok plaintext =>
      if (length plaintext =? 0)%nat then Err EmptyPlaintext else
      match encrypt (keyMaterial newKek) newIv plaintext with
      | Err _ => Err CannotDecrypt
      | Ok (ciphertext, tag) =>
          if (slen (toHex ciphertext) =? 0) || (slen (toHex tag) =? 0) then Err EmptyOutput else
          Ok {| evidence_id := evidence_id r; encryptedBlob := toHex ciphertext; iv := toHex newIv;
                authTag := toHex tag; wrappedDek := wrappedDek r; wrappedDekIv := wrappedDekIv r;
                wrappedDekAuthTag := wrappedDekAuthTag r; uploaderId := uploaderId r;
                tenantId := tenantId r; createdAt := createdAt r; kek_version := version newKek;
                deletedAt := deletedAt r; legalHold := legalHold r; shreddedAt := shreddedAt r |}
      end
  end.

(** The options of the worker, the keys of the run, the IV drawn for a record,
    and the abort signal at each time it is read. *)
Variables (batchSize progressInterval maxErrors : Z) (oldKek newKek : KekVersion).
Variable newIv : string → list Z.
Variable aborted : nat → bool.

Record rotation := {
  store : S; n_reencrypted : Z; n_skipped : Z; n_failed : Z; errs : list RotationError;
  progress : list RotationProgress; reads : nat
}.

Definition skip (st : rotation) : rotation :=
  {| store := store st; n_reencrypted := n_reencrypted st; n_skipped := n_skipped st + 1;
     n_failed := n_failed st; errs := errs st; progress := progress st; reads := reads st |}.

Definition fail (r : EvidenceRecord) (msg : rotation_failure) (st : rotation) : rotation :=
  {| store := store st; n_reencrypted := n_reencrypted st; n_skipped := n_skipped st;
     n_failed := n_failed st + 1;
     errs := if Z.of_nat (length (errs st)) <? maxErrors
             then errs st ++ [{| e_evidenceId := evidence_id r; e_message := msg;
                                 e_kekVersion := kek_version r |}] else errs st;
     progress := progress st; reads := reads st |}.

Definition succeed (s : S) (st : rotation) : rotation :=
  {| store := s; n_reencrypted := n_reencrypted st + 1; n_skipped := n_skipped st;
     n_failed := n_failed st; errs := errs st; progress := progress st; reads := reads st |}.

(** [if (signal?.aborted)]. *)
Definition read_signal (st : rotation) : bool * rotation :=
  (aborted (reads st),
   {| store := store st; n_reencrypted := n_reencrypted st; n_skipped := n_skipped st;
      n_failed := n_failed st; errs := errs st; progress := progress st; reads := Datatypes.S (reads st) |}).

Definition report (tot : Z) (st : rotation) : rotation :=
  if (n_reencrypted st + n_skipped st + n_failed st) mod progressInterval =? 0 then
    {| store := store st; n_reencrypted := n_reencrypted st; n_skipped := n_skipped st;
       n_failed := n_failed st; errs := errs st;
       progress := progress st ++ [{| pr_total := tot; pr_reencrypted := n_reencrypted st;
                                      pr_skipped := n_skipped st; pr_failed := n_failed st |}];
       reads := reads st |}
  else st.

(** One record of a page. *)
Definition rotate_one (tot : Z) (r : EvidenceRecord) (st : rotation) : rotation :=
  if kek_version r =? version newKek then skip st else
  if negb (kek_version r =? version oldKek) then skip st else
  if negb (isValidRecord r) then fail r InvalidShape st else
  report tot
    match reencryptRecord r oldKek newKek (newIv (evidence_id r)) with
    | Err msg => fail r msg st
    | Ok r' => match update r' (store st) with
               | Some s' => succeed s' st
               | None => fail r UpdateFailed st
               end
    end.

Fixpoint rotate_page (tot : Z) (page : list EvidenceRecord) (st : rotation) : rotation * bool :=
  match page with
  | [] => (st, false)
  | r :: page' =>
      let '(stop, st1) := read_signal st in
      if stop then (st1, true) else rotate_page tot page' (rotate_one tot r st1)
  end.

Fixpoint rotate_loop (fuel : nat) (tot offset : Z) (st : rotation) : option (rotation * bool) :=
  match fuel with
  | O => None
  | Datatypes.S f =>
      let '(stop, st1) := read_signal st in
      if stop then Some (st1, true) else
      let page := listPage offset batchSize (store st1) in
      if (length page =? 0)%nat then Some (st1, false) else
      let '(st2, stop) := rotate_page tot page st1 in
      if stop then Some (st2, true) else rotate_loop f tot (offset + batchSize) st2
  end.

Definition rotation_run (fuel : nat) (s : S) : option (S * RotationResult * list RotationProgress) :=
  let tot := count s in
  '(st, stop) ← rotate_loop fuel tot 0
    {| store := s; n_reencrypted := 0; n_skipped := 0; n_failed := 0; errs := []; progress := [];
       reads := O |};
  Some (store st,
    {| total := tot; reencrypted := n_reencrypted st; skipped := n_skipped st; failed := n_failed st;
       newVersion := version newKek; oldVersion := version oldKek; interrupted := stop;
       errors := errs st |}, progress st).

(** ** What a rotation does *)

(** The text of a record whose blob is encrypted with a key directly. *)
Definition blob_text (k : KekVersion) (r : EvidenceRecord) : result ev_error (list Z) :=
  decrypt (keyMaterial k) (fromHex (iv r)) (fromHex (authTag r)) (fromHex (encryptedBlob r)).

(** A record is left alone, or moved from the old key to the new with its text. *)
Definition rotated (r r' : EvidenceRecord) : Prop :=
  r' = r ∨
  (kek_version r = version oldKek ∧ kek_version r' = version newKek ∧ evidence_id r' = evidence_id r ∧
   ∃ text, text ≠ [] ∧ blob_text oldKek r = Ok text ∧ blob_text newKek r' = Ok text).

Hypothesis ivs_are_bytes : ∀ id, Forall is_byte (newIv id).

Lemma reencrypt_rotated r r' i : Forall is_byte i → kek_version r = version oldKek →
  reencryptRecord r oldKek newKek i = Ok r' → rotated r r'.
Proof.
  intros Hi Hver H. right. unfold reencryptRecord in H. destruct (isValidRecord r); [|done]. simpl in H.
  destruct (decrypt _ _ _ _) as [p|] eqn:Hd; [|done]. destruct (Nat.eqb_spec (length p) 0); [done|].
  unfold encrypt in H. destruct (negb (_ =? 32)) eqn:Hlen; [done|]. simpl in H.
  destruct (gcm_encrypt (keyMaterial newKek) i p) as [c t] eqn:He. destruct (_ || _); [done|].
  injection H as <-. simpl. split_and!; [done..|]. exists p. split_and!; [by intros ->|done|].
  unfold blob_text, decrypt; simpl. rewrite Hlen. simpl.
  destruct (gcm_bytes (keyMaterial newKek) i p) as [Hc Ht]. rewrite He in Hc, Ht.
  rewrite !toHex_roundtrip by done. pose proof (gcm_roundtrip (keyMaterial newKek) i p) as Hr. rewrite He in Hr.
  simpl in Hr. rewrite Hr; [done|]. unfold decrypt in Hd. destruct (negb _) in Hd; [done|]. simpl in Hd.
  destruct (gcm_decrypt _ _ _ _) eqn:Hg; [|done]. injection Hd as ->. by eapply gcm_decrypt_bytes.
Qed.

Lemma reencrypt_version r r' i : reencryptRecord r oldKek newKek i = Ok r' → kek_version r' = version newKek.
Proof.
  unfold reencryptRecord. repeat (case_match; try done). by intros [= <-].
Qed.

Lemma rotated_id r r' : rotated r r' → evidence_id r' = evidence_id r.
Proof. by intros [->|(_ & _ & ? & _)]. Qed.

Definition counted (st : rotation) : Z := n_reencrypted st + n_skipped st + n_failed st.
Definition changed (l l' : list EvidenceRecord) : Z :=
  Z.of_nat (length (filter (λ p, kek_version p.1 ≠ kek_version p.2) (zip l l'))).

(** Replacing by id touches the one record that has it. *)
Lemma replace_none (l : list EvidenceRecord) r' : evidence_id r' ∉ evidence_id <$> l →
  (λ x, if decide (evidence_id x = evidence_id r') then r' else x) <$> l = l.
Proof.
  induction l as [|x l IH]; [done|]. rewrite !fmap_cons. intros [Hne Hni]%not_elem_of_cons.
  by rewrite decide_False, IH by done.
Qed.

Lemma replace_one (done_ rest : list EvidenceRecord) r r' : evidence_id r' = evidence_id r →
  NoDup (evidence_id <$> done_ ++ r :: rest) →
  (λ x, if decide (evidence_id x = evidence_id r') then r' else x) <$> done_ ++ r :: rest = done_ ++ r' :: rest.
Proof.
  intros Hid. rewrite fmap_app, fmap_cons. intros (_ & Hd & [Hr _]%NoDup_cons)%NoDup_app.
  rewrite fmap_app, fmap_cons, decide_True, !replace_none; [done|by rewrite Hid|rewrite Hid|done].
  intros Hin. apply (Hd _ Hin). left.
Qed.

Lemma rotate_one_spec tot r done_ rest st :
  records (store st) = done_ ++ r :: rest → NoDup (evidence_id <$> records (store st)) →
  let st' := rotate_one tot r st in
  counted st' = counted st + 1 ∧
  ∃ r', records (store st') = done_ ++ r' :: rest ∧ rotated r r' ∧
    ((n_reencrypted st' = n_reencrypted st ∧ r' = r) ∨
     (n_reencrypted st' = n_reencrypted st + 1 ∧ kek_version r = version oldKek ∧
      kek_version r' = version newKek)).
Proof.
  intros Hrec Hnd. unfold rotate_one.
  assert (∀ st0, counted st0 = counted st + 1 → store st0 = store st → n_reencrypted st0 = n_reencrypted st →
    counted st0 = counted st + 1 ∧ ∃ r', records (store st0) = done_ ++ r' :: rest ∧ rotated r r' ∧
    ((n_reencrypted st0 = n_reencrypted st ∧ r' = r) ∨ (n_reencrypted st0 = n_reencrypted st + 1 ∧ kek_version r = version oldKek ∧
     kek_version r' = version newKek))) as Hsame.
  { intros st0 Hc Hs Hn. split; [done|]. exists r. rewrite Hs. split_and!; [done|by left|auto]. }
  assert (∀ msg, counted (fail r msg st) = counted st + 1) as Hfail by (intros; unfold counted; simpl; lia).
  case_test; [apply (Hsame (skip st)); [unfold counted; simpl; lia|done..]|].
  destruct (Z.eqb_spec (kek_version r) (version oldKek)) as [Hv|]; simpl;
    [|apply (Hsame (skip st)); [unfold counted; simpl; lia|done..]].
  case_test; [by apply (Hsame (fail r InvalidShape st))|].
  assert (∀ st0, counted (report tot st0) = counted st0 ∧ store (report tot st0) = store st0 ∧
    n_reencrypted (report tot st0) = n_reencrypted st0) as Hrep by (intros; unfold report; by case_test).
  destruct (reencryptRecord _ _ _ _) as [r'|msg] eqn:Hre.
  2: { destruct (Hrep (fail r msg st)) as (-> & -> & ->). by apply Hsame. }
  destruct (update r' (store st)) as [s'|] eqn:Hu.
  2: { destruct (Hrep (fail r UpdateFailed st)) as (-> & -> & ->). by apply Hsame. }
  destruct (Hrep (succeed s' st)) as (-> & -> & ->). split; [unfold counted; simpl; lia|].
  apply reencrypt_rotated in Hre as Hrot; [|apply ivs_are_bytes|done].
  exists r'. split_and!; [|done|right; split_and!; [done..|by eapply reencrypt_version]]. simpl. rewrite (update_spec _ _ _ Hu), Hrec.
  apply replace_one; [by apply rotated_id|by rewrite <- Hrec].
Qed.

Lemma changed_snoc l l' r r' : length l = length l' →
  changed (l ++ [r]) (l' ++ [r']) = changed l l' + (if decide (kek_version r ≠ kek_version r') then 1 else 0).
Proof.
  intros Hl. unfold changed. rewrite zip_with_app by done. rewrite filter_app, length_app. simpl.
  rewrite filter_cons. cbn [fst snd]. case_decide; simpl; lia.
Qed.

Lemma changed_same l l' rest : length l = length l' → changed (l ++ rest) (l' ++ rest) = changed l l'.
Proof.
  intros Hl. unfold changed. rewrite zip_with_app, filter_app, length_app by done.
  rewrite (list_filter_none _ (zip rest rest)); [simpl; lia|].
  intros [x y] Hin. cbn [fst snd]. intros Hne. apply Hne. clear -Hin.
  induction rest as [|r rest IH]; simpl in Hin; [by apply elem_of_nil in Hin|].
  apply elem_of_cons in Hin as [[= -> ->]|]; auto.
Qed.

(** The records [l] of the start, as far as [k], are rotated; the others are as
    they were. *)
Record rotating (l : list EvidenceRecord) (k : nat) (st : rotation) : Prop := {
  rt_done : Forall2 rotated (take k l) (take k (records (store st)));
  rt_rest : drop k (records (store st)) = drop k l;
  rt_counted : counted st = Z.of_nat (length (take k l));
  rt_changed : version oldKek ≠ version newKek →
    n_reencrypted st = changed (take k l) (take k (records (store st)))
}.

Lemma rotating_ids l k st : rotating l k st →
  length (records (store st)) = length l ∧ evidence_id <$> records (store st) = evidence_id <$> l.
Proof.
  intros [Hd Hr _ _].
  assert (evidence_id <$> take k (records (store st)) = evidence_id <$> take k l) as He.
  { clear -Hd. induction Hd as [|? ? ? ? Hr _ IH]; [done|]. rewrite !fmap_cons, IH. by apply rotated_id in Hr as ->. }
  assert (evidence_id <$> records (store st) = evidence_id <$> l) as E.
  { rewrite <- (take_drop k l), <- (take_drop k (records _)), !fmap_app. by rewrite He, Hr. }
  split; [|done]. apply (f_equal length) in E. by rewrite !length_fmap in E.
Qed.

Lemma rotating_one l k tot st r : NoDup (evidence_id <$> l) → rotating l k st → l !! k = Some r →
  rotating l (Datatypes.S k) (rotate_one tot r st).
Proof.
  intros Hnd Hrt Hk. destruct (rotating_ids l k st Hrt) as [Hlen Hids].
  assert (k < length l)%nat as Hlt by (by eapply lookup_lt_Some).
  pose proof Hrt as [Hd Hr Hc Hch].
  assert (records (store st) = take k (records (store st)) ++ r :: drop (Datatypes.S k) l) as Hrec.
  { rewrite <- (take_drop k (records (store st))) at 1. f_equal. rewrite Hr. by apply drop_S. }
  destruct (rotate_one_spec tot r _ _ st Hrec) as (Hcnt & r' & Hrec' & Hrot & Hn); [by rewrite Hids|].
  assert (length (take k (records (store st))) = k) as Htk by (rewrite length_take; lia).
  assert (take (Datatypes.S k) (records (store (rotate_one tot r st))) = take k (records (store st)) ++ [r']) as Ht.
  { rewrite Hrec', cons_middle, app_assoc, take_app_length'; [done|]. rewrite length_app, Htk. simpl. lia. }
  split.
  - rewrite Ht, (take_S_r l k r Hk). apply Forall2_app; [done|by constructor].
  - rewrite Hrec', cons_middle, app_assoc, drop_app_length'; [done|]. rewrite length_app, Htk. simpl. lia.
  - rewrite Hcnt, Hc, !length_take. lia.
  - intros Hne. rewrite Ht, (take_S_r l k r Hk), changed_snoc by (rewrite Htk, length_take; lia).
    rewrite <- Hch by done. destruct Hn as [[-> ->]|(-> & Ho & Hnw)].
    + rewrite decide_False by auto. lia.
    + rewrite decide_True by congruence. lia.
Qed.

Lemma rotating_reads l k st n : rotating l k st →
  rotating l k {| store := store st; n_reencrypted := n_reencrypted st; n_skipped := n_skipped st;
    n_failed := n_failed st; errs := errs st; progress := progress st; reads := n |}.
Proof. by intros []. Qed.

Lemma rotate_page_spec l tot page k st : NoDup (evidence_id <$> l) → rotating l k st →
  take (length page) (drop k l) = page →
  ∃ j, (k ≤ j)%nat ∧ rotating l j (rotate_page tot page st).1 ∧
    ((rotate_page tot page st).2 = false → j = k + length page)%nat.
Proof.
  intros Hnd. revert k st. induction page as [|r page IH]; intros k st Hrt Hpage; simpl.
  { exists k. split_and!; [done..|lia]. }
  destruct (aborted (reads st)); [exists k; split_and!; [done|by apply rotating_reads|done]|].
  destruct (drop k l) as [|r0 rest] eqn:Hdr; [done|]. injection Hpage as -> Hpage.
  assert (l !! k = Some r) as Hk.
  { rewrite <- (Nat.add_0_r k), <- lookup_drop, Hdr. done. }
  destruct (IH (Datatypes.S k) (rotate_one tot r {| store := store st; n_reencrypted := n_reencrypted st;
    n_skipped := n_skipped st; n_failed := n_failed st; errs := errs st; progress := progress st;
    reads := Datatypes.S (reads st) |})) as (j & Hj & Hrt' & Hend).
  - apply rotating_one; [done|by apply rotating_reads|done].
  - rewrite (drop_S _ _ _ Hk) in Hdr. by injection Hdr as ->.
  - exists j. split_and!; [lia|done|]. intros H. rewrite (Hend H). lia.
Qed.

(** The loop ends, at the end of the records or where the signal stopped it. *)
Lemma rotate_loop_spec l tot fuel k st : NoDup (evidence_id <$> l) → 1 ≤ batchSize → rotating l k st →
  (length l - k < fuel)%nat →
  ∃ st' stop j, rotate_loop fuel tot (Z.of_nat k) st = Some (st', stop) ∧ rotating l j st' ∧
    (stop = false → (length l ≤ j)%nat).
Proof.
  intros Hnd Hb. revert k st. induction fuel as [|fuel IH]; intros k st Hrt Hf; [lia|]. simpl.
  destruct (aborted (reads st)).
  { do 3 eexists. split_and!; [done|by apply rotating_reads|done]. }
  rewrite listPage_spec, Nat2Z.id by lia. cbn [store]. rewrite (rt_rest _ _ _ Hrt).
  set (page := take (Z.to_nat batchSize) (drop k l)).
  assert (length page = Z.to_nat batchSize `min` (length l - k))%nat as Hlen
    by (unfold page; by rewrite length_take, length_drop).
  destruct (Nat.eqb_spec (length page) 0).
  { do 3 eexists. split_and!; [done|by apply (rotating_reads l k)|]. intros _. lia. }
  destruct (rotate_page_spec l tot page k {| store := store st; n_reencrypted := n_reencrypted st;
    n_skipped := n_skipped st; n_failed := n_failed st; errs := errs st; progress := progress st;
    reads := Datatypes.S (reads st) |}) as (j & Hj & Hrt' & Hend); [done|by apply rotating_reads| |].
  { unfold page at 2. rewrite Hlen. unfold page. destruct (Nat.min_spec (Z.to_nat batchSize) (length l - k)) as [[_ ->]|[? ->]].
    - done.
    - rewrite !take_ge; [done|..]; rewrite length_drop; lia. }
  destruct (rotate_page _ _ _) as [st2 [|]]; simpl in *.
  { do 3 eexists. split_and!; [done|done|done]. }
  specialize (Hend eq_refl). destruct (Nat.le_gt_cases (length l) (k + Z.to_nat batchSize)) as [Hle|Hgt].
  - replace (Z.of_nat k + batchSize) with (Z.of_nat (k + Z.to_nat batchSize)) by lia.
    apply IH; [|lia]. assert (j = length l) as -> by lia.
    destruct Hrt' as [H1 H2 H3 H4]. rewrite (take_ge l (length l)) in * by lia.
    assert (length (records (store st2)) = length l) as Hl2.
    { apply Forall2_length in H1. rewrite length_take in H1. apply (f_equal length) in H2. rewrite !length_drop in H2. lia. }
    rewrite (take_ge (records _)) in * by lia.
    split; rewrite ?(take_ge l), ?(take_ge (records _)) by lia; [done| |done|done].
    rewrite !drop_ge by lia. done.
  - replace (Z.of_nat k + batchSize) with (Z.of_nat j) by lia. apply IH; [done|lia].
Qed.

(** A rotation ends whatever the signal does, having left each record alone or
    moved it to the new key with the same text; it counts the records it moved,
    and all records when it was not interrupted. *)
Theorem rotation_exact s : NoDup (evidence_id <$> records s) → 1 ≤ batchSize →
  ∃ s' res pr, rotation_run (Datatypes.S (length (records s))) s = Some (s', res, pr) ∧
    Forall2 rotated (records s) (records s') ∧
    total res = Z.of_nat (length (records s)) ∧
    reencrypted res + skipped res + failed res ≤ total res ∧
    (interrupted res = false → reencrypted res + skipped res + failed res = total res) ∧
    (version oldKek ≠ version newKek → reencrypted res = changed (records s) (records s')).
Proof.
  intros Hnd Hb. unfold rotation_run.
  destruct (rotate_loop_spec (records s) (count s) (Datatypes.S (length (records s))) 0
    {| store := s; n_reencrypted := 0; n_skipped := 0; n_failed := 0; errs := []; progress := [];
       reads := O |}) as (st & stop & j & Hloop & Hrt & Hend); [done|done|split; simpl; auto|lia|].
  change (Z.of_nat 0) with 0 in Hloop. rewrite Hloop. simpl. do 3 eexists. split; [done|]. simpl.
  destruct (rotating_ids _ _ _ Hrt) as [Hlen _]. destruct Hrt as [Hd Hr Hc Hch].
  rewrite count_spec. unfold counted in Hc. rewrite length_take in Hc.
  split_and!; [|done|lia|intros ->; specialize (Hend eq_refl); lia|].
  - rewrite <- (take_drop j (records s)), <- (take_drop j (records (store st))), Hr.
    apply Forall2_app; [done|]. clear. induction (drop j _); constructor; [by left|done].
  - intros Hne. rewrite Hch by done.
    rewrite <- (take_drop j (records s)) at 2. rewrite <- (take_drop j (records (store st))) at 2.
    rewrite Hr. symmetry. apply changed_same, (Forall2_length _ _ _ Hd).
Qed.
End Rotation.

(** ** The worker does not know the envelope *)

Section Envelope.
Context {GCM : AesGcm} {JOSE : Jose ErasureProofPayload}.
Variable env : option string.

(** With a cipher that no other key opens: what [uploadEvidence] stores is
    encrypted with a key of its own, so the worker, which takes the blob to be
    encrypted with the key of the record's version, never moves it. *)
Theorem envelope_not_rotated id raw uploader tenant d now m r oldKek newKek i :
  (∀ k k' i' j p, k ≠ k' → gcm_decrypt k' j (gcm_encrypt k i' p).2 (gcm_encrypt k i' p).1 = None) →
  draws_ok d → seal_record env id raw uploader tenant d now m = Ok r →
  dek d ≠ keyMaterial oldKek → isValidRecord r = true →
  reencryptRecord r oldKek newKek i = Err CannotDecrypt.
Proof.
  intros Hsep (_ & _ & Hi & _) Hseal Hne Hval. unfold reencryptRecord. rewrite Hval. simpl.
  unfold seal_record, encrypt in Hseal. invert_result.
  cbn [iv authTag encryptedBlob].
  destruct (gcm_bytes (dek d) (dataIv d) (utf8 raw)) as [Hc Ht]. rewrite !toHex_roundtrip by assumption.
  unfold decrypt. rewrite Hsep by done. by destruct (Z.of_nat (length (keyMaterial oldKek)) =? 32).
Qed.
End Envelope.

(** ** Concrete histories *)

Module EvidenceExample.
(** A cipher whose tag is the key and the IV, and a signature that is the id. *)
#[global, refine] Instance toy_gcm : AesGcm := {
  gcm_encrypt k i p := ((λ x, x mod 256) <$> p, (λ x, x mod 256) <$> k ++ i);
  gcm_decrypt k i t c :=
    if bool_decide (t = ((λ x, x mod 256) <$> k ++ i)) then Some ((λ x, x mod 256) <$> c) else None
}.
Proof.
  - intros k i p. split; apply Forall_fmap, Forall_true; intros x; apply Z.mod_pos_bound; lia.
  - intros k i t c p. case_bool_decide; [|done]. intros [= <-].
    apply Forall_fmap, Forall_true. intros x. apply Z.mod_pos_bound. lia.
  - intros k i p Hp. simpl. rewrite bool_decide_eq_true_2 by done. f_equal.
    rewrite <- list_fmap_compose. induction Hp as [|x l Hx _ IH]; [done|]. rewrite fmap_cons, IH. simpl.
    unfold is_byte in Hx. by rewrite Z.mod_mod, Z.mod_small by lia.
Defined.

#[global, refine] Instance toy_jose : Jose ErasureProofPayload := {
  sign p i k x iat := i;
  decodeProtectedHeader t := Some (Some t);
  jwtVerify _ _ _ _ := None;
  expiresAt _ := 0;
  key_pair _ _ := False
}.
Proof. all: done. Defined.

Definition d1 : draws := {| dek := replicate 32 9; dataIv := replicate 12 1; wrapIv := replicate 12 2 |}.
Definition keks1 : kek_manager := (registerVersion 0 (replicate 32 7) new_KekManager).1.
Definition s0 : ev_state := new_store keks1 KeyExample.m0.
Definition up : ev_state * result ev_error EvidenceRecord :=
  uploadEvidence None "dispute-123" "Screenshot" "user-1" "tenant-1" d1 5 s0.
Definition s1 : ev_state := up.1.
Definition r1 : EvidenceRecord := match up.2 with Ok r => r | Err _ =>
  {| evidence_id := EmptyString; encryptedBlob := EmptyString; iv := EmptyString; authTag := EmptyString;
     wrappedDek := EmptyString; wrappedDekIv := EmptyString; wrappedDekAuthTag := EmptyString;
     uploaderId := EmptyString; tenantId := EmptyString; createdAt := 0; kek_version := 0;
     deletedAt := None; legalHold := false; shreddedAt := None |} end.

(** A second key, approved twice and activated. *)
Definition rotation_ops : list ev_op :=
  [RegisterKek 10 (replicate 32 8); ApproveKek 2 "alice" 11; ApproveKek 2 "bob" 12; ActivateKek 2 13].

Lemma draws_ok_d1 : draws_ok d1.
Proof. split_and!; [done|..]; apply Forall_replicate; unfold is_byte; lia. Qed.

(** Evidence stored under the first key is read back after the second replaced
    it. *)
Lemma evidence_lifecycle_witness :
  retrieveEvidence None "dispute-123" ARBITRATOR (run_ops None true rotation_ops s1) = Ok "Screenshot".
Proof.
  destruct (evidence_lifecycle None true "dispute-123" "Screenshot" "user-1" "tenant-1" d1 5 s0 s1 r1 rotation_ops)
    as (r' & Hr' & _ & _ & _ & Hread).
  - apply rtc_once, step_register.
  - exact draws_ok_d1.
  - vm_compute. reflexivity.
  - specialize (Hread ARBITRATOR). vm_compute in Hr'. injection Hr' as <-.
    assert (∃ k, getCurrentKek (keks s0) = Ok k) as [k Hk] by (vm_compute; eauto).
    destruct (Hread ltac:(done)) as [H _]. destruct (H k Hk) as [H1|(k' & H1 & H2)]; [exact H1|exfalso].
    vm_compute in H1. injection H1 as <-. vm_compute in H2. discriminate H2.
Defined.

(** A held record survives attempts to shred it and the sweep of keys. *)
Definition s_held : ev_state := (setLegalHold "dispute-123" true s1).1.

Lemma legal_hold_respected_witness :
  isShredded "dispute-123" (run_ops None true
    [ShredBegin "dispute-123" "RETENTION_JOB" "n1" 20; ShredFinish 0 21 true; SoftDelete "dispute-123" 22] s_held) =
  Ok false.
Proof.
  apply (legal_hold_respected None true "dispute-123" s_held
    [ShredBegin "dispute-123" "RETENTION_JOB" "n1" 20; ShredFinish 0 21 true; SoftDelete "dispute-123" 22]).
  - by vm_compute.
  - split; [|intros p Hp; by apply elem_of_nil in Hp].
    eexists. split_and!; [by vm_compute|done|done].
  - set_solver.
Defined.

(** A shred leaves an erased record and an entry with its proof. *)
Definition shred_ops : list ev_op :=
  [Upload "dispute-123" "Screenshot" "user-1" "tenant-1" d1 5; ShredBegin "dispute-123" "admin" "n" 20;
   ShredFinish 0 21 true].

Lemma erasures_proved_witness : ∃ r, jm_get "dispute-123" (evidenceDB (run_ops None true shred_ops s0)) = Some r ∧
  sealed_of r = erased ∧ ∃ a, a ∈ audit (run_ops None true shred_ops s0) ∧ a_resourceId a = "dispute-123".
Proof.
  destruct (erasures_proved None true keks1 KeyExample.m0 shred_ops) as [_ H].
  eexists. split; [by vm_compute|]. destruct (H "dispute-123" (shredded 21 r1)) as [He Ha].
  - by vm_compute.
  - by eexists.
  - split; [exact He|]. apply Ha; [done|]. intros call now w Hin.
    repeat (apply elem_of_cons in Hin as [Hin|Hin]; [try discriminate; by injection Hin as _ _ ->|]).
    by apply elem_of_nil in Hin.
Defined.

(** The hold placed in the middle of a shred. *)
Definition s_waiting : ev_state := (shred_begin "dispute-123" "admin" "n2" 20 s1).1.

Lemma hold_during_shred_lost_witness :
  isOnLegalHold "dispute-123" (run_ops None true [SetLegalHold "dispute-123" true; ShredFinish 0 21 true] s_waiting) =
    Ok true ∧
  isShredded "dispute-123" (run_ops None true [SetLegalHold "dispute-123" true; ShredFinish 0 21 true] s_waiting) =
    Ok true.
Proof.
  eapply (hold_during_shred_lost None true "dispute-123" _ s_waiting 0 _ 21 true); by vm_compute.
Defined.

(** A list of records is a store; updates of the ids in [bad] fail. *)
#[global, refine] Instance list_store : EvidenceStore (list EvidenceRecord) := {
  records s := s;
  listPage o l s := take (Z.to_nat l) (drop (Z.to_nat o) s);
  update r s := Some ((λ x, if decide (evidence_id x = evidence_id r) then r else x) <$> s);
  count s := Z.of_nat (length s)
}.
Proof. all: naive_solver. Defined.

Definition kek (n : Z) (m : kek_manager) : KekVersion := default
  {| version := 0; keyMaterial := []; Kek.state := Keys.retired; Kek.createdAt := 0; Kek.retiredAt := None |}
  (jm_get n (versions m)).
Definition s2 : ev_state := run_ops None true rotation_ops s1.

(** Rotating the keys of stored evidence as the code does it: the worker fails
    on the record, and once the retired key is wiped nobody reads it. *)
Lemma rotation_loses_evidence :
  (∃ res pr, rotation_run 100 50 100 (kek 1 (keks s2)) (kek 2 (keks s2)) (λ _, replicate 12 3) (λ _, false) 2
     (jm_values (evidenceDB s2)) = Some (jm_values (evidenceDB s2), res, pr) ∧
     failed res = 1 ∧ reencrypted res = 0) ∧
  retrieveEvidence None "dispute-123" GOVERNANCE (run_op None true (ZeroizeRetired 30) s2) = Err DecryptionFailed.
Proof. split; [|by vm_compute]. do 2 eexists. split_and!; by vm_compute. Qed.

(** Evidence stored before the first key was registered is under version 1 with
    the key of the environment; the first key registered is version 1 too, and
    hides it. *)
Definition secret : string := "12345678901234567890123456789012".
Lemma environment_key_shadowed :
  let s := (uploadEvidence (Some secret) "e" "text" "u" "t" d1 5 (new_store new_KekManager KeyExample.m0)).1 in
  retrieveEvidence (Some secret) "e" ARBITRATOR s = Ok "text" ∧
  retrieveEvidence (Some secret) "e" ARBITRATOR (run_op (Some secret) true (RegisterKek 6 (replicate 32 7)) s) =
    Err DecryptionFailed.
Proof. by vm_compute. Qed.
End EvidenceExample.
