(* ===== verification/Retention.v ===== *)
(** * Data retention

    [jobs/dataRetentionJob.ts], [repositories/retentionRepository.ts] and
    [getEffectiveEntityTtl] of [config/retention.ts]. The four tables that lose
    rows are lists of rows with the columns the statements read. A [LIMIT]
    without [ORDER BY] takes any rows: the order of a scan is a parameter. The
    five entities run concurrently on tables of their own, so they are run one
    after the other. Times are in milliseconds. *)

From stdpp Require Import base option list strings gmap.
From Stdlib Require Import ZArith Lia.
From S2P Require Import Prelude JsLib KeyManager Kek Evidence.

Open Scope Z_scope.

(** ** Configuration *)

Inductive entity := ScoreHistory | AuditLogs | SlashEvents | OutboxEvents | EvidenceEntity.
#[export] Instance entity_eq_dec : EqDecision entity.
Proof. solve_decision. Defined.

Record RetentionConfig := {
  dryRun : bool;
  batchLimit : Z;
  entities : entity → Z;                                       (* ttlDays *)
  orgOverrides : jsmap string (entity → option Z)
}.

Definition DEFAULT_RETENTION_CONFIG : RetentionConfig :=
  {| dryRun := false; batchLimit := 5000;
     entities e := match e with
                   | ScoreHistory => 90 | AuditLogs => 365 | SlashEvents => 0 | OutboxEvents => 30
                   | EvidenceEntity => 0
                   end;
     orgOverrides := [] |}.

Definition getEffectiveEntityTtl (cfg : RetentionConfig) (e : entity) (orgId : option string) : Z :=
  match (o ← orgId; if falsy (Some o) then None else
         overrides ← jm_get o (orgOverrides cfg); overrides e) with
  | Some ttl => ttl
  | None => entities cfg e
  end.

(** ** The tables *)

(** A row: its key, the time column, the tenant columns and the status. *)
Record Row := { row_id : Z; row_at : Z; tenant_id : string; org_id : string; status : string }.

Record EvidenceRow := {
  er_id : string; created_at : Z; er_tenant : string; deleted_at : option Z; legal_hold : bool;
  shredded_at : option Z
}.

Record tables := {
  score_history : list Row; audit_logs : list Row; slash_events : list Row; event_outbox : list Row;
  evidence_table : list EvidenceRow
}.

(** [if (orgId) sql += ...]. *)
Definition org_filter (orgId : option string) (p : string → bool) : bool :=
  match orgId with
  | Some o => if falsy (Some o) then true else p o
  | None => true
  end.

Definition older (ttlDays now at_ : Z) : bool := at_ <? now - ttlDays * MS_PER_DAY.

(** The [WHERE] clauses. *)
Definition expired_row (e : entity) (ttlDays : Z) (orgId : option string) (now : Z) (r : Row) : bool :=
  older ttlDays now (row_at r) &&
  match e with
  | OutboxEvents =>
      (String.eqb (status r) "published" || String.eqb (status r) "failed") &&
      org_filter orgId (λ o, String.eqb (tenant_id r) o || String.eqb (org_id r) o)
  | _ => org_filter orgId (String.eqb (tenant_id r))
  end.

Definition expired_evidence (ttlDays : Z) (orgId : option string) (now : Z) (r : EvidenceRow) : bool :=
  older ttlDays now (created_at r) && negb (isSome (deleted_at r)) && negb (legal_hold r) &&
  negb (isSome (shredded_at r)) && org_filter orgId (String.eqb (er_tenant r)).

(** ** The repository *)

Section Repository.
(** The order in which a scan meets the rows. *)
Variable scan : list Row → list Row.
Variable scan_evidence : list EvidenceRow → list EvidenceRow.
Variable dry : bool.

(** [countExpired*]. *)
Definition countExpired (e : entity) (ttlDays : Z) (orgId : option string) (now : Z) (l : list Row) : Z :=
  if ttlDays =? 0 then 0 else
  Z.of_nat (length (filter (λ r, expired_row e ttlDays orgId now r = true) l)).

(** [deleteExpired*]: the rows that stay, and how many went. *)
Definition victims (e : entity) (ttlDays limit : Z) (orgId : option string) (now : Z) (l : list Row) : list Z :=
  row_id <$> take (Z.to_nat limit) (scan (filter (λ r, expired_row e ttlDays orgId now r = true) l)).

Definition deleteExpired (e : entity) (ttlDays limit : Z) (orgId : option string) (now : Z) (l : list Row)
  : list Row * Z :=
  if (ttlDays =? 0) || dry then (l, 0) else
  let ids := victims e ttlDays limit orgId now l in
  (filter (λ r, row_id r ∉ ids) l, Z.of_nat (length (filter (λ r, row_id r ∈ ids) l))).

Definition countExpiredEvidence (ttlDays : Z) (orgId : option string) (now : Z) (l : list EvidenceRow) : Z :=
  if ttlDays =? 0 then 0 else
  Z.of_nat (length (filter (λ r, expired_evidence ttlDays orgId now r = true) l)).

Definition deleteExpiredEvidence (ttlDays limit : Z) (orgId : option string) (now : Z) (l : list EvidenceRow)
  : list EvidenceRow * Z :=
  if (ttlDays =? 0) || dry then (l, 0) else
  let ids := er_id <$> take (Z.to_nat limit)
    (scan_evidence (filter (λ r, expired_evidence ttlDays orgId now r = true) l)) in
  ((λ r, if decide (er_id r ∈ ids)
         then {| er_id := er_id r; created_at := created_at r; er_tenant := er_tenant r;
                 deleted_at := Some now; legal_hold := legal_hold r; shredded_at := shredded_at r |}
         else r) <$> l,
   Z.of_nat (length (filter (λ r, er_id r ∈ ids) l))).
End Repository.

(** ** The job *)

Record RetentionEntityAudit := {
  a_entity : entity; expiredCount : Z; deletedCount : Z; ttlDays : Z; a_dryRun : bool;
  a_orgId : option string
}.

Record DataRetentionResult := {
  r_dryRun : bool; r_orgId : option string; r_entities : list RetentionEntityAudit;
  totalDeleted : Z; totalExpired : Z
}.

(** The DATA_RETENTION_ENFORCEMENT entry. *)
Record RetentionAudit := { ra_tenantId : string; ra_resourceId : string; ra_result : DataRetentionResult }.

(** Which queries fail: the count and the deletion of an entity; and for each
    piece of evidence whether the audit log takes the entry of its shredding. *)
Record faults := { count_fails : entity → bool; delete_fails : entity → bool; audit_takes : string → bool }.

Section Job.
Context {GCM : AesGcm} {JOSE : Jose ErasureProofPayload}.
Variable scan : list Row → list Row.
Variable scan_evidence : list EvidenceRow → list EvidenceRow.
Variable cfg : RetentionConfig.
(** Whether the job was given the evidence service and the audit log, and
    whether the evidence service has an audit log. *)
Variables (evidenceService auditLogService evidenceAudited : bool).
Variable flt : faults.
Variable nonce : string → string.

Definition zero_audit (e : entity) (ttl : Z) (orgId : option string) : RetentionEntityAudit :=
  {| a_entity := e; expiredCount := 0; deletedCount := 0; ttlDays := ttl; a_dryRun := dryRun cfg;
     a_orgId := orgId |}.

(** [processEntity]: [None] is a rejected promise. *)
Definition processEntity (e : entity) (ttl limit : Z) (orgId : option string) (now : Z) (l : list Row)
  : list Row * option RetentionEntityAudit :=
  if ttl <=? 0 then (l, Some (zero_audit e ttl orgId)) else
  if count_fails flt e then (l, None) else
  let expired := countExpired e ttl orgId now l in
  if expired =? 0 then (l, Some (zero_audit e ttl orgId)) else
  if delete_fails flt e then (l, None) else
  let '(l', deleted) := deleteExpired scan (dryRun cfg) e ttl limit orgId now l in
  (l', Some {| a_entity := e; expiredCount := expired; deletedCount := deleted; ttlDays := ttl;
               a_dryRun := dryRun cfg; a_orgId := orgId |}).

(** The loop over the expired evidence of the service. *)
Fixpoint shred_all (ids : list string) (now : Z) (s : ev_state) (shreddedCount : Z) : ev_state * Z :=
  match ids with
  | [] => (s, shreddedCount)
  | id :: ids' =>
      match cryptoShredEvidence evidenceAudited id "RETENTION_JOB" (nonce id) now (audit_takes flt id) s with
      | (s1, Ok _) => shred_all ids' now s1 (shreddedCount + 1)
      | (s1, Err _) => shred_all ids' now s1 shreddedCount
      end
  end.

Definition processEvidenceEntity (ttl limit : Z) (orgId : option string) (now : Z) (l : list EvidenceRow)
  (s : ev_state) : list EvidenceRow * ev_state * option RetentionEntityAudit :=
  if ttl <=? 0 then (l, s, Some (zero_audit EvidenceEntity ttl orgId)) else
  if count_fails flt EvidenceEntity then (l, s, None) else
  let expired := countExpiredEvidence ttl orgId now l in
  if expired =? 0 then (l, s, Some (zero_audit EvidenceEntity ttl orgId)) else
  if dryRun cfg || negb evidenceService then
    (l, s, Some {| a_entity := EvidenceEntity; expiredCount := expired; deletedCount := 0; ttlDays := ttl;
                   a_dryRun := dryRun cfg; a_orgId := orgId |}) else
  let ids := js_slice (getExpiredEvidenceIds ttl now s) 0 limit in
  let '(s1, shreddedCount) := shred_all ids now s 0 in
  let report := Some {| a_entity := EvidenceEntity; expiredCount := expired; deletedCount := shreddedCount;
                        ttlDays := ttl; a_dryRun := false; a_orgId := orgId |} in
  if 0 <? shreddedCount then
    if delete_fails flt EvidenceEntity then (l, s1, None) else
    ((deleteExpiredEvidence scan_evidence (dryRun cfg) ttl limit orgId now l).1, s1, report)
  else (l, s1, report).

(** [Math.max(1, this.config.batchLimit || 100)]. *)
Definition effective_limit : Z := Z.max 1 (if batchLimit cfg =? 0 then 100 else batchLimit cfg).

Definition run (orgId : option string) (now : Z) (t : tables) (s : ev_state)
  : tables * ev_state * DataRetentionResult * list RetentionAudit :=
  let ttl e := getEffectiveEntityTtl cfg e orgId in
  let '(sc, r1) := processEntity ScoreHistory (ttl ScoreHistory) effective_limit orgId now (score_history t) in
  let '(au, r2) := processEntity AuditLogs (ttl AuditLogs) effective_limit orgId now (audit_logs t) in
  let '(sl, r3) := processEntity SlashEvents (ttl SlashEvents) effective_limit orgId now (slash_events t) in
  let '(ob, r4) := processEntity OutboxEvents (ttl OutboxEvents) effective_limit orgId now (event_outbox t) in
  let '(ev, s', r5) := processEvidenceEntity (ttl EvidenceEntity) effective_limit orgId now (evidence_table t) s in
  let settle e r := default (zero_audit e (ttl e) orgId) r in
  let audits := [settle ScoreHistory r1; settle AuditLogs r2; settle SlashEvents r3;
                 settle OutboxEvents r4; settle EvidenceEntity r5] in
  let result := {| r_dryRun := dryRun cfg; r_orgId := orgId; r_entities := audits;
                   totalDeleted := sumZ deletedCount audits; totalExpired := sumZ expiredCount audits |} in
  ({| score_history := sc; audit_logs := au; slash_events := sl; event_outbox := ob; evidence_table := ev |},
   s', result,
   if auditLogService then
     [{| ra_tenantId := default "00000000-0000-0000-0000-000000000000" orgId;
         ra_resourceId := default "all_orgs" orgId; ra_result := result |}]
   else []).

Definition runForOrg (orgId : string) := run (Some orgId).
End Job.

(** ** What a run removes *)

Definition rows (e : entity) (t : tables) : list Row :=
  match e with
  | ScoreHistory => score_history t | AuditLogs => audit_logs t | SlashEvents => slash_events t
  | OutboxEvents => event_outbox t | EvidenceEntity => []
  end.

(** What it means for a row to have expired: it is past the time to live, of
    the organisation if one was given, and of the outbox only once published or
    failed. *)
Definition past_ttl (e : entity) (ttl : Z) (orgId : option string) (now : Z) (r : Row) : Prop :=
  row_at r < now - ttl * (24 * 60 * 60 * 1000) ∧
  (∀ o, orgId = Some o → o ≠ EmptyString → tenant_id r = o ∨ (e = OutboxEvents ∧ org_id r = o)) ∧
  (e = OutboxEvents → status r = "published" ∨ status r = "failed").

Lemma org_filter_spec orgId p :
  org_filter orgId p = true ↔ ∀ o, orgId = Some o → o ≠ EmptyString → p o = true.
Proof.
  unfold org_filter, falsy. destruct orgId as [o|]; [|naive_solver].
  destruct (String.eqb_spec o EmptyString); naive_solver.
Qed.

Lemma expired_row_spec e ttl orgId now r :
  expired_row e ttl orgId now r = true ↔ past_ttl e ttl orgId now r.
Proof.
  unfold expired_row, past_ttl, older. rewrite andb_true_iff, Z.ltb_lt. apply and_iff_compat_l.
  assert (org_filter orgId (String.eqb (tenant_id r)) = true ↔
    ∀ o, orgId = Some o → o ≠ EmptyString → tenant_id r = o) as Hten.
  { rewrite org_filter_spec. by setoid_rewrite String.eqb_eq. }
  destruct e; try (rewrite Hten; split;
    [intros H; split; [intros o Ho Hne; left; by apply H|done]
    |intros [H _] o Ho Hne; by destruct (H o Ho Hne) as [|[? _]]]).
  rewrite andb_true_iff, orb_true_iff, !String.eqb_eq, org_filter_spec.
  setoid_rewrite orb_true_iff. setoid_rewrite String.eqb_eq. split.
  - intros [Hs Ho]. split; [|done]. intros o E Hne. destruct (Ho o E Hne); [by left|by right].
  - intros [Ho Hs]. split; [by apply Hs|]. intros o E Hne. destruct (Ho o E Hne) as [|[_ ?]]; [by left|by right].
Qed.

#[export] Instance past_ttl_dec e ttl orgId now r : Decision (past_ttl e ttl orgId now r).
Proof. refine (cast_if (decide (expired_row e ttl orgId now r = true))); by rewrite <- expired_row_spec. Defined.

Lemma expired_rows e ttl orgId now (l : list Row) :
  filter (λ r, expired_row e ttl orgId now r = true) l = filter (past_ttl e ttl orgId now) l.
Proof. apply list_filter_ext. intros r _. apply expired_row_spec. Qed.

Section Exact.
Context {GCM : AesGcm} {JOSE : Jose ErasureProofPayload}.
Variable scan : list Row → list Row.
Variable scan_evidence : list EvidenceRow → list EvidenceRow.
Variable cfg : RetentionConfig.
Variables (evidenceService auditLogService evidenceAudited : bool).
Variable flt : faults.
Variable nonce : string → string.
Hypothesis scan_any_order : ∀ l, scan l ≡ₚ l.

(** What an entity should lose: the expired rows, up to the limit, unless the
    run is dry, the entity is kept forever or a query of it fails. *)
Definition quota (e : entity) (ttl limit : Z) (orgId : option string) (now : Z) (l : list Row) : Z :=
  if (ttl <=? 0) || dryRun cfg || count_fails flt e || delete_fails flt e then 0
  else Z.min limit (Z.of_nat (length (filter (past_ttl e ttl orgId now) l))).

(** The rows [gone] were removed, all of them expired, and nothing else. *)
Definition removes (e : entity) (ttl : Z) (orgId : option string) (now : Z) (l l' gone : list Row) : Prop :=
  l' = filter (λ r, row_id r ∉ row_id <$> gone) l ∧ NoDup gone ∧
  ∀ r, r ∈ gone → r ∈ l ∧ past_ttl e ttl orgId now r.

Lemma removes_nothing e ttl orgId now l : removes e ttl orgId now l l [].
Proof.
  split_and!; [|apply NoDup_nil_2|by intros r Hr%elem_of_nil]. symmetry. apply list_filter_id.
  intros r _ Hr. by apply elem_of_nil in Hr.
Qed.

Lemma deleted_exact (l gone : list Row) : NoDup (row_id <$> l) → NoDup gone → (∀ r, r ∈ gone → r ∈ l) →
  filter (λ r, row_id r ∈ row_id <$> gone) l ≡ₚ gone.
Proof.
  intros Hnd Hg Hsub. apply NoDup_Permutation; [by apply NoDup_filter, (NoDup_fmap_1 row_id)|done|].
  intros r. rewrite list_elem_of_filter. split.
  - intros [(x & Hid & Hx)%list_elem_of_fmap Hr]. enough (r = x) as -> by done.
    apply list_elem_of_lookup in Hr as [i Hi]. apply Hsub, list_elem_of_lookup in Hx as [j Hj].
    enough (i = j) as -> by congruence. apply (NoDup_lookup (row_id <$> l) i j (row_id r)); [done| |].
    + by rewrite list_lookup_fmap, Hi.
    + by rewrite list_lookup_fmap, Hj, Hid.
  - intros Hr. split; [by apply list_elem_of_fmap_2|auto].
Qed.

Lemma processEntity_spec e ttl limit orgId now l : NoDup (row_id <$> l) → 1 ≤ limit →
  ∃ gone, removes e ttl orgId now l (processEntity scan cfg flt e ttl limit orgId now l).1 gone ∧
    Z.of_nat (length gone) = quota e ttl limit orgId now l ∧
    match (processEntity scan cfg flt e ttl limit orgId now l).2 with
    | Some a => a_entity a = e ∧ deletedCount a = Z.of_nat (length gone) ∧
        expiredCount a = (if ttl <=? 0 then 0 else Z.of_nat (length (filter (past_ttl e ttl orgId now) l)))
    | None => count_fails flt e || delete_fails flt e = true
    end.
Proof.
  intros Hnd Hlim. unfold processEntity, quota.
  destruct (Z.leb_spec ttl 0) as [|Hpos]; simpl; [exists []; split_and!; [apply removes_nothing|done..]|].
  destruct (count_fails flt e); simpl.
  { exists []. rewrite orb_true_r. split_and!; [apply removes_nothing|done..]. }
  unfold countExpired. destruct (Z.eqb_spec ttl 0); [lia|]. rewrite expired_rows.
  set (exp := filter (past_ttl e ttl orgId now) l).
  destruct (Z.eqb_spec (Z.of_nat (length exp)) 0) as [Hz|Hz].
  { simpl. exists []. split_and!; [apply removes_nothing| |done|done|lia]. rewrite Hz. by repeat case_match; simpl; lia. }
  destruct (delete_fails flt e); simpl.
  { exists []. rewrite !orb_true_r. split_and!; [apply removes_nothing|done..]. }
  unfold deleteExpired. destruct (Z.eqb_spec ttl 0); [lia|]. simpl. destruct (dryRun cfg) eqn:Hdry; simpl.
  { exists []. split_and!; [apply removes_nothing|done..]. }
  exists (take (Z.to_nat limit) (scan exp)).
  assert (NoDup (scan exp)) as Hndx.
  { rewrite scan_any_order. by apply NoDup_filter, (NoDup_fmap_1 row_id). }
  assert (∀ r, r ∈ take (Z.to_nat limit) (scan exp) → r ∈ l ∧ past_ttl e ttl orgId now r) as Hin.
  { intros r Hr. assert (r ∈ scan exp) as Hs by (rewrite <- (take_drop (Z.to_nat limit)); by apply elem_of_app; left).
    rewrite scan_any_order in Hs. by apply list_elem_of_filter in Hs as [? ?]. }
  assert (NoDup (take (Z.to_nat limit) (scan exp))) as Hndt.
  { rewrite <- (take_drop (Z.to_nat limit)) in Hndx. by apply NoDup_app in Hndx as [? _]. }
  assert (length (scan exp) = length exp) as Hlen by (by rewrite scan_any_order).
  split_and!; [split_and!; [|done|done]; unfold victims; by rewrite expired_rows| |done| |done].
  - rewrite length_take, Hlen. lia.
  - unfold victims. rewrite expired_rows. fold exp. f_equal. apply Permutation_length, deleted_exact; [done|done|]. intros r Hr. by apply Hin.
Qed.

(** ** What a run does to evidence *)

Lemma shred_effect id actor n now w s id' r : jm_get id' (evidenceDB s) = Some r →
  let s' := (cryptoShredEvidence evidenceAudited id actor n now w s).1 in
  jm_get id' (evidenceDB s') = Some r ∨
  (id' = id ∧ legalHold r = false ∧ shreddedAt r = None ∧
   jm_get id' (evidenceDB s') = Some (shredded now r)).
Proof.
  intros Hr. unfold cryptoShredEvidence, shred_begin.
  destruct (validateId id); [|by left]. simpl. unfold getRecord.
  destruct (jm_get id (evidenceDB s)) as [r0|] eqn:H0; [|by left]. simpl.
  destruct (legalHold r0) eqn:Hl; [by left|]. simpl.
  destruct (createSignedErasureProof _ _ _ _ _ _); [|by left]. simpl.
  destruct (shreddedAt r0) eqn:Hs; [by left|]. simpl. rewrite last_snoc. unfold shred_finish; simpl. rewrite H0.
  destruct (decide (id = id')) as [<-|Hne].
  - right. rewrite H0 in Hr. injection Hr as ->. split_and!; [done..|].
    destruct (_ && _); simpl; by rewrite jm_get_set, decide_True.
  - left. destruct (_ && _); simpl; by rewrite jm_get_set, decide_False.
Qed.

Lemma shred_all_effect ids now s c id r : jm_get id (evidenceDB s) = Some r →
  let s' := (shred_all evidenceAudited flt nonce ids now s c).1 in
  jm_get id (evidenceDB s') = Some r ∨
  (id ∈ ids ∧ legalHold r = false ∧ shreddedAt r = None ∧
   jm_get id (evidenceDB s') = Some (shredded now r)).
Proof.
  revert s c r. induction ids as [|i ids IH]; intros s c r Hr; simpl; [by left|].
  pose proof (shred_effect i "RETENTION_JOB" (nonce i) now (audit_takes flt i) s id r Hr) as Hone. cbv zeta in Hone.
  destruct (cryptoShredEvidence _ _ _ _ _ _ _) as [s1 o]. cbn [fst] in Hone.
  assert (∀ c', let s' := (shred_all evidenceAudited flt nonce ids now s1 c').1 in
    jm_get id (evidenceDB s') = Some r ∨
    (id ∈ i :: ids ∧ legalHold r = false ∧ shreddedAt r = None ∧
     jm_get id (evidenceDB s') = Some (shredded now r))) as Hc; [|by destruct o; apply Hc].
  intros c'. destruct Hone as [Hsame|(-> & Hl & Hs & Hsh)].
  - destruct (IH s1 c' r Hsame) as [|(? & ? & ? & ?)]; [by left|right]. split_and!; [by right|done..].
  - destruct (IH s1 c' _ Hsh) as [|(_ & _ & [=] & _)]. right. split_and!; [left|done..].
Qed.

Lemma shred_all_count ids now s c :
  c ≤ (shred_all evidenceAudited flt nonce ids now s c).2 ≤ c + Z.of_nat (length ids).
Proof.
  revert s c. induction ids as [|i ids IH]; intros s c; simpl; [lia|].
  destruct (cryptoShredEvidence _ _ _ _ _ _ _) as [s1 [j|e]].
  - specialize (IH s1 (c + 1)). lia.
  - specialize (IH s1 c). lia.
Qed.

Lemma expired_ids_spec ttl now s id r : NoDup (jm_keys (evidenceDB s)) → jm_get id (evidenceDB s) = Some r →
  id ∈ getExpiredEvidenceIds ttl now s → 0 < ttl ∧ is_expired ttl now r = true.
Proof.
  intros Hnd Hr. unfold getExpiredEvidenceIds. destruct (Z.leb_spec ttl 0); [by intros ?%elem_of_nil|].
  intros ([i r'] & -> & [He Hin]%list_elem_of_filter)%list_elem_of_fmap. split; [lia|].
  apply jm_get_elem in Hin; [|done]. simpl in *. congruence.
Qed.

Lemma evidence_effect ttl limit orgId now l s id r :
  NoDup (jm_keys (evidenceDB s)) → jm_get id (evidenceDB s) = Some r → 1 ≤ limit →
  let s' := (processEvidenceEntity scan_evidence cfg evidenceService evidenceAudited flt nonce ttl limit orgId now l s).1.2 in
  jm_get id (evidenceDB s') = Some r ∨
  (0 < ttl ∧ dryRun cfg = false ∧ is_expired ttl now r = true ∧ jm_get id (evidenceDB s') = Some (shredded now r)).
Proof.
  intros Hnd Hr Hlim. unfold processEvidenceEntity. case_test; [by left|]. case_test; [by left|].
  case_test; [by left|]. destruct (dryRun cfg) eqn:Hd; simpl; [by left|].
  destruct evidenceService; simpl; [|by left].
  pose proof (shred_all_effect (js_slice (getExpiredEvidenceIds ttl now s) 0 limit) now s 0 id r Hr) as H.
  cbv zeta in H. destruct (shred_all _ _ _ _ _ _ _) as [s1 n]. cbn [fst] in H.
  assert (jm_get id (evidenceDB s1) = Some r ∨ (0 < ttl ∧ false = false ∧ is_expired ttl now r = true ∧
    jm_get id (evidenceDB s1) = Some (shredded now r))) as Hs.
  { destruct H as [|(Hin & _ & _ & Hsh)]; [by left|right]. rewrite js_slice_nonneg in Hin by lia.
    assert (id ∈ getExpiredEvidenceIds ttl now s) as Hi.
    { revert Hin. rewrite drop_0. intros Hin. rewrite <- (take_drop (Z.to_nat (limit - 0)) (getExpiredEvidenceIds _ _ _)).
      apply elem_of_app. by left. }
    destruct (expired_ids_spec ttl now s id r Hnd Hr Hi). split_and!; [done..|exact Hsh]. }
  by repeat case_test.
Qed.

Lemma is_expired_spec ttl now r : is_expired ttl now r = true →
  createdAt r < now - ttl * (24 * 60 * 60 * 1000) ∧ legalHold r = false ∧ shreddedAt r = None ∧ deletedAt r = None.
Proof.
  unfold is_expired. intros H. repeat (apply andb_true_iff in H as [H ?]). breflect.
  destruct (shreddedAt r), (deletedAt r); done.
Qed.

(** C26. Retention removes exactly what has expired from the four tables that
    lose rows: the score history, the audit log, the slash events and the outbox.
    A run, for one organisation or for all, in whatever order the tables are
    scanned, removes from each of them only rows that are past the entity's time
    to live, of that organisation, and (of the outbox) published or failed; as
    many as there are up to the batch limit, none in a dry run, for an entity kept
    forever or when a query of it fails, which then has no effect; and it reports
    for each of the four how many it removed and, unless a query failed, how many
    had expired. Of evidence it says less: only a piece that is past the time to
    live, not on legal hold, not deleted and not shredded before is shredded,
    whichever organisation it belongs to, and everything else is as it was; the
    count of the report and the rows marked deleted are not covered. The totals
    are the sums over the entities. *)
Theorem retention_exact orgId now t s :
  (∀ e, NoDup (row_id <$> rows e t)) → NoDup (jm_keys (evidenceDB s)) →
  let '(t', s', res, _) := run scan scan_evidence cfg evidenceService auditLogService evidenceAudited flt nonce orgId now t s in
  (∀ e, e ≠ EvidenceEntity →
     let ttl := getEffectiveEntityTtl cfg e orgId in
     ∃ gone a, removes e ttl orgId now (rows e t) (rows e t') gone ∧
       Z.of_nat (length gone) = quota e ttl (effective_limit cfg) orgId now (rows e t) ∧
       a ∈ r_entities res ∧ a_entity a = e ∧ deletedCount a = Z.of_nat (length gone) ∧
       (count_fails flt e || delete_fails flt e = false →
        expiredCount a = if ttl <=? 0 then 0 else Z.of_nat (length (filter (past_ttl e ttl orgId now) (rows e t))))) ∧
  (∀ id r, jm_get id (evidenceDB s) = Some r →
     let ttl := getEffectiveEntityTtl cfg EvidenceEntity orgId in
     jm_get id (evidenceDB s') = Some r ∨
     (0 < ttl ∧ dryRun cfg = false ∧ createdAt r < now - ttl * (24 * 60 * 60 * 1000) ∧ legalHold r = false ∧
      shreddedAt r = None ∧ deletedAt r = None ∧ jm_get id (evidenceDB s') = Some (shredded now r))) ∧
  totalDeleted res = sumZ deletedCount (r_entities res) ∧ totalExpired res = sumZ expiredCount (r_entities res).
Proof.
  intros Hnd Hndk. unfold run.
  assert (1 ≤ effective_limit cfg) as Hlim by (unfold effective_limit; lia).
  pose proof (λ e, processEntity_spec e (getEffectiveEntityTtl cfg e orgId) _ orgId now (rows e t) (Hnd e) Hlim) as Hp.
  pose proof (Hp ScoreHistory) as H1. pose proof (Hp AuditLogs) as H2. pose proof (Hp SlashEvents) as H3.
  pose proof (Hp OutboxEvents) as H4. clear Hp. cbn [rows] in H1, H2, H3, H4.
  pose proof (λ id r H, evidence_effect (getEffectiveEntityTtl cfg EvidenceEntity orgId) _ orgId now
    (evidence_table t) s id r Hndk H Hlim) as H5. cbv zeta in H5.
  destruct (processEntity _ _ _ ScoreHistory _ _ _ _ _) as [sc o1], (processEntity _ _ _ AuditLogs _ _ _ _ _) as [au o2],
    (processEntity _ _ _ SlashEvents _ _ _ _ _) as [sl o3], (processEntity _ _ _ OutboxEvents _ _ _ _ _) as [ob o4],
    (processEvidenceEntity _ _ _ _ _ _ _ _ _ _ _ _) as [[ev s'] o5]. cbn [fst snd] in *.
  split; [|split; [|done]].
  2: { intros id r Hr. destruct (H5 id r Hr) as [?|(? & ? & Hx & ?)]; [by left|right].
       apply is_expired_spec in Hx as (? & ? & ? & ?). done. }
  assert (∀ e l l' (o : option RetentionEntityAudit) (audits : list RetentionEntityAudit),
    let ttl := getEffectiveEntityTtl cfg e orgId in
    (∃ gone, removes e ttl orgId now l l' gone ∧
       Z.of_nat (length gone) = quota e ttl (effective_limit cfg) orgId now l ∧
       match o with
       | Some a => a_entity a = e ∧ deletedCount a = Z.of_nat (length gone) ∧
           expiredCount a = (if ttl <=? 0 then 0 else Z.of_nat (length (filter (past_ttl e ttl orgId now) l)))
       | None => count_fails flt e || delete_fails flt e = true
       end) → default (zero_audit cfg e ttl orgId) o ∈ audits →
    ∃ gone a, removes e ttl orgId now l l' gone ∧
       Z.of_nat (length gone) = quota e ttl (effective_limit cfg) orgId now l ∧
       a ∈ audits ∧ a_entity a = e ∧ deletedCount a = Z.of_nat (length gone) ∧
       (count_fails flt e || delete_fails flt e = false →
        expiredCount a = if ttl <=? 0 then 0 else Z.of_nat (length (filter (past_ttl e ttl orgId now) l)))) as Hsettle.
  { intros e l l' o audits ttl (gone & Hr & Hq & Ho) Hin. exists gone, (default (zero_audit cfg e ttl orgId) o).
    destruct o as [a|]; simpl in *; [naive_solver|]. split_and!; [done..| |congruence].
    rewrite Hq. unfold quota. by rewrite <- orb_assoc, Ho, orb_true_r. }
  intros [] Hne; try done; cbn [rows score_history audit_logs slash_events event_outbox r_entities]; eapply Hsettle;
    [exact H1| |exact H2| |exact H3| |exact H4|]; set_solver.
Qed.
End Exact.

(** ** Concrete runs *)

Module RetentionExample.
Import EvidenceExample.

Definition day (n : Z) : Z := n * MS_PER_DAY.
Definition row (i d : Z) (org : string) : Row :=
  {| row_id := i; row_at := day d; tenant_id := org; org_id := org; status := "published" |}.
Definition t1 : tables :=
  {| score_history := [row 1 0 "a"; row 2 5 "b"; row 3 100 "a"]; audit_logs := []; slash_events := [row 1 0 "a"];
     event_outbox := [row 7 1 "a"];
     evidence_table := [{| er_id := "x"; created_at := 0; er_tenant := "a"; deleted_at := None;
                           legal_hold := false; shredded_at := None |}] |}.
Definition cfg1 : RetentionConfig :=
  {| dryRun := false; batchLimit := 1; entities := entities DEFAULT_RETENTION_CONFIG;
     orgOverrides := [("a", λ e, match e with EvidenceEntity => Some 1 | _ => None end)] |}.
Definition no_faults : faults := {| count_fails _ := false; delete_fails _ := false; audit_takes _ := true |}.

(** The score row of [a] that is 110 days old goes, the younger ones and the
    row of the other organisation stay. *)
Lemma retention_exact_witness : ∃ gone,
  removes ScoreHistory 90 (Some "a") (day 110) (score_history t1)
    (score_history (run id id cfg1 false true true no_faults id (Some "a") (day 110) t1 s1).1.1.1) gone ∧
  Z.of_nat (length gone) = 1.
Proof.
  assert (∀ l : list Row, id l ≡ₚ l) as Hscan by done.
  pose proof (retention_exact id id cfg1 false true true no_faults id Hscan (Some "a") (day 110) t1 s1) as H.
  destruct (run _ _ _ _ _ _ _ _ _ _ _ _) as [[[t' s'] res] au]. destruct H as [H _].
  - intros []; apply (bool_decide_unpack _); vm_compute; exact I.
  - apply (bool_decide_unpack _). vm_compute. exact I.
  - destruct (H ScoreHistory) as (gone & a & Hr & Hq & _); [done|]. exists gone. split; [exact Hr|].
    rewrite Hq. by vm_compute.
Defined.

(** A run for one organisation shreds the evidence of another: the record of
    [tenant-1] goes in the run for [a]. *)
Lemma org_run_shreds_others :
  isShredded "dispute-123" (run id id cfg1 true true true no_faults id (Some "a") (day 110) t1 s1).1.1.2 = Ok true ∧
  (∃ r, jm_get "dispute-123" (evidenceDB s1) = Some r ∧ tenantId r = "tenant-1").
Proof. split; [by vm_compute|]. eexists. by vm_compute. Qed.

(** And the row it marks deleted is another one, whose key is still there. *)
Lemma wrong_row_deleted :
  (λ r, (er_id r, deleted_at r)) <$>
    evidence_table (run id id cfg1 true true true no_faults id (Some "a") (day 110) t1 s1).1.1.1 = [("x", Some (day 110))].
Proof. by vm_compute. Qed.

(** A shredding whose audit entry fails is done and not counted. *)
Definition audit_down : faults := {| count_fails _ := false; delete_fails _ := false; audit_takes _ := false |}.
Lemma shredded_not_counted :
  let out := run id id cfg1 true true true audit_down id (Some "a") (day 110) t1 s1 in
  isShredded "dispute-123" out.1.1.2 = Ok true ∧ (last (r_entities out.1.2) ≫= λ a, Some (deletedCount a)) = Some 0.
Proof. by vm_compute. Qed.
End RetentionExample.
