(* ===== verification/Analytics.v ===== *)
(** * Analytics: refreshing the materialized views

    [services/analytics/refreshStrategy.ts], [cacheGeneration.ts] and
    [service.ts], [jobs/analyticsRefreshWorker.ts] and
    [jobs/analyticsRefreshScheduler.ts]. Every statement sent to PostgreSQL,
    and every connection, is an operation that may fail: [fails] gives the error
    of the n-th one, [clock] the time at it. What the strategy sends is kept in a
    trace, with the outcome. *)

From stdpp Require Import base option list strings.
From Stdlib Require Import ZArith Lia.
From S2P Require Import Prelude JsLib.

Open Scope Z_scope.

(** ** Errors of the database *)

Inductive TransientErrorKind :=
| serialization_failure | deadlock_detected | lock_not_available | cannot_connect_now
| connection_exception | too_many_connections | query_canceled.
#[export] Instance TransientErrorKind_eq_dec : EqDecision TransientErrorKind.
Proof. solve_decision. Defined.

(** An [Error], with its [code] when it has one that is a string. *)
Record db_error := { code : option string; message : string }.

Definition TRANSIENT_SQLSTATE : jsmap string TransientErrorKind :=
  [("40001", serialization_failure); ("40P01", deadlock_detected); ("55P03", lock_not_available);
   ("57P03", cannot_connect_now); ("08000", connection_exception); ("08001", connection_exception);
   ("08003", connection_exception); ("08004", connection_exception); ("08006", connection_exception);
   ("08007", connection_exception); ("53300", too_many_connections); ("57014", query_canceled)].

Definition DEFAULT_TRANSIENT_KINDS : list TransientErrorKind :=
  [serialization_failure; deadlock_detected; lock_not_available; cannot_connect_now;
   connection_exception; too_many_connections; query_canceled].

Record TransientDbError := { t_kind : TransientErrorKind; t_sqlState : string; t_message : string }.

Definition classifyTransientDbError (e : db_error) : option TransientDbError :=
  sqlState ← code e;
  if negb (slen sqlState =? 5) then None else
  kind ← jm_get sqlState TRANSIENT_SQLSTATE;
  Some {| t_kind := kind; t_sqlState := sqlState; t_message := message e |}.

(** ** Views and their state *)

Record AnalyticsViewSpec := { name : string; statementTimeoutMs : Z }.

Record StateRow := {
  last_success_at : option Z; last_attempt_at : Z; last_error : option string; duration_ms : option Z;
  updated_at : Z
}.

(** The table [analytics_view_refresh_state], and when each view was refreshed. *)
Record database := { state_rows : jsmap string StateRow; snapshots : jsmap string Z }.

Definition on_row (v : string) (f : StateRow → StateRow) (d : database) : database :=
  {| state_rows := match jm_get v (state_rows d) with
                   | Some r => jm_set v (f r) (state_rows d)
                   | None => state_rows d
                   end;
     snapshots := snapshots d |}.

Definition mark_attempt (v : string) (now : Z) : database → database :=
  on_row v (λ r, {| last_success_at := last_success_at r; last_attempt_at := now;
                    last_error := last_error r; duration_ms := duration_ms r; updated_at := now |}).

Definition mark_error (v msg : string) (dur now : Z) : database → database :=
  on_row v (λ r, {| last_success_at := last_success_at r; last_attempt_at := last_attempt_at r;
                    last_error := Some msg; duration_ms := Some dur; updated_at := now |}).

Definition mark_refreshed (v : string) (now : Z) (d : database) : database :=
  {| state_rows := state_rows d; snapshots := jm_set v now (snapshots d) |}.

(** ** What is sent *)

Inductive request :=
| Connect
| SetTimeout (ms : Z)
| MarkAttempt (v : string)
| Refresh (v : string)
| ResetTimeout
| Release
| RecordError (v : string).

Record world := {
  ops : nat;                               (* operations so far *)
  data : database;
  trace : list (request * bool);           (* with whether it succeeded *)
  generation : Z                           (* of the cached summaries *)
}.

Definition getAnalyticsCacheGeneration (w : world) : Z := generation w.

Definition bumpAnalyticsCacheGeneration (w : world) : world * Z :=
  ({| ops := ops w; data := data w; trace := trace w; generation := generation w + 1 |}, generation w + 1).

Record outcome_error := { e_kind : option TransientErrorKind; e_message : string; e_sqlState : option string }.

Record ViewRefreshOutcome := {
  view : string; refreshed : bool; durationMs : Z; attempts : Z; error : option outcome_error
}.

Record RefreshStrategyResult := {
  refreshedViews : list string;
  failedViews : list ViewRefreshOutcome;
  totalDurationMs : Z;
  cacheGeneration : option Z;
  transientRetryCount : jsmap string (jsmap TransientErrorKind Z)
}.

Definition ident_start (c : Ascii.ascii) : bool :=
  let n := JsLib.code c in ((65 <=? n) && (n <=? 90)) || ((97 <=? n) && (n <=? 122)) || (n =? 95).

(** [/^[A-Za-z_][A-Za-z0-9_]*$/] of [quoteIdent]. *)
Definition safe_ident (s : string) : bool :=
  match s with
  | EmptyString => false
  | String c s' => ident_start c && str_forallb (λ d, ident_start d || is_digit d) s'
  end.

Section Strategy.
Variable fails : nat → option db_error.
Variable clock : nat → Z.
(** [JSON.stringify] of a string. *)
Variable stringify : string → string.
(** The options of the strategy. *)
Variables (maxAttemptsPerView : Z) (transientRetryKinds : list TransientErrorKind).

(** Sends a request; its effect happens when it succeeds. *)
Definition send (q : request) (f : Z → database → database) (w : world) : world * option db_error :=
  match fails (ops w) with
  | Some e => ({| ops := S (ops w); data := data w; trace := trace w ++ [(q, false)];
                  generation := generation w |}, Some e)
  | None => ({| ops := S (ops w); data := f (clock (ops w)) (data w); trace := trace w ++ [(q, true)];
                generation := generation w |}, None)
  end.

(** [client.release()], whose errors are dropped. *)
Definition release (w : world) : world :=
  {| ops := ops w; data := data w; trace := trace w ++ [(Release, true)]; generation := generation w |}.

Definition keep (_ : Z) (d : database) : database := d.

(** The error of [quoteIdent]. *)
Definition unsafe_identifier (s : string) : db_error :=
  {| code := None; message := "Unsafe analytics view identifier: " +:+ stringify s |}.

(** The body of the inner [try]. *)
Definition attempt_body (v : AnalyticsViewSpec) (w : world) : world * option db_error :=
  match send (MarkAttempt (name v)) (mark_attempt (name v)) w with
  | (w1, Some e) => (w1, Some e)
  | (w1, None) =>
      if safe_ident (name v) then send (Refresh (name v)) (mark_refreshed (name v)) w1
      else (w1, Some (unsafe_identifier (name v)))
  end.

Definition refreshViewOnce (v : AnalyticsViewSpec) (w : world) : world * option db_error :=
  match send Connect keep w with
  | (w1, Some e) => (w1, Some e)
  | (w1, None) =>
      match send (SetTimeout (Z.max 0 (statementTimeoutMs v))) keep w1 with
      | (w2, Some e) => (release w2, Some e)
      | (w2, None) =>
          let '(w3, res) := attempt_body v w2 in
          let '(w4, _) := send ResetTimeout keep w3 in
          (release w4, res)
      end
  end.

Definition recordViewError (v : AnalyticsViewSpec) (msg : string) (dur : Z) (w : world) : world :=
  (send (RecordError (name v)) (mark_error (name v) msg (Z.max 0 dur)) w).1.

Definition tally_add (k : TransientErrorKind) (t : jsmap TransientErrorKind Z) : jsmap TransientErrorKind Z :=
  jm_set k (default 0 (jm_get k t) + 1) t.

(** The loop of [refreshViewWithRetry]: [left] attempts remain. *)
Fixpoint retry_loop (left : nat) (attempt : Z) (v : AnalyticsViewSpec) (tally : jsmap TransientErrorKind Z)
  (w : world) : world * jsmap TransientErrorKind Z * ViewRefreshOutcome :=
  match left with
  | O => (w, tally, {| view := name v; refreshed := false; durationMs := 0; attempts := maxAttemptsPerView;
                       error := Some {| e_kind := None; e_message := "exhausted attempts"; e_sqlState := None |} |})
  | S left' =>
      let startedAt := clock (ops w) in
      match refreshViewOnce v w with
      | (w1, None) =>
          (w1, tally, {| view := name v; refreshed := true; durationMs := clock (ops w1) - startedAt;
                         attempts := attempt; error := None |})
      | (w1, Some e) =>
          let dur := clock (ops w1) - startedAt in
          let transient := classifyTransientDbError e in
          let isTransient := match transient with
                             | Some t => bool_decide (t_kind t ∈ transientRetryKinds)
                             | None => false
                             end in
          let willRetry := isTransient && negb (maxAttemptsPerView <=? attempt) in
          let w2 := if willRetry then w1 else recordViewError v (message e) dur w1 in
          match transient, willRetry with
          | Some t, true => retry_loop left' (attempt + 1) v (tally_add (t_kind t) tally) w2
          | _, _ =>
              (w2, tally,
               {| view := name v; refreshed := false; durationMs := dur; attempts := attempt;
                  error := Some match transient with
                                | Some t => {| e_kind := Some (t_kind t); e_message := t_message t;
                                               e_sqlState := Some (t_sqlState t) |}
                                | None => {| e_kind := None; e_message := message e; e_sqlState := None |}
                                end |})
          end
      end
  end.

Definition refreshViewWithRetry (v : AnalyticsViewSpec) (tally : jsmap TransientErrorKind Z) (w : world)
  : world * jsmap TransientErrorKind Z * ViewRefreshOutcome :=
  retry_loop (Z.to_nat maxAttemptsPerView) 1 v tally w.

(** The loop of [refreshAll] over the views. *)
Fixpoint refresh_views (vs : list AnalyticsViewSpec) (ok : list string) (bad : list ViewRefreshOutcome)
  (counts : jsmap string (jsmap TransientErrorKind Z)) (w : world)
  : world * list string * list ViewRefreshOutcome * jsmap string (jsmap TransientErrorKind Z) :=
  match vs with
  | [] => (w, ok, bad, counts)
  | v :: vs' =>
      let '(w1, tally, o) := refreshViewWithRetry v (default [] (jm_get (name v) counts)) w in
      let counts1 := jm_set (name v) tally counts in
      if refreshed o then refresh_views vs' (ok ++ [name v]) bad counts1 w1
      else refresh_views vs' ok (bad ++ [o]) counts1 w1
  end.

Definition refreshAll (vs : list AnalyticsViewSpec) (w : world) : world * RefreshStrategyResult :=
  let startedAt := clock (ops w) in
  let '(w1, ok, bad, counts) := refresh_views vs [] [] [] w in
  let total := clock (ops w1) - startedAt in
  if (length bad =? 0)%nat then
    let '(w2, g) := bumpAnalyticsCacheGeneration w1 in
    (w2, {| refreshedViews := ok; failedViews := bad; totalDurationMs := total; cacheGeneration := Some g;
            transientRetryCount := counts |})
  else
    (w1, {| refreshedViews := ok; failedViews := bad; totalDurationMs := total; cacheGeneration := None;
            transientRetryCount := counts |}).
End Strategy.

(** The constructor refuses an empty list of views. *)
Definition new_AnalyticsRefreshStrategy (vs : list AnalyticsViewSpec) : result string () :=
  throw_if (length vs =? 0)%nat "AnalyticsRefreshStrategy requires at least one view".

Definition DEFAULT_ANALYTICS_VIEW_SPECS : list AnalyticsViewSpec :=
  [{| name := "analytics_metrics_mv"; statementTimeoutMs := 60000 |}].

(** ** The worker *)

Record AnalyticsRefreshWorkerResult := {
  wr_refreshed : bool; wr_refreshedViews : list string; wr_failedViews : list ViewRefreshOutcome;
  wr_cacheGeneration : option Z
}.

Definition worker_run fails clock stringify maxAttempts kinds (vs : list AnalyticsViewSpec) (w : world)
  : world * AnalyticsRefreshWorkerResult :=
  let '(w1, r) := refreshAll fails clock stringify maxAttempts kinds vs w in
  (w1, {| wr_refreshed := (length (failedViews r) =? 0)%nat; wr_refreshedViews := refreshedViews r;
          wr_failedViews := failedViews r; wr_cacheGeneration := cacheGeneration r |}).

(** ** The summary *)

Inductive RefreshStatus := ok | stale | failed_recently.

Record AnalyticsStaleness := { asOf : Z; ageSeconds : Z; fresh : bool; refreshStatus : RefreshStatus }.

Definition computeStaleness (asOf now thresholdSeconds : Z) (hadRecentRefreshError : bool) : AnalyticsStaleness :=
  let age := Z.max 0 ((now - asOf) / 1000) in
  let f := age <=? thresholdSeconds in
  {| asOf := asOf; ageSeconds := age; fresh := f;
     refreshStatus := if hadRecentRefreshError then failed_recently else if f then ok else stale |}.

Definition ANALYTICS_VIEW : string := "analytics_metrics_mv".

(** [getSummary], for the staleness: the metrics are a row of the view. *)
Definition getSummary (threshold now : Z) (d : database) : result string AnalyticsStaleness :=
  match jm_get ANALYTICS_VIEW (snapshots d) with
  | None => Err "Analytics materialized view is empty."
  | Some snapshot_at =>
      Ok (computeStaleness snapshot_at now threshold
            (negb (falsy (jm_get ANALYTICS_VIEW (state_rows d) ≫= last_error))))
  end.

(** ** Sessions *)

(** A client of the pool: idle, connected, with a timeout of its own, with the
    timeout reset, and one of which the statement that sets or resets the timeout
    failed, which may keep a timeout of its own. *)
Inductive session := Idle | Opened | Timed | Restored | Unsure.

Definition session_step (s : session) (e : request * bool) : option session :=
  match s, e with
  | Idle, (Connect, true) => Some Opened
  | Idle, (Connect, false) => Some Idle
  | Idle, (RecordError _, _) => Some Idle
  | Opened, (SetTimeout _, true) => Some Timed
  | Opened, (SetTimeout _, false) => Some Unsure
  | Timed, (MarkAttempt _, _) => Some Timed
  | Timed, (Refresh _, _) => Some Timed
  | Timed, (ResetTimeout, true) => Some Restored
  | Timed, (ResetTimeout, false) => Some Unsure
  | Restored, (Release, _) => Some Idle
  | Unsure, (Release, _) => Some Idle
  | _, _ => None
  end.

Fixpoint session_run (s : session) (t : list (request * bool)) : option session :=
  match t with [] => Some s | e :: t' => s' ← session_step s e; session_run s' t' end.

Lemma session_run_app s t1 t2 : session_run s (t1 ++ t2) = session_run s t1 ≫= λ s', session_run s' t2.
Proof. revert s. induction t1 as [|e t1 IH]; intros s; [done|]. simpl. destruct (session_step s e); [apply IH|done]. Qed.

(** ** What a part of a tick may do *)

Section Tick.
Variable fails : nat → option db_error.
Variable clock : nat → Z.
Variable stringify : string → string.
Variables (maxAttemptsPerView : Z) (transientRetryKinds : list TransientErrorKind).

(** The view was refreshed in this part, at this time. *)
Definition refreshed_in (w w' : world) (v : string) : Prop :=
  ∃ n, (ops w ≤ n < ops w')%nat ∧ jm_get v (snapshots (data w')) = Some (clock n).

Definition marks (v : string) (w : world) : option (option Z * option string) :=
  (λ r, (last_success_at r, last_error r)) <$> jm_get v (state_rows (data w)).

(** The attempt on the view was recorded in this part. *)
Definition attempt_of (v : string) (d : database) : option Z := last_attempt_at <$> jm_get v (state_rows d).
Definition stamped_in (w w' : world) (v : string) : Prop :=
  ∃ n, (ops w ≤ n < ops w')%nat ∧ attempt_of v (data w') = Some (clock n).

(** The sessions go from [a] to [b]; the generation stays, and a view changes
    only by being refreshed. *)
Record seg (a b : session) (w w' : world) : Prop := {
  sg_ops : (ops w ≤ ops w')%nat;
  sg_generation : generation w' = generation w;
  sg_sessions : ∃ t, trace w' = trace w ++ t ∧ session_run a t = Some b;
  sg_views v : jm_get v (snapshots (data w')) = jm_get v (snapshots (data w)) ∨ refreshed_in w w' v;
  sg_success v : fst <$> marks v w' = fst <$> marks v w;
  sg_attempt v : attempt_of v (data w') = attempt_of v (data w) ∨ stamped_in w w' v
}.
Abbreviation part := (seg Idle Idle).

Definition kept (w w' : world) : Prop := ∀ v, marks v w' = marks v w.

Lemma seg_refl a w : seg a a w w.
Proof. split; [done|done| |by left|done|by left]. exists []. by rewrite app_nil_r. Qed.

Lemma refreshed_mono a b w1 w2 w3 v : (ops w1 ≤ ops w2)%nat → seg a b w2 w3 →
  refreshed_in w1 w2 v → refreshed_in w1 w3 v.
Proof.
  intros H12 H23 (n & Hn & Hs). pose proof (sg_ops _ _ _ _ H23).
  destruct (sg_views _ _ _ _ H23 v) as [E|(m & Hm & Hs')]; [exists n; split; [lia|by rewrite E]|].
  exists m. split; [lia|done].
Qed.

Lemma stamped_mono a b w1 w2 w3 v : (ops w1 ≤ ops w2)%nat → seg a b w2 w3 →
  stamped_in w1 w2 v → stamped_in w1 w3 v.
Proof.
  intros H12 H23 (n & Hn & Hs). pose proof (sg_ops _ _ _ _ H23).
  destruct (sg_attempt _ _ _ _ H23 v) as [E|(m & Hm & Hs')]; [exists n; split; [lia|by rewrite E]|].
  exists m. split; [lia|done].
Qed.

(** What happened in the second part happened in both. *)
Lemma in_later w1 w2 w3 v : (ops w1 ≤ ops w2)%nat →
  (refreshed_in w2 w3 v → refreshed_in w1 w3 v) ∧ (stamped_in w2 w3 v → stamped_in w1 w3 v).
Proof. intros H. split; intros (n & Hn & Hs); exists n; (split; [lia|done]). Qed.

Lemma seg_trans a b c w1 w2 w3 : seg a b w1 w2 → seg b c w2 w3 → seg a c w1 w3.
Proof.
  intros H12 H23. pose proof H12 as [O1 G1 (t1 & T1 & S1) V1 M1 A1]. pose proof H23 as [O2 G2 (t2 & T2 & S2) V2 M2 A2].
  split; [lia|congruence| | | |].
  - exists (t1 ++ t2). rewrite T2, T1, app_assoc. split; [done|]. by rewrite session_run_app, S1.
  - intros v. destruct (V2 v) as [->|(n & Hn & Hs)].
    + destruct (V1 v) as [|Hr]; [by left|right]. by eapply refreshed_mono.
    + right. exists n. split; [lia|done].
  - intros v. by rewrite M2.
  - intros v. destruct (A2 v) as [->|Hs]; [|right; by eapply in_later].
    destruct (A1 v) as [|Hr]; [by left|right]. by eapply stamped_mono.
Qed.

(** An effect that leaves the views alone. *)
Definition no_refresh (f : Z → database → database) : Prop := ∀ t d, snapshots (f t d) = snapshots d.
(** An effect that leaves the marks of the state table alone. *)
Definition no_mark (f : Z → database → database) : Prop := ∀ t d v,
  (λ r, (last_success_at r, last_error r)) <$> jm_get v (state_rows (f t d)) =
  (λ r, (last_success_at r, last_error r)) <$> jm_get v (state_rows d).

(** An effect that changes the time of an attempt to the time it happens only. *)
Definition stamps (f : Z → database → database) : Prop := ∀ t d v, attempt_of v (f t d) = attempt_of v d ∨ attempt_of v (f t d) = Some t.

Definition sent (e : option db_error) : bool := negb (isSome e).

Lemma send_seg a b q f w : no_refresh f → no_mark f → stamps f →
  session_step a (q, sent (send fails clock q f w).2) = Some b →
  seg a b w (send fails clock q f w).1 ∧ kept w (send fails clock q f w).1 ∧
  ops (send fails clock q f w).1 = S (ops w).
Proof.
  intros Hs Hm Ha. unfold send. destruct (fails (ops w)) as [e|]; simpl; intros Hst; unfold sent in Hst; simpl in Hst.
  - split_and!; [|done..]. split; simpl; [lia|done| |by left|done|by left]. eexists. split; [done|]. simpl. by rewrite Hst.
  - split_and!; [|intros v; apply Hm|done].
    split; simpl; [lia|done| |left; by rewrite Hs|intros v; unfold marks; simpl; by rewrite Hm|].
    + eexists. split; [done|]. simpl. by rewrite Hst.
    + intros v. destruct (Ha (clock (ops w)) (data w) v) as [E|E]; [by left|right]. exists (ops w). simpl. split; [lia|done].
Qed.

Lemma keep_quiet : no_refresh keep ∧ no_mark keep ∧ stamps keep.
Proof. split_and!; [done..|]. by left. Qed.

Lemma mark_attempt_quiet v : no_refresh (mark_attempt v) ∧ no_mark (mark_attempt v) ∧ stamps (mark_attempt v).
Proof.
  split_and!; [done| |]; intros t d x; unfold attempt_of, mark_attempt, on_row; simpl;
    (destruct (jm_get v (state_rows d)) as [r|] eqn:Hr; [|auto]); rewrite jm_get_set; case_decide; subst; rewrite ?Hr; simpl; auto.
Qed.

(** The attempt on a view that has a row is recorded. *)
Lemma mark_attempt_stamps v t d : is_Some (jm_get v (state_rows d)) → attempt_of v (mark_attempt v t d) = Some t.
Proof. intros [r Hr]. unfold attempt_of, mark_attempt, on_row; simpl. by rewrite Hr, jm_get_set, decide_True. Qed.

Lemma send_refresh v w : let '(w', e) := send fails clock (Refresh v) (mark_refreshed v) w in
  seg Timed Timed w w' ∧ kept w w' ∧ ops w' = S (ops w) ∧ (e = None → refreshed_in w w' v).
Proof.
  unfold send. destruct (fails (ops w)) as [e|]; simpl.
  - split_and!; [|done..]. split; simpl; [lia|done|by eexists|by left|done|by left].
  - assert (∀ w', ops w' = S (ops w) → snapshots (data w') = jm_set v (clock (ops w)) (snapshots (data w)) →
      refreshed_in w w' v) as Hin.
    { intros w' Ho Hs. exists (ops w). split; [lia|]. by rewrite Hs, jm_get_set, decide_True. }
    split_and!; [|done|done|intros _; by apply Hin]. split; simpl; [lia|done|by eexists| |done|by left].
    intros x. destruct (decide (x = v)) as [->|]; [right; by apply Hin|left]. by rewrite jm_get_set, decide_False.
Qed.

Lemma release_seg a w : a = Restored ∨ a = Unsure → seg a Idle w (release w) ∧ kept w (release w).
Proof. intros Ha. split; [|done]. split; simpl; [lia|done|destruct Ha as [->| ->]; by eexists|by left|done|by left]. Qed.

(** The view was refreshed and, if it has a row, the attempt recorded. *)
Definition done_in (w w' : world) (v : string) : Prop :=
  refreshed_in w w' v ∧ (is_Some (jm_get v (state_rows (data w))) → stamped_in w w' v).

Lemma done_mono a b w1 w2 w3 v : (ops w1 ≤ ops w2)%nat → seg a b w2 w3 → done_in w1 w2 v → done_in w1 w3 v.
Proof. intros H12 H23 [H1 H2]. split; [by eapply refreshed_mono|]. intros Hr. eapply stamped_mono; [done|done|auto]. Qed.

(** The rows stay. *)
Lemma seg_rows a b w w' v : seg a b w w' → is_Some (jm_get v (state_rows (data w))) → is_Some (jm_get v (state_rows (data w'))).
Proof.
  intros Hs. pose proof (sg_success _ _ _ _ Hs v) as H. unfold marks in H. intros [r Hr]. rewrite Hr in H.
  destruct (jm_get v (state_rows (data w'))); [eauto|done].
Qed.

Lemma done_later a b w1 w2 w3 v : seg a b w1 w2 → done_in w2 w3 v → done_in w1 w3 v.
Proof.
  intros H12 [H1 H2]. destruct (in_later w1 w2 w3 v (sg_ops _ _ _ _ H12)) as [L1 L2].
  split; [auto|]. intros Hr. apply L2, H2. by eapply seg_rows.
Qed.

Lemma attempt_body_spec v w : let '(w', e) := attempt_body fails clock stringify v w in
  seg Timed Timed w w' ∧ kept w w' ∧ (e = None → done_in w w' (name v)).
Proof.
  unfold attempt_body. destruct (mark_attempt_quiet (name v)) as (H1 & H2 & H3).
  destruct (send_seg Timed Timed (MarkAttempt (name v)) _ w H1 H2 H3 eq_refl) as (Hs & Hk & Ho).
  assert ((send fails clock (MarkAttempt (name v)) (mark_attempt (name v)) w).2 = None →
    is_Some (jm_get (name v) (state_rows (data w))) → stamped_in w (send fails clock (MarkAttempt (name v)) (mark_attempt (name v)) w).1 (name v)) as Hst.
  { unfold send. destruct (fails (ops w)); [done|]. intros _ Hr. exists (ops w). simpl. split; [lia|by apply mark_attempt_stamps]. }
  destruct (send _ _ _ _ w) as [w1 [e|]]; cbn [fst snd] in *; [done|].
  destruct (safe_ident (name v)); [|done].
  pose proof (send_refresh (name v) w1) as Hr. destruct (send _ _ _ _ w1) as [w2 e].
  destruct Hr as (Hs2 & Hk2 & Ho2 & Hin). split_and!; [by eapply seg_trans|intros x; by rewrite Hk2|].
  intros He. pose proof (sg_ops _ _ _ _ Hs) as Hle. split; [by apply (in_later w w1), Hin|].
  intros Hrow. eapply stamped_mono; [done|done|auto].
Qed.

(** One attempt on a view. *)
Lemma refreshViewOnce_spec v w : let '(w', e) := refreshViewOnce fails clock stringify v w in
  part w w' ∧ kept w w' ∧ (e = None → done_in w w' (name v)).
Proof.
  unfold refreshViewOnce. destruct keep_quiet as (Hq1 & Hq2 & Hq3).
  pose proof (λ b, send_seg Idle b Connect keep w Hq1 Hq2 Hq3) as H0.
  destruct (send _ _ Connect _ w) as [w1 [e|]]; cbn [fst snd] in H0.
  { destruct (H0 Idle eq_refl) as (? & ? & _). done. }
  destruct (H0 Opened eq_refl) as (Hs0 & Hk0 & Ho0). clear H0.
  pose proof (λ b, send_seg Opened b (SetTimeout (Z.max 0 (statementTimeoutMs v))) keep w1 Hq1 Hq2 Hq3) as H1.
  destruct (send _ _ (SetTimeout _) _ w1) as [w2 [e|]]; cbn [fst snd] in H1.
  { destruct (H1 Unsure eq_refl) as (Hs1 & Hk1 & _). destruct (release_seg Unsure w2) as [Hs2 Hk2]; [by right|].
    split_and!; [eapply seg_trans; [|done]; by eapply seg_trans|intros x; by rewrite Hk2, Hk1|done]. }
  destruct (H1 Timed eq_refl) as (Hs1 & Hk1 & Ho1). clear H1.
  pose proof (attempt_body_spec v w2) as H2. destruct (attempt_body _ _ _ v w2) as [w3 res].
  destruct H2 as (Hs2 & Hk2 & Hin). pose proof (λ b, send_seg Timed b ResetTimeout keep w3 Hq1 Hq2 Hq3) as H3.
  destruct (send _ _ ResetTimeout _ w3) as [w4 e4]. cbn [fst snd] in H3.
  assert (seg Timed Idle w3 (release w4) ∧ kept w3 (release w4)) as [Hend Hk].
  { destruct e4 as [e|]; [destruct (H3 Unsure eq_refl) as (Hs3 & Hk3 & _), (release_seg Unsure w4) as [Hs4 Hk4]|
      destruct (H3 Restored eq_refl) as (Hs3 & Hk3 & _), (release_seg Restored w4) as [Hs4 Hk4]]; auto;
      (split; [by eapply seg_trans|intros x; by rewrite Hk4, Hk3]). }
  assert (seg Idle Timed w w2) as Hpre by (by eapply seg_trans).
  split_and!.
  - eapply seg_trans; [done|]. by eapply seg_trans.
  - intros x. by rewrite Hk, Hk2, Hk1.
  - intros He. eapply done_later; [done|]. eapply done_mono; [apply (sg_ops _ _ _ _ Hs2)|done|auto].
Qed.

Lemma recordViewError_seg v msg dur w : part w (recordViewError fails clock v msg dur w).
Proof.
  unfold recordViewError, send. destruct (fails (ops w)); simpl.
  - split; simpl; [lia|done|by eexists|by left|done|by left].
  - split; simpl; [lia|done|by eexists|by left| |]; intros x; [|left]; unfold marks, attempt_of, mark_error, on_row; simpl;
      (destruct (jm_get (name v) (state_rows (data w))) as [r|] eqn:Hr; [|done]);
      rewrite jm_get_set; by case_decide; [subst; rewrite Hr|].
Qed.

(** The outcome of a view: the attempts made, each but the last ending in a
    transient error that is retried. *)
Definition outcome_ok (v : AnalyticsViewSpec) (first : Z) (w w' : world) (o : ViewRefreshOutcome) : Prop :=
  view o = name v ∧ first ≤ attempts o ≤ maxAttemptsPerView ∧
  (if refreshed o then error o = None ∧ done_in w w' (name v) ∧ kept w w' else is_Some (error o)).

Definition retries (t : jsmap TransientErrorKind Z) : Z := sumZ snd t.

Lemma retries_add k t : retries (tally_add k t) = retries t + 1.
Proof.
  unfold retries, tally_add. induction t as [|[k' n] t IH]; simpl; [lia|].
  case_decide; simpl; [lia|]. rewrite IH. lia.
Qed.

Lemma retry_loop_spec left attempt v tally w : (1 ≤ left)%nat → attempt + Z.of_nat left = maxAttemptsPerView + 1 →
  let '(w', tally', o) := retry_loop fails clock stringify maxAttemptsPerView transientRetryKinds left attempt v tally w in
  part w w' ∧ outcome_ok v attempt w w' o ∧ retries tally' - retries tally = attempts o - attempt.
Proof.
  revert attempt tally w. induction left as [|left IH]; intros attempt tally w Hl Ha; [lia|]. cbn [retry_loop].
  pose proof (refreshViewOnce_spec v w) as H. destruct (refreshViewOnce _ _ _ v w) as [w1 [e|]].
  2: { destruct H as (Hp & Hk & Hin). split_and!; [done| |simpl; lia]. unfold outcome_ok; simpl.
       split_and!; [done|lia|lia|done|by apply Hin|done]. }
  destruct H as (Hp & Hk & _).
  assert (∀ msg dur, part w (recordViewError fails clock v msg dur w1)) as Hrec
    by (intros; eapply seg_trans; [done|apply recordViewError_seg]).
  destruct (classifyTransientDbError e) as [t|]; simpl.
  2: { split_and!; [done| |lia]. unfold outcome_ok; simpl. split_and!; [done|lia|lia|by eexists]. }
  destruct (bool_decide (t_kind t ∈ transientRetryKinds)); simpl.
  2: { split_and!; [done| |lia]. unfold outcome_ok; simpl. split_and!; [done|lia|lia|by eexists]. }
  destruct (Z.leb_spec maxAttemptsPerView attempt); simpl.
  { split_and!; [done| |lia]. unfold outcome_ok; simpl. split_and!; [done|lia|lia|by eexists]. }
  specialize (IH (attempt + 1) (tally_add (t_kind t) tally) w1).
  destruct (retry_loop _ _ _ _ _ left (attempt + 1) v (tally_add (t_kind t) tally) w1) as [[w' tally'] o].
  destruct IH as (Hp' & (Hv & Hat & Ho) & Ht); [lia|lia|]. rewrite retries_add in Ht.
  split_and!; [by eapply seg_trans| |lia]. unfold outcome_ok. split_and!; [done|lia|lia|].
  destruct (refreshed o); [|done]. destruct Ho as (He & Hs & Hk'). split_and!; [done|by eapply done_later|]. intros x. by rewrite Hk'.
Qed.

(** The views of a tick: those refreshed and those that failed, in order. *)
Inductive sorted_out : list AnalyticsViewSpec → list string → list ViewRefreshOutcome → Prop :=
| so_nil : sorted_out [] [] []
| so_ok v vs good bad : sorted_out vs good bad → sorted_out (v :: vs) (name v :: good) bad
| so_bad v vs good bad o : sorted_out vs good bad → view o = name v → is_Some (error o) →
    1 ≤ attempts o ≤ maxAttemptsPerView → sorted_out (v :: vs) good (o :: bad).

Lemma refresh_views_spec vs good bad counts w : 1 ≤ maxAttemptsPerView →
  let '(w', good', bad', counts') :=
    refresh_views fails clock stringify maxAttemptsPerView transientRetryKinds vs good bad counts w in
  part w w' ∧ ∃ g b, good' = good ++ g ∧ bad' = bad ++ b ∧ sorted_out vs g b ∧
    (∀ v, v ∈ g → done_in w w' v) ∧ (b = [] → kept w w').
Proof.
  intros Hmax. revert good bad counts w. induction vs as [|v vs IH]; intros good bad counts w; simpl.
  { split; [apply seg_refl|]. exists [], []. rewrite !app_nil_r. split_and!; [done|done|constructor| |done].
    by intros v Hv%elem_of_nil. }
  unfold refreshViewWithRetry.
  pose proof (retry_loop_spec (Z.to_nat maxAttemptsPerView) 1 v (default [] (jm_get (name v) counts)) w) as H.
  destruct (retry_loop _ _ _ _ _ _ _ _ _ _) as [[w1 tally] o].
  destruct H as (Hp & (Hv & Hat & Ho) & _); [lia|lia|].
  destruct (refreshed o).
  - specialize (IH (good ++ [name v]) bad (jm_set (name v) tally counts) w1).
    destruct (refresh_views _ _ _ _ _ _ _ _ _ _) as [[[w' good'] bad'] counts'].
    destruct IH as (Hp' & g & b & -> & -> & Hso & Hg & Hb). destruct Ho as (_ & Hin & Hk).
    split; [by eapply seg_trans|]. exists (name v :: g), b. rewrite <- app_assoc.
    split_and!; [done|done|by constructor| |intros E x; by rewrite (Hb E)].
    intros x [->|Hx]%elem_of_cons; [by eapply done_mono; [apply (sg_ops _ _ _ _ Hp)|..]|].
    eapply done_later; [done|auto].
  - specialize (IH good (bad ++ [o]) (jm_set (name v) tally counts) w1).
    destruct (refresh_views _ _ _ _ _ _ _ _ _ _) as [[[w' good'] bad'] counts'].
    destruct IH as (Hp' & g & b & -> & -> & Hso & Hg & Hb).
    split; [by eapply seg_trans|]. exists g, (o :: b). rewrite <- app_assoc.
    split_and!; [done|done|by constructor| |done].
    intros x Hx. eapply done_later; [done|auto].
Qed.

Lemma sorted_out_views vs good bad : sorted_out vs good bad → ∀ v, v ∈ good → ∃ x, x ∈ vs ∧ name x = v.
Proof.
  induction 1 as [|v vs good bad _ IH|v vs good bad o _ IH _ _ _]; intros x Hx.
  - by apply not_elem_of_nil in Hx.
  - apply elem_of_cons in Hx as [->|Hx]; [exists v; split; [by left|done]|]. destruct (IH x Hx) as (y & Hy & E). exists y. split; [by right|done].
  - destruct (IH x Hx) as (y & Hy & E). exists y. split; [by right|done].
Qed.

(** The views of a tick that are registered in the state table. *)
Definition registered (vs : list AnalyticsViewSpec) (w : world) : Prop :=
  ∀ v, v ∈ vs → is_Some (jm_get (name v) (state_rows (data w))).

(** C33. A refresh is all or none for the readers. Whatever statements fail, a
    tick on views that have their rows in the state table ends having sorted
    every view into refreshed or failed, after one attempt up to the limit; those
    reported as refreshed were refreshed in this tick and the attempt is recorded
    in their rows; the cache generation is advanced by one, and reported, exactly
    when no view failed, and otherwise stays; and every client taken from the
    pool is given back exactly once, with its timeout reset, unless the statement
    that sets or resets the timeout failed itself. *)
Theorem refresh_all_or_none vs w (Hmax : 1 ≤ maxAttemptsPerView) (Hrows : registered vs w) :
  let '(w', r) := refreshAll fails clock stringify maxAttemptsPerView transientRetryKinds vs w in
  sorted_out vs (refreshedViews r) (failedViews r) ∧
  (∀ v, v ∈ refreshedViews r → refreshed_in w w' v ∧ stamped_in w w' v) ∧
  (if decide (failedViews r = [])
   then cacheGeneration r = Some (generation w + 1) ∧ getAnalyticsCacheGeneration w' = generation w + 1
   else cacheGeneration r = None ∧ getAnalyticsCacheGeneration w' = generation w) ∧
  ∃ t, trace w' = trace w ++ t ∧ session_run Idle t = Some Idle.
Proof.
  unfold refreshAll. pose proof (refresh_views_spec vs [] [] [] w Hmax) as H.
  destruct (refresh_views _ _ _ _ _ _ _ _ _ _) as [[[w1 good] bad] counts].
  destruct H as ([Ho Hgen Hses _ _ _] & g & b & -> & -> & Hso & Hg & _).
  assert (∀ v, v ∈ g → refreshed_in w w1 v ∧ stamped_in w w1 v) as Hg'.
  { intros v Hv. destruct (Hg v Hv) as [H1 H2]. split; [done|]. apply H2.
    destruct (sorted_out_views _ _ _ Hso v Hv) as (x & Hx & <-). by apply Hrows. }
  clear Hg. destruct (Nat.eqb_spec (length ([] ++ b)) 0) as [E|E]; simpl in *.
  - apply nil_length_inv in E as ->. rewrite decide_True by done. split_and!; [done|done|by rewrite Hgen..|done].
  - rewrite decide_False by (by intros ->). split_and!; done.
Qed.

(** A tick in which every view succeeds leaves the marks of the state table as
    they were: an earlier error is not cleared and no success is recorded. *)
Theorem success_not_recorded vs w : 1 ≤ maxAttemptsPerView →
  let '(w', r) := refreshAll fails clock stringify maxAttemptsPerView transientRetryKinds vs w in
  (∀ v, fst <$> marks v w' = fst <$> marks v w) ∧ (failedViews r = [] → ∀ v, marks v w' = marks v w).
Proof.
  intros Hmax. unfold refreshAll. pose proof (refresh_views_spec vs [] [] [] w Hmax) as H.
  destruct (refresh_views _ _ _ _ _ _ _ _ _ _) as [[[w1 good] bad] counts].
  destruct H as ([_ _ _ _ Hs] & g & b & -> & -> & _ & _ & Hk).
  destruct (Nat.eqb_spec (length ([] ++ b)) 0) as [E|E]; simpl in *.
  - apply nil_length_inv in E as ->. split; [exact Hs|]. intros _ v. by apply Hk.
  - split; [exact Hs|]. by intros ->.
Qed.
End Tick.

(** ** The scheduler *)

Record FailureStreak := { s_count : Z; firstFailureAt : option Z }.

Record scheduler := {
  isRunning : bool; active : bool; runCount : Z; lastResult : option AnalyticsRefreshWorkerResult;
  streaks : jsmap string FailureStreak
}.

Section Scheduler.
Variables (failCooldownThreshold failCooldownMs : Z).

Definition isViewInCooldown (s : FailureStreak) (now : Z) : bool :=
  if s_count s <? failCooldownThreshold then false else
  match firstFailureAt s with None => false | Some t => now - t <? failCooldownMs end.

Definition isAnyViewInCooldown (now : Z) (sc : scheduler) : bool :=
  existsb (λ s, isViewInCooldown s now) (jm_values (streaks sc)).

Definition getViewsInCooldown (now : Z) (sc : scheduler) : list string :=
  jm_keys (filter (λ e, isViewInCooldown e.2 now = true) (streaks sc)).

Definition reset_streaks (views : list string) (m : jsmap string FailureStreak) : jsmap string FailureStreak :=
  foldl (λ m v, jm_set v {| s_count := 0; firstFailureAt := None |} m) m views.

Definition bump_streak (now : Z) (v : string) (m : jsmap string FailureStreak) : jsmap string FailureStreak :=
  let prior := default {| s_count := 0; firstFailureAt := None |} (jm_get v m) in
  let first := if failCooldownThreshold - 1 <=? s_count prior then firstFailureAt prior else Some now in
  jm_set v {| s_count := s_count prior + 1;
              firstFailureAt := match first with Some t => Some t | None => firstFailureAt prior end |} m.

(** The keys of [failedByName], a [Map] filled in order. *)
Definition failed_names (l : list ViewRefreshOutcome) : list string :=
  jm_keys (foldl (λ m o, jm_set (view o) o m) [] l).

Definition updateConsecutiveFailureStreaks (now : Z) (r : AnalyticsRefreshWorkerResult) (sc : scheduler) : scheduler :=
  {| isRunning := isRunning sc; active := active sc; runCount := runCount sc; lastResult := lastResult sc;
     streaks := foldl (λ m v, bump_streak now v m) (reset_streaks (wr_refreshedViews r) (streaks sc))
                  (failed_names (wr_failedViews r)) |}.

Inductive skip_reason := overlap | cooldown | lock_contention.

(** A tick up to the run of the worker: [locked] says whether the lock was
    obtained ([None] without one). *)
Definition tick_begin (now : Z) (locked : option bool) (sc : scheduler) : scheduler * option skip_reason :=
  if isRunning sc then (sc, Some overlap) else
  if isAnyViewInCooldown now sc then (sc, Some cooldown) else
  match locked with
  | Some false => (sc, Some lock_contention)
  | _ => ({| isRunning := true; active := active sc; runCount := runCount sc; lastResult := lastResult sc;
             streaks := streaks sc |}, None)
  end.

(** The worker has returned. *)
Definition tick_end (now : Z) (r : AnalyticsRefreshWorkerResult) (sc : scheduler) : scheduler :=
  let sc1 := updateConsecutiveFailureStreaks now r
    {| isRunning := isRunning sc; active := active sc; runCount := runCount sc + 1; lastResult := Some r;
       streaks := streaks sc |} in
  {| isRunning := false; active := active sc1; runCount := runCount sc1; lastResult := lastResult sc1;
     streaks := streaks sc1 |}.

(** Once a view has reached the threshold, further failures do not move the
    start of its cooldown: after the first window no failure is followed by a
    cooldown any more, however many there are. *)
Lemma bump_keeps_start v now now' m s t : jm_get v m = Some s → failCooldownThreshold - 1 ≤ s_count s →
  firstFailureAt s = Some t → t + failCooldownMs ≤ now' →
  ∃ s', jm_get v (bump_streak now v m) = Some s' ∧ s_count s' = s_count s + 1 ∧ firstFailureAt s' = Some t ∧
    isViewInCooldown s' now' = false.
Proof.
  intros Hs Hc Hf Hn. unfold bump_streak. rewrite Hs. simpl. rewrite jm_get_set, decide_True by done.
  eexists. split; [done|]. simpl. destruct (Z.leb_spec (failCooldownThreshold - 1) (s_count s)); [|lia].
  rewrite Hf. split_and!; [done|done|]. unfold isViewInCooldown; simpl. case_test; [done|]. apply Z.ltb_ge. lia.
Qed.

(** [n] failures in a row at the given times. *)
Definition fail_times (v : string) (ts : list Z) (m : jsmap string FailureStreak) : jsmap string FailureStreak :=
  foldl (λ m t, bump_streak t v m) m ts.

Theorem cooldown_only_once v ts m s t now' : jm_get v m = Some s → failCooldownThreshold - 1 ≤ s_count s →
  firstFailureAt s = Some t → t + failCooldownMs ≤ now' →
  ∃ s', jm_get v (fail_times v ts m) = Some s' ∧ s_count s' = s_count s + Z.of_nat (length ts) ∧
    isViewInCooldown s' now' = false.
Proof.
  revert m s. induction ts as [|x ts IH]; intros m s Hs Hc Hf Hn.
  { exists s. split_and!; [done|simpl; lia|]. unfold isViewInCooldown. case_test; [done|]. rewrite Hf. apply Z.ltb_ge. lia. }
  destruct (bump_keeps_start v x now' m s t Hs Hc Hf Hn) as (s1 & Hs1 & Hc1 & Hf1 & _).
  destruct (IH _ s1 Hs1) as (s' & Hs' & Hc' & Hcd); [lia|done|done|].
  exists s'. split_and!; [done|simpl; lia|done].
Qed.
End Scheduler.

(** With a threshold of one there is no cooldown at all: the start is never
    set. *)
Theorem threshold_one_never_cools v ts cooldownMs now' :
  ∀ s, jm_get v (fail_times 1 v ts []) = Some s → isViewInCooldown 1 cooldownMs s now' = false.
Proof.
  assert (∀ m, (∀ s, jm_get v m = Some s → 0 ≤ s_count s ∧ firstFailureAt s = None) →
    ∀ s, jm_get v (fail_times 1 v ts m) = Some s → firstFailureAt s = None) as H.
  { induction ts as [|x ts IH]; intros m Hm s Hs; [by apply Hm|]. eapply IH; [|exact Hs].
    intros s' . unfold bump_streak. rewrite jm_get_set, decide_True by done. intros [= <-]. simpl.
    destruct (jm_get v m) as [s0|] eqn:H0; simpl; [|split; [lia|done]]. destruct (Hm s0 eq_refl) as [? Hn].
    split; [lia|]. rewrite Hn. destruct (Z.leb_spec (1 - 1) (s_count s0)); [done|lia]. }
  intros s Hs. unfold isViewInCooldown. rewrite (H [] ltac:(done) s Hs). by case_test.
Qed.

(** ** Concrete ticks *)

Module AnalyticsExample.
Definition view1 : AnalyticsViewSpec := {| name := "analytics_metrics_mv"; statementTimeoutMs := 60000 |}.
Definition view2 : AnalyticsViewSpec := {| name := "other_mv"; statementTimeoutMs := 60000 |}.
Definition row0 : StateRow :=
  {| last_success_at := Some 0; last_attempt_at := 0; last_error := None; duration_ms := Some 0; updated_at := 0 |}.
Definition w0 : world :=
  {| ops := 0; data := {| state_rows := [("analytics_metrics_mv", row0)]; snapshots := [("analytics_metrics_mv", 0)] |};
     trace := []; generation := 7 |}.
Definition w0' : world :=
  {| ops := 0; data := {| state_rows := [("analytics_metrics_mv", row0); ("other_mv", row0)]; snapshots := snapshots (data w0) |};
     trace := []; generation := 7 |}.
Definition clk (n : nat) : Z := 1000 * Z.of_nat n.

(** A deadlock is retried and the tick succeeds; a missing view fails it. *)
Definition deadlock_once (n : nat) : option db_error :=
  if (n =? 3)%nat then Some {| code := Some "40P01"; message := "deadlock" |} else None.
Definition second_missing (n : nat) : option db_error :=
  if (n =? 8)%nat then Some {| code := Some "42P01"; message := "missing" |} else None.

Lemma refresh_all_or_none_witness :
  getAnalyticsCacheGeneration (refreshAll deadlock_once clk id 3 DEFAULT_TRANSIENT_KINDS [view1; view2] w0').1 = 8.
Proof.
  assert (registered [view1; view2] w0') as Hr.
  { intros v [->|[->|Hv%not_elem_of_nil]%elem_of_cons]%elem_of_cons; [by eexists..|done]. }
  pose proof (refresh_all_or_none deadlock_once clk id 3 DEFAULT_TRANSIENT_KINDS [view1; view2] w0' ltac:(lia) Hr) as H.
  destruct (refreshAll _ _ _ _ _ _ _) as [w' r] eqn:E. destruct H as (_ & _ & H & _).
  assert (failedViews r = []) as Hf by (vm_compute in E; by injection E as <- <-).
  rewrite decide_True in H by done. simpl in *. by destruct H as [_ ->].
Defined.

(** A view without a row in the state table is reported as refreshed. *)
Lemma missing_row_refreshed :
  refreshedViews (refreshAll (λ _, None) clk id 3 DEFAULT_TRANSIENT_KINDS [view2] w0).2 = ["other_mv"] ∧
  jm_get "other_mv" (state_rows (data (refreshAll (λ _, None) clk id 3 DEFAULT_TRANSIENT_KINDS [view2] w0).1)) = None.
Proof. by vm_compute. Qed.

(** A client whose RESET fails goes back to the pool with its timeout. *)
Lemma timeout_leaks : let fails n := if (n =? 4)%nat then Some {| code := None; message := "gone" |} else None in
  trace (refreshAll fails clk id 3 DEFAULT_TRANSIENT_KINDS [view1] w0).1 =
    [(Connect, true); (SetTimeout 60000, true); (MarkAttempt "analytics_metrics_mv", true); (Refresh "analytics_metrics_mv", true);
     (ResetTimeout, false); (Release, true)].
Proof. by vm_compute. Qed.

Lemma partial_failure_keeps_generation :
  let '(w', r) := refreshAll second_missing clk id 3 DEFAULT_TRANSIENT_KINDS [view1; view2] w0 in
  refreshedViews r = ["analytics_metrics_mv"] ∧ generation w' = 7.
Proof. by vm_compute. Qed.

(** One failure, then a success: the summary still says that the refresh failed
    recently, although the view has just been refreshed. *)
Definition fail_first (n : nat) : option db_error :=
  if (n =? 3)%nat then Some {| code := Some "42P01"; message := "missing" |} else None.
Definition w1 : world := (refreshAll fail_first clk id 3 DEFAULT_TRANSIENT_KINDS [view1] w0).1.
Definition w2 : world := (refreshAll fail_first clk id 3 DEFAULT_TRANSIENT_KINDS [view1] w1).1.

Lemma failed_status_sticks :
  (refreshAll fail_first clk id 3 DEFAULT_TRANSIENT_KINDS [view1] w1).2.(failedViews) = [] ∧
  (λ s, (fresh s, refreshStatus s)) <$> getSummary 300 20000 (data w2) = Ok (true, failed_recently).
Proof. by vm_compute. Qed.

Lemma success_not_recorded_witness : marks "analytics_metrics_mv" w2 = marks "analytics_metrics_mv" w1.
Proof.
  pose proof (success_not_recorded fail_first clk id 3 DEFAULT_TRANSIENT_KINDS [view1] w1 ltac:(lia)) as H.
  unfold w2. destruct (refreshAll _ _ _ _ _ _ w1) as [w' r] eqn:E. apply H.
  vm_compute in E. by injection E as <- <-.
Defined.
End AnalyticsExample.
