(* ===== verification/Impersonation.v ===== *)
(** * Impersonation tokens

    [services/impersonation/index.ts] on
    [repositories/impersonationTokenRepository.ts]. The table is keyed by
    [token_id]. Each SQL statement is atomic and may fail, with its effect or
    without; issuing and revoking are cut at their waits, so other calls run
    between the check, the change of the table and the audit entry, which may be
    lost. That the caller is an admin is checked by the routes, which are not
    here. Times are in milliseconds, as the ISO strings carry them. *)

From stdpp Require Import base option list strings gmap.
From Stdlib Require Import ZArith Lia.
From S2P Require Import Prelude JsLib.

Open Scope Z_scope.

(** ** Data *)

Record ImpersonationToken := {
  tokenId : string;
  issuedBy : string;
  issuedByEmail : string;
  targetUserId : string;
  targetUserEmail : string;
  reason : string;
  issuedAt : Z;
  expiresAt : Z;
  revoked : bool;
  revokedAt : option Z;
  revokedBy : option string
}.

Record IssueImpersonationTokenRequest := {
  rq_targetUserId : string; rq_reason : string; rq_ttlSeconds : option Z
}.

Record IssueImpersonationTokenResponse := {
  rs_tokenId : string; rs_targetUserId : string; rs_targetUserEmail : string; rs_expiresAt : Z;
  rs_ttlSeconds : Z
}.

Inductive audit_action := ISSUE_IMPERSONATION_TOKEN | REVOKE_IMPERSONATION_TOKEN.

Record AuditEntry := {
  au_actor : string; au_action : audit_action; au_target : string; au_token : option string;
  au_success : bool
}.

Inductive imp_error :=
| ReasonRequired
| UserNotFound (id : string)
| TokenNotFound (id : string)
| AlreadyRevoked (id : string)
| DuplicateToken                      (* the primary key of the table *)
| StatementFailed                     (* the database gave no answer *)
| AuditFailed.                        (* the audit log refused an entry *)

Definition DEFAULT_TTL_SECONDS : Z := 900.
Definition MAX_TTL_SECONDS : Z := 3600.

(** ** The repository *)

Abbreviation tokens := (gmap string ImpersonationToken).

Definition create (t : ImpersonationToken) (db : tokens) : result imp_error tokens :=
  match db !! tokenId t with Some _ => Err DuplicateToken | None => Ok (<[tokenId t := t]> db) end.

Definition valid_at (now : Z) (t : ImpersonationToken) : bool := negb (revoked t) && (now <? expiresAt t).

Definition findValid (id : string) (now : Z) (db : tokens) : option ImpersonationToken :=
  t ← db !! id; if valid_at now t then Some t else None.

Definition findById (id : string) (db : tokens) : option ImpersonationToken := db !! id.

Definition revoke_row (by_ : string) (now : Z) (t : ImpersonationToken) : ImpersonationToken :=
  {| tokenId := tokenId t; issuedBy := issuedBy t; issuedByEmail := issuedByEmail t;
     targetUserId := targetUserId t; targetUserEmail := targetUserEmail t; reason := reason t;
     issuedAt := issuedAt t; expiresAt := expiresAt t; revoked := true; revokedAt := Some now;
     revokedBy := Some by_ |}.

Definition revoke (id by_ : string) (now : Z) (db : tokens) : tokens * bool :=
  match db !! id with
  | Some t => if revoked t then (db, false) else (<[id := revoke_row by_ now t]> db, true)
  | None => (db, false)
  end.

Definition deleteExpired (now : Z) (db : tokens) : tokens * Z :=
  (filter (λ e, now < expiresAt e.2) db, Z.of_nat (size (filter (λ e, expiresAt e.2 ≤ now) db))).

(** ** The service *)

(** A call that waits for its audit entry, with what it answers then. *)
Record pending := { entry : AuditEntry; outcome : result imp_error (option IssueImpersonationTokenResponse) }.

Record imp_state := {
  db : tokens;
  log : list AuditEntry;
  revoking : list (string * ImpersonationToken);     (* revocations that passed their checks, with the admin *)
  logging : list pending
}.

(** How a statement ends: it is done, or fails without its effect or with it. *)
Inductive statement := Done | Failed | AnswerLost.
Definition executed (f : statement) : bool := match f with Failed => false | _ => true end.

(** A call starts to wait for its audit entry. *)
Definition to_log (d : tokens) (x : pending) (s : imp_state) : imp_state :=
  {| db := d; log := log s; revoking := revoking s; logging := logging s ++ [x] |}.

Definition set_tokens (d : tokens) (s : imp_state) : imp_state :=
  {| db := d; log := log s; revoking := revoking s; logging := logging s |}.

Section Service.
(** [userRepo.findById]: the email of a user. *)
Variable findUser : string → option string.

Definition ttl_of (r : IssueImpersonationTokenRequest) : Z :=
  Z.min (default DEFAULT_TTL_SECONDS (rq_ttlSeconds r)) MAX_TTL_SECONDS.

(** The record an issue creates, with the random id it drew. *)
Definition new_record (admin email : string) (r : IssueImpersonationTokenRequest) (target_email : string)
  (now : Z) (token : string) : ImpersonationToken :=
  {| tokenId := token; issuedBy := admin; issuedByEmail := email; targetUserId := rq_targetUserId r;
     targetUserEmail := target_email; reason := trim (rq_reason r); issuedAt := now;
     expiresAt := now + ttl_of r * 1000; revoked := false; revokedAt := None; revokedBy := None |}.

Definition issue_entry (admin : string) (r : IssueImpersonationTokenRequest) (token : option string) : AuditEntry :=
  {| au_actor := admin; au_action := ISSUE_IMPERSONATION_TOKEN; au_target := rq_targetUserId r; au_token := token;
     au_success := isSome token |}.

(** [issueToken] up to its audit entry; [None] while it waits for it. *)
Definition issue_begin (admin email : string) (r : IssueImpersonationTokenRequest) (now : Z) (token : string)
  (insert : statement) (s : imp_state) : imp_state * option imp_error :=
  let refuse e := (to_log (db s) {| entry := issue_entry admin r None; outcome := Err e |} s, None) in
  if String.eqb (rq_reason r) EmptyString || (slen (trim (rq_reason r)) =? 0) then refuse ReasonRequired
  else
  match findUser (rq_targetUserId r) with
  | None => refuse (UserNotFound (rq_targetUserId r))
  | Some target_email =>
      match create (new_record admin email r target_email now token) (db s) with
      | Err e => (s, Some e)
      | Ok d =>
          match insert with
          | Done =>
              (to_log d {| entry := issue_entry admin r (Some token);
                           outcome := Ok (Some {| rs_tokenId := token; rs_targetUserId := rq_targetUserId r;
                                                  rs_targetUserEmail := target_email; rs_expiresAt := now + ttl_of r * 1000;
                                                  rs_ttlSeconds := ttl_of r |}) |} s, None)
          | f => (set_tokens (if executed f then d else db s) s, Some StatementFailed)
          end
      end
  end.

(** [await this.auditLog.logAction(...)] and what follows: [audited] says whether
    it succeeds. *)
Definition logAction (audited : bool) (x : pending) (s : imp_state) : imp_state * result imp_error (option IssueImpersonationTokenResponse) :=
  ({| db := db s; log := if audited then log s ++ [entry x] else log s; revoking := revoking s; logging := logging s |},
   if audited then outcome x else Err AuditFailed).

(** [revokeToken] up to its UPDATE. *)
Definition revoke_begin (admin id : string) (s : imp_state) : imp_state * result imp_error () :=
  match findById id (db s) with
  | None => (s, Err (TokenNotFound id))
  | Some t =>
      if revoked t then (s, Err (AlreadyRevoked id)) else
      ({| db := db s; log := log s; revoking := revoking s ++ [(admin, t)]; logging := logging s |}, Ok ())
  end.

(** The UPDATE, whose number of rows is not looked at. *)
Definition revoke_update (admin : string) (t : ImpersonationToken) (now : Z) (f : statement) (s : imp_state) : imp_state * option imp_error :=
  let d := if executed f then (revoke (tokenId t) admin now (db s)).1 else db s in
  match f with
  | Done =>
      (to_log d {| entry := {| au_actor := admin; au_action := REVOKE_IMPERSONATION_TOKEN; au_target := targetUserId t;
                               au_token := Some (tokenId t); au_success := true |}; outcome := Ok None |} s, None)
  | _ => (set_tokens d s, Some StatementFailed)
  end.

Definition validateToken (id : string) (now : Z) (s : imp_state) : option ImpersonationToken :=
  findValid id now (db s).

Definition cleanupExpiredTokens (now : Z) (s : imp_state) : imp_state * Z :=
  let '(d, n) := deleteExpired now (db s) in (set_tokens d s, n).

(** ** Everything that can happen *)

Inductive imp_op :=
| Issue (admin email : string) (r : IssueImpersonationTokenRequest) (now : Z) (token : string) (insert : statement)
| RevokeBegin (admin id : string)
| RevokeUpdate (call : nat) (now : Z) (f : statement)
| Log (call : nat) (audited : bool)
| Cleanup (now : Z).

Definition run_op (o : imp_op) (s : imp_state) : imp_state :=
  match o with
  | Issue admin email r now token insert => (issue_begin admin email r now token insert s).1
  | RevokeBegin admin id => (revoke_begin admin id s).1
  | RevokeUpdate call now f =>
      match revoking s !! call with
      | Some (admin, t) =>
          (revoke_update admin t now f {| db := db s; log := log s; revoking := delete call (revoking s); logging := logging s |}).1
      | None => s
      end
  | Log call audited =>
      match logging s !! call with
      | Some x => (logAction audited x {| db := db s; log := log s; revoking := revoking s; logging := delete call (logging s) |}).1
      | None => s
      end
  | Cleanup now => (cleanupExpiredTokens now s).1
  end.

Definition run_ops (os : list imp_op) (s : imp_state) : imp_state := foldl (λ s o, run_op o s) s os.

Definition new_imp : imp_state := {| db := ∅; log := []; revoking := []; logging := [] |}.

(** ** Properties *)

(** The token was issued by this operation, for a user there is and a reason
    that is not blank. *)
Definition issued_by (o : imp_op) (t : ImpersonationToken) : Prop :=
  ∃ admin email r now token target_email insert, o = Issue admin email r now token insert ∧
    findUser (rq_targetUserId r) = Some target_email ∧ trim (rq_reason r) ≠ EmptyString ∧
    tokenId t = token ∧ issuedBy t = admin ∧ targetUserId t = rq_targetUserId r ∧
    targetUserEmail t = target_email ∧ reason t = trim (rq_reason r) ∧ issuedAt t = now ∧
    expiresAt t = now + ttl_of r * 1000.

Definition entry_of (t : ImpersonationToken) : AuditEntry :=
  {| au_actor := issuedBy t; au_action := ISSUE_IMPERSONATION_TOKEN; au_target := targetUserId t;
     au_token := Some (tokenId t); au_success := true |}.

(** The issue of the token is in the log, or its call is waiting to write it. *)
Definition is_logged (t : ImpersonationToken) (s : imp_state) : Prop :=
  entry_of t ∈ log s ∨ entry_of t ∈ entry <$> logging s.

(** The log takes every entry, and no INSERT loses its answer. *)
Definition nothing_lost (os : list imp_op) : Prop :=
  (∀ call audited, Log call audited ∈ os → audited = true) ∧
  ∀ admin email r now token insert, Issue admin email r now token insert ∈ os → insert ≠ AnswerLost.

Record imp_ok (os : list imp_op) (s : imp_state) : Prop := {
  imp_rows i t : db s !! i = Some t →
    tokenId t = i ∧ (∃ o, o ∈ os ∧ issued_by o t) ∧ (nothing_lost os → is_logged t s);
  imp_pending p : p ∈ revoking s → ∃ o, o ∈ os ∧ issued_by o p.2
}.

Lemma revoke_lookup i by_ now d j :
  (revoke i by_ now d).1 !! j = (λ t, if decide (j = i) then (if revoked t then t else revoke_row by_ now t) else t) <$> d !! j.
Proof.
  unfold revoke. destruct (d !! i) as [t|] eqn:E.
  - destruct (revoked t) eqn:Hr; simpl.
    + destruct (d !! j) as [t'|] eqn:Hj; [|done]. simpl. case_decide; [|done]. subst. simplify_eq. by rewrite Hr.
    + destruct (decide (j = i)) as [->|].
      * rewrite lookup_insert_eq, E. simpl. by rewrite Hr.
      * rewrite lookup_insert_ne by done. by destruct (d !! j).
  - simpl. destruct (d !! j) as [t'|] eqn:Hj; [|done]. simpl. rewrite decide_False; [done|]. intros ->. congruence.
Qed.

Lemma nothing_lost_app os o : nothing_lost (os ++ [o]) → nothing_lost os.
Proof. intros [H1 H2]. split; intros *; intros Hin; [eapply H1|eapply H2]; apply elem_of_app; by left. Qed.

(** Weakening: more operations, more entries, rows that stay or are revoked. *)
Lemma imp_ok_keep os o s s' : imp_ok os s →
  (∀ i t', db s' !! i = Some t' → ∃ t by_ now, db s !! i = Some t ∧ (t' = t ∨ t' = revoke_row by_ now t)) →
  (nothing_lost (os ++ [o]) → ∀ t, is_logged t s → is_logged t s') →
  (∀ p, p ∈ revoking s' → p ∈ revoking s ∨ ∃ i, db s !! i = Some p.2) →
  imp_ok (os ++ [o]) s'.
Proof.
  intros [Hr Hp] Hrows Hlog Hpend.
  assert (∀ t, (∃ o, o ∈ os ∧ issued_by o t) → ∃ o', o' ∈ os ++ [o] ∧ issued_by o' t) as Hmore.
  { intros t (o' & Hin & Hi). exists o'. split; [|done]. apply elem_of_app. by left. }
  split.
  - intros i t' Ht'. destruct (Hrows i t' Ht') as (t & by_ & now & Ht & E).
    destruct (Hr i t Ht) as (Hid & Hi & Hl).
    assert (nothing_lost (os ++ [o]) → is_logged t s') as Hl' by (intros Ha; apply Hlog, Hl; [done|by eapply nothing_lost_app]).
    destruct E as [->| ->]; split_and!; [done|by apply Hmore|done|done| |done].
    destruct (Hmore t Hi) as (o' & Hin & Ho'). by exists o'.
  - intros p Hin. destruct (Hpend p Hin) as [Hold|[i Hi]]; [by apply Hmore, Hp|].
    apply Hmore. by destruct (Hr i _ Hi) as (_ & ? & _).
Qed.

(** The same table, and at least the entries. *)
Lemma imp_ok_same os o s s' : imp_ok os s → db s' = db s → (nothing_lost (os ++ [o]) → ∀ t, is_logged t s → is_logged t s') →
  revoking s' = revoking s → imp_ok (os ++ [o]) s'.
Proof.
  intros Hok Hd Hl Hr. apply (imp_ok_keep os _ s); [done| |done|rewrite Hr; by left].
  intros i t. rewrite Hd. intros Ht. exists t, EmptyString, 0. auto.
Qed.

Lemma to_log_more d x s t : is_logged t s → is_logged t (to_log d x s).
Proof. intros [H|H]; [by left|right]. simpl. rewrite fmap_app. apply elem_of_app. by left. Qed.

Lemma logged_now os call audited s x : nothing_lost (os ++ [Log call audited]) → logging s !! call = Some x →
  ∀ t, is_logged t s → is_logged t (run_op (Log call audited) s).
Proof.
  intros [Ha _] Hx t. assert (audited = true) as -> by (eapply Ha; apply elem_of_app; right; left). simpl. rewrite Hx. unfold is_logged. simpl.
  intros [H|(y & Hy & (j & Hj)%list_elem_of_lookup)%list_elem_of_fmap]; [left; apply elem_of_app; by left|].
  destruct (decide (j = call)) as [->|Hne].
  - left. rewrite Hj in Hx. injection Hx as ->. apply elem_of_app. right. rewrite Hy. left.
  - right. rewrite Hy. apply list_elem_of_fmap_2. rewrite delete_take_drop. apply elem_of_app.
    destruct (decide (j < call)%nat); [left; apply list_elem_of_lookup; exists j; by rewrite lookup_take_lt|right].
    apply list_elem_of_lookup. exists (j - S call)%nat. rewrite lookup_drop. by replace (S call + (j - S call))%nat with j by lia.
Qed.

Lemma issue_ok os admin email r now token insert s : imp_ok os s →
  imp_ok (os ++ [Issue admin email r now token insert]) (issue_begin admin email r now token insert s).1.
Proof.
  intros Hok. unfold issue_begin. set (o := Issue admin email r now token insert).
  assert (∀ e, imp_ok (os ++ [o]) (to_log (db s) {| entry := issue_entry admin r None; outcome := Err e |} s)) as Hrefuse
    by (intros e; apply (imp_ok_same os _ s); auto using to_log_more).
  destruct (String.eqb (rq_reason r) EmptyString || (slen (trim (rq_reason r)) =? 0)) eqn:Hreason; [apply Hrefuse|].
  destruct (findUser (rq_targetUserId r)) as [te|] eqn:Hu; [|apply Hrefuse].
  assert (imp_ok (os ++ [o]) s) as Hsame by (by apply (imp_ok_same os _ s)).
  unfold create. cbn [new_record tokenId]. destruct (db s !! token) as [t0|] eqn:Hnew; cbn [fst]; [done|].
  apply orb_false_iff in Hreason as [_ Hreason].
  assert (∃ o', o' ∈ os ++ [o] ∧ issued_by o' (new_record admin email r te now token)) as Hby.
  { exists o. split; [apply elem_of_app; right; left|]. exists admin, email, r, now, token, te, insert.
    split_and!; try done. intros E. by rewrite E in Hreason. }
  assert (∀ s', (∀ i, db s' !! i = <[token := new_record admin email r te now token]> (db s) !! i) → revoking s' = revoking s →
    (∀ t, is_logged t s → is_logged t s') → (nothing_lost (os ++ [o]) → is_logged (new_record admin email r te now token) s') →
    imp_ok (os ++ [o]) s') as Hnewrow.
  { intros s' Hd Hrv Hl Hn. destruct Hsame as [Hr Hp]. split; [|by rewrite Hrv]. intros i t. rewrite Hd.
    intros [[<- <-]|[Hne Ht]]%lookup_insert_Some; [done|]. destruct (Hr i t Ht) as (? & ? & ?). split_and!; auto. }
  destruct insert; cbn [fst executed].
  - apply Hnewrow; [done|done|by apply to_log_more|]. intros _. right. simpl. rewrite fmap_app. apply elem_of_app. right. left.
  - by apply (imp_ok_same os _ s).
  - apply Hnewrow; [done|done|done|]. intros [_ Hno]. destruct (Hno admin email r now token AnswerLost); [|done].
    apply elem_of_app. right. left.
Qed.

Lemma op_ok os o s : imp_ok os s → imp_ok (os ++ [o]) (run_op o s).
Proof.
  intros Hok. destruct o as [admin email r now token insert|admin i|call now f|call audited|now].
  - by apply issue_ok.
  - simpl. unfold revoke_begin, findById. destruct (db s !! i) as [t|] eqn:Ht; [|by apply (imp_ok_same os _ s)].
    destruct (revoked t); [by apply (imp_ok_same os _ s)|]. apply (imp_ok_keep os _ s); [done| |done|]; simpl.
    + intros j t' Hj. exists t', EmptyString, 0. auto.
    + intros p [Hp| ->%list_elem_of_singleton]%elem_of_app; [by left|right]. by exists i.
  - simpl. destruct (revoking s !! call) as [[admin t]|] eqn:Hc; [|by apply (imp_ok_same os _ s)].
    apply (imp_ok_keep os _ s); [done| | |].
    + intros j t'. assert (∀ d, d !! j = Some t' → (d = db s ∨ d = (revoke (tokenId t) admin now (db s)).1) →
        ∃ t0 by_ now0, db s !! j = Some t0 ∧ (t' = t0 ∨ t' = revoke_row by_ now0 t0)) as Hd.
      { intros d Hd [->| ->]; [exists t', EmptyString, 0; auto|]. rewrite revoke_lookup in Hd. apply fmap_Some in Hd as (t0 & Ht0 & ->).
        exists t0, admin, now. split; [done|]. destruct (decide (j = tokenId t)); [|by left]. destruct (revoked t0); [by left|by right]. }
      destruct f; cbn; intros Hj; (eapply Hd; [exact Hj|]); auto.
    + intros _ x Hx. destruct f; cbn; [|done..]. by apply to_log_more.
    + intros p Hp. left. destruct f; cbn in Hp; by eapply elem_of_list_delete.
  - destruct (logging s !! call) as [x|] eqn:Hx.
    + apply (imp_ok_same os _ s); [done|simpl; by rewrite Hx| |simpl; by rewrite Hx]. intros Hn. by eapply logged_now.
    + simpl. rewrite Hx. by apply (imp_ok_same os _ s).
  - apply (imp_ok_keep os _ s); [done| |done|by left]. simpl.
    intros i t' [Ht _]%map_lookup_filter_Some. exists t', EmptyString, 0. auto.
Qed.

Lemma ops_ok os : imp_ok os (run_ops os new_imp).
Proof.
  induction os as [|o os IH] using rev_ind.
  - split; [intros i t; simpl; by rewrite lookup_empty|by intros p ?%elem_of_nil].
  - unfold run_ops. rewrite foldl_app. simpl. by apply op_ok.
Qed.

(** A token that cannot validate any more. *)
Definition dead (i : string) (s : imp_state) : Prop := ∀ t, db s !! i = Some t → revoked t = true.

Lemma revoke_dead i j by_ now s d : dead i s → d = db s ∨ d = (revoke j by_ now (db s)).1 → ∀ t, d !! i = Some t → revoked t = true.
Proof.
  intros Hd [->| ->] t; [apply Hd|]. rewrite revoke_lookup. intros (t1 & Ht1%Hd & ->)%fmap_Some. by case_decide; rewrite ?Ht1.
Qed.

Lemma op_dead i o s : (∀ admin email r now insert, o ≠ Issue admin email r now i insert) →
  dead i s → dead i (run_op o s).
Proof.
  intros Hne Hd. destruct o as [admin email r now token insert|admin j|call now f|call audited|now]; simpl.
  - unfold issue_begin. case_match; [apply Hd|]. case_match; [|apply Hd]. unfold create. cbn [new_record tokenId].
    destruct (db s !! token) eqn:E; [apply Hd|]. assert (token ≠ i) as Hti by (intros ->; by eapply Hne).
    intros t. destruct insert; cbn; [|apply Hd|]; rewrite lookup_insert_ne by done; apply Hd.
  - unfold revoke_begin. destruct (findById j (db s)) as [t0|]; [destruct (revoked t0)|]; apply Hd.
  - destruct (revoking s !! call) as [[admin t0]|]; [|apply Hd]. intros t. destruct f; cbn; (apply (revoke_dead i (tokenId t0) admin now s); [exact Hd|]); auto.
  - destruct (logging s !! call); apply Hd.
  - intros t [Ht _]%map_lookup_filter_Some. by apply Hd.
Qed.

Lemma ops_dead i os s : (∀ a e r n b, Issue a e r n i b ∉ os) → dead i s → dead i (run_ops os s).
Proof.
  revert s. induction os as [|o os IH]; intros s Hno Hd; [done|]. simpl. apply IH.
  - intros a e r n b Hin. eapply Hno. by right.
  - apply op_dead; [|done]. intros a e r n b ->. eapply Hno. left.
Qed.

(** C21. Impersonation is bounded and accounted for. However the statements of
    calls interleave and whatever fails: a token that validates was issued by a
    call of [issueToken] in the name of the issuer it records, for an existing
    user with a reason, carries exactly that, and lives at most an hour from its
    issue; its issue is in the audit log or its call is still waiting to write it
    there, unless the log lost an entry or an INSERT its answer. From the UPDATE
    of a revocation on, even one whose answer is lost, the token never validates
    again, unless its random id is drawn again; and the sweep of expired tokens
    takes none that would still validate. *)
Theorem impersonation_bounded os :
  let s := run_ops os new_imp in
  (∀ i now t, validateToken i now s = Some t →
     tokenId t = i ∧ revoked t = false ∧ now < expiresAt t ∧ expiresAt t ≤ issuedAt t + 3600000 ∧
     (∃ o, o ∈ os ∧ issued_by o t) ∧ (nothing_lost os → is_logged t s)) ∧
  (∀ call admin p t1 f os' now, revoking s !! call = Some (admin, p) → f ≠ Failed →
     (∀ a e r n b, Issue a e r n (tokenId p) b ∉ os') →
     validateToken (tokenId p) now (run_ops os' (run_op (RevokeUpdate call t1 f) s)) = None) ∧
  (∀ i swept now, swept ≤ now →
     validateToken i now (cleanupExpiredTokens swept s).1 = validateToken i now s).
Proof.
  intros s. pose proof (ops_ok os) as Hok. fold s in Hok. split_and!.
  - intros i now t. unfold validateToken, findValid. destruct (db s !! i) as [t0|] eqn:Ht; [|done]. simpl.
    unfold valid_at. destruct (revoked t0) eqn:Hr; [done|]. simpl. destruct (Z.ltb_spec now (expiresAt t0)); [|done].
    intros [= <-]. destruct (imp_rows _ _ Hok i t0 Ht) as (Hid & Hi & Hl). split_and!; try done.
    destruct Hi as (o & _ & a & e & r & n & k & te & b & _ & _ & _ & _ & _ & _ & _ & _ & -> & ->).
    unfold ttl_of, MAX_TTL_SECONDS. lia.
  - intros call admin p t1 f os' now Hc Hf Hno.
    assert (dead (tokenId p) (run_op (RevokeUpdate call t1 f) s)) as Hd.
    { simpl. rewrite Hc. intros t. assert (∀ d, d = (revoke (tokenId p) admin t1 (db s)).1 → d !! tokenId p = Some t → revoked t = true) as H.
      { intros d ->. rewrite revoke_lookup. intros (t0 & Ht0 & ->)%fmap_Some. rewrite decide_True by done. by destruct (revoked t0) eqn:?. }
      destruct f; cbn; [|done|]; by apply H. }
    apply (ops_dead _ os') in Hd; [|done].
    unfold validateToken, findValid. destruct (db (run_ops os' _) !! tokenId p) as [t|] eqn:Ht; [|done]. simpl.
    unfold valid_at. by rewrite (Hd t Ht).
  - intros i swept now Hle. unfold validateToken, findValid, cleanupExpiredTokens, deleteExpired; cbn [fst db set_tokens].
    rewrite map_lookup_filter. destruct (db s !! i) as [t|]; [|done]. simpl.
    destruct (decide (swept < expiresAt t)); rewrite ?option_guard_True, ?option_guard_False by done; [done|]. simpl.
    unfold valid_at. destruct (Z.ltb_spec now (expiresAt t)); [lia|]. by rewrite andb_false_r.
Qed.
End Service.

(** ** Concrete calls *)

Module ImpersonationExample.
Definition users (i : string) : option string := if String.eqb i "u1" then Some "u1@x" else None.
Definition req : IssueImpersonationTokenRequest :=
  {| rq_targetUserId := "u1"; rq_reason := " ticket 7 "; rq_ttlSeconds := Some 86400 |}.
Definition os1 : list imp_op :=
  [Issue "admin" "a@x" req 1000 "tok" Done; Log 0 true; RevokeBegin "admin" "tok"; RevokeBegin "boss" "tok"].

(** A day is asked for, an hour given. *)
Lemma impersonation_bounded_witness : ∃ t, validateToken "tok" 2000 (run_ops users os1 new_imp) = Some t ∧
  expiresAt t ≤ issuedAt t + 3600000 ∧
  validateToken "tok" 2000 (run_op users (RevokeUpdate 0 1500 Done) (run_ops users os1 new_imp)) = None.
Proof.
  destruct (impersonation_bounded users os1) as (H1 & H2 & _).
  eexists. split; [by vm_compute|]. split; [eapply (H1 "tok" 2000); by vm_compute|].
  apply (H2 0%nat "admin" (new_record "admin" "a@x" req "u1@x" 1000 "tok") 1500 Done [] 2000); [by vm_compute|done|].
  intros ? ? ? ? ? ?%elem_of_nil. done.
Defined.

(** Two admins revoke at once: both are told so and both are logged as having
    revoked, although the second UPDATE changed nothing. *)
Lemma second_revocation_logged :
  let s := run_ops users (os1 ++ [RevokeUpdate 0 1500 Done; RevokeUpdate 0 1600 Done; Log 0 true; Log 0 true]) new_imp in
  au_actor <$> filter (λ e, au_token e = Some "tok" ∧ au_actor e ≠ EmptyString) (log s) = ["admin"; "admin"; "boss"] ∧
  (revokedBy <$> db s !! "tok") = Some (Some "admin").
Proof. by vm_compute. Qed.

(** A token whose audit entry fails stays valid, although the caller is told
    that the issue failed; and one is valid before it is in the log. *)
Lemma unaudited_token_valid :
  let s := run_ops users [Issue "admin" "a@x" req 1000 "tok" Done] new_imp in
  is_Some (validateToken "tok" 2000 s) ∧ log s = [] ∧
  ∀ x, logging s !! 0%nat = Some x → (logAction false x s).2 = Err AuditFailed ∧
    is_Some (validateToken "tok" 2000 (run_op users (Log 0 false) s)) ∧ log (run_op users (Log 0 false) s) = [].
Proof. split_and!; [by eexists; vm_compute|done|]. intros x [= <-]. split_and!; [done|by eexists; vm_compute|done]. Qed.
End ImpersonationExample.
