(* ===== verification/AuthGuard.v ===== *)
(** * The guard of API key lookups

    [auth/concurrency.ts] over [SingleFlight] ([lib/singleflight.ts], modelled in
    [ApiKeys]). A call of [validate] is refused or joins the burst of its raw
    key; when the lookup of the burst returns, one verdict is decided and given
    to every caller of the burst. The history of decisions and evictions is
    kept beside the state. *)

From stdpp Require Import base option list strings gmap sorting relations.
From Stdlib Require Import ZArith Lia Ascii.
From S2P Require Import Prelude JsLib ApiKeys.
Import SingleFlight.

Open Scope Z_scope.

(** ** Data *)

Inductive AuthValidateResult :=
| AuthOk (key : StoredApiKey)
| AuthFail (status : Z) (error : string) (retryAfter : option Z).

(** The default order of [Array.prototype.sort] on strings. *)
Definition str_le (a b : string) : Prop := String.leb a b = true.
#[export] Instance str_le_dec : RelDecision str_le := λ a b, decide (String.leb a b = true).
#[export] Instance str_le_total : Total str_le.
Proof.
  intros a b. unfold str_le, String.leb. rewrite (String.compare_antisym b a).
  destruct (String.compare a b); simpl; auto.
Qed.
#[export] Instance str_le_trans : Transitive str_le.
Proof. intros a b c. apply str_leb_trans. Qed.

#[export] Instance str_le_antisym : AntiSymm (=) str_le.
Proof.
  intros a b. unfold str_le, String.leb. rewrite (String.compare_antisym b a).
  destruct (String.compare a b) eqn:E; [by apply String.compare_eq_iff in E|done..].
Qed.

Definition scopeFingerprint (scopes : list string) : string := join_on ","%char (merge_sort str_le scopes).

Inductive decision :=
| Decided (rawKey : string) (looked_up : option StoredApiKey) (verdict : AuthValidateResult)
| Evicted (keyId : string).

Record guard := {
  sf : flight_map AuthValidateResult;
  scopeSnapshots : gmap string string;
  overloaded : gset nat;                 (* the calls answered 503 *)
  history : list decision
}.

Section Guard.
Variables (maxInFlight conflictRetryAfterSeconds overloadRetryAfterSeconds : Z).

Definition new_AuthConcurrencyGuard : guard :=
  {| sf := new_SingleFlight; scopeSnapshots := ∅; overloaded := ∅; history := [] |}.

Definition inFlightCount (g : guard) : Z := Z.of_nat (SingleFlight.size (sf g)).
Definition snapshotCount (g : guard) : Z := Z.of_nat (base.size (scopeSnapshots g)).

Definition overload_verdict : AuthValidateResult :=
  AuthFail 503 "Auth service temporarily unavailable — too many concurrent requests"
    (Some overloadRetryAfterSeconds).

Definition is_overloaded (g : guard) : bool := (0 <? maxInFlight) && (maxInFlight <=? inFlightCount g).

(** [validate] up to its wait. *)
Definition validate (c : nat) (rawKey : string) (g : guard) : guard :=
  if is_overloaded g
  then {| sf := sf g; scopeSnapshots := scopeSnapshots g; overloaded := {[c]} ∪ overloaded g;
          history := history g |}
  else {| sf := do_ c rawKey (sf g); scopeSnapshots := scopeSnapshots g; overloaded := overloaded g;
          history := history g |}.

Definition evict (keyId : string) (g : guard) : guard :=
  {| sf := sf g; scopeSnapshots := delete keyId (scopeSnapshots g); overloaded := overloaded g;
     history := history g ++ [Evicted keyId] |}.

(** The snapshots after the decision, and the verdict. *)
Definition decideForBurst (key : option StoredApiKey) (snapshots : gmap string string)
  : gmap string string * AuthValidateResult :=
  match key with
  | None => (snapshots, AuthFail 401 "Invalid or revoked API key" None)
  | Some k =>
      let currentFingerprint := scopeFingerprint (scopes k) in
      match snapshots !! id k with
      | Some previousFingerprint =>
          if String.eqb previousFingerprint currentFingerprint
          then (<[id k := currentFingerprint]> snapshots, AuthOk k)
          else (delete (id k) snapshots,
                AuthFail 409 "API key scope was modified concurrently — retry the request to obtain the current scope set"
                  (Some conflictRetryAfterSeconds))
      | None => (<[id k := currentFingerprint]> snapshots, AuthOk k)
      end
  end.

(** The lookup of the burst of [rawKey] returned, or threw. *)
Definition lookup_done (rawKey : string) (r : result () (option StoredApiKey)) (g : guard) : guard :=
  match r with
  | Err _ =>
      let verdict := AuthFail 401 "Authentication lookup failed" None in
      {| sf := settle rawKey verdict (sf g); scopeSnapshots := scopeSnapshots g; overloaded := overloaded g;
         history := history g ++ [Decided rawKey None verdict] |}
  | Ok key =>
      let '(snapshots, verdict) := decideForBurst key (scopeSnapshots g) in
      {| sf := settle rawKey verdict (sf g); scopeSnapshots := snapshots; overloaded := overloaded g;
         history := history g ++ [Decided rawKey key verdict] |}
  end.

Inductive gstep (g : guard) : guard → Prop :=
| g_validate c rawKey : calls (sf g) !! c = None → c ∉ overloaded g → gstep g (validate c rawKey g)
| g_lookup rawKey r : is_Some (inFlight (sf g) !! rawKey) → gstep g (lookup_done rawKey r g)
| g_evict keyId : gstep g (evict keyId g).

(** ** What the guard has seen *)

(** The scopes with which the key was last authorized, unless it was evicted, or
    a conflict reported, since. *)
Definition seen_step (i : string) (acc : option (list string)) (d : decision) : option (list string) :=
  match d with
  | Evicted j => if decide (j = i) then None else acc
  | Decided _ (Some k) (AuthOk _) => if decide (id k = i) then Some (scopes k) else acc
  | Decided _ (Some k) (AuthFail _ _ _) => if decide (id k = i) then None else acc
  | Decided _ None _ => acc
  end.

Definition last_scopes (i : string) (h : list decision) : option (list string) := foldl (seen_step i) None h.

Lemma last_scopes_snoc i h d : last_scopes i (h ++ [d]) = seen_step i (last_scopes i h) d.
Proof. unfold last_scopes. by rewrite foldl_app. Qed.

Record guard_ok (g : guard) : Prop := {
  gk_sf : sf_ok (sf g);
  gk_seen i : scopeSnapshots g !! i = scopeFingerprint <$> last_scopes i (history g);
  gk_bound : 0 < maxInFlight → inFlightCount g ≤ maxInFlight;
  gk_settled key c l v : calls (sf g) !! c = Some (key, Settled l v) → ∃ k, Decided key k v ∈ history g
}.

Lemma decide_seen rawKey k h snaps :
  (∀ i, snaps !! i = scopeFingerprint <$> last_scopes i h) →
  ∀ i, (decideForBurst k snaps).1 !! i = scopeFingerprint <$> last_scopes i (h ++ [Decided rawKey k (decideForBurst k snaps).2]).
Proof.
  intros Hs i. rewrite last_scopes_snoc. specialize (Hs i) as Hi. unfold decideForBurst. destruct k as [k|]; [|done].
  destruct (snaps !! id k) as [f|] eqn:E; [destruct (String.eqb f (scopeFingerprint (scopes k)))|]; simpl.
  - destruct (decide (id k = i)) as [->|]; [by rewrite lookup_insert_eq|by rewrite lookup_insert_ne].
  - destruct (decide (id k = i)) as [->|]; [by rewrite lookup_delete_eq|by rewrite lookup_delete_ne].
  - destruct (decide (id k = i)) as [->|]; [by rewrite lookup_insert_eq|by rewrite lookup_insert_ne].
Qed.

Lemma do_calls c key s c' st : calls (do_ c key s) !! c' = Some st →
  calls s !! c' = Some st ∨ (c' = c ∧ ∀ l (v : AuthValidateResult), st.2 ≠ Settled l v).
Proof.
  unfold do_. destruct (inFlight s !! key) as [[l ws]|]; cbn [calls];
    intros [[<- <-]|[_ H]]%lookup_insert_Some; auto.
Qed.

Lemma do_size c key (s : flight_map AuthValidateResult) : (SingleFlight.size (do_ c key s) ≤ S (SingleFlight.size s))%nat.
Proof.
  unfold do_, SingleFlight.size. destruct (inFlight s !! key) as [[l ws]|] eqn:E; cbn [inFlight].
  - rewrite map_size_insert_Some by (by rewrite E; eexists). apply Nat.le_succ_diag_r.
  - by rewrite map_size_insert_None by done.
Qed.

Lemma settle_size key v (s : flight_map AuthValidateResult) : (SingleFlight.size (settle key v s) ≤ SingleFlight.size s)%nat.
Proof.
  unfold settle, SingleFlight.size. destruct (inFlight s !! key) as [[l ws]|]; cbn [inFlight]; [|done].
  rewrite map_size_delete. case_match; [apply Nat.le_pred_l|done].
Qed.

Lemma settle_settled key v (s : flight_map AuthValidateResult) k c l v' :
  calls (settle key v s) !! c = Some (k, Settled l v') → calls s !! c = Some (k, Settled l v') ∨ (k = key ∧ v' = v).
Proof.
  unfold settle. destruct (inFlight s !! key) as [[l0 ws]|]; cbn [calls]; [|by left].
  rewrite answer_lookup. case_decide; [|by left]. intros [= <- <- <-]. by right.
Qed.

(** A decision on a burst keeps the invariant. *)
Lemma decided_ok rawKey k v snaps g : guard_ok g →
  (∀ i, snaps !! i = scopeFingerprint <$> last_scopes i (history g ++ [Decided rawKey k v])) →
  guard_ok {| sf := settle rawKey v (sf g); scopeSnapshots := snaps; overloaded := overloaded g;
              history := history g ++ [Decided rawKey k v] |}.
Proof.
  intros [H1 H2 H3 H4] Hs. split; cbn [sf scopeSnapshots history]; [by apply settle_ok|done| |].
  - intros Hm. specialize (H3 Hm). unfold inFlightCount in *; cbn [sf] in *.
    pose proof (settle_size rawKey v (sf g)). lia.
  - intros key c l v' [Hold|[-> ->]]%settle_settled.
    + destruct (H4 _ _ _ _ Hold) as [k' Hk']. exists k'. apply elem_of_app. by left.
    + exists k. apply elem_of_app. right. left.
Qed.

Lemma gstep_ok g g' : guard_ok g → gstep g g' → guard_ok g'.
Proof.
  intros Hok [c rawKey Hc Ho|rawKey r Hin|keyId].
  - pose proof Hok as [H1 H2 H3 H4]. unfold validate. destruct (is_overloaded g) eqn:Hov; [done|].
    split; cbn [sf scopeSnapshots history]; [by apply do_ok|done| |].
    + intros Hm. unfold is_overloaded in Hov. apply andb_false_iff in Hov as [Hov|Hov]; breflect; [lia|].
      unfold inFlightCount in *; cbn [sf]. pose proof (do_size c rawKey (sf g)). lia.
    + intros key c' l v [Hold|[_ Hn]]%do_calls; [by eapply H4|]. by destruct (Hn l v).
  - destruct r as [k|e]; simpl.
    + pose proof (decide_seen rawKey k (history g) _ (gk_seen _ Hok)) as Hs.
      destruct (decideForBurst k (scopeSnapshots g)) as [snaps v]. by apply decided_ok.
    + apply decided_ok; [done|]. intros i. rewrite last_scopes_snoc. apply (gk_seen _ Hok).
  - destruct Hok as [H1 H2 H3 H4]. split; cbn [evict sf scopeSnapshots history]; [done| |done|].
    + intros i. rewrite last_scopes_snoc. simpl. destruct (decide (keyId = i)) as [->|].
      * by rewrite lookup_delete_eq.
      * by rewrite lookup_delete_ne, H2.
    + intros key c l v Hs. destruct (H4 _ _ _ _ Hs) as [k Hk]. exists k. apply elem_of_app. by left.
Qed.

Lemma reachable_ok g : rtc gstep new_AuthConcurrencyGuard g → guard_ok g.
Proof.
  assert (guard_ok new_AuthConcurrencyGuard) as H0.
  { split; simpl; [|done|intros; unfold inFlightCount, SingleFlight.size; simpl; rewrite map_size_empty; lia|].
    - split; intros *; cbn [inFlight calls new_SingleFlight]; by rewrite lookup_empty.
    - intros *. by rewrite lookup_empty. }
  intros H. induction H as [|x y z Hxy _ IH]; [done|]. by apply IH, (gstep_ok x).
Qed.

(** Scopes that are told apart: not empty, and without a comma. *)
Definition plain_scopes (l : list string) : Prop := Forall (λ s, no_char "," s ∧ s ≠ EmptyString) l.

Lemma join_on_nonempty c (l : list string) : l ≠ [] → Forall (λ s, s ≠ EmptyString) l → join_on c l ≠ EmptyString.
Proof. destruct l as [|s l]; [done|]. intros _ [Hs _]%Forall_cons. destruct l; simpl; [done|]. by destruct s. Qed.

(** The fingerprint of plain scopes stands for them up to their order. *)
Lemma fingerprint_iff l1 l2 : plain_scopes l1 → plain_scopes l2 → scopeFingerprint l1 = scopeFingerprint l2 ↔ l1 ≡ₚ l2.
Proof.
  intros Hp1 Hp2. unfold scopeFingerprint.
  assert (∀ l, plain_scopes l → plain_scopes (merge_sort str_le l)) as Hsort.
  { intros l Hl. unfold plain_scopes. by rewrite merge_sort_Permutation. }
  split.
  - intros E. rewrite <- (merge_sort_Permutation str_le l1), <- (merge_sort_Permutation str_le l2).
    apply Hsort in Hp1, Hp2. revert E Hp1 Hp2. generalize (merge_sort str_le l1) (merge_sort str_le l2). clear. intros l1 l2 E Hp1 Hp2.
    assert (∀ l, plain_scopes l → Forall (no_char ",") l ∧ Forall (λ s, s ≠ EmptyString) l) as Hsplit.
    { intros l Hl. split; (eapply Forall_impl; [exact Hl|]); simpl; tauto. }
    destruct (Hsplit _ Hp1) as [Hc1 Hn1], (Hsplit _ Hp2) as [Hc2 Hn2].
    destruct (decide (l1 = [])) as [->|H1], (decide (l2 = [])) as [->|H2]; [done| | |].
    + by destruct (join_on_nonempty ","%char l2 H2 Hn2).
    + by destruct (join_on_nonempty ","%char l1 H1 Hn1).
    + rewrite <- (join_on_split "," l1), <- (join_on_split "," l2), E by done. done.
  - intros Hl. f_equal. apply (StronglySorted_unique str_le); [apply StronglySorted_merge_sort; apply _..|].
    by rewrite !merge_sort_Permutation.
Qed.

(** C20. One verdict per burst, and no unnoticed change of scopes. In every state
    that calls, lookups and evictions can reach: callers that shared a lookup
    have the same verdict, and it was decided once for their key; no more than
    [maxInFlight] lookups run at once; and when a lookup returns a key whose
    scopes, like those it was last authorized with, are not empty and have no
    comma, its burst is authorized exactly if the key was not authorized before
    (since the last eviction or conflict) or was with the same scopes, in
    whatever order; otherwise the whole burst is told to retry, and the next
    lookup of the key is authorized whatever its scopes. *)
Theorem burst_consistent g : rtc gstep new_AuthConcurrencyGuard g →
  (∀ key c l v, calls (sf g) !! c = Some (key, Settled l v) →
     calls (sf g) !! l = Some (key, Settled l v) ∧ ∃ k, Decided key k v ∈ history g) ∧
  (0 < maxInFlight → inFlightCount g ≤ maxInFlight) ∧
  ∀ rawKey k, plain_scopes (scopes k) → (∀ l, last_scopes (id k) (history g) = Some l → plain_scopes l) →
    let g' := lookup_done rawKey (Ok (Some k)) g in
    match last_scopes (id k) (history g) with
    | Some l => ¬ l ≡ₚ scopes k → last_scopes (id k) (history g') = None ∧
        ∃ e, last (history g') = Some (Decided rawKey (Some k) (AuthFail 409 e (Some conflictRetryAfterSeconds)))
    | None => True
    end ∧
    ((∀ l, last_scopes (id k) (history g) = Some l → l ≡ₚ scopes k) → last (history g') = Some (Decided rawKey (Some k) (AuthOk k))).
Proof.
  intros [H1 H2 H3 H4]%reachable_ok. split_and!; [|done|].
  - intros key c l v Hc. split; [by eapply sf_settled|by eapply H4].
  - intros rawKey k Hk Hl g'. unfold g'. clear g'. cbn [lookup_done]. unfold decideForBurst. rewrite H2.
    destruct (last_scopes (id k) (history g)) as [l|]; simpl; [|by rewrite last_snoc].
    specialize (Hl l eq_refl). pose proof (fingerprint_iff l (scopes k) Hl Hk) as Hf.
    destruct (String.eqb_spec (scopeFingerprint l) (scopeFingerprint (scopes k))) as [E|E]; cbn [history]; rewrite last_snoc.
    + split; [|done]. intros Hn. destruct Hn. by apply Hf.
    + rewrite last_scopes_snoc. simpl. rewrite decide_True by done. split; [by eauto|]. intros Hs. destruct E. by apply Hf, Hs.
Qed.
End Guard.

(** ** Concrete bursts *)

Module GuardExample.
Definition key (l : list string) : StoredApiKey :=
  {| id := "k1"; hashedKey := "h"; prefix := "p"; scopes := l; scope := None; tier := free; ownerId := "o";
     createdAt := 0; lastUsedAt := None; active := true |}.

(** Two callers share a lookup; then the scopes change, and the next burst is
    told to retry. *)
Definition g0 : guard := new_AuthConcurrencyGuard.
Definition g1 : guard := validate 1000 1 "raw" (validate 1000 0 "raw" g0).
Definition g2 : guard := lookup_done 1 "raw" (Ok (Some (key ["read"; "write"]))) g1.
Definition g3 : guard := validate 1000 3 "raw" (validate 1000 2 "raw" g2).

Lemma g3_reachable : rtc (gstep 1000 1) g0 g3.
Proof.
  eapply rtc_l; [apply (g_validate 1000 1 g0 0 "raw"); [done|set_solver]|].
  eapply rtc_l; [apply (g_validate 1000 1 _ 1 "raw"); [by vm_compute|by vm_compute]|].
  eapply rtc_l; [apply (g_lookup 1000 1 _ "raw" (Ok (Some (key ["read"; "write"])))); vm_compute; by eexists|].
  eapply rtc_l; [apply (g_validate 1000 1 _ 2 "raw"); [by vm_compute|by vm_compute]|].
  apply rtc_once, (g_validate 1000 1 _ 3 "raw"); by vm_compute.
Qed.

Lemma plain_example : plain_scopes ["read"; "write"] ∧ plain_scopes ["read"; "admin"] ∧ plain_scopes ["write"; "read"].
Proof. split_and!; repeat constructor; done. Qed.

(** The same scopes in another order pass, others do not. *)
Lemma burst_consistent_witness :
  (∃ e, last (history (lookup_done 1 "raw" (Ok (Some (key ["read"; "admin"]))) g3)) =
    Some (Decided "raw" (Some (key ["read"; "admin"])) (AuthFail 409 e (Some 1)))) ∧
  last (history (lookup_done 1 "raw" (Ok (Some (key ["write"; "read"]))) g3)) = Some (Decided "raw" (Some (key ["write"; "read"])) (AuthOk (key ["write"; "read"]))).
Proof.
  destruct (burst_consistent 1000 1 g3 g3_reachable) as (_ & _ & H). destruct plain_example as (Hrw & Hra & Hwr).
  assert (Hl : last_scopes "k1" (history g3) = Some ["read"; "write"]) by (by vm_compute).
  split.
  - destruct (H "raw" (key ["read"; "admin"])) as [Hc _]; [exact Hra|change (id _) with "k1"; rewrite Hl; by intros l [= <-]|].
    change (id (key ["read"; "admin"])) with "k1" in Hc. rewrite Hl in Hc. apply Hc. intros Hp. apply Permutation_cons_inv in Hp. by apply Permutation_singleton_inj in Hp.
  - destruct (H "raw" (key ["write"; "read"])) as [_ Hc]; [exact Hwr|change (id _) with "k1"; rewrite Hl; by intros l [= <-]|].
    apply Hc. change (id _) with "k1". rewrite Hl. intros l [= <-]. apply perm_swap.
Defined.

(** Scopes that contain a comma can be exchanged for others without notice. *)
Lemma comma_scopes_collide :
  scopeFingerprint ["read,write"] = scopeFingerprint ["read"; "write"] ∧
  (decideForBurst 1 (Some (key ["read,write"])) (scopeSnapshots g3)).2 = AuthOk (key ["read,write"]).
Proof. by vm_compute. Qed.
End GuardExample.
