(* ===== verification/BackgroundJobs.v ===== *)
(** * Background jobs

    [jobs/scheduler.ts] and [jobs/lockedWorkers.ts] (module [Scheduler]),
    [jobs/keyRotationScheduler.ts] (module [RotationTimers]), the buffer of
    [jobs/ringBuffer.ts] (module [Ring]), and the sweepers
    [jobs/expiredSessionsSweeper.ts], [jobs/idempotencyKeySweeper.ts] and
    [jobs/requestSnapshotsSweeper.ts] (module [Sweepers]). Invocations are cut at
    their waits; those of all replicas share the lock and the completion marker
    in Redis. The text of [jobs/distributedLock.ts] is not a program: of its lock
    only what the callers say of it is used. *)

From stdpp Require Import base option list strings gmap relations.
From Stdlib Require Import ZArith Lia.
From S2P Require Import Prelude JsLib.

Open Scope Z_scope.

Module Scheduler.

(** ** Configuration *)

Inductive config_error :=
| BadInterval | BadLockTtl | NoRedis
| CronParts | UnsupportedCron.

Definition MAX_TIMEOUT : Z := 2147483647.

Record JobScheduler := {
  intervalMs : Z; runOnStart : bool; lockKey : string; lockTtlMs : Z; enableIdempotency : bool;
  idempotencyKeyBase : string
}.

(** The constructor; [redis] says whether a client was given. *)
Definition new_JobScheduler (interval : Z) (onStart : option bool) (key : option string) (ttl : option Z)
  (redis : bool) (idempotent : option bool) : result config_error JobScheduler :=
  _ ← throw_if ((interval <? 1) || (MAX_TIMEOUT <? interval)) BadInterval;
  _ ← throw_if (match ttl with Some t => (t <? 1) || (MAX_TIMEOUT <? t) | None => false end) BadLockTtl;
  _ ← throw_if (default false idempotent && negb redis) NoRedis;
  let key := default "cron:score-snapshot" key in
  Ok {| intervalMs := interval; runOnStart := default false onStart; lockKey := key;
        lockTtlMs := default (Z.min (interval * 5) 600000) ttl;
        enableIdempotency := default false idempotent; idempotencyKeyBase := key +:+ ":lastRun" |}.

(** [split(/\s+/)] of a trimmed text: runs of blanks separate. *)
Fixpoint words (cur : string) (s : string) : list string :=
  match s with
  | EmptyString => [cur]
  | String c s' =>
      if is_space c then
        match s' with
        | String d _ => if is_space d then words cur s' else cur :: words EmptyString s'
        | EmptyString => cur :: words EmptyString s'
        end
      else words (cur +:+ String c EmptyString) s'
  end.

Definition parseCronToInterval (cron : string) : result config_error Z :=
  match words EmptyString (trim cron) with
  | [minute; hour; day; month; weekday] =>
      _ ← throw_if (negb (String.eqb day "*") || negb (String.eqb month "*") || negb (String.eqb weekday "*"))
            UnsupportedCron;
      if String.eqb minute "*" && String.eqb hour "*" then Ok 60000 else
      if String.eqb minute "0" && String.eqb hour "*" then Ok 3600000 else
      if String.eqb minute "0" && String.eqb hour "0" then Ok 86400000 else
      Err UnsupportedCron
  | _ => Err CronParts
  end.

Definition createScheduler (cron : option string) (onStart : option bool) (key : option string) (ttl : option Z)
  (redis : bool) (idempotent : option bool) : result config_error JobScheduler :=
  interval ← parseCronToInterval (default "0 * * * *" cron);
  new_JobScheduler interval onStart key ttl redis idempotent.

(** [start] and [stop] on whether the interval is set; [start] also says whether
    it invokes the job at once. *)
Definition scheduler_start (s : JobScheduler) (active : bool) : bool * bool :=
  if active then (true, false) else (true, runOnStart s).
Definition scheduler_stop (active : bool) : bool := false.

(** ** Invocations *)

(** Where an invocation is: idle; reading the marker before the lock (only the
    locked workers do); waiting for the lock; reading the marker; past that
    reading; running the job; writing the marker; releasing the lock. *)
Inductive phase := Idle | PreReading | Acquiring | Reading | Cleared | Running | Marking | Releasing.
#[export] Instance phase_eq_dec : EqDecision phase.
Proof. solve_decision. Defined.

(** Whether a lock and the markers are used, whether the marker is read before
    the lock as well, and for how long a marker is kept. *)
Record config := { withLock : bool; idempotent : bool; preRead : bool; markerMs : Z }.

(** The scheduler's, with or without a lock, and the three locked workers', which
    read the marker twice and keep it for as long as the lock may live. *)
Definition scheduler_config (s : JobScheduler) (distributedLock : bool) : config :=
  {| withLock := distributedLock; idempotent := enableIdempotency s; preRead := false; markerMs := intervalMs s |}.
Definition LockedInvoiceDueDateWorker (ttl : option Z) (redis enable : bool) : config :=
  {| withLock := true; idempotent := enable && redis; preRead := true; markerMs := default (30 * 60 * 1000) ttl |}.
Definition LockedExportWorker (ttl : option Z) (redis enable : bool) : config :=
  {| withLock := true; idempotent := enable && redis; preRead := true; markerMs := default (60 * 60 * 1000) ttl |}.
Definition LockedAnalyticsRefreshWorker (ttl : option Z) (redis enable : bool) : config :=
  {| withLock := true; idempotent := enable && redis; preRead := true; markerMs := default (15 * 60 * 1000) ttl |}.

(** When a run of a locked worker counts as complete. *)
Definition errors_none (errors : nat) : bool := (errors =? 0)%nat.
Definition refresh_complete (refreshed : bool) (failedViews : list string) (error : option string) : bool :=
  refreshed && bool_decide (failedViews = []) && falsy error.

Inductive event := Started (i : nat) (at_ : Z) | Marked (i : nat) (at_ : Z).

Record cluster := {
  phases : gmap nat phase;
  lock : option nat;                    (* the invocation that holds it *)
  marker : option Z;                    (* when it expires *)
  now : Z;
  events : list event
}.

Definition phase_of (i : nat) (c : cluster) : phase := default Idle (phases c !! i).

(** [this.isRunning]. *)
Definition isRunning (i : nat) (c : cluster) : bool := negb (bool_decide (phase_of i c = Idle)).

Definition goto (i : nat) (p : phase) (c : cluster) : cluster :=
  {| phases := <[i := p]> (phases c); lock := lock c; marker := marker c; now := now c; events := events c |}.
Definition set_lock (l : option nat) (c : cluster) : cluster :=
  {| phases := phases c; lock := l; marker := marker c; now := now c; events := events c |}.
Definition record_event (e : event) (c : cluster) : cluster :=
  {| phases := phases c; lock := lock c; marker := marker c; now := now c; events := events c ++ [e] |}.
Definition set_marker (m : option Z) (c : cluster) : cluster :=
  {| phases := phases c; lock := lock c; marker := m; now := now c; events := events c |}.
Definition set_now (t : Z) (c : cluster) : cluster :=
  {| phases := phases c; lock := lock c; marker := marker c; now := t; events := events c |}.

(** The marker is there. *)
Definition marker_live (c : cluster) : bool := match marker c with Some e => now c <? e | None => false end.

(** Between acquiring and giving back. *)
Definition inside (p : phase) : bool :=
  match p with Reading | Cleared | Running | Marking | Releasing => true | _ => false end.

Section Steps.
Variable cfg : config.

Definition enter : phase := if withLock cfg then Acquiring else Reading.

(** [runJob], or [run] of a locked worker, up to its first wait. *)
Definition begin (i : nat) (c : cluster) : cluster :=
  if isRunning i c then c else goto i (if preRead cfg && idempotent cfg then PreReading else enter) c.

(** The reading before the lock; [failed] when Redis did not answer. *)
Definition pre_read (i : nat) (failed : bool) (c : cluster) : cluster :=
  if failed then goto i Idle c else if marker_live c then goto i Idle c else goto i enter c.

(** What became of a command sent to Redis: done; done, but the answer was lost;
    not done. *)
Inductive outcome := Done | AnswerLost | NotDone.

(** [distributedLock.withLock] runs the function if the lock is free, and throws
    when the lock could not be asked for. *)
Definition acquire (i : nat) (o : outcome) (c : cluster) : cluster :=
  match o, lock c with
  | NotDone, _ | _, Some _ => goto i Idle c
  | Done, None => set_lock (Some i) (goto i Reading c)
  | AnswerLost, None => set_lock (Some i) (goto i Idle c)
  end.

(** After the work: the lock is given back. *)
Definition leave : phase := if withLock cfg then Releasing else Idle.

Definition read_marker (i : nat) (failed : bool) (c : cluster) : cluster :=
  if negb (idempotent cfg) then goto i Cleared c else
  if failed then goto i leave c else
  if marker_live c then goto i leave c else goto i Cleared c.

Definition start_job (i : nat) (c : cluster) : cluster := record_event (Started i (now c)) (goto i Running c).

(** The job returned, having done all its work or not, or threw. *)
Definition finish_job (i : nat) (complete : bool) (c : cluster) : cluster :=
  goto i (if complete && idempotent cfg then Marking else leave) c.

(** Whether the marker is stored; the lock is given back either way, and when
    the answer is lost too. *)
Definition write_marker (i : nat) (stored : bool) (c : cluster) : cluster :=
  if negb stored then goto i leave c else
  record_event (Marked i (now c)) (set_marker (Some (now c + markerMs cfg)) (goto i leave c)).

(** Only the holder's own lock is deleted; when that fails it stays until it
    expires. *)
Definition release (i : nat) (deleted : bool) (c : cluster) : cluster :=
  set_lock (if deleted && bool_decide (lock c = Some i) then None else lock c) (goto i Idle c).

(** A lock expires once its holder no longer works under it: its time to live is
    extended while the job runs. *)
Inductive jstep (c : cluster) : cluster → Prop :=
| j_begin i : jstep c (begin i c)
| j_pre i f : phase_of i c = PreReading → jstep c (pre_read i f c)
| j_acquire i f : phase_of i c = Acquiring → jstep c (acquire i f c)
| j_read i f : phase_of i c = Reading → jstep c (read_marker i f c)
| j_start i : phase_of i c = Cleared → jstep c (start_job i c)
| j_finish i b : phase_of i c = Running → jstep c (finish_job i b c)
| j_mark i f : phase_of i c = Marking → jstep c (write_marker i f c)
| j_release i b : phase_of i c = Releasing → jstep c (release i b c)
| j_expire : (∀ i, inside (phase_of i c) = false) → jstep c (set_lock None c)
| j_time t : now c ≤ t → jstep c (set_now t c).

Definition new_cluster (t : Z) : cluster :=
  {| phases := ∅; lock := None; marker := None; now := t; events := [] |}.

(** After a marker was written, no job is started while it is there. *)
Definition spaced (h : list event) : Prop := ∀ h1 i t h2 j s,
  h = h1 ++ Marked i t :: h2 → Started j s ∈ h2 → t + markerMs cfg ≤ s.

Definition event_time (e : event) : Z := match e with Started _ t => t | Marked _ t => t end.

Record jobs_ok (c : cluster) : Prop := {
  jk_holder i : inside (phase_of i c) = true → lock c = Some i;
  jk_cleared i : phase_of i c = Cleared → idempotent cfg = true →
    ∀ k t, Marked k t ∈ events c → t + markerMs cfg ≤ now c;
  jk_marker k t : Marked k t ∈ events c → ∃ e, marker c = Some e ∧ t + markerMs cfg ≤ e;
  jk_times e : e ∈ events c → event_time e ≤ now c;
  jk_spaced : spaced (events c)
}.
End Steps.

Section Exclusion.
Variable cfg : config.
Hypothesis uses_lock : withLock cfg = true.

Lemma phase_goto i j p c : phase_of j (goto i p c) = if decide (i = j) then p else phase_of j c.
Proof.
  unfold phase_of; simpl. destruct (decide (i = j)) as [->|]; [by rewrite lookup_insert_eq|by rewrite lookup_insert_ne].
Qed.

Lemma spaced_snoc h e : spaced cfg h →
  (∀ j s, e = Started j s → ∀ k t, Marked k t ∈ h → t + markerMs cfg ≤ s) → spaced cfg (h ++ [e]).
Proof.
  intros Hs He h1 i t h2 j s E Hin. destruct (decide (h2 = [])) as [->|Hne]; [by apply elem_of_nil in Hin|].
  destruct (exists_last Hne) as (h2' & e' & ->). rewrite app_comm_cons, app_assoc in E.
  apply app_inj_tail in E as [-> <-]. apply elem_of_app in Hin as [Hin|Hin].
  - by eapply Hs.
  - apply list_elem_of_singleton in Hin as <-. eapply He; [done|]. apply elem_of_app. right. left.
Qed.

(** A move of one invocation that changes nothing else. *)
Lemma goto_ok i p c : jobs_ok cfg c → (inside p = true → inside (phase_of i c) = true) → p ≠ Cleared →
  jobs_ok cfg (goto i p c).
Proof.
  intros [H1 H2 H3 H4 H5] Hp Hc. split; simpl; [| |done|done|done].
  - intros j. rewrite phase_goto. case_decide as E; [subst; intros; by apply H1, Hp|apply H1].
  - intros j. rewrite phase_goto. case_decide; [done|apply H2].
Qed.

Lemma leave_inside p : p = leave cfg → inside p = true → p = Releasing.
Proof. unfold leave. rewrite uses_lock. by intros ->. Qed.

Lemma marker_dead c : jobs_ok cfg c → marker_live c = false →
  ∀ k t, Marked k t ∈ events c → t + markerMs cfg ≤ now c.
Proof.
  intros Hok Hl k t Hin. destruct (jk_marker _ _ Hok k t Hin) as (e & He & Hle).
  unfold marker_live in Hl. rewrite He in Hl. apply Z.ltb_ge in Hl. lia.
Qed.

Lemma cleared_ok i c : jobs_ok cfg c → phase_of i c = Reading →
  (idempotent cfg = true → ∀ k t, Marked k t ∈ events c → t + markerMs cfg ≤ now c) → jobs_ok cfg (goto i Cleared c).
Proof.
  intros [H1 H2 H3 H4 H5] Hi Hm. split; simpl; [| |done|done|done].
  - intros j. rewrite phase_goto. case_decide as E; [subst; intros _; apply H1; by rewrite Hi|apply H1].
  - intros j. rewrite phase_goto. case_decide; [by intros _|apply H2].
Qed.

Lemma phase_lock j l c : phase_of j (set_lock l c) = phase_of j c.
Proof. done. Qed.

Lemma set_lock_ok l c : jobs_ok cfg c → (∀ j, inside (phase_of j c) = true → l = Some j) → jobs_ok cfg (set_lock l c).
Proof. intros [H1 H2 H3 H4 H5] Hl. by split. Qed.

Lemma acquire_ok i p c : jobs_ok cfg c → lock c = None → p ≠ Cleared → jobs_ok cfg (set_lock (Some i) (goto i p c)).
Proof.
  intros [H1 H2 H3 H4 H5] Hl Hp. split; cbn [set_lock lock goto events marker now]; [| |done|done|done].
  - intros j. rewrite phase_lock, phase_goto. case_decide as E; [by subst|]. intros Hin%H1. congruence.
  - intros j. rewrite phase_lock, phase_goto. case_decide; [done|apply H2].
Qed.

Lemma job_start_ok i c : jobs_ok cfg c → idempotent cfg = true → phase_of i c = Cleared → jobs_ok cfg (start_job i c).
Proof.
  intros Hok Hid Hi. assert (jobs_ok cfg (goto i Running c)) as [H1 H2 H3 H4 H5].
  { apply goto_ok; [done| |done]. by rewrite Hi. }
  split; cbn [start_job record_event events phases lock marker now goto] in *.
  - exact H1.
  - intros j Hj Hd k t [Hin|[=]%list_elem_of_singleton]%elem_of_app. by apply (H2 j Hj Hd k).
  - intros k t [Hin|[=]%list_elem_of_singleton]%elem_of_app. by apply (H3 k).
  - intros e [Hin| ->%list_elem_of_singleton]%elem_of_app; [by apply H4|simpl; lia].
  - apply spaced_snoc; [done|]. intros j s [= <- <-] k t Hin. exact (jk_cleared _ _ Hok i Hi Hid k t Hin).
Qed.

Lemma job_mark_ok i c : jobs_ok cfg c → phase_of i c = Marking →
  jobs_ok cfg (record_event (Marked i (now c)) (set_marker (Some (now c + markerMs cfg)) (goto i (leave cfg) c))).
Proof.
  intros Hok Hi. assert (jobs_ok cfg (goto i (leave cfg) c)) as [H1 H2 H3 H4 H5].
  { apply goto_ok; [done|by rewrite Hi|by unfold leave; rewrite uses_lock]. }
  split; cbn [record_event set_marker events phases lock marker now goto] in *.
  - exact H1.
  - intros j Hj Hd k t Hin. exfalso.
    assert (phase_of j (goto i (leave cfg) c) = Cleared) as Hj' by exact Hj. rewrite phase_goto in Hj'.
    unfold leave in Hj'. rewrite uses_lock in Hj'. case_decide as E; [done|].
    assert (lock c = Some i) by (apply (jk_holder _ _ Hok); by rewrite Hi).
    assert (lock c = Some j) by (apply (jk_holder _ _ Hok); by rewrite Hj'). congruence.
  - intros k t Hin. eexists. split; [done|].
    apply elem_of_app in Hin as [Hin|Hin].
    + pose proof (H4 _ Hin) as Hle. simpl in Hle. lia.
    + apply list_elem_of_singleton in Hin as [= -> ->]. done.
  - intros e [Hin| ->%list_elem_of_singleton]%elem_of_app; [by apply H4|simpl; lia].
  - apply spaced_snoc; [done|]. done.
Qed.

Lemma job_release_ok i b c : jobs_ok cfg c → phase_of i c = Releasing → jobs_ok cfg (release i b c).
Proof.
  intros Hok Hi. assert (lock c = Some i) as Hl by (apply (jk_holder _ _ Hok); by rewrite Hi).
  apply set_lock_ok; [by apply goto_ok|]. intros j. rewrite phase_goto. case_decide as E; [done|].
  intros Hj%(jk_holder _ _ Hok). congruence.
Qed.

Lemma jstep_ok c c' : idempotent cfg = true → jobs_ok cfg c → jstep cfg c c' → jobs_ok cfg c'.
Proof.
  intros Hid Hok [i|i f Hi|i f Hi|i f Hi|i Hi|i b Hi|i f Hi|i b Hi|Hno|t Ht].
  - unfold begin. destruct (isRunning i c); [done|]. unfold enter. rewrite uses_lock.
    apply goto_ok; [done|..]; by destruct (preRead cfg && idempotent cfg).
  - unfold pre_read, enter. rewrite uses_lock. repeat case_match; by apply goto_ok.
  - unfold acquire. destruct f, (lock c) eqn:El; first [by apply goto_ok|by apply acquire_ok].
  - unfold read_marker, leave. rewrite Hid, uses_lock. cbn [negb].
    destruct f; [apply goto_ok; [done|by rewrite Hi|done]|].
    destruct (marker_live c) eqn:El; [apply goto_ok; [done|by rewrite Hi|done]|].
    apply cleared_ok; [done|done|]. intros _. by apply marker_dead.
  - by apply job_start_ok.
  - unfold finish_job, leave. rewrite uses_lock.
    apply goto_ok; [done|by rewrite Hi|by destruct (b && idempotent cfg)].
  - unfold write_marker. destruct f; [by apply job_mark_ok|]. simpl; unfold leave. rewrite uses_lock.
    apply goto_ok; [done|by rewrite Hi|done].
  - by apply job_release_ok.
  - apply set_lock_ok; [done|]. intros j Hj. by rewrite Hno in Hj.
  - destruct Hok as [H1 H2 H3 H4 H5]. split; cbn [set_now events phases lock marker now]; [exact H1| |done| |done].
    + intros j Hj Hd k s Hin. pose proof (H2 j Hj Hd k s Hin). lia.
    + intros e He. pose proof (H4 e He). lia.
Qed.

(** A scheduled job runs in one place at a time and not twice in an
    interval. With the lock and the markers configured, whatever invocations of
    the replicas do and whatever fails, as long as a held lock is not lost: at
    most one invocation is between acquiring and giving back the lock, and
    holds the lock; and after a completed run was marked no job is started, by any
    replica, before the marker expired. *)
Theorem scheduled_once t0 c : idempotent cfg = true → rtc (jstep cfg) (new_cluster t0) c →
  (∀ i j, inside (phase_of i c) = true → inside (phase_of j c) = true → i = j ∧ lock c = Some i) ∧
  spaced cfg (events c).
Proof.
  intros Hid Hst. assert (jobs_ok cfg c) as [H1 _ _ _ H5].
  { assert (jobs_ok cfg (new_cluster t0)) as H0.
    { split; simpl.
      - intros i. unfold phase_of; simpl. by rewrite lookup_empty.
      - intros i _ _ k t Hin. by apply elem_of_nil in Hin.
      - intros k t Hin. by apply elem_of_nil in Hin.
      - intros e Hin. by apply elem_of_nil in Hin.
      - intros h1 i t h2 j s E. by destruct h1. }
    revert H0. induction Hst as [|x y z Hxy _ IH]; [done|]. intros Hx. apply IH. by eapply jstep_ok. }
  split; [|done]. intros i j Hi%H1 Hj%H1. split; [congruence|done].
Qed.
End Exclusion.

(** The lock and the markers are asked for again on every tick; with a run that
    takes any time at all the marker it leaves outlives the next tick, which is
    skipped: the job runs on every second tick. *)
Definition hourly : config := {| withLock := true; idempotent := true; preRead := false; markerMs := 3600000 |}.

(** A tick at [at_] whose job takes [ms] and succeeds. *)
Definition tick (i : nat) (at_ ms : Z) (c : cluster) : cluster :=
  let c := read_marker hourly i false (acquire i Done (begin hourly i (set_now at_ c))) in
  let c := if decide (phase_of i c = Cleared)
           then write_marker hourly i true (set_now (at_ + ms) (finish_job hourly i true (start_job i c)))
           else c in
  release i true c.

Definition starts (c : cluster) : list Z := omap (λ e, match e with Started _ t => Some t | _ => None end) (events c).

Example every_second_tick :
  starts (tick 0 10800000 5 (tick 0 7200000 5 (tick 0 3600000 5 (tick 0 0 5 (new_cluster 0))))) = [0; 7200000].
Proof. vm_compute. reflexivity. Qed.

Example cron_patterns :
  parseCronToInterval " 0   * * * * " = Ok 3600000 ∧ parseCronToInterval "* * * * *" = Ok 60000 ∧
  parseCronToInterval "0 0 * * *" = Ok 86400000 ∧ parseCronToInterval "0 0 1 * *" = Err UnsupportedCron ∧
  parseCronToInterval "0 0 *" = Err CronParts.
Proof. vm_compute. done. Qed.

Lemma interval_known cron iv : parseCronToInterval cron = Ok iv → iv ∈ [60000; 3600000; 86400000].
Proof.
  unfold parseCronToInterval. intros H. repeat (case_match; try discriminate); invert_result; set_solver.
Qed.

(** Whatever the expression, a scheduler that is created has one of the three
    documented intervals, and a lock that lives at most ten minutes unless the
    caller chose its time to live. *)
Theorem created_interval cron onStart key ttl redis ide s :
  createScheduler cron onStart key ttl redis ide = Ok s →
  intervalMs s ∈ [60000; 3600000; 86400000] ∧ 1 ≤ lockTtlMs s ≤ MAX_TIMEOUT ∧
  (ttl = None → lockTtlMs s ≤ 600000) ∧ (enableIdempotency s = true → redis = true).
Proof.
  unfold createScheduler, new_JobScheduler. intros H. invert_result.
  rename select (parseCronToInterval _ = _) into Ec. apply interval_known in Ec. breflect. destruct_and!.
  cbn [intervalMs lockTtlMs enableIdempotency]. unfold MAX_TIMEOUT in *.
  assert (Hide : default false ide = true → redis = true).
  { intros Hi. rename select (_ ∨ _) into Hor. rewrite Hi in Hor. destruct redis; naive_solver. }
  destruct ttl as [u|]; cbn [default] in *; breflect; destruct_and?; repeat split; try done; lia.
Qed.

(** [scheduled_once] at a run of one replica that a second one contends with. *)
Lemma scheduled_once_witness :
  let c1 := begin hourly 1 (acquire 0 Done (begin hourly 0 (new_cluster 0))) in
  let c2 := acquire 1 Done (start_job 0 (read_marker hourly 0 false c1)) in
  phase_of 0 c2 = Running ∧ phase_of 1 c2 = Idle ∧
  (∀ i j, inside (phase_of i c2) = true → inside (phase_of j c2) = true → i = j ∧ lock c2 = Some i) ∧
  spaced hourly (events c2).
Proof.
  intros c1 c2. split; [by vm_compute|]. split; [by vm_compute|].
  refine (scheduled_once hourly eq_refl 0 c2 eq_refl _).
  eapply rtc_l; [apply (j_begin hourly _ 0)|]. eapply rtc_l; [apply (j_acquire hourly _ 0 Done); by vm_compute|].
  eapply rtc_l; [apply (j_begin hourly _ 1)|]. eapply rtc_l; [apply (j_read hourly _ 0 false); by vm_compute|].
  eapply rtc_l; [apply (j_start hourly _ 0); by vm_compute|].
  eapply rtc_l; [apply (j_acquire hourly _ 1 Done); by vm_compute|]. apply rtc_refl.
Defined.

End Scheduler.

(** ** The timers of the key rotation ([jobs/keyRotationScheduler.ts]) *)

Module RotationTimers.

Inductive timer_error := NotFinite | TooShort | NoLogger.

Definition MIN_INTERVAL_MS : Z := 1.

Record KeyRotationSchedulerOptions := { rotationIntervalMs : Z; pruneIntervalMs : Z }.

(** Intervals that are not finite are [None]. *)
Definition new_KeyRotationScheduler (rotation prune : option Z) (logger : bool)
  : result timer_error KeyRotationSchedulerOptions :=
  match rotation, prune with
  | Some r, Some p =>
      _ ← throw_if ((r <? MIN_INTERVAL_MS) || (p <? MIN_INTERVAL_MS)) TooShort;
      _ ← throw_if (negb logger) NoLogger;
      Ok {| rotationIntervalMs := r; pruneIntervalMs := p |}
  | _, _ => Err NotFinite
  end.

(** The fields, and how many calls of [keyManager.rotate] have not returned. *)
Record timers := {
  rotationTimer : bool; pruneTimer : bool; running : bool; rotating : bool; pruning : bool; inFlight : nat
}.

Definition idle : timers :=
  {| rotationTimer := false; pruneTimer := false; running := false; rotating := false; pruning := false; inFlight := 0 |}.

Definition start (s : timers) : timers * bool :=
  if running s then (s, false) else
  ({| rotationTimer := true; pruneTimer := true; running := true; rotating := rotating s; pruning := pruning s;
      inFlight := inFlight s |}, true).

Definition stop (s : timers) : timers :=
  {| rotationTimer := false; pruneTimer := false; running := false; rotating := false; pruning := false;
     inFlight := inFlight s |}.

(** [rotateSafely] up to its call, and from its answer on, which it reports as a
    success or an error. *)
Definition rotate_begin (s : timers) : timers :=
  if rotating s then s else
  {| rotationTimer := rotationTimer s; pruneTimer := pruneTimer s; running := running s; rotating := true;
     pruning := pruning s; inFlight := S (inFlight s) |}.

Definition rotate_end (s : timers) : timers :=
  {| rotationTimer := rotationTimer s; pruneTimer := pruneTimer s; running := running s; rotating := false;
     pruning := pruning s; inFlight := pred (inFlight s) |}.

(** [pruneSafely] has no wait: with what was pruned, or a failure, it returns the
    number the metric records, if any. *)
Definition pruneSafely (pruned : option (list string)) (s : timers) : timers * option nat :=
  if pruning s then (s, None) else
  ({| rotationTimer := rotationTimer s; pruneTimer := pruneTimer s; running := running s; rotating := rotating s;
      pruning := false; inFlight := inFlight s |},
   match pruned with Some (k :: ks) => Some (length (k :: ks)) | _ => None end).

Inductive tstep (s : timers) : timers → Prop :=
| t_start : tstep s (start s).1
| t_rotate : tstep s (rotate_begin s)
| t_answer : inFlight s ≠ 0%nat → tstep s (rotate_end s)
| t_prune p : tstep s (pruneSafely p s).1.

Definition flight_ok (s : timers) : Prop := inFlight s = if rotating s then 1%nat else 0%nat.

Lemma tstep_flight s s' : flight_ok s → tstep s s' → flight_ok s'.
Proof.
  unfold flight_ok. intros Hs [| |Hn|p].
  - unfold start. by destruct (running s).
  - unfold rotate_begin. destruct (rotating s) eqn:E; simpl; [by rewrite E|lia].
  - simpl. destruct (rotating s); lia.
  - unfold pruneSafely. by destruct (pruning s).
Qed.

(** As long as the scheduler is not stopped, at most one rotation is under way,
    and an answer always lets the next tick rotate. *)
Theorem single_flight s : rtc tstep idle s →
  (inFlight s ≤ 1)%nat ∧ pruning s = false ∧ rotating (rotate_end s) = false.
Proof.
  intros Hst. assert (flight_ok s ∧ pruning s = false) as [Hs Hp].
  { apply (rtc_ind_r (R := tstep) (λ x, flight_ok x ∧ pruning x = false) idle); [done| |done].
    intros x y _ Hxy [Hf Hp]. split; [by eapply tstep_flight|].
    destruct Hxy; simpl; [unfold start; by destruct (running x)|unfold rotate_begin; by destruct (rotating x)|done|].
    unfold pruneSafely. by rewrite Hp. }
  split; [|done]. unfold flight_ok in Hs. destruct (rotating s); lia.
Qed.

(** Stopping clears the guard of a rotation that goes on: after a restart a
    second one starts beside it, and the answer of the first lets a third in. *)
Example restart_overlaps :
  let s := rotate_begin (start (stop (rotate_begin (start idle).1))).1 in
  inFlight s = 2%nat ∧ inFlight (rotate_begin (rotate_end s)) = 2%nat ∧ rotating (rotate_end s) = false.
Proof. vm_compute. done. Qed.
End RotationTimers.

(** ** The ring buffer of the jobs ([jobs/ringBuffer.ts]) *)

Module Ring.
Section Ring.
Context {T : Type}.

Inductive ring_error := BadCapacity | InvalidArrayLength.

Record RingBuffer := { buffer : list (option T); head : nat; tail : nat; size : nat; capacity : nat }.

(** [new Array] refuses a length of [2^32] or more. *)
Definition new_RingBuffer (c : Z) : result ring_error RingBuffer :=
  _ ← throw_if (c <? 1) BadCapacity;
  _ ← throw_if (4294967295 <? c) InvalidArrayLength;
  Ok {| buffer := replicate (Z.to_nat c) None; head := 0; tail := 0; size := 0; capacity := Z.to_nat c |}.

Definition push (x : T) (b : RingBuffer) : RingBuffer * bool :=
  if decide (size b = capacity b) then (b, false) else
  ({| buffer := <[tail b := Some x]> (buffer b); head := head b; tail := (tail b + 1) mod capacity b;
      size := S (size b); capacity := capacity b |}, true).

Definition slot (b : RingBuffer) (i : nat) : option T := mjoin (buffer b !! i).

Definition pop (b : RingBuffer) : RingBuffer * option T :=
  match size b with
  | O => (b, None)
  | S n =>
      ({| buffer := <[head b := None]> (buffer b); head := (head b + 1) mod capacity b; tail := tail b;
          size := n; capacity := capacity b |}, slot b (head b))
  end.

Definition peek (b : RingBuffer) : option T := if (0 <? size b)%nat then slot b (head b) else None.
Definition isEmpty (b : RingBuffer) : bool := (size b =? 0)%nat.
Definition isFull (b : RingBuffer) : bool := (size b =? capacity b)%nat.
Definition clear (b : RingBuffer) : RingBuffer :=
  {| buffer := replicate (length (buffer b)) None; head := 0; tail := 0; size := 0; capacity := capacity b |}.
Definition toArray (b : RingBuffer) : list (option T) :=
  (λ i, slot b ((head b + i) mod capacity b)) <$> seq 0 (size b).

(** The calls, and what they answer. *)
Inductive call := Push (x : T) | Pop | Peek | Size | IsEmpty | IsFull | Clear | ToArray.
Inductive answer := Bool (b : bool) | Item (o : option T) | Count (n : nat) | Unit | Items (l : list (option T)).

Definition ring_call (k : call) (b : RingBuffer) : RingBuffer * answer :=
  match k with
  | Push x => let '(b', ok) := push x b in (b', Bool ok)
  | Pop => let '(b', o) := pop b in (b', Item o)
  | Peek => (b, Item (peek b))
  | Size => (b, Count (size b))
  | IsEmpty => (b, Bool (isEmpty b))
  | IsFull => (b, Bool (isFull b))
  | Clear => (clear b, Unit)
  | ToArray => (b, Items (toArray b))
  end.

(** The specification: a queue that holds at most [c] items. *)
Definition queue_call (c : nat) (k : call) (q : list T) : list T * answer :=
  match k with
  | Push x => if decide (length q = c) then (q, Bool false) else (q ++ [x], Bool true)
  | Pop => match q with [] => ([], Item None) | x :: q' => (q', Item (Some x)) end
  | Peek => (q, Item (hd_error q))
  | Size => (q, Count (length q))
  | IsEmpty => (q, Bool (bool_decide (q = [])))
  | IsFull => (q, Bool (bool_decide (length q = c)))
  | Clear => ([], Unit)
  | ToArray => (q, Items (Some <$> q))
  end.

Fixpoint ring_run (ks : list call) (b : RingBuffer) : list answer :=
  match ks with
  | [] => []
  | k :: ks' => let '(b', a) := ring_call k b in a :: ring_run ks' b'
  end.
Fixpoint queue_run (c : nat) (ks : list call) (q : list T) : list answer :=
  match ks with
  | [] => []
  | k :: ks' => let '(q', a) := queue_call c k q in a :: queue_run c ks' q'
  end.

(** The buffer holds the queue from its head on, wrapping around, and nothing
    else: what was taken out is no longer referred to. *)
Record implements (b : RingBuffer) (q : list T) : Prop := {
  im_length : length (buffer b) = capacity b;
  im_head : (head b < capacity b)%nat;
  im_size : size b = length q ∧ (length q ≤ capacity b)%nat;
  im_tail : tail b = ((head b + size b) mod capacity b)%nat;
  im_slots i : (i < capacity b)%nat → buffer b !! ((head b + i) mod capacity b)%nat = Some (q !! i)
}.

Lemma wrap_index h i c : (h < c)%nat → (i ≤ c)%nat → ((h + i) mod c = if decide (h + i < c) then h + i else h + i - c)%nat.
Proof.
  intros Hh Hi. case_decide as E; [by apply Nat.mod_small|].
  replace (h + i)%nat with (h + i - c + 1 * c)%nat at 1 by lia. rewrite Nat.Div0.mod_add. apply Nat.mod_small. lia.
Qed.

Lemma push_implements x b q : implements b q →
  implements (push x b).1 (queue_call (capacity b) (Push x) q).1 ∧
  Bool (push x b).2 = (queue_call (capacity b) (Push x) q).2.
Proof.
  intros Hb. destruct Hb as [Hl Hh [Hs Hc] Ht Hsl] eqn:Eb. simpl. unfold push. rewrite Hs.
  destruct (decide (length q = capacity b)) as [E|E]; [by split|]. split; [|done].
  split; cbn [fst buffer head tail size capacity].
  - by rewrite length_insert.
  - done.
  - rewrite length_app. simpl. lia.
  - rewrite Ht, Hs. rewrite (wrap_index (head b) (length q)) by lia. rewrite (wrap_index (head b)) by lia.
    case_decide; case_decide; try rewrite Nat.mod_small by lia; try lia.
    replace (head b + length q + 1)%nat with (capacity b) by lia. rewrite Nat.Div0.mod_same. lia.
  - intros i Hi. rewrite Ht, Hs. destruct (decide (i = length q)) as [->|Hne].
    + rewrite list_lookup_insert_eq; [by rewrite list_lookup_middle|]. rewrite Hl. apply Nat.mod_upper_bound. lia.
    + rewrite list_lookup_insert_ne.
      * rewrite Hsl by done. f_equal. destruct (decide (i < length q)%nat).
        { by rewrite lookup_app_l. }
        rewrite !lookup_ge_None_2; [done| |lia]. rewrite length_app. simpl. lia.
      * rewrite !wrap_index by lia. case_decide; case_decide; lia.
Qed.

Lemma slot_implements b q i : implements b q → (i < capacity b)%nat → slot b ((head b + i) mod capacity b) = q !! i.
Proof. intros Hb Hi. unfold slot. by rewrite (im_slots _ _ Hb). Qed.

Lemma slot_head b q : implements b q → slot b (head b) = hd_error q.
Proof.
  intros Hb. pose proof (im_head _ _ Hb) as Hh. pose proof (slot_implements b q 0 Hb) as H.
  rewrite Nat.add_0_r, Nat.mod_small in H by done. rewrite H by lia. by destruct q.
Qed.

Lemma pop_implements b x q : implements b (x :: q) → implements (pop b).1 q ∧ (pop b).2 = Some x.
Proof.
  intros Hb. pose proof (slot_head b _ Hb) as Hx. destruct Hb as [Hl Hh [Hs Hc] Ht Hsl]. unfold pop. rewrite Hs.
  simpl in *. split; [|done]. split; cbn [fst buffer head tail size capacity].
  - by rewrite length_insert.
  - apply Nat.mod_upper_bound. lia.
  - lia.
  - rewrite Ht, Hs. rewrite (wrap_index (head b) (S (length q))) by lia. rewrite (wrap_index (head b) 1) by lia.
    case_decide; case_decide; rewrite wrap_index by lia; case_decide; lia.
  - intros i Hi. assert (((head b + 1) mod capacity b + i) mod capacity b = (head b + (if decide (S i = capacity b) then 0 else S i)) mod capacity b)%nat as ->.
    { rewrite (wrap_index (head b) 1) by lia. case_decide; case_decide; rewrite !wrap_index by lia; repeat case_decide; lia. }
    case_decide as E.
    + rewrite Nat.add_0_r, Nat.mod_small by done. rewrite list_lookup_insert_eq by lia. f_equal.
      symmetry. apply lookup_ge_None_2. lia.
    + rewrite list_lookup_insert_ne; [by rewrite Hsl by lia|]. rewrite wrap_index by lia. case_decide; lia.
Qed.

Lemma toArray_implements b q : implements b q → toArray b = Some <$> q.
Proof.
  intros Hb. pose proof (im_size _ _ Hb) as [Hs Hc]. apply list_eq. intros i. unfold toArray.
  rewrite !list_lookup_fmap. destruct (decide (i < length q)%nat) as [Hi|Hi].
  - rewrite lookup_seq_lt by lia. simpl. rewrite (slot_implements b q) by (done || lia).
    destruct (lookup_lt_is_Some_2 q i Hi) as [y ->]. done.
  - rewrite lookup_seq_ge by lia. by rewrite lookup_ge_None_2 by lia.
Qed.

Lemma clear_implements b q : implements b q → implements (clear b) [].
Proof.
  intros [Hl Hh [Hs Hc] Ht Hsl]. split; cbn [clear buffer head tail size capacity].
  - rewrite length_replicate. done.
  - lia.
  - simpl. lia.
  - rewrite Nat.mod_small; lia.
  - intros i Hi. rewrite Nat.mod_small by done. rewrite lookup_replicate_2 by lia. done.
Qed.

Lemma call_implements k b q : implements b q →
  implements (ring_call k b).1 (queue_call (capacity b) k q).1 ∧
  (ring_call k b).2 = (queue_call (capacity b) k q).2 ∧ capacity (ring_call k b).1 = capacity b.
Proof.
  intros Hb. pose proof (im_size _ _ Hb) as [Hs Hc]. destruct k as [x| | | | | | |].
  - destruct (push_implements x b q Hb) as [H1 H2]. cbn [ring_call].
    assert (capacity (push x b).1 = capacity b) by (unfold push; by case_decide). by destruct (push x b).
  - cbn [ring_call queue_call]. destruct q as [|x q].
    + unfold pop. by rewrite Hs.
    + destruct (pop_implements b x q Hb) as [H1 H2].
      assert (capacity (pop b).1 = capacity b) by (unfold pop; by destruct (size b)).
      destruct (pop b). simpl in *. by subst.
  - cbn [ring_call queue_call fst snd]. split; [done|]. split; [|done]. f_equal. unfold peek.
    rewrite (slot_head b q Hb), Hs. by destruct q.
  - cbn. by rewrite Hs.
  - cbn. unfold isEmpty. rewrite Hs. by destruct q.
  - cbn. unfold isFull. rewrite Hs. split; [done|]. split; [|done]. f_equal.
    case_bool_decide as E; [by apply Nat.eqb_eq|by apply Nat.eqb_neq].
  - cbn. split; [by eapply clear_implements|done].
  - cbn [ring_call queue_call fst snd]. by rewrite (toArray_implements b q).
Qed.

Lemma run_implements ks b q : implements b q → ring_run ks b = queue_run (capacity b) ks q.
Proof.
  revert b q. induction ks as [|k ks IH]; intros b q Hb; [done|]. simpl.
  destruct (call_implements k b q Hb) as (H1 & H2 & H3). destruct (ring_call k b) as [b' a], (queue_call _ k q) as [q' a'].
  simpl in *. subst a'. f_equal. rewrite <- H3. by apply IH.
Qed.

(** C32. The ring buffer is a bounded first-in-first-out queue: after its
    construction with a capacity, every sequence of calls gets the answers of a
    queue that holds at most that many items: an item pushed into a full buffer
    is refused and the others are kept, items come out in the order in which
    they were accepted, and [toArray] lists what is held; wrap-around is never
    seen. *)
Theorem ring_is_queue c b ks : new_RingBuffer c = Ok b → ring_run ks b = queue_run (Z.to_nat c) ks [].
Proof.
  unfold new_RingBuffer. intros H. invert_result. breflect. rewrite (run_implements ks _ []); [done|].
  split; cbn [buffer head tail size capacity].
  - apply length_replicate.
  - lia.
  - simpl. lia.
  - rewrite Nat.mod_small; lia.
  - intros i Hi. rewrite Nat.mod_small by done. by rewrite lookup_replicate_2.
Qed.
End Ring.
Arguments RingBuffer : clear implicits.
Arguments call : clear implicits.
Arguments answer : clear implicits.

(** [ring_is_queue] on a buffer of two items that wraps around. *)
Lemma ring_is_queue_witness :
  ∃ b, new_RingBuffer 2 = Ok b ∧
  ring_run [Push 1; Push 2; Push 3; Pop; Push 4; ToArray; Pop; Pop; Pop] b =
    [Bool true; Bool true; Bool false; Item (Some 1); Bool true; Items [Some 2; Some 4]; Item (Some 2); Item (Some 4); Item None].
Proof. eexists. split; [reflexivity|]. rewrite (ring_is_queue 2 _ _ eq_refl). reflexivity. Defined.
End Ring.

(** ** The sweepers *)

Module Sweepers.

Definition DAY_MS : Z := 86400000.

Section Sweeper.
Context {T : Type}.

(** What the statements select, at a time. *)
Variable expired : Z → T → bool.

(** The surroundings of a run: when its [k]th statement runs, what other
    processes did to the table since the one before, and whether it fails. *)
Record world := { clock : nat → Z; others : nat → list T → list T; fails : nat → bool }.

(** [DELETE ... WHERE ctid IN (SELECT ctid ... LIMIT n)]: the first [n] selected
    rows, and how many there were. *)
Fixpoint delete_batch (now : Z) (n : nat) (t : list T) : list T * Z :=
  match n, t with
  | O, _ => (t, 0)
  | _, [] => ([], 0)
  | S n', x :: t' =>
      if expired now x then let '(u, d) := delete_batch now n' t' in (u, d + 1)
      else let '(u, d) := delete_batch now n t' in (x :: u, d)
  end.

Definition count (now : Z) (t : list T) : Z := Z.of_nat (length (filter (λ x, expired now x = true) t)).

(** How a run ended: returned or threw, with what it counted as deleted and the
    table, or was not over yet. *)
Inductive sweep_end := Swept (deleted : Z) (t : list T) | Threw (deleted : Z) (t : list T) | Unfinished.

(** The loop; [zeroStops] is the test for an empty batch, which only the sweeper
    of sessions makes. A negative limit is an error of the statement. *)
Fixpoint batches (w : world) (batchSize : Z) (zeroStops : bool) (fuel k : nat) (remaining deleted : Z) (t : list T)
  : sweep_end :=
  if remaining <=? 0 then Swept deleted t else
  match fuel with
  | O => Unfinished
  | S fuel' =>
      let t := others w k t in
      if fails w k || (batchSize <? 0) then Threw deleted t else
      let '(t', d) := delete_batch (clock w k) (Z.to_nat batchSize) t in
      if (zeroStops && (d =? 0)) || (d <? batchSize) then Swept (deleted + d) t'
      else batches w batchSize zeroStops fuel' (S k) (remaining - d) (deleted + d) t'
  end.

Record SweeperResult := { expiredCount : Z; deletedCount : Z; dryRun : bool; skipped : bool }.

Record sweeper := { batchSize : Z; dry : bool; zeroStops : bool }.

(** [run] of a sweeper that is not in a run: the counting, then the loop. *)
Definition sweep (w : world) (s : sweeper) (fuel : nat) (t : list T) : Z * sweep_end :=
  let t := others w 0 t in
  if fails w 0 then (0, Threw 0 t) else
  let found := count (clock w 0) t in
  if negb (dry s) && (0 <? found) then (found, batches w (batchSize s) (zeroStops s) fuel 1 found 0 t)
  else (found, Swept 0 t).

(** [run] with the flag: what it answers ([None] when it throws or is not over)
    and the flag after it. *)
Definition run (w : world) (s : sweeper) (fuel : nat) (running : bool) (t : list T)
  : option SweeperResult * bool * list T :=
  if running then
    (Some {| expiredCount := 0; deletedCount := 0; dryRun := dry s; skipped := true |}, true, t)
  else
    match sweep w s fuel t with
    | (found, Swept d t') =>
        (Some {| expiredCount := found; deletedCount := d; dryRun := dry s; skipped := false |}, false, t')
    | (_, Threw _ t') => (None, false, t')
    | (_, Unfinished) => (None, true, t)
    end.

(** The metric of the snapshots' sweeper: sent when something was deleted, also
    when the loop threw. *)
Definition metric (o : sweep_end) : option Z :=
  match o with
  | Swept d _ | Threw d _ => if 0 <? d then Some d else None
  | Unfinished => None
  end.

(** *** What a batch deletes *)

Lemma delete_batch_count now n t : (delete_batch now n t).2 = Z.min (Z.of_nat n) (count now t).
Proof.
  unfold count. revert n. induction t as [|x t IH]; intros [|n]; simpl; try lia.
  destruct (expired now x) eqn:E.
  - rewrite filter_cons_True by done. pose proof (IH n) as H. destruct (delete_batch now n t). simpl in *. lia.
  - rewrite filter_cons_False by congruence. pose proof (IH (S n)) as H. destruct (delete_batch now (S n) t).
    simpl in *. lia.
Qed.

(** Nothing but selected rows goes. *)
Lemma delete_batch_keeps now n t (P : T → Prop) `{∀ x, Decision (P x)} :
  (∀ x, P x → expired now x = false) → filter P (delete_batch now n t).1 = filter P t.
Proof.
  intros HP. revert n. induction t as [|x t IH]; intros [|n]; simpl; try done.
  destruct (expired now x) eqn:E.
  - pose proof (IH n) as Hn. destruct (delete_batch now n t). simpl in *.
    rewrite Hn, filter_cons_False; [done|]. intros Hx%HP. congruence.
  - pose proof (IH (S n)) as Hn. destruct (delete_batch now (S n) t). simpl in *. rewrite !filter_cons. by rewrite Hn.
Qed.

Lemma delete_batch_left now n t : count now (delete_batch now n t).1 = count now t - (delete_batch now n t).2.
Proof.
  unfold count. revert n. induction t as [|x t IH]; intros [|n]; simpl; try lia.
  destruct (expired now x) eqn:E.
  - pose proof (IH n) as H. destruct (delete_batch now n t). simpl in *. rewrite filter_cons_True by done. simpl. lia.
  - pose proof (IH (S n)) as H. destruct (delete_batch now (S n) t). simpl in *.
    rewrite !filter_cons_False by congruence. lia.
Qed.

Lemma delete_batch_length now n t :
  Z.of_nat (length (delete_batch now n t).1) = Z.of_nat (length t) - (delete_batch now n t).2.
Proof.
  revert n. induction t as [|x t IH]; intros [|n]; simpl; try lia. destruct (expired now x).
  - pose proof (IH n) as H. destruct (delete_batch now n t). simpl in *. lia.
  - pose proof (IH (S n)) as H. destruct (delete_batch now (S n) t). simpl in *. lia.
Qed.

Lemma filter_all_live now t : count now t = 0 → filter (λ x, expired now x = false) t = t.
Proof.
  unfold count. induction t as [|x t IH]; [done|]. destruct (expired now x) eqn:E.
  - rewrite filter_cons_True by done. simpl. lia.
  - rewrite filter_cons_False by congruence. intros Hc. rewrite filter_cons_True by done. by rewrite IH.
Qed.

(** *** The loop ends *)

Lemma batches_end w b z fuel k remaining deleted t :
  1 ≤ b → remaining ≤ Z.of_nat fuel * b → batches w b z fuel k remaining deleted t ≠ Unfinished.
Proof.
  intros Hb. revert k remaining deleted t. induction fuel as [|fuel IH]; intros k r d t Hr; simpl;
    destruct (Z.leb_spec r 0); try done; [lia|].
  destruct (fails w k || (b <? 0)); [done|].
  pose proof (delete_batch_count (clock w k) (Z.to_nat b) (others w k t)) as Hd.
  destruct (delete_batch _ _ _) as [t' d']. simpl in Hd.
  destruct ((z && (d' =? 0)) || (d' <? b)) eqn:E; [done|].
  apply orb_false_iff in E as [_ E%Z.ltb_ge]. apply IH. lia.
Qed.

Definition table_of (o : sweep_end) : option (list T) :=
  match o with Swept _ t | Threw _ t => Some t | Unfinished => None end.
Definition deleted_of (o : sweep_end) : Z := match o with Swept d _ | Threw d _ => d | Unfinished => 0 end.

(** No other process writes. *)
Definition quiet (w : world) : Prop := ∀ k t, others w k t = t.

Lemma batches_keep w b z fuel k remaining deleted t (P : T → Prop) `{∀ x, Decision (P x)} t' :
  quiet w → (∀ j x, P x → expired (clock w j) x = false) →
  table_of (batches w b z fuel k remaining deleted t) = Some t' →
  filter P t' = filter P t ∧
  deleted_of (batches w b z fuel k remaining deleted t) - deleted = Z.of_nat (length t) - Z.of_nat (length t').
Proof.
  intros Hq HP. revert k remaining deleted t. induction fuel as [|fuel IH]; intros k r d t; simpl;
    destruct (Z.leb_spec r 0); simpl; try (intros [= <-]; split; [done|lia]); [done|].
  rewrite Hq. destruct (fails w k || (b <? 0)); simpl; [intros [= <-]; split; [done|lia]|].
  pose proof (delete_batch_keeps (clock w k) (Z.to_nat b) t P (HP k)) as Hk.
  pose proof (delete_batch_length (clock w k) (Z.to_nat b) t) as Hl.
  destruct (delete_batch _ _ _) as [u d']. simpl in *.
  destruct ((z && (d' =? 0)) || (d' <? b)); simpl; [intros [= <-]; split; [done|lia]|].
  intros Ht. apply IH in Ht as [-> Ht]. split; [done|lia].
Qed.

Lemma batches_exact w b z now fuel k deleted t :
  1 ≤ b → quiet w → (∀ j, clock w j = now) → (∀ j, fails w j = false) → count now t ≤ Z.of_nat fuel * b →
  batches w b z fuel k (count now t) deleted t = Swept (deleted + count now t) (filter (λ x, expired now x = false) t).
Proof.
  intros Hb Hq Hc Hf. revert k deleted t. induction fuel as [|fuel IH]; intros k d t Hr.
  - simpl. assert (0 ≤ count now t) by (unfold count; lia). assert (count now t = 0) as Hz by lia.
    rewrite Hz, Z.add_0_r, (filter_all_live now t Hz). done.
  - cbn [batches]. destruct (Z.leb_spec (count now t) 0).
    { assert (0 ≤ count now t) by (unfold count; lia). assert (count now t = 0) as Hz by lia.
      rewrite Hz, Z.add_0_r, (filter_all_live now t Hz). done. }
    rewrite Hq, Hc, Hf. destruct (Z.ltb_spec b 0); [lia|]. cbn [orb].
    pose proof (delete_batch_count now (Z.to_nat b) t) as Hd.
    pose proof (delete_batch_left now (Z.to_nat b) t) as Hl.
    pose proof (delete_batch_keeps now (Z.to_nat b) t (λ x, expired now x = false) (λ x H, H)) as Hk.
    destruct (delete_batch _ _ _) as [u d']. simpl in Hd, Hl, Hk.
    destruct ((z && (d' =? 0)) || (d' <? b)) eqn:E.
    + assert (d' = count now t) as -> by (apply orb_true_iff in E as [[_ E%Z.eqb_eq]%andb_true_iff|E%Z.ltb_lt]; lia).
      rewrite <- Hk, (filter_all_live now u) by lia. done.
    + apply orb_false_iff in E as [_ E%Z.ltb_ge]. rewrite <- Hl, IH by lia. rewrite Hk, Hl. f_equal. lia.
Qed.

(** A row once selected stays selected. *)
Definition monotone : Prop := ∀ x s s', s ≤ s' → expired s x = true → expired s' x = true.

(** The number of [DELETE] statements a sweep of [found] rows may take. *)
Definition statements (found b : Z) : nat := Z.to_nat ((found + b - 1) / b).

Lemma statements_enough found b : 1 ≤ b → 0 ≤ found → found ≤ Z.of_nat (statements found b) * b.
Proof.
  intros Hb Hf. unfold statements. rewrite Z2Nat.id by (apply Z.div_pos; lia).
  pose proof (Z.div_mod (found + b - 1) b ltac:(lia)). pose proof (Z.mod_pos_bound (found + b - 1) b ltac:(lia)). lia.
Qed.

(** Sweeps end, and delete what has expired and nothing else. With a batch
    size of at least one, whatever other processes write and whichever statement
    fails, a sweep is over after at most one [DELETE] for each full or begun
    batch of the rows it counted. Where no other process writes, every row that
    has not expired by the end is kept, in its place, also by a sweep that
    throws, and what it counts as deleted is what is gone; and when also nothing
    fails and no row expires meanwhile, exactly the expired rows are gone. A dry
    run changes nothing. *)
Theorem sweeps_exact w s t : monotone → 1 ≤ batchSize s →
  let found := count (clock w 0) (others w 0 t) in
  let o := (sweep w s (statements found (batchSize s)) t).2 in
  o ≠ Unfinished ∧
  (dry s = true → table_of o = Some (others w 0 t)) ∧
  (quiet w → ∀ t' last, table_of o = Some t' → (∀ k, clock w k ≤ last) →
     filter (λ x, expired last x = false) t' = filter (λ x, expired last x = false) t ∧
     deleted_of o = Z.of_nat (length t) - Z.of_nat (length t')) ∧
  (quiet w → dry s = false → (∀ k, clock w k = clock w 0) → (∀ k, fails w k = false) →
     o = Swept found (filter (λ x, expired (clock w 0) x = false) t)).
Proof.
  intros Hm Hb found o. assert (0 ≤ found) as Hf by (unfold found, count; lia).
  pose proof (statements_enough found (batchSize s) Hb Hf) as Hn. unfold o, sweep. fold found.
  split; [|split; [|split]].
  - destruct (fails w 0); [done|]. destruct (_ && _); [|done]. by apply batches_end.
  - intros ->. by destruct (fails w 0).
  - intros Hq t' last Ht Hl. revert Ht. rewrite Hq. destruct (fails w 0); simpl; [intros [= <-]; split; [done|lia]|].
    destruct (_ && _); simpl; [|intros [= <-]; split; [done|lia]]. intros Ht.
    eapply (batches_keep _ _ _ _ _ _ _ _ (λ x, expired last x = false)) in Ht as [-> Ht]; [|done|].
    + split; [done|]. lia.
    + intros j x Hx. destruct (expired (clock w j) x) eqn:E; [|done]. apply (Hm x _ last) in E; [congruence|done].
  - intros Hq Hd Hc Hfl. rewrite Hfl, Hd. cbn [negb andb]. unfold found in *. rewrite Hq in *.
    destruct (Z.ltb_spec 0 (count (clock w 0) t)); cbn [snd].
    + by rewrite (batches_exact w (batchSize s) (zeroStops s) (clock w 0)).
    + rewrite (filter_all_live (clock w 0) t) by lia. f_equal. lia.
Qed.

Lemma delete_batch_none now t : delete_batch now 0 t = (t, 0).
Proof. by destruct t. Qed.

(** With a batch size of zero an expired row keeps the loop of the idempotency
    keys and of the snapshots running for ever, and the sweeper of the sessions
    answers that it deleted nothing. *)
Lemma zero_batch_spins w fuel k remaining deleted t : 0 < remaining → (∀ j, fails w j = false) →
  batches w 0 false fuel k remaining deleted t = Unfinished.
Proof.
  intros Hr Hf. revert k t. induction fuel as [|fuel IH]; intros k t; cbn [batches]; destruct (Z.leb_spec remaining 0); try lia.
  - done.
  - rewrite Hf. change (Z.to_nat 0) with 0%nat. rewrite delete_batch_none. cbn -[Z.sub Z.add batches].
    rewrite Z.sub_0_r, Z.add_0_r. apply IH.
Qed.

Lemma zero_batch_gives_up w fuel k remaining deleted t : 0 < remaining → fails w k = false →
  batches w 0 true (S fuel) k remaining deleted t = Swept deleted (others w k t).
Proof.
  intros Hr Hf. cbn [batches]. destruct (Z.leb_spec remaining 0); [lia|]. rewrite Hf.
  change (Z.to_nat 0) with 0%nat. rewrite delete_batch_none. cbn -[Z.add]. by rewrite Z.add_0_r.
Qed.

(** After a run that ended, the next one is not skipped. *)
Lemma run_clears_flag w s fuel t : (sweep w s fuel t).2 ≠ Unfinished → (run w s fuel false t).1.2 = false.
Proof. unfold run. by destruct (sweep w s fuel t) as [f []]. Qed.
End Sweeper.

(** *** The three sweepers *)

(** Rows of [idempotent_job_attempts] and of [idempotency_keys]: when they expire. *)
Definition past (now expires_at : Z) : bool := expires_at <=? now.

(** Rows of [request_snapshots]: when they were created. *)
Definition outdated (retentionDays now created_at : Z) : bool := created_at <? now - DAY_MS * retentionDays.

Definition new_ExpiredSessionsSweeper (batch : option Z) (dryRun : option bool) : sweeper :=
  {| batchSize := default 5000 batch; dry := default false dryRun; zeroStops := true |}.
Definition new_IdempotencyKeySweeper (batch : option Z) (dryRun : option bool) : sweeper :=
  {| batchSize := default 10000 batch; dry := default false dryRun; zeroStops := false |}.
Definition new_RequestSnapshotsSweeper (batch : option Z) (dryRun : option bool) : sweeper :=
  {| batchSize := default 5000 batch; dry := default false dryRun; zeroStops := false |}.

Definition sweepExpiredSessions (w : world) (batch : option Z) (dryRun : option bool) (fuel : nat) (t : list Z) :=
  run past w (new_ExpiredSessionsSweeper batch dryRun) fuel false t.
Definition sweepExpiredIdempotencyKeys (w : world) (batch : option Z) (dryRun : option bool) (fuel : nat) (t : list Z) :=
  run past w (new_IdempotencyKeySweeper batch dryRun) fuel false t.
Definition sweepExpiredRequestSnapshots (w : world) (days batch : option Z) (dryRun : option bool) (fuel : nat)
  (t : list Z) :=
  run (outdated (default 14 days)) w (new_RequestSnapshotsSweeper batch dryRun) fuel false t.

(** The timer of a sweeper: its [start] runs at once and then at every interval. *)
Record timed := { interval : bool; runs : nat }.
Definition sweeper_start (s : timed) : timed := if interval s then s else {| interval := true; runs := S (runs s) |}.
Definition sweeper_stop (s : timed) : timed := {| interval := false; runs := runs s |}.
Definition elapsed (s : timed) : timed := if interval s then {| interval := true; runs := S (runs s) |} else s.

Lemma past_monotone : monotone past.
Proof. intros x s s' Hs H%Z.leb_le. apply Z.leb_le. lia. Qed.

Lemma outdated_monotone days : monotone (outdated days).
Proof. intros x s s' Hs H%Z.ltb_lt. apply Z.ltb_lt. lia. Qed.

(** A world at rest at a time. *)
Definition still (now : Z) : world (T := Z) := {| clock := λ _, now; others := λ _ t, t; fails := λ _, false |}.

(** [sweeps_exact] on five rows, in batches of two. *)
Lemma sweeps_exact_witness :
  (sweep past (still 10) {| batchSize := 2; dry := false; zeroStops := false |} 2 [3; 20; 10; 4; 30]).2
    = Swept 3 [20; 30].
Proof.
  destruct (sweeps_exact past (still 10) {| batchSize := 2; dry := false; zeroStops := false |} [3; 20; 10; 4; 30]
    past_monotone) as (_ & _ & _ & H); [simpl; lia|]. exact (H (λ _ _, eq_refl) eq_refl (λ _, eq_refl) (λ _, eq_refl)).
Defined.

(** A row that was counted may stay while one that expired meanwhile goes: the
    second statement takes the first row it finds. *)
Example later_row_first :
  sweep past {| clock := λ k, Z.of_nat k; others := λ _ t, t; fails := λ _, false |}
    {| batchSize := 1; dry := false; zeroStops := true |} 5 [1; 0] = (1, Swept 1 [0]).
Proof. vm_compute. reflexivity. Qed.
End Sweepers.
