(* ===== verification/JobWorkers.v ===== *)
(** * Workers that go through lists in batches

    The loop over batches that two workers share (module [Batches]);
    [jobs/invoiceDueDate.ts] with [jobs/invoiceDueDateWorker.ts] (module
    [Invoices]); [jobs/scoreSnapshot.ts] (module [Snapshots]);
    [jobs/exportWorker.ts] with [jobs/exportPipeline.ts] (module [Exports]).
    Time zones, the parsing of dates, the computation of scores and the stores
    are parameters. *)

From stdpp Require Import base option list strings gmap.
From Stdlib Require Import ZArith Lia Ascii.
From S2P Require Import Prelude JsLib.

Open Scope Z_scope.

Module Batches.
Section Batches.
Context {A S E : Type}.

(** What is done with a batch: the state after it and what it threw. *)
Variable body : list A → S → S * option E.

(** [for (let i = 0; i < l.length; i += size) { ...l.slice(i, i + size)... }];
    [None] when the fuel did not suffice. *)
Fixpoint for_batches (fuel : nat) (size i : Z) (l : list A) (s : S) : option (S * option E) :=
  if i <? Z.of_nat (length l) then
    match fuel with
    | O => None
    | Datatypes.S fuel' =>
        match body (js_slice l i (i + size)) s with
        | (s', None) => for_batches fuel' size (i + size) l s'
        | (s', Some e) => Some (s', Some e)
        end
    end
  else Some (s, None).

(** The batches one after the other, up to the first that throws. *)
Fixpoint each (ls : list (list A)) (s : S) : S * option E :=
  match ls with
  | [] => (s, None)
  | l :: ls' => match body l s with (s', None) => each ls' s' | r => r end
  end.
End Batches.

Fixpoint chunks {A} (fuel n : nat) (l : list A) : list (list A) :=
  match fuel, l with
  | Datatypes.S fuel', _ :: _ => take n l :: chunks fuel' n (drop n l)
  | _, _ => []
  end.

Lemma chunks_join {A} fuel n (l : list A) : (1 ≤ n)%nat → (length l ≤ fuel)%nat → mjoin (chunks fuel n l) = l.
Proof.
  intros Hn. revert l. induction fuel as [|fuel IH]; intros [|x l] Hl; simpl in *; try done; [lia|].
  destruct n as [|n]; [lia|]. simpl. rewrite IH; [by rewrite take_drop|]. rewrite length_drop. lia.
Qed.

(** With a positive size the loop ends, and takes the list in batches of that
    size, none of them empty, whose concatenation is the list. *)
Lemma for_batches_spec {A S E} (body : list A → S → S * option E) fuel size i l s :
  1 ≤ size → 0 ≤ i → (length (drop (Z.to_nat i) l) ≤ fuel)%nat →
  for_batches body fuel size i l s = Some (each body (chunks fuel (Z.to_nat size) (drop (Z.to_nat i) l)) s).
Proof.
  intros Hs. revert i s. induction fuel as [|fuel IH]; intros i s Hi Hl; simpl;
    destruct (Z.ltb_spec i (Z.of_nat (length l))) as [Hlt|Hge].
  - rewrite length_drop in Hl. lia.
  - done.
  - rewrite js_slice_nonneg by lia. replace (i + size - i) with size by lia.
    destruct (drop (Z.to_nat i) l) as [|x m] eqn:Em.
    { apply (f_equal length) in Em. rewrite length_drop in Em. simpl in Em. lia. }
    cbn [each]. destruct (body _ s) as [s' [e|]]; [done|].
    assert (drop (Z.to_nat (i + size)) l = drop (Z.to_nat size) (x :: m)) as Hd.
    { rewrite <- Em, drop_drop. f_equal. lia. }
    rewrite IH by (try rewrite Hd, length_drop; simpl in *; lia). by rewrite Hd.
  - rewrite drop_ge by lia. done.
Qed.

(** A body that goes through its batch item by item goes through the list so. *)
Fixpoint items {A S E} (step : A → S → S * option E) (l : list A) (s : S) : S * option E :=
  match l with
  | [] => (s, None)
  | x :: l' => match step x s with (s', None) => items step l' s' | r => r end
  end.

Lemma items_app {A S E} (step : A → S → S * option E) l l' s :
  items step (l ++ l') s = match items step l s with (s', None) => items step l' s' | r => r end.
Proof.
  revert s. induction l as [|x l IH]; intros s; simpl; [done|]. destruct (step x s) as [s' [e|]]; [done|]. apply IH.
Qed.

Lemma each_items {A S E} (step : A → S → S * option E) ls s : each (items step) ls s = items step (mjoin ls) s.
Proof.
  revert s. induction ls as [|l ls IH]; intros s; simpl; [done|]. rewrite items_app.
  destruct (items step l s) as [s' [e|]]; [done|]. apply IH.
Qed.

Theorem batches_items {A S E} (step : A → S → S * option E) size l s : 1 ≤ size →
  for_batches (items step) (length l) size 0 l s = Some (items step l s).
Proof.
  intros Hs. rewrite for_batches_spec by (try rewrite length_drop; simpl; lia). rewrite each_items, chunks_join;
    [done|lia|by rewrite drop_0].
Qed.

(** With no positive size it does not end. *)
Lemma for_batches_spins {A S E} (body : list A → S → S * option E) fuel size i l s :
  size ≤ 0 → i ≤ 0 → l ≠ [] → (∀ b s', (body b s').2 = None) → for_batches body fuel size i l s = None.
Proof.
  intros Hs Hi Hl Hb. assert (0 < Z.of_nat (length l)) by (destruct l; [done|simpl; lia]).
  revert i s Hi. induction fuel as [|fuel IH]; intros i s Hi; simpl; destruct (Z.ltb_spec i (Z.of_nat (length l))); try lia.
  - done.
  - pose proof (Hb (js_slice l i (i + size)) s) as Hn. destruct (body _ s) as [s' o]. simpl in Hn. subst o. apply IH. lia.
Qed.
End Batches.

(** ** Due-date actions of invoices *)

Module Invoices.

Inductive due_error :=
| InvalidDateInput | NoOffset (input : string) | InvalidTimestamp (input : string)
| NoZonedDate (tz : string) | InvalidTimezone (tz : string).

Record InvoiceDueDateScheduleItem := {
  invoiceId : string; dueAtUtc : string; actionTriggeredAtUtc : option string
}.

(** [Date | string]; [None] is an invalid [Date]. *)
Inductive stamp := ADate (ms : option Z) | AText (s : string).

(** [/(?:Z|[+\-]\d{2}:\d{2})$/]. *)
Definition hasZone (s : string) : bool :=
  match rev (String.list_ascii_of_string s) with
  | "Z"%char :: _ => true
  | m0 :: m1 :: ":"%char :: h0 :: h1 :: sign :: _ =>
      is_digit m0 && is_digit m1 && is_digit h0 && is_digit h1 &&
      (Ascii.eqb sign "+"%char || Ascii.eqb sign "-"%char)
  | _ => false
  end.

Section Invoices.
(** [new Date(s).getTime()], [None] for [NaN]; [toISOString]; whether [Intl] knows
    a time zone; the parts of a formatted date, with their types. *)
Variable parseDate : string → option Z.
Variable toISO : Z → string.
Variable knownZone : string → bool.
Variable formatToParts : string → Z → list (string * string).

Definition parseTimestampWithZone (input : stamp) : result due_error Z :=
  match input with
  | ADate None => Err InvalidDateInput
  | ADate (Some t) => Ok t
  | AText s =>
      _ ← throw_if (negb (hasZone s)) (NoOffset s);
      match parseDate s with Some t => Ok t | None => Err (InvalidTimestamp s) end
  end.

Definition part (type : string) (parts : list (string * string)) : option string :=
  snd <$> List.find (λ p, String.eqb p.1 type) parts.

Definition zonedDayKey (t : Z) (tz : string) : result due_error string :=
  let parts := formatToParts tz t in
  _ ← throw_if (falsy (part "year" parts) || falsy (part "month" parts) || falsy (part "day" parts)) (NoZonedDate tz);
  Ok (default "" (part "year" parts) +:+ "-" +:+ default "" (part "month" parts) +:+ "-" +:+ default "" (part "day" parts)).

Definition normalizeToUtcIso (input : stamp) : result due_error string := toISO <$> parseTimestampWithZone input.

Definition validateTimezone (tz : string) : result due_error () := throw_if (negb (knownZone tz)) (InvalidTimezone tz).

(** The filter of [evaluateDueDateActions]. *)
Fixpoint select (tz today : string) (selected : gset string) (l : list InvoiceDueDateScheduleItem)
  : result due_error (list InvoiceDueDateScheduleItem) :=
  match l with
  | [] => Ok []
  | x :: l' =>
      if negb (falsy (actionTriggeredAtUtc x)) then select tz today selected l' else
      if bool_decide (invoiceId x ∈ selected) then select tz today selected l' else
      dueAt ← parseTimestampWithZone (AText (dueAtUtc x));
      day ← zonedDayKey dueAt tz;
      if String.leb day today then
        rest ← select tz today ({[invoiceId x]} ∪ selected) l'; Ok (x :: rest)
      else select tz today selected l'
  end.

Definition evaluateDueDateActions (l : list InvoiceDueDateScheduleItem) (tz : string) (nowUtc : stamp)
  : result due_error (list InvoiceDueDateScheduleItem) :=
  _ ← validateTimezone tz;
  now ← parseTimestampWithZone nowUtc;
  today ← zonedDayKey now tz;
  select tz today ∅ l.

(** *** The worker *)

(** The state of the repository; what it lists for a tenant, unless it throws;
    how it records an action, and whether that succeeded. *)
Context {W : Type}.
Variable listPendingDueDateInvoices : string → string → W → option (list InvoiceDueDateScheduleItem).
Variable markDueDateActionTriggered : string → string → W → W * bool.

Record TenantScheduleContext := { tenantId : string; timezone : string }.
Record InvoiceDueDateWorkerOptions := {
  tenantBatchSize : Z; validateTimezones : bool; skipMalformedInvoices : bool
}.
Record counters := { processedTenants : nat; evaluatedInvoices : nat; triggeredActions : nat; errors : nat }.

Definition bump (p e t r : nat) (c : counters) : counters :=
  {| processedTenants := processedTenants c + p; evaluatedInvoices := evaluatedInvoices c + e;
     triggeredActions := triggeredActions c + t; errors := errors c + r |}.

(** The invoices triggered one by one; a failure does not stop the others. *)
Fixpoint trigger (startTime : string) (ids : list string) (s : W * counters) : W * counters :=
  match ids with
  | [] => s
  | id :: ids' =>
      let '(w, ok) := markDueDateActionTriggered id startTime s.1 in
      trigger startTime ids' (w, if ok then bump 0 0 1 0 s.2 else bump 0 0 0 1 s.2)
  end.

Definition wellFormed (x : InvoiceDueDateScheduleItem) : bool := isOk (normalizeToUtcIso (AText (dueAtUtc x))).

(** One tenant. *)
Definition tenant_step (o : InvoiceDueDateWorkerOptions) (nowUtc : stamp) (startTime : string)
  (t : TenantScheduleContext) (s : W * counters) : W * counters :=
  if validateTimezones o && negb (isOk (validateTimezone (timezone t))) then s else
  match listPendingDueDateInvoices (tenantId t) startTime s.1 with
  | None => (s.1, bump 0 0 0 1 s.2)
  | Some invoices =>
      let c := bump 0 (length invoices) 0 0 s.2 in
      let evaluable := if skipMalformedInvoices o then List.filter wellFormed invoices else invoices in
      let c := bump 0 0 0 (length invoices - length evaluable) c in
      match evaluateDueDateActions evaluable (timezone t) nowUtc with
      | Err _ => (s.1, bump 0 0 0 1 c)
      | Ok dueNow =>
          let '(w, c) := trigger startTime (invoiceId <$> dueNow) (s.1, c) in (w, bump 1 0 0 0 c)
      end
  end.

Definition invalid_zones (o : InvoiceDueDateWorkerOptions) (ts : list TenantScheduleContext) : nat :=
  if validateTimezones o then length (List.filter (λ t, negb (isOk (validateTimezone (timezone t)))) ts) else 0.

(** [run]; [None] when it does not end. *)
Definition worker_run (fuel : nat) (o : InvoiceDueDateWorkerOptions) (nowUtc : stamp) (tenants : list TenantScheduleContext)
  (w : W) : option (result due_error (W * counters)) :=
  match normalizeToUtcIso nowUtc with
  | Err e => Some (Err e)
  | Ok startTime =>
      let c := {| processedTenants := 0; evaluatedInvoices := 0; triggeredActions := 0;
                  errors := invalid_zones o tenants |} in
      r ← Batches.for_batches (E := Empty_set)
            (Batches.items (λ t s, (tenant_step o nowUtc startTime t s, None))) fuel (tenantBatchSize o) 0 tenants (w, c);
      Some (Ok r.1)
  end.

(** *** What is selected *)

(** An invoice whose action is due on the tenant's day [today]. *)
Definition due (tz today : string) (x : InvoiceDueDateScheduleItem) : Prop :=
  falsy (actionTriggeredAtUtc x) = true ∧
  ∃ t day, parseTimestampWithZone (AText (dueAtUtc x)) = Ok t ∧ zonedDayKey t tz = Ok day ∧ String.leb day today = true.

Lemma exists_cons {A} (Q : A → Prop) x l : (∃ y, y ∈ x :: l ∧ Q y) ↔ Q x ∨ ∃ y, y ∈ l ∧ Q y.
Proof. setoid_rewrite elem_of_cons. naive_solver. Qed.

Lemma select_spec tz today sel l r : select tz today sel l = Ok r →
  NoDup (invoiceId <$> r) ∧
  ∀ id, id ∈ invoiceId <$> r ↔ id ∉ sel ∧ ∃ x, x ∈ l ∧ invoiceId x = id ∧ due tz today x.
Proof.
  revert sel r. induction l as [|x l IH]; intros sel r; cbn [select].
  { intros [= <-]. split; [constructor|]. intros id. split; [by intros ?%elem_of_nil|by intros (_ & y & ?%elem_of_nil & _)]. }
  setoid_rewrite exists_cons. destruct (falsy (actionTriggeredAtUtc x)) eqn:Ef; cbn [negb].
  2:{ intros [Hn Hin]%IH. split; [done|]. intros id. rewrite Hin.
      assert (¬ due tz today x) by (intros [H _]; congruence). tauto. }
  case_bool_decide as Hx.
  { intros [Hn Hin]%IH. split; [done|]. intros id. rewrite Hin.
    assert (id ∉ sel → invoiceId x ≠ id) by congruence. tauto. }
  intros H. apply bind_Ok_inv in H as (t & Ht & H). apply bind_Ok_inv in H as (day & Hday & H).
  destruct (String.leb day today) eqn:El.
  - assert (due tz today x) as Hd by (split; [done|by exists t, day]).
    apply bind_Ok_inv in H as (rest & Hr & [= <-]). apply IH in Hr as [Hn Hin]. split.
    + rewrite fmap_cons. apply NoDup_cons. split; [|done]. rewrite Hin. intros [Hs _]. apply Hs. set_solver+.
    + intros id. rewrite fmap_cons, elem_of_cons, Hin, not_elem_of_union, not_elem_of_singleton.
      destruct (decide (id = invoiceId x)) as [->|Hne]; [tauto|].
      assert (invoiceId x ≠ id) by congruence. tauto.
  - assert (¬ due tz today x) as Hd.
    { intros (_ & t' & day' & Ht' & Hday' & Hle). simplify_eq. congruence. }
    apply IH in H as [Hn Hin]. split; [done|]. intros id. rewrite Hin. tauto.
Qed.

(** Every date can be put into a zone that is known. *)
Definition formats : Prop := ∀ tz t, knownZone tz = true → isOk (zonedDayKey t tz) = true.

Lemma select_total tz today sel l : formats → knownZone tz = true → Forall (λ x, wellFormed x = true) l →
  ∃ r, select tz today sel l = Ok r.
Proof.
  intros Hf Hz Hl. revert sel. induction Hl as [|x l Hx Hl IH]; intros sel; cbn [select]; [by eexists|].
  destruct (negb _); [apply IH|]. case_bool_decide; [apply IH|].
  unfold wellFormed, normalizeToUtcIso in Hx. destruct (parseTimestampWithZone _) as [t|]; [|done]. simpl.
  specialize (Hf tz t Hz). destruct (zonedDayKey t tz) as [day|]; [|done]. simpl.
  destruct (String.leb day today); [|apply IH]. destruct (IH ({[invoiceId x]} ∪ sel)) as [r ->]. by eexists.
Qed.

Lemma trigger_spec startTime ids s :
  let s' := trigger startTime ids s in
  s'.1 = foldl (λ w id, (markDueDateActionTriggered id startTime w).1) s.1 ids ∧
  (triggeredActions s'.2 + errors s'.2 = triggeredActions s.2 + errors s.2 + length ids)%nat ∧
  processedTenants s'.2 = processedTenants s.2 ∧ evaluatedInvoices s'.2 = evaluatedInvoices s.2 ∧
  (triggeredActions s.2 ≤ triggeredActions s'.2)%nat.
Proof.
  revert s. induction ids as [|id ids IH]; intros [w c]; simpl; [split; [done|lia]|].
  destruct (markDueDateActionTriggered id startTime w) as [w' ok]. simpl.
  destruct (IH (w', if ok then bump 0 0 1 0 c else bump 0 0 0 1 c)) as (-> & H1 & H2 & H3 & H4).
  split; [done|]. destruct ok; simpl in *; lia.
Qed.

Lemma evaluate_total l tz nowUtc now : formats → knownZone tz = true → parseTimestampWithZone nowUtc = Ok now →
  Forall (λ x, wellFormed x = true) l →
  ∃ today r, zonedDayKey now tz = Ok today ∧ select tz today ∅ l = Ok r ∧ evaluateDueDateActions l tz nowUtc = Ok r.
Proof.
  intros Hf Hz Hn Hl. pose proof (Hf tz now Hz) as Hk. destruct (zonedDayKey now tz) as [today|] eqn:Et; [|done].
  destruct (select_total tz today ∅ l Hf Hz Hl) as [r Hr]. exists today, r. split; [done|]. split; [done|].
  unfold evaluateDueDateActions, validateTimezone, throw_if. rewrite Hz. cbn. rewrite Hn. cbn. rewrite Et. cbn. done.
Qed.

Lemma due_wellFormed tz today x : due tz today x → wellFormed x = true.
Proof. intros (_ & t & _ & Ht & _). unfold wellFormed, normalizeToUtcIso. by rewrite Ht. Qed.

(** What one tenant's turn does when its zone is known and the repository
    answers. *)
Lemma tenant_step_spec o nowUtc now startTime t w c invoices :
  formats → skipMalformedInvoices o = true → parseTimestampWithZone nowUtc = Ok now →
  knownZone (timezone t) = true → listPendingDueDateInvoices (tenantId t) startTime w = Some invoices →
  ∃ today ids,
    zonedDayKey now (timezone t) = Ok today ∧ NoDup ids ∧
    (∀ id, id ∈ ids ↔ ∃ x, x ∈ invoices ∧ invoiceId x = id ∧ due (timezone t) today x) ∧
    let '(w', c') := tenant_step o nowUtc startTime t (w, c) in
    w' = foldl (λ w id, (markDueDateActionTriggered id startTime w).1) w ids ∧
    processedTenants c' = S (processedTenants c) ∧
    evaluatedInvoices c' = (evaluatedInvoices c + length invoices)%nat ∧
    (triggeredActions c' + errors c' = triggeredActions c + errors c + length ids +
       length (List.filter (λ x, negb (wellFormed x)) invoices))%nat.
Proof.
  intros Hf Ho Hn Hz Hl. set (ev := List.filter wellFormed invoices).
  assert (Forall (λ x, wellFormed x = true) ev) as Hev.
  { apply Forall_forall. intros x Hx. apply list_elem_of_In, filter_In in Hx. tauto. }
  destruct (evaluate_total ev (timezone t) nowUtc now Hf Hz Hn Hev) as (today & r & Ht & Hr & He).
  destruct (select_spec _ _ _ _ _ Hr) as [Hnd Hin]. exists today, (invoiceId <$> r).
  split; [done|]. split; [done|]. split.
  { intros id. rewrite Hin. split.
    - intros (_ & x & Hx & Hid & Hd). exists x. split; [|done]. apply list_elem_of_In, filter_In in Hx as [Hx _].
      by apply list_elem_of_In.
    - intros (x & Hx & Hid & Hd). split; [set_solver+|]. exists x. split; [|done]. apply list_elem_of_In, filter_In.
      split; [by apply list_elem_of_In|by eapply due_wellFormed]. }
  unfold tenant_step, validateTimezone at 1, throw_if. rewrite Hz. cbn [negb isOk fst snd]. rewrite andb_false_r, Hl, Ho.
  fold ev. rewrite He. set (c0 := bump 0 0 0 _ _).
  pose proof (trigger_spec startTime (invoiceId <$> r) (w, c0)) as (Hw & Hc & Hp & Hev' & _).
  destruct (trigger _ _ _) as [w' c']. cbn [fst snd] in *. split; [done|]. unfold c0, bump in *. simpl in *.
  pose proof (filter_length wellFormed invoices) as Hlen. fold ev in Hlen. rewrite !length_fmap in *. lia.
Qed.

Lemma items_foldl {A S} (f : A → S → S) l s :
  (Batches.items (E := Empty_set) (λ x s, (f x s, None)) l s).1 = foldl (λ s x, f x s) s l.
Proof. revert s. induction l as [|x l IH]; intros s; [done|]. apply IH. Qed.

(** C27. The due-date worker triggers each due invoice once. With a positive batch
    size its run takes every tenant in turn. For a tenant with a known zone it
    records the action of exactly those of the pending invoices which are due,
    not triggered yet and have a due date that can be read, each invoice number
    once however many rows it has; where "due" compares the days of the due date
    and of now in the tenant's zone. One that fails does not keep the others
    from being triggered, and every invoice that was selected or could not be
    read is counted as triggered or as an error. *)
Theorem due_actions_once o nowUtc now startTime tenants w :
  formats → 1 ≤ tenantBatchSize o → skipMalformedInvoices o = true →
  parseTimestampWithZone nowUtc = Ok now → toISO now = startTime →
  worker_run (length tenants) o nowUtc tenants w =
    Some (Ok (foldl (λ s t, tenant_step o nowUtc startTime t s)
      (w, {| processedTenants := 0; evaluatedInvoices := 0; triggeredActions := 0; errors := invalid_zones o tenants |})
      tenants)) ∧
  ∀ t w c invoices, knownZone (timezone t) = true →
    listPendingDueDateInvoices (tenantId t) startTime w = Some invoices →
    ∃ today ids,
      zonedDayKey now (timezone t) = Ok today ∧ NoDup ids ∧
      (∀ id, id ∈ ids ↔ ∃ x, x ∈ invoices ∧ invoiceId x = id ∧ due (timezone t) today x) ∧
      let '(w', c') := tenant_step o nowUtc startTime t (w, c) in
      w' = foldl (λ w id, (markDueDateActionTriggered id startTime w).1) w ids ∧
      processedTenants c' = S (processedTenants c) ∧
      evaluatedInvoices c' = (evaluatedInvoices c + length invoices)%nat ∧
      (triggeredActions c' + errors c' = triggeredActions c + errors c + length ids +
         length (List.filter (λ x, negb (wellFormed x)) invoices))%nat.
Proof.
  intros Hf Hb Ho Hn <-. split; [|intros; by apply tenant_step_spec].
  unfold worker_run, normalizeToUtcIso. rewrite Hn. cbn [fmap result_fmap].
  rewrite Batches.batches_items by done. cbn. do 2 f_equal. apply items_foldl.
Qed.

(** Without a positive batch size the run never ends. *)
Lemma due_worker_spins fuel o nowUtc now tenants w : tenantBatchSize o ≤ 0 → tenants ≠ [] →
  parseTimestampWithZone nowUtc = Ok now → worker_run fuel o nowUtc tenants w = None.
Proof.
  intros Hb Ht Hn. unfold worker_run, normalizeToUtcIso. rewrite Hn. cbn [fmap result_fmap].
  rewrite Batches.for_batches_spins; [done|done|lia|done|].
  intros b s. revert s. induction b as [|x b IH]; intros s; [done|]. apply IH.
Qed.
End Invoices.

(** *** A tenant with four rows *)

Module InvoiceExample.
Definition parseDate (s : string) : option Z :=
  if String.eqb s "2026-03-24T10:00:00Z" then Some 0 else
  if String.eqb s "2026-03-24T22:00:00-05:00" then Some 1 else None.
Definition toISO (_ : Z) : string := "2026-03-24T10:00:00.000Z".
Definition formatToParts (tz : string) (t : Z) : list (string * string) :=
  [("year", "2026"); ("month", "03"); ("day", if t <? 1 then "24" else "25")].
Definition row (id due : string) : InvoiceDueDateScheduleItem :=
  {| invoiceId := id; dueAtUtc := due; actionTriggeredAtUtc := None |}.
Definition pending (tenant start : string) (w : list string) : option (list InvoiceDueDateScheduleItem) :=
  Some [row "a" "2026-03-24T10:00:00Z"; row "b" "2026-03-24T22:00:00-05:00"; row "a" "2026-03-24T10:00:00Z";
        row "c" "2026-03-24T10:00:00"].
Definition mark (id start : string) (w : list string) : list string * bool := (w ++ [id], true).
Definition options : InvoiceDueDateWorkerOptions :=
  {| tenantBatchSize := 200; validateTimezones := true; skipMalformedInvoices := true |}.
Definition tenant : TenantScheduleContext := {| tenantId := "t"; timezone := "UTC" |}.
Definition go : option (result due_error (list string * counters)) :=
  worker_run parseDate toISO (String.eqb "UTC") formatToParts pending mark 1 options (AText "2026-03-24T10:00:00Z") [tenant] [].

(** [due_actions_once] at that run: one action, one error. *)
Lemma due_actions_once_witness :
  (∃ r, go = Some (Ok r) ∧ r.1 = ["a"] ∧
     r.2 = {| processedTenants := 1; evaluatedInvoices := 4; triggeredActions := 1; errors := 1 |}).
Proof.
  destruct (due_actions_once parseDate toISO (String.eqb "UTC") formatToParts pending mark options
    (AText "2026-03-24T10:00:00Z") 0 "2026-03-24T10:00:00.000Z" [tenant] []) as [H _].
  - intros tz t _. unfold zonedDayKey, formatToParts. by destruct (t <? 1).
  - simpl. lia.
  - reflexivity.
  - reflexivity.
  - reflexivity.
  - eexists. split; [exact H|]. vm_compute. done.
Defined.
End InvoiceExample.
End Invoices.

(** ** Score snapshots *)

Module Snapshots.

Inductive job_error := LoadFailed | ComputeFailed | SaveFailed.

Record IdentityData := { address : string; bondedAmount : string; active : bool; attestationCount : Z }.

Section Snapshots.
(** Scores and the state of the store; the calls of the data source ([None] when
    they throw, and no call for a batch where the source has none), of the score
    computer and of the store. *)
Context {Score W : Type}.
Variable getIdentityData : string → option (option IdentityData).
Variable getIdentityDataBatch : option (list string → option (list IdentityData)).
Variable scoreComputer : IdentityData → option Score.

(** Without its time. *)
Record ScoreSnapshot := {
  snapAddress : string; score : Score; snapBonded : string; snapAttestations : Z; scoringModelVersion : string
}.
Variable saveBatch : list ScoreSnapshot → W → W * bool.

Record SnapshotJob := { batchSize : Z; continueOnError : bool; modelVersion : string }.
Record counts := { processed : nat; saved : nat; failed : nat }.

Section Run.
Variable job : SnapshotJob.

Definition snapshot (a : string) (d : IdentityData) (sc : Score) : ScoreSnapshot :=
  {| snapAddress := a; score := sc; snapBonded := bondedAmount d; snapAttestations := attestationCount d;
     scoringModelVersion := modelVersion job |}.

(** [loadBatchData]: the last row of an address wins. *)
Definition loadBatchData (rows : list IdentityData) : gmap string IdentityData :=
  foldl (λ m r, <[address r := r]> m) ∅ rows.

(** One address of a batch, given how its data is found. *)
Definition address_step (fetch : string → option (option IdentityData)) (a : string)
  (s : counts * list ScoreSnapshot) : (counts * list ScoreSnapshot) * option job_error :=
  let '(c, snaps) := s in
  let fail e := ({| processed := processed c; saved := saved c; failed := S (failed c) |}, snaps,
                 if continueOnError job then None else Some e) in
  let done := {| processed := S (processed c); saved := saved c; failed := failed c |} in
  match fetch a with
  | None => fail LoadFailed
  | Some None => (done, snaps, None)
  | Some (Some d) =>
      match scoreComputer d with
      | None => fail ComputeFailed
      | Some sc => (done, snaps ++ [snapshot a d sc], None)
      end
  end.

Definition save_step (snaps : list ScoreSnapshot) (s : W * counts) : (W * counts) * option job_error :=
  let '(w, c) := s in
  match snaps with
  | [] => (s, None)
  | _ =>
      let '(w', ok) := saveBatch snaps w in
      if ok then ((w', {| processed := processed c; saved := saved c + length snaps; failed := failed c |}), None)
      else ((w', {| processed := processed c; saved := saved c; failed := failed c + length snaps |}),
            if continueOnError job then None else Some SaveFailed)
  end.

(** How the data of a batch is found; [None] when the call for it throws. *)
Definition fetcher (batch : list string) : option (string → option (option IdentityData)) :=
  match getIdentityDataBatch with
  | Some load => rows ← load batch; Some (λ a, Some (loadBatchData rows !! a))
  | None => Some getIdentityData
  end.

Definition batch_step (batch : list string) (s : W * counts) : (W * counts) * option job_error :=
  let '(w, c) := s in
  match fetcher batch with
  | None => (s, Some LoadFailed)
  | Some fetch =>
      match Batches.items (address_step fetch) batch (c, []) with
      | (c', _, Some e) => ((w, c'), Some e)
      | (c', snaps, None) => save_step snaps (w, c')
      end
  end.

Definition job_run (fuel : nat) (addresses : list string) (w : W) : option ((W * counts) * option job_error) :=
  Batches.for_batches batch_step fuel (batchSize job) 0 addresses (w, {| processed := 0; saved := 0; failed := 0 |}).

(** *** What is saved and counted *)

(** The snapshots of a batch, and the addresses that cannot be scored. *)
Definition snaps_of (fetch : string → option (option IdentityData)) (batch : list string) : list ScoreSnapshot :=
  omap (λ a, match fetch a with Some (Some d) => snapshot a d <$> scoreComputer d | _ => None end) batch.

Definition unscored (fetch : string → option (option IdentityData)) (a : string) : bool :=
  match fetch a with None => true | Some None => false | Some (Some d) => negb (isSome (scoreComputer d)) end.

Lemma address_step_spec fetch a c snaps : continueOnError job = true →
  address_step fetch a (c, snaps) =
    (if unscored fetch a then {| processed := processed c; saved := saved c; failed := S (failed c) |}
     else {| processed := S (processed c); saved := saved c; failed := failed c |},
     snaps ++ snaps_of fetch [a], None).
Proof.
  intros Hc. unfold address_step, unscored, snaps_of. simpl. rewrite Hc.
  destruct (fetch a) as [[d|]|]; [destruct (scoreComputer d)|..]; simpl; by rewrite ?app_nil_r.
Qed.

Lemma snaps_cons fetch a batch : snaps_of fetch (a :: batch) = snaps_of fetch [a] ++ snaps_of fetch batch.
Proof. unfold snaps_of. simpl. by case_match. Qed.

Lemma address_items fetch batch c snaps : continueOnError job = true →
  let bad := length (List.filter (unscored fetch) batch) in
  Batches.items (address_step fetch) batch (c, snaps) =
    ({| processed := processed c + (length batch - bad); saved := saved c; failed := failed c + bad |},
     snaps ++ snaps_of fetch batch, None) ∧ (bad ≤ length batch)%nat.
Proof.
  intros Hc. revert c snaps. induction batch as [|a batch IH]; intros c snaps.
  { simpl. rewrite app_nil_r, !Nat.add_0_r. by destruct c. }
  cbn [Batches.items]. rewrite address_step_spec, (snaps_cons fetch a batch), app_assoc by done. cbn [List.filter].
  destruct (unscored fetch a);
    edestruct IH as [-> Hle]; cbn [processed saved failed length]; (split; [|lia]); do 2 f_equal; f_equal; lia.
Qed.

Lemma snaps_length fetch l : (length (snaps_of fetch l) ≤ length l)%nat.
Proof.
  induction l as [|a l IH]; [simpl; lia|]. rewrite snaps_cons, length_app.
  assert (length (snaps_of fetch [a]) ≤ 1)%nat by (unfold snaps_of; simpl; repeat case_match; simpl; lia). cbn [length]. lia.
Qed.

(** Every address is counted: processed, or an error; the snapshots of a batch
    that could not be saved are counted as errors on top. *)
Theorem batch_accounted batch fetch w c : continueOnError job = true → fetcher batch = Some fetch →
  let '(w', c', e) := batch_step batch (w, c) in
  e = None ∧
  w' = (if decide (snaps_of fetch batch = []) then w else (saveBatch (snaps_of fetch batch) w).1) ∧
  ∃ unsaved,
    (processed c' + failed c' = processed c + failed c + length batch + unsaved)%nat ∧
    (saved c' + unsaved = saved c + length (snaps_of fetch batch))%nat ∧
    (unsaved = 0%nat ∨ unsaved = length (snaps_of fetch batch)).
Proof.
  intros Hc Hf. unfold batch_step. rewrite Hf. destruct (address_items fetch batch c [] Hc) as [-> Hle].
  simpl. unfold save_step. destruct (snaps_of fetch batch) as [|x l] eqn:Es.
  { rewrite decide_True by done. split; [done|]. split; [done|]. exists 0%nat. simpl. lia. }
  rewrite decide_False by done. destruct (saveBatch (x :: l) w) as [w' []] eqn:Ew; simpl.
  - split; [done|]. split; [done|]. exists 0%nat. simpl. lia.
  - rewrite Hc. split; [done|]. split; [done|]. exists (S (length l)). simpl. lia.
Qed.

(** A batch whose data cannot be loaded ends the run, also of a job that is to
    continue on errors. *)
Lemma load_failure_stops batch s : fetcher batch = None → batch_step batch s = (s, Some LoadFailed).
Proof. intros H. unfold batch_step. destruct s. by rewrite H. Qed.

(** With a positive batch size, and data that can be loaded, the job returns and
    counts every address. *)
Theorem snapshots_accounted addresses w : 1 ≤ batchSize job → continueOnError job = true →
  (∀ b, isSome (fetcher b) = true) →
  ∃ w' c' unsaved, job_run (length addresses) addresses w = Some (w', c', None) ∧
    (processed c' + failed c' = length addresses + unsaved)%nat ∧ (saved c' + unsaved ≤ length addresses)%nat.
Proof.
  intros Hb Hc Hf. unfold job_run. rewrite Batches.for_batches_spec by (try rewrite length_drop; lia).
  rewrite drop_0. set (ls := Batches.chunks _ _ _).
  assert (mjoin ls = addresses) as Hj by (apply Batches.chunks_join; lia). rewrite <- Hj. clearbody ls. clear Hj.
  assert (∀ c, ∃ w' c' unsaved, Batches.each batch_step ls (w, c) = (w', c', None) ∧
    (processed c' + failed c' = processed c + failed c + length (mjoin ls) + unsaved)%nat ∧
    (saved c' + unsaved ≤ saved c + length (mjoin ls))%nat) as H.
  2:{ edestruct H as (w' & c' & u & -> & H1 & H2). by exists w', c', u. }
  revert w. induction ls as [|l ls IH]; intros w c; cbn [Batches.each].
  { exists w, c, 0%nat. split; [done|]. simpl. lia. }
  destruct (fetcher l) as [fetch|] eqn:Ef; [|specialize (Hf l); by rewrite Ef in Hf].
  pose proof (batch_accounted l fetch w c Hc Ef) as Hba. destruct (batch_step l (w, c)) as [[w1 c1] e].
  destruct Hba as (-> & _ & un & Ha & Hs & _). destruct (IH w1 c1) as (w' & c' & u & -> & H1 & H2).
  pose proof (snaps_length fetch l). exists w', c', (un + u)%nat. change (mjoin (l :: ls)) with (l ++ mjoin ls). rewrite length_app. split; [done|]. lia.
Qed.
End Run.
End Snapshots.
End Snapshots.

(** ** Exports *)

Module Exports.
Section Exports.
Context {row : Type}.

(** What is asked of the writer, in order. *)
Inductive writer_call := Opened | Written (rows : list row) | Closed | Aborted.

(** The batches of the cursor; [CursorFails] when asking for one throws. *)
Inductive pulled := Batch (rows : list row) | CursorFails.

Record writer := { openOk : bool; writeOk : list row → bool; closeOk : bool; abortOk : bool }.

Inductive export_error := CountFailed | OpenFailed | CursorFailed | WriteFailed | CloseFailed | AbortFailed.
Record ExportWorkerResult := { totalRows : nat; batchesProcessed : nat; errors : nat }.

(** [pumpExportBatches]: one batch at a time, up to the first failure. *)
Fixpoint pumpExportBatches (w : writer) (cursor : list pulled) (total batches : nat)
  : list writer_call * result export_error (nat * nat) :=
  match cursor with
  | [] => ([], Ok (total, batches))
  | CursorFails :: _ => ([], Err CursorFailed)
  | Batch rows :: rest =>
      if writeOk w rows then
        let '(calls, r) := pumpExportBatches w rest (total + length rows) (S batches) in (Written rows :: calls, r)
      else ([Written rows], Err WriteFailed)
  end.

(** [run]: the calls it makes and what it returns or throws. *)
Definition export_run (countOk : bool) (w : writer) (cursor : list pulled)
  : list writer_call * result export_error ExportWorkerResult :=
  if negb countOk then ([], Err CountFailed) else
  if negb (openOk w) then ([Opened], Err OpenFailed) else
  let abort calls e := (Opened :: calls ++ [Aborted], Err (if abortOk w then e else AbortFailed)) in
  let '(calls, r) := pumpExportBatches w cursor 0 0 in
  match r with
  | Err e => abort calls e
  | Ok (total, n) =>
      if closeOk w then (Opened :: calls ++ [Closed], Ok {| totalRows := total; batchesProcessed := n; errors := 0 |})
      else abort (calls ++ [Closed]) CloseFailed
  end.

Definition rows_of (cursor : list pulled) : list (list row) :=
  omap (λ p, match p with Batch rows => Some rows | CursorFails => None end) cursor.

Lemma pump_ok w cursor total n calls r : pumpExportBatches w cursor total n = (calls, Ok r) →
  calls = Written <$> rows_of cursor ∧ length (rows_of cursor) = length cursor ∧
  r = (total + length (mjoin (rows_of cursor)), n + length cursor)%nat.
Proof.
  revert total n calls. induction cursor as [|p cursor IH]; intros total n calls; simpl.
  { intros [= <- <-]. split; [done|]. split; [done|]. f_equal; lia. }
  destruct p as [rows|]; [|done]. destruct (writeOk w rows); [|done].
  destruct (pumpExportBatches w cursor _ _) as [cs o] eqn:Ep. intros [= <- ->].
  destruct (IH _ _ _ Ep) as (-> & Hl & ->). unfold rows_of in *. simpl. split; [done|]. split; [by rewrite Hl|].
  rewrite length_app. f_equal; lia.
Qed.

(** An export that returns has opened the writer, written every batch of the
    cursor in order and closed it, and counts all rows; one that fails after it
    opened the writer ends by aborting it, whether a batch, the cursor or the
    closing failed. The count of errors it returns is always zero. *)
Theorem export_closed_or_aborted countOk w cursor :
  match export_run countOk w cursor with
  | (calls, Ok r) =>
      calls = Opened :: (Written <$> rows_of cursor) ++ [Closed] ∧ length (rows_of cursor) = length cursor ∧
      totalRows r = length (mjoin (rows_of cursor)) ∧ batchesProcessed r = length cursor ∧ errors r = 0%nat
  | (calls, Err e) =>
      (calls = [] ∧ e = CountFailed) ∨ (calls = [Opened] ∧ e = OpenFailed) ∨ ∃ cs, calls = Opened :: cs ++ [Aborted]
  end.
Proof.
  unfold export_run. destruct countOk; simpl; [|tauto]. destruct (openOk w); simpl; [|tauto].
  destruct (pumpExportBatches w cursor 0 0) as [calls [[total n]|e]] eqn:Ep; [|right; right; by eexists].
  destruct (closeOk w); [|right; right; by eexists]. destruct (pump_ok _ _ _ _ _ _ Ep) as (-> & Hl & [= -> ->]).
  simpl. repeat split; try done.
Qed.
End Exports.
End Exports.
